(* ===== verification/_CoqProject ===== *)
-Q . S2P
Prelude.v
Strings.v
Wtf8.v
Wyhash.v
SemverString.v
SemverVersion.v
SemverRange.v
SemverQuery.v
Sha256.v
Sha256Fips.v
Merkle.v
ElfSign.v
Vlq.v
SourceMap.v
SourceMapTheorems.v
Valkey.v
ValkeyTheorems.v
ValkeyScan.v
ValkeyClient.v
Heap.v
HeapTheorems.v
Timers.v
TimersTheorems.v
TimersOrder.v
TimersSleep.v
Threads.v
Mutex.v
Semaphore.v
RwLock.v
StaticHashMap.v
IndexSort.v
TrustedDependencies.v
LockfileTrust.v
LinearFifo.v
Channel.v
Glob.v
GlobTotal.v
GlobSpec.v
GlobTheorems.v
Paths.v
PathsSpec.v
PathsTheorems.v
PathsRelative.v
PathsRelativeTheorems.v
Npm.v
NpmTheorems.v
SignalRing.v
Braces.v
BracesSpec.v
BracesLexer.v
BracesTheorems.v
