(* ===== verification/Prelude.v ===== *)
(** * Verification of parts of Bun

    The repository is Bun, a JavaScript runtime, bundler and package manager
    written in Rust, with an OpenHarmony port. This development models these
    parts of its own logic, function by function, with the code they call:

    - the semantic-version library [src/src/semver], on which every
      decision of the package manager about versions rests;
    - the code signer [src/src/ohos_sign], which makes an executable built by
      the port loadable on OpenHarmony;
    - source maps [src/src/sourcemap], which carry every position the runtime
      reports back to the code that was written;
    - the Valkey client's protocol [src/src/valkey] and its receive path;
    - the timers of the event loop [src/src/runtime/timer] and the pairing heap
      they are kept in [src/src/io/heap.rs];
    - the matcher of path patterns [src/src/glob], with the code points of
      [bun_core] it reads;
    - the locks of [src/src/threading] (the futex mutex that all locking rests
      on, the condition, the semaphore and the read-write lock), its channels and
      its ring of signals;
    - containers of [src/src/collections]: the Robin-Hood table, the index sorts
      and the ring buffer;
    - paths [src/src/paths]: normalising, joining and relating them;
    - brace expansion of the shell [src/src/shell_parser/braces.rs];
    - two decisions of the package manager: whether a package may run its install
      scripts [src/src/install/lockfile.rs], and which version of a package to
      take [src/src/install/npm.rs].

    ** Components and files

    Each component is a file; a file uses only files listed before it.

    - [Prelude.v] (this file): the outcome monad, machine integers, byte
      encodings, bounds-checked slices, the laws of comparisons and loops run for
      a number of rounds that is a power of two ([rounds]).
    - [Strings.v]: the byte-string routines the library calls, from
      [bun_core/string/immutable.rs] ([eql_long], [order], [index_of],
      [split]), [bun_core/fmt.rs] ([parse_unsigned]), [bun_alloc/lib.rs]
      ([trim]) and [highway/lib.rs] ([index_of_char]).
    - [Wyhash.v]: [wyhash/lib.rs], the hash of interned strings: the one-shot
      [WyhashStateless] and the streaming [Wyhash11] with its 32-byte buffer.
    - [SemverString.v]: [semver/lib.rs]. A [String] is eight bytes, holding
      either the text inline or a packed (offset, length) into a buffer that
      its user passes back; [Buf] and [Builder] are the two ways to fill such
      a buffer. A Rust slice of a buffer is modelled by its offset and bytes.
      [BuilderStringType] is the source's trait as a class; its laws
      ([BuilderStringLaws]) are what the builder's theorem is proved against,
      and [String] and [ExternalString] are its two instances.
    - [SemverVersion.v]: [semver/Version.rs]: parsing and printing, the order,
      pins, and moving a version to another buffer. [VersionInt] is the trait
      of the number type, with its [u64] and [u32] instances.
    - [SemverRange.v]: [semver/SemverRange.rs]: comparators and pairs of them.
    - [SemverQuery.v]: [semver/SemverQuery.rs] and [semver/intersects.rs]. A
      [Group] is a linked list (OR) of linked lists (AND) of ranges; its raw
      pointers to the last node of a chain are modelled by the depth of the
      node, and a dangling one is a panic.
    - [Sha256.v], [Merkle.v], [ElfSign.v]: [ohos_sign/src/sha256.rs],
      [merkle.rs], [descriptor.rs], [elf.rs] and [lib.rs]. [sign] injects a
      one-page [.codesign] section, hashes the result without that page into a
      Merkle root, and writes an fs-verity descriptor and its digest there.
      [Sha256Fips.v] states SHA-256 as FIPS 180-4 does and proves the hash
      equal to it.
    - [Vlq.v], [SourceMap.v], [SourceMapTheorems.v]: the base64 digits of
      [base64/lib.rs]; the mappings of [sourcemap/Mapping.rs] with their parser,
      lookup and sort, the printer [write_vlqs] of [ParsedSourceMap.rs], the
      text builder of [lib.rs] and [Chunk.rs] and the line searches of
      [LineOffsetTable.rs]. The C++ kernel that parses most of a long text
      ([jsc/bindings/highway_sourcemap.cpp]) is not modelled: it is the argument
      [Kernel] of [parse], [kernel_resumes] is what its comments say of it (it
      stops where the loop of [parse] can go on), and the round trip
      [mappings_parse_write_vlqs] is about the texts on which it is not called.
    - [Valkey.v], [ValkeyTheorems.v], [ValkeyScan.v], [ValkeyClient.v]:
      [valkey/valkey_protocol.rs], the reader of replies and the incremental
      scanner. Their specification is a grammar of replies ([reply_in]) in two
      dialects: RESP, and the wider one that the reader accepts;
      [on_data] of [runtime/valkey_jsc/valkey.rs] over the buffer of
      [collections/vec_ext.rs], and the commands of [ValkeyCommand.rs]. The class
      [Platform] has the doubles, the two C functions and the type sizes the
      reader uses; the handling of a reply is an argument of [on_data].
    - [Heap.v], [HeapTheorems.v]: [io/heap.rs]. Nodes are addresses in a store
      of their link fields; the shape of a heap is an abstract forest, related
      to the store by [linked]. [HeapContext] is the source's trait and
      [HeapOrder] the law its users owe.
    - [Timers.v], [TimersTheorems.v], [TimersOrder.v], [TimersSleep.v]:
      [event_loop/EventLoopTimer.rs], [Timespec] of [bun_core/util.rs] and
      [All] of [runtime/timer/mod.rs], three heaps in one store. The callback
      of a timer is the argument [fire] of the draining loops, and a reading of
      the clock is an argument of what reads it.
    - [Threads.v], [Mutex.v], [Semaphore.v], [RwLock.v]: [FutexImpl] of
      [threading/Mutex.rs] as a relation on a word and the places of its threads,
      over what [Futex.rs] documents. [Semaphore.v] is [FutexImpl] of
      [threading/Condition.rs] (wait, wake and signal, step by step) and
      [threading/Semaphore.rs] over it, both over the contract of the mutex;
      [RwLock.v] is [RawRwLock] of [threading/RwLock.rs], whose steps include
      those of its semaphore. [Threads.v] has the sums over threads that the
      invariants are about.
    - [StaticHashMap.v]: [collections/StaticHashMap.rs], a table of entries in
      the order of their hashes; the context of the table is a class.
    - [IndexSort.v]: [collections/index_sort.rs], sorts through an index array
      and the permutation in place along cycles.
    - [LinearFifo.v], [Channel.v]: [collections/linear_fifo.rs], a ring buffer
      over a fixed or growing array (a class), and [threading/channel.rs] over
      it; what other threads do while a thread waits is an argument.
    - [TrustedDependencies.v], [LockfileTrust.v]: the list of default trusted
      dependencies of [install/lockfile.rs] with the static table it is compiled
      to, and [has_trusted_dependency] with the resolutions it looks at.
    - [Wtf8.v]: one code point of a text, from [bun_core/lib.rs] and
      [bun_core/string/immutable/unicode.rs].
    - [Glob.v], [GlobTotal.v], [GlobSpec.v], [GlobTheorems.v]: [glob/matcher.rs]
      and [detect_glob_syntax] of [glob/lib.rs]. A round of the main loop is a
      function on the state; the code's labelled breaks are the constructors of
      [arm]. [GlobSpec.v] gives patterns without alternatives a meaning
      ([gmatch]) that does not mention backtracking.
    - [Paths.v], [PathsSpec.v], [PathsTheorems.v]: [paths/resolve_path.rs], the
      loop that normalises a path in a buffer, its callers, the joins and the
      directory and base names. [PathsSpec.v] gives a path its meaning, a list of
      elements that is resolved by a fold ([resolve]) and written out ([render]).
      [PathsRelative.v], [PathsRelativeTheorems.v]: the common part of several
      paths and the path from one directory to another.
    - [Npm.v], [NpmTheorems.v]: [install/npm.rs], the manifest of a package as
      windows of arrays and the choice of a version from it by a version, a tag
      or a range, with and without a minimum age of releases. Times are [f64],
      computed with the standard library's [SpecFloat].
    - [SignalRing.v]: [threading/signal_ring.rs], the ring that signal handlers
      fill without a lock, as a relation whose steps are its atomic accesses.
    - [Braces.v], [BracesSpec.v], [BracesLexer.v], [BracesTheorems.v]:
      [shell_parser/braces.rs] (lexer, parser, the nested and the flat
      expansion), the code points it reads and [Bun.braces] of
      [runtime/api/BunObject.rs]. [BracesSpec.v] gives a text its meaning, a
      tree of alternatives and the list of its expansions.

    ** How the code is modelled

    Every function is executable. Code that can panic (an index, an [expect],
    an [unreachable!]) returns an [outcome]; [Result] is a sum inside it.
    Integers are [Z] with the wrap-around of their width written out; the
    release build is modelled, where overflow wraps, on a 64-bit little-endian
    target. A byte is a [Z] below 256 ([is_bytes]); sizes are assumed below
    2^31 for version texts and 2^63 for files, where the code itself relies on
    packed lengths and on allocations. Mutated state is passed explicitly.
    Loops that are not structural take fuel, an upper bound on their rounds:
    the length of the input for the two parsers (each round consumes a byte),
    the length of the string for the comparison of pre-releases (each round
    consumes a field), the number of hashes for the levels of the Merkle tree
    (each level is shorter), the bytes left for the mappings, for a reply's
    elements, for the scanner and for [on_data] (each round consumes a byte),
    the depth limit of 128 for the nesting of replies, and the number of nodes
    for the loops over a heap (each round takes a node off a list), the slots of
    a table and the positions of a permutation. A round of the glob matcher may
    go back, so its loop has [2 ^ 256] rounds: for texts below 2^31 bytes the
    lexicographic measure [rank] of [GlobTotal.v] is below that. The theorems
    that a function returns [Done] show that the fuel is never exhausted; how
    long timers are drained depends on their callbacks, so that fuel is the
    caller's. A loop over the characters of a path or the versions of a manifest
    has their number as fuel; the lexer of braces has the length of the text, its
    parser and its expansion twice the number of tokens.
    Threads are interleaved, a step being one access: the orderings of the atomic
    accesses (acquire, release) are taken to give that, and weaker behaviours of
    the memory are not modelled.
    [Display for bstr::BStr], of a crate outside the repository, is the
    argument [bstr] of the printing functions, with [keeps_ascii] as the one
    law that is used; the file system of the in-place entry points is an
    argument too.

    ** What is proved

    - Strings are represented faithfully: what is packed is read back
      ([String_init_slice]), equality and the word-parallel length agree with
      the plain ones ([String_eql_iff], [inline_len_scan]), the two-pass
      builder and the growable buffer keep every handle valid
      ([Builder_handles_resolve], [Buf_append_resolves]), and so does
      [clone_into] ([Version_clone_into_resolves]); streaming the hash equals
      hashing at once ([Wyhash11_streaming]).
    - Versions: parse and print are inverse ([Version_parse_fmt]), parsing is
      total ([Version_parse_total]), the order is semver precedence while numeric
      identifiers are below 2^64 ([order_is_precedence]) and a total preorder ([order_total_preorder]),
      pins are recovered from text ([which_version_is_pinned_text]).
    - Queries: the linked groups refine disjunctions of conjunctions
      ([group_operations_refine]); each operator desugars to a range that
      accepts what node-semver accepts, [>*] and [<*] excepted
      ([to_range_accepts], [hyphen_range_accepts]); the parser is total
      ([query_parse_total]) and reads every text of a grammar of full and
      partial versions as it should ([query_parse_grammar],
      [single_query_accepts]); satisfaction and intersection are what they say
      ([Group_satisfies_iff], [intersects_iff]).
    - Signing: the hash is SHA-256 ([sha256_hash_is_fips], with the known
      answers of the standard); the root is the Merkle root and binds all but
      the signature, or two pages that were hashed collide
      ([root_hash_is_merkle_root], [root_hash_binding]); a signed
      file verifies, is recognised and keeps the original
      ([sign_verifies], [sign_marks], [sign_preserves]); each unfit file is
      refused with its error ([sign_errors]).
    - Source maps: printing and parsing are inverse up to names where the kernel
      is not called ([mappings_parse_write_vlqs]); with a kernel that does what
      its comments say, parsing any text ends with rows in range
      ([mappings_parse_bounds]); a lookup finds the row that covers a position
      ([mappings_parse_find]); the line search with a hint is the line search
      ([find_line_with_hint_correct]).
    - Valkey: the reader reads RESP, and exactly the replies of the wider
      dialect ([read_value_grammar]), within
      its bounds ([read_value_bounds]); a scan can be resumed ([scan_resume]);
      the replies handled do not depend on how the bytes were cut into segments
      ([receive_segments]); commands read back ([Command_write_read]).
    - Timers: the linked nodes of the heap implement a set with a minimum
      ([heap_refines_queue]); every operation on timers keeps the three heaps
      and the marks of the timers ([timer_operations_keep_heaps]); JavaScript
      timers fire by deadline and order of scheduling
      ([timers_fire_in_order]); the poll sleeps until the deadline of a timer of
      the earliest millisecond ([get_timeout_ends_at_deadline]).
    - The mutex excludes ([mutex_excludes]) and loses no request, though it is
      not fair ([mutex_requests_granted]); the read-write lock excludes
      ([rwlock_excludes]) and does not deadlock ([rwlock_deadlock_free]), no
      post of its semaphore leaving a writer asleep.
    - Containers: the table is a finite map whose new entries are bounded
      ([StaticHashMap_run_refines]), the ring buffer a list
      ([LinearFifo_run_refines]); permuting in place and sorting through indices
      are what they replace ([apply_permutation_in_place_equiv],
      [sort_slice_by_equiv]).
    - Trust: the table of defaults answers membership in the list
      ([default_has_iff]), and scripts run exactly for the packages that are
      trusted by name and source ([has_trusted_dependency_iff]).
    - Glob patterns: encoding and decoding of code points are inverse
      ([wtf8_rune_roundtrip]) and what is read is a code point
      ([decode_wtf8_rune_at_typed]); the matcher returns on all texts
      ([glob_match_total]) and decides the meaning of patterns, unless a class
      that accepts separators stands between a [*] and a later [*] or [/]
      ([glob_match_correct]); [detect_glob_syntax] finds what is not escaped
      ([detect_glob_syntax_iff]).
    - Paths: normalising is resolving the elements and writing them out
      ([normalize_string_generic_tz_correct]); a join from an absolute directory
      is that of all the elements, refused exactly when it does not fit
      ([join_abs_string_buf_checked_correct]), and never leaves the root
      ([join_abs_string_buf_checked_safe]); a relative path joined to where it
      starts leads to where it goes ([relative_join_roundtrip]); the common path
      of two to eight paths is their longest ([longest_common_path_correct]).
    - Choice of a version: without a minimum age it is the version tagged latest
      if the range takes it, else the highest one that satisfies the range
      ([find_best_version_correct]); with one, no
      version that is too recent is chosen ([release_age_respected]) and each
      error means what its name says ([find_best_version_with_filter_correct]).
    - The ring of signals is a bounded queue ([signal_ring_refines_queue]): what
      is delivered is what was accepted, in order ([signals_delivered_in_order]),
      and the consumer alone takes out the oldest ([dequeue_delivers_oldest]).
    - Braces: the expansion of a text is the list of its meanings, in order
      ([braces_correct]), and lexing loses no text ([tokenize_lossless]).
    - The sections named Observations prove, on concrete inputs, behaviours
      that look unintended (hash collisions in [Buf], hyphens in build
      metadata, [^*] as a first alternative, printing of alternatives, wrapping
      section offsets, eleven groups of a glob pattern in a row,
      [class_before_separator]); so do [large_identifiers_compare_as_text],
      [star_comparisons] and [bare_version_starts_alternative] for versions,
      [exact_version_hides_alternatives] for the choice of one,
      [loose_replies_read] for Valkey,
      [mixed_timers_fire_out_of_order] for timers, [default_key_found] for the
      table, [realign_large_item_stuck] for the ring buffer,
      [write_items_repeats] for channels, and [longest_common_path_not_common],
      [get_if_exists_not_common] and [posix_backslash_separates] for paths,
      [trailing_backslash_lost] and [wide_group_fails] for braces.

    ** What is not modelled

    Formatters for terminals and JSON, the lockfile's layout assertions and
    migrations, memory reclamation ([Drop]), running out of memory, error
    message texts and command lines; of source maps the internal binary format,
    the joining of chunks and the loading of sources; of the Valkey client
    everything that works on JavaScript objects (promises, queues, options) and
    the socket; of timers the JavaScript objects that own them and immediates;
    of glob patterns the meaning of alternatives (their code is modelled, and
    proved to return) and the walk over directories; of paths the 16-bit
    variants, the joins of Windows and the thread-local buffers; of the package
    manager the registry's answers (the manifest is taken as parsed and sorted),
    the rest of resolution and installation; of the shell everything but braces,
    and of braces their printers. [strip] of the signer is modelled,
    with no theorem of its own. The fake clock of the test runner, the timed
    waits and broadcasts of conditions and the other primitives of [threading]
    (events, wait groups, the thread pool and the unbounded queue) are left out.
    Of the rest of the runtime (parser, bundler, HTTP, bindings) nothing is
    modelled: it works on JavaScript objects and on the system, through
    interfaces of C++ that are not in the Rust sources. *)
From Stdlib Require Import ZArith Lia.
From stdpp Require Import base list numbers option.
#[local] Open Scope Z_scope.

(** ** Scope, outcomes and machine integers *)

Declare Scope bun_scope.
Delimit Scope bun_scope with bun.
#[global] Open Scope bun_scope.

(** A slice of bytes. A byte is a [Z] in [0, 256): see [is_bytes]. *)
Abbreviation bytes := (list Z) (only parsing).

(** The outcome of code that can panic: an index out of range, a failed
    [expect] or [unreachable!] is [Panic]; [NoFuel] is the exhaustion of the
    fuel of a modelled loop and is never the outcome of a run of the program. *)
Inductive outcome (A : Type) : Type :=
| Done (a : A)
| Panic
| NoFuel.
Arguments Done {A} a.
Arguments Panic {A}.
Arguments NoFuel {A}.

Definition obind {A B : Type} (x : outcome A) (f : A -> outcome B) : outcome B :=
  match x with
  | Done a => f a
  | Panic => Panic
  | NoFuel => NoFuel
  end.

Notation "'let!' p ':=' e 'in' k" := (obind e (fun p => k))
  (at level 10, p pattern, e at level 200, k at level 200,
   format "'[v' 'let!'  p  ':='  e  'in' '/' k ']'") : bun_scope.

(** Exclusive upper bounds of the unsigned integer types. *)
Definition two8 : Z := 256.
Definition two16 : Z := 65536.
Definition two32 : Z := 4294967296.
Definition two64 : Z := 18446744073709551616.
Definition u64_MAX : Z := 18446744073709551615.

Definition is_u64 (z : Z) : Prop := 0 <= z < two64.
Definition is_byte (z : Z) : Prop := 0 <= z < two8.
Definition is_bytes (l : bytes) : Prop := Forall is_byte l.

(** Truncating casts and wrapping addition (release builds wrap). *)
Definition as_u32 (z : Z) : Z := z mod two32.
Definition as_u64 (z : Z) : Z := z mod two64.
Definition wadd32 (a b : Z) : Z := (a + b) mod two32.
Definition wadd64 (a b : Z) : Z := (a + b) mod two64.

(** [x.checked_add(1)] at 64 bits. *)
Definition checked_succ64 (z : Z) : option Z :=
  if z <? u64_MAX then Some (z + 1) else None.

#[export] Instance is_byte_dec z : Decision (is_byte z).
Proof. unfold is_byte. apply _. Defined.
#[export] Instance is_bytes_dec l : Decision (is_bytes l).
Proof. unfold is_bytes. apply _. Defined.

(** ** Automation *)

Create HintDb bun.
Create Rewrite HintDb len.

(** Splits every boolean test of the goal and of the hypotheses into the
    arithmetic fact it decides. *)
Ltac bool_facts :=
  repeat match goal with
  | H : _ && _ = true |- _ => apply andb_true_iff in H; destruct H
  | H : _ || _ = false |- _ => apply orb_false_iff in H; destruct H
  | H : negb _ = true |- _ => apply negb_true_iff in H
  | H : negb _ = false |- _ => apply negb_false_iff in H
  | H : (_ <? _)%Z = true |- _ => apply Z.ltb_lt in H
  | H : (_ <? _)%Z = false |- _ => apply Z.ltb_ge in H
  | H : (_ <=? _)%Z = true |- _ => apply Z.leb_le in H
  | H : (_ <=? _)%Z = false |- _ => apply Z.leb_gt in H
  | H : (_ =? _)%Z = true |- _ => apply Z.eqb_eq in H
  | H : (_ =? _)%Z = false |- _ => apply Z.eqb_neq in H
  | H : (_ <? _)%nat = true |- _ => apply Nat.ltb_lt in H
  | H : (_ <? _)%nat = false |- _ => apply Nat.ltb_ge in H
  | H : (_ <=? _)%nat = true |- _ => apply Nat.leb_le in H
  | H : (_ <=? _)%nat = false |- _ => apply Nat.leb_gt in H
  | H : (_ =? _)%nat = true |- _ => apply Nat.eqb_eq in H
  | H : (_ =? _)%nat = false |- _ => apply Nat.eqb_neq in H
  end.

(** Evaluates the closed [bool_decide]s of the goal. *)
Ltac eval_decide :=
  repeat match goal with
  | |- context [bool_decide ?P] =>
      let b := eval vm_compute in (bool_decide P) in
      lazymatch b with
      | true => change (bool_decide P) with true
      | false => change (bool_decide P) with false
      end
  end; cbn [andb orb negb].

(** Runs the program [e] and takes its value as the witness of an existential. *)
Ltac run e :=
  let v := eval vm_compute in e in
  lazymatch v with Done ?x => exists x end.

(** Normalises the lengths in the goal. *)
Ltac len :=
  repeat first [rewrite length_app | rewrite length_take | rewrite length_drop
               | rewrite length_replicate | progress cbn [length app]].

(** Case analysis on the first [if] of the goal. *)
Ltac case_if :=
  match goal with
  | |- context [if ?b then _ else _] => destruct b eqn:?
  end.

(** ** Comparisons

    Rust's [Ordering] is [comparison]. [TotalPreorder cmp] is what a
    comparison function has to promise for sorting, binary search and
    interval reasoning to be meaningful. *)

Class TotalPreorder {A : Type} (cmp : A -> A -> comparison) : Prop := {
  cmp_antisym : forall x y, cmp y x = CompOpp (cmp x y);
  cmp_le_trans : forall x y z, cmp x y <> Gt -> cmp y z <> Gt -> cmp x z <> Gt;
}.
Arguments cmp_antisym {A} cmp {_} x y.
Arguments cmp_le_trans {A} cmp {_} x y z _ _.

Section TotalPreorderFacts.
Context {A : Type} (cmp : A -> A -> comparison) `{!TotalPreorder cmp}.

Lemma cmp_refl x : cmp x x = Eq.
Proof. pose proof (cmp_antisym cmp x x). destruct (cmp x x); naive_solver. Qed.

Lemma cmp_gt_lt x y : cmp x y = Gt <-> cmp y x = Lt.
Proof. rewrite (cmp_antisym cmp x y). destruct (cmp x y); naive_solver. Qed.

Lemma cmp_lt_le_trans x y z : cmp x y = Lt -> cmp y z <> Gt -> cmp x z = Lt.
Proof.
  intros H1 H2. destruct (cmp x z) eqn:E; [|done|].
  - exfalso. apply (cmp_le_trans cmp y z x) in H2; [|rewrite (cmp_antisym cmp), E; done].
    apply H2. by apply cmp_gt_lt.
  - exfalso. apply (cmp_le_trans cmp y z x) in H2.
    + apply H2. by apply cmp_gt_lt.
    + rewrite (cmp_antisym cmp), E. done.
Qed.

Lemma cmp_le_lt_trans x y z : cmp x y <> Gt -> cmp y z = Lt -> cmp x z = Lt.
Proof.
  intros H1 H2. apply cmp_gt_lt. rewrite (cmp_antisym cmp).
  assert (cmp x z = Lt) as ->; [|done].
  destruct (cmp x z) eqn:E; [|done|].
  - exfalso. assert (cmp z y <> Gt) as H3.
    { apply (cmp_le_trans cmp z x y); [rewrite (cmp_antisym cmp), E; done|done]. }
    apply H3. by apply cmp_gt_lt.
  - exfalso. assert (cmp z y <> Gt) as H3.
    { apply (cmp_le_trans cmp z x y); [rewrite (cmp_antisym cmp), E; done|done]. }
    apply H3. by apply cmp_gt_lt.
Qed.

Lemma cmp_lt_trans x y z : cmp x y = Lt -> cmp y z = Lt -> cmp x z = Lt.
Proof. intros H1 H2. eapply cmp_lt_le_trans; [done|]. by rewrite H2. Qed.

(** Elements that compare equal are interchangeable. *)
Lemma cmp_eq_l x y z : cmp x y = Eq -> cmp x z = cmp y z.
Proof.
  intros H. assert (cmp y x = Eq) as H' by (rewrite (cmp_antisym cmp), H; done).
  assert (cmp x y <> Gt) by (by rewrite H).
  assert (cmp y x <> Gt) by (by rewrite H').
  destruct (cmp y z) eqn:E.
  - destruct (cmp x z) eqn:E2; [done| |].
    + exfalso. assert (cmp y z = Lt); [|congruence]. by eapply cmp_le_lt_trans.
    + exfalso. eapply (cmp_le_trans cmp x y z); [done| |done]. by rewrite E.
  - by eapply cmp_le_lt_trans.
  - apply cmp_gt_lt. apply cmp_gt_lt in E. by eapply cmp_lt_le_trans.
Qed.

Lemma cmp_eq_r x y z : cmp x y = Eq -> cmp z x = cmp z y.
Proof.
  intros H. rewrite (cmp_antisym cmp x z), (cmp_antisym cmp y z). f_equal. by apply cmp_eq_l.
Qed.

(** A comparison through a key is a total preorder. *)
Lemma TotalPreorder_key {B : Type} (key : B -> A) :
  TotalPreorder (fun x y => cmp (key x) (key y)).
Proof. split; intros x y *; [apply (cmp_antisym cmp) | by apply (cmp_le_trans cmp)]. Qed.
End TotalPreorderFacts.

#[export] Instance Z_compare_preorder : TotalPreorder Z.compare.
Proof. split; intros x y *; rewrite ?Z.compare_le_iff; [apply Z.compare_antisym|lia]. Qed.

(** Lexicographic combination, [a.then(b)]. *)
Definition cmp_then (a b : comparison) : comparison :=
  match a with Eq => b | _ => a end.

Definition pair_cmp {A B : Type} (ca : A -> A -> comparison) (cb : B -> B -> comparison)
    (x y : A * B) : comparison :=
  cmp_then (ca x.1 y.1) (cb x.2 y.2).

(** [<[T] as Ord>::cmp]: lexicographic, a strict prefix is smaller. *)
Fixpoint list_cmp {A : Type} (cmp : A -> A -> comparison) (l k : list A) : comparison :=
  match l, k with
  | [], [] => Eq
  | [], _ :: _ => Lt
  | _ :: _, [] => Gt
  | x :: l', y :: k' => cmp_then (cmp x y) (list_cmp cmp l' k')
  end.

(** [inl]s below [inr]s. *)
Definition sum_cmp {A B : Type} (ca : A -> A -> comparison) (cb : B -> B -> comparison)
    (x y : A + B) : comparison :=
  match x, y with
  | inl a, inl a' => ca a a'
  | inl _, inr _ => Lt
  | inr _, inl _ => Gt
  | inr b, inr b' => cb b b'
  end.

#[export] Instance pair_cmp_preorder {A B} (ca : A -> A -> comparison) (cb : B -> B -> comparison) :
  TotalPreorder ca -> TotalPreorder cb -> TotalPreorder (pair_cmp ca cb).
Proof.
  intros Ha Hb. split; unfold pair_cmp, cmp_then.
  - intros x y. rewrite (cmp_antisym ca x.1 y.1), (cmp_antisym cb x.2 y.2).
    by destruct (ca _ _), (cb _ _).
  - intros [x1 x2] [y1 y2] [z1 z2]; simpl. intros H1 H2.
    destruct (ca x1 y1) eqn:E1; [|clear H1|done].
    + rewrite (cmp_eq_l ca x1 y1 z1 E1). destruct (ca y1 z1); [|done..].
      by eapply cmp_le_trans.
    + rewrite (cmp_lt_le_trans ca x1 y1 z1 E1); [done|]. by destruct (ca y1 z1).
Qed.

#[export] Instance sum_cmp_preorder {A B} (ca : A -> A -> comparison) (cb : B -> B -> comparison) :
  TotalPreorder ca -> TotalPreorder cb -> TotalPreorder (sum_cmp ca cb).
Proof.
  intros Ha Hb. split.
  - intros [x|x] [y|y]; simpl; try done; [apply (cmp_antisym ca)|apply (cmp_antisym cb)].
  - intros [x|x] [y|y] [z|z]; simpl; try done; [by apply (cmp_le_trans ca)|by apply (cmp_le_trans cb)].
Qed.

#[export] Instance list_cmp_preorder {A} (cmp : A -> A -> comparison) :
  TotalPreorder cmp -> TotalPreorder (list_cmp cmp).
Proof.
  intros HA. split.
  - intros l. induction l as [|x l IH]; intros [|y k]; simpl; try done.
    rewrite (cmp_antisym cmp x y), IH. unfold cmp_then. by destruct (cmp x y).
  - intros l. induction l as [|x l IH]; intros [|y k] [|z m]; simpl; try done.
    unfold cmp_then. intros H1 H2.
    destruct (cmp x y) eqn:E1; [|clear H1|done].
    + rewrite (cmp_eq_l cmp x y z E1). destruct (cmp y z); [|done..].
      by eapply IH.
    + rewrite (cmp_lt_le_trans cmp x y z E1); [done|]. by destruct (cmp y z).
Qed.

(** Byte-string comparison decides equality. *)
Lemma list_cmp_Z_eq (l k : bytes) : list_cmp Z.compare l k = Eq <-> l = k.
Proof.
  split; [|intros ->; apply cmp_refl, _].
  revert k. induction l as [|x l IH]; intros [|y k]; simpl; try done.
  unfold cmp_then. destruct (Z.compare_spec x y); [|done..].
  intros E. subst. f_equal. by apply IH.
Qed.

(** ** Slices *)

(** [&l[a..b]], for a range that the caller has checked. *)
Definition sub (l : bytes) (a b : nat) : bytes := take (b - a) (drop a l).

(** [l.get(a..b)] with [usize] bounds: [None] when the range is not inside [l]. *)
Definition get_range (l : bytes) (a b : Z) : option bytes :=
  if (0 <=? a) && (a <=? b) && (b <=? Z.of_nat (length l))
  then Some (sub l (Z.to_nat a) (Z.to_nat b)) else None.

(** [&l[a..b]] with [usize] bounds: the slice, or a panic. *)
Definition index_range (l : bytes) (a b : Z) : outcome bytes :=
  match get_range l a b with
  | Some s => Done s
  | None => Panic
  end.

(** [l[i]] *)
Definition at_ (l : bytes) (i : nat) : outcome Z :=
  match l !! i with
  | Some x => Done x
  | None => Panic
  end.

(** [i < l.len() && p(l[i])] *)
Definition test_at (l : bytes) (i : nat) (p : Z -> bool) : bool :=
  match l !! i with
  | Some x => p x
  | None => false
  end.

(** [l[a..a + src.len()].copy_from_slice(src)], with the panic of an index
    out of range. *)
Definition write_at (l : bytes) (a : Z) (src : bytes) : outcome bytes :=
  if (0 <=? a) && (a + Z.of_nat (length src) <=? Z.of_nat (length l))
  then Done (take (Z.to_nat a) l ++ src ++ drop (Z.to_nat a + length src) l)
  else Panic.

(** The number of leading elements that satisfy [p]: the distance that
    [while i < s.len() && p(s[i]) { i += 1 }] advances. *)
Fixpoint prefix_len {A : Type} (p : A -> bool) (l : list A) : nat :=
  match l with
  | [] => 0
  | x :: l' => if p x then S (prefix_len p l') else 0
  end.

(** That loop, started at [i]: the value of [i] when it stops. *)
Definition skip_while (p : Z -> bool) (l : bytes) (i : nat) : nat :=
  (i + prefix_len p (drop i l))%nat.

Lemma at_lt l i : (i < length l)%nat -> exists x, l !! i = Some x /\ at_ l i = Done x.
Proof.
  intros H. destruct (lookup_lt_is_Some_2 l i H) as [x E]. exists x. unfold at_. by rewrite E.
Qed.

Lemma test_at_true l i p : test_at l i p = true <-> exists x, l !! i = Some x /\ p x = true.
Proof. unfold test_at. destruct (l !! i); naive_solver. Qed.

Lemma test_at_eq l i c : test_at l i (Z.eqb c) = true <-> l !! i = Some c.
Proof.
  rewrite test_at_true. split; [intros (x & E & H); apply Z.eqb_eq in H; by subst|].
  intros E. exists c. by rewrite Z.eqb_refl.
Qed.

Lemma length_sub l a b : (b <= length l)%nat -> length (sub l a b) = (b - a)%nat.
Proof. intros. unfold sub. rewrite length_take, length_drop. lia. Qed.

Lemma prefix_len_le {A} (p : A -> bool) l : (prefix_len p l <= length l)%nat.
Proof. induction l as [|x l IH]; simpl; [lia|]. destruct (p x); lia. Qed.

Lemma prefix_len_take {A} (p : A -> bool) l : Forall (fun x => p x = true) (take (prefix_len p l) l).
Proof.
  induction l as [|x l IH]; simpl; [constructor|].
  destruct (p x) eqn:E; simpl; constructor; done.
Qed.

Lemma prefix_len_app {A} (p : A -> bool) l k :
  Forall (fun x => p x = true) l -> prefix_len p (l ++ k) = (length l + prefix_len p k)%nat.
Proof. induction 1 as [|x l Hx _ IH]; simpl; [done|]. by rewrite Hx, IH. Qed.

Lemma prefix_len_stop {A} (p : A -> bool) x l : p x = false -> prefix_len p (x :: l) = 0%nat.
Proof. simpl. by intros ->. Qed.

Lemma prefix_len_nil {A} (p : A -> bool) : prefix_len p [] = 0%nat.
Proof. done. Qed.

Lemma prefix_len_all {A} (p : A -> bool) l :
  Forall (fun x => p x = true) l -> prefix_len p l = length l.
Proof. intros H. rewrite <- (app_nil_r l) at 1. rewrite prefix_len_app by done. simpl. lia. Qed.

Lemma skip_while_bounds p l i : (i <= length l)%nat -> (i <= skip_while p l i <= length l)%nat.
Proof. intros. unfold skip_while. pose proof (prefix_len_le p (drop i l)). rewrite length_drop in *. lia. Qed.

Lemma get_range_Some l a b s :
  get_range l a b = Some s <-> 0 <= a <= b /\ b <= Z.of_nat (length l) /\ s = sub l (Z.to_nat a) (Z.to_nat b).
Proof.
  unfold get_range. split.
  - case_if; [|done]. intros [= <-]. bool_facts. split_and!; done || lia.
  - intros (H1 & H2 & ->). replace (_ && _) with true; [done|].
    symmetry. rewrite !andb_true_iff, !Z.leb_le. lia.
Qed.

Lemma write_at_Done l a src r :
  write_at l a src = Done r <->
  0 <= a /\ a + Z.of_nat (length src) <= Z.of_nat (length l) /\
  r = take (Z.to_nat a) l ++ src ++ drop (Z.to_nat a + length src) l.
Proof.
  unfold write_at. split.
  - case_if; [|done]. intros [= <-]. bool_facts. split_and!; done || lia.
  - intros (H1 & H2 & ->). replace (_ && _) with true; [done|].
    symmetry. rewrite !andb_true_iff, !Z.leb_le. lia.
Qed.

Lemma write_at_length l a src r : write_at l a src = Done r -> length r = length l.
Proof.
  rewrite write_at_Done. intros (H1 & H2 & ->).
  rewrite !length_app, length_take, length_drop. lia.
Qed.

Lemma is_bytes_app l k : is_bytes (l ++ k) <-> is_bytes l /\ is_bytes k.
Proof. apply Forall_app. Qed.

Lemma is_bytes_sub l a b : is_bytes l -> is_bytes (sub l a b).
Proof. intros. by apply Forall_take, Forall_drop. Qed.

Lemma write_at_bytes l a src r :
  write_at l a src = Done r -> is_bytes l -> is_bytes src -> is_bytes r.
Proof.
  rewrite write_at_Done. intros (_ & _ & ->) ??.
  rewrite !is_bytes_app. by split_and!; [apply Forall_take| |apply Forall_drop].
Qed.

(** ** Loops

    [rounds k step s] is [loop { ... }] run for up to [2 ^ k] rounds: a round
    goes on ([inl]) or ends the loop ([inr]). It stops at the end of the loop,
    so that a generous [k] costs nothing. *)
Fixpoint rounds {S R : Type} (k : nat) (step : S -> outcome (S + R)) (s : S) : outcome (S + R) :=
  match k with
  | O => step s
  | Datatypes.S k' =>
      let! x := rounds k' step s in
      match x with
      | inl s' => rounds k' step s'
      | inr r => Done (inr r)
      end
  end.

Section Rounds.
Context {S R : Type} (step : S -> outcome (S + R)).

(** What every round keeps holds of what the loop returns. *)
Lemma rounds_invariant (I : S -> Prop) (Q : R -> Prop) :
  (forall s x, I s -> step s = Done x -> match x with inl s' => I s' | inr r => Q r end) ->
  forall k s x, I s -> rounds k step s = Done x -> match x with inl s' => I s' | inr r => Q r end.
Proof.
  intros Hstep k. induction k as [|k IH]; intros s x Hs; cbn [rounds]; [by apply Hstep|].
  destruct (rounds k step s) as [[s'|r]| |] eqn:E; try done; cbn [obind].
  - apply IH. apply (IH s _ Hs E).
  - intros [= <-]. apply (IH s _ Hs E).
Qed.

(** A loop whose rounds decrease a measure below [2 ^ k] ends. *)
Lemma rounds_terminate (I : S -> Z -> Prop) (Q : R -> Prop) :
  (forall s m, I s m -> 0 <= m /\ exists x, step s = Done x /\
     match x with inl s' => exists m', m' < m /\ I s' m' | inr r => Q r end) ->
  forall k s m, I s m -> m < 2 ^ Z.of_nat k -> exists r, rounds k step s = Done (inr r) /\ Q r.
Proof.
  intros Hstep.
  assert (forall k s m, I s m -> exists x, rounds k step s = Done x /\
    match x with inl s' => exists m', m' + 2 ^ Z.of_nat k <= m /\ I s' m' | inr r => Q r end) as H.
  { induction k as [|k IH]; intros s m Hs.
    - destruct (Hstep s m Hs) as (_ & x & Hx & Hr). exists x. split; [done|].
      destruct x; [|done]. destruct Hr as (m' & ? & ?). exists m'. change (2 ^ Z.of_nat 0) with 1.
      split; [lia|done].
    - cbn [rounds]. rewrite Nat2Z.inj_succ, Z.pow_succ_r by lia.
      destruct (IH s m Hs) as ([s'|r] & -> & Hr); cbn [obind]; [|by eexists].
      destruct Hr as (m' & ? & Hs'). destruct (IH s' m' Hs') as (x & -> & Hx). exists x.
      split; [done|]. destruct x; [|done]. destruct Hx as (m'' & ? & ?). exists m''.
      split; [lia|done]. }
  intros k s m Hs Hm. destruct (H k s m Hs) as ([s'|r] & Hx & Hr); [|by eexists].
  destruct Hr as (m' & ? & Hs'). destruct (Hstep s' m' Hs') as [? _]. lia.
Qed.
End Rounds.

(** ** Little- and big-endian integers

    Every supported target is little-endian, so [to_ne_bytes] is [to_le_bytes]. *)

Fixpoint from_le_bytes (l : bytes) : Z :=
  match l with
  | [] => 0
  | b :: l' => b + 256 * from_le_bytes l'
  end.

Fixpoint to_le_bytes (n : nat) (z : Z) : bytes :=
  match n with
  | O => []
  | S n' => z mod 256 :: to_le_bytes n' (z / 256)
  end.

Definition from_be_bytes (l : bytes) : Z := from_le_bytes (reverse l).
Definition to_be_bytes (n : nat) (z : Z) : bytes := reverse (to_le_bytes n z).

Lemma length_to_le_bytes n z : length (to_le_bytes n z) = n.
Proof. revert z. induction n; simpl; auto. Qed.

Lemma to_le_bytes_bytes n z : is_bytes (to_le_bytes n z).
Proof.
  revert z. induction n; intros z; simpl; constructor; [|apply IHn].
  unfold is_byte, two8. apply Z.mod_pos_bound. lia.
Qed.

Lemma from_to_le_bytes n z : from_le_bytes (to_le_bytes n z) = z mod 256 ^ Z.of_nat n.
Proof.
  revert z. induction n as [|n IH]; intros z.
  - simpl. by rewrite Z.mod_1_r.
  - cbn [to_le_bytes from_le_bytes]. rewrite IH, Nat2Z.inj_succ, Z.pow_succ_r by lia.
    rewrite Z.rem_mul_r by lia. lia.
Qed.

Lemma from_to_le_bytes_small n z : 0 <= z < 256 ^ Z.of_nat n -> from_le_bytes (to_le_bytes n z) = z.
Proof. intros. rewrite from_to_le_bytes. by apply Z.mod_small. Qed.

Lemma from_le_bytes_bound l : is_bytes l -> 0 <= from_le_bytes l < 256 ^ Z.of_nat (length l).
Proof.
  induction 1 as [|b l Hb _ IH]; simpl length; [simpl; lia|].
  rewrite Nat2Z.inj_succ, Z.pow_succ_r by lia. unfold is_byte, two8 in Hb.
  cbn [from_le_bytes]. lia.
Qed.

Lemma to_from_le_bytes l : is_bytes l -> to_le_bytes (length l) (from_le_bytes l) = l.
Proof.
  induction 1 as [|b l Hb _ IH]; [done|]. cbn [length to_le_bytes from_le_bytes].
  unfold is_byte, two8 in Hb.
  rewrite (Z.add_comm b), (Z.mul_comm 256).
  rewrite Z.div_add_l, (Z.div_small b), Z.add_0_r, IH by lia.
  f_equal. rewrite Z.add_comm, Z.mod_add, Z.mod_small by lia. done.
Qed.

Lemma from_le_bytes_app l k :
  from_le_bytes (l ++ k) = from_le_bytes l + 256 ^ Z.of_nat (length l) * from_le_bytes k.
Proof.
  induction l as [|b l IH]; [simpl; lia|].
  cbn [app length from_le_bytes]. rewrite IH, Nat2Z.inj_succ, Z.pow_succ_r by lia. ring.
Qed.

Lemma from_le_bytes_inj l k :
  is_bytes l -> is_bytes k -> length l = length k -> from_le_bytes l = from_le_bytes k -> l = k.
Proof.
  intros Hl Hk Hlen H. rewrite <- (to_from_le_bytes l), <- (to_from_le_bytes k) by done.
  by rewrite Hlen, H.
Qed.

(** A decidable fact about all bytes, by evaluation. *)
Lemma byte_forall (P : Z -> bool) b : forallb P (seqZ 0 256) = true -> is_byte b -> P b = true.
Proof.
  intros HP Hb. rewrite forallb_forall in HP. apply HP.
  apply list_elem_of_In, elem_of_seqZ. unfold is_byte, two8 in Hb. lia.
Qed.

(** A sum of disjoint words is their union. *)
Lemma lor_shift a b n : 0 <= n -> 0 <= a < 2 ^ n -> Z.lor a (b * 2 ^ n) = a + b * 2 ^ n.
Proof.
  intros Hn Ha. symmetry. apply Z.add_nocarry_lor. apply Z.bits_inj_iff. intros i.
  rewrite Z.land_spec, Z.bits_0.
  destruct (Z_lt_le_dec i n); [by rewrite Z.mul_pow2_bits_low, andb_false_r by done|].
  destruct (Z.bounded_iff_bits_nonneg' n a) as [H _]; [lia..|]. by rewrite H.
Qed.

(** Evaluates the powers of 256 that bound machine words. *)
Ltac pow256 :=
  change (256 ^ Z.of_nat 2) with 65536 in *;
  change (256 ^ Z.of_nat 4) with 4294967296 in *;
  change (256 ^ Z.of_nat 7) with 72057594037927936 in *;
  change (256 ^ Z.of_nat 8) with 18446744073709551616 in *;
  unfold two16, two32, two64, u64_MAX in *.

#[export] Hint Resolve to_le_bytes_bytes is_bytes_sub : bun.
#[export] Hint Rewrite length_to_le_bytes @length_app @length_take @length_drop
  @length_replicate @length_reverse : len.
