(* ===== verification/Strings.v ===== *)
(** * Byte-string helpers

    The routines of [bun_core::strings], [bun_core::fmt] and [bun_alloc] that
    the package-manager code calls: equality by machine words, trimming,
    searching, splitting, ordering and integer parsing. Slices are lists of
    bytes; an index is a [nat] below the length of the slice. *)
From Stdlib Require Import ZArith Lia.
From stdpp Require Import base list numbers option.
From S2P Require Import Prelude.
#[local] Open Scope Z_scope.

(** ** Character classes *)

Definition is_ascii_digit (c : Z) : bool := (48 <=? c) && (c <=? 57).
Definition is_ascii_lower (c : Z) : bool := (97 <=? c) && (c <=? 122).
Definition is_ascii_upper (c : Z) : bool := (65 <=? c) && (c <=? 90).
Definition is_ascii_alphabetic (c : Z) : bool := is_ascii_lower c || is_ascii_upper c.
Definition is_ascii_alphanumeric (c : Z) : bool := is_ascii_alphabetic c || is_ascii_digit c.

(** [u8::is_ascii_whitespace]: space, tab, line feed, form feed, carriage return. *)
Definition is_ascii_whitespace (c : Z) : bool :=
  (c =? 32) || (c =? 9) || (c =? 10) || (c =? 12) || (c =? 13).

(** ** Equality *)

(** One comparison of [w] bytes at the cursor, as integers of that width. *)
Definition word_ne (w : nat) (a b : bytes) : bool :=
  negb (from_le_bytes (take w a) =? from_le_bytes (take w b)).

(** The [while dword_length > 0] loop: [inl r] is an early return, [inr] the
    two cursors when it ends. *)
Fixpoint eql_dwords (n : nat) (a b : bytes) : bool + bytes * bytes :=
  match n with
  | O => inr (a, b)
  | S n' =>
      if word_ne 8 a b then inl false
      else if (length (drop 8 b) =? 0)%nat then inl true
      else eql_dwords n' (drop 8 a) (drop 8 b)
  end.

(** [eql_long(a, b, check_len)]. Two slices at the same address are equal, so
    the [a == b] shortcut has no effect on the value. *)
Definition eql_long (a_str b_str : bytes) (check_len : bool) : bool :=
  let len := length b_str in
  if check_len && (len =? 0)%nat then (length a_str =? 0)%nat
  else if check_len && negb (length a_str =? len)%nat then false
  else
    match eql_dwords (len / 8) a_str b_str with
    | inl r => r
    | inr (a, b) =>
        let four := negb (Nat.land len 4 =? 0)%nat in
        if four && word_ne 4 a b then false
        else if four && (length (drop 4 b) =? 0)%nat then true
        else
          let a := if four then drop 4 a else a in
          let b := if four then drop 4 b else b in
          let two := negb (Nat.land len 2 =? 0)%nat in
          if two && word_ne 2 a b then false
          else if two && (length (drop 2 b) =? 0)%nat then true
          else
            let a := if two then drop 2 a else a in
            let b := if two then drop 2 b else b in
            if negb (Nat.land len 1 =? 0)%nat && word_ne 1 a b then false else true
    end.

Definition eql (a b : bytes) : bool :=
  if negb (length a =? length b)%nat then false else eql_long a b false.

Definition starts_with (self_ str : bytes) : bool :=
  if (length self_ <? length str)%nat then false else eql_long (take (length str) self_) str false.

(** [order(a, b)] is [a.cmp(b)]. *)
Definition order (a b : bytes) : comparison := list_cmp Z.compare a b.

(** ** Trimming *)

Definition WHITESPACE_CHARS : bytes := [32; 9; 10; 13; 11; 12].

Definition contains (chars : bytes) (c : Z) : bool := existsb (Z.eqb c) chars.

Definition trim_left (s chars : bytes) : bytes := drop (prefix_len (contains chars) s) s.
Definition trim_right (s chars : bytes) : bytes :=
  take (length s - prefix_len (contains chars) (reverse s)) s.
Definition trim (s chars : bytes) : bytes := trim_right (trim_left s chars) chars.

Definition length_of_leading_whitespace_ascii (s : bytes) : nat :=
  prefix_len (contains WHITESPACE_CHARS) s.

(** ** Searching and splitting *)

(** The scalar path of [highway::index_of_char]; the vector kernel computes
    the same position. *)
Fixpoint index_of_char (s : bytes) (c : Z) : option nat :=
  match s with
  | [] => None
  | x :: s' => if x =? c then Some O else S <$> index_of_char s' c
  end.

(** The scalar path of [highway::index_of_any_char]; the vector kernel computes
    the same. *)
Fixpoint index_of_any (slice chars : bytes) : option nat :=
  match slice with
  | [] => None
  | b :: rest => if bool_decide (b ∈ chars) then Some O else S <$> index_of_any rest chars
  end.

(** The scalar paths of [highway::last_index_of_char] and
    [highway::last_index_of_any_char]. *)
Definition last_index_of_char (s : bytes) (c : Z) : option nat :=
  (fun i => (length s - 1 - i)%nat) <$> index_of_char (reverse s) c.

Definition last_index_of_any (s chars : bytes) : option nat :=
  (fun i => (length s - 1 - i)%nat) <$> index_of_any (reverse s) chars.

(** The first occurrence of a needle of two bytes or more. *)
Fixpoint memmem (s needle : bytes) : option nat :=
  match s with
  | [] => None
  | _ :: s' =>
      if eql (take (length needle) s) needle then Some O else S <$> memmem s' needle
  end.

Definition index_of (self str : bytes) : option nat :=
  if (length self =? 0)%nat || (length str =? 0)%nat || (length self <? length str)%nat then None
  else match str with
       | [c] => index_of_char self c
       | _ => memmem self str
       end.

Record SplitIterator : Type := mkSplit {
  sp_buffer : bytes;
  sp_index : option nat;
  sp_delimiter : bytes;
}.

Definition split (self delimiter : bytes) : SplitIterator := mkSplit self (Some O) delimiter.

(** [SplitIterator::next]: the field and the advanced iterator. *)
Definition split_next (it : SplitIterator) : option bytes * SplitIterator :=
  match it.(sp_index) with
  | None => (None, it)
  | Some start =>
      match index_of (drop start it.(sp_buffer)) it.(sp_delimiter) with
      | Some delim_start =>
          let del := (delim_start + start)%nat in
          (Some (sub it.(sp_buffer) start del),
           mkSplit it.(sp_buffer) (Some (del + length it.(sp_delimiter))%nat) it.(sp_delimiter))
      | None =>
          (Some (sub it.(sp_buffer) start (length it.(sp_buffer))),
           mkSplit it.(sp_buffer) None it.(sp_delimiter))
      end
  end.

(** ** Integer parsing *)

Inductive ParseIntError : Type := InvalidCharacter | Overflow.

Definition digit_value (c : Z) : option Z :=
  if is_ascii_digit c then Some (c - 48)
  else if is_ascii_lower c then Some (c - 97 + 10)
  else if is_ascii_upper c then Some (c - 65 + 10)
  else None.

Definition two128 : Z := 340282366920938463463374607431768211456.

Fixpoint parse_digits (digits : bytes) (radix acc : Z) : ParseIntError + Z :=
  match digits with
  | [] => inr acc
  | c :: rest =>
      if c =? 95 then parse_digits rest radix acc
      else match digit_value c with
           | None => inl InvalidCharacter
           | Some d =>
               if radix <=? d then inl InvalidCharacter
               else if acc * radix + d <? two128 then parse_digits rest radix (acc * radix + d)
               else inl Overflow
           end
  end.

Definition parse_with_sign (digits : bytes) (radix : Z) : ParseIntError + Z :=
  match digits with
  | [] => inl InvalidCharacter
  | c :: _ =>
      if (c =? 95) || (List.last digits 0 =? 95) then inl InvalidCharacter
      else parse_digits digits radix 0
  end.

Definition auto_radix (digits : bytes) (radix : Z) : bytes * Z :=
  if negb (radix =? 0) then (digits, radix)
  else match digits with
       | z :: x :: rest =>
           if z =? 48 then
             if (x =? 120) || (x =? 88) then (rest, 16)
             else if (x =? 111) || (x =? 79) then (rest, 8)
             else if (x =? 98) || (x =? 66) then (rest, 2)
             else (digits, 10)
           else (digits, 10)
       | _ => (digits, 10)
       end.

(** [parse_unsigned::<T>], for the unsigned type with values below [bound]. *)
Definition parse_unsigned (bound : Z) (buf : bytes) (radix : Z) : ParseIntError + Z :=
  let '(digits, radix) := auto_radix buf radix in
  match parse_with_sign digits radix with
  | inl e => inl e
  | inr acc => if acc <? bound then inr acc else inl Overflow
  end.

(** [parse_int::<T>], for the integer type with the values from [lo] to [hi]. *)
Definition parse_int (lo hi : Z) (buf : bytes) (radix : Z) : ParseIntError + Z :=
  match buf with
  | [] => inl InvalidCharacter
  | c :: tail =>
      let '(neg, rest) := if c =? 43 then (false, tail) else if c =? 45 then (true, tail) else (false, buf) in
      let '(digits, radix) := auto_radix rest radix in
      match parse_with_sign digits radix with
      | inl e => inl e
      | inr acc =>
          let half := two128 / 2 in
          if (neg : bool) then
            if half <? acc then inl Overflow
            else if (lo <=? - acc) && (- acc <=? hi) then inr (- acc) else inl Overflow
          else if (lo <=? acc) && (acc <=? hi) then inr acc else inl Overflow
      end
  end.

(** ** Lemmas *)

(** Word comparisons decide equality of the bytes they cover. *)
Lemma word_ne_false w a b :
  is_bytes a -> is_bytes b -> length a = length b ->
  word_ne w a b = false <-> take w a = take w b.
Proof.
  intros Ha Hb Hlen. unfold word_ne. rewrite negb_false_iff, Z.eqb_eq.
  split; [|by intros ->].
  apply from_le_bytes_inj; [by apply Forall_take..|].
  rewrite !length_take. by rewrite Hlen.
Qed.

Lemma word_ne_split w a b :
  is_bytes a -> is_bytes b -> length a = length b -> (w <= length b)%nat ->
  a = b <-> word_ne w a b = false /\ drop w a = drop w b.
Proof.
  intros. rewrite word_ne_false by done. split; [by intros ->|].
  intros [E1 E2]. rewrite <- (take_drop w a), <- (take_drop w b). by rewrite E1, E2.
Qed.

Lemma eql_dwords_spec n a b :
  is_bytes a -> is_bytes b -> length a = length b -> (n * 8 <= length b)%nat ->
  match eql_dwords n a b with
  | inl r => r = true <-> a = b
  | inr (a', b') => (a = b <-> a' = b') /\ a' = drop (n * 8) a /\ b' = drop (n * 8) b
  end.
Proof.
  revert a b. induction n as [|n IH]; intros a b Ha Hb Hlen Hn; [simpl; by rewrite !drop_0|].
  cbn [eql_dwords]. pose proof (word_ne_split 8 a b Ha Hb Hlen ltac:(lia)) as Hsplit.
  destruct (word_ne 8 a b); [naive_solver|].
  case_if; bool_facts.
  - split; [|done]. intros _. apply Hsplit. split; [done|].
    rewrite (nil_length_inv (drop 8 b)) by done. apply nil_length_inv.
    rewrite length_drop in *. lia.
  - assert (length (drop 8 a) = length (drop 8 b)) by (rewrite !length_drop; lia).
    specialize (IH (drop 8 a) (drop 8 b) ltac:(by apply Forall_drop) ltac:(by apply Forall_drop)
      ltac:(done) ltac:(rewrite length_drop; lia)).
    rewrite !drop_drop in IH. replace (8 + n * 8)%nat with (S n * 8)%nat in IH by lia.
    destruct (eql_dwords _ _ _) as [r|[a' b']]; naive_solver.
Qed.

(** Two byte strings of the same length, the cursors of [eql_long]. *)
Definition same_len (n : nat) (a b : bytes) : Prop :=
  is_bytes a /\ is_bytes b /\ length a = n /\ length b = n.

Lemma same_len_skip n w (bit : bool) a b :
  same_len n a b -> (bit = true -> (w <= n)%nat) ->
  same_len (n - if bit then w else 0) (if bit then drop w a else a) (if bit then drop w b else b).
Proof.
  intros (Ha & Hb & Hla & Hlb) Hw. unfold same_len.
  destruct bit; rewrite ?length_drop; split_and!; try done; try lia; by apply Forall_drop.
Qed.

(** The tail of [eql_long]: one optional comparison of [w] bytes. *)
Lemma eql_tail_step n w (a b : bytes) (bit : bool) (r : bool) :
  same_len n a b -> (bit = true -> (w <= n)%nat) ->
  (same_len (n - if bit then w else 0) (if bit then drop w a else a) (if bit then drop w b else b) ->
   r = true <-> (if bit then drop w a else a) = (if bit then drop w b else b)) ->
  (if bit && word_ne w a b then false
   else if bit && (length (drop w b) =? 0)%nat then true else r) = true <-> a = b.
Proof.
  intros Hs Hw Hr. specialize (Hr (same_len_skip n w bit a b Hs Hw)).
  destruct Hs as (Ha & Hb & Hla & Hlb). destruct bit; simpl; [|done].
  specialize (Hw eq_refl). subst n.
  rewrite (word_ne_split w a b) by (done || lia).
  destruct (word_ne w a b); [naive_solver|].
  destruct (length (drop w b) =? 0)%nat eqn:E; [|naive_solver].
  bool_facts. split; [|done]. intros _. split; [done|].
  rewrite (nil_length_inv (drop w b)) by done. apply nil_length_inv.
  rewrite length_drop in *. lia.
Qed.

Lemma land_bits_mod8 n :
  (n mod 8 = (if Nat.land n 4 =? 0 then 0 else 4) + (if Nat.land n 2 =? 0 then 0 else 2)
           + (if Nat.land n 1 =? 0 then 0 else 1))%nat.
Proof.
  assert (forall k, k < 8 -> Nat.land n k = Nat.land (n mod 8) k)%nat as Hk.
  { intros k Hk. change 8%nat with (2 ^ 3)%nat. rewrite <- Nat.land_ones, <- Nat.land_assoc.
    f_equal. rewrite Nat.land_comm, Nat.land_ones, Nat.mod_small; [done|simpl; lia]. }
  rewrite (Hk 4%nat), (Hk 2%nat), (Hk 1%nat) by lia.
  assert (n mod 8 < 8)%nat as Hb by (apply Nat.mod_upper_bound; lia).
  destruct (n mod 8)%nat as [|[|[|[|[|[|[|[|]]]]]]]]; try reflexivity. lia.
Qed.

Lemma eql_long_spec a b :
  is_bytes a -> is_bytes b -> length a = length b -> eql_long a b false = true <-> a = b.
Proof.
  intros Ha Hb Hlen. unfold eql_long. cbn [andb].
  pose proof (eql_dwords_spec (length b / 8) a b Ha Hb Hlen) as Hd.
  pose proof (Nat.div_mod_eq (length b) 8) as Hdm.
  specialize (Hd ltac:(lia)). destruct (eql_dwords _ _ _) as [r|[a' b']]; [done|].
  destruct Hd as (-> & -> & ->).
  assert (same_len (length b mod 8) (drop (length b / 8 * 8) a) (drop (length b / 8 * 8) b)) as Hs0.
  { split_and!; try by apply Forall_drop. all: rewrite length_drop; lia. }
  rewrite land_bits_mod8 in Hs0.
  apply (eql_tail_step _ _ _ _ _ _ Hs0).
  { destruct (Nat.land _ 4 =? 0)%nat; [done|]. lia. }
  intros Hs1. apply (eql_tail_step _ _ _ _ _ _ Hs1).
  { destruct (Nat.land _ 2 =? 0)%nat; [done|]. destruct (Nat.land _ 4 =? 0)%nat; cbn; lia. }
  intros (H1 & H2 & Hl1 & Hl2).
  set (a2 := if negb (Nat.land _ 2 =? 0)%nat then _ else _) in *.
  set (b2 := if negb (Nat.land _ 2 =? 0)%nat then _ else _) in H2, Hl2 |- *.
  assert (length a2 = length b2 /\ length b2 = (if Nat.land (length b) 1 =? 0 then 0 else 1)%nat) as [].
  { rewrite Hl1, Hl2. by destruct (_ =? 0)%nat, (_ =? 0)%nat, (_ =? 0)%nat. }
  clearbody a2 b2. clear Hl1 Hl2 Hs0 Hs1. destruct (Nat.land _ 1 =? 0)%nat; cbn [negb andb].
  - split; [|done]. intros _. rewrite (nil_length_inv a2), (nil_length_inv b2) by lia. done.
  - rewrite (word_ne_split 1 a2 b2) by (done || lia).
    rewrite (nil_length_inv (drop 1 a2)), (nil_length_inv (drop 1 b2)) by (rewrite length_drop; lia).
    destruct (word_ne 1 a2 b2); naive_solver.
Qed.

Lemma eql_spec a b : is_bytes a -> is_bytes b -> eql a b = true <-> a = b.
Proof.
  intros. unfold eql. destruct (length a =? length b)%nat eqn:E; bool_facts; simpl.
  - by apply eql_long_spec.
  - split; [done|]. by intros ->.
Qed.

Lemma starts_with_spec s p :
  is_bytes s -> is_bytes p -> starts_with s p = true <-> exists k, s = p ++ k.
Proof.
  intros Hs Hp. unfold starts_with. destruct (Nat.ltb_spec (length s) (length p)) as [Hlt|Hge].
  - split; [done|]. intros (k & ->). revert Hlt. len. lia.
  - rewrite eql_long_spec by (try apply Forall_take; done || (len; lia)). split.
    + intros E. exists (drop (length p) s). rewrite <- E at 1. by rewrite take_drop.
    + intros (k & ->). by rewrite take_app_length.
Qed.

Lemma index_of_char_None s c : c ∉ s -> index_of_char s c = None.
Proof.
  induction s as [|x s IH]; [done|]. intros [Hx H]%not_elem_of_cons. cbn [index_of_char].
  destruct (Z.eqb_spec x c) as [->|_]; [done|]. by rewrite IH.
Qed.

Lemma index_of_char_app p c s : c ∉ p -> index_of_char (p ++ c :: s) c = Some (length p).
Proof.
  induction p as [|x p IH]; cbn [app index_of_char length]; [by rewrite Z.eqb_refl|]. intros [Hx H]%not_elem_of_cons.
  destruct (Z.eqb_spec x c) as [->|_]; [done|]. by rewrite IH.
Qed.

Lemma last_index_of_char_None s c : c ∉ s -> last_index_of_char s c = None.
Proof. intros H. unfold last_index_of_char. rewrite index_of_char_None; [done|]. by rewrite elem_of_reverse. Qed.

Lemma last_index_of_char_app p c s : c ∉ s -> last_index_of_char (p ++ c :: s) c = Some (length p).
Proof.
  intros H. unfold last_index_of_char. rewrite reverse_app, reverse_cons, <- app_assoc. cbn [app].
  rewrite index_of_char_app by by rewrite elem_of_reverse. cbn [fmap option_fmap option_map]. f_equal.
  rewrite length_reverse. len. lia.
Qed.

(** *** Splitting *)

(** The fields between single-byte delimiters, by structural recursion. *)
Fixpoint split_on (d : Z) (s : bytes) : list bytes :=
  match s with
  | [] => [[]]
  | x :: s' =>
      if x =? d then [] :: split_on d s'
      else match split_on d s' with
           | [] => [[x]]
           | f :: fs => (x :: f) :: fs
           end
  end.

Lemma split_on_index d s :
  split_on d s = match index_of_char s d with
                 | None => [s]
                 | Some i => take i s :: split_on d (drop (S i) s)
                 end.
Proof.
  induction s as [|x s IH]; [done|]. simpl. destruct (x =? d); [by rewrite drop_0|].
  rewrite IH. by destruct (index_of_char s d).
Qed.

Lemma index_of_char_lt s c i : index_of_char s c = Some i -> (i < length s)%nat.
Proof.
  revert i. induction s as [|x s IH]; intros i; simpl; [done|].
  destruct (x =? c); [intros [= <-]; lia|].
  destruct (index_of_char s c); simpl; [|done]. intros [= <-]. specialize (IH _ eq_refl). lia.
Qed.

Lemma index_of_single s d : index_of s [d] = index_of_char s d.
Proof. unfold index_of. destruct s as [|x s]; [done|]. simpl. done. Qed.

(** The fields an iterator still has to yield. *)
Definition split_rest (it : SplitIterator) (d : Z) : list bytes :=
  match it.(sp_index) with
  | None => []
  | Some start => split_on d (drop start it.(sp_buffer))
  end.

Lemma split_next_spec it d :
  it.(sp_delimiter) = [d] ->
  let '(o, it') := split_next it in
  it'.(sp_delimiter) = [d] /\
  match o with
  | None => split_rest it d = [] /\ it' = it
  | Some f => split_rest it d = f :: split_rest it' d
  end.
Proof.
  intros Hd. unfold split_next, split_rest. destruct (sp_index it) as [start|]; [|done].
  rewrite Hd, index_of_single.
  pose proof (split_on_index d (drop start (sp_buffer it))) as Hs.
  destruct (index_of_char _ d) as [i|] eqn:E; (split; [done|]); rewrite Hs.
  - simpl. f_equal; [unfold sub; f_equal; lia|]. rewrite drop_drop. do 2 f_equal. lia.
  - simpl. f_equal. unfold sub. rewrite take_ge; [done|]. rewrite length_drop. lia.
Qed.

(** *** Decimal integers *)

(** [impl Display for u64]: decimal without leading zeros. Twenty digits hold
    every 64-bit value. *)
Fixpoint dec_digits (fuel : nat) (z : Z) (acc : bytes) : bytes :=
  match fuel with
  | O => acc
  | S fuel' =>
      if z <? 10 then (48 + z) :: acc
      else dec_digits fuel' (z / 10) ((48 + z mod 10) :: acc)
  end.

Definition show_u64 (z : Z) : bytes := dec_digits 20 z [].

(** The value of a digit string read after the digits of [acc]. *)
Definition dec_value (l : bytes) (acc : Z) : Z := fold_left (fun a c => a * 10 + (c - 48)) l acc.

Abbreviation all_digits l := (Forall (fun c => is_ascii_digit c = true) l).

Lemma is_ascii_digit_iff c : is_ascii_digit c = true <-> 48 <= c <= 57.
Proof. unfold is_ascii_digit. rewrite andb_true_iff, !Z.leb_le. lia. Qed.

Lemma dec_value_ge l acc : all_digits l -> 0 <= acc -> acc <= dec_value l acc.
Proof.
  intros H. revert acc. induction H as [|c l Hc _ IH]; intros acc Hacc; cbn; [lia|].
  apply is_ascii_digit_iff in Hc. etrans; [|apply IH]; lia.
Qed.

Lemma parse_digits_spec l acc :
  all_digits l -> 0 <= acc < two128 ->
  parse_digits l 10 acc =
    if dec_value l acc <? two128 then inr (dec_value l acc) else inl Overflow.
Proof.
  intros H. revert acc. induction H as [|c l Hc Hl IH]; intros acc Hacc.
  - cbn. by replace (acc <? two128) with true by (symmetry; apply Z.ltb_lt; lia).
  - cbn [parse_digits]. pose proof (proj1 (is_ascii_digit_iff c) Hc).
    replace (c =? 95) with false by (symmetry; apply Z.eqb_neq; lia).
    unfold digit_value. rewrite Hc.
    replace (10 <=? c - 48) with false by (symmetry; apply Z.leb_gt; lia).
    change (dec_value (c :: l) acc) with (dec_value l (acc * 10 + (c - 48))).
    destruct (acc * 10 + (c - 48) <? two128) eqn:E; bool_facts; [apply IH; lia|].
    pose proof (dec_value_ge l (acc * 10 + (c - 48)) Hl ltac:(lia)).
    by replace (_ <? two128) with false by (symmetry; apply Z.ltb_ge; lia).
Qed.

Lemma parse_unsigned_digits bound l :
  l <> [] -> all_digits l -> bound <= two128 ->
  parse_unsigned bound l 10 = if dec_value l 0 <? bound then inr (dec_value l 0) else inl Overflow.
Proof.
  intros Hne Hl Hb. unfold parse_unsigned, auto_radix. cbn [negb Z.eqb].
  assert (parse_with_sign l 10 = parse_digits l 10 0) as ->.
  { unfold parse_with_sign. destruct l as [|c l]; [done|].
    assert (is_ascii_digit (List.last (c :: l) 0) = true) as Hlast.
    { rewrite List.Forall_forall in Hl. apply Hl.
      destruct (exists_last Hne) as (l' & x & ->). rewrite List.last_last.
      apply in_or_app. right. by left. }
    pose proof (Forall_inv Hl) as Hc. simpl in Hc.
    apply is_ascii_digit_iff in Hc, Hlast.
    replace (_ || _) with false; [done|]. symmetry. apply orb_false_iff. rewrite !Z.eqb_neq. lia. }
  rewrite parse_digits_spec by (done || unfold two128; lia).
  destruct (dec_value l 0 <? two128) eqn:E; [done|]. bool_facts.
  by replace (dec_value l 0 <? bound) with false by (symmetry; apply Z.ltb_ge; lia).
Qed.

Lemma parse_digits_only l : forall acc n, parse_digits l 10 acc = inr n -> ~ In 95 l -> all_digits l.
Proof.
  induction l as [|c l IH]; intros acc n; cbn [parse_digits]; [constructor|]. intros Hp Hin.
  destruct (Z.eqb_spec c 95) as [->|]; [destruct Hin; by left|]. destruct (digit_value c) as [d|] eqn:Ed; [|done].
  destruct (Z.leb_spec 10 d); [done|]. destruct (_ <? two128); [|done]. constructor.
  - unfold digit_value in Ed. destruct (is_ascii_digit c); [done|].
    repeat match type of Ed with context [if ?b then _ else _] => destruct b eqn:? end; simplify_eq;
      unfold is_ascii_lower, is_ascii_upper in *; bool_facts; lia.
  - eapply IH; [exact Hp|]. intros H'. apply Hin. by right.
Qed.

Lemma dec_digits_all fuel z acc : 0 <= z -> all_digits acc -> all_digits (dec_digits fuel z acc).
Proof.
  revert z acc. induction fuel as [|fuel IH]; intros z acc Hz Hacc; simpl; [done|].
  case_if; bool_facts.
  - constructor; [|done]. apply is_ascii_digit_iff. lia.
  - apply IH; [by apply Z.div_pos; lia|]. constructor; [|done].
    apply is_ascii_digit_iff. pose proof (Z.mod_pos_bound z 10). lia.
Qed.

Lemma dec_digits_value fuel z acc :
  0 <= z < 10 ^ Z.of_nat fuel -> dec_value (dec_digits fuel z acc) 0 = dec_value acc z.
Proof.
  revert z acc. induction fuel as [|fuel IH]; intros z acc Hz.
  - simpl in *. assert (z = 0) as -> by lia. done.
  - cbn [dec_digits]. case_if; bool_facts.
    + cbn. f_equal. lia.
    + rewrite Nat2Z.inj_succ, Z.pow_succ_r in Hz by lia.
      rewrite IH; [|split; [apply Z.div_pos; lia|apply Z.div_lt_upper_bound; lia]].
      cbn. f_equal. pose proof (Z.div_mod z 10). lia.
Qed.

Lemma show_u64_digits z : 0 <= z -> all_digits (show_u64 z).
Proof. intros. by apply dec_digits_all. Qed.

Lemma show_u64_nonempty z : show_u64 z <> [].
Proof.
  unfold show_u64. cbn [dec_digits].
  assert (forall f z x acc, dec_digits f z (x :: acc) <> []) as H.
  { induction f as [|f IH]; intros; simpl; [done|]. case_if; [done|apply IH]. }
  case_if; [done|]. apply (H 19%nat).
Qed.

(** Printing then parsing a 64-bit integer gives it back. *)
Lemma parse_show_u64 z : is_u64 z -> parse_unsigned two64 (show_u64 z) 10 = inr z.
Proof.
  intros Hz. unfold is_u64, two64 in Hz.
  rewrite parse_unsigned_digits by (apply show_u64_nonempty || (apply show_u64_digits; lia) || done).
  unfold show_u64. rewrite dec_digits_value by (simpl; lia). cbn [dec_value fold_left].
  by replace (z <? two64) with true by (symmetry; apply Z.ltb_lt; unfold two64; lia).
Qed.
