(* ===== verification/Wtf8.v ===== *)
(** * WTF-8

    The code points of [bun_core/lib.rs] and
    [bun_core/string/immutable/unicode.rs]: UTF-8 that also encodes unpaired
    surrogates. A lead byte tells the length of a sequence
    ([wtf8_byte_sequence_length]), [decode_wtf8_rune_t] reads a sequence and
    replaces a malformed one, and [encode_wtf8_rune] and [wtf8_sequence] write
    one. [rune_bytes] is the sequence of a code point. *)
From Stdlib Require Import ZArith Lia.
From stdpp Require Import base list numbers option.
From S2P Require Import Prelude.
#[local] Open Scope Z_scope.

(** ** Definitions *)

Definition utf8_byte_sequence_length (first_byte : Z) : Z :=
  if first_byte <=? 0x7F then 1
  else if (0xC0 <=? first_byte) && (first_byte <=? 0xDF) then 2
  else if (0xE0 <=? first_byte) && (first_byte <=? 0xEF) then 3
  else if (0xF0 <=? first_byte) && (first_byte <=? 0xF7) then 4
  else 0.

Definition wtf8_byte_sequence_length (first_byte : Z) : Z :=
  if first_byte <=? 0x7F then 1
  else if (0xC0 <=? first_byte) && (first_byte <=? 0xDF) then 2
  else if (0xE0 <=? first_byte) && (first_byte <=? 0xEF) then 3
  else if (0xF0 <=? first_byte) && (first_byte <=? 0xF7) then 4
  else 1.

(** [[u8; 4]] *)
Record four := Four { b0 : Z; b1 : Z; b2 : Z; b3 : Z }.

(** At [T = u32]. *)
Definition decode_wtf8_rune_t_multibyte (p : four) (len zero : Z) : Z :=
  let s1 := b1 p in
  if negb (Z.land s1 0xC0 =? 0x80) then zero
  else if len =? 2 then
    let cp := Z.lor (Z.shiftl (Z.land (b0 p) 0x1F) 6) (Z.land s1 0x3F) in
    if cp <? 0x80 then zero else cp
  else
  let s2 := b2 p in
  if negb (Z.land s2 0xC0 =? 0x80) then zero
  else if len =? 3 then
    let cp := Z.lor (Z.lor (Z.shiftl (Z.land (b0 p) 0x0F) 12) (Z.shiftl (Z.land s1 0x3F) 6))
                (Z.land s2 0x3F) in
    if cp <? 0x800 then zero else cp
  else
  let s3 := b3 p in
  if negb (Z.land s3 0xC0 =? 0x80) then zero
  else
    let cp := Z.lor (Z.lor (Z.lor (Z.shiftl (Z.land (b0 p) 0x07) 18)
                                  (Z.shiftl (Z.land s1 0x3F) 12))
                           (Z.shiftl (Z.land s2 0x3F) 6))
                (Z.land s3 0x3F) in
    if (cp <? 0x10000) || (0x10FFFF <? cp) then zero else cp.

Definition decode_wtf8_rune_t (p : four) (len zero : Z) : Z :=
  if len =? 0 then zero
  else if len =? 1 then b0 p
  else decode_wtf8_rune_t_multibyte p len zero.

(** [x as u8] *)
Definition as_u8 (z : Z) : Z := z mod two8.

(** The bytes written to [out], and what was there beyond them. *)
Definition encode_wtf8_rune (out : four) (cp : Z) : four * Z :=
  if cp <? 0x80 then (Four (as_u8 cp) (b1 out) (b2 out) (b3 out), 1)
  else if cp <? 0x800 then
    (Four (Z.lor 0xC0 (as_u8 (Z.shiftr cp 6)))
          (Z.lor 0x80 (as_u8 (Z.land cp 0x3F))) (b2 out) (b3 out), 2)
  else if cp <? 0x10000 then
    (Four (Z.lor 0xE0 (as_u8 (Z.shiftr cp 12)))
          (Z.lor 0x80 (as_u8 (Z.land (Z.shiftr cp 6) 0x3F)))
          (Z.lor 0x80 (as_u8 (Z.land cp 0x3F))) (b3 out), 3)
  else
    (Four (Z.lor 0xF0 (as_u8 (Z.shiftr cp 18)))
          (Z.lor 0x80 (as_u8 (Z.land (Z.shiftr cp 12) 0x3F)))
          (Z.lor 0x80 (as_u8 (Z.land (Z.shiftr cp 6) 0x3F)))
          (Z.lor 0x80 (as_u8 (Z.land cp 0x3F))), 4).

Definition wtf8_sequence (code_point : Z) : four :=
  if code_point <=? 0x7F then Four code_point 0 0 0
  else if code_point <=? 0x7FF then
    Four (as_u8 (Z.lor 0xC0 (Z.shiftr code_point 6)))
         (as_u8 (Z.lor 0x80 (Z.land code_point 0x3F))) 0 0
  else if code_point <=? 0xFFFF then
    Four (as_u8 (Z.lor 0xE0 (Z.shiftr code_point 12)))
         (as_u8 (Z.lor 0x80 (Z.land (Z.shiftr code_point 6) 0x3F)))
         (as_u8 (Z.lor 0x80 (Z.land code_point 0x3F))) 0
  else
    Four (as_u8 (Z.lor 0xF0 (Z.shiftr code_point 18)))
         (as_u8 (Z.lor 0x80 (Z.land (Z.shiftr code_point 12) 0x3F)))
         (as_u8 (Z.lor 0x80 (Z.land (Z.shiftr code_point 6) 0x3F)))
         (as_u8 (Z.lor 0x80 (Z.land code_point 0x3F))).

(** ** Sequences *)

Definition is_code_point (cp : Z) : Prop := 0 <= cp <= 0x10FFFF.

#[export] Instance is_code_point_dec cp : Decision (is_code_point cp).
Proof. unfold is_code_point. apply _. Defined.

Definition list_of_four (p : four) : bytes := [b0 p; b1 p; b2 p; b3 p].

(** The first four bytes of a text, padded with zeros. *)
Definition four_of_list (l : bytes) : four :=
  Four (nth 0 l 0) (nth 1 l 0) (nth 2 l 0) (nth 3 l 0).

(** The sequence of a code point: what [encode_wtf8_rune] has written. *)
Definition rune_bytes (cp : Z) : bytes :=
  let '(p, n) := encode_wtf8_rune (Four 0 0 0 0) cp in take (Z.to_nat n) (list_of_four p).

(** [encode_wtf8_rune] as arithmetic. *)
Definition rune_digits (cp : Z) : bytes :=
  if cp <? 0x80 then [cp]
  else if cp <? 0x800 then [0xC0 + cp / 64; 0x80 + cp mod 64]
  else if cp <? 0x10000 then [0xE0 + cp / 4096; 0x80 + cp / 64 mod 64; 0x80 + cp mod 64]
  else [0xF0 + cp / 262144; 0x80 + cp / 4096 mod 64; 0x80 + cp / 64 mod 64; 0x80 + cp mod 64].

(** ** Bits as digits *)

#[local] Ltac Zify.zify_post_hook ::= Z.div_mod_to_equations.

Lemma continuation_byte s : is_byte s -> (Z.land s 0xC0 =? 0x80) = (0x80 <=? s) && (s <? 0xC0).
Proof.
  intros Hs. apply Bool.eqb_prop.
  by apply (byte_forall (fun s => Bool.eqb (Z.land s 0xC0 =? 0x80) ((0x80 <=? s) && (s <? 0xC0)))).
Qed.

Lemma land_digits s :
  Z.land s 0x3F = s mod 64 /\ Z.land s 0x1F = s mod 32 /\ Z.land s 0x0F = s mod 16 /\ Z.land s 0x07 = s mod 8.
Proof.
  change 0x3F with (Z.ones 6). change 0x1F with (Z.ones 5). change 0x0F with (Z.ones 4).
  change 0x07 with (Z.ones 3). rewrite !Z.land_ones by lia. done.
Qed.

(** The union of a multiple of [2 ^ n] and a number below it. *)
Lemma lor_digits a b n : 0 <= n -> 0 <= b < 2 ^ n -> Z.lor (Z.shiftl a n) b = a * 2 ^ n + b.
Proof.
  intros Hn Hb. rewrite Z.shiftl_mul_pow2 by done. rewrite Z.lor_comm, lor_shift by done. lia.
Qed.

Lemma lor_lead x :
  (0 <= x < 64 -> Z.lor 0xC0 x = 0xC0 + x) /\ (0 <= x < 64 -> Z.lor 0x80 x = 0x80 + x) /\
  (0 <= x < 32 -> Z.lor 0xE0 x = 0xE0 + x) /\ (0 <= x < 16 -> Z.lor 0xF0 x = 0xF0 + x).
Proof.
  change 0xC0 with (Z.shiftl 3 6) at 1. change 0x80 with (Z.shiftl 2 6) at 1.
  change 0xE0 with (Z.shiftl 7 5) at 1. change 0xF0 with (Z.shiftl 15 4) at 1.
  split_and!; intros; rewrite lor_digits by lia; lia.
Qed.

Lemma decode_two a b : 0 <= b < 64 -> Z.lor (Z.shiftl a 6) b = a * 64 + b.
Proof. intros. by rewrite lor_digits. Qed.

Lemma decode_three a b c : 0 <= b < 64 -> 0 <= c < 64 ->
  Z.lor (Z.lor (Z.shiftl a 12) (Z.shiftl b 6)) c = a * 4096 + b * 64 + c.
Proof.
  intros. rewrite <- Z.lor_assoc, decode_two by done. rewrite lor_digits by lia. lia.
Qed.

Lemma decode_four a b c d : 0 <= b < 64 -> 0 <= c < 64 -> 0 <= d < 64 ->
  Z.lor (Z.lor (Z.lor (Z.shiftl a 18) (Z.shiftl b 12)) (Z.shiftl c 6)) d =
  a * 262144 + b * 4096 + c * 64 + d.
Proof.
  intros. rewrite <- !Z.lor_assoc. rewrite Z.lor_assoc with (a := Z.shiftl b 12).
  rewrite decode_three by done. rewrite lor_digits by lia. lia.
Qed.

Ltac digits :=
  repeat match goal with
  | |- context [Z.land ?s 0x3F] => rewrite (proj1 (land_digits s))
  | |- context [Z.land ?s 0x1F] => rewrite (proj1 (proj2 (land_digits s)))
  | |- context [Z.land ?s 0x0F] => rewrite (proj1 (proj2 (proj2 (land_digits s))))
  | |- context [Z.land ?s 0x07] => rewrite (proj2 (proj2 (proj2 (land_digits s))))
  end.

(** The numbers that [decode_wtf8_rune_t_multibyte] computes. *)
Lemma decode_multibyte_digits p len zero :
  Forall is_byte (list_of_four p) ->
  decode_wtf8_rune_t_multibyte p len zero =
    let c s := (0x80 <=? s) && (s <? 0xC0) in
    if negb (c (b1 p)) then zero
    else if len =? 2 then
      let cp := b0 p mod 32 * 64 + b1 p mod 64 in if cp <? 0x80 then zero else cp
    else if negb (c (b2 p)) then zero
    else if len =? 3 then
      let cp := b0 p mod 16 * 4096 + b1 p mod 64 * 64 + b2 p mod 64 in
      if cp <? 0x800 then zero else cp
    else if negb (c (b3 p)) then zero
    else
      let cp := b0 p mod 8 * 262144 + b1 p mod 64 * 4096 + b2 p mod 64 * 64 + b3 p mod 64 in
      if (cp <? 0x10000) || (0x10FFFF <? cp) then zero else cp.
Proof.
  intros H. unfold list_of_four in H. rewrite !Forall_cons_iff in H. destruct H as (H0 & H1 & H2 & H3 & _).
  unfold decode_wtf8_rune_t_multibyte. rewrite !continuation_byte by done. digits.
  rewrite decode_two, decode_three, decode_four by (apply Z.mod_pos_bound; lia). done.
Qed.

Lemma rune_bytes_digits cp : is_code_point cp -> rune_bytes cp = rune_digits cp.
Proof.
  unfold is_code_point, rune_bytes, rune_digits, encode_wtf8_rune, as_u8, two8, list_of_four.
  intros Hc. digits. rewrite !Z.shiftr_div_pow2 by lia.
  change (2 ^ 6) with 64. change (2 ^ 12) with 4096. change (2 ^ 18) with 262144.
  repeat case_if; bool_facts; cbn [take Z.to_nat Pos.to_nat Pos.iter_op Nat.add b0 b1 b2 b3];
    rewrite !(Z.mod_small _ 256) by lia;
    repeat match goal with |- context [Z.lor _ ?x] => destruct (lor_lead x) as (E1 & E2 & E3 & E4);
      first [rewrite E1 by lia | rewrite E2 by lia | rewrite E3 by lia | rewrite E4 by lia];
      clear E1 E2 E3 E4 end;
    done.
Qed.

(** ** Round trips *)

Lemma wtf8_sequence_rune cp : is_code_point cp ->
  wtf8_sequence cp = fst (encode_wtf8_rune (Four 0 0 0 0) cp).
Proof.
  unfold is_code_point, wtf8_sequence, encode_wtf8_rune, as_u8, two8. intros Hc.
  rewrite !Z.shiftr_div_pow2 by lia. digits.
  change (2 ^ 6) with 64. change (2 ^ 12) with 4096. change (2 ^ 18) with 262144.
  repeat case_if; bool_facts; cbn [fst b0 b1 b2 b3]; try lia;
    rewrite ?(Z.mod_small (cp / _) 256), ?(Z.mod_small (_ mod 64) 256), ?(Z.mod_small cp 256) by lia;
    repeat match goal with |- context [Z.lor _ ?x] => destruct (lor_lead x) as (E1 & E2 & E3 & E4);
      first [rewrite E1 by lia | rewrite E2 by lia | rewrite E3 by lia | rewrite E4 by lia];
      clear E1 E2 E3 E4 end;
    rewrite ?(Z.mod_small _ 256) by lia; done.
Qed.

(** The lead byte of a sequence tells its length, which is 1 to 4. *)
Lemma rune_digits_length cp : is_code_point cp ->
  Z.of_nat (length (rune_digits cp)) = wtf8_byte_sequence_length (nth 0 (rune_digits cp) 0).
Proof.
  unfold is_code_point, rune_digits, wtf8_byte_sequence_length. intros Hc.
  repeat case_if; cbn [nth length] in *; bool_facts; try lia;
    repeat match goal with H : _ && _ = false |- _ => apply andb_false_iff in H end; bool_facts; lia.
Qed.

Lemma rune_digits_bytes cp : is_code_point cp -> is_bytes (rune_digits cp).
Proof.
  unfold is_code_point, rune_digits, is_bytes, is_byte, two8. intros Hc.
  repeat case_if; bool_facts; repeat constructor; lia.
Qed.

Lemma four_of_list_bytes l : is_bytes l -> Forall is_byte (list_of_four (four_of_list l)).
Proof.
  intros Hl. unfold list_of_four, four_of_list. cbn [b0 b1 b2 b3].
  assert (forall n, is_byte (nth n l 0)) as H; [|repeat (constructor; [apply H|]); constructor].
  intros n. destruct (nth_in_or_default n l 0) as [Hi| ->]; [|by vm_compute].
  unfold is_bytes in Hl. rewrite Forall_forall in Hl. by apply Hl.
Qed.

Lemma decode_rune_digits cp rest zero : is_code_point cp -> is_bytes rest ->
  decode_wtf8_rune_t (four_of_list (rune_digits cp ++ rest)) (Z.of_nat (length (rune_digits cp))) zero = cp.
Proof.
  intros Hc Hr. unfold decode_wtf8_rune_t.
  rewrite decode_multibyte_digits by (apply four_of_list_bytes, is_bytes_app; split;
    [by apply rune_digits_bytes|done]).
  unfold is_code_point, rune_digits in *. unfold four_of_list.
  destruct (cp <? 0x80) eqn:?; [|destruct (cp <? 0x800) eqn:?; [|destruct (cp <? 0x10000) eqn:?]].
  all: repeat case_if; cbn [b0 b1 b2 b3 nth app length] in *; bool_facts;
    repeat match goal with
    | H : _ && _ = false |- _ => apply andb_false_iff in H
    | H : _ || _ = true |- _ => apply orb_true_iff in H
    end; bool_facts; lia.
Qed.

(** What [decode_wtf8_rune_t] accepts is the sequence of what it returns. *)
Lemma decode_accepts p zero : Forall is_byte (list_of_four p) ->
  let len := utf8_byte_sequence_length (b0 p) in
  let cp := decode_wtf8_rune_t p len zero in
  cp = zero \/ is_code_point cp /\ take (Z.to_nat len) (list_of_four p) = rune_digits cp.
Proof.
  intros Hp len cp. subst cp. unfold decode_wtf8_rune_t. rewrite decode_multibyte_digits by done.
  unfold list_of_four in Hp. rewrite !Forall_cons_iff in Hp. destruct Hp as (H0 & H1 & H2 & H3 & _).
  unfold is_byte, two8 in *. subst len. unfold utf8_byte_sequence_length, is_code_point, rune_digits, list_of_four.
  destruct p as [p0 p1 p2 p3]. cbn [b0 b1 b2 b3] in *.
  repeat case_if; try lia; try (by left); right;
    change (Z.to_nat 1) with 1%nat; change (Z.to_nat 2) with 2%nat;
    change (Z.to_nat 3) with 3%nat; change (Z.to_nat 4) with 4%nat; cbn [take];
    bool_facts; (split; [lia|]); repeat f_equal; lia.
Qed.

(** [encode_wtf8_rune] writes the sequence and keeps what is beyond it. *)
Lemma encode_rune_bytes out cp : is_code_point cp ->
  let '(p, n) := encode_wtf8_rune out cp in
  n = Z.of_nat (length (rune_digits cp)) /\
  p = four_of_list (rune_digits cp ++ drop (length (rune_digits cp)) (list_of_four out)).
Proof.
  intros Hc. pose proof (rune_bytes_digits cp Hc) as E. revert E.
  unfold rune_bytes, encode_wtf8_rune, rune_digits, list_of_four, four_of_list.
  repeat case_if; cbn [b0 b1 b2 b3]; intros [= E]; cbn [length app drop nth] in *;
    (split; [done|]); f_equal; done.
Qed.

(** Reading inverts writing: what [encode_wtf8_rune] writes for a code
    point has the length its lead byte tells and is read back as that code
    point, and the bytes that [decode_wtf8_rune_t] does not replace are the
    sequence of the code point it returns: it accepts no overlong form, no stray
    continuation and nothing above U+10FFFF. *)
Theorem wtf8_rune_roundtrip out cp p zero :
  is_code_point cp -> Forall is_byte (list_of_four out) -> Forall is_byte (list_of_four p) ->
  (let '(w, n) := encode_wtf8_rune out cp in
   n = wtf8_byte_sequence_length (b0 w) /\ decode_wtf8_rune_t w n zero = cp) /\
  (let len := utf8_byte_sequence_length (b0 p) in
   let r := decode_wtf8_rune_t p len zero in
   r = zero \/ is_code_point r /\ take (Z.to_nat len) (list_of_four p) = rune_bytes r).
Proof.
  intros Hc Ho Hp. split.
  - pose proof (encode_rune_bytes out cp Hc) as E. destruct (encode_wtf8_rune out cp) as [w n].
    destruct E as [-> ->]. split.
    + rewrite rune_digits_length by done. unfold four_of_list. cbn [b0]. f_equal.
      unfold rune_digits. repeat case_if; done.
    + apply decode_rune_digits; [done|]. by apply Forall_drop.
  - destruct (decode_accepts p zero Hp) as [|[Hr E]]; [by left|right].
    split; [done|]. by rewrite rune_bytes_digits.
Qed.

(** The euro sign, and an overlong encoding of the slash. *)
Lemma wtf8_rune_roundtrip_witness :
  (let '(w, n) := encode_wtf8_rune (Four 0 0 0 0) 0x20AC in
   n = wtf8_byte_sequence_length (b0 w) /\ decode_wtf8_rune_t w n 0xFFFD = 0x20AC) /\
  decode_wtf8_rune_t (Four 0xC0 0xAF 0 0) 2 0xFFFD = 0xFFFD.
Proof.
  split; [|reflexivity].
  apply (wtf8_rune_roundtrip (Four 0 0 0 0) 0x20AC (Four 0xC0 0xAF 0 0) 0xFFFD);
    apply (bool_decide_eq_true_1 _); reflexivity.
Defined.

(** ** Texts of code points *)

Lemma rune_bytes_bytes cp : is_code_point cp -> is_bytes (rune_bytes cp).
Proof. intros. rewrite rune_bytes_digits by done. by apply rune_digits_bytes. Qed.

Lemma rune_bytes_lead cp : is_code_point cp ->
  exists x l, rune_bytes cp = x :: l /\ is_byte x /\
    wtf8_byte_sequence_length x = Z.of_nat (length (rune_bytes cp)) /\
    ((cp < 0x80 /\ x = cp /\ l = []) \/ (0x80 <= cp /\ 0xC0 <= x /\ l <> [])).
Proof.
  intros Hc. pose proof (rune_bytes_bytes cp Hc) as Hb. pose proof (rune_digits_length cp Hc) as Hl.
  rewrite rune_bytes_digits in * by done. rewrite Hl. unfold is_code_point in Hc.
  unfold rune_digits in *. repeat case_if; cbn [nth] in *;
    (eexists _, _; split; [reflexivity|]; split; [by inversion Hb|]; split; [done|]);
    bool_facts; [left; split_and!; done|right; split_and!; [lia|lia|done]..].
Qed.

(** ASCII bytes occur only as themselves. *)
Lemma rune_bytes_high cp : is_code_point cp -> 0x80 <= cp -> Forall (fun b => 0x80 <= b) (rune_bytes cp).
Proof.
  intros Hc Hh. rewrite rune_bytes_digits by done. unfold is_code_point in Hc. unfold rune_digits.
  repeat case_if; bool_facts; repeat constructor; lia.
Qed.

(** No sequence is a prefix of another. *)
Lemma rune_bytes_prefix_inj c d u v : is_code_point c -> is_code_point d ->
  rune_bytes c ++ u = rune_bytes d ++ v -> c = d /\ u = v.
Proof.
  intros Hc Hd E. destruct (rune_bytes_lead c Hc) as (x & l & Ec & _ & Lc & _).
  destruct (rune_bytes_lead d Hd) as (y & k & Ed & _ & Ld & _).
  assert (x = y) as -> by (rewrite Ec, Ed in E; by injection E).
  assert (length (rune_bytes c) = length (rune_bytes d)) as Hl by lia.
  apply app_inj_1 in E as [E ->]; [|done]. split; [|done].
  rewrite !rune_bytes_digits in E by done.
  rewrite <- (decode_rune_digits c [] 0), <- (decode_rune_digits d [] 0) by (done || constructor).
  by rewrite E.
Qed.
