(* ===== verification/Wyhash.v ===== *)
(** * Wyhash11, the 64-bit string hash of the lockfile

    [src/src/wyhash/lib.rs]: the legacy wyhash variant with 32-byte rounds and
    five primes. [Stateless_hash] is the one-shot hash, the [Wyhash11_*]
    operations the streaming hasher with its 32-byte buffer. The main lemma is
    that streaming a message in any chunks gives the one-shot hash. *)
From Stdlib Require Import ZArith Lia.
From stdpp Require Import base list numbers option.
From S2P Require Import Prelude.
#[local] Open Scope Z_scope.

Definition PRIMES : list Z :=
  [11562461410679940143; 16646288086500911323; 10285213230658275043;
   6384245875588680899; 2129725606500045391].
Definition prime (i : nat) : Z := nth i PRIMES 0.

(** [read_bytes::<BYTES>(data)]: a little-endian load; every caller has at
    least [BYTES] bytes. *)
Definition read_bytes (n : nat) (data : bytes) : Z := from_le_bytes (take n data).

Definition read_8bytes_swapped (data : bytes) : Z :=
  Z.lor (as_u64 (Z.shiftl (read_bytes 4 data) 32)) (read_bytes 4 (drop 4 data)).

(** The 128-bit product folded onto 64 bits. *)
Definition mum (a b : Z) : Z :=
  let r := a * b in as_u64 (Z.lxor (Z.shiftr r 64) r).

Definition mix0 (a b seed : Z) : Z :=
  mum (Z.lxor (Z.lxor a seed) (prime 0)) (Z.lxor (Z.lxor b seed) (prime 1)).
Definition mix1 (a b seed : Z) : Z :=
  mum (Z.lxor (Z.lxor a seed) (prime 2)) (Z.lxor (Z.lxor b seed) (prime 3)).

(** [x << n] at 64 bits. *)
Definition shl64 (x n : Z) : Z := as_u64 (Z.shiftl x n).

(** The load of the last [n <= 7] bytes of a key, the arms shared by
    [final_] and [final_long]: [data] starts at the remainder. *)
Definition read_tail (n : nat) (data : bytes) : Z :=
  match n with
  | 1%nat => read_bytes 1 data
  | 2%nat => read_bytes 2 data
  | 3%nat => Z.lor (shl64 (read_bytes 2 data) 8) (read_bytes 1 (drop 2 data))
  | 4%nat => read_bytes 4 data
  | 5%nat => Z.lor (shl64 (read_bytes 4 data) 8) (read_bytes 1 (drop 4 data))
  | 6%nat => Z.lor (shl64 (read_bytes 4 data) 16) (read_bytes 2 (drop 4 data))
  | 7%nat => Z.lor (Z.lor (shl64 (read_bytes 4 data) 24) (shl64 (read_bytes 2 (drop 4 data)) 8))
               (read_bytes 1 (drop 6 data))
  | _ => 0
  end.

(** The [17..=31]-byte remainders. *)
Definition final_long (seed : Z) (key : bytes) : Z :=
  let n := length key in
  let head := mix0 (read_8bytes_swapped key) (read_8bytes_swapped (drop 8 key)) seed in
  let tail :=
    if (n <=? 23)%nat then mix1 (read_tail (n - 16) (drop 16 key)) (prime 4) seed
    else if (n =? 24)%nat then mix1 (read_8bytes_swapped (drop 16 key)) (prime 4) seed
    else mix1 (read_8bytes_swapped (drop 16 key)) (read_tail (n - 24) (drop 24 key)) seed in
  Z.lxor head tail.

Record WyhashStateless : Type := mkStateless {
  ws_seed : Z;
  ws_msg_len : Z;
}.

Definition Stateless_init (seed : Z) : WyhashStateless := mkStateless seed 0.

Definition Stateless_round (st : WyhashStateless) (b : bytes) : WyhashStateless :=
  mkStateless
    (Z.lxor (mix0 (read_bytes 8 b) (read_bytes 8 (drop 8 b)) st.(ws_seed))
            (mix1 (read_bytes 8 (drop 16 b)) (read_bytes 8 (drop 24 b)) st.(ws_seed)))
    st.(ws_msg_len).

(** The [while off < b.len()] loop; [fuel] is at least the number of rounds. *)
Fixpoint Stateless_rounds (fuel : nat) (st : WyhashStateless) (b : bytes) : WyhashStateless :=
  match fuel with
  | O => st
  | S fuel' =>
      match b with
      | [] => st
      | _ => Stateless_rounds fuel' (Stateless_round st (take 32 b)) (drop 32 b)
      end
  end.

Definition Stateless_update (st : WyhashStateless) (b : bytes) : WyhashStateless :=
  let st' := Stateless_rounds (length b) st b in
  mkStateless st'.(ws_seed) (st'.(ws_msg_len) + Z.of_nat (length b)).

(** [final_] mixes the remainder into the state and returns the hash. *)
Definition Stateless_final (st : WyhashStateless) (b : bytes) : Z * WyhashStateless :=
  let seed := st.(ws_seed) in
  let n := length b in
  let seed' :=
    if (n =? 0)%nat then seed
    else if (n <=? 7)%nat then mix0 (read_tail n b) (prime 4) seed
    else if (n =? 8)%nat then mix0 (read_8bytes_swapped b) (prime 4) seed
    else if (n <=? 15)%nat then mix0 (read_8bytes_swapped b) (read_tail (n - 8) (drop 8 b)) seed
    else if (n =? 16)%nat then mix0 (read_8bytes_swapped b) (read_8bytes_swapped (drop 8 b)) seed
    else final_long seed b in
  let msg_len := st.(ws_msg_len) + Z.of_nat n in
  (mum (Z.lxor seed' (as_u64 msg_len)) (prime 4), mkStateless seed' msg_len).

Definition Stateless_hash (seed : Z) (input : bytes) : Z :=
  let aligned_len := (length input - length input mod 32)%nat in
  (Stateless_final (Stateless_update (Stateless_init seed) (take aligned_len input))
    (drop aligned_len input)).1.

(** ** The streaming hasher *)

Record Wyhash11 : Type := mkWyhash11 {
  wy_state : WyhashStateless;
  wy_buf : bytes;
  wy_buf_len : nat;
}.

Definition Wyhash11_init (seed : Z) : Wyhash11 :=
  mkWyhash11 (Stateless_init seed) (replicate 32 0) 0.

Definition Wyhash11_update (h : Wyhash11) (b : bytes) : outcome Wyhash11 :=
  let! (h, off) :=
    if negb (h.(wy_buf_len) =? 0)%nat && (32 <=? h.(wy_buf_len) + length b)%nat then
      let off := (32 - h.(wy_buf_len))%nat in
      let! buf := write_at h.(wy_buf) (Z.of_nat h.(wy_buf_len)) (take off b) in
      Done (mkWyhash11 (Stateless_update h.(wy_state) buf) buf 0, off)
    else Done (h, O) in
  let remain_len := (length b - off)%nat in
  let aligned_len := (remain_len - remain_len mod 32)%nat in
  let state := Stateless_update h.(wy_state) (sub b off (off + aligned_len)) in
  let tail := drop (off + aligned_len) b in
  let! buf := write_at h.(wy_buf) (Z.of_nat h.(wy_buf_len)) tail in
  Done (mkWyhash11 state buf (h.(wy_buf_len) + length tail)).

Definition Wyhash11_final (h : Wyhash11) : Z * Wyhash11 :=
  let '(r, state) := Stateless_final h.(wy_state) (take h.(wy_buf_len) h.(wy_buf)) in
  (r, mkWyhash11 state h.(wy_buf) h.(wy_buf_len)).

(** [Hasher::finish] works on a copy of the state. *)
Definition Wyhash11_finish (h : Wyhash11) : Z :=
  (Stateless_final h.(wy_state) (take h.(wy_buf_len) h.(wy_buf))).1.

Definition Wyhash11_hash (seed : Z) (input : bytes) : Z := Stateless_hash seed input.

(** Streams a sequence of chunks into a hasher. *)
Fixpoint Wyhash11_update_all (h : Wyhash11) (chunks : list bytes) : outcome Wyhash11 :=
  match chunks with
  | [] => Done h
  | b :: rest => let! h' := Wyhash11_update h b in Wyhash11_update_all h' rest
  end.

(** ** Lemmas *)

Lemma Stateless_rounds_nil fuel st : Stateless_rounds fuel st [] = st.
Proof. by destruct fuel. Qed.

Lemma Stateless_rounds_app f1 f2 st b c :
  (length b mod 32 = 0)%nat -> (length b <= f1)%nat -> (length b + length c <= f2)%nat ->
  Stateless_rounds f2 st (b ++ c) = Stateless_rounds (f2 - length b / 32) (Stateless_rounds f1 st b) c.
Proof.
  revert f2 st b. induction f1 as [|f1 IH]; intros f2 st b Hm H1 H2.
  - assert (b = []) as -> by (apply nil_length_inv; lia). simpl. f_equal. lia.
  - destruct b as [|x b']; [simpl; f_equal; lia|]. set (b := x :: b') in *.
    assert (length b > 0)%nat by (simpl; lia). clearbody b.
    pose proof (Nat.div_mod_eq (length b) 32).
    assert (32 <= length b)%nat by lia.
    destruct f2 as [|f2]; [lia|]. cbn [Stateless_rounds].
    destruct (b ++ c) eqn:E; [destruct b; simpl in *; [lia|done]|]. rewrite <- E. clear E.
    rewrite take_app_le, drop_app_le by lia.
    replace (match b with [] => st | _ :: _ => _ end)
      with (Stateless_rounds f1 (Stateless_round st (take 32 b)) (drop 32 b))
      by (destruct b; [simpl in *; lia|done]).
    assert (length (drop 32 b) / 32 = length b / 32 - 1)%nat as Hd.
    { rewrite length_drop. symmetry. apply (Nat.div_unique _ _ _ 0); lia. }
    rewrite IH; rewrite ?length_drop in *; try lia.
    + rewrite Hd. f_equal. lia.
    + replace (length b - 32)%nat with ((length b / 32 - 1) * 32)%nat by lia. apply Nat.Div0.mod_mul.
Qed.

(** Enough fuel is as good as more. *)
Lemma Stateless_rounds_fuel f1 f2 st b :
  (length b <= f1)%nat -> (length b <= f2)%nat -> Stateless_rounds f1 st b = Stateless_rounds f2 st b.
Proof.
  revert f2 st b. induction f1 as [|f1 IH]; intros f2 st b H1 H2.
  - assert (b = []) as -> by (apply nil_length_inv; lia). by rewrite !Stateless_rounds_nil.
  - destruct b as [|x b']; [by rewrite !Stateless_rounds_nil|].
    destruct f2 as [|f2]; [simpl in *; lia|]. cbn [Stateless_rounds].
    apply IH; rewrite length_drop; simpl in *; lia.
Qed.

Lemma Stateless_rounds_msg_len f st b : ws_msg_len (Stateless_rounds f st b) = ws_msg_len st.
Proof.
  revert st b. induction f as [|f IH]; intros st [|x b]; simpl; try done. by rewrite IH.
Qed.

Lemma Stateless_rounds_seed f st st' b :
  ws_seed st = ws_seed st' -> ws_seed (Stateless_rounds f st b) = ws_seed (Stateless_rounds f st' b).
Proof.
  revert st st' b. induction f as [|f IH]; intros st st' [|x b] H; simpl; try done.
  apply IH. unfold Stateless_round. by rewrite H.
Qed.

(** Hashing whole rounds is associative with concatenation. *)
Lemma Stateless_update_app st b c :
  (length b mod 32 = 0)%nat ->
  Stateless_update st (b ++ c) = Stateless_update (Stateless_update st b) c.
Proof.
  intros Hm. unfold Stateless_update.
  rewrite !Stateless_rounds_msg_len. cbn [ws_msg_len].
  rewrite (Stateless_rounds_app (length b)) by (rewrite ?length_app; lia).
  rewrite (Stateless_rounds_fuel _ (length c)).
  2:{ rewrite length_app. pose proof (Nat.Div0.div_le_upper_bound (length b) 32 (length b)). lia. }
  2:{ done. }
  f_equal; [by apply Stateless_rounds_seed|]. rewrite length_app. lia.
Qed.

(** ** Streaming is one-shot hashing *)

Definition aligned (n : nat) : nat := (n - n mod 32)%nat.

Lemma aligned_mod n : (aligned n mod 32 = 0)%nat.
Proof.
  unfold aligned. pose proof (Nat.div_mod_eq n 32).
  replace (n - n mod 32)%nat with (n / 32 * 32)%nat by lia. apply Nat.Div0.mod_mul.
Qed.

Lemma aligned_le n : (aligned n <= n)%nat.
Proof. unfold aligned. lia. Qed.

Lemma aligned_plus n : (aligned n + n mod 32 = n)%nat.
Proof. unfold aligned. pose proof (Nat.Div0.mod_le n 32). lia. Qed.

Lemma aligned_small n : (n < 32)%nat -> aligned n = 0%nat.
Proof. intros. unfold aligned. rewrite Nat.mod_small by lia. lia. Qed.

Lemma aligned_add a n : (a mod 32 = 0)%nat -> aligned (a + n) = (a + aligned n)%nat.
Proof.
  intros Ha. unfold aligned.
  rewrite Nat.Div0.add_mod, Ha, Nat.add_0_l, Nat.Div0.mod_mod.
  pose proof (Nat.Div0.mod_le n 32). lia.
Qed.

(** Appending [k] bytes when the buffer is empty or does not fill up. *)
Lemma aligned_app m k :
  (m mod 32 = 0 \/ m mod 32 + k < 32)%nat ->
  (aligned (m + k) = aligned m + aligned k /\ (m + k) mod 32 = m mod 32 + (k - aligned k))%nat.
Proof.
  intros Hcase. pose proof (aligned_plus m). pose proof (aligned_plus k).
  assert (aligned (m + k) = aligned m + aligned k)%nat as Hal.
  { rewrite <- (aligned_plus m) at 1. rewrite <- Nat.add_assoc, aligned_add by apply aligned_mod.
    f_equal. destruct Hcase as [->|Hlt]; [done|]. rewrite !aligned_small; lia. }
  split; [done|]. pose proof (aligned_plus (m + k)). lia.
Qed.

(** [h] is the hasher of seed [seed] after the bytes [msg]. *)
Record wy_repr (seed : Z) (msg : bytes) (h : Wyhash11) : Prop := {
  wy_len : length h.(wy_buf) = 32%nat;
  wy_buf_len_eq : h.(wy_buf_len) = (length msg mod 32)%nat;
  wy_state_eq : h.(wy_state) = Stateless_update (Stateless_init seed) (take (aligned (length msg)) msg);
  wy_buf_eq : take h.(wy_buf_len) h.(wy_buf) = drop (aligned (length msg)) msg;
}.

Lemma wy_repr_init seed : wy_repr seed [] (Wyhash11_init seed).
Proof. by split. Qed.

Lemma wy_repr_final seed msg h : wy_repr seed msg h -> Wyhash11_finish h = Wyhash11_hash seed msg.
Proof. intros [? ? Hs Hb]. unfold Wyhash11_finish, Wyhash11_hash, Stateless_hash. by rewrite Hs, Hb. Qed.

(** The part of [update] after the buffer has been flushed or skipped: [msg]
    is what was hashed before, [b] what is still to be hashed. *)
Lemma wy_repr_tail seed msg (b buf : bytes) n :
  n = (length msg mod 32)%nat -> length buf = 32%nat ->
  take n buf = drop (aligned (length msg)) msg ->
  n = 0%nat \/ (n + length b < 32)%nat ->
  exists h', wy_repr seed (msg ++ b) h' /\
    (let! buf := write_at buf (Z.of_nat n) (drop (aligned (length b)) b) in
     Done (mkWyhash11
       (Stateless_update (Stateless_update (Stateless_init seed) (take (aligned (length msg)) msg))
          (take (aligned (length b)) b))
       buf (n + length (drop (aligned (length b)) b)))) = Done h'.
Proof.
  intros Hn Hbuf Htake Hcase.
  pose proof (aligned_le (length b)). pose proof (aligned_le (length msg)).
  assert (n + length (drop (aligned (length b)) b) <= 32)%nat as Hfit.
  { rewrite length_drop. unfold aligned in *. pose proof (Nat.mod_upper_bound (length b) 32). lia. }
  eexists. split.
  2:{ unfold write_at. rewrite Hbuf.
      replace (_ && _) with true; [|symmetry; rewrite andb_true_iff, !Z.leb_le; lia].
      cbn [obind]. rewrite Nat2Z.id. reflexivity. }
  subst n. destruct (aligned_app (length msg) (length b) Hcase) as [Hal Hmod].
  pose proof (aligned_plus (length msg)).
  rewrite <- length_app in Hal, Hmod.
  split; cbn [wy_buf wy_buf_len wy_state].
  - rewrite !length_app, length_take, !length_drop in *. lia.
  - by rewrite Hmod, length_drop.
  - rewrite Hal. rewrite <- Stateless_update_app by (rewrite length_take, Nat.min_l by done; apply aligned_mod).
    f_equal. destruct Hcase as [Hz|Hlt].
    + assert (aligned (length msg) = length msg) as -> by lia.
      rewrite firstn_all. by rewrite take_app_add.
    + rewrite (aligned_small (length b)) by lia.
      by rewrite take_0, app_nil_r, Nat.add_0_r, take_app_le by done.
  - rewrite Hal, app_assoc, take_app_le by (rewrite length_app, length_take; lia).
    rewrite take_app_add' by (rewrite length_take; lia). rewrite (take_ge (drop _ b)) by done.
    rewrite Htake. destruct Hcase as [Hz|Hlt].
    + assert (aligned (length msg) = length msg) as -> by lia.
      by rewrite drop_all, drop_app_add.
    + rewrite (aligned_small (length b)) by lia.
      by rewrite drop_0, Nat.add_0_r, drop_app_le by done.
Qed.

(** The flush of a full buffer: [off] bytes of [b] complete the round. *)
Lemma wy_repr_flush seed msg h b off :
  wy_repr seed msg h -> off = (32 - h.(wy_buf_len))%nat -> (off <= length b)%nat ->
  exists buf, write_at h.(wy_buf) (Z.of_nat h.(wy_buf_len)) (take off b) = Done buf /\
    wy_repr seed (msg ++ take off b) (mkWyhash11 (Stateless_update h.(wy_state) buf) buf 0).
Proof.
  intros [Hlen Hbl Hs Hb] Hoff Hle.
  pose proof (Nat.mod_upper_bound (length msg) 32). pose proof (aligned_plus (length msg)).
  eexists. split.
  { unfold write_at. rewrite Hlen, length_take, Nat.min_l by lia.
    replace (_ && _) with true; [|symmetry; rewrite andb_true_iff, !Z.leb_le; lia].
    rewrite Nat2Z.id. reflexivity. }
  rewrite (drop_ge (wy_buf h)), app_nil_r by lia.
  rewrite Hb. set (c := take off b). assert (length c = off) by (unfold c; rewrite length_take; lia).
  assert (aligned (length (msg ++ c)) = length (msg ++ c)) as Hal.
  { unfold aligned. rewrite length_app.
    replace (length msg + length c)%nat with (aligned (length msg) + 32)%nat by lia.
    rewrite Nat.Div0.add_mod, aligned_mod. simpl. lia. }
  split; cbn [wy_buf wy_buf_len wy_state].
  - rewrite length_app, length_drop. lia.
  - pose proof (aligned_plus (length (msg ++ c))). lia.
  - rewrite Hs, Hal, firstn_all, <- Stateless_update_app, app_assoc, take_drop; [done|].
    rewrite length_take, Nat.min_l by lia. apply aligned_mod.
  - by rewrite Hal, drop_all.
Qed.

Lemma wy_repr_update seed msg h b :
  wy_repr seed msg h -> exists h', Wyhash11_update h b = Done h' /\ wy_repr seed (msg ++ b) h'.
Proof.
  intros Hr. unfold Wyhash11_update.
  destruct (negb (wy_buf_len h =? 0)%nat && (32 <=? wy_buf_len h + length b)%nat) eqn:E.
  - bool_facts. destruct (wy_repr_flush seed msg h b _ Hr eq_refl) as (buf & -> & Hr'); [lia|].
    cbn [obind]. destruct Hr' as [Hlen' Hbl' Hs' Hb']; cbn [wy_buf wy_buf_len wy_state] in *.
    set (off := (32 - wy_buf_len h)%nat) in *.
    destruct (wy_repr_tail seed (msg ++ take off b) (drop off b) buf 0) as (h' & Hr'' & Heq); auto.
    exists h'. rewrite <- app_assoc, take_drop in Hr''. split; [|done]. rewrite <- Heq.
    rewrite Hs'. unfold sub. rewrite !drop_drop, !length_drop.
    fold (aligned (length b - off)).
    by replace (off + aligned (length b - off) - off)%nat with (aligned (length b - off)) by lia.
  - cbn [obind]. destruct Hr as [Hlen Hbl Hs Hb].
    destruct (wy_repr_tail seed msg b (wy_buf h) (wy_buf_len h)) as (h' & Hr' & Heq); auto.
    { apply andb_false_iff in E as [E|E]; bool_facts; lia. }
    exists h'. split; [|done]. rewrite <- Heq. rewrite Hs. unfold sub.
    by rewrite Nat.add_0_l, !Nat.sub_0_r, drop_0.
Qed.

Lemma wy_repr_update_all seed msg h chunks :
  wy_repr seed msg h ->
  exists h', Wyhash11_update_all h chunks = Done h' /\ wy_repr seed (msg ++ concat chunks) h'.
Proof.
  revert msg h. induction chunks as [|b chunks IH]; intros msg h Hr; simpl.
  - rewrite app_nil_r. eauto.
  - destruct (wy_repr_update seed msg h b Hr) as (h1 & -> & Hr1). cbn [obind].
    rewrite app_assoc. by apply IH.
Qed.

(** ** Property *)

(** Streaming equals one-shot hashing. Feeding any sequence of chunks to a
    fresh hasher never panics, and finishing gives the hash of their
    concatenation, however the message was cut. *)
Theorem Wyhash11_streaming (seed : Z) (chunks : list bytes) :
  exists h, Wyhash11_update_all (Wyhash11_init seed) chunks = Done h /\
    Wyhash11_finish h = Wyhash11_hash seed (concat chunks).
Proof.
  destruct (wy_repr_update_all seed [] _ chunks (wy_repr_init seed)) as (h & Hu & Hr).
  eauto using wy_repr_final.
Qed.
