(* ===== verification/SemverString.v ===== *)
(** * Packed strings of the package manager

    [src/src/semver/lib.rs]: an 8-byte [String] holds either up to eight bytes
    inline or a 32-bit offset and a 31-bit length into a shared buffer, marked
    by bit 63. [Builder] and [Buf] fill such buffers and share equal strings
    through a pool keyed by [Wyhash11]. A [&[u8]] inside a buffer is its
    contents and its offset from the start of the buffer, because
    [Pointer::init] subtracts the two addresses. *)
From Stdlib Require Import ZArith Lia.
From stdpp Require Import base list numbers option gmap.
From S2P Require Import Prelude Strings Wyhash.
#[local] Open Scope Z_scope.

(** ** The representation *)

Record String : Type := mkString { s_bytes : bytes }.

Definition MAX_INLINE_LEN : nat := 8.
Definition MAX_ADDRESSABLE_SPACE_MASK : Z := 9223372036854775807.
Definition BIT63 : Z := 9223372036854775808.

Definition String_default : String := mkString (replicate 8 0).

Record Pointer : Type := mkPointer { p_off : Z; p_len : Z }.

(** [in_] starts [off] bytes after the buffer; both fields are [as u32]. *)
Definition Pointer_init (off : Z) (in_ : bytes) : Pointer :=
  mkPointer (as_u32 off) (as_u32 (Z.of_nat (length in_))).

Definition Pointer_to_bits (p : Pointer) : Z :=
  from_le_bytes (to_le_bytes 4 p.(p_off) ++ to_le_bytes 4 p.(p_len)).

Definition Pointer_from_bits (bits : Z) : Pointer :=
  let b := to_le_bytes 8 bits in
  mkPointer (from_le_bytes (take 4 b)) (from_le_bytes (drop 4 b)).

Definition byte7 (s : String) : Z := nth 7 s.(s_bytes) 0.

Definition can_inline (buf : bytes) : bool :=
  if (length buf <=? 7)%nat then true
  else if (length buf =? 8)%nat then Z.land (nth 7 buf 0) 128 =? 0
  else false.

Definition is_inline (s : String) : bool := Z.land (byte7 s) 128 =? 0.

(** The arms for at most eight bytes: the bytes padded with zeros. *)
Definition inline_bytes (in_ : bytes) : String :=
  mkString (in_ ++ replicate (8 - length in_) 0).

(** The pointer arm. *)
Definition packed_pointer (off : Z) (in_ : bytes) : String :=
  let ptr_bits := Pointer_to_bits (Pointer_init off in_) in
  mkString (to_le_bytes 8 (Z.lor (Z.land ptr_bits MAX_ADDRESSABLE_SPACE_MASK) BIT63)).

Definition String_init (off : Z) (in_ : bytes) : String :=
  if (length in_ <=? 7)%nat then inline_bytes in_
  else if (length in_ =? 8)%nat then
    if 128 <=? nth 7 in_ 0 then packed_pointer off in_ else inline_bytes in_
  else packed_pointer off in_.

(** [init_inline] reaches [unreachable!()] past eight bytes. *)
Definition init_inline (in_ : bytes) : outcome String :=
  if (length in_ <=? 8)%nat then Done (inline_bytes in_) else Panic.

(** [init_append]: the buffer grows by [in_] and the handle points there. *)
Definition init_append (buf in_ : bytes) : bytes * String :=
  (buf ++ in_, packed_pointer (Z.of_nat (length buf)) in_).

Definition init_append_if_needed (buf in_ : bytes) : bytes * String :=
  if (length in_ <=? 7)%nat then (buf, inline_bytes in_)
  else if (length in_ =? 8)%nat then
    if 128 <=? nth 7 in_ 0 then init_append buf in_ else (buf, inline_bytes in_)
  else init_append buf in_.

Definition String_ptr (s : String) : Pointer :=
  Pointer_from_bits (Z.land (from_le_bytes s.(s_bytes)) MAX_ADDRESSABLE_SPACE_MASK).

Definition String_is_empty (s : String) : bool := from_le_bytes s.(s_bytes) =? 0.

Fixpoint pos_trailing_zeros (p : positive) : Z :=
  match p with
  | xO q => 1 + pos_trailing_zeros q
  | _ => 0
  end.

(** [u64::trailing_zeros]: 64 for zero. *)
Definition trailing_zeros (z : Z) : Z :=
  match z with
  | Zpos p => pos_trailing_zeros p
  | _ => 64
  end.

Definition ONES : Z := 72340172838076673.        (* 0x0101010101010101 *)
Definition HIGHS : Z := 9259542123273814144.     (* 0x8080808080808080 *)

(** The index of the first NUL byte, or 8, by word arithmetic. *)
Definition inline_len (s : String) : Z :=
  let bits := from_le_bytes s.(s_bytes) in
  let zero_bytes := Z.land (Z.land (as_u64 (bits - ONES)) (Z.lnot bits)) HIGHS in
  trailing_zeros zero_bytes / 8.

Definition String_len (s : String) : Z :=
  if Z.land (byte7 s) 128 =? 0 then inline_len s else (String_ptr s).(p_len).

Definition String_slice (s : String) (buf : bytes) : bytes :=
  if Z.land (byte7 s) 128 =? 0 then take (Z.to_nat (inline_len s)) s.(s_bytes)
  else
    let p := String_ptr s in
    default [] (get_range buf p.(p_off) (p.(p_off) + p.(p_len))).

Definition String_eql (this that : String) (this_buf that_buf : bytes) : bool :=
  if is_inline this && is_inline that then
    from_le_bytes this.(s_bytes) =? from_le_bytes that.(s_bytes)
  else if negb (Bool.eqb (is_inline this) (is_inline that)) then false
  else
    let a := String_ptr this in
    let b := String_ptr that in
    match get_range this_buf a.(p_off) (a.(p_off) + a.(p_len)),
          get_range that_buf b.(p_off) (b.(p_off) + b.(p_len)) with
    | Some x, Some y => eql x y
    | _, _ => false
    end.

Definition String_order (lhs rhs : String) (lhs_buf rhs_buf : bytes) : comparison :=
  order (String_slice lhs lhs_buf) (String_slice rhs rhs_buf).

(** ** External strings and slices of a buffer *)

Record ExternalString : Type := mkExternal {
  es_value : String;
  es_hash : Z;
}.

Definition External_default : ExternalString := mkExternal String_default 0.

Definition External_init (off : Z) (in_ : bytes) (hash : Z) : ExternalString :=
  mkExternal (String_init off in_) hash.

Definition External_order (lhs rhs : ExternalString) (lhs_buf rhs_buf : bytes) : comparison :=
  if (lhs.(es_hash) =? rhs.(es_hash)) && (0 <? lhs.(es_hash)) then Eq
  else String_order lhs.(es_value) rhs.(es_value) lhs_buf rhs_buf.

Definition External_is_inline (s : ExternalString) : bool := is_inline s.(es_value).
Definition External_is_empty (s : ExternalString) : bool := String_is_empty s.(es_value).
Definition External_slice (s : ExternalString) (buf : bytes) : bytes :=
  String_slice s.(es_value) buf.

(** [SlicedString]: the window [ss_off, ss_off + ss_len) of [ss_buf]. *)
Record SlicedString : Type := mkSliced {
  ss_buf : bytes;
  ss_off : nat;
  ss_len : nat;
}.

Definition ss_slice (s : SlicedString) : bytes := sub s.(ss_buf) s.(ss_off) (s.(ss_off) + s.(ss_len)).

(** [SlicedString::init(buf, buf)]. *)
Definition Sliced_whole (buf : bytes) : SlicedString := mkSliced buf 0 (length buf).

(** [s.sub(&s.slice[a..b])]. *)
Definition Sliced_sub (s : SlicedString) (a b : nat) : SlicedString :=
  mkSliced s.(ss_buf) (s.(ss_off) + a) (b - a).

Definition Sliced_external (s : SlicedString) : ExternalString :=
  External_init (Z.of_nat s.(ss_off)) (ss_slice s) (Wyhash11_hash 0 (ss_slice s)).

Definition Sliced_value (s : SlicedString) : String :=
  String_init (Z.of_nat s.(ss_off)) (ss_slice s).

(** [StorePathFormatter]: the characters that cannot occur in one path
    component of the isolated store become [+]. *)
Definition store_path_char (c : Z) : Z :=
  if (c =? 47) || (c =? 92) || (c =? 58) || (c =? 35) || (c =? 63) then 43 else c.

(** [write_char(n as char)]: the UTF-8 encoding of the code point [n] below 256. *)
Definition write_char (n : Z) : bytes := if n <? 128 then [n] else [192 + n / 64; 128 + n mod 64].

Definition fmt_store_path (s : bytes) : bytes := concat (map (fun c => write_char (store_path_char c)) s).

(** ** The string pool and the two builders *)

(** [StringPool]: handles keyed by the 64-bit hash of their contents. *)
Abbreviation StringPool := (gmap Z String).

Definition string_hash (buf : bytes) : Z := Wyhash11_hash 0 buf.

(** [Buf]: a growable buffer and its pool. *)
Record Buf : Type := mkBuf {
  bf_bytes : bytes;
  bf_pool : StringPool;
}.

Definition Buf_append_with_hash (b : Buf) (str : bytes) (hash : Z) : outcome (String * Buf) :=
  if can_inline str then let! s := init_inline str in Done (s, b)
  else
    match b.(bf_pool) !! hash with
    | Some existing => Done (existing, b)
    | None =>
        let (bytes', new) := init_append b.(bf_bytes) str in
        Done (new, mkBuf bytes' (<[hash := new]> b.(bf_pool)))
    end.

Definition Buf_append (b : Buf) (str : bytes) : outcome (String * Buf) :=
  if can_inline str then let! s := init_inline str in Done (s, b)
  else
    let hash := string_hash str in
    match b.(bf_pool) !! hash with
    | Some existing => Done (existing, b)
    | None =>
        let (bytes', new) := init_append b.(bf_bytes) str in
        Done (new, mkBuf bytes' (<[hash := new]> b.(bf_pool)))
    end.

Definition Buf_append_external_with_hash (b : Buf) (str : bytes) (hash : Z)
    : outcome (ExternalString * Buf) :=
  if can_inline str then let! s := init_inline str in Done (mkExternal s hash, b)
  else
    match b.(bf_pool) !! hash with
    | Some existing => Done (mkExternal existing hash, b)
    | None =>
        let (bytes', new) := init_append b.(bf_bytes) str in
        Done (mkExternal new hash, mkBuf bytes' (<[hash := new]> b.(bf_pool)))
    end.

Definition Buf_append_external (b : Buf) (str : bytes) : outcome (ExternalString * Buf) :=
  let hash := string_hash str in
  if can_inline str then let! s := init_inline str in Done (mkExternal s hash, b)
  else
    match b.(bf_pool) !! hash with
    | Some existing => Done (mkExternal existing hash, b)
    | None =>
        let (bytes', new) := init_append b.(bf_bytes) str in
        Done (mkExternal new hash, mkBuf bytes' (<[hash := new]> b.(bf_pool)))
    end.

(** [BuilderStringType], the trait over [String] and [ExternalString]. *)
Class BuilderStringType (T : Type) : Type := {
  from_init : Z -> bytes -> Z -> T;
  from_pooled : String -> Z -> T;
}.

#[export] Instance BuilderStringType_String : BuilderStringType String := {
  from_init off slice _ := String_init off slice;
  from_pooled value _ := value;
}.

#[export] Instance BuilderStringType_External : BuilderStringType ExternalString := {
  from_init off slice hash := External_init off slice hash;
  from_pooled value hash := mkExternal value hash;
}.

(** What the builders rely on: both constructors carry the packed string. *)
Class BuilderStringLaws (T : Type) `{BuilderStringType T} : Type := {
  handle_of : T -> String;
  handle_from_init : forall off slice hash, handle_of (from_init off slice hash) = String_init off slice;
  handle_from_pooled : forall value hash, handle_of (from_pooled value hash) = value;
}.

#[export] Instance BuilderStringLaws_String : BuilderStringLaws String.
Proof. by exists (fun s => s). Defined.
#[export] Instance BuilderStringLaws_External : BuilderStringLaws ExternalString.
Proof. by exists es_value. Defined.

Record Builder : Type := mkBuilder {
  bd_len : Z;
  bd_cap : Z;
  bd_ptr : option bytes;
  bd_pool : StringPool;
}.

Definition Builder_default : Builder := mkBuilder 0 0 None ∅.

Definition count_with_hash (b : Builder) (slice : bytes) (hash : Z) : Builder :=
  if can_inline slice then b
  else match b.(bd_pool) !! hash with
       | Some _ => b
       | None => mkBuilder b.(bd_len) (b.(bd_cap) + Z.of_nat (length slice)) b.(bd_ptr) b.(bd_pool)
       end.

Definition Builder_count (b : Builder) (slice : bytes) : Builder :=
  count_with_hash b slice (if can_inline slice then u64_MAX else string_hash slice).

Definition Builder_allocate (b : Builder) : Builder :=
  mkBuilder b.(bd_len) b.(bd_cap) (Some (replicate (Z.to_nat b.(bd_cap)) 0)) b.(bd_pool).

(** [&self.ptr...[0..self.cap]], or the empty slice when nothing was counted. *)
Definition allocated_slice (b : Builder) : outcome bytes :=
  if 0 <? b.(bd_cap) then
    match b.(bd_ptr) with
    | Some p => index_range p 0 b.(bd_cap)
    | None => Panic
    end
  else Done [].

(** [ptr[len..cap][..slice.len()].copy_from_slice(slice)]: the new contents. *)
Definition builder_copy (b : Builder) (slice : bytes) : outcome bytes :=
  match b.(bd_ptr) with
  | None => Panic
  | Some p =>
      if (b.(bd_len) <=? b.(bd_cap)) && (b.(bd_cap) <=? Z.of_nat (length p))
         && (Z.of_nat (length slice) <=? b.(bd_cap) - b.(bd_len))
      then write_at p b.(bd_len) slice else Panic
  end.

Definition append_without_pool {T} `{BuilderStringType T} (b : Builder) (slice : bytes) (hash : Z)
    : outcome (T * Builder) :=
  if can_inline slice then let! _ := allocated_slice b in Done (from_init 0 slice hash, b)
  else
    let! p := builder_copy b slice in
    let len := b.(bd_len) + Z.of_nat (length slice) in
    Done (from_init b.(bd_len) slice hash, mkBuilder len b.(bd_cap) (Some p) b.(bd_pool)).

Definition append_with_hash {T} `{BuilderStringType T} (b : Builder) (slice : bytes) (hash : Z)
    : outcome (T * Builder) :=
  if can_inline slice then let! _ := allocated_slice b in Done (from_init 0 slice hash, b)
  else
    match b.(bd_pool) !! hash with
    | Some value =>
        match b.(bd_ptr) with
        | None => Panic
        | Some p =>
            let! allocated := index_range p 0 b.(bd_cap) in
            if negb (eql (String_slice value allocated) slice) then append_without_pool b slice hash
            else Done (from_pooled value hash, b)
        end
    | None =>
        let! p := builder_copy b slice in
        let len := b.(bd_len) + Z.of_nat (length slice) in
        let value := String_init b.(bd_len) slice in
        Done (from_pooled value hash, mkBuilder len b.(bd_cap) (Some p) (<[hash := value]> b.(bd_pool)))
    end.

Definition Builder_append {T} `{BuilderStringType T} (b : Builder) (slice : bytes)
    : outcome (T * Builder) :=
  append_with_hash b slice (string_hash slice).

(** Appends a sequence of strings; the handles in order. *)
Fixpoint Builder_append_all {T} `{BuilderStringType T} (b : Builder) (l : list bytes)
    : outcome (list T * Builder) :=
  match l with
  | [] => Done ([], b)
  | s :: rest =>
      let! (h, b1) := Builder_append b s in
      let! (hs, b2) := Builder_append_all b1 rest in
      Done (h :: hs, b2)
  end.

(** ** Lemmas on the representation *)

Lemma land128_byte b : is_byte b -> (Z.land b 128 =? 0) = (b <? 128).
Proof.
  intros Hb. apply Bool.eqb_prop.
  by apply (byte_forall (fun b => Bool.eqb (Z.land b 128 =? 0) (b <? 128))).
Qed.

Lemma land_mod a c : Z.land a c mod 256 = Z.land (a mod 256) (c mod 256).
Proof.
  change 256 with (2 ^ 8). rewrite <- !Z.land_ones by lia.
  rewrite <- !Z.land_assoc. f_equal. rewrite (Z.land_comm (Z.ones 8) (Z.land c _)), <- Z.land_assoc.
  by rewrite Z.land_diag.
Qed.

Lemma land_div a c : Z.land a c / 256 = Z.land (a / 256) (c / 256).
Proof. change 256 with (2 ^ 8). rewrite <- !Z.shiftr_div_pow2 by lia. apply Z.shiftr_land. Qed.

Lemma split_byte a a' : is_byte a -> (a + 256 * a') mod 256 = a /\ (a + 256 * a') / 256 = a'.
Proof.
  unfold is_byte, two8. intros. rewrite (Z.mul_comm 256), Z.mod_add, Z.div_add, Z.mod_small, Z.div_small by lia.
  lia.
Qed.

(** [Z.land] works byte by byte. *)
Lemma land_bytes a a' c c' :
  is_byte a -> is_byte c -> Z.land (a + 256 * a') (c + 256 * c') = Z.land a c + 256 * Z.land a' c'.
Proof.
  intros Ha Hc. rewrite (Z.div_mod (Z.land _ _) 256) by lia. rewrite land_mod, land_div.
  destruct (split_byte a a' Ha) as [-> ->], (split_byte c c' Hc) as [-> ->]. lia.
Qed.

Lemma pos_trailing_zeros_nonneg p : 0 <= pos_trailing_zeros p.
Proof. induction p; simpl; lia. Qed.

Lemma trailing_zeros_shift z : 0 < z -> trailing_zeros (256 * z) = 8 + trailing_zeros z.
Proof.
  destruct z as [|p|]; [lia| |lia]. intros _.
  change (256 * Z.pos p) with (Z.pos (p~0~0~0~0~0~0~0~0)). cbn [trailing_zeros pos_trailing_zeros]. lia.
Qed.

Lemma trailing_zeros_128 q : 0 <= q -> trailing_zeros (128 + 256 * q) = 7.
Proof.
  destruct q as [|p|]; [done| |lia]. intros _.
  change (128 + 256 * Z.pos p) with (Z.pos (p~1~0~0~0~0~0~0~0)). done.
Qed.

(** The zero-byte detector on a value of [n] bytes. *)
Definition zero_bytes (n : nat) (x : Z) : Z :=
  Z.land (Z.land ((x - from_le_bytes (replicate n 1)) mod 256 ^ Z.of_nat n) (Z.lnot x))
    (from_le_bytes (replicate n 128)).

Lemma zero_bytes_nonzero b x n :
  1 <= b < 256 -> zero_bytes (S n) (b + 256 * x) = 256 * zero_bytes n x.
Proof.
  intros Hb. unfold zero_bytes. cbn [replicate from_le_bytes].
  set (ones := from_le_bytes (replicate n 1)). set (highs := from_le_bytes (replicate n 128)).
  rewrite Nat2Z.inj_succ, Z.pow_succ_r by lia.
  replace (b + 256 * x - (1 + 256 * ones)) with ((b - 1) + 256 * (x - ones)) by lia.
  assert (is_byte (b - 1) /\ is_byte (255 - b) /\ is_byte 128) as (Hb1 & Hb2 & Hb3).
  { unfold is_byte, two8. lia. }
  rewrite Z.rem_mul_r by lia. destruct (split_byte (b - 1) (x - ones) Hb1) as [-> ->].
  replace (Z.lnot (b + 256 * x)) with ((255 - b) + 256 * Z.lnot x) by (unfold Z.lnot; lia).
  rewrite land_bytes by done.
  assert ((Z.land (b - 1) (255 - b) <? 128) = true) as Hsmall.
  { assert ((b =? 0) || (Z.land (b - 1) (255 - b) <? 128) = true) as Hor.
    { apply (byte_forall (fun b => (b =? 0) || (Z.land (b - 1) (255 - b) <? 128))); [vm_compute; done|].
      unfold is_byte, two8; lia. }
    apply orb_prop in Hor as [Hor|Hor]; [bool_facts; lia|done]. }
  assert (is_byte (Z.land (b - 1) (255 - b))) as Hby.
  { bool_facts. unfold is_byte, two8. split; [|lia]. apply Z.land_nonneg. unfold is_byte in *. lia. }
  rewrite land_bytes by done.
  pose proof (land128_byte _ Hby) as H128. rewrite Hsmall in H128. apply Z.eqb_eq in H128. lia.
Qed.

Lemma zero_bytes_zero x n : exists q, 0 <= q /\ zero_bytes (S n) (256 * x) = 128 + 256 * q.
Proof.
  unfold zero_bytes. cbn [replicate from_le_bytes].
  set (ones := from_le_bytes (replicate n 1)). set (highs := from_le_bytes (replicate n 128)).
  rewrite Nat2Z.inj_succ, Z.pow_succ_r by lia.
  replace (256 * x - (1 + 256 * ones)) with (255 + 256 * (x - ones - 1)) by lia.
  assert (is_byte 255 /\ is_byte 128) as [H255 H128] by (unfold is_byte, two8; lia).
  rewrite Z.rem_mul_r by lia. destruct (split_byte 255 (x - ones - 1) H255) as [-> ->].
  replace (Z.lnot (256 * x)) with (255 + 256 * Z.lnot x) by (unfold Z.lnot; lia).
  rewrite !land_bytes by done. eexists. split; [|reflexivity].
  apply Z.land_nonneg. right. apply from_le_bytes_bound, Forall_replicate. done.
Qed.

Lemma zero_bytes_spec l :
  is_bytes l ->
  match index_of_char l 0 with
  | None => zero_bytes (length l) (from_le_bytes l) = 0
  | Some i => 0 < zero_bytes (length l) (from_le_bytes l) /\
              trailing_zeros (zero_bytes (length l) (from_le_bytes l)) = 8 * Z.of_nat i + 7
  end.
Proof.
  induction 1 as [|b l Hb Hl IH]; [done|]. cbn [index_of_char length from_le_bytes].
  destruct (b =? 0) eqn:E; bool_facts.
  - subst b. rewrite Z.add_0_l. destruct (zero_bytes_zero (from_le_bytes l) (length l)) as (q & Hq & ->).
    rewrite trailing_zeros_128 by done. lia.
  - unfold is_byte, two8 in Hb. rewrite zero_bytes_nonzero by lia.
    destruct (index_of_char l 0) as [i|]; simpl; [|lia].
    destruct IH as [IH1 IH2]. split; [lia|]. rewrite trailing_zeros_shift by done. lia.
Qed.

(** The word trick of [inline_len] finds the first NUL byte. *)
Lemma inline_len_spec s :
  is_bytes s.(s_bytes) -> length s.(s_bytes) = 8%nat ->
  inline_len s = match index_of_char s.(s_bytes) 0 with Some i => Z.of_nat i | None => 8 end.
Proof.
  intros Hb Hlen. pose proof (zero_bytes_spec _ Hb) as Hz. rewrite Hlen in Hz.
  unfold inline_len, as_u64.
  change (Z.land (Z.land ((from_le_bytes (s_bytes s) - ONES) mod two64)
    (Z.lnot (from_le_bytes (s_bytes s)))) HIGHS) with (zero_bytes 8 (from_le_bytes (s_bytes s))).
  destruct (index_of_char _ 0) as [i|]; [|by rewrite Hz].
  destruct Hz as [_ ->]. symmetry. apply (Z.div_unique _ _ _ 7); lia.
Qed.

(** *** Inline strings *)

Definition nul_free (l : bytes) : Prop := Forall (fun c => c <> 0) l.

Lemma index_of_char_nul l k :
  nul_free l -> index_of_char (l ++ replicate k 0) 0 = match k with O => None | _ => Some (length l) end.
Proof.
  induction 1 as [|c l Hc _ IH]; simpl; [by destruct k|].
  apply Z.eqb_neq in Hc. rewrite Hc, IH. by destruct k.
Qed.

Lemma nth7_byte l : is_bytes l -> is_byte (nth 7 l 0).
Proof.
  intros Hl. destruct (nth_in_or_default 7 l 0) as [Hin| ->]; [|done].
  by apply (proj1 (List.Forall_forall _ _) Hl).
Qed.

Lemma can_inline_length l : can_inline l = true -> (length l <= 8)%nat.
Proof. unfold can_inline. repeat case_if; bool_facts; (done || lia). Qed.

Lemma nth_replicate_zero n k : nth n (replicate k 0) 0 = 0.
Proof. revert n. induction k; intros [|n]; simpl; auto. Qed.

Lemma byte7_inline l : can_inline l = true -> (Z.land (byte7 (inline_bytes l)) 128 =? 0) = true.
Proof.
  unfold can_inline, byte7, inline_bytes. cbn [s_bytes]. repeat case_if; bool_facts; try done.
  - intros _. rewrite app_nth2 by lia. by rewrite nth_replicate_zero.
  - rewrite app_nth1 by lia. intros. lia.
Qed.

Lemma is_bytes_inline l : is_bytes l -> is_bytes (s_bytes (inline_bytes l)).
Proof. intros. unfold inline_bytes. cbn. apply is_bytes_app. split; [done|]. by apply Forall_replicate. Qed.

Lemma length_inline l : (length l <= 8)%nat -> length (s_bytes (inline_bytes l)) = 8%nat.
Proof. intros. unfold inline_bytes. cbn. rewrite length_app, length_replicate. lia. Qed.

Lemma inline_slice l buf :
  can_inline l = true -> is_bytes l -> nul_free l -> String_slice (inline_bytes l) buf = l.
Proof.
  intros Hc Hl Hn. pose proof (can_inline_length l Hc).
  unfold String_slice. rewrite byte7_inline by done.
  rewrite inline_len_spec by (by apply is_bytes_inline || by apply length_inline).
  unfold inline_bytes. cbn [s_bytes]. rewrite index_of_char_nul by done.
  destruct (8 - length l)%nat eqn:E.
  - rewrite app_nil_r. apply take_ge. lia.
  - rewrite Nat2Z.id. apply take_app_length.
Qed.

(** *** Pointers *)

Lemma land_mask63 x : Z.land x MAX_ADDRESSABLE_SPACE_MASK = x mod BIT63.
Proof. change MAX_ADDRESSABLE_SPACE_MASK with (Z.ones 63). by rewrite Z.land_ones. Qed.

Lemma lor_bit63 x : 0 <= x < BIT63 -> Z.lor x BIT63 = x + BIT63.
Proof.
  intros Hx. symmetry. apply Z.add_nocarry_lor.
  rewrite <- (Z.mod_small x BIT63), <- land_mask63, <- Z.land_assoc by done.
  apply Z.land_0_r.
Qed.

(** Offsets and lengths that fit the packed representation. *)
Definition fits (off : Z) (l : bytes) : Prop := 0 <= off < two32 /\ Z.of_nat (length l) < 2147483648.

Lemma packed_pointer_value off l :
  fits off l ->
  from_le_bytes (s_bytes (packed_pointer off l)) = off + two32 * Z.of_nat (length l) + BIT63.
Proof.
  intros [Ho Hl]. unfold packed_pointer, Pointer_init, Pointer_to_bits, as_u32. cbn [p_off p_len s_bytes].
  unfold two32 in *. rewrite !Z.mod_small by lia.
  rewrite from_le_bytes_app, length_to_le_bytes, !(from_to_le_bytes_small 4) by (pow256; lia).
  change (256 ^ Z.of_nat 4) with 4294967296.
  rewrite land_mask63, Z.mod_small by (unfold BIT63; lia).
  rewrite lor_bit63 by (unfold BIT63; lia).
  rewrite from_to_le_bytes_small by (unfold BIT63; pow256; lia). done.
Qed.

Lemma packed_pointer_ptr off l :
  fits off l -> String_ptr (packed_pointer off l) = mkPointer off (Z.of_nat (length l)).
Proof.
  intros Hf. unfold String_ptr. rewrite packed_pointer_value, land_mask63 by done.
  destruct Hf as [Ho Hl]. unfold two32, BIT63 in *.
  rewrite Z.add_comm, <- Z.add_mod_idemp_l, Z.mod_same, Z.add_0_l, Z.mod_small by lia.
  unfold Pointer_from_bits. set (z := off + _).
  assert (to_le_bytes 8 z = to_le_bytes 4 off ++ to_le_bytes 4 (Z.of_nat (length l))) as ->.
  { apply from_le_bytes_inj; auto with bun; [apply is_bytes_app; auto with bun|].
    rewrite from_le_bytes_app, length_to_le_bytes, !from_to_le_bytes_small by (pow256; lia). done. }
  rewrite take_app_length', drop_app_length' by (symmetry; apply length_to_le_bytes).
  rewrite !from_to_le_bytes_small by (pow256; lia). done.
Qed.

Lemma nth_to_le_bytes i n z : (i < n)%nat -> nth i (to_le_bytes n z) 0 = z / 256 ^ Z.of_nat i mod 256.
Proof.
  revert i z. induction n as [|n IH]; intros [|i] z Hi; try lia; cbn [to_le_bytes nth].
  - by rewrite Z.div_1_r.
  - rewrite IH, Z.div_div by lia. do 2 f_equal. rewrite Nat2Z.inj_succ, Z.pow_succ_r; lia.
Qed.

Lemma packed_pointer_not_inline off l :
  fits off l -> (Z.land (byte7 (packed_pointer off l)) 128 =? 0) = false.
Proof.
  intros Hf. pose proof (packed_pointer_value off l Hf) as Hv. unfold byte7.
  assert (s_bytes (packed_pointer off l) = to_le_bytes 8 (from_le_bytes (s_bytes (packed_pointer off l)))) as ->.
  { unfold packed_pointer. cbn [s_bytes]. rewrite from_to_le_bytes.
    set (z := Z.lor _ _). apply from_le_bytes_inj; auto with bun.
    by rewrite !from_to_le_bytes, Z.mod_mod. }
  rewrite Hv, nth_to_le_bytes by lia. destruct Hf as [Ho Hl]. unfold two32, BIT63 in *.
  rewrite land128_byte by (apply Z.mod_pos_bound; done).
  apply Z.ltb_ge. change (256 ^ Z.of_nat 7) with 72057594037927936.
  assert (128 <= (off + 4294967296 * Z.of_nat (length l) + 9223372036854775808) / 72057594037927936 < 256) as Hq.
  { split; [apply Z.div_le_lower_bound; lia | apply Z.div_lt_upper_bound; lia]. }
  rewrite Z.mod_small; lia.
Qed.

Lemma packed_pointer_slice off l buf :
  fits off l ->
  String_slice (packed_pointer off l) buf = default [] (get_range buf off (off + Z.of_nat (length l))).
Proof.
  intros Hf. unfold String_slice.
  by rewrite packed_pointer_not_inline, packed_pointer_ptr by done.
Qed.

(** *** Construction *)

Lemma String_init_inline off l : is_bytes l -> can_inline l = true -> String_init off l = inline_bytes l.
Proof.
  intros Hl. unfold can_inline, String_init. pose proof (nth7_byte l Hl) as H7.
  rewrite land128_byte by done. repeat case_if; bool_facts; (done || lia).
Qed.

Lemma String_init_packed off l : is_bytes l -> can_inline l = false -> String_init off l = packed_pointer off l.
Proof.
  intros Hl. unfold can_inline, String_init. pose proof (nth7_byte l Hl) as H7.
  rewrite land128_byte by done. repeat case_if; bool_facts; (done || lia).
Qed.

(** [packs h s buf]: the handle [h], built by [String_init], stands for [s] in
    [buf]. NUL bytes are lost by the inline form, so they are excluded there. *)
Inductive packs (h : String) (s buf : bytes) : Prop :=
| packs_intro (off : Z) :
    h = String_init off s -> is_bytes s ->
    (can_inline s = true -> nul_free s) ->
    (can_inline s = false -> fits off s) ->
    (can_inline s = false -> get_range buf off (off + Z.of_nat (length s)) = Some s) ->
    packs h s buf.

Lemma packs_slice h s buf : packs h s buf -> String_slice h buf = s.
Proof.
  intros [off -> Hb Hn Hf Hr]. destruct (can_inline s) eqn:E.
  - rewrite String_init_inline by done. auto using inline_slice.
  - rewrite String_init_packed, packed_pointer_slice, Hr by auto. done.
Qed.

Lemma packs_is_inline h s buf : packs h s buf -> is_inline h = can_inline s.
Proof.
  intros [off -> Hb Hn Hf Hr]. unfold is_inline. destruct (can_inline s) eqn:E.
  - rewrite String_init_inline by done. by apply byte7_inline.
  - rewrite String_init_packed by done. apply packed_pointer_not_inline. auto.
Qed.

Lemma packs_len h s buf : packs h s buf -> String_len h = Z.of_nat (length s).
Proof.
  intros [off -> Hb Hn Hf Hr]. unfold String_len. destruct (can_inline s) eqn:E.
  - rewrite String_init_inline, byte7_inline by done. pose proof (can_inline_length s E).
    rewrite inline_len_spec by (by apply is_bytes_inline || by apply length_inline).
    unfold inline_bytes. cbn [s_bytes]. rewrite index_of_char_nul by auto.
    destruct (8 - length s)%nat eqn:E8; [lia|done].
  - rewrite String_init_packed, packed_pointer_not_inline, packed_pointer_ptr by auto. done.
Qed.

Lemma packs_is_empty h s buf : packs h s buf -> String_is_empty h = true <-> s = [].
Proof.
  intros [off -> Hb Hn Hf Hr]. unfold String_is_empty. destruct (can_inline s) eqn:E.
  - rewrite String_init_inline by done. pose proof (can_inline_length s E). split.
    + intros Hz%Z.eqb_eq. assert (s_bytes (inline_bytes s) = replicate 8 0) as Hzero.
      { apply from_le_bytes_inj; [by apply is_bytes_inline|by apply Forall_replicate| |done].
        rewrite length_inline, length_replicate by done. done. }
      destruct s as [|c s]; [done|]. exfalso. specialize (Hn eq_refl). inversion Hn as [|? ? Hc]. subst.
      by injection Hzero.
    + intros ->. done.
  - rewrite String_init_packed, packed_pointer_value by auto. destruct (Hf eq_refl) as [Ho Hl].
    split; [|by intros ->]. intros Hz%Z.eqb_eq. unfold two32, BIT63 in *. lia.
Qed.

(** Equality of handles is equality of the strings they stand for. *)
Lemma packs_eql h1 s1 b1 h2 s2 b2 :
  packs h1 s1 b1 -> packs h2 s2 b2 -> String_eql h1 h2 b1 b2 = true <-> s1 = s2.
Proof.
  intros H1 H2. unfold String_eql. rewrite (packs_is_inline _ _ _ H1), (packs_is_inline _ _ _ H2).
  destruct (can_inline s1) eqn:E1, (can_inline s2) eqn:E2; cbn [andb negb Bool.eqb].
  - rewrite Z.eqb_eq. split; intros Heq.
    + rewrite <- (packs_slice _ _ _ H1), <- (packs_slice _ _ _ H2).
      assert (h1 = h2) as ->.
      { destruct H1 as [o1 -> Hb1 _ _ _], H2 as [o2 -> Hb2 _ _ _].
        rewrite !String_init_inline in * by done.
        apply (from_le_bytes_inj (s_bytes _) (s_bytes _)) in Heq;
          [|by apply is_bytes_inline..|by rewrite !length_inline by auto using can_inline_length].
        by destruct (inline_bytes s1), (inline_bytes s2); simpl in *; subst. }
      destruct H2 as [o2 -> Hb2 Hn2 _ _]. rewrite String_init_inline by done.
      by rewrite !inline_slice by auto.
    + subst. destruct H1 as [o1 -> Hb1 _ _ _], H2 as [o2 -> Hb2 _ _ _].
      by rewrite !String_init_inline by done.
  - split; [done|]. intros ->. congruence.
  - split; [done|]. intros ->. congruence.
  - destruct H1 as [o1 -> Hb1 _ Hf1 Hr1], H2 as [o2 -> Hb2 _ Hf2 Hr2].
    rewrite !String_init_packed, !packed_pointer_ptr by auto. cbn [p_off p_len].
    rewrite Hr1, Hr2 by done. by apply eql_spec.
Qed.

Lemma Sliced_value_packs s :
  is_bytes s.(ss_buf) -> (s.(ss_off) + s.(ss_len) <= length s.(ss_buf))%nat ->
  Z.of_nat (length s.(ss_buf)) < 2147483648 ->
  (can_inline (ss_slice s) = true -> nul_free (ss_slice s)) ->
  packs (Sliced_value s) (ss_slice s) s.(ss_buf).
Proof.
  intros Hb Hle Hlen Hn.
  assert (length (ss_slice s) = ss_len s) as Hl by (unfold ss_slice; rewrite length_sub; lia).
  exists (Z.of_nat (ss_off s)); [done|by apply is_bytes_sub|done|..]; intros _.
  - unfold fits, two32. lia.
  - apply get_range_Some. rewrite Hl. split_and!; [lia..|]. unfold ss_slice. f_equal; lia.
Qed.

(** *** The counting builder *)

(** Bytes that a string takes in the builder's buffer. *)
Definition needed (s : bytes) : Z := if can_inline s then 0 else Z.of_nat (length s).
Definition needed_all (l : list bytes) : Z := foldr (fun s n => needed s + n) 0 l.

(** Strings the builder can represent. *)
Definition packable (s : bytes) : Prop := is_bytes s /\ (can_inline s = true -> nul_free s).

(** The handle [h] stands for [s] in the part of [p] already written. *)
Definition stored (p : bytes) (len : Z) (h : String) (s : bytes) : Prop :=
  (can_inline s = true /\ h = inline_bytes s) \/
  (exists off, can_inline s = false /\ h = packed_pointer off s /\ fits off s /\
     off + Z.of_nat (length s) <= len /\ get_range p off (off + Z.of_nat (length s)) = Some s).

Inductive builder_inv (b : Builder) (p : bytes) : Prop :=
| builder_inv_intro :
    b.(bd_ptr) = Some p -> Z.of_nat (length p) = b.(bd_cap) ->
    0 <= b.(bd_len) <= b.(bd_cap) -> b.(bd_cap) < 2147483648 -> is_bytes p ->
    (forall hash v, b.(bd_pool) !! hash = Some v ->
       exists l, is_bytes l /\ can_inline l = false /\ stored p b.(bd_len) v l) ->
    builder_inv b p.

Lemma stored_packs p len h s : packable s -> stored p len h s -> packs h s p.
Proof.
  intros [Hb Hn] [[Hc ->]|(off & Hc & -> & Hf & _ & Hr)].
  - exists 0; try done; try congruence. by rewrite String_init_inline.
  - exists off; try done; try congruence. by rewrite String_init_packed.
Qed.

Lemma stored_slice p len h s : packable s -> stored p len h s -> String_slice h p = s.
Proof. intros. eapply packs_slice, stored_packs; done. Qed.

(** Writing past [len] keeps what is stored below it. *)
Lemma stored_write p len src p' h s :
  write_at p len src = Done p' -> 0 <= len -> stored p len h s -> stored p' (len + Z.of_nat (length src)) h s.
Proof.
  intros Hw Hlen [?|(off & Hc & -> & Hf & Hle & Hr)]; [by left|]. right. exists off.
  split_and!; try done; [lia|]. apply get_range_Some in Hr as (H1 & H2 & Hs).
  apply get_range_Some. rewrite (write_at_length _ _ _ _ Hw). split_and!; [lia..|].
  rewrite Hs at 1. apply write_at_Done in Hw as (_ & Hfit & ->). unfold sub.
  rewrite drop_app_le, take_app_le by (rewrite ?length_drop, ?length_take; lia).
  rewrite skipn_firstn_comm, take_take. f_equal. lia.
Qed.

Lemma builder_copy_ok b p s :
  builder_inv b p -> b.(bd_len) + Z.of_nat (length s) <= b.(bd_cap) ->
  exists p', builder_copy b s = Done p' /\ write_at p b.(bd_len) s = Done p'.
Proof.
  intros [Hp Hcap Hlen Hmax Hb Hpool] Hfit. unfold builder_copy. rewrite Hp.
  replace (_ && _ && _) with true; [|symmetry; rewrite !andb_true_iff, !Z.leb_le; lia].
  assert (exists p', write_at p (bd_len b) s = Done p') as [p' Hw]; [|by exists p'].
  eexists. apply write_at_Done. split_and!; [lia..|reflexivity].
Qed.

(** The slice just written is stored there. *)
Lemma stored_new p len s p' :
  write_at p len s = Done p' -> is_bytes s -> can_inline s = false -> Z.of_nat (length p) < 2147483648 ->
  stored p' (len + Z.of_nat (length s)) (packed_pointer len s) s.
Proof.
  intros Hw Hb Hc Hmax. pose proof (write_at_length _ _ _ _ Hw) as Hl.
  apply write_at_Done in Hw as (H0 & Hfit & ->). right. exists len.
  unfold fits, two32. split_and!; try done; try lia.
  apply get_range_Some. rewrite Hl. split_and!; [lia..|]. unfold sub.
  rewrite drop_app_length' by (rewrite length_take; lia).
  rewrite take_app_length' by lia. done.
Qed.

Lemma builder_inv_write b p s p' (pool : StringPool) :
  builder_inv b p -> write_at p b.(bd_len) s = Done p' -> is_bytes s ->
  (forall hash v, pool !! hash = Some v ->
     b.(bd_pool) !! hash = Some v \/ (v = packed_pointer b.(bd_len) s /\ can_inline s = false)) ->
  builder_inv (mkBuilder (b.(bd_len) + Z.of_nat (length s)) b.(bd_cap) (Some p') pool) p'.
Proof.
  intros [Hp Hcap Hlen Hmax Hb Hpool] Hw Hs Hnew.
  pose proof (write_at_length _ _ _ _ Hw) as Hl.
  pose proof (proj1 (write_at_Done _ _ _ _) Hw) as (_ & Hfit & _).
  split; cbn [bd_ptr bd_cap bd_len bd_pool]; try done; try lia.
  - by eapply write_at_bytes.
  - intros hash v Hv. destruct (Hnew hash v Hv) as [Hold|[-> Hc]].
    + destruct (Hpool hash v Hold) as (l & ? & ? & Hst). exists l. split_and!; [done..|].
      eapply stored_write; [done|lia|done].
    + exists s. split_and!; [done..|]. eapply stored_new; try done. lia.
Qed.

Lemma index_range_all p : index_range p 0 (Z.of_nat (length p)) = Done p.
Proof.
  unfold index_range. rewrite (proj2 (get_range_Some p 0 _ p)); [done|].
  split_and!; [lia..|]. unfold sub. rewrite drop_0, take_ge; [done|lia].
Qed.

Lemma allocated_slice_ok b p : builder_inv b p -> allocated_slice b = Done p.
Proof.
  intros [Hp Hcap Hlen Hmax Hb Hpool]. unfold allocated_slice. rewrite Hp, <- Hcap, index_range_all.
  case_if; bool_facts; [done|]. by rewrite (nil_length_inv p) by lia.
Qed.

Section BuilderAppend.
Context {T : Type} `{BuilderStringLaws T}.

(** One append: no panic, the handle stands for the string, and every handle
    issued before still does. *)
Lemma Builder_append_spec b p s :
  builder_inv b p -> packable s -> b.(bd_len) + needed s <= b.(bd_cap) ->
  exists (t : T) b' p',
    Builder_append b s = Done (t, b') /\ builder_inv b' p' /\
    stored p' b'.(bd_len) (handle_of t) s /\
    (forall h s', stored p b.(bd_len) h s' -> stored p' b'.(bd_len) h s') /\
    b'.(bd_len) <= b.(bd_len) + needed s /\ b'.(bd_cap) = b.(bd_cap).
Proof.
  intros Hinv [Hb Hn] Hfit. pose proof Hinv as [Hp Hcap Hlen Hmax Hpb Hpool].
  unfold Builder_append, append_with_hash, needed in *. destruct (can_inline s) eqn:Hc.
  { rewrite (allocated_slice_ok b p Hinv). cbn [obind]. exists (from_init 0 s (string_hash s)), b, p.
    split_and!; try done; try lia. left. split; [done|].
    by rewrite handle_from_init, String_init_inline. }
  destruct (builder_copy_ok b p s Hinv Hfit) as (p' & Hcopy & Hw).
  destruct (bd_pool b !! string_hash s) as [v|] eqn:Hv.
  - rewrite Hp, <- Hcap, index_range_all. cbn [obind].
    destruct (Hpool _ _ Hv) as (l & Hlb & Hlc & Hst).
    assert (packable l) as Hlp by (split; [done|congruence]).
    rewrite (stored_slice _ _ _ _ Hlp Hst).
    destruct (eql l s) eqn:Heq; cbn [negb].
    + apply eql_spec in Heq as ->; [|done..].
      exists (from_pooled v (string_hash s)), b, p.
      rewrite handle_from_pooled. split_and!; try done. lia.
    + unfold append_without_pool. rewrite Hc, Hcopy. cbn [obind].
      eexists _, _, p'. split_and!; [reflexivity|..]; cbn [bd_len bd_cap]; try done; try lia.
      * eapply builder_inv_write; eauto.
      * rewrite handle_from_init, String_init_packed by done. eapply stored_new; try done. lia.
      * intros h s' Hs'. eapply stored_write; [done|lia|done].
  - rewrite Hcopy. cbn [obind].
    eexists _, _, p'. split_and!; [reflexivity|..]; cbn [bd_len bd_cap]; try done; try lia.
    + eapply builder_inv_write; eauto. intros hash v'. rewrite lookup_insert.
      case_decide; [|by left]. intros [= <-]. right. by rewrite String_init_packed.
    + rewrite handle_from_pooled, String_init_packed by done. eapply stored_new; try done. lia.
    + intros h s' Hs'. eapply stored_write; [done|lia|done].
Qed.

Lemma Builder_append_all_spec l b p :
  builder_inv b p -> Forall packable l -> b.(bd_len) + needed_all l <= b.(bd_cap) ->
  exists (hs : list T) b' p',
    Builder_append_all b l = Done (hs, b') /\ builder_inv b' p' /\
    Forall2 (fun t s => stored p' b'.(bd_len) (handle_of t) s) hs l /\
    (forall h s', stored p b.(bd_len) h s' -> stored p' b'.(bd_len) h s').
Proof.
  revert b p. induction l as [|s l IH]; intros b p Hinv Hl Hfit; simpl in *.
  { exists [], b, p. by split_and!; [|auto|constructor|]. }
  inversion Hl as [|? ? Hs Hl']; subst.
  assert (forall x, 0 <= needed x) as Hpos by (intros x; unfold needed; case_if; lia).
  assert (0 <= needed_all l) by (clear -Hpos; induction l as [|x l IH]; simpl; [lia|specialize (Hpos x); lia]).
  destruct (Builder_append_spec b p s Hinv Hs) as (t & b1 & p1 & -> & Hinv1 & Ht & Hkeep & Hlen & Hcap); [lia|].
  cbn [obind]. destruct (IH b1 p1 Hinv1 Hl') as (hs & b2 & p2 & -> & Hinv2 & Hall & Hkeep2); [lia|].
  cbn [obind]. exists (t :: hs), b2, p2. split_and!; auto.
Qed.
End BuilderAppend.

Lemma count_all_default l b :
  b.(bd_pool) = ∅ ->
  fold_left Builder_count l b = mkBuilder b.(bd_len) (b.(bd_cap) + needed_all l) b.(bd_ptr) ∅.
Proof.
  revert b. induction l as [|s l IH]; intros b Hb; simpl.
  { destruct b; simpl in *; subst. f_equal. lia. }
  unfold Builder_count at 2, count_with_hash. rewrite Hb, lookup_empty. unfold needed.
  destruct (can_inline s); rewrite IH by done; cbn; f_equal; lia.
Qed.

Lemma allocated_inv cap :
  0 <= cap < 2147483648 ->
  builder_inv (Builder_allocate (mkBuilder 0 cap None ∅)) (replicate (Z.to_nat cap) 0).
Proof.
  intros Hc. split; cbn; try done; try lia.
  - rewrite length_replicate. lia.
  - by apply Forall_replicate.
Qed.

(** *** The growable buffer *)

Definition buf_inv (b : Buf) : Prop :=
  is_bytes b.(bf_bytes) /\ Z.of_nat (length b.(bf_bytes)) < 2147483648 /\
  forall hash v, b.(bf_pool) !! hash = Some v ->
    exists l, string_hash l = hash /\ is_bytes l /\ can_inline l = false /\
      stored b.(bf_bytes) (Z.of_nat (length b.(bf_bytes))) v l.

Lemma stored_append p s h l :
  stored p (Z.of_nat (length p)) h l -> stored (p ++ s) (Z.of_nat (length (p ++ s))) h l.
Proof.
  intros [?|(off & Hc & -> & Hf & Hle & Hr)]; [by left|]. right. exists off.
  apply get_range_Some in Hr as (H1 & H2 & Hs). rewrite length_app.
  split_and!; try done; try lia; try by destruct Hf.
  apply get_range_Some. rewrite length_app. split_and!; [lia..|]. rewrite Hs at 1.
  unfold sub. rewrite drop_app_le, take_app_le by (rewrite ?length_drop; lia). done.
Qed.

Lemma stored_appended p s :
  can_inline s = false -> Z.of_nat (length (p ++ s)) < 2147483648 ->
  stored (p ++ s) (Z.of_nat (length (p ++ s))) (packed_pointer (Z.of_nat (length p)) s) s.
Proof.
  rewrite length_app. intros Hc Hlen. right. exists (Z.of_nat (length p)).
  unfold fits, two32. split_and!; try done; try lia.
  apply get_range_Some. rewrite length_app. split_and!; [lia..|]. unfold sub.
  rewrite drop_app_length', take_ge by lia. done.
Qed.

(** ** Properties *)

(** A packed string gives back the bytes it was built from. For a slice
    [in_] of a buffer at offset [off], [slice] after [init] returns [in_],
    [len] its length, and the handle is inline exactly when [can_inline] says
    so; inline strings must be free of NUL bytes, out-of-line ones must have a
    32-bit offset and a 31-bit length. *)
Theorem String_init_slice (off : Z) (in_ buf : bytes) :
  is_bytes in_ ->
  (if can_inline in_ then nul_free in_
   else fits off in_ /\ get_range buf off (off + Z.of_nat (length in_)) = Some in_) ->
  String_slice (String_init off in_) buf = in_ /\
  String_len (String_init off in_) = Z.of_nat (length in_) /\
  is_inline (String_init off in_) = can_inline in_.
Proof.
  intros Hb Hc. assert (packs (String_init off in_) in_ buf) as Hp.
  { exists off; try done; intros E; rewrite E in Hc; naive_solver. }
  split_and!; [by eapply packs_slice|by eapply packs_len|by eapply packs_is_inline].
Qed.

Lemma String_init_slice_witness :
  String_slice (String_init 2 [98; 101; 116; 97; 46; 50; 48; 50; 54]) [1; 2; 98; 101; 116; 97; 46; 50; 48; 50; 54; 7]
    = [98; 101; 116; 97; 46; 50; 48; 50; 54].
Proof.
  apply (String_init_slice 2 [98; 101; 116; 97; 46; 50; 48; 50; 54]).
  - by apply (bool_decide_unpack _).
  - cbn [can_inline length Nat.leb Nat.eqb]. split; [unfold fits, two32; simpl; lia|reflexivity].
Defined.

(** The word-parallel search for the first NUL byte in an inline string
    agrees with the byte-by-byte scan, for every eight bytes. *)
Theorem inline_len_scan (s : String) :
  is_bytes s.(s_bytes) -> length s.(s_bytes) = 8%nat ->
  inline_len s = Z.of_nat (prefix_len (fun c => negb (c =? 0)) s.(s_bytes)).
Proof.
  intros Hb Hl. rewrite inline_len_spec by done.
  assert (forall l, match index_of_char l 0 with Some i => Z.of_nat i | None => Z.of_nat (length l) end
    = Z.of_nat (prefix_len (fun c => negb (c =? 0)) l)) as <-.
  { induction l as [|c l IH]; simpl; [done|]. destruct (c =? 0); simpl; [done|].
    destruct (index_of_char l 0); simpl; lia. }
  by rewrite Hl.
Qed.

Lemma inline_len_scan_witness : inline_len (mkString [97; 128; 1; 0; 1; 0; 255; 127]) = 3.
Proof. by rewrite inline_len_scan by (apply (bool_decide_unpack _); done). Defined.

(** Equality of packed strings is equality of the strings they stand for,
    whether inline or in two different buffers. *)
Theorem String_eql_iff h1 s1 b1 h2 s2 b2 :
  packs h1 s1 b1 -> packs h2 s2 b2 -> String_eql h1 h2 b1 b2 = true <-> s1 = s2.
Proof. apply packs_eql. Qed.

Lemma String_eql_iff_witness :
  String_eql (String_init 1 [97; 98]) (String_init 5 [97; 98]) [9] [] = true <-> [97; 98] = [97; 98].
Proof.
  apply String_eql_iff.
  - exists 1; try done; try by apply (bool_decide_unpack _).
  - exists 5; try done; try by apply (bool_decide_unpack _).
Defined.



(** The growable buffer stores a string whose hash is not taken by a
    different string: the handle stands for the string, the pool invariant is
    kept, and every handle issued before still stands for its string. *)
Theorem Buf_append_resolves (b : Buf) (str : bytes) :
  buf_inv b -> packable str ->
  Z.of_nat (length b.(bf_bytes)) + needed str < 2147483648 ->
  (forall v, b.(bf_pool) !! string_hash str = Some v -> String_slice v b.(bf_bytes) = str) ->
  exists h b', Buf_append b str = Done (h, b') /\ buf_inv b' /\
    String_slice h b'.(bf_bytes) = str /\
    forall h' s', packable s' -> stored b.(bf_bytes) (Z.of_nat (length b.(bf_bytes))) h' s' ->
      String_slice h' b'.(bf_bytes) = s'.
Proof.
  intros (Hb & Hlen & Hpool) [Hs Hn] Hfit Hcol. unfold Buf_append, needed in *.
  destruct (can_inline str) eqn:Hc.
  { unfold init_inline. replace (length str <=? 8)%nat with true
      by (symmetry; apply Nat.leb_le; by apply can_inline_length).
    cbn [obind]. exists (inline_bytes str), b. split_and!; try done; [by apply inline_slice; auto|].
    intros; by eapply stored_slice. }
  destruct (bf_pool b !! string_hash str) as [v|] eqn:Hv.
  - exists v, b. split_and!; [done|by split_and!|by apply Hcol|]. intros; by eapply stored_slice.
  - cbn [init_append]. eexists _, _. split; [reflexivity|split; [|split]]; cbn [bf_bytes bf_pool].
    + assert (Z.of_nat (length (bf_bytes b ++ str)) < 2147483648) by (rewrite length_app; lia).
      split_and!; [by apply is_bytes_app|done|]. cbn [bf_pool bf_bytes].
      intros hash v. rewrite lookup_insert. case_decide as Hd.
      * intros [= <-]. exists str. split_and!; try done. by apply stored_appended.
      * intros Hv'. destruct (Hpool _ _ Hv') as (l & ? & ? & ? & ?). exists l.
        split_and!; try done. by apply stored_append.
    + eapply (stored_slice _ _ _ str); [by split; [|congruence]|]. apply stored_appended; [done|].
      rewrite length_app. lia.
    + intros h' s' Hp' Hst'. eapply stored_slice; [done|]. by apply stored_append.
Qed.

Lemma Buf_append_resolves_witness :
  exists h b', Buf_append (mkBuf [7; 7] ∅) [98; 101; 116; 97; 46; 50; 48; 50; 54] = Done (h, b') /\
    buf_inv b' /\ String_slice h b'.(bf_bytes) = [98; 101; 116; 97; 46; 50; 48; 50; 54].
Proof.
  destruct (Buf_append_resolves (mkBuf [7; 7] ∅) [98; 101; 116; 97; 46; 50; 48; 50; 54])
    as (h & b' & H1 & H2 & H3 & _).
  - split_and!; [by apply (bool_decide_unpack _)|done|]. intros hash v. cbn [bf_pool]. by rewrite lookup_empty.
  - split; [by apply (bool_decide_unpack _)|done].
  - done.
  - intros v. cbn [bf_pool]. by rewrite lookup_empty.
  - by exists h, b'.
Defined.

(** [Buf::append] trusts the hash alone. There are two different 16-byte
    strings with the same [Wyhash11] value; appending the second after the
    first returns the handle of the first. [Builder::append_with_hash]
    compares the contents and does not do this. *)
Theorem Buf_append_collision :
  let s1 := [100; 29; 118; 160; 47; 100; 189; 120; 65; 65; 65; 65; 65; 65; 65; 65] in
  let s2 := [100; 29; 118; 160; 47; 100; 189; 120; 66; 66; 66; 66; 66; 66; 66; 66] in
  string_hash s1 = string_hash s2 /\
  match Buf_append (mkBuf [] ∅) s1 with
  | Done (h1, b1) =>
      match Buf_append b1 s2 with
      | Done (h2, b2) => h2 = h1 /\ String_slice h2 b2.(bf_bytes) = s1
      | _ => False
      end
  | _ => False
  end.
Proof. vm_compute. auto. Qed.
