(* ===== verification/SemverVersion.v ===== *)
(** * Versions

    [src/src/semver/Version.rs]: versions, their pre-release and build tags,
    parsing, printing and ordering. The integer parameter of [VersionType<T>]
    is the class [VersionInt]; [Version] of the program is the 64-bit one. *)
From Stdlib Require Import ZArith Lia.
From stdpp Require Import base list numbers option.
From S2P Require Import Prelude Strings Wyhash SemverString.
#[local] Open Scope Z_scope.

(** ** Data *)

Class VersionInt : Type := { VI_MAX : Z }.
Definition VersionInt_u64 : VersionInt := {| VI_MAX := u64_MAX |}.
Definition VersionInt_u32 : VersionInt := {| VI_MAX := two32 - 1 |}.

(** [T::parse_ascii]: [None] for an empty slice, a byte that is not a digit, or overflow. *)
Definition parse_ascii (T : VersionInt) (s : bytes) : option Z :=
  match parse_unsigned (@VI_MAX T + 1) s 10 with
  | inr n => Some n
  | inl _ => None
  end.

Inductive Wildcard : Type := WNone | WMajor | WMinor | WPatch.
#[export] Instance Wildcard_eq_dec : EqDecision Wildcard.
Proof. solve_decision. Defined.

Record Tag : Type := mkTag {
  tag_pre : ExternalString;
  tag_build : ExternalString;
}.
Definition Tag_default : Tag := mkTag External_default External_default.

Record Version : Type := mkVersion {
  major : Z;
  minor : Z;
  patch : Z;
  tag : Tag;
}.
Definition Version_default : Version := mkVersion 0 0 0 Tag_default.

Record Partial : Type := mkPartial {
  pa_major : option Z;
  pa_minor : option Z;
  pa_patch : option Z;
  pa_tag : Tag;
}.
Definition Partial_default : Partial := mkPartial None None None Tag_default.

Definition Partial_min (p : Partial) : Version :=
  mkVersion (default 0 p.(pa_major)) (default 0 p.(pa_minor)) (default 0 p.(pa_patch)) p.(pa_tag).
Definition Partial_max (T : VersionInt) (p : Partial) : Version :=
  mkVersion (default VI_MAX p.(pa_major)) (default VI_MAX p.(pa_minor))
    (default VI_MAX p.(pa_patch)) p.(pa_tag).

Inductive ChangedVersion : Type := ChMajor | ChMinor | ChPatch | ChPre | ChBuild | ChNone.
Inductive PinnedVersion : Type := PinMajor | PinMinor | PinPatch.
#[export] Instance PinnedVersion_eq_dec : EqDecision PinnedVersion.
Proof. solve_decision. Defined.

Record TagResult : Type := mkTagResult { tr_tag : Tag; tr_len : Z }.
Definition TagResult_default : TagResult := mkTagResult Tag_default 0.

Record ParseResult : Type := mkParseResult {
  pr_wildcard : Wildcard;
  pr_valid : bool;
  pr_version : Partial;
  pr_len : Z;
}.

(** ** Tags *)

Definition has_pre (t : Tag) : bool := negb (External_is_empty t.(tag_pre)).
Definition has_build (t : Tag) : bool := negb (External_is_empty t.(tag_build)).

Definition Tag_eql (lhs rhs : Tag) : bool := lhs.(tag_pre).(es_hash) =? rhs.(tag_pre).(es_hash).

(** The [loop] of [order_pre] over the two field iterators. [fuel] bounds the
    rounds; [order_pre_loop_spec] shows that it never runs out. *)
Fixpoint order_pre_loop (fuel : nat) (lhs_itr rhs_itr : SplitIterator) : comparison :=
  match fuel with
  | O => Eq
  | S fuel' =>
      let (lhs_part, lhs_itr) := split_next lhs_itr in
      let (rhs_part, rhs_itr) := split_next rhs_itr in
      match lhs_part, rhs_part with
      | None, None => Eq
      | Some _, None => Gt
      | None, Some _ => Lt
      | Some lhs_part, Some rhs_part =>
          match parse_ascii VersionInt_u64 lhs_part, parse_ascii VersionInt_u64 rhs_part with
          | Some _, None => Lt
          | None, Some _ => Gt
          | None, None =>
              match order lhs_part rhs_part with
              | Eq => order_pre_loop fuel' lhs_itr rhs_itr
              | not_equal => not_equal
              end
          | Some lhs_uint, Some rhs_uint =>
              match Z.compare lhs_uint rhs_uint with
              | Eq => order_pre_loop fuel' lhs_itr rhs_itr
              | not_equal => not_equal
              end
          end
      end
  end.

(** Each round consumes a field; a string of [n] bytes has at most [n + 1]. *)
Definition order_pre (lhs rhs : Tag) (lhs_buf rhs_buf : bytes) : comparison :=
  let lhs_str := External_slice lhs.(tag_pre) lhs_buf in
  let rhs_str := External_slice rhs.(tag_pre) rhs_buf in
  order_pre_loop (length lhs_str + 2) (split lhs_str [46]) (split rhs_str [46]).

Definition Tag_order (lhs rhs : Tag) (lhs_buf rhs_buf : bytes) : comparison :=
  if negb (External_is_empty lhs.(tag_pre)) && negb (External_is_empty rhs.(tag_pre)) then
    order_pre lhs rhs lhs_buf rhs_buf
  else
    match External_order lhs.(tag_pre) rhs.(tag_pre) lhs_buf rhs_buf with
    | Eq => External_order lhs.(tag_build) rhs.(tag_build) lhs_buf rhs_buf
    | pre_order => pre_order
    end.

Definition Tag_order_without_build (lhs rhs : Tag) (lhs_buf rhs_buf : bytes) : comparison :=
  if negb (External_is_empty lhs.(tag_pre)) && negb (External_is_empty rhs.(tag_pre)) then
    order_pre lhs rhs lhs_buf rhs_buf
  else External_order lhs.(tag_pre) rhs.(tag_pre) lhs_buf rhs_buf.

(** *** Parsing a tag *)

Inductive TagState : Type := TsNone | TsPre | TsBuild.
#[export] Instance TagState_eq_dec : EqDecision TagState.
Proof. solve_decision. Defined.

(** The bytes before the first space: [+] and [-] are counted there. *)
Fixpoint count_qualifiers (input : bytes) (build_count pre_count : Z) : Z * Z :=
  match input with
  | [] => (build_count, pre_count)
  | c :: rest =>
      if c =? 32 then (build_count, pre_count)
      else if c =? 43 then count_qualifiers rest (wadd32 build_count 1) pre_count
      else if c =? 45 then count_qualifiers rest build_count (wadd32 pre_count 1)
      else count_qualifiers rest build_count pre_count
  end.

(** [b'a'..=b'z' | b'A'..=b'Z' | b'0'..=b'9' | b'.'] *)
Definition is_tag_char (c : Z) : bool :=
  is_ascii_lower c || is_ascii_upper c || is_ascii_digit c || (c =? 46).

(** The variables of the scanning loop. *)
Record TagScan : Type := mkScan {
  sc_i : nat;
  sc_state : TagState;
  sc_start : nat;
  sc_tag : Tag;
}.

Definition set_pre (t : Tag) (e : ExternalString) : Tag := mkTag e t.(tag_build).
Definition set_build (t : Tag) (e : ExternalString) : Tag := mkTag t.(tag_pre) e.

(** [while i < input.len()]: [rest] is [input[i..]]. *)
Fixpoint tag_scan (s : SlicedString) (initial_pre_count : Z) (rest : bytes) (sc : TagScan) : TagScan :=
  match rest with
  | [] => sc
  | c :: rest' =>
      let i := sc.(sc_i) in
      if c =? 43 then
        let t :=
          if bool_decide (sc.(sc_state) = TsPre)
             || (bool_decide (sc.(sc_state) = TsNone) && (0 <? initial_pre_count))
          then set_pre sc.(sc_tag) (Sliced_external (Sliced_sub s sc.(sc_start) i))
          else sc.(sc_tag) in
        if bool_decide (sc.(sc_state) = TsBuild)
        then tag_scan s initial_pre_count rest' (mkScan (S i) TsBuild sc.(sc_start) t)
        else tag_scan s initial_pre_count rest' (mkScan (S i) TsBuild (S i) t)
      else if c =? 45 then
        if bool_decide (sc.(sc_state) = TsPre)
        then tag_scan s initial_pre_count rest' (mkScan (S i) TsPre sc.(sc_start) sc.(sc_tag))
        else tag_scan s initial_pre_count rest' (mkScan (S i) TsPre (S i) sc.(sc_tag))
      else if is_tag_char c then
        tag_scan s initial_pre_count rest' (mkScan (S i) sc.(sc_state) sc.(sc_start) sc.(sc_tag))
      else
        let e := Sliced_external (Sliced_sub s sc.(sc_start) i) in
        match sc.(sc_state) with
        | TsNone => sc
        | TsPre => mkScan i TsNone sc.(sc_start) (set_pre sc.(sc_tag) e)
        | TsBuild => mkScan i TsNone sc.(sc_start) (set_build sc.(sc_tag) e)
        end
  end.

Definition parse_with_pre_count (s : SlicedString) (initial_pre_count : Z) : TagResult :=
  let input := ss_slice s in
  let '(build_count, pre_count) := count_qualifiers input 0 initial_pre_count in
  if (build_count =? 0) && (pre_count =? 0) then TagResult_default
  else
    let sc := tag_scan s initial_pre_count input (mkScan 0 TsNone 0 Tag_default) in
    let i := sc.(sc_i) in
    let '(state, start) :=
      if bool_decide (sc.(sc_state) = TsNone) && (0 <? initial_pre_count)
      then (TsPre, O) else (sc.(sc_state), sc.(sc_start)) in
    let e := Sliced_external (Sliced_sub s start i) in
    let t := match state with
             | TsNone => sc.(sc_tag)
             | TsPre => set_pre sc.(sc_tag) e
             | TsBuild => set_build sc.(sc_tag) e
             end in
    mkTagResult t (as_u32 (Z.of_nat i)).

Definition Tag_parse (s : SlicedString) : TagResult := parse_with_pre_count s 0.

(** ** Versions *)

Definition is_zero (v : Version) : bool :=
  (v.(patch) =? 0) && (v.(minor) =? 0) && (v.(major) =? 0).

Definition Version_eql (lhs rhs : Version) : bool :=
  (lhs.(major) =? rhs.(major)) && (lhs.(minor) =? rhs.(minor)) && (lhs.(patch) =? rhs.(patch))
  && Tag_eql rhs.(tag) lhs.(tag).

Definition order_without_tag (lhs rhs : Version) : comparison :=
  if lhs.(major) <? rhs.(major) then Lt
  else if rhs.(major) <? lhs.(major) then Gt
  else if lhs.(minor) <? rhs.(minor) then Lt
  else if rhs.(minor) <? lhs.(minor) then Gt
  else if lhs.(patch) <? rhs.(patch) then Lt
  else if rhs.(patch) <? lhs.(patch) then Gt
  else if has_pre lhs.(tag) then (if negb (has_pre rhs.(tag)) then Lt else Eq)
  else if has_pre rhs.(tag) then Gt else Eq.

Definition Version_order (lhs rhs : Version) (lhs_buf rhs_buf : bytes) : comparison :=
  match order_without_tag lhs rhs with
  | Eq => Tag_order lhs.(tag) rhs.(tag) lhs_buf rhs_buf
  | o => o
  end.

Definition order_without_build (lhs rhs : Version) (lhs_buf rhs_buf : bytes) : comparison :=
  match order_without_tag lhs rhs with
  | Eq => Tag_order_without_build lhs.(tag) rhs.(tag) lhs_buf rhs_buf
  | o => o
  end.

Definition comparison_eqb (a b : comparison) : bool :=
  match a, b with Eq, Eq | Lt, Lt | Gt, Gt => true | _, _ => false end.

Definition which_version_is_different (left right : Version) (left_buf right_buf : bytes)
    : option ChangedVersion :=
  if negb (left.(major) =? right.(major)) then Some ChMajor
  else if negb (left.(minor) =? right.(minor)) then Some ChMinor
  else if negb (left.(patch) =? right.(patch)) then Some ChPatch
  else if negb (Bool.eqb (has_pre left.(tag)) (has_pre right.(tag))) then Some ChPre
  else if negb (has_pre left.(tag)) && negb (has_pre right.(tag)) then None
  else if negb (comparison_eqb (order_pre left.(tag) right.(tag) left_buf right_buf) Eq) then Some ChPre
  else if negb (Bool.eqb (has_build left.(tag)) (has_build right.(tag))) then Some ChBuild
  else if negb (has_build left.(tag)) && negb (has_build right.(tag)) then None
  else if negb (comparison_eqb
      (External_order left.(tag).(tag_build) right.(tag).(tag_build) left_buf right_buf) Eq)
  then Some ChBuild else None.

(** *** Copying the tag strings of a version *)

(** The closure [copy] of [Tag::clone_into]; [buf] and [offset] are threaded. *)
Definition clone_string (s : ExternalString) (slice buf : bytes) (offset : Z)
    : outcome (String * bytes * Z) :=
  if External_is_inline s then Done (s.(es_value), buf, offset)
  else
    let b := External_slice s slice in
    let! buf' := write_at buf offset b in
    Done (String_init offset b, buf', offset + Z.of_nat (length b)).

Definition Tag_clone_into (t : Tag) (slice buf : bytes) (offset : Z) : outcome (Tag * bytes * Z) :=
  let! (pre, buf, offset) := clone_string t.(tag_pre) slice buf offset in
  let! (build, buf, offset) := clone_string t.(tag_build) slice buf offset in
  Done (mkTag (mkExternal pre t.(tag_pre).(es_hash)) (mkExternal build t.(tag_build).(es_hash)),
        buf, offset).

Definition Version_clone_into (v : Version) (slice buf : bytes) (offset : Z)
    : outcome (Version * bytes * Z) :=
  let! (t, buf, offset) := Tag_clone_into v.(tag) slice buf offset in
  Done (mkVersion v.(major) v.(minor) v.(patch) t, buf, offset).

Definition Version_count (v : Version) (buf : bytes) (b : Builder) : Builder :=
  let b := if has_pre v.(tag) && negb (External_is_inline v.(tag).(tag_pre))
           then Builder_count b (External_slice v.(tag).(tag_pre) buf) else b in
  if has_build v.(tag) && negb (External_is_inline v.(tag).(tag_build))
  then Builder_count b (External_slice v.(tag).(tag_build) buf) else b.

Definition Version_append (v : Version) (buf : bytes) (b : Builder) : outcome (Version * Builder) :=
  let! (pre, b) :=
    if has_pre v.(tag) && negb (External_is_inline v.(tag).(tag_pre))
    then Builder_append (T := ExternalString) b (External_slice v.(tag).(tag_pre) buf)
    else Done (v.(tag).(tag_pre), b) in
  let! (build, b) :=
    if has_build v.(tag) && negb (External_is_inline v.(tag).(tag_build))
    then Builder_append (T := ExternalString) b (External_slice v.(tag).(tag_build) buf)
    else Done (v.(tag).(tag_build), b) in
  Done (mkVersion v.(major) v.(minor) v.(patch) (mkTag pre build), b).

(** *** Printing *)

(** [impl Display for Formatter]. [bstr] is [Display for bstr::BStr], a crate the
    sources only call: it prints UTF-8 as it is and replaces what is not. *)
Definition Version_fmt (bstr : bytes -> bytes) (v : Version) (input : bytes) : bytes :=
  show_u64 v.(major) ++ [46] ++ show_u64 v.(minor) ++ [46] ++ show_u64 v.(patch)
  ++ (if has_pre v.(tag) then 45 :: bstr (External_slice v.(tag).(tag_pre) input) else [])
  ++ (if has_build v.(tag) then 43 :: bstr (External_slice v.(tag).(tag_build) input) else []).

(** What the sources rely on of [bstr]: ASCII is printed unchanged. *)
Definition keeps_ascii (bstr : bytes -> bytes) : Prop :=
  forall s, Forall (fun c => 0 <= c < 128) s -> bstr s = s.

(** *** Parsing *)

(** Newlines, whitespace, and the separators [v] and [=]. *)
Definition is_leading (c : Z) : bool :=
  (c =? 32) || (c =? 9) || (c =? 10) || (c =? 13) || (c =? 11) || (c =? 12) || (c =? 118) || (c =? 61).

Definition is_x (c : Z) : bool := (c =? 120) || (c =? 42) || (c =? 88).

(** [| ^ # & % !] *)
Definition is_range_sep (c : Z) : bool :=
  (c =? 124) || (c =? 94) || (c =? 35) || (c =? 38) || (c =? 37) || (c =? 33).

Definition parse_version_number (T : VersionInt) (input : bytes) : option Z :=
  Some (default 0 (parse_ascii T input)).

(** The variables of the main loop of [parse]. *)
Record ParseState : Type := mkPS {
  ps_i : nat;
  ps_part : nat;
  ps_wild : Wildcard;
  ps_valid : bool;
  ps_ver : Partial;
}.

Definition set_part (p : Partial) (part_i : nat) (n : option Z) : Partial :=
  match part_i with
  | O => mkPartial n p.(pa_minor) p.(pa_patch) p.(pa_tag)
  | 1%nat => mkPartial p.(pa_major) n p.(pa_patch) p.(pa_tag)
  | 2%nat => mkPartial p.(pa_major) p.(pa_minor) n p.(pa_tag)
  | _ => p
  end.

Definition set_tag (p : Partial) (t : Tag) : Partial :=
  mkPartial p.(pa_major) p.(pa_minor) p.(pa_patch) t.

(** [part_i] after a number or a wildcard: it stops at 3. *)
Definition next_part (part_i : nat) : nat := if (part_i <? 3)%nat then S part_i else part_i.

Definition wildcard_of_part (part_i : nat) : Wildcard :=
  match part_i with
  | O => WMajor
  | 1%nat => WMinor
  | 2%nat => WPatch
  | _ => WNone
  end.

Definition char_at (input : bytes) (i : nat) (c : Z) : bool :=
  match input !! i with Some d => d =? c | None => false end.

Inductive LoopStep : Type :=
| Continue (st : ParseState)
| Break (st : ParseState).

(** One round of the main loop at the byte [c = input[i]]. *)
Definition parse_step (T : VersionInt) (s : SlicedString) (input : bytes) (st : ParseState) (c : Z)
    : LoopStep :=
  let i := st.(ps_i) in
  if c =? 32 then Break st
  else if is_range_sep c then
    Break (mkPS (i - 1) st.(ps_part) st.(ps_wild) st.(ps_valid) st.(ps_ver))
  else if is_ascii_digit c then
    let last_char_i := skip_while is_ascii_digit input (S i) in
    let n := parse_version_number T (sub input i last_char_i) in
    let part_i := next_part st.(ps_part) in
    let i' := if char_at input last_char_i 46 && negb (part_i =? 3)%nat
              then S last_char_i else last_char_i in
    Continue (mkPS i' part_i st.(ps_wild) st.(ps_valid) (set_part st.(ps_ver) st.(ps_part) n))
  else if c =? 46 then Break (mkPS i st.(ps_part) st.(ps_wild) false st.(ps_ver))
  else if (c =? 45) || (c =? 43) then
    if (st.(ps_part) <? 2)%nat && bool_decide (st.(ps_wild) = WNone)
    then Break (mkPS i st.(ps_part) st.(ps_wild) false st.(ps_ver))
    else
      let r := Tag_parse (Sliced_sub s i (length input)) in
      Break (mkPS (i + Z.to_nat r.(tr_len)) st.(ps_part) st.(ps_wild) st.(ps_valid)
               (set_tag st.(ps_ver) r.(tr_tag)))
  else if is_x c then
    let last_char_i := skip_while is_x input (S i) in
    let i' := if char_at input last_char_i 46 then S last_char_i else last_char_i in
    if bool_decide (st.(ps_wild) = WNone)
    then Continue (mkPS i' (next_part st.(ps_part)) (wildcard_of_part st.(ps_part)) st.(ps_valid) st.(ps_ver))
    else Continue (mkPS i' st.(ps_part) st.(ps_wild) st.(ps_valid) st.(ps_ver))
  else if bool_decide (st.(ps_wild) = WNone) && (2 <=? st.(ps_part))%nat && is_ascii_alphabetic c then
    let r := parse_with_pre_count (Sliced_sub s i (length input)) 1 in
    Break (mkPS (i + Z.to_nat r.(tr_len)) st.(ps_part) st.(ps_wild) st.(ps_valid)
             (set_tag st.(ps_ver) r.(tr_tag)))
  else Break (mkPS i st.(ps_part) st.(ps_wild) false st.(ps_ver)).

(** [while i < input.len()]; every round that continues advances [i]. *)
Fixpoint parse_loop (T : VersionInt) (fuel : nat) (s : SlicedString) (input : bytes) (st : ParseState)
    : outcome ParseState :=
  match input !! st.(ps_i) with
  | None => Done st
  | Some c =>
      match fuel with
      | O => NoFuel
      | S fuel' =>
          match parse_step T s input st c with
          | Break st' => Done st'
          | Continue st' => parse_loop T fuel' s input st'
          end
      end
  end.

(** [u32::try_from(i).expect("int cast")] *)
Definition u32_try_from (i : nat) : outcome Z :=
  if Z.of_nat i <? two32 then Done (Z.of_nat i) else Panic.

Definition Version_parse (T : VersionInt) (s : SlicedString) : outcome ParseResult :=
  let input := ss_slice s in
  if (length input =? 0)%nat then Done (mkParseResult WNone false Partial_default 0)
  else
    let i := prefix_len is_leading input in
    if (i =? length input)%nat then
      let! len := u32_try_from i in Done (mkParseResult WMajor false Partial_default len)
    else
      let! st := parse_loop T (length input) s input (mkPS i 0 WNone true Partial_default) in
      let wildcard := if bool_decide (st.(ps_wild) = WNone) then wildcard_of_part st.(ps_part)
                      else st.(ps_wild) in
      let! len := u32_try_from st.(ps_i) in
      Done (mkParseResult wildcard st.(ps_valid) st.(ps_ver) len).

Definition parse_utf8 (T : VersionInt) (slice : bytes) : outcome ParseResult :=
  Version_parse T (Sliced_whole slice).

(** *** Classifying a version string without parsing it *)

Definition valid_pre_or_build_tag_character (c : Z) : bool :=
  (c =? 45) || (c =? 43) || (c =? 46) || is_ascii_upper c || is_ascii_lower c || is_ascii_digit c.

Definition is_tagged_version_only (input : bytes) : bool :=
  match trim input WHITESPACE_CHARS with
  | [] => false
  | c :: rest => is_ascii_alphabetic c && forallb is_ascii_alphanumeric rest
  end.

(** The labelled block ['pinned]: [inl r] is an early return, [inr (i, p)] the
    index of the first core number and the pin its prefix asks for. *)
Definition pinned_prefix (version : bytes) : PinnedVersion + nat * PinnedVersion :=
  let j := prefix_len is_leading version in
  match version !! j with
  | None => inl PinMajor
  | Some c =>
      if (c =? 126) || (c =? 94) then
        let k := skip_while (contains [32; 9; 10; 13; 11; 12]) version (S j) in
        if (k <? length version)%nat then inr (k, if c =? 126 then PinMinor else PinMajor)
        else inl PinMajor
      else if is_ascii_digit c then inr (j, PinPatch)
      else inl PinMajor
  end.

(** A core number at [i]: [inl r] is an early return, [inr i'] the index of
    the byte after it. [at_end] is the value when the input ends there. *)
Definition pinned_number (version : bytes) (i : nat) (at_end : PinnedVersion) : PinnedVersion + nat :=
  match version !! i with
  | Some c =>
      if is_ascii_digit c then
        let i' := skip_while is_ascii_digit version i in
        if (length version <=? i')%nat then inl at_end else inr i'
      else inl PinMajor
  | None => inl PinMajor
  end.

Definition is_pin_tag_char (c : Z) : bool :=
  valid_pre_or_build_tag_character c && negb (is_ascii_whitespace c).

Definition which_version_is_pinned (input : bytes) : PinnedVersion :=
  let version := trim input WHITESPACE_CHARS in
  match pinned_prefix version with
  | inl r => r
  | inr (i, pinned) =>
      let is_patch := bool_decide (pinned = PinPatch) in
      match pinned_number version i (if is_patch then PinMajor else pinned) with
      | inl r => r
      | inr i =>
          if negb (char_at version i 46) then PinMajor
          else match pinned_number version (S i) (if is_patch then PinMinor else pinned) with
               | inl r => r
               | inr i =>
                   if negb (char_at version i 46) then PinMajor
                   else match pinned_number version (S i) pinned with
                        | inl r => r
                        | inr i =>
                            let i' := skip_while is_pin_tag_char version i in
                            if (length version <=? i')%nat then pinned else PinMajor
                        end
               end
      end
  end.

(** ** Ordering: lemmas *)

(** A pre-release identifier: numbers are below strings. *)
Definition ident (part : bytes) : Z + bytes :=
  match parse_ascii VersionInt_u64 part with
  | Some n => inl n
  | None => inr part
  end.

Definition ident_cmp : Z + bytes -> Z + bytes -> comparison := sum_cmp Z.compare (list_cmp Z.compare).

(** The dot-separated identifiers of a pre-release string. *)
Definition idents (s : bytes) : list (Z + bytes) := map ident (split_on 46 s).

Lemma length_split_on d s : (1 <= length (split_on d s) <= S (length s))%nat.
Proof.
  induction s as [|x s IH]; simpl; [lia|]. destruct (x =? d); simpl; [lia|].
  destruct (split_on d s); simpl in *; lia.
Qed.

Lemma order_pre_loop_spec fuel l r :
  l.(sp_delimiter) = [46] -> r.(sp_delimiter) = [46] -> (length (split_rest l 46) < fuel)%nat ->
  order_pre_loop fuel l r =
    list_cmp ident_cmp (map ident (split_rest l 46)) (map ident (split_rest r 46)).
Proof.
  revert l r. induction fuel as [|fuel IH]; intros l r Hl Hr Hf; [lia|]. cbn [order_pre_loop].
  pose proof (split_next_spec l 46 Hl) as Hnl. pose proof (split_next_spec r 46 Hr) as Hnr.
  destruct (split_next l) as [lp l'], (split_next r) as [rp r'].
  destruct Hnl as [Hl' Hnl], Hnr as [Hr' Hnr].
  destruct lp as [lp|]; [|destruct Hnl as [-> _]]; (destruct rp as [rp|]; [|destruct Hnr as [-> _]]);
    rewrite ?Hnl, ?Hnr; try done.
  rewrite Hnl in Hf. cbn [map list_cmp length] in *.
  assert (order_pre_loop fuel l' r' = list_cmp ident_cmp (map ident (split_rest l' 46)) (map ident (split_rest r' 46)))
    as <- by (apply IH; (done || lia)).
  unfold ident_cmp, ident, order.
  destruct (parse_ascii _ lp), (parse_ascii _ rp); cbn [sum_cmp cmp_then]; try done;
    by destruct (_ ?= _) || by destruct (list_cmp _ _ _).
Qed.

Lemma order_pre_spec lt rt lb rb :
  order_pre lt rt lb rb =
    list_cmp ident_cmp (idents (External_slice lt.(tag_pre) lb)) (idents (External_slice rt.(tag_pre) rb)).
Proof.
  unfold order_pre. rewrite order_pre_loop_spec; [|done..|].
  - unfold split_rest. cbn [split sp_index sp_buffer]. by rewrite !drop_0.
  - unfold split_rest. cbn [split sp_index sp_buffer]. rewrite drop_0.
    pose proof (length_split_on 46 (External_slice (tag_pre lt) lb)). lia.
Qed.

(** What decides the precedence of a version in a buffer. *)
Definition precedence (v : Version) (buf : bytes) : Z * (Z * (Z * (list (Z + bytes) + unit))) :=
  (v.(major), (v.(minor), (v.(patch),
     if has_pre v.(tag) then inl (idents (External_slice v.(tag).(tag_pre) buf)) else inr tt))).

Definition precedence_cmp : _ -> _ -> comparison :=
  pair_cmp Z.compare (pair_cmp Z.compare (pair_cmp Z.compare
    (sum_cmp (list_cmp ident_cmp) (fun _ _ : unit => Eq)))).

#[export] Instance unit_cmp_preorder : TotalPreorder (fun _ _ : unit => Eq).
Proof. by split. Qed.

#[export] Instance ident_cmp_preorder : TotalPreorder ident_cmp.
Proof. unfold ident_cmp. apply _. Qed.

#[export] Instance precedence_cmp_preorder : TotalPreorder precedence_cmp.
Proof. unfold precedence_cmp. apply _. Qed.

(** The type invariant of the data: packed strings are eight bytes and the
    numbers are 64-bit. *)
Definition wf_string (s : String) : Prop := is_bytes s.(s_bytes) /\ length s.(s_bytes) = 8%nat.
Definition wf_tag (t : Tag) : Prop :=
  wf_string t.(tag_pre).(es_value) /\ wf_string t.(tag_build).(es_value).
Definition wf_version (v : Version) : Prop :=
  is_u64 v.(major) /\ is_u64 v.(minor) /\ is_u64 v.(patch) /\ wf_tag v.(tag).

Lemma String_is_empty_slice s buf : wf_string s -> String_is_empty s = true -> String_slice s buf = [].
Proof.
  intros [Hb Hl] He. apply Z.eqb_eq in He.
  assert (s_bytes s = replicate 8 0) as Hz.
  { apply from_le_bytes_inj; [done|by apply Forall_replicate|by rewrite Hl|done]. }
  unfold String_slice, byte7, inline_len. by rewrite Hz.
Qed.

Lemma External_order_empty a b lb rb :
  wf_string a.(es_value) -> wf_string b.(es_value) ->
  External_is_empty a = true -> External_is_empty b = true -> External_order a b lb rb = Eq.
Proof.
  intros Ha Hb Ea Eb. unfold External_order, String_order.
  rewrite (String_is_empty_slice _ lb Ha Ea), (String_is_empty_slice _ rb Hb Eb). by case_if.
Qed.

(** The comparison used to satisfy ranges is comparison of precedences. *)
Lemma order_without_build_spec l r lb rb :
  wf_version l -> wf_version r ->
  order_without_build l r lb rb = precedence_cmp (precedence l lb) (precedence r rb).
Proof.
  intros (_ & _ & _ & Hl & _) (_ & _ & _ & Hr & _).
  unfold order_without_build, order_without_tag, precedence_cmp, pair_cmp, precedence. cbn [fst snd].
  assert (forall a b, Z.compare a b = if a <? b then Lt else if b <? a then Gt else Eq) as Hcmp.
  { intros a b. destruct (Z.compare_spec a b), (Z.ltb_spec a b), (Z.ltb_spec b a); (done || lia). }
  rewrite !Hcmp. unfold cmp_then.
  destruct (_ <? _); [done|]. destruct (_ <? _); [done|]. destruct (_ <? _); [done|].
  destruct (_ <? _); [done|]. destruct (_ <? _); [done|]. destruct (_ <? _); [done|].
  unfold Tag_order_without_build, has_pre.
  destruct (External_is_empty (tag_pre (tag l))) eqn:El, (External_is_empty (tag_pre (tag r))) eqn:Er;
    cbn [negb andb sum_cmp]; try done.
  - by apply External_order_empty.
  - apply order_pre_spec.
Qed.

(** ** Parsing: lemmas *)

(** The first byte of [k], if any, satisfies [p]. *)
Definition head_is (p : Z -> bool) (k : bytes) : bool :=
  match k with [] => false | c :: _ => p c end.

Lemma prefix_len_exact (p : Z -> bool) l k :
  Forall (fun c => p c = true) l -> head_is p k = false -> prefix_len p (l ++ k) = length l.
Proof.
  intros Hl Hk. rewrite prefix_len_app by done. destruct k as [|c k]; simpl in *; [lia|].
  rewrite Hk. lia.
Qed.

Lemma char_at_drop input i c : char_at input i c = head_is (fun d => d =? c) (drop i input).
Proof.
  unfold char_at. rewrite <- (Nat.add_0_r i) at 1. rewrite <- lookup_drop.
  by destruct (drop i input).
Qed.

Lemma drop_eq_app (input ds k : bytes) i : drop i input = ds ++ k -> drop (i + length ds) input = k.
Proof. intros H. rewrite <- drop_drop, H. apply drop_app_length. Qed.

Lemma sub_eq_app (input ds k : bytes) i : drop i input = ds ++ k -> sub input i (i + length ds) = ds.
Proof. intros H. unfold sub. rewrite H. rewrite take_app_length'; [done|lia]. Qed.

Lemma lookup_drop_head (input : bytes) i c k : drop i input = c :: k -> input !! i = Some c.
Proof. intros H. rewrite <- (Nat.add_0_r i), <- lookup_drop, H. done. Qed.

(** A run of the class [p] that starts at [i] and ends before [k]. *)
Lemma skip_while_run (p : Z -> bool) input i ds k :
  drop i input = ds ++ k -> ds <> [] -> Forall (fun c => p c = true) ds -> head_is p k = false ->
  skip_while p input (S i) = (i + length ds)%nat.
Proof.
  intros Hd Hne Hds Hk. destruct ds as [|c ds]; [done|]. inversion Hds; subst.
  unfold skip_while. rewrite <- Nat.add_1_r, <- drop_drop, Hd. cbn [app drop].
  rewrite drop_0, prefix_len_exact by done. simpl. lia.
Qed.

(** One number of the core. *)
Lemma parse_step_number T s input st ds k c :
  drop st.(ps_i) input = ds ++ k -> head_is (fun d => d =? c) ds = true ->
  all_digits ds -> head_is is_ascii_digit k = false ->
  parse_step T s input st c =
    Continue (mkPS (st.(ps_i) + length ds +
                    (if head_is (fun d => d =? 46)%Z k && negb (next_part st.(ps_part) =? 3)%nat then 1 else 0))
                (next_part st.(ps_part)) st.(ps_wild) st.(ps_valid)
                (set_part st.(ps_ver) st.(ps_part) (parse_version_number T ds))).
Proof.
  intros Hd Hc Hds Hk. destruct ds as [|c' ds]; [done|]. simpl in Hc. apply Z.eqb_eq in Hc. subst c'.
  pose proof (Forall_inv Hds) as Hc. simpl in Hc. apply is_ascii_digit_iff in Hc as Hr.
  unfold parse_step, is_range_sep.
  repeat match goal with |- context [c =? ?n] => replace (c =? n) with false by (symmetry; apply Z.eqb_neq; lia) end.
  rewrite Hc. cbn [orb].
  rewrite (skip_while_run _ _ _ _ _ Hd) by done. rewrite (sub_eq_app _ _ _ _ Hd).
  rewrite char_at_drop, (drop_eq_app _ _ _ _ Hd).
  case_if; do 2 f_equal; lia.
Qed.

Lemma parse_version_number_show z :
  is_u64 z -> parse_version_number VersionInt_u64 (show_u64 z) = Some z.
Proof.
  intros Hz. unfold parse_version_number, parse_ascii. cbn [VI_MAX VersionInt_u64].
  change (u64_MAX + 1) with two64. by rewrite parse_show_u64.
Qed.

Lemma show_u64_head z : is_u64 z -> exists c ds, show_u64 z = c :: ds /\ is_ascii_digit c = true.
Proof.
  intros Hz. pose proof (show_u64_nonempty z) as Hne.
  pose proof (show_u64_digits z ltac:(unfold is_u64 in Hz; lia)) as Hd.
  destruct (show_u64 z) as [|c ds]; [done|]. exists c, ds. split; [done|]. by inversion Hd.
Qed.

(** A round of the loop on a printed number. *)
Lemma parse_loop_number fuel s input st z k :
  is_u64 z -> drop st.(ps_i) input = show_u64 z ++ k -> head_is is_ascii_digit k = false ->
  parse_loop VersionInt_u64 (S fuel) s input st =
  parse_loop VersionInt_u64 fuel s input
    (mkPS (st.(ps_i) + length (show_u64 z) +
           (if head_is (fun d => d =? 46)%Z k && negb (next_part st.(ps_part) =? 3)%nat then 1 else 0))
       (next_part st.(ps_part)) st.(ps_wild) st.(ps_valid)
       (set_part st.(ps_ver) st.(ps_part) (Some z))).
Proof.
  intros Hz Hd Hk. destruct (show_u64_head z Hz) as (c & ds & E & Hc).
  cbn [parse_loop]. rewrite (lookup_drop_head input _ c (ds ++ k)) by (by rewrite Hd, E).
  rewrite (parse_step_number _ s input st (show_u64 z) k c); try done.
  - by rewrite parse_version_number_show.
  - rewrite E. simpl. apply Z.eqb_refl.
  - apply show_u64_digits. unfold is_u64 in Hz. lia.
Qed.

(** The text of the three core numbers. *)
Definition core_text (M m p : Z) : bytes := show_u64 M ++ [46] ++ show_u64 m ++ [46] ++ show_u64 p.

Definition core_partial (M m p : Z) (t : Tag) : Partial := mkPartial (Some M) (Some m) (Some p) t.

Lemma parse_loop_core fuel s input M m p k :
  is_u64 M -> is_u64 m -> is_u64 p -> input = core_text M m p ++ k -> head_is is_ascii_digit k = false ->
  parse_loop VersionInt_u64 (3 + fuel) s input (mkPS 0 0 WNone true Partial_default) =
  parse_loop VersionInt_u64 fuel s input
    (mkPS (length (core_text M m p)) 3 WNone true (core_partial M m p Tag_default)).
Proof.
  intros HM Hm Hp Hin Hk. unfold core_text in *. rewrite <- !app_assoc in Hin.
  assert (drop 0 input = show_u64 M ++ [46] ++ show_u64 m ++ [46] ++ show_u64 p ++ k) as H0 by (by rewrite drop_0).
  pose proof (drop_eq_app _ _ _ _ H0) as H1. cbn [app] in H1.
  pose proof (drop_eq_app _ [46] _ _ H1) as H2.
  pose proof (drop_eq_app _ _ _ _ H2) as H3. cbn [app] in H3.
  pose proof (drop_eq_app _ [46] _ _ H3) as H4. cbn [length] in *.
  change (3 + fuel)%nat with (S (S (S fuel))).
  rewrite (parse_loop_number _ _ _ (mkPS 0 0 WNone true Partial_default) M _ HM H0) by done.
  cbn [ps_i ps_part ps_wild ps_valid ps_ver head_is app next_part Nat.ltb Nat.leb Nat.eqb negb andb Z.eqb Pos.eqb].
  erewrite (parse_loop_number _ _ _ (mkPS _ 1 _ _ _) m _ Hm H2) by done.
  cbn [ps_i ps_part ps_wild ps_valid ps_ver head_is app next_part Nat.ltb Nat.leb Nat.eqb negb andb Z.eqb Pos.eqb].
  erewrite (parse_loop_number _ _ _ (mkPS _ 2 _ _ _) p _ Hp H4) by done.
  cbn [ps_i ps_part ps_wild ps_valid ps_ver next_part Nat.ltb Nat.leb Nat.eqb negb].
  rewrite andb_false_r. do 2 f_equal. len. lia.
Qed.

Lemma core_text_head M m p k : is_u64 M -> prefix_len is_leading (core_text M m p ++ k) = 0%nat.
Proof.
  intros HM. destruct (show_u64_head M HM) as (c & ds & E & Hc). unfold core_text. rewrite E. simpl.
  apply is_ascii_digit_iff in Hc. unfold is_leading.
  repeat match goal with |- context [c =? ?n] => replace (c =? n) with false by (symmetry; apply Z.eqb_neq; lia) end.
  done.
Qed.

Lemma core_text_length M m p : (5 <= length (core_text M m p))%nat.
Proof.
  unfold core_text. len.
  pose proof (show_u64_nonempty M). pose proof (show_u64_nonempty m). pose proof (show_u64_nonempty p).
  destruct (show_u64 M), (show_u64 m), (show_u64 p); simpl; try done; lia.
Qed.

(** [Version_parse] on a text that starts with three numbers. *)
Lemma Version_parse_core s M m p k :
  is_u64 M -> is_u64 m -> is_u64 p -> ss_slice s = core_text M m p ++ k ->
  head_is is_ascii_digit k = false ->
  Version_parse VersionInt_u64 s =
    let! st := parse_loop VersionInt_u64 (length (ss_slice s) - 3) s (ss_slice s)
      (mkPS (length (core_text M m p)) 3 WNone true (core_partial M m p Tag_default)) in
    let! len := u32_try_from st.(ps_i) in
    Done (mkParseResult
      (if bool_decide (st.(ps_wild) = WNone) then wildcard_of_part st.(ps_part) else st.(ps_wild))
      st.(ps_valid) st.(ps_ver) len).
Proof.
  intros HM Hm Hp Hs Hk. unfold Version_parse. pose proof (core_text_length M m p) as Hlen.
  assert (length (ss_slice s) = length (core_text M m p) + length k)%nat as Hl by (by rewrite Hs, length_app).
  assert (prefix_len is_leading (ss_slice s) = 0%nat) as -> by (rewrite Hs; by apply core_text_head).
  replace (length (ss_slice s) =? 0)%nat with false by (symmetry; apply Nat.eqb_neq; lia).
  replace (0 =? length (ss_slice s))%nat with false by (symmetry; apply Nat.eqb_neq; lia).
  pose proof (parse_loop_core (length (ss_slice s) - 3) s (ss_slice s) M m p k HM Hm Hp Hs Hk) as Hc.
  replace (3 + (length (ss_slice s) - 3))%nat with (length (ss_slice s)) in Hc by lia.
  by rewrite Hc.
Qed.

(** What may follow a version: nothing, or a space. *)
Definition ends_word (k : bytes) : Prop := k = [] \/ head_is (fun c => c =? 32) k = true.

Lemma ends_word_head k (P : Z -> bool) : ends_word k -> P 32 = false -> head_is P k = false.
Proof.
  intros [->|H] HP; [done|]. destruct k as [|c k]; [done|]. simpl in *. apply Z.eqb_eq in H. by subst.
Qed.

Lemma parse_loop_ends T fuel s input st k :
  drop st.(ps_i) input = k -> ends_word k -> parse_loop T (S fuel) s input st = Done st.
Proof.
  intros Hd [->|Hk]; cbn [parse_loop].
  - assert (input !! ps_i st = None) as ->; [|done].
    apply lookup_ge_None. apply (f_equal length) in Hd. rewrite length_drop in Hd. simpl in Hd. lia.
  - destruct k as [|c k]; [done|]. simpl in Hk. apply Z.eqb_eq in Hk. subst c.
    by rewrite (lookup_drop_head _ _ _ _ Hd).
Qed.

(** [x.y.z] followed by nothing or by a space. *)
Lemma Version_parse_plain s M m p k :
  is_u64 M -> is_u64 m -> is_u64 p -> ss_slice s = core_text M m p ++ k -> ends_word k ->
  Z.of_nat (length (ss_slice s)) < two32 ->
  Version_parse VersionInt_u64 s =
    Done (mkParseResult WNone true (core_partial M m p Tag_default) (Z.of_nat (length (core_text M m p)))).
Proof.
  intros HM Hm Hp Hs Hk Hlen. rewrite (Version_parse_core s M m p k) by auto using ends_word_head.
  pose proof (core_text_length M m p).
  assert (length (ss_slice s) = length (core_text M m p) + length k)%nat by (by rewrite Hs, length_app).
  replace (length (ss_slice s) - 3)%nat with (S (length (ss_slice s) - 4)) by lia.
  rewrite (parse_loop_ends _ _ _ _ _ k) by (done || (rewrite Hs; apply drop_app_length)).
  cbn [obind ps_i ps_wild ps_part ps_valid ps_ver wildcard_of_part]. unfold u32_try_from.
  replace (_ <? two32) with true by (symmetry; apply Z.ltb_lt; lia). done.
Qed.

(** *** Partial versions

    Numbers, then wildcards, separated by dots: [1], [1.2], [1.x], [1.2.*], [x], [*.*]. *)
Fixpoint dotted (l : list bytes) : bytes :=
  match l with
  | [] => []
  | a :: rest => a ++ match rest with [] => [] | _ => 46 :: dotted rest end
  end.

Definition x_text (ns xs : list Z) : bytes := dotted (map show_u64 ns ++ map (fun x => [x]) xs).

Definition x_ok (ns xs : list Z) : Prop :=
  Forall is_u64 ns /\ Forall (fun x => is_x x = true) xs /\
  (length ns <= 2)%nat /\ (1 <= length ns + length xs <= 3)%nat.

Definition x_partial (ns : list Z) : Partial := mkPartial (ns !! 0%nat) (ns !! 1%nat) None Tag_default.

Lemma is_x_cases x : is_x x = true -> x = 120 \/ x = 42 \/ x = 88.
Proof. unfold is_x. rewrite !orb_true_iff, !Z.eqb_eq. lia. Qed.

Lemma parse_loop_ends_fuel T fuel s input st k :
  drop st.(ps_i) input = k -> ends_word k -> (length k <= fuel)%nat -> parse_loop T fuel s input st = Done st.
Proof.
  intros Hd Hk Hf. destruct fuel as [|fuel]; [|by apply (parse_loop_ends _ _ _ _ _ k)].
  destruct k; [|cbn in Hf; lia]. cbn [parse_loop]. assert (input !! ps_i st = None) as ->; [|done].
  apply lookup_ge_None. apply (f_equal length) in Hd. rewrite length_drop in Hd. cbn in Hd. lia.
Qed.

Lemma parse_step_x T s input st x k :
  drop st.(ps_i) input = x :: k -> is_x x = true -> head_is is_x k = false ->
  exists part, parse_step T s input st x =
    Continue (mkPS (st.(ps_i) + 1 + (if head_is (fun d => d =? 46) k then 1 else 0)) part
      (if bool_decide (st.(ps_wild) = WNone) then wildcard_of_part st.(ps_part) else st.(ps_wild))
      st.(ps_valid) st.(ps_ver)).
Proof.
  intros Hd Hx Hk. unfold parse_step.
  assert (skip_while is_x input (S (ps_i st)) = ps_i st + 1)%nat as ->
    by (apply (skip_while_run is_x input (ps_i st) [x] k); by auto).
  rewrite !char_at_drop. pose proof (drop_eq_app input [x] k (ps_i st) Hd) as Hd1. cbn [length] in Hd1. rewrite Hd1.
  destruct (is_x_cases x Hx) as [->|[->| ->]]; cbn [Z.eqb Pos.eqb is_range_sep is_ascii_digit orb andb Z.leb Z.compare Pos.compare Pos.compare_cont is_x];
    case_bool_decide; case_if; eexists; do 2 f_equal; lia.
Qed.

Lemma parse_loop_xs T s input xs : forall fuel st k,
  xs <> [] -> Forall (fun x => is_x x = true) xs ->
  drop st.(ps_i) input = dotted (map (fun x => [x]) xs) ++ k -> ends_word k ->
  st.(ps_wild) <> WNone \/ (st.(ps_part) < 3)%nat -> (length xs + length k <= fuel)%nat ->
  exists part, parse_loop T fuel s input st =
    Done (mkPS (st.(ps_i) + length (dotted (map (fun x => [x]) xs))) part
      (if bool_decide (st.(ps_wild) = WNone) then wildcard_of_part st.(ps_part) else st.(ps_wild))
      st.(ps_valid) st.(ps_ver)).
Proof.
  induction xs as [|x xs IH]; intros fuel st k Hne Hx Hd Hk Hw Hf; [done|]. inversion Hx as [|?? Hx1 Hxs]; subst.
  cbn [map dotted app length] in Hd, Hf. destruct fuel as [|fuel]; [lia|]. cbn [parse_loop].
  rewrite (lookup_drop_head _ _ _ _ Hd).
  destruct xs as [|y ys].
  - cbn [app] in Hd. destruct (parse_step_x T s input st x k Hd Hx1) as [part ->]; [by apply ends_word_head|].
    rewrite (ends_word_head k) by done. cbn [map dotted app length]. rewrite Nat.add_0_r. 
    rewrite (parse_loop_ends_fuel _ _ _ _ _ k); [by exists part| |done|cbn in Hf; lia]. apply (drop_eq_app input [x] k (ps_i st) Hd).
  - set (k' := dotted (map (fun x => [x]) (y :: ys)) ++ k) in *. cbn [map app] in Hd. fold k' in Hd.
    destruct (parse_step_x T s input st x (46 :: k') Hd Hx1) as [part ->]; [done|]. cbn [head_is Z.eqb Pos.eqb].
    set (w := if bool_decide _ then _ else _).
    assert (w <> WNone) as Hw'.
    { unfold w. case_bool_decide; [|done]. destruct Hw as [|Hp]; [done|]. by destruct (ps_part st) as [|[|[|]]]; try done; lia. }
    destruct (IH fuel (mkPS (ps_i st + 1 + 1) part w (ps_valid st) (ps_ver st)) k) as [part' ->]; try done; cbn [ps_i ps_wild ps_part].
    + rewrite <- Nat.add_assoc. apply (drop_eq_app input [x; 46] k' (ps_i st)). exact Hd.
    + by left.
    + cbn in Hf |- *. lia.
    + rewrite (bool_decide_false _ Hw'). exists part'. do 2 f_equal. cbn [map dotted app length]. lia.
Qed.

Fixpoint set_parts (p : Partial) (part : nat) (ns : list Z) : Partial :=
  match ns with
  | [] => p
  | z :: rest => set_parts (set_part p part (Some z)) (S part) rest
  end.

Lemma parse_loop_partial s input xs k ns : forall fuel st,
  Forall is_u64 ns -> Forall (fun x => is_x x = true) xs -> ends_word k ->
  drop st.(ps_i) input = x_text ns xs ++ k -> st.(ps_wild) = WNone ->
  (st.(ps_part) + length ns < 3)%nat -> (length ns + length xs + length k <= fuel)%nat ->
  exists part wild, parse_loop VersionInt_u64 fuel s input st =
      Done (mkPS (st.(ps_i) + length (x_text ns xs)) part wild st.(ps_valid) (set_parts st.(ps_ver) st.(ps_part) ns)) /\
    (if bool_decide (wild = WNone) then wildcard_of_part part else wild) = wildcard_of_part (st.(ps_part) + length ns).
Proof.
  induction ns as [|z ns IH]; intros fuel st Hn Hx Hk Hd Hw Hp Hf; cbn [length] in *.
  - unfold x_text in *. cbn [map app] in *. destruct xs as [|x xs].
    + cbn in Hd. rewrite (parse_loop_ends_fuel _ _ _ _ _ k) by (done || cbn in Hf; lia).
      exists (ps_part st), (ps_wild st). cbn. rewrite !Nat.add_0_r, Hw. split; [by destruct st; cbn in *; subst|done].
    + destruct (parse_loop_xs VersionInt_u64 s input (x :: xs) fuel st k) as [part ->]; try done; [by right; lia|].
      eexists _, _. split; [done|]. rewrite Hw, Nat.add_0_r. cbn [bool_decide decide_rel Wildcard_eq_dec].
      destruct (ps_part st) as [|[|[|]]]; try done; lia.
  - inversion Hn as [|?? Hz Hns]; subst. unfold x_text in Hd. cbn [map app dotted] in Hd. rewrite <- app_assoc in Hd.
    destruct fuel as [|fuel]; [lia|].
    assert (next_part (ps_part st) = S (ps_part st)) as Hnext
      by (unfold next_part; by replace (ps_part st <? 3)%nat with true by (symmetry; apply Nat.ltb_lt; lia)).
    destruct (map show_u64 ns ++ map (fun x => [x]) xs) as [|b rest] eqn:El.
    + destruct ns; [|done]. destruct xs; [|done]. cbn [app] in Hd. rewrite (parse_loop_number fuel s input st z k Hz Hd) by (by apply ends_word_head).
      rewrite (ends_word_head k) by done. cbn [andb]. rewrite Hnext, Nat.add_0_r. 
      rewrite (parse_loop_ends_fuel _ _ _ _ _ k); [|by apply (drop_eq_app _ _ _ _ Hd)|done|cbn in Hf; lia].
      eexists _, _. split; [by cbn; rewrite app_nil_r|]. by rewrite Hw, Nat.add_comm.
    + cbn [app] in Hd. rewrite (parse_loop_number fuel s input st z _ Hz Hd) by done. rewrite Hnext.
      cbn [head_is Z.eqb Pos.eqb andb].
      replace (S (ps_part st) =? 3)%nat with false by (symmetry; apply Nat.eqb_neq; lia). cbn [negb].
      set (st' := mkPS _ _ _ _ _).
      destruct (IH fuel st') as (part & wild & -> & Hwild); try done; cbn [st' ps_i ps_part ps_wild]; [|lia..|].
      * unfold x_text. rewrite El. pose proof (drop_eq_app _ _ _ _ Hd) as H1. apply (drop_eq_app _ [46] _ _ H1).
      * exists part, wild. split.
        { cbn [st' ps_i ps_valid ps_ver ps_part set_parts]. do 2 f_equal. unfold x_text. cbn [map app dotted]. rewrite El. len. cbn [length]. lia. }
        rewrite Hwild. cbn [st' ps_part]. f_equal. lia.
Qed.

Lemma x_text_head ns xs :
  x_ok ns xs -> exists d z, x_text ns xs = d :: z /\ is_ascii_digit d || is_x d = true.
Proof.
  intros (Hn & Hx & _ & Hl & _). unfold x_text. destruct Hn as [|z ns Hz Hn].
  - destruct Hx as [|x xs Hx Hxs]; [cbn in Hl; lia|]. cbn. eexists _, _. split; [reflexivity|]. by rewrite Hx, orb_true_r.
  - cbn [map app dotted]. destruct (show_u64_head z Hz) as (d & ds & -> & Hd). cbn [app]. eexists _, _. split; [reflexivity|]. by rewrite Hd.
Qed.

Lemma length_x_text ns xs : x_ok ns xs -> (length ns + length xs <= length (x_text ns xs))%nat.
Proof.
  intros (Hn & _). unfold x_text. assert (Forall (fun b : bytes => b <> []) (map show_u64 ns ++ map (fun x => [x]) xs)) as H.
  { apply Forall_app. split; apply Forall_map, Forall_true; intros; [apply show_u64_nonempty|done]. }
  replace (length ns + length xs)%nat with (length (map show_u64 ns ++ map (fun x => [x]) xs))
    by (by rewrite length_app, !length_map).
  induction H as [|b l Hb Hl IH]; [done|]. cbn [dotted length]. rewrite length_app.
  destruct b; [done|]. destruct l; cbn [length] in *; lia.
Qed.

(** A partial version followed by nothing or by a space: the wildcard is the
    first part that is not given. *)
Lemma Version_parse_x s ns xs k :
  x_ok ns xs -> ss_slice s = x_text ns xs ++ k -> ends_word k -> Z.of_nat (length (ss_slice s)) < two32 ->
  Version_parse VersionInt_u64 s =
    Done (mkParseResult (wildcard_of_part (length ns)) true (x_partial ns) (Z.of_nat (length (x_text ns xs)))).
Proof.
  intros Hok Hs Hk Hlen. destruct (x_text_head ns xs Hok) as (d & z & Ed & Hd). pose proof (length_x_text ns xs Hok) as Hlx.
  pose proof Hok as (Hn & Hx & H2 & Hl). unfold Version_parse.
  assert (length (ss_slice s) = length (x_text ns xs) + length k)%nat as Hls by (by rewrite Hs, length_app).
  assert (prefix_len is_leading (ss_slice s) = 0%nat) as ->.
  { rewrite Hs, Ed. cbn [app prefix_len]. replace (is_leading d) with false; [done|]. symmetry. unfold is_leading.
    apply orb_true_iff in Hd as [Hd%is_ascii_digit_iff|Hd%is_x_cases].
    - rewrite !orb_false_iff, !Z.eqb_neq. lia.
    - by destruct Hd as [->|[->| ->]]. }
  replace (length (ss_slice s) =? 0)%nat with false by (symmetry; apply Nat.eqb_neq; lia).
  replace (0 =? length (ss_slice s))%nat with false by (symmetry; apply Nat.eqb_neq; lia).
  destruct (parse_loop_partial s (ss_slice s) xs k ns (length (ss_slice s)) (mkPS 0 0 WNone true Partial_default))
    as (part & wild & -> & Hw); try done; cbn [ps_i ps_part] in *; [lia..|].
  cbn [obind ps_i ps_wild ps_part ps_valid ps_ver]. unfold u32_try_from.
  rewrite (proj2 (Z.ltb_lt _ _)) by lia. cbn [obind]. rewrite Hw. cbn [plus]. repeat f_equal.
  destruct ns as [|a [|b [|]]]; try done. cbn in H2. lia.
Qed.

(** *** Tags *)

(** Characters of a pre-release (letters, digits, dots, hyphens) and of build
    metadata as this parser reads it (no hyphens). *)
Definition is_pre_char (c : Z) : bool := is_tag_char c || (c =? 45).
Abbreviation pre_chars l := (Forall (fun c => is_pre_char c = true) l).
Abbreviation tag_chars l := (Forall (fun c => is_tag_char c = true) l).

Lemma is_tag_char_range c :
  is_tag_char c = true -> c = 46 \/ 48 <= c <= 57 \/ 65 <= c <= 90 \/ 97 <= c <= 122.
Proof.
  unfold is_tag_char, is_ascii_lower, is_ascii_upper, is_ascii_digit.
  rewrite !orb_true_iff, !andb_true_iff, !Z.leb_le, Z.eqb_eq. lia.
Qed.

Lemma is_pre_char_range c :
  is_pre_char c = true -> 45 <= c <= 46 \/ 48 <= c <= 57 \/ 65 <= c <= 90 \/ 97 <= c <= 122.
Proof. unfold is_pre_char. rewrite orb_true_iff, Z.eqb_eq. intros [H%is_tag_char_range|]; lia. Qed.

Lemma tag_scan_pre s n l k i start t :
  pre_chars l ->
  tag_scan s n (l ++ k) (mkScan i TsPre start t) = tag_scan s n k (mkScan (i + length l) TsPre start t).
Proof.
  intros Hl. revert i. induction Hl as [|c l Hc _ IH]; intros i; [by rewrite Nat.add_0_r|].
  apply is_pre_char_range in Hc as Hr. cbn [app tag_scan sc_i sc_state sc_start sc_tag].
  replace (c =? 43) with false by (symmetry; apply Z.eqb_neq; lia).
  unfold is_pre_char in Hc. destruct (c =? 45).
  - rewrite bool_decide_true by done. rewrite IH. f_equal. f_equal. simpl. lia.
  - rewrite orb_false_r in Hc. rewrite Hc, IH. f_equal. f_equal. simpl. lia.
Qed.

Lemma tag_scan_build s n l k i start t :
  tag_chars l ->
  tag_scan s n (l ++ k) (mkScan i TsBuild start t) = tag_scan s n k (mkScan (i + length l) TsBuild start t).
Proof.
  intros Hl. revert i. induction Hl as [|c l Hc _ IH]; intros i; [by rewrite Nat.add_0_r|].
  apply is_tag_char_range in Hc as Hr. cbn [app tag_scan sc_i sc_state sc_start sc_tag].
  replace (c =? 43) with false by (symmetry; apply Z.eqb_neq; lia).
  replace (c =? 45) with false by (symmetry; apply Z.eqb_neq; lia).
  rewrite Hc, IH. f_equal. f_equal. simpl. lia.
Qed.

Lemma count_qualifiers_mono l b p :
  0 <= b -> 0 <= p -> b + Z.of_nat (length l) < two32 -> p + Z.of_nat (length l) < two32 ->
  let '(b', p') := count_qualifiers l b p in b <= b' /\ p <= p'.
Proof.
  revert b p. induction l as [|c l IH]; intros b p Hb Hp H1 H2; cbn [count_qualifiers length] in *; [lia|].
  assert (wadd32 b 1 = b + 1 /\ wadd32 p 1 = p + 1) as [Eb Ep].
  { unfold wadd32. rewrite !Z.mod_small by lia. done. }
  repeat case_if; [lia|..].
  - rewrite Eb. pose proof (IH (b + 1) p). destruct (count_qualifiers _ _ _). lia.
  - rewrite Ep. pose proof (IH b (p + 1)). destruct (count_qualifiers _ _ _). lia.
  - pose proof (IH b p). destruct (count_qualifiers _ _ _). lia.
Qed.

(** Something is counted when the text starts with a qualifier. *)
Lemma count_qualifiers_head c l :
  c = 43 \/ c = 45 -> Z.of_nat (length (c :: l)) < two32 ->
  let '(b, p) := count_qualifiers (c :: l) 0 0 in (b =? 0) && (p =? 0) = false.
Proof.
  intros Hc Hlen. cbn [count_qualifiers length] in *. unfold two32 in *.
  destruct Hc as [-> | ->]; cbn [Z.eqb Pos.eqb].
  - change (wadd32 0 1) with 1. pose proof (count_qualifiers_mono l 1 0) as H.
    destruct (count_qualifiers l 1 0) as [b p]. unfold two32 in H.
    replace (b =? 0) with false by (symmetry; apply Z.eqb_neq; lia). done.
  - change (wadd32 0 1) with 1. pose proof (count_qualifiers_mono l 0 1) as H.
    destruct (count_qualifiers l 0 1) as [b p]. unfold two32 in H.
    replace (p =? 0) with false by (symmetry; apply Z.eqb_neq; lia). apply andb_false_r.
Qed.

(** The text of the optional qualifiers. *)
Definition pre_text (pre : option bytes) : bytes := match pre with Some x => 45 :: x | None => [] end.
Definition build_text (build : option bytes) : bytes := match build with Some x => 43 :: x | None => [] end.

(** The windows of the qualifiers in the slice [s] they are parsed from. *)
Definition pre_window (s : SlicedString) (pre : option bytes) : ExternalString :=
  match pre with
  | Some x => Sliced_external (Sliced_sub s 1 (S (length x)))
  | None => External_default
  end.
Definition build_window (s : SlicedString) (pre build : option bytes) : ExternalString :=
  match build with
  | Some y => let o := S (length (pre_text pre)) in Sliced_external (Sliced_sub s o (o + length y))
  | None => External_default
  end.

(** Stopping the scan: at the end of the input or at a space, the tag under
    construction is closed in the same way. *)
Lemma tag_close s k i state start t :
  ends_word k ->
  (let sc := tag_scan s 0 k (mkScan i state start t) in
   (sc.(sc_i), match sc.(sc_state) with
    | TsNone => sc.(sc_tag)
    | TsPre => set_pre sc.(sc_tag) (Sliced_external (Sliced_sub s sc.(sc_start) sc.(sc_i)))
    | TsBuild => set_build sc.(sc_tag) (Sliced_external (Sliced_sub s sc.(sc_start) sc.(sc_i)))
    end)) =
  (i, match state with
      | TsNone => t
      | TsPre => set_pre t (Sliced_external (Sliced_sub s start i))
      | TsBuild => set_build t (Sliced_external (Sliced_sub s start i))
      end).
Proof.
  intros [->|Hk]; [done|]. destruct k as [|c k]; [done|]. simpl in Hk. apply Z.eqb_eq in Hk. subst c.
  by destruct state.
Qed.

Lemma Tag_parse_spec s pre build k :
  ss_slice s = pre_text pre ++ build_text build ++ k -> pre <> None \/ build <> None ->
  (forall x, pre = Some x -> pre_chars x) -> (forall y, build = Some y -> tag_chars y) ->
  ends_word k -> Z.of_nat (length (ss_slice s)) < two32 ->
  Tag_parse s = mkTagResult (mkTag (pre_window s pre) (build_window s pre build))
    (Z.of_nat (length (pre_text pre ++ build_text build))).
Proof.
  intros Hs Hsome Hpre Hbuild Hk Hlen. unfold Tag_parse, parse_with_pre_count.
  assert (let '(b, p) := count_qualifiers (ss_slice s) 0 0 in (b =? 0) && (p =? 0) = false) as Hcount.
  { rewrite Hs in *. destruct pre as [x|]; [by apply count_qualifiers_head; [right|]|].
    destruct build as [y|]; [by apply count_qualifiers_head; [left|]|naive_solver]. }
  destruct (count_qualifiers (ss_slice s) 0 0) as [b p]. rewrite Hcount. cbn [Z.ltb Z.compare].
  rewrite andb_false_r.
  set (sc := tag_scan _ _ _ _).
  assert ((sc.(sc_i), match sc.(sc_state) with
    | TsNone => sc.(sc_tag)
    | TsPre => set_pre sc.(sc_tag) (Sliced_external (Sliced_sub s sc.(sc_start) sc.(sc_i)))
    | TsBuild => set_build sc.(sc_tag) (Sliced_external (Sliced_sub s sc.(sc_start) sc.(sc_i)))
    end) = (length (pre_text pre ++ build_text build), mkTag (pre_window s pre) (build_window s pre build))) as Hsc.
  { subst sc. rewrite Hs. destruct pre as [x|]; cbn [pre_text app tag_scan sc_i sc_state sc_start sc_tag Z.eqb Pos.eqb].
    - eval_decide. rewrite tag_scan_pre by auto.
      destruct build as [y|]; cbn [build_text app].
      + cbn [tag_scan sc_i sc_state sc_start sc_tag Z.eqb Pos.eqb].
        eval_decide. rewrite tag_scan_build by auto. rewrite tag_close by done. apply f_equal2; [cbn [pre_text build_text]; len; lia|].
        unfold set_pre, set_build, pre_window, build_window. cbn [tag_pre tag_build Tag_default pre_text length].
        do 3 f_equal; lia.
      + rewrite tag_close by done. apply f_equal2; [cbn [pre_text build_text]; len; lia|]. done.
    - destruct build as [y|]; [|naive_solver].
      cbn [build_text app tag_scan sc_i sc_state sc_start sc_tag Z.eqb Pos.eqb].
      eval_decide. cbn [Z.ltb Z.compare]. rewrite tag_scan_build by auto. rewrite tag_close by done. apply f_equal2; [cbn [pre_text build_text]; len; lia|]. done. }
  injection Hsc as Hi Ht. rewrite <- Ht, <- Hi. unfold as_u32.
  rewrite Z.mod_small; [done|]. rewrite Hi. rewrite Hs, app_assoc, length_app in Hlen. lia.
Qed.

(** *** Slices *)

(** A window inside a buffer small enough for 31-bit lengths. *)
Definition wf_sliced (s : SlicedString) : Prop :=
  is_bytes s.(ss_buf) /\ (s.(ss_off) + s.(ss_len) <= length s.(ss_buf))%nat /\
  Z.of_nat (length s.(ss_buf)) < 2147483648.

Lemma ss_slice_sub s a b :
  (b <= s.(ss_len))%nat -> ss_slice (Sliced_sub s a b) = sub (ss_slice s) a b.
Proof.
  intros Hb. unfold ss_slice, Sliced_sub, sub. cbn [ss_buf ss_off ss_len].
  rewrite skipn_firstn_comm, take_take, drop_drop. f_equal; lia.
Qed.

Lemma length_ss_slice s : wf_sliced s -> length (ss_slice s) = s.(ss_len).
Proof. intros (_ & Hl & _). unfold ss_slice. rewrite length_sub; lia. Qed.

Lemma wf_sliced_sub s a b :
  wf_sliced s -> (a <= b)%nat -> (b <= s.(ss_len))%nat -> wf_sliced (Sliced_sub s a b).
Proof. intros (Hb & Hl & Hm) Ha Hlen. unfold wf_sliced, Sliced_sub. cbn. split_and!; (done || lia). Qed.

Lemma Sliced_whole_slice buf : ss_slice (Sliced_whole buf) = buf.
Proof. unfold ss_slice, Sliced_whole, sub. cbn. rewrite drop_0, take_ge; [done|lia]. Qed.

Lemma wf_sliced_whole buf :
  is_bytes buf -> Z.of_nat (length buf) < 2147483648 -> wf_sliced (Sliced_whole buf).
Proof. intros. unfold wf_sliced, Sliced_whole. cbn. split_and!; (done || lia). Qed.

(** A tag window reads back as its contents. *)
Lemma Sliced_external_slice s :
  wf_sliced s -> nul_free (ss_slice s) ->
  External_slice (Sliced_external s) s.(ss_buf) = ss_slice s /\
  External_is_empty (Sliced_external s) = bool_decide (ss_slice s = []).
Proof.
  intros (Hb & Hl & Hm) Hn.
  pose proof (Sliced_value_packs s Hb Hl Hm ltac:(done)) as Hp.
  change (es_value (Sliced_external s)) with (Sliced_value s).
  split; [by apply packs_slice|]. unfold External_is_empty.
  change (es_value (Sliced_external s)) with (Sliced_value s).
  apply packs_is_empty in Hp. case_bool_decide; destruct (String_is_empty _); naive_solver.
Qed.

Lemma pre_chars_nul_free l : pre_chars l -> nul_free l.
Proof. apply Forall_impl. intros c Hc%is_pre_char_range. lia. Qed.
Lemma tag_chars_pre l : tag_chars l -> pre_chars l.
Proof. apply Forall_impl. intros c Hc. unfold is_pre_char. by rewrite Hc. Qed.

(** The optional string that a tag field holds. *)
Definition field_is (e : ExternalString) (buf : bytes) (o : option bytes) : Prop :=
  match o with
  | Some x => External_is_empty e = false /\ External_slice e buf = x
  | None => External_is_empty e = true
  end.

Lemma window_field s a b x :
  wf_sliced s -> (a <= b)%nat -> (b <= s.(ss_len))%nat -> sub (ss_slice s) a b = x -> x <> [] ->
  nul_free x -> field_is (Sliced_external (Sliced_sub s a b)) s.(ss_buf) (Some x).
Proof.
  intros Hwf Hab Hb Hx Hne Hn.
  pose proof (Sliced_external_slice (Sliced_sub s a b) (wf_sliced_sub s a b Hwf Hab Hb)) as H.
  rewrite ss_slice_sub, Hx in H by done. destruct (H Hn) as [H1 H2]. split; [|done].
  rewrite H2. by apply bool_decide_false.
Qed.

(** What the tag of a parsed version holds. *)
Definition tag_is (t : Tag) (buf : bytes) (pre build : option bytes) : Prop :=
  field_is t.(tag_pre) buf pre /\ field_is t.(tag_build) buf build.

Definition qualifier_ok (P : bytes -> Prop) (o : option bytes) : Prop :=
  match o with Some x => x <> [] /\ P x | None => True end.

Lemma windows_tag s pre build k :
  wf_sliced s -> ss_slice s = pre_text pre ++ build_text build ++ k ->
  qualifier_ok (fun x => pre_chars x) pre -> qualifier_ok (fun x => tag_chars x) build ->
  tag_is (mkTag (pre_window s pre) (build_window s pre build)) s.(ss_buf) pre build.
Proof.
  intros Hwf Hs Hp Hb. pose proof (length_ss_slice s Hwf) as Hl.
  rewrite Hs in Hl. rewrite !length_app in Hl. split; cbn [tag_pre tag_build].
  - destruct pre as [x|]; [|done]. destruct Hp as [Hne Hx]. cbn [pre_text length] in Hl.
    apply window_field; try done; [lia|lia| |by apply pre_chars_nul_free].
    rewrite Hs. unfold sub. cbn [pre_text app drop]. rewrite drop_0, take_app_length'; [done|lia].
  - destruct build as [y|]; [|done]. destruct Hb as [Hne Hy]. cbn [build_text length] in Hl.
    apply window_field; try done; [lia|lia| |by apply pre_chars_nul_free, tag_chars_pre].
    rewrite Hs. unfold sub.
    change (build_text (Some y) ++ k) with ([43] ++ y ++ k). rewrite app_assoc.
    rewrite drop_app_length' by (len; lia). rewrite take_app_length'; [done|lia].
Qed.

Lemma String_init_wf off l : is_bytes l -> wf_string (String_init off l).
Proof.
  intros Hl. destruct (can_inline l) eqn:Hc.
  - rewrite String_init_inline by done. split; [by apply is_bytes_inline|].
    by apply length_inline, can_inline_length.
  - rewrite String_init_packed by done. split; [apply to_le_bytes_bytes|apply length_to_le_bytes].
Qed.

Lemma Sliced_external_wf s : is_bytes s.(ss_buf) -> wf_string (Sliced_external s).(es_value).
Proof. intros. by apply String_init_wf, is_bytes_sub. Qed.

Lemma wf_tag_default : wf_tag Tag_default.
Proof. by repeat split; try by apply (bool_decide_unpack _). Qed.

Lemma windows_wf s pre build : is_bytes s.(ss_buf) -> wf_tag (mkTag (pre_window s pre) (build_window s pre build)).
Proof.
  intros Hb. split; cbn [tag_pre tag_build]; [destruct pre|destruct build]; cbn [pre_window build_window];
    solve [by apply Sliced_external_wf | apply wf_tag_default].
Qed.

(** The result of parsing [M.m.p[-pre][+build]] followed by nothing or a space. *)
Definition parsed_as (r : ParseResult) (buf : bytes) (M m p : Z) (pre build : option bytes) (len : nat) : Prop :=
  exists t, r = mkParseResult WNone true (core_partial M m p t) (Z.of_nat len) /\
    tag_is t buf pre build /\ wf_tag t.

Lemma Version_parse_text s M m p pre build k :
  wf_sliced s -> is_u64 M -> is_u64 m -> is_u64 p ->
  ss_slice s = core_text M m p ++ pre_text pre ++ build_text build ++ k ->
  qualifier_ok (fun x => pre_chars x) pre -> qualifier_ok (fun x => tag_chars x) build -> ends_word k ->
  exists r, Version_parse VersionInt_u64 s = Done r /\
    parsed_as r s.(ss_buf) M m p pre build (length (core_text M m p ++ pre_text pre ++ build_text build)).
Proof.
  intros Hwf HM Hm Hp Hs Hpre Hbuild Hk.
  pose proof (length_ss_slice s Hwf) as Hl. pose proof Hwf as (Hbytes & Hfit & Hmax).
  assert (Z.of_nat (length (ss_slice s)) < two32) by (unfold two32; lia).
  destruct (decide (pre = None /\ build = None)) as [[-> ->]|Hsome].
  { eexists. split; [by apply (Version_parse_plain s M m p k)|].
    exists Tag_default. cbn [pre_text build_text app]. rewrite app_nil_r. split_and!; done || apply wf_tag_default. }
  set (n := length (core_text M m p)). pose proof (core_text_length M m p) as Hn. fold n in Hn.
  assert (length (ss_slice s) = n + length (pre_text pre ++ build_text build ++ k))%nat as Hlen
    by (by rewrite Hs, length_app).
  set (s' := Sliced_sub s n (length (ss_slice s))).
  assert (ss_slice s' = pre_text pre ++ build_text build ++ k) as Hs'.
  { unfold s'. rewrite ss_slice_sub by lia. unfold sub.
    assert (drop n (ss_slice s) = pre_text pre ++ build_text build ++ k) as ->
      by (rewrite Hs; apply drop_app_length). apply take_ge. lia. }
  assert (wf_sliced s') as Hwf' by (apply wf_sliced_sub; (done || lia)).
  assert (Tag_parse s' = mkTagResult (mkTag (pre_window s' pre) (build_window s' pre build))
    (Z.of_nat (length (pre_text pre ++ build_text build)))) as Htag.
  { apply (Tag_parse_spec s' pre build k); try done.
    - destruct pre, build; naive_solver.
    - intros x ->. by destruct Hpre.
    - intros y ->. by destruct Hbuild.
    - rewrite Hs'. lia. }
  assert (exists c rest, pre_text pre ++ build_text build ++ k = c :: rest /\ (c = 45 \/ c = 43)) as (c & rest & Hc & Hcc).
  { destruct pre as [x|]; [eexists 45, _; split; [reflexivity|lia]|].
    destruct build as [y|]; [eexists 43, _; split; [reflexivity|lia]|naive_solver]. }
  rewrite (Version_parse_core s M m p _ HM Hm Hp Hs) by (rewrite Hc; by destruct Hcc; subst).
  replace (length (ss_slice s) - 3)%nat with (S (length (ss_slice s) - 4)) by lia.
  cbn [parse_loop ps_i]. fold n.
  rewrite (lookup_drop_head (ss_slice s) n c rest) by (rewrite Hs; unfold n; by rewrite drop_app_length).
  assert (parse_step VersionInt_u64 s (ss_slice s) (mkPS n 3 WNone true (core_partial M m p Tag_default)) c =
    Break (mkPS (n + length (pre_text pre ++ build_text build)) 3 WNone true
      (core_partial M m p (mkTag (pre_window s' pre) (build_window s' pre build))))) as ->.
  { assert ((c =? 32) = false /\ is_range_sep c = false /\ is_ascii_digit c = false /\ (c =? 46) = false
      /\ (c =? 45) || (c =? 43) = true) as (E1 & E2 & E3 & E4 & E5) by (by destruct Hcc; subst).
    unfold parse_step. rewrite E1, E2, E3, E4, E5. cbn [ps_i ps_part ps_wild ps_valid ps_ver Nat.ltb Nat.leb andb].
    fold s'. rewrite Htag. cbn [tr_len tr_tag]. by rewrite Nat2Z.id. }
  cbn [obind ps_i ps_wild ps_part ps_valid ps_ver wildcard_of_part]. unfold u32_try_from.
  replace (_ <? two32) with true by (symmetry; apply Z.ltb_lt; rewrite !length_app in *; lia).
  eexists. split; [reflexivity|]. eexists. split; [reflexivity || idtac|].
  { do 2 f_equal. unfold n. by rewrite !length_app. }
  change (ss_buf s) with (ss_buf s'). split; [by eapply windows_tag|]. by apply windows_wf.
Qed.

(** *** Parsing is total *)

Definition wf_partial (p : Partial) : Prop :=
  (forall n, p.(pa_major) = Some n -> is_u64 n) /\ (forall n, p.(pa_minor) = Some n -> is_u64 n) /\
  (forall n, p.(pa_patch) = Some n -> is_u64 n) /\ wf_tag p.(pa_tag).

Lemma tag_scan_inv s n rest sc :
  is_bytes s.(ss_buf) -> wf_tag sc.(sc_tag) ->
  wf_tag (tag_scan s n rest sc).(sc_tag) /\
  (sc.(sc_i) <= (tag_scan s n rest sc).(sc_i) <= sc.(sc_i) + length rest)%nat.
Proof.
  intros Hb. revert sc. induction rest as [|c rest IH]; intros sc Hsc; simpl; [split; [done|lia]|].
  assert (forall a b, wf_tag (set_pre (sc_tag sc) (Sliced_external (Sliced_sub s a b)))) as Hpre.
  { intros a b. split; [by apply Sliced_external_wf|apply Hsc]. }
  assert (forall a b, wf_tag (set_build (sc_tag sc) (Sliced_external (Sliced_sub s a b)))) as Hbuild.
  { intros a b. split; [apply Hsc|by apply Sliced_external_wf]. }
  repeat case_if;
    try (match goal with |- context [tag_scan s n rest ?sc'] =>
      destruct (IH sc') as [H1 H2]; [by try apply Hpre|]; cbn [sc_i] in *; split; [done|lia] end).
  destruct (sc_state sc); cbn [sc_tag sc_i]; (split; [done || apply Hpre || apply Hbuild|lia]).
Qed.

Lemma parse_with_pre_count_inv s n :
  is_bytes s.(ss_buf) ->
  wf_tag (parse_with_pre_count s n).(tr_tag) /\
  0 <= (parse_with_pre_count s n).(tr_len) <= Z.of_nat (length (ss_slice s)).
Proof.
  intros Hb. unfold parse_with_pre_count. destruct (count_qualifiers _ _ _) as [bc pc].
  case_if; [split; [apply wf_tag_default|simpl; lia]|].
  destruct (tag_scan_inv s n (ss_slice s) (mkScan 0 TsNone 0 Tag_default) Hb wf_tag_default) as [Ht Hi].
  cbn [sc_i] in Hi. set (sc := tag_scan _ _ _ _) in *.
  assert (forall z, 0 <= z -> 0 <= as_u32 z <= z) as Hcast.
  { intros z Hz. unfold as_u32, two32. pose proof (Z.mod_pos_bound z 4294967296). pose proof (Z.mod_le z 4294967296). lia. }
  destruct (bool_decide _ && _); [|destruct (sc_state sc)]; cbn [tr_tag tr_len];
    (split; [|pose proof (Hcast (Z.of_nat (sc_i sc)) ltac:(lia)); lia]); try done;
    split; cbn [tag_pre tag_build set_pre set_build]; solve [by apply Sliced_external_wf | apply Ht].
Qed.

Lemma parse_version_number_wf l n : parse_version_number VersionInt_u64 l = Some n -> is_u64 n.
Proof.
  unfold parse_version_number, parse_ascii. change (@VI_MAX VersionInt_u64 + 1) with two64.
  intros [= <-]. destruct (parse_unsigned _ _ _) as [|z] eqn:E.
  { simpl. unfold is_u64, two64. lia. }
  simpl. unfold parse_unsigned, auto_radix in E. cbn [negb Z.eqb] in E.
  destruct (parse_with_sign l 10) as [|acc] eqn:Ep; [done|].
  destruct (acc <? _) eqn:Elt; [|done]. injection E as <-. bool_facts.
  split; [|done].
  unfold parse_with_sign in Ep. destruct l as [|c l]; [done|]. destruct (_ || _); [done|].
  assert (forall l a, 0 <= a -> parse_digits l 10 a = inr acc -> 0 <= acc) as Hpos.
  { clear. induction l as [|c l IH]; intros a Ha; cbn [parse_digits]; [by intros [= <-]|].
    destruct (c =? 95); [by apply IH|]. unfold digit_value.
    repeat case_if; try done; apply IH;
      unfold is_ascii_digit, is_ascii_lower, is_ascii_upper in *; bool_facts; lia. }
  by apply (Hpos (c :: l) 0).
Qed.

(** The invariant of the main loop, and its progress. *)
Definition parse_inv (input : bytes) (st : ParseState) : Prop :=
  (st.(ps_i) <= length input)%nat /\ wf_partial st.(ps_ver).

Lemma set_part_wf p i n : wf_partial p -> (forall z, n = Some z -> is_u64 z) -> wf_partial (set_part p i n).
Proof. intros (H1 & H2 & H3 & H4) Hn. by destruct i as [|[|[|]]]. Qed.

Lemma parse_step_inv s st c :
  wf_sliced s -> parse_inv (ss_slice s) st -> ss_slice s !! st.(ps_i) = Some c ->
  match parse_step VersionInt_u64 s (ss_slice s) st c with
  | Break st' => parse_inv (ss_slice s) st'
  | Continue st' => parse_inv (ss_slice s) st' /\ (st.(ps_i) < st'.(ps_i))%nat
  end.
Proof.
  intros Hwf [Hi Hv] Hc. apply lookup_lt_Some in Hc as Hlt. pose proof (length_ss_slice s Hwf) as Hl.
  assert (forall n, let r := parse_with_pre_count (Sliced_sub s (ps_i st) (length (ss_slice s))) n in
    wf_tag (tr_tag r) /\ (ps_i st + Z.to_nat (tr_len r) <= length (ss_slice s))%nat) as Htag.
  { intros n. destruct Hwf as (Hb & _).
    destruct (parse_with_pre_count_inv (Sliced_sub s (ps_i st) (length (ss_slice s))) n) as [H1 H2]; [done|].
    split; [done|]. rewrite ss_slice_sub, length_sub in H2 by lia. lia. }
  assert (forall p, (S (ps_i st) <= skip_while p (ss_slice s) (S (ps_i st)) <= length (ss_slice s))%nat) as Hskip.
  { intros p. apply skip_while_bounds. lia. }
  assert (forall j d, char_at (ss_slice s) j d = true -> (j < length (ss_slice s))%nat) as Hat.
  { intros j d. unfold char_at. destruct (_ !! j) eqn:E; [|done]. by apply lookup_lt_Some in E. }
  unfold parse_step, parse_inv.
  destruct (c =? 32); [done|]. destruct (is_range_sep c); [cbn; split; [lia|done]|].
  destruct (is_ascii_digit c).
  { specialize (Hskip is_ascii_digit). cbn [ps_i ps_ver].
    split; [split; [|apply set_part_wf; [done|apply parse_version_number_wf]]|]; case_if; try lia.
    bool_facts. apply Hat in H. lia. }
  destruct (c =? 46); [done|]. destruct (_ || _).
  { case_if; [done|]. destruct (Htag 0) as [Ht Hlen]. cbn [ps_i ps_ver].
    split; [done|]. destruct Hv as (?&?&?&?). by split_and!. }
  destruct (is_x c).
  { specialize (Hskip is_x). case_if; cbn [ps_i ps_ver]; (split; [split; [|done]|]); case_if; try lia;
      match goal with H : char_at _ _ _ = true |- _ => apply Hat in H; lia end. }
  case_if; [|done]. destruct (Htag 1) as [Ht Hlen]. cbn [ps_i ps_ver].
  split; [done|]. destruct Hv as (?&?&?&?). by split_and!.
Qed.

Lemma parse_loop_total s fuel st :
  wf_sliced s -> parse_inv (ss_slice s) st -> (length (ss_slice s) <= st.(ps_i) + fuel)%nat ->
  exists st', parse_loop VersionInt_u64 fuel s (ss_slice s) st = Done st' /\ parse_inv (ss_slice s) st'.
Proof.
  intros Hwf. revert st. induction fuel as [|fuel IH]; intros st Hinv Hf.
  - cbn [parse_loop]. destruct (_ !! _) eqn:E; [|eauto]. apply lookup_lt_Some in E. lia.
  - cbn [parse_loop]. destruct (_ !! _) as [c|] eqn:E; [|eauto].
    pose proof (parse_step_inv s st c Hwf Hinv E) as Hs. destruct (parse_step _ _ _ _ _); [|eauto].
    apply IH; [apply Hs|]. destruct Hs. lia.
Qed.

Lemma wf_partial_default : wf_partial Partial_default.
Proof. split_and!; try done. apply wf_tag_default. Qed.

Lemma Version_parse_inv s :
  wf_sliced s ->
  exists r, Version_parse VersionInt_u64 s = Done r /\
    0 <= r.(pr_len) <= Z.of_nat (length (ss_slice s)) /\ wf_partial r.(pr_version).
Proof.
  intros Hwf. pose proof (length_ss_slice s Hwf) as Hl. pose proof Hwf as (Hb & Hfit & Hmax).
  assert (forall i, (i <= length (ss_slice s))%nat -> u32_try_from i = Done (Z.of_nat i)) as Hcast.
  { intros i Hi. unfold u32_try_from, two32. by replace (_ <? _) with true by (symmetry; apply Z.ltb_lt; lia). }
  unfold Version_parse. case_if; [eexists; split; [reflexivity|]; split; [simpl; lia|apply wf_partial_default]|].
  pose proof (prefix_len_le is_leading (ss_slice s)).
  case_if.
  { rewrite Hcast by done. eexists. split; [reflexivity|]. split; [simpl; lia|apply wf_partial_default]. }
  destruct (parse_loop_total s (length (ss_slice s)) (mkPS (prefix_len is_leading (ss_slice s)) 0 WNone true Partial_default))
    as (st & -> & Hi & Hv); [done|split; [done|apply wf_partial_default]|simpl; lia|].
  cbn [obind]. rewrite Hcast by done. eexists. split; [reflexivity|]. cbn [pr_len pr_version]. split; [lia|done].
Qed.

(** *** Copying tags *)

Lemma clone_string_spec e x slice buf offset :
  packs e.(es_value) x slice -> is_bytes buf -> 0 <= offset -> offset + needed x <= Z.of_nat (length buf) ->
  Z.of_nat (length buf) < 2147483648 ->
  exists h buf', clone_string e slice buf offset = Done (h, buf', offset + needed x) /\
    stored buf' (offset + needed x) h x /\ length buf' = length buf /\ is_bytes buf' /\
    forall h' x', stored buf offset h' x' -> stored buf' (offset + needed x) h' x'.
Proof.
  intros Hp Hb Ho Hfit Hmax. unfold clone_string, External_is_inline, External_slice, needed in *.
  rewrite (packs_is_inline _ _ _ Hp), (packs_slice _ _ _ Hp). destruct (can_inline x) eqn:Hc.
  - exists (es_value e), buf. rewrite Z.add_0_r. split_and!; try done.
    destruct Hp as [o Heq Hx _ _ _]. left. split; [done|]. by rewrite Heq, String_init_inline.
  - destruct Hp as [o Heq Hx _ _ _].
    assert (exists buf', write_at buf offset x = Done buf') as [buf' Hw].
    { eexists. apply write_at_Done. split_and!; [lia..|reflexivity]. }
    rewrite Hw. cbn [obind]. exists (String_init offset x), buf'. split_and!; try done.
    + rewrite String_init_packed by done. eapply stored_new; done.
    + by eapply write_at_length.
    + by eapply write_at_bytes.
    + intros h' x' Hs. by eapply stored_write.
Qed.

(** *** Pinning *)

Lemma trim_id s : Forall (fun c => contains WHITESPACE_CHARS c = false) s -> trim s WHITESPACE_CHARS = s.
Proof.
  intros Hs. unfold trim, trim_left, trim_right.
  assert (forall l, Forall (fun c => contains WHITESPACE_CHARS c = false) l ->
    prefix_len (contains WHITESPACE_CHARS) l = 0%nat) as Hz.
  { intros l Hl. destruct Hl as [|c l Hc _]; cbn [prefix_len]; [done|]. by rewrite Hc. }
  rewrite (Hz s) by done. rewrite drop_0. rewrite (Hz (reverse s)).
  - by rewrite Nat.sub_0_r, firstn_all.
  - by apply Forall_reverse.
Qed.

(** The printed text of a version: no whitespace, all bytes. *)
Definition version_text (M m p : Z) (pre build : option bytes) : bytes :=
  core_text M m p ++ pre_text pre ++ build_text build.

Definition is_text_char (c : Z) : bool := is_pre_char c || (c =? 43).

Lemma digits_text l : all_digits l -> Forall (fun c => is_text_char c = true) l.
Proof.
  apply Forall_impl. intros c Hc. unfold is_text_char, is_pre_char, is_tag_char. rewrite Hc.
  by rewrite orb_true_r.
Qed.

Lemma version_text_chars M m p pre build :
  is_u64 M -> is_u64 m -> is_u64 p ->
  qualifier_ok (fun x => pre_chars x) pre -> qualifier_ok (fun x => tag_chars x) build ->
  Forall (fun c => is_text_char c = true) (version_text M m p pre build).
Proof.
  intros [HM _] [Hm _] [Hp _] Hpre Hbuild. unfold version_text, core_text.
  assert (forall x, pre_chars x -> Forall (fun c => is_text_char c = true) x) as Hx.
  { intros x. apply Forall_impl. intros c Hc. unfold is_text_char. by rewrite Hc. }
  repeat apply Forall_app_2; try (apply digits_text, show_u64_digits; lia); try by repeat constructor.
  - destruct pre as [x|]; [|by constructor]. constructor; [done|]. apply Hx, Hpre.
  - destruct build as [y|]; [|by constructor]. constructor; [done|]. apply Hx, tag_chars_pre, Hbuild.
Qed.

Lemma text_char_range c : is_text_char c = true -> 43 <= c <= 122 /\ c <> 44 /\ c <> 47.
Proof.
  unfold is_text_char. rewrite orb_true_iff, Z.eqb_eq. intros [H%is_pre_char_range|]; lia.
Qed.

Lemma text_bytes l : Forall (fun c => is_text_char c = true) l -> is_bytes l.
Proof. apply Forall_impl. intros c Hc%text_char_range. unfold is_byte, two8. lia. Qed.

Lemma text_no_whitespace l :
  Forall (fun c => is_text_char c = true) l -> Forall (fun c => contains WHITESPACE_CHARS c = false) l.
Proof.
  apply Forall_impl. intros c Hc%text_char_range. unfold contains, WHITESPACE_CHARS. cbn [existsb].
  repeat match goal with |- context [c =? ?n] => replace (c =? n) with false by (symmetry; apply Z.eqb_neq; lia) end.
  done.
Qed.

Lemma pinned_number_show version i z k r :
  is_u64 z -> drop i version = show_u64 z ++ k -> head_is is_ascii_digit k = false ->
  pinned_number version i r = if (length k =? 0)%nat then inl r else inr (i + length (show_u64 z))%nat.
Proof.
  intros Hz Hd Hk. destruct (show_u64_head z Hz) as (c & ds & E & Hc). unfold pinned_number.
  rewrite (lookup_drop_head version i c (ds ++ k)), Hc by (by rewrite Hd, E).
  unfold skip_while. rewrite Hd, prefix_len_exact; [|apply show_u64_digits; destruct Hz; lia|done].
  apply (f_equal length) in Hd. rewrite length_app, length_drop in Hd.
  assert (length (show_u64 z) > 0)%nat by (rewrite E; simpl; lia).
  destruct (Nat.eqb_spec (length k) 0), (Nat.leb_spec (length version) (i + length (show_u64 z))); (done || lia).
Qed.

(** The operator that [bun update] writes for a pin. *)
Definition pin_prefix (q : PinnedVersion) : bytes :=
  match q with PinMajor => [94] | PinMinor => [126] | PinPatch => [] end.

Lemma pinned_prefix_text q M rest :
  is_u64 M -> pinned_prefix (pin_prefix q ++ show_u64 M ++ rest) = inr (length (pin_prefix q), q).
Proof.
  intros HM. destruct (show_u64_head M HM) as (c & ds & E & Hc). apply is_ascii_digit_iff in Hc as Hr.
  rewrite E. unfold pinned_prefix.
  assert (is_leading c = false) as Hl.
  { unfold is_leading.
    repeat match goal with |- context [c =? ?n] => replace (c =? n) with false by (symmetry; apply Z.eqb_neq; lia) end.
    done. }
  assert (contains [32; 9; 10; 13; 11; 12] c = false) as Hw.
  { unfold contains. cbn [existsb].
    repeat match goal with |- context [c =? ?n] => replace (c =? n) with false by (symmetry; apply Z.eqb_neq; lia) end.
    done. }
  destruct q; cbn [pin_prefix app prefix_len]; [| |rewrite Hl; cbn].
  - cbn -[skip_while]. unfold skip_while. cbn [drop prefix_len]. rewrite Hw. cbn. done.
  - cbn -[skip_while]. unfold skip_while. cbn [drop prefix_len]. rewrite Hw. cbn. done.
  - replace (c =? 126) with false by (symmetry; apply Z.eqb_neq; lia).
    replace (c =? 94) with false by (symmetry; apply Z.eqb_neq; lia). by rewrite Hc.
Qed.

Lemma pin_tag_chars l : Forall (fun c => is_text_char c = true) l -> Forall (fun c => is_pin_tag_char c = true) l.
Proof.
  apply Forall_impl. intros c Hc. apply text_char_range in Hc as Hr. unfold is_pin_tag_char.
  apply andb_true_iff. split.
  - unfold is_text_char, is_pre_char, is_tag_char, valid_pre_or_build_tag_character in *.
    rewrite !orb_true_iff in *. tauto.
  - apply negb_true_iff. unfold is_ascii_whitespace.
    repeat match goal with |- context [c =? ?n] => replace (c =? n) with false by (symmetry; apply Z.eqb_neq; lia) end.
    done.
Qed.

Lemma quals_text_chars pre build :
  qualifier_ok (fun x => pre_chars x) pre -> qualifier_ok (fun x => tag_chars x) build ->
  Forall (fun c => is_text_char c = true) (pre_text pre ++ build_text build) /\
  head_is is_ascii_digit (pre_text pre ++ build_text build) = false.
Proof.
  intros Hpre Hbuild. split; [|by destruct pre, build].
  assert (is_u64 0) as H0 by (unfold is_u64, two64; lia).
  pose proof (version_text_chars 0 0 0 pre build H0 H0 H0 Hpre Hbuild) as H.
  unfold version_text in H. by apply Forall_app in H as [_ H].
Qed.

Lemma pinned_text q M m p pre build :
  is_u64 M -> is_u64 m -> is_u64 p ->
  qualifier_ok (fun x => pre_chars x) pre -> qualifier_ok (fun x => tag_chars x) build ->
  which_version_is_pinned (pin_prefix q ++ version_text M m p pre build) = q.
Proof.
  intros HM Hm Hp Hpre Hbuild. destruct (quals_text_chars pre build Hpre Hbuild) as [Hq Hd].
  set (k := pre_text pre ++ build_text build) in *.
  assert (Forall (fun c => contains WHITESPACE_CHARS c = false) (pin_prefix q ++ version_text M m p pre build)) as Hws.
  { apply Forall_app_2; [destruct q; by repeat constructor|]. by apply text_no_whitespace, version_text_chars. }
  unfold which_version_is_pinned. rewrite trim_id by done.
  set (version := pin_prefix q ++ version_text M m p pre build).
  assert (version = pin_prefix q ++ show_u64 M ++ 46 :: show_u64 m ++ 46 :: show_u64 p ++ k) as Hv.
  { unfold version, version_text, core_text. by rewrite <- !app_assoc. }
  assert (pinned_prefix version = inr (length (pin_prefix q), q)) as -> by (rewrite Hv; by apply pinned_prefix_text).
  assert (drop (length (pin_prefix q)) version = show_u64 M ++ 46 :: show_u64 m ++ 46 :: show_u64 p ++ k) as H0
    by (rewrite Hv; apply drop_app_length).
  pose proof (drop_eq_app _ _ _ _ H0) as H1. pose proof (drop_eq_app _ [46] _ _ H1) as H2.
  pose proof (drop_eq_app _ _ _ _ H2) as H3. pose proof (drop_eq_app _ [46] _ _ H3) as H4.
  pose proof (drop_eq_app _ _ _ _ H4) as H5. cbn [length] in *. rewrite !Nat.add_1_r in *. cbn [plus] in *.
  rewrite (pinned_number_show _ _ M _ _ HM H0) by done. cbn [length Nat.eqb].
  rewrite char_at_drop, H1. cbn [head_is Z.eqb Pos.eqb negb].
  rewrite (pinned_number_show _ _ m _ _ Hm H2) by done. cbn [length Nat.eqb plus].
  rewrite char_at_drop, H3. cbn [head_is Z.eqb Pos.eqb negb].
  rewrite (pinned_number_show _ _ p _ _ Hp H4) by done.
  destruct (Nat.eqb_spec (length k) 0); [done|].
  unfold skip_while. cbn [plus]. rewrite H5, prefix_len_all by (by apply pin_tag_chars).
  apply (f_equal length) in H5. rewrite length_drop in H5.
  by replace (length version <=? _)%nat with true by (symmetry; apply Nat.leb_le; lia).
Qed.

(** *** Lemmas behind the properties *)

Lemma pre_chars_ascii x : pre_chars x -> Forall (fun c => 0 <= c < 128) x.
Proof. apply Forall_impl. intros c Hc%is_pre_char_range. lia. Qed.

Lemma tag_chars_ascii x : tag_chars x -> Forall (fun c => 0 <= c < 128) x.
Proof. apply Forall_impl. intros c Hc%is_tag_char_range. lia. Qed.

Lemma Version_fmt_tag bstr M m p t buf pre build :
  keeps_ascii bstr ->
  qualifier_ok (fun x => pre_chars x) pre -> qualifier_ok (fun x => tag_chars x) build ->
  tag_is t buf pre build ->
  Version_fmt bstr (Partial_min (core_partial M m p t)) buf = version_text M m p pre build.
Proof.
  intros Hs Hpre Hbuild [Hp Hb]. unfold Version_fmt, version_text, core_text, has_pre, has_build.
  rewrite <- !app_assoc.
  cbn [Partial_min core_partial pa_major pa_minor pa_patch pa_tag major minor patch tag default].
  do 5 f_equal. unfold field_is in *. f_equal.
  - destruct pre; [|by rewrite Hp]. destruct Hp as [-> ->], Hpre as [_ Hpre].
    by rewrite Hs by (by apply pre_chars_ascii).
  - destruct build; [|by rewrite Hb]. destruct Hb as [-> ->], Hbuild as [_ Hbuild].
    by rewrite Hs by (by apply tag_chars_ascii).
Qed.

Lemma needed_nonneg s : 0 <= needed s.
Proof. unfold needed. case_if; lia. Qed.

Lemma packs_packable h s buf : packs h s buf -> packable s.
Proof. by intros [off _ Hb Hn _ _]. Qed.

(** ** Properties *)


(** A printer with the documented behaviour on ASCII, and U+FFFD elsewhere. *)
Definition ascii_lossy (s : bytes) : bytes :=
  s ≫= fun c => if c <? 128 then [c] else [239; 191; 189].

Lemma ascii_lossy_keeps : keeps_ascii ascii_lossy.
Proof.
  intros s H. induction H as [|c s Hc _ IH]; [done|]. unfold ascii_lossy in *. cbn [mbind list_bind app].
  rewrite IH. by replace (c <? 128) with true by (symmetry; apply Z.ltb_lt; lia).
Qed.


(** Semver's reading of a pre-release, from its text alone: an identifier of
    digits only is a number, however long; every other one is a string. *)
Definition semver_ident (part : bytes) : Z + bytes :=
  match part with
  | [] => inr []
  | _ => if forallb is_ascii_digit part then inl (dec_value part 0) else inr part
  end.

Definition semver_precedence (v : Version) (buf : bytes) : Z * (Z * (Z * (list (Z + bytes) + unit))) :=
  (v.(major), (v.(minor), (v.(patch),
     if has_pre v.(tag) then inl (map semver_ident (split_on 46 (External_slice v.(tag).(tag_pre) buf)))
     else inr tt))).

(** A pre-release written in semver's alphabet whose numbers are 64-bit. *)
Definition ident_char (c : Z) : Prop :=
  48 <= c <= 57 \/ 65 <= c <= 90 \/ 97 <= c <= 122 \/ c = 45.
#[export] Instance ident_char_dec c : Decision (ident_char c).
Proof. unfold ident_char. apply _. Defined.
Definition u64_idents (v : Version) (buf : bytes) : Prop :=
  Forall (fun part => Forall ident_char part /\ (all_digits part -> dec_value part 0 < two64))
    (split_on 46 (External_slice v.(tag).(tag_pre) buf)).

Lemma ident_is_semver part :
  Forall ident_char part -> (all_digits part -> dec_value part 0 < two64) -> ident part = semver_ident part.
Proof.
  intros Hc Hv. unfold ident, semver_ident, parse_ascii. cbn [VI_MAX VersionInt_u64].
  change (u64_MAX + 1) with two64. destruct part as [|c part]; [done|].
  destruct (forallb is_ascii_digit (c :: part)) eqn:Ed.
  - assert (all_digits (c :: part)) as Hd by (apply List.Forall_forall; by rewrite forallb_forall in Ed).
    rewrite parse_unsigned_digits by done. by rewrite (proj2 (Z.ltb_lt _ _) (Hv Hd)).
  - destruct (parse_unsigned _ _ _) as [|n] eqn:Ep; [done|]. exfalso. unfold parse_unsigned, auto_radix in Ep.
    cbn [negb Z.eqb] in Ep. destruct (parse_with_sign _ _) as [|acc] eqn:Es; [done|].
    unfold parse_with_sign in Es. destruct (_ || _); [done|]. apply parse_digits_only in Es.
    + rewrite List.Forall_forall in Es. apply not_true_iff_false in Ed. apply Ed, forallb_forall, Es.
    + intros Hin. rewrite List.Forall_forall in Hc. specialize (Hc _ Hin). unfold ident_char in Hc. lia.
Qed.

Lemma precedence_is_semver v buf : u64_idents v buf -> precedence v buf = semver_precedence v buf.
Proof.
  intros H. unfold precedence, semver_precedence. destruct (has_pre (tag v)); [|done]. do 4 f_equal.
  unfold idents. apply map_ext_Forall. revert H. apply List.Forall_impl. intros part [Hc Hv]. by apply ident_is_semver.
Qed.

(** C14: [order_without_build], the comparison that satisfies ranges, is
    semver precedence on versions whose pre-release identifiers are written in
    semver's alphabet [[0-9A-Za-z-]] and whose numeric identifiers are below
    2^64: numeric on the three numbers; a version with a pre-release is below
    the one without; pre-releases compare identifier by identifier,
    identifiers of digits by their number and below all others, which compare
    as bytes, a shorter list below its extensions. [semver_precedence] reads
    the text by itself and does not mention build metadata.
    [large_identifiers_compare_as_text] is what happens from 2^64 on. *)
Theorem order_is_precedence l r lb rb :
  wf_version l -> wf_version r -> u64_idents l lb -> u64_idents r rb ->
  order_without_build l r lb rb = precedence_cmp (semver_precedence l lb) (semver_precedence r rb).
Proof. intros Hl Hr Il Ir. rewrite order_without_build_spec by done. by rewrite !precedence_is_semver. Qed.

Definition v_alpha : Version := mkVersion 1 0 0 (mkTag (External_init 0 [97; 46; 49] 0) External_default).
Definition v_beta : Version := mkVersion 1 0 0 (mkTag (External_init 0 [97; 46; 120] 0) External_default).

Lemma order_is_precedence_witness : precedence_cmp (semver_precedence v_alpha []) (semver_precedence v_beta []) = Lt.
Proof.
  rewrite <- (order_is_precedence v_alpha v_beta [] []);
    [by vm_compute| |
     |apply (bool_decide_unpack _); vm_compute; exact I ..].
  all: (split_and!; [unfold is_u64, two64; simpl; lia..|]; by repeat split; apply (bool_decide_unpack _)).
Defined.

(** A digit string that does not fit 64 bits is compared as text, so that
    1.0.0-99999999999999999999 is above 1.0.0-100000000000000000000: semver
    orders the two numbers the other way. *)
Lemma large_identifiers_compare_as_text :
  let nines := replicate 20 57 in
  let zeros := 49 :: replicate 20 48 in
  let v pre := mkVersion 1 0 0 (mkTag (External_init 0 pre 0) External_default) in
  order_without_build (v nines) (v zeros) nines zeros = Gt /\
  precedence_cmp (semver_precedence (v nines) nines) (semver_precedence (v zeros) zeros) = Lt.
Proof. vm_compute. split; reflexivity. Qed.

(** The comparison is a total preorder on well-formed versions, whatever
    buffers hold their tags: swapping the arguments flips the answer, and it
    is transitive. *)
Theorem order_total_preorder x y z xb yb zb :
  wf_version x -> wf_version y -> wf_version z ->
  order_without_build y x yb xb = CompOpp (order_without_build x y xb yb) /\
  (order_without_build x y xb yb <> Gt -> order_without_build y z yb zb <> Gt ->
   order_without_build x z xb zb <> Gt) /\
  (order_without_build x y xb yb = Eq <-> precedence_cmp (precedence x xb) (precedence y yb) = Eq).
Proof.
  intros Hx Hy Hz. rewrite !order_without_build_spec by done. split_and!; [apply (cmp_antisym _)| |done].
  apply (cmp_le_trans precedence_cmp).
Qed.

Lemma order_total_preorder_witness : order_without_build v_beta v_alpha [] [] = Gt.
Proof.
  destruct (order_total_preorder v_alpha v_beta v_beta [] [] []) as [-> _];
    [split_and!; [unfold is_u64, two64; simpl; lia..|]; by repeat split; apply (bool_decide_unpack _)..|].
  by vm_compute.
Defined.

(** Parsing is total on every byte string below 2 GiB: it never panics,
    never loops, never reports more bytes than it was given, and what it
    returns is well formed (64-bit numbers, eight-byte tag handles). *)
Theorem Version_parse_total input :
  is_bytes input -> Z.of_nat (length input) < 2147483648 ->
  exists r, parse_utf8 VersionInt_u64 input = Done r /\
    0 <= r.(pr_len) <= Z.of_nat (length input) /\ wf_version (Partial_min r.(pr_version)).
Proof.
  intros Hb Hl. destruct (Version_parse_inv (Sliced_whole input)) as (r & Hr & Hlen & Hw);
    [by apply wf_sliced_whole|]. rewrite Sliced_whole_slice in Hlen.
  exists r. split_and!; [done|lia..|]. destruct Hw as (H1 & H2 & H3 & Ht).
  assert (forall o, (forall z, o = Some z -> is_u64 z) -> is_u64 (default 0 o)) as Hd.
  { intros [z|] H; [by apply H|]. unfold is_u64, two64. simpl. lia. }
  split_and!; cbn; try by apply Hd. done.
Qed.

Lemma Version_parse_total_witness :
  exists r, parse_utf8 VersionInt_u64 [118; 49; 46; 120; 32; 255] = Done r /\ 0 <= r.(pr_len) <= 6.
Proof.
  destruct (Version_parse_total [118; 49; 46; 120; 32; 255]) as (r & Hr & Hl & _);
    [by apply (bool_decide_unpack _)|by vm_compute|]. by exists r.
Defined.

(** [clone_into] moves a version to another buffer. When the buffer
    has room for the two tag strings, the copy resolves in the new buffer to
    the same strings, the offset advances by exactly the bytes written, and
    handles stored below the offset are undisturbed. *)
Theorem Version_clone_into_resolves v pre build slice buf offset :
  packs v.(tag).(tag_pre).(es_value) pre slice -> packs v.(tag).(tag_build).(es_value) build slice ->
  is_bytes buf -> 0 <= offset -> offset + needed pre + needed build <= Z.of_nat (length buf) ->
  Z.of_nat (length buf) < 2147483648 ->
  exists v' buf', Version_clone_into v slice buf offset = Done (v', buf', offset + needed pre + needed build) /\
    v'.(major) = v.(major) /\ v'.(minor) = v.(minor) /\ v'.(patch) = v.(patch) /\
    External_slice v'.(tag).(tag_pre) buf' = pre /\ External_slice v'.(tag).(tag_build) buf' = build /\
    Tag_eql v'.(tag) v.(tag) = true /\ length buf' = length buf /\
    forall h x, packable x -> stored buf offset h x -> String_slice h buf' = x.
Proof.
  intros Hp Hq Hb Ho Hfit Hmax. assert (0 <= needed build) by apply needed_nonneg.
  assert (0 <= needed pre) by apply needed_nonneg.
  destruct (clone_string_spec (tag_pre (tag v)) pre slice buf offset) as (h1 & b1 & E1 & S1 & L1 & B1 & K1); [done..|lia|done|].
  destruct (clone_string_spec (tag_build (tag v)) build slice b1 (offset + needed pre))
    as (h2 & b2 & E2 & S2 & L2 & B2 & K2); [done..|lia|lia|lia|].
  eexists _, b2. unfold Version_clone_into, Tag_clone_into. rewrite E1. cbn [obind]. rewrite E2. cbn [obind].
  split; [reflexivity|]. cbn. unfold External_slice, Tag_eql. cbn. do 3 (split; [done|]). split_and!; [..|lia|].
  - eapply stored_slice; [by eapply packs_packable|by apply K2].
  - by eapply stored_slice; [eapply packs_packable|].
  - apply Z.eqb_refl.
  - intros h x Hx Hs. eapply stored_slice; [done|by apply K2, K1].
Qed.

Definition long_pre : bytes := [97; 108; 112; 104; 97; 46; 49; 48; 46; 120].
Definition v_long : Version := mkVersion 1 2 3 (mkTag (External_init 0 long_pre 7) (External_init 0 [98; 49] 9)).

Lemma Version_clone_into_resolves_witness :
  exists v' buf', Version_clone_into v_long long_pre (replicate 12 0) 2 = Done (v', buf', 12) /\
    External_slice v'.(tag).(tag_pre) buf' = long_pre.
Proof.
  destruct (Version_clone_into_resolves v_long long_pre [98; 49] long_pre (replicate 12 0) 2)
    as (v' & buf' & H & _ & _ & _ & Hs & _).
  - exists 0; [done|by apply (bool_decide_unpack _)|done|intros _; vm_compute; by repeat split|done].
  - exists 0; [done|by apply (bool_decide_unpack _)|intros _; by repeat constructor|done|done].
  - by apply (bool_decide_unpack _).
  - lia.
  - by vm_compute.
  - by vm_compute.
  - exists v', buf'. by split.
Defined.

(** The pin of a range is recovered from its text: [^] is a major pin,
    [~] a minor pin, a bare version a patch pin, for every version text. *)
Theorem which_version_is_pinned_text q M m p pre build :
  is_u64 M -> is_u64 m -> is_u64 p ->
  qualifier_ok (fun x => pre_chars x) pre -> qualifier_ok (fun x => tag_chars x) build ->
  which_version_is_pinned (pin_prefix q ++ version_text M m p pre build) = q.
Proof. apply pinned_text. Qed.

Lemma which_version_is_pinned_text_witness :
  which_version_is_pinned (pin_prefix PinMinor ++ version_text 10 0 3 (Some [114; 99; 46; 49]) None) = PinMinor.
Proof.
  apply (which_version_is_pinned_text PinMinor 10 0 3 (Some [114; 99; 46; 49]) None);
    [unfold is_u64, two64; lia..|split; [done|by repeat constructor]|done].
Defined.

(** A hyphen inside build metadata is read as the start of a
    pre-release: ["1.0.0+b-1"] parses, as valid, to pre-release ["1"] and no
    build, so it orders below ["1.0.0"]. *)
Theorem build_hyphen_becomes_pre :
  let text := [49; 46; 48; 46; 48; 43; 98; 45; 49] in
  exists r, parse_utf8 VersionInt_u64 text = Done r /\ r.(pr_valid) = true /\
    tag_is r.(pr_version).(pa_tag) text (Some [49]) None /\
    order_without_build (Partial_min r.(pr_version)) (mkVersion 1 0 0 Tag_default) text [] = Lt.
Proof. intros text. run (parse_utf8 VersionInt_u64 text). by vm_compute. Qed.

(** A tag written without its hyphen depends on what follows it: in
    ["1.0.0rc-1"] the pre-release is ["1"], in ["1.0.0rc-1 "] it is ["rc-1"]. *)
Theorem bare_tag_depends_on_trailing_space :
  let a := [49; 46; 48; 46; 48; 114; 99; 45; 49] in
  let b := a ++ [32] in
  exists ra rb, parse_utf8 VersionInt_u64 a = Done ra /\ parse_utf8 VersionInt_u64 b = Done rb /\
    tag_is ra.(pr_version).(pa_tag) a (Some [49]) None /\
    tag_is rb.(pr_version).(pa_tag) b (Some [114; 99; 45; 49]) None.
Proof. intros a b. run (parse_utf8 VersionInt_u64 a). run (parse_utf8 VersionInt_u64 b). by vm_compute. Qed.
