(* ===== verification/SemverRange.v ===== *)
(** * Comparators and ranges

    [src/src/semver/SemverRange.rs]: a comparator ([>=1.2.3]) and a range, one
    or two comparators that must both hold. The lemmas give the meaning of a
    comparator on release versions, which the range operators of
    [SemverQuery] are built from. *)
From Stdlib Require Import ZArith Lia.
From stdpp Require Import base list numbers option.
From S2P Require Import Prelude Strings SemverString SemverVersion.
#[local] Open Scope Z_scope.

Inductive Op : Type := OpUnset | OpEql | OpLt | OpLte | OpGt | OpGte.
#[export] Instance Op_eq_dec : EqDecision Op.
Proof. solve_decision. Defined.

Record Comparator : Type := mkComparator { c_op : Op; c_version : Version }.
Definition Comparator_default : Comparator := mkComparator OpUnset Version_default.

Record Range : Type := mkRange { left : Comparator; right : Comparator }.
Definition Range_default : Range := mkRange Comparator_default Comparator_default.

(** [Version { major, minor, patch, ..Default::default() }] *)
Definition plain (major minor patch : Z) : Version := mkVersion major minor patch Tag_default.

(** ** Comparators *)

Definition lt_next_major (major : Z) : Comparator :=
  match checked_succ64 major with
  | Some m => mkComparator OpLt (plain m 0 0)
  | None => mkComparator OpLte (plain u64_MAX u64_MAX u64_MAX)
  end.

Definition lt_next_minor (major minor : Z) : Comparator :=
  match checked_succ64 minor with
  | Some m => mkComparator OpLt (plain major m 0)
  | None => mkComparator OpLte (plain major u64_MAX u64_MAX)
  end.

Definition lt_next_patch (major minor patch : Z) : Comparator :=
  match checked_succ64 patch with
  | Some p => mkComparator OpLt (plain major minor p)
  | None => mkComparator OpLte (plain major minor u64_MAX)
  end.

Definition Comparator_eql (lhs rhs : Comparator) : bool :=
  bool_decide (lhs.(c_op) = rhs.(c_op)) && Version_eql lhs.(c_version) rhs.(c_version).

Definition Comparator_satisfies (c : Comparator) (version : Version) (comparator_buf version_buf : bytes) : bool :=
  match order_without_build version c.(c_version) version_buf comparator_buf with
  | Eq => match c.(c_op) with OpLte | OpGte | OpEql => true | _ => false end
  | Gt => match c.(c_op) with OpGt | OpGte => true | _ => false end
  | Lt => match c.(c_op) with OpLt | OpLte => true | _ => false end
  end.

(** [impl Display for ComparatorFormatter] *)
Definition Comparator_fmt (bstr : bytes -> bytes) (c : Comparator) (buffer : bytes) : bytes :=
  match c.(c_op) with
  | OpUnset => []
  | OpEql => [61; 61] ++ Version_fmt bstr c.(c_version) buffer
  | OpLt => [60] ++ Version_fmt bstr c.(c_version) buffer
  | OpLte => [60; 61] ++ Version_fmt bstr c.(c_version) buffer
  | OpGt => [62] ++ Version_fmt bstr c.(c_version) buffer
  | OpGte => [62; 61] ++ Version_fmt bstr c.(c_version) buffer
  end.

(** ** Ranges *)

Definition only (c : Comparator) : Range := mkRange c Comparator_default.

Definition init_wildcard (version : Version) (wildcard : Wildcard) : Range :=
  match wildcard with
  | WNone => only (mkComparator OpEql version)
  | WMajor => only (mkComparator OpGte Version_default)
  | WMinor =>
      mkRange (lt_next_major version.(major)) (mkComparator OpGte (plain version.(major) 0 0))
  | WPatch =>
      mkRange (lt_next_minor version.(major) version.(minor))
        (mkComparator OpGte (plain version.(major) version.(minor) 0))
  end.

Definition has_left (r : Range) : bool := negb (bool_decide (r.(left).(c_op) = OpUnset)).
Definition has_right (r : Range) : bool := negb (bool_decide (r.(right).(c_op) = OpUnset)).

Definition Range_eql (lhs rhs : Range) : bool :=
  Comparator_eql lhs.(left) rhs.(left) && Comparator_eql lhs.(right) rhs.(right).

Definition Range_satisfies (r : Range) (version : Version) (range_buf version_buf : bytes) : bool :=
  if negb (has_left r) then true
  else if negb (Comparator_satisfies r.(left) version range_buf version_buf) then false
  else if has_right r && negb (Comparator_satisfies r.(right) version range_buf version_buf) then false
  else true.

(** The comparator names a pre-release of the same [major.minor.patch]. *)
Definition pre_match (c : Comparator) (version : Version) : bool :=
  has_pre c.(c_version).(tag)
  && (version.(patch) =? c.(c_version).(patch))
  && (version.(minor) =? c.(c_version).(minor))
  && (version.(major) =? c.(c_version).(major)).

(** The result, and [pre_matched] after the call. *)
Definition Range_satisfies_pre (r : Range) (version : Version) (range_buf version_buf : bytes)
    (pre_matched : bool) : bool * bool :=
  if negb (has_left r) then (true, pre_matched)
  else
    let pre_matched := pre_matched || pre_match r.(left) version
                       || (has_right r && pre_match r.(right) version) in
    if negb (Comparator_satisfies r.(left) version range_buf version_buf) then (false, pre_matched)
    else if has_right r && negb (Comparator_satisfies r.(right) version range_buf version_buf)
    then (false, pre_matched)
    else (true, pre_matched).

(** [impl Display for Formatter] *)
Definition Range_fmt (bstr : bytes -> bytes) (r : Range) (buffer : bytes) : bytes :=
  if bool_decide (r.(left).(c_op) = OpUnset) && bool_decide (r.(right).(c_op) = OpUnset) then []
  else if bool_decide (r.(right).(c_op) = OpUnset) then Comparator_fmt bstr r.(left) buffer
  else Comparator_fmt bstr r.(left) buffer ++ [32] ++ Comparator_fmt bstr r.(right) buffer.

(** ** Well-formedness *)

Definition wf_comparator (c : Comparator) : Prop := wf_version c.(c_version).

(** The data are well formed, and a right comparator comes with a left one. *)
Definition wf_range (r : Range) : Prop :=
  wf_comparator r.(left) /\ wf_comparator r.(right) /\ (has_right r = true -> has_left r = true).

Lemma wf_plain a b c : is_u64 a -> is_u64 b -> is_u64 c -> wf_version (plain a b c).
Proof. intros. split_and!; try done; apply wf_tag_default. Qed.

Lemma is_u64_0 : is_u64 0.
Proof. unfold is_u64, two64. lia. Qed.
Lemma is_u64_MAX : is_u64 u64_MAX.
Proof. unfold is_u64, two64, u64_MAX. lia. Qed.

Lemma wf_version_default : wf_version Version_default.
Proof. apply wf_plain; apply is_u64_0. Qed.

Lemma checked_succ64_spec z :
  is_u64 z -> (z < u64_MAX /\ checked_succ64 z = Some (z + 1) /\ is_u64 (z + 1)) \/
              (z = u64_MAX /\ checked_succ64 z = None).
Proof.
  unfold is_u64, checked_succ64, two64, u64_MAX. intros Hz.
  destruct (Z.ltb_spec z 18446744073709551615); [left|right]; split_and!; (done || lia).
Qed.

#[export] Hint Resolve wf_plain is_u64_0 is_u64_MAX wf_version_default : bun.

Lemma lt_next_major_wf M : is_u64 M -> wf_comparator (lt_next_major M).
Proof.
  intros HM. unfold lt_next_major, wf_comparator.
  destruct (checked_succ64_spec M HM) as [(? & -> & ?)|[? ->]]; cbn -[Z.add plain]; auto with bun.
Qed.
Lemma lt_next_minor_wf M m : is_u64 M -> is_u64 m -> wf_comparator (lt_next_minor M m).
Proof.
  intros HM Hm. unfold lt_next_minor, wf_comparator.
  destruct (checked_succ64_spec m Hm) as [(? & -> & ?)|[? ->]]; cbn -[Z.add plain]; auto with bun.
Qed.
Lemma lt_next_patch_wf M m p : is_u64 M -> is_u64 m -> is_u64 p -> wf_comparator (lt_next_patch M m p).
Proof.
  intros HM Hm Hp. unfold lt_next_patch, wf_comparator.
  destruct (checked_succ64_spec p Hp) as [(? & -> & ?)|[? ->]]; cbn -[Z.add plain]; auto with bun.
Qed.

(** ** Comparators on release versions *)

Definition triple_lt (v w : Version) : Prop :=
  v.(major) < w.(major) \/
  (v.(major) = w.(major) /\
   (v.(minor) < w.(minor) \/ (v.(minor) = w.(minor) /\ v.(patch) < w.(patch)))).
Definition triple_eq (v w : Version) : Prop :=
  v.(major) = w.(major) /\ v.(minor) = w.(minor) /\ v.(patch) = w.(patch).

(** A release compared with any version: by the numbers, and above the
    pre-releases of its own numbers. *)
Lemma order_release v w vb wb :
  wf_version v -> wf_version w -> has_pre v.(tag) = false ->
  match order_without_build v w vb wb with
  | Lt => triple_lt v w
  | Eq => triple_eq v w /\ has_pre w.(tag) = false
  | Gt => triple_lt w v \/ (triple_eq v w /\ has_pre w.(tag) = true)
  end.
Proof.
  intros Hv Hw Hr. rewrite order_without_build_spec by done.
  unfold precedence, precedence_cmp, pair_cmp, cmp_then, triple_lt, triple_eq. cbn [fst snd]. rewrite Hr.
  destruct (Z.compare_spec (major v) (major w)); [|lia..].
  destruct (Z.compare_spec (minor v) (minor w)); [|lia..].
  destruct (Z.compare_spec (patch v) (patch w)); [|lia..].
  destruct (has_pre (tag w)); cbn [sum_cmp]; auto.
Qed.

(** The meaning of a comparator on a release. *)
Lemma Comparator_satisfies_release c v cb vb :
  wf_version v -> wf_comparator c -> has_pre v.(tag) = false ->
  let w := c.(c_version) in
  Comparator_satisfies c v cb vb = true <->
  match c.(c_op) with
  | OpUnset => False
  | OpEql => triple_eq v w /\ has_pre w.(tag) = false
  | OpLt => triple_lt v w
  | OpLte => triple_lt v w \/ (triple_eq v w /\ has_pre w.(tag) = false)
  | OpGt => triple_lt w v \/ (triple_eq v w /\ has_pre w.(tag) = true)
  | OpGte => triple_lt w v \/ triple_eq v w
  end.
Proof.
  intros Hv Hc Hr w. pose proof (order_release v w vb cb Hv Hc Hr) as Ho. unfold Comparator_satisfies. fold w.
  unfold triple_lt, triple_eq in *.
  destruct (order_without_build v w vb cb), (c_op c); (split; [intros H|intros H]);
    try done; try tauto; try lia; try (destruct Ho as [? ->]); try intuition (congruence || lia).
Qed.

(** Upper and lower bounds of the desugared ranges. The ceiling forms hold of
    every 64-bit version with the same leading numbers, so the bounds read the
    same with and without overflow. *)
Section Bounds.
Context (v : Version) (Hv : wf_version v) (Hr : has_pre v.(tag) = false).

Lemma gte_satisfies w cb vb :
  wf_version w -> Comparator_satisfies (mkComparator OpGte w) v cb vb = true <-> ~ triple_lt v w.
Proof using Hv Hr.
  intros Hw. rewrite Comparator_satisfies_release by done. cbn. unfold triple_lt, triple_eq. lia.
Qed.

Lemma lt_satisfies w cb vb :
  wf_version w -> Comparator_satisfies (mkComparator OpLt w) v cb vb = true <-> triple_lt v w.
Proof using Hv Hr. intros Hw. by rewrite Comparator_satisfies_release by done. Qed.

Lemma lte_plain_satisfies a b c cb vb :
  is_u64 a -> is_u64 b -> is_u64 c ->
  Comparator_satisfies (mkComparator OpLte (plain a b c)) v cb vb = true <-> ~ triple_lt (plain a b c) v.
Proof using Hv Hr.
  intros Ha Hb Hc. rewrite Comparator_satisfies_release by (done || by apply wf_plain). cbn.
  unfold triple_lt, triple_eq. cbn. assert (has_pre Tag_default = false <-> True) as -> by done. lia.
Qed.

Lemma lt_next_major_satisfies M cb vb :
  is_u64 M -> Comparator_satisfies (lt_next_major M) v cb vb = true <-> v.(major) <= M.
Proof using Hv Hr.
  intros HM. pose proof Hv as (HvM & Hvm & Hvp & _). unfold lt_next_major.
  destruct (checked_succ64_spec M HM) as [(? & -> & ?)|[-> ->]].
  - rewrite lt_satisfies by auto with bun. unfold triple_lt, is_u64 in *. cbn -[Z.add]. lia.
  - rewrite lte_plain_satisfies by auto with bun. unfold triple_lt, is_u64, two64, u64_MAX in *. cbn. lia.
Qed.

Lemma lt_next_minor_satisfies M m cb vb :
  is_u64 M -> is_u64 m ->
  Comparator_satisfies (lt_next_minor M m) v cb vb = true <->
  v.(major) < M \/ (v.(major) = M /\ v.(minor) <= m).
Proof using Hv Hr.
  intros HM Hm. pose proof Hv as (HvM & Hvm & Hvp & _). unfold lt_next_minor.
  destruct (checked_succ64_spec m Hm) as [(? & -> & ?)|[-> ->]].
  - rewrite lt_satisfies by auto with bun. unfold triple_lt, is_u64 in *. cbn -[Z.add]. lia.
  - rewrite lte_plain_satisfies by auto with bun. unfold triple_lt, is_u64, two64, u64_MAX in *. cbn. lia.
Qed.

Lemma lt_next_patch_satisfies M m p cb vb :
  is_u64 M -> is_u64 m -> is_u64 p ->
  Comparator_satisfies (lt_next_patch M m p) v cb vb = true <->
  triple_lt v (plain M m p) \/ triple_eq v (plain M m p).
Proof using Hv Hr.
  intros HM Hm Hp. pose proof Hv as (HvM & Hvm & Hvp & _). unfold lt_next_patch.
  destruct (checked_succ64_spec p Hp) as [(? & -> & ?)|[-> ->]].
  - rewrite lt_satisfies by auto with bun. unfold triple_lt, triple_eq, is_u64 in *. cbn -[Z.add]. lia.
  - rewrite lte_plain_satisfies by auto with bun.
    unfold triple_lt, triple_eq, is_u64, two64, u64_MAX in *. cbn. lia.
Qed.
End Bounds.

Lemma has_left_lt_next M m p :
  c_op (lt_next_major M) <> OpUnset /\ c_op (lt_next_minor M m) <> OpUnset /\ c_op (lt_next_patch M m p) <> OpUnset.
Proof. unfold lt_next_major, lt_next_minor, lt_next_patch. by repeat destruct (checked_succ64 _). Qed.

(** A range with two comparators is their conjunction. *)
Lemma Range_satisfies_both l r v rb vb :
  c_op l <> OpUnset -> c_op r <> OpUnset ->
  Range_satisfies (mkRange l r) v rb vb = true <->
  Comparator_satisfies l v rb vb = true /\ Comparator_satisfies r v rb vb = true.
Proof.
  intros Hl Hr. unfold Range_satisfies, has_left, has_right. cbn [left right].
  rewrite !bool_decide_false by done. cbn [negb andb].
  destruct (Comparator_satisfies l _ _ _), (Comparator_satisfies r _ _ _); naive_solver.
Qed.

Lemma Range_satisfies_only c v rb vb :
  c_op c <> OpUnset -> Range_satisfies (only c) v rb vb = Comparator_satisfies c v rb vb.
Proof.
  intros Hc. unfold Range_satisfies, has_left, has_right, only. cbn [left right].
  rewrite bool_decide_false by done. cbn [negb andb Comparator_default c_op].
  by destruct (Comparator_satisfies _ _ _ _).
Qed.

(** [satisfies_pre] answers like [satisfies], and on success it has looked at
    every comparator that is in force. *)
Lemma Range_satisfies_pre_spec r v rb vb pm :
  Range_satisfies_pre r v rb vb pm =
  (Range_satisfies r v rb vb,
   pm || (has_left r && (pre_match r.(left) v || (has_right r && pre_match r.(right) v)))).
Proof.
  unfold Range_satisfies_pre, Range_satisfies. destruct (has_left r); cbn [negb andb].
  - rewrite orb_assoc. by repeat case_if.
  - by rewrite orb_false_r.
Qed.

(** Wildcard versions on releases, at every 64-bit value: [*] accepts
    every release, [M.x] exactly the releases with that major, [M.m.x]
    exactly those with that major and minor, also when [M] or [m] is
    [u64::MAX], where the exclusive upper bound would overflow. *)
Lemma init_wildcard_satisfies version wildcard v rb vb :
  wf_version version -> wf_version v -> has_pre v.(tag) = false ->
  Range_satisfies (init_wildcard version wildcard) v rb vb = true <->
  match wildcard with
  | WNone => triple_eq v version /\ has_pre version.(tag) = false
  | WMajor => True
  | WMinor => v.(major) = version.(major)
  | WPatch => v.(major) = version.(major) /\ v.(minor) = version.(minor)
  end.
Proof.
  intros Hw Hv Hr. pose proof Hw as (HM & Hm & _). pose proof Hv as (HvM & Hvm & Hvp & _).
  destruct wildcard; cbn [init_wildcard].
  - rewrite Range_satisfies_only by done. by rewrite Comparator_satisfies_release.
  - rewrite Range_satisfies_only, gte_satisfies by (done || apply wf_version_default).
    unfold triple_lt, is_u64 in *. cbn. lia.
  - rewrite Range_satisfies_both by (done || apply (has_left_lt_next _ 0 0)).
    rewrite lt_next_major_satisfies, gte_satisfies by auto with bun.
    unfold triple_lt, is_u64 in *. cbn. lia.
  - rewrite Range_satisfies_both by (done || apply (has_left_lt_next _ _ 0)).
    rewrite lt_next_minor_satisfies, gte_satisfies by auto with bun.
    unfold triple_lt, is_u64 in *. cbn. lia.
Qed.
