(* ===== verification/SemverQuery.v ===== *)
(** * Version queries

    [src/src/semver/SemverQuery.rs] and [intersects.rs]: a query is a chain of
    ranges joined by AND, a list a chain of queries joined by OR, and a group a
    list with the flags of the parse. The chains are boxed nodes with a
    back pointer to the last node; a back pointer is modelled by the depth of
    the node it points to ([Some 1] is the first boxed node). *)
From Stdlib Require Import ZArith Lia.
From stdpp Require Import base list numbers option.
From S2P Require Import Prelude Strings SemverString SemverVersion SemverRange.
#[local] Open Scope Z_scope.

(** ** Data *)

#[warnings="-register-all"]
Inductive Query : Type := mkQuery (range : Range) (next : option Query).
Definition q_range (q : Query) : Range := let 'mkQuery r _ := q in r.
Definition q_next (q : Query) : option Query := let 'mkQuery _ n := q in n.
Definition Query_default : Query := mkQuery Range_default None.

#[warnings="-register-all"]
Inductive List : Type := mkList (head : Query) (tail : option nat) (next : option List).
Definition l_head (l : List) : Query := let 'mkList h _ _ := l in h.
Definition l_tail (l : List) : option nat := let 'mkList _ t _ := l in t.
Definition l_next (l : List) : option List := let 'mkList _ _ n := l in n.
Definition List_default : List := mkList Query_default None None.

(** [IntegerBitSet<3>] *)
Definition FlagsBitSet_set (mask : Z) (index : Z) : Z := Z.lor mask (Z.shiftl 1 index).
Definition FlagsBitSet_is_set (mask : Z) (index : Z) : bool := negb (Z.land mask (Z.shiftl 1 index) =? 0).
Definition Flags_PRE : Z := 1.
Definition Flags_BUILD : Z := 0.

Record Group : Type := mkGroup {
  g_head : List;
  g_tail : option nat;
  g_input : bytes;
  g_flags : Z;
}.
Definition Group_default : Group := mkGroup List_default None [] 0.

Inductive TokenTag : Type :=
  TkNone | TkGt | TkGte | TkLt | TkLte | TkVersion | TkTilda | TkCaret.
#[export] Instance TokenTag_eq_dec : EqDecision TokenTag.
Proof. solve_decision. Defined.

Record Token : Type := mkToken { tk_tag : TokenTag; tk_wildcard : Wildcard }.
Definition Token_default : Token := mkToken TkNone WNone.

(** ** Queries *)

Fixpoint Query_clone (q : Query) : Query :=
  match q with
  | mkQuery r None => mkQuery r None
  | mkQuery r (Some node) => mkQuery r (Some (Query_clone node))
  end.

(** [impl Display for QueryFormatter] *)
Definition Query_fmt (bstr : bytes -> bytes) (q : Query) (buffer : bytes) : bytes :=
  match q_next q with
  | Some ptr =>
      if has_left (q_range ptr) || has_right (q_range ptr)
      then Range_fmt bstr (q_range q) buffer ++ [32; 38; 38; 32] ++ Range_fmt bstr (q_range ptr) buffer
      else Range_fmt bstr (q_range q) buffer
  | None => Range_fmt bstr (q_range q) buffer
  end.

Fixpoint Query_eql (lhs rhs : Query) : bool :=
  match lhs, rhs with
  | mkQuery lr lnext, mkQuery rr rnext =>
      if negb (Range_eql lr rr) then false
      else match lnext, rnext with
           | None, None => true
           | None, Some _ => false
           | Some _, None => false
           | Some l, Some r => Query_eql l r
           end
  end.

Fixpoint Query_satisfies (q : Query) (version : Version) (query_buf version_buf : bytes) : bool :=
  match q with
  | mkQuery range next =>
      if negb (Range_satisfies range version query_buf version_buf) then false
      else match next with
           | Some node => Query_satisfies node version query_buf version_buf
           | None => true
           end
  end.

(** The result, and [pre_matched] after the call. *)
Fixpoint Query_satisfies_pre (q : Query) (version : Version) (query_buf version_buf : bytes)
    (pre_matched : bool) : bool * bool :=
  match q with
  | mkQuery range next =>
      let (ok, pre_matched) := Range_satisfies_pre range version query_buf version_buf pre_matched in
      if negb ok then (false, pre_matched)
      else match next with
           | Some node => Query_satisfies_pre node version query_buf version_buf pre_matched
           | None => (true, pre_matched)
           end
  end.

(** ** Lists *)

(** The back pointer that [clone] computes by walking the chain. *)
Fixpoint Query_depth (q : Query) : nat :=
  match q with
  | mkQuery _ (Some node) => S (Query_depth node)
  | mkQuery _ None => 0
  end.

Definition cloned_tail (q : Query) : option nat :=
  match q_next q with Some _ => Some (Query_depth q) | None => None end.

Fixpoint List_clone (l : List) : List :=
  match l with
  | mkList head _ next =>
      let head := Query_clone head in
      mkList head (cloned_tail head)
        (match next with Some node => Some (List_clone node) | None => None end)
  end.

(** [impl Display for ListFormatter] *)
Fixpoint List_fmt (bstr : bytes -> bytes) (l : List) (buffer : bytes) : bytes :=
  match l with
  | mkList head _ (Some node) => Query_fmt bstr head buffer ++ [32; 124; 124; 32] ++ List_fmt bstr node buffer
  | mkList head _ None => Query_fmt bstr head buffer
  end.

Fixpoint List_satisfies (l : List) (version : Version) (list_buf version_buf : bytes) : bool :=
  match l with
  | mkList head _ next =>
      if Query_satisfies head version list_buf version_buf then true
      else match next with
           | Some node => List_satisfies node version list_buf version_buf
           | None => false
           end
  end.

Fixpoint List_satisfies_pre (l : List) (version : Version) (list_buf version_buf : bytes) : bool :=
  match l with
  | mkList head _ next =>
      let (ok, pre_matched) := Query_satisfies_pre head version list_buf version_buf false in
      if ok && pre_matched then true
      else match next with
           | Some node => List_satisfies_pre node version list_buf version_buf
           | None => false
           end
  end.

Fixpoint List_eql (lhs rhs : List) : bool :=
  match lhs, rhs with
  | mkList lh _ lnext, mkList rh _ rnext =>
      if negb (Query_eql lh rh) then false
      else match lnext, rnext with
           | None, None => true
           | None, Some _ => false
           | Some _, None => false
           | Some l, Some r => List_eql l r
           end
  end.

(** [last_tail.next = Some(tail)] through the pointer to the node at [depth];
    what the node pointed to before is dropped. A dangling pointer is [Panic]. *)
Fixpoint Query_set_next (q : Query) (depth : nat) (new : Query) : outcome Query :=
  match depth, q with
  | O, mkQuery r _ => Done (mkQuery r (Some new))
  | S d, mkQuery r (Some node) =>
      let! node := Query_set_next node d new in
      Done (mkQuery r (Some node))
  | S _, mkQuery _ None => Panic
  end.

Definition List_and_range (l : List) (range : Range) : outcome List :=
  let 'mkList head tail next := l in
  if negb (has_left (q_range head)) && negb (has_right (q_range head)) then
    Done (mkList (mkQuery range (q_next head)) tail next)
  else
    let depth := default O tail in
    let! head := Query_set_next head depth (mkQuery range None) in
    Done (mkList head (Some (S depth)) next).

(** ** Groups *)

(** The [List] that [self.tail] (or [self.head]) points to is updated in place. *)
Fixpoint List_update (l : List) (depth : nat) (f : List -> outcome List) : outcome List :=
  match depth, l with
  | O, _ => f l
  | S d, mkList head tail (Some node) =>
      let! node := List_update node d f in
      Done (mkList head tail (Some node))
  | S _, mkList _ _ None => Panic
  end.

Fixpoint List_depth (l : List) : nat :=
  match l with
  | mkList _ _ (Some node) => S (List_depth node)
  | mkList _ _ None => 0
  end.

Definition Group_clone (g : Group) : Group :=
  let head := List_clone g.(g_head) in
  mkGroup head (match l_next head with Some _ => Some (List_depth head) | None => None end)
    g.(g_input) g.(g_flags).

Definition is_none {A : Type} (o : option A) : bool := match o with None => true | Some _ => false end.

(** The range of the first comparators of a group. *)
Definition first_range (g : Group) : Range := q_range (l_head g.(g_head)).

(** The [while] of [GroupFormatter]: each list is printed with all that follow it. *)
Fixpoint Group_fmt_loop (bstr : bytes -> bytes) (l : List) (buf : bytes) : bytes :=
  match l with
  | mkList _ _ (Some next) => List_fmt bstr l buf ++ [32; 38; 38; 32] ++ Group_fmt_loop bstr next buf
  | mkList _ _ None => List_fmt bstr l buf
  end.

Definition Group_fmt (bstr : bytes -> bytes) (g : Group) (buf : bytes) : bytes :=
  if is_none g.(g_tail) && is_none (l_tail g.(g_head)) && negb (has_left (first_range g)) then []
  else if is_none g.(g_tail) && is_none (l_tail g.(g_head)) then List_fmt bstr g.(g_head) buf
  else Group_fmt_loop bstr g.(g_head) buf.

Definition get_exact_version (g : Group) : option Version :=
  let range := first_range g in
  if is_none (l_next g.(g_head)) && is_none (q_next (l_head g.(g_head)))
     && has_left range && bool_decide (range.(left).(c_op) = OpEql) && negb (has_right range)
  then Some range.(left).(c_version) else None.

Definition Group_from (version : Version) : Group :=
  mkGroup (mkList (mkQuery (only (mkComparator OpEql version)) None) None None) None [] 0.

Definition is_exact (g : Group) : bool :=
  is_none (l_next g.(g_head)) && is_none (q_next (l_head g.(g_head)))
  && negb (has_right (first_range g)) && bool_decide ((first_range g).(left).(c_op) = OpEql).

Definition is_star (g : Group) : bool :=
  let l := (first_range g).(left) in
  bool_decide ((first_range g).(right).(c_op) = OpUnset) && bool_decide (l.(c_op) = OpGte)
  && is_none (l_next g.(g_head)) && is_none (q_next (l_head g.(g_head)))
  && is_zero l.(c_version) && negb (FlagsBitSet_is_set g.(g_flags) Flags_BUILD).

Definition Group_eql (g rhs : Group) : bool := List_eql g.(g_head) rhs.(g_head).

Definition to_version (g : Group) : Version := (first_range g).(left).(c_version).

Definition with_head_range (g : Group) (r : Range) : Group :=
  let 'mkList (mkQuery _ qn) t n := g.(g_head) in
  mkGroup (mkList (mkQuery r qn) t n) g.(g_tail) g.(g_input) g.(g_flags).

(** [prev_tail.next = Some(new_tail); self.tail = Some(new_tail_ptr)] *)
Definition push_list (g : Group) (new_tail : List) : outcome Group :=
  let depth := default O g.(g_tail) in
  let! head := List_update g.(g_head) depth (fun l => Done (mkList (l_head l) (l_tail l) (Some new_tail))) in
  Done (mkGroup head (Some (S depth)) g.(g_input) g.(g_flags)).

Definition or_version (g : Group) (version : Version) : outcome Group :=
  if is_none g.(g_tail) && negb (has_left (first_range g)) then
    Done (with_head_range g (mkRange (mkComparator OpEql version) (first_range g).(right)))
  else push_list g (mkList (mkQuery (only (mkComparator OpEql version)) None) None None).

Definition and_range (g : Group) (range : Range) : outcome Group :=
  let! head := List_update g.(g_head) (default O g.(g_tail)) (fun l => List_and_range l range) in
  Done (mkGroup head g.(g_tail) g.(g_input) g.(g_flags)).

Definition or_range (g : Group) (range : Range) : outcome Group :=
  if is_none g.(g_tail) && is_none (l_tail g.(g_head)) && negb (has_left (first_range g)) then
    Done (with_head_range g range)
  else push_list g (mkList (mkQuery range None) None None).

Definition Group_satisfies (g : Group) (version : Version) (group_buf version_buf : bytes) : bool :=
  if has_pre version.(tag) then List_satisfies_pre g.(g_head) version group_buf version_buf
  else List_satisfies g.(g_head) version group_buf version_buf.

Definition Group_is_empty (g : Group) : bool :=
  is_none (l_next g.(g_head)) && is_none (q_next (l_head g.(g_head))) && negb (has_left (first_range g)).

Definition satisfies_including_prerelease (g : Group) (version : Version) (group_buf version_buf : bytes) : bool :=
  List_satisfies g.(g_head) version group_buf version_buf.

(** ** Tokens *)

(** [TokenTag::Caret] of [to_range] *)
Definition caret_range (version : Partial) : Range :=
  match version.(pa_major) with
  | None => Range_default
  | Some M =>
      match version.(pa_minor) with
      | None => mkRange (mkComparator OpGte (plain M 0 0)) (lt_next_major M)
      | Some m =>
          match version.(pa_patch) with
          | Some p =>
              let l := mkComparator OpGte (mkVersion M m p version.(pa_tag)) in
              if M =? 0 then
                mkRange l (if m =? 0 then lt_next_patch 0 0 p else lt_next_minor 0 m)
              else mkRange l (lt_next_major M)
          | None =>
              let l := mkComparator OpGte (plain M m 0) in
              if M =? 0 then mkRange l (lt_next_minor 0 m) else mkRange l (lt_next_major M)
          end
      end
  end.

(** [TokenTag::Tilda] of [to_range] *)
Definition tilda_range (version : Partial) : Range :=
  match version.(pa_major) with
  | None => Range_default
  | Some M =>
      match version.(pa_minor) with
      | None => mkRange (mkComparator OpGte (plain M 0 0)) (lt_next_major M)
      | Some m =>
          let l := match version.(pa_patch) with
                   | Some p => mkVersion M m p version.(pa_tag)
                   | None => plain M m 0
                   end in
          mkRange (mkComparator OpGte l) (lt_next_minor M m)
      end
  end.

(** The [match self.wildcard] of [to_range], for [>], [>=], [<] and [<=];
    [unreachable!()] is [Panic]. *)
Definition comparator_range (tag : TokenTag) (wildcard : Wildcard) (version : Partial) : outcome Range :=
  let M := default 0 version.(pa_major) in
  let m := default 0 version.(pa_minor) in
  match wildcard with
  | WMajor =>
      Done (mkRange (mkComparator OpGte (Partial_min version))
                    (mkComparator OpLte (plain u64_MAX u64_MAX u64_MAX)))
  | WMinor =>
      match tag with
      | TkLte => Done (only (mkComparator OpLte (plain M u64_MAX u64_MAX)))
      | TkLt => Done (only (mkComparator OpLt (plain M 0 0)))
      | TkGt => Done (only (mkComparator OpGt (plain M u64_MAX u64_MAX)))
      | TkGte => Done (only (mkComparator OpGte (plain M 0 0)))
      | _ => Panic
      end
  | WPatch =>
      match tag with
      | TkLte => Done (only (mkComparator OpLte (plain M m u64_MAX)))
      | TkLt => Done (only (mkComparator OpLt (plain M m 0)))
      | TkGt => Done (only (mkComparator OpGt (plain M m u64_MAX)))
      | TkGte => Done (only (mkComparator OpGte (plain M m 0)))
      | _ => Panic
      end
  | WNone =>
      match tag with
      | TkGt => Done (only (mkComparator OpGt (Partial_min version)))
      | TkGte => Done (only (mkComparator OpGte (Partial_min version)))
      | TkLt => Done (only (mkComparator OpLt (Partial_min version)))
      | TkLte => Done (only (mkComparator OpLte (Partial_min version)))
      | _ => Panic
      end
  end.

Definition to_range (token : Token) (version : Partial) : outcome Range :=
  match token.(tk_tag) with
  | TkCaret => Done (caret_range version)
  | TkTilda => Done (tilda_range version)
  | TkNone => Panic
  | TkVersion =>
      if negb (bool_decide (token.(tk_wildcard) = WNone))
      then Done (init_wildcard (Partial_min version) token.(tk_wildcard))
      else Done (only (mkComparator OpEql (Partial_min version)))
  | tag => comparator_range tag token.(tk_wildcard) version
  end.

(** ** Parsing *)

Definition skip_spaces (input : bytes) (i : nat) : nat := skip_while (fun c => c =? 32) input i.

(** What the [match input[i]] leaves: the index, the tag, [is_or] and [skip_round]. *)
Record Scan : Type := mkScanned { sn_i : nat; sn_tag : TokenTag; sn_is_or : bool; sn_skip : bool }.

Definition scan_token (input : bytes) (i : nat) (c : Z) (tag : TokenTag) (is_or : bool) : Scan :=
  if c =? 62 then
    let '(tag, i) := if char_at input (S i) 61 then (TkGte, S i) else (TkGt, i) in
    mkScanned (skip_spaces input (S i)) tag is_or false
  else if c =? 60 then
    let '(tag, i) := if char_at input (S i) 61 then (TkLte, S i) else (TkLt, i) in
    mkScanned (skip_spaces input (S i)) tag is_or false
  else if (c =? 61) || (c =? 118) then mkScanned (skip_spaces input (S i)) TkVersion true false
  else if c =? 126 then
    let i := S i in
    let i := if char_at input i 62 then S i else i in
    mkScanned (skip_spaces input i) TkTilda is_or false
  else if c =? 94 then mkScanned (skip_spaces input (S i)) TkCaret is_or false
  else if is_ascii_digit c || is_x c then mkScanned i TkVersion true false
  else if c =? 124 then
    let i := skip_while (fun c => c =? 124) input (S i) in
    mkScanned (skip_spaces input i) TkNone true true
  else if c =? 45 then mkScanned (skip_spaces input (S i)) tag is_or false
  else if c =? 32 then mkScanned (skip_spaces input (S i)) tag is_or true
  else mkScanned (skip_while (fun c => negb (c =? 32) && negb (c =? 124)) input (S i)) TkNone is_or true.

Definition set_flags (g : Group) (t : Tag) : Group :=
  let flags := g.(g_flags) in
  let flags := if has_build t then FlagsBitSet_set flags Flags_BUILD else flags in
  let flags := if has_pre t then FlagsBitSet_set flags Flags_PRE else flags in
  mkGroup g.(g_head) g.(g_tail) g.(g_input) flags.

Definition skip_ws (input : bytes) (i : nat) : nat :=
  (i + length_of_leading_whitespace_ascii (drop i input))%nat.

(** The block ['possibly_hyphenate]: the index of the second version when there is one. *)
Definition possibly_hyphenate (input : bytes) (i : nat) : option nat :=
  let i := skip_ws input i in
  if negb (char_at input i 45) then None
  else
    let i := skip_ws input (S i) in
    if (i =? length input)%nat then None
    else
      let i := if char_at input i 118 || char_at input i 61 then S i else i in
      if (i =? length input)%nat then None
      else
        let i := skip_ws input i in
        if (i =? length input)%nat then None
        else match input !! i with
             | Some c => if is_ascii_digit c || is_x c then Some i else None
             | None => None
             end.

Definition hyphen_range (version : Version) (second_wildcard : Wildcard) (second_version : Version) : Range :=
  let l := mkComparator OpGte version in
  match second_wildcard with
  | WMajor => only l
  | WMinor =>
      mkRange l (match checked_succ64 second_version.(major) with
                 | Some m => mkComparator OpLt (mkVersion m 0 0 second_version.(tag))
                 | None => lt_next_major second_version.(major)
                 end)
  | WPatch =>
      mkRange l (match checked_succ64 second_version.(minor) with
                 | Some m => mkComparator OpLt (mkVersion second_version.(major) m 0 second_version.(tag))
                 | None => lt_next_minor second_version.(major) second_version.(minor)
                 end)
  | WNone => mkRange l (mkComparator OpLte second_version)
  end.

(** The variables of the main loop. *)
Record QState : Type := mkQS {
  qs_i : nat;
  qs_list : Group;
  qs_token : Token;
  qs_count : Z;
  qs_is_or : bool;
}.

(** The comparator that was just parsed joins the group. *)
Definition add_comparator (list : Group) (token : Token) (count : Z) (is_or : bool) (version : Partial)
    : outcome Group :=
  if (count =? 0) && bool_decide (token.(tk_tag) = TkVersion) then
    if bool_decide (token.(tk_wildcard) = WNone) then or_version list (Partial_min version)
    else let! r := to_range token version in or_range list r
  else if count =? 0 then let! r := to_range token version in and_range list r
  else if is_or then let! r := to_range token version in or_range list r
  else let! r := to_range token version in and_range list r.

(** The body of [if !skip_round]. *)
Definition parse_comparator (s : SlicedString) (input : bytes) (i : nat) (tag : TokenTag) (is_or : bool)
    (list : Group) (count : Z) : outcome QState :=
  let! parse_result := Version_parse VersionInt_u64 (Sliced_sub s i (length input)) in
  let version := Partial_min parse_result.(pr_version) in
  let list := set_flags list version.(SemverVersion.tag) in
  let token := mkToken tag parse_result.(pr_wildcard) in
  let i := (i + Z.to_nat parse_result.(pr_len))%nat in
  let hyphen := if char_at input i 32 || char_at input i 45 then possibly_hyphenate input i else None in
  match hyphen with
  | Some i =>
      let! second_parsed := Version_parse VersionInt_u64 (Sliced_sub s i (length input)) in
      let second_version := Partial_min second_parsed.(pr_version) in
      let list := set_flags list second_version.(SemverVersion.tag) in
      let range := hyphen_range version second_parsed.(pr_wildcard) second_version in
      let! list := (if is_or then or_range list range else and_range list range) in
      Done (mkQS (i + Z.to_nat second_parsed.(pr_len) + 1) list (mkToken tag WNone) (wadd32 count 1) false)
  | None =>
      let i := (i + 1)%nat in
      if bool_decide (tag = TkNone) then Done (mkQS i list (mkToken tag WNone) count is_or)
      else
        let! list := add_comparator list token count is_or parse_result.(pr_version) in
        Done (mkQS i list (mkToken tag WNone) (wadd32 count 1) false)
  end.

(** [while i < input.len()]; every round advances [i]. *)
Fixpoint query_loop (fuel : nat) (s : SlicedString) (input : bytes) (st : QState) : outcome Group :=
  match input !! st.(qs_i) with
  | None => Done st.(qs_list)
  | Some c =>
      match fuel with
      | O => NoFuel
      | S fuel' =>
          let sn := scan_token input st.(qs_i) c st.(qs_token).(tk_tag) st.(qs_is_or) in
          if sn.(sn_skip) then
            query_loop fuel' s input
              (mkQS sn.(sn_i) st.(qs_list) (mkToken sn.(sn_tag) st.(qs_token).(tk_wildcard)) st.(qs_count) sn.(sn_is_or))
          else
            let! st' := parse_comparator s input sn.(sn_i) sn.(sn_tag) sn.(sn_is_or) st.(qs_list) st.(qs_count) in
            query_loop fuel' s input st'
      end
  end.

(** [parse(input, sliced)] where [input] is the window of [sliced]. *)
Definition query_parse (s : SlicedString) : outcome Group :=
  let input := ss_slice s in
  query_loop (length input) s input (mkQS 0 (mkGroup List_default None input 0) Token_default 0 false).

(** ** Intersection *)

Record Bound : Type := mkBound { b_version : Version; b_buf : bytes; b_inclusive : bool }.
Record Interval : Type := mkInterval { lower : option Bound; upper : option Bound }.
Definition Interval_default : Interval := mkInterval None None.

Definition raise (iv : Interval) (b : Bound) : Interval :=
  let replace :=
    match iv.(lower) with
    | None => true
    | Some cur =>
        match order_without_build b.(b_version) cur.(b_version) b.(b_buf) cur.(b_buf) with
        | Gt => true
        | Eq => negb b.(b_inclusive)
        | Lt => false
        end
    end in
  if replace then mkInterval (Some b) iv.(upper) else iv.

Definition cap (iv : Interval) (b : Bound) : Interval :=
  let replace :=
    match iv.(upper) with
    | None => true
    | Some cur =>
        match order_without_build b.(b_version) cur.(b_version) b.(b_buf) cur.(b_buf) with
        | Lt => true
        | Eq => negb b.(b_inclusive)
        | Gt => false
        end
    end in
  if replace then mkInterval iv.(lower) (Some b) else iv.

Definition narrow (iv : Interval) (c : Comparator) (buf : bytes) : Interval :=
  let bound inclusive := mkBound c.(c_version) buf inclusive in
  match c.(c_op) with
  | OpUnset => iv
  | OpEql => cap (raise iv (bound true)) (bound true)
  | OpGt => raise iv (bound false)
  | OpGte => raise iv (bound true)
  | OpLt => cap iv (bound false)
  | OpLte => cap iv (bound true)
  end.

Fixpoint and_query (iv : Interval) (query : Query) (buf : bytes) : Interval :=
  match query with
  | mkQuery r next =>
      let iv := narrow (narrow iv r.(left) buf) r.(right) buf in
      match next with Some q => and_query iv q buf | None => iv end
  end.

Definition is_non_empty (iv : Interval) : bool :=
  match iv.(lower), iv.(upper) with
  | Some l, Some u =>
      match order_without_build l.(b_version) u.(b_version) l.(b_buf) u.(b_buf) with
      | Lt => true
      | Eq => l.(b_inclusive) && u.(b_inclusive)
      | Gt => false
      end
  | _, _ => true
  end.

(** The inner [while]: some list of [other] keeps [base] non-empty. *)
Fixpoint intersects_inner (base : Interval) (b : List) (other_buf : bytes) : bool :=
  match b with
  | mkList head _ next =>
      if is_non_empty (and_query base head other_buf) then true
      else match next with Some l => intersects_inner base l other_buf | None => false end
  end.

Fixpoint intersects_outer (a : List) (self_buf : bytes) (other : List) (other_buf : bytes) : bool :=
  match a with
  | mkList head _ next =>
      let rest := match next with Some l => intersects_outer l self_buf other other_buf | None => false end in
      let base := and_query Interval_default head self_buf in
      if negb (is_non_empty base) then rest
      else if intersects_inner base other other_buf then true else rest
  end.

Definition intersects (g : Group) (self_buf : bytes) (other : Group) (other_buf : bytes) : bool :=
  intersects_outer g.(g_head) self_buf other.(g_head) other_buf.

(** ** The chains as lists

    A query is the list of its ranges, a list of queries the list of its
    alternatives: a disjunction of conjunctions. *)

Fixpoint ranges (q : Query) : list Range :=
  match q with
  | mkQuery r (Some node) => r :: ranges node
  | mkQuery r None => [r]
  end.

Fixpoint alternatives (l : List) : list (list Range) :=
  match l with
  | mkList head _ (Some node) => ranges head :: alternatives node
  | mkList head _ None => [ranges head]
  end.

Definition dnf (g : Group) : list (list Range) := alternatives g.(g_head).

Section QueryInd.
Context (P : Query -> Prop).
Context (Hlast : forall r, P (mkQuery r None)).
Context (Hnext : forall r q, P q -> P (mkQuery r (Some q))).
Fixpoint Query_chain_ind (q : Query) : P q :=
  match q with
  | mkQuery r (Some node) => Hnext r node (Query_chain_ind node)
  | mkQuery r None => Hlast r
  end.
End QueryInd.

Section ListInd.
Context (P : List -> Prop).
Context (Hlast : forall h t, P (mkList h t None)).
Context (Hnext : forall h t l, P l -> P (mkList h t (Some l))).
Fixpoint List_chain_ind (l : List) : P l :=
  match l with
  | mkList h t (Some node) => Hnext h t node (List_chain_ind node)
  | mkList h t None => Hlast h t
  end.
End ListInd.

Lemma ranges_cons q : exists rest, ranges q = q_range q :: rest.
Proof. destruct q as [r [n|]]; eauto. Qed.

Lemma ranges_single q : q_next q = None <-> ranges q = [q_range q].
Proof. destruct q as [r [n|]]; cbn; [|done]. split; [done|]. destruct (ranges_cons n) as [rest ->]. done. Qed.

Lemma alternatives_cons l : exists rest, alternatives l = ranges (l_head l) :: rest.
Proof. destruct l as [h t [n|]]; cbn; eauto. Qed.

Lemma length_ranges q : length (ranges q) = S (Query_depth q).
Proof. induction q as [r|r q IH] using Query_chain_ind; cbn; [done|by rewrite IH]. Qed.

Lemma length_alternatives l : length (alternatives l) = S (List_depth l).
Proof. induction l as [h t|h t l IH] using List_chain_ind; cbn; [done|by rewrite IH]. Qed.

(** *** Satisfaction is the meaning of the disjunction of conjunctions *)

Definition conj_satisfies (alt : list Range) (v : Version) (gb vb : bytes) : bool :=
  forallb (fun r => Range_satisfies r v gb vb) alt.

(** Some comparator in force names a pre-release of [v]'s numbers. *)
Definition allows_pre (alt : list Range) (v : Version) : bool :=
  existsb (fun r => has_left r && (pre_match r.(left) v || (has_right r && pre_match r.(right) v))) alt.

Lemma Query_satisfies_spec q v gb vb : Query_satisfies q v gb vb = conj_satisfies (ranges q) v gb vb.
Proof.
  induction q as [r|r q IH] using Query_chain_ind; cbn [Query_satisfies ranges conj_satisfies forallb].
  - by destruct (Range_satisfies _ _ _ _).
  - rewrite IH. by destruct (Range_satisfies _ _ _ _).
Qed.

Lemma Query_satisfies_pre_spec q v gb vb pm :
  let (ok, pm') := Query_satisfies_pre q v gb vb pm in
  ok = conj_satisfies (ranges q) v gb vb /\ (ok = true -> pm' = pm || allows_pre (ranges q) v).
Proof.
  revert pm. induction q as [r|r q IH] using Query_chain_ind; intros pm;
    cbn [Query_satisfies_pre ranges conj_satisfies allows_pre forallb existsb]; rewrite Range_satisfies_pre_spec.
  - destruct (Range_satisfies _ _ _ _); cbn [negb andb]; [|done]. by rewrite orb_false_r.
  - destruct (Range_satisfies _ _ _ _); cbn [negb andb]; [|done].
    specialize (IH (pm || (has_left r && (pre_match (left r) v || (has_right r && pre_match (right r) v))))).
    destruct (Query_satisfies_pre q _ _ _ _) as [ok pm']. destruct IH as [IH1 IH2]. split; [done|].
    intros Hok. rewrite IH2 by done. by rewrite <- orb_assoc.
Qed.

Lemma List_satisfies_spec l v gb vb :
  List_satisfies l v gb vb = existsb (fun alt => conj_satisfies alt v gb vb) (alternatives l).
Proof.
  induction l as [h t|h t l IH] using List_chain_ind; cbn [List_satisfies alternatives existsb];
    rewrite Query_satisfies_spec; [|rewrite IH]; by destruct (conj_satisfies _ _ _ _).
Qed.

Lemma List_satisfies_pre_spec l v gb vb :
  List_satisfies_pre l v gb vb =
  existsb (fun alt => conj_satisfies alt v gb vb && allows_pre alt v) (alternatives l).
Proof.
  induction l as [h t|h t l IH] using List_chain_ind; cbn [List_satisfies_pre alternatives existsb];
    pose proof (Query_satisfies_pre_spec h v gb vb false) as H;
    destruct (Query_satisfies_pre h v gb vb false) as [ok pm]; destruct H as [-> H];
    destruct (conj_satisfies _ _ _ _); cbn [andb orb] in *; rewrite ?H by done; rewrite ?IH; cbn [orb];
    by destruct (allows_pre _ _).
Qed.

(** *** The back pointers *)

Fixpoint list_inv (l : List) : Prop :=
  match l with
  | mkList head tail next =>
      tail = cloned_tail head /\ match next with Some node => list_inv node | None => True end
  end.

Definition last_list (l : List) : option nat :=
  match l_next l with Some _ => Some (List_depth l) | None => None end.

(** Every back pointer points to the last node of its chain. *)
Definition group_inv (g : Group) : Prop :=
  list_inv g.(g_head) /\ g.(g_tail) = last_list g.(g_head).

Lemma cloned_tail_depth q : default O (cloned_tail q) = Query_depth q.
Proof. by destruct q as [r [n|]]. Qed.

Lemma last_list_depth l : default O (last_list l) = List_depth l.
Proof. by destruct l as [h t [n|]]. Qed.

Lemma Query_set_next_last q r :
  exists q', Query_set_next q (Query_depth q) (mkQuery r None) = Done q' /\
    ranges q' = ranges q ++ [r] /\ cloned_tail q' = Some (S (Query_depth q)) /\ q_range q' = q_range q.
Proof.
  induction q as [r0|r0 q IH] using Query_chain_ind; cbn [Query_depth Query_set_next ranges].
  - eexists. by split_and!.
  - destruct IH as (q' & -> & Hr & Ht & _). cbn [obind]. eexists. split_and!; [done| |..|done].
    + cbn. by rewrite Hr.
    + unfold cloned_tail in *. cbn. apply (f_equal length) in Hr. rewrite length_ranges, length_app, length_ranges in Hr.
      cbn in Hr. f_equal. lia.
Qed.

(** AND on one alternative: an unset first range is overwritten. *)
Definition conj_and (alt : list Range) (r : Range) : list Range :=
  match alt with
  | r0 :: rest => if negb (has_left r0) && negb (has_right r0) then r :: rest else alt ++ [r]
  | [] => [r]
  end.

Lemma List_and_range_spec h t n r :
  t = cloned_tail h ->
  exists h' t', List_and_range (mkList h t n) r = Done (mkList h' t' n) /\
    t' = cloned_tail h' /\ ranges h' = conj_and (ranges h) r.
Proof.
  intros ->. unfold List_and_range. destruct (ranges_cons h) as [rest Hr].
  destruct (negb (has_left (q_range h)) && negb (has_right (q_range h))) eqn:E.
  - eexists _, _. split_and!; [done|by destruct h as [r0 [q|]]|].
    rewrite Hr. cbn [conj_and]. rewrite E. by destruct h as [r0 [q|]]; inversion Hr.
  - rewrite cloned_tail_depth. destruct (Query_set_next_last h r) as (h' & -> & Hh & Ht & _). cbn [obind].
    eexists _, _. split_and!; [done|done|]. rewrite Hh, Hr. cbn [conj_and]. by rewrite E.
Qed.

(** Rewriting the last alternative. *)
Fixpoint map_last {A : Type} (f : A -> A) (l : list A) : list A :=
  match l with
  | [] => []
  | [x] => [f x]
  | x :: rest => x :: map_last f rest
  end.

Lemma List_update_and l r :
  list_inv l ->
  exists l', List_update l (List_depth l) (fun l => List_and_range l r) = Done l' /\
    list_inv l' /\ alternatives l' = map_last (fun alt => conj_and alt r) (alternatives l) /\
    List_depth l' = List_depth l /\ (l_next l = None <-> l_next l' = None).
Proof.
  induction l as [h t|h t l IH] using List_chain_ind; intros [Ht Hl]; cbn [List_depth List_update].
  - destruct (List_and_range_spec h t None r Ht) as (h' & t' & -> & Ht' & Hr).
    eexists. split; [done|]. cbn. by rewrite Hr.
  - destruct (IH Hl) as (l' & -> & Hl' & Ha & Hd & _). cbn [obind]. eexists. split; [done|]. cbn. rewrite Hd, Ha.
    destruct (alternatives_cons l) as [rest ->]. by split_and!.
Qed.

Lemma List_update_push l new :
  list_inv l -> list_inv new -> l_next new = None ->
  exists l', List_update l (List_depth l) (fun l => Done (mkList (l_head l) (l_tail l) (Some new))) = Done l' /\
    list_inv l' /\ alternatives l' = alternatives l ++ alternatives new /\ last_list l' = Some (S (List_depth l)).
Proof.
  intros Hl Hnew Hn. destruct new as [nh nt [?|]]; [done|]. revert Hl.
  induction l as [h t|h t l IH] using List_chain_ind; intros [Ht Hl]; cbn [List_depth List_update].
  - eexists. by split_and!.
  - destruct (IH Hl) as (l' & -> & Hl' & Ha & Hd). cbn [obind]. eexists. split_and!; [done|done|..].
    + cbn. by rewrite Ha.
    + unfold last_list in *. cbn. destruct (l_next l') eqn:E; [|done]. by injection Hd as ->.
Qed.

(** *** The abstract operations on disjunctions

    What [or_version], [and_range] and [or_range] do to the disjunction. An
    unset first range stands for "nothing parsed yet" and is overwritten. *)

Definition spec_and (d : list (list Range)) (r : Range) : list (list Range) :=
  map_last (fun alt => conj_and alt r) d.

Definition spec_or (d : list (list Range)) (r : Range) : list (list Range) :=
  match d with
  | [[r0]] => if has_left r0 then d ++ [[r]] else [[r]]
  | _ => d ++ [[r]]
  end.

Definition spec_or_version (d : list (list Range)) (version : Version) : list (list Range) :=
  match d with
  | [r0 :: rest] =>
      if has_left r0 then d ++ [[only (mkComparator OpEql version)]]
      else [mkRange (mkComparator OpEql version) r0.(right) :: rest]
  | _ => d ++ [[only (mkComparator OpEql version)]]
  end.

Lemma last_list_is_none l : is_none (last_list l) = true <-> exists h t, l = mkList h t None.
Proof. destruct l as [h t [n|]]; cbn; naive_solver. Qed.

Lemma push_list_spec g r :
  group_inv g ->
  exists g', push_list g (mkList (mkQuery r None) None None) = Done g' /\ group_inv g' /\
    dnf g' = dnf g ++ [[r]] /\ g_flags g' = g_flags g.
Proof.
  intros [Hl Ht]. unfold push_list. rewrite Ht, last_list_depth.
  destruct (List_update_push (g_head g) (mkList (mkQuery r None) None None)) as (l' & -> & Hl' & Ha & Hd); [done..|].
  cbn [obind]. eexists. by split_and!.
Qed.

Lemma and_range_spec g r :
  group_inv g ->
  exists g', and_range g r = Done g' /\ group_inv g' /\ dnf g' = spec_and (dnf g) r /\ g_flags g' = g_flags g.
Proof.
  intros [Hl Ht]. unfold and_range. rewrite Ht, last_list_depth.
  destruct (List_update_and (g_head g) r Hl) as (l' & -> & Hl' & Ha & Hd & Hn). cbn [obind].
  eexists. split_and!; [done|split; cbn; [done|]|done|done].
  unfold last_list. rewrite Hd. destruct (l_next (g_head g)), (l_next l'); naive_solver.
Qed.

Lemma or_range_spec g r :
  group_inv g ->
  exists g', or_range g r = Done g' /\ group_inv g' /\ dnf g' = spec_or (dnf g) r /\ g_flags g' = g_flags g.
Proof.
  intros Hg. pose proof Hg as [Hl Ht]. unfold or_range, dnf, first_range, with_head_range.
  destruct (push_list_spec g r Hg) as (g' & Hp & Hg' & Hd & Hf). rewrite Hp, Ht. unfold dnf in Hd.
  destruct (g_head g) as [[r0 [q|]] t [n|]] eqn:E; destruct Hl as [-> _]; cbn in *;
    try (exists g'; split_and!; try done; rewrite Hd; destruct (ranges_cons q) as [rest ->] || destruct (alternatives_cons n) as [rest ->]; done).
  destruct (has_left r0); cbn; [exists g'; by split_and!|]. eexists. by split_and!.
Qed.

Lemma or_version_spec g v :
  group_inv g ->
  exists g', or_version g v = Done g' /\ group_inv g' /\ dnf g' = spec_or_version (dnf g) v /\ g_flags g' = g_flags g.
Proof.
  intros Hg. pose proof Hg as [Hl Ht]. unfold or_version, dnf, first_range, with_head_range.
  destruct (push_list_spec g (only (mkComparator OpEql v)) Hg) as (g' & Hp & Hg' & Hd & Hf). rewrite Hp, Ht. unfold dnf in Hd.
  destruct (g_head g) as [[r0 [q|]] t [n|]] eqn:E; destruct Hl as [-> _]; cbn in *;
    try (exists g'; split_and!; try done; rewrite Hd; destruct (alternatives_cons n) as [rest ->]; done).
  - destruct (has_left r0); cbn; [exists g'; by split_and!|]. eexists. by split_and!.
  - destruct (has_left r0); cbn; [exists g'; by split_and!|]. eexists. by split_and!.
Qed.

(** *** Cloning *)

Lemma Query_clone_id q : Query_clone q = q.
Proof. induction q as [r|r q IH] using Query_chain_ind; cbn; [done|by rewrite IH]. Qed.

Lemma List_clone_id l : list_inv l -> List_clone l = l.
Proof.
  induction l as [h t|h t l IH] using List_chain_ind; intros [-> Hl]; cbn; rewrite Query_clone_id; [done|].
  by rewrite IH.
Qed.

Lemma Group_clone_id g : group_inv g -> Group_clone g = g.
Proof.
  intros [Hl Ht]. unfold Group_clone. rewrite List_clone_id by done. destruct g as [h t i f]. cbn in *. by rewrite Ht.
Qed.

(** *** Well-formed ranges *)

Definition wf_dnf (d : list (list Range)) : Prop := Forall (Forall wf_range) d.

Lemma wf_range_only c : wf_comparator c -> c.(c_op) <> OpUnset -> wf_range (only c).
Proof.
  intros Hc Hop. split_and!; [done|apply wf_version_default|done].
Qed.

Lemma wf_range_both l r : wf_comparator l -> wf_comparator r -> l.(c_op) <> OpUnset -> wf_range (mkRange l r).
Proof.
  intros Hl Hr Hop. split_and!; [done..|]. intros _. unfold has_left. cbn. by rewrite bool_decide_false.
Qed.

Lemma wf_range_default : wf_range Range_default.
Proof. split_and!; [apply wf_version_default..|done]. Qed.

Lemma spec_and_wf d r : wf_dnf d -> wf_range r -> wf_dnf (spec_and d r).
Proof.
  intros Hd Hr. unfold spec_and. induction Hd as [|alt d Ha Hd IH]; [constructor|].
  destruct d as [|alt' d]; [|constructor; done]. constructor; [|constructor].
  destruct Ha as [|r0 rest]; cbn; [by constructor|]. case_if; [by constructor|].
  constructor; [done|]. apply Forall_app_2; [done|by constructor].
Qed.

Lemma wf_dnf_single r : wf_range r -> wf_dnf [[r]].
Proof. intros. constructor; [constructor; [done|constructor]|constructor]. Qed.

Lemma spec_or_wf d r : wf_dnf d -> wf_range r -> wf_dnf (spec_or d r).
Proof.
  intros Hd Hr. assert (wf_dnf (d ++ [[r]])) as H by (apply Forall_app_2; [done|by apply wf_dnf_single]).
  destruct d as [|[|r0 [|r1 alt]] [|a' d]]; cbn in *; try done. case_if; [done|by apply wf_dnf_single].
Qed.

Lemma spec_or_version_wf d v : wf_dnf d -> wf_version v -> wf_dnf (spec_or_version d v).
Proof.
  intros Hd Hv. assert (wf_range (only (mkComparator OpEql v))) as Hr by (by apply wf_range_only).
  assert (wf_dnf (d ++ [[only (mkComparator OpEql v)]])) as H by (apply Forall_app_2; [done|by apply wf_dnf_single]).
  destruct d as [|[|r0 alt] [|a' d]]; cbn in *; try done. case_if; [done|].
  pose proof (Forall_inv Hd) as Ha. pose proof (Forall_inv Ha) as (_ & Hright & _).
  pose proof (Forall_inv_tail Ha). constructor; [|constructor]. constructor; [|done]. by apply wf_range_both.
Qed.

Lemma wf_partial_min p : wf_partial p -> wf_version (Partial_min p).
Proof.
  intros (H1 & H2 & H3 & Ht).
  assert (forall o, (forall z, o = Some z -> is_u64 z) -> is_u64 (default 0 o)) as Hd
    by (intros [z|] H; [by apply H|apply is_u64_0]).
  by split_and!; cbn; try apply Hd.
Qed.

#[export] Hint Resolve wf_range_only wf_range_both wf_range_default wf_partial_min
  lt_next_major_wf lt_next_minor_wf lt_next_patch_wf : bun.

Lemma caret_range_wf p : wf_partial p -> wf_range (caret_range p).
Proof.
  intros Hw. pose proof Hw as (H1 & H2 & H3 & Ht). unfold caret_range.
  destruct (pa_major p) as [M|]; [|apply wf_range_default]. specialize (H1 M eq_refl).
  destruct (pa_minor p) as [m|]; [specialize (H2 m eq_refl)|by apply wf_range_both; auto with bun; apply wf_plain; auto with bun].
  destruct (pa_patch p) as [k|]; [specialize (H3 k eq_refl)|]; repeat case_if;
    apply wf_range_both; auto with bun; solve [by split_and! | apply wf_plain; auto with bun].
Qed.

Lemma tilda_range_wf p : wf_partial p -> wf_range (tilda_range p).
Proof.
  intros Hw. pose proof Hw as (H1 & H2 & H3 & Ht). unfold tilda_range.
  destruct (pa_major p) as [M|]; [|apply wf_range_default]. specialize (H1 M eq_refl).
  destruct (pa_minor p) as [m|]; [specialize (H2 m eq_refl)|by apply wf_range_both; auto with bun; apply wf_plain; auto with bun].
  destruct (pa_patch p) as [k|]; [specialize (H3 k eq_refl)|];
    apply wf_range_both; auto with bun; solve [by split_and! | apply wf_plain; auto with bun].
Qed.

Lemma init_wildcard_wf v w : wf_version v -> wf_range (init_wildcard v w).
Proof.
  intros Hv. pose proof Hv as (HM & Hm & Hp & Ht). destruct w; cbn [init_wildcard].
  - by apply wf_range_only.
  - apply wf_range_only; [apply wf_version_default|done].
  - apply wf_range_both; [auto with bun|apply wf_plain; auto with bun|apply (has_left_lt_next _ 0 0)].
  - apply wf_range_both; [auto with bun|apply wf_plain; auto with bun|apply (has_left_lt_next _ _ 0)].
Qed.

Lemma default_u64 o : (forall z, o = Some z -> is_u64 z) -> is_u64 (default 0 o).
Proof. destruct o; cbn; [auto|]. intros _. apply is_u64_0. Qed.

Lemma to_range_wf token p :
  token.(tk_tag) <> TkNone -> wf_partial p -> exists r, to_range token p = Done r /\ wf_range r.
Proof.
  intros Ht Hp. pose proof (wf_partial_min p Hp) as Hmin. pose proof Hp as (H1 & H2 & H3 & _).
  apply default_u64 in H1, H2, H3. unfold to_range, comparator_range.
  assert (forall r : Range, wf_range r -> exists r', Done r = Done r' /\ wf_range r') as Hdone by eauto.
  assert (wf_comparator (mkComparator OpLte (plain u64_MAX u64_MAX u64_MAX))) by (by apply wf_plain; auto with bun).
  destruct (tk_tag token); try done; try (case_if; apply Hdone; by auto using init_wildcard_wf, wf_range_only);
    try (apply Hdone; by auto using caret_range_wf, tilda_range_wf);
    destruct (tk_wildcard token); apply Hdone;
    solve [apply wf_range_only; [first [exact Hmin | apply wf_plain; auto with bun]|done]
          |apply wf_range_both; [exact Hmin|done|done]].
Qed.

Lemma hyphen_range_wf v w v2 : wf_version v -> wf_version v2 -> wf_range (hyphen_range v w v2).
Proof.
  intros Hv Hv2. pose proof Hv2 as (HM & Hm & Hp & Ht). destruct w; cbn [hyphen_range].
  - by apply wf_range_both.
  - by apply wf_range_only.
  - apply wf_range_both; [done| |done].
    destruct (checked_succ64_spec _ HM) as [(? & -> & ?)|[_ ->]]; [|auto with bun].
    split_and!; cbn -[Z.add]; auto with bun; apply Ht.
  - apply wf_range_both; [done| |done].
    destruct (checked_succ64_spec _ Hm) as [(? & -> & ?)|[_ ->]]; [|auto with bun].
    split_and!; cbn -[Z.add]; auto with bun; apply Ht.
Qed.

(** *** The parser never panics *)

Lemma scan_token_progress input i c tag is_or :
  input !! i = Some c ->
  let sn := scan_token input i c tag is_or in
  (i <= sn.(sn_i) <= length input)%nat /\ (sn.(sn_skip) = true -> i < sn.(sn_i))%nat.
Proof.
  intros Hc. apply lookup_lt_Some in Hc as Hi.
  assert (forall p j, (i < j <= length input)%nat -> (i < skip_while p input j <= length input)%nat) as Hskip.
  { intros p j Hj. pose proof (skip_while_bounds p input j). lia. }
  assert (forall j d, char_at input j d = true -> j < length input)%nat as Hat.
  { intros j d. unfold char_at. destruct (input !! j) eqn:E; [|done]. intros _. by apply lookup_lt_Some in E. }
  unfold scan_token, skip_spaces.
  destruct (char_at input (S i) 61) eqn:E1; [apply Hat in E1|];
    (destruct (char_at input (S i) 62) eqn:E2; [apply Hat in E2|]); repeat case_if; cbn [sn_i sn_skip];
    repeat match goal with
    | |- context [skip_while ?p input ?j] =>
        lazymatch j with context [skip_while] => fail | _ => idtac end;
        pose proof (Hskip p j ltac:(lia)); generalize dependent (skip_while p input j); intros
    end; (split; [lia|intros; done || lia]).
Qed.

Lemma possibly_hyphenate_bounds input i j :
  possibly_hyphenate input i = Some j -> (i <= length input)%nat -> (i <= j < length input)%nat.
Proof.
  unfold possibly_hyphenate. intros H Hi.
  assert (forall k, k <= skip_ws input k)%nat as Hskip by (intros k; unfold skip_ws; lia).
  pose proof (Hskip i). revert H. case_if; [done|]. pose proof (Hskip (S (skip_ws input i))).
  assert (forall k, (skip_ws input (S (skip_ws input i)) <= k)%nat ->
    match input !! skip_ws input k with
    | Some c => if is_ascii_digit c || is_x c then Some (skip_ws input k) else None
    | None => None
    end = Some j -> (i <= j < length input)%nat) as Hend.
  { intros k Hk. pose proof (Hskip k). destruct (input !! skip_ws input k) eqn:E; [|done]. case_if; [|done].
    intros [= <-]. apply lookup_lt_Some in E. lia. }
  repeat (case_if; try done); apply Hend; lia.
Qed.

Definition qstate_inv (st : QState) : Prop := group_inv st.(qs_list) /\ wf_dnf (dnf st.(qs_list)).

Lemma set_flags_inv g t : group_inv g -> wf_dnf (dnf g) -> group_inv (set_flags g t) /\ wf_dnf (dnf (set_flags g t)).
Proof. done. Qed.

Lemma add_comparator_inv g token count is_or p :
  group_inv g -> wf_dnf (dnf g) -> token.(tk_tag) <> TkNone -> wf_partial p ->
  exists g', add_comparator g token count is_or p = Done g' /\ group_inv g' /\ wf_dnf (dnf g').
Proof.
  intros Hg Hd Ht Hp. destruct (to_range_wf token p Ht Hp) as (r & Hr & Hwf).
  unfold add_comparator. rewrite Hr. cbn [obind].
  destruct (or_range_spec g r Hg) as (g1 & -> & Hg1 & Hd1 & _).
  destruct (and_range_spec g r Hg) as (g2 & -> & Hg2 & Hd2 & _).
  destruct (or_version_spec g (Partial_min p) Hg) as (g3 & -> & Hg3 & Hd3 & _).
  pose proof (spec_or_wf _ _ Hd Hwf). pose proof (spec_and_wf _ _ Hd Hwf).
  pose proof (spec_or_version_wf _ _ Hd (wf_partial_min p Hp)).
  repeat case_if; eexists; (split; [reflexivity|]); rewrite ?Hd1, ?Hd2, ?Hd3; done.
Qed.

Section ParserTotal.
Context (s : SlicedString) (Hs : wf_sliced s).

Lemma parse_at i :
  (i <= length (ss_slice s))%nat ->
  exists r, Version_parse VersionInt_u64 (Sliced_sub s i (length (ss_slice s))) = Done r /\
    0 <= r.(pr_len) /\ (i + Z.to_nat r.(pr_len) <= length (ss_slice s))%nat /\ wf_partial r.(pr_version).
Proof using Hs.
  intros Hi. pose proof (length_ss_slice s Hs) as Hl.
  destruct (Version_parse_inv (Sliced_sub s i (length (ss_slice s)))) as (r & Hr & Hlen & Hw);
    [apply wf_sliced_sub; (done || lia)|].
  rewrite ss_slice_sub, length_sub in Hlen by lia. exists r. split_and!; try done; lia.
Qed.

Lemma parse_comparator_inv i tag is_or g count :
  (i <= length (ss_slice s))%nat -> group_inv g -> wf_dnf (dnf g) ->
  exists st, parse_comparator s (ss_slice s) i tag is_or g count = Done st /\
    (i < st.(qs_i))%nat /\ qstate_inv st.
Proof using Hs.
  intros Hi Hg Hd. unfold parse_comparator.
  destruct (parse_at i Hi) as (r & -> & Hlen0 & Hlen & Hw). cbn [obind].
  set (j := (i + Z.to_nat (pr_len r))%nat). pose proof (wf_partial_min _ Hw) as Hmin.
  destruct (if _ || _ then possibly_hyphenate _ _ else None) as [k|] eqn:Eh.
  - assert (j <= k < length (ss_slice s))%nat as Hk.
    { destruct (_ || _); [|done]. by apply possibly_hyphenate_bounds; [|lia]. }
    destruct (parse_at k) as (r2 & -> & _ & Hlen2 & Hw2); [lia|]. cbn [obind].
    set (range := hyphen_range _ _ _). set (g' := set_flags _ _).
    assert (group_inv g' /\ wf_dnf (dnf g')) as [Hg' Hd'] by done.
    assert (wf_range range) as Hrange by (by apply hyphen_range_wf; [|apply wf_partial_min]).
    destruct (or_range_spec g' range Hg') as (g1 & -> & Hg1 & Hd1 & _).
    destruct (and_range_spec g' range Hg') as (g2 & -> & Hg2 & Hd2 & _).
    pose proof (spec_or_wf _ _ Hd' Hrange). pose proof (spec_and_wf _ _ Hd' Hrange).
    destruct is_or; cbn [obind]; eexists; (split; [reflexivity|]); (split; [cbn; lia|]);
      split; cbn; rewrite ?Hd1, ?Hd2; done.
  - case_bool_decide as Ht; [eexists; split; [reflexivity|]; split; [cbn; lia|done]|].
    destruct (add_comparator_inv (set_flags g (SemverVersion.tag (Partial_min (pr_version r)))) (mkToken tag (pr_wildcard r))
      count is_or (pr_version r)) as (g' & -> & Hg' & Hd'); [done..|].
    cbn [obind]. eexists. split; [reflexivity|]. split; [cbn; lia|done].
Qed.

Lemma query_loop_total fuel st :
  qstate_inv st -> (length (ss_slice s) <= fuel + st.(qs_i))%nat ->
  exists g, query_loop fuel s (ss_slice s) st = Done g /\ group_inv g /\ wf_dnf (dnf g).
Proof using Hs.
  revert st. induction fuel as [|fuel IH]; intros st [Hg Hd] Hf; cbn [query_loop];
    (destruct (ss_slice s !! qs_i st) as [c|] eqn:Ec; [|by eexists]).
  - apply lookup_lt_Some in Ec. lia.
  - pose proof (scan_token_progress _ _ _ (tk_tag (qs_token st)) (qs_is_or st) Ec) as [Hb Hp].
    set (sn := scan_token _ _ _ _ _) in *. destruct (sn_skip sn) eqn:Es.
    + specialize (Hp eq_refl). apply IH; [done|cbn; lia].
    + destruct (parse_comparator_inv (sn_i sn) (sn_tag sn) (sn_is_or sn) (qs_list st) (qs_count st))
        as (st' & -> & Hi & Hinv); [lia|done..|]. cbn [obind]. apply IH; [done|lia].
Qed.

Lemma query_parse_inv : exists g, query_parse s = Done g /\ group_inv g /\ wf_dnf (dnf g).
Proof using Hs.
  apply query_loop_total; [|cbn; lia]. split; [done|]. apply wf_dnf_single, wf_range_default.
Qed.
End ParserTotal.

(** ** What the range operators accept

    The releases that each operator accepts, as a table of inequalities: the
    meaning of node-semver, without upper bounds that could overflow. *)

Definition caret_accepts (p : Partial) (v : Version) : Prop :=
  match p.(pa_major), p.(pa_minor), p.(pa_patch) with
  | None, _, _ => True
  | Some M, None, _ => v.(major) = M
  | Some M, Some m, None => v.(major) = M /\ (if M =? 0 then v.(minor) = m else m <= v.(minor))
  | Some M, Some m, Some k =>
      v.(major) = M /\
      (if M =? 0 then v.(minor) = m /\ (if m =? 0 then v.(patch) = k else k <= v.(patch))
       else m < v.(minor) \/ (m = v.(minor) /\ k <= v.(patch)))
  end.

Definition tilda_accepts (p : Partial) (v : Version) : Prop :=
  match p.(pa_major), p.(pa_minor), p.(pa_patch) with
  | None, _, _ => True
  | Some M, None, _ => v.(major) = M
  | Some M, Some m, None => v.(major) = M /\ v.(minor) = m
  | Some M, Some m, Some k => v.(major) = M /\ v.(minor) = m /\ k <= v.(patch)
  end.

(** [M.x] or [M.m.x] as one of [>], [>=], [<], [<=]: compare what is given.
    Nothing is below or above [*]. *)
Definition partial_lt (w : Wildcard) (v u : Version) : Prop :=
  match w with
  | WMajor => False
  | WMinor => v.(major) < u.(major)
  | WPatch => v.(major) < u.(major) \/ (v.(major) = u.(major) /\ v.(minor) < u.(minor))
  | WNone => triple_lt v u
  end.

Definition compare_accepts (tag : TokenTag) (w : Wildcard) (u v : Version) : Prop :=
  match w, tag with
  | WMajor, (TkGt | TkLt) => False
  | WMajor, (TkGte | TkLte) => True
  | _, TkLt => partial_lt w v u
  | _, TkGte => ~ partial_lt w v u
  | WNone, TkGt => triple_lt u v \/ (triple_eq v u /\ has_pre u.(SemverVersion.tag) = true)
  | WNone, TkLte => triple_lt v u \/ (triple_eq v u /\ has_pre u.(SemverVersion.tag) = false)
  | _, TkGt => partial_lt w u v
  | _, TkLte => ~ partial_lt w u v
  | _, _ => False
  end.

Definition accepts (token : Token) (p : Partial) (v : Version) : Prop :=
  match token.(tk_tag) with
  | TkNone => False
  | TkCaret => caret_accepts p v
  | TkTilda => tilda_accepts p v
  | TkVersion =>
      match token.(tk_wildcard) with
      | WNone => triple_eq v (Partial_min p) /\ has_pre p.(pa_tag) = false
      | WMajor => True
      | WMinor => v.(major) = default 0 p.(pa_major)
      | WPatch => v.(major) = default 0 p.(pa_major) /\ v.(minor) = default 0 p.(pa_minor)
      end
  | tag => compare_accepts tag token.(tk_wildcard) (Partial_min p) v
  end.

(** The wildcard is the first part that is not given; nothing follows [*]. *)
Definition wildcard_fits (w : Wildcard) (p : Partial) : Prop :=
  match w with
  | WNone => is_Some p.(pa_major) /\ is_Some p.(pa_minor) /\ is_Some p.(pa_patch)
  | WMajor => p.(pa_major) = None /\ p.(pa_minor) = None /\ p.(pa_patch) = None
  | WMinor => is_Some p.(pa_major) /\ p.(pa_minor) = None
  | WPatch => is_Some p.(pa_major) /\ is_Some p.(pa_minor) /\ p.(pa_patch) = None
  end.

(** [>*] and [<*]. *)
Definition beyond_star (token : Token) : Prop :=
  token.(tk_wildcard) = WMajor /\ (token.(tk_tag) = TkGt \/ token.(tk_tag) = TkLt).

Section Accepts.
Context (v : Version) (Hv : wf_version v) (Hr : has_pre v.(tag) = false).

(** Reduces a two-comparator range to inequalities on numbers. *)
Ltac bounds :=
  rewrite Range_satisfies_both
    by solve [done | apply (has_left_lt_next _ 0 0) | apply (has_left_lt_next _ _ 0) | apply has_left_lt_next];
  rewrite ?gte_satisfies by solve [done | apply wf_plain; auto with bun | by split_and!];
  rewrite ?lt_next_major_satisfies, ?lt_next_minor_satisfies, ?lt_next_patch_satisfies by auto with bun;
  unfold triple_lt, triple_eq, is_u64 in *; cbn [major minor patch plain tag].

Lemma caret_range_satisfies p gb vb :
  wf_partial p -> Range_satisfies (caret_range p) v gb vb = true <-> caret_accepts p v.
Proof using Hv Hr.
  intros Hw. pose proof Hw as (H1 & H2 & H3 & Ht). pose proof Hv as (HvM & Hvm & Hvp & _).
  unfold caret_range, caret_accepts.
  destruct (pa_major p) as [M|]; [|done]. specialize (H1 M eq_refl).
  destruct (pa_minor p) as [m|]; [specialize (H2 m eq_refl)|bounds; lia].
  destruct (pa_patch p) as [k|]; [specialize (H3 k eq_refl)|].
  - destruct (Z.eqb_spec M 0) as [->|]; [destruct (Z.eqb_spec m 0) as [->|]|]; bounds; lia.
  - destruct (Z.eqb_spec M 0) as [->|]; bounds; lia.
Qed.

Lemma tilda_range_satisfies p gb vb :
  wf_partial p -> Range_satisfies (tilda_range p) v gb vb = true <-> tilda_accepts p v.
Proof using Hv Hr.
  intros Hw. pose proof Hw as (H1 & H2 & H3 & Ht). pose proof Hv as (HvM & Hvm & Hvp & _).
  unfold tilda_range, tilda_accepts.
  destruct (pa_major p) as [M|]; [|done]. specialize (H1 M eq_refl).
  destruct (pa_minor p) as [m|]; [specialize (H2 m eq_refl)|bounds; lia].
  destruct (pa_patch p) as [k|]; [specialize (H3 k eq_refl)|]; bounds; lia.
Qed.

Lemma gt_plain_satisfies a b c gb vb :
  is_u64 a -> is_u64 b -> is_u64 c ->
  Comparator_satisfies (mkComparator OpGt (plain a b c)) v gb vb = true <-> triple_lt (plain a b c) v.
Proof using Hv Hr.
  intros Ha Hb Hc. rewrite Comparator_satisfies_release by (done || by apply wf_plain). cbn.
  assert (has_pre Tag_default = true <-> False) as -> by done. tauto.
Qed.

Lemma comparator_range_satisfies tag w p gb vb r :
  wf_partial p -> wildcard_fits w p -> tag = TkGt \/ tag = TkGte \/ tag = TkLt \/ tag = TkLte ->
  comparator_range tag w p = Done r ->
  Range_satisfies r v gb vb = true <-> beyond_star (mkToken tag w) \/ compare_accepts tag w (Partial_min p) v.
Proof using Hv Hr.
  intros Hp Hfit. pose proof (wf_partial_min p Hp) as Hmin. pose proof Hp as (H1 & H2 & H3 & _).
  apply default_u64 in H1, H2, H3. pose proof Hv as (HvM & Hvm & Hvp & _).
  assert (Hnone : forall op, op <> OpUnset -> wf_comparator (mkComparator op (Partial_min p))) by (intros; exact Hmin).
  unfold comparator_range, beyond_star. cbn [tk_tag tk_wildcard]. destruct w.
  - intros [->|[->|[->| ->]]] [= <-]; rewrite Range_satisfies_only, Comparator_satisfies_release by auto; cbn [c_op c_version];
      unfold compare_accepts, partial_lt, triple_lt, triple_eq; intuition (congruence || lia).
  - intros Htag [= <-]. rewrite Range_satisfies_both, gte_satisfies, lte_plain_satisfies by auto with bun.
    destruct Hfit as (E1 & E2 & E3). unfold compare_accepts, triple_lt, is_u64, two64, u64_MAX, Partial_min in *.
    rewrite E1, E2, E3 in *. cbn. destruct Htag as [->|[->|[->| ->]]]; intuition lia.
  - intros [->|[->|[->| ->]]] [= <-]; rewrite Range_satisfies_only by done;
      rewrite ?gte_satisfies, ?lt_satisfies, ?gt_plain_satisfies, ?lte_plain_satisfies by auto with bun;
      unfold compare_accepts, partial_lt, triple_lt, is_u64, two64, u64_MAX in *; cbn in *; intuition (congruence || lia).
  - intros [->|[->|[->| ->]]] [= <-]; rewrite Range_satisfies_only by done;
      rewrite ?gte_satisfies, ?lt_satisfies, ?gt_plain_satisfies, ?lte_plain_satisfies by auto with bun;
      unfold compare_accepts, partial_lt, triple_lt, is_u64, two64, u64_MAX in *; cbn in *; intuition (congruence || lia).
Qed.

Lemma to_range_satisfies token p gb vb :
  token.(tk_tag) <> TkNone -> wf_partial p -> wildcard_fits token.(tk_wildcard) p ->
  exists r, to_range token p = Done r /\ (Range_satisfies r v gb vb = true <-> beyond_star token \/ accepts token p v).
Proof using Hv Hr.
  intros Ht Hp Hfit. destruct (to_range_wf token p Ht Hp) as (r & Hto & _). exists r. split; [done|].
  destruct token as [tag w]. unfold to_range, accepts in *. cbn [tk_tag tk_wildcard] in *.
  assert (tag = TkCaret \/ tag = TkTilda \/ tag = TkVersion -> ~ beyond_star (mkToken tag w)) as Hno.
  { unfold beyond_star. cbn. intros H [_ E]. destruct H as [->|[->| ->]]; naive_solver. }
  destruct tag; try done; try injection Hto as <-;
    try (eapply comparator_range_satisfies; [done|done|tauto|exact Hto]).
  - assert (r = init_wildcard (Partial_min p) w) as ->.
    { revert Hto. case_bool_decide as E; [rewrite E|]; cbn; congruence. }
    rewrite init_wildcard_satisfies by auto with bun. destruct w; tauto.
  - rewrite tilda_range_satisfies by done. tauto.
  - rewrite caret_range_satisfies by done. tauto.
Qed.
End Accepts.

Lemma hyphen_range_satisfies v1 w v2 v gb vb :
  wf_version v1 -> wf_version v2 -> wf_version v -> has_pre v.(tag) = false ->
  Range_satisfies (hyphen_range v1 w v2) v gb vb = true <->
  ~ triple_lt v v1 /\
  match w with
  | WMajor => True
  | WMinor => v.(major) <= v2.(major)
  | WPatch => v.(major) < v2.(major) \/ (v.(major) = v2.(major) /\ v.(minor) <= v2.(minor))
  | WNone => triple_lt v v2 \/ (triple_eq v v2 /\ has_pre v2.(tag) = false)
  end.
Proof.
  intros H1 H2 Hv Hr. pose proof H2 as (HM & Hm & Hp & Ht). pose proof Hv as (HvM & Hvm & Hvp & _).
  destruct w; cbn [hyphen_range].
  - rewrite Range_satisfies_both, gte_satisfies, Comparator_satisfies_release by done. done.
  - rewrite Range_satisfies_only, gte_satisfies by done. tauto.
  - destruct (checked_succ64_spec _ HM) as [(? & -> & ?)|[Hmax ->]].
    + rewrite Range_satisfies_both, gte_satisfies, lt_satisfies by (done || by split_and!; cbn -[Z.add]; auto with bun; apply Ht).
      unfold triple_lt, is_u64 in *. cbn -[Z.add]. lia.
    + rewrite Range_satisfies_both, gte_satisfies, lt_next_major_satisfies by (done || apply (has_left_lt_next _ 0 0)). done.
  - destruct (checked_succ64_spec _ Hm) as [(? & -> & ?)|[Hmax ->]].
    + rewrite Range_satisfies_both, gte_satisfies, lt_satisfies by (done || by split_and!; cbn -[Z.add]; auto with bun; apply Ht).
      unfold triple_lt, is_u64 in *. cbn -[Z.add]. lia.
    + rewrite Range_satisfies_both, gte_satisfies, lt_next_minor_satisfies by (done || apply (has_left_lt_next _ _ 0)). done.
Qed.

(** ** Intersection: lemmas

    The bounds that a conjunction puts on a version, and when a lower and an
    upper bound leave room for one. *)

Definition bound_key (b : Bound) := precedence b.(b_version) b.(b_buf).
Definition wf_bound (b : Bound) : Prop := wf_version b.(b_version).

Definition compatible (l u : Bound) : Prop :=
  match precedence_cmp (bound_key l) (bound_key u) with
  | Lt => True
  | Eq => b_inclusive l = true /\ b_inclusive u = true
  | Gt => False
  end.

Definition lower_bounds (c : Comparator) (buf : bytes) : list Bound :=
  match c.(c_op) with
  | OpEql | OpGte => [mkBound c.(c_version) buf true]
  | OpGt => [mkBound c.(c_version) buf false]
  | _ => []
  end.

Definition upper_bounds (c : Comparator) (buf : bytes) : list Bound :=
  match c.(c_op) with
  | OpEql | OpLte => [mkBound c.(c_version) buf true]
  | OpLt => [mkBound c.(c_version) buf false]
  | _ => []
  end.

Definition range_bounds (f : Comparator -> bytes -> list Bound) (buf : bytes) (r : Range) : list Bound :=
  f r.(left) buf ++ f r.(right) buf.
Definition conj_bounds (f : Comparator -> bytes -> list Bound) (alt : list Range) (buf : bytes) : list Bound :=
  concat (map (range_bounds f buf) alt).

(** [tight L o]: [o] is the tightest of the lower bounds [L]. *)
Definition tight_lower (L : list Bound) (o : option Bound) : Prop :=
  Forall wf_bound L /\ (forall l, o = Some l -> wf_bound l) /\
  forall u, wf_bound u ->
    Forall (fun l => compatible l u) L <-> match o with Some l => compatible l u | None => True end.
Definition tight_upper (U : list Bound) (o : option Bound) : Prop :=
  Forall wf_bound U /\ (forall u, o = Some u -> wf_bound u) /\
  forall l, wf_bound l ->
    Forall (fun u => compatible l u) U <-> match o with Some u => compatible l u | None => True end.

Lemma bound_order a b :
  wf_bound a -> wf_bound b ->
  order_without_build a.(b_version) b.(b_version) a.(b_buf) b.(b_buf) = precedence_cmp (bound_key a) (bound_key b).
Proof. apply order_without_build_spec. Qed.

(** The tighter of two lower bounds implies the other. *)
Lemma compatible_lower_weaken a b u :
  precedence_cmp (bound_key a) (bound_key b) <> Gt ->
  (precedence_cmp (bound_key a) (bound_key b) = Eq -> b_inclusive b = true -> b_inclusive a = true) ->
  compatible b u -> compatible a u.
Proof.
  unfold compatible. intros Hle Hinc Hb.
  destruct (precedence_cmp (bound_key a) (bound_key b)) eqn:E; [| |done].
  - rewrite (cmp_eq_l precedence_cmp _ _ _ E). destruct (precedence_cmp (bound_key b) (bound_key u)); naive_solver.
  - rewrite (cmp_lt_le_trans precedence_cmp _ _ _ E); [done|]. by destruct (precedence_cmp (bound_key b) (bound_key u)).
Qed.

Lemma compatible_upper_weaken a b l :
  precedence_cmp (bound_key b) (bound_key a) <> Gt ->
  (precedence_cmp (bound_key b) (bound_key a) = Eq -> b_inclusive b = true -> b_inclusive a = true) ->
  compatible l b -> compatible l a.
Proof.
  unfold compatible. intros Hle Hinc Hb.
  destruct (precedence_cmp (bound_key b) (bound_key a)) eqn:E; [| |done].
  - rewrite <- (cmp_eq_r precedence_cmp _ _ _ E). destruct (precedence_cmp (bound_key l) (bound_key b)); naive_solver.
  - rewrite (cmp_le_lt_trans precedence_cmp (bound_key l) (bound_key b) (bound_key a)); [done| |done].
    by destruct (precedence_cmp (bound_key l) (bound_key b)).
Qed.

Lemma raise_spec iv L b :
  tight_lower L iv.(lower) -> wf_bound b ->
  tight_lower (L ++ [b]) (raise iv b).(lower) /\ (raise iv b).(upper) = iv.(upper).
Proof.
  intros (HL & Ho & Ht) Hb. unfold raise. split; [|by case_if].
  split; [apply Forall_app_2; [done|by constructor]|].
  destruct (lower iv) as [cur|] eqn:El; cbn [lower].
  2:{ split; [by intros ? [= <-]|]. intros u Hu. rewrite Forall_app, Ht, Forall_singleton by done. tauto. }
  specialize (Ho cur eq_refl). rewrite bound_order by done.
  pose proof (cmp_antisym precedence_cmp (bound_key b) (bound_key cur)) as Hanti.
  assert (forall u, wf_bound u -> Forall (fun l => compatible l u) (L ++ [b]) <-> compatible cur u /\ compatible b u) as Hboth.
  { intros u Hu. by rewrite Forall_app, Ht, Forall_singleton by done. }
  destruct (precedence_cmp (bound_key b) (bound_key cur)) eqn:E; [destruct (b_inclusive b) eqn:Ei| |]; cbn [negb lower]; rewrite ?El;
    (split; [by intros ? [= <-]|]); intros u Hu; rewrite Hboth by done;
    (split; [tauto|]); intros Hc; (split; try exact Hc);
    eapply compatible_lower_weaken; try exact Hc; rewrite ?E, ?Hanti; cbn; (done || intros; congruence).
Qed.

Lemma cap_spec iv U b :
  tight_upper U iv.(upper) -> wf_bound b ->
  tight_upper (U ++ [b]) (cap iv b).(upper) /\ (cap iv b).(lower) = iv.(lower).
Proof.
  intros (HL & Ho & Ht) Hb. unfold cap. split; [|by case_if].
  split; [apply Forall_app_2; [done|by constructor]|].
  destruct (upper iv) as [cur|] eqn:El; cbn [upper].
  2:{ split; [by intros ? [= <-]|]. intros u Hu. rewrite Forall_app, Ht, Forall_singleton by done. tauto. }
  specialize (Ho cur eq_refl). rewrite bound_order by done.
  pose proof (cmp_antisym precedence_cmp (bound_key b) (bound_key cur)) as Hanti.
  assert (forall l, wf_bound l -> Forall (fun u => compatible l u) (U ++ [b]) <-> compatible l cur /\ compatible l b) as Hboth.
  { intros u Hu. by rewrite Forall_app, Ht, Forall_singleton by done. }
  destruct (precedence_cmp (bound_key b) (bound_key cur)) eqn:E; [destruct (b_inclusive b) eqn:Ei| |]; cbn [negb upper]; rewrite ?El;
    (split; [by intros ? [= <-]|]); intros u Hu; rewrite Hboth by done;
    (split; [tauto|]); intros Hc; (split; try exact Hc);
    eapply compatible_upper_weaken; try exact Hc; rewrite ?E, ?Hanti; cbn; (done || intros; congruence).
Qed.

Lemma narrow_spec iv L U c buf :
  tight_lower L iv.(lower) -> tight_upper U iv.(upper) -> wf_comparator c ->
  tight_lower (L ++ lower_bounds c buf) (narrow iv c buf).(lower) /\
  tight_upper (U ++ upper_bounds c buf) (narrow iv c buf).(upper).
Proof.
  intros HL HU Hc. assert (forall i, wf_bound (mkBound (c_version c) buf i)) as Hb by (intros; exact Hc).
  unfold narrow, lower_bounds, upper_bounds. destruct (c_op c); rewrite ?app_nil_r; try done.
  - destruct (raise_spec iv L _ HL (Hb true)) as [HL' HU']. rewrite <- HU' in HU.
    destruct (cap_spec _ U _ HU (Hb true)) as [HU'' ->]. done.
  - destruct (cap_spec iv U _ HU (Hb false)) as [? ->]. done.
  - destruct (cap_spec iv U _ HU (Hb true)) as [? ->]. done.
  - destruct (raise_spec iv L _ HL (Hb false)) as [? ->]. done.
  - destruct (raise_spec iv L _ HL (Hb true)) as [? ->]. done.
Qed.

Lemma and_query_spec q iv L U buf :
  tight_lower L iv.(lower) -> tight_upper U iv.(upper) -> Forall wf_range (ranges q) ->
  tight_lower (L ++ conj_bounds lower_bounds (ranges q) buf) (and_query iv q buf).(lower) /\
  tight_upper (U ++ conj_bounds upper_bounds (ranges q) buf) (and_query iv q buf).(upper).
Proof.
  revert iv L U. induction q as [r|r q IH] using Query_chain_ind; intros iv L U HL HU Hw;
    pose proof (Forall_inv Hw) as (Hleft & Hright & _);
    destruct (narrow_spec iv L U (left r) buf HL HU Hleft) as [HL1 HU1];
    destruct (narrow_spec _ _ _ (right r) buf HL1 HU1 Hright) as [HL2 HU2];
    unfold conj_bounds in *; cbn [ranges map concat and_query];
    rewrite <- app_assoc in HL2, HU2;
    change (lower_bounds (left r) buf ++ lower_bounds (right r) buf) with (range_bounds lower_bounds buf r) in HL2;
    change (upper_bounds (left r) buf ++ upper_bounds (right r) buf) with (range_bounds upper_bounds buf r) in HU2.
  - by rewrite !app_nil_r.
  - rewrite !(app_assoc _ (range_bounds _ _ _)). apply IH; [done..|]. by apply Forall_inv_tail in Hw.
Qed.

Lemma tight_default : tight_lower [] None /\ tight_upper [] None.
Proof. by repeat split. Qed.

Lemma is_non_empty_spec iv L U :
  tight_lower L iv.(lower) -> tight_upper U iv.(upper) ->
  is_non_empty iv = true <-> Forall (fun l => Forall (fun u => compatible l u) U) L.
Proof.
  intros (HL & Hlo & HLt) (HU & Huo & HUt).
  assert (Forall (fun l => Forall (compatible l) U) L <-> Forall (fun u => Forall (fun l => compatible l u) L) U) as Hswap.
  { rewrite !Forall_forall. setoid_rewrite Forall_forall. naive_solver. }
  unfold is_non_empty. destruct (lower iv) as [l|].
  - specialize (Hlo l eq_refl). rewrite Hswap.
    transitivity (Forall (fun u => compatible l u) U).
    + rewrite HUt by done. destruct (upper iv) as [u|]; [|done]. specialize (Huo u eq_refl).
      rewrite bound_order by done. unfold compatible. destruct (precedence_cmp _ _); [|done..].
      by rewrite andb_true_iff.
    + rewrite !Forall_forall in *. split; intros H u Hu; apply HLt; auto.
  - split; [|done]. intros _. rewrite Hswap. rewrite !Forall_forall in *. intros u Hu. apply HLt; auto.
Qed.

(** The conjunctions [a] and [b] leave room for each other. *)
Definition overlap (a : list Range) (ab : bytes) (b : list Range) (bb : bytes) : Prop :=
  Forall (fun l => Forall (fun u => compatible l u)
    (conj_bounds upper_bounds a ab ++ conj_bounds upper_bounds b bb))
    (conj_bounds lower_bounds a ab ++ conj_bounds lower_bounds b bb).

Lemma overlap_base a ab b bb :
  overlap a ab b bb ->
  Forall (fun l => Forall (fun u => compatible l u) (conj_bounds upper_bounds a ab)) (conj_bounds lower_bounds a ab).
Proof.
  unfold overlap. rewrite Forall_app. intros [H _]. revert H. apply Forall_impl.
  intros l Hl. by apply Forall_app in Hl as [Hl _].
Qed.

Lemma intersects_inner_spec q ab l bb :
  Forall wf_range (ranges q) -> wf_dnf (alternatives l) ->
  intersects_inner (and_query Interval_default q ab) l bb = true <->
  Exists (fun b => overlap (ranges q) ab b bb) (alternatives l).
Proof.
  intros Hq. destruct tight_default as [HL0 HU0].
  destruct (and_query_spec q Interval_default [] [] ab HL0 HU0 Hq) as [HL1 HU1].
  assert (forall h, Forall wf_range (ranges h) ->
    is_non_empty (and_query (and_query Interval_default q ab) h bb) = true <-> overlap (ranges q) ab (ranges h) bb) as Hstep.
  { intros h Hh. destruct (and_query_spec h _ _ _ bb HL1 HU1 Hh) as [HL2 HU2]. by rewrite (is_non_empty_spec _ _ _ HL2 HU2). }
  induction l as [h t|h t l IH] using List_chain_ind; cbn [intersects_inner alternatives]; intros Hl;
    pose proof (Hstep h (Forall_inv Hl)) as Hh; rewrite Exists_cons, <- Hh.
  - rewrite Exists_nil. destruct (is_non_empty _); tauto.
  - rewrite <- IH by (by apply Forall_inv_tail in Hl). destruct (is_non_empty _); naive_solver.
Qed.

Lemma intersects_spec g ab h bb :
  wf_dnf (dnf g) -> wf_dnf (dnf h) ->
  intersects g ab h bb = true <->
  Exists (fun a => Exists (fun b => overlap a ab b bb) (dnf h)) (dnf g).
Proof.
  unfold intersects, dnf. intros Hg Hh.
  induction (g_head g) as [q t|q t l IH] using List_chain_ind; cbn [intersects_outer alternatives] in *;
    pose proof (Forall_inv Hg) as Hq; pose proof (intersects_inner_spec q ab _ bb Hq Hh) as Hin;
    destruct tight_default as [HL0 HU0];
    destruct (and_query_spec q Interval_default [] [] ab HL0 HU0 Hq) as [HL1 HU1];
    pose proof (is_non_empty_spec _ _ _ HL1 HU1) as Hne; cbn [app] in Hne;
    rewrite Exists_cons, <- Hin; rewrite ?Exists_nil, <- ?IH by (by apply Forall_inv_tail in Hg);
    destruct (is_non_empty _); cbn [negb].
  1,3: destruct (intersects_inner _ _ _); naive_solver.
  all: split; [naive_solver|]; intros [Hi|Hi]; try done; exfalso;
    apply Hin, Exists_exists in Hi as (b & _ & Hb); apply overlap_base in Hb; by apply Hne in Hb.
Qed.

(** A version that satisfies a comparator lies between its bounds. *)
Lemma comparator_bounds c v buf vb :
  wf_comparator c -> wf_version v -> Comparator_satisfies c v buf vb = true ->
  Forall (fun l => compatible l (mkBound v vb true)) (lower_bounds c buf) /\
  Forall (fun u => compatible (mkBound v vb true) u) (upper_bounds c buf).
Proof.
  intros Hc Hv. unfold Comparator_satisfies, lower_bounds, upper_bounds.
  rewrite order_without_build_spec by done.
  pose proof (cmp_antisym precedence_cmp (precedence v vb) (precedence (c_version c) buf)) as Hanti.
  destruct (precedence_cmp (precedence v vb) _) eqn:E, (c_op c); try done; intros _;
    split; repeat constructor; unfold compatible, bound_key; cbn; rewrite ?E, ?Hanti; done.
Qed.

Lemma range_bounds_satisfied r v buf vb :
  wf_range r -> wf_version v -> Range_satisfies r v buf vb = true ->
  Forall (fun l => compatible l (mkBound v vb true)) (range_bounds lower_bounds buf r) /\
  Forall (fun u => compatible (mkBound v vb true) u) (range_bounds upper_bounds buf r).
Proof.
  intros (Hl & Hr & Hlr) Hv. unfold Range_satisfies, range_bounds.
  assert (forall c, bool_decide (c_op c = OpUnset) = true -> lower_bounds c buf = [] /\ upper_bounds c buf = []) as Hunset.
  { intros c Hc%bool_decide_eq_true. unfold lower_bounds, upper_bounds. by rewrite Hc. }
  pose proof (comparator_bounds (left r) v buf vb Hl Hv) as HL.
  pose proof (comparator_bounds (right r) v buf vb Hr Hv) as HR.
  unfold has_left, has_right in *.
  destruct (bool_decide (c_op (left r) = OpUnset)) eqn:El, (bool_decide (c_op (right r) = OpUnset)) eqn:Er; cbn [negb andb] in *.
  - destruct (Hunset _ El) as [-> ->], (Hunset _ Er) as [-> ->]. done.
  - by specialize (Hlr eq_refl).
  - destruct (Comparator_satisfies (left r) _ _ _); [|done]. destruct (Hunset _ Er) as [-> ->].
    rewrite !app_nil_r. intros _. by apply HL.
  - destruct (Comparator_satisfies (left r) _ _ _), (Comparator_satisfies (right r) _ _ _); try done. intros _.
    rewrite !Forall_app. naive_solver.
Qed.

Lemma conj_bounds_satisfied alt v buf vb :
  Forall wf_range alt -> wf_version v -> conj_satisfies alt v buf vb = true ->
  Forall (fun l => compatible l (mkBound v vb true)) (conj_bounds lower_bounds alt buf) /\
  Forall (fun u => compatible (mkBound v vb true) u) (conj_bounds upper_bounds alt buf).
Proof.
  intros Hw Hv. unfold conj_bounds, conj_satisfies. induction Hw as [|r alt Hr Hw IH]; [done|].
  cbn [forallb map concat]. intros [H1 H2]%andb_true_iff. rewrite !Forall_app.
  pose proof (range_bounds_satisfied r v buf vb Hr Hv H1). naive_solver.
Qed.

Lemma compatible_trans l v u :
  b_inclusive v = true -> compatible l v -> compatible v u -> compatible l u.
Proof.
  intros Hi Hl Hu. eapply compatible_lower_weaken; [| |exact Hu]; unfold compatible in Hl;
    destruct (precedence_cmp (bound_key l) (bound_key v)); naive_solver.
Qed.

Lemma common_version_overlaps a ab b bb v vb :
  Forall wf_range a -> Forall wf_range b -> wf_version v ->
  conj_satisfies a v ab vb = true -> conj_satisfies b v bb vb = true -> overlap a ab b bb.
Proof.
  intros Ha Hb Hv Sa Sb. destruct (conj_bounds_satisfied a v ab vb Ha Hv Sa) as [La Ua].
  destruct (conj_bounds_satisfied b v bb vb Hb Hv Sb) as [Lb Ub].
  unfold overlap. rewrite !Forall_forall. intros l Hl. rewrite Forall_forall. intros u Hu.
  apply (compatible_trans l (mkBound v vb true) u); [done|..].
  - rewrite Forall_forall in La, Lb. apply in_app_iff in Hl as [Hl|Hl]; auto.
  - rewrite Forall_forall in Ua, Ub. apply in_app_iff in Hu as [Hu|Hu]; auto.
Qed.

Lemma existsb_Exists {A} (f : A -> bool) (l : list A) : existsb f l = true <-> Exists (fun x => f x = true) l.
Proof. by rewrite existsb_exists, Exists_exists. Qed.

Lemma intersects_common g ab h bb v vb :
  wf_dnf (dnf g) -> wf_dnf (dnf h) -> wf_version v ->
  satisfies_including_prerelease g v ab vb = true -> satisfies_including_prerelease h v bb vb = true ->
  intersects g ab h bb = true.
Proof.
  intros Hg Hh Hv. unfold satisfies_including_prerelease. rewrite !List_satisfies_spec, !existsb_Exists, !Exists_exists.
  intros (a & Ha & Sa) (b & Hb & Sb). apply intersects_spec; [done..|].
  rewrite Exists_exists. exists a. split; [done|]. apply Exists_exists. exists b. split; [done|].
  unfold wf_dnf in *. rewrite Forall_forall in Hg, Hh. eapply common_version_overlaps; eauto.
Qed.

(** ** The grammar of queries

    The text of a disjunction of conjunctions of versions with operators:
    alternatives joined by [||], comparators by a space. A version is given in
    full, with its qualifiers, or in part, with wildcards for what is left out. *)

Inductive version_form : Type :=
| Full (M m p : Z) (pre build : option bytes)
| XRange (ns xs : list Z).

Definition form_text (f : version_form) : bytes :=
  match f with
  | Full M m p pre build => version_text M m p pre build
  | XRange ns xs => x_text ns xs
  end.

Definition form_ok (f : version_form) : Prop :=
  match f with
  | Full M m p pre build =>
      is_u64 M /\ is_u64 m /\ is_u64 p /\
      qualifier_ok (fun x => pre_chars x) pre /\ qualifier_ok (fun x => tag_chars x) build
  | XRange ns xs => x_ok ns xs
  end.

Definition form_wildcard (f : version_form) : Wildcard :=
  match f with Full _ _ _ _ _ => WNone | XRange ns _ => wildcard_of_part (length ns) end.

Definition form_qualifiers (f : version_form) : option bytes * option bytes :=
  match f with Full _ _ _ pre build => (pre, build) | XRange _ _ => (None, None) end.

(** The numbers of a form, with a tag for its qualifiers. *)
Definition form_partial (f : version_form) (t : Tag) : Partial :=
  match f with
  | Full M m p _ _ => core_partial M m p t
  | XRange ns _ => mkPartial (ns !! 0%nat) (ns !! 1%nat) None t
  end.

Record comparator_text : Type := mkText { ct_tag : TokenTag; ct_form : version_form }.

Definition op_text (tag : TokenTag) : bytes :=
  match tag with
  | TkNone | TkVersion => []
  | TkGt => [62]
  | TkGte => [62; 61]
  | TkLt => [60]
  | TkLte => [60; 61]
  | TkTilda => [126]
  | TkCaret => [94]
  end.

Definition render_comparator (c : comparator_text) : bytes := op_text c.(ct_tag) ++ form_text c.(ct_form).

(** [^*] and [~*] are left out: they give the range without comparators, over
    which the next alternative is written ([star_alternative_lost]). *)
Definition comparator_ok (c : comparator_text) : Prop :=
  c.(ct_tag) <> TkNone /\ form_ok c.(ct_form) /\
  ~ (form_wildcard c.(ct_form) = WMajor /\ (c.(ct_tag) = TkCaret \/ c.(ct_tag) = TkTilda)).

(** Each comparator with what separates it from the one before: [false] is a
    space, [true] is [" || "]. *)
Definition item : Type := bool * comparator_text.

Definition separator (is_or : bool) : bytes := if is_or then [32; 124; 124; 32] else [32].

Fixpoint render_items (items : list item) : bytes :=
  match items with
  | [] => []
  | (is_or, c) :: rest => separator is_or ++ render_comparator c ++ render_items rest
  end.

Definition item_ok (it : item) : Prop := comparator_ok it.2.

Definition render_query (first : comparator_text) (items : list item) : bytes :=
  render_comparator first ++ render_items items.

(** A range that reads the comparator: the operator applied to the numbers and
    a tag that stands for the qualifiers in the buffer. *)
Definition reads (buf : bytes) (c : comparator_text) (r : Range) : Prop :=
  exists t, tag_is t buf (form_qualifiers c.(ct_form)).1 (form_qualifiers c.(ct_form)).2 /\ wf_tag t /\
    to_range (mkToken c.(ct_tag) (form_wildcard c.(ct_form))) (form_partial c.(ct_form) t) = Done r.

(** An item starts an alternative after [||], and also after a space when it
    has no operator. *)
Definition starts (it : item) : bool := it.1 || bool_decide (it.2.(ct_tag) = TkVersion).

(** The disjunction that a query text denotes. *)
Fixpoint group_items (current : list comparator_text) (items : list item) : list (list comparator_text) :=
  match items with
  | [] => [current]
  | it :: rest =>
      if starts it then current :: group_items [it.2] rest else group_items (current ++ [it.2]) rest
  end.

(** *** Reading one comparator *)

Lemma version_text_head M m p pre build :
  is_u64 M -> exists d z, version_text M m p pre build = d :: z /\ is_ascii_digit d = true.
Proof.
  intros HM. destruct (show_u64_head M HM) as (d & ds & E & Hd). unfold version_text, core_text. rewrite E. eauto.
Qed.

Lemma form_text_head f :
  form_ok f -> exists d z, form_text f = d :: z /\ (is_ascii_digit d || is_x d = true) /\
    (48 <= d <= 57 \/ d = 120 \/ d = 42 \/ d = 88).
Proof.
  assert (forall d, is_ascii_digit d || is_x d = true -> 48 <= d <= 57 \/ d = 120 \/ d = 42 \/ d = 88) as Hr.
  { intros d [H%is_ascii_digit_iff|H%is_x_cases]%orb_true_iff; lia. }
  destruct f as [M m p pre build|ns xs]; cbn [form_ok form_text].
  - intros (HM & _). destruct (version_text_head M m p pre build HM) as (d & z & E & Hd).
    assert (is_ascii_digit d || is_x d = true) as H by (by rewrite Hd). eauto 10.
  - intros H%x_text_head. destruct H as (d & z & E & Hd). eauto 10.
Qed.

(** [Version_parse] on a form followed by nothing or by a space. *)
Lemma Version_parse_form s f k :
  wf_sliced s -> form_ok f -> ss_slice s = form_text f ++ k -> ends_word k ->
  exists t, tag_is t s.(ss_buf) (form_qualifiers f).1 (form_qualifiers f).2 /\ wf_tag t /\
    Version_parse VersionInt_u64 s =
      Done (mkParseResult (form_wildcard f) true (form_partial f t) (Z.of_nat (length (form_text f)))).
Proof.
  intros Hs Hf Ht Hk. destruct f as [M m p pre build|ns xs]; cbn [form_ok form_text form_qualifiers form_wildcard form_partial fst snd] in *.
  - destruct Hf as (HM & Hm & Hp & Hpre & Hbuild).
    destruct (Version_parse_text s M m p pre build k) as (r & Hr & t & -> & Htag & Hwf); try done.
    { rewrite Ht. unfold version_text. by rewrite <- !app_assoc. }
    exists t. by split_and!.
  - exists Tag_default. split; [done|]. split; [apply wf_tag_default|].
    apply (Version_parse_x s ns xs k); try done. pose proof Hs as (_ & Hfit & Hmax). pose proof (length_ss_slice s Hs).
    unfold two32. lia.
Qed.

Lemma skip_spaces_stop input j d z :
  drop j input = d :: z -> (d =? 32) = false -> skip_spaces input j = j.
Proof. intros Hd Hne. unfold skip_spaces, skip_while. rewrite Hd, prefix_len_stop by done. lia. Qed.

Lemma scan_digit input i d tag is_or :
  is_ascii_digit d || is_x d = true -> 48 <= d <= 57 \/ d = 120 \/ d = 42 \/ d = 88 ->
  scan_token input i d tag is_or = mkScanned i TkVersion true false.
Proof.
  intros Hd Hr. unfold scan_token. rewrite Hd.
  repeat match goal with |- context [d =? ?n] => replace (d =? n) with false by (symmetry; apply Z.eqb_neq; lia) end.
  done.
Qed.

Lemma scan_comparator input i c k tag0 is_or :
  comparator_ok c -> drop i input = render_comparator c ++ k ->
  exists ch, input !! i = Some ch /\
    scan_token input i ch tag0 is_or =
      mkScanned (i + length (op_text c.(ct_tag))) c.(ct_tag) (bool_decide (c.(ct_tag) = TkVersion) || is_or) false /\
    drop (i + length (op_text c.(ct_tag))) input = form_text c.(ct_form) ++ k.
Proof.
  intros (Ht & Hf & _) Hd. unfold render_comparator in Hd. rewrite <- app_assoc in Hd.
  pose proof (drop_eq_app _ _ _ _ Hd) as Hv.
  destruct (form_text_head _ Hf) as (d & z & E & Hdig & Hr).
  rewrite E in Hd, Hv |- *.
  assert ((d =? 32) = false /\ (d =? 61) = false /\ (d =? 62) = false) as (Hd32 & Hd61 & Hd62)
    by (split_and!; apply Z.eqb_neq; lia).
  destruct (ct_tag c); cbn [op_text length app] in *; try done;
    (eexists; split; [by eapply lookup_drop_head|]; split; [|done]);
    try (pose proof (drop_eq_app _ [62] _ _ Hd) as H1 || pose proof (drop_eq_app _ [60] _ _ Hd) as H1
         || pose proof (drop_eq_app _ [126] _ _ Hd) as H1 || pose proof (drop_eq_app _ [94] _ _ Hd) as H1);
    cbn [length] in *; rewrite ?Nat.add_0_r in *; [..|by rewrite scan_digit|idtac|idtac];
    replace (i + 1)%nat with (S i) in * by lia; try replace (i + 2)%nat with (S (S i)) in * by lia;
    unfold scan_token; cbn [Z.eqb Pos.eqb orb]; rewrite ?char_at_drop, ?H1; cbn [head_is Z.eqb Pos.eqb];
    rewrite ?Hd61, ?Hd62; by erewrite skip_spaces_stop by done.
Qed.

Lemma render_comparator_head c :
  comparator_ok c -> exists x z, render_comparator c = x :: z /\ contains WHITESPACE_CHARS x = false /\ x <> 45 /\ x <> 124.
Proof.
  intros (Ht & Hf & _). unfold render_comparator.
  destruct (form_text_head _ Hf) as (d & z & -> & _ & Hd). destruct (ct_tag c); try done; cbn; eexists _, _; (split; [reflexivity|]); try done.
  split; [|lia]. unfold contains, WHITESPACE_CHARS. cbn [existsb].
  repeat match goal with |- context [d =? ?n] => replace (d =? n) with false by (symmetry; apply Z.eqb_neq; lia) end.
  done.
Qed.

Lemma render_items_head items :
  Forall item_ok items ->
  items = [] \/ exists x z, render_items items = 32 :: x :: z /\ contains WHITESPACE_CHARS x = false /\ x <> 45.
Proof.
  intros H. destruct H as [|[o c] rest Hc _]; [by left|]. right. cbn [render_items].
  destruct (render_comparator_head c Hc) as (x & z & -> & Hx & Hx' & _). destruct o; cbn; eauto 10.
Qed.

Lemma render_items_ends items : Forall item_ok items -> ends_word (render_items items).
Proof.
  intros [->|(x & z & -> & _)]%render_items_head; [by left|by right].
Qed.

(** What follows a comparator is never read as a hyphen range. *)
Lemma no_hyphen input j items :
  Forall item_ok items -> drop j input = render_items items ->
  (if char_at input j 32 || char_at input j 45 then possibly_hyphenate input j else None) = None.
Proof.
  intros Hit Hd. rewrite !char_at_drop, Hd.
  destruct (render_items_head items Hit) as [->|(x & z & E & Hws & Hx)]; [done|]. rewrite E in Hd |- *.
  cbn [head_is Z.eqb Pos.eqb orb]. unfold possibly_hyphenate.
  assert (skip_ws input j = S j) as ->.
  { unfold skip_ws, length_of_leading_whitespace_ascii. rewrite Hd. cbn [prefix_len]. rewrite Hws. cbn. lia. }
  pose proof (drop_eq_app _ [32] _ _ Hd) as H1. rewrite Nat.add_1_r in H1.
  rewrite char_at_drop, H1. cbn [head_is]. by replace (x =? 45) with false by (symmetry; apply Z.eqb_neq; lia).
Qed.

Section Grammar.
Context (s : SlicedString) (Hs : wf_sliced s).

(** One round of the loop at the text of a comparator. *)
Lemma comparator_round fuel st c items :
  comparator_ok c -> Forall item_ok items ->
  drop st.(qs_i) (ss_slice s) = render_comparator c ++ render_items items ->
  exists t, tag_is t s.(ss_buf) (form_qualifiers c.(ct_form)).1 (form_qualifiers c.(ct_form)).2 /\ wf_tag t /\
    query_loop (S fuel) s (ss_slice s) st =
    let! g := add_comparator (set_flags st.(qs_list) t) (mkToken c.(ct_tag) (form_wildcard c.(ct_form))) st.(qs_count)
      (bool_decide (c.(ct_tag) = TkVersion) || st.(qs_is_or))
      (form_partial c.(ct_form) t) in
    query_loop fuel s (ss_slice s)
      (mkQS (st.(qs_i) + length (render_comparator c) + 1) g (mkToken c.(ct_tag) WNone) (wadd32 st.(qs_count) 1) false).
Proof using Hs.
  intros Hc Hit Hd. pose proof Hc as (Ht & Hf & _). pose proof (length_ss_slice s Hs) as Hl.
  destruct (scan_comparator _ _ _ _ (tk_tag (qs_token st)) (qs_is_or st) Hc Hd) as (ch & Hch & Hscan & Hv).
  cbn [query_loop]. rewrite Hch, Hscan. cbn [sn_skip sn_i sn_tag sn_is_or].
  set (j := (qs_i st + length (op_text (ct_tag c)))%nat) in *.
  assert (j <= length (ss_slice s))%nat as Hj.
  { apply (f_equal length) in Hv. rewrite length_drop, length_app in Hv.
    destruct (form_text_head _ Hf) as (d & z & E & _). rewrite E in Hv. cbn in Hv. lia. }
  assert (ss_slice (Sliced_sub s j (length (ss_slice s))) = drop j (ss_slice s)) as Hsub.
  { rewrite ss_slice_sub by lia. unfold sub. rewrite take_ge; [done|]. rewrite length_drop. lia. }
  destruct (Version_parse_form (Sliced_sub s j (length (ss_slice s))) (ct_form c) (render_items items)) as (t & Htag & Hwf & Hr);
    [apply wf_sliced_sub; (done || lia)|done|by rewrite Hsub|by apply render_items_ends|].
  exists t. split; [done|]. split; [done|]. unfold parse_comparator. rewrite Hr. cbn [obind pr_version pr_wildcard pr_len].
  rewrite Nat2Z.id. rewrite (no_hyphen _ _ items Hit) by (by apply (drop_eq_app _ _ _ _ Hv)).
  rewrite bool_decide_false by done.
  assert (SemverVersion.tag (Partial_min (form_partial (ct_form c) t)) = t) as -> by (by destruct (ct_form c)).
  replace (qs_i st + length (render_comparator c) + 1)%nat with (j + length (form_text (ct_form c)) + 1)%nat
    by (unfold render_comparator, j; rewrite length_app; lia).
  by destruct (add_comparator _ _ _ _ _).
Qed.

(** A round at [||]: the next comparator starts an alternative. *)
Lemma or_round fuel st c k :
  comparator_ok c -> drop st.(qs_i) (ss_slice s) = [124; 124; 32] ++ render_comparator c ++ k ->
  query_loop (S fuel) s (ss_slice s) st =
  query_loop fuel s (ss_slice s)
    (mkQS (st.(qs_i) + 3) st.(qs_list) (mkToken TkNone st.(qs_token).(tk_wildcard)) st.(qs_count) true).
Proof using.
  intros Hc Hd. cbn [query_loop]. rewrite (lookup_drop_head _ _ _ _ Hd).
  unfold scan_token. cbn [Z.eqb Pos.eqb orb is_ascii_digit is_x].
  pose proof (drop_eq_app _ [124] _ _ Hd) as H1. pose proof (drop_eq_app _ [124; 124] _ _ Hd) as H2.
  pose proof (drop_eq_app _ [124; 124; 32] _ _ Hd) as H3. cbn [length] in *.
  replace (qs_i st + 1)%nat with (S (qs_i st)) in H1 by lia.
  destruct (render_comparator_head c Hc) as (x & z & E & Hx & _). rewrite E in *.
  assert (skip_while (fun c => c =? 124) (ss_slice s) (S (qs_i st)) = (qs_i st + 2)%nat) as ->.
  { unfold skip_while. rewrite H1. cbn. lia. }
  assert (skip_spaces (ss_slice s) (qs_i st + 2) = qs_i st + 3)%nat as ->; [|done].
  unfold skip_spaces, skip_while. rewrite H2. cbn [app prefix_len]. replace (x =? 32) with false; [cbn; lia|].
  symmetry. apply Z.eqb_neq. intros ->. done.
Qed.
End Grammar.

Lemma map_last_app {A} (f : A -> A) l x : map_last f (l ++ [x]) = l ++ [f x].
Proof. induction l as [|y l IH]; [done|]. cbn. rewrite IH. by destruct l. Qed.

Lemma wf_form_partial f t : form_ok f -> wf_tag t -> wf_partial (form_partial f t).
Proof.
  intros Hf Ht. destruct f as [M m p pre build|ns xs]; cbn [form_ok form_partial] in *.
  - destruct Hf as (HM & Hm & Hp & _). by split_and!; cbn; try (by intros ? [= <-]).
  - destruct Hf as (Hn & _). rewrite Forall_lookup in Hn. split_and!; cbn; [eauto..|done|done].
Qed.

Lemma form_parts f t :
  form_ok f ->
  match form_wildcard f with
  | WNone => exists M m p, form_partial f t = core_partial M m p t
  | WMajor => form_partial f t = mkPartial None None None t
  | WMinor => exists M, form_partial f t = mkPartial (Some M) None None t
  | WPatch => exists M m, form_partial f t = mkPartial (Some M) (Some m) None t
  end.
Proof.
  destruct f as [M m p pre build|ns xs]; cbn [form_ok form_partial form_wildcard]; [by eauto|].
  intros (_ & _ & Hl & _). destruct ns as [|a [|b [|]]]; cbn in *; eauto; lia.
Qed.

Lemma reads_has_left buf c r : comparator_ok c -> reads buf c r -> has_left r = true.
Proof.
  intros (_ & Hf & Hstar) (t & _ & _ & Hr). revert Hr. pose proof (form_parts _ t Hf) as Hp.
  unfold to_range, caret_range, tilda_range, comparator_range, init_wildcard, only. cbn [tk_tag tk_wildcard].
  destruct (form_wildcard (ct_form c)); [destruct Hp as (M & m & p & ->)|rewrite Hp|destruct Hp as (M & ->)|destruct Hp as (M & m & ->)];
    cbn; destruct (ct_tag c); try done; try (by destruct Hstar; auto); intros [= <-]; repeat case_if; try done;
    unfold has_left; cbn [left]; rewrite bool_decide_false; (done || apply (has_left_lt_next _ 0 0) || apply (has_left_lt_next _ _ 0)).
Qed.

Lemma reads_to_range buf c t :
  comparator_ok c -> tag_is t buf (form_qualifiers c.(ct_form)).1 (form_qualifiers c.(ct_form)).2 -> wf_tag t ->
  exists r, to_range (mkToken c.(ct_tag) (form_wildcard c.(ct_form))) (form_partial c.(ct_form) t) = Done r /\ reads buf c r.
Proof.
  intros (Ht & Hf & _) Htag Hwf.
  destruct (to_range_wf (mkToken (ct_tag c) (form_wildcard (ct_form c))) (form_partial (ct_form c) t)) as (r & Hr & _);
    [done|by apply wf_form_partial|].
  exists r. split; [done|]. by exists t.
Qed.

Lemma spec_and_left ds alt r :
  Forall (fun r => has_left r = true) alt -> alt <> [] -> spec_and (ds ++ [alt]) r = ds ++ [alt ++ [r]].
Proof.
  intros Hl Hne. unfold spec_and. rewrite map_last_app. f_equal. f_equal.
  destruct Hl as [|r0 rest H0 _]; [done|]. cbn. by rewrite H0.
Qed.

Lemma spec_or_left ds alt r :
  Forall (fun r => has_left r = true) alt -> spec_or (ds ++ [alt]) r = (ds ++ [alt]) ++ [[r]].
Proof.
  intros Hl. destruct ds as [|a [|b ds]]; cbn; [|by destruct a as [|? [|]]..].
  destruct Hl as [|r0 [|r1 rest] H0 _]; cbn; [done|by rewrite H0|done].
Qed.

Lemma reads_all_left buf cs alt :
  Forall comparator_ok cs -> Forall2 (reads buf) cs alt -> Forall (fun r => has_left r = true) alt.
Proof. intros H. induction 1; inversion H; subst; constructor; eauto using reads_has_left. Qed.

Lemma drop_S_tail {A} n (l k : list A) : drop n l = k -> drop (n + 1) l = tail k.
Proof. intros <-. rewrite <- drop_drop. by destruct (drop n l). Qed.

Section Grammar2.
Context (s : SlicedString) (Hs : wf_sliced s).
Abbreviation reads_buf := (reads s.(ss_buf)).

(** A comparator that is not the first joins or starts an alternative. *)
Lemma comparator_step fuel st c items ds alt :
  comparator_ok c -> Forall item_ok items ->
  drop st.(qs_i) (ss_slice s) = render_comparator c ++ render_items items ->
  1 <= st.(qs_count) < two32 - 1 ->
  group_inv st.(qs_list) -> dnf st.(qs_list) = ds ++ [alt] ->
  Forall (fun r => has_left r = true) alt -> alt <> [] ->
  exists st' r, query_loop (S fuel) s (ss_slice s) st = query_loop fuel s (ss_slice s) st' /\
    reads_buf c r /\ group_inv st'.(qs_list) /\
    dnf st'.(qs_list) = (if starts (st.(qs_is_or), c) then (ds ++ [alt]) ++ [[r]] else ds ++ [alt ++ [r]]) /\
    drop st'.(qs_i) (ss_slice s) = tail (render_items items) /\ (st.(qs_i) < st'.(qs_i))%nat /\
    st'.(qs_count) = st.(qs_count) + 1 /\ st'.(qs_is_or) = false.
Proof using Hs.
  intros Hc Hit Hd Hcnt Hg Hdnf Hleft Hne.
  destruct (comparator_round s Hs fuel st c items Hc Hit Hd) as (t & Htag & Hwt & ->).
  destruct (reads_to_range _ c t Hc Htag Hwt) as (r & Hr & Hreads).
  assert ((qs_count st =? 0) = false) as Hcount by (apply Z.eqb_neq; lia).
  assert (bool_decide (ct_tag c = TkVersion) || qs_is_or st = starts (qs_is_or st, c)) as Hor by (apply orb_comm).
  unfold add_comparator. rewrite Hcount, Hor, Hr. cbn [andb obind].
  destruct (or_range_spec (set_flags (qs_list st) t) r Hg) as (g1 & -> & Hg1 & Hd1 & _).
  destruct (and_range_spec (set_flags (qs_list st) t) r Hg) as (g2 & -> & Hg2 & Hd2 & _).
  change (dnf (set_flags (qs_list st) t)) with (dnf (qs_list st)) in *. rewrite Hdnf in Hd1, Hd2.
  rewrite spec_or_left in Hd1 by done. rewrite spec_and_left in Hd2 by done.
  assert (wadd32 (qs_count st) 1 = qs_count st + 1) as Hwadd by (unfold wadd32; apply Z.mod_small; lia).
  pose proof (drop_S_tail _ _ _ (drop_eq_app _ _ _ _ Hd)) as Htail.
  destruct (starts (qs_is_or st, c)); cbn [obind]; eexists _, r; (split; [reflexivity|]); cbn [qs_i qs_list qs_count qs_is_or];
    split_and!; (done || lia).
Qed.

(** The loop after a comparator: at the separator of the next item, past its
    first space. [dn] and [cur] are the alternatives read so far. *)
Lemma items_loop items : forall fuel st dn cur ds alt,
  Forall item_ok items -> drop st.(qs_i) (ss_slice s) = tail (render_items items) ->
  (length (ss_slice s) <= fuel + st.(qs_i))%nat ->
  1 <= st.(qs_count) -> st.(qs_count) + Z.of_nat (length items) < two32 -> st.(qs_is_or) = false ->
  group_inv st.(qs_list) -> dnf st.(qs_list) = ds ++ [alt] ->
  Forall2 (Forall2 reads_buf) dn ds -> Forall2 reads_buf cur alt -> cur <> [] -> Forall comparator_ok cur ->
  exists g, query_loop fuel s (ss_slice s) st = Done g /\ group_inv g /\
    Forall2 (Forall2 reads_buf) (dn ++ group_items cur items) (dnf g).
Proof using Hs.
  induction items as [|[o c] items IH]; intros fuel st dn cur ds alt Hit Hd Hf Hc1 Hc2 Hor Hg Hdnf Hdone Hcur Hne Hok.
  - exists (qs_list st). split_and!; [|done|].
    + assert (ss_slice s !! qs_i st = None) as E.
      { apply lookup_ge_None. apply (f_equal length) in Hd. rewrite length_drop in Hd. cbn in Hd. lia. }
      destruct fuel; cbn [query_loop]; by rewrite E.
    + rewrite Hdnf. apply Forall2_app; [done|]. by repeat constructor.
  - pose proof (Forall_inv Hit) as Hc. pose proof (Forall_inv_tail Hit) as Hit'. unfold item_ok in Hc. cbn [fst snd length] in *.
    pose proof (reads_all_left _ _ _ Hok Hcur) as Hleft. assert (alt <> []) as Halt by (by destruct Hcur).
    destruct (render_comparator_head c Hc) as (x & z & Ex & _).
    pose proof (f_equal length Hd) as Hlen. rewrite length_drop in Hlen.
    assert (forall fuel' st1, st1.(qs_is_or) = o ->
      drop st1.(qs_i) (ss_slice s) = render_comparator c ++ render_items items ->
      (length (ss_slice s) <= S fuel' + st1.(qs_i))%nat -> st1.(qs_count) = st.(qs_count) -> st1.(qs_list) = st.(qs_list) ->
      exists g, query_loop (S fuel') s (ss_slice s) st1 = Done g /\ group_inv g /\
        Forall2 (Forall2 reads_buf) (dn ++ group_items cur ((o, c) :: items)) (dnf g)) as Hstep.
    { intros fuel' st1 Ho Hd1 Hf1 Hcnt1 Hl1.
      destruct (comparator_step fuel' st1 c items ds alt) as (st' & r & -> & Hreads & Hg' & Hd' & Hi' & Hlt & Hcnt' & Hor');
        rewrite ?Hl1; try done; [lia|]. rewrite Ho in Hd'. cbn [group_items snd].
      destruct (starts (o, c)).
      - rewrite cons_middle, app_assoc.
        apply (IH fuel' st' (dn ++ [cur]) [c] (ds ++ [alt]) [r]); try done; try lia; try by repeat constructor.
        + apply Forall2_app; [done|]. by repeat constructor.
        + by apply Forall_singleton.
      - apply (IH fuel' st' dn (cur ++ [c]) ds (alt ++ [r])); try done; try lia.
        + apply Forall2_app; [done|]. by repeat constructor.
        + by destruct cur.
        + apply Forall_app. split; [done|]. by apply Forall_singleton. }
    destruct o; cbn [render_items separator tail app length] in Hd, Hlen; rewrite ?length_app in Hlen.
    + destruct fuel as [|[|fuel]]; [lia|lia|]. rewrite (or_round s _ st c (render_items items)) by done.
      apply Hstep; cbn [qs_i qs_list qs_count qs_is_or]; try done; [by apply (drop_eq_app _ [124; 124; 32] _ _ Hd)|lia].
    + rewrite Ex in Hlen. cbn [length] in Hlen. destruct fuel as [|fuel]; [lia|]. by apply Hstep.
Qed.

(** The first comparator fills the empty group. *)
Lemma first_comparator g c t :
  comparator_ok c -> tag_is t s.(ss_buf) (form_qualifiers c.(ct_form)).1 (form_qualifiers c.(ct_form)).2 -> wf_tag t ->
  group_inv g -> dnf g = [[Range_default]] ->
  exists g' r, add_comparator g (mkToken c.(ct_tag) (form_wildcard c.(ct_form))) 0 (bool_decide (c.(ct_tag) = TkVersion) || false)
      (form_partial c.(ct_form) t) = Done g' /\
    group_inv g' /\ dnf g' = [[r]] /\ reads_buf c r.
Proof using.
  intros Hc Htag Hwt Hg Hdnf. destruct (reads_to_range _ c t Hc Htag Hwt) as (r & Hr & Hreads).
  unfold add_comparator. cbn [Z.eqb andb tk_tag tk_wildcard]. rewrite Hr. cbn [obind].
  case_bool_decide as Ev.
  - case_bool_decide as Ew.
    + destruct (or_version_spec g (Partial_min (form_partial (ct_form c) t)) Hg) as (g' & -> & Hg' & Hd' & _).
      exists g', r. split_and!; try done. rewrite Hd', Hdnf. unfold to_range in Hr. cbn [tk_tag tk_wildcard] in Hr.
      rewrite Ev, Ew in Hr. by injection Hr as <-.
    + destruct (or_range_spec g r Hg) as (g' & -> & Hg' & Hd' & _). exists g', r. split_and!; try done.
      by rewrite Hd', Hdnf.
  - destruct (and_range_spec g r Hg) as (g' & -> & Hg' & Hd' & _). exists g', r. split_and!; try done.
    by rewrite Hd', Hdnf.
Qed.

Lemma query_parse_text first items :
  comparator_ok first -> Forall item_ok items -> ss_slice s = render_query first items ->
  exists g, query_parse s = Done g /\ group_inv g /\ Forall2 (Forall2 reads_buf) (group_items [first] items) (dnf g).
Proof using Hs.
  intros Hc Hit Htext. pose proof Hs as (_ & Hfit & Hmax). pose proof (length_ss_slice s Hs) as Hl.
  assert (length items <= length (render_items items))%nat as Hn.
  { clear. induction items as [|[o c] items IH]; cbn [length render_items]; [lia|]. destruct o; cbn [separator]; len; lia. }
  destruct (render_comparator_head first Hc) as (x & z & Ex & _).
  pose proof (f_equal length Htext) as Hlen. unfold render_query in Hlen. rewrite length_app, Ex in Hlen. cbn [length] in Hlen.
  unfold query_parse. destruct (length (ss_slice s)) as [|fuel] eqn:El; [lia|].
  set (st := mkQS _ _ _ _ _).
  destruct (comparator_round s Hs fuel st first items Hc Hit) as (t & Htag & Hwt & ->); [by cbn; rewrite drop_0|].
  cbn [st qs_count qs_is_or qs_i].
  destruct (first_comparator (set_flags (qs_list st) t) first t Hc Htag Hwt) as (g' & r & -> & Hg' & Hd' & Hreads); [done..|].
  cbn [obind]. change (group_items [first] items) with ([] ++ group_items [first] items).
  apply (items_loop items) with (ds := []) (alt := [r]); cbn [st qs_i qs_list qs_count qs_is_or]; try done.
  - apply drop_S_tail. cbn [plus]. rewrite Htext. unfold render_query. apply drop_app_length.
  - rewrite El. lia.
  - change (wadd32 0 1) with 1. unfold two32. lia.
  - by repeat constructor.
  - by apply Forall_singleton.
Qed.
End Grammar2.

Lemma exist_iff {A} (P Q : A -> Prop) : (forall x, P x <-> Q x) -> (exists x, P x) <-> (exists x, Q x).
Proof. intros H. split; intros [x Hx]; exists x; by apply H. Qed.

(** ** Properties *)

(** C2: the query grammar. A query text of comparators, each an operator or
    none with a full version and its qualifiers (no hyphen in the build) or a
    partial one with any wildcards, but not [^*] or [~*], joined by single
    spaces and by [||] between spaces, parses to exactly the disjunction of
    conjunctions it denotes: [||] starts an alternative, and so does a
    comparator without an operator after a space (node-semver takes that for a
    conjunction, [bare_version_starts_alternative]); every other comparator
    joins the alternative before it. Each is read back with its operator,
    numbers, wildcard and qualifiers; the parser returns a group for the text
    and leaves the back pointers valid. *)
Theorem query_parse_grammar first items :
  comparator_ok first -> Forall item_ok items ->
  let text := render_query first items in
  is_bytes text -> Z.of_nat (length text) < 2147483648 ->
  exists g, query_parse (Sliced_whole text) = Done g /\ group_inv g /\
    Forall2 (Forall2 (reads text)) (group_items [first] items) (dnf g).
Proof.
  intros Hc Hit text Hb Hl. apply (query_parse_text (Sliced_whole text)); [by apply wf_sliced_whole|done..|].
  apply Sliced_whole_slice.
Qed.

Definition caret_1_2_3 : comparator_text := mkText TkCaret (Full 1 2 3 (Some [97]) None).
Definition below_2 : comparator_text := mkText TkLt (XRange [2] [120]).
Definition exact_7 : comparator_text := mkText TkVersion (Full 7 0 0 None (Some [98])).

Lemma Forall2_lengths {A B} (R : A -> B -> Prop) l k : Forall2 (Forall2 R) l k -> map length k = map length l.
Proof. induction 1 as [|a b l k H _ IH]; [done|]. cbn. rewrite IH. f_equal. symmetry. by eapply Forall2_length. Qed.

Lemma query_parse_grammar_witness :
  exists g, query_parse (Sliced_whole (render_query caret_1_2_3 [(false, below_2); (true, below_2); (false, exact_7)])) = Done g /\
    map length (dnf g) = [2; 1; 1]%nat.
Proof.
  destruct (query_parse_grammar caret_1_2_3 [(false, below_2); (true, below_2); (false, exact_7)]) as (g & Hg & _ & H).
  - split_and!; try done; try (split; [done|by repeat constructor]). by intros [? _].
  - assert (comparator_ok below_2) as H2.
    { split_and!; try done; cbn; try lia; [by repeat constructor..|]. by intros [? _]. }
    assert (comparator_ok exact_7) as H7.
    { split_and!; try done; try (split; [done|by repeat constructor]). by intros [? _]. }
    apply List.Forall_forall. intros it [<-|[<-|[<-|[]]]]; [exact H2|exact H2|exact H7].
  - by apply (bool_decide_unpack _).
  - by vm_compute.
  - exists g. split; [done|]. exact (Forall2_lengths _ _ _ H).
Defined.

(** A bare version after a space is an alternative: [>=1.2.1 1.2.3] accepts
    9.0.0, and 1.2.3 next to [<1.0.0] is accepted too. *)
Lemma bare_version_starts_alternative :
  (exists g, query_parse (Sliced_whole [62; 61; 49; 46; 50; 46; 49; 32; 49; 46; 50; 46; 51]) = Done g /\
     Group_satisfies g (plain 9 0 0) [] [] = true) /\
  (exists g, query_parse (Sliced_whole [60; 49; 46; 48; 46; 48; 32; 49; 46; 50; 46; 51]) = Done g /\
     Group_satisfies g (plain 1 2 3) [] [] = true /\ Group_satisfies g (plain 0 5 0) [] [] = true).
Proof. split; eexists; (split; [vm_compute; reflexivity|]); vm_compute; auto. Qed.

(** A query of one comparator, end to end. The text of an operator and a
    version, full or partial, parses to a group that accepts exactly the
    releases that node-semver accepts, and all of them for [>*] and [<*]. *)
Theorem single_query_accepts c v vb :
  comparator_ok c ->
  let text := render_comparator c in
  is_bytes text -> Z.of_nat (length text) < 2147483648 -> wf_version v -> has_pre v.(tag) = false ->
  let token := mkToken c.(ct_tag) (form_wildcard c.(ct_form)) in
  exists g t, query_parse (Sliced_whole text) = Done g /\
    tag_is t text (form_qualifiers c.(ct_form)).1 (form_qualifiers c.(ct_form)).2 /\
    (Group_satisfies g v text vb = true <-> beyond_star token \/ accepts token (form_partial c.(ct_form) t) v).
Proof.
  intros Hc text Hb Hl Hv Hr token.
  assert (text = render_query c []) as Htext by (unfold text, render_query; by rewrite app_nil_r).
  destruct (query_parse_text (Sliced_whole text) (wf_sliced_whole _ Hb Hl) c []) as (g & Hg & _ & H);
    [done|constructor|by rewrite Sliced_whole_slice|].
  cbn [group_items Sliced_whole ss_buf] in H. apply Forall2_cons_inv_l in H as (alt & rest & Halt & Hrest & Hd).
  apply Forall2_nil_inv_l in Hrest as ->. apply Forall2_cons_inv_l in Halt as (r & rest & (t & Htag & Hwt & Hto) & Hrest & ->).
  apply Forall2_nil_inv_l in Hrest as ->. exists g, t. split_and!; [done..|].
  destruct Hc as (Ht & Hf & _).
  destruct (to_range_satisfies v Hv Hr token (form_partial (ct_form c) t) text vb) as (r' & Hto' & <-);
    [done|by apply wf_form_partial| |].
  { pose proof (form_parts _ t Hf) as Hp. unfold token. cbn [tk_wildcard].
    destruct (form_wildcard (ct_form c)); [destruct Hp as (? & ? & ? & ->)|rewrite Hp|destruct Hp as (? & ->)|destruct Hp as (? & ? & ->)];
      by split_and!; cbn; eauto. }
  unfold token in Hto'. rewrite Hto in Hto'. injection Hto' as <-.
  unfold Group_satisfies. rewrite Hr, List_satisfies_spec. unfold dnf in Hd. rewrite Hd. cbn.
  by rewrite andb_true_r, orb_false_r.
Qed.

Lemma single_query_accepts_witness :
  exists g, query_parse (Sliced_whole (render_comparator caret_1_2_3)) = Done g /\
    Group_satisfies g (plain 1 9 0) (render_comparator caret_1_2_3) [] = true.
Proof.
  destruct (single_query_accepts caret_1_2_3 (plain 1 9 0) []) as (g & t & Hg & _ & H).
  - split_and!; try done; try (split; [done|by repeat constructor]). by intros [? _].
  - by apply (bool_decide_unpack _).
  - by vm_compute.
  - apply wf_plain; unfold is_u64, two64; lia.
  - done.
  - exists g. split; [done|]. apply H. right. cbn. lia.
Defined.

(** Parsing a query is total. On every byte string below 2 GiB the
    parser returns a group: no index is out of range, no [unreachable!()] is
    reached, no back pointer dangles, and the result is well formed. *)
Theorem query_parse_total s :
  wf_sliced s -> exists g, query_parse s = Done g /\ group_inv g /\ wf_dnf (dnf g).
Proof. apply query_parse_inv. Qed.

Lemma query_parse_total_witness :
  exists g, query_parse (Sliced_whole [62; 32; 45; 45; 49; 124; 255; 32; 45; 32; 118; 50]) = Done g /\ group_inv g.
Proof.
  destruct (query_parse_total (Sliced_whole [62; 32; 45; 45; 49; 124; 255; 32; 45; 32; 118; 50])) as (g & H & Hi & _).
  - apply wf_sliced_whole; [by apply (bool_decide_unpack _)|by vm_compute].
  - exists g. split; [exact H|exact Hi].
Defined.

(** C9: the operations on groups refine the abstract ones on disjunctions.
    When every back pointer points to the last node of its chain, the
    operations find the node they update, keep the back pointers so, and
    change the disjunction as [spec_or_version], [spec_and] and [spec_or] do;
    [clone] gives an identical group. *)
Theorem group_operations_refine g :
  group_inv g ->
  (forall v, exists g', or_version g v = Done g' /\ group_inv g' /\ dnf g' = spec_or_version (dnf g) v) /\
  (forall r, exists g', and_range g r = Done g' /\ group_inv g' /\ dnf g' = spec_and (dnf g) r) /\
  (forall r, exists g', or_range g r = Done g' /\ group_inv g' /\ dnf g' = spec_or (dnf g) r) /\
  Group_clone g = g.
Proof.
  intros Hg. split_and!; [intros v|intros r|intros r|by apply Group_clone_id].
  - destruct (or_version_spec g v Hg) as (g' & ? & ? & ? & _). eauto.
  - destruct (and_range_spec g r Hg) as (g' & ? & ? & ? & _). eauto.
  - destruct (or_range_spec g r Hg) as (g' & ? & ? & ? & _). eauto.
Qed.

Lemma group_operations_refine_witness :
  exists g', or_range (Group_from (plain 1 0 0)) (only (mkComparator OpGte (plain 2 0 0))) = Done g' /\
    length (dnf g') = 2%nat.
Proof.
  destruct (group_operations_refine (Group_from (plain 1 0 0))) as (_ & _ & H & _); [by repeat split|].
  destruct (H (only (mkComparator OpGte (plain 2 0 0)))) as (g' & Hg & _ & Hd). exists g'. by rewrite Hd.
Defined.

(** What a group accepts. A release satisfies a group when it satisfies
    every range of some alternative; a pre-release must also share its three
    numbers with a pre-release that the alternative names. *)
Theorem Group_satisfies_iff g v gb vb :
  Group_satisfies g v gb vb = true <->
  exists alt, In alt (dnf g) /\ (forall r, In r alt -> Range_satisfies r v gb vb = true) /\
    (has_pre v.(tag) = true ->
     exists r c, In r alt /\ has_left r = true /\ (c = r.(left) \/ (has_right r = true /\ c = r.(right))) /\
       has_pre c.(c_version).(tag) = true /\ triple_eq v c.(c_version)).
Proof.
  assert (forall c, pre_match c v = true <-> has_pre c.(c_version).(tag) = true /\ triple_eq v c.(c_version)) as Hpm.
  { intros c. unfold pre_match, triple_eq. rewrite !andb_true_iff, !Z.eqb_eq. tauto. }
  assert (forall alt, allows_pre alt v = true <->
     exists r c, In r alt /\ has_left r = true /\ (c = r.(left) \/ (has_right r = true /\ c = r.(right))) /\
       has_pre c.(c_version).(tag) = true /\ triple_eq v c.(c_version)) as Hallow.
  { intros alt. unfold allows_pre. rewrite existsb_exists. apply exist_iff. intros r.
    rewrite andb_true_iff, orb_true_iff, andb_true_iff, !Hpm. split.
    - intros (Hin & Hl & [H|[Hr H]]); [exists (left r)|exists (right r)]; do 2 (split; [done|]); split; auto.
    - intros (c & Hin & Hl & [-> |[Hr ->]] & Hp & Ht); auto 10. }
  unfold Group_satisfies, dnf. destruct (has_pre (tag v)).
  - rewrite List_satisfies_pre_spec, existsb_exists. apply exist_iff. intros alt.
    unfold conj_satisfies. rewrite andb_true_iff, Hallow, forallb_forall. tauto.
  - rewrite List_satisfies_spec, existsb_exists. apply exist_iff. intros alt.
    unfold conj_satisfies. rewrite forallb_forall. intuition congruence.
Qed.

(** C3: the range operators. On releases, [to_range] of an operator and a
    version whose wildcard is its first missing part returns a range that
    accepts exactly what node-semver does, the table [accepts], with one
    exception: [>*] and [<*], which nothing satisfies there, accept every
    release. The desugared bounds are right on every branch, [u64::MAX]
    included. *)
Theorem to_range_accepts token p v gb vb :
  token.(tk_tag) <> TkNone -> wf_partial p -> wildcard_fits token.(tk_wildcard) p ->
  wf_version v -> has_pre v.(tag) = false ->
  exists r, to_range token p = Done r /\
    (~ beyond_star token -> Range_satisfies r v gb vb = true <-> accepts token p v) /\
    (beyond_star token -> Range_satisfies r v gb vb = true /\ ~ accepts token p v).
Proof.
  intros Ht Hp Hfit Hv Hr. destruct (to_range_satisfies v Hv Hr token p gb vb Ht Hp Hfit) as (r & Hto & H).
  exists r. split; [done|]. split; [tauto|]. intros Hb. split; [tauto|].
  destruct token as [tg w], Hb as [Hw Htg]. cbn in Hw, Htg. subst w. by destruct Htg as [->| ->]; cbn; intros [].
Qed.

(** [<*] accepts 1.2.3, where node-semver accepts nothing; [>=*.1.2] is read
    as [>=0.1.2], where node-semver accepts everything. *)
Lemma star_comparisons :
  (exists g, query_parse (Sliced_whole [60; 42]) = Done g /\ Group_satisfies g (plain 1 2 3) [] [] = true) /\
  (exists g, query_parse (Sliced_whole [62; 61; 42; 46; 49; 46; 50]) = Done g /\
     Group_satisfies g (plain 0 0 5) [] [] = false /\ Group_satisfies g (plain 0 1 2) [] [] = true).
Proof. split; eexists; (split; [vm_compute; reflexivity|]); vm_compute; auto. Qed.

Lemma to_range_accepts_witness :
  exists r, to_range (mkToken TkCaret WPatch) (mkPartial (Some 0) (Some u64_MAX) None Tag_default) = Done r /\
    Range_satisfies r (plain 0 u64_MAX 5) [] [] = true.
Proof.
  destruct (to_range_accepts (mkToken TkCaret WPatch) (mkPartial (Some 0) (Some u64_MAX) None Tag_default) (plain 0 u64_MAX 5) [] [])
    as (r & Hr & H & _); [done| |split_and!; (done || by eexists)| |done|].
  - split_and!; cbn; try (intros ? [= <-]); try done; auto with bun. apply wf_tag_default.
  - apply wf_plain; unfold is_u64, two64, u64_MAX; lia.
  - exists r. split; [done|]. apply H; [|done]. by intros [? _].
Defined.

(** Hyphen ranges. [A - B] accepts exactly the releases from [A] to [B],
    and when [B] is partial those whose given numbers do not exceed it. *)
Theorem hyphen_range_accepts v1 w v2 v gb vb :
  wf_version v1 -> wf_version v2 -> wf_version v -> has_pre v.(tag) = false ->
  Range_satisfies (hyphen_range v1 w v2) v gb vb = true <->
  ~ triple_lt v v1 /\
  match w with
  | WMajor => True
  | WMinor => v.(major) <= v2.(major)
  | WPatch => v.(major) < v2.(major) \/ (v.(major) = v2.(major) /\ v.(minor) <= v2.(minor))
  | WNone => triple_lt v v2 \/ (triple_eq v v2 /\ has_pre v2.(tag) = false)
  end.
Proof. apply hyphen_range_satisfies. Qed.

Lemma hyphen_range_accepts_witness :
  Range_satisfies (hyphen_range (plain 1 2 3) WMinor (plain u64_MAX 0 0)) (plain u64_MAX 7 7) [] [] = true.
Proof.
  apply (hyphen_range_accepts (plain 1 2 3) WMinor (plain u64_MAX 0 0) (plain u64_MAX 7 7) [] []);
    [apply wf_plain; unfold is_u64, two64, u64_MAX; lia..|done|].
  unfold triple_lt, u64_MAX. cbn. lia.
Defined.

(** C31: intersection. [intersects] is true exactly when some alternative of
    each group overlap, every lower bound of the two being compatible with
    every upper bound; so groups that a common version satisfies,
    pre-release or not, always intersect. *)
Theorem intersects_iff g gb h hb :
  wf_dnf (dnf g) -> wf_dnf (dnf h) ->
  (intersects g gb h hb = true <-> Exists (fun a => Exists (fun b => overlap a gb b hb) (dnf h)) (dnf g)) /\
  (forall v vb, wf_version v -> satisfies_including_prerelease g v gb vb = true ->
     satisfies_including_prerelease h v hb vb = true -> intersects g gb h hb = true).
Proof. intros Hg Hh. split; [by apply intersects_spec|]. intros. by eapply intersects_common. Qed.

Lemma intersects_iff_witness :
  intersects (Group_from (plain 1 5 0)) [] (mkGroup (mkList (mkQuery (init_wildcard (plain 1 0 0) WMinor) None) None None) None [] 0) [] = true.
Proof.
  destruct (intersects_iff (Group_from (plain 1 5 0)) []
    (mkGroup (mkList (mkQuery (init_wildcard (plain 1 0 0) WMinor) None) None None) None [] 0) []) as [_ H].
  - apply wf_dnf_single, wf_range_only; [apply wf_plain; unfold is_u64, two64; lia|done].
  - apply wf_dnf_single, init_wildcard_wf, wf_plain; unfold is_u64, two64; lia.
  - apply (H (plain 1 5 0) []); [apply wf_plain; unfold is_u64, two64; lia|by vm_compute..].
Defined.

(** ** Observations *)

(** The alternative [^*] (any release) is lost when it comes first: the
    unset range it leaves is taken for an empty group, so ["^* || 1.0.0"]
    rejects [2.0.0] while ["1.0.0 || ^*"] accepts it. *)
Theorem star_alternative_lost :
  let a := [94; 42; 32; 124; 124; 32; 49; 46; 48; 46; 48] in
  let b := [49; 46; 48; 46; 48; 32; 124; 124; 32; 94; 42] in
  exists g h, query_parse (Sliced_whole a) = Done g /\ query_parse (Sliced_whole b) = Done h /\
    Group_satisfies g (plain 2 0 0) a [] = false /\ Group_satisfies h (plain 2 0 0) b [] = true.
Proof. intros a b. run (query_parse (Sliced_whole a)). run (query_parse (Sliced_whole b)). by vm_compute. Qed.

(** Printing a group with two alternatives repeats the second, joined by
    [&&]: ["1.0.0 || 2.0.0"] prints as ["==1.0.0 || ==2.0.0 && ==2.0.0"]. *)
Theorem group_fmt_repeats :
  let a := [49; 46; 48; 46; 48; 32; 124; 124; 32; 50; 46; 48; 46; 48] in
  exists g, query_parse (Sliced_whole a) = Done g /\
    Group_fmt (fun x => x) g a =
      [61; 61; 49; 46; 48; 46; 48] ++ [32; 124; 124; 32] ++ [61; 61; 50; 46; 48; 46; 48] ++
      [32; 38; 38; 32] ++ [61; 61; 50; 46; 48; 46; 48].
Proof. intros a. run (query_parse (Sliced_whole a)). by vm_compute. Qed.
