(* ===== verification/Sha256.v ===== *)
(** * SHA-256

    [src/src/ohos_sign/src/sha256.rs], the streaming SHA-256 of the code
    signer. The model follows the buffered implementation; [sha256_spec] is
    the padded-message definition over the same compression function, and the
    two agree on every input. [Sha256Fips.v] identifies it with the standard. *)
From Stdlib Require Import ZArith Lia.
From stdpp Require Import base list numbers option.
From S2P Require Import Prelude.
#[local] Open Scope Z_scope.

(** ** The implementation *)

(** The round constants, in decimal; [K_fips] of [Sha256Fips.v] identifies them. *)
Definition K : list Z := [
  1116352408; 1899447441; 3049323471; 3921009573; 961987163; 1508970993;
  2453635748; 2870763221; 3624381080; 310598401; 607225278; 1426881987;
  1925078388; 2162078206; 2614888103; 3248222580; 3835390401; 4022224774;
  264347078; 604807628; 770255983; 1249150122; 1555081692; 1996064986;
  2554220882; 2821834349; 2952996808; 3210313671; 3336571891; 3584528711;
  113926993; 338241895; 666307205; 773529912; 1294757372; 1396182291;
  1695183700; 1986661051; 2177026350; 2456956037; 2730485921; 2820302411;
  3259730800; 3345764771; 3516065817; 3600352804; 4094571909; 275423344;
  430227734; 506948616; 659060556; 883997877; 958139571; 1322822218;
  1537002063; 1747873779; 1955562222; 2024104815; 2227730452; 2361852424;
  2428436474; 2756734187; 3204031479; 3329325298].

Record Ctx : Type := mkCtx {
  state : list Z;
  bitlen : Z;
  buf : bytes;
  buflen : nat;
}.

Definition Ctx_new : Ctx :=
  mkCtx [0x6a09e667; 0xbb67ae85; 0x3c6ef372; 0xa54ff53a; 0x510e527f; 0x9b05688c; 0x1f83d9ab; 0x5be0cd19]
    0 (replicate 64 0) 0.

(** [x.rotate_right(n)] and [!x] on [u32] *)
Definition rotate_right (x n : Z) : Z := Z.lor (Z.shiftr x n) (as_u32 (Z.shiftl x (32 - n))).
Definition not32 (x : Z) : Z := Z.lxor x (two32 - 1).

(** [w[i]] for [i] in [16..64], from the words before it. *)
Definition w_next (w : list Z) : Z :=
  let at_back k := nth (length w - k) w 0 in
  let w15 := at_back 15%nat in
  let w2 := at_back 2%nat in
  let s0 := Z.lxor (Z.lxor (rotate_right w15 7) (rotate_right w15 18)) (Z.shiftr w15 3) in
  let s1 := Z.lxor (Z.lxor (rotate_right w2 17) (rotate_right w2 19)) (Z.shiftr w2 10) in
  wadd32 (wadd32 (wadd32 (at_back 16%nat) s0) (at_back 7%nat)) s1.

Fixpoint extend_schedule (n : nat) (w : list Z) : list Z :=
  match n with
  | O => w
  | S n' => extend_schedule n' (w ++ [w_next w])
  end.

Definition schedule (p : bytes) : list Z :=
  extend_schedule 48 (map (fun i => from_be_bytes (sub p (i * 4) (i * 4 + 4))) (seq 0 16)).

(** The working variables [a] to [h]. *)
Record Vars : Type := mkVars { va : Z; vb : Z; vc : Z; vd : Z; ve : Z; vf : Z; vg : Z; vh : Z }.

Definition round (v : Vars) (kw : Z * Z) : Vars :=
  let '(k_i, w_i) := kw in
  let s1 := Z.lxor (Z.lxor (rotate_right v.(ve) 6) (rotate_right v.(ve) 11)) (rotate_right v.(ve) 25) in
  let ch := Z.lxor (Z.land v.(ve) v.(vf)) (Z.land (not32 v.(ve)) v.(vg)) in
  let t1 := wadd32 (wadd32 (wadd32 (wadd32 v.(vh) s1) ch) k_i) w_i in
  let s0 := Z.lxor (Z.lxor (rotate_right v.(va) 2) (rotate_right v.(va) 13)) (rotate_right v.(va) 22) in
  let maj := Z.lxor (Z.lxor (Z.land v.(va) v.(vb)) (Z.land v.(va) v.(vc))) (Z.land v.(vb) v.(vc)) in
  let t2 := wadd32 s0 maj in
  mkVars (wadd32 t1 t2) v.(va) v.(vb) v.(vc) (wadd32 v.(vd) t1) v.(ve) v.(vf) v.(vg).

(** The state after the 64-byte block [p]. *)
Definition compress (st : list Z) (p : bytes) : list Z :=
  let s i := nth i st 0 in
  let v := fold_left round (combine K (schedule p))
    (mkVars (s 0%nat) (s 1%nat) (s 2%nat) (s 3%nat) (s 4%nat) (s 5%nat) (s 6%nat) (s 7%nat)) in
  [wadd32 (s 0%nat) v.(va); wadd32 (s 1%nat) v.(vb); wadd32 (s 2%nat) v.(vc); wadd32 (s 3%nat) v.(vd);
   wadd32 (s 4%nat) v.(ve); wadd32 (s 5%nat) v.(vf); wadd32 (s 6%nat) v.(vg); wadd32 (s 7%nat) v.(vh)].

Definition Ctx_block (c : Ctx) : Ctx := mkCtx (compress c.(state) c.(buf)) c.(bitlen) c.(buf) c.(buflen).

(** [buf[i] = byte], with the panic of an index out of range. *)
Definition buf_set (b : bytes) (i : nat) (byte : Z) : outcome bytes :=
  if (i <? length b)%nat then Done (<[i := byte]> b) else Panic.

(** The body of the loop of [update]. *)
Definition update_byte (c : Ctx) (byte : Z) : outcome Ctx :=
  let! b := buf_set c.(buf) c.(buflen) byte in
  let c := mkCtx c.(state) c.(bitlen) b (S c.(buflen)) in
  if (c.(buflen) =? 64)%nat then
    let c := Ctx_block c in
    Done (mkCtx c.(state) c.(bitlen) c.(buf) 0)
  else Done c.

Fixpoint update_loop (c : Ctx) (data : bytes) : outcome Ctx :=
  match data with
  | [] => Done c
  | byte :: rest => let! c := update_byte c byte in update_loop c rest
  end.

Definition update (c : Ctx) (data : bytes) : outcome Ctx :=
  update_loop (mkCtx c.(state) (wadd64 c.(bitlen) (as_u64 (Z.of_nat (length data) * 8))) c.(buf) c.(buflen)) data.

(** [while i < stop { buf[i] = 0; i += 1 }], with [n] rounds to go. *)
Fixpoint zero_fill (b : bytes) (i n : nat) : outcome bytes :=
  match n with
  | O => Done b
  | S n' => let! b := buf_set b i 0 in zero_fill b (S i) n'
  end.

(** The bit length, big-endian, at bytes 56 to 63; [j] is the next byte. *)
Fixpoint write_bits (b : bytes) (bits : Z) (j n : nat) : outcome bytes :=
  match n with
  | O => Done b
  | S n' =>
      let! b := buf_set b (56 + j) (Z.shiftr bits (56 - 8 * Z.of_nat j) mod 256) in
      write_bits b bits (S j) n'
  end.

Definition finalize (c : Ctx) : outcome bytes :=
  let bits := c.(bitlen) in
  let i := c.(buflen) in
  let! b := buf_set c.(buf) i 128 in
  let i := S i in
  let! (c, i) :=
    if (56 <? i)%nat then
      let! b := zero_fill b i (64 - i) in
      Done (Ctx_block (mkCtx c.(state) c.(bitlen) b c.(buflen)), O)
    else Done (mkCtx c.(state) c.(bitlen) b c.(buflen), i) in
  let! b := zero_fill c.(buf) i (56 - i) in
  let! b := write_bits b bits 0 8 in
  let c := Ctx_block (mkCtx c.(state) c.(bitlen) b c.(buflen)) in
  Done (concat (map (to_be_bytes 4) c.(state))).

Definition sha256_hash (data : bytes) : outcome bytes :=
  let! c := update Ctx_new data in
  finalize c.

(** ** The specification *)

(** Padding to a whole number of 64-byte blocks: a one bit, zeros, and the
    length in bits as a 64-bit big-endian number. *)
Definition pad (data : bytes) : bytes :=
  let n := length data in
  data ++ [128] ++ replicate (if (n mod 64 <? 56)%nat then 55 - n mod 64 else 119 - n mod 64) 0
       ++ to_be_bytes 8 (as_u64 (Z.of_nat n * 8)).

(** The compression function over the first [n] blocks. *)
Fixpoint run_blocks (n : nat) (st : list Z) (l : bytes) : list Z :=
  match n with
  | O => st
  | S n' => run_blocks n' (compress st (take 64 l)) (drop 64 l)
  end.

Definition sha256_spec (data : bytes) : bytes :=
  let padded := pad data in
  concat (map (to_be_bytes 4) (run_blocks (length padded / 64) Ctx_new.(state) padded)).

(** ** Lemmas *)

Lemma buf_set_Done b i byte : (i < length b)%nat -> buf_set b i byte = Done (<[i := byte]> b).
Proof. intros H. unfold buf_set. by apply Nat.ltb_lt in H as ->. Qed.

(** Writing the byte after a prefix extends the prefix. *)
Lemma take_S_insert (b : bytes) i byte :
  (i < length b)%nat -> take (S i) (<[i := byte]> b) = take i b ++ [byte].
Proof.
  intros Hi. rewrite (take_S_r _ _ byte); [|by apply list_lookup_insert_eq]. by rewrite take_insert_ge.
Qed.

Lemma run_blocks_app n m st l k :
  length l = (64 * n)%nat -> run_blocks (n + m) st (l ++ k) = run_blocks m (run_blocks n st l) k.
Proof.
  revert st l. induction n as [|n IH]; intros st l Hl; [by destruct l|].
  cbn [run_blocks plus]. rewrite take_app_le, drop_app_le by lia. apply IH. rewrite length_drop. lia.
Qed.

Lemma run_blocks_snoc n st l blk :
  length l = (64 * n)%nat -> length blk = 64%nat ->
  run_blocks (S n) st (l ++ blk) = compress (run_blocks n st l) blk.
Proof.
  intros Hl Hb. rewrite <- Nat.add_1_r, run_blocks_app by done. cbn [run_blocks]. by rewrite take_ge by lia.
Qed.

(** The context after the bytes [data]: whole blocks are compressed, the rest
    is at the front of the buffer. *)
Record absorbed (data : bytes) (c : Ctx) : Prop := {
  ab_len : length c.(buf) = 64%nat;
  ab_lt : (c.(buflen) < 64)%nat;
  ab_split : exists full n, data = full ++ take c.(buflen) c.(buf) /\ length full = (64 * n)%nat /\
    c.(state) = run_blocks n Ctx_new.(state) full;
}.

Lemma update_byte_absorbed data c byte :
  absorbed data c -> exists c', update_byte c byte = Done c' /\ absorbed (data ++ [byte]) c' /\ c'.(bitlen) = c.(bitlen).
Proof.
  intros [Hlen Hlt (full & n & -> & Hf & Hst)]. unfold update_byte. rewrite buf_set_Done by lia. cbn [obind buflen].
  pose proof (take_S_insert (buf c) (buflen c) byte ltac:(lia)) as Htake.
  destruct (Nat.eqb_spec (S (buflen c)) 64) as [E|E]; eexists; (split; [reflexivity|]); (split; [|done]).
  - split; cbn [buf buflen state Ctx_block]; [by rewrite length_insert|lia|].
    exists (full ++ <[buflen c:=byte]> (buf c)), (S n).
    rewrite E, take_ge in Htake by (rewrite length_insert; lia).
    split_and!; [by rewrite Htake, app_nil_r, app_assoc|rewrite length_app, length_insert; lia|].
    rewrite run_blocks_snoc by (done || by rewrite length_insert). by rewrite Hst.
  - split; cbn [buf buflen state]; [by rewrite length_insert|lia|].
    exists full, n. split_and!; [by rewrite Htake, app_assoc|done|done].
Qed.

Lemma update_loop_absorbed more : forall data c,
  absorbed data c -> exists c', update_loop c more = Done c' /\ absorbed (data ++ more) c' /\ c'.(bitlen) = c.(bitlen).
Proof.
  induction more as [|byte more IH]; intros data c Hc.
  - exists c. by rewrite app_nil_r.
  - cbn [update_loop]. destruct (update_byte_absorbed data c byte Hc) as (c1 & -> & Hc1 & Hb1). cbn [obind].
    destruct (IH _ _ Hc1) as (c2 & -> & Hc2 & Hb2). exists c2. rewrite <- app_assoc in Hc2. split_and!; [done..|congruence].
Qed.

Lemma update_new data :
  exists c, update Ctx_new data = Done c /\ absorbed data c /\ c.(bitlen) = as_u64 (Z.of_nat (length data) * 8).
Proof.
  destruct (update_loop_absorbed data [] (mkCtx Ctx_new.(state) (wadd64 0 (as_u64 (Z.of_nat (length data) * 8))) (replicate 64 0) 0))
    as (c & Hc & Ha & Hb).
  { split; cbn; [done|lia|]. by exists [], O. }
  exists c. split_and!; [done..|]. rewrite Hb. cbn. unfold wadd64, as_u64. rewrite Z.add_0_l, Z.mod_mod; [done|]. unfold two64. lia.
Qed.

Lemma zero_fill_spec n : forall b i,
  (i + n <= length b)%nat -> zero_fill b i n = Done (take i b ++ replicate n 0 ++ drop (i + n) b).
Proof.
  induction n as [|n IH]; intros b i Hi; cbn [zero_fill replicate app].
  - by rewrite Nat.add_0_r, take_drop.
  - rewrite buf_set_Done by lia. cbn [obind]. rewrite IH by (rewrite length_insert; lia).
    rewrite take_S_insert by lia. rewrite <- app_assoc. cbn [app]. do 4 f_equal.
    rewrite drop_insert_lt by lia. f_equal. lia.
Qed.

Lemma write_bits_loop bits n : forall b j,
  (56 + j + n <= length b)%nat ->
  write_bits b bits j n =
  Done (take (56 + j) b ++ map (fun j => Z.shiftr bits (56 - 8 * Z.of_nat j) mod 256) (seq j n) ++ drop (56 + j + n) b).
Proof.
  induction n as [|n IH]; intros b j Hj; cbn [write_bits seq map app].
  - by rewrite Nat.add_0_r, take_drop.
  - rewrite buf_set_Done by lia. cbn [obind]. rewrite IH by (rewrite length_insert; lia).
    replace (56 + S j)%nat with (S (56 + j)) by lia. rewrite take_S_insert by lia. rewrite <- app_assoc. cbn [app]. do 4 f_equal.
    rewrite drop_insert_lt by lia. f_equal. lia.
Qed.

Lemma write_bits_spec b bits :
  length b = 64%nat -> write_bits b bits 0 8 = Done (take 56 b ++ to_be_bytes 8 bits).
Proof.
  intros Hl. rewrite write_bits_loop by lia. rewrite drop_ge, app_nil_r by lia. do 2 f_equal.
  unfold to_be_bytes. cbn -[Z.shiftr Z.modulo Z.div].
  rewrite !Z.shiftr_div_pow2 by lia. rewrite !Z.div_div by lia. cbn -[Z.modulo Z.div]. by rewrite Z.div_1_r.
Qed.

(** The digest of a message whose padding is spelled out. *)
Lemma run_padded_1 n full blk :
  length full = (64 * n)%nat -> length blk = 64%nat ->
  run_blocks (length (full ++ blk) / 64) Ctx_new.(state) (full ++ blk) = compress (run_blocks n Ctx_new.(state) full) blk.
Proof.
  intros Hf Hb. rewrite length_app, Hf, Hb. replace (64 * n + 64)%nat with (S n * 64)%nat by lia.
  rewrite Nat.div_mul by lia. by apply run_blocks_snoc.
Qed.

Lemma run_padded_2 n full blk1 blk2 :
  length full = (64 * n)%nat -> length blk1 = 64%nat -> length blk2 = 64%nat ->
  run_blocks (length (full ++ blk1 ++ blk2) / 64) Ctx_new.(state) (full ++ blk1 ++ blk2) =
  compress (compress (run_blocks n Ctx_new.(state) full) blk1) blk2.
Proof.
  intros Hf H1 H2. rewrite app_assoc, (run_padded_1 (S n)) by (len; lia). by rewrite run_blocks_snoc.
Qed.

(** Finishing a message is compressing the padded rest. *)
Lemma finalize_spec data c :
  absorbed data c -> c.(bitlen) = as_u64 (Z.of_nat (length data) * 8) -> finalize c = Done (sha256_spec data).
Proof.
  intros [Hlen Hlt (full & n & Hdata & Hf & Hst)] Hbits.
  set (rest := take (buflen c) (buf c)) in *. assert (length rest = buflen c) as Hrest by (unfold rest; rewrite length_take; lia).
  assert ((length data mod 64)%nat = buflen c) as Hmod.
  { rewrite Hdata, length_app, Hf, Hrest. symmetry. apply (Nat.mod_unique _ _ n); lia. }
  unfold finalize. rewrite buf_set_Done by lia. cbn [obind].
  pose proof (take_S_insert (buf c) (buflen c) 128 ltac:(lia)) as Htake. fold rest in Htake.
  set (b := <[buflen c := 128]> (buf c)) in *. assert (length b = 64%nat) as Hb by (unfold b; by rewrite length_insert).
  unfold sha256_spec, pad. rewrite Hmod, Hbits.
  set (nb := as_u64 (Z.of_nat (length data) * 8)). clearbody nb. set (bits := to_be_bytes 8 nb).
  assert (length bits = 8%nat) as Hbl by (unfold bits, to_be_bytes; by rewrite length_reverse, length_to_le_bytes).
  rewrite Hdata, <- !app_assoc.
  destruct (Nat.ltb_spec 56 (S (buflen c))) as [Hbig|Hsmall].
  - rewrite zero_fill_spec, Htake, drop_ge, app_nil_r by lia. cbn [obind].
    rewrite zero_fill_spec by (cbn [Ctx_block buf]; len; lia). cbn [obind].
    rewrite write_bits_spec by (cbn [Ctx_block buf]; len; lia). cbn [obind state Ctx_block buf]. rewrite take_0, app_nil_l, Nat.sub_0_r.
    destruct (Nat.ltb_spec (buflen c) 56); [lia|]. fold bits.
    replace (119 - buflen c)%nat with ((64 - S (buflen c)) + 56)%nat by lia. rewrite replicate_add.
    replace (rest ++ [128] ++ (replicate (64 - S (buflen c)) 0 ++ replicate 56 0) ++ bits)
      with (((rest ++ [128]) ++ replicate (64 - S (buflen c)) 0) ++ (replicate 56 0 ++ bits)) by (by rewrite <- !app_assoc).
    rewrite (run_padded_2 n) by (len; lia). rewrite <- Hst, take_app_length' by (by rewrite length_replicate). reflexivity.
  - cbn [obind buf state]. rewrite zero_fill_spec, Htake by lia. cbn [obind].
    rewrite write_bits_spec by (len; lia). cbn [obind state Ctx_block buf].
    destruct (Nat.ltb_spec (buflen c) 56); [|lia]. fold bits.
    replace (56 - S (buflen c))%nat with (55 - buflen c)%nat by lia.
    replace (rest ++ [128] ++ replicate (55 - buflen c) 0 ++ bits)
      with (((rest ++ [128]) ++ replicate (55 - buflen c) 0) ++ bits) by (by rewrite <- !app_assoc).
    rewrite (run_padded_1 n) by (len; lia). rewrite <- Hst.
    rewrite (app_assoc (rest ++ [128])), take_app_length' by (len; lia). reflexivity.
Qed.

Lemma sha256_hash_spec data : sha256_hash data = Done (sha256_spec data).
Proof.
  unfold sha256_hash. destruct (update_new data) as (c & -> & Ha & Hb). cbn [obind]. by apply finalize_spec.
Qed.

Lemma length_sha256_spec data : length (sha256_spec data) = 32%nat.
Proof.
  unfold sha256_spec. set (n := (_ / 64)%nat). set (l := pad data). clearbody l n.
  assert (forall st, length st = 8%nat -> length (run_blocks n st l) = 8%nat) as H.
  { revert l. induction n as [|n IH]; intros l st Hst; [done|]. cbn [run_blocks]. by apply IH. }
  specialize (H (state Ctx_new) eq_refl). revert H. generalize (run_blocks n (state Ctx_new) l). intros st Hst.
  assert (length (concat (map (to_be_bytes 4) st)) = 4 * length st)%nat as ->; [|lia].
  clear. induction st as [|x st IH]; [done|]. cbn [map concat]. rewrite length_app, IH.
  unfold to_be_bytes. rewrite length_reverse, length_to_le_bytes. cbn. lia.
Qed.

Lemma sha256_spec_bytes data : is_bytes (sha256_spec data).
Proof.
  unfold sha256_spec. generalize (run_blocks (length (pad data) / 64) (state Ctx_new) (pad data)). intros st.
  induction st as [|x st IH]; [constructor|]. cbn [map concat]. apply Forall_app_2; [|done].
  apply Forall_reverse, to_le_bytes_bytes.
Qed.

(** ** Known answers *)

(** The known answers of FIPS 180-4: the empty message, ["abc"], and the
    56-byte message that needs a second padding block. *)
Example sha256_abc :
  sha256_hash [97; 98; 99] = Done (to_be_bytes 32 0xba7816bf8f01cfea414140de5dae2223b00361a396177a9cb410ff61f20015ad).
Proof. by vm_compute. Qed.
Example sha256_empty :
  sha256_hash [] = Done (to_be_bytes 32 0xe3b0c44298fc1c149afbf4c8996fb92427ae41e4649b934ca495991b7852b855).
Proof. by vm_compute. Qed.
Example sha256_two_blocks :
  sha256_hash [97; 98; 99; 100; 98; 99; 100; 101; 99; 100; 101; 102; 100; 101; 102; 103; 101; 102; 103; 104; 102; 103;
    104; 105; 103; 104; 105; 106; 104; 105; 106; 107; 105; 106; 107; 108; 106; 107; 108; 109; 107; 108; 109; 110; 108;
    109; 110; 111; 109; 110; 111; 112; 110; 111; 112; 113] =
  Done (to_be_bytes 32 0x248d6a61d20638b8e5c026930c3e6039a33ce45964ff2167f6ecedd419db06c1).
Proof. by vm_compute. Qed.
