(* ===== verification/Sha256Fips.v ===== *)
(** * FIPS 180-4

    SHA-256 as the standard defines it, on its own: the constants from the
    roots of the primes, rotations and sums as arithmetic modulo [2^32]. The
    implementation of [Sha256.v] computes it. *)
From Stdlib Require Import ZArith Lia.
From stdpp Require Import base list numbers option.
From S2P Require Import Prelude Sha256.
#[local] Open Scope Z_scope.

(** ** The standard *)

Definition is_prime (p : Z) : bool := forallb (fun d => negb (p mod d =? 0)) (seqZ 2 (p - 2)).

(** The first 64 primes. *)
Definition primes : list Z := List.filter is_prime (seqZ 2 310).

(** The integer cube root, bit by bit from bit [k - 1]. *)
Fixpoint cube_root (k : nat) (acc n : Z) : Z :=
  match k with
  | O => acc
  | S k' => let c := acc + 2 ^ Z.of_nat k' in cube_root k' (if c ^ 3 <=? n then c else acc) n
  end.

(** The first 32 bits of the fractional parts of the cube roots of the first
    64 primes, and of the square roots of the first eight. *)
Definition fips_K : list Z := map (fun p => cube_root 36 0 (p * 2 ^ 96) mod 2 ^ 32) primes.
Definition fips_H0 : list Z := map (fun p => Z.sqrt (p * 2 ^ 64) mod 2 ^ 32) (take 8 primes).

Definition ROTR (n x : Z) : Z := x / 2 ^ n + x mod 2 ^ n * 2 ^ (32 - n).
Definition SHR (n x : Z) : Z := x / 2 ^ n.
Definition Ch (x y z : Z) : Z := Z.lxor (Z.land x y) (Z.land (2 ^ 32 - 1 - x) z).
Definition Maj (x y z : Z) : Z := Z.lxor (Z.lxor (Z.land x y) (Z.land x z)) (Z.land y z).
Definition Sigma0 (x : Z) : Z := Z.lxor (Z.lxor (ROTR 2 x) (ROTR 13 x)) (ROTR 22 x).
Definition Sigma1 (x : Z) : Z := Z.lxor (Z.lxor (ROTR 6 x) (ROTR 11 x)) (ROTR 25 x).
Definition sigma0 (x : Z) : Z := Z.lxor (Z.lxor (ROTR 7 x) (ROTR 18 x)) (SHR 3 x).
Definition sigma1 (x : Z) : Z := Z.lxor (Z.lxor (ROTR 17 x) (ROTR 19 x)) (SHR 10 x).

(** The message schedule: [fips_W n M] is [W_0 ... W_(15+n)]. *)
Fixpoint fips_W (n : nat) (M : list Z) : list Z :=
  match n with
  | O => M
  | S n' =>
      let W := fips_W n' M in
      let t := (16 + n')%nat in
      let at_ k := nth (t - k) W 0 in
      W ++ [(sigma1 (at_ 2%nat) + at_ 7%nat + sigma0 (at_ 15%nat) + at_ 16%nat) mod 2 ^ 32]
  end.

Definition fips_round (v : Vars) (kw : Z * Z) : Vars :=
  let '(mkVars a b c d e f g h) := v in
  let T1 := (h + Sigma1 e + Ch e f g + kw.1 + kw.2) mod 2 ^ 32 in
  let T2 := (Sigma0 a + Maj a b c) mod 2 ^ 32 in
  mkVars ((T1 + T2) mod 2 ^ 32) a b c ((d + T1) mod 2 ^ 32) e f g.

(** A block as sixteen big-endian words. *)
Fixpoint words (n : nat) (p : bytes) : list Z :=
  match n with
  | O => []
  | S n' => from_be_bytes (take 4 p) :: words n' (drop 4 p)
  end.

Definition vars_list (v : Vars) : list Z := [va v; vb v; vc v; vd v; ve v; vf v; vg v; vh v].

Definition fips_block (H : list Z) (p : bytes) : list Z :=
  match H with
  | [a; b; c; d; e; f; g; h] =>
      let v := fold_left fips_round (combine fips_K (fips_W 48 (words 16 p))) (mkVars a b c d e f g h) in
      zip_with (fun x y => (x + y) mod 2 ^ 32) H (vars_list v)
  | _ => []
  end.

Fixpoint fips_blocks (n : nat) (H : list Z) (l : bytes) : list Z :=
  match n with
  | O => H
  | S n' => fips_blocks n' (fips_block H (take 64 l)) (drop 64 l)
  end.

(** The message, a one bit, the least number of zeros that leaves 64 bits of
    the last block, and the length in bits. *)
Definition fips_pad (data : bytes) : bytes :=
  let l := Z.of_nat (length data) in
  data ++ [128] ++ replicate (Z.to_nat ((55 - l) mod 64)) 0 ++ to_be_bytes 8 (8 * l).

Definition fips_sha256 (data : bytes) : bytes :=
  let padded := fips_pad data in
  concat (map (to_be_bytes 4) (fips_blocks (length padded / 64) fips_H0 padded)).

(** ** Words *)

Definition is_u32 (x : Z) : Prop := 0 <= x < 2 ^ 32.
#[local] Instance is_u32_dec x : Decision (is_u32 x) := ltac:(unfold is_u32; apply _).

Lemma mod_u32 x : is_u32 (x mod 2 ^ 32).
Proof. by apply Z.mod_pos_bound. Qed.
#[local] Hint Resolve mod_u32 : core.

Lemma rotate_right_ROTR x n : 0 < n < 32 -> is_u32 x -> rotate_right x n = ROTR n x.
Proof.
  intros Hn [Hx1 Hx2]. unfold rotate_right, ROTR, as_u32, two32.
  rewrite Z.shiftr_div_pow2, Z.shiftl_mul_pow2 by lia.
  assert (0 < 2 ^ n) by (apply Z.pow_pos_nonneg; lia). assert (0 < 2 ^ (32 - n)) by (apply Z.pow_pos_nonneg; lia).
  assert (2 ^ n * 2 ^ (32 - n) = 2 ^ 32) as He by (rewrite <- Z.pow_add_r by lia; f_equal; lia).
  change 4294967296 with (2 ^ 32).
  assert ((x * 2 ^ (32 - n)) mod 2 ^ 32 = x mod 2 ^ n * 2 ^ (32 - n)) as ->
    by (rewrite <- He; apply Z.mul_mod_distr_r; lia).
  apply lor_shift; [lia|]. split; [by apply Z.div_pos|]. apply Z.div_lt_upper_bound; lia.
Qed.

Lemma not32_complement x : is_u32 x -> not32 x = 2 ^ 32 - 1 - x.
Proof.
  intros [H1 H2]. unfold not32. change (two32 - 1) with (Z.ones 32). change (2 ^ 32 - 1) with (Z.ones 32).
  assert (Z.log2 x < 32).
  { destruct (decide (x = 0)) as [->|]; [done|]. apply Z.log2_lt_pow2; lia. }
  rewrite <- Z.ldiff_ones_l_low by done. symmetry. apply Z.sub_nocarry_ldiff. by apply Z.ldiff_ones_r_low.
Qed.

(** A nest of wrapping additions wraps once. *)
Lemma wadd32_3 a b c : wadd32 (wadd32 a b) c = (a + b + c) mod 2 ^ 32.
Proof. unfold wadd32. change two32 with (2 ^ 32). by rewrite Zplus_mod_idemp_l. Qed.

Lemma wadd32_4 a b c d : wadd32 (wadd32 (wadd32 a b) c) d = (a + b + c + d) mod 2 ^ 32.
Proof. rewrite (wadd32_3 a b c). unfold wadd32. change two32 with (2 ^ 32). by rewrite Zplus_mod_idemp_l. Qed.

Lemma wadd32_5 a b c d e : wadd32 (wadd32 (wadd32 (wadd32 a b) c) d) e = (a + b + c + d + e) mod 2 ^ 32.
Proof. rewrite (wadd32_4 a b c d). unfold wadd32. change two32 with (2 ^ 32). by rewrite Zplus_mod_idemp_l. Qed.

(** ** The schedule *)

Lemma extend_schedule_S n w : extend_schedule (S n) w = extend_schedule n w ++ [w_next (extend_schedule n w)].
Proof. revert w. induction n as [|n IH]; intros w; [done|]. cbn [extend_schedule]. by rewrite <- IH. Qed.

Lemma nth_u32 l i : Forall is_u32 l -> is_u32 (nth i l 0).
Proof.
  intros H. destruct (nth_in_or_default i l 0) as [Hi| ->]; [|done].
  by apply (proj1 (List.Forall_forall _ _) H).
Qed.
#[local] Hint Resolve nth_u32 : core.

Lemma w_next_fips W n :
  length W = (16 + n)%nat -> Forall is_u32 W ->
  w_next W = (sigma1 (nth (16 + n - 2) W 0) + nth (16 + n - 7) W 0 + sigma0 (nth (16 + n - 15) W 0)
              + nth (16 + n - 16) W 0) mod 2 ^ 32.
Proof.
  intros Hl Hu. unfold w_next, sigma0, sigma1, SHR. rewrite Hl.
  rewrite !rotate_right_ROTR, !Z.shiftr_div_pow2 by (auto; lia).
  rewrite wadd32_4. f_equal. ring.
Qed.

Lemma fips_W_schedule n M :
  length M = 16%nat -> Forall is_u32 M ->
  extend_schedule n M = fips_W n M /\ length (fips_W n M) = (16 + n)%nat /\ Forall is_u32 (fips_W n M).
Proof.
  intros Hl Hu. induction n as [|n (IH & IHl & IHu)]; [by rewrite Nat.add_0_r|].
  rewrite extend_schedule_S, IH. cbn [fips_W]. rewrite (w_next_fips _ n) by done. split; [done|].
  rewrite length_app, IHl. split; [cbn; lia|]. apply Forall_app_2; [done|]. by repeat constructor; apply mod_u32.
Qed.

Lemma words_sub p n k :
  map (fun i => from_be_bytes (sub p (i * 4) (i * 4 + 4))) (seq k n) = words n (drop (k * 4) p).
Proof.
  revert k. induction n as [|n IH]; intros k; [done|]. cbn [seq map words]. rewrite IH, drop_drop. f_equal.
  - unfold sub. do 2 f_equal. lia.
  - do 2 f_equal. lia.
Qed.

Lemma words_u32 n p : is_bytes p -> (4 * n <= length p)%nat -> Forall is_u32 (words n p).
Proof.
  revert p. induction n as [|n IH]; intros p Hp Hl; [constructor|]. cbn [words]. constructor.
  - unfold from_be_bytes. assert (is_bytes (reverse (take 4 p))) as Hb by (by apply Forall_reverse, Forall_take).
    pose proof (from_le_bytes_bound _ Hb) as H. rewrite length_reverse, length_take, Nat.min_l in H by lia. exact H.
  - apply IH; [by apply Forall_drop|]. rewrite length_drop. lia.
Qed.

Lemma length_words n p : length (words n p) = n.
Proof. revert p. induction n as [|n IH]; intros p; [done|]. cbn. by rewrite IH. Qed.

Lemma schedule_fips p :
  is_bytes p -> length p = 64%nat ->
  schedule p = fips_W 48 (words 16 p) /\ Forall is_u32 (schedule p).
Proof.
  intros Hp Hl. unfold schedule. rewrite (words_sub p 16 0), drop_0.
  destruct (fips_W_schedule 48 (words 16 p)) as (-> & _ & H); [apply length_words|apply words_u32; [done|lia]|]. done.
Qed.

(** ** The rounds *)

Definition vars_u32 (v : Vars) : Prop := Forall is_u32 (vars_list v).

Lemma round_fips v kw : vars_u32 v -> round v kw = fips_round v kw /\ vars_u32 (fips_round v kw).
Proof.
  destruct v as [a b c d e f g h], kw as [k w]. unfold vars_u32, vars_list. cbn [va vb vc vd ve vf vg vh].
  rewrite !Forall_cons_iff. intros (Ha & Hb & Hc & Hd & He & Hf & Hg & Hh & _). split.
  - unfold round, fips_round, Sigma0, Sigma1, Ch, Maj. cbn [va vb vc vd ve vf vg vh fst snd].
    rewrite !rotate_right_ROTR, not32_complement by first [assumption | lia]. by rewrite !(wadd32_5 h).
  - cbn [fips_round fst snd]. unfold vars_list. cbn [va vb vc vd ve vf vg vh].
    split_and!; first [apply mod_u32 | assumption | constructor].
Qed.

Lemma rounds_fips l v :
  vars_u32 v -> fold_left round l v = fold_left fips_round l v /\ vars_u32 (fold_left fips_round l v).
Proof.
  revert v. induction l as [|kw l IH]; intros v Hv; [done|]. cbn [fold_left].
  destruct (round_fips v kw Hv) as [-> H]. by apply IH.
Qed.

Lemma K_fips : K = fips_K.
Proof. by vm_compute. Qed.

Lemma H0_fips : state Ctx_new = fips_H0.
Proof. by vm_compute. Qed.

Definition state_u32 (H : list Z) : Prop := length H = 8%nat /\ Forall is_u32 H.

Lemma compress_fips H p :
  state_u32 H -> is_bytes p -> length p = 64%nat ->
  compress H p = fips_block H p /\ state_u32 (fips_block H p).
Proof.
  intros [Hl Hu] Hp Hlp. destruct H as [|a [|b [|c [|d [|e [|f [|g [|h [|]]]]]]]]]; try discriminate Hl.
  destruct (schedule_fips p Hp Hlp) as [Hs _].
  unfold compress, fips_block. cbn [nth]. rewrite K_fips, Hs.
  destruct (rounds_fips (combine fips_K (fips_W 48 (words 16 p))) (mkVars a b c d e f g h)) as [-> _]; [done|].
  split; [done|]. split; [done|]. cbn [zip_with vars_list]. by repeat constructor; try apply mod_u32.
Qed.

Lemma run_blocks_fips n H l :
  state_u32 H -> is_bytes l -> (64 * n <= length l)%nat -> run_blocks n H l = fips_blocks n H l.
Proof.
  revert H l. induction n as [|n IH]; intros H l HH Hb Hl; [done|]. cbn [run_blocks fips_blocks].
  destruct (compress_fips H (take 64 l)) as [-> HH']; [done|by apply Forall_take|rewrite length_take; lia|].
  apply IH; [done|by apply Forall_drop|]. rewrite length_drop. lia.
Qed.

(** ** Padding *)

Lemma pad_fips data : 8 * Z.of_nat (length data) < 2 ^ 64 -> pad data = fips_pad data.
Proof.
  intros H. unfold pad, fips_pad. do 2 f_equal. f_equal.
  - f_equal. set (n := length data). pose proof (Nat.mod_upper_bound n 64 ltac:(done)) as Hm.
    assert ((55 - Z.of_nat n) mod 64 = (55 - Z.of_nat (n mod 64)) mod 64) as ->.
    { rewrite Nat2Z.inj_mod. by rewrite Zminus_mod_idemp_r. }
    destruct (Nat.ltb_spec (n mod 64) 56).
    + rewrite Z.mod_small by lia. lia.
    + rewrite <- (Z.mod_add _ 1), Z.mod_small by lia. lia.
  - f_equal. unfold as_u64. rewrite Z.mod_small; [lia|]. unfold two64. lia.
Qed.

Lemma pad_bytes data : is_bytes data -> is_bytes (pad data).
Proof.
  intros H. unfold pad. apply is_bytes_app. split; [done|]. apply is_bytes_app. split; [by repeat constructor|].
  apply is_bytes_app. split; [by apply Forall_replicate|]. apply Forall_reverse, to_le_bytes_bytes.
Qed.

Lemma sha256_spec_fips data :
  is_bytes data -> 8 * Z.of_nat (length data) < 2 ^ 64 -> sha256_spec data = fips_sha256 data.
Proof.
  intros Hb Hl. unfold sha256_spec, fips_sha256. rewrite <- pad_fips, <- H0_fips by done. do 2 f_equal.
  apply run_blocks_fips; [by split; [done|apply (bool_decide_unpack _)]|by apply pad_bytes|].
  apply Nat.Div0.mul_div_le.
Qed.

(** ** Properties *)

(** C32: the signer's hash is SHA-256. On every message that the standard
    admits, the buffered implementation returns (no index is out of range) the
    digest the standard defines. *)
Theorem sha256_hash_is_fips data :
  is_bytes data -> 8 * Z.of_nat (length data) < 2 ^ 64 ->
  sha256_hash data = Done (fips_sha256 data) /\ length (fips_sha256 data) = 32%nat.
Proof.
  intros Hb Hl. rewrite <- sha256_spec_fips by done. split; [apply sha256_hash_spec|apply length_sha256_spec].
Qed.

Lemma sha256_hash_is_fips_witness : sha256_hash [97; 98; 99] = Done (fips_sha256 [97; 98; 99]).
Proof. apply (sha256_hash_is_fips [97; 98; 99]); [by apply (bool_decide_unpack _)|vm_compute; reflexivity]. Defined.
