(* ===== verification/Merkle.v ===== *)
(** * The Merkle root of a signed file

    [src/src/ohos_sign/src/merkle.rs]: the fs-verity Merkle tree of a file with
    SHA-256, 4 KiB pages and 128 hashes per page. Pages of the code-signature
    range contribute a zero hash, so the signature can be written after the
    root is computed. *)
From Stdlib Require Import ZArith Lia.
From stdpp Require Import base list numbers option.
From S2P Require Import Prelude Sha256.
#[local] Open Scope Z_scope.

(** ** The implementation *)

Definition PAGE : nat := Z.to_nat 4096.
Definition HASH : nat := 32.

Definition zero_page : bytes := replicate PAGE 0.
Definition zero_hash : bytes := replicate HASH 0.

(** [(0..n).map(f).collect()] *)
Fixpoint collect {A : Type} (f : nat -> outcome A) (idx : list nat) : outcome (list A) :=
  match idx with
  | [] => Done []
  | i :: rest => let! x := f i in let! xs := collect f rest in Done (x :: xs)
  end.

(** The page [i] of [data], filled up with zeros. *)
Definition data_page (data : bytes) (i : nat) : outcome bytes :=
  let off := (i * PAGE)%nat in
  let n := Nat.min PAGE (length data - off) in
  let! src := index_range data (Z.of_nat off) (Z.of_nat (off + n)) in
  write_at zero_page 0 src.

Definition leaf_hash (data : bytes) (cs_len : Z) (cs_page_begin cs_page_end : Z) (i : nat) : outcome bytes :=
  if (0 <? cs_len) && (cs_page_begin <=? Z.of_nat i) && (Z.of_nat i <? cs_page_end)
  then Done zero_hash
  else let! page := data_page data i in sha256_hash page.

(** [for (j, hash) in hashes { page[j*H..j*H+H].copy_from_slice(hash) }] *)
Fixpoint pack_hashes (page : bytes) (j : nat) (hashes : list bytes) : outcome bytes :=
  match hashes with
  | [] => Done page
  | h :: rest => let! page := write_at page (Z.of_nat (j * HASH)) h in pack_hashes page (S j) rest
  end.

(** One page of the next level: the hashes from [i * 128]. *)
Definition level_page (cur : list bytes) (i : nat) : outcome bytes :=
  let off := (i * PAGE / HASH)%nat in
  let count := Nat.min (PAGE / HASH) (length cur - off) in
  let! page := pack_hashes zero_page 0 (take count (drop off cur)) in
  sha256_hash page.

(** The [loop]: each level has a 128th of the hashes of the one before. *)
Fixpoint root_loop (fuel : nat) (cur : list bytes) : outcome bytes :=
  let packed := (length cur * HASH)%nat in
  if (packed <=? PAGE)%nat then
    let! page := pack_hashes zero_page 0 cur in
    sha256_hash page
  else
    match fuel with
    | O => NoFuel
    | S fuel' =>
        let next_pages := ((packed + PAGE - 1) / PAGE)%nat in
        let! next := collect (level_page cur) (seq 0 next_pages) in
        root_loop fuel' next
    end.

Definition root_hash (data : bytes) (cs_off cs_len : Z) : outcome bytes :=
  if (length data =? 0)%nat then sha256_hash zero_page
  else
    let npages := ((length data + PAGE - 1) / PAGE)%nat in
    let cs_page_begin := cs_off / Z.of_nat PAGE in
    let cs_page_end :=
      if 0 <? cs_len then as_u64 (wadd64 (wadd64 cs_off cs_len) (Z.of_nat PAGE) - 1) / Z.of_nat PAGE else 0 in
    let! cur := collect (leaf_hash data cs_len cs_page_begin cs_page_end) (seq 0 npages) in
    match cur with
    | [h] => Done h
    | _ => root_loop (length cur) cur
    end.

(** ** The specification *)

Definition pad_page (l : bytes) : bytes := l ++ replicate (PAGE - length l) 0.

Definition page_at (data : bytes) (i : nat) : bytes := pad_page (take PAGE (drop (i * PAGE) data)).

Definition pages (n : nat) : nat := ((n + PAGE - 1) / PAGE)%nat.

(** The pages that overlap the code-signature range. *)
Definition in_codesign (cs_off cs_len : Z) (i : nat) : bool :=
  (0 <? cs_len) && (cs_off / Z.of_nat PAGE <=? Z.of_nat i)
  && (Z.of_nat i <? (cs_off + cs_len + Z.of_nat PAGE - 1) / Z.of_nat PAGE).

Definition leaves (data : bytes) (cs_off cs_len : Z) : list bytes :=
  match data with
  | [] => [sha256_spec zero_page]
  | _ => map (fun i => if in_codesign cs_off cs_len i then zero_hash else sha256_spec (page_at data i))
           (seq 0 (pages (length data)))
  end.

(** The next level: pages of 128 hashes. *)
Definition level (hs : list bytes) : list bytes :=
  map (fun i => sha256_spec (pad_page (concat (take 128 (drop (i * 128) hs))))) (seq 0 (pages (length hs * HASH))).

(** [merkle_root hs r]: folding [hs] level by level ends in the single hash [r]. *)
Inductive merkle_root : list bytes -> bytes -> Prop :=
| root_single h : merkle_root [h] h
| root_level hs r : (1 < length hs)%nat -> merkle_root (level hs) r -> merkle_root hs r.

(** ** Lemmas *)

Lemma PAGE_val : PAGE = (128 * 32)%nat.
Proof. by vm_compute. Qed.
Lemma PAGE_Z : Z.of_nat PAGE = 4096.
Proof. by vm_compute. Qed.
Lemma PAGE_HASH : (PAGE / HASH)%nat = 128%nat.
Proof. by vm_compute. Qed.
#[local] Opaque PAGE sha256_spec sha256_hash.

Lemma collect_map {A} (f : nat -> outcome A) (g : nat -> A) idx :
  Forall (fun i => f i = Done (g i)) idx -> collect f idx = Done (map g idx).
Proof. induction 1 as [|i idx Hi _ IH]; [done|]. cbn. by rewrite Hi, IH. Qed.

Lemma length_pad_page l : (length l <= PAGE)%nat -> length (pad_page l) = PAGE.
Proof. intros. unfold pad_page. len. lia. Qed.

Lemma data_page_spec data i : (i * PAGE <= length data)%nat -> data_page data i = Done (page_at data i).
Proof.
  intros Hi. unfold data_page, page_at. set (n := Nat.min PAGE (length data - i * PAGE)).
  unfold index_range. rewrite (proj2 (get_range_Some _ _ _ (take PAGE (drop (i * PAGE) data)))).
  - cbn [obind]. apply write_at_Done. split_and!; [lia|rewrite length_take, length_drop; unfold zero_page; rewrite length_replicate; lia|].
    unfold pad_page, zero_page. change (Z.to_nat 0) with 0%nat.
    rewrite take_0, app_nil_l, Nat.add_0_l, drop_replicate. reflexivity.
  - split_and!; [lia..|]. rewrite !Nat2Z.id. unfold sub. replace (i * PAGE + n - i * PAGE)%nat with n by lia.
    unfold n. rewrite <- take_take, (take_ge (drop _ _) (length _ - _)); [done|]. rewrite length_drop. lia.
Qed.

(** Packing hashes into a zero page is concatenation. *)
Lemma pack_hashes_spec hashes : forall pre j z,
  Forall (fun h => length h = HASH) hashes -> length pre = (j * HASH)%nat -> (length hashes * HASH <= z)%nat ->
  pack_hashes (pre ++ replicate z 0) j hashes =
  Done (pre ++ concat hashes ++ replicate (z - length hashes * HASH) 0).
Proof.
  induction hashes as [|h hashes IH]; intros pre j z Hh Hpre Hz; cbn [pack_hashes concat length].
  - by rewrite Nat.sub_0_r.
  - pose proof (Forall_inv Hh) as Hlen. cbn beta in Hlen. cbn [length Nat.mul] in Hz.
    assert (write_at (pre ++ replicate z 0) (Z.of_nat (j * HASH)) h = Done ((pre ++ h) ++ replicate (z - HASH) 0)) as ->.
    { apply write_at_Done. rewrite length_app, length_replicate. split_and!; [lia..|].
      rewrite Nat2Z.id, <- Hpre, take_app_length, <- app_assoc, Hlen. do 2 f_equal.
      rewrite drop_app_ge, drop_replicate by lia. f_equal. lia. }
    cbn [obind]. rewrite IH; [|by apply Forall_inv_tail in Hh|rewrite length_app; lia|lia].
    rewrite <- !app_assoc. do 5 f_equal. cbn [length Nat.mul]. lia.
Qed.

Lemma length_concat_hashes (hs : list bytes) : Forall (fun h => length h = HASH) hs -> length (concat hs) = (length hs * HASH)%nat.
Proof. induction 1 as [|h hs Hh _ IH]; [done|]. cbn [concat length]. rewrite length_app, IH, Hh. lia. Qed.

Lemma pack_page_spec hs :
  Forall (fun h => length h = HASH) hs -> (length hs * HASH <= PAGE)%nat ->
  pack_hashes zero_page 0 hs = Done (pad_page (concat hs)).
Proof.
  intros Hh Hl. unfold zero_page. pose proof (pack_hashes_spec hs [] 0 PAGE Hh eq_refl Hl) as Hp. cbn [app] in Hp. rewrite Hp.
  unfold pad_page. rewrite length_concat_hashes by done. reflexivity.
Qed.

Lemma take_hashes (hs : list bytes) i :
  Forall (fun h => length h = HASH) hs -> Forall (fun h => length h = HASH) (take 128 (drop i hs)).
Proof. intros. by apply Forall_take, Forall_drop. Qed.

Lemma level_page_spec cur i :
  Forall (fun h => length h = HASH) cur -> (i * 128 <= length cur)%nat ->
  level_page cur i = Done (sha256_spec (pad_page (concat (take 128 (drop (i * 128) cur))))).
Proof.
  intros Hh Hi. unfold level_page.
  replace (i * PAGE / HASH)%nat with (i * 128)%nat
    by (rewrite PAGE_val; unfold HASH; rewrite Nat.mul_assoc, Nat.div_mul; lia).
  rewrite PAGE_HASH.
  replace (take (Nat.min 128 (length cur - i * 128)) (drop (i * 128) cur)) with (take 128 (drop (i * 128) cur)).
  2:{ rewrite <- take_take, (take_ge (drop _ _) (length _ - _)); [done|]. rewrite length_drop. lia. }
  rewrite pack_page_spec; [|by apply take_hashes|rewrite length_take, PAGE_val; unfold HASH; lia].
  cbn [obind]. apply sha256_hash_spec.
Qed.

Lemma level_hashes hs : Forall (fun h => length h = HASH) (level hs).
Proof. apply Forall_map, Forall_forall. intros i _. apply length_sha256_spec. Qed.

Lemma pages_bounds n i : (i < pages n)%nat <-> (i * PAGE < n)%nat.
Proof.
  unfold pages. rewrite PAGE_val. pose proof (Nat.div_mod_eq (n + 128 * 32 - 1) (128 * 32)) as Hd.
  pose proof (Nat.mod_upper_bound (n + 128 * 32 - 1) (128 * 32)). 
  set (q := ((n + 128 * 32 - 1) / (128 * 32))%nat) in *. nia.
Qed.

Lemma length_level hs : length (level hs) = pages (length hs * HASH).
Proof. unfold level. by rewrite length_map, length_seq. Qed.

(** At most 128 hashes fit one page, whose hash is the root. *)
Lemma level_single hs :
  (0 < length hs <= 128)%nat -> level hs = [sha256_spec (pad_page (concat hs))].
Proof.
  intros Hl. assert (pages (length hs * HASH) = 1%nat) as Hp.
  { pose proof (pages_bounds (length hs * HASH) 0). pose proof (pages_bounds (length hs * HASH) 1).
    rewrite PAGE_val in *. unfold HASH in *. lia. }
  unfold level. rewrite Hp. cbn [seq map Nat.mul]. rewrite drop_0, take_ge by lia. done.
Qed.

Lemma level_shrinks hs : (128 < length hs)%nat -> (1 < length (level hs) < length hs)%nat.
Proof.
  intros Hl. rewrite length_level. pose proof (pages_bounds (length hs * HASH) 1).
  pose proof (pages_bounds (length hs * HASH) (length hs - 1)). rewrite PAGE_val in *. unfold HASH in *. nia.
Qed.

Lemma root_loop_spec fuel : forall cur,
  Forall (fun h => length h = HASH) cur -> (1 < length cur)%nat -> (length cur <= fuel)%nat ->
  exists r, root_loop fuel cur = Done r /\ merkle_root cur r.
Proof.
  induction fuel as [|fuel IH]; intros cur Hh H1 Hf; [lia|]. cbn [root_loop].
  destruct (Nat.leb_spec (length cur * HASH) PAGE) as [Hp|Hp].
  - assert (length cur <= 128)%nat by (rewrite PAGE_val in Hp; unfold HASH in Hp; lia).
    rewrite pack_page_spec by done. cbn [obind]. rewrite sha256_hash_spec. eexists. split; [reflexivity|].
    apply root_level; [done|]. rewrite level_single by lia. constructor.
  - assert (128 < length cur)%nat by (rewrite PAGE_val in Hp; unfold HASH in Hp; lia).
    rewrite (collect_map _ (fun i => sha256_spec (pad_page (concat (take 128 (drop (i * 128) cur)))))).
    2:{ apply Forall_forall. intros i Hi%in_seq. apply level_page_spec; [done|].
        fold (pages (length cur * HASH)) in Hi. pose proof (pages_bounds (length cur * HASH) i) as Hb.
        rewrite PAGE_val in *. unfold HASH in *. lia. }
    cbn [obind]. fold (pages (length cur * HASH)). change (map _ (seq 0 _)) with (level cur).
    pose proof (level_shrinks cur ltac:(lia)). destruct (IH (level cur)) as (r & Hr & Hm); [apply level_hashes|lia..|].
    exists r. split; [done|]. by apply root_level.
Qed.

Lemma leaves_hashes data cs_off cs_len : Forall (fun h => length h = HASH) (leaves data cs_off cs_len).
Proof.
  unfold leaves. destruct data; [repeat constructor; apply length_sha256_spec|].
  apply Forall_map, Forall_forall. intros i _. destruct (in_codesign _ _ _); [done|apply length_sha256_spec].
Qed.

(** The code-signature range does not wrap around 64 bits. *)
Definition cs_range_ok (cs_off cs_len : Z) : Prop :=
  0 <= cs_off /\ 0 <= cs_len /\ cs_off + cs_len + Z.of_nat PAGE < two64.

Lemma root_hash_spec data cs_off cs_len :
  cs_range_ok cs_off cs_len -> exists r, root_hash data cs_off cs_len = Done r /\ merkle_root (leaves data cs_off cs_len) r.
Proof.
  intros (Ho & Hl & Hw). unfold root_hash. destruct data as [|b data'] eqn:Ed.
  { cbn [length Nat.eqb]. rewrite sha256_hash_spec. eexists. split; [done|constructor]. }
  rewrite <- Ed. assert (length data <> 0)%nat as Hne by (by rewrite Ed). destruct (Nat.eqb_spec (length data) 0); [done|].
  fold (pages (length data)). set (e := if 0 <? cs_len then _ else 0).
  assert (Forall (fun i => leaf_hash data cs_len (cs_off / Z.of_nat PAGE) e i =
    Done (if in_codesign cs_off cs_len i then zero_hash else sha256_spec (page_at data i))) (seq 0 (pages (length data)))) as Hleaf.
  { apply Forall_forall. intros i Hi%in_seq. pose proof (pages_bounds (length data) i). unfold leaf_hash.
    replace ((0 <? cs_len) && (cs_off / Z.of_nat PAGE <=? Z.of_nat i) && (Z.of_nat i <? e)) with (in_codesign cs_off cs_len i).
    - case_if; [done|]. rewrite data_page_spec by lia. cbn [obind]. apply sha256_hash_spec.
    - unfold in_codesign, e, wadd64, as_u64. destruct (0 <? cs_len); [|done]. rewrite PAGE_Z in *.
      rewrite !(Z.mod_small (cs_off + cs_len)), (Z.mod_small (_ + 4096)), Z.mod_small by lia. done. }
  rewrite (collect_map _ _ _ Hleaf). cbn [obind].
  assert (map (fun i => if in_codesign cs_off cs_len i then zero_hash else sha256_spec (page_at data i))
    (seq 0 (pages (length data))) = leaves data cs_off cs_len) as -> by (by rewrite Ed).
  pose proof (leaves_hashes data cs_off cs_len) as Hh.
  assert (length (leaves data cs_off cs_len) = pages (length data)) as Hlen.
  { unfold leaves. rewrite Ed. by rewrite length_map, length_seq. }
  pose proof (pages_bounds (length data) 0) as H0.
  destruct (leaves data cs_off cs_len) as [|h [|h' hs]] eqn:El.
  - cbn in Hlen. lia.
  - exists h. split; [done|constructor].
  - destruct (root_loop_spec (length (h :: h' :: hs)) (h :: h' :: hs)) as (r & Hr & Hm); [done|cbn; lia|lia|]. eauto.
Qed.

(** The root is determined by the leaves. *)
Lemma merkle_root_functional hs r r' : merkle_root hs r -> merkle_root hs r' -> r = r'.
Proof.
  intros Hr. revert r'. induction Hr as [h|hs r Hl _ IH]; intros r' Hr'; inversion Hr'; subst; try done.
  - cbn in *. lia.
  - cbn in *. lia.
  - auto.
Qed.

(** *** Binding *)

(** The pages of hashes above [hs], one level, and in the whole tree. *)
Definition level_pages (hs : list bytes) : list bytes :=
  map (fun i => pad_page (concat (take 128 (drop (i * 128) hs)))) (seq 0 (pages (length hs * HASH))).

Inductive tree_page : list bytes -> bytes -> Prop :=
| tree_here hs x : (1 < length hs)%nat -> x ∈ level_pages hs -> tree_page hs x
| tree_above hs x : (1 < length hs)%nat -> tree_page (level hs) x -> tree_page hs x.

(** The pages that are hashed for the root of a file: its own outside of the
    signature, and the pages of hashes of its tree. *)
Definition hashed_page (data : bytes) (cs_off cs_len : Z) (x : bytes) : Prop :=
  (exists i, (i < pages (length data))%nat /\ in_codesign cs_off cs_len i = false /\ x = page_at data i) \/
  tree_page (leaves data cs_off cs_len) x.

(** Two pages, one of each set, that differ and have the same digest. *)
Definition sha256_collision (X Y : bytes -> Prop) : Prop :=
  exists x y, X x /\ Y y /\ x <> y /\ sha256_spec x = sha256_spec y.

Lemma sha256_eq (X Y : bytes -> Prop) x y : X x -> Y y -> sha256_spec x = sha256_spec y -> x = y \/ sha256_collision X Y.
Proof. intros HX HY E. destruct (decide (x = y)); [by left|]. right. by exists x, y. Qed.

Lemma collision_mono (X Y X' Y' : bytes -> Prop) : (forall x, X x -> X' x) -> (forall y, Y y -> Y' y) ->
  sha256_collision X Y -> sha256_collision X' Y'.
Proof. intros HX HY (x & y & Hx & Hy & H). exists x, y. split_and!; [by apply HX|by apply HY|apply H|apply H]. Qed.

Lemma forall_or {A} (P : A -> Prop) (C : Prop) (l : list A) :
  (forall x, In x l -> P x \/ C) -> (forall x, In x l -> P x) \/ C.
Proof.
  induction l as [|x l IH]; intros Hl; [left; intros x []|].
  destruct IH as [Hp|]; [intros y Hy; apply Hl; by right| |by right].
  destruct (Hl x) as [Hx|]; [by left| |by right]. left. intros y [<-|Hy]; auto.
Qed.

Lemma pad_page_inj a b : length a = length b -> pad_page a = pad_page b -> a = b.
Proof. intros Hl Hp. unfold pad_page in Hp. by apply app_inj_1 in Hp as [? _]. Qed.

Lemma concat_hashes_inj (hs ks : list bytes) :
  Forall (fun h => length h = HASH) hs -> Forall (fun h => length h = HASH) ks ->
  length hs = length ks -> concat hs = concat ks -> hs = ks.
Proof.
  intros Hh. revert ks. induction Hh as [|h hs Hh1 _ IH]; intros [|k ks] Hk Hl Hc; try done.
  cbn in Hc. pose proof (Forall_inv Hk) as Hk1. cbn beta in Hk1. apply app_inj_1 in Hc as [-> Hc]; [|congruence].
  f_equal. apply IH; [by apply Forall_inv_tail in Hk|cbn in Hl; lia|done].
Qed.

(** A list is determined by its groups of [n]. *)
Lemma groups_eq {A} (n : nat) (l k : list A) :
  (0 < n)%nat -> length l = length k ->
  (forall i, (i * n < length l)%nat -> take n (drop (i * n) l) = take n (drop (i * n) k)) -> l = k.
Proof.
  intros Hn Hl Hg. apply list_eq. intros j.
  destruct (le_lt_dec (length l) j) as [Hj|Hj]; [by rewrite !lookup_ge_None_2 by lia|].
  pose proof (Nat.div_mod_eq j n) as Hd. pose proof (Nat.mod_upper_bound j n ltac:(lia)) as Hm.
  assert (forall m : list A, m !! j = take n (drop (j / n * n) m) !! (j mod n)%nat) as Hat.
  { intros m. rewrite lookup_take_lt, lookup_drop by lia. f_equal. lia. }
  rewrite !Hat, Hg; [done|]. lia.
Qed.

Lemma level_binding hs ks :
  Forall (fun h => length h = HASH) hs -> Forall (fun h => length h = HASH) ks -> length hs = length ks ->
  level hs = level ks -> hs = ks \/ sha256_collision (fun x => x ∈ level_pages hs) (fun y => y ∈ level_pages ks).
Proof.
  intros Hh Hk Hl He. unfold level in He. rewrite <- Hl in He.
  destruct (forall_or (fun i => pad_page (concat (take 128 (drop (i * 128) hs))) = pad_page (concat (take 128 (drop (i * 128) ks))))
    (sha256_collision (fun x => x ∈ level_pages hs) (fun y => y ∈ level_pages ks)) (seq 0 (pages (length hs * HASH))))
    as [Hpages|]; [|left|by right].
  { intros i Hi. apply sha256_eq; [| |exact (ext_in_map He i Hi)].
    - apply list_elem_of_In, in_map_iff. by exists i.
    - apply list_elem_of_In, in_map_iff. exists i. by rewrite <- Hl. }
  apply (groups_eq 128); [lia|done|]. intros i Hi.
  assert (pad_page (concat (take 128 (drop (i * 128) hs))) = pad_page (concat (take 128 (drop (i * 128) ks)))) as Hp.
  { apply Hpages, in_seq. split; [lia|]. apply pages_bounds. rewrite PAGE_val. unfold HASH. lia. }
  apply pad_page_inj in Hp; [|rewrite !length_concat_hashes by (by apply take_hashes); rewrite !length_take, !length_drop; lia].
  apply concat_hashes_inj in Hp; [done|by apply take_hashes..|]. rewrite !length_take, !length_drop. lia.
Qed.

Lemma merkle_binding hs r : merkle_root hs r -> forall ks,
  Forall (fun h => length h = HASH) hs -> Forall (fun h => length h = HASH) ks -> length hs = length ks ->
  merkle_root ks r -> hs = ks \/ sha256_collision (tree_page hs) (tree_page ks).
Proof.
  induction 1 as [h|hs r Hl _ IH]; intros ks Hh Hk Hlen Hr; inversion Hr; subst; try (cbn in *; lia).
  - by left.
  - destruct (IH (level ks)) as [He|Hc]; [apply level_hashes..| |done| |].
    + by rewrite !length_level, Hlen.
    + destruct (level_binding hs ks) as [|Hc]; [done..|by left|right].
      eapply collision_mono; [| |exact Hc]; intros x Hx; by apply tree_here.
    + right. eapply collision_mono; [| |exact Hc]; intros x Hx; by apply tree_above.
Qed.

(** The bytes of [data] and [data'] agree outside the code-signature pages. *)
Definition agree_outside (cs_off cs_len : Z) (data data' : bytes) : Prop :=
  forall j, in_codesign cs_off cs_len (j / PAGE) = false -> data !! j = data' !! j.

Lemma page_at_lookup data j : (j < length data)%nat -> data !! j = page_at data (j / PAGE) !! (j mod PAGE)%nat.
Proof.
  intros Hj. pose proof (Nat.div_mod_eq j PAGE) as Hd.
  assert (0 < PAGE)%nat by (rewrite PAGE_val; lia).
  pose proof (Nat.mod_upper_bound j PAGE ltac:(lia)) as Hm.
  unfold page_at, pad_page. rewrite lookup_app_l by (rewrite length_take, length_drop; lia).
  rewrite lookup_take_lt, lookup_drop by lia. f_equal. lia.
Qed.

Lemma leaves_nonempty data cs_off cs_len :
  data <> [] -> leaves data cs_off cs_len =
  map (fun i => if in_codesign cs_off cs_len i then zero_hash else sha256_spec (page_at data i)) (seq 0 (pages (length data))).
Proof. by destruct data. Qed.

Lemma leaves_agree data data' cs_off cs_len :
  length data = length data' -> agree_outside cs_off cs_len data data' -> leaves data cs_off cs_len = leaves data' cs_off cs_len.
Proof.
  intros Hl Ha. assert (0 < PAGE)%nat as HP by (rewrite PAGE_val; lia).
  destruct (decide (data = [])) as [->|Hne]; [destruct data'; [reflexivity|discriminate Hl]|].
  assert (data' <> []) as Hne' by (intros ->; by destruct data).
  rewrite !leaves_nonempty by assumption. rewrite <- Hl. apply map_ext_in. intros i Hi%in_seq.
  destruct (in_codesign cs_off cs_len i) eqn:Ei; [done|]. apply (f_equal sha256_spec). unfold page_at. apply (f_equal pad_page).
  apply list_eq. intros k. destruct (le_lt_dec PAGE k) as [Hk|Hk].
  - rewrite !lookup_take_ge by lia. done.
  - rewrite !lookup_take_lt, !lookup_drop by lia. apply Ha.
    by replace ((i * PAGE + k) / PAGE)%nat with i by (apply (Nat.div_unique _ _ _ k); lia).
Qed.

Lemma leaves_binding data data' cs_off cs_len :
  length data = length data' -> leaves data cs_off cs_len = leaves data' cs_off cs_len ->
  agree_outside cs_off cs_len data data' \/ sha256_collision (hashed_page data cs_off cs_len) (hashed_page data' cs_off cs_len).
Proof.
  intros Hl He. assert (0 < PAGE)%nat as HP by (rewrite PAGE_val; lia).
  destruct (decide (data = [])) as [->|Hne]; [destruct data'; [left; intros j _; reflexivity|discriminate Hl]|].
  assert (data' <> []) as Hne' by (clear He; intros ->; by destruct data).
  rewrite !leaves_nonempty in He by assumption. rewrite <- Hl in He.
  assert ((forall i, In i (seq 0 (pages (length data))) -> in_codesign cs_off cs_len i = false -> page_at data i = page_at data' i)
    \/ sha256_collision (hashed_page data cs_off cs_len) (hashed_page data' cs_off cs_len)) as [Hp|]; [|left|by right].
  { apply forall_or. intros i Hi. pose proof (ext_in_map He i Hi) as Hx. cbn beta in Hx.
    apply in_seq in Hi. destruct (in_codesign cs_off cs_len i) eqn:Ei; [left; discriminate|].
    destruct (sha256_eq (hashed_page data cs_off cs_len) (hashed_page data' cs_off cs_len) (page_at data i) (page_at data' i));
      [left; exists i; split_and!; [lia|done|done]|left; exists i; rewrite <- Hl; split_and!; [lia|done|done]|done|left; auto|by right]. }
  intros j Hj. destruct (le_lt_dec (length data) j); [by rewrite !lookup_ge_None_2 by lia|].
  rewrite (page_at_lookup data), (page_at_lookup data') by lia. rewrite Hp; [done| |done].
  apply in_seq. split; [lia|]. apply pages_bounds. pose proof (Nat.div_mod_eq j PAGE). lia.
Qed.

Lemma root_hash_agree data data' cs_off cs_len :
  cs_range_ok cs_off cs_len -> length data = length data' -> agree_outside cs_off cs_len data data' ->
  root_hash data cs_off cs_len = root_hash data' cs_off cs_len.
Proof.
  intros Hr Hl Ha. destruct (root_hash_spec data cs_off cs_len Hr) as (r & -> & Hm).
  destruct (root_hash_spec data' cs_off cs_len Hr) as (r' & -> & Hm').
  rewrite (leaves_agree data data') in Hm by done. f_equal. by eapply merkle_root_functional.
Qed.

Lemma merkle_root_length hs r :
  merkle_root hs r -> Forall (fun h => length h = HASH) hs -> length r = HASH.
Proof. induction 1 as [h|hs r Hl _ IH]; intros Hh; [exact (Forall_inv Hh)|]. apply IH, level_hashes. Qed.

Lemma leaves_bytes data cs_off cs_len : Forall is_bytes (leaves data cs_off cs_len).
Proof.
  unfold leaves. destruct data; [repeat constructor; apply sha256_spec_bytes|].
  apply Forall_map, Forall_forall. intros i _. destruct (in_codesign _ _ _); [|apply sha256_spec_bytes].
  apply Forall_replicate. unfold is_byte, two8. lia.
Qed.

Lemma merkle_root_bytes hs r : merkle_root hs r -> Forall is_bytes hs -> is_bytes r.
Proof.
  induction 1 as [h|hs r Hl _ IH]; intros Hh; [exact (Forall_inv Hh)|]. apply IH.
  apply Forall_map, Forall_forall. intros i _. apply sha256_spec_bytes.
Qed.

(** ** Properties *)

(** The root is the Merkle root. For every file and every signature range
    that fits 64 bits, [root_hash] returns (the level loop terminates, no page
    copy is out of range) the root of the tree over the file's pages, folding
    128 hashes per page until one is left, with zero hashes for the
    signature pages. *)
Theorem root_hash_is_merkle_root data cs_off cs_len :
  cs_range_ok cs_off cs_len ->
  exists r, root_hash data cs_off cs_len = Done r /\ merkle_root (leaves data cs_off cs_len) r.
Proof. apply root_hash_spec. Qed.

Lemma root_hash_is_merkle_root_witness :
  exists r, root_hash [1; 2; 3] 4096 4096 = Done r /\ merkle_root (leaves [1; 2; 3] 4096 4096) r.
Proof. apply (root_hash_is_merkle_root [1; 2; 3] 4096 4096). by vm_compute. Defined.

(** C33: the root commits to everything but the signature. For two files of the
    same length, agreeing outside the signature pages gives the same root; and
    the same root gives agreement outside the signature pages, unless a page
    that is hashed for the first root (a page of the file outside the signature,
    or a page of hashes of its tree) and one that is hashed for the second differ
    and have the same SHA-256 digest. *)
Theorem root_hash_binding data data' cs_off cs_len :
  cs_range_ok cs_off cs_len -> length data = length data' ->
  (agree_outside cs_off cs_len data data' -> root_hash data cs_off cs_len = root_hash data' cs_off cs_len) /\
  (root_hash data cs_off cs_len = root_hash data' cs_off cs_len ->
   agree_outside cs_off cs_len data data' \/
   sha256_collision (hashed_page data cs_off cs_len) (hashed_page data' cs_off cs_len)).
Proof.
  intros Hr Hl. split; [by apply root_hash_agree|].
  destruct (root_hash_spec data cs_off cs_len Hr) as (r & -> & Hm).
  destruct (root_hash_spec data' cs_off cs_len Hr) as (r' & -> & Hm'). intros [= <-].
  destruct (merkle_binding _ _ Hm (leaves data' cs_off cs_len)) as [He|Hc]; [apply leaves_hashes..| |done| |].
  - destruct data, data'; try discriminate Hl; [reflexivity|]. rewrite !leaves_nonempty by discriminate. by rewrite !length_map, !length_seq, Hl.
  - by apply leaves_binding.
  - right. eapply collision_mono; [| |exact Hc]; intros x Hx; by right.
Qed.

Lemma root_hash_binding_witness : root_hash [1; 2; 3] 0 1 = root_hash [7; 8; 9] 0 1.
Proof.
  apply (root_hash_binding [1; 2; 3] [7; 8; 9] 0 1); [by vm_compute|done|].
  intros j Hj. destruct (le_lt_dec 3 j); [by rewrite !lookup_ge_None_2|].
  rewrite Nat.div_small in Hj by (rewrite PAGE_val; lia). by vm_compute in Hj.
Defined.
