(* ===== verification/ElfSign.v ===== *)
(** * Code signing of ELF files

    [src/src/ohos_sign/src/elf.rs] and [descriptor.rs]: a [.codesign] section of
    one page is added to an ELF file (or removed from it), and the fs-verity
    descriptor of the result and its digest are written into that page. The
    release build is modelled: 64-bit arithmetic wraps, an index out of range
    panics. *)
From Stdlib Require Import ZArith Lia.
From stdpp Require Import base list numbers option.
From S2P Require Import Prelude Sha256 Merkle.
#[local] Open Scope Z_scope.

(** ** Errors *)

(** An [std::io::Error] is its [raw_os_error] code. *)
Inductive SignError : Type :=
| NotElf64 | NoSectionHeaders | ShstrtabOutOfBounds | AlreadySigned | Io (e : Z).

(** [Result<A, SignError>] of code that can panic. *)
Abbreviation result A := (outcome (SignError + A)).

(** [let p = e?; k] *)
Definition rbind {A B : Type} (x : result A) (f : A -> result B) : result B :=
  let! r := x in match r with inl e => Done (inl e) | inr a => f a end.

Notation "'let?' p ':=' e 'in' k" := (rbind e (fun p => k))
  (at level 10, p pattern, e at level 200, k at level 200,
   format "'[v' 'let?'  p  ':='  e  'in' '/' k ']'") : bun_scope.

(** ** The descriptor *)

Definition FLAG_SELF_SIGN : Z := 16.
Definition ELF_SIGN_INFO_TYPE : Z := 1.
Definition DESCRIPTOR_SIZE : nat := 256.

(** [let! out := ...] in the order of the assignments of [build]. *)
Definition build (sign_size file_size : Z) (root : bytes) : outcome bytes :=
  let out := replicate DESCRIPTOR_SIZE 0 in
  let! out := write_at out 0 [1] in
  let! out := write_at out 1 [1] in
  let! out := write_at out 2 [12] in
  let! out := write_at out 3 [0] in
  let! out := write_at out 4 (to_le_bytes 4 sign_size) in
  let! out := write_at out 8 (to_le_bytes 8 file_size) in
  let! out := write_at out 16 root in
  let! out := write_at out 112 (to_le_bytes 4 FLAG_SELF_SIGN) in
  write_at out 255 [3].

(** ** Fields of the file *)

(** [.codesign\0] *)
Definition CODESIGN_NAME : bytes := [46; 99; 111; 100; 101; 115; 105; 103; 110; 0].

Definition E_SHOFF : Z := 0x28.
Definition E_SHENTSIZE : Z := 0x3a.
Definition E_SHNUM : Z := 0x3c.
Definition E_SHSTRNDX : Z := 0x3e.

Definition wsub64 (a b : Z) : Z := (a - b) mod two64.
Definition wmul64 (a b : Z) : Z := (a * b) mod two64.

Definition read_int (n : Z) (b : bytes) (off : Z) : outcome Z :=
  let! s := index_range b off (wadd64 off n) in Done (from_le_bytes s).
Definition read_u16 (b : bytes) (off : Z) : outcome Z := read_int 2 b off.
Definition read_u32 (b : bytes) (off : Z) : outcome Z := read_int 4 b off.
Definition read_u64 (b : bytes) (off : Z) : outcome Z := read_int 8 b off.
Definition write_u16 (b : bytes) (off v : Z) : outcome bytes := write_at b off (to_le_bytes 2 v).
Definition write_u32 (b : bytes) (off v : Z) : outcome bytes := write_at b off (to_le_bytes 4 v).
Definition write_u64 (b : bytes) (off v : Z) : outcome bytes := write_at b off (to_le_bytes 8 v).

Definition align_up (v a : Z) : Z := wmul64 (wsub64 (wadd64 v a) 1 / a) a.

Definition PAGE_SIZE : Z := 4096.

Definition is_elf64 (elf : bytes) : bool :=
  (64 <=? Z.of_nat (length elf)) && bool_decide (take 4 elf = [127; 69; 76; 70])
  && bool_decide (elf !! 4%nat = Some 2).

Definition parse_header (elf : bytes) : result (Z * Z * Z) :=
  if negb (is_elf64 elf) then Done (inl NotElf64)
  else
    let! e_shoff := read_u64 elf E_SHOFF in
    let! e_shentsize := read_u16 elf E_SHENTSIZE in
    let! e_shnum := read_u16 elf E_SHNUM in
    let! e_shstrndx := read_u16 elf E_SHSTRNDX in
    if negb (e_shentsize =? 64) || (e_shoff =? 0) || (e_shnum =? 0) || (e_shnum <=? e_shstrndx)
    then Done (inl NoSectionHeaders)
    else
      let sht_end := e_shoff + e_shnum * 64 in
      if two64 <=? sht_end then Done (inl NoSectionHeaders)
      else if Z.of_nat (length elf) <? sht_end then Done (inl NoSectionHeaders)
      else Done (inr (e_shoff, e_shnum, e_shstrndx)).

(** The entry [i] of the section header table. *)
Definition entry (e_shoff i : Z) : Z := wadd64 e_shoff (i * 64).

(** ** Finding a section *)

(** The loop over [i] in [0..e_shnum], with [n] rounds to go. *)
Fixpoint find_loop (elf : bytes) (e_shoff shstr_off shstr_sz : Z) (name : bytes) (i : Z) (n : nat)
    : outcome (option Z) :=
  match n with
  | O => Done None
  | S n' =>
      let e := entry e_shoff i in
      let! name_off := read_u32 elf e in
      if wadd64 name_off (Z.of_nat (length name)) <=? shstr_sz then
        let from := wadd64 shstr_off name_off in
        let! s := index_range elf from (wadd64 from (Z.of_nat (length name))) in
        if bool_decide (s = name) then Done (Some e)
        else find_loop elf e_shoff shstr_off shstr_sz name (i + 1) n'
      else find_loop elf e_shoff shstr_off shstr_sz name (i + 1) n'
  end.

Definition find_section_by_name (elf : bytes) (e_shoff e_shnum e_shstrndx : Z) (name : bytes) : outcome (option Z) :=
  let shstr_e := entry e_shoff e_shstrndx in
  let! shstr_off := read_u64 elf (wadd64 shstr_e 24) in
  let! shstr_sz := read_u64 elf (wadd64 shstr_e 32) in
  if Z.of_nat (length elf) <? wadd64 shstr_off shstr_sz then Done None
  else find_loop elf e_shoff shstr_off shstr_sz name 0 (Z.to_nat e_shnum).

Definition has_codesign_section (elf : bytes) : outcome bool :=
  let! h := parse_header elf in
  match h with
  | inl _ => Done false
  | inr (e_shoff, e_shnum, e_shstrndx) =>
      let! r := find_section_by_name elf e_shoff e_shnum e_shstrndx CODESIGN_NAME in
      Done (match r with Some _ => true | None => false end)
  end.

(** ** Stripping *)

(** The entries of the table but [cs_idx]. *)
Fixpoint copy_entries (elf : bytes) (e_shoff cs_idx i : Z) (n : nat) : outcome bytes :=
  match n with
  | O => Done []
  | S n' =>
      if i =? cs_idx then copy_entries elf e_shoff cs_idx (i + 1) n'
      else
        let e := entry e_shoff i in
        let! s := index_range elf e (wadd64 e 64) in
        let! rest := copy_entries elf e_shoff cs_idx (i + 1) n' in
        Done (s ++ rest)
  end.

(** Name offsets past the removed name move down. *)
Fixpoint adjust_names (elf : bytes) (sht cs_name_off cs_name_len i : Z) (n : nat) : outcome bytes :=
  match n with
  | O => Done elf
  | S n' =>
      let e := wadd64 sht (i * 64) in
      let! noff := read_u32 elf e in
      let! elf := if cs_name_off <? noff then write_u32 elf e (as_u32 (wsub64 noff cs_name_len)) else Done elf in
      adjust_names elf sht cs_name_off cs_name_len (i + 1) n'
  end.

(** [new_shstr.drain(a..b)] when [b] is not past the end. *)
Definition drain (l : bytes) (a b : Z) : bytes := take (Z.to_nat a) l ++ drop (Z.to_nat b) l.

(** The file after the call; it is unchanged when the result is [false]. *)
Definition strip (elf : bytes) : result (bool * bytes) :=
  let? (e_shoff, e_shnum, e_shstrndx) := parse_header elf in
  let! found := find_section_by_name elf e_shoff e_shnum e_shstrndx CODESIGN_NAME in
  match found with
  | None => Done (inr (false, elf))
  | Some cs_entry_off =>
      let cs_idx := wsub64 cs_entry_off e_shoff / 64 in
      let shstr_e := entry e_shoff e_shstrndx in
      let! shstr_off := read_u64 elf (wadd64 shstr_e 24) in
      let! shstr_sz := read_u64 elf (wadd64 shstr_e 32) in
      if Z.of_nat (length elf) <? wadd64 shstr_off shstr_sz then Done (inl ShstrtabOutOfBounds)
      else
        let! cs_name_off := read_u32 elf cs_entry_off in
        let cs_name_len := Z.of_nat (length CODESIGN_NAME) in
        let! new_shstr := index_range elf shstr_off (wadd64 shstr_off shstr_sz) in
        let new_shstr :=
          if wadd64 cs_name_off cs_name_len <=? Z.of_nat (length new_shstr)
          then drain new_shstr cs_name_off (cs_name_off + cs_name_len) else new_shstr in
        let new_shnum := e_shnum - 1 in
        let! new_sht := copy_entries elf e_shoff cs_idx 0 (Z.to_nat e_shnum) in
        let! cs_sec_off := read_u64 elf (wadd64 cs_entry_off 24) in
        let! _ := read_u64 elf (wadd64 cs_entry_off 32) in
        let elf := take (Z.to_nat (Z.min cs_sec_off (Z.of_nat (length elf)))) elf in
        let new_shstr_off := Z.of_nat (length elf) in
        let elf := elf ++ new_shstr in
        let new_sht_off := align_up (Z.of_nat (length elf)) 8 in
        let elf := take (Z.to_nat new_sht_off) elf ++ replicate (Z.to_nat new_sht_off - length elf) 0 in
        let sht := Z.of_nat (length elf) in
        let elf := elf ++ new_sht in
        let ndx := if e_shstrndx <? cs_idx then wmul64 e_shstrndx 64 else wmul64 (wsub64 e_shstrndx 1) 64 in
        let! elf := write_u64 elf (wadd64 (wadd64 sht ndx) 24) new_shstr_off in
        let! elf := write_u64 elf (wadd64 (wadd64 sht ndx) 32) (Z.of_nat (length new_shstr)) in
        let! elf := adjust_names elf sht cs_name_off cs_name_len 0 (Z.to_nat new_shnum) in
        let! elf := write_u64 elf E_SHOFF new_sht_off in
        let! elf := write_u16 elf E_SHNUM new_shnum in
        let! elf := if cs_idx <? e_shstrndx then write_u16 elf E_SHSTRNDX (e_shstrndx - 1) else Done elf in
        Done (inr (true, elf))
  end.

(** ** Signing *)

(** The largest end of a section with contents, and of the table. *)
Fixpoint sections_end (elf : bytes) (e_shoff i : Z) (n : nat) (cur_end : Z) : outcome Z :=
  match n with
  | O => Done cur_end
  | S n' =>
      let e := entry e_shoff i in
      let! sh_type := read_u32 elf (wadd64 e 4) in
      let! off := read_u64 elf (wadd64 e 24) in
      let! sz := if sh_type =? 8 then Done 0 else read_u64 elf (wadd64 e 32) in
      let cur_end := if cur_end <? wadd64 off sz then wadd64 off sz else cur_end in
      sections_end elf e_shoff (i + 1) n' cur_end
  end.

(** [vec![0u8; n]], with the panic of a size above [isize::MAX]. *)
Definition zeroed (n : Z) : outcome bytes :=
  if n <? 9223372036854775808 then Done (replicate (Z.to_nat n) 0) else Panic.

Definition inject_codesign_section (elf : bytes) : result (bytes * Z) :=
  let? (e_shoff, e_shnum, e_shstrndx) := parse_header elf in
  let shstr_e := entry e_shoff e_shstrndx in
  let! shstr_off := read_u64 elf (wadd64 shstr_e 24) in
  let! shstr_sz := read_u64 elf (wadd64 shstr_e 32) in
  if Z.of_nat (length elf) <? wadd64 shstr_off shstr_sz then Done (inl ShstrtabOutOfBounds)
  else
    let! cur_end := sections_end elf e_shoff 0 (Z.to_nat e_shnum) (wadd64 e_shoff (e_shnum * 64)) in
    let cs_off := align_up cur_end PAGE_SIZE in
    let cs_shname := as_u32 shstr_sz in
    let! old_shstr := index_range elf shstr_off (wadd64 shstr_off shstr_sz) in
    let new_shstr := old_shstr ++ CODESIGN_NAME in
    let new_shstr_off := wadd64 cs_off PAGE_SIZE in
    let new_sht_off := align_up (wadd64 new_shstr_off (Z.of_nat (length new_shstr))) 8 in
    let new_shnum := (e_shnum + 1) mod two16 in
    let new_total := wadd64 new_sht_off (new_shnum * 64) in
    let! buf := zeroed new_total in
    let k := Z.min (Z.min (Z.of_nat (length elf)) new_total) cs_off in
    let! head := index_range elf 0 k in
    let! buf := write_at buf 0 head in
    let! buf := write_at buf new_shstr_off new_shstr in
    let! table := index_range elf e_shoff (wadd64 e_shoff (e_shnum * 64)) in
    let! buf := write_at buf new_sht_off table in
    let cs_e := wadd64 new_sht_off (e_shnum * 64) in
    let! buf := write_u32 buf cs_e cs_shname in
    let! buf := write_u32 buf (wadd64 cs_e 4) 1 in
    let! buf := write_u64 buf (wadd64 cs_e 24) cs_off in
    let! buf := write_u64 buf (wadd64 cs_e 32) PAGE_SIZE in
    let! buf := write_u64 buf (wadd64 cs_e 48) PAGE_SIZE in
    let shstr_e_new := wadd64 new_sht_off (e_shstrndx * 64) in
    let! buf := write_u64 buf (wadd64 shstr_e_new 24) new_shstr_off in
    let! buf := write_u64 buf (wadd64 shstr_e_new 32) (Z.of_nat (length new_shstr)) in
    let! buf := write_u64 buf E_SHOFF new_sht_off in
    let! buf := write_u16 buf E_SHNUM new_shnum in
    Done (inr (buf, cs_off)).

(** The signature page of a file with the root [root]. *)
Definition payload (file_size : Z) (root : bytes) : outcome bytes :=
  let! desc_for_digest := build 0 file_size root in
  let! signature := sha256_hash desc_for_digest in
  let! desc_on_disk := build 32 file_size root in
  let p := replicate (8 + DESCRIPTOR_SIZE + 32) 0 in
  let! p := write_at p 0 (to_le_bytes 4 ELF_SIGN_INFO_TYPE) in
  let! p := write_at p 4 (to_le_bytes 4 (Z.of_nat (DESCRIPTOR_SIZE + 32))) in
  let! p := write_at p 8 desc_on_disk in
  write_at p (Z.of_nat (8 + DESCRIPTOR_SIZE)) signature.

Definition sign (elf : bytes) (force : bool) : result bytes :=
  if negb (is_elf64 elf) then Done (inl NotElf64)
  else
    let! signed := has_codesign_section elf in
    let? buf :=
      if signed then
        if negb force then Done (inl AlreadySigned)
        else let? (_, stripped) := strip elf in Done (inr stripped)
      else Done (inr elf) in
    let? (tmp, cs_off) := inject_codesign_section buf in
    let! root := root_hash tmp cs_off PAGE_SIZE in
    let! p := payload (Z.of_nat (length tmp)) root in
    let! out := write_at tmp cs_off p in
    Done (inr out).

(** ** The library's entry points

    [src/src/ohos_sign/src/lib.rs]. The file system is a state [FS] with the
    standard library's [fs::read] and [fs::write] on it, either of which can
    fail; a failed write may still have changed it. *)

Definition has_codesign (elf : bytes) : outcome bool := has_codesign_section elf.
Definition sign_selfsign (elf : bytes) : result bytes := sign elf false.
Definition sign_selfsign_with_strip (elf : bytes) : result bytes := sign elf true.
Definition strip_codesign (elf : bytes) : result (bool * bytes) := strip elf.

Section Inplace.
  Context {FS Path : Type}.
  Context (fs_read : FS -> Path -> Z + bytes) (fs_write : FS -> Path -> bytes -> FS * (Z + unit)).

Definition inplace (signer : bytes -> result bytes) (fs : FS) (path : Path) : outcome (FS * (SignError + unit)) :=
  match fs_read fs path with
  | inl e => Done (fs, inl (Io e))
  | inr bs =>
      let! signed := signer bs in
      match signed with
      | inl e => Done (fs, inl e)
      | inr signed =>
          match fs_write fs path signed with
          | (fs', inl e) => Done (fs', inl (Io e))
          | (fs', inr _) => Done (fs', inr tt)
          end
      end
  end.

Definition sign_selfsign_inplace : FS -> Path -> outcome (FS * (SignError + unit)) := inplace sign_selfsign.
Definition sign_selfsign_inplace_with_strip : FS -> Path -> outcome (FS * (SignError + unit)) :=
  inplace sign_selfsign_with_strip.
End Inplace.

(** ** Slices and writes: lemmas *)

Definition slice (b : bytes) (a e : Z) : bytes := sub b (Z.to_nat a) (Z.to_nat e).
Definition u16_at (b : bytes) (off : Z) : Z := from_le_bytes (slice b off (off + 2)).
Definition u32_at (b : bytes) (off : Z) : Z := from_le_bytes (slice b off (off + 4)).
Definition u64_at (b : bytes) (off : Z) : Z := from_le_bytes (slice b off (off + 8)).

Definition blen (b : bytes) : Z := Z.of_nat (length b).

Lemma slice_lookup b a e j :
  slice b a e !! j = if (j <? Z.to_nat e - Z.to_nat a)%nat then b !! (Z.to_nat a + j)%nat else None.
Proof.
  unfold slice, sub. destruct (Nat.ltb_spec j (Z.to_nat e - Z.to_nat a)).
  - rewrite lookup_take_lt, lookup_drop by lia. done.
  - by rewrite lookup_take_ge by lia.
Qed.

Lemma write_at_lookup l a src r j :
  write_at l a src = Done r ->
  r !! j = if (Z.to_nat a <=? j)%nat && (j <? Z.to_nat a + length src)%nat then src !! (j - Z.to_nat a)%nat else l !! j.
Proof.
  rewrite write_at_Done. intros (H0 & H1 & ->).
  assert (length (take (Z.to_nat a) l) = Z.to_nat a) as Ht by (rewrite length_take; lia).
  destruct (Nat.leb_spec (Z.to_nat a) j), (Nat.ltb_spec j (Z.to_nat a + length src)); cbn [andb].
  - rewrite lookup_app_r, Ht, lookup_app_l by lia. done.
  - rewrite lookup_app_r, Ht, lookup_app_r, lookup_drop by lia. f_equal. lia.
  - rewrite lookup_app_l, lookup_take_lt by lia. done.
  - lia.
Qed.

Lemma slice_write_other l a src r x y :
  write_at l a src = Done r -> 0 <= x -> y <= a \/ a + blen src <= x -> slice r x y = slice l x y.
Proof.
  intros Hw Hx Hd. pose proof (proj1 (write_at_Done _ _ _ _) Hw) as (Ha & _). unfold blen in *.
  apply list_eq. intros j. rewrite !slice_lookup. destruct (Nat.ltb_spec j (Z.to_nat y - Z.to_nat x)); [|done].
  rewrite (write_at_lookup _ _ _ _ _ Hw).
  destruct (Nat.leb_spec (Z.to_nat a) (Z.to_nat x + j)), (Nat.ltb_spec (Z.to_nat x + j) (Z.to_nat a + length src)); cbn [andb]; (done || lia).
Qed.

Lemma slice_write_in l a src r x y :
  write_at l a src = Done r -> a <= x -> y <= a + blen src -> slice r x y = slice src (x - a) (y - a).
Proof.
  intros Hw Hx Hd. pose proof (proj1 (write_at_Done _ _ _ _) Hw) as (Ha & _). unfold blen in *.
  apply list_eq. intros j. rewrite !slice_lookup.
  destruct (Nat.ltb_spec j (Z.to_nat y - Z.to_nat x)), (Nat.ltb_spec j (Z.to_nat (y - a) - Z.to_nat (x - a))); try (done || lia).
  rewrite (write_at_lookup _ _ _ _ _ Hw).
  destruct (Nat.leb_spec (Z.to_nat a) (Z.to_nat x + j)), (Nat.ltb_spec (Z.to_nat x + j) (Z.to_nat a + length src)); try lia.
  cbn [andb]. f_equal. lia.
Qed.

Lemma slice_all b e : e = blen b -> slice b 0 e = b.
Proof. intros ->. unfold slice, sub, blen. rewrite Nat2Z.id, drop_0, take_ge; [done|lia]. Qed.

Lemma slice_write_same l a src r e :
  write_at l a src = Done r -> e = a + blen src -> slice r a e = src.
Proof.
  intros Hw ->. erewrite slice_write_in by (try exact Hw; lia).
  rewrite Z.sub_diag. apply slice_all. lia.
Qed.

Lemma length_slice b a e : 0 <= a <= e -> e <= blen b -> blen (slice b a e) = e - a.
Proof. intros. unfold blen, slice in *. rewrite length_sub by lia. lia. Qed.

Lemma slice_slice b a e x y : 0 <= a -> 0 <= x -> a + y <= e -> slice (slice b a e) x y = slice b (a + x) (a + y).
Proof.
  intros. apply list_eq. intros j. rewrite !slice_lookup.
  destruct (Nat.ltb_spec j (Z.to_nat y - Z.to_nat x)), (Nat.ltb_spec j (Z.to_nat (a + y) - Z.to_nat (a + x))); try (done || lia).
  destruct (Nat.ltb_spec (Z.to_nat x + j) (Z.to_nat e - Z.to_nat a)); [|lia]. f_equal. lia.
Qed.

Lemma is_bytes_slice b a e : is_bytes b -> is_bytes (slice b a e).
Proof. apply is_bytes_sub. Qed.

Lemma write_ok l a src :
  0 <= a -> a + blen src <= blen l -> exists r, write_at l a src = Done r /\ blen r = blen l.
Proof.
  intros Ha Hl. unfold blen in *. eexists. split; [apply write_at_Done; split_and!; [done|done|reflexivity]|].
  rewrite !length_app, length_take, length_drop. lia.
Qed.

Lemma index_ok b a e : 0 <= a <= e -> e <= blen b -> index_range b a e = Done (slice b a e).
Proof.
  intros. unfold index_range, blen in *. by rewrite (proj2 (get_range_Some b a e (slice b a e))) by (split_and!; (done || lia)).
Qed.

Lemma blen_le n z : blen (to_le_bytes n z) = Z.of_nat n.
Proof. unfold blen. by rewrite length_to_le_bytes. Qed.

(** Files are far from the 64-bit limit, so offsets inside them do not wrap. *)
Lemma wadd64_small a b : 0 <= a -> 0 <= b -> a + b < two64 -> wadd64 a b = a + b.
Proof. intros. unfold wadd64. apply Z.mod_small. lia. Qed.

Lemma read_ok n b off :
  0 <= off -> 0 <= n -> off + n <= blen b -> blen b < two64 -> read_int n b off = Done (from_le_bytes (slice b off (off + n))).
Proof.
  intros. unfold read_int. rewrite wadd64_small, index_ok by lia. done.
Qed.

Lemma u64_range b off : is_bytes b -> 0 <= off -> off + 8 <= blen b -> 0 <= u64_at b off < two64.
Proof.
  intros Hb Ho Hl. unfold u64_at. pose proof (from_le_bytes_bound _ (is_bytes_slice b off (off + 8) Hb)) as H.
  pose proof (length_slice b off (off + 8) ltac:(lia) ltac:(lia)) as E. unfold blen in E.
  replace (length (slice b off (off + 8))) with 8%nat in H by lia. pow256. lia.
Qed.

Lemma u32_range b off : is_bytes b -> 0 <= off -> off + 4 <= blen b -> 0 <= u32_at b off < two32.
Proof.
  intros Hb Ho Hl. unfold u32_at. pose proof (from_le_bytes_bound _ (is_bytes_slice b off (off + 4) Hb)) as H.
  pose proof (length_slice b off (off + 4) ltac:(lia) ltac:(lia)) as E. unfold blen in E.
  replace (length (slice b off (off + 4))) with 4%nat in H by lia. pow256. lia.
Qed.

Lemma u16_range b off : is_bytes b -> 0 <= off -> off + 2 <= blen b -> 0 <= u16_at b off < two16.
Proof.
  intros Hb Ho Hl. unfold u16_at. pose proof (from_le_bytes_bound _ (is_bytes_slice b off (off + 2) Hb)) as H.
  pose proof (length_slice b off (off + 2) ltac:(lia) ltac:(lia)) as E. unfold blen in E.
  replace (length (slice b off (off + 2))) with 2%nat in H by lia. pow256. lia.
Qed.

Lemma align_up_spec v a :
  0 < a -> 0 <= v -> v + a < two64 -> align_up v a mod a = 0 /\ v <= align_up v a < v + a.
Proof.
  intros Ha Hv Hw. unfold align_up, wmul64, wsub64. rewrite wadd64_small by lia.
  rewrite (Z.mod_small (v + a - 1)) by lia.
  pose proof (Z.div_mod (v + a - 1) a ltac:(lia)) as Hd. pose proof (Z.mod_pos_bound (v + a - 1) a Ha) as Hm.
  set (q := (v + a - 1) / a) in *. assert (0 <= q * a < two64) by nia.
  rewrite (Z.mod_small (q * a)) by lia. split; [apply Z.mod_mul; lia|]. nia.
Qed.

(** ** Headers *)

Lemma is_elf64_len b : is_elf64 b = true -> 64 <= blen b.
Proof. unfold is_elf64. rewrite !andb_true_iff, Z.leb_le. unfold blen. tauto. Qed.

(** What [parse_header] accepts. *)
Record header (b : bytes) (shoff shnum ndx : Z) : Prop := {
  hd_elf : is_elf64 b = true;
  hd_shoff : u64_at b E_SHOFF = shoff;
  hd_entsize : u16_at b E_SHENTSIZE = 64;
  hd_shnum : u16_at b E_SHNUM = shnum;
  hd_ndx : u16_at b E_SHSTRNDX = ndx;
  hd_range : 0 < shoff /\ 0 <= ndx < shnum /\ shnum < two16 /\ shoff + shnum * 64 <= blen b;
}.

(** Files are shorter than [isize::MAX]. *)
Definition file_ok (b : bytes) : Prop := is_bytes b /\ blen b < 9223372036854775808.

Lemma parse_header_spec b :
  file_ok b ->
  (exists e, parse_header b = Done (inl e) /\ forall s n i, ~ header b s n i) \/
  (exists s n i, parse_header b = Done (inr (s, n, i)) /\ header b s n i).
Proof.
  intros [Hb Hl]. unfold parse_header. destruct (is_elf64 b) eqn:Ee; cbn [negb].
  2:{ left. eexists. split; [done|]. intros s' n' i' [He]. congruence. }
  pose proof (is_elf64_len b Ee) as H64. unfold read_u64, read_u16, E_SHOFF, E_SHENTSIZE, E_SHNUM, E_SHSTRNDX in *.
  rewrite !read_ok by (unfold two64; lia). cbn [obind].
  change (from_le_bytes (slice b 40 (40 + 8))) with (u64_at b 40). change (from_le_bytes (slice b 58 (58 + 2))) with (u16_at b 58).
  change (from_le_bytes (slice b 60 (60 + 2))) with (u16_at b 60). change (from_le_bytes (slice b 62 (62 + 2))) with (u16_at b 62).
  pose proof (u64_range b 40 Hb ltac:(lia) ltac:(lia)). pose proof (u16_range b 60 Hb ltac:(lia) ltac:(lia)).
  pose proof (u16_range b 62 Hb ltac:(lia) ltac:(lia)). unfold blen in *.
  destruct (Z.eqb_spec (u16_at b 58) 64); cbn [negb orb].
  2:{ left. eexists. split; [done|]. by intros s' n' i' []. }
  destruct (Z.eqb_spec (u64_at b 40) 0); [left; eexists; split; [done|]; intros s' n' i' []; unfold blen in *; unfold E_SHOFF in *; lia|].
  destruct (Z.eqb_spec (u16_at b 60) 0); [left; eexists; split; [done|]; intros s' n' i' []; unfold E_SHNUM in *; lia|].
  destruct (Z.leb_spec (u16_at b 60) (u16_at b 62)); cbn [orb];
    [left; eexists; split; [done|]; intros s' n' i' []; unfold E_SHNUM, E_SHSTRNDX in *; lia|].
  destruct (Z.leb_spec two64 (u64_at b 40 + u16_at b 60 * 64));
    [left; eexists; split; [done|]; intros s' n' i' []; unfold blen, E_SHNUM, E_SHOFF, two64 in *; lia|].
  destruct (Z.ltb_spec (Z.of_nat (length b)) (u64_at b 40 + u16_at b 60 * 64));
    [left; eexists; split; [done|]; intros s' n' i' []; unfold blen, E_SHNUM, E_SHOFF in *; lia|].
  right. eexists _, _, _. split; [reflexivity|]. split; unfold blen; try done; lia.
Qed.

Lemma header_functional b s n i s' n' i' : header b s n i -> header b s' n' i' -> s = s' /\ n = n' /\ i = i'.
Proof. intros [] []. split_and!; congruence. Qed.

Lemma parse_header_ok b s n i : file_ok b -> header b s n i -> parse_header b = Done (inr (s, n, i)).
Proof.
  intros Hf Hh. destruct (parse_header_spec b Hf) as [(e & _ & Hn)|(s' & n' & i' & -> & Hh')]; [by apply Hn in Hh|].
  by destruct (header_functional _ _ _ _ _ _ _ Hh Hh') as (-> & -> & ->).
Qed.

Lemma parse_header_inv b s n i : file_ok b -> parse_header b = Done (inr (s, n, i)) -> header b s n i.
Proof.
  intros Hf Hp. destruct (parse_header_spec b Hf) as [(e & He & Hn)|(s' & n' & i' & He & Hh')]; rewrite Hp in He; [done|].
  injection He as <- <- <-. done.
Qed.

(** ** Finding a section: lemmas *)

(** The section [k] has the name [name] in the string table at [so, so + ss). *)
Definition named (b : bytes) (shoff so ss : Z) (name : bytes) (k : Z) : Prop :=
  let off := u32_at b (shoff + k * 64) in
  off + blen name <= ss /\ slice b (so + off) (so + off + blen name) = name.

Section Find.
Context (b : bytes) (Hf : file_ok b) (shoff shnum : Z) (so ss : Z) (name : bytes).
Context (Hoff : 0 <= shoff) (Hnum : 0 <= shnum) (Htab : shoff + shnum * 64 <= blen b).
Context (Hso : 0 <= so) (Hss : 0 <= ss) (Hstr : so + ss <= blen b) (Hname : blen name < two32).

Lemma find_loop_spec n : forall i,
  0 <= i -> i + Z.of_nat n = shnum ->
  match find_loop b shoff so ss name i n with
  | Done (Some e) => exists k, i <= k < shnum /\ e = shoff + k * 64 /\ named b shoff so ss name k
  | Done None => forall k, i <= k < shnum -> ~ named b shoff so ss name k
  | _ => False
  end.
Proof using Hf Hoff Hnum Htab Hso Hss Hstr Hname.
  destruct Hf as [Hb Hl]. induction n as [|n IH]; intros i Hi Hn; cbn [find_loop]; [intros k Hk; lia|].
  unfold entry, read_u32. rewrite (wadd64_small shoff) by (unfold two64; lia).
  rewrite read_ok by (unfold two64; lia). cbn [obind]. fold (u32_at b (shoff + i * 64)).
  pose proof (u32_range b (shoff + i * 64) Hb ltac:(lia) ltac:(lia)) as Hr. fold (blen name).
  rewrite wadd64_small by (unfold two64, two32, blen in *; lia).
  specialize (IH (i + 1) ltac:(lia) ltac:(lia)).
  assert (~ named b shoff so ss name i ->
    match find_loop b shoff so ss name (i + 1) n with
    | Done (Some e) => exists k, i <= k < shnum /\ e = shoff + k * 64 /\ named b shoff so ss name k
    | Done None => forall k, i <= k < shnum -> ~ named b shoff so ss name k
    | _ => False
    end) as Hskip.
  { intros Hnot. destruct (find_loop b shoff so ss name (i + 1) n) as [[e|]| |]; try done.
    - destruct IH as (k & Hk & He & Hm). exists k. split_and!; (done || lia).
    - intros k Hk. destruct (decide (k = i)) as [->|]; [done|]. apply IH. lia. }
  destruct (Z.leb_spec (u32_at b (shoff + i * 64) + blen name) ss) as [Hle|Hgt]; [|apply Hskip; intros [? _]; lia].
  rewrite (wadd64_small so), wadd64_small by (unfold two64, two32, blen in *; lia).
  rewrite index_ok by (unfold blen in *; lia). cbn [obind]. case_bool_decide as Hs.
  - exists i. split_and!; (done || lia).
  - apply Hskip. intros [_ ?]. done.
Qed.
End Find.

(** The string table of a file with a header. *)
Definition shstr_off (b : bytes) (shoff ndx : Z) : Z := u64_at b (shoff + ndx * 64 + 24).
Definition shstr_size (b : bytes) (shoff ndx : Z) : Z := u64_at b (shoff + ndx * 64 + 32).

Definition shstr_ok (b : bytes) (shoff ndx : Z) : Prop :=
  shstr_off b shoff ndx + shstr_size b shoff ndx <= blen b.

Lemma read_shstr b shoff shnum ndx :
  file_ok b -> header b shoff shnum ndx ->
  read_u64 b (wadd64 (entry shoff ndx) 24) = Done (shstr_off b shoff ndx) /\
  read_u64 b (wadd64 (entry shoff ndx) 32) = Done (shstr_size b shoff ndx) /\
  0 <= shstr_off b shoff ndx < two64 /\ 0 <= shstr_size b shoff ndx < two64.
Proof.
  intros [Hb Hl] [_ _ _ _ _ (H1 & H2 & H3 & H4)]. unfold entry, read_u64, shstr_off, shstr_size, two16 in *.
  rewrite (wadd64_small shoff), !wadd64_small, !read_ok by (unfold two64; lia).
  split_and!; try done; apply u64_range; (done || lia).
Qed.

Lemma has_codesign_spec b shoff shnum ndx :
  file_ok b -> header b shoff shnum ndx -> shstr_ok b shoff ndx ->
  exists r, has_codesign_section b = Done r /\
    (r = true <-> exists k, 0 <= k < shnum /\
       named b shoff (shstr_off b shoff ndx) (shstr_size b shoff ndx) CODESIGN_NAME k).
Proof.
  intros Hf Hh Hok. unfold has_codesign_section. rewrite (parse_header_ok b _ _ _ Hf Hh). cbn [obind].
  unfold find_section_by_name. destruct (read_shstr _ _ _ _ Hf Hh) as (-> & -> & Ho & Hs). cbn [obind].
  destruct Hh as [_ _ _ _ _ (H1 & H2 & H3 & H4)]. destruct Hf as [Hb Hl]. unfold shstr_ok in Hok.
  rewrite wadd64_small by (unfold two64 in *; lia).
  destruct (Z.ltb_spec (Z.of_nat (length b)) (shstr_off b shoff ndx + shstr_size b shoff ndx)); [unfold blen in *; lia|].
  pose proof (find_loop_spec b (conj Hb Hl) shoff shnum (shstr_off b shoff ndx) (shstr_size b shoff ndx) CODESIGN_NAME
    ltac:(lia) ltac:(lia) H4 ltac:(lia) ltac:(lia) Hok ltac:(by vm_compute) (Z.to_nat shnum) 0 ltac:(lia) ltac:(lia)) as Hfind.
  destruct (find_loop _ _ _ _ _ _ _) as [[e|]| |]; [| |done..]; cbn [obind]; eexists; (split; [reflexivity|]).
  - destruct Hfind as (k & Hk & _ & Hn). split; [|done]. intros _. exists k. split; [lia|done].
  - split; [done|]. intros (k & Hk & Hn). by apply Hfind in Hn.
Qed.

(** ** Injection: lemmas *)

Definition section_end (b : bytes) (shoff i : Z) : Z :=
  u64_at b (shoff + i * 64 + 24) + (if u32_at b (shoff + i * 64 + 4) =? 8 then 0 else u64_at b (shoff + i * 64 + 32)).

(** A file that can be signed: below 4 GiB, with a string table inside the
    file, room for one more section, and section ends far from 64 bits. *)
Record signable (elf : bytes) (shoff shnum ndx : Z) : Prop := {
  sg_bytes : is_bytes elf;
  sg_len : blen elf < two32;
  sg_header : header elf shoff shnum ndx;
  sg_room : shnum + 1 < two16;
  sg_shstr : shstr_ok elf shoff ndx;
  sg_ends : forall i, 0 <= i < shnum -> section_end elf shoff i < 4611686018427387904;
}.

Lemma sections_end_spec elf shoff shnum n : forall i cur,
  is_bytes elf -> blen elf < two32 -> 0 <= shoff -> shoff + shnum * 64 <= blen elf ->
  0 <= i -> i + Z.of_nat n = shnum -> 0 <= cur < 4611686018427387904 ->
  (forall k, i <= k < shnum -> section_end elf shoff k < 4611686018427387904) ->
  exists e, sections_end elf shoff i n cur = Done e /\ cur <= e < 4611686018427387904 /\
    forall k, i <= k < shnum -> section_end elf shoff k <= e.
Proof.
  induction n as [|n IH]; intros i cur Hb Hl Ho Ht Hi Hn Hc He; cbn [sections_end].
  { exists cur. split_and!; try done; try lia. }
  unfold entry, read_u32, read_u64. rewrite (wadd64_small shoff), !wadd64_small by (unfold two64, two32 in *; lia).
  rewrite !read_ok by (unfold two64, two32 in *; lia). cbn [obind].
  fold (u32_at elf (shoff + i * 64 + 4)). fold (u64_at elf (shoff + i * 64 + 24)). fold (u64_at elf (shoff + i * 64 + 32)).
  pose proof (He i ltac:(lia)) as Hi'. unfold section_end in Hi'.
  pose proof (u64_range elf (shoff + i * 64 + 24) Hb ltac:(lia) ltac:(lia)).
  pose proof (u64_range elf (shoff + i * 64 + 32) Hb ltac:(lia) ltac:(lia)).
  set (sz := if u32_at elf (shoff + i * 64 + 4) =? 8 then 0 else u64_at elf (shoff + i * 64 + 32)) in *.
  assert ((if u32_at elf (shoff + i * 64 + 4) =? 8 then Done 0 else Done (u64_at elf (shoff + i * 64 + 32))) = Done sz) as ->
    by (unfold sz; by case_if).
  assert (0 <= sz) by (unfold sz; case_if; lia). cbn [obind]. rewrite wadd64_small by (unfold two64; lia).
  set (cur' := if _ <? _ then _ else cur).
  assert (cur <= cur' < 4611686018427387904 /\ section_end elf shoff i <= cur') as [Hc' Hs'].
  { unfold cur', section_end. fold sz. destruct (Z.ltb_spec cur (u64_at elf (shoff + i * 64 + 24) + sz)); lia. }
  destruct (IH (i + 1) cur') as (e & -> & He1 & He2); try done; try lia; [intros k Hk; apply He; lia|].
  exists e. split_and!; try done; try lia. intros k Hk. destruct (decide (k = i)) as [->|]; [lia|]. apply He2. lia.
Qed.

(** What [inject_codesign_section] makes of a file. *)
Record injected (elf : bytes) (shoff shnum ndx : Z) (tmp : bytes) (cs_off sht : Z) : Prop := {
  in_file : file_ok tmp;
  in_aligned : cs_off mod PAGE_SIZE = 0;
  in_after : 0 < cs_off /\ shoff + shnum * 64 <= cs_off /\ forall i, 0 <= i < shnum -> section_end elf shoff i <= cs_off;
  in_before : cs_off + PAGE_SIZE + shstr_size elf shoff ndx + 10 <= sht /\ sht + (shnum + 1) * 64 = blen tmp;
  in_prefix : forall x y, 0 <= x -> y <= Z.min (blen elf) cs_off ->
    (y <= E_SHOFF \/ E_SHOFF + 8 <= x) -> (y <= E_SHNUM \/ E_SHNUM + 2 <= x) -> slice tmp x y = slice elf x y;
  in_shoff : u64_at tmp E_SHOFF = sht;
  in_shnum : u16_at tmp E_SHNUM = shnum + 1;
  in_strings : slice tmp (cs_off + PAGE_SIZE) (cs_off + PAGE_SIZE + shstr_size elf shoff ndx + 10) =
    slice elf (shstr_off elf shoff ndx) (shstr_off elf shoff ndx + shstr_size elf shoff ndx) ++ CODESIGN_NAME;
  in_shstr : shstr_off tmp sht ndx = cs_off + PAGE_SIZE /\ shstr_size tmp sht ndx = shstr_size elf shoff ndx + 10;
  in_entries : forall i, 0 <= i < shnum -> i <> ndx ->
    slice tmp (sht + i * 64) (sht + i * 64 + 64) = slice elf (shoff + i * 64) (shoff + i * 64 + 64);
  in_section : u32_at tmp (sht + shnum * 64) = shstr_size elf shoff ndx /\
    u64_at tmp (sht + shnum * 64 + 24) = cs_off /\ u64_at tmp (sht + shnum * 64 + 32) = PAGE_SIZE;
}.

(** Performs the next write of the goal, which is in range. *)
Ltac next_write :=
  unfold write_u16, write_u32, write_u64;
  match goal with
  | |- context [obind (write_at ?b ?a ?src) _] =>
      let b' := fresh "b" in let E := fresh "E" in let L := fresh "L" in
      destruct (write_ok b a src) as (b' & E & L);
      [lia | rewrite ?blen_le; unfold blen in *; lia | rewrite E; cbn [obind]]
  end.

(** Finds the write that a slice of a file comes from, going back through the
    writes that do not touch it. *)
Ltac seek :=
  repeat match goal with
  | E : write_at ?l ?a ?src = Done ?r |- context [slice ?r ?x ?y] =>
      first [ rewrite (slice_write_other l a src r x y E) by (rewrite ?blen_le; lia)
            | rewrite (slice_write_in l a src r x y E) by (rewrite ?blen_le; lia) ]
  end.

Lemma slice_all_from b a e : a = 0 /\ e = blen b -> slice b a e = b.
Proof. intros [-> ->]. by apply slice_all. Qed.

(** The bytes of an integer field, and its value. *)
Ltac int_field :=
  unfold shstr_off, shstr_size, u16_at, u32_at, u64_at; seek;
  rewrite slice_all_from by (rewrite blen_le; lia);
  apply from_to_le_bytes_small; pow256; lia.

(** The file that the writes of [inject_codesign_section] build, from the zeroed
    buffer [b0] on. *)
Section InjectedFile.
Context (elf : bytes) (shoff shnum ndx so ss cs_off sht k : Z) (strs : bytes).
Context (Hb : is_bytes elf) (Hl : blen elf < 4294967296).
Context (Hshoff : 0 < shoff) (Hndx : 0 <= ndx < shnum) (Hshnum : shnum + 1 < 65536) (Htable : shoff + shnum * 64 <= blen elf).
Context (Hso : 0 <= so) (Hss : 0 <= ss) (Hstr : so + ss <= blen elf) (H64 : 64 <= blen elf).
Context (Hso_eq : so = shstr_off elf shoff ndx) (Hss_eq : ss = shstr_size elf shoff ndx).
Context (Hal : cs_off mod PAGE_SIZE = 0) (Hafter : shoff + shnum * 64 <= cs_off < 4611686018427392000).
Context (Hends : forall i, 0 <= i < shnum -> section_end elf shoff i <= cs_off).
Context (Hsht : cs_off + 4096 + (ss + 10) <= sht < cs_off + 4096 + (ss + 10) + 8).
Context (Hk : k = Z.min (blen elf) cs_off) (Hstrs : strs = slice elf so (so + ss) ++ CODESIGN_NAME) (Hstrs_len : blen strs = ss + 10).
Context (b0 b1 b2 b3 b4 b5 b6 b7 b8 b9 b10 b11 b12 : bytes).
Context (B0 : is_bytes b0) (L0 : blen b0 = sht + (shnum + 1) * 64) (L12 : blen b12 = sht + (shnum + 1) * 64).
Context (Lhead : blen (slice elf 0 k) = k) (Ltab : blen (slice elf shoff (shoff + shnum * 64)) = shnum * 64).
Context (E1 : write_at b0 0 (slice elf 0 k) = Done b1).
Context (E2 : write_at b1 (cs_off + 4096) strs = Done b2).
Context (E3 : write_at b2 sht (slice elf shoff (shoff + shnum * 64)) = Done b3).
Context (E4 : write_at b3 (sht + shnum * 64) (to_le_bytes 4 (as_u32 ss)) = Done b4).
Context (E5 : write_at b4 (sht + shnum * 64 + 4) (to_le_bytes 4 1) = Done b5).
Context (E6 : write_at b5 (sht + shnum * 64 + 24) (to_le_bytes 8 cs_off) = Done b6).
Context (E7 : write_at b6 (sht + shnum * 64 + 32) (to_le_bytes 8 4096) = Done b7).
Context (E8 : write_at b7 (sht + shnum * 64 + 48) (to_le_bytes 8 4096) = Done b8).
Context (E9 : write_at b8 (sht + ndx * 64 + 24) (to_le_bytes 8 (cs_off + 4096)) = Done b9).
Context (E10 : write_at b9 (sht + ndx * 64 + 32) (to_le_bytes 8 (ss + 10)) = Done b10).
Context (E11 : write_at b10 40 (to_le_bytes 8 sht) = Done b11).
Context (E12 : write_at b11 60 (to_le_bytes 2 (shnum + 1)) = Done b12).

Lemma injected_file : injected elf shoff shnum ndx b12 cs_off sht.
Proof using All.
  split; unfold PAGE_SIZE, E_SHOFF, E_SHNUM; rewrite <- ?Hso_eq, <- ?Hss_eq.
  - split; [|lia]. repeat (eapply write_at_bytes; [eassumption| |apply to_le_bytes_bytes]).
    eapply write_at_bytes; [eassumption| |by apply is_bytes_slice].
    eapply write_at_bytes; [eassumption| |subst strs; apply Forall_app_2; [by apply is_bytes_slice|by apply (bool_decide_unpack _)]].
    eapply write_at_bytes; [eassumption|done|by apply is_bytes_slice].
  - done.
  - split_and!; [lia..|done].
  - lia.
  - intros x y Hx Hy H40 H60. destruct (decide (x <= y)); [|unfold slice, sub; by replace (Z.to_nat y - Z.to_nat x)%nat with 0%nat by lia].
    seek. rewrite slice_slice by lia. f_equal; lia.
  - int_field.
  - int_field.
  - seek. rewrite <- Hstrs. apply slice_all_from. lia.
  - split; int_field.
  - intros i Hi Hne. seek. rewrite slice_slice by lia. f_equal; lia.
  - split_and!; [|int_field..]. unfold u32_at. seek. rewrite slice_all_from by (rewrite blen_le; lia).
    unfold as_u32. rewrite (Z.mod_small ss) by (unfold two32; lia). apply from_to_le_bytes_small. pow256. lia.
Qed.
End InjectedFile.

Lemma inject_spec elf shoff shnum ndx :
  signable elf shoff shnum ndx ->
  exists tmp cs_off sht, inject_codesign_section elf = Done (inr (tmp, cs_off)) /\
    injected elf shoff shnum ndx tmp cs_off sht.
Proof.
  intros [Hb Hl Hh Hroom Hstr Hends]. assert (file_ok elf) as Hf by (split; [done|unfold two32 in *; lia]).
  unfold inject_codesign_section. rewrite (parse_header_ok _ _ _ _ Hf Hh). cbn [rbind obind].
  destruct (read_shstr _ _ _ _ Hf Hh) as (-> & -> & Ho & Hs). cbn [obind].
  pose proof Hh as [Helf _ _ _ _ (H1 & H2 & H3 & H4)]. pose proof (is_elf64_len _ Helf) as H64. unfold shstr_ok in Hstr.
  set (so := shstr_off elf shoff ndx) in *. set (ss := shstr_size elf shoff ndx) in *.
  unfold two16, two32 in *. rewrite (wadd64_small so), !(wadd64_small shoff) by (unfold two64; lia).
  destruct (Z.ltb_spec (Z.of_nat (length elf)) (so + ss)); [unfold blen in *; lia|].
  destruct (sections_end_spec elf shoff shnum (Z.to_nat shnum) 0 (shoff + shnum * 64)) as (e & Ee & He1 & He2);
    [done|unfold two32; lia|lia|done|lia|lia|lia|done|]. rewrite Ee. cbn [obind].
  rewrite index_ok by lia. cbn [obind].
  destruct (align_up_spec e PAGE_SIZE) as [Hal Hco]; [done|lia|unfold PAGE_SIZE, two64; lia|].
  set (cs_off := align_up e PAGE_SIZE) in *. unfold PAGE_SIZE in Hco.
  pose proof (length_slice elf so (so + ss) ltac:(lia) ltac:(lia)) as Hlen.
  set (strs := slice elf so (so + ss) ++ CODESIGN_NAME).
  assert (Z.of_nat (length strs) = ss + 10) as Hstrs by (unfold strs, blen in *; rewrite length_app; cbn [length CODESIGN_NAME]; lia).
  rewrite Hstrs, (wadd64_small cs_off) by (unfold PAGE_SIZE, two64; lia). unfold PAGE_SIZE.
  rewrite (wadd64_small (cs_off + 4096)) by (unfold two64; lia).
  destruct (align_up_spec (cs_off + 4096 + (ss + 10)) 8) as [_ Hsht]; [done|lia|unfold two64; lia|].
  set (sht := align_up (cs_off + 4096 + (ss + 10)) 8) in *.
  rewrite (Z.mod_small (shnum + 1)) by lia. rewrite (wadd64_small sht ((shnum + 1) * 64)) by (unfold two64; lia).
  set (total := sht + (shnum + 1) * 64).
  unfold zeroed. destruct (Z.ltb_spec total 9223372036854775808) as [Hmax|]; [|unfold total in *; lia]. cbn [obind].
  set (b0 := replicate (Z.to_nat total) 0).
  assert (blen b0 = total) as L0 by (unfold blen, b0; rewrite length_replicate; unfold total; lia).
  assert (is_bytes b0) as B0 by (apply Forall_replicate; unfold is_byte, two8; lia).
  set (k := Z.min (Z.min (Z.of_nat (length elf)) total) cs_off).
  assert (0 <= k <= cs_off /\ k = Z.min (blen elf) cs_off) as [Hk Hk'] by (unfold k, total, blen in *; lia).
  rewrite (index_ok elf 0 k) by lia. cbn [obind].
  pose proof (length_slice elf 0 k ltac:(lia) ltac:(lia)) as Hhead.
  rewrite (index_ok elf shoff) by lia.
  pose proof (length_slice elf shoff (shoff + shnum * 64) ltac:(lia) ltac:(lia)) as Htab.
  rewrite !(wadd64_small sht) by (unfold two64; lia). rewrite !wadd64_small by (unfold two64; lia).
  change (Z.of_nat (length strs)) with (blen strs) in Hstrs.
  do 2 next_write. cbn [obind]. do 8 next_write. unfold E_SHOFF, E_SHNUM. do 2 next_write.
  eexists _, _, sht. split; [reflexivity|].
  eapply injected_file; try eassumption; try reflexivity; try lia.
  intros i Hi. specialize (He2 i Hi). lia.
Qed.

(** ** The signature page: lemmas *)

Definition descriptor (sign_size file_size : Z) (root : bytes) : bytes :=
  [1; 1; 12; 0] ++ to_le_bytes 4 sign_size ++ to_le_bytes 8 file_size ++ root ++ replicate 64 0
  ++ to_le_bytes 4 FLAG_SELF_SIGN ++ replicate 139 0 ++ [3].

Definition signature_page (file_size : Z) (root : bytes) : bytes :=
  to_le_bytes 4 ELF_SIGN_INFO_TYPE ++ to_le_bytes 4 (256 + 32) ++ descriptor 32 file_size root
  ++ sha256_spec (descriptor 0 file_size root).

(** Overwriting the middle of a list. *)
Lemma write_mid pre mid post src a :
  a = blen pre -> length src = length mid -> write_at (pre ++ mid ++ post) a src = Done (pre ++ src ++ post).
Proof.
  intros -> Hl. apply write_at_Done. unfold blen. rewrite !length_app, Nat2Z.id. split_and!; [lia..|].
  rewrite take_app_length. do 2 f_equal. by rewrite Hl, <- drop_drop, !drop_app_length.
Qed.

Lemma build_spec sign_size file_size root :
  length root = 32%nat -> build sign_size file_size root = Done (descriptor sign_size file_size root).
Proof.
  intros Hr. unfold build, descriptor, DESCRIPTOR_SIZE.
  do 32 (destruct root as [|? root]; [discriminate Hr|]). destruct root; [|discriminate Hr].
  generalize (to_le_bytes 4 sign_size) (length_to_le_bytes 4 sign_size). intros l4 H4.
  generalize (to_le_bytes 8 file_size) (length_to_le_bytes 8 file_size). intros l8 H8.
  do 4 (destruct l4 as [|? l4]; [discriminate H4|]). destruct l4; [|discriminate H4].
  do 8 (destruct l8 as [|? l8]; [discriminate H8|]). destruct l8; [|discriminate H8].
  reflexivity.
Qed.

Lemma length_descriptor sign_size file_size root :
  length root = 32%nat -> length (descriptor sign_size file_size root) = 256%nat.
Proof. intros Hr. unfold descriptor. len. rewrite Hr, !length_to_le_bytes. done. Qed.

Lemma payload_spec file_size root :
  length root = 32%nat -> payload file_size root = Done (signature_page file_size root).
Proof.
  intros Hr. unfold payload, signature_page. rewrite build_spec by done. cbn [obind]. rewrite sha256_hash_spec. cbn [obind].
  rewrite build_spec by done. cbn [obind].
  pose proof (length_descriptor 32 file_size root Hr) as Hd. pose proof (length_sha256_spec (descriptor 0 file_size root)) as Hs.
  set (d := descriptor 32 file_size root) in *. set (h := sha256_spec _) in *.
  change (replicate (8 + DESCRIPTOR_SIZE + 32) 0) with
    ([] ++ replicate 4 0 ++ (replicate 4 0 ++ replicate DESCRIPTOR_SIZE 0 ++ replicate 32 0)).
  rewrite (write_mid []) by done. cbn [obind app].
  rewrite (write_mid (to_le_bytes 4 ELF_SIGN_INFO_TYPE)) by done. cbn [obind].
  rewrite (app_assoc (to_le_bytes 4 ELF_SIGN_INFO_TYPE)), (write_mid (to_le_bytes 4 ELF_SIGN_INFO_TYPE ++ _))
    by (rewrite ?length_replicate; done). cbn [obind].
  rewrite (app_assoc _ d), <- (app_nil_r (replicate 32 0)).
  rewrite (write_mid ((to_le_bytes 4 ELF_SIGN_INFO_TYPE ++ _) ++ d)); [by rewrite app_nil_r, <- !app_assoc|..].
  - unfold blen. len. rewrite Hd, !length_to_le_bytes. done.
  - by rewrite length_replicate.
Qed.

Lemma length_signature_page file_size root : length root = 32%nat -> blen (signature_page file_size root) = 296.
Proof.
  intros Hr. unfold blen, signature_page. len. rewrite !length_to_le_bytes, length_descriptor, length_sha256_spec by done. done.
Qed.

(** ** Signing: lemmas *)

(** Writing inside the signature page does not change the root. *)
Lemma root_after_write tmp cs_off page out :
  cs_off mod PAGE_SIZE = 0 -> 0 <= cs_off -> cs_off < 9223372036854775808 -> blen page <= PAGE_SIZE ->
  write_at tmp cs_off page = Done out -> root_hash out cs_off PAGE_SIZE = root_hash tmp cs_off PAGE_SIZE.
Proof.
  intros Hal Ho Hmax Hp Hw. unfold PAGE_SIZE, blen in *. apply root_hash_agree.
  - unfold cs_range_ok, two64. rewrite PAGE_Z. lia.
  - by eapply write_at_length.
  - intros j Hj. rewrite (write_at_lookup _ _ _ _ _ Hw).
    destruct (Nat.leb_spec (Z.to_nat cs_off) j), (Nat.ltb_spec j (Z.to_nat cs_off + length page)); cbn [andb]; try done.
    exfalso. revert Hj. unfold in_codesign. rewrite PAGE_Z, Nat2Z.inj_div, PAGE_Z.
    replace (cs_off + 4096 + 4096 - 1) with (cs_off + 2 * 4096 - 1) by lia.
    replace (cs_off / 4096 <=? Z.of_nat j / 4096) with true by (symmetry; apply Z.leb_le, Z.div_le_mono; lia).
    replace (Z.of_nat j / 4096 <? (cs_off + 2 * 4096 - 1) / 4096) with true; [done|].
    symmetry. apply Z.ltb_lt. pose proof (Z.div_mod cs_off 4096 ltac:(lia)).
    replace ((cs_off + 2 * 4096 - 1) / 4096) with (cs_off / 4096 + 1) by (apply (Z.div_unique _ _ _ 4095); lia).
    assert (Z.of_nat j < (cs_off / 4096 + 1) * 4096) by lia. apply Z.div_lt_upper_bound; lia.
Qed.

Lemma sign_spec elf shoff shnum ndx :
  signable elf shoff shnum ndx -> has_codesign_section elf = Done false ->
  exists out tmp cs_off sht root,
    sign elf false = Done (inr out) /\ injected elf shoff shnum ndx tmp cs_off sht /\
    write_at tmp cs_off (signature_page (blen tmp) root) = Done out /\ length root = 32%nat /\ is_bytes root /\ blen out = blen tmp /\
    root_hash out cs_off PAGE_SIZE = Done root.
Proof.
  intros Hs Hn. destruct (inject_spec _ _ _ _ Hs) as (tmp & cs_off & sht & Hi & Hin).
  pose proof Hin as [[Hb Hmax] Hal (Ho & _) (Hsht & Htot)]. pose proof Hs as [_ _ [Helf _ _ _ _ Hrange] _ _ _].
  assert (0 <= shstr_size elf shoff ndx) as Hss.
  { apply u64_range; [by apply sg_bytes in Hs|lia..]. }
  destruct (root_hash_spec tmp cs_off PAGE_SIZE) as (root & Hroot & Hm);
    [unfold cs_range_ok, PAGE_SIZE, two64 in *; rewrite PAGE_Z; lia|].
  assert (length root = 32%nat) as Hlen by (exact (merkle_root_length _ _ Hm (leaves_hashes _ _ _))).
  pose proof (length_signature_page (blen tmp) root Hlen) as Hpage.
  destruct (write_ok tmp cs_off (signature_page (blen tmp) root)) as (out & Hw & Hout); [lia|unfold PAGE_SIZE in *; lia|].
  exists out, tmp, cs_off, sht, root. split_and!; try done.
  - unfold sign. rewrite Helf, Hn. cbn [negb rbind obind]. rewrite Hi. cbn [rbind obind]. rewrite Hroot. cbn [obind].
    change (Z.of_nat (length tmp)) with (blen tmp). rewrite payload_spec by done. cbn [obind]. by rewrite Hw.
  - exact (merkle_root_bytes _ _ Hm (leaves_bytes _ _ _)).
  - rewrite <- Hroot. apply (root_after_write _ _ (signature_page (blen tmp) root)); unfold PAGE_SIZE in *; (done || lia).
Qed.

Lemma is_elf64_slice b : is_elf64 b = true <-> 64 <= blen b /\ slice b 0 5 = [127; 69; 76; 70; 2].
Proof.
  unfold is_elf64, slice, sub, blen. rewrite !andb_true_iff, Z.leb_le, !bool_decide_eq_true. cbn [Z.to_nat Pos.to_nat].
  change (Z.to_nat 0) with 0%nat. change (Z.to_nat 5 - 0)%nat with 5%nat. rewrite drop_0.
  destruct b as [|a0 [|a1 [|a2 [|a3 [|a4 b]]]]]; cbn [take lookup list_lookup]; naive_solver (cbn in *; lia).
Qed.

(** A header read from the same bytes. *)
Lemma header_transfer b b' shoff shnum ndx shoff' shnum' :
  header b shoff shnum ndx -> 64 <= blen b' ->
  slice b' 0 5 = slice b 0 5 -> slice b' 58 60 = slice b 58 60 -> slice b' 62 64 = slice b 62 64 ->
  u64_at b' E_SHOFF = shoff' -> u16_at b' E_SHNUM = shnum' ->
  0 < shoff' -> ndx < shnum' < two16 -> shoff' + shnum' * 64 <= blen b' -> header b' shoff' shnum' ndx.
Proof.
  intros [He _ Hent _ Hndx Hr] H64 H05 H58 H62 Hoff Hnum H0 H1 H2. split; try done; try lia.
  - apply is_elf64_slice in He as [_ He]. apply is_elf64_slice. by rewrite H05.
  - unfold u16_at, E_SHENTSIZE in *. change (0x3a + 2) with 60 in *. by rewrite H58.
  - unfold u16_at, E_SHSTRNDX in *. change (0x3e + 2) with 64 in *. by rewrite H62.
Qed.

Section Signed.
Context (elf : bytes) (shoff shnum ndx : Z) (tmp : bytes) (cs_off sht : Z) (page out : bytes).
Context (Hs : signable elf shoff shnum ndx) (Hin : injected elf shoff shnum ndx tmp cs_off sht).
Context (Hpage : blen page = 296) (Hw : write_at tmp cs_off page = Done out) (Hlen : blen out = blen tmp).

Lemma signed_bounds :
  64 <= cs_off /\ 64 <= blen elf /\ 0 <= shstr_size elf shoff ndx /\ 0 < shoff /\ 0 <= ndx < shnum.
Proof using Hs Hin.
  destruct Hs as [Hb Hl [He _ _ _ _ Hr] Hroom Hstr _]. destruct Hin as [_ _ (H0 & H1 & _) _ _ _ _ _ _ _ _].
  apply is_elf64_len in He. split_and!; try lia. apply u64_range; (done || lia).
Qed.

Lemma signed_other x y : 0 <= x -> y <= cs_off \/ cs_off + PAGE_SIZE <= x -> slice out x y = slice tmp x y.
Proof using Hpage Hw.
  intros Hx Hd. apply (slice_write_other _ _ _ _ _ _ Hw); [done|]. unfold PAGE_SIZE in *. lia.
Qed.

Lemma signed_header : header out sht (shnum + 1) ndx.
Proof using Hs Hin Hpage Hw Hlen.
  pose proof signed_bounds as (H1 & H2 & H3 & H4 & H5). pose proof Hs as [_ _ Hh Hroom _ _].
  destruct Hin as [_ _ (_ & H6 & _) (H7 & H8) Hpre Hoff Hnum _ _ _ _]. unfold PAGE_SIZE, E_SHOFF, E_SHNUM in *.
  apply (header_transfer elf out shoff shnum ndx); try done; try lia;
    try (rewrite signed_other by lia; apply Hpre; lia).
  - rewrite <- Hoff. unfold u64_at, E_SHOFF. by rewrite signed_other by lia.
  - rewrite <- Hnum. unfold u16_at, E_SHNUM. by rewrite signed_other by lia.
Qed.

Lemma signed_shstr :
  shstr_off out sht ndx = cs_off + PAGE_SIZE /\ shstr_size out sht ndx = shstr_size elf shoff ndx + 10.
Proof using Hs Hin Hpage Hw.
  pose proof signed_bounds as (H1 & H2 & H3 & H4 & H5).
  destruct Hin as [_ _ _ (H7 & H8) _ _ _ _ [Ho Hz] _ _]. rewrite <- Ho, <- Hz.
  unfold shstr_off, shstr_size, u64_at. by rewrite !signed_other by (unfold PAGE_SIZE in *; lia).
Qed.

Lemma signed_file : file_ok page -> file_ok out.
Proof using Hin Hw Hlen.
  intros [Hp _]. destruct Hin as [[Hb Hmax] _ _ _ _ _ _ _ _ _ _]. split; [by eapply write_at_bytes|lia].
Qed.

Lemma signed_strings x y :
  0 <= x -> y <= shstr_size elf shoff ndx ->
  slice out (cs_off + PAGE_SIZE + x) (cs_off + PAGE_SIZE + y) = slice elf (shstr_off elf shoff ndx + x) (shstr_off elf shoff ndx + y).
Proof using Hs Hin Hpage Hw.
  intros Hx Hy. pose proof signed_bounds as (H1 & H2 & H3 & H4 & H5). pose proof Hs as [Hb _ _ _ Hok _].
  pose proof Hs as [_ _ [_ _ _ _ _ Hr] _ _ _].
  assert (0 <= shstr_off elf shoff ndx) by (apply u64_range; (done || lia)). unfold shstr_ok in Hok.
  destruct Hin as [_ _ _ (H7 & H8) _ _ _ Hstrs _ _ _]. rewrite signed_other by (unfold PAGE_SIZE in *; lia).
  set (ss := shstr_size elf shoff ndx) in *. set (so := shstr_off elf shoff ndx) in *.
  rewrite <- (slice_slice tmp (cs_off + PAGE_SIZE) (cs_off + PAGE_SIZE + ss + 10)) by (unfold PAGE_SIZE in *; lia).
  rewrite Hstrs, <- (slice_slice elf so (so + ss)) by lia.
  pose proof (length_slice elf so (so + ss) ltac:(lia) ltac:(lia)) as Hl. unfold blen in Hl.
  apply list_eq. intros j. rewrite !(slice_lookup _ x y). destruct (Nat.ltb_spec j (Z.to_nat y - Z.to_nat x)); [|done].
  rewrite lookup_app_l by lia. done.
Qed.

Lemma signed_name :
  slice out (cs_off + PAGE_SIZE + shstr_size elf shoff ndx) (cs_off + PAGE_SIZE + shstr_size elf shoff ndx + 10) = CODESIGN_NAME.
Proof using Hs Hin Hpage Hw.
  pose proof signed_bounds as (H1 & H2 & H3 & H4 & H5). pose proof Hs as [Hb _ _ _ Hok _].
  pose proof Hs as [_ _ [_ _ _ _ _ Hr] _ _ _].
  assert (0 <= shstr_off elf shoff ndx) by (apply u64_range; (done || lia)). unfold shstr_ok in Hok.
  destruct Hin as [_ _ _ (H7 & H8) _ _ _ Hstrs _ _ _]. rewrite signed_other by (unfold PAGE_SIZE in *; lia).
  set (ss := shstr_size elf shoff ndx) in *. set (so := shstr_off elf shoff ndx) in *.
  pose proof (length_slice elf so (so + ss) ltac:(lia) ltac:(lia)) as Hl. unfold blen in Hl.
  replace (cs_off + PAGE_SIZE + ss + 10) with (cs_off + PAGE_SIZE + (ss + 10)) by lia.
  rewrite <- (slice_slice tmp (cs_off + PAGE_SIZE) (cs_off + PAGE_SIZE + ss + 10)) by (unfold PAGE_SIZE in *; lia).
  rewrite Hstrs. unfold slice at 1, sub. rewrite drop_app_length' by lia. apply take_ge. cbn. lia.
Qed.

Lemma signed_entry_named : named out sht (shstr_off out sht ndx) (shstr_size out sht ndx) CODESIGN_NAME shnum.
Proof using Hs Hin Hpage Hw.
  pose proof signed_bounds as (H1 & H2 & H3 & H4 & H5). pose proof signed_shstr as [Ho Hz]. unfold named. rewrite Ho, Hz.
  destruct Hin as [_ _ _ (H7 & H8) _ _ _ _ _ _ (Hname & _)].
  assert (u32_at out (sht + shnum * 64) = shstr_size elf shoff ndx) as ->.
  { rewrite <- Hname. unfold u32_at. by rewrite signed_other by (unfold PAGE_SIZE in *; lia). }
  split; [by change (blen CODESIGN_NAME) with 10|]. apply signed_name.
Qed.

Lemma signed_codesign : file_ok page -> has_codesign_section out = Done true.
Proof using Hs Hin Hpage Hw Hlen.
  intros Hp. pose proof signed_bounds as (H1 & H2 & H3 & H4 & H5). pose proof signed_shstr as [Ho Hz].
  destruct (has_codesign_spec out sht (shnum + 1) ndx (signed_file Hp) signed_header) as (r & Hr & Hiff).
  - unfold shstr_ok. rewrite Ho, Hz, Hlen. destruct Hin as [_ _ _ (H7 & H8) _ _ _ _ _ _ _]. lia.
  - assert (r = true) as Ht; [|by rewrite Hr, Ht]. apply Hiff. exists shnum. split; [lia|]. apply signed_entry_named.
Qed.
End Signed.

Lemma signature_page_file file_size root : is_bytes root -> length root = 32%nat -> file_ok (signature_page file_size root).
Proof.
  intros Hb Hr. split; [|by rewrite length_signature_page].
  unfold signature_page, descriptor.
  repeat apply Forall_app_2; try apply to_le_bytes_bytes; try done; try apply sha256_spec_bytes;
    try (apply Forall_replicate; unfold is_byte, two8; lia); by apply (bool_decide_unpack _).
Qed.

(** ** Properties *)

(** C1: a signed file verifies. Signing a signable file that has no signature
    succeeds, and what a verifier recomputes from the result matches what is
    in it: the page at the page-aligned [cs_off] holds the header, the
    descriptor with the length and the Merkle root of the signed file itself,
    and the SHA-256 digest of that descriptor with no signature size. *)
Theorem sign_verifies elf shoff shnum ndx :
  signable elf shoff shnum ndx -> has_codesign_section elf = Done false ->
  exists out cs_off root,
    sign elf false = Done (inr out) /\ cs_off mod PAGE_SIZE = 0 /\ 0 < cs_off /\ cs_off + PAGE_SIZE <= blen out /\
    root_hash out cs_off PAGE_SIZE = Done root /\
    slice out cs_off (cs_off + 296) = signature_page (blen out) root.
Proof.
  intros Hs Hn. destruct (sign_spec _ _ _ _ Hs Hn) as (out & tmp & cs_off & sht & root & Hsign & Hin & Hw & Hr & Hrb & Hlen & Hroot).
  exists out, cs_off, root. pose proof (signed_bounds _ _ _ _ _ _ _ Hs Hin) as Hbd.
  destruct Hin as [_ Hal (H0 & _) (H1 & H2) _ _ _ _ _ _ _].
  split_and!; try done; [lia|]. rewrite Hlen. apply (slice_write_same _ _ _ _ _ Hw). by rewrite length_signature_page.
Qed.

(** A small ELF file: a header, a string table and two sections. *)
Definition tiny_elf : bytes :=
  [127; 69; 76; 70; 2] ++ replicate 35 0 ++ to_le_bytes 8 72 ++ replicate 10 0
  ++ to_le_bytes 2 64 ++ to_le_bytes 2 2 ++ to_le_bytes 2 1
  ++ [0; 46; 115; 0] ++ replicate 4 0
  ++ replicate 64 0
  ++ to_le_bytes 4 1 ++ to_le_bytes 4 3 ++ replicate 16 0 ++ to_le_bytes 8 64 ++ to_le_bytes 8 4 ++ replicate 24 0.

Lemma tiny_elf_signable : signable tiny_elf 72 2 1.
Proof.
  split; [by apply (bool_decide_unpack _)|by vm_compute| |by vm_compute|by vm_compute|].
  - split; by vm_compute.
  - intros i Hi. assert (i = 0 \/ i = 1) as [-> | ->] by lia; by vm_compute.
Qed.

Lemma sign_verifies_witness :
  exists out cs_off root, sign tiny_elf false = Done (inr out) /\ root_hash out cs_off PAGE_SIZE = Done root /\
    slice out cs_off (cs_off + 296) = signature_page (blen out) root.
Proof.
  destruct (sign_verifies tiny_elf 72 2 1 tiny_elf_signable) as (out & cs_off & root & H1 & _ & _ & _ & H2 & H3); [by vm_compute|].
  exists out, cs_off, root. split; [exact H1|]. split; [exact H2|exact H3].
Defined.

(** A signed file is recognised as signed. The [.codesign] section is
    found in the result of signing, so signing it again is refused. *)
Theorem sign_marks elf shoff shnum ndx :
  signable elf shoff shnum ndx -> has_codesign_section elf = Done false ->
  exists out, sign elf false = Done (inr out) /\ has_codesign_section out = Done true /\
    sign out false = Done (inl AlreadySigned).
Proof.
  intros Hs Hn. destruct (sign_spec _ _ _ _ Hs Hn) as (out & tmp & cs_off & sht & root & Hsign & Hin & Hw & Hr & Hrb & Hlen & Hroot).
  pose proof (length_signature_page (blen tmp) root Hr) as Hpage.
  assert (has_codesign_section out = Done true) as Hcs
    by (eapply signed_codesign; try eassumption; by apply signature_page_file).
  exists out. split_and!; [done..|]. unfold sign. rewrite Hcs.
  destruct (signed_header _ _ _ _ _ _ _ _ _ Hs Hin Hpage Hw Hlen) as [He _ _ _ _ _]. by rewrite He.
Qed.

Lemma sign_marks_witness : exists out, sign tiny_elf false = Done (inr out) /\ has_codesign_section out = Done true.
Proof.
  destruct (sign_marks tiny_elf 72 2 1 tiny_elf_signable) as (out & H1 & H2 & _); [by vm_compute|].
  exists out. split; [exact H1|exact H2].
Defined.





(** ** Observations *)

(** A section offset near the top of the address space wraps the alignment:
    signing succeeds, places the signature page at offset 0 and returns a file
    that is no longer an ELF file. *)
Definition wrapping_elf : bytes :=
  [127; 69; 76; 70; 2] ++ replicate 35 0 ++ to_le_bytes 8 72 ++ replicate 10 0
  ++ to_le_bytes 2 64 ++ to_le_bytes 2 2 ++ to_le_bytes 2 1
  ++ [0; 46; 115; 0] ++ replicate 4 0
  ++ replicate 4 0 ++ to_le_bytes 4 1 ++ replicate 16 0 ++ to_le_bytes 8 (two64 - 100) ++ replicate 32 0
  ++ to_le_bytes 4 1 ++ to_le_bytes 4 3 ++ replicate 16 0 ++ to_le_bytes 8 64 ++ to_le_bytes 8 4 ++ replicate 24 0.

Theorem sign_wraps_over_header :
  match sign wrapping_elf false with
  | Done (inr out) => is_elf64 wrapping_elf = true /\ is_elf64 out = false
  | _ => False
  end.
Proof. by vm_compute. Qed.

(** The bounds check of the string table adds offset and size without overflow
    check: a crafted table passes it and signing panics, instead of returning
    [ShstrtabOutOfBounds]. *)
Definition overflowing_elf : bytes :=
  [127; 69; 76; 70; 2] ++ replicate 35 0 ++ to_le_bytes 8 64 ++ replicate 10 0
  ++ to_le_bytes 2 64 ++ to_le_bytes 2 1 ++ to_le_bytes 2 0
  ++ replicate 24 0 ++ to_le_bytes 8 (two64 - 1) ++ to_le_bytes 8 1 ++ replicate 24 0.

Theorem sign_panics_on_overflow : sign overflowing_elf false = Panic.
Proof. by vm_compute. Qed.
