(* ===== verification/Vlq.v ===== *)
(** * Variable-length quantities

    [mod vlq] of [src/src/base64/lib.rs]: the base-64 digits in which source
    maps store 32-bit numbers, five bits a digit, least significant first, the
    sign in the lowest bit. *)
From Stdlib Require Import ZArith Lia.
From stdpp Require Import base list numbers option.
From S2P Require Import Prelude.
#[local] Open Scope Z_scope.

(** ** 32-bit signed integers *)

Definition i32_MIN : Z := -2147483648.
Definition i32_MAX : Z := 2147483647.
Definition is_i32 (z : Z) : Prop := i32_MIN <= z <= i32_MAX.

(** [z as i32], and the wrapping operations. *)
Definition as_i32 (z : Z) : Z := (z + 2147483648) mod two32 - 2147483648.
Definition wadd_i32 (a b : Z) : Z := as_i32 (a + b).
Definition wsub_i32 (a b : Z) : Z := as_i32 (a - b).

Lemma as_i32_small z : is_i32 z -> as_i32 z = z.
Proof. unfold is_i32, as_i32, i32_MIN, i32_MAX, two32. intros H. rewrite Z.mod_small; lia. Qed.

Lemma as_i32_range z : is_i32 (as_i32 z).
Proof.
  unfold is_i32, as_i32, i32_MIN, i32_MAX, two32. pose proof (Z.mod_pos_bound (z + 2147483648) 4294967296). lia.
Qed.

(** ** The code *)

Definition VLQ_MAX_IN_BYTES : nat := 7.

Record VLQ : Type := mkVLQ { vlq_bytes : bytes; vlq_len : nat }.

Definition VLQ_slice (v : VLQ) : bytes := take v.(vlq_len) v.(vlq_bytes).

(** [STANDARD_ALPHABET_CHARS]: [A-Z], [a-z], [0-9], [+] and [/]. *)
Definition BASE64 : bytes := seqZ 65 26 ++ seqZ 97 26 ++ seqZ 48 10 ++ [43; 47].

Definition U7_MAX : Z := 127.

Definition BASE64_LUT : bytes :=
  fold_left (fun lut i => <[Z.to_nat (nth i BASE64 0) := Z.of_nat i]> lut) (seq 0 64) (replicate 128 U7_MAX).

(** The loop of [encode_slow_path]; [iter] rounds are left, so [len] is below
    [VLQ_MAX_IN_BYTES] at every write. *)
Fixpoint encode_loop (iter : nat) (vlq : Z) (bs : bytes) (len : nat) : VLQ :=
  match iter with
  | O => mkVLQ bs 0
  | S iter' =>
      let digit := Z.land vlq 31 in
      let vlq := Z.shiftr vlq 5 in
      let digit := if negb (vlq =? 0) then Z.lor digit 32 else digit in
      let bs := <[len := nth (Z.to_nat digit) BASE64 0]> bs in
      if vlq =? 0 then mkVLQ bs (S len) else encode_loop iter' vlq bs (S len)
  end.

Definition encode_slow_path (value : Z) : VLQ :=
  let vlq := if 0 <=? value then as_u32 (Z.shiftl value 1)
             else Z.lor (as_u32 (Z.shiftl (Z.abs value) 1)) 1 in
  encode_loop VLQ_MAX_IN_BYTES vlq (replicate VLQ_MAX_IN_BYTES 0) 0.

Definition VLQ_LOOKUP_TABLE : list VLQ := map encode_slow_path (seqZ 0 256).

Definition VLQ_encode (value : Z) : VLQ :=
  if (0 <=? value) && (value <=? 255) then nth (Z.to_nat value) VLQ_LOOKUP_TABLE (mkVLQ [] 0)
  else encode_slow_path value.

Record VLQResult : Type := mkVLQResult { vr_value : Z; vr_start : nat }.

Fixpoint decode_loop (encoded : bytes) (start i : nat) (shift vlq : Z) : VLQResult :=
  match encoded with
  | [] => mkVLQResult 0 start
  | c :: rest =>
      let index := nth (Z.to_nat (Z.land c 127)) BASE64_LUT 0 in
      let vlq := Z.lor vlq (as_u32 (Z.shiftl (Z.land index 31) (Z.land shift 31))) in
      if Z.land index 32 =? 0 then
        mkVLQResult (if Z.land vlq 1 =? 0 then as_i32 (Z.shiftr vlq 1) else as_i32 (- as_i32 (Z.shiftr vlq 1)))
          (start + i + 1)
      else decode_loop rest start (S i) (shift + 5) vlq
  end.

(** [decode_impl]; the slice [&encoded[start..]] panics past the end. *)
Definition VLQ_decode (encoded : bytes) (start : nat) : outcome VLQResult :=
  if (start <=? length encoded)%nat
  then Done (decode_loop (take (VLQ_MAX_IN_BYTES + 1) (drop start encoded)) start 0 0 0)
  else Panic.

(** ** Digits *)

(** The digits of [u], the continuation bit on all but the last. *)
Fixpoint vlq_digits (n : nat) (u : Z) : list Z :=
  match n with
  | O => []
  | S n' => if u / 32 =? 0 then [u mod 32] else (u mod 32 + 32) :: vlq_digits n' (u / 32)
  end.

Definition digit_char (d : Z) : Z := nth (Z.to_nat d) BASE64 0.

Lemma land_31 u : Z.land u 31 = u mod 32.
Proof. change 31 with (Z.ones 5). by rewrite Z.land_ones. Qed.

Lemma lor_32 d : 0 <= d < 32 -> Z.lor d 32 = d + 32.
Proof.
  intros H. symmetry. apply Z.add_nocarry_lor. apply Z.bits_inj_iff. intros i. rewrite Z.land_spec, Z.bits_0.
  change 32 with (2 ^ 5). destruct (decide (i = 5)) as [->|]; [|by rewrite Z.pow2_bits_false, andb_false_r by lia].
  destruct (Z.bounded_iff_bits_nonneg' 5 d) as [Hb _]; [lia..|]. by rewrite Hb.
Qed.

Lemma encode_loop_digits n u bs len :
  (n + len = 7)%nat -> length bs = 7%nat -> 0 <= u < 32 ^ Z.of_nat n -> (0 < n)%nat ->
  VLQ_slice (encode_loop n u bs len) = take len bs ++ map digit_char (vlq_digits n u).
Proof.
  revert u bs len. induction n as [|n IH]; intros u bs len Hn Hl Hu H0; [lia|]. cbn [encode_loop vlq_digits].
  rewrite land_31, Z.shiftr_div_pow2 by done. change (2 ^ 5) with 32.
  pose proof (Z.mod_pos_bound u 32 ltac:(done)).
  destruct (Z.eqb_spec (u / 32) 0) as [E|E]; cbn [negb].
  - unfold VLQ_slice. cbn [vlq_len vlq_bytes map]. rewrite (take_S_r _ _ (digit_char (u mod 32))), take_insert_ge by
      first [lia | apply list_lookup_insert_eq; lia]. done.
  - rewrite lor_32 by done. assert (0 <= u / 32 < 32 ^ Z.of_nat n) as Hu'.
    { split; [apply Z.div_pos; lia|]. apply Z.div_lt_upper_bound; [lia|].
      replace (32 * 32 ^ Z.of_nat n) with (32 ^ Z.of_nat (S n)); [lia|].
      rewrite Nat2Z.inj_succ, Z.pow_succ_r by lia. done. }
    rewrite IH; [|lia|by rewrite length_insert|done|].
    + rewrite (take_S_r _ _ (digit_char (u mod 32 + 32))), take_insert_ge by
        first [lia | apply list_lookup_insert_eq; lia]. by rewrite <- app_assoc.
    + destruct n; [|lia]. change (32 ^ Z.of_nat 0) with 1 in Hu'. lia.
Qed.

Lemma digit_index d : 0 <= d < 64 ->
  nth (Z.to_nat (Z.land (digit_char d) 127)) BASE64_LUT 0 = d /\ 43 <= digit_char d <= 122.
Proof.
  assert (Forall (fun d => nth (Z.to_nat (Z.land (digit_char d) 127)) BASE64_LUT 0 = d /\ 43 <= digit_char d <= 122)
    (seqZ 0 64)) as H by (apply (bool_decide_unpack _); by vm_compute).
  intros Hd. rewrite Forall_forall in H. apply H, list_elem_of_In, elem_of_seqZ. lia.
Qed.

Lemma vlq_digits_range n u : Forall (fun d => 0 <= d < 64) (vlq_digits n u).
Proof.
  revert u. induction n as [|n IH]; intros u; [constructor|]. cbn [vlq_digits].
  pose proof (Z.mod_pos_bound u 32 ltac:(done)). case_if; repeat constructor; try lia. apply IH.
Qed.

Lemma vlq_digits_length n u : (length (vlq_digits n u) <= n)%nat.
Proof. revert u. induction n as [|n IH]; intros u; cbn; [lia|]. case_if; cbn; [lia|]. specialize (IH (u / 32)). lia. Qed.

(** The value of the digits that were read, as sign and magnitude. *)
Definition sign_magnitude (u : Z) : Z := if u mod 2 =? 0 then u / 2 else - (u / 2).

Lemma decode_value vlq : 0 <= vlq < two32 ->
  (if Z.land vlq 1 =? 0 then as_i32 (Z.shiftr vlq 1) else as_i32 (- as_i32 (Z.shiftr vlq 1))) = sign_magnitude vlq.
Proof.
  intros H. unfold sign_magnitude. change 1 with (Z.ones 1) at 1. rewrite Z.land_ones, Z.shiftr_div_pow2 by done.
  change (2 ^ 1) with 2. assert (0 <= vlq / 2 <= i32_MAX) as Hd.
  { unfold two32, i32_MAX in *. split; [apply Z.div_pos; lia|]. apply Z.lt_succ_r, Z.div_lt_upper_bound; lia. }
  unfold i32_MAX in Hd. case_if; rewrite ?(as_i32_small (vlq / 2)) by (unfold is_i32, i32_MIN, i32_MAX; lia); [done|].
  apply as_i32_small. unfold is_i32, i32_MIN, i32_MAX. lia.
Qed.

(** One digit read at bit [s]. *)
Lemma decode_digit a d s u :
  0 <= s <= 31 -> 0 <= a < 2 ^ s -> 0 <= d < 64 -> d mod 32 = u mod 32 -> 0 <= u -> a + u * 2 ^ s < two32 ->
  Z.lor a (as_u32 (Z.shiftl (Z.land d 31) (Z.land s 31))) = a + u mod 32 * 2 ^ s.
Proof.
  intros Hs Ha Hd Hm Hu Hb. rewrite !land_31, Hm, (Z.mod_small s) by lia. rewrite Z.shiftl_mul_pow2 by lia.
  assert (u mod 32 <= u) by (apply Z.mod_le; lia). pose proof (Z.mod_pos_bound u 32 ltac:(done)).
  assert (0 < 2 ^ s) by (apply Z.pow_pos_nonneg; lia).
  unfold as_u32. rewrite Z.mod_small by nia. apply lor_shift; lia.
Qed.

Lemma decode_loop_digits n u rest start i s a :
  0 <= s -> s + 5 * Z.of_nat n <= 35 -> 0 <= a < 2 ^ s -> 0 <= u < 32 ^ Z.of_nat n -> (0 < n)%nat ->
  a + u * 2 ^ s < two32 ->
  decode_loop (map digit_char (vlq_digits n u) ++ rest) start i s a =
    mkVLQResult (sign_magnitude (a + u * 2 ^ s)) (start + i + length (vlq_digits n u)).
Proof.
  revert u i s a. induction n as [|n IH]; intros u i s a Hs Hn Ha Hu H0 Hb; [lia|]. cbn [vlq_digits].
  pose proof (Z.mod_pos_bound u 32 ltac:(done)) as Hm. assert (0 < 2 ^ s) by (apply Z.pow_pos_nonneg; lia).
  pose proof (Z.div_mod u 32 ltac:(done)) as Hdm.
  destruct (Z.eqb_spec (u / 32) 0) as [E|E]; cbn [map app decode_loop length].
  - destruct (digit_index (u mod 32)) as [-> _]; [lia|].
    rewrite (decode_digit _ (u mod 32) s u) by (rewrite ?Zmod_mod; lia).
    change 32 with (2 ^ 5) at 2. rewrite Z.land_comm.
    assert (Z.land (2 ^ 5) (u mod 32) = 0) as ->.
    { apply Z.bits_inj_iff. intros j. rewrite Z.land_spec, Z.bits_0.
      destruct (decide (j = 5)) as [->|]; [|by rewrite Z.pow2_bits_false by lia].
      destruct (Z.bounded_iff_bits_nonneg' 5 (u mod 32)) as [Hb5 _]; [lia..|]. by rewrite Hb5, andb_false_r. }
    cbn [Z.eqb]. replace (u mod 32) with u by lia. rewrite decode_value by nia. done.
  - assert (0 <= u / 32) by (apply Z.div_pos; lia).
    destruct (digit_index (u mod 32 + 32)) as [-> _]; [lia|].
    rewrite (decode_digit _ (u mod 32 + 32) s u) by
      first [lia | rewrite <- Z.add_mod_idemp_r by done; rewrite Z_mod_same_full, Z.add_0_r; apply Zmod_mod].
    assert ((Z.land (u mod 32 + 32) 32 =? 0) = false) as ->.
    { apply Z.eqb_neq. rewrite <- lor_32, Z.land_lor_distr_l by done. change (Z.land 32 32) with 32. intros Hz.
      apply (f_equal (fun z => Z.testbit z 5)) in Hz. rewrite Z.lor_spec, Z.bits_0 in Hz.
      change (Z.testbit 32 5) with true in Hz. by rewrite orb_true_r in Hz. }
    assert (2 ^ (s + 5) = 32 * 2 ^ s) as Hp by (rewrite Z.pow_add_r by lia; lia).
    assert (0 < n)%nat as Hn0 by (destruct n; [change (32 ^ Z.of_nat 1) with 32 in Hu; nia|lia]).
    rewrite IH; rewrite ?Hp; [|try nia..].
    + f_equal; [f_equal; nia|cbn; lia].
    + split; [done|]. apply Z.div_lt_upper_bound; [lia|]. rewrite Nat2Z.inj_succ, Z.pow_succ_r in Hu by lia. lia.
Qed.

(** ** Round trip *)

(** The number that the digits of [value] spell. *)
Definition zigzag (value : Z) : Z := if 0 <=? value then 2 * value else 2 * - value + 1.

Lemma encode_slow_path_digits value : is_i32 value -> value <> i32_MIN ->
  VLQ_slice (encode_slow_path value) = map digit_char (vlq_digits 7 (zigzag value)) /\ 0 <= zigzag value < two32.
Proof.
  unfold is_i32, i32_MIN, i32_MAX, two32. intros H Hn. assert (0 <= zigzag value < 4294967296) as Hz
    by (unfold zigzag; destruct (Z.leb_spec 0 value); lia).
  split; [|done]. unfold encode_slow_path.
  assert ((if 0 <=? value then as_u32 (Z.shiftl value 1) else Z.lor (as_u32 (Z.shiftl (Z.abs value) 1)) 1)
    = zigzag value) as ->.
  { unfold zigzag, as_u32, two32. rewrite !Z.shiftl_mul_pow2 by done. change (2 ^ 1) with 2.
    destruct (Z.leb_spec 0 value); rewrite Z.mod_small by lia; [lia|].
    rewrite Z.lor_comm. replace (Z.abs value * 2) with (- value * 2 ^ 1) by lia. rewrite lor_shift; lia. }
  rewrite encode_loop_digits; [done..| |unfold VLQ_MAX_IN_BYTES; lia].
  change (32 ^ Z.of_nat VLQ_MAX_IN_BYTES) with 34359738368. lia.
Qed.

Lemma VLQ_encode_slow value : VLQ_encode value = encode_slow_path value.
Proof.
  unfold VLQ_encode. destruct ((0 <=? value) && (value <=? 255)) eqn:E; [|done]. bool_facts.
  assert (Forall (fun v => nth (Z.to_nat v) VLQ_LOOKUP_TABLE (mkVLQ [] 0) = encode_slow_path v) (seqZ 0 256)) as HF.
  { rewrite Forall_forall. intros v Hv%list_elem_of_In%elem_of_seqZ. unfold VLQ_LOOKUP_TABLE.
    apply nth_lookup_Some. rewrite list_lookup_fmap, lookup_seqZ_lt by lia. by rewrite Z2Nat.id by lia. }
  rewrite Forall_forall in HF. apply HF, list_elem_of_In, elem_of_seqZ. lia.
Qed.

Lemma zigzag_sign_magnitude value : sign_magnitude (zigzag value) = value.
Proof.
  unfold zigzag, sign_magnitude. destruct (Z.leb_spec 0 value).
  - replace (2 * value) with (value * 2) by lia. by rewrite Z.mod_mul, Z.div_mul.
  - replace (2 * - value + 1) with (1 + (- value) * 2) by lia. rewrite Z.mod_add, Z.div_add by done.
    change (1 mod 2 =? 0) with false. change (1 / 2) with 0. cbv iota. lia.
Qed.

Lemma VLQ_encode_chars value : is_i32 value -> value <> i32_MIN ->
  let s := VLQ_slice (VLQ_encode value) in
  (0 < length s <= 7)%nat /\ Forall (fun c => 43 <= c <= 122 /\ c <> 44 /\ c <> 59) s.
Proof.
  intros H Hn s. unfold s. rewrite VLQ_encode_slow. destruct (encode_slow_path_digits value H Hn) as [-> _].
  rewrite length_map. split.
  - split; [|apply vlq_digits_length]. cbn [vlq_digits]. case_if; cbn; lia.
  - apply Forall_map. eapply Forall_impl; [|apply vlq_digits_range]. intros d Hd. cbn beta in Hd.
    assert (Forall (fun d => 43 <= digit_char d <= 122 /\ digit_char d <> 44 /\ digit_char d <> 59) (seqZ 0 64)) as HF
      by (apply (bool_decide_unpack _); by vm_compute).
    rewrite Forall_forall in HF. apply (HF d), list_elem_of_In, elem_of_seqZ. lia.
Qed.

(** A number of 32 bits other than the least is read back from its digits,
    whatever stands before and after them. *)
Lemma VLQ_decode_encode value pre rest :
  is_i32 value -> value <> i32_MIN ->
  VLQ_decode (pre ++ VLQ_slice (VLQ_encode value) ++ rest) (length pre) =
    Done (mkVLQResult value (length pre + length (VLQ_slice (VLQ_encode value)))).
Proof.
  intros H Hn. rewrite VLQ_encode_slow. destruct (encode_slow_path_digits value H Hn) as [-> Hz].
  set (ds := vlq_digits 7 (zigzag value)). pose proof (vlq_digits_length 7 (zigzag value)) as Hl. fold ds in Hl.
  unfold VLQ_decode. rewrite length_app. destruct (Nat.leb_spec (length pre) (length pre + length (map digit_char ds ++ rest))); [|lia].
  rewrite drop_app_length. rewrite take_app_ge by (rewrite length_map; unfold VLQ_MAX_IN_BYTES; lia).
  unfold ds. rewrite decode_loop_digits by (unfold two32 in *; cbn; lia).
  rewrite length_map, Z.add_0_l, Z.mul_1_r, Nat.add_0_r. by rewrite zigzag_sign_magnitude.
Qed.

(** The least 32-bit integer has no encoding: it is written as ["B"], minus
    zero; ["//////D"] is the integer after it. *)
Lemma VLQ_encode_MIN :
  VLQ_slice (VLQ_encode i32_MIN) = [66] /\ VLQ_decode [66] 0 = Done (mkVLQResult 0 1) /\
  VLQ_decode [47; 47; 47; 47; 47; 47; 68] 0 = Done (mkVLQResult (-2147483647) 7).
Proof. by vm_compute. Qed.

(** Decoding never moves back, and moves at most eight bytes. *)
Lemma decode_loop_start l start i s a :
  let r := decode_loop l start i s a in
  is_i32 r.(vr_value) /\ (r.(vr_start) = start \/ start + i < r.(vr_start) <= start + i + length l)%nat.
Proof.
  revert i s a. induction l as [|c l IH]; intros i s a; cbn [decode_loop].
  - split; [by apply (bool_decide_unpack _)|by left].
  - case_if; cbn [vr_value vr_start length].
    + split; [case_if; apply as_i32_range|]. right. lia.
    + destruct (IH (S i) (s + 5) (Z.lor a (as_u32 (Z.shiftl (Z.land (nth (Z.to_nat (Z.land c 127)) BASE64_LUT 0) 31) (Z.land s 31)))))
        as [H1 H2]. split; [done|]. destruct H2; [by left|right; lia].
Qed.

Lemma VLQ_decode_0 l : exists r, VLQ_decode l 0 = Done r /\ is_i32 r.(vr_value) /\ (r.(vr_start) <= length l)%nat.
Proof.
  unfold VLQ_decode. cbn [Nat.leb]. eexists. split; [done|]. rewrite drop_0.
  destruct (decode_loop_start (take (VLQ_MAX_IN_BYTES + 1) l) 0 0 0 0) as [H1 H2]. split; [done|].
  rewrite length_take in H2. lia.
Qed.
