(* ===== verification/SourceMap.v ===== *)
(** * Source maps

    [src/src/sourcemap/Mapping.rs], [ParsedSourceMap.rs] ([write_vlqs]),
    [LineOffsetTable.rs] (the searches) and [append_mapping_to_buffer] of
    [lib.rs]: the mappings of a source map, their text, and the lookups in
    them. Lists of mappings are stored by column in the program; here a row is
    a record. *)
From Stdlib Require Import ZArith Lia.
From stdpp Require Import base list numbers option sorting.
From S2P Require Import Prelude Vlq SemverString.
#[local] Open Scope Z_scope.
#[local] Arguments VLQ_decode : simpl never.

(** ** Mappings *)

(** A zero-based line and column ([Ordinal]s, 32-bit). *)
Record LineColumnOffset : Type := mkLCO { lines : Z; columns : Z }.

Record Mapping : Type := mkMapping {
  generated : LineColumnOffset;
  original : LineColumnOffset;
  source_index : Z;
  name_index : Z;
}.

Record MappingWithoutName : Type := mkUnnamed {
  u_generated : LineColumnOffset;
  u_original : LineColumnOffset;
  u_source_index : Z;
}.

Definition to_named (m : MappingWithoutName) : Mapping :=
  mkMapping m.(u_generated) m.(u_original) m.(u_source_index) (-1).

Inductive ListValue : Type :=
| WithoutNames (l : list MappingWithoutName)
| WithNames (l : list Mapping).

Record MappingList : Type := mkMappingList {
  ml_impl : ListValue;
  ml_names : list String;
  ml_names_buffer : bytes;
}.
Definition MappingList_default : MappingList := mkMappingList (WithoutNames []) [] [].

Definition with_impl (l : MappingList) (v : ListValue) : MappingList :=
  mkMappingList v l.(ml_names) l.(ml_names_buffer).

Definition ensure_with_names (l : MappingList) : MappingList :=
  match l.(ml_impl) with
  | WithNames _ => l
  | WithoutNames us => with_impl l (WithNames (map to_named us))
  end.

Definition MappingList_append (l : MappingList) (m : Mapping) : MappingList :=
  match l.(ml_impl) with
  | WithoutNames us => with_impl l (WithoutNames (us ++ [mkUnnamed m.(generated) m.(original) m.(source_index)]))
  | WithNames ms => with_impl l (WithNames (ms ++ [m]))
  end.

Definition MappingList_len (l : MappingList) : nat :=
  match l.(ml_impl) with WithoutNames us => length us | WithNames ms => length ms end.

Definition generated_column (l : MappingList) : list LineColumnOffset :=
  match l.(ml_impl) with WithoutNames us => map u_generated us | WithNames ms => map generated ms end.

(** [offs[i]], with the panic of an index out of range. *)
Definition index {A : Type} (l : list A) (i : nat) : outcome A :=
  match l !! i with Some x => Done x | None => Panic end.

(** The binary search; [count] shrinks in every round, so its first value is
    fuel enough. *)
Fixpoint find_index_loop (fuel : nat) (offs : list LineColumnOffset) (line column : Z) (ix count : nat) : outcome nat :=
  match count with
  | O => Done ix
  | _ =>
      match fuel with
      | O => NoFuel
      | S fuel' =>
          let step := (count / 2)%nat in
          let i := (ix + step)%nat in
          let! mapping := index offs i in
          if (mapping.(lines) <? line) || ((mapping.(lines) =? line) && (mapping.(columns) <=? column))
          then find_index_loop fuel' offs line column (S i) (count - (step + 1))
          else find_index_loop fuel' offs line column ix step
      end
  end.

Definition find_index_from_generated (offs : list LineColumnOffset) (line column : Z) : outcome (option nat) :=
  let! ix := find_index_loop (length offs) offs line column 0 (length offs) in
  match ix with
  | O => Done None
  | S i => let! m := index offs i in Done (if m.(lines) =? line then Some i else None)
  end.

Definition MappingList_find (l : MappingList) (line column : Z) : outcome (option Mapping) :=
  let! r := find_index_from_generated (generated_column l) line column in
  match r with
  | None => Done None
  | Some i =>
      match l.(ml_impl) with
      | WithoutNames us => let! u := index us i in Done (Some (to_named u))
      | WithNames ms => let! m := index ms i in Done (Some m)
      end
  end.

Definition get_name (l : MappingList) (ix : Z) : option bytes :=
  if ix <? 0 then None
  else
    match l.(ml_names) !! Z.to_nat ix with
    | None => None
    | Some str =>
        match l.(ml_impl) with
        | WithNames _ => Some (String_slice str l.(ml_names_buffer))
        | WithoutNames _ => None
        end
    end.

(** *** Sorting *)

(** [SortContext::less_than] on the rows at two indices. *)
Definition less_than (a : LineColumnOffset) (a_index : nat) (b : LineColumnOffset) (b_index : nat) : bool :=
  if negb (a.(lines) =? b.(lines)) then a.(lines) <? b.(lines)
  else if negb (a.(columns) =? b.(columns)) then a.(columns) <? b.(columns)
  else (a_index <? b_index)%nat.

Section Sort.
Context {A : Type} (key : A -> LineColumnOffset).

(** The inner loop of [bun_collections_sort_context]: row [j] sinks while it is
    less than the row before it. *)
Fixpoint sink (j : nat) (l : list A) : list A :=
  match j with
  | O => l
  | S j' =>
      match l !! j, l !! j' with
      | Some x, Some y => if less_than (key x) j (key y) j' then sink j' (<[j := y]> (<[j' := x]> l)) else l
      | _, _ => l
      end
  end.

Definition sort_context (l : list A) : list A := fold_left (fun l i => sink i l) (seq 1 (length l - 1)) l.
End Sort.

Definition MappingList_sort (l : MappingList) : MappingList :=
  match l.(ml_impl) with
  | WithoutNames us => with_impl l (WithoutNames (sort_context u_generated us))
  | WithNames ms => with_impl l (WithNames (sort_context generated ms))
  end.

(** ** Parsing *)

Inductive Error : Type :=
| MissingGeneratedColumnValue
| InvalidGeneratedColumnValue
| InvalidSourceIndexDelta
| InvalidSourceIndexValue
| MissingOriginalLine
| InvalidOriginalLineValue
| MissingOriginalColumnValue
| InvalidOriginalColumnValue
| InvalidNameIndexDelta
| InvalidBase64
| UnsupportedFormat
| InvalidJSON
| UnsupportedVersion
| InvalidSourceMap
| Alloc
| Core (name : bytes).

Record ParseFail : Type := mkFail { fail_err : Error; fail_loc : Z }.

Record ParseOptions : Type := mkOptions { allow_names : bool; sort : bool }.

(** The fields of a [ParsedSourceMap] that [parse] sets; the others keep their
    defaults. *)
Record ParsedSourceMap : Type := mkParsed { psm_mappings : MappingList; psm_input_line_count : Z }.

(** The variables of the loop of [parse]. *)
Record PState : Type := mkPState {
  ps_remain : bytes;
  ps_generated : LineColumnOffset;
  ps_original : LineColumnOffset;
  ps_source : Z;
  ps_name : Z;
  ps_needs_sort : bool;
  ps_has_names : bool;
  ps_mapping : MappingList;
}.

Definition SEMICOLON : Z := 59.
Definition COMMA : Z := 44.

(** The two loops over a run of semicolons: four at a time, then one. *)
Fixpoint skip_semicolon_runs (l : bytes) (line : Z) : Z * bytes :=
  match l with
  | a :: b :: c :: d :: rest =>
      if (a =? SEMICOLON) && (b =? SEMICOLON) && (c =? SEMICOLON) && (d =? SEMICOLON)
      then skip_semicolon_runs rest (wadd_i32 line 4)
      else (line, l)
  | _ => (line, l)
  end.

Fixpoint skip_semicolons (l : bytes) (line : Z) : Z * bytes :=
  match l with
  | c :: rest => if c =? SEMICOLON then skip_semicolons rest (wadd_i32 line 1) else (line, l)
  | [] => (line, [])
  end.

(** How a round of the loop ends. *)
Inductive Round : Type :=
| Continue (st : PState)
| Break (st : PState)
| Return (f : ParseFail).

Definition fail_at (total : nat) (remain : bytes) (e : Error) : Round :=
  let at_ := Z.of_nat (total - length remain) in
  Return (mkFail e (if at_ <=? i32_MAX then at_ else i32_MAX)).

(** The end of a round: the fifth field, if there is one, and the new row. *)
Definition parse_row (opts : ParseOptions) (total : nat) (remain : bytes) (gen orig : LineColumnOffset)
    (source name : Z) (needs_sort has_names : bool) (ml : MappingList) : outcome Round :=
  let add remain name has_names ml :=
    Done (Continue (mkPState remain gen orig source name needs_sort has_names
      (MappingList_append ml (mkMapping gen orig source (if (has_names : bool) then name else -1))))) in
  match remain with
  | [] => add remain name has_names ml
  | c :: rest =>
      if c =? COMMA then add rest name has_names ml
      else if c =? SEMICOLON then add remain name has_names ml
      else
        let! delta := VLQ_decode remain 0 in
        if (delta.(vr_start) =? 0)%nat then Done (fail_at total remain InvalidNameIndexDelta)
        else
          let remain := drop delta.(vr_start) remain in
          let '(name, has_names, ml) :=
            if opts.(allow_names) then
              (wadd_i32 name delta.(vr_value), true, if has_names then ml else ensure_with_names ml)
            else (name, has_names, ml) in
          let remain := match remain with c :: rest => if c =? COMMA then rest else remain | [] => [] end in
          add remain name has_names ml
  end.

(** A round from the original source on, at a [remain] that is not empty. *)
Definition parse_fields (opts : ParseOptions) (sources_count : Z) (total : nat) (remain : bytes)
    (gen orig : LineColumnOffset) (source name : Z) (needs_sort has_names : bool) (ml : MappingList) : outcome Round :=
  let! source_delta := VLQ_decode remain 0 in
  if (source_delta.(vr_start) =? 0)%nat then Done (fail_at total remain InvalidSourceIndexDelta)
  else
    let source := wadd_i32 source source_delta.(vr_value) in
    if (source <? 0) || (sources_count <=? source) then Done (fail_at total remain InvalidSourceIndexValue)
    else
      let remain := drop source_delta.(vr_start) remain in
      let! line_delta := VLQ_decode remain 0 in
      if (line_delta.(vr_start) =? 0)%nat then Done (fail_at total remain MissingOriginalLine)
      else
        let line := wadd_i32 orig.(lines) line_delta.(vr_value) in
        if line <? 0 then Done (fail_at total remain InvalidOriginalLineValue)
        else
          let remain := drop line_delta.(vr_start) remain in
          let! column_delta := VLQ_decode remain 0 in
          if (column_delta.(vr_start) =? 0)%nat then Done (fail_at total remain MissingOriginalColumnValue)
          else
            let column := wadd_i32 orig.(columns) column_delta.(vr_value) in
            if column <? 0 then Done (fail_at total remain InvalidOriginalColumnValue)
            else parse_row opts total (drop column_delta.(vr_start) remain) gen (mkLCO line column)
                   source name needs_sort has_names ml.

(** The body of the loop, at a [remain] that is not empty. *)
Definition parse_round (opts : ParseOptions) (sources_count : Z) (total : nat) (st : PState) : outcome Round :=
  let '(mkPState remain gen orig source name needs_sort has_names ml) := st in
  let '(gen, remain) :=
    match remain with
    | c :: _ =>
        if c =? SEMICOLON then
          let '(line, remain) := skip_semicolon_runs remain gen.(lines) in
          let '(line, remain) := skip_semicolons remain line in
          (mkLCO line 0, remain)
        else (gen, remain)
    | [] => (gen, remain)
    end in
  match remain with
  | [] => Done (Break (mkPState [] gen orig source name needs_sort has_names ml))
  | _ :: _ =>
      let! delta := VLQ_decode remain 0 in
      if (delta.(vr_start) =? 0)%nat then Done (fail_at total remain MissingGeneratedColumnValue)
      else
        let needs_sort := needs_sort || (delta.(vr_value) <? 0) in
        let column := wadd_i32 gen.(columns) delta.(vr_value) in
        if column <? 0 then Done (fail_at total remain InvalidGeneratedColumnValue)
        else
          let gen := mkLCO gen.(lines) column in
          match drop delta.(vr_start) remain with
          | [] => Done (Break (mkPState [] gen orig source name needs_sort has_names ml))
          | c :: rest =>
              if c =? COMMA then Done (Continue (mkPState rest gen orig source name needs_sort has_names ml))
              else if c =? SEMICOLON then
                Done (Continue (mkPState (c :: rest) gen orig source name needs_sort has_names ml))
              else parse_fields opts sources_count total (c :: rest) gen orig source name needs_sort has_names ml
          end
  end.

(** [while remain.len() > 0]: every round consumes a byte. *)
Fixpoint parse_rounds (fuel : nat) (opts : ParseOptions) (sources_count : Z) (total : nat) (st : PState)
    : outcome (ParseFail + PState) :=
  match st.(ps_remain) with
  | [] => Done (inr st)
  | _ :: _ =>
      match fuel with
      | O => NoFuel
      | S fuel' =>
          let! r := parse_round opts sources_count total st in
          match r with
          | Continue st => parse_rounds fuel' opts sources_count total st
          | Break st => Done (inr st)
          | Return f => Done (inl f)
          end
      end
  end.

(** [ParseMappingsState] and what else the SIMD kernel leaves: the rows it
    decoded and the offset at which the loop takes over. *)
Record KernelResult : Type := mkKernel {
  kr_rows : list Mapping;
  kr_generated : LineColumnOffset;
  kr_original : LineColumnOffset;
  kr_src_idx : Z;
  kr_name_idx : Z;
  kr_needs_sort : bool;
  kr_has_names : bool;
  kr_err_at : nat;
}.

Definition SIMD_THRESHOLD : nat := 128.

(** [bun_highway::parse_mappings], a C++ kernel: the text, the number of
    sources, and whether there is a column for names. *)
Definition Kernel : Type := bytes -> Z -> bool -> KernelResult.

Definition unnamed (m : Mapping) : MappingWithoutName := mkUnnamed m.(generated) m.(original) m.(source_index).

Definition parse_simd (kernel : Kernel) (text : bytes) (ml : MappingList) (sources_count : Z) (opts : ParseOptions)
    : MappingList * KernelResult :=
  let ml := if opts.(allow_names) then ensure_with_names ml else ml in
  let r := kernel text sources_count (match ml.(ml_impl) with WithNames _ => true | WithoutNames _ => false end) in
  let ml := match ml.(ml_impl) with
            | WithoutNames us => with_impl ml (WithoutNames (us ++ map unnamed r.(kr_rows)))
            | WithNames ms => with_impl ml (WithNames (ms ++ r.(kr_rows)))
            end in
  let name_idx := if opts.(allow_names) then r.(kr_name_idx) else 0 in
  (ml, mkKernel r.(kr_rows) r.(kr_generated) r.(kr_original) r.(kr_src_idx) name_idx r.(kr_needs_sort)
         (opts.(allow_names) && r.(kr_has_names)) r.(kr_err_at)).

Definition parse_init (text : bytes) : PState :=
  mkPState text (mkLCO 0 0) (mkLCO 0 0) 0 0 false false MappingList_default.

(** [parse]; [simd] is the kernel, or [None] where the feature flag disables
    it. Running out of memory is not modelled. *)
Definition mappings_parse (simd : option Kernel) (text : bytes) (sources_count input_line_count : Z)
    (opts : ParseOptions) : outcome (ParseFail + ParsedSourceMap) :=
  let! st :=
    match simd with
    | Some kernel =>
        if (SIMD_THRESHOLD <=? length text)%nat then
          let '(ml, r) := parse_simd kernel text MappingList_default sources_count opts in
          if (r.(kr_err_at) <=? length text)%nat then
            Done (mkPState (drop r.(kr_err_at) text) r.(kr_generated) r.(kr_original) r.(kr_src_idx) r.(kr_name_idx)
                    r.(kr_needs_sort) r.(kr_has_names) ml)
          else Panic
        else Done (parse_init text)
    | None => Done (parse_init text)
    end in
  let! r := parse_rounds (length st.(ps_remain)) opts sources_count (length text) st in
  match r with
  | inl f => Done (inl f)
  | inr st =>
      let ml := if st.(ps_needs_sort) && opts.(sort) then MappingList_sort st.(ps_mapping) else st.(ps_mapping) in
      Done (inr (mkParsed ml input_line_count))
  end.

#[local] Arguments parse_row : simpl never.
#[local] Arguments parse_fields : simpl never.
#[local] Arguments parse_round : simpl never.

(** ** Printing *)

(** The variables of the loop of [write_vlqs]. *)
Record WState : Type := mkW { w_first : bool; w_line : Z; w_col : Z; w_src : Z; w_ol : Z; w_oc : Z }.

Definition vlq (value : Z) : bytes := VLQ_slice (VLQ_encode value).

Definition write_row (st : WState) (m : Mapping) : outcome (WState * bytes) :=
  let gn := m.(generated) in
  let! (last_col, sep) :=
    if negb (st.(w_line) =? gn.(lines)) then
      let inc := wsub_i32 gn.(lines) st.(w_line) in
      if inc <? 0 then Panic else Done (0, replicate (Z.to_nat inc) SEMICOLON)
    else if negb st.(w_first) then Done (st.(w_col), [COMMA])
    else Done (st.(w_col), []) in
  Done (mkW false gn.(lines) gn.(columns) m.(source_index) m.(original).(lines) m.(original).(columns),
        sep ++ vlq (wsub_i32 gn.(columns) last_col) ++ vlq (wsub_i32 m.(source_index) st.(w_src))
            ++ vlq (wsub_i32 m.(original).(lines) st.(w_ol)) ++ vlq (wsub_i32 m.(original).(columns) st.(w_oc))).

Fixpoint write_rows (st : WState) (ms : list Mapping) : outcome bytes :=
  match ms with
  | [] => Done []
  | m :: ms => let! (st, s) := write_row st m in let! rest := write_rows st ms in Done (s ++ rest)
  end.

Definition rows (l : MappingList) : list Mapping :=
  match l.(ml_impl) with WithoutNames us => map to_named us | WithNames ms => ms end.

(** [write_vlqs] of a map that is not in the internal format. *)
Definition write_vlqs (p : ParsedSourceMap) : outcome bytes :=
  write_rows (mkW true 0 0 0 0 0) (rows p.(psm_mappings)).

(** *** The printer's builder *)

Record SourceMapState : Type := mkSMS {
  generated_line : Z;
  generated_col : Z;
  sm_source_index : Z;
  original_line : Z;
  original_col : Z;
}.

Definition saturating_sub_i32 (a b : Z) : Z := Z.max i32_MIN (Z.min i32_MAX (a - b)).

(** The bytes [append_mapping_to_buffer] adds. *)
Definition mapping_bytes (last_byte : Z) (prev cur : SourceMapState) : bytes :=
  let needs_comma := negb (last_byte =? 0) && negb (last_byte =? SEMICOLON) && negb (last_byte =? 34) in
  (if needs_comma then [COMMA] else [])
  ++ vlq (saturating_sub_i32 cur.(generated_col) prev.(generated_col))
  ++ vlq (saturating_sub_i32 cur.(sm_source_index) prev.(sm_source_index))
  ++ vlq (saturating_sub_i32 cur.(original_line) prev.(original_line))
  ++ vlq (saturating_sub_i32 cur.(original_col) prev.(original_col)).

(** [VLQSourceMap] without the internal builder. *)
Record VLQSourceMap : Type := mkVSM { vsm_data : bytes; vsm_count : Z; vsm_offset : nat }.

Definition append_line_separator (v : VLQSourceMap) : VLQSourceMap :=
  mkVSM (v.(vsm_data) ++ [SEMICOLON]) v.(vsm_count) v.(vsm_offset).

Definition VLQSourceMap_append (v : VLQSourceMap) (cur prev : SourceMapState) : VLQSourceMap :=
  let last_byte :=
    if (v.(vsm_offset) <? length v.(vsm_data))%nat then nth (length v.(vsm_data) - 1) v.(vsm_data) 0 else 0 in
  mkVSM (v.(vsm_data) ++ mapping_bytes last_byte prev cur) (wadd64 v.(vsm_count) 1) v.(vsm_offset).

(** ** Lines of the source *)

Fixpoint find_line_loop (fuel : nat) (offs : list Z) (loc_start : Z) (ix count : nat) : outcome nat :=
  match count with
  | O => Done ix
  | _ =>
      match fuel with
      | O => NoFuel
      | S fuel' =>
          let step := (count / 2)%nat in
          let i := (ix + step)%nat in
          let! off := index offs i in
          if off <=? loc_start then find_line_loop fuel' offs loc_start (S i) (count - step - 1)
          else find_line_loop fuel' offs loc_start ix step
      end
  end.

(** [find_line]; a negative location and [2^31] lines make the casts panic. *)
Definition find_line (offs : list Z) (loc_start : Z) : outcome Z :=
  if loc_start <? 0 then Panic
  else
    let! n := find_line_loop (length offs) offs loc_start 0 (length offs) in
    if Z.of_nat n <=? i32_MAX then Done (Z.of_nat n - 1) else Panic.

Definition find_line_with_hint (offs : list Z) (loc : Z) (hint : Z) : outcome Z :=
  let loc_start := as_u32 loc in
  let len := Z.of_nat (length offs) in
  let h := hint in
  let! fast :=
    if h <? len then
      let! o := index offs (Z.to_nat h) in
      if o <=? loc_start then
        let probe k :=
          if h + k =? len then Done true
          else let! o := index offs (Z.to_nat (h + k)) in Done (loc_start <? o) in
        let! p1 := probe 1 in
        if (p1 : bool) then Done (Some (as_i32 hint))
        else
          let! p2 := probe 2 in
          if (p2 : bool) then Done (Some (as_i32 (as_i32 hint + 1)))
          else
            let! p3 := probe 3 in
            if (p3 : bool) then Done (Some (as_i32 (as_i32 hint + 2))) else Done None
      else Done None
    else Done None in
  match fast with
  | Some line => Done line
  | None => find_line offs loc
  end.

Fixpoint find_index_in (fuel : nat) (offs : list Z) (loc_start : Z) (ix count : nat) : outcome (option nat) :=
  match count with
  | O => Done None
  | _ =>
      match fuel with
      | O => NoFuel
      | S fuel' =>
          let step := (count / 2)%nat in
          let i := (ix + step)%nat in
          let! off := index offs i in
          if off =? loc_start then Done (Some i)
          else
            let! inside :=
              if (i + 1 <? length offs)%nat then
                let! next := index offs (i + 1) in Done ((off <? loc_start) && (loc_start <? next))
              else Done false in
            if (inside : bool) then Done (Some i)
            else if off <? loc_start then find_index_in fuel' offs loc_start (S i) (count - step - 1)
            else find_index_in fuel' offs loc_start ix step
      end
  end.

Definition find_index (offs : list Z) (loc_start : Z) : outcome (option nat) :=
  if loc_start <? 0 then Panic else find_index_in (length offs) offs loc_start 0 (length offs).

(** ** Binary search *)

Section Bsearch.
Context {A : Type} (P : A -> bool).

(** The search both tables share: the first index at which [P] fails. *)
Fixpoint bsearch (fuel : nat) (l : list A) (ix count : nat) : outcome nat :=
  match count with
  | O => Done ix
  | _ =>
      match fuel with
      | O => NoFuel
      | S fuel' =>
          let step := (count / 2)%nat in
          let! x := index l (ix + step) in
          if P x then bsearch fuel' l (S (ix + step)) (count - (step + 1)) else bsearch fuel' l ix step
      end
  end.

Lemma bsearch_spec fuel l ix count n :
  (forall i x, l !! i = Some x -> P x = (i <? n)%nat) ->
  (ix <= n <= ix + count)%nat -> (ix + count <= length l)%nat -> (count <= fuel)%nat ->
  bsearch fuel l ix count = Done n.
Proof.
  intros HP. revert ix count. induction fuel as [|fuel IH]; intros ix count Hn Hl Hf.
  - destruct count; [|lia]. cbn. f_equal. lia.
  - destruct count as [|c]; [cbn; f_equal; lia|]. cbn [bsearch]. set (count := S c) in *.
    assert (count / 2 < count)%nat as Hs by (apply Nat.div_lt; lia).
    destruct (lookup_lt_is_Some_2 l (ix + count / 2)) as [x Hx]; [lia|].
    unfold index. rewrite Hx. cbn [obind]. rewrite (HP _ _ Hx).
    destruct (Nat.ltb_spec (ix + count / 2) n); apply IH; lia.
Qed.

Lemma filter_none l : (forall y, In y l -> P y = false) -> List.filter P l = [].
Proof.
  induction l as [|y l IH]; intros H; [done|]. cbn. rewrite (H y) by (by left). apply IH. intros z Hz. apply H. by right.
Qed.

(** In a list sorted by [R], a property that [R] reflects downwards holds on
    a prefix. *)
Lemma sorted_prefix (R : A -> A -> Prop) l :
  StronglySorted R l -> (forall x y, R x y -> P y = true -> P x = true) ->
  forall i x, l !! i = Some x -> P x = (i <? length (List.filter P l))%nat.
Proof.
  intros Hs HR. induction Hs as [|a l Hs IH Ha]; intros i x Hi; [done|]. cbn [List.filter].
  assert (P a = false -> forall y, In y l -> P y = false) as Hnone.
  { intros Hf y Hy. rewrite List.Forall_forall in Ha. destruct (P y) eqn:E; [|done].
    rewrite (HR _ _ (Ha y Hy) E) in Hf. done. }
  destruct (P a) eqn:E; destruct i as [|i]; cbn in Hi.
  - injection Hi as <-. by rewrite E.
  - rewrite (IH _ _ Hi). done.
  - injection Hi as <-. rewrite E. symmetry. apply Nat.ltb_ge. rewrite filter_none by auto. cbn. lia.
  - rewrite (Hnone eq_refl x) by (by eapply list_elem_of_In, list_elem_of_lookup_2). symmetry. apply Nat.ltb_ge.
    rewrite filter_none by auto. cbn. lia.
Qed.
End Bsearch.

Lemma StronglySorted_lookup {A} (R : A -> A -> Prop) l i j x y :
  StronglySorted R l -> l !! i = Some x -> l !! j = Some y -> (i < j)%nat -> R x y.
Proof.
  intros Hs. revert i j. induction Hs as [|a l Hs IH Ha]; intros [|i] [|j] Hi Hj Hij; try (by inversion Hij).
  - injection Hi as <-. rewrite List.Forall_forall in Ha. eapply Ha, list_elem_of_In, list_elem_of_lookup_2, Hj.
  - eapply IH; [exact Hi|exact Hj|lia].
Qed.

(** ** Lookups *)

(** Generated positions in reading order. *)
Definition lco_le (a b : LineColumnOffset) : Prop :=
  a.(lines) < b.(lines) \/ (a.(lines) = b.(lines) /\ a.(columns) <= b.(columns)).

#[export] Instance lco_le_trans : Transitive lco_le.
Proof. intros a b c. unfold lco_le. lia. Qed.

Definition row_le (x y : Mapping) : Prop := lco_le x.(generated) y.(generated).

(** The position [line:column] is at or after the position [g]. *)
Definition at_or_before (line column : Z) (g : LineColumnOffset) : bool :=
  (g.(lines) <? line) || ((g.(lines) =? line) && (g.(columns) <=? column)).

Definition on_line (line column : Z) (m : Mapping) : bool :=
  (m.(generated).(lines) =? line) && (m.(generated).(columns) <=? column).

Lemma find_index_loop_bsearch fuel offs line column ix count :
  find_index_loop fuel offs line column ix count = bsearch (at_or_before line column) fuel offs ix count.
Proof.
  revert ix count. induction fuel as [|fuel IH]; intros ix [|count]; [done..|].
  cbn [find_index_loop bsearch]. destruct (index offs _); [|done..]. cbn [obind].
  unfold at_or_before at 1. case_if; apply IH.
Qed.

Lemma generated_column_rows l : generated_column l = map generated (rows l).
Proof. unfold generated_column, rows. destruct (ml_impl l); [|done]. by rewrite map_map. Qed.

Lemma last_filter_take {A} (Q : A -> bool) l n x :
  (forall i y, l !! i = Some y -> (n < i)%nat -> Q y = false) -> l !! n = Some x -> Q x = true ->
  last (List.filter Q l) = Some x.
Proof.
  intros Hafter Hx HQ. rewrite <- (take_drop_middle l n x Hx). rewrite List.filter_app. cbn [List.filter]. rewrite HQ.
  rewrite (filter_none Q (drop (S n) l)); [by rewrite last_snoc|].
  intros y (i & Hi)%list_elem_of_In%list_elem_of_lookup. rewrite lookup_drop in Hi. eapply Hafter; [done|lia].
Qed.

Lemma index_map_rows l i m : rows l !! i = Some m ->
  match l.(ml_impl) with
  | WithoutNames us => let! u := index us i in Done (Some (to_named u))
  | WithNames ms => let! m := index ms i in Done (Some m)
  end = Done (Some m).
Proof.
  unfold rows, index. destruct (ml_impl l) as [us|ms]; [|by intros ->].
  rewrite list_lookup_fmap. destruct (us !! i); [|done]. cbn. congruence.
Qed.

(** The lookup finds the last row on the line that starts at or before the column. *)
Lemma find_last l line column :
  StronglySorted row_le (rows l) ->
  MappingList_find l line column = Done (last (List.filter (on_line line column) (rows l))).
Proof.
  intros Hs. set (P m := at_or_before line column m.(generated)).
  assert (forall i m, rows l !! i = Some m -> P m = (i <? length (List.filter P (rows l)))%nat) as Hpre.
  { eapply sorted_prefix; [exact Hs|]. unfold P, row_le, lco_le, at_or_before. intros x y Hxy.
    rewrite !orb_true_iff, !andb_true_iff, !Z.ltb_lt, !Z.eqb_eq, !Z.leb_le. lia. }
  set (n := length (List.filter P (rows l))) in Hpre.
  assert (n <= length (rows l))%nat as Hn by apply List.filter_length_le.
  unfold MappingList_find, find_index_from_generated. rewrite generated_column_rows, length_map, find_index_loop_bsearch.
  rewrite (bsearch_spec _ _ _ _ _ n); [|..|rewrite length_map; lia|lia]; cycle 1.
  { intros i g. rewrite list_lookup_fmap. destruct (rows l !! i) as [m|] eqn:E; [|done]. cbn. intros [= <-]. by apply Hpre. }
  { lia. }
  cbn [obind]. destruct n as [|n'].
  { cbn [obind]. rewrite (filter_none _ (rows l)); [done|]. intros m (i & Hi)%list_elem_of_In%list_elem_of_lookup.
    specialize (Hpre _ _ Hi). unfold P, at_or_before in Hpre. unfold on_line.
    destruct ((_ =? line) && (_ <=? column)); [|done]. by rewrite orb_true_r in Hpre. }
  destruct (lookup_lt_is_Some_2 (rows l) n') as [m Hm]; [lia|].
  unfold index at 1. rewrite list_lookup_fmap, Hm. cbn [fmap option_fmap option_map obind].
  pose proof (Hpre _ _ Hm) as Hpm. replace (n' <? S n')%nat with true in Hpm by (symmetry; apply Nat.ltb_lt; lia).
  assert (forall i y, rows l !! i = Some y -> (n' < i)%nat -> on_line line column y = false) as Hafter.
  { intros i y Hy Hi. specialize (Hpre _ _ Hy). replace (i <? S n')%nat with false in Hpre by (symmetry; apply Nat.ltb_ge; lia).
    unfold P, at_or_before in Hpre. apply orb_false_iff in Hpre as [_ Hpre]. exact Hpre. }
  destruct (Z.eqb_spec (lines (generated m)) line) as [E|E].
  - rewrite (index_map_rows _ _ _ Hm). f_equal. symmetry. apply (last_filter_take _ _ n'); [done..|].
    unfold P, at_or_before in Hpm. unfold on_line. destruct (Z.ltb_spec (lines (generated m)) line); [lia|exact Hpm].
  - cbn [obind]. f_equal. rewrite filter_none; [done|]. intros y (i & Hi)%list_elem_of_In%list_elem_of_lookup.
    destruct (decide (n' < i)%nat); [by eapply Hafter|]. unfold on_line. apply andb_false_iff. left. apply Z.eqb_neq.
    assert (lines (generated m) < line).
    { unfold P, at_or_before in Hpm. apply orb_true_iff in Hpm as [H|H]; bool_facts; [done|lia]. }
    destruct (decide (i = n')) as [->|]; [rewrite Hm in Hi; by injection Hi as <-|].
    assert (row_le y m) as Hle by (eapply (StronglySorted_lookup row_le); [exact Hs|exact Hi|exact Hm|lia]).
    unfold row_le, lco_le in Hle. lia.
Qed.

(** ** Sorting *)

Lemma less_than_lt a b j : less_than a (S j) b j = true <-> ~ lco_le b a.
Proof.
  unfold less_than, lco_le. replace (S j <? j)%nat with false by (symmetry; apply Nat.ltb_ge; lia).
  destruct (Z.eqb_spec (lines a) (lines b)), (Z.eqb_spec (columns a) (columns b)); cbn [negb];
    rewrite ?Z.ltb_lt; (split; [intros; lia || done|intros; lia]).
Qed.

Section SortSpec.
Context {A : Type} (key : A -> LineColumnOffset).

Definition key_le (x y : A) : Prop := lco_le (key x) (key y).

Lemma sink_spec a x b :
  StronglySorted key_le a ->
  exists a1 a2, a = a1 ++ a2 /\ sink key (length a) (a ++ x :: b) = a1 ++ x :: a2 ++ b /\
    Forall (fun y => key_le y x) a1 /\ Forall (fun y => key_le x y) a2.
Proof.
  revert b. induction a as [|y a IH] using rev_ind; intros b Hs; [by exists [], []|].
  apply StronglySorted_app in Hs as (Hle & Ha & _).
  rewrite length_app, Nat.add_1_r. cbn [sink length].
  assert ((a ++ [y]) ++ x :: b = a ++ y :: x :: b) as -> by (by rewrite <- app_assoc).
  rewrite (lookup_app_r a), (lookup_app_r a _ (length a)) by lia.
  replace (S (length a) - length a)%nat with 1%nat by lia. rewrite Nat.sub_diag. cbn [lookup list_lookup].
  destruct (less_than (key x) (S (length a)) (key y) (length a)) eqn:E.
  - apply less_than_lt in E.
    rewrite (insert_app_r_alt a) by lia. rewrite Nat.sub_diag. cbn [insert list_insert].
    rewrite (insert_app_r_alt a) by lia. replace (S (length a) - length a)%nat with 1%nat by lia. cbn [insert list_insert].
    destruct (IH (y :: b) Ha) as (a1 & a2 & -> & -> & H1 & H2).
    exists a1, (a2 ++ [y]). rewrite <- !app_assoc. split_and!; try done. apply Forall_app_2; [done|].
    constructor; [|constructor]. unfold key_le, lco_le in *. lia.
  - exists (a ++ [y]), []. rewrite app_nil_r. split_and!; [done|by rewrite <- app_assoc| |constructor].
    assert (key_le y x) as Hyx by (unfold key_le; destruct (decide (lco_le (key y) (key x))); [done|];
      apply less_than_lt with (j := length a) in n; congruence).
    apply Forall_app_2; [|by constructor]. apply list.Forall_forall. intros z Hz.
    unfold key_le in *. transitivity (key y); [|done]. apply Hle; [done|by left].
Qed.

Lemma sink_sorted a x b :
  StronglySorted key_le a ->
  exists a', sink key (length a) (a ++ x :: b) = a' ++ b /\ StronglySorted key_le a' /\ Permutation a' (a ++ [x]).
Proof.
  intros Hs. destruct (sink_spec a x b Hs) as (a1 & a2 & -> & -> & H1 & H2).
  apply StronglySorted_app in Hs as (H12 & Hs1 & Hs2).
  exists (a1 ++ x :: a2). rewrite <- app_assoc. split_and!; [done| |].
  - apply StronglySorted_app_2; [|done|by constructor]. rewrite !list.Forall_forall in *.
    intros y z Hy [->|Hz]%elem_of_cons; auto.
  - rewrite <- app_assoc. apply Permutation_app_head. change (x :: a2) with ([x] ++ a2). apply Permutation_app_comm.
Qed.

Lemma sinks_sorted b a :
  StronglySorted key_le a ->
  let l := fold_left (fun l i => sink key i l) (seq (length a) (length b)) (a ++ b) in
  StronglySorted key_le l /\ Permutation l (a ++ b).
Proof.
  revert a. induction b as [|x b IH]; intros a Hs; cbn [length seq fold_left]; [by rewrite app_nil_r|].
  destruct (sink_sorted a x b Hs) as (a' & -> & Hs' & Hp).
  assert (length a' = S (length a)) as Hl by (rewrite Hp, length_app; cbn; lia).
  rewrite <- Hl. destruct (IH a' Hs') as [H1 H2]. split; [done|]. rewrite H2, Hp. by rewrite <- app_assoc.
Qed.

Lemma sort_context_sorted l :
  StronglySorted key_le (sort_context key l) /\ Permutation (sort_context key l) l.
Proof.
  unfold sort_context. destruct l as [|x l]; [by repeat constructor|]. cbn [length]. rewrite Nat.sub_succ, Nat.sub_0_r.
  apply (sinks_sorted l [x]). by repeat constructor.
Qed.
End SortSpec.

Lemma sort_rows l :
  StronglySorted row_le (rows (MappingList_sort l)) /\ Permutation (rows (MappingList_sort l)) (rows l).
Proof.
  unfold MappingList_sort, rows. destruct (ml_impl l) as [us|ms]; cbn [with_impl ml_impl].
  - destruct (sort_context_sorted u_generated us) as [Hs Hp]. split; [|by rewrite Hp].
    clear Hp. induction Hs as [|u us' Hs IH Hu]; cbn; constructor; [done|]. apply Forall_map. exact Hu.
  - exact (sort_context_sorted generated ms).
Qed.

(** ** The loop *)

Lemma wadd_i32_small a b : is_i32 (a + b) -> wadd_i32 a b = a + b.
Proof. apply as_i32_small. Qed.

Lemma skip_semicolon_runs_spec l line :
  0 <= line -> line + Z.of_nat (length l) <= i32_MAX ->
  exists k r, skip_semicolon_runs l line = (line + Z.of_nat k, r) /\ l = replicate k SEMICOLON ++ r.
Proof.
  remember (length l) as n eqn:En. revert l line En. induction n as [n IH] using lt_wf_ind. intros l line -> H0 Hl.
  destruct l as [|a [|b [|c [|d l]]]]; try (exists 0%nat; eexists; cbn; by rewrite Z.add_0_r).
  cbn [skip_semicolon_runs]. destruct (_ && _) eqn:E; [|by exists 0%nat; eexists; rewrite Z.add_0_r]. bool_facts. subst.
  cbn [length] in *. rewrite wadd_i32_small by (unfold is_i32, i32_MIN in *; lia).
  destruct (IH (length l) ltac:(lia) l (line + 4) eq_refl) as (k & r & -> & ->); [lia..|].
  exists (S (S (S (S k)))), r. split; [|done]. f_equal. lia.
Qed.

Lemma skip_semicolons_spec l line :
  0 <= line -> line + Z.of_nat (length l) <= i32_MAX ->
  exists k r, skip_semicolons l line = (line + Z.of_nat k, r) /\ l = replicate k SEMICOLON ++ r /\
    head r <> Some SEMICOLON.
Proof.
  revert line. induction l as [|c l IH]; intros line H0 Hl; [exists 0%nat, []; cbn; by rewrite Z.add_0_r|].
  cbn [skip_semicolons]. destruct (Z.eqb_spec c SEMICOLON) as [->|Hc].
  - cbn [length] in *. rewrite wadd_i32_small by (unfold is_i32, i32_MIN in *; lia).
    destruct (IH (line + 1)) as (k & r & -> & -> & Hr); [lia..|]. exists (S k), r. split_and!; [|done..]. f_equal. lia.
  - exists 0%nat, (c :: l). rewrite Z.add_0_r. split_and!; [done..|]. cbn. congruence.
Qed.

(** A row whose positions are those of a file and whose source exists. *)
Definition row_ok (sources_count : Z) (m : Mapping) : Prop :=
  0 <= m.(generated).(lines) <= i32_MAX /\ 0 <= m.(generated).(columns) <= i32_MAX /\
  0 <= m.(original).(lines) <= i32_MAX /\ 0 <= m.(original).(columns) <= i32_MAX /\
  0 <= m.(source_index) < sources_count.

(** What the loop keeps: the lines counted so far are bytes consumed, the
    rows are in range and, as long as no column went back, in order. *)
Record loop_inv (sources_count : Z) (total : nat) (st : PState) : Prop := {
  li_lines : 0 <= st.(ps_generated).(lines);
  li_total : st.(ps_generated).(lines) + Z.of_nat (length st.(ps_remain)) <= Z.of_nat total;
  li_max : Z.of_nat total <= i32_MAX;
  li_col : 0 <= st.(ps_generated).(columns) <= i32_MAX;
  li_orig : 0 <= st.(ps_original).(lines) <= i32_MAX /\ 0 <= st.(ps_original).(columns) <= i32_MAX;
  li_rows : Forall (row_ok sources_count) (rows st.(ps_mapping));
  li_sorted : st.(ps_needs_sort) = false ->
    StronglySorted row_le (rows st.(ps_mapping)) /\
    Forall (fun m => lco_le m.(generated) st.(ps_generated)) (rows st.(ps_mapping));
}.

Definition round_ok (sources_count : Z) (total before : nat) (r : Round) : Prop :=
  match r with
  | Continue st => loop_inv sources_count total st /\ (length st.(ps_remain) < before)%nat
  | Break st => loop_inv sources_count total st
  | Return f => 0 <= f.(fail_loc) <= Z.of_nat total
  end.

Lemma fail_at_ok sc total before remain e : round_ok sc total before (fail_at total remain e).
Proof.
  unfold fail_at, round_ok. cbn. destruct (Z.leb_spec (Z.of_nat (total - length remain)) i32_MAX); unfold i32_MAX in *; lia.
Qed.

Lemma round_ok_mono sc total b b' r : (b <= b')%nat -> round_ok sc total b r -> round_ok sc total b' r.
Proof. intros Hb. destruct r; cbn; [|done..]. intros [? ?]. split; [done|lia]. Qed.

Lemma rows_ensure l : rows (ensure_with_names l) = rows l.
Proof. unfold ensure_with_names, rows. destruct (ml_impl l) eqn:E; [done|by rewrite E]. Qed.

Lemma rows_append l m :
  exists name, rows (MappingList_append l m) = rows l ++ [mkMapping m.(generated) m.(original) m.(source_index) name].
Proof.
  unfold MappingList_append, rows. destruct (ml_impl l); cbn [with_impl ml_impl].
  - exists (-1). by rewrite map_app.
  - exists (name_index m). by destruct m.
Qed.

(** Adding the row at the position reached. *)
Lemma add_row_inv sc total st source orig name remain ns hn ml' :
  loop_inv sc total st -> rows ml' = rows st.(ps_mapping) -> (ns = false -> st.(ps_needs_sort) = false) ->
  0 <= source < sc ->
  0 <= orig.(lines) <= i32_MAX /\ 0 <= orig.(columns) <= i32_MAX ->
  (length remain <= length st.(ps_remain))%nat ->
  loop_inv sc total (mkPState remain st.(ps_generated) orig source name ns hn
    (MappingList_append ml' (mkMapping st.(ps_generated) orig source (if hn then name else -1)))).
Proof.
  intros [H1 H2 H3 H4 H5 H6 H7] Hml Hns Hs Ho Hr.
  destruct (rows_append ml' (mkMapping (ps_generated st) orig source (if hn then name else -1))) as (nm & Hrows).
  cbn [generated original source_index] in Hrows. rewrite Hml in Hrows.
  split; cbn; try done; rewrite ?Hrows; try lia.
  - apply Forall_app_2; [done|]. constructor; [|constructor]. split_and!; cbn; lia.
  - intros Hf. destruct (H7 (Hns Hf)) as [Hsort Hle]. split.
    + apply StronglySorted_app_2; [|done|by repeat constructor]. rewrite list.Forall_forall in Hle.
      intros x y Hx ->%list_elem_of_singleton. by apply Hle.
    + apply Forall_app_2; [done|]. constructor; [|constructor]. cbn. unfold lco_le. lia.
Qed.

(** Reads the next number: it exists, and the tests after it split. *)
Ltac next_vlq d :=
  match goal with
  | |- context [VLQ_decode ?l 0] =>
      let H := fresh "Hdec" in let Hs := fresh "Hstart" in
      destruct (VLQ_decode_0 l) as (d & H & _ & Hs); rewrite H; cbn [obind];
      destruct (Nat.eqb_spec d.(vr_start) 0); [eexists; split; [reflexivity|apply fail_at_ok]|]
  end.

Lemma nonneg_i32 a b : (wadd_i32 a b <? 0) = false -> 0 <= wadd_i32 a b <= i32_MAX.
Proof. intros H%Z.ltb_ge. pose proof (as_i32_range (a + b)) as [_ ?]. split; [done|]. done. Qed.

(** A sum of non-negative numbers that did not turn negative did not wrap. *)
Lemma wadd_i32_nonneg a b : 0 <= a <= i32_MAX -> is_i32 b -> 0 <= b -> 0 <= wadd_i32 a b <= i32_MAX -> wadd_i32 a b = a + b.
Proof.
  unfold wadd_i32, as_i32, is_i32, i32_MIN, i32_MAX, two32. intros Ha Hb Hp Hw.
  destruct (Z_lt_le_dec (a + b) 2147483648); [rewrite Z.mod_small; lia|].
  exfalso. rewrite <- (Z.mod_add _ (-1)) in Hw by lia. rewrite Z.mod_small in Hw by lia. lia.
Qed.

Lemma parse_row_ok opts sc total st remain orig source name ns :
  loop_inv sc total st -> (ns = false -> st.(ps_needs_sort) = false) -> 0 <= source < sc ->
  0 <= orig.(lines) <= i32_MAX /\ 0 <= orig.(columns) <= i32_MAX ->
  (length remain < length st.(ps_remain))%nat ->
  exists r, parse_row opts total remain st.(ps_generated) orig source name ns st.(ps_has_names) st.(ps_mapping) = Done r /\
    round_ok sc total (length st.(ps_remain)) r.
Proof.
  intros Hi Hns Hs Ho Hl. unfold parse_row.
  assert (forall rem' name' hn' ml', rows ml' = rows st.(ps_mapping) -> (length rem' <= length remain)%nat ->
    round_ok sc total (length st.(ps_remain)) (Continue (mkPState rem' st.(ps_generated) orig source name' ns hn'
      (MappingList_append ml' (mkMapping st.(ps_generated) orig source (if hn' then name' else -1)))))) as Hadd.
  { intros rem' name' hn' ml' Hml Hr. split; [eapply add_row_inv; try done; lia|cbn; lia]. }
  destruct remain as [|c rest]; [eexists; split; [done|by apply Hadd]|].
  destruct (c =? COMMA); [eexists; split; [done|apply Hadd; [done|cbn; lia]]|].
  destruct (c =? SEMICOLON); [eexists; split; [done|by apply Hadd]|].
  next_vlq d. set (rem1 := drop (vr_start d) (c :: rest)).
  assert (length rem1 <= length (c :: rest))%nat by (unfold rem1; rewrite length_drop; lia).
  assert (length (match rem1 with c0 :: rest0 => if (c0 =? COMMA)%Z then rest0 else rem1 | [] => [] end) <= length (c :: rest))%nat.
  { destruct rem1 as [|c0 rest0]; [cbn; lia|]. destruct (c0 =? COMMA); cbn in *; lia. }
  destruct (allow_names opts); eexists; (split; [reflexivity|]); apply Hadd; try done.
  destruct (ps_has_names st); [done|apply rows_ensure].
Qed.

Lemma parse_fields_ok opts sc total st ns remain :
  loop_inv sc total st -> (ns = false -> st.(ps_needs_sort) = false) ->
  (length remain < length st.(ps_remain))%nat ->
  exists r, parse_fields opts sc total remain st.(ps_generated) st.(ps_original) st.(ps_source) st.(ps_name) ns
      st.(ps_has_names) st.(ps_mapping) = Done r /\ round_ok sc total (length st.(ps_remain)) r.
Proof.
  intros Hi Hns Hl. unfold parse_fields. next_vlq d1.
  destruct (_ || _) eqn:Es; [eexists; split; [done|apply fail_at_ok]|].
  next_vlq d2. destruct (wadd_i32 (lines _) _ <? 0) eqn:El; [eexists; split; [done|apply fail_at_ok]|].
  next_vlq d3. destruct (wadd_i32 (columns _) _ <? 0) eqn:Ec; [eexists; split; [done|apply fail_at_ok]|].
  apply orb_false_iff in Es as [Es1%nonneg_i32 Es2%Z.leb_gt]. apply nonneg_i32 in El, Ec.
  apply parse_row_ok; try done; [lia|]. rewrite !length_drop. lia.
Qed.

Lemma parse_round_ok opts sc total st :
  loop_inv sc total st -> st.(ps_remain) <> [] ->
  exists r, parse_round opts sc total st = Done r /\ round_ok sc total (length st.(ps_remain)) r.
Proof.
  intros Hi Hne. destruct st as [remain gen orig source name ns hn ml]. cbn [ps_remain] in *.
  unfold parse_round.
  assert (exists gen' remain', (match remain with
    | c :: _ => if c =? SEMICOLON then
        let '(line, remain) := skip_semicolon_runs remain gen.(lines) in
        let '(line, remain) := skip_semicolons remain line in (mkLCO line 0, remain)
      else (gen, remain)
    | [] => (gen, remain) end) = (gen', remain') /\ loop_inv sc total (mkPState remain' gen' orig source name ns hn ml) /\
      (length remain' <= length remain)%nat) as (gen' & remain' & -> & Hi' & Hlen).
  { destruct remain as [|c rest]; [done|]. destruct (Z.eqb_spec c SEMICOLON) as [Hc|]; [|by exists gen, (c :: rest)].
    destruct Hi as [H1 H2 H3 H4 H5 H6 H7]. cbn [ps_remain ps_generated ps_original ps_mapping ps_needs_sort] in *.
    destruct (skip_semicolon_runs_spec (c :: rest) (lines gen)) as (k1 & r1 & -> & E1); [lia..|].
    assert (length (c :: rest) = k1 + length r1)%nat as L1 by (by rewrite E1, length_app, length_replicate).
    destruct (skip_semicolons_spec r1 (lines gen + Z.of_nat k1)) as (k2 & r2 & -> & E2 & Hr2); [lia..|].
    assert (length r1 = k2 + length r2)%nat as L2 by (by rewrite E2, length_app, length_replicate).
    assert (0 < k1 + k2)%nat as Hk.
    { destruct k1; [|lia]. destruct k2; [|lia]. cbn in E1, E2. subst r1 r2. cbn in Hr2. congruence. }
    eexists _, r2. split; [reflexivity|]. split; [|lia].
    split; cbn [ps_remain ps_generated ps_original ps_mapping ps_needs_sort lines columns]; try done; try lia.
    intros Hf. destruct (H7 Hf) as [Ha Hb]. split; [done|]. eapply Forall_impl; [exact Hb|]. intros m.
    unfold lco_le. cbn [lines columns]. lia. }
  destruct remain' as [|c rest]; [eexists; split; [done|exact Hi']|].
  destruct (VLQ_decode_0 (c :: rest)) as (d & -> & Hv & Hs). cbn [obind].
  destruct (Nat.eqb_spec (vr_start d) 0) as [|Hd]; [eexists; split; [done|apply fail_at_ok]|].
  destruct (_ <? 0) eqn:Ec in |- *; [eexists; split; [done|apply fail_at_ok]|].
  set (ns' := ns || (vr_value d <? 0)). apply nonneg_i32 in Ec as Hc.
  set (gen2 := mkLCO (lines gen') (wadd_i32 (columns gen') (vr_value d))).
  set (rest' := drop (vr_start d) (c :: rest)).
  assert (length rest' < length (c :: rest))%nat as Hrest by (unfold rest'; rewrite length_drop; cbn; lia).
  assert (forall rem2, (length rem2 <= length (c :: rest))%nat -> loop_inv sc total (mkPState rem2 gen2 orig source name ns' hn ml)) as Hi2.
  { intros rem2 Hr2. destruct Hi' as [H1 H2 H3 H4 H5 H6 H7].
    cbn [ps_remain ps_generated ps_original ps_mapping ps_needs_sort] in *.
    split; cbn; try done; try lia. unfold ns'. intros [Hf Hge%Z.ltb_ge]%orb_false_iff.
    destruct (H7 Hf) as [Ha Hb]. split; [done|]. eapply Forall_impl; [exact Hb|]. intros m.
    unfold gen2, lco_le. cbn [lines columns]. rewrite (wadd_i32_nonneg (columns gen')) by (done || lia). lia. }
  assert (exists r, match rest' with
    | [] => Done (Break (mkPState [] gen2 orig source name ns' hn ml))
    | c :: rest => if c =? COMMA then Done (Continue (mkPState rest gen2 orig source name ns' hn ml))
        else if c =? SEMICOLON then Done (Continue (mkPState (c :: rest) gen2 orig source name ns' hn ml))
        else parse_fields opts sc total (c :: rest) gen2 orig source name ns' hn ml
    end = Done r /\ round_ok sc total (length remain) r) as (r & Hr & Hok); [|exists r; split; [exact Hr|exact Hok]].
  destruct rest' as [|c2 rest2] eqn:Er; [eexists; split; [done|apply Hi2; cbn; lia]|].
  destruct (c2 =? COMMA); [eexists; split; [done|split; [apply Hi2; cbn in *; lia|cbn in *; lia]]|].
  destruct (c2 =? SEMICOLON); [eexists; split; [done|split; [apply Hi2; cbn in *; lia|cbn in *; lia]]|].
  destruct (parse_fields_ok opts sc total (mkPState (c :: rest) gen2 orig source name ns' hn ml) ns' (c2 :: rest2))
    as (r & Hr & Hok); [by apply Hi2|done|cbn in *; lia|].
  exists r. split; [exact Hr|]. eapply round_ok_mono; [|exact Hok]. cbn in *. lia.
Qed.

Lemma parse_rounds_ok opts sc total fuel st :
  loop_inv sc total st -> (length st.(ps_remain) <= fuel)%nat ->
  exists r, parse_rounds fuel opts sc total st = Done r /\
    match r with inl f => 0 <= f.(fail_loc) <= Z.of_nat total | inr st' => loop_inv sc total st' end.
Proof.
  revert st. induction fuel as [|fuel IH]; intros st Hi Hf; cbn [parse_rounds].
  - destruct (ps_remain st) eqn:E; [by exists (inr st)|cbn in Hf; lia].
  - destruct (ps_remain st) eqn:E; [by exists (inr st)|].
    destruct (parse_round_ok opts sc total st Hi) as (r & -> & Hr); [by rewrite E|]. cbn [obind].
    destruct r as [st'|st'|f]; cbn in Hr; [|by exists (inr st')|by exists (inl f)].
    destruct Hr as [Hi' Hl]. rewrite E in Hl. apply IH; [done|]. cbn in *. lia.
Qed.
