(* ===== verification/SourceMapTheorems.v ===== *)
(** * Theorems on source maps

    The loop of [parse] resumes after the vectorised kernel where it left off,
    provided that the kernel, C++ that is not modelled, does what its comments
    say; without it the text [write_vlqs] prints parses back, parsing ends on every text with
    rows in range, and the lookups find the row and the line they should. *)
From Stdlib Require Import ZArith Lia.
From stdpp Require Import base list numbers option sorting.
From S2P Require Import Prelude Vlq SourceMap.
#[local] Open Scope Z_scope.
#[local] Arguments VLQ_decode : simpl never.
#[local] Arguments parse_row : simpl never.
#[local] Arguments parse_fields : simpl never.
#[local] Arguments parse_round : simpl never.

(** ** Resuming after the kernel *)

(** The states the loop goes through. *)
Inductive loop_steps (opts : ParseOptions) (sc : Z) (total : nat) : PState -> PState -> Prop :=
| loop_refl st : loop_steps opts sc total st st
| loop_step st st1 st2 :
    st.(ps_remain) <> [] -> parse_round opts sc total st = Done (Continue st1) ->
    loop_steps opts sc total st1 st2 -> loop_steps opts sc total st st2.

Definition named (ml : MappingList) : Prop := match ml.(ml_impl) with WithNames _ => True | WithoutNames _ => False end.

(** What the kernel documents: it stops at a byte where the loop can resume,
    and leaves the rows and the variables the loop would have there. *)
Definition kernel_resumes (kernel : Kernel) : Prop :=
  forall text sc opts, let r := kernel text sc opts.(allow_names) in
    (r.(kr_err_at) <= length text)%nat /\
    exists st, loop_steps opts sc (length text) (parse_init text) st /\
      st.(ps_remain) = drop r.(kr_err_at) text /\ st.(ps_generated) = r.(kr_generated) /\
      st.(ps_original) = r.(kr_original) /\ st.(ps_source) = r.(kr_src_idx) /\
      st.(ps_needs_sort) = r.(kr_needs_sort) /\
      map unnamed (rows st.(ps_mapping)) = map unnamed r.(kr_rows) /\
      (opts.(allow_names) = true ->
         st.(ps_name) = r.(kr_name_idx) /\ st.(ps_has_names) = r.(kr_has_names) /\ rows st.(ps_mapping) = r.(kr_rows)).

(** Two states that differ in the form of the list at most. *)
Record same_state (x y : PState) : Prop := {
  ss_remain : x.(ps_remain) = y.(ps_remain);
  ss_generated : x.(ps_generated) = y.(ps_generated);
  ss_original : x.(ps_original) = y.(ps_original);
  ss_source : x.(ps_source) = y.(ps_source);
  ss_name : x.(ps_name) = y.(ps_name);
  ss_needs_sort : x.(ps_needs_sort) = y.(ps_needs_sort);
  ss_has_names : x.(ps_has_names) = y.(ps_has_names);
  ss_rows : rows x.(ps_mapping) = rows y.(ps_mapping);
  ss_named : x.(ps_has_names) = true -> named x.(ps_mapping) /\ named y.(ps_mapping);
}.

Definition same_round (x y : Round) : Prop :=
  match x, y with
  | Continue x, Continue y | Break x, Break y => same_state x y
  | Return f, Return g => f = g
  | _, _ => False
  end.

Definition same_outcome {A} (R : A -> A -> Prop) (x y : outcome A) : Prop :=
  match x, y with
  | Done a, Done b => R a b
  | Panic, Panic | NoFuel, NoFuel => True
  | _, _ => False
  end.

Lemma named_ensure ml : named (ensure_with_names ml).
Proof. unfold named, ensure_with_names. destruct (ml_impl ml) eqn:E; [done|by rewrite E]. Qed.

Lemma named_append ml m : named ml -> named (MappingList_append ml m).
Proof. unfold named, MappingList_append. destruct (ml_impl ml); done. Qed.

Lemma rows_append_same x y gen orig source name (hn : bool) :
  rows x = rows y -> (hn = true -> named x /\ named y) ->
  let m := mkMapping gen orig source (if hn then name else -1) in
  rows (MappingList_append x m) = rows (MappingList_append y m).
Proof.
  unfold rows, named, MappingList_append. intros Hr Hn.
  destruct hn; destruct (ml_impl x), (ml_impl y); cbn -[to_named] in *; rewrite ?map_app, ?Hr, <- ?Hr; try done;
    by destruct (Hn eq_refl).
Qed.

Lemma parse_row_same opts total remain gen orig source name ns hn x y :
  rows x = rows y -> (hn = true -> named x /\ named y) ->
  same_outcome same_round (parse_row opts total remain gen orig source name ns hn x)
    (parse_row opts total remain gen orig source name ns hn y).
Proof.
  intros Hr Hn. unfold parse_row.
  assert (forall rem name' (hn' : bool) x' y', rows x' = rows y' -> (hn' = true -> named x' /\ named y') ->
    same_round
      (Continue (mkPState rem gen orig source name' ns hn' (MappingList_append x' (mkMapping gen orig source (if hn' then name' else -1)))))
      (Continue (mkPState rem gen orig source name' ns hn' (MappingList_append y' (mkMapping gen orig source (if hn' then name' else -1))))))
    as Hadd.
  { intros rem name' hn' x' y' Hr' Hn'. split; cbn; try done; [by apply rows_append_same|].
    intros H. destruct (Hn' H). split; by apply named_append. }
  destruct remain as [|c rest]; [by apply Hadd|]. destruct (c =? COMMA); [by apply Hadd|].
  destruct (c =? SEMICOLON); [by apply Hadd|]. destruct (VLQ_decode (c :: rest) 0) as [d| |]; [|done..]. cbn [obind].
  destruct (vr_start d =? 0)%nat; [done|]. destruct (allow_names opts); [|by apply Hadd].
  apply Hadd.
  - destruct hn; [done|]. by rewrite !rows_ensure.
  - intros _. destruct hn; [by apply Hn|]. split; apply named_ensure.
Qed.

Lemma parse_fields_same opts sc total remain gen orig source name ns hn x y :
  rows x = rows y -> (hn = true -> named x /\ named y) ->
  same_outcome same_round (parse_fields opts sc total remain gen orig source name ns hn x)
    (parse_fields opts sc total remain gen orig source name ns hn y).
Proof.
  intros Hr Hn. unfold parse_fields.
  repeat (destruct (VLQ_decode _ 0); [|done..]; cbn [obind]; case_if; [done|]; case_if; [done|]).
  by apply parse_row_same.
Qed.

Lemma parse_round_same opts sc total x y :
  same_state x y -> same_outcome same_round (parse_round opts sc total x) (parse_round opts sc total y).
Proof.
  intros [H1 H2 H3 H4 H5 H6 H7 H8 H9]. destruct x as [rem gen orig src nm ns hn ml], y as [rem' gen' orig' src' nm' ns' hn' ml'].
  cbn in *. subst rem' gen' orig' src' nm' ns' hn'. unfold parse_round.
  destruct (match rem with _ :: _ => _ | [] => _ end) as [gen2 rem2].
  destruct rem2 as [|c rest]; [by split|]. destruct (VLQ_decode _ 0) as [d| |]; [|done..]. cbn [obind].
  case_if; [done|]. case_if; [done|]. destruct (drop (vr_start d) (c :: rest)) as [|c2 rest2]; [by split|].
  case_if; [by split|]. case_if; [by split|]. by apply parse_fields_same.
Qed.

Lemma parse_rounds_same fuel opts sc total x y :
  same_state x y ->
  same_outcome (fun a b => match a, b with inl f, inl g => f = g | inr x, inr y => same_state x y | _, _ => False end)
    (parse_rounds fuel opts sc total x) (parse_rounds fuel opts sc total y).
Proof.
  revert x y. induction fuel as [|fuel IH]; intros x y Hs; cbn [parse_rounds]; rewrite <- (ss_remain _ _ Hs);
    destruct (ps_remain x); try done.
  pose proof (parse_round_same opts sc total x y Hs) as Hr.
  destruct (parse_round opts sc total x) as [r| |], (parse_round opts sc total y) as [r'| |]; try done.
  cbn [obind]. destruct r, r'; try done. by apply IH.
Qed.

(** Without names the list stays the one without names; once a name was read
    it is the one with names. *)
Definition names_inv (opts : ParseOptions) (st : PState) : Prop :=
  (opts.(allow_names) = false -> st.(ps_has_names) = false /\ st.(ps_name) = 0 /\ ~ named st.(ps_mapping)) /\
  (st.(ps_has_names) = true -> named st.(ps_mapping)).

Definition round_names (opts : ParseOptions) (o : outcome Round) : Prop :=
  match o with Done (Continue st | Break st) => names_inv opts st | _ => True end.

Lemma named_append_iff ml m : named (MappingList_append ml m) <-> named ml.
Proof. unfold named, MappingList_append. destruct (ml_impl ml); done. Qed.

Lemma parse_row_names opts total remain gen orig source name ns hn ml :
  names_inv opts (mkPState remain gen orig source name ns hn ml) ->
  round_names opts (parse_row opts total remain gen orig source name ns hn ml).
Proof.
  intros [Ha Hn]. cbn in Ha, Hn. unfold parse_row.
  assert (forall rem, names_inv opts (mkPState rem gen orig source name ns hn
    (MappingList_append ml (mkMapping gen orig source (if hn then name else -1))))) as Hadd.
  { intros rem. split; cbn; rewrite named_append_iff; auto. }
  destruct remain as [|c rest]; [apply Hadd|]. destruct (c =? COMMA); [apply Hadd|].
  destruct (c =? SEMICOLON); [apply Hadd|]. destruct (VLQ_decode (c :: rest) 0) as [d| |]; [|done..]. cbn [obind].
  destruct (vr_start d =? 0)%nat; [done|]. destruct (allow_names opts) eqn:E; [|apply Hadd].
  split; cbn; [congruence|]. intros _. rewrite named_append_iff. destruct hn; [auto|apply named_ensure].
Qed.

Lemma parse_round_names opts sc total st : names_inv opts st -> round_names opts (parse_round opts sc total st).
Proof.
  intros Hi. destruct st as [rem gen orig src nm ns hn ml]. unfold parse_round.
  destruct (match rem with _ :: _ => _ | [] => _ end) as [gen2 rem2].
  destruct rem2 as [|c rest]; [exact Hi|]. destruct (VLQ_decode _ 0) as [d| |]; [|done..]. cbn [obind].
  case_if; [done|]. case_if; [done|]. destruct (drop (vr_start d) (c :: rest)) as [|c2 rest2]; [exact Hi|].
  case_if; [exact Hi|]. case_if; [exact Hi|]. unfold parse_fields.
  repeat (destruct (VLQ_decode _ 0); [|done..]; cbn [obind]; case_if; [done|]; case_if; [done|]).
  apply parse_row_names. exact Hi.
Qed.

Lemma loop_steps_names opts sc total st st' : loop_steps opts sc total st st' -> names_inv opts st -> names_inv opts st'.
Proof.
  induction 1 as [|st st1 st2 Hne Hr _ IH]; [done|]. intros Hi. apply IH.
  pose proof (parse_round_names opts sc total st Hi) as H. by rewrite Hr in H.
Qed.

Lemma parse_rounds_fuel opts sc total fuel fuel' st r :
  parse_rounds fuel opts sc total st = Done r -> (fuel <= fuel')%nat -> parse_rounds fuel' opts sc total st = Done r.
Proof.
  revert fuel' st. induction fuel as [|fuel IH]; intros fuel' st; cbn [parse_rounds].
  - destruct (ps_remain st) eqn:E; [|done]. intros H _. destruct fuel'; cbn [parse_rounds]; by rewrite E.
  - destruct fuel' as [|fuel']; [lia|]. cbn [parse_rounds]. destruct (ps_remain st); [done|].
    destruct (parse_round opts sc total st) as [q| |]; [|done..]. cbn [obind]. destruct q; [|done..].
    intros H Hf. apply IH; [done|lia].
Qed.

(** A state the loop reaches ends the way the first one does. *)
Lemma loop_steps_rounds opts sc total st st' :
  loop_steps opts sc total st st' -> loop_inv sc total st ->
  loop_inv sc total st' /\
  parse_rounds (length st.(ps_remain)) opts sc total st = parse_rounds (length st'.(ps_remain)) opts sc total st'.
Proof.
  induction 1 as [|st st1 st2 Hne Hr _ IH]; intros Hi; [done|].
  destruct (parse_round_ok opts sc total st Hi Hne) as (r & Hr' & Hok). rewrite Hr in Hr'. injection Hr' as <-.
  destruct Hok as [Hi1 Hlen]. destruct (IH Hi1) as [Hi2 Heq]. split; [done|]. rewrite <- Heq.
  destruct (parse_rounds_ok opts sc total (length (ps_remain st1)) st1 Hi1 ltac:(lia)) as (q & Hq & _). rewrite Hq.
  destruct (ps_remain st) as [|c l] eqn:E; [done|]. cbn [length parse_rounds]. rewrite E, Hr. cbn [obind].
  eapply parse_rounds_fuel; [exact Hq|]. cbn in Hlen. lia.
Qed.

Lemma init_inv sc text : Z.of_nat (length text) <= i32_MAX -> loop_inv sc (length text) (parse_init text).
Proof. intros H. split; cbn; try done; try (unfold i32_MAX in *; lia); repeat constructor. Qed.

Definition kernel_ok (simd : option Kernel) : Prop := forall k, simd = Some k -> kernel_resumes k.

(** A map and a failure as their rows. *)
Definition same_parsed (x y : ParseFail + ParsedSourceMap) : Prop :=
  match x, y with
  | inl f, inl g => f = g
  | inr p, inr q => rows p.(psm_mappings) = rows q.(psm_mappings) /\ p.(psm_input_line_count) = q.(psm_input_line_count)
  | _, _ => False
  end.

Lemma sink_map {A B} (f : A -> B) (key : B -> LineColumnOffset) j l :
  sink key j (map f l) = map f (sink (fun x => key (f x)) j l).
Proof.
  revert l. induction j as [|j IH]; intros l; [done|]. cbn [sink]. rewrite !list_lookup_fmap.
  destruct (l !! S j), (l !! j); cbn [fmap option_fmap option_map]; try done. case_if; [|done].
  by rewrite <- IH, !list_fmap_insert.
Qed.

Lemma sort_context_map {A B} (f : A -> B) (key : B -> LineColumnOffset) l :
  sort_context key (map f l) = map f (sort_context (fun x => key (f x)) l).
Proof.
  unfold sort_context. rewrite length_map. generalize (seq 1 (length l - 1)). intros ix. revert l.
  induction ix as [|i ix IH]; intros l; [done|]. cbn [fold_left]. by rewrite sink_map, IH.
Qed.

Lemma rows_sort l : rows (MappingList_sort l) = sort_context generated (rows l).
Proof. unfold rows, MappingList_sort. destruct (ml_impl l); [|done]. cbn. by rewrite sort_context_map. Qed.

(** The state the kernel leaves is one the loop reaches. *)
Lemma simd_state kernel text sc opts :
  kernel_resumes kernel -> Z.of_nat (length text) <= i32_MAX ->
  let '(ml, r) := parse_simd kernel text MappingList_default sc opts in
  (r.(kr_err_at) <= length text)%nat /\
  exists st, loop_steps opts sc (length text) (parse_init text) st /\
    same_state (mkPState (drop r.(kr_err_at) text) r.(kr_generated) r.(kr_original) r.(kr_src_idx) r.(kr_name_idx)
                  r.(kr_needs_sort) r.(kr_has_names) ml) st.
Proof.
  intros Hk Hl. destruct (Hk text sc opts) as (Herr & st & Hst & H1 & H2 & H3 & H4 & H5 & H6 & H7).
  destruct (loop_steps_names _ _ _ _ _ Hst) as [Ha Hn]; [split; [intros _; split_and!; cbn; tauto|done]|].
  unfold parse_simd. destruct (allow_names opts) eqn:E; cbn in *.
  - destruct (H7 eq_refl) as (H8 & H9 & H10). split; [done|]. exists st. split; [done|].
    split; cbn; try congruence. rewrite <- H9. auto.
  - destruct (Ha eq_refl) as (H8 & H9 & H10). split; [done|]. exists st. split; [done|].
    split; cbn; try congruence. unfold named in H10. unfold rows in *. cbn.
    destruct (ml_impl (ps_mapping st)) as [us|]; [|tauto]. rewrite <- H6.
    rewrite !map_map. apply map_ext. by intros [].
Qed.

Lemma parse_kernel_irrelevant simd text sc n opts :
  kernel_ok simd -> Z.of_nat (length text) <= i32_MAX ->
  same_outcome same_parsed (mappings_parse simd text sc n opts) (mappings_parse None text sc n opts).
Proof.
  intros Hk Hl. set (fin := fun r : ParseFail + PState => match r with
    | inl f => Done (inl f : ParseFail + ParsedSourceMap)
    | inr st => Done (inr (mkParsed (if st.(ps_needs_sort) && opts.(sort) then MappingList_sort st.(ps_mapping) else st.(ps_mapping)) n))
    end).
  assert (forall st st', loop_steps opts sc (length text) (parse_init text) st' -> same_state st st' ->
    same_outcome same_parsed (let! r := parse_rounds (length st.(ps_remain)) opts sc (length text) st in fin r)
      (mappings_parse None text sc n opts)) as Hrun.
  { intros st st' Hst Hs. unfold mappings_parse. cbn [obind].
    destruct (loop_steps_rounds _ _ _ _ _ Hst (init_inv sc text Hl)) as [_ ->].
    pose proof (parse_rounds_same (length (ps_remain st)) opts sc (length text) st st' Hs) as Hp.
    rewrite (ss_remain _ _ Hs) in Hp |- *.
    destruct (parse_rounds _ _ _ _ st) as [[?|x]| |], (parse_rounds _ _ _ _ st') as [[?|y]| |]; try done.
    cbn [obind same_outcome] in *. unfold fin. cbn. split; [|done]. rewrite (ss_needs_sort _ _ Hp).
    case_if; [rewrite !rows_sort|]; by rewrite (ss_rows _ _ Hp). }
  destruct simd as [kernel|]; [|].
  - unfold mappings_parse at 1. destruct (Nat.leb_spec SIMD_THRESHOLD (length text)).
    + pose proof (simd_state kernel text sc opts (Hk _ eq_refl) Hl) as Hsimd.
      destruct (parse_simd kernel text MappingList_default sc opts) as [ml r]. destruct Hsimd as (He & st & Hst & Hs).
      destruct (Nat.leb_spec (kr_err_at r) (length text)); [|lia]. cbn [obind]. by apply (Hrun _ st).
    + cbn [obind]. apply (Hrun _ (parse_init text)); [constructor|by split].
  - apply (Hrun (parse_init text) (parse_init text)); [constructor|by split].
Qed.

(** ** Parsing ends, with rows in range *)

Lemma parse_loop_result text sc n opts :
  Z.of_nat (length text) <= i32_MAX ->
  exists r, mappings_parse None text sc n opts = Done r /\
    match r with
    | inl f => 0 <= f.(fail_loc) <= Z.of_nat (length text)
    | inr p => Forall (row_ok sc) (rows p.(psm_mappings)) /\
        (opts.(sort) = true -> StronglySorted row_le (rows p.(psm_mappings)))
    end.
Proof.
  intros Hl. unfold mappings_parse. cbn [obind].
  destruct (parse_rounds_ok opts sc (length text) (length (ps_remain (parse_init text))) (parse_init text)
    (init_inv sc text Hl) ltac:(lia)) as ([f|st] & -> & Hr); cbn [obind]; eexists; (split; [reflexivity|]); [done|].
  cbn [psm_mappings]. pose proof (sort_rows (ps_mapping st)) as [Hs Hp]. destruct Hr as [_ _ _ _ _ Hr Hns].
  destruct (ps_needs_sort st) eqn:E, (sort opts) eqn:Es; cbn [andb]; split; try done.
  - by rewrite Hp.
  - intros _. by apply Hns.
Qed.

Lemma parse_result simd text sc n opts :
  kernel_ok simd -> Z.of_nat (length text) <= i32_MAX ->
  exists r, mappings_parse simd text sc n opts = Done r /\
    match r with
    | inl f => 0 <= f.(fail_loc) <= Z.of_nat (length text)
    | inr p => Forall (row_ok sc) (rows p.(psm_mappings)) /\
        (opts.(sort) = true -> StronglySorted row_le (rows p.(psm_mappings)))
    end.
Proof.
  intros Hk Hl. destruct (parse_loop_result text sc n opts Hl) as (r & Hr & Hok).
  pose proof (parse_kernel_irrelevant simd text sc n opts Hk Hl) as Hs. rewrite Hr in Hs.
  destruct (mappings_parse simd text sc n opts) as [q| |]; [|done..]. exists q. split; [done|].
  destruct q as [f|p], r as [g|p0]; try done; cbn in Hs; [by subst|]. by destruct Hs as [-> _].
Qed.

(** The kernel that decodes nothing leaves all the text to the loop. *)
Definition idle_kernel : Kernel := fun _ _ _ => mkKernel [] (mkLCO 0 0) (mkLCO 0 0) 0 0 false false 0.

Lemma idle_kernel_ok : kernel_ok (Some idle_kernel).
Proof.
  intros k [= <-] text sc opts. cbn. split; [lia|]. exists (parse_init text). split; [constructor|]. by cbn.
Qed.

(** On any text of at most [2^31 - 1] bytes, with or without the vectorised
    kernel, parsing the mappings ends without a panic. An error is at an offset
    inside the text; a map has only rows whose lines and columns are
    non-negative 32-bit numbers and whose source exists, so no sum of deltas
    that wrapped is ever kept. *)
Theorem mappings_parse_bounds simd text sc n opts :
  kernel_ok simd -> Z.of_nat (length text) <= i32_MAX ->
  exists r, mappings_parse simd text sc n opts = Done r /\
    match r with
    | inl f => 0 <= f.(fail_loc) <= Z.of_nat (length text)
    | inr p => Forall (row_ok sc) (rows p.(psm_mappings))
    end.
Proof.
  intros Hk Hl. destruct (parse_result simd text sc n opts Hk Hl) as (r & Hr & Hok). exists r. split; [done|].
  destruct r; [done|apply Hok].
Qed.

(** The text ["AAAA,+/////DAAA"]: the second column is too large, and the
    error is at its first byte. *)
Lemma mappings_parse_bounds_witness :
  kernel_ok (Some idle_kernel) /\
  exists r, mappings_parse (Some idle_kernel) [65; 65; 65; 65; 44; 43; 47; 47; 47; 47; 47; 68; 65; 65; 65] 1 1 (mkOptions true true) = Done r /\
    match r with
    | inl f => 0 <= f.(fail_loc) <= 15
    | inr p => Forall (row_ok 1) (rows p.(psm_mappings))
    end.
Proof.
  split; [exact idle_kernel_ok|].
  refine (mappings_parse_bounds (Some idle_kernel) _ _ _ _ idle_kernel_ok _). by vm_compute.
Defined.

Lemma parse_round_sort_irrelevant a s s' sc total st :
  parse_round (mkOptions a s) sc total st = parse_round (mkOptions a s') sc total st.
Proof. reflexivity. Qed.

Lemma parse_rounds_sort_irrelevant fuel a s s' sc total st :
  parse_rounds fuel (mkOptions a s) sc total st = parse_rounds fuel (mkOptions a s') sc total st.
Proof.
  revert st. induction fuel as [|fuel IH]; intros st; [done|]. cbn [parse_rounds].
  destruct (ps_remain st); [done|]. rewrite (parse_round_sort_irrelevant a s s').
  destruct (parse_round _ _ _ st) as [[]| |]; cbn [obind]; auto.
Qed.

(** Sorting changes the order of the rows only. *)
Lemma parse_sort_perm text sc n a p :
  mappings_parse None text sc n (mkOptions a true) = Done (inr p) ->
  exists p0, mappings_parse None text sc n (mkOptions a false) = Done (inr p0) /\
    Permutation (rows p.(psm_mappings)) (rows p0.(psm_mappings)).
Proof.
  unfold mappings_parse. cbn [obind]. rewrite (parse_rounds_sort_irrelevant _ a true false).
  destruct (parse_rounds _ _ _ _ _) as [[f|st]| |]; cbn [obind sort]; [done| |done..].
  intros [= <-]. eexists. split; [reflexivity|]. cbn [psm_mappings]. rewrite andb_false_r.
  destruct (ps_needs_sort st); cbn [andb]; [apply sort_rows|done].
Qed.

(** In a map parsed with sorting, looking up a generated position gives the
    last row of its line that starts at or before its column, and nothing when
    the line has none there; the rows searched are a permutation of the rows in
    the order of the text. *)
Theorem mappings_parse_find simd text sc n a p line column :
  kernel_ok simd -> Z.of_nat (length text) <= i32_MAX ->
  mappings_parse simd text sc n (mkOptions a true) = Done (inr p) ->
  MappingList_find p.(psm_mappings) line column =
    Done (last (List.filter (on_line line column) (rows p.(psm_mappings)))) /\
  StronglySorted row_le (rows p.(psm_mappings)) /\
  exists p0, mappings_parse simd text sc n (mkOptions a false) = Done (inr p0) /\
    Permutation (rows p.(psm_mappings)) (rows p0.(psm_mappings)).
Proof.
  intros Hk Hl Hp. destruct (parse_result simd text sc n (mkOptions a true) Hk Hl) as (r & Hr & Hok).
  rewrite Hp in Hr. injection Hr as <-. destruct Hok as [_ Hs]. specialize (Hs eq_refl).
  split; [by apply find_last|]. split; [exact Hs|].
  pose proof (parse_kernel_irrelevant simd text sc n (mkOptions a true) Hk Hl) as H1. rewrite Hp in H1.
  destruct (mappings_parse None text sc n (mkOptions a true)) as [[|q]| |] eqn:Eq; try done. destruct H1 as [Hq _].
  destruct (parse_sort_perm _ _ _ _ _ Eq) as (q0 & E0 & Hperm).
  pose proof (parse_kernel_irrelevant simd text sc n (mkOptions a false) Hk Hl) as H2. rewrite E0 in H2.
  destruct (mappings_parse simd text sc n (mkOptions a false)) as [[|p0]| |]; try done. destruct H2 as [Hq0 _].
  exists p0. split; [done|]. by rewrite Hq, Hq0.
Qed.

(** ["CAAC,DAAA,EAAC"]: the second segment goes back to column 0. *)
Lemma mappings_parse_find_witness :
  let text := [67; 65; 65; 67; 44; 68; 65; 65; 65; 44; 69; 65; 65; 67] in
  exists p, mappings_parse (Some idle_kernel) text 1 1 (mkOptions false true) = Done (inr p) /\
    MappingList_find p.(psm_mappings) 0 1 = Done (Some (mkMapping (mkLCO 0 1) (mkLCO 0 1) 0 (-1))) /\
    StronglySorted row_le (rows p.(psm_mappings)).
Proof.
  intros text. eexists. split; [vm_compute; reflexivity|].
  destruct (mappings_parse_find (Some idle_kernel) text 1 1 false
    (mkParsed (mkMappingList (WithoutNames [mkUnnamed (mkLCO 0 0) (mkLCO 0 1) 0; mkUnnamed (mkLCO 0 1) (mkLCO 0 1) 0;
       mkUnnamed (mkLCO 0 2) (mkLCO 0 2) 0]) [] []) 1) 0 1) as (H1 & H2 & _).
  - exact idle_kernel_ok.
  - by vm_compute.
  - by vm_compute.
  - split; [rewrite H1; by vm_compute|exact H2].
Defined.

(** ** Printing and parsing *)

(** The row without its name. *)
Definition forget_name (m : Mapping) : Mapping := to_named (unnamed m).

Definition line_le (x y : Mapping) : Prop := x.(generated).(lines) <= y.(generated).(lines).

Definition strip_comma (l : bytes) : bytes :=
  match l with c :: rest => if c =? COMMA then rest else l | [] => [] end.

(** The text of a row starts with a digit. *)
Definition starts_digit (l : bytes) : Prop :=
  match l with [] => False | c :: _ => c <> COMMA /\ c <> SEMICOLON end.

Definition starts_separator (l : bytes) : Prop :=
  match l with [] => True | c :: _ => c = COMMA \/ c = SEMICOLON end.

Lemma skip_exact k r line :
  head r <> Some SEMICOLON -> 0 <= line -> line + Z.of_nat k <= i32_MAX ->
  let '(line1, r1) := skip_semicolon_runs (replicate k SEMICOLON ++ r) line in
  skip_semicolons r1 line1 = (line + Z.of_nat k, r).
Proof.
  intros Hr. revert line.
  assert (forall j line, 0 <= line -> line + Z.of_nat j <= i32_MAX ->
    skip_semicolons (replicate j SEMICOLON ++ r) line = (line + Z.of_nat j, r)) as Hone.
  { induction j as [|j IH]; intros line H0 Hl.
    - cbn. rewrite Z.add_0_r. destruct r as [|c r']; [done|]. cbn in *. destruct (Z.eqb_spec c SEMICOLON); [congruence|done].
    - cbn [replicate app skip_semicolons]. rewrite Z.eqb_refl, wadd_i32_small by (unfold is_i32, i32_MIN in *; lia).
      rewrite IH by lia. f_equal. lia. }
  induction k as [k IH] using lt_wf_ind. intros line H0 Hl.
  destruct (decide (4 <= k)%nat) as [Hk|Hk].
  - replace k with (4 + (k - 4))%nat by lia. cbn [replicate app Nat.add skip_semicolon_runs].
    rewrite !Z.eqb_refl. cbn [andb]. rewrite wadd_i32_small by (unfold is_i32, i32_MIN in *; lia).
    specialize (IH (k - 4)%nat ltac:(lia) (line + 4) ltac:(lia) ltac:(lia)).
    destruct (skip_semicolon_runs _ _) as [line1 r1]. rewrite IH. f_equal. lia.
  - assert (forall l, (exists j, (j < 4)%nat /\ l = replicate j SEMICOLON ++ r) -> skip_semicolon_runs l line = (line, l)) as Hskip.
    { intros l (j & Hj & ->). assert (forall c r', r = c :: r' -> (c =? SEMICOLON) = false) as Hc
        by (intros c r' ->; cbn in Hr; apply Z.eqb_neq; congruence).
      destruct j as [|[|[|[|j]]]]; [| | | |lia]; destruct r as [|c0 [|c1 [|c2 [|c3 r']]]]; try done;
        cbn; rewrite ?(Hc _ _ eq_refl), ?andb_false_r; done. }
    rewrite Hskip by (exists k; split; [lia|done]). apply Hone; lia.
Qed.

Lemma field_read a b rest :
  0 <= a <= i32_MAX -> 0 <= b <= i32_MAX ->
  let s := vlq (wsub_i32 a b) in
  VLQ_decode (s ++ rest) 0 = Done (mkVLQResult (a - b) (length s)) /\ (length s =? 0)%nat = false /\
  wadd_i32 b (a - b) = a /\ starts_digit (s ++ rest) /\ drop (length s) (s ++ rest) = rest.
Proof.
  intros Ha Hb s. assert (is_i32 (a - b) /\ a - b <> i32_MIN) as [Hi Hn] by (unfold is_i32, i32_MIN, i32_MAX in *; lia).
  unfold s, vlq, wsub_i32. rewrite (as_i32_small (a - b)) by done.
  pose proof (VLQ_decode_encode (a - b) [] rest Hi Hn) as Hd. cbn [app length Nat.add] in Hd. rewrite Hd.
  destruct (VLQ_encode_chars (a - b) Hi Hn) as [Hl Hf]. set (t := VLQ_slice _) in *. clearbody t.
  split_and!; [done| | | |apply drop_app_length].
  - apply Nat.eqb_neq. lia.
  - rewrite wadd_i32_small; [lia|]. unfold is_i32, i32_MIN, i32_MAX in *. lia.
  - destruct t; [cbn in Hl; lia|]. apply Forall_cons in Hf as [Hf _]. cbn. unfold COMMA, SEMICOLON. lia.
Qed.

(** Takes the next field off the text. *)
Ltac read_field a b :=
  match goal with
  | |- context [VLQ_decode (vlq (wsub_i32 a b) ++ ?rest) 0] =>
      let Hd := fresh "Hd" in let Hz := fresh "Hz" in let Hv := fresh "Hv" in let Hg := fresh "Hg" in let Hr := fresh "Hr" in
      destruct (field_read a b rest) as (Hd & Hz & Hv & Hg & Hr); [done..|];
      rewrite Hd; cbn [obind vr_start vr_value]; rewrite Hz, ?Hv, ?Hr
  end.

Lemma not_neg a : 0 <= a <= i32_MAX -> (a <? 0) = false.
Proof. intros H. apply Z.ltb_ge. lia. Qed.

Lemma parse_row_written opts total rest gen orig source name ns ml :
  starts_separator rest ->
  parse_row opts total rest gen orig source name ns false ml =
    Done (Continue (mkPState (strip_comma rest) gen orig source name ns false
      (MappingList_append ml (mkMapping gen orig source (-1))))).
Proof.
  intros Hsep. unfold parse_row. destruct rest as [|c rest]; [done|]. cbn [strip_comma].
  destruct (Z.eqb_spec c COMMA); [done|]. by destruct Hsep as [?| ->].
Qed.

Lemma parse_fields_written opts sc total gen orig source name ns ml m rest :
  row_ok sc m -> sc <= i32_MAX -> 0 <= source <= i32_MAX ->
  0 <= orig.(lines) <= i32_MAX -> 0 <= orig.(columns) <= i32_MAX -> starts_separator rest ->
  parse_fields opts sc total
    (vlq (wsub_i32 m.(source_index) source) ++ vlq (wsub_i32 m.(original).(lines) orig.(lines))
      ++ vlq (wsub_i32 m.(original).(columns) orig.(columns)) ++ rest) gen orig source name ns false ml =
    Done (Continue (mkPState (strip_comma rest) gen m.(original) m.(source_index) name ns false
      (MappingList_append ml (mkMapping gen m.(original) m.(source_index) (-1))))).
Proof.
  intros (_ & _ & Hl & Hc & Hs) Hsc H1 H2 H3 Hsep. assert (0 <= source_index m <= i32_MAX) by lia.
  unfold parse_fields. read_field (source_index m) source.
  rewrite not_neg by done. destruct (Z.leb_spec sc (source_index m)); [lia|]. cbn [orb].
  read_field (lines (original m)) (lines orig). rewrite not_neg by done.
  read_field (columns (original m)) (columns orig). rewrite not_neg by done.
  rewrite parse_row_written by done. by destruct (original m).
Qed.

(** The variables of the two loops agree. *)
Record in_step (w : WState) (st : PState) : Prop := {
  in_line : st.(ps_generated).(lines) = w.(w_line) /\ 0 <= w.(w_line) <= i32_MAX;
  in_col : st.(ps_generated).(columns) = w.(w_col) /\ 0 <= w.(w_col) <= i32_MAX;
  in_src : st.(ps_source) = w.(w_src) /\ 0 <= w.(w_src) <= i32_MAX;
  in_ol : st.(ps_original).(lines) = w.(w_ol) /\ 0 <= w.(w_ol) <= i32_MAX;
  in_oc : st.(ps_original).(columns) = w.(w_oc) /\ 0 <= w.(w_oc) <= i32_MAX;
  in_names : st.(ps_has_names) = false;
}.

Lemma write_row_text w m sc :
  row_ok sc m -> 0 <= w.(w_line) <= m.(generated).(lines) ->
  exists last_col sep,
    write_row w m = Done (mkW false m.(generated).(lines) m.(generated).(columns) m.(source_index) m.(original).(lines) m.(original).(columns),
      sep ++ vlq (wsub_i32 m.(generated).(columns) last_col) ++ vlq (wsub_i32 m.(source_index) w.(w_src))
        ++ vlq (wsub_i32 m.(original).(lines) w.(w_ol)) ++ vlq (wsub_i32 m.(original).(columns) w.(w_oc))) /\
    ((w.(w_line) = m.(generated).(lines) /\ last_col = w.(w_col) /\ sep = if w.(w_first) then [] else [COMMA]) \/
     (w.(w_line) < m.(generated).(lines) /\ last_col = 0 /\
      sep = replicate (Z.to_nat (m.(generated).(lines) - w.(w_line))) SEMICOLON)).
Proof.
  intros (Hl & _) Hw. unfold write_row. destruct (Z.eqb_spec (w_line w) (lines (generated m))) as [E|E]; cbn [negb].
  - destruct (w_first w); cbn [negb obind]; eexists _, _; (split; [reflexivity|by left]).
  - assert (wsub_i32 (lines (generated m)) (w_line w) = lines (generated m) - w_line w) as ->
      by (apply as_i32_small; unfold is_i32, i32_MIN, i32_MAX in *; lia).
    destruct (Z.ltb_spec (lines (generated m) - w_line w) 0); [lia|]. cbn [obind].
    eexists _, _. split; [reflexivity|right; split_and!; [lia|done|done]].
Qed.

Lemma parse_round_written opts sc total w st m rest t :
  in_step w st -> row_ok sc m -> sc <= i32_MAX -> w.(w_line) <= m.(generated).(lines) ->
  starts_separator rest -> write_row w m = Done t -> st.(ps_remain) = strip_comma (t.2 ++ rest) ->
  exists ns, parse_round opts sc total st = Done (Continue (mkPState (strip_comma rest) m.(generated) m.(original)
      m.(source_index) st.(ps_name) ns false (MappingList_append st.(ps_mapping) (forget_name m)))) /\
    st.(ps_remain) <> [] /\ (length (strip_comma rest) < length st.(ps_remain))%nat /\
    (st.(ps_needs_sort) = false -> lco_le (mkLCO w.(w_line) w.(w_col)) m.(generated) -> ns = false).
Proof.
  intros [Hl Hcol Hsrc Hol Hoc Hn] Hm Hsc Hle Hsep Ht Hrem.
  destruct st as [rem gen orig src nm ns hn ml]. cbn in *. subst hn.
  destruct Hl as [Hl Hl'], Hcol as [Hc Hc'], Hsrc as [-> Hsrc], Hol as [Hol Hol'], Hoc as [Hoc Hoc'].
  pose proof Hm as (Hgl & Hgc & _).
  destruct (write_row_text w m sc Hm) as (last_col & sep & Hw & Hcase); [lia|]. rewrite Ht in Hw. injection Hw as ->.
  cbn [snd] in Hrem. rewrite <- !app_assoc in Hrem. rewrite <- Hol, <- Hoc in Hrem.
  set (tail := vlq (wsub_i32 (source_index m) (w_src w)) ++ _) in Hrem.
  assert (0 <= last_col <= i32_MAX) as Hlc by (destruct Hcase as [(_ & -> & _)|(_ & -> & _)]; unfold i32_MAX in *; lia).
  destruct (field_read (columns (generated m)) last_col tail Hgc Hlc) as (Hd & Hz & Hv & Hg & Hr).
  set (digits := vlq (wsub_i32 (columns (generated m)) last_col)) in *.
  assert (head (digits ++ tail) <> Some SEMICOLON /\ digits ++ tail <> []) as [Hhead Hne].
  { destruct (digits ++ tail) as [|c ?]; [done|]. cbn in Hg |- *. split; [|done]. intros [= ->]. tauto. }
  assert (exists gen', (match rem with
    | c :: _ => if c =? SEMICOLON then
        let '(line, remain) := skip_semicolon_runs rem gen.(lines) in
        let '(line, remain) := skip_semicolons remain line in (mkLCO line 0, remain)
      else (gen, rem)
    | [] => (gen, rem) end) = (gen', digits ++ tail) /\ gen' = mkLCO (lines (generated m)) last_col /\
    (length (digits ++ tail) <= length rem)%nat) as (gen' & Hgen & -> & Hlen).
  { clearbody digits tail. destruct (digits ++ tail) as [|c l] eqn:El; [done|]. destruct Hg as [Hg1 Hg2].
    destruct Hcase as [(E & -> & ->)|(E & -> & ->)].
    - assert (rem = c :: l) as ->.
      { rewrite Hrem. destruct (w_first w); cbn; [|done]. destruct (Z.eqb_spec c COMMA); [done|done]. }
      exists gen. destruct (Z.eqb_spec c SEMICOLON); [done|]. split; [done|]. split; [|lia].
      destruct gen; cbn in *; congruence.
    - destruct (Z.to_nat (lines (generated m) - w_line w)) as [|k] eqn:Ek; [lia|].
      assert (rem = replicate (S k) SEMICOLON ++ c :: l) as -> by exact Hrem.
      pose proof (skip_exact (S k) (c :: l) (lines gen)) as Hskip. cbn [replicate app] in *. rewrite Z.eqb_refl.
      destruct (skip_semicolon_runs _ _) as [line1 r1]. rewrite Hskip by (done || lia).
      eexists. split; [done|]. split; [f_equal; lia|]. cbn [length]. rewrite length_app. cbn. lia. }
  unfold parse_round. rewrite Hgen. destruct (digits ++ tail) as [|c l] eqn:El; [done|].
  rewrite Hd. cbn [obind vr_start vr_value lines columns]. rewrite Hz, Hv, not_neg by done. rewrite Hr.
  assert (starts_digit tail) as Htail.
  { apply field_read; [|done]. destruct Hm as (_ & _ & _ & _ & ?). lia. }
  assert (length tail < length (c :: l))%nat.
  { rewrite <- El, length_app. apply Nat.eqb_neq in Hz. lia. }
  destruct tail as [|c2 l2] eqn:Et; [done|]. destruct Htail as [Ht1 Ht2].
  destruct (Z.eqb_spec c2 COMMA); [done|]. destruct (Z.eqb_spec c2 SEMICOLON); [done|].
  rewrite <- Et. unfold tail. rewrite parse_fields_written by (done || lia).
  exists (ns || (columns (generated m) - last_col <? 0)). split; [unfold forget_name, to_named, unnamed; cbn; by destruct (generated m)|]. split_and!.
  - intros ->. cbn in *. lia.
  - cut (length (strip_comma rest) <= length (c2 :: l2))%nat; [lia|]. rewrite <- Et. unfold tail. rewrite !length_app.
    destruct rest; cbn; [lia|]. case_if; cbn; lia.
  - intros -> Hco. cbn [orb]. apply Z.ltb_ge. unfold lco_le in Hco. cbn in Hco. lia.
Qed.

Lemma rows_append_unnamed ml m : rows (MappingList_append ml (forget_name m)) = rows ml ++ [forget_name m].
Proof. unfold MappingList_append, rows, forget_name. destruct (ml_impl ml); cbn; [by rewrite map_app|done]. Qed.

(** The rows to come continue from a position. *)
Definition from_line (line : Z) (ms : list Mapping) : Prop :=
  StronglySorted line_le ms /\ Forall (fun m => line <= m.(generated).(lines)) ms.
Definition from_position (g : LineColumnOffset) (ms : list Mapping) : Prop :=
  StronglySorted row_le ms /\ Forall (fun m => lco_le g m.(generated)) ms.

Lemma from_line_cons line m ms : from_line line (m :: ms) -> line <= m.(generated).(lines) /\ from_line m.(generated).(lines) ms.
Proof. intros [Hs Hf]. inversion Hs. inversion Hf. done. Qed.

Lemma from_position_cons g m ms : from_position g (m :: ms) -> lco_le g m.(generated) /\ from_position m.(generated) ms.
Proof. intros [Hs Hf]. inversion Hs. inversion Hf. done. Qed.

Lemma write_rows_text sc w ms :
  Forall (row_ok sc) ms -> from_line w.(w_line) ms -> 0 <= w.(w_line) ->
  exists text, write_rows w ms = Done text /\ (w.(w_first) = false -> starts_separator text).
Proof.
  revert w. induction ms as [|m ms IH]; intros w Hok Hl H0; [by exists []|].
  apply Forall_cons in Hok as [Hm Hok]. apply from_line_cons in Hl as [Hle Hl].
  destruct (write_row_text w m sc Hm) as (last_col & sep & Hw & Hcase); [lia|]. cbn [write_rows]. rewrite Hw. cbn [obind].
  destruct (IH (mkW false m.(generated).(lines) m.(generated).(columns) m.(source_index) m.(original).(lines) m.(original).(columns)))
    as (rest & -> & _); [done|done|cbn; lia|]. cbn [obind]. eexists. split; [reflexivity|]. intros Hf. rewrite Hf in Hcase.
  destruct Hcase as [(_ & _ & ->)|(E & _ & ->)]; [by left|].
  destruct (Z.to_nat (lines (generated m) - w_line w)) eqn:Ek; [lia|]. cbn. by right.
Qed.

Lemma parse_rounds_written opts sc total ms : forall w st text fuel,
  in_step w st -> Forall (row_ok sc) ms -> sc <= i32_MAX -> from_line w.(w_line) ms ->
  write_rows w ms = Done text -> st.(ps_remain) = strip_comma text -> (length st.(ps_remain) <= fuel)%nat ->
  exists st', parse_rounds fuel opts sc total st = Done (inr st') /\
    rows st'.(ps_mapping) = rows st.(ps_mapping) ++ map forget_name ms /\
    (st.(ps_needs_sort) = false -> from_position (mkLCO w.(w_line) w.(w_col)) ms -> st'.(ps_needs_sort) = false).
Proof.
  induction ms as [|m ms IH]; intros w st text fuel Hst Hok Hsc Hl Ht Hrem Hfuel.
  { injection Ht as <-. cbn in Hrem. exists st. rewrite app_nil_r. destruct fuel; cbn [parse_rounds]; rewrite Hrem; done. }
  apply Forall_cons in Hok as [Hm Hok]. apply from_line_cons in Hl as [Hle Hl]. pose proof (in_line _ _ Hst) as [_ Hw0].
  destruct (write_row_text w m sc Hm) as (last_col & sep & Hw & _); [lia|]. cbn [write_rows] in Ht.
  destruct (write_row w m) as [[w' s]| |] eqn:Ew; [|done..]. injection Hw as -> _. cbn [obind] in Ht.
  destruct (write_rows_text sc (mkW false m.(generated).(lines) m.(generated).(columns) m.(source_index) m.(original).(lines) m.(original).(columns)) ms)
    as (rest & Hrest & Hsep); [done|done|cbn; lia|]. rewrite Hrest in Ht. injection Ht as <-.
  destruct (parse_round_written opts sc total w st m rest _ Hst Hm Hsc Hle (Hsep eq_refl) Ew Hrem)
    as (ns & Hround & Hne & Hlen & Hns).
  destruct fuel as [|fuel]; [destruct (ps_remain st); cbn in Hfuel; [done|lia]|]. cbn [parse_rounds].
  destruct (ps_remain st) as [|c l]; [done|]. rewrite Hround. cbn [obind].
  pose proof Hm as (H1 & H2 & H3 & H4 & H5).
  eassert _ as Hnext; [eapply (IH _ (mkPState _ _ _ _ _ _ _ _) rest fuel); [|done|done| |exact Hrest|reflexivity|]|].
  - split; cbn; split_and?; (done || lia).
  - exact Hl.
  - cbn [ps_remain]. cbn [length] in *. lia.
  - destruct Hnext as (st' & Hr & Hrows & Hns'). exists st'. split; [exact Hr|]. cbn [ps_mapping ps_needs_sort w_line w_col] in *. split.
    + rewrite Hrows, rows_append_unnamed, <- app_assoc. done.
    + intros Hf Hp. apply from_position_cons in Hp as [Hp1 Hp2]. apply Hns'; [by apply Hns|]. by destruct (generated m).
Qed.

Lemma from_origin sc ms : Forall (row_ok sc) ms -> StronglySorted line_le ms -> from_line 0 ms.
Proof. intros Hok Hs. split; [done|]. eapply Forall_impl; [exact Hok|]. intros m Hm. apply Hm. Qed.

Lemma position_origin sc ms : Forall (row_ok sc) ms -> StronglySorted row_le ms -> from_position (mkLCO 0 0) ms.
Proof.
  intros Hok Hs. split; [done|]. eapply Forall_impl; [exact Hok|]. intros m (H1 & H2 & _). unfold lco_le. cbn. lia.
Qed.

(** The first row has no comma before it. *)
Lemma first_text sc ms text :
  Forall (row_ok sc) ms -> write_rows (mkW true 0 0 0 0 0) ms = Done text -> strip_comma text = text.
Proof.
  destruct ms as [|m ms]; [by intros _ [= <-]|]. intros [Hm _]%Forall_cons Ht. pose proof Hm as (Hm1 & Hm2 & _).
  destruct (write_row_text (mkW true 0 0 0 0 0) m sc Hm) as (lc & sep & Hw & Hcase); [cbn [w_line]; lia|].
  cbn [write_rows] in Ht. rewrite Hw in Ht. cbn [obind] in Ht. destruct (write_rows _ ms) as [rest| |]; [|done..].
  injection Ht as <-. rewrite <- !app_assoc. destruct Hcase as [(_ & -> & ->)|(E & -> & ->)].
  - cbn [app w_first w_col].
    match goal with |- strip_comma (vlq (wsub_i32 ?a ?b) ++ ?l) = _ => destruct (field_read a b l) as (_ & _ & _ & Hg & _) end;
      [done|unfold i32_MAX; lia|]. match type of Hg with starts_digit ?t => destruct t as [|c ?] end; [done|]. cbn. destruct (Z.eqb_spec c COMMA); [by destruct Hg|done].
  - cbn [w_line] in *. destruct (Z.to_nat _) eqn:Ek; [lia|]. done.
Qed.

(** The vectorised kernel is not asked: its feature flag turns it off, or the
    text is short. *)
Definition kernel_idle (simd : option Kernel) (text : bytes) : Prop :=
  simd = None \/ (length text < SIMD_THRESHOLD)%nat.

Lemma mappings_parse_idle simd text sc n opts :
  kernel_idle simd text -> mappings_parse simd text sc n opts = mappings_parse None text sc n opts.
Proof.
  intros [->|H]; [done|]. destruct simd as [k|]; [|done]. unfold mappings_parse.
  by rewrite (proj2 (Nat.leb_gt SIMD_THRESHOLD (length text)) H).
Qed.

(** C8: A map whose rows are in range and whose generated lines do not go back
    prints, and the loop of [parse] reads the text, of at most [2^31 - 1]
    bytes, back to the same rows, in the same order, without their names
    ([write_vlqs] writes four fields). When the parser is asked to sort, the
    rows of the map must be sorted. This is the path that [parse] takes with
    the feature flag [BUN_FEATURE_FLAG_DISABLE_SIMD_SOURCEMAP] and for every
    text of fewer than 128 bytes; on longer ones the C++ kernel, which is not
    modelled, reads most of the text first. *)
Theorem mappings_parse_write_vlqs simd p sc n opts :
  sc <= i32_MAX -> Forall (row_ok sc) (rows p.(psm_mappings)) ->
  StronglySorted line_le (rows p.(psm_mappings)) ->
  (opts.(sort) = true -> StronglySorted row_le (rows p.(psm_mappings))) ->
  exists text, write_vlqs p = Done text /\
    (kernel_idle simd text -> Z.of_nat (length text) <= i32_MAX ->
     exists q, mappings_parse simd text sc n opts = Done (inr q) /\
       rows q.(psm_mappings) = map forget_name (rows p.(psm_mappings)) /\ q.(psm_input_line_count) = n).
Proof.
  intros Hsc Hok Hl Hsort. set (ms := rows (psm_mappings p)) in *.
  destruct (write_rows_text sc (mkW true 0 0 0 0 0) ms) as (text & Ht & _); [done|by eapply from_origin|done|].
  exists text. split; [exact Ht|]. intros Hidle Hlen. rewrite (mappings_parse_idle _ _ _ _ _ Hidle).
  destruct (parse_rounds_written opts sc (length text) ms (mkW true 0 0 0 0 0) (parse_init text) text (length text))
    as (st & Hr & Hrows & Hns); try done.
  - by eapply from_origin.
  - symmetry. by eapply first_text.
  - unfold mappings_parse. cbn [obind].
    change (length (ps_remain (parse_init text))) with (length text). rewrite Hr. cbn [obind].
    eexists. split; [reflexivity|]. cbn [psm_mappings psm_input_line_count]. split; [|done].
    destruct (ps_needs_sort st && sort opts) eqn:E; [|exact Hrows].
    bool_facts. rewrite Hns in *; [done|done|]. eapply position_origin; [exact Hok|by apply Hsort].
Qed.

Lemma mappings_parse_write_vlqs_witness :
  let p := mkParsed (mkMappingList (WithNames
    [mkMapping (mkLCO 0 0) (mkLCO 0 0) 1 (-1); mkMapping (mkLCO 0 9) (mkLCO 7 2) 0 3; mkMapping (mkLCO 6 1) (mkLCO 2 40) 1 0]) [] []) 9 in
  exists text, write_vlqs p = Done text /\
    exists q, mappings_parse None text 2 9 (mkOptions true true) = Done (inr q) /\
      rows q.(psm_mappings) = map forget_name (rows p.(psm_mappings)) /\ q.(psm_input_line_count) = 9.
Proof.
  intros p. destruct (mappings_parse_write_vlqs None p 2 9 (mkOptions true true)) as (text & Ht & Hq).
  - by vm_compute.
  - repeat (constructor; [unfold row_ok, i32_MAX; cbn; lia|]). constructor.
  - repeat (constructor; [|repeat (constructor; [unfold line_le; cbn; lia|]); constructor]). constructor.
  - intros _. repeat (constructor; [|repeat (constructor; [unfold row_le, lco_le; cbn; lia|]); constructor]). constructor.
  - exists text. split; [exact Ht|]. apply Hq; [by left|]. vm_compute in Ht. injection Ht as <-. by vm_compute.
Defined.

(** ** Lines of the source *)

Lemma find_line_loop_bsearch fuel offs loc ix count :
  find_line_loop fuel offs loc ix count = bsearch (fun off => off <=? loc) fuel offs ix count.
Proof.
  revert ix count. induction fuel as [|fuel IH]; intros ix [|count]; [done..|].
  cbn [find_line_loop bsearch]. destruct (index offs _); [|done..]. cbn [obind]. rewrite <- Nat.sub_add_distr.
  case_if; apply IH.
Qed.

Section Lines.
Context (offs : list Z) (loc : Z).
Context (Hsorted : StronglySorted Z.le offs) (Hloc : 0 <= loc <= i32_MAX) (Hlen : Z.of_nat (length offs) <= i32_MAX).

Definition lines_before : nat := length (List.filter (fun off => off <=? loc) offs).

Lemma before_prefix i off : offs !! i = Some off -> (off <=? loc) = (i <? lines_before)%nat.
Proof. apply (sorted_prefix (fun off => off <=? loc) Z.le); [done|]. intros x y Hxy. rewrite !Z.leb_le. lia. Qed.

Lemma lines_before_le : (lines_before <= length offs)%nat.
Proof. apply List.filter_length_le. Qed.

Lemma find_line_count : find_line offs loc = Done (Z.of_nat lines_before - 1).
Proof.
  pose proof lines_before_le. unfold find_line. rewrite not_neg by done. rewrite find_line_loop_bsearch.
  rewrite (bsearch_spec _ _ _ _ _ lines_before); [|exact before_prefix|lia..]. cbn [obind].
  destruct (Z.leb_spec (Z.of_nat lines_before) i32_MAX); [done|lia].
Qed.

(** The probe at [h + k]: the answer is one of the lines looked at. *)
Lemma probe_spec h k :
  0 <= h -> 0 <= k -> h + k <= Z.of_nat (length offs) -> h + k - 1 < Z.of_nat lines_before ->
  (if h + k =? Z.of_nat (length offs) then Done true
   else let! o := index offs (Z.to_nat (h + k)) in Done (loc <? o)) = Done (h + k =? Z.of_nat lines_before).
Proof.
  intros Hh Hk Hl Hb. pose proof lines_before_le. destruct (Z.eqb_spec (h + k) (Z.of_nat (length offs))) as [E|E].
  - f_equal. symmetry. apply Z.eqb_eq. lia.
  - destruct (lookup_lt_is_Some_2 offs (Z.to_nat (h + k))) as [o Ho]; [lia|]. unfold index. rewrite Ho. cbn [obind]. f_equal.
    pose proof (before_prefix _ _ Ho) as Hp. rewrite Z.ltb_antisym, Hp.
    destruct (Nat.ltb_spec (Z.to_nat (h + k)) lines_before), (Z.eqb_spec (h + k) (Z.of_nat lines_before)); cbn; lia || done.
Qed.
End Lines.

(** In a table of line starts in order, the line of a source location is
    the number of lines that start at or before it, less one, and the search
    from any hint gives the same line as the binary search: a stale hint costs
    time, never correctness. *)
Theorem find_line_with_hint_correct offs loc hint :
  StronglySorted Z.le offs -> 0 <= loc <= i32_MAX -> Z.of_nat (length offs) <= i32_MAX -> 0 <= hint < two32 ->
  find_line offs loc = Done (Z.of_nat (lines_before offs loc) - 1) /\
  find_line_with_hint offs loc hint = find_line offs loc.
Proof.
  intros Hs Hloc Hlen Hh. pose proof (lines_before_le offs loc) as Hn.
  pose proof (find_line_count offs loc Hs Hloc Hlen) as Hfl. split; [exact Hfl|]. rewrite Hfl.
  unfold find_line_with_hint. replace (as_u32 loc) with loc by (symmetry; apply Z.mod_small; unfold i32_MAX, two32 in *; lia).
  rewrite Hfl. destruct (Z.ltb_spec hint (Z.of_nat (length offs))) as [Hlt|]; [|done].
  destruct (lookup_lt_is_Some_2 offs (Z.to_nat hint)) as [o Ho]; [lia|]. unfold index at 1. rewrite Ho. cbn [obind].
  rewrite (before_prefix offs loc Hs _ _ Ho). destruct (Nat.ltb_spec (Z.to_nat hint) (lines_before offs loc)) as [Hb|]; [|done].
  assert (forall z, 0 <= z <= i32_MAX -> as_i32 z = z) as Hsmall by (intros; apply as_i32_small; unfold is_i32, i32_MIN; lia).
  rewrite probe_spec by (done || lia). cbn [obind].
  destruct (Z.eqb_spec (hint + 1) (Z.of_nat (lines_before offs loc))) as [E1|E1]; [cbn [obind]; f_equal; rewrite Hsmall; lia|].
  rewrite probe_spec by (done || lia). cbn [obind].
  destruct (Z.eqb_spec (hint + 2) (Z.of_nat (lines_before offs loc))) as [E2|E2]; [cbn [obind]; f_equal; rewrite (Hsmall hint), Hsmall by lia; lia|].
  rewrite probe_spec by (done || lia). cbn [obind].
  destruct (Z.eqb_spec (hint + 3) (Z.of_nat (lines_before offs loc))) as [E3|E3]; [cbn [obind]; f_equal; rewrite (Hsmall hint), Hsmall by lia; lia|].
  done.
Qed.

Lemma find_line_with_hint_correct_witness :
  StronglySorted Z.le [0; 4; 9; 9; 30; 41] /\ find_line_with_hint [0; 4; 9; 9; 30; 41] 33 2 = Done 4 /\
  find_line_with_hint [0; 4; 9; 9; 30; 41] 33 17 = Done 4.
Proof.
  assert (StronglySorted Z.le [0; 4; 9; 9; 30; 41]) as Hs.
  { repeat (constructor; [|repeat (constructor; [lia|]); constructor]). constructor. }
  split; [exact Hs|].
  destruct (find_line_with_hint_correct [0; 4; 9; 9; 30; 41] 33 2) as [H1 H2]; [exact Hs|by vm_compute..|].
  destruct (find_line_with_hint_correct [0; 4; 9; 9; 30; 41] 33 17) as [_ H3]; [exact Hs|by vm_compute..|].
  rewrite H2, H3, H1. by vm_compute.
Defined.

(** ** Observations *)

(** The other search of the table finds no line for a location after the
    start of the last one. *)
Lemma find_index_last_line :
  find_index [0; 10; 20] 25 = Done None /\ find_line [0; 10; 20] 25 = Done 2.
Proof. by vm_compute. Qed.

(** ["AAAAC,CAAA"]: the second segment has four fields and gets the name of the first. *)
Lemma four_fields_inherit_name :
  match mappings_parse None [65; 65; 65; 65; 67; 44; 67; 65; 65; 65] 1 1 (mkOptions true true) with
  | Done (inr p) => map name_index (rows p.(psm_mappings))
  | _ => []
  end = [1; 1].
Proof. by vm_compute. Qed.
