(* ===== verification/Valkey.v ===== *)
(** * The Valkey protocol

    [src/src/valkey/valkey_protocol.rs]: the reader of RESP replies and the
    scanner that looks for the end of a reply in a buffer that grows, with the
    grammar of replies they implement. [Platform] has what the reader takes from
    outside the repository: doubles, two C functions, and the sizes of the
    types it reserves memory for. *)
From Stdlib Require Import ZArith Lia.
From stdpp Require Import base list numbers option.
From S2P Require Import Prelude Strings.
#[local] Open Scope Z_scope.

Class Platform : Type := {
  F64 : Type;
  f64_INFINITY : F64;
  f64_NEG_INFINITY : F64;
  f64_NAN : F64;
  (** The number and the length of the prefix it was read from. *)
  WTF__parseDouble : bytes -> F64 * nat;
  (** Zero when the first bytes are equal up to case. *)
  strncasecmp : bytes -> bytes -> nat -> Z;
  size_of_RESPValue : Z;
  size_of_MapEntry : Z;
  size_of_RESPValue_pos : 0 <= size_of_RESPValue;
  size_of_MapEntry_pos : 0 <= size_of_MapEntry;
}.

(** ** Data *)

Inductive RedisError : Type :=
| AuthenticationFailed | ConnectionClosed | InvalidArgument | InvalidArray | InvalidAttribute | InvalidBigNumber
| InvalidBlobError | InvalidBoolean | InvalidBulkString | InvalidCommand | InvalidDouble | InvalidErrorString
| InvalidInteger | InvalidMap | InvalidNull | InvalidPush | InvalidResponse | InvalidResponseType | InvalidSet
| InvalidSimpleString | InvalidVerbatimString | JSError | OutOfMemory | UnsupportedProtocol | ConnectionTimeout
| IdleTimeout | NestingDepthExceeded | LineTooLong | ServerError.

#[export] Instance RedisError_eq_dec : EqDecision RedisError.
Proof. solve_decision. Defined.

Inductive RESPType : Type :=
| TSimpleString | TError | TInteger | TBulkString | TArray
| TNull | TDouble | TBoolean | TBlobError | TVerbatimString | TMap | TSet | TAttribute | TPush | TBigNumber.

#[export] Instance RESPType_eq_dec : EqDecision RESPType.
Proof. solve_decision. Defined.

Definition type_byte (ty : RESPType) : Z :=
  match ty with
  | TSimpleString => 43 | TError => 45 | TInteger => 58 | TBulkString => 36 | TArray => 42
  | TNull => 95 | TDouble => 44 | TBoolean => 35 | TBlobError => 33 | TVerbatimString => 61
  | TMap => 37 | TSet => 126 | TAttribute => 124 | TPush => 62 | TBigNumber => 40
  end.

Definition from_byte (byte : Z) : option RESPType :=
  if byte =? type_byte TSimpleString then Some TSimpleString
  else if byte =? type_byte TError then Some TError
  else if byte =? type_byte TInteger then Some TInteger
  else if byte =? type_byte TBulkString then Some TBulkString
  else if byte =? type_byte TArray then Some TArray
  else if byte =? type_byte TNull then Some TNull
  else if byte =? type_byte TDouble then Some TDouble
  else if byte =? type_byte TBoolean then Some TBoolean
  else if byte =? type_byte TBlobError then Some TBlobError
  else if byte =? type_byte TVerbatimString then Some TVerbatimString
  else if byte =? type_byte TMap then Some TMap
  else if byte =? type_byte TSet then Some TSet
  else if byte =? type_byte TAttribute then Some TAttribute
  else if byte =? type_byte TPush then Some TPush
  else if byte =? type_byte TBigNumber then Some TBigNumber
  else None.

Record VerbatimString : Type := mkVerbatim { vs_format : bytes; vs_content : bytes }.

#[local] Unset Elimination Schemes.
Section Values.
Context {P : Platform}.

Inductive RESPValue : Type :=
| SimpleString (s : bytes)
| Error (s : bytes)
| Integer (i : Z)
| BulkString (s : option bytes)
| Array (l : list RESPValue)
| Null
| Double (d : F64)
| Boolean (b : bool)
| Verbatim (v : VerbatimString)
| Map (l : list MapEntry)
| RSet (l : list RESPValue)
| RAttribute (a : Attribute)
| RPush (p : Push)
| BigNumber (s : bytes)
with MapEntry : Type := mkEntry (key value : RESPValue)
with Push : Type := mkPush (kind : bytes) (data : list RESPValue)
with Attribute : Type := mkAttribute (attributes : list MapEntry) (value : RESPValue).
End Values.
#[local] Set Elimination Schemes.
Arguments RESPValue _ : clear implicits.
Arguments MapEntry _ : clear implicits.

(** ** The reader *)

Record ValkeyReader : Type := mkReader {
  rd_buffer : bytes;
  rd_pos : nat;
  rd_prealloc_budget : Z;
  rd_crlf_skip : nat;
}.

Definition reader_init (buffer : bytes) : ValkeyReader :=
  mkReader buffer 0 (Z.of_nat (length buffer)) 0.

Definition set_pos (r : ValkeyReader) (pos : nat) : ValkeyReader :=
  mkReader r.(rd_buffer) pos r.(rd_prealloc_budget) r.(rd_crlf_skip).
Definition set_budget (r : ValkeyReader) (budget : Z) : ValkeyReader :=
  mkReader r.(rd_buffer) r.(rd_pos) budget r.(rd_crlf_skip).

(** A method of the reader: the reader it leaves, and its [Result]. *)
Abbreviation Read A := (outcome (ValkeyReader * (RedisError + A))) (only parsing).

Definition ok {A} (r : ValkeyReader) (a : A) : Read A := Done (r, inr a).
Definition err {A} (r : ValkeyReader) (e : RedisError) : Read A := Done (r, inl e).

(** [let a = m?;] *)
Definition rbind {A B : Type} (m : Read A) (k : A -> ValkeyReader -> Read B) : Read B :=
  let! (r, x) := m in
  match x with inl e => err r e | inr a => k a r end.

Notation "'let?' a '/' r ':=' m 'in' k" := (rbind m (fun a r => k))
  (at level 10, a name, r name, m at level 200, k at level 200) : bun_scope.

Definition MAX_NESTING_DEPTH : nat := 128.
Definition MAX_BULK_LEN : Z := 536870912.
Definition MAX_LINE_LEN : Z := MAX_BULK_LEN.

Definition CR : Z := 13.
Definition LF : Z := 10.

Definition read_byte (r : ValkeyReader) : Read Z :=
  match r.(rd_buffer) !! r.(rd_pos) with
  | None => err r InvalidResponse
  | Some byte => ok (set_pos r (S r.(rd_pos))) byte
  end.

(** The loop over the positions from [i]; [n] positions are left. *)
Fixpoint crlf_loop (buffer : bytes) (i n : nat) : option nat :=
  match n, buffer with
  | S n', byte :: rest =>
      if (byte =? CR) && (match rest with c :: _ => c =? LF | [] => false end) then Some i
      else crlf_loop rest (S i) n'
  | _, _ => None
  end.

(** [buffer.len().min(MAX_LINE_LEN + 1)] *)
Definition line_limit (n : nat) : nat :=
  if Z.of_nat n <=? MAX_LINE_LEN + 1 then n else Z.to_nat (MAX_LINE_LEN + 1).

Definition read_until_crlf (r : ValkeyReader) : Read bytes :=
  if (length r.(rd_buffer) <? r.(rd_pos))%nat then Panic
  else
    let buffer := drop r.(rd_pos) r.(rd_buffer) in
    let limit := line_limit (length buffer) in
    let start := (r.(rd_crlf_skip) `min` limit)%nat in
    let r := mkReader r.(rd_buffer) r.(rd_pos) r.(rd_prealloc_budget) 0 in
    match crlf_loop (drop start buffer) start (limit - start) with
    | Some i => ok (set_pos r (r.(rd_pos) + (i + 2))) (take i buffer)
    | None => err r (if MAX_LINE_LEN + 1 <? Z.of_nat (length buffer) then LineTooLong else InvalidResponse)
    end.

Definition i64_MIN : Z := -9223372036854775808.
Definition i64_MAX : Z := 9223372036854775807.

Definition read_integer (r : ValkeyReader) : Read Z :=
  let? str / r := read_until_crlf r in
  match parse_int i64_MIN i64_MAX str 10 with
  | inl _ => err r InvalidInteger
  | inr i => ok r i
  end.

Definition read_boolean (r : ValkeyReader) : Read bool :=
  let? str / r := read_until_crlf r in
  match str with
  | [c] => if c =? 116 then ok r true else if c =? 102 then ok r false else err r InvalidBoolean
  | _ => err r InvalidBoolean
  end.

(** The payload of a blob of [len] bytes and the line end after it. *)
Definition read_payload (r : ValkeyReader) (len : Z) (invalid : RedisError) : Read bytes :=
  if Z.of_nat (length r.(rd_buffer)) <? Z.of_nat r.(rd_pos) + len then err r InvalidResponse
  else
    let str := take (Z.to_nat len) (drop r.(rd_pos) r.(rd_buffer)) in
    let r := set_pos r (r.(rd_pos) + Z.to_nat len) in
    let? crlf / r := read_until_crlf r in
    match crlf with
    | [] => ok r str
    | _ => err r invalid
    end.

Definition read_verbatim_string (r : ValkeyReader) : Read VerbatimString :=
  let? len / r := read_integer r in
  if (len <? 0) || (MAX_BULK_LEN <? len) then err r InvalidVerbatimString
  else
    let? content_with_format / r := read_payload r len InvalidVerbatimString in
    match content_with_format !! 3%nat with
    | Some c =>
        if c =? 58 then ok r (mkVerbatim (take 3 content_with_format) (drop 4 content_with_format))
        else err r InvalidVerbatimString
    | None => err r InvalidVerbatimString
    end.

Definition take_prealloc_budget (r : ValkeyReader) (len element_size : Z) : ValkeyReader * Z :=
  let cap := Z.min len (r.(rd_prealloc_budget) / Z.max element_size 1) in
  (set_budget r (r.(rd_prealloc_budget) - cap * element_size), cap).

(** [while i < len { l.push(body()?); }]; every round reads a byte or fails,
    so one round more than there are bytes is fuel enough. *)
Fixpoint read_loop {A : Type} (fuel : nat) (body : ValkeyReader -> Read A) (n : Z) (r : ValkeyReader) : Read (list A) :=
  if n <=? 0 then ok r []
  else
    match fuel with
    | O => NoFuel
    | S fuel' =>
        let? a / r := body r in
        let? l / r := read_loop fuel' body (n - 1) r in
        ok r (a :: l)
    end.

Definition loop_fuel (r : ValkeyReader) : nat := S (length r.(rd_buffer) - r.(rd_pos)).

Section Reader.
Context {P : Platform}.

(** *** Doubles *)

Definition eql_case_insensitive_ascii (a b : bytes) (check_len : bool) : bool :=
  if check_len then
    if negb (length a =? length b)%nat then false
    else match a with [] => true | _ => strncasecmp a b (length a) =? 0 end
  else if (length b <? length a)%nat then false
  else strncasecmp a b (length a) =? 0.

Definition INF : bytes := [105; 110; 102].
Definition INFINITY : bytes := [105; 110; 102; 105; 110; 105; 116; 121].
Definition NAN : bytes := [110; 97; 110].

Definition parse_f64 (s : bytes) : option F64 :=
  match s with
  | [] => None
  | c :: tail =>
      let '(res, count) := WTF__parseDouble s in
      if (count =? length s)%nat then Some res
      else if (count =? 0)%nat then
        let '(neg, rest) := if c =? 45 then (true, tail) else if c =? 43 then (false, tail) else (false, s) in
        if existsb (fun h => eql_case_insensitive_ascii rest h true) [INF; INFINITY]
        then Some (if (neg : bool) then f64_NEG_INFINITY else f64_INFINITY)
        else if eql_case_insensitive_ascii rest NAN true then Some f64_NAN
        else None
      else None
  end.

(** What a line of a double means. *)
Definition double_of_line (str : bytes) : option F64 :=
  if bool_decide (str = INF) then Some f64_INFINITY
  else if bool_decide (str = 45 :: INF) then Some f64_NEG_INFINITY
  else if bool_decide (str = NAN) then Some f64_NAN
  else parse_f64 str.

Definition read_double (r : ValkeyReader) : Read F64 :=
  let? str / r := read_until_crlf r in
  match double_of_line str with Some d => ok r d | None => err r InvalidDouble end.

(** *** Values *)

Definition push_kind (v : RESPValue P) : option bytes :=
  match v with
  | SimpleString str => Some str
  | BulkString maybe_str => maybe_str
  | _ => None
  end.

(** The header of an aggregate: the test of the depth, then its length. *)
Definition read_header (depth : nat) (r : ValkeyReader) : Read Z :=
  if (MAX_NESTING_DEPTH <=? depth)%nat then err r NestingDepthExceeded else read_integer r.

Definition read_entry (read : ValkeyReader -> Read (RESPValue P)) (r : ValkeyReader) : Read (MapEntry P) :=
  let? key / r := read r in
  let? value / r := read r in
  ok r (mkEntry key value).

(** [read_value_with_depth]; [fuel] bounds the depth of the recursion, which
    the test on [depth] does as well. *)
Fixpoint read_value_with_depth (fuel : nat) (depth : nat) (r : ValkeyReader) : Read (RESPValue P) :=
  match fuel with
  | O => NoFuel
  | S fuel' =>
      let read := read_value_with_depth fuel' (S depth) in
      let? type_byte / r := read_byte r in
      match from_byte type_byte with
      | None => err r InvalidResponseType
      | Some TSimpleString => let? str / r := read_until_crlf r in ok r (SimpleString str)
      | Some TError => let? str / r := read_until_crlf r in ok r (Error str)
      | Some TInteger => let? int / r := read_integer r in ok r (Integer int)
      | Some TBulkString =>
          let? len / r := read_integer r in
          if len <? 0 then ok r (BulkString None)
          else if MAX_BULK_LEN <? len then err r InvalidBulkString
          else let? str / r := read_payload r len InvalidBulkString in ok r (BulkString (Some str))
      | Some TArray =>
          let? len / r := read_header depth r in
          if len <? 0 then ok r Null
          else
            let '(r, _) := take_prealloc_budget r len size_of_RESPValue in
            let? array / r := read_loop (loop_fuel r) read len r in
            ok r (Array array)
      | Some TNull =>
          let? str / r := read_until_crlf r in
          match str with [] => ok r Null | _ => err r InvalidNull end
      | Some TDouble => let? d / r := read_double r in ok r (Double d)
      | Some TBoolean => let? b / r := read_boolean r in ok r (Boolean b)
      | Some TBlobError =>
          let? len / r := read_integer r in
          if (len <? 0) || (MAX_BULK_LEN <? len) then err r InvalidBlobError
          else let? str / r := read_payload r len InvalidBlobError in ok r (Error str)
      | Some TVerbatimString => let? v / r := read_verbatim_string r in ok r (Verbatim v)
      | Some TMap =>
          let? len / r := read_header depth r in
          if len <? 0 then err r InvalidMap
          else
            let '(r, _) := take_prealloc_budget r len size_of_MapEntry in
            let? entries / r := read_loop (loop_fuel r) (read_entry read) len r in
            ok r (Map entries)
      | Some TSet =>
          let? len / r := read_header depth r in
          if len <? 0 then err r InvalidSet
          else
            let '(r, _) := take_prealloc_budget r len size_of_RESPValue in
            let? set / r := read_loop (loop_fuel r) read len r in
            ok r (RSet set)
      | Some TAttribute =>
          let? len / r := read_header depth r in
          if len <? 0 then err r InvalidAttribute
          else
            let '(r, _) := take_prealloc_budget r len size_of_MapEntry in
            let? attrs / r := read_loop (loop_fuel r) (read_entry read) len r in
            let? value / r := read r in
            ok r (RAttribute (mkAttribute attrs value))
      | Some TPush =>
          let? len / r := read_header depth r in
          if len <=? 0 then err r InvalidPush
          else
            let? push_type / r := read r in
            match push_kind push_type with
            | None => err r InvalidPush
            | Some kind =>
                let '(r, _) := take_prealloc_budget r (len - 1) size_of_RESPValue in
                let? data / r := read_loop (loop_fuel r) read (len - 1) r in
                ok r (RPush (mkPush kind data))
            end
      | Some TBigNumber => let? str / r := read_until_crlf r in ok r (BigNumber str)
      end
  end.

Definition read_value (r : ValkeyReader) : Read (RESPValue P) :=
  if (length r.(rd_buffer) <? r.(rd_pos))%nat then Panic
  else
    read_value_with_depth (S MAX_NESTING_DEPTH) 0
      (set_budget r (Z.of_nat (length r.(rd_buffer) - r.(rd_pos)))).
End Reader.

(** ** The scanner *)

(** The stack has the innermost aggregate first. *)
Record ReplyScanner : Type := mkScanner {
  rs_pos : nat;
  rs_stack : list Z;
  rs_crlf_skip : nat;
}.
Definition scanner_reset : ReplyScanner := mkScanner 0 [] 0.

Inductive ScanResult : Type := Complete | NeedMoreData.

Definition saturating_mul_u64 (a b : Z) : Z := Z.min (a * b) u64_MAX.
Definition saturating_add_u64 (a b : Z) : Z := Z.min (a + b) u64_MAX.

Definition scan_blob (ty : RESPType) (r : ValkeyReader) : Read (option Z) :=
  let invalid := match ty with
                 | TBlobError => InvalidBlobError
                 | TVerbatimString => InvalidVerbatimString
                 | _ => InvalidBulkString
                 end in
  let? len / r := read_integer r in
  if len <? 0 then if decide (ty = TBulkString) then ok r None else err r invalid
  else if MAX_BULK_LEN <? len then err r invalid
  else if (length r.(rd_buffer) <? r.(rd_pos))%nat then Panic
  else if Z.of_nat (length r.(rd_buffer) - r.(rd_pos)) <? len + 2 then err r InvalidResponse
  else
    let at_ := (r.(rd_pos) + Z.to_nat len)%nat in
    match r.(rd_buffer) !! at_, r.(rd_buffer) !! S at_ with
    | Some a, Some b =>
        if negb (a =? CR) || negb (b =? LF) then err r invalid
        else ok (set_pos r (r.(rd_pos) + (Z.to_nat len + 2))) None
    | _, _ => Panic
    end.

Definition scan_one (r : ValkeyReader) (depth : nat) : Read (option Z) :=
  let? type_byte / r := read_byte r in
  match from_byte type_byte with
  | None => err r InvalidResponseType
  | Some ty =>
      match ty with
      | TSimpleString | TError | TInteger | TDouble | TBoolean | TBigNumber =>
          let? _ / r := read_until_crlf r in ok r None
      | TNull =>
          let? str / r := read_until_crlf r in
          match str with [] => ok r None | _ => err r InvalidNull end
      | TBulkString | TBlobError | TVerbatimString => scan_blob ty r
      | TArray =>
          let? len / r := read_header depth r in
          if len <? 0 then ok r (Some 0) else ok r (Some len)
      | TSet =>
          let? len / r := read_header depth r in
          if len <? 0 then err r InvalidSet else ok r (Some len)
      | TPush =>
          let? len / r := read_header depth r in
          if len <=? 0 then err r InvalidPush else ok r (Some len)
      | TMap =>
          let? len / r := read_header depth r in
          if len <? 0 then err r InvalidMap else ok r (Some (saturating_mul_u64 len 2))
      | TAttribute =>
          let? len / r := read_header depth r in
          if len <? 0 then err r InvalidAttribute else ok r (Some (saturating_add_u64 (saturating_mul_u64 len 2) 1))
      end
  end.

(** A value was skipped: the aggregates it completes are popped. *)
Fixpoint unwind (stack : list Z) : list Z :=
  match stack with
  | [] => []
  | remaining :: rest => if 0 <? remaining - 1 then remaining - 1 :: rest else unwind rest
  end.

(** The loop of [scan]: every round but the last moves [pos]. *)
Fixpoint scan_loop (fuel : nat) (buffer : bytes) (s : ReplyScanner) : outcome (ReplyScanner * (RedisError + ScanResult)) :=
  match fuel with
  | O => NoFuel
  | S fuel' =>
      let! (reader, x) := scan_one (mkReader buffer s.(rs_pos) 0 s.(rs_crlf_skip)) (length s.(rs_stack)) in
      match x with
      | inl InvalidResponse =>
          let skip := if (reader.(rd_pos) =? s.(rs_pos) + 1)%nat then (length buffer - reader.(rd_pos) - 1)%nat else 0%nat in
          Done (mkScanner s.(rs_pos) s.(rs_stack) skip, inr NeedMoreData)
      | inl e => Done (s, inl e)
      | inr children =>
          match children with
          | Some n =>
              if 0 <? n then scan_loop fuel' buffer (mkScanner reader.(rd_pos) (n :: s.(rs_stack)) 0)
              else
                match unwind s.(rs_stack) with
                | [] => Done (mkScanner reader.(rd_pos) [] 0, inr Complete)
                | stack => scan_loop fuel' buffer (mkScanner reader.(rd_pos) stack 0)
                end
          | None =>
              match unwind s.(rs_stack) with
              | [] => Done (mkScanner reader.(rd_pos) [] 0, inr Complete)
              | stack => scan_loop fuel' buffer (mkScanner reader.(rd_pos) stack 0)
              end
          end
      end
  end.

Definition scan (s : ReplyScanner) (buffer : bytes) : outcome (ReplyScanner * (RedisError + ScanResult)) :=
  scan_loop (S (length buffer)) buffer s.

(** ** The grammar of replies *)

(** How integers are written, and which lengths stand for a null. *)
Record Dialect : Type := mkDialect { int_text : bytes -> Z -> Prop; null_length : Z -> Prop }.

(** RESP: a sign or none, and digits; only -1 is the length of a null. *)
Definition resp_int (l : bytes) (n : Z) : Prop :=
  exists ds, ds <> [] /\ all_digits ds /\ i64_MIN <= n <= i64_MAX /\
    ((l = ds \/ l = 43 :: ds) /\ n = dec_value ds 0 \/ l = 45 :: ds /\ n = - dec_value ds 0).
Definition Resp : Dialect := mkDialect resp_int (fun n => n = -1).

(** What the reader takes: also digits with underscores between them, and any
    negative length. *)
Definition Loose : Dialect := mkDialect (fun l n => parse_int i64_MIN i64_MAX l 10 = inr n) (fun n => n < 0).

Section Grammar.
Context {P : Platform} {D : Dialect}.

(** No line end starts inside. *)
Fixpoint no_crlf (l : bytes) : bool :=
  match l with
  | [] => true
  | c :: rest => negb ((c =? CR) && (match rest with d :: _ => d =? LF | [] => false end)) && no_crlf rest
  end.

(** A line and its end. *)
Inductive is_line (l : bytes) : bytes -> Prop :=
| line_intro : no_crlf l = true -> Z.of_nat (length l) <= MAX_LINE_LEN -> is_line l (l ++ [CR; LF]).

(** A line that is an integer. *)
Inductive int_line_in (n : Z) : bytes -> Prop :=
| int_line_intro l s : is_line l s -> D.(int_text) l n -> int_line_in n s.

(** A length, a payload of that length, and a line end. *)
Inductive blob_in (p : bytes) : bytes -> Prop :=
| blob_intro s : int_line_in (Z.of_nat (length p)) s -> Z.of_nat (length p) <= MAX_BULK_LEN -> blob_in p (s ++ p ++ [CR; LF]).

(** [flatten] lists the values of the entries in their order on the wire. *)
Definition flatten (l : list (MapEntry P)) : list (RESPValue P) := concat (map (fun '(mkEntry k v) => [k; v]) l).

(** [reply_in d s v]: the bytes [s] are the value [v] inside [d] aggregates. *)
Inductive reply_in : nat -> bytes -> RESPValue P -> Prop :=
| reply_simple d l s : is_line l s -> reply_in d (43 :: s) (SimpleString l)
| reply_error d l s : is_line l s -> reply_in d (45 :: s) (Error l)
| reply_integer d n s : int_line_in n s -> reply_in d (58 :: s) (Integer n)
| reply_bulk d p s : blob_in p s -> reply_in d (36 :: s) (BulkString (Some p))
| reply_null_bulk d n s : int_line_in n s -> D.(null_length) n -> reply_in d (36 :: s) (BulkString None)
| reply_null d s : is_line [] s -> reply_in d (95 :: s) Null
| reply_double d l x s : is_line l s -> double_of_line l = Some x -> reply_in d (44 :: s) (Double x)
| reply_true d s : is_line [116] s -> reply_in d (35 :: s) (Boolean true)
| reply_false d s : is_line [102] s -> reply_in d (35 :: s) (Boolean false)
| reply_blob_error d p s : blob_in p s -> reply_in d (33 :: s) (Error p)
| reply_verbatim d f c s : length f = 3%nat -> blob_in (f ++ 58 :: c) s -> reply_in d (61 :: s) (Verbatim (mkVerbatim f c))
| reply_big d l s : is_line l s -> reply_in d (40 :: s) (BigNumber l)
| reply_array d vs h s : (d < MAX_NESTING_DEPTH)%nat -> int_line_in (Z.of_nat (length vs)) h -> replies_in (S d) s vs ->
    reply_in d (42 :: h ++ s) (Array vs)
| reply_null_array d n h : (d < MAX_NESTING_DEPTH)%nat -> int_line_in n h -> D.(null_length) n -> reply_in d (42 :: h) Null
| reply_set d vs h s : (d < MAX_NESTING_DEPTH)%nat -> int_line_in (Z.of_nat (length vs)) h -> replies_in (S d) s vs ->
    reply_in d (126 :: h ++ s) (RSet vs)
| reply_map d es h s : (d < MAX_NESTING_DEPTH)%nat -> int_line_in (Z.of_nat (length es)) h -> replies_in (S d) s (flatten es) ->
    reply_in d (37 :: h ++ s) (Map es)
| reply_attribute d es v h s : (d < MAX_NESTING_DEPTH)%nat -> int_line_in (Z.of_nat (length es)) h ->
    replies_in (S d) s (flatten es ++ [v]) -> reply_in d (124 :: h ++ s) (RAttribute (mkAttribute es v))
| reply_push d k kind vs h s : (d < MAX_NESTING_DEPTH)%nat -> int_line_in (Z.of_nat (S (length vs))) h ->
    push_kind k = Some kind -> replies_in (S d) s (k :: vs) -> reply_in d (62 :: h ++ s) (RPush (mkPush kind vs))
with replies_in : nat -> bytes -> list (RESPValue P) -> Prop :=
| replies_nil d : replies_in d [] []
| replies_cons d s t v vs : reply_in d s v -> replies_in d t vs -> replies_in d (s ++ t) (v :: vs).
End Grammar.
Arguments int_line_in D n _ : clear implicits.
Arguments blob_in D p _ : clear implicits.
Arguments reply_in {P} D _ _ _.
Arguments replies_in {P} D _ _ _.

(** The grammar of the reader. *)
Abbreviation is_int_line := (int_line_in Loose).
Abbreviation is_blob := (blob_in Loose).
Abbreviation reply := (reply_in Loose).
Abbreviation replies := (replies_in Loose).

Scheme reply_mind := Induction for reply_in Sort Prop
  with replies_mind := Induction for replies_in Sort Prop.
Combined Scheme reply_replies_ind from reply_mind, replies_mind.
