(* ===== verification/ValkeyTheorems.v ===== *)
(** * Theorems on the Valkey reader and scanner

    The reader accepts exactly the grammar of replies, ends on every buffer
    within its memory budget, and asks for more bytes exactly on the strict
    prefixes of replies; the scanner finds the same end, and finds it whatever
    the pieces the buffer arrives in. *)
From Stdlib Require Import ZArith Lia.
From stdpp Require Import base list numbers option.
From S2P Require Import Prelude Strings Valkey.
#[local] Open Scope Z_scope.

(** ** Lines *)

Definition starts_crlf (l : bytes) : bool :=
  match l with a :: b :: _ => (a =? CR) && (b =? LF) | _ => false end.

Lemma no_crlf_cons c l : no_crlf (c :: l) = negb (starts_crlf (c :: l)) && no_crlf l.
Proof. destruct l; cbn; [by rewrite andb_false_r|done]. Qed.

Lemma crlf_loop_cons c l i n :
  crlf_loop (c :: l) i (S n) = if starts_crlf (c :: l) then Some i else crlf_loop l (S i) n.
Proof. destruct l; cbn; [by rewrite andb_false_r|done]. Qed.

(** The loop finds the first line end, if it is near enough. *)
Lemma crlf_loop_found l u i n :
  no_crlf l = true -> (length l < n)%nat -> crlf_loop (l ++ CR :: LF :: u) i n = Some (i + length l)%nat.
Proof.
  revert i n. induction l as [|c l IH]; intros i n Hl Hn; destruct n as [|n]; try (cbn in Hn; lia).
  - cbn. f_equal. lia.
  - rewrite no_crlf_cons in Hl. apply andb_true_iff in Hl as [Hc Hl]. apply negb_true_iff in Hc.
    cbn [app]. rewrite crlf_loop_cons. cbn [length] in *. rewrite IH by (done || lia).
    replace (starts_crlf (c :: l ++ CR :: LF :: u)) with false; [f_equal; lia|].
    destruct l as [|d l]; [|by cbn in Hc |- *]. cbn. by rewrite andb_false_r.
Qed.

Lemma crlf_loop_Some l i n j :
  crlf_loop l i n = Some j ->
  exists l1 u, l = l1 ++ CR :: LF :: u /\ no_crlf l1 = true /\ j = (i + length l1)%nat /\ (length l1 < n)%nat.
Proof.
  revert i n. induction l as [|c l IH]; intros i [|n]; try done. rewrite crlf_loop_cons.
  destruct (starts_crlf (c :: l)) eqn:E.
  - intros [= <-]. destruct l as [|d l]; [done|]. cbn in E. bool_facts. subst. exists [], l. split_and!; [done..|cbn; lia|cbn; lia].
  - intros H. destruct (IH _ _ H) as (l1 & u & -> & H1 & -> & H2). exists (c :: l1), u. split_and!; [done| |cbn; lia|cbn; lia].
    rewrite no_crlf_cons, H1, andb_true_r. destruct l1 as [|d l1]; [|by cbn in E |- *; rewrite E]. cbn. done.
Qed.

Lemma crlf_loop_None l i n : crlf_loop l i n = None -> (length l <= n)%nat -> no_crlf l = true.
Proof.
  revert i n. induction l as [|c l IH]; intros i [|n] H Hn; try done; [cbn in Hn; lia|].
  rewrite crlf_loop_cons in H. destruct (starts_crlf (c :: l)) eqn:E; [done|].
  rewrite no_crlf_cons, E. cbn. eapply IH; [done|]. cbn in Hn. lia.
Qed.

Lemma crlf_loop_no_crlf l i n : no_crlf l = true -> crlf_loop l i n = None.
Proof.
  destruct (crlf_loop l i n) as [j|] eqn:E; [|done]. apply crlf_loop_Some in E as (l1 & u & -> & _ & _ & _).
  intros H. exfalso. revert H. induction l1 as [|c l1 IH]; [done|]. cbn [app]. rewrite no_crlf_cons. intros [_ ?]%andb_true_iff. auto.
Qed.

(** A strict prefix of a line and its end has no line end. *)
Lemma no_crlf_prefix l k : no_crlf l = true -> (k < length l + 2)%nat -> no_crlf (take k (l ++ [CR; LF])) = true.
Proof.
  revert k. induction l as [|c l IH]; intros k Hl Hk.
  - destruct k as [|[|k]]; [done..|cbn in Hk; lia].
  - destruct k as [|k]; [done|]. cbn [app take]. rewrite no_crlf_cons in Hl |- *. apply andb_true_iff in Hl as [Hc Hl].
    cbn [length] in Hk. rewrite IH by (done || lia). rewrite andb_true_r.
    destruct l as [|d l]; [destruct k as [|[|[|k]]]; cbn; rewrite ?andb_false_r; done|].
    destruct k as [|k]; [done|]. exact Hc.
Qed.

(** Positions already searched can be skipped. *)
Lemma crlf_loop_skip l u i n k :
  no_crlf l = true -> (k + 1 <= length l \/ k = 0)%nat -> (k <= n)%nat ->
  crlf_loop (drop k (l ++ u)) (i + k) (n - k) = crlf_loop (l ++ u) i n.
Proof.
  revert i n k. induction l as [|c l IH]; intros i n k Hl Hk Hn.
  - cbn in Hk. assert (k = 0%nat) as -> by lia. by rewrite Nat.add_0_r, Nat.sub_0_r.
  - destruct k as [|k]; [by rewrite Nat.add_0_r, Nat.sub_0_r|]. destruct n as [|n]; [lia|].
    rewrite no_crlf_cons in Hl. apply andb_true_iff in Hl as [Hc Hl]. apply negb_true_iff in Hc.
    cbn [app drop]. rewrite crlf_loop_cons. cbn [length] in Hk.
    replace (starts_crlf (c :: l ++ u)) with false by (destruct l; [cbn in Hk; lia|done]).
    rewrite <- (IH (S i) n k) by (done || lia). f_equal; lia.
Qed.

(** ** The reader's state *)

Definition rest (r : ValkeyReader) : bytes := drop r.(rd_pos) r.(rd_buffer).

Record wf (r : ValkeyReader) : Prop := {
  wf_pos : (r.(rd_pos) <= length r.(rd_buffer))%nat;
  wf_skip : r.(rd_crlf_skip) = 0%nat;
  wf_budget : 0 <= r.(rd_prealloc_budget);
}.

(** The reader [r'] is [r] after the bytes [s]. *)
Record after (r : ValkeyReader) (s : bytes) (r' : ValkeyReader) : Prop := {
  af_buffer : r'.(rd_buffer) = r.(rd_buffer);
  af_rest : rest r = s ++ rest r';
  af_pos : r'.(rd_pos) = (r.(rd_pos) + length s)%nat;
  af_budget : 0 <= r'.(rd_prealloc_budget) <= r.(rd_prealloc_budget);
  af_skip : r'.(rd_crlf_skip) = 0%nat;
}.

Lemma after_intro r s u b :
  wf r -> rest r = s ++ u -> 0 <= b <= r.(rd_prealloc_budget) ->
  after r s (mkReader r.(rd_buffer) (r.(rd_pos) + length s) b 0).
Proof.
  intros Hw Hr Hb. split; cbn; try done. unfold rest in *. cbn. rewrite <- drop_drop, Hr. by rewrite drop_app_length.
Qed.

Lemma after_wf r s r' : wf r -> after r s r' -> wf r'.
Proof.
  intros Hw [H1 H2 H3 H4 H5]. split; [|done|lia].
  assert (length (rest r) = length s + length (rest r'))%nat as Hl by (by rewrite H2, length_app).
  unfold rest in Hl. rewrite !length_drop in Hl. rewrite H1 in *. destruct Hw. lia.
Qed.

Lemma after_trans r s r' s' r'' : after r s r' -> after r' s' r'' -> after r (s ++ s') r''.
Proof.
  intros [A1 A2 A3 A4 A5] [B1 B2 B3 B4 B5]. split; [congruence|by rewrite A2, B2, app_assoc|rewrite length_app; lia|lia|done].
Qed.

Lemma after_nil r r' : wf r -> rd_buffer r' = rd_buffer r -> rd_pos r' = rd_pos r ->
  0 <= rd_prealloc_budget r' <= rd_prealloc_budget r -> rd_crlf_skip r' = 0%nat -> after r [] r'.
Proof. intros Hw H1 H2 H3 H4. split; try done; [unfold rest; by rewrite H1, H2|cbn; lia]. Qed.

Lemma length_rest r : wf r -> length (rest r) = (length r.(rd_buffer) - r.(rd_pos))%nat.
Proof. intros _. unfold rest. apply length_drop. Qed.

(** ** What a method does

    [reads m s a]: at a position where [s] comes, [m] returns [a] after it; at
    a position where the buffer ends inside [s], it runs out of bytes. *)

Definition strict_prefix (t s : bytes) : Prop := exists u, u <> [] /\ s = t ++ u.

Definition reads {A} (m : ValkeyReader -> Read A) (s : bytes) (a : A) : Prop :=
  forall r, wf r ->
    (forall u, rest r = s ++ u -> exists r', m r = Done (r', inr a) /\ after r s r') /\
    (strict_prefix (rest r) s -> exists r', m r = Done (r', inl InvalidResponse)).

(** [safe m G]: [m] ends at every position without moving out of the buffer or
    over its budget, and what it returns is described by [G]. *)
Definition safe {A} (m : ValkeyReader -> Read A) (G : bytes -> A -> Prop) : Prop :=
  forall r, wf r ->
    exists r' x, m r = Done (r', x) /\
      match x with
      | inr a => exists s, after r s r' /\ G s a
      | inl _ => wf r' /\ rd_buffer r' = rd_buffer r /\ 0 <= rd_prealloc_budget r' <= rd_prealloc_budget r
      end.

Section Combinators.
Context {A B : Type}.

Lemma strict_prefix_app (t s1 s2 : bytes) :
  strict_prefix t (s1 ++ s2) -> strict_prefix t s1 \/ exists t2, t = s1 ++ t2 /\ strict_prefix t2 s2.
Proof.
  intros (u & Hu & E). destruct (decide (length t < length s1)%nat) as [Hl|Hl].
  - left. exists (drop (length t) s1). split.
    + intros E2. assert (length (drop (length t) s1) = 0%nat) as E3 by (by rewrite E2). rewrite length_drop in E3. lia.
    + assert (t = take (length t) s1) as Ht.
      { rewrite <- (take_app_le s1 s2) by lia. rewrite E. by rewrite take_app_length. }
      rewrite <- (take_drop (length t) s1) at 1. by rewrite <- Ht.
  - right. exists (drop (length s1) t). assert (s1 = take (length s1) t) as Hs.
    { rewrite <- (take_app_le t u) by lia. rewrite <- E. by rewrite take_app_length. }
    split; [rewrite <- (take_drop (length s1) t) at 1; by rewrite <- Hs|]. exists u. split; [done|].
    rewrite <- (drop_app_le t u) by lia. rewrite <- E. by rewrite drop_app_length.
Qed.

Lemma reads_ok (a : A) : reads (fun r => ok r a) [] a.
Proof.
  intros r Hw. split.
  - intros u _. exists r. split; [done|]. destruct Hw. apply after_nil; done || lia.
  - intros (u & Hu & E). destruct (rest r); [cbn in E; congruence|done].
Qed.

Lemma reads_bind (m : ValkeyReader -> Read A) (k : A -> ValkeyReader -> Read B) s1 s2 a b :
  reads m s1 a -> reads (k a) s2 b -> reads (fun r => rbind (m r) k) (s1 ++ s2) b.
Proof.
  intros Hm Hk r Hw. destruct (Hm r Hw) as [Hm1 Hm2]. split.
  - intros u E. destruct (Hm1 (s2 ++ u)) as (r1 & E1 & A1); [by rewrite E, app_assoc|].
    destruct (Hk r1 (after_wf _ _ _ Hw A1)) as [Hk1 _].
    destruct (Hk1 u) as (r2 & E2 & A2).
    { pose proof (af_rest _ _ _ A1) as H. rewrite E, <- app_assoc in H. by apply app_inv_head in H. }
    exists r2. unfold rbind. rewrite E1. cbn [obind]. split; [exact E2|by eapply after_trans].
  - intros [Hp|(t2 & E & Hp)]%strict_prefix_app.
    + destruct (Hm2 Hp) as (r1 & E1). exists r1. unfold rbind. by rewrite E1.
    + destruct (Hm1 t2 E) as (r1 & E1 & A1). destruct (Hk r1 (after_wf _ _ _ Hw A1)) as [_ Hk2].
      destruct Hk2 as (r2 & E2).
      { pose proof (af_rest _ _ _ A1) as H. rewrite E in H. apply app_inv_head in H. by rewrite <- H. }
      exists r2. unfold rbind. by rewrite E1.
Qed.

Lemma safe_ok (a : A) (G : bytes -> A -> Prop) : G [] a -> safe (fun r => ok r a) G.
Proof.
  intros H r Hw. exists r, (inr a). split; [done|]. exists []. split; [|done]. destruct Hw. apply after_nil; done || lia.
Qed.

Lemma safe_err e (G : bytes -> A -> Prop) : safe (fun r => err r e) G.
Proof. intros r Hw. exists r, (inl e). split; [done|]. split; [done|]. destruct Hw. split; [done|lia]. Qed.

Lemma safe_weaken (m : ValkeyReader -> Read A) (G H : bytes -> A -> Prop) :
  safe m G -> (forall s a, G s a -> H s a) -> safe m H.
Proof.
  intros Hm Himp r Hw. destruct (Hm r Hw) as (r' & x & E & Hx). exists r', x. split; [done|].
  destruct x; [done|]. destruct Hx as (s & ? & ?). eauto.
Qed.

Lemma safe_bind (m : ValkeyReader -> Read A) (k : A -> ValkeyReader -> Read B) (G : bytes -> A -> Prop) (H : bytes -> B -> Prop) :
  safe m G -> (forall s1 a, G s1 a -> safe (k a) (fun s2 b => H (s1 ++ s2) b)) -> safe (fun r => rbind (m r) k) H.
Proof.
  intros Hm Hk r Hw. destruct (Hm r Hw) as (r1 & x & E1 & Hx). unfold rbind. rewrite E1. cbn [obind].
  destruct x as [e|a]; [by exists r1, (inl e)|]. destruct Hx as (s1 & A1 & Ha).
  destruct (Hk s1 a Ha r1 (after_wf _ _ _ Hw A1)) as (r2 & y & E2 & Hy). exists r2, y. split; [done|].
  pose proof (af_buffer _ _ _ A1). pose proof (af_budget _ _ _ A1).
  destruct y as [e|b]; [destruct Hy as (? & ? & ?); split_and!; [done|congruence|lia|lia]|].
  destruct Hy as (s2 & A2 & Hb). exists (s1 ++ s2). split; [by eapply after_trans|done].
Qed.
End Combinators.

Lemma lookup_rest r : r.(rd_buffer) !! r.(rd_pos) = head (rest r).
Proof. unfold rest. by rewrite head_lookup, lookup_drop, Nat.add_0_r. Qed.

Lemma reads_byte c : reads read_byte [c] c.
Proof.
  intros r Hw. unfold read_byte. rewrite lookup_rest. split.
  - intros u E. rewrite E. cbn. eexists. split; [done|]. destruct Hw as [H1 H2 H3].
    unfold set_pos. rewrite H2, <- Nat.add_1_r. by eapply (after_intro r [c] u); [done|exact E|lia].
  - intros (u & Hu & E). destruct (rest r) as [|x l]; [by eexists|]. exfalso.
    injection E as <- E. symmetry in E. by apply app_eq_nil in E as [_ ->].
Qed.

Lemma safe_byte : safe read_byte (fun s c => s = [c]).
Proof.
  intros r Hw. unfold read_byte. rewrite lookup_rest. destruct (rest r) as [|c u] eqn:E; cbn.
  - destruct (safe_err (A := Z) InvalidResponse (fun s c => s = [c]) r Hw) as (r' & x & H1 & H2). by exists r', x.
  - eexists _, _. split; [done|]. exists [c]. split; [|done]. destruct Hw as [H1 H2 H3].
    unfold set_pos. rewrite H2, <- Nat.add_1_r. by eapply (after_intro r [c] u); [done|exact E|lia].
Qed.

Lemma line_limit_lt n m : (n < line_limit m)%nat <-> (n < m)%nat /\ Z.of_nat n < MAX_LINE_LEN + 1.
Proof. unfold line_limit. destruct (Z.leb_spec (Z.of_nat m) (MAX_LINE_LEN + 1)); unfold MAX_LINE_LEN, MAX_BULK_LEN in *; lia. Qed.

(** [read_until_crlf] where nothing is skipped. *)
Lemma read_until_crlf_unfold r :
  wf r -> read_until_crlf r =
    match crlf_loop (rest r) 0 (line_limit (length (rest r))) with
    | Some i => ok (set_pos r (r.(rd_pos) + (i + 2))) (take i (rest r))
    | None => err r (if MAX_LINE_LEN + 1 <? Z.of_nat (length (rest r)) then LineTooLong else InvalidResponse)
    end.
Proof.
  intros [H1 H2 H3]. unfold read_until_crlf. destruct (Nat.ltb_spec (length (rd_buffer r)) (rd_pos r)); [lia|].
  fold (rest r). rewrite H2. cbn [Nat.min]. rewrite drop_0, Nat.sub_0_r. destruct r as [b p c k]. cbn in *. by subst k.
Qed.

Lemma reads_line l s : is_line l s -> reads read_until_crlf s l.
Proof.
  intros [Hl Hlen] r Hw. rewrite read_until_crlf_unfold by done. split.
  - intros u E. assert (rest r = l ++ CR :: LF :: u) as E' by (by rewrite E, <- app_assoc).
    rewrite E', crlf_loop_found; [|done|apply line_limit_lt; rewrite length_app; cbn; lia].
    cbn [Nat.add]. rewrite take_app_length. eexists. split; [done|].
    unfold set_pos. rewrite (wf_skip _ Hw). replace (length l + 2)%nat with (length (l ++ [CR; LF])) by (rewrite length_app; done).
    apply (after_intro r _ u); [done|done|]. destruct Hw. lia.
  - intros (u & Hu & E). assert (length (rest r) < length l + 2)%nat as Hk.
    { assert (length (l ++ [CR; LF]) = length (rest r) + length u)%nat as H by (by rewrite E, length_app).
      rewrite length_app in H. cbn in H. destruct u; [done|]. cbn in H. lia. }
    assert (no_crlf (rest r) = true) as Hn.
    { replace (rest r) with (take (length (rest r)) (l ++ [CR; LF])) by (rewrite E; by rewrite take_app_length). by apply no_crlf_prefix. }
    rewrite crlf_loop_no_crlf by done. destruct (Z.ltb_spec (MAX_LINE_LEN + 1) (Z.of_nat (length (rest r)))); [lia|]. by eexists.
Qed.

Lemma safe_line : safe read_until_crlf (fun s l => is_line l s).
Proof.
  intros r Hw. rewrite read_until_crlf_unfold by done. destruct (crlf_loop _ _ _) as [i|] eqn:E.
  - apply crlf_loop_Some in E as (l & u & E & Hl & -> & Hi). cbn [Nat.add]. eexists _, _. split; [done|].
    rewrite E, take_app_length. exists (l ++ [CR; LF]). split.
    + unfold set_pos. rewrite (wf_skip _ Hw). replace (length l + 2)%nat with (length (l ++ [CR; LF])) by (rewrite length_app; done).
      apply (after_intro r _ u); [done|by rewrite E, <- app_assoc|]. destruct Hw. lia.
    + constructor; [done|]. apply line_limit_lt in Hi. lia.
  - by apply (safe_err _ (fun s l => is_line l s)).
Qed.

(** ** Numbers, blobs *)

Lemma reads_int n s : is_int_line n s -> reads read_integer s n.
Proof.
  intros [l s' Hl Hn]. rewrite <- (app_nil_r s'). eapply reads_bind; [by apply reads_line|]. rewrite Hn. apply reads_ok.
Qed.

Lemma safe_int : safe read_integer (fun s n => is_int_line n s).
Proof.
  eapply safe_bind; [apply safe_line|]. intros s l Hl. cbn beta. destruct (parse_int _ _ l 10) as [e|n] eqn:E.
  - apply safe_err.
  - apply safe_ok. rewrite app_nil_r. by apply (int_line_intro n l).
Qed.

Lemma is_line_nonempty l s : is_line l s -> s <> [].
Proof. intros [] E. by apply app_eq_nil in E as []. Qed.

Lemma reads_payload p e : reads (fun r => read_payload r (Z.of_nat (length p)) e) (p ++ [CR; LF]) p.
Proof.
  intros r Hw. unfold read_payload. rewrite Nat2Z.id. fold (rest r). pose proof (length_rest r Hw) as Hl. pose proof (wf_pos _ Hw).
  set (adv := set_pos r (rd_pos r + length p)).
  assert (forall u, rest r = p ++ u -> after r p adv) as Hadv.
  { intros u E. unfold adv, set_pos. rewrite (wf_skip _ Hw). apply (after_intro r p u); [done|done|]. destruct Hw. lia. }
  assert (is_line [] [CR; LF]) as Hline by (apply (line_intro []); [done|cbn; unfold MAX_LINE_LEN, MAX_BULK_LEN; lia]).
  split.
  - intros u E. rewrite <- app_assoc in E.
    assert (length p <= length (rest r))%nat by (rewrite E, length_app; lia).
    destruct (Z.ltb_spec (Z.of_nat (length (rd_buffer r))) (Z.of_nat (rd_pos r) + Z.of_nat (length p))); [lia|].
    pose proof (Hadv _ E) as A1. destruct (reads_line _ _ Hline adv (after_wf _ _ _ Hw A1)) as [Hok _].
    destruct (Hok u) as (r2 & E2 & A2).
    { pose proof (af_rest _ _ _ A1) as H2. rewrite E in H2. by apply app_inv_head in H2. }
    exists r2. unfold rbind. rewrite E2. cbn [obind]. rewrite E, take_app_length. split; [done|by eapply after_trans].
  - intros Hp. destruct (Z.ltb_spec (Z.of_nat (length (rd_buffer r))) (Z.of_nat (rd_pos r) + Z.of_nat (length p))); [by eexists|].
    apply strict_prefix_app in Hp as [(u & Hu & E)|(t2 & E & Hp)].
    { exfalso. assert (length p = length (rest r) + length u)%nat as H2 by (by rewrite E at 1; rewrite length_app).
      destruct u; [done|cbn in H2; lia]. }
    pose proof (Hadv _ E) as A1. destruct (reads_line _ _ Hline adv (after_wf _ _ _ Hw A1)) as [_ Hno].
    destruct Hno as (r2 & E2).
    { pose proof (af_rest _ _ _ A1) as H2. rewrite E in H2. apply app_inv_head in H2. by rewrite <- H2. }
    exists r2. unfold rbind. by rewrite E2.
Qed.

Lemma safe_payload len e : 0 <= len ->
  safe (fun r => read_payload r len e) (fun s p => Z.of_nat (length p) = len /\ s = p ++ [CR; LF]).
Proof.
  intros Hlen r Hw. unfold read_payload. fold (rest r). pose proof (length_rest r Hw) as Hl. pose proof (wf_pos _ Hw).
  destruct (Z.ltb_spec (Z.of_nat (length (rd_buffer r))) (Z.of_nat (rd_pos r) + len)).
  { by apply (safe_err _ (fun s p => Z.of_nat (length p) = len /\ s = p ++ [CR; LF])). }
  set (p := take (Z.to_nat len) (rest r)).
  assert (length p = Z.to_nat len) as Hp by (unfold p; rewrite length_take; lia).
  assert (after r p (set_pos r (rd_pos r + Z.to_nat len))) as A1.
  { unfold set_pos. rewrite (wf_skip _ Hw), <- Hp.
    apply (after_intro r p (drop (Z.to_nat len) (rest r))); [done|unfold p; by rewrite take_drop|]. destruct Hw. lia. }
  pose proof (after_wf _ _ _ Hw A1) as Hw1. destruct (safe_line _ Hw1) as (r2 & x & E2 & Hx).
  unfold rbind. rewrite E2. cbn [obind]. pose proof (af_buffer _ _ _ A1). pose proof (af_budget _ _ _ A1).
  destruct x as [e2|l]; [eexists _, _; split; [done|]; destruct Hx as (? & ? & ?); split_and!; [done|congruence|lia|lia]|].
  destruct Hx as (s2 & A2 & Hs2). destruct l as [|c l].
  - eexists _, _. split; [done|]. exists (p ++ [CR; LF]). inversion Hs2; subst. split; [by eapply after_trans|]. split; [lia|done].
  - eexists _, _. split; [done|]. pose proof (after_wf _ _ _ Hw1 A2). pose proof (af_buffer _ _ _ A2). pose proof (af_budget _ _ _ A2).
    split_and!; [done|congruence|lia|lia].
Qed.

(** ** Loops *)

Section Loop.
Context {A : Type} (body : ValkeyReader -> Read A).

Lemma read_loop_pos fuel n r : 0 < n ->
  read_loop (S fuel) body n r =
    rbind (body r) (fun a r => rbind (read_loop fuel body (n - 1) r) (fun l r => ok r (a :: l))).
Proof. intros Hn. cbn [read_loop]. destruct (Z.leb_spec n 0); [lia|done]. Qed.

Lemma reads_loop ss l :
  Forall2 (fun s a => s <> [] /\ reads body s a) ss l ->
  forall r fuel, wf r -> (length (rest r) < fuel)%nat ->
    (forall u, rest r = concat ss ++ u ->
       exists r', read_loop fuel body (Z.of_nat (length l)) r = Done (r', inr l) /\ after r (concat ss) r') /\
    (strict_prefix (rest r) (concat ss) ->
       exists r', read_loop fuel body (Z.of_nat (length l)) r = Done (r', inl InvalidResponse)).
Proof.
  induction 1 as [|s a ss l [Hne Hs] _ IH]; intros r fuel Hw Hf.
  - destruct fuel as [|fuel]; [lia|]. exact (reads_ok [] r Hw).
  - destruct fuel as [|fuel]; [lia|]. rewrite read_loop_pos by (cbn [length]; lia).
    replace (Z.of_nat (length (a :: l)) - 1) with (Z.of_nat (length l)) by (cbn [length]; lia).
    destruct (Hs r Hw) as [Hs1 Hs2]. cbn [concat]. change (concat (s :: ss)) with (s ++ concat ss).
    assert (forall u, rest r = s ++ u -> exists r1, body r = Done (r1, inr a) /\ after r s r1 /\ wf r1 /\
      rest r1 = u /\ (length (rest r1) < fuel)%nat) as Hstep.
    { intros u E. destruct (Hs1 u E) as (r1 & E1 & A1). exists r1. pose proof (af_rest _ _ _ A1) as Hr. rewrite E in Hr.
      apply app_inv_head in Hr as ->. split_and!; [done|done|by eapply after_wf|done|].
      rewrite E, length_app in Hf. destruct s; [done|]. cbn in Hf. lia. }
    split.
    + intros u E. rewrite <- app_assoc in E. destruct (Hstep _ E) as (r1 & E1 & A1 & W1 & R1 & F1).
      destruct (IH r1 fuel W1 F1) as [IH1 _]. destruct (IH1 u R1) as (r2 & E2 & A2).
      exists r2. unfold rbind. rewrite E1. cbn [obind]. rewrite E2. cbn [obind]. split; [done|by eapply after_trans].
    + intros [Hp|(t2 & E & Hp)]%strict_prefix_app.
      * destruct (Hs2 Hp) as (r1 & E1). exists r1. unfold rbind. by rewrite E1.
      * destruct (Hstep _ E) as (r1 & E1 & A1 & W1 & R1 & F1). destruct (IH r1 fuel W1 F1) as [_ IH2].
        destruct IH2 as (r2 & E2); [by rewrite R1|]. exists r2. unfold rbind. rewrite E1. cbn [obind]. by rewrite E2.
Qed.

Lemma reads_loop_fuel ss l :
  Forall2 (fun s a => s <> [] /\ reads body s a) ss l ->
  reads (fun r => read_loop (loop_fuel r) body (Z.of_nat (length l)) r) (concat ss) l.
Proof.
  intros Hl r Hw. apply reads_loop; [done|done|]. unfold loop_fuel. rewrite length_rest by done. lia.
Qed.

(** The elements the loop has read. *)
Inductive elements (G : bytes -> A -> Prop) : bytes -> list A -> Prop :=
| elements_nil : elements G [] []
| elements_cons s t a l : G s a -> elements G t l -> elements G (s ++ t) (a :: l).

Lemma safe_loop (G : bytes -> A -> Prop) n :
  safe body G -> (forall s a, G s a -> s <> []) ->
  safe (fun r => read_loop (loop_fuel r) body n r) (fun s l => elements G s l /\ Z.of_nat (length l) = Z.max n 0).
Proof.
  intros Hb Hne r Hw. assert (length (rest r) < loop_fuel r)%nat as Hf.
  { unfold loop_fuel. rewrite length_rest by done. lia. }
  revert Hf. generalize (loop_fuel r) as fuel. intros fuel. revert r n Hw. induction fuel as [|fuel IH]; intros r n Hw Hf; [lia|].
  destruct (decide (n <= 0)) as [Hn|Hn].
  - cbn [read_loop]. destruct (Z.leb_spec n 0); [|lia].
    apply (safe_ok [] (fun s l => elements G s l /\ Z.of_nat (length l) = Z.max n 0)); [|done]. split; [constructor|cbn; lia].
  - rewrite read_loop_pos by lia. destruct (Hb r Hw) as (r1 & x & E1 & Hx). unfold rbind. rewrite E1. cbn [obind].
    destruct x as [e|a]; [by exists r1, (inl e)|]. destruct Hx as (s & A1 & Hs). pose proof (Hne _ _ Hs) as Hs'.
    pose proof (after_wf _ _ _ Hw A1) as W1. pose proof (af_rest _ _ _ A1) as R1.
    destruct (IH r1 (n - 1) W1) as (r2 & y & E2 & Hy).
    { rewrite R1, length_app in Hf. destruct s; [done|]. cbn in Hf. lia. }
    rewrite E2. cbn [obind]. pose proof (af_buffer _ _ _ A1). pose proof (af_budget _ _ _ A1).
    destruct y as [e|l]; [eexists _, _; split; [done|]; destruct Hy as (? & ? & ?); split_and!; [done|congruence|lia|lia]|].
    destruct Hy as (t & A2 & Ht & Hl). eexists _, _. split; [done|]. exists (s ++ t). split; [by eapply after_trans|].
    split; [by constructor|]. cbn [length]. lia.
Qed.
End Loop.

(** Reserving memory keeps within the budget. *)
Lemma take_prealloc_budget_spec r len size :
  wf r -> 0 <= len -> 0 <= size ->
  let '(r', cap) := take_prealloc_budget r len size in
  after r [] r' /\ 0 <= cap <= len /\ rd_prealloc_budget r' = rd_prealloc_budget r - cap * size.
Proof.
  intros Hw Hlen Hsize. pose proof (wf_budget _ Hw) as Hb. unfold take_prealloc_budget.
  set (q := rd_prealloc_budget r / Z.max size 1).
  assert (0 <= q) as Hq by (apply Z.div_pos; lia).
  assert (q * Z.max size 1 <= rd_prealloc_budget r) as Hm by (rewrite Z.mul_comm; apply Z.mul_div_le; lia).
  assert (Z.min len q * size <= rd_prealloc_budget r) by nia.
  split; [|split; [lia|done]]. apply after_nil; cbn; try done; [nia|by destruct Hw].
Qed.

Lemma reads_budget {A} (m : ValkeyReader -> Read A) len size s a :
  0 <= len -> 0 <= size -> reads m s a ->
  reads (fun r => let '(r, _) := take_prealloc_budget r len size in m r) s a.
Proof.
  intros Hl Hs Hm r Hw. pose proof (take_prealloc_budget_spec r len size Hw Hl Hs) as H.
  destruct (take_prealloc_budget r len size) as [r1 cap]. destruct H as (A1 & _).
  destruct (Hm r1 (after_wf _ _ _ Hw A1)) as [H1 H2]. pose proof (af_rest _ _ _ A1) as R. cbn [app] in R. rewrite R. split; [|exact H2].
  intros u E. destruct (H1 u E) as (r2 & E2 & A2). exists r2. split; [done|exact (after_trans _ _ _ _ _ A1 A2)].
Qed.

Lemma safe_budget {A} (m : ValkeyReader -> Read A) len size G :
  0 <= len -> 0 <= size -> safe m G -> safe (fun r => let '(r, _) := take_prealloc_budget r len size in m r) G.
Proof.
  intros Hl Hs Hm r Hw. pose proof (take_prealloc_budget_spec r len size Hw Hl Hs) as H.
  destruct (take_prealloc_budget r len size) as [r1 cap]. destruct H as (A1 & _).
  destruct (Hm r1 (after_wf _ _ _ Hw A1)) as (r2 & x & E & Hx). exists r2, x. split; [done|].
  pose proof (af_buffer _ _ _ A1). pose proof (af_budget _ _ _ A1).
  destruct x; [destruct Hx as (? & ? & ?); split_and!; [done|congruence|lia|lia]|].
  destruct Hx as (s & A2 & Ha). exists s. split; [exact (after_trans _ _ _ _ _ A1 A2)|done].
Qed.

(** ** Values *)

Section Value.
Context {P : Platform}.

Lemma reply_nonempty d s (v : RESPValue P) : reply d s v -> s <> [].
Proof. by destruct 1. Qed.

(** The values of an aggregate, each with its bytes. *)
Definition reads_values (read : ValkeyReader -> Read (RESPValue P)) (s : bytes) (vs : list (RESPValue P)) : Prop :=
  exists ss, s = concat ss /\ Forall2 (fun s v => s <> [] /\ reads read s v) ss vs.

Lemma reads_values_list read s vs :
  reads_values read s vs -> reads (fun r => read_loop (loop_fuel r) read (Z.of_nat (length vs)) r) s vs.
Proof. intros (ss & -> & H). by apply reads_loop_fuel. Qed.

Lemma reads_values_app read s vs1 vs2 :
  reads_values read s (vs1 ++ vs2) -> exists s1 s2, s = s1 ++ s2 /\ reads_values read s1 vs1 /\ reads_values read s2 vs2.
Proof.
  intros (ss & -> & H). apply Forall2_app_inv_r in H as (ss1 & ss2 & H1 & H2 & ->).
  exists (concat ss1), (concat ss2). rewrite concat_app. split; [done|]. split; [by exists ss1|by exists ss2].
Qed.

Lemma reads_values_1 read s v : reads_values read s [v] -> reads read s v.
Proof. intros (ss & -> & H). inversion H as [|x ? ? ? [_ Hx] Hn]; subst. inversion Hn; subst. cbn. by rewrite app_nil_r. Qed.

Lemma reads_values_entries read s es :
  reads_values read s (flatten es) -> reads (fun r => read_loop (loop_fuel r) (read_entry read) (Z.of_nat (length es)) r) s es.
Proof.
  intros H. assert (exists ss, s = concat ss /\ Forall2 (fun s e => s <> [] /\ reads (read_entry read) s e) ss es) as (ss & -> & HF);
    [|by apply reads_loop_fuel].
  revert s H. induction es as [|[k v] es IH]; intros s (ss & -> & H).
  - inversion H; subst. by exists [].
  - cbn in H. inversion H as [|sk ? ss1 ? [Hk Hk'] H1]; subst. inversion H1 as [|sv ? ss2 ? [Hv Hv'] H2]; subst.
    destruct (IH (concat ss2)) as (ss' & E' & HF); [by exists ss2|].
    exists ((sk ++ sv) :: ss'). cbn. rewrite E', app_assoc. split; [done|]. constructor; [|done].
    split; [intros E; by apply app_eq_nil in E as []|]. unfold read_entry.
    eapply reads_bind; [done|]. rewrite <- (app_nil_r sv). eapply reads_bind; [done|]. apply reads_ok.
Qed.

(** Opens the reader at a type byte that is known. *)
Ltac at_byte c s :=
  cbn [read_value_with_depth]; change (c :: s) with ([c] ++ s);
  apply (reads_bind read_byte _ [c] s c); [apply reads_byte|];
  let t := eval vm_compute in (from_byte c) in change (from_byte c) with t; cbv iota beta.

(** The last step of a value: what was read is wrapped. *)
Lemma reads_wrap {A B} (m : ValkeyReader -> Read A) (k : A -> ValkeyReader -> Read B) s a b :
  reads m s a -> (forall r, k a r = ok r b) -> reads (fun r => rbind (m r) k) s b.
Proof.
  intros Hm Hk. rewrite <- (app_nil_r s). eapply reads_bind; [done|]. intros r Hw. rewrite Hk. by apply reads_ok.
Qed.

Lemma reads_header d n h : (d < MAX_NESTING_DEPTH)%nat -> is_int_line n h -> reads (read_header d) h n.
Proof.
  intros Hd Hh r Hw. unfold read_header. destruct (Nat.leb_spec MAX_NESTING_DEPTH d); [lia|]. by apply reads_int.
Qed.

Lemma ltb_of_nat n : (Z.of_nat n <? 0) = false.
Proof. apply Z.ltb_ge. lia. Qed.

Lemma reads_blob {B} p s e k (b : B) :
  is_blob p s -> (forall r, k p r = ok r b) ->
  reads (fun r => let? len / r := read_integer r in
    if (len <? 0) || (MAX_BULK_LEN <? len) then err r e else let? str / r := read_payload r len e in k str r) s b.
Proof.
  intros [s' Hs Hl] Hk. eapply reads_bind; [by apply reads_int|]. cbv beta. rewrite ltb_of_nat.
  destruct (Z.ltb_spec MAX_BULK_LEN (Z.of_nat (length p))); [lia|]. cbn [orb]. eapply reads_wrap; [apply reads_payload|done].
Qed.

Lemma reads_reply_mutual :
  (forall d s (v : RESPValue P), reply d s v -> forall fuel, (d <= MAX_NESTING_DEPTH)%nat -> (MAX_NESTING_DEPTH < fuel + d)%nat ->
     reads (read_value_with_depth fuel d) s v) /\
  (forall d s (vs : list (RESPValue P)), replies d s vs -> forall fuel, (d <= MAX_NESTING_DEPTH)%nat -> (MAX_NESTING_DEPTH < fuel + d)%nat ->
     reads_values (read_value_with_depth fuel d) s vs).
Proof.
  apply reply_replies_ind.
  - intros d l s Hl [|fuel] Hd Hf; [lia|]. at_byte 43 s. by eapply reads_wrap; [apply reads_line|].
  - intros d l s Hl [|fuel] Hd Hf; [lia|]. at_byte 45 s. by eapply reads_wrap; [apply reads_line|].
  - intros d n s Hn [|fuel] Hd Hf; [lia|]. at_byte 58 s. by eapply reads_wrap; [apply reads_int|].
  - intros d p s [s' Hs Hl] [|fuel] Hd Hf; [lia|]. at_byte 36 (s' ++ p ++ [CR; LF]). eapply reads_bind; [by apply reads_int|].
    cbv beta. rewrite ltb_of_nat. destruct (Z.ltb_spec MAX_BULK_LEN (Z.of_nat (length p))); [lia|].
    by eapply reads_wrap; [apply reads_payload|].
  - intros d n s Hn Hneg [|fuel] Hd Hf; [lia|]. at_byte 36 s. eapply reads_wrap; [by apply reads_int|].
    intros r. cbv beta. by destruct (Z.ltb_spec n 0); [|cbn in *; lia].
  - intros d s Hl [|fuel] Hd Hf; [lia|]. at_byte 95 s. by eapply reads_wrap; [apply reads_line|].
  - intros d l x s Hl Hx [|fuel] Hd Hf; [lia|]. at_byte 44 s. eapply reads_wrap; [|done]. unfold read_double.
    eapply reads_wrap; [by apply reads_line|]. intros r. cbv beta. by rewrite Hx.
  - intros d s Hl [|fuel] Hd Hf; [lia|]. at_byte 35 s. eapply reads_wrap; [|done]. by eapply reads_wrap; [apply reads_line|].
  - intros d s Hl [|fuel] Hd Hf; [lia|]. at_byte 35 s. eapply reads_wrap; [|done]. by eapply reads_wrap; [apply reads_line|].
  - intros d p s Hb [|fuel] Hd Hf; [lia|]. at_byte 33 s. by eapply reads_blob.
  - intros d f c s Hlen Hb [|fuel] Hd Hf; [lia|]. at_byte 61 s. eapply reads_wrap; [|done]. unfold read_verbatim_string.
    eapply reads_blob; [done|]. intros r. destruct f as [|f0 [|f1 [|f2 [|]]]]; done.
  - intros d l s Hl [|fuel] Hd Hf; [lia|]. at_byte 40 s. by eapply reads_wrap; [apply reads_line|].
  - intros d vs h s Hd Hh _ IH [|fuel] Hd' Hf; [lia|]. at_byte 42 (h ++ s). eapply reads_bind; [by apply reads_header|].
    cbv beta. rewrite ltb_of_nat. eapply (reads_budget (fun r => rbind _ _)); [lia|apply size_of_RESPValue_pos|].
    eapply reads_wrap; [|done]. apply reads_values_list, IH; lia.
  - intros d n h Hd Hh Hn [|fuel] Hd' Hf; [lia|]. at_byte 42 h. eapply reads_wrap; [by apply reads_header|].
    intros r. cbv beta. by destruct (Z.ltb_spec n 0); [|cbn in *; lia].
  - intros d vs h s Hd Hh _ IH [|fuel] Hd' Hf; [lia|]. at_byte 126 (h ++ s). eapply reads_bind; [by apply reads_header|].
    cbv beta. rewrite ltb_of_nat. eapply (reads_budget (fun r => rbind _ _)); [lia|apply size_of_RESPValue_pos|].
    eapply reads_wrap; [|done]. apply reads_values_list, IH; lia.
  - intros d es h s Hd Hh _ IH [|fuel] Hd' Hf; [lia|]. at_byte 37 (h ++ s). eapply reads_bind; [by apply reads_header|].
    cbv beta. rewrite ltb_of_nat. eapply (reads_budget (fun r => rbind _ _)); [lia|apply size_of_MapEntry_pos|].
    eapply reads_wrap; [|done]. apply reads_values_entries, IH; lia.
  - intros d es v h s Hd Hh _ IH [|fuel] Hd' Hf; [lia|]. at_byte 124 (h ++ s). eapply reads_bind; [by apply reads_header|].
    cbv beta. rewrite ltb_of_nat. eapply (reads_budget (fun r => rbind _ _)); [lia|apply size_of_MapEntry_pos|].
    destruct (reads_values_app _ _ _ _ (IH fuel ltac:(lia) ltac:(lia))) as (s1 & s2 & -> & H1 & H2).
    eapply reads_bind; [by apply reads_values_entries|]. cbv beta. eapply reads_wrap; [by apply reads_values_1|done].
  - intros d k kind vs h s Hd Hh Hk _ IH [|fuel] Hd' Hf; [lia|]. at_byte 62 (h ++ s). eapply reads_bind; [by apply reads_header|].
    cbv beta. destruct (Z.leb_spec (Z.of_nat (S (length vs))) 0); [lia|].
    destruct (reads_values_app _ _ [k] vs (IH fuel ltac:(lia) ltac:(lia))) as (s1 & s2 & -> & H1 & H2).
    eapply reads_bind; [by apply reads_values_1|]. cbv beta. rewrite Hk.
    replace (Z.of_nat (S (length vs)) - 1) with (Z.of_nat (length vs)) by lia.
    eapply (reads_budget (fun r => rbind _ _)); [lia|apply size_of_RESPValue_pos|].
    eapply reads_wrap; [|done]. by apply reads_values_list.
  - intros d fuel _ _. by exists [].
  - intros d s t v vs Hv IHv _ IH fuel Hd Hf. destruct (IH fuel Hd Hf) as (ss & -> & HF). exists (s :: ss).
    split; [done|]. constructor; [|done]. split; [by eapply reply_nonempty|by apply IHv].
Qed.

(** *** What the reader accepts is in the grammar *)

Lemma from_byte_Some c ty : from_byte c = Some ty -> c = type_byte ty.
Proof.
  unfold from_byte. repeat (case_if; [bool_facts; by intros [= <-]|]). done.
Qed.

Lemma elements_replies d s vs : elements (fun s v => reply d s v) s vs -> replies d s (vs : list (RESPValue P)).
Proof. induction 1; by constructor. Qed.

Lemma replies_app d s t (vs ws : list (RESPValue P)) : replies d s vs -> replies d t ws -> replies d (s ++ t) (vs ++ ws).
Proof. induction vs as [|v vs IH] in s |- *; inversion 1; subst; intros Ht; [done|]. cbn. rewrite <- app_assoc. constructor; auto. Qed.

Lemma replies_1 d s (v : RESPValue P) : reply d s v -> replies d s [v].
Proof. intros H. rewrite <- (app_nil_r s). constructor; [done|constructor]. Qed.

Definition is_entry (d : nat) (s : bytes) (e : MapEntry P) : Prop :=
  match e with mkEntry k v => replies d s [k; v] end.

Lemma elements_entries d s es : elements (is_entry d) s es -> replies d s (flatten es).
Proof.
  induction 1 as [|s t [k v] es He _ IH]; [constructor|]. cbn. change (k :: v :: concat _) with ([k; v] ++ flatten es).
  by apply replies_app.
Qed.

Lemma is_entry_nonempty d s e : is_entry d s e -> s <> [].
Proof.
  destruct e as [k v]. cbn. inversion 1 as [|? s1 t1 ? ? Hk]; subst. apply reply_nonempty in Hk. by destruct s1.
Qed.

Lemma safe_entry read d : safe read (fun s v => reply d s v) -> safe (read_entry read) (is_entry d).
Proof.
  intros Hr. eapply safe_bind; [exact Hr|]. intros s1 k Hk. eapply safe_bind; [exact Hr|]. intros s2 v Hv. apply safe_ok.
  rewrite app_nil_r. cbn. apply (replies_app d s1 s2 [k] [v]); by apply replies_1.
Qed.

Lemma safe_header d : safe (read_header d) (fun s n => (d < MAX_NESTING_DEPTH)%nat /\ is_int_line n s).
Proof.
  unfold read_header. destruct (Nat.leb_spec MAX_NESTING_DEPTH d); [apply safe_err|].
  eapply safe_weaken; [apply safe_int|]. done.
Qed.

Lemma safe_wrap {A B} (m : ValkeyReader -> Read A) (k : A -> ValkeyReader -> Read B) G H :
  safe m G -> (forall s a, G s a -> (exists e, forall r, k a r = err r e) \/ exists b, (forall r, k a r = ok r b) /\ H s b) ->
  safe (fun r => rbind (m r) k) H.
Proof.
  intros Hm Hk. eapply safe_bind; [exact Hm|]. intros s a Ha. destruct (Hk s a Ha) as [(e & He)|(b & Hb & HH)]; intros r Hw.
  - rewrite He. by apply (safe_err e (fun s2 b => H (s ++ s2) b)).
  - rewrite Hb. apply (safe_ok b (fun s2 b => H (s ++ s2) b)); [by rewrite app_nil_r|done].
Qed.

Lemma safe_blob {B} e k (H : bytes -> B -> Prop) :
  (forall p s, is_blob p s -> (exists e, forall r, k p r = err r e) \/ exists b, (forall r, k p r = ok r b) /\ H s b) ->
  safe (fun r => let? len / r := read_integer r in
    if (len <? 0) || (MAX_BULK_LEN <? len) then err r e else let? str / r := read_payload r len e in k str r) H.
Proof.
  intros Hk. eapply safe_bind; [apply safe_int|]. intros s1 n Hn. cbv beta. destruct (_ || _) eqn:E; [apply safe_err|].
  bool_facts. eapply safe_wrap; [apply (safe_payload n); lia|]. intros s p [Hp ->]. subst n. apply Hk. by constructor.
Qed.

Lemma safe_value fuel d :
  (d <= MAX_NESTING_DEPTH)%nat -> (MAX_NESTING_DEPTH < fuel + d)%nat ->
  safe (read_value_with_depth fuel d) (fun s (v : RESPValue P) => reply d s v).
Proof.
  revert d. induction fuel as [|fuel IH]; intros d Hd Hf; [lia|]. cbn [read_value_with_depth].
  eapply safe_bind; [apply safe_byte|]. intros s0 c ->. cbv beta.
  destruct (from_byte c) as [ty|] eqn:Ety; [|apply safe_err]. apply from_byte_Some in Ety as ->.
  assert ((d < MAX_NESTING_DEPTH)%nat -> safe (read_value_with_depth fuel (S d)) (fun s (v : RESPValue P) => reply (S d) s v)) as Hrec
    by (intros; apply IH; lia).
  assert (forall s (v : RESPValue P), reply (S d) s v -> s <> []) as Hne by (intros ? ?; apply reply_nonempty).
  destruct ty; cbn [type_byte app].
  - eapply safe_wrap; [apply safe_line|]. intros s l Hl. right. eexists. split; [done|by constructor].
  - eapply safe_wrap; [apply safe_line|]. intros s l Hl. right. eexists. split; [done|by constructor].
  - eapply safe_wrap; [apply safe_int|]. intros s l Hl. right. eexists. split; [done|by constructor].
  - eapply safe_bind; [apply safe_int|]. intros s1 n Hn. cbv beta. destruct (Z.ltb_spec n 0).
    { apply safe_ok. rewrite app_nil_r. by apply (reply_null_bulk d n). }
    destruct (Z.ltb_spec MAX_BULK_LEN n); [apply safe_err|]. eapply safe_wrap; [by apply (safe_payload n)|].
    intros s p [Hp ->]. subst n. right. eexists. split; [done|]. constructor. by constructor.
  - eapply safe_bind; [apply safe_header|]. intros h n [Hd' Hh]. cbv beta. destruct (Z.ltb_spec n 0).
    { apply safe_ok. rewrite app_nil_r. by apply (reply_null_array d n). }
    eapply (safe_budget (fun r => rbind _ _)); [done|apply size_of_RESPValue_pos|].
    eapply safe_wrap; [apply safe_loop; [by apply Hrec|done]|]. intros s l [Hl Hn]. right. eexists. split; [done|].
    constructor; [done|by replace (Z.of_nat (length l)) with n by lia|by apply elements_replies].
  - eapply safe_wrap; [apply safe_line|]. intros s [|? l] Hl; [|left; by eexists]. right. eexists. split; [done|by constructor].
  - eapply safe_wrap; [|intros s x Hx; right; eexists; split; [done|exact Hx]]. unfold read_double.
    eapply safe_wrap; [apply safe_line|]. intros s l Hl. cbv beta. destruct (double_of_line l) eqn:E; [right|left; by eexists].
    eexists. split; [done|]. by apply (reply_double d l).
  - eapply safe_wrap; [|intros s x Hx; right; eexists; split; [done|exact Hx]]. unfold read_boolean.
    eapply safe_wrap; [apply safe_line|]. intros s [|c [|? ?]] Hl; cbv beta iota; [left; by eexists| |left; by eexists].
    destruct (Z.eqb_spec c 116) as [->|]; [right; eexists; split; [done|by constructor]|].
    destruct (Z.eqb_spec c 102) as [->|]; [right; eexists; split; [done|by constructor]|left; by eexists].
  - eapply safe_blob. intros p s Hb. right. eexists. split; [done|by constructor].
  - eapply safe_wrap; [|intros s x Hx; right; eexists; split; [done|exact Hx]]. unfold read_verbatim_string.
    eapply safe_blob. intros p s Hb. destruct p as [|f0 [|f1 [|f2 [|c p]]]]; cbn [lookup list_lookup]; try (left; by eexists).
    destruct (Z.eqb_spec c 58) as [->|]; [|left; by eexists]. right. eexists. split; [done|]. cbn.
    by apply (reply_verbatim d [f0; f1; f2] p s).
  - eapply safe_bind; [apply safe_header|]. intros h n [Hd' Hh]. cbv beta. destruct (Z.ltb_spec n 0); [apply safe_err|].
    eapply (safe_budget (fun r => rbind _ _)); [done|apply size_of_MapEntry_pos|].
    eapply safe_wrap; [apply safe_loop; [by apply safe_entry, Hrec|apply is_entry_nonempty]|]. intros s l [Hl Hn]. right. eexists. split; [done|].
    constructor; [done|by replace (Z.of_nat (length l)) with n by lia|by apply elements_entries].
  - eapply safe_bind; [apply safe_header|]. intros h n [Hd' Hh]. cbv beta. destruct (Z.ltb_spec n 0); [apply safe_err|].
    eapply (safe_budget (fun r => rbind _ _)); [done|apply size_of_RESPValue_pos|].
    eapply safe_wrap; [apply safe_loop; [by apply Hrec|done]|]. intros s l [Hl Hn]. right. eexists. split; [done|].
    constructor; [done|by replace (Z.of_nat (length l)) with n by lia|by apply elements_replies].
  - eapply safe_bind; [apply safe_header|]. intros h n [Hd' Hh]. cbv beta. destruct (Z.ltb_spec n 0); [apply safe_err|].
    eapply (safe_budget (fun r => rbind _ _)); [done|apply size_of_MapEntry_pos|].
    eapply safe_bind; [apply safe_loop; [by apply safe_entry, Hrec|apply is_entry_nonempty]|]. intros s1 l [Hl Hn]. cbv beta.
    eapply safe_wrap; [by apply Hrec|]. intros s2 v Hv. right. eexists. split; [done|].
    constructor; [done|by replace (Z.of_nat (length l)) with n by lia|]. apply replies_app; [by apply elements_entries|by apply replies_1].
  - eapply safe_bind; [apply safe_header|]. intros h n [Hd' Hh]. cbv beta. destruct (Z.leb_spec n 0); [apply safe_err|].
    eapply safe_bind; [by apply Hrec|]. intros s1 k Hk. cbv beta. destruct (push_kind k) as [kind|] eqn:Ek; [|apply safe_err].
    eapply (safe_budget (fun r => rbind _ _)); [lia|apply size_of_RESPValue_pos|].
    eapply safe_wrap; [apply safe_loop; [by apply Hrec|done]|]. intros s2 l [Hl Hn]. right. eexists. split; [done|].
    apply (reply_push d k kind l); [done| |done|].
    + by replace (Z.of_nat (S (length l))) with n by lia.
    + apply (replies_app (S d) s1 s2 [k] l); [by apply replies_1|by apply elements_replies].
  - eapply safe_wrap; [apply safe_line|]. intros s l Hl. right. eexists. split; [done|by constructor].
Qed.

(** *** The head of a value, as the scanner sees it *)

Definition children_ok (c : option Z) (vs : list (RESPValue P)) : Prop :=
  match c with None => vs = [] | Some n => n = Z.of_nat (length vs) end.

Lemma parse_int_range lo hi l n : parse_int lo hi l 10 = inr n -> lo <= n <= hi.
Proof.
  unfold parse_int. destruct l as [|c l]; [done|]. destruct (if c =? 43 then _ else _) as [neg rest'].
  destruct (auto_radix rest' 10) as [ds rx]. destruct (parse_with_sign ds rx) as [|acc]; [done|].
  destruct neg; repeat case_if; try done; intros [= <-]; bool_facts; lia.
Qed.

Lemma is_int_line_range n s : is_int_line n s -> n <= i64_MAX.
Proof. intros [l s' _ H]. apply parse_int_range in H. lia. Qed.

Lemma length_flatten (es : list (MapEntry P)) : Z.of_nat (length (flatten es)) = Z.of_nat (length es) * 2.
Proof. induction es as [|[k v] es IH]; [done|]. change (flatten (mkEntry k v :: es)) with (k :: v :: flatten es). cbn [length]. lia. Qed.

Ltac scan_byte c s :=
  unfold scan_one; change (c :: s) with ([c] ++ s);
  apply (reads_bind read_byte _ [c] s c); [apply reads_byte|];
  let t := eval vm_compute in (from_byte c) in change (from_byte c) with t; cbv iota beta.

Lemma lookup_rest_add r i : r.(rd_buffer) !! (r.(rd_pos) + i)%nat = rest r !! i.
Proof. unfold rest. by rewrite lookup_drop. Qed.

Lemma scans_blob ty p s :
  is_blob p s -> reads (scan_blob ty) s None.
Proof.
  intros [s' Hs Hl]. unfold scan_blob. eapply reads_bind; [by apply reads_int|]. cbv beta. rewrite ltb_of_nat.
  destruct (Z.ltb_spec MAX_BULK_LEN (Z.of_nat (length p))); [lia|]. intros r Hw. pose proof (wf_pos _ Hw).
  destruct (Nat.ltb_spec (length (rd_buffer r)) (rd_pos r)); [lia|]. rewrite <- length_rest by done. rewrite Nat2Z.id.
  replace (S (rd_pos r + length p)) with (rd_pos r + S (length p))%nat by lia. rewrite !lookup_rest_add. split.
  - intros u E. rewrite E, !length_app. cbn [length].
    destruct (Z.ltb_spec (Z.of_nat (length p + 2 + length u)) (Z.of_nat (length p) + 2)); [lia|].
    rewrite <- app_assoc, (lookup_app_r p _ (length p)), (lookup_app_r p _ (S (length p))) by lia. rewrite Nat.sub_diag, Nat.sub_succ_l, Nat.sub_diag by lia. cbn.
    eexists. split; [done|]. unfold set_pos. rewrite (wf_skip _ Hw).
    replace (length p + 2)%nat with (length (p ++ [CR; LF])) by (rewrite length_app; done).
    apply (after_intro r _ u); [done|done|]. destruct Hw. lia.
  - intros (u & Hu & E). assert (length (p ++ [CR; LF]) = length (rest r) + length u)%nat as H2 by (by rewrite E, length_app).
    rewrite length_app in H2. cbn in H2. destruct u; [done|]. cbn in H2.
    destruct (Z.ltb_spec (Z.of_nat (length (rest r))) (Z.of_nat (length p) + 2)); [by eexists|lia].
Qed.

Lemma reply_head d s (v : RESPValue P) :
  reply d s v ->
  exists h t vs c, s = h ++ t /\ h <> [] /\ replies (S d) t vs /\ children_ok c vs /\ reads (fun r => scan_one r d) h c.
Proof.
  assert (forall h c, h <> [] -> children_ok c [] -> reads (fun r => scan_one r d) h c ->
    exists h0 t vs c, h = h0 ++ t /\ h0 <> [] /\ replies (S d) t vs /\ children_ok c vs /\ reads (fun r => scan_one r d) h0 c) as Hleaf.
  { intros h c H1 H2 H3. exists h, [], [], c. rewrite app_nil_r. split_and!; [done|done|constructor|done|done]. }
  assert (forall b h t vs n k, replies (S d) t vs -> (d < MAX_NESTING_DEPTH)%nat -> is_int_line n h ->
    reads (fun r => scan_one r d) (b :: h) (Some k) -> k = Z.of_nat (length vs) ->
    exists h0 t0 vs c, b :: h ++ t = h0 ++ t0 /\ h0 <> [] /\ replies (S d) t0 vs /\ children_ok c vs /\ reads (fun r => scan_one r d) h0 c) as Hagg.
  { intros b h t vs n k H1 H2 H3 H4 H5. exists (b :: h), t, vs, (Some k). by split_and!. }
  destruct 1 as [d l s Hl|d l s Hl|d n s Hn|d p s Hb|d n s Hn Hneg|d s Hl|d l x s Hl Hx|d s Hl|d s Hl|d p s Hb|d f c s Hf Hb|d l s Hl
    |d vs h s Hd Hh Hv|d n h Hd Hh Hneg|d vs h s Hd Hh Hv|d es h s Hd Hh Hv|d es v h s Hd Hh Hv|d k kind vs h s Hd Hh Hk Hv].
  - apply (Hleaf _ None); [done|done|]. scan_byte 43 s. by eapply reads_wrap; [apply reads_line|].
  - apply (Hleaf _ None); [done|done|]. scan_byte 45 s. by eapply reads_wrap; [apply reads_line|].
  - apply (Hleaf _ None); [done|done|]. destruct Hn as [l s Hl _]. scan_byte 58 s. by eapply reads_wrap; [apply reads_line|].
  - apply (Hleaf _ None); [done|done|]. scan_byte 36 s. by apply (scans_blob _ p).
  - apply (Hleaf _ None); [done|done|]. scan_byte 36 s. unfold scan_blob. eapply reads_wrap; [by apply reads_int|].
    intros r. cbv beta. by destruct (Z.ltb_spec n 0); [|cbn in *; lia].
  - apply (Hleaf _ None); [done|done|]. scan_byte 95 s. by eapply reads_wrap; [apply reads_line|].
  - apply (Hleaf _ None); [done|done|]. scan_byte 44 s. by eapply reads_wrap; [apply reads_line|].
  - apply (Hleaf _ None); [done|done|]. scan_byte 35 s. by eapply reads_wrap; [apply reads_line|].
  - apply (Hleaf _ None); [done|done|]. scan_byte 35 s. by eapply reads_wrap; [apply reads_line|].
  - apply (Hleaf _ None); [done|done|]. scan_byte 33 s. by apply (scans_blob _ p).
  - apply (Hleaf _ None); [done|done|]. scan_byte 61 s. by eapply scans_blob.
  - apply (Hleaf _ None); [done|done|]. scan_byte 40 s. by eapply reads_wrap; [apply reads_line|].
  - eapply (Hagg _ _ _ _ _ (Z.of_nat (length vs))); [done|done|done| |done]. scan_byte 42 h. eapply reads_wrap; [by apply reads_header|].
    intros r. cbv beta. by rewrite ltb_of_nat.
  - apply (Hleaf _ (Some 0)); [done|done|]. scan_byte 42 h. eapply reads_wrap; [by apply reads_header|].
    intros r. cbv beta. by destruct (Z.ltb_spec n 0); [|cbn in *; lia].
  - eapply (Hagg _ _ _ _ _ (Z.of_nat (length vs))); [done|done|done| |done]. scan_byte 126 h. eapply reads_wrap; [by apply reads_header|].
    intros r. cbv beta. by rewrite ltb_of_nat.
  - pose proof (is_int_line_range _ _ Hh).
    eapply (Hagg _ _ _ _ _ (Z.of_nat (length (flatten es)))); [done|done|done| |done]. scan_byte 37 h. eapply reads_wrap; [by apply reads_header|].
    intros r. cbv beta. rewrite ltb_of_nat, length_flatten. unfold saturating_mul_u64. rewrite Z.min_l; [done|]. unfold i64_MAX, u64_MAX in *. lia.
  - pose proof (is_int_line_range _ _ Hh).
    eapply (Hagg _ _ _ _ _ (Z.of_nat (length (flatten es ++ [v])))); [done|done|done| |done]. scan_byte 124 h. eapply reads_wrap; [by apply reads_header|].
    intros r. cbv beta. rewrite ltb_of_nat, length_app, Nat2Z.inj_add, length_flatten. unfold saturating_mul_u64, saturating_add_u64.
    rewrite !Z.min_l; [done|unfold i64_MAX, u64_MAX in *; lia..].
  - eapply (Hagg _ _ _ _ _ (Z.of_nat (S (length vs)))); [done|done|done| |done]. scan_byte 62 h. eapply reads_wrap; [by apply reads_header|].
    intros r. cbv beta. by destruct (Z.leb_spec (Z.of_nat (S (length vs))) 0); [lia|].
Qed.
End Value.

(** ** The reader and the grammar *)

(** Doubles as integers, read by nothing: enough to run the reader on the
    other types. *)
#[local] Instance integer_platform : Platform := {|
  F64 := Z; f64_INFINITY := 1; f64_NEG_INFINITY := -1; f64_NAN := 0;
  WTF__parseDouble := fun _ => (0, 0%nat);
  strncasecmp := fun _ _ _ => 1;
  size_of_RESPValue := 32; size_of_MapEntry := 64;
  size_of_RESPValue_pos := ltac:(done); size_of_MapEntry_pos := ltac:(done);
|}.

Lemma wf_init b : wf (set_budget (reader_init b) (Z.of_nat (length b - 0))).
Proof. split; cbn; lia. Qed.

Lemma read_value_init {P : Platform} b :
  read_value (reader_init b) = read_value_with_depth (S MAX_NESTING_DEPTH) 0 (set_budget (reader_init b) (Z.of_nat (length b - 0))).
Proof. done. Qed.

Lemma reads_reply {P : Platform} s (v : RESPValue P) : reply 0 s v -> reads (read_value_with_depth (S MAX_NESTING_DEPTH) 0) s v.
Proof. intros H. apply (proj1 reads_reply_mutual); [done|lia|lia]. Qed.

Lemma read_value_reply {P : Platform} s (v : RESPValue P) u :
  reply 0 s v -> exists r, read_value (reader_init (s ++ u)) = Done (r, inr v) /\ rd_pos r = length s.
Proof.
  intros H. rewrite read_value_init. destruct (reads_reply s v H _ (wf_init (s ++ u))) as [H1 _].
  destruct (H1 u) as (r & E & A); [done|]. exists r. split; [done|]. apply (af_pos _ _ _ A).
Qed.

Lemma read_value_prefix {P : Platform} b s (v : RESPValue P) :
  reply 0 s v -> strict_prefix b s -> exists r, read_value (reader_init b) = Done (r, inl InvalidResponse).
Proof.
  intros H Hp. rewrite read_value_init. destruct (reads_reply s v H _ (wf_init b)) as [_ H2]. by apply H2.
Qed.

Lemma read_value_sound {P : Platform} b r (v : RESPValue P) :
  read_value (reader_init b) = Done (r, inr v) -> (rd_pos r <= length b)%nat /\ reply 0 (take (rd_pos r) b) v.
Proof.
  rewrite read_value_init. intros E.
  destruct (safe_value (S MAX_NESTING_DEPTH) 0 ltac:(lia) ltac:(lia) _ (wf_init b)) as (r' & x & E' & Hx).
  rewrite E in E'. injection E' as <- <-. destruct Hx as (s & A & Hs).
  pose proof (af_pos _ _ _ A) as Hp. pose proof (af_rest _ _ _ A) as Hr. cbn in Hp. change (b = s ++ rest r) in Hr.
  rewrite Hp. rewrite Hr. split; [rewrite length_app; lia|]. by rewrite take_app_length.
Qed.

(** ** RESP and what the reader takes *)

Lemma parse_with_sign_digits ds : ds <> [] -> all_digits ds -> dec_value ds 0 < two128 -> parse_with_sign ds 10 = inr (dec_value ds 0).
Proof.
  intros Hne Hd Hv. unfold parse_with_sign. destruct ds as [|c ds]; [done|].
  assert (forall x, In x (c :: ds) -> (x =? 95) = false) as Hx.
  { intros x Hx. rewrite List.Forall_forall in Hd. specialize (Hd x Hx). apply is_ascii_digit_iff in Hd. apply Z.eqb_neq. lia. }
  rewrite (Hx c) by by left. assert (In (List.last (c :: ds) 0) (c :: ds)) as Hl.
  { destruct (exists_last Hne) as (l' & x & E). rewrite E, List.last_last. apply in_or_app. right. by left. }
  rewrite (Hx _ Hl). cbn [orb]. rewrite parse_digits_spec by (done || unfold two128; lia). by rewrite (proj2 (Z.ltb_lt _ _) Hv).
Qed.

Lemma dec_value_nonneg l acc : all_digits l -> 0 <= acc -> 0 <= dec_value l acc.
Proof.
  intros H. revert acc. induction H as [|c l Hc _ IH]; intros acc Ha; [done|].
  apply IH. apply is_ascii_digit_iff in Hc. lia.
Qed.

(** Integers of RESP are read. *)
Lemma resp_int_parses l n : resp_int l n -> parse_int i64_MIN i64_MAX l 10 = inr n.
Proof.
  intros (ds & Hne & Hd & Hr & Hl). pose proof (dec_value_nonneg ds 0 Hd ltac:(lia)) as H0.
  assert (parse_with_sign ds 10 = inr (dec_value ds 0)) as Hp.
  { apply parse_with_sign_digits; [done..|]. unfold i64_MIN, i64_MAX, two128 in *. lia. }
  destruct ds as [|c ds]; [done|]. pose proof (Forall_inv Hd) as Hc. cbn beta in Hc. apply is_ascii_digit_iff in Hc.
  unfold parse_int. destruct Hl as [[[->| ->] Hn]|[-> Hn]]; cbn [Z.eqb Pos.eqb].
  - destruct (Z.eqb_spec c 43); [lia|]. destruct (Z.eqb_spec c 45); [lia|]. cbn [auto_radix negb Z.eqb]. rewrite Hp, <- Hn.
    destruct (Z.leb_spec i64_MIN n), (Z.leb_spec n i64_MAX); [done|lia..].
  - cbn [auto_radix negb Z.eqb]. rewrite Hp, <- Hn. destruct (Z.leb_spec i64_MIN n), (Z.leb_spec n i64_MAX); [done|lia..].
  - cbn [auto_radix negb Z.eqb]. rewrite Hp. rewrite <- Hn.
    change (two128 / 2) with 170141183460469231731687303715884105728.
    rewrite (proj2 (Z.ltb_ge _ _)) by (unfold i64_MIN in *; lia).
    destruct (Z.leb_spec i64_MIN n), (Z.leb_spec n i64_MAX); [done|lia..].
Qed.

(** A text without underscores that is read as a number is digits. *)
Lemma parsed_int_resp l n : parse_int i64_MIN i64_MAX l 10 = inr n -> resp_int l n \/ In 95 l.
Proof.
  intros Hp. destruct (in_dec Z.eq_dec 95 l) as [|Hin]; [by right|left]. revert Hp. unfold parse_int.
  destruct l as [|c l]; [done|].
  set (q := if c =? 43 then (false, l) else if c =? 45 then (true, l) else (false, c :: l)).
  assert (Hq : q = (false, l) /\ c = 43 \/ q = (true, l) /\ c = 45 \/ q = (false, c :: l)).
  { unfold q. destruct (Z.eqb_spec c 43); [auto|]. destruct (Z.eqb_spec c 45); auto. }
  assert (Hds : forall ds, (forall x, In x ds -> In x (c :: l)) -> forall acc, parse_with_sign ds 10 = inr acc ->
    ds <> [] /\ all_digits ds /\ acc = dec_value ds 0).
  { intros ds Hsub acc. unfold parse_with_sign. destruct ds as [|d ds]; [done|]. destruct (_ || _); [done|]. intros Hp.
    assert (all_digits (d :: ds)) as Hd by (eapply parse_digits_only; [exact Hp|]; auto).
    rewrite parse_digits_spec in Hp by (done || unfold two128; lia). destruct (_ <? two128); [|done]. by injection Hp. }
  destruct Hq as [[-> ->]|[[-> ->]| ->]]; cbn [auto_radix negb Z.eqb];
    destruct (parse_with_sign _ 10) as [|acc] eqn:Ep; try done.
  - destruct (Hds l (fun x Hx => or_intror Hx) acc Ep) as (Hne & Hd & ->).
    destruct (_ && _) eqn:E; [|done]. bool_facts. intros [= <-]. exists l. split_and!; [done..|]. left. auto.
  - destruct (Hds l (fun x Hx => or_intror Hx) acc Ep) as (Hne & Hd & ->).
    destruct (_ <? _); [done|]. destruct (_ && _) eqn:E; [|done]. bool_facts. intros [= <-]. exists l. split_and!; [done..|]. right. auto.
  - destruct (Hds (c :: l) (fun x Hx => Hx) acc Ep) as (Hne & Hd & ->).
    destruct (_ && _) eqn:E; [|done]. bool_facts. intros [= <-]. exists (c :: l). split_and!; [done..|]. left. auto.
Qed.

(** Somewhere in [s] an integer is written with underscores, or a length other
    than -1 stands for a null. *)
Definition departs (s : bytes) : Prop :=
  exists a c h b n, s = a ++ c :: h ++ b /\ is_int_line n h /\ (In 95 h \/ (c = 36 \/ c = 42) /\ n < -1).

Lemma departs_in a s b : departs s -> departs (a ++ s ++ b).
Proof.
  intros (a' & c & h & b' & n & -> & H). exists (a ++ a'), c, h, (b' ++ b), n. split; [|done].
  by rewrite <- !app_assoc, <- app_comm_cons, <- !app_assoc.
Qed.

(** A line of an integer is one of RESP, or the text departs. *)
Lemma int_line_departs c n h : is_int_line n h -> int_line_in Resp n h \/ departs (c :: h).
Proof.
  intros Hn. destruct Hn as [l s Hl Hp]. destruct (parsed_int_resp l n Hp) as [Hr|Hin]; [left; by econstructor|right].
  exists [], c, s, [], n. rewrite app_nil_r. split_and!; [done|by econstructor|left]. destruct Hl. apply in_or_app. by left.
Qed.

Lemma int_line_loose n h : int_line_in Resp n h -> is_int_line n h.
Proof. intros [l s Hl Hr]. apply (int_line_intro n l); [done|]. by apply resp_int_parses. Qed.

Lemma blob_departs c p s : is_blob p s -> blob_in Resp p s \/ departs (c :: s).
Proof.
  intros [h Hh Hl]. destruct (int_line_departs c _ h Hh) as [Hr|Hd]; [left; by constructor|right].
  apply (departs_in [] (c :: h) (p ++ [CR; LF])) in Hd. exact Hd.
Qed.

Section Dialects.
Context {P : Platform}.

(** Replies of RESP are in the grammar of the reader. *)
Lemma resp_loose :
  (forall d s (v : RESPValue P), reply_in Resp d s v -> reply d s v) /\
  (forall d s (vs : list (RESPValue P)), replies_in Resp d s vs -> replies d s vs).
Proof.
  apply reply_replies_ind; intros; repeat match goal with
  | H : int_line_in Resp _ _ |- _ => apply int_line_loose in H
  | H : blob_in Resp _ _ |- _ => destruct H as [? H ?]
  end; try (by econstructor).
  - by apply (reply_null_bulk d n); [|cbn in *; lia].
  - by apply (reply_null_array d n); [| |cbn in *; lia].
Qed.

(** A reply that the reader takes is one of RESP, or departs from it. *)
Lemma loose_resp :
  (forall d s (v : RESPValue P), reply d s v -> reply_in Resp d s v \/ departs s) /\
  (forall d s (vs : list (RESPValue P)), replies d s vs -> replies_in Resp d s vs \/ departs s).
Proof.
  assert (Hhead : forall c h t, departs (c :: h) -> departs (c :: h ++ t)) by (intros c h t H; exact (departs_in [] _ t H)).
  assert (Htail : forall c h t, departs t -> departs (c :: h ++ t))
    by (intros c h t H; apply (departs_in (c :: h) t []) in H; rewrite app_nil_r in H; exact H).
  apply reply_replies_ind.
  all: try (intros; left; by econstructor).
  - intros d n s Hn. destruct (int_line_departs 58 n s Hn); [left; by constructor|by right].
  - intros d p s Hb. destruct (blob_departs 36 p s Hb); [left; by constructor|by right].
  - intros d n s Hn Hneg. destruct (int_line_departs 36 n s Hn); [|by right]. destruct (Z.eq_dec n (-1)) as [->|].
    + left. by apply (reply_null_bulk d (-1)).
    + right. exists [], 36, s, [], n. rewrite app_nil_r. split_and!; [done..|]. right. cbn in Hneg. lia.
  - intros d p s Hb. destruct (blob_departs 33 p s Hb); [left; by constructor|by right].
  - intros d f c s Hf Hb. destruct (blob_departs 61 _ s Hb); [left; by constructor|by right].
  - intros d vs h s Hd Hh _ [IH|IH]; [|right; by apply Htail].
    destruct (int_line_departs 42 _ h Hh); [left; by constructor|right; by apply Hhead].
  - intros d n h Hd Hh Hneg. destruct (int_line_departs 42 n h Hh); [|by right]. destruct (Z.eq_dec n (-1)) as [->|].
    + left. by apply (reply_null_array d (-1)).
    + right. exists [], 42, h, [], n. rewrite app_nil_r. split_and!; [done..|]. right. cbn in Hneg. lia.
  - intros d vs h s Hd Hh _ [IH|IH]; [|right; by apply Htail].
    destruct (int_line_departs 126 _ h Hh); [left; by constructor|right; by apply Hhead].
  - intros d es h s Hd Hh _ [IH|IH]; [|right; by apply Htail].
    destruct (int_line_departs 37 _ h Hh); [left; by constructor|right; by apply Hhead].
  - intros d es v h s Hd Hh _ [IH|IH]; [|right; by apply Htail].
    destruct (int_line_departs 124 _ h Hh); [left; by constructor|right; by apply Hhead].
  - intros d k kind vs h s Hd Hh Hk _ [IH|IH]; [|right; by apply Htail].
    destruct (int_line_departs 62 _ h Hh); [left; by apply (reply_push d k kind)|right; by apply Hhead].
  - intros d s t v vs _ [IH1|IH1] _ [IH2|IH2]; [left; by constructor|..].
    + right. apply (departs_in s t []) in IH2. by rewrite app_nil_r in IH2.
    + right. exact (departs_in [] s t IH1).
    + right. exact (departs_in [] s t IH1).
Qed.
End Dialects.


(** $-5 reads as a null, and :1_0 as ten. *)
Lemma loose_replies_read :
  (exists r, read_value (reader_init [36; 45; 53; 13; 10]) = Done (r, inr (BulkString None)) /\ rd_pos r = 5%nat) /\
  (exists r, read_value (reader_init [58; 49; 95; 48; 13; 10]) = Done (r, inr (Integer 10)) /\ rd_pos r = 6%nat).
Proof. split; eexists; (split; [vm_compute; reflexivity|reflexivity]). Qed.

(** From any offset of any buffer the reader returns: it does not panic
    or loop, however deep the nesting and however large the lengths the
    bytes declare. It ends inside the buffer, past at least one byte when it
    returns a value, and the memory it reserves ahead for aggregates, the
    decrease of its budget, is at most the bytes that were left. *)
Theorem read_value_bounds {P : Platform} (b : bytes) (pos : nat) (budget : Z) :
  (pos <= length b)%nat ->
  exists r (x : RedisError + RESPValue P), read_value (mkReader b pos budget 0) = Done (r, x) /\
    rd_buffer r = b /\ (rd_pos r <= length b)%nat /\
    0 <= rd_prealloc_budget r <= Z.of_nat (length b - pos) /\
    (forall v, x = inr v -> (pos < rd_pos r)%nat).
Proof.
  intros Hp. unfold read_value. cbn [rd_buffer rd_pos]. destruct (Nat.ltb_spec (length b) pos); [lia|].
  set (r0 := set_budget (mkReader b pos budget 0) (Z.of_nat (length b - pos))).
  assert (wf r0) as Hw by (split; cbn; lia).
  destruct (safe_value (S MAX_NESTING_DEPTH) 0 ltac:(lia) ltac:(lia) r0 Hw) as (r & x & E & Hx). exists r, x. split; [exact E|].
  clear E. destruct x as [e|v].
  - destruct Hx as ([H1 _ _] & H2 & H3). rewrite H2 in H1. cbn in H1, H2, H3. split_and!; done || lia.
  - destruct Hx as (s & A & Hs). pose proof (after_wf _ _ _ Hw A) as [H1 _ _]. pose proof (af_pos _ _ _ A) as H2.
    pose proof (af_budget _ _ _ A) as H3. pose proof (af_buffer _ _ _ A) as H4. rewrite H4 in H1. cbn in H1, H2, H3, H4.
    split_and!; [done|done|lia|lia|]. intros v' _. apply reply_nonempty in Hs. destruct s; [done|cbn in H2; lia].
Qed.

(** A header that declares [2^62] elements, of which one is there. *)
Lemma read_value_bounds_witness :
  let b := [42; 52; 54; 49; 49; 54; 56; 54; 48; 49; 56; 52; 50; 55; 51; 56; 55; 57; 48; 52; 13; 10; 43; 97; 13; 10] in
  exists r (x : RedisError + RESPValue integer_platform), read_value (mkReader b 0 0 0) = Done (r, x) /\
    rd_buffer r = b /\ (rd_pos r <= length b)%nat /\ 0 <= rd_prealloc_budget r <= Z.of_nat (length b - 0) /\
    (forall v, x = inr v -> (0 < rd_pos r)%nat).
Proof. intros b. apply (read_value_bounds b 0 0). cbn. lia. Defined.
