(* ===== verification/ValkeyScan.v ===== *)
(** * The reply scanner

    What [ReplyScanner] promises to the client: on a complete reply it stops
    where the reader will, on a part of one it asks for more, and scanning a
    buffer again after bytes were appended gives what scanning it at once
    gives. *)
From Stdlib Require Import ZArith Lia.
From stdpp Require Import base list numbers option.
From S2P Require Import Prelude Strings Valkey ValkeyTheorems.
#[local] Open Scope Z_scope.

Section Scan.
Context {P : Platform}.

(** The scanner after a value that ends at [pos]. *)
Definition finish (fuel : nat) (b : bytes) (pos : nat) (stack : list Z) : outcome (ReplyScanner * (RedisError + ScanResult)) :=
  match unwind stack with
  | [] => Done (mkScanner pos [] 0, inr Complete)
  | st => scan_loop fuel b (mkScanner pos st 0)
  end.

Lemma scan_step fuel b pos stack r c :
  scan_one (mkReader b pos 0 0) (length stack) = Done (r, inr c) ->
  scan_loop (S fuel) b (mkScanner pos stack 0) =
    match c with
    | Some n => if 0 <? n then scan_loop fuel b (mkScanner r.(rd_pos) (n :: stack) 0) else finish fuel b r.(rd_pos) stack
    | None => finish fuel b r.(rd_pos) stack
    end.
Proof. intros E. cbn [scan_loop rs_pos rs_stack rs_crlf_skip]. rewrite E. cbn [obind]. by destruct c. Qed.

Lemma scan_starved fuel b pos stack r :
  scan_one (mkReader b pos 0 0) (length stack) = Done (r, inl InvalidResponse) ->
  exists st, scan_loop (S fuel) b (mkScanner pos stack 0) = Done (st, inr NeedMoreData).
Proof. intros E. cbn [scan_loop rs_pos rs_stack rs_crlf_skip]. rewrite E. cbn [obind]. by eexists. Qed.

(** The scanner skips the value [s] at the depth [d]. *)
Definition skips (d : nat) (s : bytes) : Prop :=
  forall b pos stack, length stack = d -> (pos <= length b)%nat ->
    (forall u, drop pos b = s ++ u ->
       exists k, (k <= length s)%nat /\
         forall fuel, scan_loop (k + fuel) b (mkScanner pos stack 0) = finish fuel b (pos + length s) stack) /\
    (strict_prefix (drop pos b) s ->
       exists k, (k <= length b - pos)%nat /\
         forall fuel, exists st, scan_loop (S k + fuel) b (mkScanner pos stack 0) = Done (st, inr NeedMoreData)).

Lemma skips_children d s (vs : list (RESPValue P)) :
  replies (S d) s vs -> (forall s' v, reply (S d) s' (v : RESPValue P) -> (length s' <= length s)%nat -> skips (S d) s') ->
  forall b pos stack n, length stack = d -> (pos <= length b)%nat -> Z.of_nat (length vs) <= n -> 0 < n ->
    (forall u, drop pos b = s ++ u ->
       exists k, (k <= length s)%nat /\
         forall fuel, scan_loop (k + fuel) b (mkScanner pos (n :: stack) 0) =
           if n =? Z.of_nat (length vs) then finish fuel b (pos + length s) stack
           else scan_loop fuel b (mkScanner (pos + length s) (n - Z.of_nat (length vs) :: stack) 0)) /\
    (strict_prefix (drop pos b) s ->
       exists k, (k <= length b - pos)%nat /\
         forall fuel, exists st, scan_loop (S k + fuel) b (mkScanner pos (n :: stack) 0) = Done (st, inr NeedMoreData)).
Proof.
  remember (S d) as d' eqn:Ed. intros Hs. induction Hs as [d'|d' s t v vs Hv Hvs IH]; intros Hskip b pos stack n Hst Hpos Hn Hn0.
  - split.
    + intros u E. exists 0%nat. split; [done|]. intros fuel. cbn [length]. rewrite Z.sub_0_r, Nat.add_0_r.
      by destruct (Z.eqb_spec n (Z.of_nat 0)); [lia|].
    + intros (u & Hu & E). destruct (drop pos b); [cbn in E; congruence|done].
  - subst d'. destruct (Hskip s v Hv ltac:(rewrite length_app; lia) b pos (n :: stack)) as [Hv1 Hv2]; [cbn; lia|done|].
    pose proof (reply_nonempty _ _ _ Hv) as Hne.
    assert (forall s' v, reply (S d) s' (v : RESPValue P) -> (length s' <= length t)%nat -> skips (S d) s') as Hskip'
      by (intros s' v' H1 H2; eapply Hskip; [done|rewrite length_app; lia]).
    specialize (IH eq_refl Hskip' b (pos + length s)%nat stack (n - 1) Hst). cbn [length] in *.
    (* the first child, then the others *)
    assert (forall u, drop pos b = s ++ u -> (pos + length s <= length b)%nat /\ drop (pos + length s) b = u) as Hdrop.
    { intros u E. rewrite <- drop_drop, E, drop_app_length. split; [|done].
      assert (length (drop pos b) = length s + length u)%nat as H1 by (by rewrite E, length_app). rewrite length_drop in H1. lia. }
    assert (forall fuel, finish fuel b (pos + length s) (n :: stack) =
      if n =? 1 then finish fuel b (pos + length s) stack else scan_loop fuel b (mkScanner (pos + length s) (n - 1 :: stack) 0)) as Hfin.
    { intros fuel. unfold finish at 1. cbn [unwind].
      destruct (Z.ltb_spec 0 (n - 1)), (Z.eqb_spec n 1); try lia; done. }
    destruct (decide (n = 1)) as [->|Hn1].
    { (* the last child *)
      assert (vs = []) as -> by (destruct vs; [done|cbn in Hn; lia]). inversion Hvs; subst. rewrite app_nil_r. split.
      - intros u E. destruct (Hv1 u E) as (k & Hk & Hl). exists k. split; [done|]. intros fuel. by rewrite Hl, Hfin.
      - exact Hv2. }
    replace (n =? 1) with false in Hfin by (symmetry; by apply Z.eqb_neq). split.
    + intros u E. rewrite <- app_assoc in E. destruct (Hdrop _ E) as [Hp Hd]. destruct (Hv1 _ E) as (k & Hk & Hl).
      destruct (IH Hp ltac:(lia) ltac:(lia)) as [IH1 _]. destruct (IH1 u Hd) as (k2 & Hk2 & Hl2).
      exists (k + k2)%nat. rewrite length_app. split; [lia|]. intros fuel. rewrite <- Nat.add_assoc, Hl, Hfin, Hl2, Nat.add_assoc.
      replace (n - 1 - Z.of_nat (length vs)) with (n - Z.of_nat (S (length vs))) by lia.
      by destruct (Z.eqb_spec (n - 1) (Z.of_nat (length vs))), (Z.eqb_spec n (Z.of_nat (S (length vs)))); try lia.
    + intros [Hp|(t2 & E & Hp)]%strict_prefix_app; [by apply Hv2|].
      destruct (Hdrop _ E) as [Hp' Hd]. destruct (Hv1 _ E) as (k & Hk & Hl).
      destruct (IH Hp' ltac:(lia) ltac:(lia)) as [_ IH2]. destruct IH2 as (k2 & Hk2 & Hl2); [by rewrite Hd|].
      exists (k + k2)%nat. split; [lia|]. intros fuel. destruct (Hl2 fuel) as (st & Hst2). exists st.
      replace (S (k + k2) + fuel)%nat with (k + (S k2 + fuel))%nat by lia. by rewrite Hl, Hfin.
Qed.

Lemma scan_wf b pos : (pos <= length b)%nat -> wf (mkReader b pos 0 0).
Proof. by split. Qed.

Lemma skips_reply d s (v : RESPValue P) : reply d s v -> skips d s.
Proof.
  remember (length s) as n eqn:En. revert d s v En. induction n as [n IH] using lt_wf_ind. intros d s v -> Hv b pos stack Hst Hpos.
  destruct (reply_head d s v Hv) as (h & t & vs & c & -> & Hh & Hvs & Hc & Hr).
  destruct (Hr (mkReader b pos 0 0) (scan_wf _ _ Hpos)) as [Hr1 Hr2]. rewrite <- Hst in Hr1, Hr2.
  unfold rest in Hr1, Hr2. cbn [rd_pos rd_buffer] in Hr1, Hr2.
  assert (0 < length h)%nat as Hh0 by (destruct h; [done|cbn; lia]).
  (* the head *)
  assert (forall u, drop pos b = h ++ u -> (pos + length h <= length b)%nat /\ drop (pos + length h) b = u /\
    forall fuel, scan_loop (S fuel) b (mkScanner pos stack 0) =
      match vs with [] => finish fuel b (pos + length h) stack
      | _ => scan_loop fuel b (mkScanner (pos + length h) (Z.of_nat (length vs) :: stack) 0) end) as Hhead.
  { intros u E. destruct (Hr1 u E) as (r' & E1 & A1). pose proof (after_wf _ _ _ (scan_wf _ _ Hpos) A1) as W.
    pose proof (af_pos _ _ _ A1) as Hp. pose proof (af_buffer _ _ _ A1) as Hb. cbn in Hp, Hb. destruct W as [W _ _]. rewrite Hp, Hb in W.
    split; [done|]. split; [by rewrite <- drop_drop, E, drop_app_length|]. intros fuel. rewrite (scan_step _ _ _ _ _ _ E1), Hp.
    destruct c as [n|]; cbn in Hc; [|by subst vs]. subst n. destruct vs as [|v0 vs']; [done|].
    by destruct (Z.ltb_spec 0 (Z.of_nat (length (v0 :: vs')))); [|cbn in *; lia]. }
  destruct vs as [|v0 vs0].
  { (* a scalar or an empty aggregate *)
    inversion Hvs; subst. rewrite app_nil_r. split.
    - intros u E. destruct (Hhead _ E) as (_ & _ & Hl). exists 1%nat. split; [lia|]. intros fuel. apply Hl.
    - intros Hp. destruct (Hr2 Hp) as (r' & E1). exists 0%nat. split; [lia|]. intros fuel. by eapply scan_starved. }
  set (vs := v0 :: vs0) in *.
  assert (forall s' v, reply (S d) s' (v : RESPValue P) -> (length s' <= length t)%nat -> skips (S d) s') as Hskip.
  { intros s' v' H1 H2. eapply (IH (length s')); [rewrite length_app; lia|done|done]. }
  pose proof (skips_children d t vs Hvs Hskip b (pos + length h)%nat stack (Z.of_nat (length vs)) Hst) as Hch.
  split.
  - intros u E. rewrite <- app_assoc in E. destruct (Hhead _ E) as (Hp & Hd & Hl).
    destruct (Hch Hp ltac:(lia) ltac:(unfold vs; cbn; lia)) as [Hch1 _]. destruct (Hch1 u Hd) as (k & Hk & Hl2).
    exists (S k). rewrite length_app. split; [lia|]. intros fuel. cbn [Nat.add]. rewrite Hl.
    rewrite Hl2, Z.eqb_refl, Nat.add_assoc. done.
  - intros [Hp|(t2 & E & Hp)]%strict_prefix_app.
    + destruct (Hr2 Hp) as (r' & E1). exists 0%nat. split; [lia|]. intros fuel. by eapply scan_starved.
    + destruct (Hhead _ E) as (Hp' & Hd & Hl). destruct (Hch Hp' ltac:(lia) ltac:(unfold vs; cbn; lia)) as [_ Hch2].
      destruct Hch2 as (k & Hk & Hl2); [by rewrite Hd|]. exists (S k). split; [lia|]. intros fuel. change (S (S k) + fuel)%nat with (S (S k + fuel)). rewrite Hl. apply Hl2.
Qed.
End Scan.

(** ** Scanning ends *)

Lemma safe_scan_blob ty : safe (scan_blob ty) (fun s _ => s <> []).
Proof.
  unfold scan_blob. eapply safe_bind; [apply safe_int|]. intros s1 n [l s' Hl _]. cbv beta. pose proof (is_line_nonempty _ _ Hl) as Hne.
  assert (forall s2, s' ++ s2 <> []) as Hne2 by (intros s2 E; by apply app_eq_nil in E as []).
  destruct (Z.ltb_spec n 0); [case_decide; [by apply safe_ok|apply safe_err]|].
  destruct (Z.ltb_spec MAX_BULK_LEN n); [apply safe_err|]. intros r Hw. pose proof (wf_pos _ Hw).
  destruct (Nat.ltb_spec (length (rd_buffer r)) (rd_pos r)); [lia|].
  destruct (Z.ltb_spec (Z.of_nat (length (rd_buffer r) - rd_pos r)) (n + 2)); [by apply (safe_err (A := option Z) InvalidResponse (fun s2 _ => s' ++ s2 <> []))|].
  destruct (lookup_lt_is_Some_2 (rd_buffer r) (rd_pos r + Z.to_nat n)) as [x ->]; [lia|].
  destruct (lookup_lt_is_Some_2 (rd_buffer r) (S (rd_pos r + Z.to_nat n))) as [y ->]; [lia|].
  destruct (_ || _); [by apply (safe_err (A := option Z) _ (fun s2 _ => s' ++ s2 <> []))|].
  eexists _, _. split; [done|]. set (t := take (Z.to_nat n + 2) (rest r)). exists t. split; [|done].
  assert (length t = Z.to_nat n + 2)%nat as Hlen by (unfold t; rewrite length_take, length_rest by done; lia).
  unfold set_pos. rewrite (wf_skip _ Hw), <- Hlen.
  apply (after_intro r t (drop (Z.to_nat n + 2) (rest r))); [done|unfold t; by rewrite take_drop|]. destruct Hw. lia.
Qed.

Lemma safe_scan_one d : safe (fun r => scan_one r d) (fun s _ => s <> []).
Proof.
  unfold scan_one. eapply safe_bind; [apply safe_byte|]. intros s0 c ->. cbv beta.
  assert (forall (m : ValkeyReader -> Read (option Z)) G, safe m G -> safe m (fun s2 _ => [c] ++ s2 <> [])) as Hany
    by (intros m G Hm; eapply safe_weaken; [exact Hm|done]).
  destruct (from_byte c) as [ty|]; [|apply safe_err].
  assert (forall k, (forall n : Z, (exists e, forall r, k n r = err r e) \/ exists b : option Z, forall r, k n r = ok r b) ->
    safe (fun r => rbind (read_header d r) k) (fun s2 _ => [c] ++ s2 <> [])) as Hhead.
  { intros k Hk. eapply safe_wrap; [apply safe_header|]. intros s n _. destruct (Hk n) as [?|(b & ?)]; [by left|right]. by exists b. }
  assert (forall k, (forall l : bytes, (exists e, forall r, k l r = err r e) \/ exists b : option Z, forall r, k l r = ok r b) ->
    safe (fun r => rbind (read_until_crlf r) k) (fun s2 _ => [c] ++ s2 <> [])) as Hline.
  { intros k Hk. eapply safe_wrap; [apply safe_line|]. intros s n _. destruct (Hk n) as [?|(b & ?)]; [by left|right]. by exists b. }
  destruct ty; try (apply Hline; intros l; right; by eexists); try (eapply Hany, safe_scan_blob).
  - apply Hhead. intros n. destruct (n <? 0); right; by eexists.
  - apply Hline. intros [|? ?]; [right|left]; by eexists.
  - apply Hhead. intros n. destruct (n <? 0); [left|right]; by eexists.
  - apply Hhead. intros n. destruct (n <? 0); [left|right]; by eexists.
  - apply Hhead. intros n. destruct (n <? 0); [left|right]; by eexists.
  - apply Hhead. intros n. destruct (n <=? 0); [left|right]; by eexists.
Qed.

(** One step: it moves, or it stops. *)
Lemma scan_one_total b pos d : (pos <= length b)%nat ->
  exists r x, scan_one (mkReader b pos 0 0) d = Done (r, x) /\ (rd_pos r <= length b)%nat /\
    match x with inr _ => (pos < rd_pos r)%nat | inl _ => True end.
Proof.
  intros Hp. destruct (safe_scan_one d _ (scan_wf b pos Hp)) as (r & x & E & Hx). exists r, x. split; [done|].
  destruct x as [e|c]; [destruct Hx as ([Hw _ _] & Hb & _); rewrite Hb in Hw; by cbn in Hw|].
  destruct Hx as (s & A & Hs). pose proof (af_pos _ _ _ A) as Hpos. cbn in Hpos.
  pose proof (after_wf _ _ _ (scan_wf b pos Hp) A) as [Hw _ _]. rewrite (af_buffer _ _ _ A) in Hw. cbn in Hw.
  split; [done|]. destruct s; [done|]. cbn in Hpos. lia.
Qed.

Lemma scan_loop_total fuel b pos stack :
  (pos <= length b)%nat -> (length b - pos < fuel)%nat ->
  exists st x, scan_loop fuel b (mkScanner pos stack 0) = Done (st, x).
Proof.
  revert pos stack. induction fuel as [|fuel IH]; intros pos stack Hp Hf; [lia|].
  destruct (scan_one_total b pos (length stack) Hp) as (r & x & E & Hr & Hx). destruct x as [e|c].
  - cbn [scan_loop rs_pos rs_stack rs_crlf_skip]. rewrite E. cbn [obind]. destruct e; by eexists _, _.
  - rewrite (scan_step _ _ _ _ _ _ E). assert (exists st x, finish fuel b (rd_pos r) stack = Done (st, x)) as Hfin.
    { unfold finish. destruct (unwind stack); [by eexists _, _|apply IH; lia]. }
    destruct c as [n|]; [|done]. destruct (0 <? n); [apply IH; lia|done].
Qed.

Lemma scan_loop_fuel fuel fuel' b s x : scan_loop fuel b s = Done x -> (fuel <= fuel')%nat -> scan_loop fuel' b s = Done x.
Proof.
  revert fuel' s. induction fuel as [|fuel IH]; intros fuel' s; [done|]. destruct fuel' as [|fuel']; [lia|]. cbn [scan_loop].
  destruct (scan_one _ _) as [[r [e|c]]| |]; cbn [obind]; [by destruct e| |done..]. intros H Hf.
  assert (forall s', scan_loop fuel b s' = Done x -> scan_loop fuel' b s' = Done x) as Hs by (intros; apply IH; [done|lia]).
  destruct c as [n|]; [destruct (0 <? n); [by apply Hs|]|]; destruct (unwind (rs_stack s)); auto.
Qed.

(** ** Scanning again after more bytes *)

(** The reader over a longer buffer. *)
Definition ext (b2 : bytes) (r : ValkeyReader) : ValkeyReader :=
  mkReader (r.(rd_buffer) ++ b2) r.(rd_pos) r.(rd_prealloc_budget) r.(rd_crlf_skip).

(** What a method returns does not change when bytes are appended. *)
Definition local {A} (m : ValkeyReader -> Read A) : Prop :=
  forall b2 r r' a, wf r -> m r = Done (r', inr a) -> wf r' /\ m (ext b2 r) = Done (ext b2 r', inr a).

Lemma rest_ext b2 r : wf r -> rest (ext b2 r) = rest r ++ b2.
Proof. intros [H _ _]. unfold rest, ext. cbn. by rewrite drop_app_le. Qed.

Lemma wf_ext b2 r : wf r -> wf (ext b2 r).
Proof. intros [H1 H2 H3]. split; cbn; [rewrite length_app; lia|done|done]. Qed.

Lemma local_ok {A} (a : A) : local (fun r => ok r a).
Proof. intros b2 r r' a' Hw [= <- <-]. done. Qed.

Lemma local_err {A} e : local (fun r => err (A := A) r e).
Proof. by intros b2 r r' a'. Qed.

Lemma local_bind {A B} (m : ValkeyReader -> Read A) (k : A -> ValkeyReader -> Read B) :
  local m -> (forall a, local (k a)) -> local (fun r => rbind (m r) k).
Proof.
  intros Hm Hk b2 r r' b Hw. unfold rbind. destruct (m r) as [[r1 [e|a]]| |] eqn:E; cbn [obind]; try done.
  destruct (Hm b2 r r1 a Hw E) as [Hw1 ->]. cbn [obind]. by apply Hk.
Qed.

Lemma local_byte : local read_byte.
Proof.
  intros b2 r r' c Hw. destruct (safe_byte r Hw) as (r1 & x & E & Hx). rewrite E. intros [= <- ->].
  destruct Hx as (s & A & ->). split; [by eapply after_wf|]. revert E. unfold read_byte, ext. cbn [rd_buffer rd_pos].
  destruct (rd_buffer r !! rd_pos r) eqn:El; [|done]. rewrite (lookup_app_l_Some _ _ _ _ El). by intros [= <- <-].
Qed.

Lemma local_line : local read_until_crlf.
Proof.
  intros b2 r r' l Hw. destruct (safe_line r Hw) as (r1 & x & E & Hx). rewrite E. intros [= <- ->].
  destruct Hx as (s & A & Hl). pose proof (after_wf _ _ _ Hw A) as Hw1. split; [done|].
  destruct (reads_line l s Hl _ (wf_ext b2 _ Hw)) as [Hok _].
  destruct (Hok (rest r1 ++ b2)) as (r2 & E2 & A2); [rewrite rest_ext, (af_rest _ _ _ A) by done; by rewrite app_assoc|].
  rewrite E2. do 2 f_equal. revert E E2. rewrite !read_until_crlf_unfold by (done || by apply wf_ext).
  destruct (crlf_loop (rest r) _ _) as [i|]; [|done]. destruct (crlf_loop (rest (ext b2 r)) _ _) as [j|]; [|done].
  intros [= <- _] [= <- _]. pose proof (af_pos _ _ _ A) as P1. pose proof (af_pos _ _ _ A2) as P2. cbn in P1, P2.
  unfold set_pos, ext. cbn. f_equal. lia.
Qed.

Lemma local_int : local read_integer.
Proof.
  apply local_bind; [apply local_line|]. intros l. destruct (parse_int _ _ l 10); [apply local_err|apply local_ok].
Qed.

Lemma local_header d : local (read_header d).
Proof. unfold read_header. destruct (_ <=? _)%nat; [apply local_err|apply local_int]. Qed.

Lemma local_scan_blob ty : local (scan_blob ty).
Proof.
  apply local_bind; [apply local_int|]. intros n. destruct (Z.ltb_spec n 0); [case_decide; [apply local_ok|apply local_err]|].
  destruct (Z.ltb_spec MAX_BULK_LEN n); [apply local_err|]. intros b2 r r' a Hw. pose proof (wf_pos _ Hw).
  destruct (Nat.ltb_spec (length (rd_buffer r)) (rd_pos r)); [lia|].
  destruct (Z.ltb_spec (Z.of_nat (length (rd_buffer r) - rd_pos r)) (n + 2)); [done|]. cbv zeta.
  destruct (rd_buffer r !! (rd_pos r + Z.to_nat n)%nat) as [x|] eqn:Ex; [|done].
  destruct (rd_buffer r !! S (rd_pos r + Z.to_nat n)) as [y|] eqn:Ey; [|done].
  destruct (_ || _) eqn:Ec; [done|]. intros [= <- <-]. split.
  { destruct Hw as [_ H5 H6]. split; cbn; [lia|done|done]. }
  cbn [ext rd_buffer rd_pos]. rewrite length_app.
  destruct (Nat.ltb_spec (length (rd_buffer r) + length b2) (rd_pos r)); [lia|].
  destruct (Z.ltb_spec (Z.of_nat (length (rd_buffer r) + length b2 - rd_pos r)) (n + 2)); [lia|].
  rewrite (lookup_app_l_Some _ _ _ _ Ex), (lookup_app_l_Some _ _ _ _ Ey), Ec. done.
Qed.

Lemma local_scan_one d : local (fun r => scan_one r d).
Proof.
  apply local_bind; [apply local_byte|]. intros c. destruct (from_byte c) as [ty|]; [|apply local_err].
  destruct ty; try apply local_scan_blob;
    (apply local_bind; [apply local_line || apply local_header|]; intros x; try apply local_ok);
    try (destruct x; [apply local_ok|apply local_err]); case_if; apply local_ok || apply local_err.
Qed.

(** Why a step ran out of bytes: at the position [p] after the type byte, the
    line there is not complete. *)
Definition beyond {A} (p : nat) (x : Read A) : Prop :=
  match x with Done (r, _) => (p < rd_pos r)%nat | _ => True end.

Definition starved {A} (b : bytes) (p : nat) (x : Read A) : Prop :=
  match x with
  | Done (r, inl e) => e = InvalidResponse -> rd_pos r = p ->
      no_crlf (drop p b) = true /\ Z.of_nat (length b - p) <= MAX_LINE_LEN + 1
  | Done (r, inr _) => (p < rd_pos r)%nat
  | _ => True
  end.

Lemma starved_bind {A B} b p (x : Read A) (k : A -> ValkeyReader -> Read B) :
  starved b p x -> (forall a r, (p < rd_pos r)%nat -> beyond p (k a r)) -> starved b p (rbind x k).
Proof.
  intros Hx Hk. unfold rbind. destruct x as [[r [e|a]]| |]; cbn [obind]; [exact Hx| |done..].
  specialize (Hk a r Hx). unfold beyond, starved in *. destruct (k a r) as [[r' [e|y]]| |]; try done. lia.
Qed.

Lemma starved_line b p : (p <= length b)%nat -> starved b p (read_until_crlf (mkReader b p 0 0)).
Proof.
  intros Hp. destruct (safe_line _ (scan_wf b p Hp)) as (r1 & x & E & Hx). rewrite E. destruct x as [e|l]; cbn [starved].
  - intros -> _. rewrite read_until_crlf_unfold in E by (by apply scan_wf). unfold rest in E. cbn [rd_pos rd_buffer] in E.
    rewrite length_drop in E. destruct (crlf_loop _ _ _) eqn:El; [done|].
    destruct (Z.ltb_spec (MAX_LINE_LEN + 1) (Z.of_nat (length b - p))); [done|]. split; [|done].
    eapply crlf_loop_None; [exact El|]. rewrite length_drop. unfold line_limit.
    destruct (Z.leb_spec (Z.of_nat (length b - p)) (MAX_LINE_LEN + 1)); lia.
  - destruct Hx as (s & A1 & Hl). pose proof (af_pos _ _ _ A1) as Hpos. cbn in Hpos. apply is_line_nonempty in Hl.
    destruct s; [done|cbn in Hpos; lia].
Qed.

Lemma starved_int b p : (p <= length b)%nat -> starved b p (read_integer (mkReader b p 0 0)).
Proof.
  intros Hp. apply starved_bind; [by apply starved_line|]. intros l r Hr. by destruct (parse_int _ _ l 10).
Qed.

Lemma starved_scan_one b pos d :
  (pos <= length b)%nat -> starved b (S pos) (scan_one (mkReader b pos 0 0) d) .
Proof.
  intros Hp. unfold scan_one, rbind at 1, read_byte. cbn [rd_buffer rd_pos].
  destruct (b !! pos) as [c|] eqn:Ec; [|cbn; intros; lia]. cbn [ok obind]. unfold set_pos. cbn [rd_buffer rd_pos rd_prealloc_budget rd_crlf_skip].
  assert (S pos <= length b)%nat as Hp1 by (by apply lookup_lt_Some in Ec).
  destruct (from_byte c) as [ty|]; [|done].
  assert (forall k : Z -> ValkeyReader -> Read (option Z), (forall n r, (S pos < rd_pos r)%nat -> beyond (S pos) (k n r)) ->
    starved b (S pos) (rbind (read_header d (mkReader b (S pos) 0 0)) k)) as Hhead.
  { intros k Hk. unfold read_header. case_if; [done|]. apply starved_bind; [by apply starved_int|done]. }
  assert (starved b (S pos) (scan_blob ty (mkReader b (S pos) 0 0))) as Hblob.
  { apply starved_bind; [by apply starved_int|]. intros n r Hr. cbv zeta. repeat case_if; try done.
    repeat (destruct (rd_buffer r !! _); [|done]). case_if; [done|]. cbn. lia. }
  destruct ty; try exact Hblob; try (apply Hhead; intros n r Hr; by case_if);
    (apply starved_bind; [by apply starved_line|]; intros l r Hr; try done; by destruct l).
Qed.

(** Skipping what was searched changes nothing. *)
Lemma read_until_crlf_skip b b2 p :
  (p <= length b)%nat -> no_crlf (drop p b) = true -> Z.of_nat (length b - p) <= MAX_LINE_LEN + 1 ->
  read_until_crlf (mkReader (b ++ b2) p 0 (length b - p - 1)) = read_until_crlf (mkReader (b ++ b2) p 0 0).
Proof.
  intros Hp Hn Hm. unfold read_until_crlf. cbn [rd_buffer rd_pos rd_prealloc_budget rd_crlf_skip].
  destruct (length (b ++ b2) <? p)%nat; [done|]. rewrite drop_app_le by done. set (l := drop p b) in *.
  assert (length l = length b - p)%nat as Hl by apply length_drop. rewrite <- Hl in *.
  assert (length l - 1 <= line_limit (length (l ++ b2)))%nat as Hlim.
  { unfold line_limit. rewrite length_app. destruct (Z.leb_spec (Z.of_nat (length l + length b2)) (MAX_LINE_LEN + 1)); [lia|].
    unfold MAX_LINE_LEN, MAX_BULK_LEN in *. lia. }
  rewrite Nat.min_l by done. cbn [Nat.min]. rewrite drop_0, Nat.sub_0_r.
  by rewrite <- (crlf_loop_skip l b2 0 (line_limit (length (l ++ b2))) (length l - 1)) by (done || lia).
Qed.

(** Results that differ in the reader's skip at most. *)
Definition same_step (x y : Read (option Z)) : Prop :=
  match x, y with
  | Done (r, a), Done (r', a') => rd_pos r = rd_pos r' /\ a = a'
  | Panic, Panic | NoFuel, NoFuel => True
  | _, _ => False
  end.

Lemma same_step_refl x : same_step x x.
Proof. by destruct x as [[]| |]. Qed.

Lemma scan_one_skip b pos k d :
  read_until_crlf (mkReader b (S pos) 0 k) = read_until_crlf (mkReader b (S pos) 0 0) ->
  same_step (scan_one (mkReader b pos 0 k) d) (scan_one (mkReader b pos 0 0) d).
Proof.
  intros E. unfold scan_one, read_byte. cbn [rd_buffer rd_pos].
  destruct (b !! pos) as [c|]; cbn [ok err rbind obind]; [|by cbn]. unfold set_pos. cbn [rd_buffer rd_pos rd_prealloc_budget rd_crlf_skip].
  destruct (from_byte c) as [ty|]; [|by cbn].
  assert (read_integer (mkReader b (S pos) 0 k) = read_integer (mkReader b (S pos) 0 0)) as Ei
    by (unfold read_integer; by rewrite E).
  unfold scan_blob, read_header. destruct ty; rewrite ?E, ?Ei; try apply same_step_refl; case_if; by try apply same_step_refl; cbn.
Qed.

(** Two outcomes of a scan: the same answer and, unless it is an error, the
    same state. *)
Definition same_scan (x y : outcome (ReplyScanner * (RedisError + ScanResult))) : Prop :=
  match x, y with
  | Done (s, inl e), Done (s', inl e') => e = e' /\ rs_pos s = rs_pos s' /\ rs_stack s = rs_stack s'
  | Done (s, inr a), Done (s', inr a') => s = s' /\ a = a'
  | Panic, Panic | NoFuel, NoFuel => True
  | _, _ => False
  end.

Lemma same_scan_refl x : same_scan x x.
Proof. by destruct x as [[? []]| |]. Qed.

Lemma scan_loop_same_step fuel b pos stack k :
  same_step (scan_one (mkReader b pos 0 k) (length stack)) (scan_one (mkReader b pos 0 0) (length stack)) ->
  same_scan (scan_loop (S fuel) b (mkScanner pos stack 0)) (scan_loop (S fuel) b (mkScanner pos stack k)).
Proof.
  cbn [scan_loop rs_pos rs_stack rs_crlf_skip].
  destruct (scan_one (mkReader b pos 0 k) _) as [[r x]| |], (scan_one (mkReader b pos 0 0) _) as [[r' x']| |]; try done.
  intros [Hp ->]. cbn [obind]. rewrite Hp. destruct x' as [e|c]; [by destruct e|apply same_scan_refl].
Qed.

Lemma scan_resume_loop fuel b b2 pos stack st :
  (pos <= length b)%nat -> scan_loop fuel b (mkScanner pos stack 0) = Done (st, inr NeedMoreData) ->
  (rs_pos st <= length b)%nat /\
  exists k, (k + pos <= length b)%nat /\
    forall f, same_scan (scan_loop (k + S f) (b ++ b2) (mkScanner pos stack 0)) (scan_loop (S f) (b ++ b2) st).
Proof.
  revert pos stack. induction fuel as [|fuel IH]; intros pos stack Hp H; [done|].
  destruct (scan_one_total b pos (length stack) Hp) as (r & x & E & Hr & Hx). destruct x as [e|c].
  - cbn [scan_loop rs_pos rs_stack rs_crlf_skip] in H. rewrite E in H. cbn [obind] in H.
    destruct e; try done. injection H as <-. split; [done|]. exists 0%nat. split; [lia|]. intros f. cbn [Nat.add].
    pose proof (starved_scan_one b pos (length stack) Hp) as Hs. rewrite E in Hs. cbn [starved] in Hs.
    destruct (Nat.eqb_spec (rd_pos r) (pos + 1)) as [Hr1|]; [|apply same_scan_refl].
    destruct (Hs eq_refl ltac:(lia)) as [Hn Hm]. apply scan_loop_same_step, scan_one_skip.
    replace (length b - rd_pos r - 1)%nat with (length b - S pos - 1)%nat by lia. apply read_until_crlf_skip; [lia|done|done].
  - destruct (local_scan_one (length stack) b2 _ r c (scan_wf b pos Hp) E) as [_ E2].
    assert (forall s', scan_loop fuel b (mkScanner (rd_pos r) s' 0) = Done (st, inr NeedMoreData) ->
      (forall f, scan_loop (S f) (b ++ b2) (mkScanner pos stack 0) = scan_loop f (b ++ b2) (mkScanner (rd_pos r) s' 0)) ->
      (rs_pos st <= length b)%nat /\ exists k, (k + pos <= length b)%nat /\
        forall f, same_scan (scan_loop (k + S f) (b ++ b2) (mkScanner pos stack 0)) (scan_loop (S f) (b ++ b2) st)) as Hgo.
    { intros s' H1 H2. destruct (IH (rd_pos r) s' Hr H1) as (Hst & k & Hk & Hf). split; [done|].
      exists (S k). split; [lia|]. intros f. cbn [Nat.add]. rewrite H2. apply Hf. }
    rewrite (scan_step _ _ _ _ _ _ E) in H.
    pose proof (fun f => scan_step f (b ++ b2) pos stack _ _ E2) as H2. cbn [ext rd_pos] in H2.
    assert (finish fuel b (rd_pos r) stack = Done (st, inr NeedMoreData) ->
      exists s', scan_loop fuel b (mkScanner (rd_pos r) s' 0) = Done (st, inr NeedMoreData) /\
        forall f, finish f (b ++ b2) (rd_pos r) stack = scan_loop f (b ++ b2) (mkScanner (rd_pos r) s' 0)) as Hfin.
    { unfold finish. destruct (unwind stack) as [|x l]; [done|]. intros Hx'. by exists (x :: l). }
    destruct c as [n|]; [destruct (0 <? n)|].
    + by apply (Hgo (n :: stack)).
    + destruct (Hfin H) as (s' & H3 & H4). apply (Hgo s'); [done|]. intros f. by rewrite H2.
    + destruct (Hfin H) as (s' & H3 & H4). apply (Hgo s'); [done|]. intros f. by rewrite H2.
Qed.

(** ** What the scanner promises *)

Lemma scan_reply {P : Platform} s (v : RESPValue P) :
  reply 0 s v ->
  (forall u, scan scanner_reset (s ++ u) = Done (mkScanner (length s) [] 0, inr Complete)) /\
  (forall b, strict_prefix b s -> exists st, scan scanner_reset b = Done (st, inr NeedMoreData)).
Proof.
  intros H. pose proof (skips_reply 0 s v H) as Hs. split.
  - intros u. destruct (Hs (s ++ u) 0%nat [] eq_refl ltac:(lia)) as [H1 _]. destruct (H1 u) as (k & Hk & Hl); [done|].
    unfold scan, scanner_reset. rewrite length_app. replace (S (length s + length u)) with (k + (S (length s + length u) - k))%nat by lia.
    rewrite Hl. done.
  - intros b Hb. destruct (Hs b 0%nat [] eq_refl ltac:(lia)) as [_ H2]. destruct H2 as (k & Hk & Hl); [done|].
    unfold scan, scanner_reset. destruct (Hl (length b - k)%nat) as (st & E). exists st.
    replace (S (length b)) with (S k + (length b - k))%nat by lia. exact E.
Qed.

Lemma scan_resumes b b2 st :
  scan scanner_reset b = Done (st, inr NeedMoreData) ->
  same_scan (scan scanner_reset (b ++ b2)) (scan st (b ++ b2)).
Proof.
  intros H. unfold scan, scanner_reset in *. destruct (scan_resume_loop _ b b2 0 [] st ltac:(lia) H) as (Hp & k & Hk & Hf).
  destruct (scan_loop_total (S (length (b ++ b2))) (b ++ b2) 0 [] ltac:(lia) ltac:(lia)) as (st1 & x & E).
  specialize (Hf (length (b ++ b2) - k)%nat). rewrite length_app in *.
  replace (k + S (length b + length b2 - k))%nat with (S (length b + length b2)) in Hf by lia. rewrite E in Hf |- *.
  destruct (scan_loop (S (length b + length b2 - k)) (b ++ b2) st) as [[st2 y]| |] eqn:E2; [|by destruct x..].
  by rewrite (scan_loop_fuel _ (S (length b + length b2)) _ _ _ E2) by lia.
Qed.

(** Resuming is sound. When a scan of the buffer ran out of bytes, scanning
    the buffer with more bytes appended from the state it left (its offset, the
    open aggregates and the bytes already searched for a line end) gives the
    answer and the state of a scan of the longer buffer from its start; on an
    error the answer and the offset are the same. *)
Theorem scan_resume b b2 st :
  scan scanner_reset b = Done (st, inr NeedMoreData) ->
  same_scan (scan scanner_reset (b ++ b2)) (scan st (b ++ b2)) /\
  exists st' x, scan st (b ++ b2) = Done (st', x).
Proof.
  intros H. pose proof (scan_resumes b b2 st H) as Hs. split; [done|].
  destruct (scan_loop_total (S (length (b ++ b2))) (b ++ b2) 0 [] ltac:(lia) ltac:(lia)) as (st1 & x & E).
  change (scan scanner_reset (b ++ b2) = Done (st1, x)) in E. rewrite E in Hs.
  destruct (scan st (b ++ b2)) as [[st2 y]| |]; [by eexists _, _|by destruct x..].
Qed.

(** ["*2\r\n$3\r\nfoo\r\n+ok"], then ["ay\r\n"]. *)
Lemma scan_resume_witness :
  let b := [42; 50; 13; 10; 36; 51; 13; 10; 102; 111; 111; 13; 10; 43; 111; 107] in
  let b2 := [97; 121; 13; 10] in
  scan scanner_reset b = Done (mkScanner 13 [1] 1, inr NeedMoreData) /\
  same_scan (scan scanner_reset (b ++ b2)) (scan (mkScanner 13 [1] 1) (b ++ b2)).
Proof.
  intros b b2. assert (scan scanner_reset b = Done (mkScanner 13 [1] 1, inr NeedMoreData)) as H by (by vm_compute).
  split; [exact H|]. destruct (scan_resume b b2 (mkScanner 13 [1] 1) H) as [Hs _]. exact Hs.
Defined.
