(* ===== verification/ValkeyClient.v ===== *)
(** * The Valkey client

    [on_data] of [src/src/runtime/valkey_jsc/valkey.rs], which cuts the bytes of
    a connection into replies whatever the segments they arrive in, over the
    buffer of [src/src/collections/vec_ext.rs] ([OffsetByteList]); and the
    commands of [src/src/runtime/valkey_jsc/ValkeyCommand.rs], written in the
    same protocol. *)
From Stdlib Require Import ZArith Lia String.
From stdpp Require Import base list numbers option.
From S2P Require Import Prelude Strings Valkey ValkeyTheorems ValkeyScan.
#[local] Open Scope Z_scope.

(** ** The buffer *)

Record OffsetByteList : Type := mkOBL { ob_head : Z; ob_list : bytes }.
Definition OffsetByteList_default : OffsetByteList := mkOBL 0 [].

Definition ob_write (l : OffsetByteList) (bs : bytes) : OffsetByteList := mkOBL l.(ob_head) (l.(ob_list) ++ bs).

Definition ob_remaining (l : OffsetByteList) : outcome bytes :=
  if Z.of_nat (List.length l.(ob_list)) <? l.(ob_head) then Panic else Done (drop (Z.to_nat l.(ob_head)) l.(ob_list)).

Definition u32_MAX : Z := 4294967295.

Definition ob_consume (l : OffsetByteList) (n : Z) : OffsetByteList :=
  let head := Z.min (l.(ob_head) + n) u32_MAX in
  let len := Z.of_nat (List.length l.(ob_list)) in
  if len <=? head then mkOBL 0 []
  else if len - head <=? head then mkOBL 0 (drop (Z.to_nat head) l.(ob_list))
  else mkOBL head l.(ob_list).

(** ** Receiving *)

(** [Ok(())], or an exception on its way to JavaScript. *)
Inductive JsResult : Type := JsOk | Thrown.

Section Client.
Context {P : Platform} {X : Type}.

(** The fields [on_data] works on; [c_rest] is all the others. *)
Record ValkeyClient : Type := mkClient {
  c_socket : Z;
  c_read_buffer : OffsetByteList;
  c_reply_scanner : ReplyScanner;
  c_rest : X;
}.

Definition with_buffer (c : ValkeyClient) (b : OffsetByteList) : ValkeyClient :=
  mkClient c.(c_socket) b c.(c_reply_scanner) c.(c_rest).
Definition with_scanner (c : ValkeyClient) (s : ReplyScanner) : ValkeyClient :=
  mkClient c.(c_socket) c.(c_read_buffer) s c.(c_rest).

(** The methods [on_data] calls on the client for each reply. *)
Context (handle_response : RESPValue P -> ValkeyClient -> ValkeyClient * JsResult)
        (send_next_command : ValkeyClient -> ValkeyClient)
        (fail : string -> RedisError -> ValkeyClient -> ValkeyClient * JsResult).

(** [self.fail(msg, err)?; return Ok(())] *)
Definition fail_and_return (msg : string) (e : RedisError) (c : ValkeyClient) : outcome (ValkeyClient * JsResult) :=
  Done (fail msg e c).

(** Path 1: replies from the buffer. *)
Fixpoint buffer_loop (fuel : nat) (socket : Z) (c : ValkeyClient) : outcome (ValkeyClient * JsResult) :=
  match fuel with
  | O => NoFuel
  | S fuel' =>
      let! remaining_buffer := ob_remaining c.(c_read_buffer) in
      match remaining_buffer with
      | [] => Done (c, JsOk)
      | _ =>
          let! (s, r) := scan c.(c_reply_scanner) remaining_buffer in
          let c := with_scanner c s in
          match r with
          | inr NeedMoreData => Done (c, JsOk)
          | inl e => fail_and_return "Failed to read data (buffer path)" e c
          | inr Complete =>
              let! (reader, v) := read_value (reader_init remaining_buffer) in
              match v with
              | inl e => fail_and_return "Failed to read data (buffer path)" e c
              | inr value =>
                  let bytes_consumed := Z.of_nat reader.(rd_pos) in
                  if bytes_consumed =? 0 then
                    fail_and_return "Parser consumed 0 bytes unexpectedly (buffer path)" InvalidResponse c
                  else if u32_MAX <? bytes_consumed then Panic
                  else
                    let c := with_buffer c (ob_consume c.(c_read_buffer) bytes_consumed) in
                    let c := with_scanner c scanner_reset in
                    let '(c, js) := handle_response value c in
                    match js with
                    | Thrown => Done (c, Thrown)
                    | JsOk =>
                        if negb (c.(c_socket) =? socket) then Done (c, JsOk)
                        else buffer_loop fuel' socket (send_next_command c)
                    end
              end
          end
      end
  end.

(** Path 2: replies from the bytes just received. *)
Fixpoint stack_loop (fuel : nat) (socket : Z) (current_data_slice : bytes) (c : ValkeyClient)
    : outcome (ValkeyClient * JsResult) :=
  match current_data_slice with
  | [] => Done (c, JsOk)
  | _ =>
      match fuel with
      | O => NoFuel
      | S fuel' =>
          let! (reader, v) := read_value (reader_init current_data_slice) in
          match v with
          | inl InvalidResponse =>
              let c := with_scanner c scanner_reset in
              Done (with_buffer c (ob_write c.(c_read_buffer) current_data_slice), JsOk)
          | inl e => fail_and_return "Failed to read data (stack path)" e c
          | inr value =>
              if (reader.(rd_pos) =? 0)%nat then
                fail_and_return "Parser consumed 0 bytes unexpectedly (stack path)" InvalidResponse c
              else
                let current_data_slice := drop reader.(rd_pos) current_data_slice in
                let '(c, js) := handle_response value c in
                match js with
                | Thrown => Done (c, Thrown)
                | JsOk =>
                    if negb (c.(c_socket) =? socket) then Done (c, JsOk)
                    else stack_loop fuel' socket current_data_slice (send_next_command c)
                end
          end
      end
  end.

Definition on_data (data : bytes) (c : ValkeyClient) : outcome (ValkeyClient * JsResult) :=
  let socket := c.(c_socket) in
  let! remaining := ob_remaining c.(c_read_buffer) in
  match remaining with
  | _ :: _ =>
      let c := with_buffer c (ob_write c.(c_read_buffer) data) in
      buffer_loop (S (List.length remaining + List.length data)) socket c
  | [] => stack_loop (List.length data) socket data c
  end.

(** A connection that receives segment after segment. *)
Fixpoint receive (chunks : list bytes) (c : ValkeyClient) : outcome (ValkeyClient * JsResult) :=
  match chunks with
  | [] => Done (c, JsOk)
  | data :: chunks =>
      let! (c, js) := on_data data c in
      match js with Thrown => Done (c, Thrown) | JsOk => receive chunks c end
  end.
End Client.
Arguments ValkeyClient : clear implicits.

(** ** Commands *)

(** The arguments, as the bytes of their slices. *)
Inductive Args : Type := Slices (l : list bytes) | ArgList (l : list bytes) | Raw (l : list bytes).

Definition Args_slices (a : Args) : list bytes := match a with Slices l | ArgList l | Raw l => l end.
Definition Args_len (a : Args) : nat := match a with Slices l | ArgList l | Raw l => List.length l end.

Record Command : Type := mkCommand { cmd_command : bytes; cmd_args : Args }.

Definition CRLF : bytes := [CR; LF].

(** [write!(writer, "${}\r\n", ...)], the bytes, and the line end. *)
Definition write_bulk (b : bytes) : bytes := 36 :: show_u64 (Z.of_nat (List.length b)) ++ CRLF ++ b ++ CRLF.

Definition Command_write (c : Command) : bytes :=
  (42 :: show_u64 (1 + Z.of_nat (Args_len c.(cmd_args))) ++ CRLF)
  ++ write_bulk c.(cmd_command) ++ List.concat (map write_bulk (Args_slices c.(cmd_args))).

Definition Command_byte_length (c : Command) : Z := Z.of_nat (List.length (Command_write c)).

(** ** The buffer holds what was written and not consumed *)

Record holds (l : OffsetByteList) (b : bytes) (bound : nat) : Prop := {
  ho_head : 0 <= l.(ob_head) <= Z.of_nat (List.length l.(ob_list));
  ho_rest : drop (Z.to_nat l.(ob_head)) l.(ob_list) = b;
  ho_bound : (List.length l.(ob_list) <= bound)%nat;
}.

Lemma holds_remaining l b n : holds l b n -> ob_remaining l = Done b.
Proof. intros [H1 H2 _]. unfold ob_remaining. rewrite H2. destruct (Z.ltb_spec (Z.of_nat (List.length (ob_list l))) (ob_head l)); [lia|done]. Qed.

Lemma holds_write l b n bs : holds l b n -> holds (ob_write l bs) (b ++ bs) (n + List.length bs).
Proof.
  intros [H1 H2 H3]. split; cbn; rewrite ?length_app; [lia| |lia]. rewrite drop_app_le by lia. by rewrite H2.
Qed.

Lemma holds_consume l s u n :
  holds l (s ++ u) n -> Z.of_nat n <= u32_MAX -> holds (ob_consume l (Z.of_nat (List.length s))) u n.
Proof.
  intros [H1 H2 H3] Hn. unfold ob_consume.
  assert (List.length (ob_list l) = Z.to_nat (ob_head l) + List.length s + List.length u)%nat as Hl.
  { assert (List.length (s ++ u) = List.length (ob_list l) - Z.to_nat (ob_head l))%nat as H by (by rewrite <- H2, length_drop).
    rewrite length_app in H. lia. }
  assert (drop (Z.to_nat (ob_head l + Z.of_nat (List.length s))) (ob_list l) = u) as Hd.
  { rewrite Z2Nat.inj_add, Nat2Z.id by lia. rewrite <- drop_drop, H2. by rewrite drop_app_length. }
  rewrite Z.min_l by lia. set (head := ob_head l + Z.of_nat (List.length s)) in *.
  destruct (Z.leb_spec (Z.of_nat (List.length (ob_list l))) head).
  { assert (u = []) as -> by (destruct u; [done|cbn in Hl; lia]). split; cbn; [lia|done|lia]. }
  destruct (Z.leb_spec (Z.of_nat (List.length (ob_list l)) - head) head).
  - rewrite Hd. split; cbn; [lia|done|lia].
  - split; cbn; [lia|done|done].
Qed.

(** ** Segments *)

Section Receive.
Context {P : Platform} {X : Type}.
Context (handle_response : RESPValue P -> ValkeyClient X -> ValkeyClient X * JsResult)
        (send_next_command : ValkeyClient X -> ValkeyClient X)
        (fail : string -> RedisError -> ValkeyClient X -> ValkeyClient X * JsResult).

(** Handling a reply and sending the next command leave the connection open
    and the bytes received alone; [step] is what they do to the rest. *)
Definition handles (step : RESPValue P -> X -> X) : Prop :=
  forall v c, exists c', handle_response v c = (c', JsOk) /\ c_socket c' = c_socket c /\
    send_next_command c' = mkClient (c_socket c) (c_read_buffer c) (c_reply_scanner c) (step v (c_rest c)).

(** The scanner of a client whose buffer is [b]: fresh, or left by a scan that ran out of bytes. *)
Definition scanner_for (s : ReplyScanner) (b : bytes) : Prop :=
  s = scanner_reset \/ scan scanner_reset b = Done (s, inr NeedMoreData).

(** A part of a reply, or nothing. *)
Definition partial (t : bytes) : Prop := t = [] \/ exists s (v : RESPValue P), reply 0 s v /\ strict_prefix t s.

Definition is_stream (ss : list bytes) (vs : list (RESPValue P)) : Prop := Forall2 (fun s v => reply 0 s v) ss vs.

Context (step : RESPValue P -> X -> X) (Hstep : handles step).

Abbreviation run vs x0 := (fold_left (fun x v => step v x) vs x0).

(** The client after it received the bytes of [vs] and then [t]. *)
Definition received (c c' : ValkeyClient X) (vs : list (RESPValue P)) (t : bytes) (bound : nat) : Prop :=
  c_socket c' = c_socket c /\ holds (c_read_buffer c') t bound /\ scanner_for (c_reply_scanner c') t /\ c_rest c' = run vs (c_rest c).

Lemma scanner_for_scan s b u :
  scanner_for s b -> same_scan (scan scanner_reset (b ++ u)) (scan s (b ++ u)).
Proof. intros [->|H]; [apply same_scan_refl|by apply scan_resumes]. Qed.

Lemma buffer_loop_stream ss vs t : forall fuel c b u bound,
  is_stream ss vs -> partial t -> holds (c_read_buffer c) (b ++ u) bound -> Z.of_nat bound <= u32_MAX ->
  scanner_for (c_reply_scanner c) b -> b ++ u = List.concat ss ++ t -> (List.length (b ++ u) < fuel)%nat ->
  exists c', buffer_loop handle_response send_next_command fail fuel (c_socket c) c = Done (c', JsOk) /\ received c c' vs t bound.
Proof.
  intros fuel c b u bound Hs Ht. revert fuel c b u. induction Hs as [|s v ss vs Hv Hvs IH]; intros fuel c b u Hb Hbound Hsc E Hf;
    (destruct fuel as [|fuel]; [lia|]); cbn [buffer_loop]; rewrite (holds_remaining _ _ _ Hb); cbn [obind].
  - cbn [List.concat app] in E. rewrite E in *. destruct t as [|x t'] eqn:Et.
    { exists c. split; [done|]. split_and!; [done|done| |done]. destruct b; [done|done]. }
    destruct Ht as [|(s & v & Hv & Hp)]; [done|]. destruct (scan_reply s v Hv) as [_ Hn]. destruct (Hn _ Hp) as (st & Hst).
    pose proof (scanner_for_scan _ _ u Hsc) as Hsame. rewrite E, Hst in Hsame.
    destruct (scan (c_reply_scanner c) (x :: t')) as [[st2 [|r]]| |] eqn:E2; try done. destruct Hsame as [<- <-]. cbn [obind].
    exists (with_scanner c st). split; [done|]. split_and!; [done|done|by right|done].
  - cbn [List.concat] in E. rewrite <- app_assoc in E. rewrite E in *. pose proof (reply_nonempty _ _ _ Hv) as Hne.
    destruct (s ++ List.concat ss ++ t) as [|x l] eqn:El; [by destruct s|]. rewrite <- El in *. clear El x l.
    destruct (scan_reply s v Hv) as [Hc _]. specialize (Hc (List.concat ss ++ t)).
    pose proof (scanner_for_scan _ _ u Hsc) as Hsame. rewrite E, Hc in Hsame.
    destruct (scan (c_reply_scanner c) (s ++ List.concat ss ++ t)) as [[st2 [|r]]| |]; try done. destruct Hsame as [<- <-]. cbn [obind].
    destruct (read_value_reply s v (List.concat ss ++ t) Hv) as (r & -> & Hr). cbn [obind]. rewrite Hr.
    destruct (Z.eqb_spec (Z.of_nat (List.length s)) 0); [destruct s; [done|cbn in *; lia]|].
    assert (List.length s <= bound)%nat as Hsb.
    { destruct Hb as [B1 B2 B3]. assert (List.length (s ++ List.concat ss ++ t) <= List.length (ob_list (c_read_buffer c)))%nat
        by (rewrite <- B2, length_drop; lia). rewrite length_app in *. lia. }
    destruct (Z.ltb_spec u32_MAX (Z.of_nat (List.length s))); [lia|].
    cbn [with_scanner with_buffer c_socket c_read_buffer c_reply_scanner c_rest].
    match goal with |- context [handle_response v ?c] => set (c1 := c) end. destruct (Hstep v c1) as (c2 & -> & Hsock & Hsend). rewrite Hsock. cbn [c1 c_socket].
    rewrite Z.eqb_refl. cbn [negb]. rewrite Hsend. pose proof (holds_consume _ _ _ _ Hb Hbound) as Hb1.
    match goal with |- context [buffer_loop _ _ _ fuel _ ?c] => set (c3 := c) end.
    destruct (IH fuel c3 [] (List.concat ss ++ t)) as (c' & E' & R1 & R2 & R3 & R4); [exact Hb1|done|by left|done| |].
    { rewrite length_app in Hf. cbn [app]. destruct s; [done|cbn in Hf; lia]. }
    exists c'. split; [exact E'|]. by split_and!.
Qed.

Lemma stack_loop_stream ss vs t : forall fuel c bound,
  is_stream ss vs -> partial t -> holds (c_read_buffer c) [] bound -> scanner_for (c_reply_scanner c) [] ->
  (List.length (List.concat ss ++ t) <= fuel)%nat ->
  exists c', stack_loop handle_response send_next_command fail fuel (c_socket c) (List.concat ss ++ t) c = Done (c', JsOk) /\
    received c c' vs t (bound + List.length t).
Proof.
  intros fuel c bound Hs Ht. revert fuel c. induction Hs as [|s v ss vs Hv Hvs IH]; intros fuel c Hb Hsc Hf.
  - cbn [List.concat app] in *. destruct t as [|x t'] eqn:Et.
    { exists c. split; [by destruct fuel|]. split_and!; [done|by rewrite Nat.add_0_r|done|done]. }
    destruct fuel as [|fuel]; [cbn in Hf; lia|]. cbn [stack_loop].
    destruct Ht as [|(s & v & Hv & Hp)]; [done|]. destruct (read_value_prefix _ s v Hv Hp) as (r & ->). cbn [obind].
    eexists. split; [done|]. split_and!; [done| |by left|done]. exact (holds_write _ _ _ (x :: t') Hb).
  - cbn [List.concat] in *. rewrite <- app_assoc in *. pose proof (reply_nonempty _ _ _ Hv) as Hne.
    assert (0 < List.length s)%nat as Hs0 by (destruct s; [done|cbn; lia]). rewrite length_app in Hf.
    destruct fuel as [|fuel]; [lia|]. cbn [stack_loop].
    destruct (s ++ List.concat ss ++ t) as [|x l] eqn:El; [by destruct s|]. rewrite <- El. clear El x l.
    destruct (read_value_reply s v (List.concat ss ++ t) Hv) as (r & -> & Hr). cbn [obind]. rewrite Hr, drop_app_length.
    destruct (Nat.eqb_spec (List.length s) 0); [lia|].
    destruct (Hstep v c) as (c2 & -> & Hsock & Hsend). rewrite Hsock, Z.eqb_refl. cbn [negb]. rewrite Hsend.
    match goal with |- context [stack_loop _ _ _ fuel _ _ ?c] => set (c3 := c) end.
    destruct (IH fuel c3) as (c' & E' & R1 & R2 & R3 & R4); [done|done|lia|]. exists c'. split; [exact E'|]. by split_and!.
Qed.

(** What is there of a stream is a stream and a part of a reply. *)
Lemma stream_prefix ss vs t b u :
  is_stream ss vs -> partial t -> b ++ u = List.concat ss ++ t ->
  exists ss1 ss2 vs1 vs2 t1, ss = ss1 ++ ss2 /\ vs = vs1 ++ vs2 /\ is_stream ss1 vs1 /\ is_stream ss2 vs2 /\ partial t1 /\
    b = List.concat ss1 ++ t1 /\ t1 ++ u = List.concat ss2 ++ t.
Proof.
  intros Hs Ht. revert b. induction Hs as [|s v ss vs Hv Hvs IH]; intros b E.
  - exists [], [], [], [], b. split_and!; [done|done|constructor|constructor| |done|done]. destruct Ht as [->|(s & v & Hv & w & Hw & Es)].
    + left. cbn in E. by apply app_eq_nil in E as [-> _].
    + destruct u as [|x u'].
      * rewrite app_nil_r in E. cbn in E. subst b. right. exists s, v. split; [done|]. by exists w.
      * right. exists s, v. split; [done|]. exists ((x :: u') ++ w). split; [done|]. cbn in E. rewrite Es, <- E. by rewrite <- app_assoc.
  - cbn [List.concat] in E. rewrite <- app_assoc in E. destruct (decide (List.length s <= List.length b)%nat) as [Hl|Hl].
    + assert (b = s ++ drop (List.length s) b) as Eb.
      { rewrite <- (take_drop (List.length s) b) at 1. f_equal. rewrite <- (take_app_le b u) by done. rewrite E. by rewrite take_app_length. }
      rewrite Eb, <- app_assoc in E. apply app_inv_head in E.
      destruct (IH _ E) as (ss1 & ss2 & vs1 & vs2 & t1 & -> & -> & H1 & H2 & H3 & H4 & H5).
      exists (s :: ss1), ss2, (v :: vs1), vs2, t1. split_and!; try done; [by constructor|]. cbn [List.concat]. rewrite Eb, H4. by rewrite <- app_assoc.
    + exists [], (s :: ss), [], (v :: vs), b. split_and!; [done|done|constructor|by constructor| |done|].
      * right. exists s, v. split; [done|]. exists (drop (List.length b) s). split.
        { intros E2. assert (List.length (drop (List.length b) s) = 0%nat) as E3 by (by rewrite E2). rewrite length_drop in E3. lia. }
        rewrite <- (take_drop (List.length b) s) at 1. f_equal. rewrite <- (take_app_le s (List.concat ss ++ t)) by lia.
        rewrite <- E. by rewrite take_app_length.
      * cbn [List.concat]. by rewrite <- app_assoc.
Qed.

Lemma on_data_stream ss vs t c b data bound :
  is_stream ss vs -> partial t -> holds (c_read_buffer c) b bound -> scanner_for (c_reply_scanner c) b ->
  Z.of_nat (bound + List.length data) <= u32_MAX -> b ++ data = List.concat ss ++ t ->
  exists c', on_data handle_response send_next_command fail data c = Done (c', JsOk) /\ received c c' vs t (bound + List.length data).
Proof.
  intros Hs Ht Hb Hsc Hbound E. unfold on_data. rewrite (holds_remaining _ _ _ Hb). cbn [obind]. destruct b as [|x b'] eqn:Eb.
  - cbn [app] in E. rewrite E. destruct (stack_loop_stream ss vs t (List.length (List.concat ss ++ t)) c bound) as (c' & E' & R1 & [R2a R2b R2c] & R3 & R4);
      try done. exists c'. split; [done|]. split_and!; try done. split; [done|done|]. rewrite length_app. lia.
  - rewrite <- Eb in *.
    destruct (buffer_loop_stream ss vs t (S (List.length b + List.length data)) (with_buffer c (ob_write (c_read_buffer c) data)) b data (bound + List.length data))
      as (c' & E' & R); try done.
    + by apply holds_write.
    + rewrite length_app. lia.
    + by exists c'.
Qed.

Lemma partial_no_reply s (v : RESPValue P) u : reply 0 s v -> ~ partial (s ++ u).
Proof.
  intros Hv [E|(s' & v' & Hv' & Hp)].
  - apply reply_nonempty in Hv. by apply app_eq_nil in E as [-> _].
  - destruct (read_value_reply s v u Hv) as (r & E & _). destruct (read_value_prefix _ s' v' Hv' Hp) as (r' & E').
    rewrite E in E'. discriminate.
Qed.

Lemma receive_stream chunks : forall ss vs t c b bound,
  is_stream ss vs -> partial t -> holds (c_read_buffer c) b bound -> scanner_for (c_reply_scanner c) b -> partial b ->
  Z.of_nat (bound + List.length (List.concat chunks)) <= u32_MAX -> b ++ List.concat chunks = List.concat ss ++ t ->
  exists c', receive handle_response send_next_command fail chunks c = Done (c', JsOk) /\
    ob_remaining (c_read_buffer c') = Done t /\ c_rest c' = run vs (c_rest c) /\ c_socket c' = c_socket c.
Proof.
  induction chunks as [|data chunks IH]; intros ss vs t c b bound Hs Ht Hb Hsc Hp Hbound E; cbn [List.concat] in *.
  - rewrite app_nil_r in E. subst b. exists c. destruct Hs as [|s v ss vs Hv Hvs].
    + split; [done|]. split; [by eapply holds_remaining|done].
    + exfalso. cbn [List.concat] in Hp. rewrite <- app_assoc in Hp. by eapply partial_no_reply.
  - rewrite app_assoc in E. rewrite length_app in Hbound.
    destruct (stream_prefix ss vs t (b ++ data) (List.concat chunks) Hs Ht E)
      as (ss1 & ss2 & vs1 & vs2 & t1 & -> & -> & H1 & H2 & H3 & H4 & H5).
    destruct (on_data_stream ss1 vs1 t1 c b data bound) as (c1 & E1 & R1 & R2 & R3 & R4); try done; [lia|].
    cbn [receive]. rewrite E1. cbn [obind].
    destruct (IH ss2 vs2 t c1 t1 (bound + List.length data)%nat) as (c' & E' & Q1 & Q2 & Q3); try done; [lia|].
    exists c'. split; [done|]. split; [done|]. rewrite fold_left_app, Q2, R4. split; [done|congruence].
Qed.
End Receive.


(** The handler keeps a log of the replies. *)
Definition log_reply {P : Platform} (v : RESPValue P) (c : ValkeyClient (list (RESPValue P))) : ValkeyClient (list (RESPValue P)) * JsResult :=
  (mkClient (c_socket c) (c_read_buffer c) (c_reply_scanner c) (c_rest c ++ [v]), JsOk).


(** ** Commands are replies *)

Lemma parse_int_show n : 0 <= n <= i64_MAX -> parse_int i64_MIN i64_MAX (show_u64 n) 10 = inr n.
Proof.
  intros Hn. assert (is_u64 n) as Hu by (unfold is_u64, two64, i64_MAX in *; lia).
  pose proof (parse_show_u64 n Hu) as Hp. pose proof (show_u64_digits n ltac:(lia)) as Hd.
  unfold parse_int, parse_unsigned in *. destruct (show_u64 n) as [|c l] eqn:E; [by apply show_u64_nonempty in E|].
  pose proof (Forall_inv Hd) as Hc. cbn beta in Hc. apply is_ascii_digit_iff in Hc.
  destruct (Z.eqb_spec c 43); [lia|]. destruct (Z.eqb_spec c 45); [lia|].
  destruct (auto_radix (c :: l) 10) as [ds rx]. destruct (parse_with_sign ds rx) as [|acc]; [done|].
  destruct (acc <? two64); [|done]. injection Hp as ->. cbn [negb].
  destruct (Z.leb_spec i64_MIN n), (Z.leb_spec n i64_MAX); unfold i64_MIN in *; [done|lia..].
Qed.

Lemma digits_no_crlf l : all_digits l -> no_crlf l = true.
Proof.
  induction 1 as [|c l Hc _ IH]; [done|]. rewrite no_crlf_cons, IH, andb_true_r. apply is_ascii_digit_iff in Hc.
  destruct l; cbn; [done|]. destruct (Z.eqb_spec c CR); [unfold CR in *; lia|done].
Qed.

Lemma dec_digits_length fuel z acc : (List.length (dec_digits fuel z acc) <= fuel + List.length acc)%nat.
Proof.
  revert z acc. induction fuel as [|fuel IH]; intros z acc; cbn [dec_digits]; [lia|]. case_if; [cbn; lia|].
  etransitivity; [apply IH|]. cbn. lia.
Qed.

Lemma show_int_line n : 0 <= n <= i64_MAX -> is_int_line n (show_u64 n ++ CRLF).
Proof.
  intros Hn. apply (int_line_intro n (show_u64 n)); [|by apply parse_int_show]. apply line_intro.
  - apply digits_no_crlf, show_u64_digits. lia.
  - pose proof (dec_digits_length 20 n []) as H. unfold show_u64. unfold MAX_LINE_LEN, MAX_BULK_LEN. cbn [List.length] in H. lia.
Qed.

Lemma write_bulk_reply {P : Platform} d b : Z.of_nat (List.length b) <= MAX_BULK_LEN -> reply d (write_bulk b) (BulkString (Some b)).
Proof.
  intros Hb. apply reply_bulk. rewrite (app_assoc (show_u64 _)). apply blob_intro; [|done].
  apply show_int_line. unfold MAX_BULK_LEN, i64_MAX in *. lia.
Qed.

Lemma write_bulks_replies {P : Platform} d bs :
  Forall (fun b => Z.of_nat (List.length b) <= MAX_BULK_LEN) bs ->
  replies d (List.concat (map write_bulk bs)) (map (fun b => BulkString (Some b)) bs).
Proof. induction 1 as [|b bs Hb _ IH]; cbn [map List.concat]; [constructor|]. constructor; [by apply write_bulk_reply|done]. Qed.

(** What the client sends reads back. A command whose name and arguments
    are each at most 512 MiB is written as one reply, an array of bulk strings
    with the name and the arguments, whatever bytes they contain; the reader
    takes exactly its bytes, as many as [byte_length] counted ahead. *)
Theorem Command_write_read {P : Platform} c u :
  Forall (fun b => Z.of_nat (List.length b) <= MAX_BULK_LEN) (cmd_command c :: Args_slices (cmd_args c)) ->
  1 + Z.of_nat (Args_len (cmd_args c)) <= i64_MAX ->
  exists r, read_value (reader_init (Command_write c ++ u)) =
      Done (r, inr (Array (map (fun b => BulkString (Some b)) (cmd_command c :: Args_slices (cmd_args c)))) ) /\
    Z.of_nat (rd_pos r) = Command_byte_length c.
Proof.
  intros Hb Hn. destruct (read_value_reply (Command_write c)
    (Array (map (fun b => BulkString (Some b)) (cmd_command c :: Args_slices (cmd_args c)))) u) as (r & E & Hr).
  - unfold Command_write. cbn [app]. apply reply_array; [unfold MAX_NESTING_DEPTH; lia| |].
    + rewrite length_map. cbn [List.length].
      replace (List.length (Args_slices (cmd_args c))) with (Args_len (cmd_args c)) by (by destruct (cmd_args c)).
      replace (Z.of_nat (S (Args_len (cmd_args c)))) with (1 + Z.of_nat (Args_len (cmd_args c))) by lia.
      apply show_int_line. lia.
    + exact (write_bulks_replies 1 (cmd_command c :: Args_slices (cmd_args c)) Hb).
  - exists r. split; [exact E|]. unfold Command_byte_length. by rewrite Hr.
Qed.

(** [SET], a key with a line end in it, an empty value; another command follows. *)
Lemma Command_write_read_witness :
  let c := mkCommand [83; 69; 84] (Raw [[107; 13; 10]; []]) in
  exists r, read_value (P := integer_platform) (reader_init (Command_write c ++ [42; 49])) =
      Done (r, inr (Array [BulkString (Some [83; 69; 84]); BulkString (Some [107; 13; 10]); BulkString (Some [])])) /\
    Z.of_nat (rd_pos r) = Command_byte_length c.
Proof.
  intros c. apply (Command_write_read (P := integer_platform) c [42; 49]).
  - repeat (constructor; [by vm_compute|]). constructor.
  - by vm_compute.
Defined.
