(* ===== verification/Heap.v ===== *)
(** * The intrusive pairing heap

    [src/src/io/heap.rs]: the heap of timers and of lifecycle scripts. Nodes are
    addresses in a store of their link fields, so that every write through a
    raw pointer is a write to the shared store; reading through a null or
    dangling pointer is a panic. [HeapOrder] is what the trait [HeapContext]
    owes the heap. *)
From Stdlib Require Import ZArith Lia.
From stdpp Require Import base list numbers option gmap sorting.
From S2P Require Import Prelude.

(** ** The store *)

Abbreviation ptr := positive.

(** A null pointer is [None]. *)
Record IntrusiveField : Type := mkField {
  hf_child : option ptr;
  hf_prev : option ptr;
  hf_next : option ptr;
}.
#[export] Instance IntrusiveField_eq_dec : EqDecision IntrusiveField.
Proof. solve_decision. Defined.
Definition IntrusiveField_default : IntrusiveField := mkField None None None.

Abbreviation store := (gmap ptr IntrusiveField).

Definition get (σ : store) (p : ptr) : outcome IntrusiveField :=
  match σ !! p with Some f => Done f | None => Panic end.

Definition set_child (σ : store) (p : ptr) (x : option ptr) : outcome store :=
  let! f := get σ p in Done (<[p := mkField x f.(hf_prev) f.(hf_next)]> σ).
Definition set_prev (σ : store) (p : ptr) (x : option ptr) : outcome store :=
  let! f := get σ p in Done (<[p := mkField f.(hf_child) x f.(hf_next)]> σ).
Definition set_next (σ : store) (p : ptr) (x : option ptr) : outcome store :=
  let! f := get σ p in Done (<[p := mkField f.(hf_child) f.(hf_prev) x]> σ).

(** The ordering relation a context supplies. *)
Class HeapContext : Type := less : ptr -> ptr -> bool.

(** ** Operations *)

Section Operations.
Context {ctx : HeapContext}.

Definition meld (σ : store) (a b : ptr) : outcome (store * ptr) :=
  if less a b then
    let! σ := set_prev σ b (Some a) in
    let! fb := get σ b in
    let! σ := match fb.(hf_next) with
              | Some b_next =>
                  let! σ := set_next σ a (Some b_next) in
                  let! σ := set_prev σ b_next (Some a) in
                  set_next σ b None
              | None => Done σ
              end in
    let! fa := get σ a in
    let! σ := match fa.(hf_child) with
              | Some a_child =>
                  let! σ := set_next σ b (Some a_child) in
                  set_prev σ a_child (Some b)
              | None => Done σ
              end in
    let! σ := set_child σ a (Some b) in
    Done (σ, a)
  else
    let! fa := get σ a in
    let! σ := set_prev σ b fa.(hf_prev) in
    let! σ := set_prev σ a (Some b) in
    let! fb := get σ b in
    let! σ := match fb.(hf_child) with
              | Some b_child =>
                  let! σ := set_next σ a (Some b_child) in
                  set_prev σ b_child (Some a)
              | None => Done σ
              end in
    let! σ := set_child σ b (Some a) in
    Done (σ, b).

(** "Merge pairs right"; every round takes two siblings. *)
Fixpoint merge_right (fuel : nat) (σ : store) (a : ptr) : outcome (store * ptr) :=
  match fuel with
  | O => NoFuel
  | S fuel' =>
      let! fa := get σ a in
      match fa.(hf_next) with
      | None => Done (σ, a)
      | Some b =>
          let! σ := set_next σ a None in
          let! (σ, b) := meld σ a b in
          let! fb := get σ b in
          match fb.(hf_next) with
          | None => Done (σ, b)
          | Some next_a => merge_right fuel' σ next_a
          end
      end
  end.

(** "Merge pairs left"; every round takes a pair off the list. *)
Fixpoint merge_left (fuel : nat) (σ : store) (root : ptr) : outcome (store * ptr) :=
  match fuel with
  | O => NoFuel
  | S fuel' =>
      let! fr := get σ root in
      match fr.(hf_prev) with
      | None => Done (σ, root)
      | Some b =>
          let! σ := set_next σ b None in
          let! (σ, root) := meld σ b root in
          merge_left fuel' σ root
      end
  end.

(** The nodes of the store bound both loops. *)
Definition combine_siblings (σ : store) (left : ptr) : outcome (store * ptr) :=
  let! σ := set_prev σ left None in
  let! (σ, root) := merge_right (S (size σ)) σ left in
  merge_left (S (size σ)) σ root.

(** The heap: the store its nodes live in, and [root]. *)
Record Intrusive : Type := mkHeap { h_store : store; h_root : option ptr }.

Definition Intrusive_insert (h : Intrusive) (v : ptr) : outcome Intrusive :=
  match h.(h_root) with
  | Some root => let! (σ, r) := meld h.(h_store) v root in Done (mkHeap σ (Some r))
  | None => Done (mkHeap h.(h_store) (Some v))
  end.

Definition Intrusive_peek (h : Intrusive) : option ptr := h.(h_root).

Definition Intrusive_delete_min (h : Intrusive) : outcome (Intrusive * option ptr) :=
  match h.(h_root) with
  | None => Done (h, None)
  | Some root =>
      let! f := get h.(h_store) root in
      let! (σ, root') :=
        match f.(hf_child) with
        | Some child => let! (σ, r) := combine_siblings h.(h_store) child in Done (σ, Some r)
        | None => Done (h.(h_store), None)
        end in
      let! _ := get σ root in
      Done (mkHeap (<[root := IntrusiveField_default]> σ) root', Some root)
  end.

(** The unlinking of [v] from the node before it, in [remove]. *)
Definition detach (σ : store) (v prev : ptr) (v_next : option ptr) : outcome store :=
  let! σ := match v_next with Some n => set_prev σ n (Some prev) | None => Done σ end in
  let! fp := get σ prev in
  let! σ := if bool_decide (fp.(hf_child) = Some v) then set_child σ prev v_next else set_next σ prev v_next in
  let! σ := set_prev σ v None in
  set_next σ v None.

Definition Intrusive_remove (h : Intrusive) (v : ptr) : outcome Intrusive :=
  let! fv := get h.(h_store) v in
  match fv.(hf_prev) with
  | None => let! (h, _) := Intrusive_delete_min h in Done h
  | Some prev =>
      let! σ := detach h.(h_store) v prev fv.(hf_next) in
      let! fv := get σ v in
      match fv.(hf_child) with
      | None => Done (mkHeap σ h.(h_root))
      | Some child =>
          let! σ := set_child σ v None in
          let! (σ, x) := combine_siblings σ child in
          match h.(h_root) with
          | None => Panic
          | Some root => let! (σ, r) := meld σ x root in Done (mkHeap σ (Some r))
          end
      end
  end.

(** [count_internal]; a path through the heap visits no node twice. *)
Fixpoint count_internal (fuel : nat) (σ : store) (node : option ptr) : outcome nat :=
  match node with
  | None => Done 0
  | Some current =>
      match fuel with
      | O => NoFuel
      | S fuel' =>
          let! f := get σ current in
          let! c := count_internal fuel' σ f.(hf_child) in
          let! n := count_internal fuel' σ f.(hf_next) in
          Done (1 + c + n)
      end
  end.

Definition Intrusive_count (h : Intrusive) : outcome nat := count_internal (size h.(h_store)) h.(h_store) h.(h_root).

Fixpoint find_max_internal (fuel : nat) (σ : store) (node current_max : ptr) : outcome ptr :=
  match fuel with
  | O => NoFuel
  | S fuel' =>
      let max_so_far := if less current_max node then node else current_max in
      let! f := get σ node in
      let! max_so_far := match f.(hf_child) with Some child => find_max_internal fuel' σ child max_so_far | None => Done max_so_far end in
      match f.(hf_next) with Some next => find_max_internal fuel' σ next max_so_far | None => Done max_so_far end
  end.

Definition Intrusive_find_max (h : Intrusive) : outcome (option ptr) :=
  match h.(h_root) with
  | None => Done None
  | Some root => let! m := find_max_internal (size h.(h_store)) h.(h_store) root root in Done (Some m)
  end.
End Operations.

(** ** Forests

    The abstract heap: a node with the forest of its children and the forest
    of its further siblings. *)

Inductive forest : Type :=
| Nil
| Cons (p : ptr) (children siblings : forest).

Fixpoint nodes (f : forest) : list ptr :=
  match f with Nil => [] | Cons p c s => p :: nodes c ++ nodes s end.

(** The links of a forest: the first node, and the node or parent before it. *)
Fixpoint linked (σ : store) (prev : option ptr) (f : forest) (first : option ptr) : Prop :=
  match f with
  | Nil => first = None
  | Cons p c s =>
      first = Some p /\
      exists x, σ !! p = Some x /\ x.(hf_prev) = prev /\ linked σ (Some p) c x.(hf_child) /\ linked σ (Some p) s x.(hf_next)
  end.

(** A tree is a root with its children. *)
Abbreviation tree := (ptr * forest)%type.
Definition tnodes (t : tree) : list ptr := t.1 :: nodes t.2.

Section Link.
Context {ctx : HeapContext}.

Definition link (t u : tree) : tree :=
  if less t.1 u.1 then (t.1, Cons u.1 u.2 t.2) else (u.1, Cons t.1 t.2 u.2).

Fixpoint merge_pairs (f : forest) (done : list tree) : list tree :=
  match f with
  | Nil => done
  | Cons a A Nil => (a, A) :: done
  | Cons a A (Cons b B s) => merge_pairs s (link (a, A) (b, B) :: done)
  end.

Definition merge_back (t : tree) (done : list tree) : tree := fold_left (fun t u => link u t) done t.
End Link.

(** ** Links and the store *)

Definition same_dom (σ σ' : store) : Prop := forall p, is_Some (σ' !! p) <-> is_Some (σ !! p).

(** [σ'] differs from [σ] on the nodes [l] at most. *)
Definition touches (l : list ptr) (σ σ' : store) : Prop :=
  (forall p, p ∉ l -> σ' !! p = σ !! p) /\ same_dom σ σ'.

Lemma touches_refl l σ : touches l σ σ.
Proof. by split. Qed.

Lemma touches_trans l σ1 σ2 σ3 : touches l σ1 σ2 -> touches l σ2 σ3 -> touches l σ1 σ3.
Proof. intros [H1 D1] [H2 D2]. split; [intros p Hp; by rewrite H2, H1|]. intros p. by rewrite (D2 p), (D1 p). Qed.

Lemma touches_mono l l' σ σ' : (forall p, p ∈ l -> p ∈ l') -> touches l σ σ' -> touches l' σ σ'.
Proof. intros Hl [H D]. split; [|done]. intros p Hp. apply H. auto. Qed.

Lemma touches_insert l σ p x : p ∈ l -> is_Some (σ !! p) -> touches l σ (<[p := x]> σ).
Proof.
  intros Hp Hs. split.
  - intros q Hq. rewrite lookup_insert_ne; [done|]. intros ->. done.
  - intros q. destruct (decide (p = q)) as [->|]; [by rewrite lookup_insert_eq|by rewrite lookup_insert_ne].
Qed.

Lemma linked_frame σ σ' f : forall prev first,
  (forall p, p ∈ nodes f -> σ' !! p = σ !! p) -> linked σ prev f first -> linked σ' prev f first.
Proof.
  induction f as [|p c IHc s IHs]; intros prev first Hσ; [done|]. intros (-> & x & Hx & Hp & Hc & Hs).
  split; [done|]. exists x. rewrite Hσ by (by left). split_and!; [done|done|apply IHc|apply IHs]; try done;
    intros q Hq; apply Hσ; cbn; right; rewrite elem_of_app; auto.
Qed.

Lemma linked_touches l σ σ' f prev first :
  touches l σ σ' -> (forall p, p ∈ l -> p ∉ nodes f) -> linked σ prev f first -> linked σ' prev f first.
Proof. intros [H _] Hl. apply linked_frame. intros p Hp. apply H. intros Hp'. by apply (Hl p). Qed.

Lemma linked_dom σ f : forall prev first, linked σ prev f first -> forall p, p ∈ nodes f -> is_Some (σ !! p).
Proof.
  induction f as [|q c IHc s IHs]; intros prev first; [by intros _ p ?%not_elem_of_nil|].
  intros (-> & x & Hx & _ & Hc & Hs) p. cbn. intros [->|[H|H]%elem_of_app]%elem_of_cons; eauto.
Qed.

Lemma linked_nil σ prev f : linked σ prev f None -> f = Nil.
Proof. destruct f; [done|]. by intros []. Qed.

Lemma linked_Some σ prev f p : linked σ prev f (Some p) -> exists c s, f = Cons p c s.
Proof. destruct f as [|q c s]; [done|]. intros [[= ->] _]. by exists c, s. Qed.

Lemma nodes_size σ l : NoDup l -> (forall p, p ∈ l -> is_Some (σ !! p)) -> length l <= size (σ : store).
Proof.
  intros Hn Hd. rewrite <- size_dom. rewrite <- (size_list_to_set (C := gset ptr) l) by done. apply subseteq_size.
  intros p Hp. apply elem_of_list_to_set in Hp. by apply elem_of_dom, Hd.
Qed.

(** Disjointness facts of a list of nodes without repetition. *)
Ltac split_nodup :=
  cbn [nodes] in *;
  repeat match goal with
  | H : NoDup (_ :: _) |- _ => apply NoDup_cons in H; destruct H
  | H : NoDup (_ ++ _) |- _ => apply NoDup_app in H; destruct H as (? & ? & ?)
  end.

(** A forest that the writes did not reach. *)
Ltac frame :=
  (eapply linked_frame; [|eassumption]; intros ?q ?Hq; rewrite ?lookup_insert_ne by (intros ->; set_solver); done).

(** The write of [prev] into the first node of a forest, if there is one. *)
Lemma set_prev_first σ prev prev' f first :
  linked σ prev f first -> NoDup (nodes f) ->
  exists σ', match first with Some n => set_prev σ n prev' | None => Done σ end = Done σ' /\
    linked σ' prev' f first /\ touches (nodes f) σ σ'.
Proof.
  intros Hl Hn. destruct f as [|p c s]; cbn in Hl; [subst first; exists σ; split_and!; [done|done|apply touches_refl]|].
  destruct Hl as (-> & x & Hx & Hp & Hc & Hs). unfold set_prev, get. rewrite Hx. cbn [obind]. eexists. split; [done|].
  cbn in Hn. apply NoDup_cons in Hn as [Hp1 _]. rewrite elem_of_app in Hp1. split.
  - split; [done|]. eexists. rewrite lookup_insert_eq. split_and!; [done|done|frame|frame].
  - apply touches_insert; [cbn; by left|by eexists].
Qed.

Lemma linked_cons σ prev p c s x :
  σ !! p = Some x -> hf_prev x = prev -> linked σ (Some p) c (hf_child x) -> linked σ (Some p) s (hf_next x) ->
  linked σ prev (Cons p c s) (Some p).
Proof. intros. split; [done|]. by exists x. Qed.

Lemma linked_inv σ prev p c s first :
  linked σ prev (Cons p c s) first ->
  first = Some p /\ exists x, σ !! p = Some x /\ hf_prev x = prev /\ linked σ (Some p) c (hf_child x) /\ linked σ (Some p) s (hf_next x).
Proof. done. Qed.

Lemma linked_nil_inv σ prev first : linked σ prev Nil first -> first = None.
Proof. done. Qed.

#[global] Arguments linked : simpl never.

(** ** Meld *)

Section Meld.
Context {ctx : HeapContext}.

Ltac run_store := unfold set_prev, set_next, set_child, get; repeat (simplify_map_eq; cbn [obind hf_child hf_prev hf_next]).
Ltac node := eapply linked_cons; [by simplify_map_eq|done|cbn [hf_child hf_next]|cbn [hf_child hf_next]].
Ltac touched := repeat (eapply touches_trans; [|apply touches_insert; [set_solver|simplify_map_eq; by eexists]]); apply touches_refl.

Lemma meld_less σ a A pa b B R pb :
  less a b = true ->
  linked σ pa (Cons a A Nil) (Some a) -> linked σ pb (Cons b B R) (Some b) -> NoDup (a :: nodes A ++ b :: nodes B ++ nodes R) ->
  exists σ', meld σ a b = Done (σ', a) /\ linked σ' pa (Cons a (Cons b B A) R) (Some a) /\
    touches (a :: nodes A ++ b :: nodes B ++ nodes R) σ σ'.
Proof.
  intros Hless (_ & xa & Hxa & Hpa & HA & HN) (_ & xb & Hxb & Hpb & HB & HR) Hnd. destruct xa as [ca pa' na], xb as [cb pb' nb].
  apply linked_nil_inv in HN. cbn [hf_child hf_prev hf_next] in *. subst pa' na pb'.
  unfold meld. rewrite Hless. destruct R as [|n N S], A as [|c C D]; split_nodup;
    assert (a <> b) as Hab by (intros ->; set_solver);
    repeat match goal with
    | H : linked _ _ Nil _ |- _ => apply linked_nil_inv in H; subst
    | H : linked _ _ (Cons ?p _ _) _ |- _ =>
        apply linked_inv in H; destruct H as (-> & ?x & ?Hx & ?Hp & ?Hc & ?Hs);
        assert (a <> p) by (intros ->; set_solver); assert (b <> p) by (intros ->; set_solver)
    end.
  - run_store. eexists. split; [reflexivity|]. split; [|touched]. node; [|done]. node; [frame|done].
  - run_store. eexists. split; [reflexivity|]. split; [|touched]. node; [|done]. node; [frame|]. node; frame.
  - run_store. eexists. split; [reflexivity|]. split; [|touched]. node; [node; [frame|done]|]. node; frame.
  - assert (c <> n) by (intros ->; set_solver).
    run_store. eexists. split; [reflexivity|]. split; [|touched]. node; [node; [frame|node; frame]|]. node; frame.
Qed.

Lemma meld_not_less σ a A pa b B R pb :
  less a b = false ->
  linked σ pa (Cons a A Nil) (Some a) -> linked σ pb (Cons b B R) (Some b) -> NoDup (a :: nodes A ++ b :: nodes B ++ nodes R) ->
  exists σ', meld σ a b = Done (σ', b) /\ linked σ' pa (Cons b (Cons a A B) R) (Some b) /\
    touches (a :: nodes A ++ b :: nodes B ++ nodes R) σ σ'.
Proof.
  intros Hless (_ & xa & Hxa & Hpa & HA & HN) (_ & xb & Hxb & Hpb & HB & HR) Hnd. destruct xa as [ca pa' na], xb as [cb pb' nb].
  apply linked_nil_inv in HN. cbn [hf_child hf_prev hf_next] in *. subst pa' na pb'.
  unfold meld. rewrite Hless. destruct B as [|c C D]; split_nodup; assert (a <> b) as Hab by (intros ->; set_solver);
    repeat match goal with
    | H : linked _ _ Nil _ |- _ => apply linked_nil_inv in H; subst
    | H : linked _ _ (Cons ?p _ _) _ |- _ =>
        apply linked_inv in H; destruct H as (-> & ?x & ?Hx & ?Hp & ?Hc & ?Hs);
        assert (a <> p) by (intros ->; set_solver); assert (b <> p) by (intros ->; set_solver)
    end.
  - run_store. eexists. split; [reflexivity|]. split; [|touched]. node; [|frame]. node; [frame|done].
  - run_store. eexists. split; [reflexivity|]. split; [|touched]. node; [|frame]. node; [frame|]. node; frame.
Qed.

Lemma meld_spec σ pa t pb u R :
  linked σ pa (Cons t.1 t.2 Nil) (Some t.1) -> linked σ pb (Cons u.1 u.2 R) (Some u.1) -> NoDup (tnodes t ++ tnodes u ++ nodes R) ->
  exists σ', meld σ t.1 u.1 = Done (σ', (link t u).1) /\
    linked σ' pa (Cons (link t u).1 (link t u).2 R) (Some (link t u).1) /\ touches (tnodes t ++ tnodes u ++ nodes R) σ σ'.
Proof.
  destruct t as [a A], u as [b B]. unfold link, tnodes. cbn [fst snd]. intros H1 H2 Hn. destruct (less a b) eqn:E.
  - by eapply meld_less.
  - by eapply meld_not_less.
Qed.
End Meld.
