(* ===== verification/HeapTheorems.v ===== *)
(** * The pairing heap: siblings, removal, and the order

    [combine_siblings] melds a row of trees into one, [remove] cuts a node out
    of the links around it; both are followed on forests, where the heap order
    is a property of a tree and the contents a permutation of its nodes. *)
From Stdlib Require Import ZArith Lia.
From stdpp Require Import base list numbers option gmap sorting.
From S2P Require Import Prelude Heap.

(** ** Combining siblings *)

Definition lnodes (ts : list tree) : list ptr := concat (map tnodes ts).

(** Trees behind each other by [prev]; what their [next] heap_holds is stale. *)
Fixpoint chain (σ : store) (ts : list tree) (last : option ptr) : Prop :=
  match ts with
  | [] => last = None
  | t :: ts => last = Some t.1 /\ exists x, σ !! t.1 = Some x /\ linked σ (Some t.1) t.2 x.(hf_child) /\ chain σ ts x.(hf_prev)
  end.

Lemma chain_head σ ts last : chain σ ts last -> last = (fst <$> head ts).
Proof. destruct ts; [done|]. by intros [-> _]. Qed.

Lemma chain_touches l σ σ' ts : forall last,
  touches l σ σ' -> (forall p, p ∈ l -> p ∉ lnodes ts) -> chain σ ts last -> chain σ' ts last.
Proof.
  induction ts as [|t ts IH]; intros last Ho Hl; [done|]. intros (-> & x & Hx & Hc & Hs).
  assert (forall p, p ∈ l -> p <> t.1 /\ (p ∉ nodes t.2) /\ (p ∉ lnodes ts)) as Hl'.
  { intros p Hp%Hl. unfold lnodes, tnodes in *. cbn in Hp. set_solver. }
  split; [done|]. exists x. split_and!.
  - rewrite (proj1 Ho); [done|]. intros Hp. by apply Hl' in Hp as (? & _).
  - eapply linked_touches; [done| |done]. intros p Hp. by apply Hl'.
  - apply IH; [done| |done]. intros p Hp. by apply Hl'.
Qed.

Lemma nodup_perm (l k : list ptr) : l ≡ₚ k -> NoDup l -> NoDup k.
Proof. by intros ->. Qed.

Lemma lnodes_length ts : length ts <= length (lnodes ts).
Proof. induction ts as [|t ts IH]; [done|]. unfold lnodes in *. cbn. rewrite length_app. lia. Qed.

Section Combine.
Context {ctx : HeapContext}.

Definition combine (f : forest) : option tree :=
  match merge_pairs f [] with [] => None | t :: ts => Some (merge_back t ts) end.

Lemma link_nodes t u : tnodes (link t u) ≡ₚ tnodes t ++ tnodes u.
Proof. unfold link, tnodes. case_match; cbn; solve_Permutation. Qed.

Lemma merge_back_nodes ts : forall t, tnodes (merge_back t ts) ≡ₚ tnodes t ++ lnodes ts.
Proof.
  unfold merge_back, lnodes. induction ts as [|u ts IH]; intros t; cbn [fold_left map concat]; [by rewrite app_nil_r|].
  rewrite IH, link_nodes. solve_Permutation.
Qed.

(** Two siblings at a time. *)
Fixpoint forest_pairs_ind (P : forest -> Prop) (H0 : P Nil) (H1 : forall a A, P (Cons a A Nil))
    (H2 : forall a A b B s, P s -> P (Cons a A (Cons b B s))) (f : forest) : P f :=
  match f with
  | Nil => H0
  | Cons a A Nil => H1 a A
  | Cons a A (Cons b B s) => H2 a A b B s (forest_pairs_ind P H0 H1 H2 s)
  end.

Lemma merge_pairs_nodes f : forall ts, lnodes (merge_pairs f ts) ≡ₚ nodes f ++ lnodes ts.
Proof.
  unfold lnodes. induction f as [|a A|a A b B s IH] using forest_pairs_ind; intros ts; cbn [merge_pairs map concat nodes]; [done| |].
  - unfold tnodes. cbn. by rewrite app_nil_r.
  - rewrite IH. cbn [map concat]. rewrite link_nodes. unfold tnodes. cbn. solve_Permutation.
Qed.

Lemma combine_nodes f t : combine f = Some t -> tnodes t ≡ₚ nodes f.
Proof.
  unfold combine. intros H. pose proof (merge_pairs_nodes f []) as Hp. destruct (merge_pairs f []) as [|u us]; [done|].
  injection H as <-. rewrite merge_back_nodes. rewrite <- (app_nil_r (nodes f)). rewrite <- Hp. done.
Qed.

Lemma merge_right_spec f : forall fuel σ ts a prev,
  chain σ ts prev -> linked σ prev f (Some a) -> NoDup (nodes f ++ lnodes ts) -> length (nodes f) <= fuel ->
  exists σ' u us, merge_pairs f ts = u :: us /\ merge_right fuel σ a = Done (σ', u.1) /\
    linked σ' (fst <$> head us) (Cons u.1 u.2 Nil) (Some u.1) /\ chain σ' us (fst <$> head us) /\ touches (nodes f) σ σ'.
Proof.
  induction f as [|a A|a A b B s IH] using forest_pairs_ind; intros fuel σ ts a' prev Hch Hl Hn Hf; [by inversion Hl| |];
    (destruct fuel as [|fuel]; [cbn in Hf; lia|]); apply linked_inv in Hl as ([= ->] & x & Hx & Hp & HA & Hs);
    cbn [merge_right merge_pairs]; unfold get at 1; rewrite Hx; cbn [obind].
  - apply linked_nil_inv in Hs. rewrite Hs. exists σ, (a, A), ts. rewrite <- (chain_head _ _ _ Hch).
    split_and!; [done|done| |done|apply touches_refl]. by eapply linked_cons; [..|rewrite Hs].
  - assert (hf_next x = Some b) as Hb by (by destruct (linked_inv _ _ _ _ _ _ Hs)). rewrite Hb in Hs |- *.
    unfold set_next, get at 1. rewrite Hx. cbn [obind].
    set (σ1 := <[a := _]> σ). assert (touches [a] σ σ1) as O1 by (apply touches_insert; [by left|by eexists]).
    cbn [nodes] in Hn. change (a :: nodes A ++ b :: nodes B ++ nodes s) with (nodes (Cons a A (Cons b B s))).
    assert (linked σ1 prev (Cons a A Nil) (Some a)) as La.
    { eapply linked_cons; [apply lookup_insert_eq|done|cbn|done]. eapply linked_touches; [done| |done]. split_nodup. set_solver. }
    assert (linked σ1 (Some a) (Cons b B s) (Some b)) as Lb.
    { eapply linked_touches; [done| |done]. cbn [nodes]. split_nodup. set_solver. }
    destruct (meld_spec σ1 prev (a, A) (Some a) (b, B) s) as (σ2 & Hm & L2 & O2); [done|done| |].
    { cbn [tnodes fst snd]. by apply NoDup_app in Hn as [Hn _]. }
    cbn [fst snd] in Hm. rewrite Hm. cbn [obind]. set (l := link (a, A) (b, B)) in *.
    change (tnodes (a, A) ++ tnodes (b, B) ++ nodes s) with (nodes (Cons a A (Cons b B s))) in O2.
    assert (touches (nodes (Cons a A (Cons b B s))) σ σ2) as O3.
    { eapply touches_trans; [|done]. eapply touches_mono; [|done]. intros p ->%list_elem_of_singleton. by left. }
    assert (chain σ2 ts prev) as C2.
    { eapply chain_touches; [done| |done]. by apply NoDup_app in Hn as (_ & Hn & _). }
    pose proof L2 as Hy. apply linked_inv in Hy as (_ & y & Hy & Hyp & Hyc & Hys). unfold get at 1. rewrite Hy. cbn [obind].
    destruct s as [|n N s'].
    + apply linked_nil_inv in Hys. rewrite Hys. exists σ2, l, ts. rewrite <- (chain_head _ _ _ Hch). by split_and!.
    + pose proof (linked_inv _ _ _ _ _ _ Hys) as [Hnext _]. rewrite Hnext in Hys |- *.
      destruct (IH fuel σ2 (l :: ts) n (Some l.1)) as (σ' & u & us & H1 & H2 & H3 & H4 & H5); [|done| | |].
      { split; [done|]. exists y. rewrite Hyp. by split_and!. }
      { cbn [nodes] in Hn |- *. eapply nodup_perm; [|exact Hn]. unfold lnodes. cbn [map concat]. unfold l. rewrite link_nodes. unfold tnodes. cbn.
        solve_Permutation. }
      { cbn [nodes] in Hf |- *. repeat rewrite ?length_app, ?length_cons in *. lia. }
      exists σ', u, us. split_and!; [done..|]. eapply touches_trans; [done|]. eapply touches_mono; [|done]. cbn. set_solver.
Qed.

Lemma merge_left_spec ts : forall fuel σ t prev,
  chain σ ts prev -> linked σ prev (Cons t.1 t.2 Nil) (Some t.1) -> NoDup (tnodes t ++ lnodes ts) -> length ts < fuel ->
  exists σ', merge_left fuel σ t.1 = Done (σ', (merge_back t ts).1) /\
    linked σ' None (Cons (merge_back t ts).1 (merge_back t ts).2 Nil) (Some (merge_back t ts).1) /\ touches (tnodes t ++ lnodes ts) σ σ'.
Proof.
  induction ts as [|u ts IH]; intros fuel σ t prev Hch Hl Hn Hf; (destruct fuel as [|fuel]; [cbn in Hf; lia|]);
    pose proof Hl as Hx; apply linked_inv in Hx as (_ & x & Hx & Hp & HA & Hs); cbn [merge_left]; unfold get at 1; rewrite Hx; cbn [obind]; rewrite Hp.
  - cbn in Hch. rewrite Hch in *. exists σ. split_and!; [done|done|apply touches_refl].
  - destruct Hch as (-> & y & Hy & Hyc & Hyp). unfold set_next, get at 1. rewrite Hy. cbn [obind].
    set (σ1 := <[u.1 := _]> σ). assert (touches [u.1] σ σ1) as O1 by (apply touches_insert; [by left|by eexists]).
    unfold lnodes in Hn |- *. cbn [map concat] in Hn |- *. fold (lnodes ts) in Hn |- *.
    assert (NoDup (tnodes u ++ tnodes t ++ lnodes ts)) as Hn' by (eapply nodup_perm; [|exact Hn]; solve_Permutation).
    assert (linked σ1 (hf_prev y) (Cons u.1 u.2 Nil) (Some u.1)) as Lu.
    { eapply linked_cons; [apply lookup_insert_eq|done|cbn|done]. eapply linked_touches; [done| |done].
      apply NoDup_app in Hn' as (Hn' & _). unfold tnodes in Hn'. split_nodup. set_solver. }
    assert (forall p, p ∈ [u.1] -> p ∉ tnodes t ++ lnodes ts) as Hu.
    { intros p ->%list_elem_of_singleton. apply NoDup_app in Hn' as (_ & Hn' & _). apply Hn'. by left. }
    destruct (meld_spec σ1 (hf_prev y) u (Some u.1) t Nil) as (σ2 & Hm & L2 & O2); [done| | |].
    { eapply linked_touches; [done| |done]. intros p Hp'%Hu. unfold tnodes in Hp'. cbn. set_solver. }
    { cbn [nodes]. rewrite app_nil_r. rewrite app_assoc in Hn'. by apply NoDup_app in Hn' as [Hn' _]. }
    rewrite Hm. cbn [obind]. cbn [nodes] in O2. rewrite app_nil_r in O2.
    assert (touches (tnodes t ++ tnodes u ++ lnodes ts) σ σ2) as O3.
    { eapply touches_trans; (eapply touches_mono; [|done]); intros p; unfold tnodes; set_solver. }
    destruct (IH fuel σ2 (link u t) (hf_prev y)) as (σ' & H1 & H2 & H3); [|done| |cbn in Hf; lia|].
    { eapply chain_touches; [exact O2| |]. { rewrite app_assoc in Hn'. by apply NoDup_app in Hn' as (_ & Hn' & _). }
      eapply chain_touches; [exact O1| |done]. intros p Hp'%Hu. set_solver. }
    { by rewrite link_nodes, <- app_assoc. }
    exists σ'. split_and!; [done|done|]. eapply touches_trans; [done|]. eapply touches_mono; [|done].
    intros p. rewrite link_nodes. set_solver.
Qed.

Lemma combine_siblings_spec σ prev f left :
  linked σ prev f (Some left) -> NoDup (nodes f) ->
  exists σ' t, combine f = Some t /\ combine_siblings σ left = Done (σ', t.1) /\
    linked σ' None (Cons t.1 t.2 Nil) (Some t.1) /\ touches (nodes f) σ σ'.
Proof.
  intros Hl Hn. destruct (set_prev_first σ prev None f (Some left) Hl Hn) as (σ1 & E1 & L1 & O1).
  unfold combine_siblings. rewrite E1. cbn [obind].
  assert (length (nodes f) <= size σ1) as Hsz by (apply nodes_size; [done|by eapply linked_dom]).
  destruct (merge_right_spec f (S (size σ1)) σ1 [] left None) as (σ2 & t & ts & Hm & E2 & L2 & C2 & O2);
    [done|done|by rewrite app_nil_r|lia|].
  rewrite E2. cbn [obind]. pose proof (merge_pairs_nodes f []) as Hp. rewrite Hm, app_nil_r in Hp.
  unfold lnodes in Hp. cbn [map concat] in Hp. fold (lnodes ts) in Hp.
  assert (length ts < S (size σ2)) as Hsz2.
  { assert (length (lnodes ts) <= size σ2) as Hd.
    { apply nodes_size; [rewrite <- Hp in Hn; by apply NoDup_app in Hn as (_ & _ & Hn)|].
      intros p H. apply O2. apply (linked_dom _ _ _ _ L1). rewrite <- Hp. set_solver. }
    pose proof (lnodes_length ts). lia. }
  destruct (merge_left_spec ts (S (size σ2)) σ2 t (fst <$> head ts)) as (σ3 & E3 & L3 & O3); [done|done|by rewrite Hp|done|].
  exists σ3, (merge_back t ts). unfold combine. rewrite Hm. split_and!; [done|done|done|].
  eapply touches_trans; [done|]. eapply touches_trans; [done|]. eapply touches_mono; [|done]. intros p. by rewrite Hp.
Qed.
End Combine.

(** ** Cutting a node out *)

(** [cut v f f' C]: without [v] and its children [C], the forest [f] is [f']. *)
Inductive cut (v : ptr) : forest -> forest -> forest -> Prop :=
| cut_here C s : cut v (Cons v C s) s C
| cut_child p c c' s C : v <> p -> cut v c c' C -> cut v (Cons p c s) (Cons p c' s) C
| cut_next p c s s' C : v <> p -> cut v s s' C -> cut v (Cons p c s) (Cons p c s') C.

Lemma cut_exists v f : v ∈ nodes f -> exists f' C, cut v f f' C.
Proof.
  induction f as [|p c IHc s IHs]; [by intros ?%not_elem_of_nil|]. cbn. destruct (decide (v = p)) as [->|Hv].
  - intros _. eexists _, _. constructor.
  - intros [?|[H|H]%elem_of_app]%elem_of_cons; [done| |].
    + destruct (IHc H) as (f' & C & ?). eexists _, _. by apply cut_child.
    + destruct (IHs H) as (f' & C & ?). eexists _, _. by apply cut_next.
Qed.

Lemma cut_nodes v f f' C : cut v f f' C -> nodes f ≡ₚ v :: nodes f' ++ nodes C.
Proof. induction 1 as [C s|p c c' s C _ _ IH|p c s s' C _ _ IH]; cbn; rewrite ?IH; solve_Permutation. Qed.

(** The node before [v], with [next] in the place of [v]. *)
Definition relinked (v : ptr) (next : option ptr) (x : IntrusiveField) : IntrusiveField :=
  if bool_decide (x.(hf_child) = Some v) then mkField next x.(hf_prev) x.(hf_next) else mkField x.(hf_child) x.(hf_prev) next.

(** The node before [v] takes the place of [v]. *)
Lemma detach_here σ p xp v C s :
  σ !! p = Some xp -> linked σ (Some p) (Cons v C s) (Some v) -> NoDup (p :: nodes (Cons v C s)) ->
  exists σ' x, σ !! v = Some x /\ x.(hf_prev) = Some p /\ detach σ v p x.(hf_next) = Done σ' /\
    linked σ' (Some p) s x.(hf_next) /\ linked σ' None (Cons v C Nil) (Some v) /\
    σ' !! p = Some (relinked v x.(hf_next) xp) /\
    touches (p :: nodes (Cons v C s)) σ σ'.
Proof.
  intros Hp (_ & x & Hx & Hxp & HC & Hs)%linked_inv Hn. split_nodup.
  destruct (set_prev_first σ (Some v) (Some p) s (hf_next x)) as (σ1 & E1 & L1 & O1); [done|done|].
  assert (σ1 !! p = Some xp /\ σ1 !! v = Some x) as [Hp1 Hx1] by (split; rewrite (proj1 O1) by set_solver; done).
  assert (linked σ1 (Some v) C (hf_child x)) as LC by (eapply linked_touches; [done| |done]; set_solver).
  assert (p <> v) as Hpv by set_solver.
  set (xp' := relinked v (hf_next x) xp).
  assert (detach σ v p (hf_next x) = Done (<[v := mkField (hf_child x) None None]> (<[p := xp']> σ1))) as Ed.
  { unfold detach. rewrite E1. cbn [obind]. unfold set_child, set_next, set_prev, get. rewrite Hp1. cbn [obind]. unfold xp', relinked.
    case_bool_decide; rewrite ?Hp1; cbn [obind]; rewrite lookup_insert_ne, Hx1 by done; cbn [obind];
    rewrite lookup_insert_eq; cbn [obind hf_child hf_prev hf_next]; by rewrite insert_insert_eq. }
  eexists _, x. split_and!; [done|done|exact Ed|frame| | |].
  - eapply linked_cons; [apply lookup_insert_eq|done|frame|done].
  - rewrite lookup_insert_ne by done. apply lookup_insert_eq.
  - eapply touches_trans; [eapply touches_mono; [|exact O1]; set_solver|].
    eapply touches_trans; apply touches_insert; [set_solver| |set_solver|]; rewrite ?lookup_insert_ne by done; by eexists.
Qed.

Lemma cut_first v C0 s0 f' C : cut v (Cons v C0 s0) f' C -> f' = s0 /\ C = C0.
Proof. by inversion 1. Qed.

Lemma detach_spec v f f' C : cut v f f' C -> forall σ prev first,
  linked σ prev f first -> NoDup (nodes f) -> first <> Some v ->
  exists σ' x q, σ !! v = Some x /\ x.(hf_prev) = Some q /\ detach σ v q x.(hf_next) = Done σ' /\
    linked σ' prev f' first /\ linked σ' None (Cons v C Nil) (Some v) /\ touches (nodes f) σ σ'.
Proof.
  induction 1 as [C s|p c c' s C Hvp Hcut IH|p c s s' C Hvp Hcut IH]; intros σ prev first Hl Hn Hv;
    apply linked_inv in Hl as (-> & xp & Hp & Hpp & Hc & Hs); [done| |]; cbn [nodes] in Hn; split_nodup.
  - destruct (decide (hf_child xp = Some v)) as [Ev|Ev].
    + rewrite Ev in Hc. destruct (linked_Some _ _ _ _ Hc) as (C0 & s0 & ->). apply cut_first in Hcut as [-> ->].
      destruct (detach_here σ p xp v C0 s0) as (σ' & x & Hx & Hxp & Ed & Ls & Lv & Hp' & O); [done|done|apply NoDup_cons; set_solver|].
      unfold relinked in Hp'. rewrite bool_decide_eq_true_2 in Hp' by done. exists σ', x, p. split_and!; [done..| |done|].
      * eapply linked_cons; [done|done|done|cbn]. eapply linked_touches; [done| |done]. set_solver.
      * eapply touches_mono; [|done]. set_solver.
    + destruct (IH σ (Some p) (hf_child xp)) as (σ' & x & q & Hx & Hxp & Ed & Lc & Lv & O); [done|done|done|].
      exists σ', x, q. split_and!; [done..| |done|].
      * eapply linked_cons; [rewrite (proj1 O); [done|set_solver]|done|done|]. eapply linked_touches; [done| |done]. set_solver.
      * eapply touches_mono; [|done]. set_solver.
  - destruct (decide (hf_next xp = Some v)) as [Ev|Ev].
    + rewrite Ev in Hs. destruct (linked_Some _ _ _ _ Hs) as (C0 & s0 & ->). apply cut_first in Hcut as [-> ->].
      destruct (detach_here σ p xp v C0 s0) as (σ' & x & Hx & Hxp & Ed & Ls & Lv & Hp' & O); [done|done|apply NoDup_cons; set_solver|].
      assert (hf_child xp <> Some v) as Hch.
      { intros E. rewrite E in Hc. destruct (linked_Some _ _ _ _ Hc) as (? & ? & ->). set_solver. }
      unfold relinked in Hp'. rewrite bool_decide_eq_false_2 in Hp' by done. exists σ', x, p. split_and!; [done..| |done|].
      * eapply linked_cons; [done|done|cbn|done]. eapply linked_touches; [done| |done]. set_solver.
      * eapply touches_mono; [|done]. set_solver.
    + destruct (IH σ (Some p) (hf_next xp)) as (σ' & x & q & Hx & Hxp & Ed & Lc & Lv & O); [done|done|done|].
      exists σ', x, q. split_and!; [done..| |done|].
      * eapply linked_cons; [rewrite (proj1 O); [done|set_solver]|done| |done]. eapply linked_touches; [done| |done]. set_solver.
      * eapply touches_mono; [|done]. set_solver.
Qed.

(** ** The heap order *)

(** What [less] owes the heap on the nodes [D]: it decides a total preorder,
    ties broken either way. *)
Class HeapOrder {ctx : HeapContext} (D : ptr -> Prop) (le : ptr -> ptr -> Prop) : Prop := {
  le_refl a : D a -> le a a;
  le_trans a b c : D a -> D b -> D c -> le a b -> le b c -> le a c;
  less_le a b : D a -> D b -> a <> b -> less a b = true -> le a b;
  not_less_le a b : D a -> D b -> a <> b -> less a b = false -> le b a;
}.

(** Every node before its children. *)
Fixpoint heaped (le : ptr -> ptr -> Prop) (f : forest) : Prop :=
  match f with
  | Nil => True
  | Cons p c s => (forall q, q ∈ nodes c -> le p q) /\ heaped le c /\ heaped le s
  end.

Definition theaped (le : ptr -> ptr -> Prop) (t : tree) : Prop := heaped le (Cons t.1 t.2 Nil).

Lemma theaped_leaf le v : theaped le (v, Nil).
Proof. split; [by intros q ?%not_elem_of_nil|done]. Qed.

Lemma heaped_mono (le le' : ptr -> ptr -> Prop) f :
  (forall a b, a ∈ nodes f -> b ∈ nodes f -> le a b -> le' a b) -> heaped le f -> heaped le' f.
Proof.
  induction f as [|p c IHc s IHs]; [done|]. intros Hl (Hp & Hc & Hs). cbn in Hl |- *. split_and!.
  - intros q Hq. apply Hl; [set_solver|set_solver|auto].
  - apply IHc; [|done]. intros a b ??. apply Hl; set_solver.
  - apply IHs; [|done]. intros a b ??. apply Hl; set_solver.
Qed.

Lemma cut_heaped le v f f' C : cut v f f' C -> heaped le f -> heaped le f' /\ heaped le C.
Proof.
  induction 1 as [C s|p c c' s C _ Hcut IH|p c s s' C _ Hcut IH]; intros (Hp & Hc & Hs); [done| |].
  - destruct (IH Hc). cbn. split_and!; [|done..]. intros q Hq. apply Hp. rewrite (cut_nodes _ _ _ _ Hcut). set_solver.
  - destruct (IH Hs). by split_and!.
Qed.

Section Order.
Context {ctx : HeapContext} {D : ptr -> Prop} {le : ptr -> ptr -> Prop} {order : HeapOrder D le}.

(** The root of a tree is a minimum. *)
Lemma theaped_min t q : (forall p, p ∈ tnodes t -> D p) -> theaped le t -> q ∈ tnodes t -> le t.1 q.
Proof. intros HD (Hp & _) [->|Hq]%elem_of_cons; [apply le_refl, HD; by left|auto]. Qed.

Lemma link_theaped t u :
  (forall p, p ∈ tnodes t ++ tnodes u -> D p) -> NoDup (tnodes t ++ tnodes u) -> theaped le t -> theaped le u -> theaped le (link t u).
Proof.
  intros HD Hn Ht Hu. assert (t.1 <> u.1) as Hne.
  { apply NoDup_app in Hn as (_ & Hn & _). intros E. apply (Hn t.1); [by left|rewrite E; by left]. }
  assert (forall q, q ∈ tnodes t -> le t.1 q) as Mt by (intros q; apply theaped_min; [set_solver|done]).
  assert (forall q, q ∈ tnodes u -> le u.1 q) as Mu by (intros q; apply theaped_min; [set_solver|done]).
  assert (D t.1 /\ D u.1) as [Dt Du] by (unfold tnodes in HD; split; apply HD; set_solver).
  destruct Ht as (Ht & Ht' & _), Hu as (Hu & Hu' & _). unfold link, theaped, tnodes in *.
  case_match eqn:E; cbn; (split_and!; [|done..]); intros q [->|[Hq|Hq]%elem_of_app]%elem_of_cons; auto.
  - by apply less_le.
  - eapply (le_trans _ u.1); [done|done|apply HD; set_solver|by apply less_le|]. apply Mu. by right.
  - by apply not_less_le.
  - eapply (le_trans _ t.1); [done|done|apply HD; set_solver|by apply not_less_le|]. apply Mt. by right.
Qed.

Lemma merge_back_theaped ts : forall t,
  (forall p, p ∈ tnodes t ++ lnodes ts -> D p) -> NoDup (tnodes t ++ lnodes ts) -> theaped le t -> Forall (theaped le) ts ->
  theaped le (merge_back t ts).
Proof.
  induction ts as [|u ts IH]; intros t HD Hn Ht Hts; [done|]. apply Forall_cons in Hts as [Hu Hts].
  change (theaped le (merge_back (link u t) ts)). unfold lnodes in HD, Hn. cbn [map concat] in HD, Hn. fold (lnodes ts) in HD, Hn.
  assert (NoDup (tnodes u ++ tnodes t ++ lnodes ts)) as Hn' by (eapply nodup_perm; [|exact Hn]; solve_Permutation).
  apply IH; [intros p; rewrite link_nodes; set_solver|by rewrite link_nodes, <- app_assoc| |done].
  apply link_theaped; [set_solver| |done|done]. rewrite app_assoc in Hn'. by apply NoDup_app in Hn' as [Hn' _].
Qed.

Lemma merge_pairs_theaped f : forall ts,
  (forall p, p ∈ nodes f -> D p) -> NoDup (nodes f) -> heaped le f -> Forall (theaped le) ts -> Forall (theaped le) (merge_pairs f ts).
Proof.
  induction f as [|a A|a A b B s IH] using forest_pairs_ind; intros ts HD Hn Hf Hts; cbn [merge_pairs]; [done| |].
  - constructor; [|done]. by destruct Hf as (? & ? & _).
  - destruct Hf as (Ha & HA & Hb & HB & Hs). cbn [nodes] in HD, Hn.
    assert (NoDup (tnodes (a, A) ++ tnodes (b, B)) /\ NoDup (nodes s)) as [Hn1 Hn2].
    { unfold tnodes. cbn. rewrite (app_comm_cons (nodes B)), app_assoc, app_comm_cons in Hn. by apply NoDup_app in Hn as (? & _ & ?). }
    apply IH; [set_solver|done|done|]. constructor; [|done].
    apply link_theaped; [unfold tnodes; set_solver|done|by split_and!|by split_and!].
Qed.

Lemma combine_theaped f t :
  (forall p, p ∈ nodes f -> D p) -> NoDup (nodes f) -> heaped le f -> combine f = Some t -> theaped le t.
Proof.
  intros HD Hn Hf. unfold combine. pose proof (merge_pairs_theaped f [] HD Hn Hf (Forall_nil_2 _)) as Ht.
  pose proof (merge_pairs_nodes f []) as Hp. destruct (merge_pairs f []) as [|u us]; [done|]. intros [= <-].
  apply Forall_cons in Ht as [Hu Hus]. unfold lnodes in Hp. cbn [map concat] in Hp. fold (lnodes us) in Hp. rewrite app_nil_r in Hp.
  apply merge_back_theaped; [intros p; rewrite Hp; apply HD|by rewrite Hp|done|done].
Qed.
End Order.

(** ** The heap as a set with a minimum *)

Definition whole (t : option tree) : forest := match t with Some t => Cons t.1 t.2 Nil | None => Nil end.

(** The heap [h] heap_holds the nodes [M], in the order [le]. *)
Definition represents (le : ptr -> ptr -> Prop) (h : Intrusive) (M : gset ptr) : Prop :=
  exists t, linked h.(h_store) None (whole t) h.(h_root) /\ NoDup (nodes (whole t)) /\ heaped le (whole t) /\
    list_to_set (nodes (whole t)) = M.

(** A node outside of every heap. *)
Definition idle (h : Intrusive) (v : ptr) : Prop := h.(h_store) !! v = Some IntrusiveField_default.

(** The operation wrote to no node outside of [M]. *)
Definition untouched (M : gset ptr) (h h' : Intrusive) : Prop := forall p, p ∉ M -> h'.(h_store) !! p = h.(h_store) !! p.

Lemma represents_mono (le le' : ptr -> ptr -> Prop) h M :
  (forall a b, a ∈ M -> b ∈ M -> le a b -> le' a b) -> represents le h M -> represents le' h M.
Proof.
  intros Hl (t & Lt & Hn & Ho & <-). exists t. split_and!; [done|done| |done]. eapply heaped_mono; [|done].
  intros a b ??. apply Hl; by apply elem_of_list_to_set.
Qed.

Lemma represents_empty le h : represents le h ∅ -> h.(h_root) = None.
Proof. intros ([t|] & Lt & _ & _ & HM); [cbn in HM; set_solver|]. by apply linked_nil_inv in Lt. Qed.

Section Specs.
Context {ctx : HeapContext} {D : ptr -> Prop} {le : ptr -> ptr -> Prop} {order : HeapOrder D le}.

Lemma idle_linked h v : idle h v -> linked h.(h_store) None (Cons v Nil Nil) (Some v).
Proof. intros H. by eapply linked_cons. Qed.

Lemma insert_spec h M v :
  represents le h M -> (forall p, p ∈ {[v]} ∪ M -> D p) -> v ∉ M -> idle h v ->
  exists h', Intrusive_insert h v = Done h' /\ represents le h' ({[v]} ∪ M) /\ untouched ({[v]} ∪ M) h h'.
Proof.
  intros (t & Lt & Hn & Ho & <-) HD Hv Hi%idle_linked. unfold Intrusive_insert. destruct t as [u|]; cbn [whole] in *.
  - pose proof (linked_inv _ _ _ _ _ _ Lt) as [Hr _]. rewrite Hr in *. cbn [nodes] in *. rewrite app_nil_r in *. fold (tnodes u) in *.
    destruct (meld_spec h.(h_store) None (v, Nil) None u Nil) as (σ' & E & L' & O); [done|done| |].
    { cbn [nodes]. rewrite app_nil_r. unfold tnodes at 1. cbn. apply NoDup_cons. split; [|done]. by rewrite elem_of_list_to_set in Hv. }
    cbn [fst] in E. rewrite E. cbn [obind]. eexists. split; [reflexivity|].
    pose proof (link_nodes (v, Nil) u) as Hp. unfold tnodes at 2 in Hp. cbn [fst snd nodes] in Hp. split.
    + exists (Some (link (v, Nil) u)). cbn [whole nodes]. rewrite app_nil_r. fold (tnodes (link (v, Nil) u)).
      assert (NoDup (v :: tnodes u)) as Hn' by (apply NoDup_cons; rewrite elem_of_list_to_set in Hv; done).
      split_and!; [done|rewrite Hp; exact Hn'| |rewrite Hp; cbn; set_solver].
      apply (link_theaped (D := D)); [|done|apply theaped_leaf|done]. intros p Hp'. apply HD. set_solver.
    + intros p Hp'. apply O. cbn [nodes]. rewrite app_nil_r. unfold tnodes at 1. cbn. set_solver.
  - apply linked_nil_inv in Lt. rewrite Lt. eexists. split; [reflexivity|]. split; [|by intros p].
    exists (Some (v, Nil)). split_and!; [done|apply NoDup_singleton|apply theaped_leaf|cbn; set_solver].
Qed.

Lemma delete_min_empty h M : represents le h M -> M = ∅ -> Intrusive_delete_min h = Done (h, None).
Proof.
  intros HR ->. unfold Intrusive_delete_min. by rewrite (represents_empty _ _ HR).
Qed.

Lemma delete_min_spec h M : represents le h M -> (forall p, p ∈ M -> D p) -> M <> ∅ ->
  exists h' m, h.(h_root) = Some m /\ Intrusive_delete_min h = Done (h', Some m) /\ m ∈ M /\ (forall q, q ∈ M -> le m q) /\
    represents le h' (M ∖ {[m]}) /\ idle h' m /\ untouched M h h'.
Proof.
  intros (t & Lt & Hn & Ho & <-) HD HM. destruct t as [[m c]|]; [|by cbn in HM]. cbn [whole nodes fst snd] in *.
  unfold Intrusive_delete_min. pose proof Lt as Hx. apply linked_inv in Hx as (-> & x & Hx & _ & Lc & Ls). rewrite app_nil_r in *.
  unfold get at 1. rewrite Hx. cbn [obind].
  assert (forall q, q ∈ (list_to_set (m :: nodes c) : gset ptr) -> le m q) as Hmin.
  { intros q. rewrite elem_of_list_to_set. apply (theaped_min (D := D) (m, c)); [|done]. intros p Hp. apply HD. by apply elem_of_list_to_set. }
  apply NoDup_cons in Hn as [Hm Hn]. destruct Ho as (_ & Hc & _).
  destruct c as [|a A s].
  - apply linked_nil_inv in Lc. rewrite Lc. cbn [obind]. unfold get. rewrite Hx. cbn [obind].
    eexists _, m. split_and!; [done|done|cbn; set_solver|done| |apply lookup_insert_eq|].
    + exists None. split_and!; [done|constructor|done|cbn; set_solver].
    + intros p Hp. apply lookup_insert_ne. cbn in Hp. set_solver.
  - pose proof (linked_inv _ _ _ _ _ _ Lc) as [Hch _]. rewrite Hch in *.
    destruct (combine_siblings_spec _ _ _ _ Lc Hn) as (σ' & t & Hcomb & E & L' & O). rewrite E. cbn [obind].
    unfold get. rewrite (proj1 O), Hx by done. cbn [obind]. pose proof (combine_nodes _ _ Hcomb) as Hp.
    eexists _, m. split_and!; [done|done|cbn; set_solver|done| |apply lookup_insert_eq|].
    + exists (Some t). cbn [whole]. change (nodes (Cons t.1 t.2 Nil)) with (t.1 :: nodes t.2 ++ []). rewrite app_nil_r. fold (tnodes t).
      split_and!; [|by rewrite Hp| |rewrite Hp; set_solver].
      * eapply linked_touches; [apply (touches_insert [m]); [by left|rewrite (proj1 O), Hx by done; by eexists]| |done].
        cbn [nodes]. rewrite app_nil_r. intros p ->%list_elem_of_singleton. fold (tnodes t). by rewrite Hp.
      * apply (combine_theaped (D := D) (Cons a A s)); [|done..]. intros p Hp'. apply HD. set_solver.
    + intros p Hp'. cbn [h_store]. rewrite lookup_insert_ne by set_solver. apply O. set_solver.
Qed.

Lemma nodes_tree p c : nodes (Cons p c Nil) = tnodes (p, c).
Proof. cbn. by rewrite app_nil_r. Qed.

(** The children of a removed node are melded back with the root. *)
Lemma rejoin_spec σ prev C a r c :
  linked σ prev C (Some a) -> linked σ None (Cons r c Nil) (Some r) -> NoDup (tnodes (r, c) ++ nodes C) ->
  (forall p, p ∈ tnodes (r, c) ++ nodes C -> D p) -> theaped le (r, c) -> heaped le C ->
  exists σ2 x σ3 t, combine_siblings σ a = Done (σ2, x) /\ meld σ2 x r = Done (σ3, t.1) /\
    linked σ3 None (Cons t.1 t.2 Nil) (Some t.1) /\ theaped le t /\ tnodes t ≡ₚ tnodes (r, c) ++ nodes C /\
    touches (tnodes (r, c) ++ nodes C) σ σ3.
Proof.
  intros LC Lr Hn HD Hr HC. apply NoDup_app in Hn as (Hn1 & Hn2 & Hn3).
  destruct (combine_siblings_spec σ prev C a LC Hn3) as (σ2 & t & Hcomb & E2 & L2 & O2). pose proof (combine_nodes _ _ Hcomb) as Ht.
  assert (NoDup (tnodes t ++ tnodes (r, c))) as Hn.
  { rewrite Ht. apply NoDup_app. split_and!; [done| |done]. intros p H1 H2. by apply (Hn2 p). }
  destruct (meld_spec σ2 None t None (r, c) Nil) as (σ3 & E3 & L3 & O3); [done| |cbn [nodes]; by rewrite app_nil_r|].
  { eapply linked_touches; [exact O2| |done]. intros p H1 H2. rewrite nodes_tree in H2. by apply (Hn2 p). }
  exists σ2, t.1, σ3, (link t (r, c)). split_and!; [done|done|done| | |].
  - apply (link_theaped (D := D)); [|done|by eapply (combine_theaped (D := D)); [set_solver|..]|done]. intros p. rewrite Ht. set_solver.
  - rewrite link_nodes, Ht. apply Permutation_app_comm.
  - eapply touches_trans; (eapply touches_mono; [|done]); intros p; [set_solver|]. cbn [nodes]. rewrite app_nil_r, Ht. set_solver.
Qed.

(** A node that is not the root is cut out. *)
Lemma remove_inner_spec h t v :
  linked h.(h_store) None (Cons t.1 t.2 Nil) h.(h_root) -> NoDup (tnodes t) -> theaped le t -> (forall p, p ∈ tnodes t -> D p) ->
  v ∈ nodes t.2 ->
  exists h', Intrusive_remove h v = Done h' /\ represents le h' (list_to_set (tnodes t) ∖ {[v]}) /\ idle h' v /\
    untouched (list_to_set (tnodes t)) h h'.
Proof.
  intros Lt Hn Ho HD Hv. destruct t as [r c]. cbn [fst snd] in *. destruct (cut_exists _ _ Hv) as (c' & C & Hcut).
  assert (v <> r) as Hvr by (apply NoDup_cons in Hn as [Hr _]; by intros ->).
  apply cut_child with (p := r) (s := Nil) in Hcut; [|done].
  pose proof (cut_nodes _ _ _ _ Hcut) as Hp. pose proof (cut_heaped le _ _ _ _ Hcut Ho) as [Ho' HoC].
  pose proof (linked_inv _ _ _ _ _ _ Lt) as [Hr _]. unfold tnodes in *. cbn [fst snd nodes] in *. rewrite !app_nil_r in *.
  change (r :: nodes c') with (tnodes (r, c')) in *.
  destruct (detach_spec v _ _ _ Hcut _ _ _ Lt) as (σ & x & q & Hx & Hq & Ed & L' & Lv & O).
  { cbn [nodes]. by rewrite app_nil_r. } { congruence. }
  cbn [nodes] in O. rewrite app_nil_r in O. rewrite Hr in L'.
  apply linked_inv in Lv as (_ & y & Hy & Hyp & LC & Hyn). apply linked_nil_inv in Hyn.
  unfold Intrusive_remove, get at 1. rewrite Hx. cbn [obind]. rewrite Hq, Ed. cbn [obind]. unfold get at 1. rewrite Hy. cbn [obind].
  rewrite Hp in Hn. apply NoDup_cons in Hn as [Hvn Hn].
  destruct C as [|a A s].
  - apply linked_nil_inv in LC. rewrite LC, Hr. eexists. split; [reflexivity|]. cbn [nodes] in *. rewrite app_nil_r in *. split_and!.
    + exists (Some (r, c')). cbn [whole fst snd nodes]. rewrite app_nil_r. split_and!; [done|done|done|rewrite Hp; cbn; set_solver].
    + unfold idle. cbn [h_store]. rewrite Hy. destruct y. by simplify_eq/=.
    + intros p Hp'. apply O. set_solver.
  - pose proof (linked_inv _ _ _ _ _ _ LC) as [Hch _]. rewrite Hch in *. unfold set_child, get. rewrite Hy. cbn [obind].
    set (σ1 := <[v := _]> σ). assert (touches [v] σ σ1) as O1 by (apply touches_insert; [by left|by eexists]).
    assert (forall p, p ∈ [v] -> p ∉ tnodes (r, c') ++ nodes (Cons a A s)) as Hv1 by (by intros p ->%list_elem_of_singleton).
    destruct (rejoin_spec σ1 (Some v) (Cons a A s) a r c') as (σ2 & z & σ3 & t & E2 & E3 & L3 & Ht & Hpt & O3); [..|done| |done|done|].
    { eapply linked_touches; [done| |done]. intros p H1%Hv1. set_solver. }
    { eapply linked_touches; [done| |done]. intros p H1%Hv1. rewrite nodes_tree. set_solver. }
    { intros p Hp'. apply HD. rewrite Hp. by right. }
    rewrite E2. cbn [obind]. rewrite Hr, E3. cbn [obind]. eexists. split; [reflexivity|]. split_and!.
    + exists (Some t). cbn [whole]. rewrite nodes_tree, <- surjective_pairing. split_and!; [done|by rewrite Hpt|done|].
      rewrite Hpt, Hp. clear -Hvn. set_solver.
    + unfold idle. cbn [h_store]. rewrite (proj1 O3) by done. unfold σ1. rewrite lookup_insert_eq. destruct y. by simplify_eq/=.
    + intros p Hp'. rewrite elem_of_list_to_set in Hp'. cbn [h_store].
      rewrite (proj1 O3), (proj1 O1), (proj1 O); [done|done| |]; rewrite Hp in Hp'; clear -Hp'; set_solver.
Qed.

Lemma remove_spec h M v : represents le h M -> (forall p, p ∈ M -> D p) -> v ∈ M ->
  exists h', Intrusive_remove h v = Done h' /\ represents le h' (M ∖ {[v]}) /\ idle h' v /\ untouched M h h'.
Proof.
  intros HR HD HvM. pose proof HR as (t & Lt & Hn & Ho & HM). destruct t as [t|]; [|subst M; cbn in HvM; set_solver].
  cbn [whole] in *. rewrite nodes_tree, <- surjective_pairing in *. subst M. setoid_rewrite elem_of_list_to_set in HD.
  rewrite elem_of_list_to_set in HvM. apply elem_of_cons in HvM as [->|Hv]; [|by apply remove_inner_spec].
  destruct (delete_min_spec h _ HR) as (h' & m & Hr & E & _ & _ & HR' & Hi & Hu).
  { intros p. rewrite elem_of_list_to_set. auto. } { unfold tnodes. cbn. set_solver. }
  pose proof (linked_inv _ _ _ _ _ _ Lt) as (Hr' & x & Hx & Hp & _). assert (m = t.1) as -> by congruence.
  exists h'. split_and!; [|done..]. unfold Intrusive_remove, get. rewrite Hx. cbn [obind]. by rewrite Hp, E.
Qed.

Lemma count_internal_spec σ f : forall fuel prev first,
  linked σ prev f first -> length (nodes f) <= fuel -> count_internal fuel σ first = Done (length (nodes f)).
Proof.
  induction f as [|p c IHc s IHs]; intros fuel prev first Hl Hf; [apply linked_nil_inv in Hl as ->; by destruct fuel|].
  apply linked_inv in Hl as (-> & x & Hx & _ & Lc & Ls). cbn [nodes] in *. rewrite length_cons, length_app in *.
  destruct fuel as [|fuel]; [lia|]. cbn [count_internal]. unfold get. rewrite Hx. cbn [obind].
  rewrite (IHc fuel _ _ Lc), (IHs fuel _ _ Ls) by lia. done.
Qed.

Lemma count_spec h M : represents le h M -> Intrusive_count h = Done (size M).
Proof.
  intros (t & Lt & Hn & _ & <-). unfold Intrusive_count. erewrite count_internal_spec; [|done|].
  - by rewrite size_list_to_set.
  - apply nodes_size; [done|by eapply linked_dom].
Qed.

Lemma find_max_internal_spec σ f : forall fuel prev p cur,
  linked σ prev f (Some p) -> length (nodes f) <= fuel -> D cur -> (forall q, q ∈ nodes f -> D q) ->
  exists m, find_max_internal fuel σ p cur = Done m /\ (m = cur \/ m ∈ nodes f) /\ le cur m /\ (forall q, q ∈ nodes f -> le q m).
Proof.
  induction f as [|p c IHc s IHs]; intros fuel prev p' cur Hl Hf Dc HD; [by inversion Hl|].
  apply linked_inv in Hl as ([= ->] & x & Hx & _ & Lc & Ls). cbn [nodes] in *. rewrite length_cons, length_app in *.
  destruct fuel as [|fuel]; [lia|]. cbn [find_max_internal]. unfold get. rewrite Hx. cbn [obind].
  set (m0 := if less cur p then p else cur).
  assert (D p) as Dp by (apply HD; by left).
  assert ((m0 = cur \/ m0 = p) /\ le cur m0 /\ le p m0) as (Hm0 & Lc0 & Lp0).
  { unfold m0. destruct (decide (cur = p)) as [->|]; [destruct (less p p); split_and!; auto; by apply le_refl|].
    destruct (less cur p) eqn:E; split_and!; auto; first [by apply le_refl|by apply less_le|by apply not_less_le]. }
  assert (D m0) as D0 by (destruct Hm0 as [->| ->]; done).
  assert (exists m1, match hf_child x with Some child => find_max_internal fuel σ child m0 | None => Done m0 end = Done m1 /\
    (m1 = m0 \/ m1 ∈ nodes c) /\ le m0 m1 /\ (forall q, q ∈ nodes c -> le q m1)) as (m1 & -> & Hm1 & L1 & Lc1).
  { destruct (hf_child x) as [a|] eqn:E; [|apply linked_nil in Lc as ->; exists m0; split_and!; [auto|auto|by apply le_refl|set_solver]].
    eapply IHc; [done|lia|done|set_solver]. }
  assert (D m1) as D1 by (destruct Hm1 as [->|]; [done|apply HD; set_solver]). cbn [obind].
  assert (exists m2, match hf_next x with Some next => find_max_internal fuel σ next m1 | None => Done m1 end = Done m2 /\
    (m2 = m1 \/ m2 ∈ nodes s) /\ le m1 m2 /\ (forall q, q ∈ nodes s -> le q m2)) as (m2 & -> & Hm2 & L2 & Lc2).
  { destruct (hf_next x) as [a|] eqn:E; [|apply linked_nil in Ls as ->; exists m1; split_and!; [auto|auto|by apply le_refl|set_solver]].
    eapply IHs; [done|lia|done|set_solver]. }
  assert (D m2) as D2 by (destruct Hm2 as [->|]; [done|apply HD; set_solver]).
  assert (le m0 m2) as L02 by (by eapply (le_trans _ m1)).
  exists m2. split_and!; [done| |by eapply (le_trans _ m0)|].
  - clear -Hm0 Hm1 Hm2. set_solver.
  - intros q [->|[Hq|Hq]%elem_of_app]%elem_of_cons; [by eapply (le_trans _ m0)| |auto].
    eapply (le_trans _ m1); auto. apply HD. set_solver.
Qed.

Lemma find_max_spec h M : represents le h M -> (forall p, p ∈ M -> D p) ->
  (M = ∅ /\ Intrusive_find_max h = Done None) \/
  (exists m, Intrusive_find_max h = Done (Some m) /\ m ∈ M /\ (forall q, q ∈ M -> le q m)).
Proof.
  intros (t & Lt & Hn & _ & <-) HD. unfold Intrusive_find_max. destruct t as [t|]; [right|left; apply linked_nil_inv in Lt as ->; done].
  cbn [whole] in *. pose proof (linked_inv _ _ _ _ _ _ Lt) as [Hr _]. rewrite Hr in *. setoid_rewrite elem_of_list_to_set in HD.
  destruct (find_max_internal_spec _ _ (size (h_store h)) _ _ t.1 Lt) as (m & E & Hm & _ & Hq).
  { apply nodes_size; [done|by eapply linked_dom]. } { apply HD. by left. } { done. }
  exists m. rewrite E. split; [done|]. setoid_rewrite elem_of_list_to_set. split; [|done].
  destruct Hm as [->|]; [by left|done].
Qed.
End Specs.

(** ** Refinement *)

Inductive heap_op : Type := Insert (v : ptr) | Peek | Count | FindMax | DeleteMin | Remove (v : ptr).
Inductive heap_res : Type := RUnit | RNode (p : option ptr) | RSize (n : nat).

(** A call of the heap. *)
Definition run_op {ctx : HeapContext} (h : Intrusive) (o : heap_op) : outcome (Intrusive * heap_res) :=
  match o with
  | Insert v => let! h := Intrusive_insert h v in Done (h, RUnit)
  | Peek => Done (h, RNode (Intrusive_peek h))
  | Count => let! n := Intrusive_count h in Done (h, RSize n)
  | FindMax => let! m := Intrusive_find_max h in Done (h, RNode m)
  | DeleteMin => let! (h, m) := Intrusive_delete_min h in Done (h, RNode m)
  | Remove v => let! h := Intrusive_remove h v in Done (h, RUnit)
  end.

(** What the caller owes: it inserts live nodes that are in no heap, and removes members. *)
Definition legal (U M : gset ptr) (o : heap_op) : Prop :=
  match o with Insert v => v ∈ U ∖ M | Remove v => v ∈ M | _ => True end.

Definition is_least (le : ptr -> ptr -> Prop) (M : gset ptr) (p : option ptr) : Prop :=
  match p with None => M = ∅ | Some m => m ∈ M /\ forall q, q ∈ M -> le m q end.

(** The abstract queue is a set. *)
Definition allowed (le : ptr -> ptr -> Prop) (M : gset ptr) (o : heap_op) (r : heap_res) (M' : gset ptr) : Prop :=
  match o, r with
  | Insert v, RUnit => M' = {[v]} ∪ M
  | Peek, RNode p => is_least le M p /\ M' = M
  | Count, RSize n => n = size M /\ M' = M
  | FindMax, RNode p => is_least (flip le) M p /\ M' = M
  | DeleteMin, RNode p => is_least le M p /\ M' = match p with Some m => M ∖ {[m]} | None => M end
  | Remove v, RUnit => M' = M ∖ {[v]}
  | _, _ => False
  end.

(** The live nodes [U]: those of [M] are linked in order, the others are idle. *)
Definition heap_holds (le : ptr -> ptr -> Prop) (U : gset ptr) (h : Intrusive) (M : gset ptr) : Prop :=
  represents le h M /\ M ⊆ U /\ forall v, v ∈ U ∖ M -> idle h v.

Section Refinement.
Context {ctx : HeapContext} {D : ptr -> Prop} {le : ptr -> ptr -> Prop} {order : HeapOrder D le}.

Lemma peek_spec h M : represents le h M -> (forall p, p ∈ M -> D p) -> is_least le M (Intrusive_peek h).
Proof.
  intros HR HD. destruct (decide (M = ∅)) as [HM|HM].
  - subst M. unfold Intrusive_peek. by rewrite (represents_empty _ _ HR).
  - destruct (delete_min_spec h M HR HD HM) as (h' & m & Hr & _ & Hm & Hq & _). unfold Intrusive_peek. by rewrite Hr.
Qed.

Lemma heap_holds_step U h h' M M' v :
  heap_holds le U h M -> represents le h' M' -> M' ⊆ U -> untouched ({[v]} ∪ M) h h' -> (forall w, w <> v -> w ∈ M' <-> w ∈ M) -> (v ∈ M' \/ idle h' v) ->
  heap_holds le U h' M'.
Proof.
  intros (HR & HU & Hi) HR' HU' Hu Heq Hv. split_and!; [done|done|]. intros w Hw.
  destruct (decide (w = v)) as [->|Hne]; [destruct Hv; [set_solver|done]|]. apply elem_of_difference in Hw as [Hw1 Hw2].
  unfold idle. rewrite Heq in Hw2 by done. rewrite Hu by (clear -Hne Hw2; set_solver). apply Hi. by apply elem_of_difference.
Qed.

(** C10: the pointers of the pairing heap implement a set of nodes with a
    minimum. From any heap whose members are linked in order and whose other
    live nodes are idle, every call the contract allows returns (no null or
    dangling pointer is followed, and the loops over siblings end), its result
    is one the abstract queue allows, and the next heap again has its members
    linked in order and every other live node, the removed one included, idle. *)
Theorem heap_refines_queue (U : gset ptr) (h : Intrusive) (M : gset ptr) (o : heap_op) :
  (forall p, p ∈ U -> D p) -> heap_holds le U h M -> legal U M o ->
  exists h' r M', run_op h o = Done (h', r) /\ allowed le M o r M' /\ heap_holds le U h' M'.
Proof.
  intros HD Hh Ho. pose proof Hh as (HR & HU & Hi). assert (forall p, p ∈ M -> D p) as HDM by set_solver.
  destruct o as [v| | | | |v]; cbn [run_op legal allowed] in *.
  - destruct (insert_spec h M v) as (h' & -> & HR' & Hu); [done|set_solver|set_solver|auto|].
    eexists _, _, _. split_and!; [done|done|]. apply (heap_holds_step U h h' M _ v); [done|done|set_solver|done|set_solver|set_solver].
  - eexists _, _, _. split; [done|]. split; [|done]. split; [by apply peek_spec|done].
  - rewrite (count_spec h M HR). by eexists _, _, _.
  - destruct (find_max_spec h M HR HDM) as [[HM ->]|(m & -> & Hm & Hq)]; eexists _, _, _; (split; [done|]; split; [|done]); by split.
  - destruct (decide (M = ∅)) as [HM|HM].
    + rewrite (delete_min_empty h M HR HM). by exists h, (RNode None), M.
    + destruct (delete_min_spec h M HR HDM HM) as (h' & m & _ & -> & Hm & Hq & HR' & Him & Hu).
      eexists _, _, _. split_and!; [done|by split|]. apply (heap_holds_step U h h' M _ m); [done|done|set_solver| |set_solver|by right].
      intros p Hp. apply Hu. set_solver.
  - destruct (remove_spec h M v HR HDM Ho) as (h' & -> & HR' & Him & Hu).
    eexists _, _, _. split_and!; [done|done|]. apply (heap_holds_step U h h' M _ v); [done|done|set_solver| |set_solver|by right].
    intros p Hp. apply Hu. set_solver.
Qed.
End Refinement.

(** Three nodes in use and two that are idle. *)
Definition pos_context : HeapContext := Pos.ltb.
Definition five_nodes : Intrusive := mkHeap (list_to_map (map (fun p => (p, IntrusiveField_default)) [1; 2; 3; 4; 5]%positive)) None.

#[local] Instance pos_order : HeapOrder (ctx := pos_context) (fun _ => True) Pos.le.
Proof.
  constructor; unfold less, pos_context; intros; [lia|lia|..].
  - by apply Pos.lt_le_incl, Pos.ltb_lt.
  - by apply Pos.ltb_ge.
Qed.

Definition after_inserts : Intrusive :=
  match (let! h := Intrusive_insert (ctx := pos_context) five_nodes 3%positive in
         let! h := Intrusive_insert (ctx := pos_context) h 1%positive in
         Intrusive_insert (ctx := pos_context) h 2%positive) with Done h => h | _ => five_nodes end.

Lemma after_inserts_holds : heap_holds Pos.le (list_to_set [1; 2; 3; 4; 5]%positive) after_inserts (list_to_set [1; 2; 3]%positive).
Proof.
  split_and!; [|set_solver|].
  - exists (Some (1, Cons 2 Nil (Cons 3 Nil Nil))%positive).
    split_and!; [by repeat (eapply linked_cons; [reflexivity|reflexivity|..])| | |set_solver].
    + apply (bool_decide_unpack _). vm_compute. exact I.
    + cbn. split_and!; try done; intros q; rewrite ?elem_of_cons, ?elem_of_nil; naive_solver lia.
  - intros v Hv. assert (v = 4 \/ v = 5)%positive as [-> | ->] by set_solver; reflexivity.
Qed.

Lemma heap_refines_queue_witness :
  exists h' r M', run_op (ctx := pos_context) after_inserts DeleteMin = Done (h', r) /\
    allowed Pos.le (list_to_set [1; 2; 3]%positive) DeleteMin r M' /\ heap_holds Pos.le (list_to_set [1; 2; 3; 4; 5]%positive) h' M'.
Proof.
  apply (heap_refines_queue (ctx := pos_context) (D := fun _ => True) (le := Pos.le)
    (list_to_set [1; 2; 3; 4; 5]%positive) after_inserts (list_to_set [1; 2; 3]%positive) DeleteMin).
  - done.
  - exact after_inserts_holds.
  - exact I.
Defined.

Example after_inserts_drained :
  (let! (h, a) := Intrusive_delete_min (ctx := pos_context) after_inserts in
   let! (h, b) := Intrusive_delete_min (ctx := pos_context) h in
   let! (h, c) := Intrusive_delete_min (ctx := pos_context) h in
   let! (_, d) := Intrusive_delete_min (ctx := pos_context) h in Done (a, b, c, d)) =
  Done (Some 1, Some 2, Some 3, None)%positive.
Proof. vm_compute. reflexivity. Qed.
