(* ===== verification/Timers.v ===== *)
(** * Timers of the event loop

    [src/src/runtime/timer/mod.rs] keeps the timers of a thread in pairing
    heaps: [timers], the fake timers of the test runner, and the timers of the
    engine. [src/src/event_loop/EventLoopTimer.rs] gives the node, its packed
    flags and the order of two nodes; [src/src/bun_core/util.rs] the deadlines.

    The links of the nodes are the store of [Heap]; the rest of a node is in
    [all_mem]. The flags of a JavaScript timer are a field of the object that
    contains the node and are kept with it here. Release builds are modelled:
    no [debug_assert] stops the program. The Windows timer handles are left out. *)
From Stdlib Require Import ZArith Lia.
From stdpp Require Import base list numbers option gmap.
From S2P Require Import Prelude Heap.

Open Scope Z_scope.

(** ** Deadlines *)

Definition two63 : Z := 9223372036854775808.
(** The [i64] of a wrapping operation. *)
Definition wrap_i64 (z : Z) : Z := (z + two63) mod two64 - two63.
Definition is_i64 (z : Z) : Prop := - two63 <= z < two63.

Definition NS_PER_S : Z := 1000000000.
Definition NS_PER_MS : Z := 1000000.
Definition NS_PER_US : Z := 1000.
Definition US_PER_S : Z := 1000000.

Record Timespec : Type := mkTimespec { ts_sec : Z; ts_nsec : Z }.
#[export] Instance Timespec_eq_dec : EqDecision Timespec.
Proof. solve_decision. Defined.

Definition Timespec_EPOCH : Timespec := mkTimespec 0 0.

Definition Timespec_duration (self other : Timespec) : Timespec :=
  let sec := wrap_i64 (self.(ts_sec) - other.(ts_sec)) in
  let nsec := wrap_i64 (self.(ts_nsec) - other.(ts_nsec)) in
  if nsec <? 0 then mkTimespec (wrap_i64 (sec - 1)) (wrap_i64 (nsec + NS_PER_S)) else mkTimespec sec nsec.

Definition Timespec_order (self other : Timespec) : comparison :=
  match self.(ts_sec) ?= other.(ts_sec) with
  | Eq => self.(ts_nsec) ?= other.(ts_nsec)
  | o => o
  end.

Definition Timespec_greater (self other : Timespec) : bool :=
  match Timespec_order self other with Gt => true | _ => false end.

(** ** Timers *)

Inductive State : Type := PENDING | ACTIVE | CANCELLED | FIRED.
#[export] Instance State_eq_dec : EqDecision State.
Proof. solve_decision. Defined.

Inductive InHeap : Type := InHeap_None | InHeap_Regular | InHeap_Fake.
#[export] Instance InHeap_eq_dec : EqDecision InHeap.
Proof. solve_decision. Defined.

Inductive Tag : Type :=
| TimeoutObject | ImmediateObject | StatWatcherScheduler | UpgradedDuplex | DNSResolver | DnsSdConnection | WindowsNamedPipe
| WTFTimer | PostgresSQLConnectionTimeout | PostgresSQLConnectionMaxLifetime | MySQLConnectionTimeout
| MySQLConnectionMaxLifetime | ValkeyConnectionTimeout | ValkeyConnectionReconnect | SubprocessTimeout
| DevServerSweepSourceMaps | DevServerMemoryVisualizerTick | AbortSignalTimeout | DateHeaderTimer | BunTest
| EventLoopDelayMonitor | CronJob | GcRepeating | QuicEndpoint.

Definition allow_fake_timers (t : Tag) : bool :=
  match t with TimeoutObject | AbortSignalTimeout | CronJob => true | _ => false end.

(** [TimerFlags]: the packed [u32]. *)
Definition EPOCH_MASK : Z := 33554431.
Definition KIND_SHIFT : Z := 25.
Definition KIND_MASK : Z := 100663296.

Inductive Kind : Type := SetTimeout | SetInterval | SetImmediate.
Definition Kind_u32 (k : Kind) : Z := match k with SetTimeout => 0 | SetInterval => 1 | SetImmediate => 2 end.

(** The complement of a [u32]. *)
Definition compl32 (z : Z) : Z := two32 - 1 - z.

Definition TimerFlags_default : Z := Z.shiftl 1 30.
Definition TimerFlags_epoch (f : Z) : Z := Z.land f EPOCH_MASK.
Definition TimerFlags_set_epoch (f v : Z) : Z := Z.lor (Z.land f (compl32 EPOCH_MASK)) (Z.land v EPOCH_MASK).
Definition TimerFlags_kind (f : Z) : outcome Kind :=
  match Z.shiftr (Z.land f KIND_MASK) KIND_SHIFT with
  | 0 => Done SetTimeout
  | 1 => Done SetInterval
  | 2 => Done SetImmediate
  | _ => Panic
  end.
Definition TimerFlags_set_kind (f : Z) (k : Kind) : Z := Z.lor (Z.land f (compl32 KIND_MASK)) (Z.shiftl (Kind_u32 k) KIND_SHIFT).

(** The five single-bit flags, by their mask. *)
Definition HAS_CLEARED_TIMER : Z := Z.shiftl 1 27.
Definition IS_KEEPING_EVENT_LOOP_ALIVE : Z := Z.shiftl 1 28.
Definition HAS_ACCESSED_PRIMITIVE : Z := Z.shiftl 1 29.
Definition HAS_JS_REF : Z := Z.shiftl 1 30.
Definition IN_CALLBACK : Z := Z.shiftl 1 31.
Definition TimerFlags_get (f mask : Z) : bool := negb (Z.land f mask =? 0).
Definition TimerFlags_set (f mask : Z) (v : bool) : Z := if v then Z.lor f mask else Z.land f (compl32 mask).

Record EventLoopTimer : Type := mkTimer {
  t_next : Timespec;
  t_state : State;
  t_tag : Tag;
  t_in_heap : InHeap;
  t_flags : Z;
}.

Definition with_next (t : EventLoopTimer) (x : Timespec) : EventLoopTimer := mkTimer x t.(t_state) t.(t_tag) t.(t_in_heap) t.(t_flags).
Definition with_state (t : EventLoopTimer) (x : State) : EventLoopTimer := mkTimer t.(t_next) x t.(t_tag) t.(t_in_heap) t.(t_flags).
Definition with_in_heap (t : EventLoopTimer) (x : InHeap) : EventLoopTimer := mkTimer t.(t_next) t.(t_state) t.(t_tag) x t.(t_flags).
Definition with_flags (t : EventLoopTimer) (x : Z) : EventLoopTimer := mkTimer t.(t_next) t.(t_state) t.(t_tag) t.(t_in_heap) x.

Definition EventLoopTimer_init_paused (tag : Tag) : EventLoopTimer :=
  mkTimer Timespec_EPOCH PENDING tag InHeap_None TimerFlags_default.

(** [js_timer_flags_ptr]: which tags have flags. *)
Definition has_js_flags (t : Tag) : bool :=
  match t with TimeoutObject | ImmediateObject | AbortSignalTimeout => true | _ => false end.

Definition js_timer_epoch (t : EventLoopTimer) : option Z :=
  if has_js_flags t.(t_tag) then Some (TimerFlags_epoch t.(t_flags)) else None.

Definition U25_MAX : Z := 33554431.
Definition wsub32 (a b : Z) : Z := (a - b) mod two32.

Definition collapse (epoch : option Z) (ns : Z) : Z := match epoch with Some _ => NS_PER_MS * Z.quot ns NS_PER_MS | None => ns end.

Definition EventLoopTimer_less (a b : EventLoopTimer) : bool :=
  match a.(t_next).(ts_sec) ?= b.(t_next).(ts_sec) with
  | Lt => true
  | Gt => false
  | Eq =>
      let maybe_a_epoch := js_timer_epoch a in
      let maybe_b_epoch := js_timer_epoch b in
      let a_ns := collapse maybe_a_epoch a.(t_next).(ts_nsec) in
      let b_ns := collapse maybe_b_epoch b.(t_next).(ts_nsec) in
      let order := a_ns ?= b_ns in
      match order, maybe_a_epoch, maybe_b_epoch with
      | Eq, Some a_epoch, Some b_epoch => Z.land (wsub32 b_epoch a_epoch) U25_MAX <? Z.quot U25_MAX 2
      | Lt, _, _ => true
      | _, _, _ => false
      end
  end.

(** ** The timers of a thread *)

Abbreviation memory := (gmap ptr EventLoopTimer).

(** [TimerHeapCtx]; the heap calls it on live nodes only. *)
Definition TimerHeapCtx (m : memory) : HeapContext :=
  fun a b => match m !! a, m !! b with Some a, Some b => EventLoopTimer_less a b | _, _ => false end.

(** The fields of [All] that the operations below read and write, with the
    memory their nodes live in. *)
Record All : Type := mkAll {
  all_links : store;
  all_mem : memory;
  all_timers : option ptr;
  all_fake : option ptr;
  all_fake_active : bool;
  all_wtf : option ptr;
  all_epoch : Z;
}.

(** The three heaps. *)
Inductive which_heap : Type := Regular | Fake | Wtf.
#[export] Instance which_heap_eq_dec : EqDecision which_heap.
Proof. solve_decision. Defined.

Definition all_root (a : All) (w : which_heap) : option ptr :=
  match w with Regular => a.(all_timers) | Fake => a.(all_fake) | Wtf => a.(all_wtf) end.

Definition heap_of (a : All) (w : which_heap) : Intrusive := mkHeap a.(all_links) (all_root a w).

Definition with_heap (a : All) (w : which_heap) (h : Intrusive) : All :=
  match w with
  | Regular => mkAll h.(h_store) a.(all_mem) h.(h_root) a.(all_fake) a.(all_fake_active) a.(all_wtf) a.(all_epoch)
  | Fake => mkAll h.(h_store) a.(all_mem) a.(all_timers) h.(h_root) a.(all_fake_active) a.(all_wtf) a.(all_epoch)
  | Wtf => mkAll h.(h_store) a.(all_mem) a.(all_timers) a.(all_fake) a.(all_fake_active) h.(h_root) a.(all_epoch)
  end.

Definition with_mem (a : All) (m : memory) : All :=
  mkAll a.(all_links) m a.(all_timers) a.(all_fake) a.(all_fake_active) a.(all_wtf) a.(all_epoch).
Definition with_epoch (a : All) (e : Z) : All :=
  mkAll a.(all_links) a.(all_mem) a.(all_timers) a.(all_fake) a.(all_fake_active) a.(all_wtf) e.

(** A read, and a write, through a pointer to a timer. *)
Definition deref (a : All) (p : ptr) : outcome EventLoopTimer :=
  match a.(all_mem) !! p with Some t => Done t | None => Panic end.
Definition modify (a : All) (p : ptr) (f : EventLoopTimer -> EventLoopTimer) : outcome All :=
  let! t := deref a p in Done (with_mem a (<[p := f t]> a.(all_mem))).

Definition TimerHeap_peek (a : All) (w : which_heap) : option ptr := Intrusive_peek (heap_of a w).
Definition TimerHeap_insert (a : All) (w : which_heap) (v : ptr) : outcome All :=
  let! h := Intrusive_insert (ctx := TimerHeapCtx a.(all_mem)) (heap_of a w) v in Done (with_heap a w h).
Definition TimerHeap_remove (a : All) (w : which_heap) (v : ptr) : outcome All :=
  let! h := Intrusive_remove (ctx := TimerHeapCtx a.(all_mem)) (heap_of a w) v in Done (with_heap a w h).
Definition TimerHeap_delete_min (a : All) (w : which_heap) : outcome (All * option ptr) :=
  let! (h, r) := Intrusive_delete_min (ctx := TimerHeapCtx a.(all_mem)) (heap_of a w) in Done (with_heap a w h, r).

Definition TimerHeap_find_max (a : All) (w : which_heap) : outcome (option ptr) :=
  Intrusive_find_max (ctx := TimerHeapCtx a.(all_mem)) (heap_of a w).
Definition TimerHeap_count (a : All) (w : which_heap) : outcome nat := Intrusive_count (heap_of a w).

Definition All_insert (a : All) (timer : ptr) : outcome All :=
  let! t := deref a timer in
  let tag := t.(t_tag) in
  let! a := if has_js_flags tag then
              let a := with_epoch a (Z.land (wadd32 a.(all_epoch) 1) EPOCH_MASK) in
              modify a timer (fun t => with_flags t (TimerFlags_set_epoch t.(t_flags) a.(all_epoch)))
            else Done a in
  if a.(all_fake_active) && allow_fake_timers tag then
    let! a := TimerHeap_insert a Fake timer in
    modify a timer (fun t => with_in_heap (with_state t ACTIVE) InHeap_Fake)
  else
    let! a := TimerHeap_insert a Regular timer in
    modify a timer (fun t => with_in_heap (with_state t ACTIVE) InHeap_Regular).

Definition All_remove (a : All) (timer : ptr) : outcome All :=
  let! t := deref a timer in
  let! a := match t.(t_in_heap) with
            | InHeap_None => Done a
            | InHeap_Regular => TimerHeap_remove a Regular timer
            | InHeap_Fake => TimerHeap_remove a Fake timer
            end in
  modify a timer (fun t => with_state (with_in_heap t InHeap_None) CANCELLED).

Definition All_update (a : All) (timer : ptr) (time : Timespec) : outcome All :=
  let! t := deref a timer in
  let! a := if bool_decide (t.(t_state) = ACTIVE) then All_remove a timer else Done a in
  let! a := modify a timer (fun t => with_next t time) in
  All_insert a timer.

Definition All_wtf_arm (a : All) (timer : ptr) (time : Timespec) : outcome All :=
  let! t := deref a timer in
  let! a := if bool_decide (t.(t_state) = ACTIVE) then TimerHeap_remove a Wtf timer else Done a in
  let! a := modify a timer (fun t => with_next t time) in
  let! a := TimerHeap_insert a Wtf timer in
  modify a timer (fun t => with_state t ACTIVE).

Definition All_wtf_disarm (a : All) (timer : ptr) : outcome All :=
  let! t := deref a timer in
  if bool_decide (t.(t_state) = ACTIVE) then
    let! a := TimerHeap_remove a Wtf timer in
    modify a timer (fun t => with_state t CANCELLED)
  else Done a.

(** [soonest] of two deadlines. *)
Definition soonest (a b : option Timespec) : option Timespec :=
  match a, b with
  | Some a, Some b => Some (if Timespec_greater a b then b else a)
  | Some a, None => Some a
  | None, b => b
  end.

(** The next due timer is popped; [now] is the clock once it has been read. *)
Definition All_next (a : All) (clock : Timespec) (now : option Timespec) : outcome (All * option Timespec * option ptr) :=
  match TimerHeap_peek a Regular with
  | None => Done (a, now, None)
  | Some timer =>
      let now := default clock now in
      let! t := deref a timer in
      if Timespec_greater t.(t_next) now then Done (a, Some now, None)
      else
        let! (a, deleted) := TimerHeap_delete_min a Regular in
        match deleted with
        | None => Panic
        | Some _ => Done (a, Some now, Some timer)
        end
  end.

(** ** Draining

    [fire] runs the callback of a popped timer: code of the timer's owner, which
    may use every operation above. Its flag is the stop of the thread that
    [fold_timer] reports. The pops are returned in order. *)

Section Drain.
Variable fire : All -> ptr -> Timespec -> outcome (All * bool).

Fixpoint drain_due_wtf_timers (fuel : nat) (a : All) (clock : Timespec) (maybe_now : option Timespec) :
    outcome (All * option Timespec * option Timespec * list ptr) :=
  match fuel with
  | O => NoFuel
  | S fuel' =>
      match TimerHeap_peek a Wtf with
      | None => Done (a, maybe_now, None, [])
      | Some min =>
          let! t := deref a min in
          let min_next := t.(t_next) in
          let now := default clock maybe_now in
          if Timespec_greater min_next now then Done (a, Some now, Some min_next, [])
          else
            let! (a, popped) := TimerHeap_delete_min a Wtf in
            match popped with
            | None => Panic
            | Some min =>
                let! a := modify a min (fun t => with_state t FIRED) in
                let! (a, _) := fire a min now in
                let! (a, maybe_now, next, fired) := drain_due_wtf_timers fuel' a clock (Some now) in
                Done (a, maybe_now, next, min :: fired)
            end
      end
  end.

Fixpoint drain_loop (fuel : nat) (a : All) (clock : Timespec) (now : option Timespec) : outcome (All * list ptr) :=
  match fuel with
  | O => NoFuel
  | S fuel' =>
      let! (a, now, t) := All_next a clock now in
      match t with
      | None => Done (a, [])
      | Some t =>
          let! (a, stopped) := fire a t (default clock now) in
          if (stopped : bool) then Done (a, [t])
          else let! (a, fired) := drain_loop fuel' a clock now in Done (a, t :: fired)
      end
  end.

(** The clock is read once for each of the two heaps. *)
Definition drain_timers (fuel : nat) (a : All) (wtf_clock clock : Timespec) : outcome (All * list ptr) :=
  let! (a, _, _, fired_wtf) := drain_due_wtf_timers fuel a wtf_clock None in
  let! (a, fired) := drain_loop fuel a clock None in
  Done (a, fired_wtf ++ fired).

Definition of_us (us : Z) : Timespec := mkTimespec (Z.quot us US_PER_S) (Z.rem us US_PER_S * NS_PER_US).

Definition clamp_to_quic (spec : Timespec) (us : Z) : Timespec :=
  let cur_us := wrap_i64 (spec.(ts_sec) * US_PER_S + Z.quot spec.(ts_nsec) NS_PER_US) in
  if us <? cur_us then of_us us else spec.

(** [get_timeout]: [None] when [spec] was not written. *)
Definition get_timeout (fuel : nat) (a : All) (has_pending_immediate : bool) (quic_next_tick_us : option Z) (clock : Timespec)
    (now_out : option Timespec) : outcome (All * option Timespec * option Timespec) :=
  if has_pending_immediate then Done (a, now_out, Some (mkTimespec 0 0))
  else
    let! (a, maybe_now, wtf_next, _) := drain_due_wtf_timers fuel a clock now_out in
    let! reg_next := match TimerHeap_peek a Regular with
                     | Some min => let! t := deref a min in Done (Some t.(t_next))
                     | None => Done None
                     end in
    match soonest wtf_next reg_next with
    | None =>
        match quic_next_tick_us with
        | Some us => Done (a, maybe_now, if 0 <=? us then Some (of_us us) else None)
        | None => Done (a, maybe_now, None)
        end
    | Some next =>
        let now := default clock maybe_now in
        let spec := if Timespec_greater next now then
                      let spec := Timespec_duration next now in
                      match quic_next_tick_us with
                      | Some us => if 0 <=? us then clamp_to_quic spec us else spec
                      | None => spec
                      end
                    else mkTimespec 0 0 in
        Done (a, Some now, Some spec)
    end.
End Drain.

(** ** The fields of the flags are independent *)

(** Reads of a word made of two masked parts. *)
Ltac fields := rewrite ?Z.land_lor_distr_l, <- ?Z.land_assoc;
  repeat match goal with |- context [Z.land (compl32 ?a) ?b] => let c := eval vm_compute in (Z.land (compl32 a) b) in change (Z.land (compl32 a) b) with c end;
  rewrite ?Z.land_0_r, ?Z.lor_0_l, ?Z.lor_0_r.

Lemma set_kind_kind f k : TimerFlags_kind (TimerFlags_set_kind f k) = Done k.
Proof. unfold TimerFlags_kind, TimerFlags_set_kind. fields. by destruct k. Qed.

Lemma set_kind_epoch f k : TimerFlags_epoch (TimerFlags_set_kind f k) = TimerFlags_epoch f.
Proof. unfold TimerFlags_epoch, TimerFlags_set_kind. fields. destruct k; cbn; by rewrite Z.lor_0_r. Qed.

Lemma set_epoch_kind f v : TimerFlags_kind (TimerFlags_set_epoch f v) = TimerFlags_kind f.
Proof. unfold TimerFlags_kind, TimerFlags_set_epoch. fields. change (Z.land EPOCH_MASK KIND_MASK) with 0. rewrite ?Z.land_0_r, ?Z.lor_0_r. done. Qed.

Definition flag_masks : list Z := [HAS_CLEARED_TIMER; IS_KEEPING_EVENT_LOOP_ALIVE; HAS_ACCESSED_PRIMITIVE; HAS_JS_REF; IN_CALLBACK].

Lemma set_get_flag f mask v : mask ∈ flag_masks -> TimerFlags_get (TimerFlags_set f mask v) mask = v.
Proof.
  intros H. assert (mask <> 0 /\ Z.land (compl32 mask) mask = 0) as [H1 H2].
  { unfold flag_masks in H. rewrite !elem_of_cons, elem_of_nil in H. destruct H as [->|[->|[->|[->|[->|[]]]]]]; done. }
  unfold TimerFlags_get, TimerFlags_set. destruct v.
  - rewrite Z.land_lor_distr_l, Z.land_diag. apply negb_true_iff, Z.eqb_neq. intros [_ E]%Z.lor_eq_0_iff. done.
  - by rewrite <- Z.land_assoc, H2, Z.land_0_r.
Qed.

Lemma set_flag_epoch f mask v : mask ∈ flag_masks -> TimerFlags_epoch (TimerFlags_set f mask v) = TimerFlags_epoch f.
Proof.
  intros H. assert (Z.land mask EPOCH_MASK = 0 /\ Z.land (compl32 mask) EPOCH_MASK = EPOCH_MASK) as [H1 H2].
  { unfold flag_masks in H. rewrite !elem_of_cons, elem_of_nil in H. destruct H as [->|[->|[->|[->|[->|[]]]]]]; done. }
  unfold TimerFlags_epoch, TimerFlags_set. destruct v.
  - by rewrite Z.land_lor_distr_l, H1, Z.lor_0_r.
  - by rewrite <- Z.land_assoc, H2.
Qed.
