(* ===== verification/TimersTheorems.v ===== *)
(** * Timers: the heaps stay in order, and timers fire in order

    [heaps] is what the three heaps keep between operations, against an order
    of the nodes of each; [marked] is what the fields of the nodes say about
    their heap. *)
From Stdlib Require Import ZArith Lia.
From stdpp Require Import base list numbers option gmap sets sorting.
From S2P Require Import Prelude Heap HeapTheorems Timers.

Open Scope Z_scope.

(** ** The three heaps *)

Abbreviation members := (which_heap -> gset ptr).
Definition upd (M : members) (w : which_heap) (X : gset ptr) : members := fun w' => if decide (w' = w) then X else M w'.

Lemma upd_eq M w X : upd M w X w = X.
Proof. unfold upd. by rewrite decide_True. Qed.
Lemma upd_ne M w X w' : w' <> w -> upd M w X w' = M w'.
Proof. intros. unfold upd. by rewrite decide_False. Qed.

Definition outside (M : members) (p : ptr) : Prop := forall w, p ∉ M w.

Record heaps (le : ptr -> ptr -> Prop) (a : All) (M : members) : Prop := {
  hs_rep w : represents le (heap_of a w) (M w);
  hs_disj w w' p : w <> w' -> p ∈ M w -> p ∉ M w';
  hs_live w p : p ∈ M w -> is_Some (a.(all_mem) !! p);
  hs_idle p : is_Some (a.(all_mem) !! p) -> outside M p -> a.(all_links) !! p = Some IntrusiveField_default;
}.

Lemma represents_frame le σ σ' r X :
  (forall p, p ∈ X -> σ' !! p = σ !! p) -> represents le (mkHeap σ r) X -> represents le (mkHeap σ' r) X.
Proof.
  intros Hσ (t & Lt & Hn & Ho & <-). exists t. split_and!; [|done..]. cbn in *. eapply linked_frame; [|done].
  intros p Hp. apply Hσ. by apply elem_of_list_to_set.
Qed.

(** The heap [w] is replaced; the operation wrote to its nodes and [v] only. *)
Lemma heaps_with_heap le a M w h v X :
  heaps le a M -> represents le h X -> (forall p, p <> v -> p ∈ X <-> p ∈ M w) -> untouched ({[v]} ∪ M w) (heap_of a w) h ->
  is_Some (a.(all_mem) !! v) -> (forall w', w' <> w -> v ∉ M w') -> (v ∈ X \/ idle h v) ->
  heaps le (with_heap a w h) (upd M w X).
Proof.
  intros H HR HX Hu Hl Hv Hi.
  assert (forall w' p, w' <> w -> p ∈ M w' -> p ∉ {[v]} ∪ M w) as Hd.
  { intros w' p Hw Hp. pose proof (hs_disj le a M H w' w p Hw Hp). intros [->%elem_of_singleton|?]%elem_of_union; [|done]. by eapply Hv. }
  split.
  - intros w'. destruct (decide (w' = w)) as [->|Hw]; [rewrite upd_eq; by destruct w, h|]. rewrite upd_ne by done.
    pose proof (hs_rep le a M H w') as HR'. unfold heap_of in *.
    replace (all_root (with_heap a w h) w') with (all_root a w') by (by destruct w, w'). eapply represents_frame; [|exact HR'].
    intros p Hp. transitivity (h_store h !! p); [by destruct w|]. apply Hu. by apply (Hd w').
  - intros w1 w2 p Hne H1 H2. unfold upd in H1, H2. destruct (decide (w1 = w)) as [->|N1], (decide (w2 = w)) as [->|N2]; [done|..].
    + destruct (decide (p = v)) as [->|Hp]; [by apply (Hv w2)|]. apply HX in H1; [|done]. by apply (hs_disj le a M H w w2 p).
    + destruct (decide (p = v)) as [->|Hp]; [by apply (Hv w1)|]. apply HX in H2; [|done]. by apply (hs_disj le a M H w1 w p).
    + by apply (hs_disj le a M H w1 w2 p).
  - intros w' p Hp. replace (all_mem (with_heap a w h)) with (all_mem a) by (by destruct w).
    destruct (decide (p = v)) as [->|Hne]; [done|]. unfold upd in Hp. case_decide; subst; [apply HX in Hp; [|done]|]; by eapply hs_live.
  - intros p Hp Ho. replace (all_mem (with_heap a w h)) with (all_mem a) in Hp by (by destruct w).
    replace (all_links (with_heap a w h)) with (h_store h) by (by destruct w).
    destruct (decide (p = v)) as [->|Hne]; [destruct Hi; [|done]; specialize (Ho w); by rewrite upd_eq in Ho|].
    assert (outside M p) as Ho'.
    { intros w' Hw'. specialize (Ho w'). unfold upd in Ho. case_decide; [|done]. subst. by apply Ho, HX. }
    rewrite Hu; [|specialize (Ho' w); set_solver]. by apply (hs_idle le a M H).
Qed.

Section HeapOps.
Context {le : ptr -> ptr -> Prop}.

(** [less] decides [le] on the nodes of [X]. *)
Definition ordered (m : memory) (X : gset ptr) : Prop := HeapOrder (ctx := TimerHeapCtx m) (fun p => p ∈ X) le.

Lemma TimerHeap_insert_spec a M w v :
  heaps le a M -> is_Some (a.(all_mem) !! v) -> outside M v -> ordered a.(all_mem) ({[v]} ∪ M w) ->
  exists h, TimerHeap_insert a w v = Done (with_heap a w h) /\ heaps le (with_heap a w h) (upd M w ({[v]} ∪ M w)).
Proof.
  intros H Hl Ho Hord. unfold TimerHeap_insert.
  destruct (insert_spec (order := Hord) (heap_of a w) (M w) v) as (h' & -> & HR & Hu); [by apply hs_rep|done|done|by apply (hs_idle le a M H)|].
  exists h'. split; [done|]. eapply (heaps_with_heap _ _ _ _ _ v); [done|done|set_solver|done|done|auto|set_solver].
Qed.

Lemma TimerHeap_remove_spec a M w v :
  heaps le a M -> v ∈ M w -> ordered a.(all_mem) (M w) ->
  exists h, TimerHeap_remove a w v = Done (with_heap a w h) /\ heaps le (with_heap a w h) (upd M w (M w ∖ {[v]})).
Proof.
  intros H Hv Hord. unfold TimerHeap_remove.
  destruct (remove_spec (order := Hord) (heap_of a w) (M w) v) as (h' & -> & HR & Hi & Hu); [by apply hs_rep|done|done|].
  exists h'. split; [done|]. eapply (heaps_with_heap _ _ _ _ _ v); [done|done|set_solver| |by eapply hs_live| |by right].
  - intros p Hp. apply Hu. set_solver.
  - intros w' Hw. by apply (hs_disj le a M H w w').
Qed.

Lemma TimerHeap_delete_min_spec a M w :
  heaps le a M -> ordered a.(all_mem) (M w) ->
  (M w = ∅ /\ TimerHeap_peek a w = None) \/
  exists h m, TimerHeap_peek a w = Some m /\ TimerHeap_delete_min a w = Done (with_heap a w h, Some m) /\ m ∈ M w /\
    (forall q, q ∈ M w -> le m q) /\ heaps le (with_heap a w h) (upd M w (M w ∖ {[m]})).
Proof.
  intros H Hord. pose proof (hs_rep le a M H w) as HR. destruct (decide (M w = ∅)) as [HM|HM].
  - left. split; [done|]. pose proof (peek_spec (order := Hord) _ _ HR (fun p Hp => Hp)) as Hp. unfold TimerHeap_peek.
    destruct (Intrusive_peek (heap_of a w)); [|done]. destruct Hp. set_solver.
  - right. destruct (delete_min_spec (order := Hord) _ _ HR (fun p Hp => Hp) HM) as (h' & m & Hr & E & Hm & Hq & HR' & Hi & Hu).
    unfold TimerHeap_delete_min. rewrite E. exists h', m. split_and!; [done|done|done|done|].
    eapply (heaps_with_heap _ _ _ _ _ m); [done|done|set_solver| |by eapply hs_live| |by right].
    + intros p Hp. apply Hu. set_solver.
    + intros w' Hw. by apply (hs_disj le a M H w w').
Qed.
End HeapOps.

(** ** The marks of the timers *)

(** What a member of a heap says about itself. *)
Definition mark (w : which_heap) (t : EventLoopTimer) : Prop :=
  match w with
  | Regular => t.(t_in_heap) = InHeap_Regular /\ t.(t_tag) <> WTFTimer
  | Fake => t.(t_in_heap) = InHeap_Fake /\ allow_fake_timers t.(t_tag) = true
  | Wtf => t.(t_tag) = WTFTimer
  end.

(** [P]: timers that were popped and whose owner has not marked them yet. *)
Record marked (m : memory) (M : members) (P : gset ptr) : Prop := {
  mk_member w p t : p ∈ M w -> m !! p = Some t -> t.(t_state) = ACTIVE /\ mark w t;
  mk_other p t : m !! p = Some t -> outside M p -> p ∉ P -> t.(t_state) <> ACTIVE;
  mk_popped p : p ∈ P -> outside M p;
}.

Record All_ok (le : ptr -> ptr -> Prop) (a : All) (M : members) (P : gset ptr) : Prop := {
  ok_heaps : heaps le a M;
  ok_marked : marked a.(all_mem) M P;
  ok_epoch : 0 <= a.(all_epoch) <= EPOCH_MASK;
}.

(** [p] moved to the heap [dest], or out of every heap. *)
Definition place (M : members) (p : ptr) (dest : option which_heap) : members :=
  fun w => if decide (dest = Some w) then {[p]} ∪ M w else M w ∖ {[p]}.

Lemma place_ne M p dest q w : q <> p -> q ∈ place M p dest w <-> q ∈ M w.
Proof. intros Hq. unfold place. case_decide; set_solver. Qed.

Lemma place_eq M p dest w : p ∈ place M p dest w <-> dest = Some w.
Proof. unfold place. case_decide; set_solver. Qed.

Lemma place_None M p : outside (place M p None) p.
Proof. intros w. by rewrite place_eq. Qed.

Lemma place_outside M p dest q : q <> p -> outside (place M p dest) q <-> outside M q.
Proof. intros Hq. unfold outside. by setoid_rewrite place_ne. Qed.

Lemma place_place M p d1 d2 w : place (place M p d1) p d2 w = place M p d2 w.
Proof.
  apply set_eq. intros q. destruct (decide (q = p)) as [->|Hq]; [by rewrite !place_eq|by rewrite !place_ne].
Qed.

Lemma place_id M p w : outside M p -> place M p None w = M w.
Proof. intros H. specialize (H w). unfold place. rewrite decide_False by done. set_solver. Qed.

Lemma upd_place M p w w' : upd (place M p None) w ({[p]} ∪ place M p None w) w' = place M p (Some w) w'.
Proof.
  apply set_eq. intros q. destruct (decide (q = p)) as [->|Hq].
  - rewrite place_eq. unfold upd. case_decide; [set_solver|]. rewrite place_eq. naive_solver.
  - rewrite place_ne by done. unfold upd. case_decide as Hw; [subst|by rewrite place_ne].
    rewrite elem_of_union, elem_of_singleton, place_ne by done. naive_solver.
Qed.

(** The state depends on the sets only pointwise. *)
Lemma heaps_ext le a M M' : (forall w, M w = M' w) -> heaps le a M -> heaps le a M'.
Proof.
  intros E H. split; [intros w; rewrite <- E|intros w w' p; rewrite <- !E|intros w p; rewrite <- E|]; [apply (hs_rep le a M H)|apply (hs_disj le a M H)|apply (hs_live le a M H)|].
  intros p Hp Ho. apply (hs_idle le a M H); [done|]. intros w. rewrite E. apply Ho.
Qed.

Lemma heaps_modify le a M p t :
  heaps le a M -> is_Some (a.(all_mem) !! p) -> heaps le (with_mem a (<[p := t]> a.(all_mem))) M.
Proof.
  intros [H1 H2 H3 H4] Hp.
  assert (forall q, is_Some ((<[p := t]> a.(all_mem)) !! q) <-> is_Some (a.(all_mem) !! q)) as E.
  { intros q. destruct (decide (p = q)) as [->|]; [by rewrite lookup_insert_eq|by rewrite lookup_insert_ne]. }
  split; [apply H1|done|intros w q Hq; apply E; eauto|intros q Hq; apply H4; by apply E].
Qed.

(** A heap operation on [p], and then a write to its fields. *)
Lemma marked_place m M P p t dest P' :
  marked m M P -> (dest = None -> t.(t_state) <> ACTIVE \/ p ∈ P') -> (forall w, dest = Some w -> t.(t_state) = ACTIVE /\ mark w t) ->
  (forall q, q <> p -> q ∈ P' <-> q ∈ P) -> (p ∈ P' -> dest = None) ->
  marked (<[p := t]> m) (place M p dest) P'.
Proof.
  intros [H1 H2 H3] Hn Hs HP Hp. split.
  - intros w q u Hq. destruct (decide (q = p)) as [->|Hne]; [rewrite lookup_insert_eq|rewrite lookup_insert_ne by done].
    + intros [= <-]. rewrite place_eq in Hq. auto.
    + rewrite place_ne in Hq by done. eauto.
  - intros q u. destruct (decide (q = p)) as [->|Hne]; [rewrite lookup_insert_eq|rewrite lookup_insert_ne by done].
    + intros [= <-] Ho HqP. destruct dest as [w|]; [|destruct Hn; done]. specialize (Ho w). by rewrite place_eq in Ho.
    + intros Hq Ho HqP. rewrite place_outside in Ho by done. rewrite HP in HqP by done. eauto.
  - intros q Hq. destruct (decide (q = p)) as [->|Hne]; [rewrite (Hp Hq); apply place_None|].
    rewrite place_outside by done. rewrite HP in Hq by done. auto.
Qed.

Section Operations.
Context {le : ptr -> ptr -> Prop}.

(** The heap that [insert] chooses. *)
Definition target (a : All) (t : EventLoopTimer) : which_heap :=
  if a.(all_fake_active) && allow_fake_timers t.(t_tag) then Fake else Regular.

Definition next_epoch (a : All) (t : EventLoopTimer) : Z :=
  if has_js_flags t.(t_tag) then Z.land (wadd32 a.(all_epoch) 1) EPOCH_MASK else a.(all_epoch).

(** The timer as [insert] stamps it, and as it leaves it. *)
Definition stamped (a : All) (t : EventLoopTimer) : EventLoopTimer :=
  if has_js_flags t.(t_tag) then with_flags t (TimerFlags_set_epoch t.(t_flags) (next_epoch a t)) else t.
Definition inserted (a : All) (t : EventLoopTimer) : EventLoopTimer :=
  with_in_heap (with_state (stamped a t) ACTIVE) (if decide (target a t = Fake) then InHeap_Fake else InHeap_Regular).

Lemma land_epoch z : 0 <= Z.land z EPOCH_MASK <= EPOCH_MASK.
Proof.
  change EPOCH_MASK with (Z.ones 25). rewrite Z.land_ones by lia. 
  change (Z.ones 25) with 33554431. change (2 ^ 25) with 33554432. pose proof (Z.mod_pos_bound z 33554432). lia.
Qed.

Lemma stamped_tag a t : (stamped a t).(t_tag) = t.(t_tag).
Proof. unfold stamped. by case_match. Qed.

(** The bump of the epoch. *)
Definition bumped (a : All) (p : ptr) (t : EventLoopTimer) : All :=
  with_epoch (with_mem a (<[p := stamped a t]> a.(all_mem))) (next_epoch a t).

Lemma bump_spec a p t : a.(all_mem) !! p = Some t ->
  (if has_js_flags t.(t_tag) then
     let a := with_epoch a (Z.land (wadd32 a.(all_epoch) 1) EPOCH_MASK) in
     modify a p (fun t => with_flags t (TimerFlags_set_epoch t.(t_flags) a.(all_epoch)))
   else Done a) = Done (bumped a p t).
Proof.
  intros Hp. unfold bumped, stamped, next_epoch. destruct (has_js_flags (t_tag t)).
  - unfold modify, deref. cbn [with_epoch all_mem]. by rewrite Hp.
  - rewrite insert_id by done. by destruct a.
Qed.

Lemma heaps_bumped a M p t : heaps le a M -> a.(all_mem) !! p = Some t -> heaps le (bumped a p t) M.
Proof.
  intros H Hp. apply (heaps_modify le a M p (stamped a t)) in H; [|by eexists]. destruct H as [H1 H2 H3 H4].
  split; [|done..]. intros w. specialize (H1 w). by destruct w.
Qed.

(** A write to the fields of [p] after an operation on the heap [w]. *)
Lemma modify_with_heap a w h p t f : a.(all_mem) !! p = Some t ->
  modify (with_heap a w h) p f = Done (with_mem (with_heap a w h) (<[p := f t]> a.(all_mem))).
Proof. intros Hp. unfold modify, deref. replace (all_mem (with_heap a w h)) with (all_mem a) by (by destruct w). by rewrite Hp. Qed.

Lemma with_heap_mem a w h : (with_heap a w h).(all_mem) = a.(all_mem).
Proof. by destruct w. Qed.
Lemma with_heap_epoch a w h : (with_heap a w h).(all_epoch) = a.(all_epoch).
Proof. by destruct w. Qed.
Lemma with_heap_fake a w h : (with_heap a w h).(all_fake_active) = a.(all_fake_active).
Proof. by destruct w. Qed.

Lemma All_insert_spec a M P p t :
  All_ok le a M P -> a.(all_mem) !! p = Some t -> t.(t_tag) <> WTFTimer -> outside M p ->
  ordered (le := le) (<[p := stamped a t]> a.(all_mem)) ({[p]} ∪ M (target a t)) ->
  exists a', All_insert a p = Done a' /\ All_ok le a' (place M p (Some (target a t))) (P ∖ {[p]}) /\
    a'.(all_mem) = <[p := inserted a t]> a.(all_mem) /\ a'.(all_fake_active) = a.(all_fake_active) /\ a'.(all_epoch) = next_epoch a t.
Proof.
  intros [Hh Hm He] Hp Htag Ho Hord. pose proof (heaps_bumped a M p t Hh Hp) as H1.
  assert ((bumped a p t).(all_mem) !! p = Some (stamped a t)) as Hp1 by apply lookup_insert_eq.
  destruct (TimerHeap_insert_spec (bumped a p t) M (target a t) p H1) as (h & E & H2); [by eexists|done|done|].
  assert (All_insert a p = Done (with_mem (with_heap (bumped a p t) (target a t) h) (<[p := inserted a t]> a.(all_mem)))) as ->.
  { unfold All_insert, deref. rewrite Hp. cbn [obind]. rewrite bump_spec by done. cbn [obind].
    change (all_fake_active (bumped a p t)) with (all_fake_active a). unfold inserted, target in *.
    case_match; rewrite E; cbn [obind]; rewrite (modify_with_heap _ _ _ _ _ _ Hp1); do 2 f_equal; unfold bumped; cbn; by rewrite insert_insert_eq. }
  eexists. split; [done|]. split_and!; [split|done|by destruct (target a t)|by destruct (target a t)].
  - apply (heaps_ext _ _ (upd M (target a t) ({[p]} ∪ M (target a t)))).
    { intros w. unfold upd, place. repeat case_decide; try congruence. specialize (Ho w). set_solver. }
    apply (heaps_modify _ _ _ p (inserted a t)) in H2; [|rewrite with_heap_mem; by eexists].
    rewrite with_heap_mem in H2. unfold bumped in H2 at 2. cbn in H2. by rewrite insert_insert_eq in H2.
  - apply marked_place with (P := P); [done|done| |set_solver|set_solver]. intros w [= <-]. split; [done|].
    unfold inserted, target. destruct (_ && _) eqn:Ef; cbn; rewrite stamped_tag; [|done]. by apply andb_true_iff in Ef as [_ ?].
  - destruct (target a t); cbn; unfold next_epoch; case_match; auto using land_epoch.
Qed.

(** A member is taken out of its heap [w] and its fields become [f]. *)
Lemma take_out_spec a M P w p t f P' :
  All_ok le a M P -> p ∈ M w -> a.(all_mem) !! p = Some t -> ordered (le := le) a.(all_mem) (M w) ->
  (f t).(t_state) <> ACTIVE \/ p ∈ P' -> (forall q, q <> p -> q ∈ P' <-> q ∈ P) ->
  exists h, TimerHeap_remove a w p = Done (with_heap a w h) /\ modify (with_heap a w h) p f = Done (with_mem (with_heap a w h) (<[p := f t]> a.(all_mem))) /\
    All_ok le (with_mem (with_heap a w h) (<[p := f t]> a.(all_mem))) (place M p None) P'.
Proof.
  intros [Hh Hm He] Hw Hp Hord Hf HP. destruct (TimerHeap_remove_spec a M w p Hh Hw Hord) as (h & E & H2). exists h.
  split_and!; [done|by apply modify_with_heap|]. split; [| |by destruct w].
  - apply (heaps_ext _ _ (upd M w (M w ∖ {[p]}))).
    { intros w'. unfold upd, place. rewrite (decide_False (P := None = _)) by done. case_decide; [by subst|].
      pose proof (hs_disj le a M Hh w w' p). set_solver. }
    apply (heaps_modify _ _ _ p (f t)) in H2; [|rewrite with_heap_mem; by eexists]. by rewrite with_heap_mem in H2.
  - apply marked_place with (P := P); [done|by intros _|done|done|done].
Qed.

(** The mark of a timer names its heap. *)
Lemma mark_heap a M P w p t : All_ok le a M P -> p ∈ M w -> a.(all_mem) !! p = Some t -> w <> Wtf ->
  (w = Regular /\ t.(t_in_heap) = InHeap_Regular) \/ (w = Fake /\ t.(t_in_heap) = InHeap_Fake).
Proof. intros [_ Hm _] Hw Hp Hne. destruct (mk_member _ _ _ Hm w p t Hw Hp) as [_ Hk]. destruct w; cbn in Hk; [left|right|done]; tauto. Qed.

Definition removed (t : EventLoopTimer) : EventLoopTimer := with_state (with_in_heap t InHeap_None) CANCELLED.

Lemma All_remove_spec a M P w p t :
  All_ok le a M P -> p ∈ M w -> w <> Wtf -> a.(all_mem) !! p = Some t -> ordered (le := le) a.(all_mem) (M w) ->
  exists a', All_remove a p = Done a' /\ All_ok le a' (place M p None) P /\ a'.(all_mem) = <[p := removed t]> a.(all_mem) /\
    a'.(all_fake_active) = a.(all_fake_active) /\ a'.(all_epoch) = a.(all_epoch).
Proof.
  intros Hok Hw Hne Hp Hord. destruct (take_out_spec a M P w p t removed P Hok Hw Hp Hord) as (h & E1 & E2 & H2); [by left|done|].
  eexists. split_and!; [|exact H2|done|by destruct w|by destruct w]. unfold All_remove, deref. rewrite Hp. cbn [obind].
  destruct (mark_heap _ _ _ _ _ _ Hok Hw Hp Hne) as [[-> ->]|[-> ->]]; rewrite E1; cbn [obind]; exact E2.
Qed.

(** A timer whose state is [ACTIVE] is in a heap, unless it was just popped. *)
Lemma active_member a M P p t : All_ok le a M P -> a.(all_mem) !! p = Some t -> p ∉ P -> t.(t_state) = ACTIVE -> exists w, p ∈ M w.
Proof.
  intros [_ Hm _] Hp HP Hs. destruct (decide (p ∈ M Regular)); [eauto|]. destruct (decide (p ∈ M Fake)); [eauto|].
  destruct (decide (p ∈ M Wtf)); [eauto|]. exfalso. eapply (mk_other _ _ _ Hm); [done| |done|done]. by intros [].
Qed.

Lemma inactive_outside a M P p t : All_ok le a M P -> a.(all_mem) !! p = Some t -> t.(t_state) <> ACTIVE -> outside M p.
Proof. intros [_ Hm _] Hp Hs w Hw. by destruct (mk_member _ _ _ Hm w p t Hw Hp). Qed.

Lemma member_wtf a M P w p t : All_ok le a M P -> a.(all_mem) !! p = Some t -> p ∈ M w -> t.(t_tag) = WTFTimer <-> w = Wtf.
Proof.
  intros [_ Hm _] Hp Hw. destruct (mk_member _ _ _ Hm w p t Hw Hp) as [_ Hk].
  destruct w; cbn in Hk; split; try done; try tauto. intros E. rewrite E in Hk. by destruct Hk.
Qed.

(** A write to the deadline of a timer outside of every heap. *)
Lemma modify_next_spec a M P p t x :
  All_ok le a M P -> a.(all_mem) !! p = Some t -> outside M p ->
  exists a', modify a p (fun t => with_next t x) = Done a' /\ All_ok le a' M P /\ a'.(all_mem) = <[p := with_next t x]> a.(all_mem) /\
    a'.(all_fake_active) = a.(all_fake_active) /\ a'.(all_epoch) = a.(all_epoch).
Proof.
  intros [Hh Hm He] Hp Ho. unfold modify, deref. rewrite Hp. cbn [obind]. eexists. split_and!; [done| |done..].
  split; [by apply heaps_modify|cbn|done]. destruct Hm as [H1 H2 H3]. split; [| |done].
  - intros w q u Hq. rewrite lookup_insert_ne; [by eauto|]. intros ->. by apply (Ho w).
  - intros q u. destruct (decide (q = p)) as [->|]; [rewrite lookup_insert_eq; intros [= <-]; cbn; eauto|rewrite lookup_insert_ne by done; eauto].
Qed.
End Operations.

(** ** Every operation keeps the heaps *)

(** No order at all: the links of the heaps do not depend on [less]. *)
Definition any : ptr -> ptr -> Prop := fun _ _ => True.

Lemma ordered_any m X : ordered (le := any) m X.
Proof. by split. Qed.
#[local] Hint Resolve ordered_any : core.

Inductive timer_op : Type :=
| OpInsert (p : ptr) | OpRemove (p : ptr) | OpUpdate (p : ptr) (time : Timespec)
| OpArm (p : ptr) (time : Timespec) | OpDisarm (p : ptr) | OpNext (clock : Timespec) (now : option Timespec).

(** A call of [All], and the timer it returns. *)
Definition run_timer_op (a : All) (o : timer_op) : outcome (All * option ptr) :=
  match o with
  | OpInsert p => let! a := All_insert a p in Done (a, None)
  | OpRemove p => let! a := All_remove a p in Done (a, None)
  | OpUpdate p time => let! a := All_update a p time in Done (a, None)
  | OpArm p time => let! a := All_wtf_arm a p time in Done (a, None)
  | OpDisarm p => let! a := All_wtf_disarm a p in Done (a, None)
  | OpNext clock now => let! (a, _, p) := All_next a clock now in Done (a, p)
  end.

(** What the callers owe: the timer is live and of the right kind, is in no
    heap when it is inserted and in one when it is removed, and a popped timer
    is marked by its owner before it is moved. *)
Definition legal_timer (m : memory) (M : members) (P : gset ptr) (o : timer_op) : Prop :=
  match o with
  | OpInsert p => outside M p /\ exists t, m !! p = Some t /\ t.(t_tag) <> WTFTimer
  | OpRemove p => p ∈ M Regular ∪ M Fake
  | OpUpdate p _ => (p ∉ P) /\ exists t, m !! p = Some t /\ t.(t_tag) <> WTFTimer
  | OpArm p _ | OpDisarm p => (p ∉ P) /\ exists t, m !! p = Some t /\ t.(t_tag) = WTFTimer
  | OpNext _ _ => True
  end.

(** Where the timers of the call are afterwards. *)
Definition after_op (a : All) (M : members) (P : gset ptr) (o : timer_op) (r : option ptr) (M' : members) (P' : gset ptr) : Prop :=
  match o, r with
  | OpInsert p, None | OpUpdate p _, None =>
      exists t, a.(all_mem) !! p = Some t /\ M' = place M p (Some (target a t)) /\ P' = P ∖ {[p]}
  | OpRemove p, None | OpDisarm p, None => M' = place M p None /\ P' = P
  | OpArm p _, None => M' = place M p (Some Wtf) /\ P' = P
  | OpNext _ _, None => M' = M /\ P' = P
  | OpNext _ _, Some p => p ∈ M Regular /\ M' = place M p None /\ P' = {[p]} ∪ P
  | _, _ => False
  end.

Lemma All_ok_ext le a M M' P P' : (forall w, M w = M' w) -> P = P' -> All_ok le a M P -> All_ok le a M' P'.
Proof.
  intros E -> [Hh [H1 H2 H3] He]. split; [by eapply heaps_ext| |done]. split.
  - intros w p t. rewrite <- E. apply H1.
  - intros p t Hp Ho. apply H2; [done|]. intros w. rewrite E. apply Ho.
  - intros p Hp w. rewrite <- E. by apply H3.
Qed.

Lemma All_update_spec a M P p t x :
  All_ok any a M P -> a.(all_mem) !! p = Some t -> t.(t_tag) <> WTFTimer -> p ∉ P ->
  exists a', All_update a p x = Done a' /\ All_ok any a' (place M p (Some (target a t))) (P ∖ {[p]}).
Proof.
  intros Hok Hp Htag HP.
  assert (exists a1 t1, (if bool_decide (t_state t = ACTIVE) then All_remove a p else Done a) = Done a1 /\ All_ok any a1 (place M p None) P /\
    a1.(all_mem) !! p = Some t1 /\ t1.(t_tag) = t.(t_tag) /\ a1.(all_fake_active) = a.(all_fake_active)) as (a1 & t1 & E1 & H1 & Hp1 & Ht1 & Hf1).
  { case_bool_decide as Hs.
    - destruct (active_member _ _ _ _ _ Hok Hp HP Hs) as [w Hw].
      assert (w <> Wtf) as Hne by (by rewrite <- (member_wtf _ _ _ _ _ _ Hok Hp Hw)).
      destruct (All_remove_spec a M P w p t Hok Hw Hne Hp) as (a1 & E & H1 & Hm & Hf & _); [done|].
      exists a1, (removed t). rewrite Hm, lookup_insert_eq. by split_and!.
    - exists a, t. split_and!; [done| |done..]. pose proof (inactive_outside _ _ _ _ _ Hok Hp Hs) as Ho.
      eapply All_ok_ext; [|done|exact Hok]. intros w. by rewrite place_id. }
  destruct (modify_next_spec a1 _ P p t1 x H1 Hp1 (place_None _ _)) as (a2 & E2 & H2 & Hm2 & Hf2 & _).
  assert (a2.(all_mem) !! p = Some (with_next t1 x)) as Hp2 by (by rewrite Hm2, lookup_insert_eq).
  destruct (All_insert_spec (le := any) a2 (place M p None) P p (with_next t1 x)) as (a3 & E3 & H3 & _); [done|done|cbn; congruence|apply place_None|done|].
  exists a3. split.
  - unfold All_update, deref. rewrite Hp. cbn [obind]. rewrite E1. cbn [obind]. by rewrite E2.
  - eapply All_ok_ext; [|done|exact H3]. intros w. rewrite place_place. unfold target. rewrite Hf2, Hf1. cbn. by rewrite Ht1.
Qed.

Lemma All_wtf_arm_spec a M P p t x :
  All_ok any a M P -> a.(all_mem) !! p = Some t -> t.(t_tag) = WTFTimer -> p ∉ P ->
  exists a', All_wtf_arm a p x = Done a' /\ All_ok any a' (place M p (Some Wtf)) P.
Proof.
  intros Hok Hp Htag HP.
  assert (exists a1, (if bool_decide (t_state t = ACTIVE) then TimerHeap_remove a Wtf p else Done a) = Done a1 /\ heaps any a1 (place M p None) /\
    a1.(all_mem) = a.(all_mem) /\ a1.(all_epoch) = a.(all_epoch)) as (a1 & E1 & H1 & Hm1 & He1).
  { case_bool_decide as Hs.
    - destruct (active_member _ _ _ _ _ Hok Hp HP Hs) as [w Hw]. assert (w = Wtf) as -> by (by rewrite <- (member_wtf _ _ _ _ _ _ Hok Hp Hw)).
      destruct (take_out_spec a M P Wtf p t (fun t => t) ({[p]} ∪ P) Hok Hw Hp) as (h & E & _ & H1); [done|right; set_solver|set_solver|].
      exists (with_heap a Wtf h). split_and!; [done| |done|done]. destruct H1 as [H1 _ _]. rewrite insert_id in H1 by done. by destruct a, h.
    - exists a. split_and!; [done| |done|done]. eapply heaps_ext; [|apply Hok].
      intros w. by rewrite place_id by (by eapply inactive_outside). }
  unfold All_wtf_arm, deref. rewrite Hp. cbn [obind]. rewrite E1. cbn [obind]. unfold modify at 1, deref. rewrite Hm1, Hp. cbn [obind].
  set (a2 := with_mem a1 _). assert (heaps any a2 (place M p None)) as H2.
  { unfold a2. rewrite <- Hm1. apply heaps_modify; [done|rewrite Hm1; by eexists]. }
  assert (a2.(all_mem) !! p = Some (with_next t x)) as Hp2 by apply lookup_insert_eq.
  destruct (TimerHeap_insert_spec a2 _ Wtf p H2) as (h & -> & H3); [by eexists|apply place_None|done|]. cbn [obind].
  rewrite (modify_with_heap _ _ _ _ _ _ Hp2). eexists. split; [done|]. split; [| |unfold a2; cbn; rewrite He1; apply Hok].
  - apply (heaps_modify _ _ _ p (with_state (with_next t x) ACTIVE)) in H3; [|by eexists]. eapply heaps_ext; [|exact H3].
    intros w. apply upd_place.
  - cbn. rewrite insert_insert_eq. apply marked_place with (P := P); [apply Hok|done| |done|done]. by intros w [= <-].
Qed.

Lemma All_wtf_disarm_spec a M P p t :
  All_ok any a M P -> a.(all_mem) !! p = Some t -> t.(t_tag) = WTFTimer -> p ∉ P ->
  exists a', All_wtf_disarm a p = Done a' /\ All_ok any a' (place M p None) P.
Proof.
  intros Hok Hp Htag HP. unfold All_wtf_disarm, deref. rewrite Hp. cbn [obind]. case_bool_decide as Hs.
  - destruct (active_member _ _ _ _ _ Hok Hp HP Hs) as [w Hw]. assert (w = Wtf) as -> by (by rewrite <- (member_wtf _ _ _ _ _ _ Hok Hp Hw)).
    destruct (take_out_spec a M P Wtf p t (fun t => with_state t CANCELLED) P Hok Hw Hp) as (h & -> & E & H1); [done|by left|done|].
    cbn [obind]. rewrite E. by eexists.
  - exists a. split; [done|]. eapply All_ok_ext; [|done|exact Hok]. intros w. by rewrite place_id by (by eapply inactive_outside).
Qed.

(** [next] pops the root, if it is due. *)
Lemma All_next_spec {le} a M P clock now :
  All_ok le a M P -> ordered (le := le) a.(all_mem) (M Regular) ->
  (M Regular = ∅ /\ All_next a clock now = Done (a, now, None)) \/
  exists m t, a.(all_mem) !! m = Some t /\ m ∈ M Regular /\ (forall q, q ∈ M Regular -> le m q) /\
    if Timespec_greater t.(t_next) (default clock now) then All_next a clock now = Done (a, Some (default clock now), None)
    else exists a', All_next a clock now = Done (a', Some (default clock now), Some m) /\ All_ok le a' (place M m None) ({[m]} ∪ P) /\
      a'.(all_mem) = a.(all_mem) /\ a'.(all_fake_active) = a.(all_fake_active).
Proof.
  intros Hok Hord. pose proof Hok as [Hh Hm He]. unfold All_next.
  destruct (TimerHeap_delete_min_spec a M Regular Hh Hord) as [[HM ->]|(h & m & -> & E & Hin & Hq & H')]; [by left|right].
  destruct (hs_live le a M Hh _ _ Hin) as [t Ht]. exists m, t. split_and!; [done|done|done|]. unfold deref. rewrite Ht. cbn [obind].
  destruct (Timespec_greater _ _); [done|]. rewrite E. cbn [obind]. eexists. split_and!; [done| |done|done].
  split; [| |done].
  - eapply heaps_ext; [|exact H']. intros w. unfold upd, place. rewrite (decide_False (P := None = _)) by done. case_decide; [by subst|].
    pose proof (hs_disj le a M Hh Regular w m). set_solver.
  - cbn. rewrite <- (insert_id (all_mem a) m t Ht). apply marked_place with (P := P); [done|right; set_solver|done|set_solver|done].
Qed.

(** C35: every operation on the timers of a thread keeps the three heaps. When
    the callers keep their side ([legal_timer]) an operation returns, whatever
    the deadlines and epochs of the timers are (no null or dangling pointer is
    followed and every loop ends); the timer of the call is then in the heap
    the code means, and in no other; all other timers are where they were;
    the heaps are again linked, every member says [ACTIVE] and names its heap,
    every other live timer is unlinked and does not say [ACTIVE] (popped timers
    excepted until their owner marks them), and the epoch fits 25 bits. *)
Theorem timer_operations_keep_heaps (a : All) (M : members) (P : gset ptr) (o : timer_op) :
  All_ok any a M P -> legal_timer a.(all_mem) M P o ->
  exists a' r M' P', run_timer_op a o = Done (a', r) /\ after_op a M P o r M' P' /\ All_ok any a' M' P'.
Proof.
  intros Hok. pose proof Hok as [Hh Hm _]. destruct o as [p|p|p x|p x|p|clock now]; cbn [legal_timer run_timer_op after_op].
  - intros (Ho & t & Hp & Ht). destruct (All_insert_spec (le := any) a M P p t) as (a' & -> & H' & _); [done..|]. cbn [obind].
    eexists _, None, _, _. split; [done|]. split; [|exact H']. by eexists.
  - intros Hp. assert (exists w, w <> Wtf /\ p ∈ M w) as (w & Hne & Hw).
    { apply elem_of_union in Hp as [?|?]; [by exists Regular|by exists Fake]. }
    destruct (hs_live _ _ _ Hh _ _ Hw) as [t Ht].
    destruct (All_remove_spec (le := any) a M P w p t) as (a' & -> & H' & _); [done..|]. by eexists _, None, _, _.
  - intros (HP & t & Hp & Ht). destruct (All_update_spec a M P p t x) as (a' & -> & H'); [done..|]. cbn [obind].
    eexists _, None, _, _. split; [done|]. split; [|exact H']. by eexists.
  - intros (HP & t & Hp & Ht). destruct (All_wtf_arm_spec a M P p t x) as (a' & -> & H'); [done..|]. by eexists _, None, _, _.
  - intros (HP & t & Hp & Ht). destruct (All_wtf_disarm_spec a M P p t) as (a' & -> & H'); [done..|]. by eexists _, None, _, _.
  - intros _. destruct (All_next_spec a M P clock now Hok) as [[_ ->]|(m & t & Ht & Hin & _ & H')]; [done|by eexists _, None, _, _|].
    destruct (Timespec_greater _ _); [rewrite H'; by eexists _, None, _, _|]. destruct H' as (a' & -> & H' & _).
    eexists _, (Some m), _, _. split; [done|]. split; [|exact H']. by split_and!.
Qed.

(** ** A thread with three timers *)

(** Nothing but the regular heap, and the timers [X] in it. *)
Definition only_regular (X : gset ptr) : members := fun w => if decide (w = Regular) then X else ∅.

Lemma only_regular_outside X p : p ∉ X -> outside (only_regular X) p.
Proof. intros Hp w. unfold only_regular. case_decide; set_solver. Qed.

(** A thread whose heaps are empty. *)
Lemma All_ok_start le a :
  a.(all_timers) = None -> a.(all_fake) = None -> a.(all_wtf) = None -> 0 <= a.(all_epoch) <= EPOCH_MASK ->
  (forall p t, a.(all_mem) !! p = Some t -> t.(t_state) <> ACTIVE /\ a.(all_links) !! p = Some IntrusiveField_default) ->
  All_ok le a (only_regular ∅) ∅.
Proof.
  intros H1 H2 H3 He Hm. assert (forall w, only_regular ∅ w = ∅) as E by (intros w; unfold only_regular; by case_decide).
  assert (forall w p, p ∉ only_regular ∅ w) as Ho by (intros w p; rewrite E; set_solver).
  split; [split|split|done].
  - intros w. rewrite E. exists None. split_and!; [|constructor|done|done]. destruct w; cbn; by rewrite ?H1, ?H2, ?H3.
  - intros w w' p _ Hp. by apply Ho in Hp.
  - intros w p Hp. by apply Ho in Hp.
  - intros p [t Hp] _. by eapply Hm.
  - intros w p t Hp. by apply Ho in Hp.
  - intros p t Hp _ _. by eapply Hm.
  - set_solver.
Qed.

(** A thread with the given timers, none of them scheduled. *)
Definition paused (e : Z) (l : list (ptr * Tag * Timespec)) : All :=
  mkAll (list_to_map (map (fun x => (x.1.1, IntrusiveField_default)) l))
        (list_to_map (map (fun x => (x.1.1, with_next (EventLoopTimer_init_paused x.1.2) x.2)) l)) None None false None e.

(** The epoch wraps around after the first insertion; the first two timers are
    due in the same millisecond. *)
Definition three_timers : All :=
  paused 33554430 [(1%positive, TimeoutObject, mkTimespec 1 5000900); (2%positive, TimeoutObject, mkTimespec 1 5000100);
                   (3%positive, AbortSignalTimeout, mkTimespec 0 999000000)].

Lemma three_timers_paused p t : three_timers.(all_mem) !! p = Some t ->
  t.(t_state) <> ACTIVE /\ three_timers.(all_links) !! p = Some IntrusiveField_default.
Proof.
  revert p t. change (map_Forall (fun p t => t.(t_state) <> ACTIVE /\ three_timers.(all_links) !! p = Some IntrusiveField_default) three_timers.(all_mem)).
  apply (bool_decide_unpack _). vm_compute. exact I.
Qed.

Lemma timer_operations_keep_heaps_witness :
  exists a' r M' P', run_timer_op three_timers (OpUpdate 2%positive (mkTimespec 7 0)) = Done (a', r) /\
    after_op three_timers (only_regular ∅) ∅ (OpUpdate 2%positive (mkTimespec 7 0)) r M' P' /\ All_ok any a' M' P'.
Proof.
  apply (timer_operations_keep_heaps three_timers (only_regular ∅) ∅ (OpUpdate 2%positive (mkTimespec 7 0))).
  - apply All_ok_start; [reflexivity..| |exact three_timers_paused]. change (all_epoch three_timers) with 33554430. unfold EPOCH_MASK. lia.
  - split; [set_solver|]. eexists. split; [reflexivity|done].
Defined.
