(* ===== verification/TimersOrder.v ===== *)
(** * Timers fire in the order of their deadlines

    JavaScript timers are compared by second, by millisecond, and then by the
    25-bit epoch that [insert] stamps on them. As long as fewer than 2^24 of
    them are stamped between two timers of the heap, the wrapping comparison of
    epochs is the order of insertion. *)
From Stdlib Require Import ZArith Lia Sorted.
From stdpp Require Import base list numbers option gmap sets sorting.
From S2P Require Import Prelude Heap HeapTheorems Timers TimersTheorems.

Open Scope Z_scope.

(** ** Epochs *)

Definition two25 : Z := 33554432.
(** Half of the range of epochs, as [less] computes it. *)
Definition window : Z := 16777215.

Lemma land_mask z : Z.land z EPOCH_MASK = z mod two25.
Proof. change EPOCH_MASK with (Z.ones 25). by rewrite Z.land_ones. Qed.

Lemma set_epoch_epoch f v : TimerFlags_epoch (TimerFlags_set_epoch f v) = v mod two25.
Proof.
  unfold TimerFlags_epoch, TimerFlags_set_epoch. rewrite Z.land_lor_distr_l, <- !Z.land_assoc.
  change (Z.land (compl32 EPOCH_MASK) EPOCH_MASK) with 0. change (Z.land EPOCH_MASK EPOCH_MASK) with EPOCH_MASK.
  rewrite Z.land_0_r, Z.lor_0_l. apply land_mask.
Qed.

(** Two epochs are compared by the number of insertions between them. *)
Lemma epoch_compare e i j : 0 <= i < window -> 0 <= j < window -> i <> j ->
  (Z.land (wsub32 ((e + j) mod two25) ((e + i) mod two25)) U25_MAX <? Z.quot U25_MAX 2) = (i <? j).
Proof.
  intros Hi Hj Hne. change U25_MAX with EPOCH_MASK. rewrite land_mask. unfold wsub32.
  rewrite Z.mod_mod_divide by (by exists 128).
  rewrite <- Zminus_mod. replace (e + j - (e + i)) with (j - i) by lia. change (Z.quot EPOCH_MASK 2) with window.
  unfold window, two25 in *. destruct (Z.ltb_spec i j); [apply Z.ltb_lt|apply Z.ltb_ge].
  - rewrite Z.mod_small; lia.
  - rewrite <- (Z_mod_plus_full _ 1), Z.mod_small; lia.
Qed.

(** ** The order of firing *)

(** The [i]-th insertion fires before the [j]-th: by second, by millisecond, and
    by position. *)
Definition due_before (m : memory) (ts : list ptr) (p q : ptr) : Prop :=
  exists i j t u, ts !! i = Some p /\ ts !! j = Some q /\ m !! p = Some t /\ m !! q = Some u /\
    (t.(t_next).(ts_sec) < u.(t_next).(ts_sec) \/ t.(t_next).(ts_sec) = u.(t_next).(ts_sec) /\
     (Z.quot t.(t_next).(ts_nsec) NS_PER_MS < Z.quot u.(t_next).(ts_nsec) NS_PER_MS \/
      Z.quot t.(t_next).(ts_nsec) NS_PER_MS = Z.quot u.(t_next).(ts_nsec) NS_PER_MS /\ (i <= j)%nat)).

(** [p] is the [i]-th insertion: its deadline is the one it had, and its epoch
    counts the insertions. *)
Definition nth_inserted (m0 : memory) (ts : list ptr) (e : Z) (m : memory) (p : ptr) (i : nat) : Prop :=
  exists t u, ts !! i = Some p /\ m0 !! p = Some t /\ m !! p = Some u /\ u.(t_next) = t.(t_next) /\
    has_js_flags u.(t_tag) = true /\ TimerFlags_epoch u.(t_flags) = (e + 1 + Z.of_nat i) mod two25.

Section Order.
Context (m0 : memory) (ts : list ptr) (e : Z) (Hnd : NoDup ts) (Hlen : Z.of_nat (length ts) <= window).

Lemma nth_inserted_less m p q i j :
  nth_inserted m0 ts e m p i -> nth_inserted m0 ts e m q j -> p <> q ->
  if less (HeapContext := TimerHeapCtx m) p q then due_before m0 ts p q else due_before m0 ts q p.
Proof.
  intros (t & u & Hi & Ht & Hu & En & Ej & Ee) (t' & u' & Hi' & Ht' & Hu' & En' & Ej' & Ee') Hne.
  assert (i <> j) as Hij by congruence. pose proof (lookup_lt_Some _ _ _ Hi). pose proof (lookup_lt_Some _ _ _ Hi').
  unfold less, TimerHeapCtx. rewrite Hu, Hu'. unfold EventLoopTimer_less, js_timer_epoch. rewrite Ej, Ej', Ee, Ee', En, En'.
  cbn [collapse]. destruct (Z.compare_spec (ts_sec (t_next t)) (ts_sec (t_next t'))) as [Es|Es|Es].
  - destruct (Z.compare_spec (NS_PER_MS * Z.quot (ts_nsec (t_next t)) NS_PER_MS) (NS_PER_MS * Z.quot (ts_nsec (t_next t')) NS_PER_MS)) as [Ens|Ens|Ens];
      unfold NS_PER_MS in Ens.
    + rewrite epoch_compare by lia. destruct (Z.ltb_spec (Z.of_nat i) (Z.of_nat j)).
      * exists i, j, t, t'. unfold NS_PER_MS. split_and!; [done..|lia].
      * exists j, i, t', t. unfold NS_PER_MS. split_and!; [done..|lia].
    + exists i, j, t, t'. unfold NS_PER_MS. split_and!; [done..|lia].
    + exists j, i, t', t. unfold NS_PER_MS. split_and!; [done..|lia].
  - exists i, j, t, t'. split_and!; [done..|lia].
  - exists j, i, t', t. split_and!; [done..|lia].
Qed.

Lemma inserted_ordered m (X : gset ptr) :
  (forall p, p ∈ X -> exists i, nth_inserted m0 ts e m p i) -> ordered (le := due_before m0 ts) m X.
Proof.
  intros HX. split.
  - intros p [i (t & u & Hi & Ht & _)]%HX. exists i, i, t, t. split_and!; [done..|lia].
  - intros p q r _ _ _ (i & j & t & u & Hi & Hj & Ht & Hu & H1) (j' & k & u' & v & Hj' & Hk & Hu' & Hv & H2).
    assert (j' = j) as -> by (by eapply NoDup_lookup). assert (u' = u) as -> by congruence.
    exists i, k, t, v. split_and!; [done..|lia].
  - intros p q [i Hi]%HX [j Hj]%HX Hne E. pose proof (nth_inserted_less m p q i j Hi Hj Hne) as H. by rewrite E in H.
  - intros p q [i Hi]%HX [j Hj]%HX Hne E. pose proof (nth_inserted_less m p q i j Hi Hj Hne) as H. by rewrite E in H.
Qed.
End Order.

(** ** Inserting and draining *)

Fixpoint insert_all (a : All) (ts : list ptr) : outcome All :=
  match ts with
  | [] => Done a
  | p :: ts => let! a := All_insert a p in insert_all a ts
  end.

Section Insert.
Context (m0 : memory) (ts : list ptr) (e : Z) (Hnd : NoDup ts) (Hlen : Z.of_nat (length ts) <= window).
Context (Hjs : forall p, p ∈ ts -> exists t, m0 !! p = Some t /\ has_js_flags t.(t_tag) = true).

(** The timers [l] of [ts] have been inserted. *)
Record inserting (l : list ptr) (a : All) : Prop := {
  ins_ok : All_ok (due_before m0 ts) a (only_regular (list_to_set l)) ∅;
  ins_fake : a.(all_fake_active) = false;
  ins_epoch : a.(all_epoch) = (e + Z.of_nat (length l)) mod two25;
  ins_done i p : l !! i = Some p -> nth_inserted m0 ts e a.(all_mem) p i;
  ins_todo p : p ∉ l -> a.(all_mem) !! p = m0 !! p;
}.

Lemma stamped_nth l rest a p t :
  inserting l a -> ts = l ++ p :: rest -> m0 !! p = Some t -> has_js_flags t.(t_tag) = true ->
  nth_inserted m0 ts e (<[p := stamped a t]> a.(all_mem)) p (length l) /\ next_epoch a t = (e + Z.of_nat (S (length l))) mod two25.
Proof.
  intros Hi Hts Hp Hj.
  assert (next_epoch a t = (e + 1 + Z.of_nat (length l)) mod two25) as En.
  { unfold next_epoch. rewrite Hj, land_mask. unfold wadd32. rewrite Z.mod_mod_divide by (by exists 128).
    rewrite (ins_epoch _ _ Hi), Zplus_mod_idemp_l. f_equal. lia. }
  split; [|rewrite En; f_equal; lia].
  exists t, (stamped a t). split_and!; [rewrite Hts; by apply list_lookup_middle|done|apply lookup_insert_eq|..];
    unfold stamped; rewrite Hj; [done|done|]. cbn [with_flags t_flags]. rewrite set_epoch_epoch, En. by rewrite Z.mod_mod.
Qed.

Lemma nth_inserted_insert m p q i u : q <> p -> nth_inserted m0 ts e m q i -> nth_inserted m0 ts e (<[p := u]> m) q i.
Proof. intros Hne (t & v & ? & ? & ? & ?). exists t, v. rewrite lookup_insert_ne by done. done. Qed.

Lemma insert_step l rest a p : inserting l a -> ts = l ++ p :: rest -> exists a', All_insert a p = Done a' /\ inserting (l ++ [p]) a'.
Proof.
  intros Hi Hts. destruct (Hjs p) as (t & Hp0 & Hj); [rewrite Hts; set_solver|].
  assert (p ∉ l) as Hpl. { rewrite Hts in Hnd. apply NoDup_app in Hnd as (_ & Hd & _). intros H. apply (Hd p H). by left. }
  destruct (stamped_nth l rest a p t Hi Hts Hp0 Hj) as [Hs He]. assert (a.(all_mem) !! p = Some t) as Hp by (by rewrite (ins_todo _ _ Hi)).
  assert (target a t = Regular) as Htg by (unfold target; by rewrite (ins_fake _ _ Hi)).
  destruct (All_insert_spec (le := due_before m0 ts) a (only_regular (list_to_set l)) ∅ p t) as (a' & E & Hok & Hm & Hf & Hep); [apply Hi|done| | | |].
  { intros Ht. by rewrite Ht in Hj. }
  { apply only_regular_outside. by rewrite elem_of_list_to_set. }
  { rewrite Htg. apply (inserted_ordered m0 ts e Hnd Hlen). intros q [->%elem_of_singleton|Hq]%elem_of_union; [by eexists|].
    unfold only_regular in Hq. rewrite decide_True in Hq by done. apply elem_of_list_to_set, list_elem_of_lookup in Hq as [i Hq].
    exists i. apply nth_inserted_insert; [|by apply Hi]. intros ->. by apply list_elem_of_lookup_2 in Hq. }
  exists a'. split; [done|]. split.
  - rewrite Htg in Hok. eapply All_ok_ext; [| |exact Hok]; [|set_solver]. intros w. unfold place, only_regular.
    repeat case_decide; try congruence; rewrite ?list_to_set_app_L; cbn; set_solver.
  - by rewrite Hf, (ins_fake _ _ Hi).
  - rewrite Hep, He, length_app. do 2 f_equal. cbn. lia.
  - intros i q Hq. rewrite Hm. apply lookup_app_Some in Hq as [Hq|[Hge Hq]].
    + apply nth_inserted_insert; [|by apply Hi]. intros ->. by apply list_elem_of_lookup_2 in Hq.
    + assert (i = length l) as -> by (apply lookup_lt_Some in Hq; cbn in Hq; lia). rewrite Nat.sub_diag in Hq. injection Hq as <-.
      destruct Hs as (t' & u & ? & ? & Hu & ?). rewrite lookup_insert_eq in Hu. injection Hu as <-.
      exists t', (inserted a t). rewrite lookup_insert_eq. done.
  - intros q Hq. rewrite Hm, lookup_insert_ne by set_solver. apply Hi. set_solver.
Qed.

Lemma insert_all_spec rest : forall l a, inserting l a -> ts = l ++ rest -> exists a', insert_all a rest = Done a' /\ inserting ts a'.
Proof.
  induction rest as [|p rest IH]; intros l a Hi Hts; cbn; [rewrite app_nil_r in Hts; subst l; by eexists|].
  destruct (insert_step l rest a p Hi Hts) as (a' & -> & Hi'). cbn [obind]. apply (IH (l ++ [p])); [done|]. by rewrite <- app_assoc.
Qed.
End Insert.

(** The first thing an owner does when its timer fires, and here the only one. *)
Definition mark_fired (a : All) (p : ptr) (now : Timespec) : outcome (All * bool) :=
  let! a := modify a p (fun t => with_state t FIRED) in Done (a, false).

Lemma mark_fired_spec le a M P p t now :
  All_ok le a M P -> a.(all_mem) !! p = Some t -> outside M p ->
  exists a', mark_fired a p now = Done (a', false) /\ All_ok le a' M (P ∖ {[p]}) /\ a'.(all_mem) = <[p := with_state t FIRED]> a.(all_mem).
Proof.
  intros [Hh Hm He] Hp Ho. unfold mark_fired, modify, deref. rewrite Hp. cbn [obind]. eexists. split_and!; [done| |done].
  apply (All_ok_ext _ _ (place M p None) _ (P ∖ {[p]})); [intros w; by apply place_id|done|].
  split; [|apply marked_place with (P := P); [done|by left|done|set_solver|set_solver]|done].
  apply (heaps_ext _ _ M); [intros w; by rewrite place_id|]. apply heaps_modify; [done|by eexists].
Qed.

Lemma nth_inserted_fired m0 ts e m p q i t : m !! p = Some t ->
  nth_inserted m0 ts e m q i -> nth_inserted m0 ts e (<[p := with_state t FIRED]> m) q i.
Proof.
  intros Hp (v & u & H1 & H2 & H3 & H4). destruct (decide (q = p)) as [->|Hne]; [|exists v, u; by rewrite lookup_insert_ne].
  exists v, (with_state u FIRED). rewrite lookup_insert_eq. assert (t = u) as -> by congruence. done.
Qed.

(** The owner's mark takes a popped timer out of [P]. *)
Lemma popped_fired le a M p t now :
  All_ok le a (place M p None) ({[p]} ∪ ∅) -> a.(all_mem) !! p = Some t ->
  exists a', mark_fired a p now = Done (a', false) /\ All_ok le a' (place M p None) ∅ /\ a'.(all_mem) = <[p := with_state t FIRED]> a.(all_mem).
Proof.
  intros H Hp. destruct (mark_fired_spec _ _ _ _ p t now H Hp (place_None _ _)) as (a' & E & H' & Hm).
  exists a'. split_and!; [done| |done]. eapply All_ok_ext; [done| |exact H']. set_solver.
Qed.

Section DrainOrder.
Context (m0 : memory) (ts : list ptr) (e : Z) (Hnd : NoDup ts) (Hlen : Z.of_nat (length ts) <= window).
Context (clock : Timespec).

Lemma drain_loop_sorted fuel : forall (X : gset ptr) a now,
  default clock now = clock -> (size X < fuel)%nat ->
  All_ok (due_before m0 ts) a (only_regular X) ∅ ->
  (forall p, p ∈ X -> exists i, nth_inserted m0 ts e a.(all_mem) p i) ->
  (forall p t, p ∈ X -> a.(all_mem) !! p = Some t -> Timespec_greater t.(t_next) clock = false) ->
  exists a' fired, drain_loop mark_fired fuel a clock now = Done (a', fired) /\ All_ok (due_before m0 ts) a' (only_regular ∅) ∅ /\
    NoDup fired /\ (forall p, p ∈ fired <-> p ∈ X) /\ StronglySorted (due_before m0 ts) fired.
Proof.
  induction fuel as [|fuel IH]; intros X a now Hnow Hf Hok HX Hdue; [lia|]. cbn [drain_loop].
  pose proof (inserted_ordered m0 ts e Hnd Hlen _ X HX) as Hord.
  destruct (All_next_spec a (only_regular X) ∅ clock now Hok) as [[HM ->]|(m & t & Ht & Hin & Hmin & Hnext)]; [done| |].
  - change (X = ∅) in HM. subst X. cbn [obind]. exists a, []. split_and!; [done|done|constructor|set_solver|constructor].
  - change (m ∈ X) in Hin. change (forall q, q ∈ X -> due_before m0 ts m q) in Hmin.
    rewrite Hnow, (Hdue m t Hin Ht) in Hnext. destruct Hnext as (a1 & -> & Hok1 & Hm1 & _). cbn [obind default].
    destruct (popped_fired (due_before m0 ts) a1 (only_regular X) m t clock) as (a2 & E2 & Hok2 & Hm2); [done|by rewrite Hm1|]. cbn.
    rewrite E2. cbn [obind].
    destruct (IH (X ∖ {[m]}) a2 (Some clock)) as (a' & fired & E & Hok' & Hn & Hp & Hs); [done| | | | |].
    { assert (size (X ∖ {[m]}) < size X)%nat; [apply subset_size; set_solver|lia]. }
    { eapply All_ok_ext; [|done|exact Hok2]. intros w. unfold place, only_regular. rewrite (decide_False (P := None = _)) by done.
      case_decide; set_solver. }
    { intros p Hp. destruct (HX p) as [i Hi]; [set_solver|]. exists i. rewrite Hm2, Hm1. by apply nth_inserted_fired. }
    { intros p u Hp. rewrite Hm2, Hm1, lookup_insert_ne by set_solver. apply Hdue. set_solver. }
    rewrite E. cbn [obind]. exists a', (m :: fired). split_and!; [done|done| | |].
    + apply NoDup_cons. split; [rewrite Hp; set_solver|done].
    + intros p. rewrite elem_of_cons, Hp. destruct (decide (p = m)); set_solver.
    + constructor; [done|]. apply Forall_forall. intros q Hq%Hp. apply Hmin. set_solver.
Qed.
End DrainOrder.

(** C13: JavaScript timers alone fire in the order of their deadlines, and in the
    order they were scheduled when they are due in the same millisecond. Start
    with empty heaps, no fake clock (and any 25-bit epoch, so that it may wrap
    around) and schedule up to 2^24 - 1 timers, all of them JavaScript timers:
    when all of them are due, and their callbacks do no more to the timers than
    mark the one that fired ([mark_fired]), draining the heaps fires each exactly
    once, sorted by second, millisecond and position in the schedule, and leaves
    the heaps empty. With an internal timer among them the order can be another
    ([mixed_timers_fire_out_of_order]). *)
Theorem timers_fire_in_order (a : All) (ts : list ptr) (wtf_clock clock : Timespec) (fuel : nat) :
  a.(all_timers) = None -> a.(all_fake) = None -> a.(all_wtf) = None -> a.(all_fake_active) = false -> 0 <= a.(all_epoch) <= EPOCH_MASK ->
  (forall p t, a.(all_mem) !! p = Some t -> t.(t_state) <> ACTIVE /\ a.(all_links) !! p = Some IntrusiveField_default) ->
  NoDup ts -> Z.of_nat (length ts) <= window -> (length ts < fuel)%nat ->
  (forall p, p ∈ ts -> exists t, a.(all_mem) !! p = Some t /\ has_js_flags t.(t_tag) = true /\ Timespec_greater t.(t_next) clock = false) ->
  exists a1 a2 fired, insert_all a ts = Done a1 /\ drain_timers mark_fired fuel a1 wtf_clock clock = Done (a2, fired) /\
    fired ≡ₚ ts /\ StronglySorted (due_before a.(all_mem) ts) fired /\ forall w, TimerHeap_peek a2 w = None.
Proof.
  intros H1 H2 H3 Hfake He Hm Hnd Hlen Hfuel Hts.
  assert (forall p, p ∈ ts -> exists t, a.(all_mem) !! p = Some t /\ has_js_flags t.(t_tag) = true) as Hjs by naive_solver.
  destruct (insert_all_spec a.(all_mem) ts a.(all_epoch) Hnd Hlen Hjs ts [] a) as (a1 & E1 & Hi); [|done|].
  { split; [by apply All_ok_start|done| |done|done]. cbn. rewrite Z.add_0_r, Z.mod_small; [done|]. unfold EPOCH_MASK, two25 in *. lia. }
  destruct (drain_loop_sorted a.(all_mem) ts a.(all_epoch) Hnd Hlen clock fuel (list_to_set ts) a1 None) as (a2 & fired & E2 & Hok & Hn & Hp & Hs).
  - done.
  - by rewrite size_list_to_set.
  - apply Hi.
  - intros p Hp%elem_of_list_to_set. apply list_elem_of_lookup in Hp as [i Hp]. exists i. by apply (ins_done _ _ _ _ _ Hi).
  - intros p u Hp%elem_of_list_to_set Hu. destruct (Hts p Hp) as (t & Ht & _ & Hg). apply list_elem_of_lookup in Hp as [i Hp].
    destruct (ins_done _ _ _ _ _ Hi i p Hp) as (t' & u' & _ & Ht' & Hu' & En & _). congruence.
  - exists a1, a2, fired. split_and!; [done| | |done|].
    + unfold drain_timers. destruct fuel as [|fuel']; [lia|]. cbn [drain_due_wtf_timers].
      assert (TimerHeap_peek a1 Wtf = None) as ->; [|cbn [obind]; by rewrite E2].
      eapply represents_empty, (hs_rep _ _ _ (ok_heaps _ _ _ _ (ins_ok _ _ _ _ _ Hi)) Wtf).
    + apply NoDup_Permutation; [done|done|]. intros p. by rewrite Hp, elem_of_list_to_set.
    + intros w. pose proof (hs_rep _ _ _ (ok_heaps _ _ _ _ Hok) w) as HR. eapply represents_empty.
      replace (only_regular ∅ w) with (∅ : gset ptr) in HR by (unfold only_regular; by case_decide). exact HR.
Qed.

(** ** Examples *)

Lemma timers_fire_in_order_witness :
  exists a1 a2 fired, insert_all three_timers [1; 2; 3]%positive = Done a1 /\
    drain_timers mark_fired 4 a1 (mkTimespec 2 0) (mkTimespec 2 0) = Done (a2, fired) /\ fired ≡ₚ [1; 2; 3]%positive /\
    StronglySorted (due_before three_timers.(all_mem) [1; 2; 3]%positive) fired /\ forall w, TimerHeap_peek a2 w = None.
Proof.
  apply (timers_fire_in_order three_timers [1; 2; 3]%positive (mkTimespec 2 0) (mkTimespec 2 0) 4); try reflexivity.
  - change (all_epoch three_timers) with 33554430. unfold EPOCH_MASK. lia.
  - exact three_timers_paused.
  - apply (bool_decide_unpack _). vm_compute. exact I.
  - unfold window. cbn. lia.
  - cbn. lia.
  - intros p Hp. rewrite !elem_of_cons, elem_of_nil in Hp. destruct Hp as [->|[->|[->|[]]]]; eexists; vm_compute; done.
Defined.

Example three_timers_fired :
  (let! a := insert_all three_timers [1; 2; 3]%positive in
   let! (_, fired) := drain_timers mark_fired 4 a (mkTimespec 2 0) (mkTimespec 2 0) in Done fired) = Done [3; 1; 2]%positive.
Proof. vm_compute. reflexivity. Qed.

(** Without the restriction to JavaScript timers the order is lost: [less] has
    an internal timer at an exact millisecond tie with every JavaScript timer of
    that millisecond, which are not ties among each other. Here the timers 3
    and 5 are [setTimeout]s due in the same millisecond, 3 scheduled first, and
    5 fires first. *)
Definition mixed_timers : All :=
  paused 0 [(1%positive, DateHeaderTimer, mkTimespec 1 0); (2%positive, DevServerSweepSourceMaps, mkTimespec 2 0);
            (3%positive, TimeoutObject, mkTimespec 2 100); (4%positive, DateHeaderTimer, mkTimespec 1 0);
            (5%positive, TimeoutObject, mkTimespec 2 100)].

Example mixed_timers_fire_out_of_order :
  (let! a := insert_all mixed_timers [1; 2; 3; 4; 5]%positive in
   let! (_, fired) := drain_timers mark_fired 6 a (mkTimespec 3 0) (mkTimespec 3 0) in Done fired) = Done [1; 4; 5; 2; 3]%positive.
Proof. vm_compute. reflexivity. Qed.
