(* ===== verification/TimersSleep.v ===== *)
(** * How long the event loop sleeps

    [get_timeout] computes the timeout of the poll from the earliest deadline
    of the two heaps and the next tick of the QUIC engine. *)
From Stdlib Require Import ZArith Lia.
From stdpp Require Import base list numbers option gmap.
From S2P Require Import Prelude Heap HeapTheorems Timers TimersTheorems TimersOrder.

Open Scope Z_scope.

(** ** Instants *)

(** The instant of a deadline, in nanoseconds. *)
Definition instant (t : Timespec) : Z := t.(ts_sec) * NS_PER_S + t.(ts_nsec).

(** The readings of a monotonic clock and the deadlines made from them, within
    some 30,000 years of the boot. *)
Definition normal (t : Timespec) : Prop := 0 <= t.(ts_sec) < 1099511627776 /\ 0 <= t.(ts_nsec) < NS_PER_S.

Lemma wrap_i64_id z : is_i64 z -> wrap_i64 z = z.
Proof. unfold is_i64, wrap_i64, two63, two64. intros H. rewrite Z.mod_small; lia. Qed.

Lemma greater_instant a b : normal a -> normal b -> Timespec_greater a b = (instant b <? instant a).
Proof.
  intros [Ha Ha'] [Hb Hb']. unfold Timespec_greater, Timespec_order, instant, NS_PER_S in *.
  destruct (Z.compare_spec (ts_sec a) (ts_sec b)); [destruct (Z.compare_spec (ts_nsec a) (ts_nsec b))|..];
    symmetry; first [apply Z.ltb_lt; lia|apply Z.ltb_ge; lia].
Qed.

Lemma duration_instant a b : normal a -> normal b -> instant b <= instant a ->
  normal (Timespec_duration a b) /\ instant (Timespec_duration a b) = instant a - instant b.
Proof.
  intros [Ha Ha'] [Hb Hb'] H. unfold Timespec_duration, normal, instant, NS_PER_S in *.
  rewrite (wrap_i64_id (ts_nsec a - ts_nsec b)) by (unfold is_i64, two63; lia).
  rewrite (wrap_i64_id (ts_sec a - ts_sec b)) by (unfold is_i64, two63; lia).
  case_if; bool_facts; cbn [ts_sec ts_nsec]; [rewrite !wrap_i64_id by (unfold is_i64, two63; lia)|]; lia.
Qed.

Lemma of_us_instant us : 0 <= us -> instant (of_us us) = us * 1000.
Proof.
  intros H. unfold instant, of_us, NS_PER_S, NS_PER_US, US_PER_S. cbn [ts_sec ts_nsec].
  rewrite Z.quot_div_nonneg, Z.rem_mod_nonneg by lia. pose proof (Z_div_mod_eq_full us 1000000). lia.
Qed.

Lemma clamp_instant spec us : normal spec -> 0 <= us ->
  instant (clamp_to_quic spec us) = if us <? instant spec / 1000 then us * 1000 else instant spec.
Proof.
  intros [H1 H2] Hu. unfold clamp_to_quic. replace (wrap_i64 _) with (instant spec / 1000).
  - case_if; [by apply of_us_instant|done].
  - unfold instant, NS_PER_S, US_PER_S, NS_PER_US in *. rewrite Z.quot_div_nonneg by lia.
    replace (ts_sec spec * 1000000000 + ts_nsec spec) with (ts_nsec spec + ts_sec spec * 1000000 * 1000) by lia.
    rewrite Z.div_add by lia. rewrite wrap_i64_id; [lia|].
    assert (0 <= ts_nsec spec / 1000 <= 1000000) by (split; [apply Z.div_pos; lia|apply Z.div_le_upper_bound; lia]).
    unfold is_i64, two63. lia.
Qed.

(** ** The order of the heaps, to the millisecond *)

(** [a] is not due in a later millisecond than [b]. *)
Definition ms_le (a b : Timespec) : Prop :=
  a.(ts_sec) < b.(ts_sec) \/ a.(ts_sec) = b.(ts_sec) /\ Z.quot a.(ts_nsec) NS_PER_MS <= Z.quot b.(ts_nsec) NS_PER_MS.

(** The same of two timers. *)
Definition due_ms (m : memory) (p q : ptr) : Prop :=
  exists t u, m !! p = Some t /\ m !! q = Some u /\ ms_le t.(t_next) u.(t_next).

Lemma ms_le_trans a b c : ms_le a b -> ms_le b c -> ms_le a c.
Proof. unfold ms_le. lia. Qed.

Lemma collapse_ms e z : Z.quot (collapse e z) NS_PER_MS = Z.quot z NS_PER_MS.
Proof. destruct e; [|done]. cbn. by rewrite Z.mul_comm, Z.quot_mul. Qed.

(** [less] does not contradict the order of the milliseconds, for timers of
    every kind: it rounds the deadlines of JavaScript timers down, and breaks
    ties of the millisecond by epoch. *)
Lemma less_ms a b : if EventLoopTimer_less a b then ms_le a.(t_next) b.(t_next) else ms_le b.(t_next) a.(t_next).
Proof.
  unfold EventLoopTimer_less, ms_le. destruct (Z.compare_spec (ts_sec (t_next a)) (ts_sec (t_next b))) as [E|E|E]; [|lia|lia].
  pose proof (Z.quot_le_mono (collapse (js_timer_epoch a) (ts_nsec (t_next a))) (collapse (js_timer_epoch b) (ts_nsec (t_next b))) NS_PER_MS eq_refl) as H1.
  pose proof (Z.quot_le_mono (collapse (js_timer_epoch b) (ts_nsec (t_next b))) (collapse (js_timer_epoch a) (ts_nsec (t_next a))) NS_PER_MS eq_refl) as H2.
  rewrite !collapse_ms in H1, H2.
  destruct (Z.compare_spec (collapse (js_timer_epoch a) (ts_nsec (t_next a))) (collapse (js_timer_epoch b) (ts_nsec (t_next b))));
    destruct (js_timer_epoch a), (js_timer_epoch b); try case_if; lia.
Qed.

Lemma ordered_ms m (X : gset ptr) : (forall p, p ∈ X -> is_Some (m !! p)) -> ordered (le := due_ms m) m X.
Proof.
  intros HX. split.
  - intros p [t Hp]%HX. exists t, t. split_and!; [done..|]. unfold ms_le. lia.
  - intros p q r _ _ _ (t & u & Hp & Hq & H1) (u' & v & Hq' & Hr & H2). assert (u' = u) as -> by congruence.
    exists t, v. split_and!; [done..|by eapply ms_le_trans].
  - intros p q [t Hp]%HX [u Hq]%HX _ E. unfold less, TimerHeapCtx in E. rewrite Hp, Hq in E.
    pose proof (less_ms t u) as H. rewrite E in H. by exists t, u.
  - intros p q [t Hp]%HX [u Hq]%HX _ E. unfold less, TimerHeapCtx in E. rewrite Hp, Hq in E.
    pose proof (less_ms t u) as H. rewrite E in H. by exists u, t.
Qed.

(** The heaps stay in this order when fields of a timer other than its deadline
    change, or those of a timer outside. *)
Lemma due_ms_insert a M P p t m' :
  All_ok (due_ms a.(all_mem)) a M P -> outside M p -> m' = <[p := t]> a.(all_mem) -> All_ok (due_ms m') a M P.
Proof.
  intros [[H1 H2 H3 H4] Hm He] Ho ->. split; [|done|done]. split; [|done..]. intros w. eapply represents_mono; [|apply H1].
  intros q r Hq Hr (u & v & Hu & Hv & Hle). exists u, v. rewrite !lookup_insert_ne; [done|..]; intros ->; by eapply Ho.
Qed.

Lemma stamped_next a t : (stamped a t).(t_next) = t.(t_next).
Proof. unfold stamped. by case_match. Qed.

(** Scheduling a timer keeps the heaps in the order of the milliseconds. *)
Lemma insert_keeps_ms a M P p t :
  All_ok (due_ms a.(all_mem)) a M P -> a.(all_mem) !! p = Some t -> t.(t_tag) <> WTFTimer -> outside M p ->
  exists a', All_insert a p = Done a' /\ All_ok (due_ms a'.(all_mem)) a' (place M p (Some (target a t))) (P ∖ {[p]}) /\
    a'.(all_mem) = <[p := inserted a t]> a.(all_mem) /\ a'.(all_fake_active) = a.(all_fake_active).
Proof.
  intros Hok Hp Htag Ho. pose proof (due_ms_insert _ _ _ _ (stamped a t) _ Hok Ho eq_refl) as Hok1.
  destruct (All_insert_spec a M P p t Hok1 Hp Htag Ho) as (a' & E & Hok' & Hm & Hf & _).
  { apply ordered_ms. intros q [->%elem_of_singleton|Hq]%elem_of_union; [by rewrite lookup_insert_eq|].
    rewrite lookup_insert_ne; [by eapply (hs_live _ _ _ (ok_heaps _ _ _ _ Hok))|]. intros ->. by eapply Ho. }
  exists a'. split_and!; [done| |done|done]. destruct Hok' as [[H1 H2 H3 H4] Hm' He]. split; [|done|done]. split; [|done..].
  intros w. eapply represents_mono; [|apply H1]. intros q r _ _ (u & v & Hu & Hv & Hle). rewrite Hm.
  assert (forall x y, <[p := stamped a t]> a.(all_mem) !! x = Some y -> exists z, <[p := inserted a t]> a.(all_mem) !! x = Some z /\ t_next z = t_next y) as Hx.
  { intros x y. destruct (decide (x = p)) as [->|]; [rewrite !lookup_insert_eq|rewrite !lookup_insert_ne by done; by eauto].
    intros [= <-]. by eexists. }
  destruct (Hx q u Hu) as (u' & Hu' & Eu), (Hx r v Hv) as (v' & Hv' & Ev). exists u', v'. by rewrite Eu, Ev.
Qed.

(** ** The timeout *)

(** The deadline at the root of a heap. *)
Definition deadline (a : All) (w : which_heap) : option Timespec :=
  match TimerHeap_peek a w with Some p => t_next <$> a.(all_mem) !! p | None => None end.

(** The poll sleeps for [d], or until the tick of QUIC before that. *)
Definition sleep (quic : option Z) (d : Z) : Z :=
  match quic with Some us => if 0 <=? us then (if us <? d / 1000 then us * 1000 else d) else d | None => d end.

Definition live_roots (a : All) : Prop := forall w p, w <> Fake -> TimerHeap_peek a w = Some p -> exists t, a.(all_mem) !! p = Some t /\ normal t.(t_next).

Lemma deadline_deref a p w : live_roots a -> w <> Fake -> TimerHeap_peek a w = Some p ->
  exists t, deref a p = Done t /\ deadline a w = Some t.(t_next) /\ normal t.(t_next).
Proof. intros Hl Hw Hp. destruct (Hl w p Hw Hp) as (t & Ht & Hn). exists t. unfold deref, deadline. by rewrite Hp, Ht. Qed.

(** The engine's heap is left alone when its first timer is not due. *)
Lemma drain_wtf_idle fire fuel a clock now :
  live_roots a -> normal (default clock now) ->
  (forall d, deadline a Wtf = Some d -> instant (default clock now) < instant d) ->
  exists now', drain_due_wtf_timers fire (S fuel) a clock now = Done (a, now', deadline a Wtf, []) /\ default clock now' = default clock now.
Proof.
  intros Hl Hn Hd. cbn [drain_due_wtf_timers]. destruct (TimerHeap_peek a Wtf) as [p|] eqn:Ep.
  - destruct (deadline_deref a p Wtf Hl ltac:(done) Ep) as (t & -> & Hdl & Hnt). cbn [obind]. rewrite greater_instant by done.
    rewrite (proj2 (Z.ltb_lt _ _) (Hd _ Hdl)), Hdl. by eexists.
  - unfold deadline. rewrite Ep. by eexists.
Qed.

Lemma soonest_instant d1 d2 : normal d1 -> normal d2 ->
  exists d, soonest (Some d1) (Some d2) = Some d /\ normal d /\ instant d = Z.min (instant d1) (instant d2).
Proof.
  intros H1 H2. cbn. rewrite greater_instant by done. destruct (Z.ltb_spec (instant d2) (instant d1)); eexists; (split; [done|]); (split; [done|lia]).
Qed.

(** The sleep until a deadline. *)
Lemma spec_instant next now quic : normal next -> normal now ->
  instant (if Timespec_greater next now then
             let spec := Timespec_duration next now in
             match quic with Some us => if 0 <=? us then clamp_to_quic spec us else spec | None => spec end
           else mkTimespec 0 0) = sleep quic (Z.max 0 (instant next - instant now)).
Proof.
  intros H1 H2. rewrite greater_instant by done. destruct (Z.ltb_spec (instant now) (instant next)) as [Hlt|Hge].
  - destruct (duration_instant next now H1 H2) as [Hs Hi]; [lia|]. cbn zeta. rewrite Z.max_r, <- Hi by lia.
    unfold sleep. destruct quic as [us|]; [|done]. case_if; [|done]. bool_facts. by apply clamp_instant.
  - rewrite Z.max_l by lia. unfold sleep. destruct quic as [us|]; [|done]. case_if; [|done]. bool_facts. case_if; [|done]. bool_facts.
    change (0 / 1000) with 0 in *. lia.
Qed.

(** The timeout from the two roots. *)
Lemma get_timeout_roots fire (fuel : nat) (a : All) (quic : option Z) (clock : Timespec) (now_out : option Timespec) :
  live_roots a -> normal (default clock now_out) ->
  (forall d, deadline a Wtf = Some d -> instant (default clock now_out) < instant d) ->
  exists now' r, get_timeout fire (S fuel) a false quic clock now_out = Done (a, now', r) /\
    let until d := Some (sleep quic (Z.max 0 (d - instant (default clock now_out)))) in
    instant <$> r =
      match deadline a Wtf, deadline a Regular with
      | Some d, Some d' => until (Z.min (instant d) (instant d'))
      | Some d, None | None, Some d => until (instant d)
      | None, None => match quic with Some us => if 0 <=? us then Some (us * 1000) else None | None => None end
      end.
Proof.
  intros Hl Hn Hw. unfold get_timeout. destruct (drain_wtf_idle fire fuel a clock now_out Hl Hn Hw) as (now & -> & Hnow). cbn [obind].
  assert (forall d, deadline a Wtf = Some d -> normal d) as Hnw.
  { unfold deadline. intros d Hd. destruct (TimerHeap_peek a Wtf) as [p|] eqn:Ep; [|done]. destruct (Hl Wtf _ ltac:(done) Ep) as (t & Ht & ?).
    rewrite Ht in Hd. injection Hd as <-. done. }
  destruct (TimerHeap_peek a Regular) as [p|] eqn:Ep.
  - destruct (deadline_deref a p Regular Hl ltac:(done) Ep) as (t & -> & -> & Hnt). cbn [obind]. destruct (deadline a Wtf) as [d|] eqn:Ed.
    + destruct (soonest_instant d (t_next t)) as (d' & -> & Hn' & Hi); [by apply Hnw|done|]. eexists _, _. split; [reflexivity|].
      cbn -[Z.max]. by rewrite Hnow, spec_instant, Hi.
    + eexists _, _. split; [reflexivity|]. cbn -[Z.max]. by rewrite Hnow, spec_instant.
  - cbn [obind]. assert (deadline a Regular = None) as -> by (unfold deadline; by rewrite Ep). destruct (deadline a Wtf) as [d|] eqn:Ed.
    + eexists _, _. split; [reflexivity|]. cbn -[Z.max]. rewrite Hnow, spec_instant; [done|by apply Hnw|done].
    + cbn [soonest]. destruct quic as [us|]; eexists _, _; (split; [reflexivity|]); [|done]. cbn. case_if; [|done]. bool_facts.
      cbn. by rewrite of_us_instant.
Qed.


(** The timers that the poll may sleep for: all but the fake ones. *)
Definition awaited (M : members) (p : ptr) : Prop := p ∈ M Wtf \/ p ∈ M Regular.

(** The root of a heap is a timer of its first millisecond. *)
Lemma deadline_least a M P w : All_ok (due_ms a.(all_mem)) a M P ->
  match deadline a w with
  | None => M w = ∅
  | Some d => exists p t, p ∈ M w /\ a.(all_mem) !! p = Some t /\ t.(t_next) = d /\
      forall q u, q ∈ M w -> a.(all_mem) !! q = Some u -> ms_le d u.(t_next)
  end.
Proof.
  intros [Hh _ _]. pose proof (fun p => hs_live _ _ _ Hh w p) as Hl.
  pose proof (peek_spec (order := ordered_ms a.(all_mem) (M w) Hl) _ _ (hs_rep _ _ _ Hh w) (fun p Hp => Hp)) as Hp.
  unfold deadline, TimerHeap_peek. destruct (Intrusive_peek (heap_of a w)) as [p|]; [|exact Hp].
  destruct Hp as [Hp Hq]. destruct (Hl p Hp) as [t Ht]. rewrite Ht. exists p, t. split_and!; [done..|].
  intros q u Hin Hu. destruct (Hq q Hin) as (t' & u' & Ht' & Hu' & H). congruence.
Qed.

Lemma roots_live a M P : All_ok (due_ms a.(all_mem)) a M P ->
  (forall p t, awaited M p -> a.(all_mem) !! p = Some t -> normal t.(t_next)) -> live_roots a.
Proof.
  intros [Hh _ _] Hn w p Hw Hp.
  pose proof (peek_spec (order := ordered_ms a.(all_mem) (M w) (fun p => hs_live _ _ _ Hh w p)) _ _ (hs_rep _ _ _ Hh w) (fun p Hp => Hp)) as Hl.
  unfold TimerHeap_peek in Hp. rewrite Hp in Hl. destruct Hl as [Hl _]. destruct (hs_live _ _ _ Hh w p Hl) as [t Ht].
  exists t. split; [done|]. apply (Hn p t); [destruct w; [by right|done|by left]|done].
Qed.

Lemma instant_ms a b : normal a -> normal b -> instant a <= instant b -> ms_le a b.
Proof.
  intros [_ Ha] [_ Hb] H. unfold instant, ms_le, NS_PER_S in *.
  destruct (Z.lt_ge_cases (ts_sec a) (ts_sec b)); [by left|right]. split; [lia|]. apply Z.quot_le_mono; [done|lia].
Qed.

(** C36: the event loop neither oversleeps a millisecond nor spins. In a thread
    whose heaps are linked and ordered (to the millisecond, as [less] orders
    deadlines), with an immediate pending the timeout is zero; with none, and no
    engine timer due, [get_timeout] fires nothing, and the timeout it writes ends
    exactly at the deadline of a timer such that no other awaited timer is due in an
    earlier millisecond (at once when that deadline has passed), or at the tick of
    the QUIC engine when that is at least a microsecond earlier. Without timers
    it is that tick, or none is written. *)
Theorem get_timeout_ends_at_deadline fire (fuel : nat) (a : All) (M : members) (P : gset ptr) (quic : option Z)
    (clock : Timespec) (now_out : option Timespec) :
  All_ok (due_ms a.(all_mem)) a M P -> (forall p t, awaited M p -> a.(all_mem) !! p = Some t -> normal t.(t_next)) ->
  normal (default clock now_out) ->
  (forall p t, p ∈ M Wtf -> a.(all_mem) !! p = Some t -> instant (default clock now_out) < instant t.(t_next)) ->
  get_timeout fire (S fuel) a true quic clock now_out = Done (a, now_out, Some (mkTimespec 0 0)) /\
  exists now' r, get_timeout fire (S fuel) a false quic clock now_out = Done (a, now', r) /\
    ((forall p, ~ awaited M p) /\ instant <$> r = match quic with Some us => if 0 <=? us then Some (us * 1000) else None | None => None end \/
     exists p t, awaited M p /\ a.(all_mem) !! p = Some t /\
       instant <$> r = Some (sleep quic (Z.max 0 (instant t.(t_next) - instant (default clock now_out)))) /\
       forall q u, awaited M q -> a.(all_mem) !! q = Some u -> ms_le t.(t_next) u.(t_next)).
Proof.
  intros Hok Hn Hc Hw. split; [done|].
  pose proof (deadline_least a M P Wtf Hok) as HW. pose proof (deadline_least a M P Regular Hok) as HR.
  destruct (get_timeout_roots fire fuel a quic clock now_out) as (now' & r & E & Hr); [by eapply roots_live|done| |].
  { intros d Hd. rewrite Hd in HW. destruct HW as (p & t & Hp & Ht & <- & _). by eapply Hw. }
  exists now', r. split; [done|]. cbn zeta in Hr. unfold awaited in *.
  destruct (deadline a Wtf) as [d|], (deadline a Regular) as [d'|].
  - right. destruct HW as (p & t & Hp & Ht & <- & Hp'), HR as (q & u & Hq & Hu & <- & Hq').
    assert (normal (t_next t)) by (apply (Hn p); auto). assert (normal (t_next u)) by (apply (Hn q); auto).
    destruct (Z.le_ge_cases (instant (t_next t)) (instant (t_next u))) as [Hle|Hle].
    + exists p, t. rewrite Z.min_l in Hr by done. split_and!; [by left|done|done|]. intros x v [Hx|Hx] Hv; [by eapply Hp'|].
      apply (ms_le_trans _ (t_next u)); [by apply instant_ms|by eapply Hq'].
    + exists q, u. rewrite Z.min_r in Hr by done. split_and!; [by right|done|done|]. intros x v [Hx|Hx] Hv; [|by eapply Hq'].
      apply (ms_le_trans _ (t_next t)); [by apply instant_ms|by eapply Hp'].
  - right. destruct HW as (p & t & Hp & Ht & <- & Hp'). exists p, t. split_and!; [by left|done|done|].
    intros x v [Hx|Hx] Hv; [by eapply Hp'|set_solver].
  - right. destruct HR as (p & t & Hp & Ht & <- & Hp'). exists p, t. split_and!; [by right|done|done|].
    intros x v [Hx|Hx] Hv; [set_solver|by eapply Hp'].
  - left. split; [set_solver|done].
Qed.

Definition scheduled : All := match insert_all three_timers [1; 2; 3]%positive with Done a => a | _ => three_timers end.

(** Timers scheduled one after another are in the order of the milliseconds. *)
Lemma insert_all_ms ts : forall a X, All_ok (due_ms a.(all_mem)) a (only_regular X) ∅ -> a.(all_fake_active) = false -> NoDup ts ->
  (forall p, p ∈ ts -> p ∉ X /\ exists t, a.(all_mem) !! p = Some t /\ t.(t_tag) <> WTFTimer) ->
  exists a', insert_all a ts = Done a' /\ All_ok (due_ms a'.(all_mem)) a' (only_regular (list_to_set ts ∪ X)) ∅.
Proof.
  induction ts as [|p ts IH]; intros a X Hok Hf Hnd Hts; cbn [insert_all].
  - exists a. split; [done|]. eapply All_ok_ext; [|done|done]. intros w. unfold only_regular. case_decide; set_solver.
  - apply NoDup_cons in Hnd as [Hp Hnd]. destruct (Hts p) as (Hx & t & Ht & Htag); [by left|].
    destruct (insert_keeps_ms a (only_regular X) ∅ p t) as (a' & -> & Hok' & Hm & Hf'); [done..|by apply only_regular_outside|].
    assert (target a t = Regular) as Htg by (unfold target; by rewrite Hf). rewrite Htg in Hok'. cbn [obind].
    destruct (IH a' ({[p]} ∪ X)) as (a2 & E & Hok2); [|by rewrite Hf'|done| |].
    { eapply All_ok_ext; [| |exact Hok']; [|set_solver]. intros w. unfold place, only_regular. repeat case_decide; try congruence; set_solver. }
    { intros q Hq. assert (q <> p) by (intros ->; done). destruct (Hts q) as (Hx' & u & Hu & Hut); [by right|].
      split; [set_solver|]. exists u. rewrite Hm, lookup_insert_ne by done. done. }
    exists a2. split; [done|]. eapply All_ok_ext; [|done|exact Hok2]. intros w. unfold only_regular. case_decide; set_solver.
Qed.

Lemma scheduled_ok : All_ok (due_ms scheduled.(all_mem)) scheduled (only_regular {[1; 2; 3]}%positive) ∅.
Proof.
  destruct (insert_all_ms [1; 2; 3]%positive three_timers ∅) as (a & E & Hok).
  - apply All_ok_start; [reflexivity..| |exact three_timers_paused]. change (all_epoch three_timers) with 33554430. unfold EPOCH_MASK. lia.
  - reflexivity.
  - apply (bool_decide_unpack _). vm_compute. exact I.
  - intros p Hp. split; [set_solver|]. rewrite !elem_of_cons, elem_of_nil in Hp. destruct Hp as [->|[->|[->|[]]]]; eexists; vm_compute; done.
  - unfold scheduled. rewrite E. eapply All_ok_ext; [|done|exact Hok]. intros w. unfold only_regular. case_decide; set_solver.
Qed.

Lemma scheduled_normal p t : awaited (only_regular {[1; 2; 3]}%positive) p -> scheduled.(all_mem) !! p = Some t -> normal t.(t_next).
Proof.
  intros _. revert p t. change (map_Forall (fun _ t => normal t.(t_next)) scheduled.(all_mem)). unfold normal.
  apply (bool_decide_unpack _). vm_compute. exact I.
Qed.

Lemma get_timeout_ends_at_deadline_witness :
  exists now' r, get_timeout mark_fired 1 scheduled false None (mkTimespec 0 500000000) None = Done (scheduled, now', r) /\
    exists p t, scheduled.(all_mem) !! p = Some t /\ instant <$> r = Some (Z.max 0 (instant t.(t_next) - 500000000)).
Proof.
  destruct (get_timeout_ends_at_deadline mark_fired 0 scheduled (only_regular {[1; 2; 3]}%positive) ∅ None (mkTimespec 0 500000000) None)
    as (_ & now' & r & E & [[Hno _]|(p & t & _ & Ht & Hr & _)]).
  - exact scheduled_ok.
  - exact scheduled_normal.
  - unfold normal, NS_PER_S. cbn. lia.
  - intros p t Hp. exfalso. unfold only_regular in Hp. rewrite decide_False in Hp by done. set_solver.
  - exfalso. apply (Hno 1%positive). right. unfold only_regular. rewrite decide_True by done. set_solver.
  - exists now', r. split; [exact E|]. exists p, t. split; [exact Ht|exact Hr].
Defined.

(** The order is that of the milliseconds: of the timers at 1.005000900 s, which
    was scheduled first, and at 1.005000100 s, the poll sleeps for the first. *)
Example sleeps_for_the_millisecond :
  (let! a := insert_all three_timers [1; 2]%positive in
   let! (_, _, r) := get_timeout mark_fired 1 a false None (mkTimespec 0 0) None in Done r) = Done (Some (mkTimespec 1 5000900)).
Proof. vm_compute. reflexivity. Qed.
