(* ===== verification/Threads.v ===== *)
(** * Sums over threads

    The state of a concurrent object is its shared words and the list of the
    places its threads are at; its invariants count threads by place. [total]
    is such a count, and the lemmas say how the step of one thread changes it. *)
From Stdlib Require Import Lia.
From stdpp Require Import base list numbers option.

Section Totals.
Context {pc : Type}.
Implicit Types (f g : pc -> nat) (l : list pc).

Fixpoint total (f : pc -> nat) (l : list pc) : nat := match l with [] => 0%nat | p :: l => (f p + total f l)%nat end.

Lemma total_insert f l t p p' : l !! t = Some p -> (total f (<[t := p']> l) + f p = total f l + f p')%nat.
Proof.
  revert t. induction l as [|q l IH]; intros [|t] H; [done|done| |].
  - injection H as ->. change (f p' + total f l + f p = f p + total f l + f p')%nat. lia.
  - specialize (IH t H). change (f q + total f (<[t := p']> l) + f p = f q + total f l + f p')%nat. lia.
Qed.

Lemma total_ge f l t p : l !! t = Some p -> (f p <= total f l)%nat.
Proof.
  revert t. induction l as [|q l IH]; intros [|t] H; [done|done| |].
  - injection H as ->. cbn. lia.
  - cbn in H |- *. specialize (IH t H). lia.
Qed.

Lemma total_two f l t u p q : t <> u -> l !! t = Some p -> l !! u = Some q -> (f p + f q <= total f l)%nat.
Proof.
  revert t u. induction l as [|r l IH]; intros [|t] [|u] Hne Hp Hq; try done.
  - injection Hp as ->. pose proof (total_ge f l u q Hq). cbn. lia.
  - injection Hq as ->. pose proof (total_ge f l t p Hp). cbn. lia.
  - cbn in *. assert (t <> u) as Hne' by congruence. specialize (IH t u Hne' Hp Hq). lia.
Qed.

Lemma total_zero f l : (forall t p, l !! t = Some p -> f p = 0%nat) -> total f l = 0%nat.
Proof.
  induction l as [|q l IH]; intros H; [done|]. cbn. rewrite (H 0%nat q eq_refl). apply IH. intros t p Hp. by apply (H (S t)).
Qed.

Lemma total_pos f l : (0 < total f l)%nat -> exists t p, l !! t = Some p /\ (0 < f p)%nat.
Proof.
  induction l as [|q l IH]; cbn; [lia|]. intros H. destruct (f q) eqn:E.
  - destruct IH as (t & p & Hp & Hf); [lia|]. by exists (S t), p.
  - exists 0%nat, q. split; [done|lia].
Qed.

Lemma total_mono f g l : (forall p, f p <= g p)%nat -> (total f l <= total g l)%nat.
Proof. intros H. induction l as [|p l IH]; cbn; [lia|]. specialize (H p). lia. Qed.

Lemma total_le_length f l : (forall p, f p <= 1)%nat -> (total f l <= length l)%nat.
Proof. intros H. induction l as [|p l IH]; cbn; [lia|]. specialize (H p). lia. Qed.

(** A thread at one of the places that [get] selects, when there is at most one. *)
Lemma only_at {A} (get : pc -> option A) l t p x w :
  l !! t = Some p -> get p = Some x -> omap get l = option_list w -> w = Some x.
Proof.
  intros Hp Hx E. assert (x ∈ omap get l) as Hin by (apply list_elem_of_omap; eauto using list_elem_of_lookup_2).
  rewrite E in Hin. destruct w as [y|]; cbn in Hin; [|by apply not_elem_of_nil in Hin].
  by apply list_elem_of_singleton in Hin as ->.
Qed.

(** It moves to another place, or leaves. *)
Lemma only_moves {A} (get : pc -> option A) l t p p' x w :
  l !! t = Some p -> get p = Some x -> omap get l = option_list w -> omap get (<[t := p']> l) = option_list (get p').
Proof.
  intros Hp Hx E. pose proof (take_drop_middle l t p Hp) as El. pose proof (lookup_lt_Some _ _ _ Hp).
  rewrite insert_take_drop by done. rewrite <- El, omap_app in E. cbn in E. rewrite Hx in E.
  rewrite omap_app. cbn. destruct w as [y|]; cbn in E; [|by destruct (omap get (take t l))].
  destruct (omap get (take t l)) as [|? [|]]; [|done..]. injection E as _ E. rewrite E. by destruct (get p').
Qed.

(** A thread that was not at such a place comes, when no other is there, or
    goes elsewhere. *)
Lemma only_comes {A} (get : pc -> option A) l t p p' :
  l !! t = Some p -> omap get l = [] -> omap get (<[t := p']> l) = option_list (get p').
Proof.
  intros Hp E. pose proof (take_drop_middle l t p Hp) as El. pose proof (lookup_lt_Some _ _ _ Hp).
  rewrite insert_take_drop by done. rewrite <- El, omap_app in E. cbn in E. apply app_nil in E as [E1 E2].
  rewrite omap_app, E1. cbn. destruct (get p); [done|]. rewrite E2. by destruct (get p').
Qed.

Lemma only_stays {A} (get : pc -> option A) l t p p' :
  l !! t = Some p -> get p = None -> get p' = None -> omap get (<[t := p']> l) = omap get l.
Proof.
  intros Hp E E'. pose proof (take_drop_middle l t p Hp) as El. pose proof (lookup_lt_Some _ _ _ Hp).
  rewrite insert_take_drop by done. rewrite <- El at 3. rewrite !omap_app. cbn. by rewrite E, E'.
Qed.

(** The number of threads at such places. *)
Lemma total_omap {A} (get : pc -> option A) f l :
  (forall p, f p = match get p with Some _ => 1 | None => 0 end)%nat -> total f l = length (omap get l).
Proof. intros Hf. induction l as [|p l IH]; [done|]. cbn. rewrite Hf, IH. by destruct (get p). Qed.

End Totals.
