(* ===== verification/Mutex.v ===== *)
(** * The futex mutex

    [FutexImpl] of [src/src/threading/Mutex.rs], over [wait] and [wake] of
    [Futex.rs], as the interleavings of any number of threads. A step is one
    atomic access to the word, or one call of the kernel; a single word is
    accessed, so that all its accesses have one order. *)
From Stdlib Require Import ZArith Lia Wellfounded.
From stdpp Require Import base list numbers option relations.
From S2P Require Import Prelude Threads.

Open Scope Z_scope.

(** ** The code *)

Definition UNLOCKED : Z := 0.
Definition LOCKED : Z := 1.
(** Contains the bit of [LOCKED]. *)
Definition CONTENDED : Z := 3.

(** Which [try_lock] is compiled. *)
Inductive arch : Type := X86 | Other.

(** The word after [try_lock], and its result; a weak compare-and-swap may fail
    with no reason ([glitch]). *)
Definition try_lock (m : arch) (glitch : bool) (w : Z) : Z * bool :=
  match m with
  | X86 => (Z.lor w LOCKED, Z.land w LOCKED =? 0)
  | Other => if negb glitch && (w =? UNLOCKED) then (LOCKED, true) else (w, false)
  end.

(** Where a thread is: the access it does next. *)
Inductive pc : Type :=
| Idle       (* outside of the mutex *)
| TryLock    (* [lock]: [try_lock] *)
| SlowLoad   (* [lock_slow]: the load *)
| FutexWait  (* [wait_forever]: the kernel's check of the word *)
| Asleep     (* blocked in the kernel *)
| Swap       (* [lock_slow]: the swap of the loop *)
| Critical   (* holds the mutex *)
| Unlock     (* [unlock_raw]: the swap *)
| FutexWake. (* [unlock_raw]: [wake_raw] of one waiter *)
#[export] Instance pc_eq_dec : EqDecision pc.
Proof. solve_decision. Defined.

(** One access of a thread: the next place and the word. A thread that sleeps
    may be woken for no reason; [FutexWake] is a step of two threads. *)
Definition thread_step (m : arch) (glitch : bool) (p : pc) (w : Z) : option (pc * Z) :=
  match p with
  | Idle => Some (TryLock, w)
  | TryLock => let '(w', ok) := try_lock m glitch w in Some (if (ok : bool) then Critical else SlowLoad, w')
  | SlowLoad => Some (if w =? CONTENDED then FutexWait else Swap, w)
  | FutexWait => Some (if w =? CONTENDED then Asleep else Swap, w)
  | Asleep => if glitch then Some (Swap, w) else None
  | Swap => Some (if negb (w =? UNLOCKED) then FutexWait else Critical, CONTENDED)
  | Critical => Some (Unlock, w)
  | Unlock => Some (if w =? CONTENDED then FutexWake else Idle, UNLOCKED)
  | FutexWake => None
  end.

(** The word, and the threads. *)
Record mutex : Type := mkMutex { mx_state : Z; mx_threads : list pc }.

Inductive label : Type := Act (t : nat) (glitch : bool) | WakeOne (t u : nat) | WakeNone (t : nat).

Inductive step (m : arch) : mutex -> label -> mutex -> Prop :=
| step_act w l t glitch p p' w' :
    l !! t = Some p -> thread_step m glitch p w = Some (p', w') ->
    step m (mkMutex w l) (Act t glitch) (mkMutex w' (<[t := p']> l))
| step_wake_one w l t u :
    l !! t = Some FutexWake -> l !! u = Some Asleep ->
    step m (mkMutex w l) (WakeOne t u) (mkMutex w (<[t := Idle]> (<[u := Swap]> l)))
| step_wake_none w l t :
    l !! t = Some FutexWake -> (forall u, l !! u <> Some Asleep) ->
    step m (mkMutex w l) (WakeNone t) (mkMutex w (<[t := Idle]> l)).

(** [FutexImpl::new], with [n] threads outside. *)
Definition mutex_new (n : nat) : mutex := mkMutex UNLOCKED (replicate n Idle).

Definition reachable (m : arch) (n : nat) (s : mutex) : Prop := rtc (fun s s' => exists a, step m s a s') (mutex_new n) s.

(** ** The invariant *)

Definition sleeps (p : pc) : nat := match p with Asleep => 1 | _ => 0 end.
Definition wakes (p : pc) : nat := match p with FutexWake => 1 | _ => 0 end.
Definition swaps (p : pc) : nat := match p with Swap => 1 | _ => 0 end.
Definition holds_it (p : pc) : nat := match p with Critical | Unlock => 1 | _ => 0 end.
Definition holders (l : list pc) : nat := total holds_it l.

Record mutex_inv (s : mutex) : Prop := {
  (** the word says whether the mutex is held *)
  inv_word : (s.(mx_state) = UNLOCKED /\ holders s.(mx_threads) = 0%nat) \/
             ((s.(mx_state) = LOCKED \/ s.(mx_state) = CONTENDED) /\ holders s.(mx_threads) = 1%nat);
  (** no wake-up is lost: a sleeper is announced in the word, or about to be
      woken, or a thread is awake that announces it *)
  inv_asleep : (0 < total sleeps s.(mx_threads))%nat ->
    s.(mx_state) = CONTENDED \/ (0 < total wakes s.(mx_threads))%nat \/ (0 < total swaps s.(mx_threads))%nat;
}.

Lemma mutex_inv_new n : mutex_inv (mutex_new n).
Proof.
  assert (forall f, f Idle = 0%nat -> total f (replicate n Idle) = 0%nat) as E.
  { intros f Hf. apply total_zero. intros t p [-> _]%lookup_replicate. done. }
  split; cbn [mutex_new mx_state mx_threads]; [left; split; [done|by apply E]|]. rewrite E by done. lia.
Qed.

(** The invariant in numbers, which a step changes by the place of a thread. *)
Definition counts (w : Z) (h a k s : nat) : Prop :=
  ((w = UNLOCKED /\ h = 0%nat) \/ ((w = LOCKED \/ w = CONTENDED) /\ h = 1%nat)) /\
  ((0 < a)%nat -> w = CONTENDED \/ (0 < k)%nat \/ (0 < s)%nat).

Lemma mutex_inv_counts s : mutex_inv s <->
  counts s.(mx_state) (holders s.(mx_threads)) (total sleeps s.(mx_threads)) (total wakes s.(mx_threads)) (total swaps s.(mx_threads)).
Proof. split; [by intros [H1 H2]|by intros [H1 H2]]. Qed.

(** What a thread adds to each of the sums before and after its step. *)
Ltac sums l t p p' H :=
  pose proof (total_insert holds_it l t p p' H); pose proof (total_insert sleeps l t p p' H);
  pose proof (total_insert wakes l t p p' H); pose proof (total_insert swaps l t p p' H).
Ltac eval_lor := repeat match goal with |- context [Z.lor ?a ?b] => let c := eval vm_compute in (Z.lor a b) in change (Z.lor a b) with c end.

Lemma act_counts m l t glitch p p' w w' :
  l !! t = Some p -> thread_step m glitch p w = Some (p', w') ->
  counts w (holders l) (total sleeps l) (total wakes l) (total swaps l) ->
  let l' := <[t := p']> l in counts w' (holders l') (total sleeps l') (total wakes l') (total swaps l').
Proof.
  intros Hp Hs Hc. sums l t p p' Hp. cbn zeta. pose proof (total_ge holds_it l t p Hp).
  destruct p, m, glitch; cbn in Hs; try discriminate Hs.
  all: destruct Hc as [[[-> Hh]|[[->| ->] Hh]] Ha]; cbn in Hs; injection Hs as <- <-.
  all: unfold counts, holders, UNLOCKED, LOCKED, CONTENDED in *; cbn [holds_it sleeps wakes swaps] in *.
  all: eval_lor; lia.
Qed.

Lemma mutex_inv_step m s a s' : step m s a s' -> mutex_inv s -> mutex_inv s'.
Proof.
  rewrite !mutex_inv_counts. destruct 1 as [w l t glitch p p' w' Hp Hs|w l t u Ht Hu|w l t Ht Hn]; cbn [mx_state mx_threads].
  - by eapply act_counts.
  - assert (t <> u) as Hne by congruence. sums l u Asleep Swap Hu.
    assert (<[u := Swap]> l !! t = Some FutexWake) as Ht' by (by rewrite list_lookup_insert_ne).
    sums (<[u := Swap]> l) t FutexWake Idle Ht'. unfold counts, holders. cbn [holds_it sleeps wakes swaps] in *. intros [Hw Ha]. split; [lia|].
    intros _. right. right. lia.
  - sums l t FutexWake Idle Ht. unfold counts, holders. cbn [holds_it sleeps wakes swaps] in *. intros [Hw Ha]. split; [lia|].
    assert (total sleeps l = 0%nat) as E by (apply total_zero; intros u p Hu; specialize (Hn u); by destruct p). lia.
Qed.

Lemma reachable_inv m n s : reachable m n s -> mutex_inv s.
Proof.
  intros H. unfold reachable in H. apply rtc_ind_r with (P := mutex_inv) in H; [done|apply mutex_inv_new|].
  intros s1 s2 _ [a Hs] Hi. by eapply mutex_inv_step.
Qed.

(** C16: mutual exclusion. In every interleaving of any number of threads,
    on x86 and elsewhere, and with spurious wake-ups, at most one thread is
    between the return of [lock] and the releasing swap of [unlock], and the
    word is [UNLOCKED] exactly when there is none. *)
Theorem mutex_excludes (m : arch) (n : nat) (s : mutex) :
  reachable m n s ->
  (forall t u p q, s.(mx_threads) !! t = Some p -> s.(mx_threads) !! u = Some q -> holds_it p = 1%nat -> holds_it q = 1%nat -> t = u) /\
  (s.(mx_state) = UNLOCKED <-> forall t p, s.(mx_threads) !! t = Some p -> holds_it p = 0%nat).
Proof.
  intros Hr. pose proof (reachable_inv m n s Hr) as [Hw _]. unfold holders in Hw. split.
  - intros t u p q Hp Hq Ep Eq. destruct (decide (t = u)) as [|Hne]; [done|]. pose proof (total_two holds_it _ _ _ _ _ Hne Hp Hq). lia.
  - split.
    + intros E t p Hp. pose proof (total_ge holds_it _ _ _ Hp). unfold UNLOCKED, LOCKED, CONTENDED in *. lia.
    + intros H%total_zero. unfold UNLOCKED, LOCKED, CONTENDED in *. lia.
Qed.

(** ** Every request is granted *)

(** A step with no spurious wake-up and no new call of [lock]. *)
Definition quiet (m : arch) (s s' : mutex) : Prop :=
  exists a, step m s a s' /\
    match a with Act t _ => s.(mx_threads) !! t <> Some Idle /\ s.(mx_threads) !! t <> Some Asleep | _ => True end.

(** The threads that have yet to release the mutex. *)
Definition pending (p : pc) : nat := match p with Idle | FutexWake => 0 | _ => 1 end.

(** How far a thread is from sleep or release, while the word is not released. *)
Definition distance (w : Z) (p : pc) : nat :=
  match p with
  | Idle => 0
  | Asleep => 1
  | FutexWait => if w =? CONTENDED then 2 else 4
  | Swap | FutexWake => 3
  | TryLock => 6
  | SlowLoad => 5
  | Critical => 2
  | Unlock => 1
  end.

(** While the word is not released, distances do not grow. *)
Lemma distance_mono w w' p : (w = CONTENDED -> w' = CONTENDED) -> (distance w' p <= distance w p)%nat.
Proof. intros H. destruct p; cbn; try lia. destruct (Z.eqb_spec w CONTENDED), (Z.eqb_spec w' CONTENDED); lia. Qed.

Definition measure (s : mutex) : nat * nat := (total pending s.(mx_threads), total (distance s.(mx_state)) s.(mx_threads)).

(** The lexicographic order of the two sums. *)
Definition smaller (a b : nat * nat) : Prop := (a.1 < b.1 \/ a.1 = b.1 /\ a.2 < b.2)%nat.

Lemma smaller_wf : well_founded smaller.
Proof.
  intros [a b]. revert b. induction a as [a IHa] using lt_wf_ind. intros b. induction b as [b IHb] using lt_wf_ind.
  constructor. intros [a' b'] [H|[H1 H2]]; cbn in *; [by apply IHa|]. subst. by apply IHb.
Qed.

(** A step of one thread that does not release the word. *)
Lemma act_distance w w' l t p p' :
  l !! t = Some p -> (w = CONTENDED -> w' = CONTENDED) -> (distance w' p' < distance w p)%nat ->
  (total (distance w') (<[t := p']> l) < total (distance w) l)%nat.
Proof.
  intros Hp Hw Hd. pose proof (total_insert (distance w) l t p p' Hp).
  pose proof (total_insert (distance w') l t p p' Hp). pose proof (total_insert (distance w') l t p p Hp) as Hid.
  assert (total (distance w') l + distance w p <= total (distance w) l + distance w' p)%nat; [|lia]. clear -Hp Hw.
  revert t Hp. induction l as [|q l IH]; intros [|t] Hp; [done|done| |].
  - injection Hp as ->. change (distance w' p + total (distance w') l + distance w p <= distance w p + total (distance w) l + distance w' p)%nat.
    pose proof (total_mono (distance w') (distance w) l (fun q => distance_mono w w' q Hw)). lia.
  - specialize (IH t Hp). change (distance w' q + total (distance w') l + distance w p <= distance w q + total (distance w) l + distance w' p)%nat.
    pose proof (distance_mono w w' q Hw). lia.
Qed.

Lemma quiet_smaller m s s' : mutex_inv s -> quiet m s s' -> smaller (measure s') (measure s).
Proof.
  intros [Hw _] (a & Hs & Ha). destruct Hs as [w l t glitch p p' w' Hp Hs|w l t u Ht Hu|w l t Ht Hn]; unfold measure, smaller; cbn [mx_state mx_threads fst snd] in *.
  - pose proof (total_insert pending l t p p' Hp) as E. pose proof (total_ge holds_it l t p Hp) as Hh. unfold holders in Hw.
    rewrite Hp in Ha. destruct Ha as [N1 N2].
    destruct p, m, glitch; cbn in Hs; try congruence.
    all: destruct Hw as [[-> Hh']|[[->| ->] Hh']]; cbn in Hs; injection Hs as <- <-; cbn [pending holds_it] in *; try lia.
    all: right; split; [lia|]; (eapply act_distance; [done|done|cbn; lia]).
  - right. assert (t <> u) as Hne by congruence.
    assert (<[u := Swap]> l !! t = Some FutexWake) as Ht' by (by rewrite list_lookup_insert_ne).
    pose proof (total_insert pending l u Asleep Swap Hu). pose proof (total_insert pending _ t FutexWake Idle Ht').
    pose proof (total_insert (distance w) l u Asleep Swap Hu). pose proof (total_insert (distance w) _ t FutexWake Idle Ht').
    cbn [pending distance] in *. lia.
  - right. pose proof (total_insert pending l t FutexWake Idle Ht). pose proof (total_insert (distance w) l t FutexWake Idle Ht).
    cbn [pending distance] in *. lia.
Qed.

(** A state in which nothing can happen has all threads outside. *)
Lemma stuck_idle m s : mutex_inv s -> (forall s', ~ quiet m s s') -> forall t p, s.(mx_threads) !! t = Some p -> p = Idle.
Proof.
  destruct s as [w l]. intros [Hw Ha] Hq. cbn [mx_state mx_threads] in *.
  assert (forall t p, l !! t = Some p -> p = Idle \/ p = Asleep) as Hp.
  { intros t p Hp. destruct (decide (p = Idle)); [by left|]. destruct (decide (p = Asleep)); [by right|]. exfalso.
    destruct (decide (p = FutexWake)) as [->|].
    - destruct (decide (0 < total sleeps l)%nat) as [Hs|Hs].
      + apply total_pos in Hs as (u & q & Hu & Hs). destruct q; cbn in Hs; try lia. eapply Hq. eexists. split; [by apply step_wake_one|done].
      + eapply Hq. eexists. split; [apply step_wake_none; [done|]|done]. intros u Hu. pose proof (total_ge sleeps l u _ Hu). cbn in *. lia.
    - destruct (thread_step m false p w) as [[p' w']|] eqn:E.
      + eapply Hq. exists (Act t false). split; [by eapply step_act|]. cbn. split; congruence.
      + destruct p, m; cbn in E; try done. by destruct (w =? UNLOCKED). }
  assert (forall f, f Idle = 0%nat -> f Asleep = 0%nat -> total f l = 0%nat) as Hz.
  { intros f H1 H2. apply total_zero. intros t p [->| ->]%Hp; done. }
  unfold holders in Hw. rewrite (Hz holds_it), (Hz wakes), (Hz swaps) in * by done.
  intros t p Hl. destruct (Hp t p Hl) as [| ->]; [done|]. pose proof (total_ge sleeps l t _ Hl). cbn in *.
  unfold UNLOCKED, LOCKED, CONTENDED in *. lia.
Qed.

(** C15: no request for the mutex is lost. From every reachable state, however the
    threads are scheduled: once no thread asks anew and no wake-up is spurious,
    only finitely many steps can happen ([quiet]; no fairness is assumed), and
    when no step is left every thread that asked has held the mutex and is
    outside again; none is left asleep. The mutex is not fair: nothing is said of
    a thread while others keep asking. *)
Theorem mutex_requests_granted (m : arch) (n : nat) (s : mutex) :
  reachable m n s ->
  Acc (fun s2 s1 => quiet m s1 s2) s /\
  forall s', rtc (quiet m) s s' -> (forall s2, ~ quiet m s' s2) -> forall t p, s'.(mx_threads) !! t = Some p -> p = Idle.
Proof.
  intros Hr. pose proof (reachable_inv m n s Hr) as Hi.
  assert (forall s1 s2, mutex_inv s1 -> quiet m s1 s2 -> mutex_inv s2) as Hstep by (intros s1 s2 H (a & Hs & _); by eapply mutex_inv_step).
  split.
  - clear Hr. remember (measure s) as k eqn:Ek. revert s Hi Ek. induction k as [k IH] using (well_founded_ind smaller_wf). intros s Hi ->.
    constructor. intros s2 Hq. eapply IH; [by apply (quiet_smaller m)|by eapply Hstep|done].
  - intros s' Hs' Hstuck. apply (stuck_idle m); [|done]. clear Hstuck Hr. induction Hs' as [s|s s1 s2 H1 _ IH]; [done|]. apply IH. by eapply Hstep.
Qed.

(** ** Two threads, one of them asleep *)

Ltac act t := eapply rtc_l; [eexists; eapply (step_act _ _ _ t false); reflexivity|cbn].

Lemma contended_reachable : reachable X86 2 (mkMutex CONTENDED [Critical; Asleep]).
Proof. unfold reachable, mutex_new. cbn. act 0%nat. act 0%nat. act 1%nat. act 1%nat. act 1%nat. act 1%nat. act 1%nat. apply rtc_refl. Qed.

Lemma mutex_excludes_witness :
  (forall t u p q, [Critical; Asleep] !! t = Some p -> [Critical; Asleep] !! u = Some q -> holds_it p = 1%nat -> holds_it q = 1%nat -> t = u) /\
  (CONTENDED = UNLOCKED <-> forall t p, [Critical; Asleep] !! t = Some p -> holds_it p = 0%nat).
Proof. exact (mutex_excludes X86 2 (mkMutex CONTENDED [Critical; Asleep]) contended_reachable). Defined.

Lemma mutex_requests_granted_witness :
  Acc (fun s2 s1 => quiet X86 s1 s2) (mkMutex CONTENDED [Critical; Asleep]) /\
  forall s', rtc (quiet X86) (mkMutex CONTENDED [Critical; Asleep]) s' -> (forall s2, ~ quiet X86 s' s2) ->
    forall t p, s'.(mx_threads) !! t = Some p -> p = Idle.
Proof. exact (mutex_requests_granted X86 2 (mkMutex CONTENDED [Critical; Asleep]) contended_reachable). Defined.
