(* ===== verification/Semaphore.v ===== *)
(** * Conditions and semaphores

    [FutexImpl] of [threading/Condition.rs] and [threading/Semaphore.rs], which is
    a count of permits guarded by a mutex, with a condition to sleep on while
    there is none. A step is one atomic access, one access to the permits, or one
    call of the mutex or of the kernel. The mutex is the contract that
    [threading/Mutex.rs] implements: it is taken only when it is free. [wait] of
    the condition is modelled without its timeout and [wake] for one thread, as
    the semaphore calls them.

    The section on the invariant is about one thread that waits and one that
    posts, which is how the read-write lock uses a semaphore. *)
From Stdlib Require Import ZArith Lia.
From stdpp Require Import base list numbers option.
From S2P Require Import Prelude.
#[local] Open Scope Z_scope.

(** ** The condition *)

Definition ONE_WAITER : Z := 1.
Definition WAITER_MASK : Z := 65535.
Definition ONE_SIGNAL : Z := Z.shiftl 1 16.
Definition SIGNAL_MASK : Z := Z.shiftl 65535 16.

Record Condition : Type := mkCond { cd_state : Z; cd_epoch : Z }.

Definition Condition_new : Condition := mkCond 0 0.

Record Semaphore : Type := mkSem { sm_mutex : bool; sm_cond : Condition; sm_permits : Z }.

Definition Semaphore_new : Semaphore := mkSem false Condition_new 0.

Definition set_mutex (s : Semaphore) (held : bool) : Semaphore := mkSem held (sm_cond s) (sm_permits s).
Definition set_permits (s : Semaphore) (permits : Z) : Semaphore := mkSem (sm_mutex s) (sm_cond s) permits.
Definition set_cond_state (s : Semaphore) (state : Z) : Semaphore :=
  mkSem (sm_mutex s) (mkCond state (cd_epoch (sm_cond s))) (sm_permits s).
Definition set_cond_epoch (s : Semaphore) (epoch : Z) : Semaphore :=
  mkSem (sm_mutex s) (mkCond (cd_state (sm_cond s)) epoch) (sm_permits s).

(** Where a thread in [wait] of the condition is: the access it does next. *)
Inductive cond_pc : Type :=
| CEpoch                     (* the load of the epoch *)
| CAdd (epoch : Z)           (* the [fetch_add] of a waiter *)
| CUnlock (epoch : Z)        (* [mutex.unlock] *)
| CFutex (epoch : Z)         (* the kernel's check of the epoch *)
| CAsleep (epoch : Z)        (* blocked in the kernel *)
| CReload                    (* the load of the epoch in the loop *)
| CLoad (epoch : Z)          (* the load of the state in the loop *)
| CCas (epoch state : Z)     (* the compare-and-swap that takes a signal *)
| CLock.                     (* the deferred [mutex.lock] *)
#[export] Instance cond_pc_eq_dec : EqDecision cond_pc.
Proof. solve_decision. Defined.

(** The condition of the inner loop of [wait]. *)
Definition after_cond_load (epoch state : Z) : cond_pc :=
  if negb (Z.land state SIGNAL_MASK =? 0) then CCas epoch state else CFutex epoch.

(** One access in [wait]: the next place, or [None] when [wait] returns. A
    thread that sleeps may be woken for no reason, and a weak compare-and-swap may
    fail with no reason ([glitch]). *)
Definition cond_wait_step (glitch : bool) (p : cond_pc) (s : Semaphore) : option (option cond_pc * Semaphore) :=
  let c := sm_cond s in
  match p with
  | CEpoch => Some (Some (CAdd (cd_epoch c)), s)
  | CAdd epoch => Some (Some (CUnlock epoch), set_cond_state s (wadd32 (cd_state c) ONE_WAITER))
  | CUnlock epoch => Some (Some (CFutex epoch), set_mutex s false)
  | CFutex epoch => Some (Some (if cd_epoch c =? epoch then CAsleep epoch else CReload), s)
  | CAsleep _ => if glitch then Some (Some CReload, s) else None
  | CReload => Some (Some (CLoad (cd_epoch c)), s)
  | CLoad epoch => Some (Some (after_cond_load epoch (cd_state c)), s)
  | CCas epoch state =>
      if negb glitch && (cd_state c =? state) then
        Some (Some CLock, set_cond_state s (as_u32 (state - ONE_WAITER - ONE_SIGNAL)))
      else Some (Some (after_cond_load epoch (cd_state c)), s)
  | CLock => if sm_mutex s then None else Some (None, set_mutex s true)
  end.

(** Where a thread in [wake] of one waiter is. *)
Inductive wake_pc : Type :=
| KLoad                (* the load of the state *)
| KCas (state : Z)     (* the compare-and-swap that adds a signal *)
| KEpoch               (* the [fetch_add] of the epoch *)
| KFutex.              (* [Futex::wake] of one thread *)
#[export] Instance wake_pc_eq_dec : EqDecision wake_pc.
Proof. solve_decision. Defined.

(** The head of the loop of [wake]: it returns when nobody is to be woken. *)
Definition after_wake_load (state : Z) : option wake_pc :=
  let waiters := Z.land state WAITER_MASK / ONE_WAITER in
  let signals := Z.land state SIGNAL_MASK / ONE_SIGNAL in
  let wakeable := as_u32 (waiters - signals) in
  if wakeable =? 0 then None else Some (KCas state).

(** [KFutex] is a step of two threads, or of one when nobody sleeps. *)
Definition wake_step (glitch : bool) (p : wake_pc) (s : Semaphore) : option (option wake_pc * Semaphore) :=
  let c := sm_cond s in
  match p with
  | KLoad => Some (after_wake_load (cd_state c), s)
  | KCas state =>
      let to_wake := 1 in
      if negb glitch && (cd_state c =? state) then
        Some (Some KEpoch, set_cond_state s (wadd32 state (ONE_SIGNAL * to_wake)))
      else Some (after_wake_load (cd_state c), s)
  | KEpoch => Some (Some KFutex, set_cond_epoch s (wadd32 (cd_epoch c) 1))
  | KFutex => None
  end.

(** ** The semaphore *)

(** Where a thread in [Semaphore::wait] is. *)
Inductive wait_pc : Type :=
| SLock                    (* [mutex.lock] *)
| SCheck                   (* the condition of the loop *)
| SCond (p : cond_pc)      (* [cond.wait] *)
| STake                    (* [permits -= 1] and the test of what is left *)
| SSignal (p : wake_pc)    (* [cond.signal] *)
| SUnlock.                 (* the deferred [mutex.unlock] *)
#[export] Instance wait_pc_eq_dec : EqDecision wait_pc.
Proof. solve_decision. Defined.

(** Where a thread in [Semaphore::post] is. *)
Inductive post_pc : Type :=
| PLock                    (* [mutex.lock] *)
| PAdd                     (* [permits += 1] *)
| PSignal (p : wake_pc)    (* [cond.signal] *)
| PUnlock.                 (* the deferred [mutex.unlock] *)
#[export] Instance post_pc_eq_dec : EqDecision post_pc.
Proof. solve_decision. Defined.

(** What follows a return of [cond.wait] or of [cond.signal]. *)
Definition wait_after_cond (p : option cond_pc) : wait_pc := match p with Some p => SCond p | None => SCheck end.
Definition wait_after_signal (p : option wake_pc) : wait_pc := match p with Some p => SSignal p | None => SUnlock end.
Definition post_after_signal (p : option wake_pc) : post_pc := match p with Some p => PSignal p | None => PUnlock end.

(** One access of [wait]; the next place is [None] when it returns. *)
Definition Semaphore_wait_step (glitch : bool) (p : wait_pc) (s : Semaphore) : option (option wait_pc * Semaphore) :=
  match p with
  | SLock => if sm_mutex s then None else Some (Some SCheck, set_mutex s true)
  | SCheck => Some (Some (if sm_permits s =? 0 then SCond CEpoch else STake), s)
  | SCond p => option_map (fun '(p', s') => (Some (wait_after_cond p'), s')) (cond_wait_step glitch p s)
  | STake =>
      let permits := as_u64 (sm_permits s - 1) in
      Some (Some (if 0 <? permits then SSignal KLoad else SUnlock), set_permits s permits)
  | SSignal p => option_map (fun '(p', s') => (Some (wait_after_signal p'), s')) (wake_step glitch p s)
  | SUnlock => Some (None, set_mutex s false)
  end.

(** One access of [post]. *)
Definition Semaphore_post_step (glitch : bool) (p : post_pc) (s : Semaphore) : option (option post_pc * Semaphore) :=
  match p with
  | PLock => if sm_mutex s then None else Some (Some PAdd, set_mutex s true)
  | PAdd => Some (Some (PSignal KLoad), set_permits s (wadd64 (sm_permits s) 1))
  | PSignal p => option_map (fun '(p', s') => (Some (post_after_signal p'), s')) (wake_step glitch p s)
  | PUnlock => Some (None, set_mutex s false)
  end.

(** ** One thread that waits, one that posts *)

(** Whether the thread holds the mutex of the semaphore. *)
Definition wait_holds (w : option wait_pc) : bool :=
  match w with
  | Some (SCheck | SCond (CEpoch | CAdd _ | CUnlock _) | STake | SSignal _ | SUnlock) => true
  | _ => false
  end.
Definition post_holds (q : option post_pc) : bool :=
  match q with Some (PAdd | PSignal _ | PUnlock) => true | _ => false end.

(** Whether the thread is counted as a waiter of the condition. *)
Definition is_waiter (w : option wait_pc) : bool :=
  match w with
  | Some (SCond (CUnlock _ | CFutex _ | CAsleep _ | CReload | CLoad _ | CCas _ _)) => true
  | _ => false
  end.

(** The permits that were or will be given: in the count, in the hands of the
    thread that posts, and of the thread that waited. *)
Definition wait_taken (w : option wait_pc) : Z := match w with Some SUnlock => 1 | _ => 0 end.
Definition post_owes (q : option post_pc) : Z := match q with Some (PLock | PAdd) => 1 | _ => 0 end.
Definition tokens (w : option wait_pc) (q : option post_pc) (s : Semaphore) : Z :=
  wait_taken w + post_owes q + sm_permits s.

(** The signal is sent, and the epoch or the sleepers are still to follow. *)
Definition post_wakes (q : option post_pc) : Prop :=
  q = Some (PSignal KEpoch) \/ q = Some (PSignal KFutex).

(** What the place of the waiter says, with [signal] a signal it has not taken. *)
Definition wait_ok (w : option wait_pc) (q : option post_pc) (s : Semaphore) (signal : bool) : Prop :=
  let epoch := cd_epoch (sm_cond s) in
  match w with
  | None | Some (SLock | SCheck | SCond CLock) => signal = false
  | Some (SCond CEpoch) => signal = false /\ sm_permits s = 0
  | Some (SCond (CAdd e)) => signal = false /\ e = epoch /\ sm_permits s = 0
  | Some (SCond (CUnlock e)) => signal = false /\ e = epoch /\ sm_permits s = 0
  | Some (SCond (CFutex e)) =>
      if signal then match q with Some (PSignal KEpoch) => e = epoch | _ => e <> epoch end else e = epoch
  | Some (SCond (CAsleep e)) => if signal then post_wakes q else e = epoch
  | Some (SCond CReload) => True
  | Some (SCond (CLoad e)) => signal = false -> e = epoch
  | Some (SCond (CCas e state)) => signal = true /\ state = cd_state (sm_cond s)
  | Some STake => signal = false /\ sm_permits s = 1
  | Some (SSignal _) => False
  | Some SUnlock => signal = false /\ sm_permits s = 0
  end.

(** What the place of the thread that posts says. A waiter that a permit was
    posted for has a signal, or is about to be sent one. *)
Definition post_ok (w : option wait_pc) (q : option post_pc) (s : Semaphore) (signal : bool) : Prop :=
  match q with
  | None | Some PUnlock => sm_permits s = 1 -> is_waiter w = signal
  | Some (PLock | PAdd) => signal = false
  | Some (PSignal KLoad) => signal = false
  | Some (PSignal (KCas state)) => signal = false /\ is_waiter w = true /\ state = cd_state (sm_cond s)
  | Some (PSignal (KEpoch | KFutex)) => is_waiter w = signal
  end /\
  match q with
  | Some (PLock | PAdd) => sm_permits s = 0
  | Some (PSignal _ | PUnlock) => sm_permits s = 1
  | None => True
  end.

Record sem_inv (w : option wait_pc) (q : option post_pc) (s : Semaphore) : Prop := mkSemInv {
  inv_mutex : sm_mutex s = wait_holds w || post_holds q;
  inv_one_holder : wait_holds w && post_holds q = false;
  inv_signal : exists signal, cd_state (sm_cond s) = Z.b2z (is_waiter w) + 65536 * Z.b2z signal /\
    (signal = true -> is_waiter w = true /\ sm_permits s = 1) /\
    wait_ok w q s signal /\ post_ok w q s signal;
  inv_epoch : 0 <= cd_epoch (sm_cond s) < two32;
  inv_tokens : 0 <= tokens w q s <= 1;
}.

Lemma sem_inv_new : sem_inv None None Semaphore_new.
Proof. split; cbn; try done; by exists false. Qed.

(** The next epoch is another one. *)
Lemma epoch_moves e : 0 <= e < two32 -> 0 <= wadd32 e 1 < two32 /\ wadd32 e 1 <> e.
Proof.
  intros H. unfold wadd32. split; [apply Z.mod_pos_bound; reflexivity|]. intros E. unfold two32 in *.
  destruct (Z.eq_dec e 4294967295) as [->|]; [done|]. rewrite Z.mod_small in E; lia.
Qed.

(** Takes the invariant apart and evaluates it at known places. *)
Ltac sem_cases s :=
  match goal with
  | H : sem_inv _ _ s |- _ =>
      destruct H as [Hm Ho (signal & Hst & Hsg & Hw & Hp & Hpq) He Ht]; destruct s as [m [st ep] pm]
  end.
Ltac sem_eval :=
  unfold tokens, post_wakes, post_ok, wait_ok in *;
  cbn [wait_holds post_holds is_waiter wait_taken post_owes Semaphore_wait_step Semaphore_post_step cond_wait_step
    wake_step wait_after_cond wait_after_signal post_after_signal option_map sm_mutex sm_cond sm_permits cd_state cd_epoch
    set_mutex set_permits set_cond_state set_cond_epoch Z.b2z orb andb negb] in *.

(** The state of the condition has three values. *)
Lemma cond_load_00 e : after_cond_load e (0 + 65536 * 0) = CFutex e.
Proof. done. Qed.
Lemma cond_load_10 e : after_cond_load e (1 + 65536 * 0) = CFutex e.
Proof. done. Qed.
Lemma cond_load_11 e : after_cond_load e (1 + 65536 * 1) = CCas e (1 + 65536 * 1).
Proof. done. Qed.
Lemma wake_load_00 : after_wake_load (0 + 65536 * 0) = None.
Proof. done. Qed.
Lemma wake_load_10 : after_wake_load (1 + 65536 * 0) = Some (KCas (1 + 65536 * 0)).
Proof. done. Qed.
Lemma wake_load_11 : after_wake_load (1 + 65536 * 1) = None.
Proof. done. Qed.

(** Closes the invariant after a step, with a signal that is left or not. *)
Ltac sem_close :=
  sem_eval; first [done | lia | congruence | tauto | intuition (congruence || lia || done)].
Ltac sem_solve :=
  split; [split; [sem_close|sem_close|first [exists false; sem_eval; split_and!; solve [sem_close] | exists true; sem_eval; split_and!; solve [sem_close]]|sem_close|sem_close]|sem_close].

(** Runs a step whose accesses are known. *)
Ltac sem_step Hs :=
  rewrite ?cond_load_00, ?cond_load_10, ?cond_load_11, ?wake_load_00, ?wake_load_10, ?wake_load_11 in Hs;
  repeat match type of Hs with
  | context [Z.eqb ?a ?b] => destruct (Z.eqb_spec a b)
  | context [if ?b then _ else _] => destruct b eqn:?
  end; try discriminate Hs; injection Hs as <- <-.

(** A step of the thread that waits. When it returns, a permit is used up. *)
Lemma sem_inv_wait glitch p p' q s s' : sem_inv (Some p) q s -> Semaphore_wait_step glitch p s = Some (p', s') ->
  sem_inv p' q s' /\ tokens p' q s' = tokens (Some p) q s - (if p' is Some _ then 0 else 1).
Proof.
  intros Hi Hs. sem_cases s.
  destruct p as [| |[|e|e|e|e| |e|e z|]| |k|].
  all: destruct signal; sem_eval; try (intuition (done || discriminate)).
  all: destruct q as [[| |[| | |]|]|]; sem_eval; destruct_and?; try done; subst; sem_step Hs; sem_solve.
Qed.

(** A step of the thread that posts. *)
Lemma sem_inv_post glitch w p p' s s' : sem_inv w (Some p) s -> Semaphore_post_step glitch p s = Some (p', s') ->
  sem_inv w p' s' /\ tokens w p' s' = tokens w (Some p) s.
Proof.
  intros Hi Hs. sem_cases s. pose proof (epoch_moves ep He).
  destruct p as [| |[|z| |]|]; destruct signal; sem_eval; try (intuition (done || discriminate)).
  all: destruct w as [[| |[|e|e|e|e| |e|e y|]| |k|]|]; sem_eval; destruct_and?; try done; subst; sem_step Hs.
  all: sem_solve.
Qed.

(** The thread that posts wakes the waiter if it sleeps. *)
Definition cond_woken (w : option wait_pc) : option wait_pc :=
  match w with Some (SCond (CAsleep _)) => Some (SCond CReload) | _ => w end.

Lemma sem_inv_wake w s : sem_inv w (Some (PSignal KFutex)) s ->
  sem_inv (cond_woken w) (Some PUnlock) s /\ tokens (cond_woken w) (Some PUnlock) s = tokens w (Some (PSignal KFutex)) s.
Proof.
  intros Hi. sem_cases s.
  destruct signal, w as [[| |[|e|e|e|e| |e|e y|]| |k|]|]; cbn [cond_woken]; sem_eval; destruct_and?; try done; subst; sem_solve.
Qed.

(** Calls of [wait] and of [post]. *)
Lemma sem_inv_wait_call q s : sem_inv None q s -> sem_inv (Some SLock) q s /\ tokens (Some SLock) q s = tokens None q s.
Proof.
  intros Hi. sem_cases s. destruct signal, q as [[| |[| | |]|]|]; sem_eval; destruct_and?; try done; subst; sem_solve.
Qed.

Lemma sem_inv_post_call w s : sem_inv w None s -> tokens w None s = 0 ->
  sem_inv w (Some PLock) s /\ tokens w (Some PLock) s = 1.
Proof.
  intros Hi Hz. sem_cases s.
  destruct signal, w as [[| |[|e|e|e|e| |e|e y|]| |k|]|]; sem_eval; destruct_and?; try done; subst; sem_solve.
Qed.

(** A thread that waits with no permit on its way goes on until it sleeps; with
    one, some thread can go on: no wake-up is lost. *)
Lemma sem_progress w q s : sem_inv w q s ->
  match w with
  | None => True
  | Some p => Semaphore_wait_step false p s <> None \/ tokens w q s = 0 \/
      match q with
      | None => False
      | Some p => p = PSignal KFutex \/ Semaphore_post_step false p s <> None
      end
  end.
Proof.
  intros Hi. sem_cases s.
  destruct signal, w as [[| |[|e|e|e|e| |e|e y|]| |k|]|]; [..|done]; sem_eval; destruct_and?; try done; subst.
  all: try (left; case_if; done).
  all: try (left; done).
  all: destruct q as [[| |[| | |]|]|]; sem_eval; destruct_and?; try done; subst; auto.
  all: try (right; right; right; done).
  - by destruct Hw.
  - right. left. destruct (Z.eq_dec pm 1) as [E|]; [by specialize (Hp E)|lia].
Qed.

(** Nobody posts any more when the permit was taken. *)
Lemma sem_inv_return glitch p q s s' : sem_inv (Some p) q s -> Semaphore_wait_step glitch p s = Some (None, s') ->
  q = None /\ tokens (Some p) q s = 1.
Proof.
  intros Hi Hs. destruct p as [| | | |k|]; cbn in Hs; try discriminate Hs.
  - by destruct (sm_mutex s).
  - by destruct (cond_wait_step glitch p s) as [[]|].
  - by destruct (wake_step glitch k s) as [[]|].
  - sem_cases s. destruct signal, q as [[| |[| | |]|]|]; sem_eval; destruct_and?; try done; subst; first [split; [done|lia] | exfalso; lia].
Qed.
