(* ===== verification/RwLock.v ===== *)
(** * The read-write lock

    [RawRwLock] of [threading/RwLock.rs] over a mutex and a semaphore, as the
    interleavings of any number of threads. A step is one atomic access to the
    state word, one call of the mutex, or one access of the semaphore and of its
    condition ([Semaphore.v]), in which a thread may sleep until it is woken. The
    mutex is the contract that [mutex_excludes] and [mutex_requests_granted] prove
    of [threading/Mutex.rs]: it is taken only when it is free. All accesses to the
    word are sequentially consistent in the source. *)
From Stdlib Require Import ZArith Lia.
From stdpp Require Import base list numbers option relations.
From S2P Require Import Prelude Threads Semaphore.
#[local] Open Scope Z_scope.

(** ** The code *)

Definition COUNT_BITS : Z := (64 - 1) / 2.
Definition COUNT_MAX : Z := Z.shiftl 1 COUNT_BITS - 1.
Definition IS_WRITING : Z := 1.
Definition WRITER : Z := Z.shiftl 1 1.
Definition READER : Z := Z.shiftl 1 (1 + COUNT_BITS).
Definition WRITER_MASK : Z := Z.shiftl COUNT_MAX 1.
Definition READER_MASK : Z := Z.shiftl COUNT_MAX (1 + COUNT_BITS).

(** Where a thread is: the access it does next. *)
Inductive rw_pc : Type :=
| Outside
| WReserve             (* [lock]: the first [fetch_add] *)
| WMutex               (* [lock]: [mutex.lock] *)
| WAnnounce            (* [lock]: the second [fetch_add] *)
| WSemaphore (p : wait_pc)   (* [lock]: [semaphore.wait] *)
| Writing              (* holds the lock for writing *)
| WClear               (* [unlock]: the [fetch_and] *)
| WRelease             (* [unlock]: [mutex.unlock] *)
| RLoad                (* [lock_shared]: the load *)
| RCas (state : Z)     (* [lock_shared]: the compare-and-swap *)
| RMutex               (* [lock_shared]: [mutex.lock] *)
| RAdd                 (* [lock_shared]: the [fetch_add] *)
| RRelease             (* [lock_shared]: [mutex.unlock] *)
| Reading              (* holds the lock for reading *)
| RSub                 (* [unlock_shared]: the [fetch_sub] *)
| RPost (p : post_pc). (* [unlock_shared]: [semaphore.post] *)
#[export] Instance rw_pc_eq_dec : EqDecision rw_pc.
Proof. solve_decision. Defined.

(** What a thread outside asks for. *)
Inductive request : Type := WantWrite | WantRead.

(** The shared part: the word, whether the mutex is held, the semaphore. *)
Record RawRwLock : Type := mkRaw { rw_state : Z; rw_mutex : bool; rw_semaphore : Semaphore }.

Definition RawRwLock_new : RawRwLock := mkRaw 0 false Semaphore_new.

Definition with_state (s : RawRwLock) (state : Z) : RawRwLock := mkRaw state (rw_mutex s) (rw_semaphore s).
Definition with_mutex (s : RawRwLock) (held : bool) : RawRwLock := mkRaw (rw_state s) held (rw_semaphore s).
Definition with_semaphore (s : RawRwLock) (sem : Semaphore) : RawRwLock := mkRaw (rw_state s) (rw_mutex s) sem.

(** The condition of the loop of [lock_shared]. *)
Definition after_load (state : Z) : rw_pc :=
  if Z.land state (Z.lor IS_WRITING WRITER_MASK) =? 0 then RCas state else RMutex.

(** [mutex.lock] *)
Definition take_mutex (s : RawRwLock) (next : rw_pc) : option (rw_pc * RawRwLock) :=
  if rw_mutex s then None else Some (next, with_mutex s true).

(** One access of a thread; [None] while it is blocked. A weak
    compare-and-swap may fail, and a thread that sleeps may be woken, with no
    reason ([glitch]). *)
Definition rw_thread_step (want : request) (glitch : bool) (p : rw_pc) (s : RawRwLock)
    : option (rw_pc * RawRwLock) :=
  let state := rw_state s in
  match p with
  | Outside => Some (match want with WantWrite => WReserve | WantRead => RLoad end, s)
  | WReserve => Some (WMutex, with_state s (as_u64 (state + WRITER)))
  | WMutex => take_mutex s WAnnounce
  | WAnnounce =>
      Some (if negb (Z.land state READER_MASK =? 0) then WSemaphore SLock else Writing,
            with_state s (as_u64 (state + as_u64 (IS_WRITING - WRITER))))
  | WSemaphore p =>
      match Semaphore_wait_step glitch p (rw_semaphore s) with
      | None => None
      | Some (Some p', sem) => Some (WSemaphore p', with_semaphore s sem)
      | Some (None, sem) => Some (Writing, with_semaphore s sem)
      end
  | Writing => Some (WClear, s)
  | WClear => Some (WRelease, with_state s (Z.land state (u64_MAX - IS_WRITING)))
  | WRelease => Some (Outside, with_mutex s false)
  | RLoad => Some (after_load state, s)
  | RCas expected =>
      if negb glitch && (state =? expected) then Some (Reading, with_state s (as_u64 (expected + READER)))
      else Some (after_load state, s)
  | RMutex => take_mutex s RAdd
  | RAdd => Some (RRelease, with_state s (as_u64 (state + READER)))
  | RRelease => Some (Reading, with_mutex s false)
  | Reading => Some (RSub, s)
  | RSub =>
      Some (if (Z.land state READER_MASK =? READER) && negb (Z.land state IS_WRITING =? 0)
            then RPost PLock else Outside,
            with_state s (as_u64 (state - READER)))
  | RPost p =>
      match Semaphore_post_step glitch p (rw_semaphore s) with
      | None => None
      | Some (Some p', sem) => Some (RPost p', with_semaphore s sem)
      | Some (None, sem) => Some (Outside, with_semaphore s sem)
      end
  end.

(** Any number of threads on one lock. *)
Record rw_system : Type := mkRw { rw_lock : RawRwLock; rw_threads : list rw_pc }.

(** A thread about to call [Futex::wake], and one that sleeps in the kernel, with
    where the call leads them. *)
Definition waking (p : rw_pc) : option rw_pc :=
  match p with
  | WSemaphore (SSignal KFutex) => Some (WSemaphore SUnlock)
  | RPost (PSignal KFutex) => Some (RPost PUnlock)
  | _ => None
  end.
Definition woken (p : rw_pc) : option rw_pc :=
  match p with WSemaphore (SCond (CAsleep _)) => Some (WSemaphore (SCond CReload)) | _ => None end.

(** A step of the thread [t]. *)
Inductive rw_step_of (t : nat) (glitch : bool) : rw_system -> rw_system -> Prop :=
| rw_act s l want p p' s' :
    l !! t = Some p -> rw_thread_step want glitch p s = Some (p', s') ->
    rw_step_of t glitch (mkRw s l) (mkRw s' (<[t := p']> l))
| rw_wake_one s l u p p' q q' :
    l !! t = Some p -> waking p = Some p' -> l !! u = Some q -> woken q = Some q' ->
    rw_step_of t glitch (mkRw s l) (mkRw s (<[t := p']> (<[u := q']> l)))
| rw_wake_none s l p p' :
    l !! t = Some p -> waking p = Some p' -> (forall u q, l !! u = Some q -> woken q = None) ->
    rw_step_of t glitch (mkRw s l) (mkRw s (<[t := p']> l)).

Definition rw_step (c c' : rw_system) : Prop := exists t glitch, rw_step_of t glitch c c'.

Definition rw_reachable (n : nat) (c : rw_system) : Prop :=
  rtc rw_step (mkRw RawRwLock_new (replicate n Outside)) c.

(** ** The fields of the word *)

(** [w] writing, [p] pending writers, [r] readers. *)
Definition pack (w p r : nat) : Z := Z.of_nat w + 2 * Z.of_nat p + 4294967296 * Z.of_nat r.

(** Counts that fit their fields. *)
Definition counts_fit (w p r : nat) : Prop :=
  (w <= 1)%nat /\ Z.of_nat p < 2147483648 /\ Z.of_nat r < 2147483648.

Lemma pack_bound w p r : counts_fit w p r -> 0 <= pack w p r < 9223372036854775808.
Proof. intros (? & ? & ?). unfold pack. lia. Qed.

Lemma as_u64_small z : 0 <= z < two64 -> as_u64 z = z.
Proof. apply Z.mod_small. Qed.

Lemma land_low_ones x n : 0 <= n -> Z.land x (Z.ones n) = x mod 2 ^ n.
Proof. apply Z.land_ones. Qed.

(** Masking a field that starts at bit [k]. *)
Lemma land_field x k n : 0 <= k -> 0 <= n ->
  Z.land x (Z.shiftl (Z.ones n) k) = Z.shiftl (Z.shiftr x k mod 2 ^ n) k.
Proof.
  intros Hk Hn. rewrite <- land_low_ones by done. apply Z.bits_inj'. intros i Hi.
  rewrite Z.land_spec, !Z.shiftl_spec, Z.land_spec by done.
  destruct (Z.ltb_spec i k).
  - rewrite (Z.testbit_neg_r (Z.ones n)), (Z.testbit_neg_r (Z.shiftr x k)) by lia. by rewrite andb_false_r.
  - rewrite Z.shiftr_spec by lia. f_equal. f_equal. lia.
Qed.

Lemma pack_readers w p r : counts_fit w p r -> Z.land (pack w p r) READER_MASK = 4294967296 * Z.of_nat r.
Proof.
  intros Hf. pose proof (pack_bound w p r Hf). destruct Hf as (Hw & Hp & Hr).
  change READER_MASK with (Z.shiftl (Z.ones 31) 32). rewrite land_field by lia.
  rewrite Z.shiftr_div_pow2, Z.shiftl_mul_pow2 by lia.
  replace (pack w p r / 2 ^ 32) with (Z.of_nat r);
    [rewrite Z.mod_small by lia; change (2 ^ 32) with 4294967296; lia|].
  unfold pack. change (2 ^ 32) with 4294967296. apply (Z.div_unique _ _ _ (Z.of_nat w + 2 * Z.of_nat p)); lia.
Qed.

Lemma pack_writing w p r : counts_fit w p r -> Z.land (pack w p r) IS_WRITING = Z.of_nat w.
Proof.
  intros (Hw & Hp & Hr). change IS_WRITING with (Z.ones 1). rewrite Z.land_ones by lia.
  change (2 ^ 1) with 2. unfold pack.
  replace (Z.of_nat w + 2 * Z.of_nat p + 4294967296 * Z.of_nat r)
    with (Z.of_nat w + (Z.of_nat p + 2147483648 * Z.of_nat r) * 2) by lia.
  rewrite Z.mod_add by lia. apply Z.mod_small. lia.
Qed.

Lemma pack_writers w p r : counts_fit w p r ->
  Z.land (pack w p r) (Z.lor IS_WRITING WRITER_MASK) = Z.of_nat w + 2 * Z.of_nat p.
Proof.
  intros (Hw & Hp & Hr). change (Z.lor IS_WRITING WRITER_MASK) with (Z.ones 32).
  rewrite Z.land_ones by lia. unfold pack. change (2 ^ 32) with 4294967296.
  rewrite Z.mul_comm, (Z.mul_comm 4294967296), Z.mod_add by lia. rewrite Z.mod_small; lia.
Qed.

Lemma pack_clear p r : counts_fit 1 p r -> Z.land (pack 1 p r) (u64_MAX - IS_WRITING) = pack 0 p r.
Proof.
  intros Hf. pose proof (pack_bound 1 p r Hf) as Hb. destruct Hf as (_ & Hp & Hr).
  change (u64_MAX - IS_WRITING) with (Z.shiftl (Z.ones 63) 1). rewrite land_field by lia.
  rewrite Z.shiftr_div_pow2, Z.shiftl_mul_pow2 by lia. change (2 ^ 1) with 2.
  replace (pack 1 p r / 2) with (Z.of_nat p + 2147483648 * Z.of_nat r).
  - rewrite Z.mod_small by lia. unfold pack. lia.
  - unfold pack. apply (Z.div_unique _ _ _ 1); lia.
Qed.

(** ** The invariant *)

Definition waits (p : rw_pc) : nat := match p with WSemaphore _ => 1 | _ => 0 end.
Definition writes (p : rw_pc) : nat := match p with Writing | WClear => 1 | _ => 0 end.
(** Holds the mutex without the bit [IS_WRITING]. *)
Definition has_mutex (p : rw_pc) : nat := match p with WAnnounce | WRelease | RAdd | RRelease => 1 | _ => 0 end.
Definition is_pending (p : rw_pc) : nat := match p with WMutex | WAnnounce => 1 | _ => 0 end.
Definition reads (p : rw_pc) : nat := match p with RRelease | Reading | RSub => 1 | _ => 0 end.
Definition posts (p : rw_pc) : nat := match p with RPost _ => 1 | _ => 0 end.

(** A compare-and-swap is only tried on a word without writers. *)
Definition cas_ok (p : rw_pc) : Prop :=
  match p with RCas s => Z.land s (Z.lor IS_WRITING WRITER_MASK) = 0 | _ => True end.

(** The invariant in numbers: [s] threads wait for the semaphore, [c] write,
    [x] hold only the mutex, [p] writers are pending, [r] readers are counted,
    [q] post, and [tok] permits are on their way to the thread that waits. *)
Definition rw_counts (k : RawRwLock) (s c x p r q : nat) (tok : Z) : Prop :=
  rw_state k = pack (s + c) p r /\
  (s + c + x = if rw_mutex k then 1 else 0)%nat /\
  (s = 0%nat -> tok = 0 /\ q = 0%nat) /\
  (s = 1%nat -> (0 < r)%nat /\ tok = 0 /\ q = 0%nat \/ r = 0%nat /\ tok = 1 /\ (q <= 1)%nat) /\
  (c = 1%nat -> r = 0%nat).

(** The numbers of a list of threads. *)
Definition rw_totals (k : RawRwLock) (l : list rw_pc) (tok : Z) : Prop :=
  rw_counts k (total waits l) (total writes l) (total has_mutex l) (total is_pending l)
    (total reads l) (total posts l) tok.

(** The places in the semaphore. *)
Definition sem_waiter (p : rw_pc) : option wait_pc := match p with WSemaphore p => Some p | _ => None end.
Definition sem_poster (p : rw_pc) : option post_pc := match p with RPost p => Some p | _ => None end.

(** At most one thread waits for the semaphore and at most one posts, as the
    invariant of the semaphore says. *)
Record rw_sem (k : RawRwLock) (l : list rw_pc) (w : option wait_pc) (q : option post_pc) : Prop := mkRwSem {
  sem_wait : omap sem_waiter l = option_list w;
  sem_post : omap sem_poster l = option_list q;
  sem_ok : sem_inv w q (rw_semaphore k);
  sem_counts : rw_totals k l (tokens w q (rw_semaphore k));
}.

Definition rw_inv (n : nat) (c : rw_system) : Prop :=
  length (rw_threads c) = n /\ Forall cas_ok (rw_threads c) /\ exists w q, rw_sem (rw_lock c) (rw_threads c) w q.

Lemma rw_inv_new n : rw_inv n (mkRw RawRwLock_new (replicate n Outside)).
Proof.
  assert (Hz : forall f, f Outside = 0%nat -> total f (replicate n Outside) = 0%nat).
  { intros f Hf. apply total_zero. intros t p [-> _]%lookup_replicate. done. }
  split; [apply length_replicate|]. split; [by apply Forall_replicate|].
  assert (Ho : forall A (get : rw_pc -> option A), get Outside = None -> omap get (replicate n Outside) = []).
  { intros A get Hg. clear Hz. induction n as [|n IH]; [done|]. cbn. by rewrite Hg. }
  cbn [rw_threads rw_lock]. exists None, None. split; [by apply Ho|by apply Ho|apply sem_inv_new|]. unfold rw_totals. rewrite !Hz by done. repeat split; cbn; lia.
Qed.

(** The counts fit their fields when there are fewer than [2^31] threads. *)
Lemma rw_fit k s c x p r q tok n : rw_counts k s c x p r q tok -> (p <= n)%nat -> (r <= n)%nat ->
  Z.of_nat n < 2147483648 -> counts_fit (s + c) p r.
Proof. intros (_ & Hm & _) ? ? ?. split; [|lia]. destruct (rw_mutex k); lia. Qed.

(** How the step of a thread moves the numbers. *)
Ltac rw_sums l t p p' H :=
  pose proof (total_insert waits l t p p' H); pose proof (total_insert writes l t p p' H);
  pose proof (total_insert has_mutex l t p p' H); pose proof (total_insert is_pending l t p p' H);
  pose proof (total_insert reads l t p p' H); pose proof (total_insert posts l t p p' H).

Lemma cas_ok_after_load s : cas_ok (after_load s).
Proof. unfold after_load. destruct (Z.eqb_spec (Z.land s (Z.lor IS_WRITING WRITER_MASK)) 0); done. Qed.

(** The places a step leads to are sound for a compare-and-swap. *)
Lemma step_cas_ok want glitch p s p' s' : rw_thread_step want glitch p s = Some (p', s') -> cas_ok p'.
Proof.
  destruct p; cbn; unfold take_mutex; intros Hs;
    repeat match type of Hs with
    | context [match ?x with _ => _ end] => destruct x
    end; injection Hs as <- <- || done; try done; apply cas_ok_after_load.
Qed.

(** What the atomic additions do to the fields. *)
Lemma pack_add_writer w p r : counts_fit w (S p) r -> as_u64 (pack w p r + WRITER) = pack w (S p) r.
Proof.
  intros Hf. pose proof (pack_bound _ _ _ Hf). replace (pack w p r + WRITER) with (pack w (S p) r).
  - apply as_u64_small. unfold two64. lia.
  - unfold pack. change WRITER with 2. lia.
Qed.

Lemma pack_announce p r : counts_fit 0 (S p) r ->
  as_u64 (pack 0 (S p) r + as_u64 (IS_WRITING - WRITER)) = pack 1 p r.
Proof.
  intros Hf. assert (Hf' : counts_fit 1 p r) by (destruct Hf as (? & ? & ?); split_and!; lia).
  pose proof (pack_bound _ _ _ Hf') as Hb. unfold as_u64. change ((IS_WRITING - WRITER) mod two64) with (two64 - 1).
  symmetry. apply (Z.mod_unique _ _ 1); [left; unfold two64; lia|]. unfold pack. lia.
Qed.

Lemma pack_add_reader w p r : counts_fit w p (S r) -> as_u64 (pack w p r + READER) = pack w p (S r).
Proof.
  intros Hf. pose proof (pack_bound _ _ _ Hf). replace (pack w p r + READER) with (pack w p (S r)).
  - apply as_u64_small. unfold two64. lia.
  - unfold pack. change READER with 4294967296. lia.
Qed.

Lemma pack_sub_reader w p r : counts_fit w p (S r) -> as_u64 (pack w p (S r) - READER) = pack w p r.
Proof.
  intros Hf. assert (Hf' : counts_fit w p r) by (destruct Hf as (? & ? & ?); split_and!; lia).
  pose proof (pack_bound _ _ _ Hf'). replace (pack w p (S r) - READER) with (pack w p r).
  - apply as_u64_small. unfold two64. lia.
  - unfold pack. change READER with 4294967296. lia.
Qed.

Section Act.
Context (n : nat) (Hn : Z.of_nat n < 2147483648).
Context (k : RawRwLock) (s c x p r q : nat) (tok : Z) (Hk : rw_counts k s c x p r q tok).

(** Each access, in numbers: what it needs of the thread's place and what it
    changes. *)
Lemma act_reserve : (S p <= n)%nat -> (r <= n)%nat ->
  rw_counts (with_state k (as_u64 (rw_state k + WRITER))) s c x (S p) r q tok.
Proof.
  intros Hp Hr. assert (Hf : counts_fit (s + c) (S p) r).
  { destruct Hk as (_ & Hm & _). split; [destruct (rw_mutex k); lia|lia]. }
  destruct Hk as (Hs & Hrest). split; [|exact Hrest]. cbn. by rewrite Hs, pack_add_writer.
Qed.

Lemma act_take next p' k' : take_mutex k next = Some (p', k') ->
  p' = next /\ rw_semaphore k' = rw_semaphore k /\ rw_counts k' s c (S x) p r q tok.
Proof.
  unfold take_mutex. destruct Hk as (Hs & Hm & Hrest). destruct (rw_mutex k) eqn:E; intros [= <- <-].
  split; [done|]. split; [done|]. split; [done|]. split; [cbn; lia|exact Hrest].
Qed.

Lemma act_release : (0 < x)%nat -> rw_counts (with_mutex k false) s c (x - 1) p r q tok.
Proof.
  intros Hx. destruct Hk as (Hs & Hm & Hrest). split; [done|]. split; [|exact Hrest].
  cbn. destruct (rw_mutex k); lia.
Qed.

Lemma act_announce : (0 < x)%nat -> (0 < p <= n)%nat -> (r <= n)%nat ->
  let k' := with_state k (as_u64 (rw_state k + as_u64 (IS_WRITING - WRITER))) in
  if negb (Z.land (rw_state k) READER_MASK =? 0) then rw_counts k' 1 0 (x - 1) (p - 1) r q tok
  else rw_counts k' 0 1 (x - 1) (p - 1) r q tok.
Proof.
  intros Hx Hp Hr. pose proof (rw_fit k s c x p r q tok n Hk ltac:(lia) Hr Hn) as Hf.
  destruct Hk as (Hs & Hm & H0 & H1 & Hc).
  assert (s = 0 /\ c = 0 /\ x = 1)%nat as (-> & -> & ->) by (destruct (rw_mutex k); lia).
  destruct (H0 eq_refl) as [-> ->]. destruct p as [|p']; [lia|].
  cbn zeta. rewrite Hs, pack_readers by done. unfold rw_counts. cbn [with_state rw_state rw_mutex].
  rewrite pack_announce by done. replace (S p' - 1)%nat with p' by lia.
  destruct (Z.eqb_spec (4294967296 * Z.of_nat r) 0); cbn [negb]; repeat split; lia || (destruct (rw_mutex k); lia).
Qed.

(** A writer leaves the semaphore with the permit. *)
Lemma act_wait sem : (0 < s)%nat -> q = 0%nat -> tok = 1 -> rw_counts (with_semaphore k sem) (s - 1) (S c) x p r q 0.
Proof.
  intros Hs1 -> ->. destruct Hk as (Hs & Hm & H0 & H1 & Hc).
  assert (s = 1 /\ c = 0 /\ x = 0)%nat as (-> & -> & ->) by (destruct (rw_mutex k); lia).
  specialize (H1 eq_refl). unfold rw_counts. cbn [with_semaphore rw_state rw_mutex].
  split; [done|]. repeat split; lia || (destruct (rw_mutex k); lia).
Qed.

(** The semaphore moves on. *)
Lemma act_sem sem : rw_counts (with_semaphore k sem) s c x p r q tok.
Proof. exact Hk. Qed.

Lemma act_clear : (0 < c)%nat -> (p <= n)%nat -> (r <= n)%nat ->
  rw_counts (with_state k (Z.land (rw_state k) (u64_MAX - IS_WRITING))) s (c - 1) (S x) p r q tok.
Proof.
  intros Hc1 Hp Hr. pose proof (rw_fit k s c x p r q tok n Hk Hp Hr Hn) as Hf.
  destruct Hk as (Hs & Hm & H0 & H1 & Hc).
  assert (s = 0 /\ c = 1 /\ x = 0)%nat as (-> & -> & ->) by (destruct (rw_mutex k); lia).
  unfold rw_counts. cbn [with_state rw_state rw_mutex].
  rewrite Hs. change (0 + 1)%nat with 1%nat in *. rewrite pack_clear by done.
  repeat split; lia || (destruct (rw_mutex k); lia) || tauto.
Qed.

(** A reader is counted: by compare-and-swap on a word without writers, or
    under the mutex. *)
Lemma act_read : (s + c = 0)%nat -> (p <= n)%nat -> (S r <= n)%nat ->
  rw_counts (with_state k (as_u64 (rw_state k + READER))) s c x p (S r) q tok.
Proof.
  intros Hw Hp Hr. destruct Hk as (Hs & Hm & H0 & H1 & Hc).
  assert (Hf : counts_fit (s + c) p (S r)) by (split; lia).
  unfold rw_counts. cbn [with_state rw_state rw_mutex]. rewrite Hs, pack_add_reader by done.
  repeat split; lia || tauto.
Qed.

(** The last reader finds that a writer waits exactly when one does. *)
Lemma act_unread : (0 < r <= n)%nat -> (p <= n)%nat ->
  let k' := with_state k (as_u64 (rw_state k - READER)) in
  if (Z.land (rw_state k) READER_MASK =? READER) && negb (Z.land (rw_state k) IS_WRITING =? 0)
  then q = 0%nat /\ tok = 0 /\ rw_counts k' s c x p (r - 1) 1 1 else rw_counts k' s c x p (r - 1) q tok.
Proof.
  intros Hr Hp. pose proof (rw_fit k s c x p r q tok n Hk Hp ltac:(lia) Hn) as Hf.
  destruct Hk as (Hs & Hm & H0 & H1 & Hc). destruct r as [|r']; [lia|].
  cbn zeta. rewrite Hs, pack_readers, pack_writing by done. unfold rw_counts.
  cbn [with_state rw_state rw_mutex]. rewrite pack_sub_reader by done.
  replace (S r' - 1)%nat with r' by lia. change READER with 4294967296.
  destruct (Z.eqb_spec (4294967296 * Z.of_nat (S r')) 4294967296),
    (Z.eqb_spec (Z.of_nat (s + c)) 0); cbn [andb negb]; repeat split; lia || (destruct (rw_mutex k); lia).
Qed.

Lemma act_post sem : (0 < q)%nat -> rw_counts (with_semaphore k sem) s c x p r (q - 1) tok.
Proof.
  intros Hq. destruct Hk as (Hs & Hm & H0 & H1 & Hc). unfold rw_counts.
  cbn [with_semaphore rw_state rw_mutex]. repeat split; try lia; try done; destruct (rw_mutex k); lia.
Qed.

End Act.
Lemma rw_counts_cong k s c x p r q tok s' c' x' p' r' q' tok' : rw_counts k s c x p r q tok ->
  (s' = s /\ c' = c /\ x' = x /\ p' = p /\ r' = r /\ q' = q)%nat /\ tok' = tok -> rw_counts k s' c' x' p' r' q' tok'.
Proof. by intros H ((-> & -> & -> & -> & -> & ->) & ->). Qed.

(** Closes a case with the lemma of its access. *)
Ltac simpl_places := subst; cbn [waits writes has_mutex is_pending reads posts] in *.
Ltac by_act lem :=
  eapply rw_counts_cong; [eapply lem; first [eassumption | simpl_places; lia]|simpl_places; lia].

(** A step that neither enters nor leaves the semaphore. *)
Definition plain (p : rw_pc) : Prop := sem_waiter p = None /\ sem_poster p = None.

Section Step.
Context (n : nat) (Hn : Z.of_nat n < 2147483648).
Context (k : RawRwLock) (l : list rw_pc) (Hl : length l = n).
Context (w : option wait_pc) (q : option post_pc) (Hsem : rw_sem k l w q).

Lemma total_one f : (forall z, f z <= 1)%nat -> (total f l <= n)%nat.
Proof. intros Hf. rewrite <- Hl. by apply total_le_length. Qed.

Lemma rw_threads_bound t p' : (total is_pending (<[t := p']> l) <= n)%nat /\ (total reads (<[t := p']> l) <= n)%nat.
Proof. rewrite <- Hl, <- (length_insert l t p'). split; apply total_le_length; intros []; cbn; lia. Qed.

(** The step of a thread with its counts: the places in the semaphore follow. *)
Lemma plain_step t p p' k' : l !! t = Some p -> plain p -> plain p' -> rw_semaphore k' = rw_semaphore k ->
  rw_totals k' (<[t := p']> l) (tokens w q (rw_semaphore k)) -> rw_sem k' (<[t := p']> l) w q.
Proof.
  intros Hp [Hw Hq] [Hw' Hq'] Es Ht. destruct Hsem as [E1 E2 Hi _].
  split; [by rewrite (only_stays _ l t p)|by rewrite (only_stays _ l t p)|by rewrite Es|by rewrite Es].
Qed.

(** The counts of the threads in the semaphore. *)
Lemma waits_counted : total waits l = length (option_list w).
Proof. rewrite <- (sem_wait _ _ _ _ Hsem). apply total_omap. by intros []. Qed.
Lemma posts_counted : total posts l = length (option_list q).
Proof. rewrite <- (sem_post _ _ _ _ Hsem). apply total_omap. by intros []. Qed.

Lemma one_inside : (total waits l + total writes l + total has_mutex l <= 1)%nat.
Proof. destruct Hsem as [_ _ _ (_ & Hm & _)]. destruct (rw_mutex k); lia. Qed.

Lemma wait_step t glitch p p' s' : l !! t = Some (WSemaphore p) ->
  Semaphore_wait_step glitch p (rw_semaphore k) = Some (p', s') ->
  exists w' q', rw_sem (with_semaphore k s') (<[t := match p' with Some p => WSemaphore p | None => Writing end]> l) w' q'.
Proof.
  intros Hp Hs. pose proof posts_counted as Hq. destruct Hsem as [E1 E2 Hi Hk].
  pose proof (only_at sem_waiter l t _ p w Hp eq_refl E1) as Hw. rewrite Hw in *.
  destruct (sem_inv_wait _ _ _ _ _ _ Hi Hs) as [Hi' Ht]. exists p', q.
  split; [|rewrite <- E2; destruct p'; by eapply only_stays|done|].
  - erewrite only_moves; [|done..]. by destruct p'.
  - cbn [rw_semaphore with_semaphore]. unfold rw_totals in *. rewrite Ht.
    rw_sums l t (WSemaphore p) (match p' with Some p => WSemaphore p | None => Writing end) Hp.
    destruct p' as [p'|]; [by_act act_sem|].
    destruct (sem_inv_return _ _ _ _ _ Hi Hs) as [-> Ht']. cbn in Hq. by_act act_wait.
Qed.

Lemma post_step t glitch p p' s' : l !! t = Some (RPost p) ->
  Semaphore_post_step glitch p (rw_semaphore k) = Some (p', s') ->
  exists w' q', rw_sem (with_semaphore k s') (<[t := match p' with Some p => RPost p | None => Outside end]> l) w' q'.
Proof.
  intros Hp Hs. destruct Hsem as [E1 E2 Hi Hk].
  pose proof (only_at sem_poster l t _ p q Hp eq_refl E2) as Hq. rewrite Hq in *.
  destruct (sem_inv_post _ _ _ _ _ _ Hi Hs) as [Hi' Ht]. exists w, p'.
  split; [rewrite <- E1; destruct p'; by eapply only_stays| |done|].
  - erewrite only_moves; [|done..]. by destruct p'.
  - cbn [rw_semaphore with_semaphore]. unfold rw_totals in *. rewrite Ht.
    rw_sums l t (RPost p) (match p' with Some p => RPost p | None => Outside end) Hp.
    destruct p' as [p'|]; [by_act act_sem|by_act act_post].
Qed.

(** Only the thread that posts wakes, and it moves on. *)
Lemma waking_poster t p p' : l !! t = Some p -> waking p = Some p' ->
  p = RPost (PSignal KFutex) /\ p' = RPost PUnlock /\ q = Some (PSignal KFutex).
Proof.
  intros Hp Hw. destruct Hsem as [E1 E2 Hi _]. destruct p as [| | | |x| | | | | | | | | | |x]; try discriminate Hw; cbn in Hw.
  - pose proof (only_at sem_waiter l t _ x w Hp eq_refl E1) as ->. destruct x as [| | | |[]|]; try discriminate Hw.
    by destruct Hi as [_ _ (sg & _ & _ & [] & _) _ _].
  - pose proof (only_at sem_poster l t _ x q Hp eq_refl E2) as ->. destruct x as [| |[]|]; try discriminate Hw.
    by injection Hw as <-.
Qed.

Lemma wake_none_step t p p' : l !! t = Some p -> waking p = Some p' ->
  (forall u z, l !! u = Some z -> woken z = None) -> exists w' q', rw_sem k (<[t := p']> l) w' q'.
Proof.
  intros Hp Hw Hnone. destruct (waking_poster t p p' Hp Hw) as (-> & -> & Hq). destruct Hsem as [E1 E2 Hi Hk].
  rewrite Hq in *. destruct (sem_inv_wake _ _ Hi) as [Hi' Ht].
  assert (cond_woken w = w) as Ew.
  { destruct w as [x|]; [|done]. assert (x ∈ omap sem_waiter l) as (z & Hz & Hx)%list_elem_of_omap
      by (rewrite E1; by apply list_elem_of_singleton).
    apply list_elem_of_lookup in Hz as [u Hu]. specialize (Hnone u z Hu). destruct z; try discriminate Hx.
    injection Hx as ->. destruct x as [| |[]| | |]; done. }
  rewrite Ew in *. exists w, (Some PUnlock). split; [rewrite <- E1; by eapply only_stays|by erewrite only_moves|done|].
  rewrite Ht. unfold rw_totals in *. rw_sums l t (RPost (PSignal KFutex)) (RPost PUnlock) Hp. by_act Hk.
Qed.

Lemma wake_one_step t u p p' z z' : l !! t = Some p -> waking p = Some p' -> l !! u = Some z -> woken z = Some z' ->
  exists w' q', rw_sem k (<[t := p']> (<[u := z']> l)) w' q'.
Proof.
  intros Hp Hw Hu Hz. destruct (waking_poster t p p' Hp Hw) as (-> & -> & Hq). destruct Hsem as [E1 E2 Hi Hk].
  rewrite Hq in *. destruct (sem_inv_wake _ _ Hi) as [Hi' Ht].
  destruct z as [| | | |[| |[| | | |e| | | |]| | |]| | | | | | | | | | |]; try discriminate Hz. injection Hz as <-.
  pose proof (only_at sem_waiter l u _ _ w Hu eq_refl E1) as Ew. rewrite Ew in *. cbn [cond_woken] in *.
  assert (Hp' : <[u := WSemaphore (SCond CReload)]> l !! t = Some (RPost (PSignal KFutex))).
  { rewrite list_lookup_insert_ne; [done|]. intros ->. congruence. }
  exists (Some (SCond CReload)), (Some PUnlock). split; [| |done|].
  - erewrite only_stays; [|done..]. by erewrite only_moves.
  - erewrite only_moves; [done|done|done|]. erewrite only_stays; done.
  - rewrite Ht. unfold rw_totals in *. rw_sums l u (WSemaphore (SCond (CAsleep e))) (WSemaphore (SCond CReload)) Hu.
    rw_sums (<[u := WSemaphore (SCond CReload)]> l) t (RPost (PSignal KFutex)) (RPost PUnlock) Hp'. by_act Hk.
Qed.

(** A writer that announces itself while readers are left goes to the semaphore. *)
Lemma announce_step t : l !! t = Some WAnnounce ->
  let k' := with_state k (as_u64 (rw_state k + as_u64 (IS_WRITING - WRITER))) in
  exists w' q', rw_sem k' (<[t := if negb (Z.land (rw_state k) READER_MASK =? 0) then WSemaphore SLock else Writing]> l) w' q'.
Proof.
  intros Hp k'. pose proof waits_counted as Hwc. pose proof one_inside.
  pose proof (total_one is_pending ltac:(intros []; cbn; lia)). pose proof (total_one reads ltac:(intros []; cbn; lia)).
  pose proof (total_ge has_mutex l t _ Hp) as Hm. pose proof (total_ge is_pending l t _ Hp). cbn in Hm.
  destruct Hsem as [E1 E2 Hi Hk]. pose proof (act_announce n Hn k _ _ _ _ _ _ _ Hk) as Ha. cbn zeta in Ha. fold k' in Ha.
  assert (w = None) as Hw by (destruct w; [cbn in Hwc; lia|done]).
  rewrite Hw in *.
  rw_sums l t WAnnounce (if negb (Z.land (rw_state k) READER_MASK =? 0) then WSemaphore SLock else Writing) Hp.
  destruct (negb _).
  - destruct (sem_inv_wait_call _ _ Hi) as [Hi' Ht]. exists (Some SLock), q.
    split; [by erewrite only_comes|rewrite <- E2; by eapply only_stays|done|].
    unfold rw_totals. change (rw_semaphore k') with (rw_semaphore k). rewrite Ht. by_act Ha.
  - exists None, q. split; [rewrite <- E1; by eapply only_stays|rewrite <- E2; by eapply only_stays|done|].
    unfold rw_totals. change (rw_semaphore k') with (rw_semaphore k). by_act Ha.
Qed.

(** The last reader that a writer waits for posts. *)
Lemma unread_step t : l !! t = Some RSub ->
  let k' := with_state k (as_u64 (rw_state k - READER)) in
  exists w' q', rw_sem k' (<[t := if (Z.land (rw_state k) READER_MASK =? READER) && negb (Z.land (rw_state k) IS_WRITING =? 0)
    then RPost PLock else Outside]> l) w' q'.
Proof.
  intros Hp k'. pose proof posts_counted as Hqc.
  pose proof (total_one is_pending ltac:(intros []; cbn; lia)). pose proof (total_one reads ltac:(intros []; cbn; lia)).
  pose proof (total_ge reads l t _ Hp). destruct Hsem as [E1 E2 Hi Hk].
  pose proof (act_unread n Hn k _ _ _ _ _ _ _ Hk) as Ha. cbn zeta in Ha. fold k' in Ha.
  rw_sums l t RSub (if (Z.land (rw_state k) READER_MASK =? READER) && negb (Z.land (rw_state k) IS_WRITING =? 0)
    then RPost PLock else Outside) Hp.
  destruct (_ && _).
  - destruct Ha as (Hq & Htok & Ha); [cbn in *; lia|lia|].
    assert (q = None) as Hq' by (destruct q; [cbn in Hqc; lia|done]). rewrite Hq' in *.
    destruct (sem_inv_post_call _ _ Hi Htok) as [Hi' Ht]. exists w, (Some PLock).
    split; [rewrite <- E1; by eapply only_stays|by erewrite only_comes|done|].
    unfold rw_totals. change (rw_semaphore k') with (rw_semaphore k). rewrite Ht. by_act Ha.
  - exists w, q. split; [rewrite <- E1; by eapply only_stays|rewrite <- E2; by eapply only_stays|done|].
    unfold rw_totals. change (rw_semaphore k') with (rw_semaphore k). by_act Ha.
Qed.

(** An access outside of the semaphore, in numbers. *)
Lemma plain_counts t want glitch p p' k' : l !! t = Some p -> cas_ok p -> rw_thread_step want glitch p k = Some (p', k') ->
  p <> WAnnounce -> p <> RSub -> plain p ->
  plain p' /\ rw_semaphore k' = rw_semaphore k /\ rw_totals k' (<[t := p']> l) (tokens w q (rw_semaphore k)).
Proof.
  intros Hp Hcas Hs N1 N2 [P1 P2]. rw_sums l t p p' Hp. pose proof one_inside. pose proof (total_ge has_mutex l t p Hp).
  pose proof (total_one is_pending ltac:(intros []; cbn; lia)). pose proof (total_one reads ltac:(intros []; cbn; lia)).
  destruct (rw_threads_bound t p' ) as [Hp2 Hr2].
  destruct Hsem as [_ _ _ Hk]. unfold rw_totals in *. set (l' := <[t := p']> l) in *.
  assert (Hload : forall st, p' = after_load st -> p' = RMutex \/ exists e, p' = RCas e).
  { intros st ->. unfold after_load. case_if; eauto. }
  fold l' in Hp2, Hr2. clearbody l'. destruct p; try done; cbn in Hs; try (injection Hs as Hp' <-).
  - destruct want; subst; (split; [done|]; split; [done|]; by_act Hk).
  - subst. split; [done|]. split; [done|]. by_act act_reserve.
  - destruct (act_take n k _ _ _ _ _ _ _ Hk _ _ _ Hs) as (-> & Es & Hk'). split; [done|]. split; [done|]. by_act Hk'.
  - subst. split; [done|]. split; [done|]. by_act Hk.
  - subst. split; [done|]. split; [done|]. by_act act_clear.
  - subst. split; [done|]. split; [done|]. by_act act_release.
  - destruct (Hload _ (eq_sym Hp')) as [->|[e ->]]; (split; [done|]; split; [done|]; by_act Hk).
  - destruct (negb glitch && (rw_state k =? state)) eqn:Hok; injection Hs as Hp' <-.
    + bool_facts. subst. cbn in Hcas. pose proof Hk as (Hst & _).
      rewrite Hst, pack_writers in Hcas by by eapply rw_fit. split; [done|]. split; [done|]. by_act act_read.
    + destruct (Hload _ (eq_sym Hp')) as [->|[e ->]]; (split; [done|]; split; [done|]; by_act Hk).
  - destruct (act_take n k _ _ _ _ _ _ _ Hk _ _ _ Hs) as (-> & Es & Hk'). split; [done|]. split; [done|]. by_act Hk'.
  - subst. split; [done|]. split; [done|]. by_act act_read.
  - subst. split; [done|]. split; [done|]. by_act act_release.
  - subst. split; [done|]. split; [done|]. by_act Hk.
Qed.

(** One access of a thread keeps the invariant. *)
Lemma rw_act_sem t want glitch p p' k' : l !! t = Some p -> cas_ok p -> rw_thread_step want glitch p k = Some (p', k') ->
  exists w' q', rw_sem k' (<[t := p']> l) w' q'.
Proof.
  intros Hp Hcas Hs.
  destruct (decide (p = WAnnounce)) as [->|]; [injection Hs as <- <-; by apply announce_step|].
  destruct (decide (p = RSub)) as [->|]; [injection Hs as <- <-; by apply unread_step|].
  destruct (decide (sem_waiter p = None)) as [Hw|]; [|destruct p as [| | | |x| | | | | | | | | | |]; try done; cbn in Hs;
    destruct (Semaphore_wait_step glitch x (rw_semaphore k)) as [[[p1|] s1]|] eqn:E; try done; injection Hs as <- <-;
    destruct (wait_step t glitch x _ _ Hp E) as (w' & q' & H); by exists w', q'].
  destruct (decide (sem_poster p = None)) as [Hq|]; [|destruct p as [| | | | | | | | | | | | | | |x]; try done; cbn in Hs;
    destruct (Semaphore_post_step glitch x (rw_semaphore k)) as [[[p1|] s1]|] eqn:E; try done; injection Hs as <- <-;
    destruct (post_step t glitch x _ _ Hp E) as (w' & q' & H); by exists w', q'].
  exists w, q. destruct (plain_counts t want glitch p p' k' Hp Hcas Hs) as (H1 & H2 & H3); [done..|].
  by apply (plain_step t p).
Qed.

End Step.
Lemma rw_inv_step n c c' : Z.of_nat n < 2147483648 -> rw_step c c' -> rw_inv n c -> rw_inv n c'.
Proof.
  intros Hn (t & glitch & Hstep) (Hl & Hcas & w & q & Hk).
  destruct Hstep as [s l want p p' s' Hp Hs|s l u p p' z z' Hp Hw Hu Hz|s l p p' Hp Hw Hz];
    unfold rw_inv; cbn [rw_threads rw_lock] in *; rewrite !length_insert.
  - split; [done|]. split; [apply Forall_insert; [done|by eapply step_cas_ok]|].
    eapply (rw_act_sem n Hn s l Hl w q Hk); [done|by eapply Forall_lookup_1|done].
  - split; [done|]. destruct (waking_poster s l w q Hk t p p' Hp Hw) as (_ & -> & _).
    split; [|by eapply wake_one_step]. apply Forall_insert; [|done]. apply Forall_insert; [done|].
    destruct z as [| | | |[| |[]| | |]| | | | | | | | | | |]; try discriminate Hz. by injection Hz as <-.
  - split; [done|]. destruct (waking_poster s l w q Hk t p p' Hp Hw) as (_ & -> & _).
    split; [by apply Forall_insert|by eapply wake_none_step].
Qed.

Lemma rw_reachable_inv n c : Z.of_nat n < 2147483648 -> rw_reachable n c -> rw_inv n c.
Proof.
  intros Hn Hr. unfold rw_reachable in Hr. apply rtc_ind_r with (P := rw_inv n) in Hr; [done|apply rw_inv_new|].
  intros c1 c2 _ Hs Hi. by eapply rw_inv_step.
Qed.

(** The thread is between the return of [lock] and its release, or between the
    return of [lock_shared] and its release. *)
Definition holds_write (p : rw_pc) : Prop := p = Writing \/ p = WClear.
Definition holds_read (p : rw_pc) : Prop := p = Reading \/ p = RSub.

(** C29: one writer or many readers. In every interleaving of fewer than [2^31]
    threads, with spurious failures of the compare-and-swap, a thread that
    holds the lock for writing is the only one that holds it; and the word is
    exactly its three fields: whether a writer has announced itself, the number
    of pending writers and the number of counted readers. *)
Theorem rwlock_excludes (n : nat) (c : rw_system) : Z.of_nat n < 2147483648 -> rw_reachable n c ->
  (forall t u p q, rw_threads c !! t = Some p -> rw_threads c !! u = Some q ->
     holds_write p -> holds_write q \/ holds_read q -> t = u) /\
  rw_state (rw_lock c) =
    pack (total waits (rw_threads c) + total writes (rw_threads c))
      (total is_pending (rw_threads c)) (total reads (rw_threads c)).
Proof.
  intros Hn Hr. destruct (rw_reachable_inv n c Hn Hr) as (_ & _ & w & x & [_ _ _ (Hst & Hm & _ & _ & Hc)]).
  split; [|done]. intros t u p q Hp Hq Hwp Hq'. destruct (decide (t = u)) as [|Hne]; [done|exfalso].
  assert (writes p = 1%nat) as Ep by (by destruct Hwp as [->| ->]).
  pose proof (total_ge writes _ _ _ Hp) as Hge. pose proof (total_two writes _ _ _ _ _ Hne Hp Hq) as H2.
  assert (total writes (rw_threads c) <= 1)%nat by (destruct (rw_mutex (rw_lock c)); lia).
  destruct Hq' as [Hwq|Hrq].
  - assert (writes q = 1%nat) by (by destruct Hwq as [->| ->]). lia.
  - pose proof (total_ge reads _ _ _ Hq). assert (reads q = 1%nat) by (by destruct Hrq as [->| ->]).
    assert (total reads (rw_threads c) = 0%nat) by (apply Hc; lia). lia.
Qed.

(** A thread inside the lock can take a step, of its own or with the thread it
    wakes; none that happens for no reason. *)
Definition can_step (c : rw_system) : Prop :=
  exists t p c', rw_threads c !! t = Some p /\ p <> Outside /\ rw_step_of t false c c'.

(** Only the mutex and the semaphore block. *)
Lemma blocked_only_on k p : rw_thread_step WantWrite false p k = None ->
  (p = WMutex \/ p = RMutex) /\ rw_mutex k = true \/
  (exists x, p = WSemaphore x /\ Semaphore_wait_step false x (rw_semaphore k) = None) \/
  (exists x, p = RPost x /\ Semaphore_post_step false x (rw_semaphore k) = None).
Proof.
  destruct p as [| | | |x| | | | | | | | | | |x]; cbn; unfold take_mutex; try done.
  - destruct (rw_mutex k); [auto|done].
  - destruct (Semaphore_wait_step false x (rw_semaphore k)) as [[[]]|] eqn:E; [done..|eauto].
  - case_if; done.
  - destruct (rw_mutex k); [auto|done].
  - destruct (Semaphore_post_step false x (rw_semaphore k)) as [[[]]|] eqn:E; [done..|eauto].
Qed.

Lemma can_step_at c t p : rw_threads c !! t = Some p -> p <> Outside ->
  ~ ((p = WMutex \/ p = RMutex) /\ rw_mutex (rw_lock c) = true) ->
  ~ (exists x, p = WSemaphore x /\ Semaphore_wait_step false x (rw_semaphore (rw_lock c)) = None) ->
  ~ (exists x, p = RPost x /\ Semaphore_post_step false x (rw_semaphore (rw_lock c)) = None) -> can_step c.
Proof.
  intros Hp Hne H1 H2 H3. destruct (rw_thread_step WantWrite false p (rw_lock c)) as [[p' s']|] eqn:Hs.
  - destruct c as [s l]. exists t, p, (mkRw s' (<[t := p']> l)). split_and!; [done..|]. by eapply rw_act.
  - destruct (blocked_only_on _ _ Hs) as [?|[?|?]]; contradiction.
Qed.

(** A thread about to wake others can do it. *)
Lemma can_wake c t p p' : rw_threads c !! t = Some p -> waking p = Some p' -> can_step c.
Proof.
  intros Hp Hw. destruct c as [s l]. cbn in Hp. assert (p <> Outside) by by intros ->.
  destruct (decide (Exists (fun q => is_Some (woken q)) l)) as [H1|H1].
  - apply Exists_exists in H1 as (q & [u Hu]%list_elem_of_lookup & q' & Hq').
    eexists t, p, _. split_and!; [done..|]. by eapply rw_wake_one.
  - eexists t, p, _. split_and!; [done..|]. eapply rw_wake_none; [done..|]. intros u q Hu.
    destruct (woken q) eqn:E; [|done]. destruct H1. apply Exists_exists. exists q. split; [by eapply list_elem_of_lookup_2|by eexists].
Qed.

Section Progress.
Context (c : rw_system) (w : option wait_pc) (q : option post_pc) (Hsem : rw_sem (rw_lock c) (rw_threads c) w q).

(** A thread at a place that never blocks. *)
Lemma runner_steps f : (0 < total f (rw_threads c))%nat ->
  (forall p, (0 < f p)%nat -> p <> Outside /\ p <> WMutex /\ p <> RMutex /\ plain p) -> can_step c.
Proof.
  intros Hpos Hf. apply total_pos in Hpos as (u & p & Hu & Hp). destruct (Hf p Hp) as (? & ? & ? & P1 & P2).
  eapply (can_step_at c u p); [done..|tauto| |]; by intros (x & -> & _).
Qed.

(** A writer in the semaphore goes on, or a reader, or the one that posts. *)
Lemma waiter_steps : (0 < total waits (rw_threads c))%nat -> can_step c.
Proof.
  intros Hpos. destruct Hsem as [E1 E2 Hi (_ & Hm & _ & H1 & _)].
  assert (total waits (rw_threads c) <= 1)%nat by (destruct (rw_mutex (rw_lock c)); lia).
  apply total_pos in Hpos as (t & p & Ht & Hp). pose proof (total_ge waits _ _ _ Ht) as Hge.
  destruct p as [| | | |x| | | | | | | | | | |]; cbn in Hp; try lia. cbn in Hge.
  pose proof (only_at sem_waiter _ t _ x w Ht eq_refl E1) as Hw. rewrite Hw in *.
  destruct (sem_progress _ _ _ Hi) as [Hs|[Hz|Hq]].
  - eapply (can_step_at c t (WSemaphore x)); [done..|intros [[]]; done| |by intros (y & ? & _)].
    intros (y & [= <-] & ?). done.
  - destruct H1 as [(Hr & _)|(_ & H1 & _)]; [lia| |lia]. apply (runner_steps reads Hr). intros []; cbn; (lia || done).
  - destruct q as [y|]; [|done].
    assert (y ∈ omap sem_poster (rw_threads c)) as (p & [u Hu]%list_elem_of_lookup & Hy)%list_elem_of_omap
      by (rewrite E2; by apply list_elem_of_singleton).
    destruct p; try discriminate Hy. injection Hy as ->. destruct Hq as [->|Hq]; [by eapply can_wake|].
    eapply (can_step_at c u (RPost y)); [done..|intros [[]]; done|by intros (z & ? & _)|].
    intros (z & [= <-] & ?). done.
Qed.

(** A thread that posts goes on, or the writer it posts for. *)
Lemma poster_steps t x : rw_threads c !! t = Some (RPost x) -> can_step c.
Proof.
  intros Ht. apply waiter_steps. pose proof (total_ge posts _ _ _ Ht) as Hp. cbn in Hp.
  destruct Hsem as [_ _ _ (_ & Hm & H0 & _)]. destruct (total waits (rw_threads c)); [|lia]. destruct (H0 eq_refl). lia.
Qed.

Lemma inside_steps t p : rw_threads c !! t = Some p -> p <> Outside -> can_step c.
Proof.
  intros Hp Hne. destruct (decide (0 < total waits (rw_threads c))%nat) as [Hw|Hw]; [by apply waiter_steps|].
  destruct (decide ((p = WMutex \/ p = RMutex) /\ rw_mutex (rw_lock c) = true)) as [[_ Hheld]|Hfree].
  - destruct Hsem as [_ _ _ (_ & Hm & _)]. rewrite Hheld in Hm.
    destruct (decide (0 < total writes (rw_threads c))%nat) as [Hw2|Hw2].
    + apply (runner_steps writes Hw2). intros []; cbn; (lia || done).
    + apply (runner_steps has_mutex); [lia|]. intros []; cbn; (lia || done).
  - destruct (decide (sem_poster p = None)) as [Hq|Hq]; [|destruct p; try done; by eapply poster_steps].
    eapply (can_step_at c t p); [done..| |].
    + intros (x & -> & _). pose proof (total_ge waits _ _ _ Hp). cbn in *. lia.
    + by intros (x & -> & _).
Qed.

End Progress.

(** C30: the read-write lock does not deadlock. In every reachable state in which
    some thread has entered the lock and not left it, some such thread can take a
    step that is no spurious wake-up: a writer that sleeps on the condition of
    the semaphore always has a reader that still has to release, or a thread in
    [post] that can go on and will signal it; and the mutexes always have a
    holder that can go on. *)
Theorem rwlock_deadlock_free (n : nat) (c : rw_system) : Z.of_nat n < 2147483648 -> rw_reachable n c ->
  (exists t p, rw_threads c !! t = Some p /\ p <> Outside) -> can_step c.
Proof.
  intros Hn Hr (t & p & Hp & Hne). destruct (rw_reachable_inv n c Hn Hr) as (_ & _ & w & q & Hsem).
  by eapply inside_steps.
Qed.

(** ** Witnesses *)

Ltac rw_go t want := eapply rtc_l; [exists t, false; eapply (rw_act _ _ _ _ want); reflexivity|cbn].

(** A writer that sleeps on the semaphore while a thread reads, and one that
    writes while another waits. *)
Definition rw_waiting : rw_system :=
  mkRw (mkRaw (pack 1 0 1) true (mkSem false (mkCond 1 0) 0)) [WSemaphore (SCond (CAsleep 0)); Reading].
Definition rw_writing : rw_system := mkRw (mkRaw (pack 1 1 0) true Semaphore_new) [Writing; WMutex; Outside].

Lemma rw_waiting_reachable : rw_reachable 2 rw_waiting.
Proof.
  unfold rw_reachable. cbn. do 3 rw_go 1%nat WantRead. do 10 rw_go 0%nat WantWrite. apply rtc_refl.
Qed.

Lemma rw_writing_reachable : rw_reachable 3 rw_writing.
Proof.
  unfold rw_reachable. cbn. do 4 rw_go 0%nat WantWrite. do 2 rw_go 1%nat WantWrite. apply rtc_refl.
Qed.

Lemma rwlock_excludes_witness :
  (forall t u p q, rw_threads rw_writing !! t = Some p -> rw_threads rw_writing !! u = Some q ->
     holds_write p -> holds_write q \/ holds_read q -> t = u) /\
  rw_state (rw_lock rw_writing) =
    pack (total waits (rw_threads rw_writing) + total writes (rw_threads rw_writing))
      (total is_pending (rw_threads rw_writing)) (total reads (rw_threads rw_writing)).
Proof. apply (rwlock_excludes 3 rw_writing); [lia|exact rw_writing_reachable]. Defined.

Lemma rwlock_deadlock_free_witness : can_step rw_waiting.
Proof.
  apply (rwlock_deadlock_free 2 rw_waiting); [lia|exact rw_waiting_reachable|].
  exists 0%nat, (WSemaphore (SCond (CAsleep 0))). split; [reflexivity|discriminate].
Defined.
