(* ===== verification/StaticHashMap.v ===== *)
(** * The fixed-size Robin-Hood hash table

    [collections/StaticHashMap.rs]: a table that never grows. Its slots are the
    [CAPACITY] home positions, which the high bits of a hash index, and an
    overflow area behind them; the full slots are sorted by hash. A lookup
    scans from the home slot of the key to the first hash that is not smaller,
    an insertion pushes the run behind that slot to the right, a removal pulls
    it back. A [value_ptr] is the index of its slot; storage is indexed the way
    a slice is, with a panic past its end.

    The invariant [table] and the relation [repr] to a finite map are what the
    operations keep; [StaticHashMap_run_refines] composes them over any
    sequence of operations. *)
From Stdlib Require Import ZArith Lia.
From stdpp Require Import base list numbers option gmap fin_maps.
From S2P Require Import Prelude.
#[local] Open Scope Z_scope.

(** ** Data and operations *)

Definition EMPTY_HASH : Z := u64_MAX.

(** The [HashContext] trait; [ctx_default] is the [Default] of the key type. *)
Class HashContext (K : Type) : Type := {
  ctx_hash : K -> Z;
  ctx_eql : K -> K -> bool;
  ctx_default : K;
}.

Record Entry (K V : Type) : Type := mkEntry {
  en_hash : Z;
  en_key : K;
  en_value : V;
}.
Arguments mkEntry {K V}.
Arguments en_hash {K V}.
Arguments en_key {K V}.
Arguments en_value {K V}.

Record StaticHashMap (K V : Type) : Type := mkStaticHashMap {
  hm_entries : list (Entry K V);
  hm_len : Z;
  hm_shift : Z;
}.
Arguments mkStaticHashMap {K V}.
Arguments hm_entries {K V}.
Arguments hm_len {K V}.
Arguments hm_shift {K V}.

(** [GetOrPutResult]: the pointer to the value is the index of its slot. *)
Record GetOrPutResult : Type := mkGetOrPut {
  gp_found_existing : bool;
  gp_value_ptr : nat;
}.

Definition compute_shift (capacity : Z) : Z := 63 - Z.log2 capacity + 1.

Definition compute_overflow (capacity shift : Z) : Z :=
  Z.shiftl (capacity / 10 + (63 - shift + 1)) 1.

Definition static_slots (capacity : Z) : Z :=
  capacity + compute_overflow capacity (compute_shift capacity).

(** [to_idx(hash >> shift)]; the release build masks the shift to six bits. *)
Definition home_slot (shift hash : Z) : nat := Z.to_nat (Z.shiftr hash (shift mod 64)).

Section Operations.
Context {K V : Type} `{HashContext K} (vdefault : V).

Definition Entry_is_empty (e : Entry K V) : bool := en_hash e =? EMPTY_HASH.

Definition Entry_empty : Entry K V := mkEntry EMPTY_HASH ctx_default vdefault.

Definition StaticHashMap_default (capacity : Z) : StaticHashMap K V :=
  mkStaticHashMap (replicate (Z.to_nat (static_slots capacity)) Entry_empty) 0
    (compute_shift capacity).

(** [storage()[i]] *)
Definition slot_at (es : list (Entry K V)) (i : nat) : outcome (Entry K V) :=
  match es !! i with Some e => Done e | None => Panic end.

Definition set_value (t : StaticHashMap K V) (i : nat) (v : V) : outcome (StaticHashMap K V) :=
  let! e := slot_at (hm_entries t) i in
  Done (mkStaticHashMap (<[i := mkEntry (en_hash e) (en_key e) v]> (hm_entries t))
          (hm_len t) (hm_shift t)).

(** The loop of [get_or_put_assume_capacity]. *)
Fixpoint get_or_put_loop (fuel : nat) (key : K) (es : list (Entry K V)) (len : Z)
    (it : Entry K V) (i : nat) (inserted_at : option nat)
    : outcome (list (Entry K V) * Z * GetOrPutResult) :=
  match fuel with
  | O => NoFuel
  | S f =>
      let! entry := slot_at es i in
      if en_hash it <=? en_hash entry then
        if ctx_eql (en_key entry) key then Done (es, len, mkGetOrPut true i)
        else
          let es1 := <[i := it]> es in
          if Entry_is_empty entry then
            Done (es1, wadd64 len 1, mkGetOrPut false (default i inserted_at))
          else
            get_or_put_loop f key es1 len entry (S i)
              (match inserted_at with None => Some i | Some _ => inserted_at end)
      else get_or_put_loop f key es len it (S i) inserted_at
  end.

Definition get_or_put_assume_capacity (t : StaticHashMap K V) (key : K)
    : outcome (StaticHashMap K V * GetOrPutResult) :=
  let it := mkEntry (ctx_hash key) key vdefault in
  let! (es, len, r) :=
    get_or_put_loop (S (length (hm_entries t))) key (hm_entries t) (hm_len t) it
      (home_slot (hm_shift t) (en_hash it)) None in
  Done (mkStaticHashMap es len (hm_shift t), r).

Definition put_assume_capacity (t : StaticHashMap K V) (key : K) (value : V)
    : outcome (StaticHashMap K V) :=
  let! (t1, result) := get_or_put_assume_capacity t key in
  if negb (gp_found_existing result) then set_value t1 (gp_value_ptr result) value
  else Done t1.

(** [&self.storage()[n..]]: a panic when [n] is past the end. *)
Definition slice_from (es : list (Entry K V)) (n : nat) : outcome (list (Entry K V)) :=
  if (length es <? n)%nat then Panic else Done (drop n es).

Fixpoint get_loop (key : K) (hash : Z) (es : list (Entry K V)) : outcome (option V) :=
  match es with
  | [] => Panic
  | entry :: rest =>
      if hash <=? en_hash entry then
        if negb (ctx_eql (en_key entry) key) then Done None else Done (Some (en_value entry))
      else get_loop key hash rest
  end.

Definition StaticHashMap_get (t : StaticHashMap K V) (key : K) : outcome (option V) :=
  let hash := ctx_hash key in
  let! es := slice_from (hm_entries t) (home_slot (hm_shift t) hash) in
  get_loop key hash es.

Fixpoint has_with_hash_loop (key_hash : Z) (es : list (Entry K V)) : bool :=
  match es with
  | [] => false
  | entry :: rest =>
      if key_hash <=? en_hash entry then en_hash entry =? key_hash
      else has_with_hash_loop key_hash rest
  end.

Definition StaticHashMap_has_with_hash (t : StaticHashMap K V) (key_hash : Z) : outcome bool :=
  let! es := slice_from (hm_entries t) (home_slot (hm_shift t) key_hash) in
  Done (has_with_hash_loop key_hash es).

(** The first loop of [delete]: the slot of the key, or nothing. *)
Fixpoint delete_find (fuel : nat) (key : K) (hash : Z) (es : list (Entry K V)) (i : nat)
    : outcome (option nat) :=
  match fuel with
  | O => NoFuel
  | S f =>
      let! entry := slot_at es i in
      if hash <=? en_hash entry then
        if negb (ctx_eql (en_key entry) key) then Done None else Done (Some i)
      else delete_find f key hash es (S i)
  end.

(** The second loop: pulls the run back over slot [i]. *)
Fixpoint delete_shift (fuel : nat) (shift : Z) (es : list (Entry K V)) (i : nat)
    : outcome (list (Entry K V) * nat) :=
  match fuel with
  | O => NoFuel
  | S f =>
      let! next := slot_at es (S i) in
      let j := home_slot shift (en_hash next) in
      if (i <? j)%nat || Entry_is_empty next then Done (es, i)
      else delete_shift f shift (<[i := next]> es) (S i)
  end.

Definition StaticHashMap_delete (t : StaticHashMap K V) (key : K)
    : outcome (StaticHashMap K V * option V) :=
  let hash := ctx_hash key in
  let es := hm_entries t in
  let! found := delete_find (S (length es)) key hash es (home_slot (hm_shift t) hash) in
  match found with
  | None => Done (t, None)
  | Some i =>
      let! e := slot_at es i in
      let value := en_value e in
      let! (es1, i1) := delete_shift (S (length es)) (hm_shift t) es i in
      Done (mkStaticHashMap (<[i1 := Entry_empty]> es1) (as_u64 (hm_len t - 1)) (hm_shift t),
            Some value)
  end.

End Operations.

(** ** The invariant of the table *)

(** Two lookups of one slot give one entry. *)
Ltac same_slot H1 H2 := rewrite H1 in H2; injection H2 as <-.

(** What a context has to promise: [ctx_eql] decides equality and hashes are
    64-bit. *)
Class HashContextLaws (K : Type) `{HashContext K} : Prop := {
  ctx_eql_iff : forall a b, ctx_eql a b = true <-> a = b;
  ctx_hash_u64 : forall k, is_u64 (ctx_hash k);
}.

(** A key the table can hold: its hash is not the mark of an empty slot, and it
    is not the default key, which every empty slot carries. *)
Definition storable {K} `{HashContext K} (k : K) : Prop :=
  ctx_hash k <> EMPTY_HASH /\ k <> ctx_default.

Section Table.
Context {K V : Type} `{HashContextLaws K} (vdefault : V).
Implicit Types (es : list (Entry K V)) (e : Entry K V) (s h : Z).

Definition full (e : Entry K V) : Prop := en_hash e <> EMPTY_HASH.

#[export] Instance full_dec e : Decision (full e).
Proof. unfold full. apply _. Defined.

(** The slots of a table of shift [s]: full slots carry the hash of their key,
    in increasing order of hash; a full slot lies at or behind its home and
    every slot from its home to it is full; empty slots are the placeholder,
    and the last slot is empty. *)
Record table (s : Z) (es : list (Entry K V)) : Prop := {
  tb_full : forall i e, es !! i = Some e -> full e ->
      en_hash e = ctx_hash (en_key e) /\ storable (en_key e);
  tb_empty : forall i e, es !! i = Some e -> ~ full e -> e = Entry_empty vdefault;
  tb_sorted : forall i j a b, (i < j)%nat -> es !! i = Some a -> es !! j = Some b ->
      full a -> full b -> en_hash a < en_hash b;
  tb_home : forall i e, es !! i = Some e -> full e -> (home_slot s (en_hash e) <= i)%nat;
  tb_run : forall i e k, es !! i = Some e -> full e ->
      (home_slot s (en_hash e) <= k <= i)%nat -> exists f, es !! k = Some f /\ full f;
  tb_last : es !! (length es - 1)%nat = Some (Entry_empty vdefault);
  tb_fit : forall h, is_u64 h -> (home_slot s h < length es)%nat;
}.

Lemma home_slot_mono s h h' : 0 <= h <= h' -> (home_slot s h <= home_slot s h')%nat.
Proof.
  intros Hh. unfold home_slot.
  pose proof (Z.mod_pos_bound s 64 eq_refl).
  rewrite !Z.shiftr_div_pow2 by lia.
  apply Z2Nat.inj_le; try (apply Z.div_pos; lia).
  apply Z.div_le_mono; lia.
Qed.

Lemma full_bound s es i e : table s es -> es !! i = Some e -> full e ->
  0 <= en_hash e < EMPTY_HASH.
Proof.
  intros Ht He Hf. destruct (tb_full _ _ Ht i e He Hf) as [Heq _].
  pose proof (ctx_hash_u64 (en_key e)) as [? ?].
  unfold full, EMPTY_HASH, u64_MAX, two64 in *. lia.
Qed.

Lemma hash_le_empty s es i e : table s es -> es !! i = Some e -> 0 <= en_hash e <= EMPTY_HASH.
Proof.
  intros Ht He. destruct (decide (full e)) as [Hf|Hf].
  - pose proof (full_bound _ _ _ _ Ht He Hf). lia.
  - rewrite (tb_empty _ _ Ht _ _ He Hf). done.
Qed.

(** [k] is the slot at which a scan for [h] stops. *)
Definition stops (s : Z) (es : list (Entry K V)) (h : Z) (k : nat) (e : Entry K V) : Prop :=
  (home_slot s h <= k)%nat /\ es !! k = Some e /\ h <= en_hash e /\
  forall j f, (home_slot s h <= j < k)%nat -> es !! j = Some f -> en_hash f < h.

(** A scan stops: at the last slot if not before. *)
Lemma scan_stops s es h : table s es -> 0 <= h < EMPTY_HASH -> exists k e, stops s es h k e.
Proof.
  intros Ht Hh.
  assert (Hfit : (home_slot s h < length es)%nat)
    by (apply (tb_fit _ _ Ht); unfold is_u64, EMPTY_HASH, u64_MAX, two64 in *; lia).
  assert (Hgo : forall n i, (home_slot s h <= i)%nat -> (i + n = length es - 1)%nat ->
    (forall j f, (home_slot s h <= j < i)%nat -> es !! j = Some f -> en_hash f < h) ->
    exists k e, stops s es h k e).
  { induction n as [|n IH]; intros i Hi Hn Hbefore.
    - exists i, (Entry_empty vdefault). replace i with (length es - 1)%nat in * by lia.
      split_and!; try done; [apply (tb_last _ _ Ht) | cbn; lia].
    - destruct (lookup_lt_is_Some_2 es i ltac:(lia)) as [e He].
      destruct (decide (h <= en_hash e)) as [Hle|Hgt]; [by exists i, e|].
      apply (IH (S i)); [lia..|]. intros j f Hj Hf.
      destruct (decide (j = i)) as [->|]; [|apply (Hbefore j); [lia|done]].
      same_slot He Hf. lia. }
  apply (Hgo (length es - 1 - home_slot s h)%nat (home_slot s h)); [lia..|].
  intros; lia.
Qed.

Section Stops.
Context s es h k e (Ht : table s es) (Hh : 0 <= h < EMPTY_HASH) (Hs : stops s es h k e).

Lemma stops_run j : (home_slot s h <= j < k)%nat -> exists f, es !! j = Some f /\ full f.
Proof.
  destruct Hs as (Hk & He & _ & Hb). intros Hj.
  destruct (lookup_lt_is_Some_2 es j) as [f Hf]; [apply lookup_lt_Some in He; lia|].
  exists f. split; [done|]. specialize (Hb j f Hj Hf). unfold full. lia.
Qed.

(** Everything in front of the slot is smaller. *)
Lemma stops_before j f : (j < k)%nat -> es !! j = Some f -> full f -> en_hash f < h.
Proof.
  destruct Hs as (Hk & He & _ & Hb). intros Hj Hf Hfull.
  destruct (decide (home_slot s h <= j)%nat) as [|Hlt]; [apply (Hb j); [lia|done]|].
  pose proof (tb_home _ _ Ht j f Hf Hfull).
  destruct (decide (en_hash f < h)) as [|Hge]; [done|].
  pose proof (home_slot_mono s h (en_hash f)). lia.
Qed.

(** A stored hash is stored at the slot where the scan stops. *)
Lemma stops_found p x : es !! p = Some x -> full x -> en_hash x = h -> p = k.
Proof.
  intros Hp Hx Hxh. destruct (lt_eq_lt_dec p k) as [[Hlt| ->]|Hgt]; [|done|].
  - pose proof (stops_before p x Hlt Hp Hx). lia.
  - destruct Hs as (Hk & He & Hle & _).
    destruct (tb_run _ _ Ht p x k Hp Hx) as (f & Hf & Hff); [subst h; lia|].
    same_slot He Hf.
    pose proof (tb_sorted _ _ Ht k p e x Hgt He Hp Hff Hx). lia.
Qed.

End Stops.

(** ** The loops *)

Lemma get_loop_stops key h es i k e :
  es !! k = Some e -> h <= en_hash e -> (i <= k)%nat ->
  (forall j f, (i <= j < k)%nat -> es !! j = Some f -> en_hash f < h) ->
  get_loop key h (drop i es) =
    Done (if ctx_eql (en_key e) key then Some (en_value e) else None).
Proof.
  intros He Hle. remember (k - i)%nat as n eqn:Hn. revert i Hn.
  induction n as [|n IH]; intros i Hn Hik Hb.
  - replace i with k by lia. rewrite (drop_S _ _ _ He). cbn.
    rewrite (proj2 (Z.leb_le _ _) Hle). by destruct ctx_eql.
  - destruct (lookup_lt_is_Some_2 es i) as [f Hf]; [apply lookup_lt_Some in He; lia|].
    rewrite (drop_S _ _ _ Hf). cbn.
    rewrite (proj2 (Z.leb_gt _ _)) by (apply (Hb i); [lia|done]).
    apply IH; [lia..|]. intros j g ?. apply Hb. lia.
Qed.

Lemma has_with_hash_loop_stops h es i k e :
  es !! k = Some e -> h <= en_hash e -> (i <= k)%nat ->
  (forall j f, (i <= j < k)%nat -> es !! j = Some f -> en_hash f < h) ->
  has_with_hash_loop h (drop i es) = (en_hash e =? h).
Proof.
  intros He Hle. remember (k - i)%nat as n eqn:Hn. revert i Hn.
  induction n as [|n IH]; intros i Hn Hik Hb.
  - replace i with k by lia. rewrite (drop_S _ _ _ He). cbn.
    by rewrite (proj2 (Z.leb_le _ _) Hle).
  - destruct (lookup_lt_is_Some_2 es i) as [f Hf]; [apply lookup_lt_Some in He; lia|].
    rewrite (drop_S _ _ _ Hf). cbn.
    rewrite (proj2 (Z.leb_gt _ _)) by (apply (Hb i); [lia|done]).
    apply IH; [lia..|]. intros j g ?. apply Hb. lia.
Qed.

Lemma delete_find_stops key h es k e :
  es !! k = Some e -> h <= en_hash e ->
  forall fuel i, (i <= k < i + fuel)%nat ->
  (forall j f, (i <= j < k)%nat -> es !! j = Some f -> en_hash f < h) ->
  delete_find fuel key h es i = Done (if ctx_eql (en_key e) key then Some k else None).
Proof.
  intros He Hle. induction fuel as [|fuel IH]; intros i Hik Hb; [lia|]. cbn. unfold slot_at.
  destruct (decide (i = k)) as [->|Hne].
  - rewrite He. cbn. rewrite (proj2 (Z.leb_le _ _) Hle). by destruct ctx_eql.
  - destruct (lookup_lt_is_Some_2 es i) as [f Hf]; [apply lookup_lt_Some in He; lia|].
    rewrite Hf. cbn. rewrite (proj2 (Z.leb_gt _ _)) by (apply (Hb i); [lia|done]).
    apply IH; [lia|]. intros j g ?. apply Hb. lia.
Qed.

(** [es'] is [es] with [it] at slot [k] and slots [k..z-1] one to the right. *)
Definition pushed (k z : nat) (it : Entry K V) (es es' : list (Entry K V)) : Prop :=
  length es' = length es /\
  (forall j, (j < k)%nat -> es' !! j = es !! j) /\ es' !! k = Some it /\
  (forall j, (k < j <= z)%nat -> es' !! j = es !! (j - 1)%nat) /\
  (forall j, (z < j)%nat -> es' !! j = es !! j).

(** The insertion loop from the slot where [it] goes, up to the first empty
    slot [z]. *)
Lemma get_or_put_push key len z :
  forall fuel es it i ins, (i <= z < i + fuel)%nat ->
  (forall j, (i <= j < z)%nat -> exists f, es !! j = Some f /\ full f) ->
  (exists e, es !! z = Some e /\ ~ full e) ->
  (forall f, es !! i = Some f -> en_hash it <= en_hash f) ->
  (forall j f g, (i <= j < z)%nat -> es !! j = Some f -> es !! (S j) = Some g ->
     en_hash f <= en_hash g) ->
  (forall j f, (i <= j <= z)%nat -> es !! j = Some f -> ctx_eql (en_key f) key = false) ->
  exists es', get_or_put_loop fuel key es len it i ins =
      Done (es', wadd64 len 1, mkGetOrPut false (default i ins)) /\ pushed i z it es es'.
Proof.
  induction fuel as [|fuel IH]; intros es it i ins Hiz Hrun (e & He & Hne) Hit Hmono Hkey; [lia|].
  cbn. unfold slot_at, Entry_is_empty.
  destruct (decide (i = z)) as [->|Hi].
  - rewrite He. cbn. rewrite (proj2 (Z.leb_le _ _)) by by apply Hit.
    rewrite (Hkey z e) by (lia || done).
    rewrite (proj2 (Z.eqb_eq _ _)) by (apply dec_stable; exact Hne).
    eexists. split; [done|]. apply lookup_lt_Some in He.
    split_and!; intros; try lia;
      [by rewrite length_insert|by rewrite list_lookup_insert_ne by lia
      |by rewrite list_lookup_insert_eq|by rewrite list_lookup_insert_ne by lia].
  - destruct (Hrun i) as (f & Hf & Hff); [lia|]. rewrite Hf. cbn.
    rewrite (proj2 (Z.leb_le _ _)) by by apply Hit.
    rewrite (Hkey i f) by (lia || done).
    rewrite (proj2 (Z.eqb_neq _ _)) by exact Hff.
    destruct (IH (<[i:=it]> es) f (S i)
      (match ins with None => Some i | Some _ => ins end)) as (es' & Hrec & Hl & H1 & H2 & H3 & H4).
    + lia.
    + intros j Hj. rewrite list_lookup_insert_ne by lia. apply Hrun. lia.
    + exists e. by rewrite list_lookup_insert_ne by lia.
    + intros g Hg. rewrite list_lookup_insert_ne in Hg by lia. apply (Hmono i); [lia|done..].
    + intros j a b Hj. rewrite !list_lookup_insert_ne by lia. apply Hmono. lia.
    + intros j a Hj. rewrite list_lookup_insert_ne by lia. apply Hkey. lia.
    + exists es'. rewrite Hrec. split; [by destruct ins|].
      pose proof (lookup_lt_Some _ _ _ Hf).
      rewrite length_insert in Hl. split_and!; [done|..].
      * intros j Hj. rewrite H1, list_lookup_insert_ne by lia. done.
      * rewrite H1, list_lookup_insert_eq by lia. done.
      * intros j Hj. destruct (decide (j = S i)) as [->|].
        -- rewrite H2, <- Hf. f_equal. lia.
        -- rewrite H3, list_lookup_insert_ne by lia. done.
      * intros j Hj. rewrite H4, list_lookup_insert_ne by lia. done.
Qed.

(** The insertion loop up to the slot where the scan stops. *)
Lemma get_or_put_skip key len it ins es k e :
  es !! k = Some e -> en_hash it <= en_hash e ->
  forall fuel i, (i <= k < i + fuel)%nat ->
  (forall j f, (i <= j < k)%nat -> es !! j = Some f -> en_hash f < en_hash it) ->
  get_or_put_loop fuel key es len it i ins =
  get_or_put_loop (i + fuel - k) key es len it k ins.
Proof.
  intros He Hle. induction fuel as [|fuel IH]; intros i Hik Hb; [lia|].
  destruct (decide (i = k)) as [->|Hne]; [f_equal; lia|].
  destruct (lookup_lt_is_Some_2 es i) as [f Hf]; [apply lookup_lt_Some in He; lia|].
  replace (i + S fuel - k)%nat with (S i + fuel - k)%nat by lia.
  rewrite <- (IH (S i)); [|lia|intros j g ?; apply Hb; lia].
  cbn [get_or_put_loop]. unfold slot_at. rewrite Hf. cbn [obind].
  by rewrite (proj2 (Z.leb_gt _ _)) by (apply (Hb i); [lia|done]).
Qed.

(** ** Insertion keeps the invariant *)

Section Push.
Context s es k e z (it : Entry K V) es' (Ht : table s es)
  (Hit : en_hash it = ctx_hash (en_key it)) (Hst : storable (en_key it))
  (Hs : stops s es (en_hash it) k e) (Hfresh : en_hash e <> en_hash it)
  (Hz : (k <= z < length es - 1)%nat)
  (Hfull : forall j, (k <= j < z)%nat -> exists f, es !! j = Some f /\ full f)
  (Hzempty : exists g, es !! z = Some g /\ ~ full g)
  (Hp : pushed k z it es es').

Lemma push_hash : 0 <= en_hash it < EMPTY_HASH.
Proof.
  pose proof (ctx_hash_u64 (en_key it)) as [? ?]. destruct Hst as [Hne _].
  unfold EMPTY_HASH, u64_MAX, two64 in *. lia.
Qed.

(** Everything behind the slot is larger. *)
Lemma push_after i f : (k <= i)%nat -> es !! i = Some f -> full f -> en_hash it < en_hash f.
Proof.
  destruct Hs as (Hk & He & Hle & _). intros Hi Hf Hff.
  destruct (decide (i = k)) as [->|Hne]; [same_slot He Hf; lia|].
  destruct (decide (full e)) as [Hfe|Hne'].
  - pose proof (tb_sorted _ _ Ht k i e f ltac:(lia) He Hf Hfe Hff). lia.
  - destruct (decide (en_hash it < en_hash f)) as [|Hge]; [done|].
    pose proof (full_bound _ _ _ _ Ht Hf Hff). pose proof push_hash.
    pose proof (home_slot_mono s (en_hash f) (en_hash it)).
    destruct (tb_run _ _ Ht i f k Hf Hff) as (g & Hg & Hgf); [lia|].
    same_slot He Hg. done.
Qed.

(** Where an entry of the new table comes from. *)
Lemma pushed_inv j f : es' !! j = Some f ->
  (j = k /\ f = it) \/
  exists i, es !! i = Some f /\ ((j < k /\ i = j) \/ (k < j <= z /\ i = j - 1) \/ (z < j /\ i = j))%nat.
Proof.
  destruct Hp as (_ & H1 & H2 & H3 & H4). intros Hj.
  destruct (lt_eq_lt_dec j k) as [[Hlt| ->]|Hgt].
  - right. exists j. rewrite <- H1 by done. split; [done|]. lia.
  - left. split; [done|]. congruence.
  - destruct (decide (j <= z)%nat).
    + right. exists (j - 1)%nat. rewrite <- H3 by lia. split; [done|]. lia.
    + right. exists j. rewrite <- H4 by lia. split; [done|]. lia.
Qed.

Lemma pushed_sorted i j a b : (i < j)%nat -> es' !! i = Some a -> es' !! j = Some b ->
  full a -> full b -> en_hash a < en_hash b.
Proof.
  intros Hij Ha Hb Hfa Hfb.
  destruct (pushed_inv i a Ha) as [[-> ->]|(i0 & Hi0 & Hi)];
    destruct (pushed_inv j b Hb) as [[-> ->]|(j0 & Hj0 & Hj)].
  - lia.
  - apply (push_after j0); [lia|done..].
  - apply (stops_before _ _ _ _ _ Ht push_hash Hs i0); [lia|done..].
  - apply (tb_sorted _ _ Ht i0 j0); [lia|done..].
Qed.

Lemma pushed_filled q : (k <= q <= z)%nat -> exists f, es' !! q = Some f /\ full f.
Proof.
  destruct Hp as (_ & _ & H2 & H3 & _). intros Hq.
  destruct (decide (q = k)) as [->|].
  - exists it. split; [done|]. unfold full. rewrite Hit. apply Hst.
  - rewrite H3 by lia. apply Hfull. lia.
Qed.

Lemma pushed_run i f q : es' !! i = Some f -> full f ->
  (home_slot s (en_hash f) <= q <= i)%nat -> exists g, es' !! q = Some g /\ full g.
Proof.
  intros Hi Hf Hq. destruct (decide (k <= q <= z)%nat) as [|Hout]; [by apply pushed_filled|].
  assert (Hsame : es' !! q = es !! q).
  { destruct Hp as (_ & H1 & _ & _ & H4).
    destruct (decide (q < k)%nat); [apply H1|apply H4]; lia. }
  rewrite Hsame. destruct (pushed_inv i f Hi) as [[-> ->]|(i0 & Hi0 & Hc)].
  - apply (stops_run _ _ _ _ _ push_hash Hs). lia.
  - apply (tb_run _ _ Ht i0 f q Hi0 Hf). lia.
Qed.

Lemma pushed_table : table s es'.
Proof.
  split.
  - intros i f Hi Hf. destruct (pushed_inv i f Hi) as [[-> ->]|(i0 & Hi0 & _)]; [done|].
    by apply (tb_full _ _ Ht i0).
  - intros i f Hi Hf. destruct (pushed_inv i f Hi) as [[-> ->]|(i0 & Hi0 & _)].
    + contradict Hf. unfold full. rewrite Hit. apply Hst.
    + by apply (tb_empty _ _ Ht i0).
  - apply pushed_sorted.
  - intros i f Hi Hf. destruct (pushed_inv i f Hi) as [[-> ->]|(i0 & Hi0 & Hc)]; [apply Hs|].
    pose proof (tb_home _ _ Ht i0 f Hi0 Hf). lia.
  - apply pushed_run.
  - destruct Hp as (Hl & _ & _ & _ & H4). rewrite Hl, H4 by lia. apply (tb_last _ _ Ht).
  - destruct Hp as (-> & _). apply (tb_fit _ _ Ht).
Qed.

(** The entries of the new table: the old ones and [it]. *)
Lemma pushed_entries f : full f ->
  (exists i, es' !! i = Some f) <-> f = it \/ exists i, es !! i = Some f.
Proof.
  intros Hf. pose proof Hp as (Hl & H1 & H2 & H3 & H4). split.
  - intros [i Hi]. destruct (pushed_inv i f Hi) as [[-> ->]|(i0 & Hi0 & _)]; eauto.
  - intros [->|[i Hi]]; [by exists k|].
    destruct (decide (i < k)%nat); [exists i; by rewrite H1|].
    destruct (decide (i < z)%nat).
    + exists (S i). rewrite H3 by lia. by replace (S i - 1)%nat with i by lia.
    + exists i. destruct (decide (i = z)) as [->|]; [|rewrite H4 by lia; done].
      destruct Hzempty as (g & Hg & Hgf). by same_slot Hi Hg.
Qed.
End Push.

(** ** Removal keeps the invariant *)

(** [es'] is [es] with slots [p+1..z] one to the left and slot [z] cleared. *)
Definition pulled (p z : nat) (es es' : list (Entry K V)) : Prop :=
  length es' = length es /\
  (forall j, (j < p)%nat -> es' !! j = es !! j) /\
  (forall j, (p <= j < z)%nat -> es' !! j = es !! S j) /\
  es' !! z = Some (Entry_empty vdefault) /\
  (forall j, (z < j)%nat -> es' !! j = es !! j).

(** Slots [p+1..z] are away from home, slot [z+1] is empty or at home. *)
Definition run_end (s : Z) (es : list (Entry K V)) (p z : nat) : Prop :=
  (forall j, (p <= j < z)%nat ->
     exists f, es !! S j = Some f /\ full f /\ (home_slot s (en_hash f) <= j)%nat) /\
  exists g, es !! S z = Some g /\ (full g -> (z < home_slot s (en_hash g))%nat).

(** The second loop of [delete] ends in front of an empty slot [l]. *)
Lemma delete_shift_pulls s l :
  forall fuel es i, (i < l < i + fuel)%nat ->
  (exists e, es !! l = Some e /\ ~ full e) ->
  exists es1 z, delete_shift fuel s es i = Done (es1, z) /\ (i <= z < l)%nat /\
    run_end s es i z /\ pulled i z es (<[z := Entry_empty vdefault]> es1).
Proof.
  induction fuel as [|fuel IH]; intros es i Hil (e & He & Hne); [lia|].
  cbn [delete_shift]. unfold slot_at, Entry_is_empty.
  pose proof (lookup_lt_Some _ _ _ He) as Hlen.
  destruct (lookup_lt_is_Some_2 es (S i) ltac:(lia)) as [f Hf]. rewrite Hf. cbn [obind].
  destruct ((i <? home_slot s (en_hash f))%nat || (en_hash f =? EMPTY_HASH)) eqn:Hstop.
  - exists es, i. split; [done|]. split; [lia|]. split.
    + split; [intros; lia|]. exists f. split; [done|]. intros Hff.
      apply orb_true_iff in Hstop as [Hlt|Heq]; bool_facts; done.
    + split_and!; intros; try lia;
        [by rewrite length_insert|by rewrite list_lookup_insert_ne by lia
        |by rewrite list_lookup_insert_eq by lia|by rewrite list_lookup_insert_ne by lia].
  - apply orb_false_iff in Hstop as [Hge Hnf]. bool_facts.
    assert (Hl : S i <> l) by (intros <-; same_slot He Hf; done).
    destruct (IH (<[i := f]> es) (S i)) as (es1 & z & Hrun & Hz & [Hr1 Hr2] & Hlp & H1 & H2 & H3 & H4).
    + lia.
    + exists e. by rewrite list_lookup_insert_ne by lia.
    + exists es1, z. split; [done|]. split; [lia|]. split; [|split_and!; [by rewrite Hlp, length_insert| | |done|]].
      * split.
        -- intros j Hj. destruct (decide (j = i)) as [->|]; [by exists f|].
           destruct (Hr1 j) as (g & Hg); [lia|]. exists g.
           by rewrite list_lookup_insert_ne in Hg by lia.
        -- destruct Hr2 as (g & Hg). exists g. by rewrite list_lookup_insert_ne in Hg by lia.
      * intros j Hj. rewrite H1, list_lookup_insert_ne by lia. done.
      * intros j Hj. destruct (decide (j = i)) as [->|].
        -- rewrite H1, list_lookup_insert_eq by lia. done.
        -- rewrite H2, list_lookup_insert_ne by lia. done.
      * intros j Hj. rewrite H4, list_lookup_insert_ne by lia. done.
Qed.

Section Pull.
Context s es p z x es' (Ht : table s es) (Hx : es !! p = Some x) (Hxf : full x)
  (Hz : (p <= z < length es - 1)%nat) (Hr : run_end s es p z) (Hp : pulled p z es es').

Lemma pulled_inv j f : es' !! j = Some f ->
  (j = z /\ f = Entry_empty vdefault) \/
  exists i, es !! i = Some f /\ ((j < p /\ i = j) \/ (p <= j < z /\ i = S j) \/ (z < j /\ i = j))%nat.
Proof.
  destruct Hp as (_ & H1 & H2 & H3 & H4). intros Hj.
  destruct (lt_eq_lt_dec j z) as [[Hlt| ->]|Hgt].
  - right. destruct (decide (j < p)%nat).
    + exists j. rewrite <- H1 by lia. split; [done|]. lia.
    + exists (S j). rewrite <- H2 by lia. split; [done|]. lia.
  - left. split; [done|]. congruence.
  - right. exists j. rewrite <- H4 by lia. split; [done|]. lia.
Qed.

(** The same, of a full slot. *)
Lemma pulled_full j f : es' !! j = Some f -> full f ->
  exists i, es !! i = Some f /\ ((j < p /\ i = j) \/ (p <= j < z /\ i = S j) \/ (z < j /\ i = j))%nat.
Proof.
  intros Hj Hf. destruct (pulled_inv j f Hj) as [[_ ->]|?]; [|done]. by destruct (Hf eq_refl).
Qed.

(** Nothing behind the cleared slot has its home at or before it. *)
Lemma pulled_home_after i f : (z < i)%nat -> es !! i = Some f -> full f ->
  (z < home_slot s (en_hash f))%nat.
Proof.
  intros Hi Hf Hff. destruct Hr as [_ (g & Hg & Hgh)].
  destruct (decide (z < home_slot s (en_hash f))%nat) as [|Hle]; [done|exfalso].
  destruct (tb_run _ _ Ht i f (S z) Hf Hff) as (g' & Hg' & Hgf); [lia|].
  same_slot Hg Hg'. specialize (Hgh Hgf).
  destruct (decide (i = S z)) as [->|]; [same_slot Hg Hf; lia|].
  pose proof (tb_sorted _ _ Ht (S z) i g f ltac:(lia) Hg Hf Hgf Hff).
  pose proof (full_bound _ _ _ _ Ht Hg Hgf).
  pose proof (home_slot_mono s (en_hash g) (en_hash f)). lia.
Qed.

Lemma pulled_run i f q : es' !! i = Some f -> full f ->
  (home_slot s (en_hash f) <= q <= i)%nat -> exists g, es' !! q = Some g /\ full g.
Proof.
  intros Hi Hf Hq. destruct (pulled_full i f Hi Hf) as (i0 & Hi0 & Hc).
  pose proof Hp as (_ & H1 & H2 & _ & H4).
  destruct (decide (z < i)%nat) as [Hzi|Hzi].
  - pose proof (pulled_home_after i0 f ltac:(lia) Hi0 Hf).
    rewrite H4 by lia. apply (tb_run _ _ Ht i0 f q Hi0 Hf). lia.
  - destruct (decide (q < p)%nat).
    + rewrite H1 by lia. apply (tb_run _ _ Ht i0 f q Hi0 Hf). lia.
    + rewrite H2 by lia. destruct Hr as [Hr1 _]. destruct (Hr1 q) as (g & Hg & Hgf & _); [lia|].
      by exists g.
Qed.

Lemma pulled_table : table s es'.
Proof.
  split.
  - intros i f Hi Hf. destruct (pulled_full i f Hi Hf) as (i0 & Hi0 & _).
    by apply (tb_full _ _ Ht i0).
  - intros i f Hi Hf. destruct (pulled_inv i f Hi) as [[-> ->]|(i0 & Hi0 & _)]; [done|].
    by apply (tb_empty _ _ Ht i0).
  - intros i j a b Hij Ha Hb Hfa Hfb.
    destruct (pulled_full i a Ha Hfa) as (i0 & Hi0 & Hi).
    destruct (pulled_full j b Hb Hfb) as (j0 & Hj0 & Hj).
    apply (tb_sorted _ _ Ht i0 j0); [lia|done..].
  - intros i f Hi Hf. destruct (pulled_full i f Hi Hf) as (i0 & Hi0 & Hc).
    pose proof (tb_home _ _ Ht i0 f Hi0 Hf).
    destruct (decide (p <= i < z)%nat) as [Hin|]; [|lia].
    destruct Hr as [Hr1 _]. destruct (Hr1 i Hin) as (g & Hg & _ & Hgh).
    replace i0 with (S i) in Hi0 by lia. same_slot Hg Hi0. done.
  - apply pulled_run.
  - destruct Hp as (-> & _ & _ & H3 & H4).
    rewrite H4 by lia. apply (tb_last _ _ Ht).
  - destruct Hp as (-> & _). apply (tb_fit _ _ Ht).
Qed.

(** The entries of the new table: the old ones without [x]. *)
Lemma pulled_entries f : full f ->
  (exists i, es' !! i = Some f) <-> f <> x /\ exists i, es !! i = Some f.
Proof.
  intros Hf. pose proof Hp as (Hl & H1 & H2 & H3 & H4). split.
  - intros [i Hi]. destruct (pulled_full i f Hi Hf) as (i0 & Hi0 & Hc). split; [|eauto].
    intros ->. destruct (lt_eq_lt_dec i0 p) as [[Hlt| ->]|Hgt]; [|lia|].
    + pose proof (tb_sorted _ _ Ht i0 p x x Hlt Hi0 Hx Hf Hf). lia.
    + pose proof (tb_sorted _ _ Ht p i0 x x Hgt Hx Hi0 Hf Hf). lia.
  - intros [Hne [i Hi]]. destruct (lt_eq_lt_dec i p) as [[Hlt| ->]|Hgt].
    + exists i. by rewrite H1.
    + same_slot Hx Hi. done.
    + destruct (decide (i <= z)%nat).
      * exists (i - 1)%nat. rewrite H2 by lia. by replace (S (i - 1)) with i by lia.
      * exists i. by rewrite H4 by lia.
Qed.

End Pull.
End Table.

(** ** Refinement of a finite map *)

Section Refinement.
Context {K V : Type} `{Countable K} `{HashContextLaws K} (vdefault : V).
Implicit Types (t : StaticHashMap K V) (m : gmap K V) (k : K) (v : V).

(** [t] holds the map [m]. *)
Record repr (t : StaticHashMap K V) (m : gmap K V) : Prop := {
  rp_table : table vdefault (hm_shift t) (hm_entries t);
  rp_map : forall k v, m !! k = Some v <->
      exists e, full e /\ (exists i, hm_entries t !! i = Some e) /\ en_key e = k /\ en_value e = v;
  rp_len : hm_len t = as_u64 (Z.of_nat (size m));
}.

(** An insertion of [k] finds an empty slot that is not the last one. *)
Definition room (t : StaticHashMap K V) (k : K) : Prop :=
  exists z e, (home_slot (hm_shift t) (ctx_hash k) <= z < length (hm_entries t) - 1)%nat /\
    hm_entries t !! z = Some e /\ ~ full e.

(** No other key of [m] has the hash of [k]. *)
Definition collision_free (m : gmap K V) (k : K) : Prop :=
  forall k' v, m !! k' = Some v -> ctx_hash k' = ctx_hash k -> k' = k.

Lemma storable_hash k : storable k -> 0 <= ctx_hash k < EMPTY_HASH.
Proof.
  intros [Hne _]. pose proof (ctx_hash_u64 k) as [? ?].
  unfold EMPTY_HASH, u64_MAX, two64 in *. lia.
Qed.

(** The scan for a key stops at its slot exactly when the key is in the map. *)
Lemma repr_scan t m k : repr t m -> storable k ->
  exists i e, stops (hm_shift t) (hm_entries t) (ctx_hash k) i e /\
    (ctx_eql (en_key e) k = true -> full e /\ en_key e = k) /\
    m !! k = if ctx_eql (en_key e) k then Some (en_value e) else None.
Proof.
  intros [Ht Hm _] Hk. pose proof (storable_hash k Hk) as Hh.
  destruct (scan_stops _ _ _ _ Ht Hh) as (i & e & Hs). exists i, e. split; [done|].
  pose proof Hs as (_ & He & _).
  assert (Hfull : ctx_eql (en_key e) k = true -> full e /\ en_key e = k).
  { rewrite ctx_eql_iff. intros Hek. split; [|done].
    destruct (decide (full e)) as [|Hf]; [done|].
    rewrite (tb_empty _ _ _ Ht _ _ He Hf) in Hek. by destruct Hk as [_ []]. }
  split; [done|]. destruct (ctx_eql (en_key e) k) eqn:Heq.
  - destruct (Hfull eq_refl) as [Hf Hek]. apply Hm. eauto 6.
  - destruct (m !! k) as [v|] eqn:Hv; [|done].
    apply Hm in Hv as (x & Hxf & (p & Hp) & Hxk & _).
    destruct (tb_full _ _ _ Ht p x Hp Hxf) as [Hxh _]. rewrite Hxk in Hxh.
    pose proof (stops_found _ _ _ _ _ _ Ht Hh Hs p x Hp Hxf Hxh) as ->.
    same_slot He Hp. apply ctx_eql_iff in Hxk. congruence.
Qed.

Lemma slice_from_stops s es h i (e : Entry K V) : stops s es h i e ->
  slice_from es (home_slot s h) = Done (drop (home_slot s h) es).
Proof.
  intros (Hi & He & _). apply lookup_lt_Some in He. unfold slice_from.
  by rewrite (proj2 (Nat.ltb_ge _ _)) by lia.
Qed.

Lemma get_refines t m k : repr t m -> storable k -> StaticHashMap_get t k = Done (m !! k).
Proof.
  intros Hr Hk. destruct (repr_scan t m k Hr Hk) as (i & e & Hs & _ & ->).
  unfold StaticHashMap_get. rewrite (slice_from_stops _ _ _ _ _ Hs). cbn [obind].
  destruct Hs as (Hi & He & Hle & Hb). by rewrite (get_loop_stops k _ _ _ i e).
Qed.

(** [has_with_hash] answers whether a key of the map has the hash. *)
Lemma has_with_hash_refines t m h : repr t m -> 0 <= h < EMPTY_HASH ->
  exists b, StaticHashMap_has_with_hash t h = Done b /\
    (b = true <-> exists k, is_Some (m !! k) /\ ctx_hash k = h).
Proof.
  intros [Ht Hm _] Hh. destruct (scan_stops _ _ _ _ Ht Hh) as (i & e & Hs).
  unfold StaticHashMap_has_with_hash. rewrite (slice_from_stops _ _ _ _ _ Hs). cbn [obind].
  pose proof Hs as (Hi & He & Hle & Hb). eexists. split; [done|].
  rewrite (has_with_hash_loop_stops _ _ _ i e), Z.eqb_eq by done. split.
  - intros Heq. assert (Hf : full e) by (unfold full; lia).
    destruct (tb_full _ _ _ Ht i e He Hf) as [Hkey _]. exists (en_key e). split; [|congruence].
    exists (en_value e). apply Hm. eauto 6.
  - intros (k & [v Hv] & Hk). apply Hm in Hv as (x & Hxf & (p & Hp) & Hxk & _).
    destruct (tb_full _ _ _ Ht p x Hp Hxf) as [Hxh _]. rewrite Hxk, Hk in Hxh.
    pose proof (stops_found _ _ _ _ _ _ Ht Hh Hs p x Hp Hxf Hxh) as ->.
    by same_slot He Hp.
Qed.

(** ** Writing through [value_ptr] *)

Lemma set_value_table s es i (e : Entry K V) v : table vdefault s es -> es !! i = Some e -> full e ->
  table vdefault s (<[i := mkEntry (en_hash e) (en_key e) v]> es).
Proof.
  intros Ht He Hf. set (es' := <[i := _]> es).
  assert (Hback : forall j f, es' !! j = Some f -> exists g, es !! j = Some g /\
    en_hash f = en_hash g /\ en_key f = en_key g /\ (full f <-> full g) /\ (j <> i -> f = g)).
  { intros j f Hj. subst es'. destruct (decide (j = i)) as [->|].
    - rewrite list_lookup_insert_eq in Hj by by eapply lookup_lt_Some.
      injection Hj as <-. exists e. done.
    - rewrite list_lookup_insert_ne in Hj by done. by exists f. }
  assert (Hforth : forall j g, es !! j = Some g -> full g -> exists f, es' !! j = Some f /\ full f).
  { intros j g Hj Hg. subst es'. destruct (decide (j = i)) as [->|].
    - rewrite list_lookup_insert_eq by by eapply lookup_lt_Some. eexists. split; [done|exact Hf].
    - rewrite list_lookup_insert_ne by done. by exists g. }
  split.
  - intros j f Hj Hff. destruct (Hback j f Hj) as (g & Hg & -> & -> & Hfg & _).
    apply (tb_full _ _ _ Ht j); tauto.
  - intros j f Hj Hff. destruct (Hback j f Hj) as (g & Hg & _ & _ & Hfg & Hsame).
    destruct (decide (j = i)) as [->|]; [same_slot He Hg; tauto|].
    rewrite Hsame by done. apply (tb_empty _ _ _ Ht j); tauto.
  - intros j j' a b Hjj Ha Hb Hfa Hfb.
    destruct (Hback j a Ha) as (a0 & Ha0 & -> & _ & Hfa0 & _).
    destruct (Hback j' b Hb) as (b0 & Hb0 & -> & _ & Hfb0 & _).
    apply (tb_sorted _ _ _ Ht j j'); tauto.
  - intros j f Hj Hff. destruct (Hback j f Hj) as (g & Hg & -> & _ & Hfg & _).
    apply (tb_home _ _ _ Ht j); tauto.
  - intros j f q Hj Hff Hq. destruct (Hback j f Hj) as (g & Hg & Hh & _ & Hfg & _).
    rewrite Hh in Hq. destruct (tb_run _ _ _ Ht j g q) as (g' & Hg' & Hgf'); [tauto..|].
    by apply (Hforth q g').
  - subst es'. rewrite length_insert, list_lookup_insert_ne; [apply (tb_last _ _ _ Ht)|].
    intros ->. pose proof (tb_last _ _ _ Ht) as Hl.
    rewrite He in Hl. injection Hl as ->. by destruct (Hf eq_refl).
  - subst es'. rewrite length_insert. apply (tb_fit _ _ _ Ht).
Qed.

Lemma table_key_inj s es i j (a b : Entry K V) : table vdefault s es ->
  es !! i = Some a -> es !! j = Some b -> full a -> full b -> en_hash a = en_hash b -> a = b.
Proof.
  intros Ht Ha Hb Hfa Hfb Hh. destruct (lt_eq_lt_dec i j) as [[Hlt| ->]|Hgt].
  - pose proof (tb_sorted _ _ _ Ht i j a b Hlt Ha Hb Hfa Hfb). lia.
  - by same_slot Ha Hb.
  - pose proof (tb_sorted _ _ _ Ht j i b a Hgt Hb Ha Hfb Hfa). lia.
Qed.

Lemma set_value_refines t m i (e : Entry K V) v : repr t m -> hm_entries t !! i = Some e -> full e ->
  exists t', set_value t i v = Done t' /\ repr t' (<[en_key e := v]> m).
Proof.
  intros [Ht Hm Hl] He Hf. unfold set_value, slot_at. rewrite He. cbn [obind].
  eexists. split; [done|].
  assert (Hold : m !! en_key e = Some (en_value e)) by (apply Hm; eauto 6).
  split; cbn.
  - by apply set_value_table.
  - pose proof (lookup_lt_Some _ _ _ He) as Hi. intros k w. split.
    + rewrite lookup_insert_Some. intros [[<- <-]|[Hne Hk]].
      * eexists (mkEntry _ _ v). split; [exact Hf|]. split; [|done].
        exists i. by rewrite list_lookup_insert_eq.
      * apply Hm in Hk as (x & Hxf & (p & Hp) & Hxk & Hxv). exists x. split_and!; [done| |done..].
        exists p. rewrite list_lookup_insert_ne; [done|]. intros ->. same_slot He Hp. done.
    + intros (x & Hxf & (p & Hp) & <- & <-).
      destruct (decide (p = i)) as [->|Hne].
      * rewrite list_lookup_insert_eq in Hp by done. injection Hp as <-. cbn.
        by rewrite lookup_insert_eq.
      * rewrite list_lookup_insert_ne in Hp by done.
        rewrite lookup_insert_ne; [apply Hm; eauto 6|]. intros Heq. apply Hne.
        destruct (tb_full _ _ _ Ht i e He Hf) as [Hhe _].
        destruct (tb_full _ _ _ Ht p x Hp Hxf) as [Hhx _].
        destruct (lt_eq_lt_dec p i) as [[Hlt| ->]|Hgt]; [|done|].
        -- pose proof (tb_sorted _ _ _ Ht p i x e Hlt Hp He Hxf Hf). rewrite Heq in Hhe. lia.
        -- pose proof (tb_sorted _ _ _ Ht i p e x Hgt He Hp Hf Hxf). rewrite Heq in Hhe. lia.
  - rewrite Hl. f_equal. by rewrite map_size_insert_Some by by eexists.
Qed.

(** ** The operations refine those of the map *)

(** The first slot that is not full, from a slot on. *)
Lemma first_empty (es : list (Entry K V)) n i :
  (exists e, es !! (i + n)%nat = Some e /\ ~ full e) ->
  exists z, (i <= z <= i + n)%nat /\ (exists e, es !! z = Some e /\ ~ full e) /\
    forall j, (i <= j < z)%nat -> exists f, es !! j = Some f /\ full f.
Proof.
  revert i. induction n as [|n IH]; intros i (e & He & Hne).
  - rewrite Nat.add_0_r in He. exists i. split; [lia|]. split; [by exists e|]. intros; lia.
  - destruct (lookup_lt_is_Some_2 es i) as [f Hf]; [apply lookup_lt_Some in He; lia|].
    destruct (decide (full f)) as [Hff|Hff].
    + destruct (IH (S i)) as (z & Hz & Hze & Hrun).
      { exists e. by rewrite Nat.add_succ_comm. }
      exists z. split; [lia|]. split; [done|]. intros j Hj.
      destruct (decide (j = i)) as [->|]; [by exists f|]. apply Hrun. lia.
    + exists i. split; [lia|]. split; [by exists f|]. intros; lia.
Qed.

Lemma get_or_put_found t m k v : repr t m -> storable k -> m !! k = Some v ->
  exists i e, get_or_put_assume_capacity vdefault t k = Done (t, mkGetOrPut true i) /\
    hm_entries t !! i = Some e /\ full e /\ en_key e = k /\ en_value e = v.
Proof.
  intros Hr Hk Hv. destruct (repr_scan t m k Hr Hk) as (i & e & Hs & Hfull & Hm).
  rewrite Hv in Hm. destruct (ctx_eql (en_key e) k) eqn:Heq; [|done]. injection Hm as ->.
  destruct (Hfull eq_refl) as [Hf Hek]. exists i, e. destruct Hs as (Hi & He & Hle & Hb).
  split; [|done]. unfold get_or_put_assume_capacity. cbn [en_hash].
  pose proof (lookup_lt_Some _ _ _ He).
  rewrite (get_or_put_skip k _ _ _ _ i e) by (done || cbn; lia).
  destruct (_ + S _ - i)%nat as [|fuel] eqn:Hfuel; [lia|].
  cbn [get_or_put_loop]. unfold slot_at. rewrite He. cbn [obind en_hash].
  rewrite (proj2 (Z.leb_le _ _) Hle), Heq. cbn [obind]. by destruct t.
Qed.

Section NewKey.
Context t m k (Hr : repr t m) (Hk : storable k) (Hcf : collision_free m k) (Hnone : m !! k = None).
Let it := mkEntry (ctx_hash k) k vdefault.
Let es := hm_entries t.
Context i e (Hs : stops (hm_shift t) es (ctx_hash k) i e).

Lemma new_other j f : es !! j = Some f -> ctx_eql (en_key f) k = false.
Proof.
  intros Hf. destruct (ctx_eql (en_key f) k) eqn:Hek; [|done]. apply ctx_eql_iff in Hek.
  destruct Hr as [Ht Hmap _]. destruct (decide (full f)) as [Hff|Hff].
  - assert (m !! k = Some (en_value f)) by (apply Hmap; eauto 6). congruence.
  - rewrite (tb_empty _ _ _ Ht _ _ Hf Hff) in Hek. by destruct Hk as [_ []].
Qed.

Lemma new_fresh : en_hash e <> ctx_hash k.
Proof.
  intros Hc. pose proof (storable_hash k Hk). destruct Hr as [Ht Hmap _].
  destruct Hs as (_ & He & _). assert (Hf : full e) by (unfold full; lia).
  destruct (tb_full _ _ _ Ht i e He Hf) as [Hke _].
  assert (Hek : en_key e = k)
    by (apply (Hcf (en_key e) (en_value e)); [apply Hmap; eauto 6|congruence]).
  apply ctx_eql_iff in Hek. by rewrite (new_other i e He) in Hek.
Qed.

(** The first empty slot behind the slot of the new key. *)
Lemma new_empty : room t k ->
  exists z, (i <= z < length es - 1)%nat /\ (exists f, es !! z = Some f /\ ~ full f) /\
    forall j, (i <= j < z)%nat -> exists f, es !! j = Some f /\ full f.
Proof.
  intros (z0 & e0 & Hz0 & He0 & Hne0). fold es in He0.
  assert (Hiz : (i <= z0)%nat).
  { destruct (decide (z0 < i)%nat); [|lia].
    destruct (stops_run _ _ _ _ _ (storable_hash k Hk) Hs z0) as (f & Hf & Hff); [lia|].
    by same_slot He0 Hf. }
  destruct (first_empty es (z0 - i) i) as (z & Hz & Hze & Hrun).
  { exists e0. by replace (i + (z0 - i))%nat with z0 by lia. }
  exists z. split; [subst es; lia|done].
Qed.

Context z (Hz : (i <= z < length es - 1)%nat) (Hze : exists f, es !! z = Some f /\ ~ full f)
  (Hrun : forall j, (i <= j < z)%nat -> exists f, es !! j = Some f /\ full f).

Lemma new_loop : exists es',
  get_or_put_assume_capacity vdefault t k =
    Done (mkStaticHashMap es' (wadd64 (hm_len t) 1) (hm_shift t), mkGetOrPut false i) /\
  pushed i z it es es'.
Proof.
  pose proof Hs as (Hi & He & Hle & Hb). destruct Hr as [Ht _ _].
  destruct (get_or_put_push k (hm_len t) z
    (home_slot (hm_shift t) (ctx_hash k) + S (length es) - i) es it i None)
    as (es' & Hloop & Hp).
  - destruct Hze as (f & Hf & _). apply lookup_lt_Some in Hf. lia.
  - done.
  - done.
  - intros f Hf. by same_slot He Hf.
  - intros j f g Hj Hf Hg. destruct (Hrun j Hj) as (f' & Hf' & Hff). same_slot Hf Hf'.
    destruct (decide (full g)) as [Hfg|Hfg].
    + pose proof (tb_sorted _ _ _ Ht j (S j) f g ltac:(lia) Hf Hg Hff Hfg). lia.
    + rewrite (tb_empty _ _ _ Ht _ _ Hg Hfg). pose proof (hash_le_empty _ _ _ _ _ Ht Hf). cbn. lia.
  - intros j f _. apply new_other.
  - exists es'. split; [|done]. unfold get_or_put_assume_capacity. cbn [en_hash]. fold es it.
    rewrite (get_or_put_skip k _ _ _ _ i e);
      [|done..|pose proof (lookup_lt_Some _ _ _ He); lia|done].
    by rewrite Hloop.
Qed.

Lemma new_repr es' : pushed i z it es es' ->
  repr (mkStaticHashMap es' (wadd64 (hm_len t) 1) (hm_shift t)) (<[k := vdefault]> m).
Proof.
  intros Hp. destruct Hr as [Ht Hmap Hl]. pose proof new_fresh as Hfresh.
  split; cbn [hm_entries hm_shift hm_len].
  - by apply (pushed_table _ _ es i e z it).
  - intros k' v'. rewrite lookup_insert_Some. split.
    + intros [[<- <-]|[Hne Hk']].
      * exists it. split; [by apply Hk|]. split; [|done]. exists i. apply Hp.
      * apply Hmap in Hk' as (x & Hxf & Hx & Hxk & Hxv). exists x. split; [done|].
        split; [|done]. apply (pushed_entries es i z it es'); auto.
    + intros (x & Hxf & Hx & Hxk & Hxv).
      apply (pushed_entries es i z it es') in Hx; [|done..].
      destruct Hx as [->|Hx]; [by left|right].
      assert (Hmk : m !! k' = Some v') by (apply Hmap; eauto 6).
      split; [congruence|done].
  - rewrite Hl, map_size_insert_None by done. unfold wadd64, as_u64.
    rewrite Zplus_mod_idemp_l. f_equal. lia.
Qed.

End NewKey.

Lemma get_or_put_new t m k : repr t m -> storable k -> collision_free m k -> room t k ->
  m !! k = None ->
  exists t' i, get_or_put_assume_capacity vdefault t k = Done (t', mkGetOrPut false i) /\
    repr t' (<[k := vdefault]> m) /\
    hm_entries t' !! i = Some (mkEntry (ctx_hash k) k vdefault) /\
    hm_shift t' = hm_shift t /\ length (hm_entries t') = length (hm_entries t).
Proof.
  intros Hr Hk Hcf Hroom Hnone.
  destruct (repr_scan t m k Hr Hk) as (i & e & Hs & _).
  destruct (new_empty t k Hk i e Hs Hroom) as (z & Hz & Hze & Hrun).
  destruct (new_loop t m k Hr Hk Hnone i e Hs z Hz Hze Hrun) as (es' & Hgo & Hp).
  eexists _, i. split; [exact Hgo|]. split; [by apply (new_repr t m k Hr Hk Hcf Hnone i e Hs z)|].
  destruct Hp as (Hl & _ & Hi & _). done.
Qed.

(** [put_assume_capacity] inserts a new key and leaves the value of an old one. *)
Lemma put_refines t m k v : repr t m -> storable k -> collision_free m k -> room t k \/ is_Some (m !! k) ->
  exists t', put_assume_capacity vdefault t k v = Done t' /\
    repr t' (match m !! k with Some _ => m | None => <[k := v]> m end) /\
    hm_shift t' = hm_shift t /\ length (hm_entries t') = length (hm_entries t).
Proof.
  intros Hr Hk Hcf Hroom. unfold put_assume_capacity. destruct (m !! k) as [w|] eqn:Hm.
  - destruct (get_or_put_found t m k w Hr Hk Hm) as (i & e & -> & _). by exists t.
  - destruct Hroom as [Hroom|[? ?]]; [|done].
    destruct (get_or_put_new t m k Hr Hk Hcf Hroom Hm) as (t1 & i & -> & Hr1 & Hi & Hsh & Hl).
    cbn [obind gp_found_existing negb gp_value_ptr].
    destruct (set_value_refines t1 _ i _ v Hr1 Hi) as (t2 & Hset & Hr2); [apply Hk|].
    exists t2. split; [done|]. cbn [en_key] in Hr2. rewrite insert_insert_eq in Hr2.
    split; [done|]. unfold set_value, slot_at in Hset. rewrite Hi in Hset. injection Hset as <-.
    cbn. by rewrite length_insert.
Qed.

Lemma pulled_repr t m i z (e : Entry K V) es' : repr t m ->
  hm_entries t !! i = Some e -> full e -> (i <= z < length (hm_entries t) - 1)%nat ->
  run_end (hm_shift t) (hm_entries t) i z -> pulled vdefault i z (hm_entries t) es' ->
  repr (mkStaticHashMap es' (as_u64 (hm_len t - 1)) (hm_shift t)) (delete (en_key e) m).
Proof.
  intros [Ht Hmap Hl] He Hf Hz Hrend Hp. split; cbn [hm_shift hm_entries hm_len].
  - by apply (pulled_table vdefault (hm_shift t) (hm_entries t) i z).
  - intros k' v'. rewrite lookup_delete_Some, Hmap.
    split; [intros [Hne (x & Hxf & Hx & Hxk & Hxv)]|intros (x & Hxf & Hx & Hxk & Hxv)].
    + exists x. split; [done|]. split; [|done].
      apply (pulled_entries vdefault (hm_shift t) (hm_entries t) i z e); [done..|].
      split; [congruence|done].
    + apply (pulled_entries vdefault (hm_shift t) (hm_entries t) i z e) in Hx as [Hne Hx]; [|done..].
      split; [|by exists x]. intros Hk'. apply Hne. destruct Hx as [p Hp'].
      apply (table_key_inj (hm_shift t) (hm_entries t) p i); [done..|].
      destruct (tb_full _ _ _ Ht p x Hp' Hxf) as [-> _].
      destruct (tb_full _ _ _ Ht i e He Hf) as [-> _]. congruence.
  - assert (Hm : m !! en_key e = Some (en_value e)) by (apply Hmap; eauto 6).
    rewrite Hl, map_size_delete_Some by by eexists.
    assert (size m <> 0%nat) by (intros Hs0%map_size_empty_inv; subst m; done).
    unfold as_u64. rewrite Zminus_mod_idemp_l. f_equal. lia.
Qed.

(** [delete] answers the value of the key and removes it. *)
Lemma delete_refines t m k : repr t m -> storable k ->
  exists t', StaticHashMap_delete vdefault t k = Done (t', m !! k) /\ repr t' (delete k m) /\
    hm_shift t' = hm_shift t /\ length (hm_entries t') = length (hm_entries t).
Proof.
  intros Hr Hk. destruct (repr_scan t m k Hr Hk) as (i & e & (Hi & He & Hle & Hb) & Hfull & Hm).
  pose proof (rp_table _ _ Hr) as Ht. pose proof (lookup_lt_Some _ _ _ He) as Hil.
  unfold StaticHashMap_delete. rewrite (delete_find_stops k _ _ i e) by (done || lia).
  destruct (ctx_eql (en_key e) k) eqn:Heq; cbn [obind]; rewrite Hm.
  2:{ exists t. split; [done|]. rewrite delete_id by done. done. }
  destruct (Hfull eq_refl) as [Hf <-]. unfold slot_at. rewrite He. cbn [obind].
  pose proof (tb_last _ _ _ Ht) as Hlast.
  assert (Hin : (i < length (hm_entries t) - 1)%nat).
  { destruct (decide (i = length (hm_entries t) - 1)%nat) as [Heqi|]; [|lia].
    rewrite <- Heqi, He in Hlast. injection Hlast as ->. by destruct (Hf eq_refl). }
  destruct (delete_shift_pulls vdefault (hm_shift t) (length (hm_entries t) - 1)
    (S (length (hm_entries t))) (hm_entries t) i) as (es1 & z & -> & Hz & Hrend & Hp).
  { lia. }
  { exists (Entry_empty vdefault). split; [done|]. intros Hc. by apply Hc. }
  cbn [obind]. eexists. split; [done|]. cbn [hm_shift hm_entries hm_len].
  split; [|split; [done|apply Hp]]. by apply (pulled_repr t m i z).
Qed.

(** ** The number of keys that always fit *)

(** The slots from [h] to the last but one cannot be all full when the map has
    fewer keys. *)
Lemma full_slots_le t m h n : repr t m -> (h + n <= length (hm_entries t))%nat ->
  (forall j, (h <= j < h + n)%nat -> exists f, hm_entries t !! j = Some f /\ full f) ->
  (n <= size m)%nat.
Proof.
  intros [Ht Hmap _] Hlen Hall.
  set (l := en_key <$> take n (drop h (hm_entries t))).
  assert (Hl : length l = n).
  { subst l. rewrite length_fmap, length_take, length_drop. lia. }
  assert (Hat : forall j x, l !! j = Some x ->
    exists f, hm_entries t !! (h + j)%nat = Some f /\ full f /\ en_key f = x).
  { intros j x Hj. pose proof (lookup_lt_Some _ _ _ Hj) as Hjn. subst l.
    rewrite list_lookup_fmap, lookup_take_lt, lookup_drop in Hj by lia.
    destruct (Hall (h + j)%nat) as (f & Hf & Hff); [lia|]. rewrite Hf in Hj.
    injection Hj as <-. eauto. }
  assert (Hnd : NoDup l).
  { apply NoDup_alt. intros i j x Hi Hj.
    destruct (Hat i x Hi) as (f & Hf & Hff & Hfk). destruct (Hat j x Hj) as (g & Hg & Hgf & Hgk).
    destruct (tb_full _ _ _ Ht _ _ Hf Hff) as [Hfh _]. destruct (tb_full _ _ _ Ht _ _ Hg Hgf) as [Hgh _].
    rewrite Hfk in Hfh. rewrite Hgk in Hgh.
    destruct (lt_eq_lt_dec i j) as [[Hlt| ->]|Hgt]; [|done|].
    - pose proof (tb_sorted _ _ _ Ht (h + i) (h + j) f g ltac:(lia) Hf Hg Hff Hgf). lia.
    - pose proof (tb_sorted _ _ _ Ht (h + j) (h + i) g f ltac:(lia) Hg Hf Hgf Hff). lia. }
  rewrite <- Hl, <- size_dom. apply submseteq_length, NoDup_submseteq; [done|].
  intros x Hx. apply list_elem_of_lookup in Hx as [j Hj].
  destruct (Hat j x Hj) as (f & Hf & Hff & <-).
  apply elem_of_elements, elem_of_dom. exists (en_value f). apply Hmap. eauto 6.
Qed.

(** The capacities of the code: powers of two whose shift is below 64. *)
Definition capacity_ok (capacity : Z) : Prop := exists p, 1 <= p <= 63 /\ capacity = 2 ^ p.

(** A table laid out for [capacity]. *)
Definition sized (capacity : Z) (t : StaticHashMap K V) : Prop :=
  hm_shift t = compute_shift capacity /\
  length (hm_entries t) = Z.to_nat (static_slots capacity).

Lemma compute_shift_pow p : 0 <= p -> compute_shift (2 ^ p) = 64 - p.
Proof. intros Hp. unfold compute_shift. rewrite Z.log2_pow2 by done. lia. Qed.

Lemma compute_overflow_pos capacity : capacity_ok capacity ->
  0 < compute_overflow capacity (compute_shift capacity).
Proof.
  intros (p & Hp & ->). unfold compute_overflow. rewrite compute_shift_pow by lia.
  rewrite Z.shiftl_mul_pow2 by done.
  assert (0 <= 2 ^ p / 10) by (apply Z.div_pos; lia). lia.
Qed.

Lemma home_slot_lt capacity h : capacity_ok capacity -> is_u64 h ->
  (home_slot (compute_shift capacity) h < Z.to_nat capacity)%nat.
Proof.
  intros (p & Hp & ->) [Hh1 Hh2]. unfold home_slot. rewrite compute_shift_pow by lia.
  rewrite Z.mod_small by lia. rewrite Z.shiftr_div_pow2 by lia.
  apply Z2Nat.inj_lt; [apply Z.div_pos; lia|lia|].
  apply Z.div_lt_upper_bound; [lia|]. rewrite <- Z.pow_add_r by lia.
  replace (64 - p + p) with 64 by lia. exact Hh2.
Qed.

Lemma default_sized capacity : sized capacity (StaticHashMap_default vdefault capacity).
Proof. split; [done|]. apply length_replicate. Qed.

Lemma default_repr capacity : capacity_ok capacity ->
  repr (StaticHashMap_default vdefault capacity) ∅.
Proof.
  intros Hc. pose proof (compute_overflow_pos capacity Hc) as Hov.
  assert (Hcap : 0 < capacity) by (destruct Hc as (p & ? & ->); lia).
  assert (Hno : forall i (e : Entry K V),
    hm_entries (StaticHashMap_default vdefault capacity) !! i = Some e -> e = Entry_empty vdefault)
    by (intros i e; cbn; rewrite lookup_replicate; by intros [-> _]).
  assert (Hnf : ~ full (Entry_empty vdefault)) by (intros Hf; by apply Hf).
  split.
  - split.
    + intros i e He Hf. by rewrite (Hno i e He) in Hf.
    + intros i e He _. exact (Hno i e He).
    + intros i j a b _ Ha _ Hf. by rewrite (Hno i a Ha) in Hf.
    + intros i e He Hf. by rewrite (Hno i e He) in Hf.
    + intros i e k He Hf. by rewrite (Hno i e He) in Hf.
    + cbn. rewrite length_replicate, lookup_replicate. split; [done|]. unfold static_slots. lia.
    + intros h Hh. pose proof (home_slot_lt capacity h Hc Hh). cbn.
      rewrite length_replicate. unfold static_slots. lia.
  - intros k v. rewrite lookup_empty. split; [done|].
    intros (e & Hf & [i Hi] & _). by rewrite (Hno i e Hi) in Hf.
  - by rewrite map_size_empty.
Qed.

(** There is room as long as more slots follow the home slot than keys are
    stored. *)
Lemma room_of_count t m k : repr t m ->
  (home_slot (hm_shift t) (ctx_hash k) + S (size m) <= length (hm_entries t) - 1)%nat -> room t k.
Proof.
  intros Hr. set (h := home_slot (hm_shift t) (ctx_hash k)). intros Hlen.
  destruct (decide (Exists (fun e : Entry K V => ~ full e)
    (take (S (size m)) (drop h (hm_entries t))))) as [Hex|Hall].
  - apply Exists_exists in Hex as (e & He & Hne). apply list_elem_of_lookup in He as [j Hj].
    pose proof (lookup_lt_Some _ _ _ Hj) as Hjl. rewrite length_take in Hjl.
    rewrite lookup_take_lt, lookup_drop in Hj by lia.
    exists (h + j)%nat, e. split; [lia|]. done.
  - exfalso. apply not_Exists_Forall in Hall; [|intros e; apply _].
    pose proof (full_slots_le t m h (S (size m)) Hr ltac:(lia)) as Hle.
    assert (S (size m) <= size m)%nat; [|lia]. apply Hle. intros j Hj.
    destruct (lookup_lt_is_Some_2 (hm_entries t) j ltac:(lia)) as [f Hf]. exists f. split; [done|].
    rewrite Forall_lookup in Hall. apply dec_stable, (Hall (j - h)%nat).
    rewrite lookup_take_lt, lookup_drop by lia. by replace (h + (j - h))%nat with j by lia.
Qed.

(** While fewer keys are stored than the overflow area has slots, there is
    room for another one, whatever the hashes are. *)
Lemma sized_room capacity t m k : capacity_ok capacity -> sized capacity t -> repr t m ->
  Z.of_nat (size m) < compute_overflow capacity (compute_shift capacity) -> room t k.
Proof.
  intros Hc [Hs Hl] Hr Hsz. apply (room_of_count t m k Hr).
  pose proof (home_slot_lt capacity (ctx_hash k) Hc (ctx_hash_u64 k)) as Hh.
  rewrite <- Hs in Hh. rewrite Hl. unfold static_slots. lia.
Qed.

End Refinement.

(** ** Sequences of operations *)

Inductive MapOp (K V : Type) : Type :=
| MapGet (k : K)
| MapPut (k : K) (v : V)
| MapDelete (k : K).
Arguments MapGet {K V} k.
Arguments MapPut {K V} k v.
Arguments MapDelete {K V} k.

Definition op_key {K V} (op : MapOp K V) : K :=
  match op with MapGet k => k | MapPut k _ => k | MapDelete k => k end.

Section Runs.
Context {K V : Type} `{Countable K} `{HashContextLaws K} (vdefault : V).
Implicit Types (m : gmap K V).

(** One call on the table, with its answer. *)
Definition StaticHashMap_op (t : StaticHashMap K V) (op : MapOp K V)
    : outcome (StaticHashMap K V * option V) :=
  match op with
  | MapGet k => let! v := StaticHashMap_get t k in Done (t, v)
  | MapPut k v => let! t1 := put_assume_capacity vdefault t k v in Done (t1, None)
  | MapDelete k => StaticHashMap_delete vdefault t k
  end.

Fixpoint StaticHashMap_run (t : StaticHashMap K V) (ops : list (MapOp K V))
    : outcome (StaticHashMap K V * list (option V)) :=
  match ops with
  | [] => Done (t, [])
  | op :: rest =>
      let! (t1, a) := StaticHashMap_op t op in
      let! (t2, l) := StaticHashMap_run t1 rest in
      Done (t2, a :: l)
  end.

(** The specification: the same call on a finite map. A put does not overwrite. *)
Definition spec_op (m : gmap K V) (op : MapOp K V) : gmap K V * option V :=
  match op with
  | MapGet k => (m, m !! k)
  | MapPut k v => (match m !! k with Some _ => m | None => <[k := v]> m end, None)
  | MapDelete k => (delete k m, m !! k)
  end.

Fixpoint spec_run (m : gmap K V) (ops : list (MapOp K V)) : gmap K V * list (option V) :=
  match ops with
  | [] => (m, [])
  | op :: rest => let (m1, a) := spec_op m op in let (m2, l) := spec_run m1 rest in (m2, a :: l)
  end.

(** What a set of keys has to satisfy for the table to be a map on it. *)
Record keys_ok (capacity : Z) (keys : list K) : Prop := {
  ks_capacity : capacity_ok capacity;
  ks_storable : Forall storable keys;
  ks_hashes : NoDup (ctx_hash <$> keys);
  ks_count : Z.of_nat (length keys) <= compute_overflow capacity (compute_shift capacity);
}.

Context (capacity : Z) (keys : list K) (Hkeys : keys_ok capacity keys).

Lemma hash_inj k k' : k ∈ keys -> k' ∈ keys -> ctx_hash k = ctx_hash k' -> k = k'.
Proof.
  intros Hk Hk' Hh. apply list_elem_of_lookup in Hk as [i Hi].
  apply list_elem_of_lookup in Hk' as [j Hj].
  assert (i = j) as ->; [|congruence].
  apply (NoDup_lookup _ _ _ (ctx_hash k) (ks_hashes _ _ Hkeys));
    rewrite list_lookup_fmap; [by rewrite Hi|by rewrite Hj, Hh].
Qed.

Lemma keys_room t m k : sized capacity t -> repr vdefault t m -> (forall x, is_Some (m !! x) -> x ∈ keys) ->
  k ∈ keys -> m !! k = None -> room t k.
Proof.
  intros Hs Hr Hsub Hk Hnone.
  apply (sized_room vdefault capacity t m k (ks_capacity _ _ Hkeys) Hs Hr).
  pose proof (ks_count _ _ Hkeys).
  assert (size (<[k := vdefault]> m) <= length keys)%nat; [|rewrite map_size_insert_None in * by done; lia].
  rewrite <- size_dom.
  transitivity (size (list_to_set keys : gset K)).
  - apply subseteq_size. intros x Hx. apply elem_of_list_to_set.
    apply elem_of_dom in Hx. apply lookup_insert_is_Some in Hx as [<-|[_ Hx]]; auto.
  - rewrite size_list_to_set; [done|]. apply (NoDup_fmap_1 ctx_hash), (ks_hashes _ _ Hkeys).
Qed.

(** One call keeps the correspondence and gives the answer of the map. *)
Lemma op_refines t m op : sized capacity t -> repr vdefault t m -> (forall x, is_Some (m !! x) -> x ∈ keys) ->
  op_key op ∈ keys ->
  exists t', StaticHashMap_op t op = Done (t', snd (spec_op m op)) /\
    sized capacity t' /\ repr vdefault t' (fst (spec_op m op)) /\
    (forall x, is_Some (fst (spec_op m op) !! x) -> x ∈ keys).
Proof.
  intros Hs Hr Hsub Hk. pose proof (ks_storable _ _ Hkeys) as Hst. rewrite Forall_forall in Hst.
  destruct op as [k|k v|k]; cbn in *.
  - exists t. by rewrite (get_refines vdefault t m k Hr (Hst k Hk)).
  - destruct (put_refines vdefault t m k v Hr (Hst k Hk)) as (t' & -> & Hr' & Hsh & Hl).
    { intros k' w Hk' Hh. apply hash_inj; [apply Hsub; by eexists|done..]. }
    { destruct (m !! k) eqn:Hm; [by right|left]. by apply (keys_room t m k). }
    exists t'. split; [done|]. destruct Hs as [Hs1 Hs2]. split; [split; congruence|].
    split; [done|]. intros x Hx. destruct (m !! k); [by apply Hsub|].
    apply lookup_insert_is_Some in Hx as [<-|[_ Hx]]; auto.
  - destruct (delete_refines vdefault t m k Hr (Hst k Hk)) as (t' & -> & Hr' & Hsh & Hl).
    exists t'. split; [done|]. destruct Hs as [Hs1 Hs2]. split; [split; congruence|].
    split; [done|]. intros x [w Hx]. apply lookup_delete_Some in Hx as [_ Hx]. apply Hsub. by eexists.
Qed.

Lemma run_refines ops : forall t m, sized capacity t -> repr vdefault t m ->
  (forall x, is_Some (m !! x) -> x ∈ keys) -> Forall (fun op => op_key op ∈ keys) ops ->
  exists t', StaticHashMap_run t ops = Done (t', snd (spec_run m ops)) /\
    repr vdefault t' (fst (spec_run m ops)).
Proof.
  induction ops as [|op ops IH]; intros t m Hs Hr Hsub Hops; [by exists t|].
  apply Forall_cons in Hops as [Hop Hops]. cbn.
  destruct (op_refines t m op Hs Hr Hsub Hop) as (t1 & -> & Hs1 & Hr1 & Hsub1). cbn.
  destruct (spec_op m op) as [m1 a]. cbn in *.
  destruct (IH t1 m1 Hs1 Hr1 Hsub1 Hops) as (t2 & -> & Hr2). cbn.
  destruct (spec_run m1 ops) as [m2 l]. by exists t2.
Qed.

(** C19: Any sequence of [get], [put_assume_capacity] and [delete] on a fresh
    table gives exactly the answers of a finite map whose put does not
    overwrite, and never panics, for keys with distinct hashes, none of them
    the default key, as many as the overflow area has slots; in the end the
    table holds that map. *)
Theorem StaticHashMap_run_refines ops : Forall (fun op => op_key op ∈ keys) ops ->
  exists t, StaticHashMap_run (StaticHashMap_default vdefault capacity) ops =
      Done (t, snd (spec_run ∅ ops)) /\ repr vdefault t (fst (spec_run ∅ ops)).
Proof.
  intros Hops. apply run_refines; [apply default_sized|apply default_repr, Hkeys| |done].
  intros x [v Hv]. by rewrite lookup_empty in Hv.
Qed.

End Runs.

(** ** The identity context, and what the table does outside its contract *)

(** [IdentityContext<u64>]: pre-hashed keys. *)
#[export] Instance IdentityContext : HashContext Z := {|
  ctx_hash k := as_u64 k;
  ctx_eql := Z.eqb;
  ctx_default := 0;
|}.

#[export] Instance IdentityContext_laws : HashContextLaws Z.
Proof.
  split; [exact Z.eqb_eq|]. intros k. unfold is_u64. cbn. unfold as_u64.
  apply Z.mod_pos_bound. reflexivity.
Qed.

(** Four keys, of which two share a home slot and one has the last, and a
    sequence of operations on them. *)
Definition example_keys : list Z := [5; 9; 2 ^ 63; 2 ^ 64 - 2].
Definition example_ops : list (MapOp Z Z) :=
  [MapPut 9 1; MapPut 5 2; MapPut (2 ^ 64 - 2) 3; MapPut 5 7; MapGet 5; MapDelete 5; MapGet 5;
   MapGet 9; MapPut (2 ^ 63) 4; MapDelete (2 ^ 64 - 2); MapGet (2 ^ 63)].

Lemma example_keys_ok : keys_ok 8 example_keys.
Proof.
  split.
  - exists 3. split; [lia|reflexivity].
  - unfold storable. cbn [ctx_hash IdentityContext ctx_default].
    apply (bool_decide_unpack _). vm_compute. exact I.
  - apply (bool_decide_unpack _). vm_compute. exact I.
  - vm_compute. discriminate.
Qed.

Lemma StaticHashMap_run_refines_witness :
  Forall (fun op => op_key op ∈ example_keys) example_ops /\
  exists t, StaticHashMap_run 0 (StaticHashMap_default 0 8) example_ops =
      Done (t, snd (spec_run ∅ example_ops)) /\ repr 0 t (fst (spec_run ∅ example_ops)).
Proof.
  assert (Hops : Forall (fun op => op_key op ∈ example_keys) example_ops)
    by (apply (bool_decide_unpack _); vm_compute; exact I).
  split; [exact Hops|].
  exact (StaticHashMap_run_refines 0 8 example_keys example_keys_ok example_ops Hops).
Defined.

Example example_answers : snd (spec_run ∅ example_ops) =
  [None; None; None; None; Some 2; Some 2; None; Some 1; None; Some 3; Some 4].
Proof. vm_compute. reflexivity. Qed.

(** The default key is found in a fresh table, and deleting it wraps the length
    to the largest [u64]. *)
Lemma default_key_found {K V : Type} `{Countable K} `{HashContextLaws K} (vdefault : V) capacity :
  capacity_ok capacity -> ctx_hash ctx_default <> EMPTY_HASH ->
  StaticHashMap_get (StaticHashMap_default vdefault capacity) (ctx_default (K := K)) =
    Done (Some vdefault).
Proof.
  intros Hc Hne. pose proof (default_repr (K := K) vdefault capacity Hc) as [Ht _ _].
  set (t := StaticHashMap_default vdefault capacity) in *.
  pose proof (tb_fit _ _ _ Ht _ (ctx_hash_u64 ctx_default)) as Hfit.
  assert (He : hm_entries t !! home_slot (hm_shift t) (ctx_hash ctx_default) =
    Some (Entry_empty vdefault)).
  { apply lookup_replicate. split; [done|]. revert Hfit. cbn. by rewrite length_replicate. }
  assert (Hh : ctx_hash ctx_default <= en_hash (Entry_empty vdefault)).
  { pose proof (ctx_hash_u64 ctx_default) as [? ?]. cbn.
    unfold EMPTY_HASH, u64_MAX, two64 in *. lia. }
  unfold StaticHashMap_get, slice_from. rewrite (proj2 (Nat.ltb_ge _ _)) by lia. cbn [obind].
  rewrite (get_loop_stops _ _ _ _ _ _ He Hh); [|done|intros; lia].
  cbn [en_key en_value Entry_empty]. by rewrite (proj2 (ctx_eql_iff _ _)).
Qed.

Example default_key_delete :
  (let! (t, v) := StaticHashMap_delete 0 (StaticHashMap_default 0 8) (0 : Z) in
   Done (hm_len t, v)) = Done (u64_MAX, Some 0).
Proof. vm_compute. reflexivity. Qed.

(** Putting a key with the hash of a stored one makes the stored one
    unreachable: the newer entry stands in front of it. (Keys beyond 64 bits
    stand for a context in which two keys collide.) *)
Example collision_hides :
  StaticHashMap_run (0 : Z) (StaticHashMap_default 0 8)
    [MapPut 5 1; MapPut (2 ^ 64 + 5) 2; MapGet 5; MapGet (2 ^ 64 + 5)] =
  (let! (t, _) := StaticHashMap_run (0 : Z) (StaticHashMap_default 0 8)
     [MapPut 5 1; MapPut (2 ^ 64 + 5) 2] in Done (t, [None; None; None; Some 2])).
Proof. vm_compute. reflexivity. Qed.
