(* ===== verification/IndexSort.v ===== *)
(** * Sorting through index arrays

    [collections/index_sort.rs]: sorts of arbitrary elements by sorting an
    array of [u32] indices and permuting the elements with it, either through a
    vector of taken elements ([apply_permutation]) or in place by walking the
    cycles of the permutation ([apply_permutation_in_place]); and the stable
    partition by rotations. The comparators are pure functions. *)
From Stdlib Require Import ZArith Lia Ascii.
From stdpp Require Import base list numbers option sorting.
From S2P Require Import Prelude.
#[local] Open Scope Z_scope.

(** ** The sorts of the standard library *)

(** [slice::sort_by], the stable sort. *)
Fixpoint sort_insert {A} (cmp : A -> A -> comparison) (x : A) (l : list A) : list A :=
  match l with
  | [] => [x]
  | y :: rest =>
      match cmp x y with
      | Gt => y :: sort_insert cmp x rest
      | _ => x :: l
      end
  end.

Definition sort_by {A} (cmp : A -> A -> comparison) (l : list A) : list A :=
  foldr (sort_insert cmp) [] l.

(** The order a comparator describes. *)
Definition cmp_le {A} (cmp : A -> A -> comparison) (x y : A) : Prop := cmp x y <> Gt.

(** [slice::sort_unstable_by]: some sorted permutation. *)
Class UnstableSort : Type := {
  sort_unstable_by : forall A, (A -> A -> comparison) -> list A -> list A;
  sort_unstable_perm : forall A cmp (l : list A), sort_unstable_by A cmp l ≡ₚ l;
  sort_unstable_sorted : forall A cmp (l : list A), TotalPreorder cmp ->
      StronglySorted (cmp_le cmp) (sort_unstable_by A cmp l);
}.
Arguments sort_unstable_by {_ A} cmp l.

(** ** The index sorts *)

Definition u32_MAX : Z := 4294967295.

Definition identity (len : nat) : outcome (list Z) :=
  if u32_MAX <? Z.of_nat len then Panic else Done (Z.of_nat <$> seq 0 len).

(** [items[i]] *)
Definition item_at {A} (items : list A) (i : Z) : outcome A :=
  match items !! Z.to_nat i with Some x => Done x | None => Panic end.

(** The comparator of the index sorts, [cmp(&items[a], &items[b])]. The sorts
    are only called on [identity], whose indices are in range; an index out of
    range would be smaller than one in range. *)
Definition cmp_at {A} (cmp : A -> A -> comparison) (items : list A) (a b : Z) : comparison :=
  match items !! Z.to_nat a, items !! Z.to_nat b with
  | Some x, Some y => cmp x y
  | None, None => Eq
  | None, Some _ => Lt
  | Some _, None => Gt
  end.

Definition sort_indices (cmp : Z -> Z -> comparison) (indices : list Z) : list Z :=
  sort_by cmp indices.

Definition sort_indices_unstable `{UnstableSort} (cmp : Z -> Z -> comparison) (indices : list Z)
    : list Z :=
  sort_unstable_by cmp indices.

(** The loop of [apply_permutation]: [taken[i].take().expect(..)] for each index. *)
Fixpoint take_all {A} (taken : list (option A)) (order : list Z) : outcome (list A) :=
  match order with
  | [] => Done []
  | i :: rest =>
      match taken !! Z.to_nat i with
      | Some (Some x) =>
          let! l := take_all (<[Z.to_nat i := None]> taken) rest in Done (x :: l)
      | _ => Panic
      end
  end.

Definition apply_permutation {A} (items : list A) (order : list Z) : outcome (list A) :=
  take_all (Some <$> items) order.

(** [items.swap(a, b)] *)
Definition swap {A} (items : list A) (a b : nat) : outcome (list A) :=
  match items !! a, items !! b with
  | Some x, Some y => Done (<[b := x]> (<[a := y]> items))
  | _, _ => Panic
  end.

Definition DONE : Z := u32_MAX.

(** The inner loop: walks the cycle of [start] from [cur]. *)
Fixpoint walk_cycle {A} (fuel start cur : nat) (items : list A) (order : list Z)
    : outcome (list A * list Z) :=
  match fuel with
  | O => NoFuel
  | S f =>
      let! o := item_at order (Z.of_nat cur) in
      let next := Z.to_nat o in
      let order1 := <[cur := DONE]> order in
      if (next =? start)%nat then Done (items, order1)
      else
        let! items1 := swap items cur next in
        walk_cycle f start next items1 order1
  end.

(** The outer loop over [starts]. *)
Fixpoint walk_cycles {A} (starts : list nat) (items : list A) (order : list Z)
    : outcome (list A * list Z) :=
  match starts with
  | [] => Done (items, order)
  | start :: rest =>
      let! o := item_at order (Z.of_nat start) in
      if o =? DONE then walk_cycles rest items order
      else
        let! (items1, order1) := walk_cycle (S (length items)) start start items order in
        walk_cycles rest items1 order1
  end.

Definition apply_permutation_in_place {A} (items : list A) (order : list Z) : outcome (list A) :=
  let! (items1, _) := walk_cycles (seq 0 (length items)) items order in
  Done items1.

Definition sort_vec_by {A} (cmp : A -> A -> comparison) (items : list A) : outcome (list A) :=
  if (length items <? 2)%nat then Done items
  else
    let! order := identity (length items) in
    apply_permutation items (sort_indices (cmp_at cmp items) order).

Definition sort_vec_unstable_by `{UnstableSort} {A} (cmp : A -> A -> comparison) (items : list A)
    : outcome (list A) :=
  if (length items <? 2)%nat then Done items
  else
    let! order := identity (length items) in
    apply_permutation items (sort_indices_unstable (cmp_at cmp items) order).

Definition sort_slice_by {A} (cmp : A -> A -> comparison) (items : list A) : outcome (list A) :=
  if (length items <? 2)%nat then Done items
  else
    let! order := identity (length items) in
    apply_permutation_in_place items (sort_indices (cmp_at cmp items) order).

Definition sort_slice_unstable_by `{UnstableSort} {A} (cmp : A -> A -> comparison) (items : list A)
    : outcome (list A) :=
  if (length items <? 2)%nat then Done items
  else
    let! order := identity (length items) in
    apply_permutation_in_place items (sort_indices_unstable (cmp_at cmp items) order).

(** [items[a..=b].rotate_right(1)] *)
Definition rotate_right_1 {A} (items : list A) (a b : nat) : outcome (list A) :=
  match items !! b with
  | Some x => Done (take a items ++ x :: take (b - a) (drop a items) ++ drop (S b) items)
  | None => Panic
  end.

(** The loop of [stable_partition] over the indices [is]. *)
Fixpoint partition_loop {A} (pred : A -> bool) (indices : list nat) (items : list A) (front : nat)
    : outcome (list A * nat) :=
  match indices with
  | [] => Done (items, front)
  | i :: rest =>
      let! x := item_at items (Z.of_nat i) in
      if pred x then
        let! items1 := rotate_right_1 items front i in
        partition_loop pred rest items1 (S front)
      else partition_loop pred rest items front
  end.

Definition stable_partition {A} (pred : A -> bool) (items : list A) : outcome (list A * nat) :=
  partition_loop pred (seq 0 (length items)) items 0.

(** ** The stable sort *)

Section SortBy.
Context {A : Type} (cmp : A -> A -> comparison).

Lemma sort_insert_perm x l : sort_insert cmp x l ≡ₚ x :: l.
Proof.
  induction l as [|y l IH]; [done|]. cbn. destruct (cmp x y); [done..|].
  rewrite IH. apply Permutation_swap.
Qed.

Lemma sort_by_perm l : sort_by cmp l ≡ₚ l.
Proof.
  induction l as [|x l IH]; [done|]. cbn. rewrite sort_insert_perm. by f_equiv.
Qed.

Context {Hcmp : TotalPreorder cmp}.

Lemma sort_insert_sorted x l : StronglySorted (cmp_le cmp) l ->
  StronglySorted (cmp_le cmp) (sort_insert cmp x l).
Proof.
  unfold cmp_le. induction 1 as [|y l Hl IH Hy]; [by repeat constructor|]. cbn.
  destruct (cmp x y) eqn:Hxy.
  1,2: constructor; [by constructor|]; constructor; [by rewrite Hxy|];
    apply (Forall_impl _ _ _ Hy); intros z Hz; apply (cmp_le_trans cmp x y z); [by rewrite Hxy|done].
  constructor; [done|]. rewrite (sort_insert_perm x l). constructor; [|done].
  rewrite (cmp_antisym cmp x y), Hxy. done.
Qed.

Lemma sort_by_sorted l : StronglySorted (cmp_le cmp) (sort_by cmp l).
Proof. induction l as [|x l IH]; [constructor|]. by apply sort_insert_sorted. Qed.

End SortBy.

(** Sorting the images is sorting by the images. *)
Lemma sort_by_fmap {A B} (f : A -> B) (cmp : B -> B -> comparison) (cmpf : A -> A -> comparison) l :
  (forall x y, x ∈ l -> y ∈ l -> cmpf x y = cmp (f x) (f y)) ->
  f <$> sort_by cmpf l = sort_by cmp (f <$> l).
Proof.
  induction l as [|x l IH]; intros Heq; [done|].
  change (f <$> sort_insert cmpf x (sort_by cmpf l) = sort_insert cmp (f x) (sort_by cmp (f <$> l))).
  rewrite <- IH by (intros; apply Heq; by right).
  assert (Hin : forall y, y ∈ sort_by cmpf l -> cmpf x y = cmp (f x) (f y)).
  { intros y Hy. apply Heq; [left|right]. by rewrite (sort_by_perm cmpf l) in Hy. }
  revert Hin. generalize (sort_by cmpf l) as k. intros k. induction k as [|y k IHk]; intros Hin; [done|].
  cbn. rewrite Hin by left. destruct (cmp (f x) (f y)); [done..|]. cbn. f_equal.
  apply IHk. intros z Hz. apply Hin. by right.
Qed.

#[export] Instance sort_by_unstable : UnstableSort := {|
  sort_unstable_by A := @sort_by A;
  sort_unstable_perm A := @sort_by_perm A;
  sort_unstable_sorted A cmp l H := sort_by_sorted cmp l;
|}.

(** ** Permutations of the indices *)

(** The elements at the indices of [order], in that order. *)
Definition gather {A} (items : list A) (order : list Z) : list A :=
  omap (fun i => items !! Z.to_nat i) order.

(** [order] is a permutation of [0..n]. *)
Definition is_order (n : nat) (order : list Z) : Prop := order ≡ₚ Z.of_nat <$> seq 0 n.

Section Orders.
Context {A : Type} (items : list A) (order : list Z) (Ho : is_order (length items) order).

Lemma order_length : length order = length items.
Proof. rewrite (Permutation_length Ho), length_fmap, length_seq. done. Qed.

Lemma order_elem o : o ∈ order <-> 0 <= o < Z.of_nat (length items).
Proof.
  rewrite Ho, list_elem_of_fmap. split.
  - intros (j & -> & Hj). apply elem_of_seq in Hj. lia.
  - intros Hj. exists (Z.to_nat o). rewrite elem_of_seq. split; lia.
Qed.

Lemma order_NoDup : NoDup order.
Proof. rewrite Ho. apply NoDup_fmap; [intros ? ?; lia|apply NoDup_seq]. Qed.

Lemma order_inj i j a b : order !! i = Some a -> order !! j = Some b ->
  Z.to_nat a = Z.to_nat b -> i = j.
Proof.
  intros Hi Hj Hab. apply (NoDup_lookup order i j a order_NoDup Hi).
  assert (Ha : a ∈ order) by by eapply list_elem_of_lookup_2.
  assert (Hb : b ∈ order) by by eapply list_elem_of_lookup_2.
  apply order_elem in Ha, Hb. rewrite Hj. f_equal. lia.
Qed.

Lemma order_at i o : order !! i = Some o -> exists x, items !! Z.to_nat o = Some x.
Proof.
  intros Hi. assert (Hin : o ∈ order) by by eapply list_elem_of_lookup_2.
  apply order_elem in Hin. apply lookup_lt_is_Some_2. lia.
Qed.

(** Every index occurs. *)
Lemma order_onto j : (j < length items)%nat -> exists i, order !! i = Some (Z.of_nat j).
Proof. intros Hj. apply list_elem_of_lookup, order_elem. lia. Qed.

End Orders.

Lemma gather_lookup {A} (items : list A) order :
  Forall (fun o => is_Some (items !! Z.to_nat o)) order ->
  forall i, gather items order !! i = (order !! i) ≫= (fun o => items !! Z.to_nat o).
Proof.
  induction 1 as [|o order [x Hx] Hl IH]; intros i; [done|].
  unfold gather in *. cbn. rewrite Hx. destruct i as [|i]; cbn; [by rewrite Hx|apply IH].
Qed.

Lemma order_Forall {A} (items : list A) order : is_order (length items) order ->
  Forall (fun o => is_Some (items !! Z.to_nat o)) order.
Proof.
  intros Ho. apply Forall_forall. intros o Hin. apply (order_elem items order Ho) in Hin.
  apply lookup_lt_is_Some_2. lia.
Qed.

Lemma identity_order n : is_order n (Z.of_nat <$> seq 0 n).
Proof. unfold is_order. reflexivity. Qed.

Lemma gather_identity {A} (items : list A) : gather items (Z.of_nat <$> seq 0 (length items)) = items.
Proof.
  apply list_eq. intros i. rewrite gather_lookup by apply order_Forall, identity_order.
  rewrite list_lookup_fmap. destruct (decide (i < length items)%nat).
  - rewrite lookup_seq_lt by done. cbn. by rewrite Nat2Z.id.
  - rewrite lookup_seq_ge by lia. cbn. symmetry. apply lookup_ge_None. lia.
Qed.

Lemma gather_perm {A} (items : list A) order : is_order (length items) order ->
  gather items order ≡ₚ items.
Proof.
  intros Ho. unfold gather. rewrite Ho.
  change (gather items (Z.of_nat <$> seq 0 (length items)) ≡ₚ items).
  by rewrite gather_identity.
Qed.

(** ** Taking the elements out *)

Lemma take_all_gather {A} (items : list A) order : NoDup (Z.to_nat <$> order) ->
  forall taken, Forall (fun o => is_Some (items !! Z.to_nat o)) order ->
  (forall o, o ∈ order -> taken !! Z.to_nat o = Some (items !! Z.to_nat o)) ->
  take_all taken order = Done (gather items order).
Proof.
  induction order as [|o order IH]; intros Hnd taken Hall Ht; [done|].
  apply Forall_cons in Hall as [[x Hx] Hall]. apply NoDup_cons in Hnd as [Hnin Hnd].
  cbn. rewrite (Ht o) by left. rewrite Hx.
  rewrite IH; [done..|]. intros o' Ho'.
  rewrite list_lookup_insert_ne; [apply Ht; by right|]. intros Heq. apply Hnin.
  rewrite Heq. by apply list_elem_of_fmap_2.
Qed.

Lemma apply_permutation_gathers {A} (items : list A) order : is_order (length items) order ->
  apply_permutation items order = Done (gather items order).
Proof.
  intros Ho. apply take_all_gather.
  - apply (NoDup_fmap_2_strong Z.to_nat); [|by apply (order_NoDup items)].
    intros a b Ha Hb. apply (order_elem items order Ho) in Ha, Hb. lia.
  - by apply order_Forall.
  - intros o Hin. pose proof (order_Forall items order Ho) as Hall.
    rewrite Forall_forall in Hall. destruct (Hall o Hin) as [x Hx].
    by rewrite list_lookup_fmap, Hx.
Qed.

(** ** Walking the cycles *)

Section Cycles.
Context {A : Type} (items0 : list A) (o0 : list Z).
Context (Ho : is_order (length items0) o0) (Hn : Z.of_nat (length items0) <= u32_MAX).

Lemma order_not_done i o : o0 !! i = Some o -> o <> DONE.
Proof.
  intros Hi. assert (Hin : o ∈ o0) by by eapply list_elem_of_lookup_2.
  apply (order_elem items0 o0 Ho) in Hin. unfold DONE. lia.
Qed.

(** Between two cycles: every slot is either marked and has its element, or
    untouched; what points to a marked slot is marked. *)
Record between (items : list A) (order : list Z) : Prop := {
  bt_len : length items = length items0 /\ length order = length items0;
  bt_slot : forall i o, o0 !! i = Some o ->
    (order !! i = Some DONE /\ items !! i = items0 !! Z.to_nat o) \/
    (order !! i = Some o /\ items !! i = items0 !! i);
  bt_back : forall i o, o0 !! i = Some o ->
    order !! Z.to_nat o = Some DONE -> order !! i = Some DONE;
}.

(** On the cycle of [start], at [cur], which holds the element of [start]. *)
Record walking (start cur : nat) (items : list A) (order : list Z) : Prop := {
  wk_len : length items = length items0 /\ length order = length items0;
  wk_slot : forall i o, o0 !! i = Some o -> i <> cur ->
    (order !! i = Some DONE /\ items !! i = items0 !! Z.to_nat o) \/
    (order !! i = Some o /\ items !! i = items0 !! i);
  wk_cur : order !! cur = o0 !! cur /\ items !! cur = items0 !! start;
  wk_back : forall i o, o0 !! i = Some o -> Z.to_nat o <> start ->
    (order !! Z.to_nat o = Some DONE \/ Z.to_nat o = cur) -> order !! i = Some DONE;
  wk_start : start = cur \/ order !! start = Some DONE;
}.

Lemma between_start items order start o : between items order ->
  o0 !! start = Some o -> order !! start <> Some DONE -> walking start start items order.
Proof.
  intros [Hlen Hslot Hback] Hs Hnd. split; [done| | | |by left].
  - intros i o' Hi _. by apply Hslot.
  - destruct (Hslot start o Hs) as [[? _]|[-> ->]]; done.
  - intros i o' Hi Hne [Hd|Hd]; [by apply (Hback i o')|done].
Qed.

(** The next slot of the cycle, unless the cycle closes, is untouched. *)
Lemma walking_next start cur items order o : walking start cur items order ->
  o0 !! cur = Some o -> Z.to_nat o <> start ->
  order !! Z.to_nat o <> Some DONE /\ Z.to_nat o <> cur.
Proof.
  intros [_ _ [Hcur _] Hback _] Hc Hne. rewrite Hc in Hcur.
  pose proof (order_not_done cur o Hc). split; intros Hx.
  - assert (Hd : order !! cur = Some DONE) by (apply (Hback cur o Hc Hne); by left). congruence.
  - assert (Hd : order !! cur = Some DONE) by (apply (Hback cur o Hc Hne); by right). congruence.
Qed.

(** The cycle closes. *)
Lemma walking_close start cur items order o : walking start cur items order ->
  o0 !! cur = Some o -> Z.to_nat o = start -> between items (<[cur := DONE]> order).
Proof.
  intros [[Hl1 Hl2] Hslot [Hcur Hitem] Hback _] Hc Hstart.
  assert (Hlt : (cur < length order)%nat) by (eapply lookup_lt_Some; by rewrite Hcur).
  split; [by rewrite length_insert| |].
  - intros i o' Hi. destruct (decide (i = cur)) as [->|Hne].
    + left. rewrite list_lookup_insert_eq by done. split; [done|]. congruence.
    + rewrite list_lookup_insert_ne by done. by apply Hslot.
  - intros i o' Hi Hd. destruct (decide (i = cur)) as [->|Hne]; [by apply list_lookup_insert_eq|].
    rewrite list_lookup_insert_ne by done. apply (Hback i o' Hi).
    + intros Heq. apply Hne. apply (order_inj items0 o0 Ho i cur o' o Hi Hc). lia.
    + destruct (decide (Z.to_nat o' = cur)) as [|Hne']; [by right|left].
      by rewrite list_lookup_insert_ne in Hd by done.
Qed.

Lemma walking_step start cur items order o : walking start cur items order ->
  o0 !! cur = Some o -> Z.to_nat o <> start ->
  exists items1, swap items cur (Z.to_nat o) = Done items1 /\
    walking start (Z.to_nat o) items1 (<[cur := DONE]> order).
Proof.
  intros Hw Hc Hne. destruct (walking_next _ _ _ _ _ Hw Hc Hne) as [Hnd Hnc].
  destruct Hw as [[Hl1 Hl2] Hslot [Hcur Hitem] Hback Hst].
  destruct (order_at items0 o0 Ho cur o Hc) as [x Hx].
  assert (Hlt : (cur < length order)%nat) by (eapply lookup_lt_Some; by rewrite Hcur).
  assert (Hnlt : (Z.to_nat o < length items)%nat) by (rewrite Hl1; by eapply lookup_lt_Some).
  destruct (lookup_lt_is_Some_2 o0 (Z.to_nat o)) as [o1 Ho1].
  { rewrite (order_length items0 o0 Ho). lia. }
  destruct (Hslot _ o1 Ho1 Hnc) as [[? _]|[Hord Hit]]; [done|].
  destruct (lookup_lt_is_Some_2 items cur ltac:(lia)) as [c Hcx].
  unfold swap. rewrite Hcx, Hit, Hx. eexists. split; [done|]. split.
  - by rewrite !length_insert.
  - intros i o' Hi Hi'. rewrite (list_lookup_insert_ne _ (Z.to_nat o) i) by done.
    destruct (decide (i = cur)) as [->|Hic].
    + left. rewrite !list_lookup_insert_eq by lia. split; [done|]. congruence.
    + rewrite !list_lookup_insert_ne by done. by apply Hslot.
  - rewrite (list_lookup_insert_ne order) by done. rewrite Hord. split; [done|].
    rewrite list_lookup_insert_eq by by rewrite length_insert. congruence.
  - intros i o' Hi Hs' Hd. destruct (decide (i = cur)) as [->|Hic]; [by apply list_lookup_insert_eq|].
    rewrite list_lookup_insert_ne by done. apply (Hback i o' Hi Hs').
    destruct (decide (Z.to_nat o' = cur)) as [|Hoc]; [by right|left].
    destruct Hd as [Hd|Hd]; [by rewrite list_lookup_insert_ne in Hd by done|].
    contradict Hic. by apply (order_inj items0 o0 Ho i cur o' o Hi Hc).
  - right. destruct (decide (start = cur)) as [->|Hsc]; [by apply list_lookup_insert_eq|].
    rewrite list_lookup_insert_ne by done. by destruct Hst.
Qed.

(** The slots that are not marked: what bounds the walk. *)
Definition pending (order : list Z) : nat := length (filter (fun o => o <> DONE) order).

Lemma pending_mark order i o : order !! i = Some o -> o <> DONE ->
  pending order = S (pending (<[i := DONE]> order)).
Proof.
  intros Hi Hne. unfold pending.
  rewrite (insert_take_drop order i DONE) by by eapply lookup_lt_Some.
  rewrite <- (take_drop_middle order i o Hi) at 1.
  rewrite !filter_app, !length_app, filter_cons_True, filter_cons_False by (done || auto).
  cbn. lia.
Qed.

Lemma walk_cycle_closes fuel : forall start cur items order, (pending order <= fuel)%nat ->
  walking start cur items order -> (cur < length items0)%nat ->
  exists items1 order1, walk_cycle fuel start cur items order = Done (items1, order1) /\
    between items1 order1 /\ order1 !! start = Some DONE /\
    (forall i, order !! i = Some DONE -> order1 !! i = Some DONE).
Proof.
  induction fuel as [|fuel IH]; intros start cur items order Hf Hw Hc;
    destruct (lookup_lt_is_Some_2 o0 cur) as [o Hoc];
    try (rewrite (order_length items0 o0 Ho); lia);
    pose proof (wk_cur _ _ _ _ Hw) as [Hcur _]; rewrite Hoc in Hcur;
    pose proof (pending_mark order cur o Hcur (order_not_done cur o Hoc)) as Hp; [lia|].
  pose proof (lookup_lt_Some _ _ _ Hcur) as Hlt.
  assert (Hkeep : forall i, order !! i = Some DONE -> <[cur := DONE]> order !! i = Some DONE).
  { intros i Hi. destruct (decide (i = cur)) as [->|]; [by apply list_lookup_insert_eq|].
    by rewrite list_lookup_insert_ne. }
  cbn. unfold item_at. rewrite Nat2Z.id, Hcur. cbn [obind].
  destruct (Z.to_nat o =? start)%nat eqn:Hstart; bool_facts.
  - do 2 eexists. split; [done|]. split; [by apply (walking_close start cur items order o)|].
    split; [|done].
    destruct (wk_start _ _ _ _ Hw) as [->|Hd]; [by apply list_lookup_insert_eq|by apply Hkeep].
  - destruct (walking_step _ _ _ _ _ Hw Hoc Hstart) as (items1 & -> & Hw1). cbn [obind].
    destruct (IH start (Z.to_nat o) items1 (<[cur := DONE]> order)) as (i2 & o2 & -> & Hb & Hs & Hk).
    + lia.
    + done.
    + destruct (order_at items0 o0 Ho cur o Hoc) as [x Hx]. by eapply lookup_lt_Some.
    + exists i2, o2. split; [done|]. split; [done|]. split; [done|]. auto.
Qed.

Lemma walk_cycles_between starts : forall items order, between items order ->
  Forall (fun i => (i < length items0)%nat) starts ->
  exists items1 order1, walk_cycles starts items order = Done (items1, order1) /\
    between items1 order1 /\
    (forall i, i ∈ starts \/ order !! i = Some DONE -> order1 !! i = Some DONE).
Proof.
  induction starts as [|start starts IH]; intros items order Hb Hall; cbn [walk_cycles].
  { exists items, order. split; [done|]. split; [done|]. intros i [Hi|Hi]; [|done].
    by apply not_elem_of_nil in Hi. }
  apply Forall_cons in Hall as [Hs Hall]. pose proof Hb as [[Hl1 Hl2] Hslot _].
  destruct (lookup_lt_is_Some_2 o0 start) as [o Hoc]; [rewrite (order_length items0 o0 Ho); lia|].
  destruct (lookup_lt_is_Some_2 order start ltac:(lia)) as [c Hc].
  unfold item_at at 1. rewrite Nat2Z.id, Hc. cbn [obind].
  destruct (c =? DONE) eqn:Hcd; bool_facts.
  - subst c. destruct (IH items order Hb Hall) as (i1 & o1 & -> & Hb1 & Hd1).
    exists i1, o1. split; [done|]. split; [done|]. intros i Hi. apply Hd1.
    destruct Hi as [Hi|Hi]; [|by right]. apply elem_of_cons in Hi as [->|Hi]; [by right|by left].
  - destruct (walk_cycle_closes (S (length items)) start start items order)
      as (i1 & o1 & -> & Hb1 & Hd1 & Hk1).
    + pose proof (length_filter (fun o => o <> DONE) order). unfold pending. lia.
    + apply (between_start items order start o Hb Hoc). congruence.
    + done.
    + cbn [obind]. destruct (IH i1 o1 Hb1 Hall) as (i2 & o2 & -> & Hb2 & Hd2).
      exists i2, o2. split; [done|]. split; [done|]. intros i [Hi|Hi]; [|auto].
      apply elem_of_cons in Hi as [->|Hi]; auto.
Qed.

Lemma in_place_gathers : apply_permutation_in_place items0 o0 = Done (gather items0 o0).
Proof.
  unfold apply_permutation_in_place.
  destruct (walk_cycles_between (seq 0 (length items0)) items0 o0) as (i1 & d1 & -> & Hb & Hd).
  - split.
    + by rewrite (order_length items0 o0 Ho).
    + intros i o Hi. by right.
    + intros i o Hi Hdone. by destruct (order_not_done _ _ Hdone).
  - apply Forall_forall. intros i Hi. apply elem_of_seq in Hi. lia.
  - cbn. f_equal. destruct Hb as [[Hl1 _] Hslot _].
    apply list_eq. intros i. rewrite gather_lookup by by apply order_Forall.
    destruct (o0 !! i) as [o|] eqn:Hi; cbn.
    + assert (Hlt : (i < length items0)%nat)
        by (rewrite <- (order_length items0 o0 Ho); by eapply lookup_lt_Some).
      assert (Hdi : d1 !! i = Some DONE) by (apply Hd; left; apply elem_of_seq; lia).
      destruct (Hslot i o Hi) as [[_ ?]|[Hx _]]; [done|].
      rewrite Hdi in Hx. injection Hx as Hx. by destruct (order_not_done _ _ Hi).
    + apply lookup_ge_None. apply lookup_ge_None in Hi. rewrite (order_length items0 o0 Ho) in Hi. lia.
Qed.

End Cycles.

(** Permuting in place by walking the cycles of the permutation gives what
    taking the elements out in the order of the permutation gives: element [i]
    of the result is the element at [order[i]], for every permutation of the
    indices of a slice of at most [u32::MAX] elements. Neither panics. *)
Theorem apply_permutation_in_place_equiv {A} (items : list A) order :
  is_order (length items) order -> Z.of_nat (length items) <= u32_MAX ->
  apply_permutation_in_place items order = apply_permutation items order /\
  exists l, apply_permutation items order = Done l /\ l ≡ₚ items /\
    forall i o, order !! i = Some o -> l !! i = items !! Z.to_nat o.
Proof.
  intros Ho Hn. rewrite in_place_gathers, apply_permutation_gathers by done. split; [done|].
  eexists. split; [done|]. split; [by apply gather_perm|]. intros i o Hi.
  by rewrite gather_lookup, Hi by by apply order_Forall.
Qed.

Lemma apply_permutation_in_place_equiv_witness :
  is_order (length ["a"; "b"; "c"; "d"; "e"]%char) [2; 0; 1; 4; 3] /\
  apply_permutation_in_place ["a"; "b"; "c"; "d"; "e"]%char [2; 0; 1; 4; 3] =
    apply_permutation ["a"; "b"; "c"; "d"; "e"]%char [2; 0; 1; 4; 3] /\
  exists l, apply_permutation ["a"; "b"; "c"; "d"; "e"]%char [2; 0; 1; 4; 3] = Done l /\
    l ≡ₚ ["a"; "b"; "c"; "d"; "e"]%char /\
    forall i o, [2; 0; 1; 4; 3] !! i = Some o -> l !! i = ["a"; "b"; "c"; "d"; "e"]%char !! Z.to_nat o.
Proof.
  assert (Ho : is_order 5 [2; 0; 1; 4; 3])
    by (unfold is_order; apply (bool_decide_unpack _); vm_compute; exact I).
  split; [exact Ho|].
  apply (apply_permutation_in_place_equiv ["a"; "b"; "c"; "d"; "e"]%char _ Ho).
  vm_compute. discriminate.
Defined.

(** ** The sorts *)

Lemma identity_ok n : Z.of_nat n <= u32_MAX -> identity n = Done (Z.of_nat <$> seq 0 n).
Proof. intros Hn. unfold identity. by rewrite (proj2 (Z.ltb_ge _ _)). Qed.

Lemma gather_fmap {A} (items : list A) (d : A) order :
  Forall (fun o => is_Some (items !! Z.to_nat o)) order ->
  gather items order = (fun o => default d (items !! Z.to_nat o)) <$> order.
Proof.
  induction 1 as [|o order [x Hx] _ IH]; [done|]. unfold gather in *. cbn. rewrite Hx. by f_equal.
Qed.

(** Sorting the indices and gathering is sorting the items. *)
Lemma gather_sort_indices {A} (cmp : A -> A -> comparison) (items : list A) :
  gather items (sort_indices (cmp_at cmp items) (Z.of_nat <$> seq 0 (length items))) =
  sort_by cmp items.
Proof.
  destruct items as [|d rest] eqn:Hitems; [done|]. rewrite <- Hitems. clear Hitems rest.
  set (ids := Z.of_nat <$> seq 0 (length items)).
  assert (Hids : Forall (fun o => is_Some (items !! Z.to_nat o)) ids)
    by apply order_Forall, identity_order.
  unfold sort_indices. rewrite (gather_fmap items d) by by rewrite sort_by_perm.
  rewrite (sort_by_fmap _ cmp).
  - rewrite <- (gather_fmap items d) by done. unfold ids. by rewrite gather_identity.
  - rewrite Forall_forall in Hids. intros x y Hx Hy. unfold cmp_at.
    destruct (Hids x Hx) as [a ->]. by destruct (Hids y Hy) as [b ->].
Qed.

Lemma sort_indices_order {A} (cmp : A -> A -> comparison) (items : list A) :
  is_order (length items) (sort_indices (cmp_at cmp items) (Z.of_nat <$> seq 0 (length items))).
Proof. apply sort_by_perm. Qed.

Lemma sort_by_short {A} (cmp : A -> A -> comparison) (items : list A) :
  (length items < 2)%nat -> sort_by cmp items = items.
Proof. destruct items as [|x [|y l]]; cbn; intros; [done..|lia]. Qed.

(** Sorting through the index array, in place or through a vector of taken
    elements, is the standard library's stable sort of the elements themselves,
    for any comparator and any slice of at most [u32::MAX] elements. *)
Theorem sort_slice_by_equiv {A} (cmp : A -> A -> comparison) (items : list A) :
  Z.of_nat (length items) <= u32_MAX ->
  sort_slice_by cmp items = Done (sort_by cmp items) /\
  sort_vec_by cmp items = Done (sort_by cmp items).
Proof.
  intros Hn. unfold sort_slice_by, sort_vec_by.
  destruct (length items <? 2)%nat eqn:Hlen; bool_facts; [by rewrite sort_by_short|].
  rewrite identity_ok by done. cbn [obind].
  rewrite in_place_gathers, apply_permutation_gathers by (done || apply sort_indices_order).
  by rewrite gather_sort_indices.
Qed.

Lemma sort_slice_by_equiv_witness :
  Z.of_nat (length [(3, 0); (1, 1); (3, 2); (2, 3)]) <= u32_MAX /\
  sort_slice_by (fun a b => fst a ?= fst b) [(3, 0); (1, 1); (3, 2); (2, 3)] =
    Done (sort_by (fun a b => fst a ?= fst b) [(3, 0); (1, 1); (3, 2); (2, 3)]) /\
  sort_vec_by (fun a b => fst a ?= fst b) [(3, 0); (1, 1); (3, 2); (2, 3)] =
    Done (sort_by (fun a b => fst a ?= fst b) [(3, 0); (1, 1); (3, 2); (2, 3)]).
Proof.
  assert (Hn : Z.of_nat (length [(3, 0); (1, 1); (3, 2); (2, 3)]) <= u32_MAX)
    by (vm_compute; discriminate).
  split; [exact Hn|]. exact (sort_slice_by_equiv (fun a b => fst a ?= fst b) _ Hn).
Defined.

Example sort_slice_by_stable :
  sort_slice_by (fun a b => fst a ?= fst b) [(3, 0); (1, 1); (3, 2); (2, 3)] =
  Done [(1, 1); (2, 3); (3, 0); (3, 2)].
Proof. reflexivity. Qed.

#[export] Instance cmp_at_preorder {A} (cmp : A -> A -> comparison) (items : list A) :
  TotalPreorder cmp -> TotalPreorder (cmp_at cmp items).
Proof.
  intros Hcmp. split.
  - intros x y. unfold cmp_at. destruct (items !! Z.to_nat x), (items !! Z.to_nat y); try done.
    apply cmp_antisym, Hcmp.
  - intros x y z. unfold cmp_at.
    destruct (items !! Z.to_nat x), (items !! Z.to_nat y), (items !! Z.to_nat z); try done.
    apply cmp_le_trans, Hcmp.
Qed.

Lemma gather_sorted {A} (cmp : A -> A -> comparison) (items : list A) order :
  StronglySorted (cmp_le (cmp_at cmp items)) order -> is_order (length items) order ->
  StronglySorted (cmp_le cmp) (gather items order).
Proof.
  intros Hs Ho%order_Forall. induction Hs as [|o order Hs IH Hle]; [constructor|].
  apply Forall_cons in Ho as [[x Hx] Ho]. unfold gather in *. cbn. rewrite Hx.
  constructor; [by apply IH|]. apply Forall_forall. intros y Hy.
  apply list_elem_of_omap in Hy as (o' & Ho' & Hy'). rewrite Forall_forall in Hle.
  specialize (Hle o' Ho'). unfold cmp_le, cmp_at in *. by rewrite Hx, Hy' in Hle.
Qed.

(** The unstable sorts return a sorted permutation of the items. *)
Lemma sort_slice_unstable_by_sorts `{UnstableSort} {A} (cmp : A -> A -> comparison) (items : list A) :
  TotalPreorder cmp -> Z.of_nat (length items) <= u32_MAX ->
  exists l, sort_slice_unstable_by cmp items = Done l /\
    sort_vec_unstable_by cmp items = Done l /\
    l ≡ₚ items /\ StronglySorted (cmp_le cmp) l.
Proof.
  intros Hcmp Hn. unfold sort_slice_unstable_by, sort_vec_unstable_by, sort_indices_unstable.
  destruct (length items <? 2)%nat eqn:Hlen; bool_facts.
  - exists items. split_and!; [done..|].
    destruct items as [|x [|y l]]; cbn in Hlen; [constructor| |lia]. by repeat constructor.
  - rewrite identity_ok by done. cbn [obind].
    assert (Ho : is_order (length items)
      (sort_unstable_by (cmp_at cmp items) (Z.of_nat <$> seq 0 (length items))))
      by apply sort_unstable_perm.
    rewrite in_place_gathers, apply_permutation_gathers by done. eexists.
    split; [done|]. split; [done|]. split; [by apply gather_perm|].
    apply gather_sorted; [|done]. apply sort_unstable_sorted. apply _.
Qed.

(** ** The stable partition *)

Lemma partition_loop_spec {A} (pred : A -> bool) n : forall (items a b c : list A),
  items = a ++ b ++ c -> length c = n -> Forall (fun x => pred x = false) b ->
  partition_loop pred (seq (length a + length b) n) items (length a) =
  Done (a ++ List.filter pred c ++ b ++ List.filter (fun x => negb (pred x)) c,
        (length a + length (List.filter pred c))%nat).
Proof.
  induction n as [|n IH]; intros items a b c -> Hc Hb.
  - destruct c; [|done]. cbn. by rewrite !app_nil_r, Nat.add_0_r.
  - destruct c as [|x c]; [done|]. injection Hc as Hc. cbn [seq partition_loop].
    assert (Hx : (a ++ b ++ x :: c) !! (length a + length b)%nat = Some x)
      by (rewrite app_assoc; apply list_lookup_middle; by rewrite length_app).
    unfold item_at. rewrite Nat2Z.id, Hx. cbn [obind List.filter].
    destruct (pred x) eqn:Hp; cbn [negb].
    + unfold rotate_right_1. rewrite Hx. cbn [obind].
      replace (take _ (a ++ _) ++ _) with ((a ++ [x]) ++ b ++ c).
      2:{ rewrite take_app_length, drop_app_length, <- app_assoc. cbn. do 2 f_equal.
          replace (length a + length b - length a)%nat with (length b) by lia.
          rewrite take_app_length. f_equal.
          rewrite (app_assoc a b), drop_app_ge by (rewrite length_app; lia).
          rewrite length_app. by replace (S _ - _)%nat with 1%nat by lia. }
      replace (S (length a)) with (length (a ++ [x])) by (rewrite length_app; cbn; lia).
      replace (S (length a + length b)) with (length (a ++ [x]) + length b)%nat
        by (rewrite length_app; cbn; lia).
      rewrite (IH _ (a ++ [x]) b c) by done. rewrite <- app_assoc, length_app. cbn.
      do 2 f_equal. lia.
    + replace (S (length a + length b)) with (length a + length (b ++ [x]))%nat
        by (rewrite length_app; cbn; lia).
      rewrite (IH _ a (b ++ [x]) c); [by rewrite <- app_assoc|by rewrite <- app_assoc|done|].
      apply Forall_app. by repeat constructor.
Qed.

(** The elements for which [pred] holds come first, both groups in their old
    order; the result is the size of the first group. *)
Lemma stable_partition_spec {A} (pred : A -> bool) (items : list A) :
  stable_partition pred items =
  Done (List.filter pred items ++ List.filter (fun x => negb (pred x)) items,
        length (List.filter pred items)).
Proof.
  exact (partition_loop_spec pred (length items) items [] [] items eq_refl eq_refl (Forall_nil_2 _)).
Qed.
