(* ===== verification/TrustedDependencies.v ===== *)
(** * Default trusted dependencies

    The packages whose install scripts may run unless the user says otherwise:
    [default_trusted_dependencies] of [install/lockfile.rs] with the list it embeds ([install/default-trusted-dependencies.txt]), the
    tokenizer that splits it ([bun_core/string/immutable.rs]), the
    [StaticHashMap] that answers lookups.

    [default_has_iff] composes the tokenizer, the sort, the hash and the table:
    the answer is membership in the embedded list, for every name. *)
From Stdlib Require Import ZArith Lia String Ascii.
From stdpp Require Import base list numbers option sorting gmap fin_maps.
From S2P Require Import Prelude Strings Wyhash SemverString StaticHashMap IndexSort.
#[local] Open Scope Z_scope.

(** ** Splitting at any of a set of bytes *)

Record SplitAnyIterator : Type := mkSplitAny {
  sa_buffer : bytes;
  sa_index : option nat;
  sa_chars : bytes;
}.

Definition split_any (self chars : bytes) : SplitAnyIterator := mkSplitAny self (Some O) chars.

Definition SplitAnyIterator_next (it : SplitAnyIterator) : option (bytes * SplitAnyIterator) :=
  match sa_index it with
  | None => None
  | Some start =>
      match index_of_any (drop start (sa_buffer it)) (sa_chars it) with
      | Some i =>
          Some (sub (sa_buffer it) start (start + i),
                mkSplitAny (sa_buffer it) (Some (start + i + 1)%nat) (sa_chars it))
      | None =>
          Some (sub (sa_buffer it) start (length (sa_buffer it)),
                mkSplitAny (sa_buffer it) None (sa_chars it))
      end
  end.

(** Collects an iterator; a buffer has at most one field more than bytes. *)
Fixpoint collect_any (fuel : nat) (it : SplitAnyIterator) : outcome (list bytes) :=
  match fuel with
  | O => NoFuel
  | S f =>
      match SplitAnyIterator_next it with
      | None => Done []
      | Some (field, it1) => let! l := collect_any f it1 in Done (field :: l)
      end
  end.

Definition tokenize_any (self chars : bytes) : outcome (list bytes) :=
  let! fields := collect_any (S (S (length self))) (split_any self chars) in
  Done (List.filter (fun s => match s with [] => false | _ => true end) fields).

(** ** The embedded list *)

(** The bytes of a literal. *)
Definition literal_bytes (s : string) : bytes :=
  map (fun c => Z.of_N (N_of_ascii c)) (list_ascii_of_string s).

Definition DATA : bytes := literal_bytes
"@airbnb/node-memwatch
@anthropic-ai/claude-code
@apollo/protobufjs
@apollo/rover
@appsignal/nodejs
@arkweid/lefthook
@aws-amplify/cli
@bahmutov/add-typescript-to-cypress
@bazel/concatjs
@bazel/cypress
@bazel/esbuild
@bazel/hide-bazel-files
@bazel/jasmine
@bazel/protractor
@bazel/rollup
@bazel/terser
@bazel/typescript
@bufbuild/buf
@cdktf/node-pty-prebuilt-multiarch
@ckeditor/ckeditor5-vue
@cloudflare/wrangler
@contrast/fn-inspect
@cubejs-backend/cubestore
@cubejs-backend/native
@cypress/snapshot
@danmarshall/deckgl-typings
@datadog/mobile-react-native
@discordjs/opus
@eversdk/lib-node
@evilmartians/lefthook
@ffmpeg-installer/darwin-arm64
@ffmpeg-installer/darwin-x64
@ffmpeg-installer/linux-arm
@ffmpeg-installer/linux-arm64
@ffmpeg-installer/linux-ia32
@ffmpeg-installer/linux-x64
@ffprobe-installer/darwin-arm64
@ffprobe-installer/darwin-x64
@ffprobe-installer/linux-arm
@ffprobe-installer/linux-arm64
@ffprobe-installer/linux-ia32
@ffprobe-installer/linux-x64
@fingerprintjs/fingerprintjs-pro-react
@ghaiklor/x509
@go-task/cli
@injectivelabs/sdk-ts
@instana/autoprofile
@intlify/vue-i18n-bridge
@intlify/vue-router-bridge
@matteodisabatino/gc_info
@memlab/cli
@microsoft.azure/autorest-core
@microsoft/teamsfx-cli
@microsoft/ts-command-line
@napi-rs/pinyin
@nativescript/core
@netlify/esbuild
@newrelic/native-metrics
@notarize/qlc-cli
@nx-dotnet/core
@opensearch-project/oui
@pact-foundation/pact-node
@paloaltonetworks/postman-code-generators
@pdftron/pdfnet-node
@percy/core
@pnpm/exe
@prisma/client
@prisma/engines
@progress/kendo-licensing
@pulumi/aws-native
@pulumi/awsx
@pulumi/command
@pulumi/kubernetes
@railway/cli
@replayio/cypress
@replayio/playwright
@roots/bud-framework
@sap/hana-client
@sap/hana-performance-tools
@sap/hana-theme-vscode
@scarf/scarf
@sematext/gc-stats
@sentry/capacitor
@sentry/profiling-node
@serialport/bindings
@serialport/bindings-cpp
@shopify/ngrok
@shopify/plugin-cloudflare
@sitespeed.io/chromedriver
@sitespeed.io/edgedriver
@softvisio/core
@splunk/otel
@strapi/strapi
@sveltejs/kit
@syncfusion/ej2-angular-base
@taquito/taquito
@temporalio/core-bridge
@tensorflow/tfjs-node
@trufflesuite/bigint-buffer
@typescript-tools/rust-implementation
@vaadin/vaadin-usage-statistics
@vscode/ripgrep
@vscode/sqlite3
abstract-socket
admin-lte
appdynamics
appium-chromedriver
appium-windows-driver
applicationinsights-native-metrics
argon2
autorest
aws-crt
azure-functions-core-tools
azure-streamanalytics-cicd
backport
bcrypt
better-sqlite3
bigint-buffer
blake-hash
bs-platform
bufferutil
bun
canvacord
canvas
cbor-extract
chromedriver
chromium
classic-level
cld
cldr-data
clevertap-react-native
clientjs
cmark-gfm
compresion
contentlayer
contextify
cordova.plugins.diagnostic
couchbase
cpu-features
cwebp-bin
cy2
cypress
dd-trace
deasync
detox
detox-recorder
diskusage
dotnet-2.0.0
dprint
drivelist
dtrace-provider
duckdb
dugite
eccrypto
egg-bin
egg-ci
electron
electron-chromedriver
electron-prebuilt
electron-winstaller
elm
elm-format
esbuild
esoftplay
event-loop-stats
exifreader
farmhash
fast-folder-size
faunadb
ffi
ffi-napi
ffmpeg-static
fibers
fmerge
free-email-domains
fs-xattr
full-icu
gatsby
gc-stats
gcstats.js
geckodriver
gentype
ghooks
gif2webp-bin
gifsicle
git-commit-msg-linter
git-validate
git-win
gl
go-ios
grpc
grpc-tools
handbrake-js
hasura-cli
heapdump
hiredis
hnswlib-node
hugo-bin
hummus
ibm_db
iconv
iedriver
iltorb
incremental-json-parser
install-peers
interruptor
iobroker.js-controller
iso-constants
isolated-vm
java
jest-preview
jpeg-recompress-bin
jpegtran-bin
keccak
kerberos
keytar
lefthook
leveldown
libpg-query
libpq
libxmljs
libxmljs2
lightningcss-cli
lint
lmdb
lmdb-store
local-cypress
lz4
lzma-native
lzo
macos-alias
mbt
memlab
microtime
minidump
mmmagic
modern-syslog
mongodb-client-encryption
mongodb-crypt-library-dummy
mongodb-crypt-library-version
mongodb-memory-server
mozjpeg
ms-chromium-edge-driver
msgpackr-extract
msnodesqlv8
msw
muhammara
netlify-cli
ngrok
ngx-popperjs
nice-napi
node
node-expat
node-hid
node-jq
node-libcurl
node-mac-contacts
node-pty
node-rdkafka
node-sass
node-webcrypto-ossl
node-zopfli
node-zopfli-es
nodegit
nodejieba
nodent-runtime
nx
odiff-bin
oniguruma
opencode-ai
optipng-bin
oracledb
os-dns-native
parse-server
phantomjs
phantomjs-prebuilt
pkcs11js
playwright-chromium
playwright-firefox
playwright-webkit
pngout-bin
pngquant-bin
posix
pprof
pre-commit
pre-push
prisma
protoc
protoc-gen-grpc-web
puppeteer
purescript
re2
react-jsx-parser
react-native-stylex
react-particles
react-tsparticles
react-vertical-timeline-component
realm
redis-memory-server
ref
ref-napi
registry-js
robotjs
sauce-connect-launcher
saucectl
secp256k1
segfault-handler
shared-git-hooks
sharp
simple-git-hooks
sleep
slice2js
snyk
sockopt
sodium-native
sonar-scanner
spago
spectron
spellchecker
sq-native
sqlite3
sse4_crc32
ssh2
storage-engine
subrequests
subrequests-express
subrequests-json-merger
supabase
svf-lib
swagger-ui
swiftlint
taiko
tldjs
tree-sitter
tree-sitter-cli
tree-sitter-json
tree-sitter-kotlin
tree-sitter-typescript
tree-sitter-yaml
truffle
tsparticles-engine
ttag-cli
ttf2woff2
typemoq
unix-dgram
ursa-optional
usb
utf-8-validate
v8-profiler-next
vue-demi
vue-echarts
vue-inbrowser-compiler-demi
wd
wdeasync
weak-napi
webdev-toolkit
windows-build-tools
wix-style-react
wordpos
workerd
wrtc
xxhash
yo
yorkie
zeromq
zlib-sync
zopflipng-bin
".

Definition MAX_DEFAULT_TRUSTED_DEPENDENCIES : Z := 512.

(** [b" \r\n\t"] *)
Definition DATA_SEPARATORS : bytes := [32; 13; 10; 9].

(** [a.cmp(b)] on byte slices. *)
Definition bytes_cmp : bytes -> bytes -> comparison := list_cmp Z.compare.

(** [SemverStringBuilder::string_hash(s) as u32] *)
Definition truncated_hash (s : bytes) : Z := as_u32 (string_hash s).

#[export] Instance TrustedDepHashCtx : HashContext bytes := {|
  ctx_hash := truncated_hash;
  ctx_eql a b := bool_decide (a = b);
  ctx_default := [];
|}.

Section Trusted.
Context `{UnstableSort}.

Definition DEFAULT_TRUSTED_DEPENDENCIES_LIST : outcome (list bytes) :=
  let! names := tokenize_any DATA DATA_SEPARATORS in
  sort_slice_unstable_by bytes_cmp names.

(** The loop that fills the table; [*entry.value_ptr = ()]. *)
Fixpoint fill_map (map : StaticHashMap bytes unit) (deps : list bytes)
    : outcome (StaticHashMap bytes unit) :=
  match deps with
  | [] => Done map
  | dep :: rest =>
      let! (map1, entry) := get_or_put_assume_capacity tt map dep in
      let! map2 := set_value map1 (gp_value_ptr entry) tt in
      fill_map map2 rest
  end.

Definition MAP : outcome (StaticHashMap bytes unit) :=
  let! deps := DEFAULT_TRUSTED_DEPENDENCIES_LIST in
  fill_map (StaticHashMap_default tt MAX_DEFAULT_TRUSTED_DEPENDENCIES) deps.

Definition default_entries : outcome (list (Entry bytes unit)) :=
  let! map := MAP in
  Done (List.filter (fun e => negb (Entry_is_empty e)) (hm_entries map)).

Definition default_has_with_hash (hash : Z) : outcome bool :=
  let! map := MAP in StaticHashMap_has_with_hash map hash.

Fixpoint has_loop (name : bytes) (hash : Z) (es : list (Entry bytes unit)) : outcome bool :=
  match es with
  | [] => Panic
  | entry :: rest =>
      if hash <=? en_hash entry then
        Done ((en_hash entry =? hash) && bool_decide (en_key entry = name))
      else has_loop name hash rest
  end.

Definition default_has (name : bytes) : outcome bool :=
  let hash := truncated_hash name in
  let! map := MAP in
  let! es := slice_from (hm_entries map) (home_slot (hm_shift map) hash) in
  has_loop name hash es.

End Trusted.

(** ** The table holds the list *)

#[export] Instance TrustedDepHashCtx_laws : HashContextLaws bytes.
Proof.
  split; cbn.
  - intros a b. apply bool_decide_eq_true.
  - intros k. unfold truncated_hash, is_u64, as_u32.
    pose proof (Z.mod_pos_bound (string_hash k) two32 eq_refl). unfold two32, two64 in *. lia.
Qed.

Lemma truncated_hash_bound s : 0 <= truncated_hash s < two32.
Proof. apply Z.mod_pos_bound. reflexivity. Qed.

(** A truncated hash has no high bits: its home is the first slot. *)
Lemma truncated_home s :
  home_slot (compute_shift MAX_DEFAULT_TRUSTED_DEPENDENCIES) (truncated_hash s) = O.
Proof.
  pose proof (truncated_hash_bound s) as Hs. unfold home_slot.
  change (compute_shift MAX_DEFAULT_TRUSTED_DEPENDENCIES mod 64) with 55.
  rewrite Z.shiftr_div_pow2, Z.div_small by (unfold two32 in *; lia). done.
Qed.

Lemma truncated_storable s : s <> [] -> storable s.
Proof.
  intros Hs. split; [|done]. cbn. pose proof (truncated_hash_bound s).
  unfold EMPTY_HASH, u64_MAX, two32 in *. lia.
Qed.

(** The tokens of the embedded list. *)
Definition default_names : list bytes :=
  match tokenize_any DATA DATA_SEPARATORS with Done l => l | _ => [] end.

(** What has to be checked of the embedded list itself. *)
Lemma default_names_ok :
  tokenize_any DATA DATA_SEPARATORS = Done default_names /\
  length default_names = 367%nat /\ Forall (fun s => s <> []) default_names /\
  NoDup (truncated_hash <$> default_names).
Proof.
  split; [vm_compute; reflexivity|]. split; [vm_compute; reflexivity|].
  split; apply (bool_decide_unpack _); vm_compute; exact I.
Qed.

#[global] Opaque DATA default_names.

(** Filling inserts every name, as long as their hashes are distinct and slots
    are left. *)
Lemma fill_map_repr deps : forall t m,
  repr tt t m -> sized MAX_DEFAULT_TRUSTED_DEPENDENCIES t ->
  (size m + length deps < 631)%nat -> Forall (fun s => s <> []) deps ->
  NoDup (truncated_hash <$> deps) ->
  (forall k d, is_Some (m !! k) -> d ∈ deps -> truncated_hash k <> truncated_hash d) ->
  exists t' m', fill_map t deps = Done t' /\ repr tt t' m' /\
    sized MAX_DEFAULT_TRUSTED_DEPENDENCIES t' /\
    forall k, is_Some (m' !! k) <-> is_Some (m !! k) \/ k ∈ deps.
Proof.
  induction deps as [|d deps IH]; intros t m Hr [Hs Hl] Hcount Hne Hnd Hdis.
  { exists t, m. split_and!; [done..|]. intros k. split; [by left|].
    intros [|Hk]; [done|]. by apply not_elem_of_nil in Hk. }
  apply Forall_cons in Hne as [Hd Hne]. apply NoDup_cons in Hnd as [Hnin Hnd]. cbn in Hcount.
  assert (Hnone : m !! d = None).
  { apply eq_None_not_Some. intros Hm. by apply (Hdis d d Hm); [left|]. }
  destruct (get_or_put_new tt t m d) as (t1 & i & Hgo & Hr1 & Hi & Hs1 & Hl1); [done| | | |done|].
  - by apply truncated_storable.
  - intros k v Hk Hh. destruct (Hdis k d); [by eexists|left|done].
  - apply (room_of_count tt t m d Hr). rewrite Hs. cbn [ctx_hash TrustedDepHashCtx].
    rewrite truncated_home, Hl. change (Z.to_nat (static_slots MAX_DEFAULT_TRUSTED_DEPENDENCIES)) with 632%nat.
    lia.
  - destruct (set_value_refines tt t1 _ i _ tt Hr1 Hi) as (t2 & Hset & Hr2).
    { apply truncated_storable. done. }
    cbn [fill_map]. rewrite Hgo. cbn [obind gp_value_ptr]. rewrite Hset. cbn [obind].
    cbn [en_key] in Hr2. rewrite insert_insert_eq in Hr2.
    destruct (IH t2 _ Hr2) as (t' & m' & Hfill & Hr' & Hs' & Hm').
    + unfold set_value, slot_at in Hset. rewrite Hi in Hset. injection Hset as <-.
      split; cbn; [congruence|]. rewrite length_insert. congruence.
    + rewrite map_size_insert_None by done. lia.
    + done.
    + done.
    + intros k d' Hk Hd'. apply lookup_insert_is_Some in Hk as [<-|[_ Hk]].
      * intros Heq. apply Hnin. rewrite Heq. by apply list_elem_of_fmap_2.
      * apply Hdis; [done|by right].
    + exists t', m'. split_and!; [done..|]. intros k. rewrite Hm', lookup_insert_is_Some, elem_of_cons.
      destruct (decide (d = k)) as [->|Hk]; [tauto|].
      split; [intros [[?|[_ ?]]|?]|intros [?|[?|?]]]; auto; congruence.
Qed.

#[export] Instance bytes_cmp_preorder : TotalPreorder bytes_cmp.
Proof. unfold bytes_cmp. apply _. Qed.

Section TrustedFacts.
Context `{UnstableSort}.

Lemma DEFAULT_LIST_ok : exists names, DEFAULT_TRUSTED_DEPENDENCIES_LIST = Done names /\
  names ≡ₚ default_names /\ StronglySorted (cmp_le bytes_cmp) names.
Proof.
  destruct default_names_ok as (Htok & Hlen & _). unfold DEFAULT_TRUSTED_DEPENDENCIES_LIST.
  rewrite Htok. cbn [obind].
  destruct (sort_slice_unstable_by_sorts bytes_cmp default_names bytes_cmp_preorder)
    as (l & -> & _ & Hp & Hs); [rewrite Hlen; done|].
  exists l. split; [reflexivity|]. split; assumption.
Qed.

Lemma MAP_ok : exists t m, MAP = Done t /\ repr tt t m /\
  sized MAX_DEFAULT_TRUSTED_DEPENDENCIES t /\
  forall k, is_Some (m !! k) <-> k ∈ default_names.
Proof.
  destruct DEFAULT_LIST_ok as (names & Hnames & Hp & _).
  destruct default_names_ok as (_ & Hlen & Hne & Hnd). unfold MAP. rewrite Hnames. cbn [obind].
  destruct (fill_map_repr names
    (StaticHashMap_default tt MAX_DEFAULT_TRUSTED_DEPENDENCIES) ∅) as (t & m & -> & Hr & Hs & Hm).
  - apply default_repr. exists 9. split; [lia|done].
  - apply default_sized.
  - rewrite map_size_empty, Hp, Hlen. lia.
  - by rewrite Hp.
  - by rewrite Hp.
  - intros k d [v Hv]. by rewrite lookup_empty in Hv.
  - exists t, m. split_and!; [done..|]. intros k. rewrite Hm, Hp, lookup_empty.
    split; [intros [[? ?]|?]; done|by right].
Qed.

Lemma has_loop_stops name h es i k e : es !! k = Some e -> h <= en_hash e -> (i <= k)%nat ->
  (forall j f, (i <= j < k)%nat -> es !! j = Some f -> en_hash f < h) ->
  has_loop name h (drop i es) = Done ((en_hash e =? h) && bool_decide (en_key e = name)).
Proof.
  intros He Hle. remember (k - i)%nat as n eqn:Hn. revert i Hn.
  induction n as [|n IH]; intros i Hn Hik Hb.
  - replace i with k by lia. rewrite (drop_S _ _ _ He). cbn.
    by rewrite (proj2 (Z.leb_le _ _) Hle).
  - destruct (lookup_lt_is_Some_2 es i) as [f Hf]; [apply lookup_lt_Some in He; lia|].
    rewrite (drop_S _ _ _ Hf). cbn.
    rewrite (proj2 (Z.leb_gt _ _)) by (apply (Hb i); [lia|done]).
    apply IH; [lia..|]. intros j g ?. apply Hb. lia.
Qed.

Lemma default_has_spec (name : bytes) :
  default_has name = Done (bool_decide (name ∈ default_names)).
Proof.
  destruct MAP_ok as (t & m & HM & Hr & _ & Hm). unfold default_has. rewrite HM. clear HM. cbn [obind].
  pose proof (rp_table _ _ _ Hr) as Ht. pose proof (truncated_hash_bound name) as Hb.
  assert (Hh : 0 <= truncated_hash name < EMPTY_HASH)
    by (unfold EMPTY_HASH, u64_MAX, two32 in *; lia).
  destruct (scan_stops tt _ _ _ Ht Hh) as (i & e & Hs).
  rewrite (slice_from_stops _ _ _ _ _ Hs). cbn [obind]. pose proof Hs as (Hi & He & Hle & Hbefore).
  rewrite (has_loop_stops name _ _ _ i e) by done. f_equal. apply Bool.eq_iff_eq_true.
  rewrite andb_true_iff, Z.eqb_eq, !bool_decide_eq_true, <- Hm. split.
  - intros [Heq <-]. exists (en_value e). apply (rp_map _ _ _ Hr). exists e.
    split; [unfold full; lia|eauto].
  - intros [v Hv]. apply (rp_map _ _ _ Hr) in Hv as (x & Hxf & (p & Hp) & Hxk & _).
    destruct (tb_full _ _ _ Ht p x Hp Hxf) as [Hxh _]. rewrite Hxk in Hxh. cbn in Hxh.
    pose proof (stops_found tt _ _ _ _ _ Ht Hh Hs p x Hp Hxf Hxh) as ->.
    same_slot He Hp. split; assumption.
Qed.

(** [default_trusted_dependencies::has] answers, for every name, whether the
    name is one of the names of the embedded list: tokenizing, sorting,
    truncating the hashes to 32 bits and looking up in the Robin-Hood table
    lose and add nothing, and the lookup never panics. *)
Theorem default_has_iff (name : bytes) :
  default_has name = Done (bool_decide (name ∈ default_names)) /\
  length default_names = 367%nat.
Proof. split; [apply default_has_spec|apply default_names_ok]. Qed.

(** [has_with_hash] answers whether the hash is that of a listed name. *)
Lemma default_has_with_hash_iff hash : 0 <= hash < two32 ->
  exists b, default_has_with_hash hash = Done b /\
    (b = true <-> exists name, name ∈ default_names /\ truncated_hash name = hash).
Proof.
  intros Hh. destruct MAP_ok as (t & m & HM & Hr & _ & Hm). unfold default_has_with_hash.
  rewrite HM. clear HM. cbn [obind]. destruct (has_with_hash_refines tt t m hash Hr) as (b & -> & Hb).
  { unfold EMPTY_HASH, u64_MAX, two32 in *. lia. }
  exists b. split; [done|]. rewrite Hb. by setoid_rewrite Hm.
Qed.

(** [entries] yields exactly the listed names, each with its truncated hash. *)
Lemma default_entries_iff : exists es, default_entries = Done es /\
  forall name, (exists e, e ∈ es /\ en_key e = name /\ en_hash e = truncated_hash name) <->
    name ∈ default_names.
Proof.
  destruct MAP_ok as (t & m & HM & Hr & _ & Hm). unfold default_entries. rewrite HM. clear HM. cbn [obind].
  eexists. split; [done|]. intros name. rewrite <- Hm.
  pose proof (rp_table _ _ _ Hr) as Ht.
  assert (Hin : forall e, e ∈ List.filter (fun e => negb (Entry_is_empty e)) (hm_entries t) <->
    full e /\ exists i, hm_entries t !! i = Some e).
  { intros e. rewrite list_elem_of_In, List.filter_In, <- list_elem_of_In, list_elem_of_lookup.
    unfold Entry_is_empty, full. rewrite negb_true_iff, Z.eqb_neq. tauto. }
  split.
  - intros (e & He & <- & _). apply Hin in He as [Hf Hi]. exists (en_value e).
    apply (rp_map _ _ _ Hr). eauto 6.
  - intros [v Hv]. apply (rp_map _ _ _ Hr) in Hv as (e & Hf & Hi & Hk & _).
    exists e. rewrite Hin. split; [done|]. split; [done|]. destruct Hi as [i Hi].
    destruct (tb_full _ _ _ Ht i e Hi Hf) as [-> _]. by rewrite Hk.
Qed.

End TrustedFacts.
