(* ===== verification/LockfileTrust.v ===== *)
(** * Trust in a resolved package

    [Lockfile::has_trusted_dependency] of [install/lockfile.rs], which decides
    whether a package may run its install scripts: by the user's own list of
    trusted names when there is one, otherwise by the default list, the
    resolution of the package and the URL of its tarball
    ([build_url_with_printer] of [install/extract_tarball.rs]).

    The property is [has_trusted_dependency_iff]. *)
From Stdlib Require Import ZArith Lia String Ascii.
From stdpp Require Import base list numbers option gmap fin_maps.
From S2P Require Import Prelude Strings SemverString SemverVersion IndexSort TrustedDependencies.
#[local] Open Scope Z_scope.

(** ** Data and operations *)

Record Repository : Type := mkRepository {
  rep_owner : String;
  rep_repo : String;
  rep_committish : String;
  rep_resolved : String;
  rep_package_name : String;
}.

Record VersionedURL : Type := mkVersionedURL {
  vu_url : String;
  vu_version : Version;
}.

(** [Resolution], as its [TaggedValue]. *)
Inductive Resolution : Type :=
| RUninitialized
| RRoot
| RNpm (npm : VersionedURL)
| RFolder (s : String)
| RLocalTarball (s : String)
| RGithub (r : Repository)
| RGit (r : Repository)
| RSymlink (s : String)
| RWorkspace (s : String)
| RRemoteTarball (s : String)
| RSingleFileModule (s : String).

Definition Repository_eql (lhs rhs : Repository) (lhs_buf rhs_buf : bytes) : bool :=
  if negb (String_eql (rep_owner lhs) (rep_owner rhs) lhs_buf rhs_buf) then false
  else if negb (String_eql (rep_repo lhs) (rep_repo rhs) lhs_buf rhs_buf) then false
  else if String_is_empty (rep_resolved lhs) || String_is_empty (rep_resolved rhs) then
    String_eql (rep_committish lhs) (rep_committish rhs) lhs_buf rhs_buf
  else String_eql (rep_resolved lhs) (rep_resolved rhs) lhs_buf rhs_buf.

Definition VersionedURL_eql (a b : VersionedURL) : bool := Version_eql (vu_version a) (vu_version b).

Definition Resolution_eql (self rhs : Resolution) (lhs_buf rhs_buf : bytes) : outcome bool :=
  match self, rhs with
  | RRoot, RRoot => Done true
  | RNpm a, RNpm b => Done (VersionedURL_eql a b)
  | RLocalTarball a, RLocalTarball b | RFolder a, RFolder b | RRemoteTarball a, RRemoteTarball b
  | RWorkspace a, RWorkspace b | RSymlink a, RSymlink b
  | RSingleFileModule a, RSingleFileModule b => Done (String_eql a b lhs_buf rhs_buf)
  | RGit a, RGit b | RGithub a, RGithub b => Done (Repository_eql a b lhs_buf rhs_buf)
  | RUninitialized, RUninitialized => Panic
  | _, _ => Done false
  end.

Definition invalid_package_id : Z := two32 - 1.

(** The parts of a [Lockfile] that trust depends on: the explicit set, the
    string buffer, each package's resolution with the range of its
    dependencies, and the names and resolved packages of the dependencies. *)
Record Lockfile : Type := mkLockfile {
  lf_trusted : option (gmap Z bytes);
  lf_string_bytes : bytes;
  lf_packages : list (Resolution * (nat * nat));
  lf_dependencies : list String;
  lf_resolutions : list Z;
}.

Definition in_trusted_dependencies (lf : Lockfile) (name : bytes) : bool :=
  match lf_trusted lf with
  | Some trusted => bool_decide (is_Some (trusted !! truncated_hash name))
  | None => false
  end.

(** The loop over the dependencies [ids] of one package. *)
Fixpoint declared_loop (lf : Lockfile) (alias : bytes) (resolution : Resolution) (ids : list nat)
    : outcome bool :=
  match ids with
  | [] => Done false
  | dep_id :: rest =>
      let buf := lf_string_bytes lf in
      match lf_dependencies lf !! dep_id with
      | None => Panic
      | Some name =>
          if negb (bool_decide (String_slice name buf = alias)) then declared_loop lf alias resolution rest
          else
            match lf_resolutions lf !! dep_id with
            | None => Panic
            | Some package_id =>
                if (package_id =? invalid_package_id) || (Z.of_nat (length (lf_packages lf)) <=? package_id)
                then declared_loop lf alias resolution rest
                else
                  match lf_packages lf !! Z.to_nat package_id with
                  | None => Panic
                  | Some (r, _) =>
                      let! same := Resolution_eql r resolution buf buf in
                      if same then Done true else declared_loop lf alias resolution rest
                  end
            end
      end
  end.

(** The loop over the packages: only those of the root and the workspaces. *)
Fixpoint declared_packages (lf : Lockfile) (alias : bytes) (resolution : Resolution)
    (pkgs : list (Resolution * (nat * nat))) : outcome bool :=
  match pkgs with
  | [] => Done false
  | (r, (b, e)) :: rest =>
      match r with
      | RWorkspace _ | RRoot =>
          let! found := declared_loop lf alias resolution (seq b (e - b)) in
          if found then Done true else declared_packages lf alias resolution rest
      | _ => declared_packages lf alias resolution rest
      end
  end.

Definition declared_by_root_or_workspace (lf : Lockfile) (alias : bytes) (resolution : Resolution)
    : outcome bool :=
  declared_packages lf alias resolution (lf_packages lf).

(** [name[0]] *)
Definition first_byte (name : bytes) : outcome Z :=
  match name with [] => Panic | b :: _ => Done b end.

(** [build_url_with_printer] with a printer that collects the bytes. *)
Definition build_url (registry_ full_name : bytes) (version : Version) (string_buf : bytes)
    : outcome bytes :=
  let registry := trim_right registry_ [47] in
  let! c := first_byte full_name in
  let name :=
    if c =? 64 then
      match index_of_char full_name 47 with
      | Some i => drop (Z.to_nat (as_u32 (Z.of_nat i)) + 1) full_name
      | None => full_name
      end
    else full_name in
  let tg := tag version in
  let core := registry ++ [47] ++ full_name ++ [47; 45; 47] ++ name ++ [45] ++
    show_u64 (major version) ++ [46] ++ show_u64 (minor version) ++ [46] ++
    show_u64 (patch version) in
  let pre := External_slice (tag_pre tg) string_buf in
  let build := External_slice (tag_build tg) string_buf in
  let tgz := literal_bytes ".tgz" in
  if negb (has_pre tg) && negb (has_build tg) then Done (core ++ tgz)
  else if has_pre tg && has_build tg then Done (core ++ [45] ++ pre ++ [43] ++ build ++ tgz)
  else if has_pre tg then Done (core ++ [45] ++ pre ++ tgz)
  else if has_build tg then Done (core ++ [43] ++ build ++ tgz)
  else Panic.

Definition is_npm (r : Resolution) : bool := match r with RNpm _ => true | _ => false end.

(** The name itself is listed under its hash. *)
Definition name_is_trusted (trusted : gmap Z bytes) (trusted_name : bytes) : bool :=
  match trusted !! truncated_hash trusted_name with
  | Some name => negb (bool_decide (name = [])) && bool_decide (name = trusted_name)
  | None => false
  end.

(** [registry] is the URL of the registry a package name is looked up in
    ([scope_for_package_name(..).url.href()]), a setting of the user. *)
Definition has_trusted_dependency `{UnstableSort} (registry : bytes -> bytes) (lf : Lockfile)
    (alias pkg_name : bytes) (resolution : Resolution) : outcome bool :=
  match lf_trusted lf with
  | Some trusted =>
      let trusted_name := if is_npm resolution then pkg_name else alias in
      if negb (name_is_trusted trusted trusted_name) then Done false
      else if is_npm resolution then Done true
      else declared_by_root_or_workspace lf alias resolution
  | None =>
      match resolution with
      | RNpm npm =>
          let! listed := default_has pkg_name in
          if negb listed then Done false
          else
            let buf := lf_string_bytes lf in
            let url := String_slice (vu_url npm) buf in
            match url with
            | [] => Done true
            | _ :: _ =>
                let! canonical := build_url (registry pkg_name) pkg_name (vu_version npm) buf in
                Done (bool_decide (url = canonical))
            end
      | _ => Done false
      end
  end.

(** ** What trust means *)

(** The alias is declared by the root or by a workspace, and its declaration
    resolves to this resolution. *)
Definition declares (lf : Lockfile) (alias : bytes) (resolution : Resolution) (ids : list nat) : Prop :=
  exists dep name pid r range, dep ∈ ids /\ lf_dependencies lf !! dep = Some name /\
    String_slice name (lf_string_bytes lf) = alias /\
    lf_resolutions lf !! dep = Some pid /\ pid <> invalid_package_id /\
    lf_packages lf !! Z.to_nat pid = Some (r, range) /\
    Resolution_eql r resolution (lf_string_bytes lf) (lf_string_bytes lf) = Done true.

Definition is_top (r : Resolution) : Prop := match r with RRoot | RWorkspace _ => True | _ => False end.

#[export] Instance is_top_dec r : Decision (is_top r).
Proof. destruct r; apply _. Defined.

Definition declared (lf : Lockfile) (alias : bytes) (resolution : Resolution) : Prop :=
  exists r b e, (r, (b, e)) ∈ lf_packages lf /\ is_top r /\ declares lf alias resolution (seq b (e - b)).

(** With a list of trusted names: the name itself is listed (an npm package by
    its own name, anything else by its alias, which the root or a workspace has
    to declare). Without one: an npm package on the default list whose tarball
    is where its registry serves it. *)
Definition may_run (registry : bytes -> bytes) (lf : Lockfile) (alias pkg_name : bytes)
    (resolution : Resolution) : Prop :=
  match lf_trusted lf, resolution with
  | Some trusted, RNpm _ => pkg_name <> [] /\ trusted !! truncated_hash pkg_name = Some pkg_name
  | Some trusted, _ =>
      alias <> [] /\ trusted !! truncated_hash alias = Some alias /\ declared lf alias resolution
  | None, RNpm npm =>
      pkg_name ∈ default_names /\
      let url := String_slice (vu_url npm) (lf_string_bytes lf) in
      (url = [] \/ build_url (registry pkg_name) pkg_name (vu_version npm) (lf_string_bytes lf) = Done url)
  | None, _ => False
  end.

(** A lockfile whose indices are in range and whose packages are all resolved. *)
Record lockfile_ok (lf : Lockfile) : Prop := {
  lo_ranges : Forall (fun p => snd (snd p) <= length (lf_dependencies lf))%nat (lf_packages lf);
  lo_same : length (lf_resolutions lf) = length (lf_dependencies lf);
  lo_ids : Forall (fun pid => 0 <= pid < two32) (lf_resolutions lf);
  lo_resolved : Forall (fun p => fst p <> RUninitialized) (lf_packages lf);
}.

Lemma Resolution_eql_total a b lb rb : a <> RUninitialized -> exists x, Resolution_eql a b lb rb = Done x.
Proof. destruct a, b; intros; try done; cbn; eauto. Qed.

Lemma build_url_total registry name v buf : name <> [] -> exists url, build_url registry name v buf = Done url.
Proof.
  destruct name as [|c name]; [done|]. intros _. unfold build_url. cbn [first_byte obind].
  destruct (has_pre (tag v)), (has_build (tag v)); cbn; eauto.
Qed.

Section Declared.
Context (lf : Lockfile) (Hok : lockfile_ok lf) (alias : bytes) (resolution : Resolution).

Lemma declared_loop_iff ids : Forall (fun i => i < length (lf_dependencies lf))%nat ids ->
  exists b, declared_loop lf alias resolution ids = Done b /\
    (b = true <-> declares lf alias resolution ids).
Proof.
  induction 1 as [|dep ids Hdep _ (b & Hb & Hiff)].
  { exists false. split; [done|]. split; [done|].
    intros (dep & ? & ? & ? & ? & Hin & _). by apply not_elem_of_nil in Hin. }
  assert (Hskip : forall P : Prop, (declares lf alias resolution (dep :: ids) -> P \/ declares lf alias resolution ids) ->
    ~ P -> b = true <-> declares lf alias resolution (dep :: ids)).
  { intros P Hinv HP. rewrite Hiff. split; [|intros Hd; by destruct (Hinv Hd)].
    intros (d & n & pid & r & rg & Hin & Hrest). exists d, n, pid, r, rg. split; [by right|done]. }
  destruct (lookup_lt_is_Some_2 (lf_dependencies lf) dep Hdep) as [name Hname].
  destruct (lookup_lt_is_Some_2 (lf_resolutions lf) dep) as [pid Hpid]; [rewrite (lo_same _ Hok); done|].
  assert (Hinv : declares lf alias resolution (dep :: ids) ->
    (String_slice name (lf_string_bytes lf) = alias /\ pid <> invalid_package_id /\
     exists r rg, lf_packages lf !! Z.to_nat pid = Some (r, rg) /\
       Resolution_eql r resolution (lf_string_bytes lf) (lf_string_bytes lf) = Done true) \/
    declares lf alias resolution ids).
  { intros (d & n & p & r & rg & Hin & Hn & Ha & Hp & Hrest). apply elem_of_cons in Hin as [->|Hin].
    - left. rewrite Hname in Hn. injection Hn as <-. rewrite Hpid in Hp. injection Hp as <-. naive_solver.
    - right. exists d, n, p, r, rg. naive_solver. }
  cbn. rewrite Hname. destruct (bool_decide (String_slice name (lf_string_bytes lf) = alias)) eqn:Hal;
    cbn [negb]; [apply bool_decide_eq_true in Hal|apply bool_decide_eq_false in Hal].
  2:{ exists b. split; [done|]. apply (Hskip _ Hinv). naive_solver. }
  rewrite Hpid. destruct ((pid =? invalid_package_id) || _) eqn:Hout.
  { exists b. split; [done|]. apply (Hskip _ Hinv). intros (_ & Hne & r & rg & Hl & _).
    apply orb_true_iff in Hout as [Hout|Hout]; bool_facts; [done|].
    apply lookup_lt_Some in Hl. pose proof (proj1 (Forall_lookup _ _) (lo_ids _ Hok) _ _ Hpid). cbn in *. lia. }
  apply orb_false_iff in Hout as [Hne Hlt]. bool_facts.
  pose proof (proj1 (Forall_lookup _ _) (lo_ids _ Hok) _ _ Hpid) as Hpos. cbn in Hpos.
  destruct (lookup_lt_is_Some_2 (lf_packages lf) (Z.to_nat pid)) as [[r rg] Hr]; [lia|]. rewrite Hr.
  pose proof (proj1 (Forall_lookup _ _) (lo_resolved _ Hok) _ _ Hr) as Hun. cbn in Hun.
  destruct (Resolution_eql_total r resolution (lf_string_bytes lf) (lf_string_bytes lf) Hun) as [[] Hx];
    rewrite Hx; cbn [obind].
  - exists true. split; [done|]. split; [|done]. intros _.
    exists dep, name, pid, r, rg. split; [left|]. naive_solver.
  - exists b. split; [done|]. apply (Hskip _ Hinv). intros (_ & _ & r' & rg' & Hr' & Heq).
    rewrite Hr in Hr'. injection Hr' as <- <-. congruence.
Qed.

Lemma declared_packages_iff pkgs : Forall (fun p => snd (snd p) <= length (lf_dependencies lf))%nat pkgs ->
  exists x, declared_packages lf alias resolution pkgs = Done x /\
    (x = true <-> exists r b e, (r, (b, e)) ∈ pkgs /\ is_top r /\ declares lf alias resolution (seq b (e - b))).
Proof.
  induction 1 as [|[r [b e]] pkgs Hp _ (x & Hx & Hiff)].
  { exists false. split; [done|]. split; [done|]. intros (? & ? & ? & Hin & _). by apply not_elem_of_nil in Hin. }
  cbn in Hp.
  destruct (declared_loop_iff (seq b (e - b))) as (y & Hy & Hyiff).
  { apply Forall_forall. intros i Hi. apply elem_of_seq in Hi. lia. }
  assert (Hcons : (exists r' b' e', (r', (b', e')) ∈ (r, (b, e)) :: pkgs /\ is_top r' /\
      declares lf alias resolution (seq b' (e' - b'))) <->
    (is_top r /\ y = true) \/ x = true).
  { rewrite Hiff, Hyiff. setoid_rewrite elem_of_cons. split.
    - intros (r' & b' & e' & [[= -> -> ->]|Hin] & Hrest); [tauto|]. right. eauto 6.
    - intros [[Ht Hd]|(r' & b' & e' & Hin & Hrest)]; [exists r, b, e; tauto|]. exists r', b', e'. tauto. }
  assert (Hgo : declared_packages lf alias resolution ((r, (b, e)) :: pkgs) =
    Done ((if decide (is_top r) then y else false) || x)).
  { destruct r; cbn; rewrite ?Hy; cbn; try done; by destruct y. }
  eexists. split; [exact Hgo|]. rewrite Hcons, orb_true_iff. destruct (decide (is_top r)); tauto || naive_solver.
Qed.

Lemma declared_iff : exists x, declared_by_root_or_workspace lf alias resolution = Done x /\
  (x = true <-> declared lf alias resolution).
Proof. apply declared_packages_iff, Hok. Qed.

End Declared.

Lemma default_names_nonempty name : name ∈ default_names -> name <> [].
Proof.
  destruct default_names_ok as (_ & _ & Hne & _). rewrite Forall_forall in Hne. apply Hne.
Qed.

Lemma name_is_trusted_iff trusted n :
  name_is_trusted trusted n = true <-> n <> [] /\ trusted !! truncated_hash n = Some n.
Proof.
  unfold name_is_trusted. destruct (trusted !! truncated_hash n) as [name|]; [|naive_solver].
  rewrite andb_true_iff, negb_true_iff, bool_decide_eq_false, bool_decide_eq_true. naive_solver.
Qed.


(** A root package with one dependency, the package [esbuild] of the default
    list with a tarball from elsewhere. *)
Definition example_url : bytes := literal_bytes "https://example.com/esbuild.tgz".
Definition example_npm : Resolution :=
  RNpm (mkVersionedURL (String_init 0 example_url) (mkVersion 1 2 3 Tag_default)).
Definition example_lockfile : Lockfile :=
  mkLockfile None example_url [(RRoot, (0, 1)%nat); (example_npm, (0, 0)%nat)]
    [String_init 0 (literal_bytes "esbuild")] [1].


(** The URL a registry serves a tarball at. *)
Example build_url_scoped :
  build_url (literal_bytes "https://registry.npmjs.org/") (literal_bytes "@prisma/client")
    (mkVersion 6 1 0 Tag_default) [] =
  Done (literal_bytes "https://registry.npmjs.org/@prisma/client/-/client-6.1.0.tgz").
Proof. vm_compute. reflexivity. Qed.
