(* ===== verification/LinearFifo.v ===== *)
(** * The ring buffer

    [collections/linear_fifo.rs]: a first-in-first-out queue in a buffer of
    fixed size ([StaticBuffer]) or one that grows ([DynamicBuffer]). A slot of
    the buffer is [None] while it is not initialised; a read of such a slot and
    a pointer access outside the buffer, which the source does not check, are
    [Panic] here, so that a theorem that a call is [Done] also says that it
    stays inside the initialised part of the buffer. Slices into the buffer are
    ranges of it. Lengths are naturals: a buffer cannot exceed the address
    space.

    [LinearFifo_run_refines] relates every sequence of calls to a list. *)
From Stdlib Require Import ZArith Lia Arith.
From stdpp Require Import base list numbers option.
From S2P Require Import Prelude.
#[local] Open Scope nat_scope.

(** ** Data *)

(** The associated constants of [LinearFifoBuffer]. *)
Class LinearFifoBuffer : Type := {
  POWERS_OF_TWO : bool;
  DYNAMIC : bool;
}.

Definition StaticBuffer (N : nat) : LinearFifoBuffer := {|
  POWERS_OF_TWO := bool_decide (N <> 0) && (N =? 2 ^ Nat.log2 N);
  DYNAMIC := false;
|}.

Definition DynamicBuffer : LinearFifoBuffer := {|
  POWERS_OF_TWO := true;
  DYNAMIC := true;
|}.

Record LinearFifo (T : Type) : Type := mkLinearFifo {
  ff_buf : list (option T);
  ff_head : nat;
  ff_count : nat;
}.
Arguments mkLinearFifo {T}.
Arguments ff_buf {T}.
Arguments ff_head {T}.
Arguments ff_count {T}.

(** [Result<(), AllocError>] *)
Inductive AllocResult : Type := AllocOk | AllocErr.

Definition PAGE_SIZE_MIN : nat := 4096.

(** ** Slices *)

(** [&buf[a..b]] *)
Definition slice_range {A} (buf : list A) (a b : nat) : outcome (nat * nat) :=
  if (a <=? b) && (b <=? length buf) then Done (a, b) else Panic.

(** [buf[pos..pos + src.len()].copy_from_slice(src)] *)
Definition copy_into {A} (buf : list A) (pos : nat) (src : list A) : list A :=
  take pos buf ++ src ++ drop (pos + length src) buf.

Definition slice_of {A} (buf : list A) (r : nat * nat) : list A := take (r.2 - r.1) (drop r.1 buf).

(** [shift_down_one(&mut buf[a..b])] *)
Definition shift_down_one {A} (buf : list A) (a b : nat) : outcome (list A) :=
  let! (a, b) := slice_range buf a b in
  Done (if 1 <? b - a then copy_into buf a (take (b - a - 1) (drop (S a) buf)) else buf).

(** The value of a slot. *)
Definition read_slot {T} (buf : list (option T)) (i : nat) : outcome T :=
  match buf !! i with Some (Some x) => Done x | _ => Panic end.

Definition write_slot {T} (buf : list (option T)) (i : nat) (x : T) : outcome (list (option T)) :=
  if i <? length buf then Done (<[i := Some x]> buf) else Panic.

(** The items of a slice, all of them initialised. *)
Fixpoint slice_items {T} (l : list (option T)) : outcome (list T) :=
  match l with
  | [] => Done []
  | Some x :: rest => let! xs := slice_items rest in Done (x :: xs)
  | None :: _ => Panic
  end.

Section Fifo.
Context {T : Type} (t_size : nat) {B : LinearFifoBuffer}.
Implicit Types (f : LinearFifo T).

Definition LinearFifo_init (n : nat) : LinearFifo T := mkLinearFifo (replicate n None) 0 0.

Definition buf_len (f : LinearFifo T) : nat := length (ff_buf f).
Definition fifo_capacity (f : LinearFifo T) : nat := length (ff_buf f).

Definition with_buf (f : LinearFifo T) (buf : list (option T)) : LinearFifo T :=
  mkLinearFifo buf (ff_head f) (ff_count f).

Definition reset_head_if_empty (f : LinearFifo T) : LinearFifo T :=
  if ff_count f =? 0 then mkLinearFifo (ff_buf f) 0 (ff_count f) else f.

(** [index &= buf_len - 1] or [index %= buf_len]. The mask of an empty buffer
    has all bits set. *)
Definition ring_index (i n : nat) : outcome nat :=
  if POWERS_OF_TWO then Done (if n =? 0 then i else Nat.land i (n - 1))
  else if n =? 0 then Panic else Done (i mod n).

(** The loop of [realign]: rotates by chunks of what the scratch holds. *)
Fixpoint rotate_loop (fuel tmp_len : nat) (buf : list (option T)) (head : nat)
    : outcome (list (option T)) :=
  match head with
  | O => Done buf
  | S _ =>
      match fuel with
      | O => NoFuel
      | S fu =>
          let n := head `min` tmp_len in
          rotate_loop fu tmp_len (drop n buf ++ take n buf) (head - n)
      end
  end.

Definition realign (f : LinearFifo T) : outcome (LinearFifo T) :=
  let '(mkLinearFifo buf head count) := f in
  if count <=? length buf - head then
    Done (mkLinearFifo (copy_into buf 0 (take count (drop head buf))) 0 count)
  else if t_size =? 0 then Panic
  else
    let! buf1 := rotate_loop head ((PAGE_SIZE_MIN / 2) / t_size) buf head in
    Done (mkLinearFifo buf1 0 count).

(** [size.checked_next_power_of_two()] at 64 bits. *)
Definition checked_next_power_of_two (size : nat) : option nat :=
  if (2 ^ 63 <? Z.of_nat size)%Z then None else Some (2 ^ Nat.log2_up size).

Definition ensure_total_capacity (f : LinearFifo T) (size : nat) : outcome (LinearFifo T * AllocResult) :=
  if size <=? buf_len f then Done (f, AllocOk)
  else if DYNAMIC then
    let! f1 := realign f in
    match (if POWERS_OF_TWO then checked_next_power_of_two size else Some size) with
    | None => Done (f1, AllocErr)
    | Some new_size =>
        let new := replicate new_size None in
        let count := ff_count f1 in
        let new1 := if 0 <? count then copy_into new 0 (take count (ff_buf f1)) else new in
        Done (mkLinearFifo new1 0 count, AllocOk)
    end
  else Done (f, AllocErr).

Definition writable_length (f : LinearFifo T) : nat := buf_len f - ff_count f.
Definition readable_length (f : LinearFifo T) : nat := ff_count f.

Definition ensure_unused_capacity (f : LinearFifo T) (size : nat) : outcome (LinearFifo T * AllocResult) :=
  if size <=? writable_length f then Done (f, AllocOk)
  else if (u64_MAX <? Z.of_nat (ff_count f + size))%Z then Done (f, AllocErr)
  else ensure_total_capacity f (ff_count f + size).

(** [readable_slice] and [readable_slice_mut]; [None] is the empty slice. *)
Definition readable_slice (f : LinearFifo T) (offset : nat) : outcome (option (nat * nat)) :=
  if ff_count f <? offset then Done None
  else
    let start := ff_head f + offset in
    if buf_len f <=? start then
      let start := start - buf_len f in
      let! r := slice_range (ff_buf f) start (start + (ff_count f - offset)) in Done (Some r)
    else
      let stop := (ff_head f + ff_count f) `min` buf_len f in
      let! r := slice_range (ff_buf f) start stop in Done (Some r).

Definition range_or_empty (r : option (nat * nat)) : nat * nat := default (0, 0) r.

Definition discard (f : LinearFifo T) (count : nat) : outcome (LinearFifo T) :=
  let! head := ring_index (ff_head f + count) (buf_len f) in
  Done (mkLinearFifo (ff_buf f) head (ff_count f - count)).

Definition fifo_read_item (f : LinearFifo T) : outcome (LinearFifo T * option T) :=
  if ff_count f =? 0 then Done (f, None)
  else
    let! c := read_slot (ff_buf f) (ff_head f) in
    let! f1 := discard f 1 in
    Done (f1, Some c).

(** The loop of [read], with [dst_left] slots left; the items copied. *)
Fixpoint fifo_read_loop (fuel : nat) (f : LinearFifo T) (dst_left : nat) : outcome (LinearFifo T * list T) :=
  match dst_left with
  | O => Done (f, [])
  | S _ =>
      match fuel with
      | O => NoFuel
      | S fu =>
          let! r := readable_slice f 0 in
          let slice := slice_of (ff_buf f) (range_or_empty r) in
          if length slice =? 0 then Done (f, [])
          else
            let n := length slice `min` dst_left in
            let! xs := slice_items (take n slice) in
            let! f1 := discard f n in
            let! (f2, ys) := fifo_read_loop fu f1 (dst_left - n) in
            Done (f2, xs ++ ys)
      end
  end.

Definition fifo_read (f : LinearFifo T) (dst_len : nat) : outcome (LinearFifo T * list T) :=
  fifo_read_loop (S dst_len) f dst_len.

Definition writable_slice (f : LinearFifo T) (offset : nat) : outcome (nat * nat) :=
  if buf_len f <? offset then Done (0, 0)
  else
    let tail := ff_head f + offset + ff_count f in
    if tail <? buf_len f then slice_range (ff_buf f) tail (buf_len f)
    else if writable_length f <? offset then Panic
    else
      let start := tail - buf_len f in
      slice_range (ff_buf f) start (start + (writable_length f - offset)).

Definition fifo_update (f : LinearFifo T) (count : nat) : LinearFifo T :=
  mkLinearFifo (ff_buf f) (ff_head f) (ff_count f + count).

(** The range of [size] slots that the caller may fill. *)
Definition writable_with_size (f : LinearFifo T) (size : nat)
    : outcome (LinearFifo T * option (nat * nat)) :=
  let! (f1, r) := ensure_unused_capacity f size in
  match r with
  | AllocErr => Done (f1, None)
  | AllocOk =>
      let! w := writable_slice f1 0 in
      let! f2 := if (w.2 - w.1) <? size then realign f1 else Done f1 in
      let! w2 := writable_slice f2 0 in
      if (w2.2 - w2.1) <? size then Panic else Done (f2, Some (w2.1, w2.1 + size))
  end.

Fixpoint write_loop (fuel : nat) (f : LinearFifo T) (src_left : list T) : outcome (LinearFifo T) :=
  match src_left with
  | [] => Done f
  | _ :: _ =>
      match fuel with
      | O => NoFuel
      | S fu =>
          let! w := writable_slice f 0 in
          let n := (w.2 - w.1) `min` length src_left in
          let f1 := with_buf f (copy_into (ff_buf f) w.1 (Some <$> take n src_left)) in
          write_loop fu (fifo_update f1 n) (drop n src_left)
      end
  end.

Definition write_assume_capacity (f : LinearFifo T) (src : list T) : outcome (LinearFifo T) :=
  write_loop (S (length src)) f src.

Definition write_item_assume_capacity (f : LinearFifo T) (item : T) : outcome (LinearFifo T) :=
  let! tail := ring_index (ff_head f + ff_count f) (buf_len f) in
  let! buf := write_slot (ff_buf f) tail item in
  Done (fifo_update (with_buf f buf) 1).

Definition fifo_write_item (f : LinearFifo T) (item : T) : outcome (LinearFifo T * AllocResult) :=
  let! (f1, r) := ensure_unused_capacity f 1 in
  match r with
  | AllocErr => Done (f1, AllocErr)
  | AllocOk => let! f2 := write_item_assume_capacity f1 item in Done (f2, AllocOk)
  end.

Definition fifo_write (f : LinearFifo T) (src : list T) : outcome (LinearFifo T * AllocResult) :=
  let! (f1, r) := ensure_unused_capacity f (length src) in
  match r with
  | AllocErr => Done (f1, AllocErr)
  | AllocOk => let! f2 := write_assume_capacity f1 src in Done (f2, AllocOk)
  end.

Definition rewind (f : LinearFifo T) (count : nat) : outcome (LinearFifo T) :=
  let! head := ring_index (ff_head f + (buf_len f - count)) (buf_len f) in
  Done (mkLinearFifo (ff_buf f) head (ff_count f + count)).

(** [s[..n].copy_from_slice(..)] into a range of the buffer; a panic when the
    range is too short. *)
Definition copy_to_range (f : LinearFifo T) (r : nat * nat) (src : list T) : outcome (LinearFifo T) :=
  if (r.2 - r.1) <? length src then Panic
  else Done (with_buf f (copy_into (ff_buf f) r.1 (Some <$> src))).

Definition unget (f : LinearFifo T) (src : list T) : outcome (LinearFifo T * AllocResult) :=
  let! (f1, r) := ensure_unused_capacity f (length src) in
  match r with
  | AllocErr => Done (f1, AllocErr)
  | AllocOk =>
      let! f2 := rewind f1 (length src) in
      let! s := readable_slice f2 0 in
      let s := range_or_empty s in
      let slice_len := s.2 - s.1 in
      let! f3 := copy_to_range f2 s (take (slice_len `min` length src) src) in
      if slice_len <? length src then
        let! s2 := readable_slice f3 slice_len in
        let! f4 := copy_to_range f3 (range_or_empty s2) (drop slice_len src) in
        Done (f4, AllocOk)
      else Done (f3, AllocOk)
  end.

Definition peek_item (f : LinearFifo T) (offset : nat) : outcome T :=
  let! index := ring_index (ff_head f + offset) (buf_len f) in
  read_slot (ff_buf f) index.

(** [*peek_item_mut(offset) = x] *)
Definition poke_item (f : LinearFifo T) (offset : nat) (x : T) : outcome (LinearFifo T) :=
  let! index := ring_index (ff_head f + offset) (buf_len f) in
  let! buf := write_slot (ff_buf f) index x in
  Done (with_buf f buf).

Definition ordered_remove_item (f : LinearFifo T) (offset : nat) : outcome (LinearFifo T) :=
  if offset =? 0 then discard f 1
  else
    let n := buf_len f in
    let head := ff_head f in
    let count := ff_count f in
    let! buf1 :=
      if count <=? n - head then shift_down_one (ff_buf f) (head + offset) n
      else
        let! index := ring_index (head + offset) n in
        let wrap_len := head + count - n in
        if index <? head then shift_down_one (ff_buf f) index wrap_len
        else
          let! wrap := read_slot (ff_buf f) 0 in
          let! b1 := shift_down_one (ff_buf f) index n in
          let! b2 := write_slot b1 (n - 1) wrap in
          shift_down_one b2 0 wrap_len in
    Done (mkLinearFifo buf1 head (count - 1)).

End Fifo.

(** ** The ring *)

(** What the kinds of buffer promise. *)
Class LinearFifoBufferLaws (B : LinearFifoBuffer) : Prop := {
  dynamic_powers : DYNAMIC = true -> POWERS_OF_TWO = true;
}.

#[export] Instance StaticBuffer_laws N : LinearFifoBufferLaws (StaticBuffer N).
Proof. by split. Qed.
#[export] Instance DynamicBuffer_laws : LinearFifoBufferLaws DynamicBuffer.
Proof. by split. Qed.

(** The slot of the [i]-th item of a ring of [n] slots. *)
Definition slot (head n i : nat) : nat := if head + i <? n then head + i else head + i - n.

(** Arithmetic of slots. *)
Ltac slot_lia :=
  unfold slot in *;
  repeat match goal with
  | |- context [?a <? ?b] => destruct (Nat.ltb_spec a b)
  | H : context [?a <? ?b] |- _ => destruct (Nat.ltb_spec a b)
  end; lia.

Lemma length_copy_into {A} (buf : list A) pos src : pos + length src <= length buf ->
  length (copy_into buf pos src) = length buf.
Proof. intros. unfold copy_into. len. lia. Qed.

Lemma lookup_copy_into {A} (buf : list A) pos src j : pos + length src <= length buf ->
  copy_into buf pos src !! j =
    if decide (pos <= j < pos + length src) then src !! (j - pos) else buf !! j.
Proof.
  intros Hle. unfold copy_into. destruct (decide (pos <= j < pos + length src)) as [Hin|Hout].
  - rewrite lookup_app_r by (rewrite length_take; lia). rewrite length_take, Nat.min_l by lia.
    by rewrite lookup_app_l by lia.
  - destruct (decide (j < pos)).
    + rewrite lookup_app_l by (rewrite length_take; lia). by rewrite lookup_take_lt.
    + rewrite lookup_app_r by (rewrite length_take; lia). rewrite length_take, Nat.min_l by lia.
      rewrite lookup_app_r by lia. rewrite lookup_drop. f_equal. lia.
Qed.

Section Ring.
Context {T : Type} (t_size : nat) {B : LinearFifoBuffer} {HB : LinearFifoBufferLaws B}.
Implicit Types (f : LinearFifo T) (l : list T).

(** The representation invariant: no more items than slots, the head inside
    the buffer, a size that the masking of indices is right for. *)
Record fifo_ok (f : LinearFifo T) : Prop := {
  fk_count : ff_count f <= buf_len f;
  fk_head : ff_head f < buf_len f \/ (buf_len f = 0 /\ ff_head f = 0);
  fk_zero : buf_len f = 0 -> POWERS_OF_TWO = true;
  fk_pow : POWERS_OF_TWO = true -> buf_len f = 0 \/ exists k, buf_len f = 2 ^ k;
  fk_size : DYNAMIC = true -> (Z.of_nat (buf_len f) <= 2 ^ 63)%Z;
}.

(** The buffer holds the items [l], in order. *)
Record holds (f : LinearFifo T) (l : list T) : Prop := {
  hd_ok : fifo_ok f;
  hd_count : ff_count f = length l;
  hd_slot : forall i x, l !! i = Some x ->
    ff_buf f !! slot (ff_head f) (buf_len f) i = Some (Some x);
}.

Lemma holds_le f l : holds f l -> length l <= buf_len f.
Proof. intros [[? _ _ _ _] <- _]. done. Qed.

Lemma ring_index_slot f i : fifo_ok f -> i <= buf_len f ->
  ring_index (ff_head f + i) (buf_len f) = Done (slot (ff_head f) (buf_len f) i).
Proof.
  intros [_ Hh Hz Hp _] Hi. unfold ring_index.
  assert (Hmod : 0 < buf_len f -> (ff_head f + i) mod buf_len f = slot (ff_head f) (buf_len f) i).
  { intros Hn. unfold slot. destruct (Nat.ltb_spec (ff_head f + i) (buf_len f)).
    - by apply Nat.mod_small.
    - symmetry. apply (Nat.mod_unique _ _ 1); lia. }
  destruct POWERS_OF_TWO eqn:HP.
  - destruct (Nat.eqb_spec (buf_len f) 0) as [Hn|Hn]; f_equal; [slot_lia|].
    rewrite <- Hmod by lia. destruct (Hp eq_refl) as [?|[k Hk]]; [done|].
    rewrite Hk. replace (2 ^ k - 1) with (Nat.ones k); [apply Nat.land_ones|].
    rewrite Nat.ones_equiv. lia.
  - destruct (Nat.eqb_spec (buf_len f) 0) as [Hn|Hn]; [by specialize (Hz Hn)|].
    by rewrite Hmod by lia.
Qed.

Lemma slot_bound f i : fifo_ok f -> i < buf_len f -> slot (ff_head f) (buf_len f) i < buf_len f.
Proof. intros [_ Hh _ _ _] Hi. slot_lia. Qed.

(** Changing the head, the count and the slots of a ring, but not its size. *)
Lemma fifo_ok_same f f' : fifo_ok f -> buf_len f' = buf_len f ->
  ff_count f' <= buf_len f -> ff_head f' < buf_len f \/ (buf_len f = 0 /\ ff_head f' = 0) ->
  fifo_ok f'.
Proof. intros [? ? ? ? ?] Hl ? ?. split; rewrite ?Hl; done. Qed.

(** ** Reading *)

Lemma discard_holds f l c : holds f l -> c <= length l ->
  exists f', discard f c = Done f' /\ holds f' (drop c l) /\ buf_len f' = buf_len f.
Proof.
  intros Hr Hc. pose proof (holds_le f l Hr) as Hle. destruct Hr as [Hok Hn Hs].
  unfold discard. rewrite ring_index_slot by (done || lia). eexists. split; [done|].
  split; [|done]. assert (Hh := fk_head _ Hok). split; cbn [ff_head ff_count ff_buf].
  - pose proof (fk_count _ Hok). apply (fifo_ok_same f); cbn; [done|done|lia|slot_lia].
  - rewrite length_drop. lia.
  - intros i x Hi. rewrite lookup_drop in Hi. pose proof (lookup_lt_Some _ _ _ Hi).
    rewrite <- (Hs _ _ Hi). unfold buf_len in *. cbn. f_equal. slot_lia.
Qed.

Lemma read_item_holds f l : holds f l ->
  exists f', fifo_read_item f = Done (f', head l) /\ holds f' (tail l) /\ buf_len f' = buf_len f.
Proof.
  intros Hr. unfold fifo_read_item. rewrite (hd_count _ _ Hr). destruct l as [|x l]; cbn.
  { by exists f. }
  pose proof (hd_slot _ _ Hr 0 x eq_refl) as H0. pose proof (holds_le _ _ Hr) as Hle. cbn in Hle.
  assert (Hhead : slot (ff_head f) (buf_len f) 0 = ff_head f)
    by (pose proof (fk_head _ (hd_ok _ _ Hr)); slot_lia).
  rewrite Hhead in H0. unfold read_slot. rewrite H0. cbn [obind].
  destruct (discard_holds f (x :: l) 1 Hr) as (f' & -> & Hr' & Hl); [cbn; lia|]. by exists f'.
Qed.

Lemma peek_item_holds f l i x : holds f l -> l !! i = Some x -> peek_item f i = Done x.
Proof.
  intros Hr Hi. pose proof (holds_le _ _ Hr). pose proof (lookup_lt_Some _ _ _ Hi).
  unfold peek_item. rewrite ring_index_slot by (apply Hr || lia). cbn [obind].
  unfold read_slot. by rewrite (hd_slot _ _ Hr i x Hi).
Qed.

(** The items of a range of the buffer. *)
Lemma slice_of_items (buf : list (option T)) a b l : length l = b - a ->
  (forall i x, l !! i = Some x -> buf !! (a + i) = Some (Some x)) ->
  b <= length buf -> slice_of buf (a, b) = Some <$> l.
Proof.
  intros Hl Hs Hb. apply list_eq. intros i. unfold slice_of. cbn. rewrite list_lookup_fmap.
  destruct (decide (i < b - a)) as [Hi|Hi].
  - rewrite lookup_take_lt, lookup_drop by done.
    destruct (lookup_lt_is_Some_2 l i ltac:(lia)) as [x Hx]. rewrite Hx. by apply Hs.
  - rewrite (proj2 (lookup_ge_None l i)) by lia. apply lookup_ge_None. len. lia.
Qed.

Lemma slice_items_fmap l : slice_items (Some <$> l) = Done l.
Proof. induction l as [|x l IH]; [done|]. cbn. by rewrite IH. Qed.

(** The first contiguous run of items. *)
Lemma readable_slice_head f l : holds f l ->
  exists a b, readable_slice f 0 = Done (Some (a, b)) /\ b - a <= length l /\
    slice_of (ff_buf f) (a, b) = Some <$> take (b - a) l /\ b - a = length (take (b - a) l) /\
    (l <> [] -> 0 < b - a).
Proof.
  intros Hr. pose proof (holds_le _ _ Hr) as Hle. destruct Hr as [Hok Hn Hs].
  pose proof (fk_head _ Hok) as Hh. unfold readable_slice. cbn [Nat.ltb Nat.leb].
  rewrite Nat.add_0_r, Nat.sub_0_r, Hn. destruct (Nat.leb_spec (buf_len f) (ff_head f)) as [Hb|Hb].
  - assert (l = []) as -> by (destruct l; [done|cbn in *; lia]).
    assert (ff_head f - buf_len f = 0) as -> by lia. cbn. unfold slice_range. cbn.
    exists 0, 0. split; [done|]. split; [done|]. split; [done|]. done.
  - unfold slice_range. rewrite (proj2 (andb_true_iff _ _))
      by (rewrite !Nat.leb_le; unfold buf_len in *; lia).
    do 2 eexists. split; [done|]. set (k := (ff_head f + length l) `min` buf_len f - ff_head f).
    assert (Hk : k <= length l) by lia. split; [done|].
    split; [apply slice_of_items|split; [len; lia|]].
    + len. lia.
    + intros i x Hi. pose proof (lookup_lt_Some _ _ _ Hi) as Hik. rewrite length_take in Hik.
      rewrite lookup_take_lt in Hi by lia. rewrite <- (Hs i x Hi). f_equal. slot_lia.
    + unfold buf_len. lia.
    + intros Hne.
      assert (0 < length l) by (destruct l; [done|cbn; lia]). lia.
Qed.

Lemma fifo_read_loop_holds fuel : forall f l n, holds f l -> n <= fuel ->
  exists f', fifo_read_loop fuel f n = Done (f', take n l) /\ holds f' (drop n l) /\ buf_len f' = buf_len f.
Proof.
  induction fuel as [|fuel IH]; intros f l n Hr Hn; destruct n as [|n]; cbn [fifo_read_loop];
    try (by exists f); [lia|].
  destruct (readable_slice_head f l Hr) as (a & b & -> & Hle & Hsl & Hlen & Hne). cbn [obind].
  change (range_or_empty (Some (a, b))) with (a, b).
  rewrite Hsl, length_fmap, <- Hlen.
  destruct (Nat.eqb_spec (b - a) 0) as [H0|H0].
  { destruct l; [|by specialize (Hne ltac:(done)); lia]. by exists f. }
  set (k := (b - a) `min` S n). rewrite <- fmap_take, take_take, slice_items_fmap. cbn [obind].
  replace (k `min` (b - a)) with k by lia.
  destruct (discard_holds f l k Hr) as (f1 & -> & Hr1 & Hl1); [lia|]. cbn [obind].
  destruct (IH f1 (drop k l) (S n - k) Hr1) as (f2 & Hgo & Hr2 & Hl2); [lia|].
  rewrite Hgo. cbn [obind]. exists f2. rewrite drop_drop in Hr2.
  replace (k + (S n - k)) with (S n) in * by lia. split; [|split; [done|lia]].
  do 2 f_equal. rewrite take_take_drop. f_equal. lia.
Qed.

(** ** Making room *)

Lemma rotate_loop_rotates tmp_len fuel : 0 < tmp_len ->
  forall (buf : list (option T)) head, head <= length buf -> head <= fuel ->
  rotate_loop fuel tmp_len buf head = Done (drop head buf ++ take head buf).
Proof.
  intros Ht. induction fuel as [|fuel IH]; intros buf head Hh Hf;
    destruct head as [|head]; cbn [rotate_loop]; try (by rewrite drop_0, take_0, app_nil_r); [lia|].
  set (n := S head `min` tmp_len). rewrite IH by (len; lia). f_equal.
  rewrite drop_app_le, take_app_le by (len; lia). rewrite drop_drop, <- app_assoc.
  replace (n + (S head - n)) with (S head) by lia. f_equal.
  rewrite take_take_drop. f_equal. lia.
Qed.

(** The size of an item allows the scratch to hold one. *)
Context (Hsize : 0 < t_size <= PAGE_SIZE_MIN / 2).

Lemma realign_holds f l : holds f l ->
  exists f', realign t_size f = Done f' /\ holds f' l /\ buf_len f' = buf_len f /\ ff_head f' = 0.
Proof.
  intros Hr. pose proof (holds_le _ _ Hr) as Hle. destruct Hr as [Hok Hn Hs].
  pose proof (fk_head _ Hok) as Hh. pose proof (fk_count _ Hok) as Hcount.
  assert (Hfin : forall buf', length buf' = buf_len f ->
    (forall i x, l !! i = Some x -> buf' !! i = Some (Some x)) ->
    holds (mkLinearFifo buf' 0 (ff_count f)) l).
  { intros buf' Hl Hb. split; [|done|].
    - apply (fifo_ok_same f); cbn; [done..|]. lia.
    - intros i x Hi. cbn. rewrite <- (Hb i x Hi). pose proof (lookup_lt_Some _ _ _ Hi).
      unfold buf_len in *. cbn. f_equal. slot_lia. }
  unfold realign. destruct f as [buf head count]. unfold buf_len in *. cbn in *.
  destruct (Nat.leb_spec count (length buf - head)) as [Hc|Hc].
  - assert (Hlen : length (take count (drop head buf)) = count) by (len; lia).
    eexists. split; [done|]. assert (Hbl : length (copy_into buf 0 (take count (drop head buf))) = length buf)
      by (apply length_copy_into; lia).
    split; [|done]. apply Hfin; [done|]. intros i x Hi. pose proof (lookup_lt_Some _ _ _ Hi).
    rewrite lookup_copy_into, decide_True by lia. rewrite Nat.sub_0_r, lookup_take_lt, lookup_drop by lia.
    rewrite <- (Hs i x Hi). f_equal. slot_lia.
  - destruct (Nat.eqb_spec t_size 0); [destruct Hsize; lia|].
    assert (Htmp : 0 < PAGE_SIZE_MIN / 2 / t_size) by apply Nat.div_str_pos, Hsize.
    rewrite rotate_loop_rotates by (done || lia). cbn [obind]. eexists. split; [done|].
    assert (Hbl : length (drop head buf ++ take head buf) = length buf) by (len; lia).
    split; [|done]. apply Hfin; [done|]. intros i x Hi. pose proof (lookup_lt_Some _ _ _ Hi).
    rewrite <- (Hs i x Hi). destruct (decide (i < length buf - head)).
    + rewrite lookup_app_l, lookup_drop by (len; lia). f_equal. slot_lia.
    + rewrite lookup_app_r by (len; lia). rewrite length_drop, lookup_take_lt by lia. f_equal. slot_lia.
Qed.

(** The number of items that fit: the size of a static buffer, the largest
    power of two of a dynamic one. *)
Definition fits (f : LinearFifo T) (n : nat) : Prop :=
  n <= buf_len f \/ (DYNAMIC = true /\ (Z.of_nat n <= 2 ^ 63)%Z).

Lemma power_ge size : size <= 2 ^ Nat.log2_up size.
Proof.
  destruct (decide (1 < size)) as [Hs|Hs]; [by apply Nat.log2_up_spec|].
  pose proof (Nat.pow_nonzero 2 (Nat.log2_up size)). lia.
Qed.

(** The power of two above a size is bounded by every power that bounds the size. *)
Lemma power_bound size b : (Z.of_nat size <= 2 ^ Z.of_nat b)%Z ->
  (Z.of_nat (2 ^ Nat.log2_up size) <= 2 ^ Z.of_nat b)%Z.
Proof.
  intros Hs. rewrite Nat2Z.inj_pow. apply Z.pow_le_mono_r; [lia|]. apply inj_le.
  destruct (decide (size = 0)) as [->|Hne]; [cbn; lia|].
  apply Nat.log2_up_le_pow2; [lia|]. apply Nat2Z.inj_le. by rewrite Nat2Z.inj_pow.
Qed.

Lemma ensure_total_holds f l size : holds f l -> length l <= size ->
  exists f' r, ensure_total_capacity t_size f size = Done (f', r) /\ holds f' l /\
    (DYNAMIC = false -> buf_len f' = buf_len f) /\
    match r with AllocOk => fits f size /\ size <= buf_len f' | AllocErr => ~ fits f size end.
Proof.
  intros Hr Hle. unfold ensure_total_capacity, fits.
  destruct (Nat.leb_spec size (buf_len f)) as [Hs|Hs]; [exists f, AllocOk; auto 6|].
  destruct DYNAMIC eqn:HD.
  2:{ exists f, AllocErr. split_and!; [done..|]. intros [?|[? _]]; [lia|done]. }
  destruct (realign_holds f l Hr) as (f1 & -> & Hr1 & Hl1 & Hh1). cbn [obind].
  rewrite (dynamic_powers HD). unfold checked_next_power_of_two.
  destruct (Z.ltb_spec (2 ^ 63) (Z.of_nat size)) as [Hbig|Hsmall].
  { exists f1, AllocErr. split_and!; [done..|]. intros [?|[_ ?]]; lia. }
  set (new := replicate (2 ^ Nat.log2_up size) (None (A := T))).
  pose proof (power_ge size) as Hp. pose proof (power_bound size 63 Hsmall) as Hpb.
  assert (Hnew : length new = 2 ^ Nat.log2_up size) by apply length_replicate.
  rewrite (hd_count _ _ Hr1). pose proof (holds_le _ _ Hr1) as Hle1.
  set (new1 := if 0 <? length l then _ else _).
  assert (Htake : length (take (length l) (ff_buf f1)) = length l)
    by (len; unfold buf_len in *; lia).
  assert (Hlen : length new1 = 2 ^ Nat.log2_up size).
  { subst new1. case_if; [|done]. rewrite length_copy_into by lia. done. }
  do 2 eexists. split; [done|]. split; [|split; [done|]].
  2:{ unfold buf_len. cbn. rewrite Hlen. split; [by right|done]. }
  split; cbn; [|done|].
  - split; cbn; unfold buf_len; cbn; rewrite ?Hlen; try done.
    + lia.
    + pose proof (Nat.pow_nonzero 2 (Nat.log2_up size)). lia.
    + intros _. by apply dynamic_powers.
    + intros _. right. by eexists.
  - intros i x Hi. pose proof (lookup_lt_Some _ _ _ Hi) as Hil. unfold buf_len. cbn. rewrite Hlen.
    replace (slot 0 (2 ^ Nat.log2_up size) i) with i by slot_lia.
    subst new1. rewrite (proj2 (Nat.ltb_lt _ _)) by lia.
    rewrite lookup_copy_into, decide_True by lia. rewrite Nat.sub_0_r, lookup_take_lt by lia.
    rewrite <- (hd_slot _ _ Hr1 i x Hi), Hh1. f_equal. slot_lia.
Qed.

Lemma ensure_unused_holds f l size : holds f l ->
  exists f' r, ensure_unused_capacity t_size f size = Done (f', r) /\ holds f' l /\
    (DYNAMIC = false -> buf_len f' = buf_len f) /\
    match r with
    | AllocOk => fits f (length l + size) /\ length l + size <= buf_len f'
    | AllocErr => ~ fits f (length l + size)
    end.
Proof.
  intros Hr. unfold ensure_unused_capacity, writable_length. rewrite (hd_count _ _ Hr).
  pose proof (holds_le _ _ Hr) as Hle.
  destruct (Nat.leb_spec size (buf_len f - length l)) as [Hs|Hs].
  { exists f, AllocOk. split; [done|]. split; [done|]. split; [done|].
    split; [left; lia|lia]. }
  destruct (Z.ltb_spec u64_MAX (Z.of_nat (length l + size))) as [Hbig|Hsmall].
  - exists f, AllocErr. split_and!; [done..|]. unfold fits, u64_MAX in *. intros [?|[_ ?]]; lia.
  - apply ensure_total_holds; [done|lia].
Qed.

(** ** Writing *)

(** A ring of the same size in which the items of [l'] are in their slots. *)
Lemma holds_update f l f' l' : holds f l -> buf_len f' = buf_len f ->
  ff_count f' = length l' -> length l' <= buf_len f ->
  ff_head f' < buf_len f \/ (buf_len f = 0 /\ ff_head f' = 0) ->
  (forall i x, l' !! i = Some x -> ff_buf f' !! slot (ff_head f') (buf_len f) i = Some (Some x)) ->
  holds f' l'.
Proof.
  intros Hr Hl Hc Hle Hh Hs. split; [|done|by rewrite Hl].
  apply (fifo_ok_same f); [apply Hr|done|by rewrite Hc|done].
Qed.

Lemma write_item_assume_holds f l x : holds f l -> length l < buf_len f ->
  exists f', write_item_assume_capacity f x = Done f' /\ holds f' (l ++ [x]) /\ buf_len f' = buf_len f.
Proof.
  intros Hr Hlt. pose proof (hd_ok _ _ Hr) as Hok. pose proof (fk_head _ Hok) as Hh.
  unfold write_item_assume_capacity. rewrite (hd_count _ _ Hr).
  rewrite ring_index_slot by (done || lia). cbn [obind]. unfold write_slot.
  rewrite (proj2 (Nat.ltb_lt _ _)) by (apply slot_bound; done || lia). cbn [obind].
  eexists. split; [done|]. unfold fifo_update, with_buf. cbn.
  assert (Hbl : length (<[slot (ff_head f) (buf_len f) (length l) := Some x]> (ff_buf f)) = buf_len f)
    by apply length_insert.
  split; [|done]. apply (holds_update f l); cbn; [done..| | | |].
  - rewrite (hd_count _ _ Hr). len. lia.
  - len. lia.
  - done.
  - intros i y Hi. apply lookup_snoc_Some in Hi as [[Hi Hy]|[-> <-]].
    + rewrite list_lookup_insert_ne by slot_lia. by apply Hr.
    + apply list_lookup_insert_eq. by apply slot_bound.
Qed.

(** The first free range, and what filling it from its start does. *)
Lemma writable_slice_chunk f l src : holds f l -> length l + length src <= buf_len f ->
  exists a b, writable_slice f 0 = Done (a, b) /\ (src <> [] -> 0 < b - a) /\
    forall k, k <= (b - a) `min` length src ->
      holds (fifo_update (with_buf f (copy_into (ff_buf f) a (Some <$> take k src))) k) (l ++ take k src) /\
      length (copy_into (ff_buf f) a (Some <$> take k src)) = buf_len f.
Proof.
  intros Hr Hroom. pose proof (hd_ok _ _ Hr) as Hok. pose proof (fk_head _ Hok) as Hh.
  set (a := slot (ff_head f) (buf_len f) (length l)).
  set (b := if ff_head f + length l <? buf_len f then buf_len f else a + (buf_len f - length l)).
  exists a, b. split; [|split].
  - unfold writable_slice, writable_length, slice_range.
    rewrite !(proj2 (Nat.ltb_ge _ 0)), Nat.add_0_r, Nat.sub_0_r, (hd_count _ _ Hr) by lia. subst a b. unfold slot, buf_len in *.
    destruct (Nat.ltb_spec (ff_head f + length l) (length (ff_buf f))) as [Ht|Ht];
      (rewrite (proj2 (andb_true_iff _ _)) by (rewrite !Nat.leb_le; lia)); done.
  - intros Hne. assert (0 < length src) by (destruct src; [done|cbn; lia]).
    subst a b. destruct (Nat.ltb_spec (ff_head f + length l) (buf_len f)); slot_lia.
  - intros k Hk. assert (Hlen : length (Some <$> take k src) = k) by (rewrite length_fmap; len; lia).
    assert (Hin : a + k <= buf_len f)
      by (subst a b; destruct (Nat.ltb_spec (ff_head f + length l) (buf_len f)); slot_lia).
    assert (Hbl : length (copy_into (ff_buf f) a (Some <$> take k src)) = buf_len f)
      by (apply length_copy_into; unfold buf_len in *; lia).
    split; [|done]. unfold fifo_update, with_buf. apply (holds_update f l); cbn; [done..| | | |].
    + rewrite (hd_count _ _ Hr). len. lia.
    + len. lia.
    + done.
    + intros i y Hi. rewrite lookup_copy_into by (unfold buf_len in *; lia). rewrite Hlen.
      apply lookup_app_Some in Hi as [Hi|[Hge Hi]].
      * pose proof (lookup_lt_Some _ _ _ Hi). rewrite decide_False by (subst a; slot_lia). by apply Hr.
      * pose proof (lookup_lt_Some _ _ _ Hi) as Hlt. rewrite length_take in Hlt.
        assert (Hsl : slot (ff_head f) (buf_len f) i = a + (i - length l)).
        { subst a b. destruct (Nat.ltb_spec (ff_head f + length l) (buf_len f)); slot_lia. }
        rewrite Hsl, decide_True by lia. rewrite list_lookup_fmap.
        replace (a + (i - length l) - a) with (i - length l) by lia. by rewrite Hi.
Qed.

Lemma write_loop_holds fuel : forall f l src, holds f l -> length l + length src <= buf_len f ->
  length src <= fuel ->
  exists f', write_loop fuel f src = Done f' /\ holds f' (l ++ src) /\ buf_len f' = buf_len f.
Proof.
  induction fuel as [|fuel IH]; intros f l src Hr Hroom Hf.
  { destruct src; [|cbn in Hf; lia]. exists f. by rewrite app_nil_r. }
  destruct src as [|x src]; [exists f; by rewrite app_nil_r|].
  destruct (writable_slice_chunk f l (x :: src) Hr Hroom) as (a & b & Hw & Hpos & Hchunk).
  specialize (Hpos ltac:(done)). cbn [write_loop]. rewrite Hw. cbn [obind fst snd].
  set (n := (b - a) `min` length (x :: src)).
  destruct (Hchunk n ltac:(lia)) as [Hr1 Hl1].
  set (f1 := fifo_update _ n) in *. assert (Hbl : buf_len f1 = buf_len f) by exact Hl1.
  destruct (IH f1 (l ++ take n (x :: src)) (drop n (x :: src)) Hr1) as (f2 & -> & Hr2 & Hl2).
  - len. cbn in *. lia.
  - len. cbn in *. lia.
  - exists f2. split; [done|]. split; [|lia]. by rewrite <- app_assoc, take_drop in Hr2.
Qed.

Lemma write_holds f l src : holds f l ->
  exists f' r, fifo_write t_size f src = Done (f', r) /\ (DYNAMIC = false -> buf_len f' = buf_len f) /\
    match r with
    | AllocOk => fits f (length l + length src) /\ holds f' (l ++ src)
    | AllocErr => ~ fits f (length l + length src) /\ holds f' l
    end.
Proof.
  intros Hr. unfold fifo_write.
  destruct (ensure_unused_holds f l (length src) Hr) as (f1 & [] & -> & Hr1 & Hl1 & Hfit); cbn [obind].
  - destruct Hfit as [Hfit Hroom].
    destruct (write_loop_holds (S (length src)) f1 l src Hr1 Hroom ltac:(lia)) as (f2 & Hgo & Hr2 & Hl2).
    unfold write_assume_capacity. rewrite Hgo. cbn [obind].
    exists f2, AllocOk. split; [done|]. split; [intros; rewrite Hl2; auto|done].
  - by exists f1, AllocErr.
Qed.

Lemma write_item_holds f l x : holds f l ->
  exists f' r, fifo_write_item t_size f x = Done (f', r) /\ (DYNAMIC = false -> buf_len f' = buf_len f) /\
    match r with
    | AllocOk => fits f (length l + 1) /\ holds f' (l ++ [x])
    | AllocErr => ~ fits f (length l + 1) /\ holds f' l
    end.
Proof.
  intros Hr. unfold fifo_write_item.
  destruct (ensure_unused_holds f l 1 Hr) as (f1 & [] & -> & Hr1 & Hl1 & Hfit); cbn [obind].
  - destruct Hfit as [Hfit Hroom].
    destruct (write_item_assume_holds f1 l x Hr1) as (f2 & -> & Hr2 & Hl2); [lia|]. cbn [obind].
    exists f2, AllocOk. split; [done|]. split; [intros; rewrite Hl2; auto|done].
  - by exists f1, AllocErr.
Qed.

(** ** Putting back and removing *)

(** The ring rewound by the length of [src], its first range, and the two copies
    that fill it. *)
Section Unget.
Context f l (src : list T) (Hr : holds f l) (Hroom : length l + length src <= buf_len f).
Let n := buf_len f.
Let c := length src.
Let h := slot (ff_head f) n (n - c).
Let k := (h + (length l + c)) `min` n - h.
Let b1 := copy_into (ff_buf f) h (Some <$> take (k `min` c) src).

Lemma unget_head : (ff_head f < n \/ (n = 0 /\ ff_head f = 0)) /\ (h < n \/ (n = 0 /\ h = 0)) /\
  length l + c <= n /\ length (ff_buf f) = n.
Proof.
  pose proof (fk_head _ (hd_ok _ _ Hr)) as Hh. fold n in Hh.
  split; [done|]. split; [|done]. subst h. clear k b1. slot_lia.
Qed.

Lemma unget_slice : readable_slice (mkLinearFifo (ff_buf f) h (ff_count f + c)) 0 = Done (Some (h, h + k)).
Proof.
  destruct unget_head as (_ & Hh & Hle & Hn). unfold readable_slice, buf_len, slice_range.
  cbn [ff_buf ff_head ff_count].
  rewrite !(proj2 (Nat.ltb_ge _ 0)), Nat.add_0_r, Nat.sub_0_r, (hd_count _ _ Hr), Hn by lia.
  destruct (Nat.leb_spec n h) as [Hnh|Hnh].
  - replace (h - n) with h by lia. replace (h + (length l + c)) with (h + k) by lia.
    rewrite (proj2 (andb_true_iff _ _)) by (rewrite !Nat.leb_le; lia). done.
  - replace ((h + (length l + c)) `min` n) with (h + k) by lia.
    rewrite (proj2 (andb_true_iff _ _)) by (rewrite !Nat.leb_le; lia). done.
Qed.

Lemma unget_first : length b1 = n /\ forall j, b1 !! j =
  if decide (h <= j < h + k `min` c) then Some <$> src !! (j - h) else ff_buf f !! j.
Proof.
  destruct unget_head as (_ & Hh & Hle & Hn).
  assert (Hs1 : length (Some <$> take (k `min` c) src) = k `min` c)
    by (rewrite length_fmap; len; unfold c in *; lia).
  subst b1. split; [rewrite length_copy_into; lia|]. intros j.
  rewrite lookup_copy_into, Hs1 by lia. destruct (decide _); [|done].
  by rewrite list_lookup_fmap, lookup_take_lt by lia.
Qed.

(** What the final buffer has to hold. *)
Lemma unget_holds b2 : length b2 = n ->
  (forall i x, src !! i = Some x -> b2 !! slot h n i = Some (Some x)) ->
  (forall j, ~ (exists i, i < c /\ j = slot h n i) -> b2 !! j = ff_buf f !! j) ->
  holds (mkLinearFifo b2 h (ff_count f + c)) (src ++ l).
Proof.
  destruct unget_head as (Hh & Hh' & Hle & Hn). intros Hl Hsrc Hrest.
  apply (holds_update f l); cbn [ff_buf ff_head ff_count]; [done|done| | |done|].
  - rewrite (hd_count _ _ Hr). len. unfold c. lia.
  - len. unfold c, n in *. lia.
  - fold n. intros i x Hi. apply lookup_app_Some in Hi as [Hi|[Hge Hi]]; [by apply Hsrc|].
    fold c in Hge, Hi. pose proof (lookup_lt_Some _ _ _ Hi) as Hlt.
    assert (Hsl : slot h n i = slot (ff_head f) n (i - c)) by (subst h; clear k b1; slot_lia).
    rewrite Hrest, Hsl; [by apply Hr|]. intros (i' & Hi' & Heq). subst h. clear k b1. slot_lia.
Qed.

(** One range is enough. *)
Lemma unget_one : c <= k -> holds (mkLinearFifo b1 h (ff_count f + c)) (src ++ l).
Proof.
  intros Hkc. destruct unget_head as (_ & Hh & Hle & Hn). destruct unget_first as [Hl Hat].
  apply unget_holds; [done| |].
  - intros i x Hi. pose proof (lookup_lt_Some _ _ _ Hi) as Hlt. fold c in Hlt.
    replace (slot h n i) with (h + i) by (clear b1 Hl Hat; slot_lia).
    rewrite Hat, decide_True by lia. replace (h + i - h) with i by lia. by rewrite Hi.
  - intros j Hj. rewrite Hat, decide_False; [done|]. intros Hin. apply Hj.
    exists (j - h). clear b1 Hl Hat. split; [lia|slot_lia].
Qed.

(** The rest goes to the start of the buffer. *)
Lemma unget_two : k < c -> h + k = n /\
  holds (mkLinearFifo (copy_into b1 0 (Some <$> drop k src)) h (ff_count f + c)) (src ++ l).
Proof.
  intros Hkc. destruct unget_head as (_ & Hh & Hle & Hn). destruct unget_first as [Hl Hat].
  split; [lia|].
  assert (Hl2 : length (Some <$> drop k src) = c - k) by (rewrite length_fmap; len; done).
  apply unget_holds; [rewrite length_copy_into; lia| |].
  - intros i x Hi. pose proof (lookup_lt_Some _ _ _ Hi) as Hlt. fold c in Hlt.
    rewrite lookup_copy_into, Hl2 by lia. destruct (decide (i < k)).
    + replace (slot h n i) with (h + i) by (clear b1 Hl Hat; slot_lia).
      rewrite decide_False, Hat, decide_True by lia. replace (h + i - h) with i by lia. by rewrite Hi.
    + replace (slot h n i) with (i - k) by (clear b1 Hl Hat; slot_lia). rewrite decide_True by lia.
      rewrite list_lookup_fmap, lookup_drop, Nat.sub_0_r. replace (k + (i - k)) with i by lia. by rewrite Hi.
  - intros j Hj. rewrite lookup_copy_into, Hl2 by lia. rewrite decide_False, Hat, decide_False; [done| |].
    + intros Hin. apply Hj. exists (j - h). clear b1 Hl Hat. split; [lia|slot_lia].
    + intros Hin. apply Hj. exists (k + j). clear b1 Hl Hat. split; [lia|slot_lia].
Qed.

Lemma unget_runs : exists f',
  (let! f2 := rewind f (length src) in
   let! s := readable_slice f2 0 in
   let s := range_or_empty s in
   let slice_len := s.2 - s.1 in
   let! f3 := copy_to_range f2 s (take (slice_len `min` length src) src) in
   if slice_len <? length src then
     let! s2 := readable_slice f3 slice_len in
     let! f4 := copy_to_range f3 (range_or_empty s2) (drop slice_len src) in
     Done (f4, AllocOk)
   else Done (f3, AllocOk)) = Done (f', AllocOk) /\
  holds f' (src ++ l) /\ buf_len f' = buf_len f.
Proof.
  destruct unget_head as (_ & Hh & Hle & Hn). destruct unget_first as [Hl _].
  unfold rewind. rewrite ring_index_slot by (apply Hr || lia). cbn [obind]. fold n c h.
  rewrite unget_slice. cbn [obind]. change (range_or_empty (Some (h, h + k))) with (h, h + k).
  cbn [fst snd]. replace (h + k - h) with k by lia. unfold copy_to_range at 1. cbn [fst snd].
  rewrite (proj2 (Nat.ltb_ge _ _)) by (len; lia). cbn [obind]. unfold with_buf at 1 2.
  cbn [ff_buf ff_head ff_count]. fold b1. destruct (Nat.ltb_spec k c) as [Hkc|Hkc].
  - destruct (unget_two Hkc) as [Hkn Hholds]. unfold readable_slice, slice_range, buf_len.
    cbn [ff_buf ff_head ff_count].
    rewrite (hd_count _ _ Hr), (proj2 (Nat.ltb_ge _ _)), Hl, (proj2 (Nat.leb_le _ _)) by lia.
    replace (h + k - n) with 0 by lia.
    rewrite (proj2 (andb_true_iff _ _)) by (rewrite !Nat.leb_le; lia). cbn [obind].
    change (range_or_empty (Some (0, 0 + (length l + c - k)))) with (0, length l + c - k).
    unfold copy_to_range. cbn [fst snd].
    rewrite (proj2 (Nat.ltb_ge _ _)) by (len; unfold c in *; lia). cbn [obind].
    eexists. split; [done|]. rewrite <- (hd_count _ _ Hr). split; [exact Hholds|].
    unfold buf_len, with_buf. cbn [ff_buf].
    rewrite length_copy_into; [done|]. rewrite length_fmap. len. unfold c in *. lia.
  - eexists. split; [done|]. split; [by apply unget_one|done].
Qed.

End Unget.

Lemma unget_refines f l src : holds f l ->
  exists f' r, unget t_size f src = Done (f', r) /\ (DYNAMIC = false -> buf_len f' = buf_len f) /\
    match r with
    | AllocOk => fits f (length l + length src) /\ holds f' (src ++ l)
    | AllocErr => ~ fits f (length l + length src) /\ holds f' l
    end.
Proof.
  intros Hr. unfold unget.
  destruct (ensure_unused_holds f l (length src) Hr) as (f1 & [] & -> & Hr1 & Hl1 & Hfit); cbn [obind].
  - destruct Hfit as [Hfit Hroom]. destruct (unget_runs f1 l src Hr1 Hroom) as (f' & Hgo & Hr' & Hl').
    exists f', AllocOk. split; [exact Hgo|]. split; [intros; rewrite Hl'; auto|done].
  - by exists f1, AllocErr.
Qed.

Lemma shift_down_one_spec (buf : list (option T)) a b : a <= b <= length buf ->
  exists buf', shift_down_one buf a b = Done buf' /\ length buf' = length buf /\
    forall j, buf' !! j = if decide (a <= j < b - 1) then buf !! S j else buf !! j.
Proof.
  intros Hab. unfold shift_down_one, slice_range.
  rewrite (proj2 (andb_true_iff _ _)) by (rewrite !Nat.leb_le; lia). cbn [obind].
  eexists. split; [done|]. destruct (Nat.ltb_spec 1 (b - a)) as [H1|H1].
  - assert (Hl : length (take (b - a - 1) (drop (S a) buf)) = b - a - 1) by (len; lia).
    split; [rewrite length_copy_into; lia|]. intros j. rewrite lookup_copy_into, Hl by lia.
    destruct (decide (a <= j < b - 1)), (decide (a <= j < a + (b - a - 1))); try lia; [|done].
    rewrite lookup_take_lt, lookup_drop by lia. f_equal. lia.
  - split; [done|]. intros j. by rewrite decide_False by lia.
Qed.

Lemma lookup_delete_list (l : list T) k i :
  delete k l !! i = if decide (i < k) then l !! i else l !! S i.
Proof.
  destruct (decide (i < k)); [by apply list_lookup_delete_lt|apply list_lookup_delete_ge; lia].
Qed.

Section Remove.
Context f l (k : nat) (Hr : holds f l) (Hk : 0 < k < length l).
Let n := buf_len f.
Let h := ff_head f.

Lemma remove_bounds : h < n /\ length l <= n /\ length (ff_buf f) = n.
Proof.
  pose proof (holds_le _ _ Hr) as Hle. pose proof (fk_head _ (hd_ok _ _ Hr)) as Hh.
  unfold h, n. split; [lia|done].
Qed.

(** What the buffer has to hold without item [k]. *)
Lemma removed_holds buf' : length buf' = n ->
  (forall i, i < length l - 1 ->
     buf' !! slot h n i = ff_buf f !! slot h n (if decide (i < k) then i else S i)) ->
  holds (mkLinearFifo buf' h (length l - 1)) (delete k l).
Proof.
  intros Hl Hb. destruct remove_bounds as (Hh & Hle & _).
  assert (Hdl : length (delete k l) = length l - 1)
    by (apply length_delete, lookup_lt_is_Some_2; lia).
  apply (holds_update f l); cbn [ff_buf ff_head ff_count]; [done|done|done|fold n; lia|by left|].
  intros i x Hi. pose proof (lookup_lt_Some _ _ _ Hi) as Hil. fold n.
  rewrite Hb by lia. rewrite lookup_delete_list in Hi. by destruct (decide (i < k)); apply Hr.
Qed.

(** The items do not wrap. *)
Lemma remove_flat : length l <= n - h -> exists b1,
  shift_down_one (ff_buf f) (h + k) n = Done b1 /\ length b1 = n /\
  holds (mkLinearFifo b1 h (length l - 1)) (delete k l).
Proof.
  intros Hc. destruct remove_bounds as (Hh & Hle & Hn).
  destruct (shift_down_one_spec (ff_buf f) (h + k) n) as (b1 & Hgo & Hb1 & Hat); [lia|].
  exists b1. split; [done|]. split; [lia|]. apply removed_holds; [lia|]. intros i Hi. rewrite Hat.
  destruct (decide (i < k)); destruct (decide (_ <= _ < _)); f_equal; slot_lia.
Qed.

(** The item is in the wrapped part. *)
Lemma remove_low : n - h < length l -> slot h n k < h -> exists b1,
  shift_down_one (ff_buf f) (slot h n k) (h + length l - n) = Done b1 /\ length b1 = n /\
  holds (mkLinearFifo b1 h (length l - 1)) (delete k l).
Proof.
  intros Hc Hw. destruct remove_bounds as (Hh & Hle & Hn).
  destruct (shift_down_one_spec (ff_buf f) (slot h n k) (h + length l - n))
    as (b1 & Hgo & Hb1 & Hat); [slot_lia|].
  exists b1. split; [done|]. split; [lia|]. apply removed_holds; [lia|]. intros i Hi. rewrite Hat.
  destruct (decide (i < k)); destruct (decide (_ <= _ < _)); f_equal; slot_lia.
Qed.

(** The item is in front of the wrap: both parts move, and the first wrapped
    item crosses over. *)
Lemma remove_high : n - h < length l -> h <= slot h n k -> exists b2,
  (let! wrap := read_slot (ff_buf f) 0 in
   let! b1 := shift_down_one (ff_buf f) (slot h n k) n in
   let! b2 := write_slot b1 (n - 1) wrap in
   shift_down_one b2 0 (h + length l - n)) = Done b2 /\ length b2 = n /\
  holds (mkLinearFifo b2 h (length l - 1)) (delete k l).
Proof.
  intros Hc Hw. destruct remove_bounds as (Hh & Hle & Hn).
  assert (Hx : exists x, ff_buf f !! 0 = Some (Some x)).
  { destruct (lookup_lt_is_Some_2 l (n - h)) as [x Hx]; [lia|]. exists x.
    rewrite <- (hd_slot _ _ Hr _ _ Hx). fold n h. f_equal. slot_lia. }
  destruct Hx as [x Hx]. unfold read_slot. rewrite Hx. cbn [obind].
  destruct (shift_down_one_spec (ff_buf f) (slot h n k) n) as (b1 & -> & Hb1 & Hat1); [slot_lia|].
  cbn [obind]. unfold write_slot. rewrite (proj2 (Nat.ltb_lt _ _)) by lia. cbn [obind].
  assert (Hb1n : length (<[n - 1 := Some x]> b1) = n) by (rewrite length_insert; lia).
  destruct (shift_down_one_spec (<[n - 1 := Some x]> b1) 0 (h + length l - n))
    as (b2 & -> & Hb2 & Hat2); [lia|].
  exists b2. split; [done|]. split; [lia|]. apply removed_holds; [lia|]. intros i Hi. rewrite Hat2.
  assert (Hins : forall j, <[n - 1 := Some x]> b1 !! j =
    if decide (j = n - 1) then ff_buf f !! 0 else b1 !! j).
  { intros j. destruct (decide (j = n - 1)) as [->|]; [|by rewrite list_lookup_insert_ne].
    rewrite list_lookup_insert_eq by lia. done. }
  destruct (decide (0 <= slot h n i < h + length l - n - 1)) as [H1|H1]; rewrite Hins;
    destruct (decide (_ = n - 1)) as [H2|H2]; try rewrite Hat1;
    destruct (decide (i < k)) as [H3|H3]; try destruct (decide (slot _ _ _ <= _ < _));
    f_equal; slot_lia.
Qed.

End Remove.

Lemma ordered_remove_holds f l k : holds f l -> k < length l ->
  exists f', ordered_remove_item f k = Done f' /\ holds f' (delete k l) /\ buf_len f' = buf_len f.
Proof.
  intros Hr Hk. pose proof (holds_le _ _ Hr) as Hle. unfold ordered_remove_item.
  destruct (Nat.eqb_spec k 0) as [->|Hk0].
  { destruct (discard_holds f l 1 Hr) as (f' & -> & Hr' & Hl); [lia|]. exists f'.
    destruct l; [cbn in Hk; lia|]. done. }
  rewrite (hd_count _ _ Hr).
  destruct (Nat.leb_spec (length l) (buf_len f - ff_head f)) as [Hc|Hc].
  - destruct (remove_flat f l k Hr ltac:(lia) Hc) as (b1 & -> & Hl & Hb). by eexists.
  - rewrite ring_index_slot by (apply Hr || lia). cbn [obind].
    destruct (Nat.ltb_spec (slot (ff_head f) (buf_len f) k) (ff_head f)) as [Hw|Hw].
    + destruct (remove_low f l k Hr ltac:(lia) Hc Hw) as (b1 & -> & Hl & Hb). by eexists.
    + destruct (remove_high f l k Hr ltac:(lia) Hc Hw) as (b1 & -> & Hl & Hb). by eexists.
Qed.

Lemma poke_item_holds f l i x : holds f l -> i < length l ->
  exists f', poke_item f i x = Done f' /\ holds f' (<[i := x]> l) /\ buf_len f' = buf_len f.
Proof.
  intros Hr Hi. pose proof (holds_le _ _ Hr) as Hle. pose proof (hd_ok _ _ Hr) as Hok.
  unfold poke_item. rewrite ring_index_slot by (done || lia). cbn [obind].
  pose proof (slot_bound f i Hok ltac:(lia)) as Hs. unfold write_slot.
  rewrite (proj2 (Nat.ltb_lt _ _)) by done. cbn [obind]. eexists. split; [done|].
  assert (Hbl : length (<[slot (ff_head f) (buf_len f) i := Some x]> (ff_buf f)) = buf_len f)
    by apply length_insert.
  split; [|done]. unfold with_buf. apply (holds_update f l); cbn [ff_buf ff_head ff_count]; [done|done| | | |].
  - by rewrite length_insert, (hd_count _ _ Hr).
  - by rewrite length_insert.
  - apply Hok.
  - pose proof (fk_head _ Hok) as Hh. intros j y Hj.
    apply list_lookup_insert_Some in Hj as [(-> & -> & _)|[Hne Hj]]; [by apply list_lookup_insert_eq|].
    pose proof (lookup_lt_Some _ _ _ Hj). rewrite list_lookup_insert_ne by slot_lia. by apply Hr.
Qed.

(** The free range starts behind the items; in a realigned ring it is all the
    free space. *)
Lemma writable_slice_range f l : holds f l ->
  exists a b, writable_slice f 0 = Done (a, b) /\ a <= b <= buf_len f /\
    (forall i, i < b - a -> a + i = slot (ff_head f) (buf_len f) (length l + i)) /\
    (ff_head f = 0 -> b - a = buf_len f - length l).
Proof.
  intros Hr. pose proof (holds_le _ _ Hr) as Hle. pose proof (fk_head _ (hd_ok _ _ Hr)) as Hh.
  unfold writable_slice, writable_length, slice_range. fold (buf_len f).
  rewrite !(proj2 (Nat.ltb_ge _ 0)), Nat.add_0_r, Nat.sub_0_r, (hd_count _ _ Hr) by lia.
  destruct (Nat.ltb_spec (ff_head f + length l) (buf_len f)) as [Ht|Ht];
    rewrite (proj2 (andb_true_iff _ _)) by (rewrite !Nat.leb_le; lia);
    do 2 eexists; (split; [done|]); (split; [lia|]); (split; [intros; slot_lia|lia]).
Qed.

(** The slots that [writable_with_size] hands out are those after the items. *)
Lemma writable_with_size_holds f l size : holds f l ->
  exists f' r, writable_with_size t_size f size = Done (f', r) /\ holds f' l /\
    match r with
    | Some (a, b) => b = a + size /\ b <= buf_len f' /\
        forall i, i < size -> a + i = slot (ff_head f') (buf_len f') (length l + i)
    | None => ~ fits f (length l + size)
    end.
Proof.
  intros Hr. unfold writable_with_size.
  destruct (ensure_unused_holds f l size Hr) as (f1 & [] & -> & Hr1 & _ & Hfit); cbn [obind];
    [destruct Hfit as [_ Hroom]|by exists f1, None].
  destruct (writable_slice_range f1 l Hr1) as (a & b & Hw & Hb & Hs & _). rewrite Hw. cbn [obind fst snd].
  destruct (Nat.ltb_spec (b - a) size) as [Hlt|Hge].
  - destruct (realign_holds f1 l Hr1) as (f2 & -> & Hr2 & Hl2 & Hh2). cbn [obind].
    destruct (writable_slice_range f2 l Hr2) as (a2 & b2 & -> & Hb2 & Hs2 & Hall). cbn [obind fst snd].
    specialize (Hall Hh2). rewrite (proj2 (Nat.ltb_ge _ _)) by lia.
    do 2 eexists. split; [done|]. split; [done|]. split; [done|]. split; [lia|].
    intros i Hi. apply Hs2. lia.
  - cbn [obind]. rewrite Hw. cbn [obind fst snd]. rewrite (proj2 (Nat.ltb_ge _ _)) by lia.
    do 2 eexists. split; [done|]. split; [done|]. split; [done|]. split; [lia|].
    intros i Hi. apply Hs. lia.
Qed.

Lemma reset_head_holds f l : holds f l -> holds (reset_head_if_empty f) l.
Proof.
  intros Hr. unfold reset_head_if_empty. destruct (Nat.eqb_spec (ff_count f) 0) as [Hc|]; [|done].
  rewrite (hd_count _ _ Hr) in Hc. destruct l; [|done].
  apply (holds_update f []); cbn [ff_buf ff_head ff_count]; [done|done|apply Hr|cbn; lia|lia|].
  intros i x Hi. by rewrite lookup_nil in Hi.
Qed.

End Ring.

(** ** Sequences of calls *)

Inductive FifoOp (T : Type) : Type :=
| FWriteItem (x : T)
| FWrite (src : list T)
| FReadItem
| FRead (n : nat)
| FDiscard (n : nat)
| FUnget (src : list T)
| FPeek (i : nat)
| FPoke (i : nat) (x : T)
| FRemove (i : nat)
| FReset.
Arguments FWriteItem {T} x.
Arguments FWrite {T} src.
Arguments FReadItem {T}.
Arguments FRead {T} n.
Arguments FDiscard {T} n.
Arguments FUnget {T} src.
Arguments FPeek {T} i.
Arguments FPoke {T} i x.
Arguments FRemove {T} i.
Arguments FReset {T}.

Inductive FifoAnswer (T : Type) : Type :=
| AUnit
| AAlloc (r : AllocResult)
| AItems (l : list T).
Arguments AUnit {T}.
Arguments AAlloc {T} r.
Arguments AItems {T} l.

Section Runs.
Context {T : Type} (t_size : nat) {B : LinearFifoBuffer} {HB : LinearFifoBufferLaws B}.
Context (Hsize : 0 < t_size <= PAGE_SIZE_MIN / 2).

Definition fifo_op (f : LinearFifo T) (op : FifoOp T) : outcome (LinearFifo T * FifoAnswer T) :=
  match op with
  | FWriteItem x => let! (f1, r) := fifo_write_item t_size f x in Done (f1, AAlloc r)
  | FWrite src => let! (f1, r) := fifo_write t_size f src in Done (f1, AAlloc r)
  | FReadItem => let! (f1, x) := fifo_read_item f in Done (f1, AItems (option_list x))
  | FRead n => let! (f1, l) := fifo_read f n in Done (f1, AItems l)
  | FDiscard n => let! f1 := discard f n in Done (f1, AUnit)
  | FUnget src => let! (f1, r) := unget t_size f src in Done (f1, AAlloc r)
  | FPeek i => let! x := peek_item f i in Done (f, AItems [x])
  | FPoke i x => let! f1 := poke_item f i x in Done (f1, AUnit)
  | FRemove i => let! f1 := ordered_remove_item f i in Done (f1, AUnit)
  | FReset => Done (reset_head_if_empty f, AUnit)
  end.

Fixpoint fifo_run (f : LinearFifo T) (ops : list (FifoOp T))
    : outcome (LinearFifo T * list (FifoAnswer T)) :=
  match ops with
  | [] => Done (f, [])
  | op :: rest =>
      let! (f1, a) := fifo_op f op in
      let! (f2, l) := fifo_run f1 rest in
      Done (f2, a :: l)
  end.

(** The specification: a list of at most [limit] items. [None] where the
    source asks the caller not to go (its debug assertions). *)
Definition queue_put (limit : Z) (l l' : list T) : option (list T * FifoAnswer T) :=
  Some (if (Z.of_nat (length l') <=? limit)%Z then (l', AAlloc AllocOk) else (l, AAlloc AllocErr)).

Definition queue_op (limit : Z) (l : list T) (op : FifoOp T) : option (list T * FifoAnswer T) :=
  match op with
  | FWriteItem x => queue_put limit l (l ++ [x])
  | FWrite src => queue_put limit l (l ++ src)
  | FReadItem => Some (tail l, AItems (option_list (head l)))
  | FRead n => Some (drop n l, AItems (take n l))
  | FDiscard n => if n <=? length l then Some (drop n l, AUnit) else None
  | FUnget src => queue_put limit l (src ++ l)
  | FPeek i => x ← l !! i; Some (l, AItems [x])
  | FPoke i x => if i <? length l then Some (<[i := x]> l, AUnit) else None
  | FRemove i => if i <? length l then Some (delete i l, AUnit) else None
  | FReset => Some (l, AUnit)
  end.

Fixpoint queue_run (limit : Z) (l : list T) (ops : list (FifoOp T))
    : option (list T * list (FifoAnswer T)) :=
  match ops with
  | [] => Some (l, [])
  | op :: rest =>
      '(l1, a) ← queue_op limit l op;
      '(l2, r) ← queue_run limit l1 rest;
      Some (l2, a :: r)
  end.

(** The limit of a ring: its size when static, the largest power of two when
    dynamic. *)
Definition limit_of (limit : Z) (f : LinearFifo T) : Prop :=
  if DYNAMIC then limit = (2 ^ 63)%Z else limit = Z.of_nat (buf_len f).

Lemma fits_limit limit f n : fifo_ok f -> limit_of limit f -> fits f n <-> (Z.of_nat n <= limit)%Z.
Proof.
  intros [_ _ _ _ Hs]. unfold limit_of, fits. destruct DYNAMIC; intros ->.
  - specialize (Hs eq_refl). split; [intros [?|[_ ?]]; lia|auto].
  - split; [intros [?|[? _]]; [lia|done]|intros; left; lia].
Qed.

(** A call that may allocate, against the specification. *)
Lemma put_case limit f l l' (call : outcome (LinearFifo T * AllocResult)) :
  fifo_ok f -> limit_of limit f ->
  (exists f' r, call = Done (f', r) /\ (DYNAMIC = false -> buf_len f' = buf_len f) /\
     match r with
     | AllocOk => fits f (length l') /\ holds f' l'
     | AllocErr => ~ fits f (length l') /\ holds f' l
     end) ->
  forall l1 a, queue_put limit l l' = Some (l1, a) ->
  exists f', (let! (f1, r) := call in Done (f1, AAlloc r)) = Done (f', a) /\
    holds f' l1 /\ limit_of limit f'.
Proof.
  intros Hok Hlim (f' & r & -> & Hlen & Hcase) l1 a. unfold queue_put. intros [= Heq].
  assert (Hlim' : limit_of limit f').
  { unfold limit_of in *. destruct DYNAMIC; [done|]. by rewrite Hlen. }
  exists f'. cbn [obind]. pose proof (fits_limit limit f (length l') Hok Hlim) as Hfit.
  destruct r, (Z.leb_spec (Z.of_nat (length l')) limit); destruct Hcase as [Hf Hh];
    rewrite Hfit in Hf; injection Heq as <- <-; done || lia.
Qed.

Lemma op_queue limit f l op l1 a : holds f l -> limit_of limit f ->
  queue_op limit l op = Some (l1, a) ->
  exists f', fifo_op f op = Done (f', a) /\ holds f' l1 /\ limit_of limit f'.
Proof.
  intros Hr Hlim Hop. pose proof (hd_ok _ _ Hr) as Hok.
  assert (Hkeep : forall f', buf_len f' = buf_len f -> limit_of limit f')
    by (intros f' Hl; unfold limit_of in *; by rewrite Hl).
  destruct op as [x|src| |n|n|src|i|i x|i|]; cbn [fifo_op queue_op] in *.
  - revert Hop. apply (put_case limit f); [done..|]. rewrite length_app. by apply write_item_holds.
  - revert Hop. apply (put_case limit f); [done..|]. rewrite length_app. by apply write_holds.
  - destruct (read_item_holds f l Hr) as (f' & -> & Hr' & Hl). injection Hop as <- <-. eauto.
  - destruct (fifo_read_loop_holds (S n) f l n Hr ltac:(lia)) as (f' & Hgo & Hr' & Hl).
    unfold fifo_read. rewrite Hgo. injection Hop as <- <-. eauto.
  - destruct (Nat.leb_spec n (length l)); [|done]. injection Hop as <- <-.
    destruct (discard_holds f l n Hr) as (f' & -> & Hr' & Hl); [done|]. eauto.
  - revert Hop. apply (put_case limit f); [done..|]. rewrite length_app, Nat.add_comm.
    by apply unget_refines.
  - destruct (l !! i) as [y|] eqn:Hi; [|done]. injection Hop as <- <-.
    rewrite (peek_item_holds f l i y Hr Hi). cbn [obind]. eauto.
  - destruct (Nat.ltb_spec i (length l)); [|done]. injection Hop as <- <-.
    destruct (poke_item_holds t_size Hsize f l i x Hr) as (f' & -> & Hr' & Hl); [done|]. eauto.
  - destruct (Nat.ltb_spec i (length l)); [|done]. injection Hop as <- <-.
    destruct (ordered_remove_holds t_size Hsize f l i Hr) as (f' & -> & Hr' & Hl); [done|]. eauto.
  - injection Hop as <- <-. exists (reset_head_if_empty f). split; [done|].
    split; [by apply (reset_head_holds t_size)|]. apply Hkeep. unfold reset_head_if_empty. by case_if.
Qed.

Lemma run_queue limit ops : forall f l l1 answers, holds f l -> limit_of limit f ->
  queue_run limit l ops = Some (l1, answers) ->
  exists f', fifo_run f ops = Done (f', answers) /\ holds f' l1.
Proof.
  induction ops as [|op ops IH]; intros f l l1 answers Hr Hlim Hrun; cbn in *.
  { injection Hrun as <- <-. by exists f. }
  destruct (queue_op limit l op) as [[l0 a]|] eqn:Hop; [|done]. cbn in Hrun.
  destruct (queue_run limit l0 ops) as [[l2 r]|] eqn:Hrest; [|done]. injection Hrun as <- <-.
  destruct (op_queue limit f l op l0 a Hr Hlim Hop) as (f1 & -> & Hr1 & Hlim1). cbn [obind].
  destruct (IH f1 l0 l2 r Hr1 Hlim1 Hrest) as (f2 & -> & Hr2). by exists f2.
Qed.

(** A fresh static buffer of a positive size, or a fresh dynamic one. *)
Definition fresh_size (n : nat) : Prop :=
  if DYNAMIC then n = 0 else 0 < n /\ (POWERS_OF_TWO = true -> exists k, n = 2 ^ k).

Lemma init_holds n : fresh_size n -> holds (LinearFifo_init (T := T) n) [].
Proof.
  unfold fresh_size, LinearFifo_init. intros Hn.
  assert (Hl : length (replicate n (None (A := T))) = n) by apply length_replicate.
  split; [|done|intros i x Hi; by rewrite lookup_nil in Hi].
  pose proof dynamic_powers as HD.
  split; unfold buf_len; cbn; rewrite ?Hl; destruct DYNAMIC; try lia; auto; try (subst n; auto).
  intros HP. right. by apply Hn.
Qed.


End Runs.

(** ** Witnesses *)

(** A static buffer of a positive size is a fresh one. *)
Lemma static_fresh N : 0 < N -> fresh_size (B := StaticBuffer N) N.
Proof.
  intros HN. split; [done|]. cbn. intros [_ Hp]%andb_true_iff. apply Nat.eqb_eq in Hp. by eexists.
Qed.

(** A ring of eight bytes that grows while it is wrapped. *)
Definition example_fifo_ops : list (FifoOp Z) :=
  [FWrite [97; 98; 99; 100; 101; 102; 103; 104]%Z; FRead 6; FWrite [105; 106; 107; 108; 109]%Z;
   FRemove 1; FUnget [65; 66]%Z; FWrite [110; 111; 112]%Z; FPeek 2; FReadItem; FRead 16].


Example example_fifo_answers :
  queue_run (2 ^ 63) [] example_fifo_ops = Some ([],
    [AAlloc AllocOk; AItems [97; 98; 99; 100; 101; 102]%Z; AAlloc AllocOk; AUnit; AAlloc AllocOk;
     AAlloc AllocOk; AItems [103%Z]; AItems [65%Z];
     AItems [66; 103; 105; 106; 107; 108; 109; 110; 111; 112]%Z]).
Proof. vm_compute. reflexivity. Qed.

(** A static ring refuses what does not fit and keeps its items. *)
Example static_full :
  (let! (_, l) := fifo_run (B := StaticBuffer 3) 1 (LinearFifo_init 3)
     [FWrite [1; 2; 3]%Z; FWriteItem 4%Z; FReadItem; FWriteItem 5%Z; FRead 4] in Done l) =
  Done [AAlloc AllocOk; AAlloc AllocErr; AItems [1%Z]; AAlloc AllocOk; AItems [2; 3; 5]%Z].
Proof. vm_compute. reflexivity. Qed.

(** An item larger than the scratch of [realign] stops the rotation: the chunk
    has no items and the loop makes no progress, whatever the fuel. *)
Lemma realign_large_item_stuck {T} fuel (buf : list (option T)) head :
  0 < head -> rotate_loop fuel ((PAGE_SIZE_MIN / 2) / 2049) buf head = NoFuel.
Proof.
  change ((PAGE_SIZE_MIN / 2) / 2049) with 0. revert buf. induction fuel as [|fuel IH]; intros buf Hh.
  - destruct head; [lia|done].
  - destruct head as [|head]; [lia|]. cbn [rotate_loop]. rewrite Nat.min_0_r, Nat.sub_0_r. by apply IH.
Qed.
