(* ===== verification/Channel.v ===== *)
(** * Channels

    [threading/channel.rs]: a [LinearFifo] and a closed flag under a mutex, with
    conditions for writers and readers to wait on. The bodies run with the
    mutex held, so they are functions of the state; a wait gives the mutex up,
    and what the other threads do meanwhile is an argument: the list of the
    changes they make during each wait. A call that waits once more than the
    list is long is still waiting. Which thread a signal wakes is not
    modelled. *)
From Stdlib Require Import ZArith Lia Arith.
From stdpp Require Import base list numbers option.
From S2P Require Import Prelude LinearFifo.
#[local] Open Scope nat_scope.

Inductive ChannelError : Type := Closed | OutOfMemory.

Record Channel (T : Type) : Type := mkChannel {
  ch_buffer : LinearFifo T;
  ch_is_closed : bool;
}.
Arguments mkChannel {T}.
Arguments ch_buffer {T}.
Arguments ch_is_closed {T}.

(** How a call ends: with its result, or waiting. *)
Inductive ChannelResult (A : Type) : Type :=
| ChOk (a : A)
| ChErr (e : ChannelError)
| ChWaiting.
Arguments ChOk {A} a.
Arguments ChErr {A} e.
Arguments ChWaiting {A}.

Section Channel.
Context {T : Type} (t_size : nat) {B : LinearFifoBuffer}.

Definition Channel_with_buffer (buffer : LinearFifo T) : Channel T := mkChannel buffer false.

(** The loop of [write_items]. *)
Fixpoint write_items_loop (fuel : nat) (env : list (Channel T -> Channel T)) (ch : Channel T)
    (items : list T) (should_block : bool) (pushed : nat) : outcome (Channel T * ChannelResult nat) :=
  match fuel with
  | O => NoFuel
  | S fu =>
      if pushed <? length items then
        if ch_is_closed ch then Done (ch, ChErr Closed)
        else
          let! (buffer, r) := fifo_write t_size (ch_buffer ch) items in
          let ch1 := mkChannel buffer (ch_is_closed ch) in
          match r with
          | AllocOk => write_items_loop fu env ch1 items should_block (S pushed)
          | AllocErr =>
              if DYNAMIC then Done (ch1, ChErr OutOfMemory)
              else if should_block then
                match env with
                | [] => Done (ch1, ChWaiting)
                | others :: env1 => write_items_loop fu env1 (others ch1) items should_block pushed
                end
              else Done (ch1, ChOk pushed)
          end
      else Done (ch, ChOk pushed)
  end.

Definition write_items (env : list (Channel T -> Channel T)) (ch : Channel T) (items : list T)
    (should_block : bool) : outcome (Channel T * ChannelResult nat) :=
  write_items_loop (S (length items + length env)) env ch items should_block 0.

Definition Channel_write_all (env : list (Channel T -> Channel T)) (ch : Channel T) (items : list T)
    : outcome (Channel T * ChannelResult unit) :=
  let! (ch1, r) := write_items env ch items true in
  Done (ch1, match r with ChOk _ => ChOk tt | ChErr e => ChErr e | ChWaiting => ChWaiting end).

Definition Channel_write_item (env : list (Channel T -> Channel T)) (ch : Channel T) (item : T)
    : outcome (Channel T * ChannelResult unit) :=
  Channel_write_all env ch [item].

(** The loop of [read_items], with the items read so far. *)
Fixpoint read_items_loop (fuel : nat) (env : list (Channel T -> Channel T)) (ch : Channel T)
    (wanted : nat) (should_block : bool) (popped : list T) : outcome (Channel T * ChannelResult (list T)) :=
  match fuel with
  | O => NoFuel
  | S fu =>
      if length popped <? wanted then
        if readable_length (ch_buffer ch) =? 0 then
          if ch_is_closed ch then Done (ch, ChErr Closed)
          else if should_block then
            match env with
            | [] => Done (ch, ChWaiting)
            | others :: env1 => read_items_loop fu env1 (others ch) wanted should_block popped
            end
          else Done (ch, ChOk popped)
        else
          let! (buffer, item) := fifo_read_item (ch_buffer ch) in
          let ch1 := mkChannel buffer (ch_is_closed ch) in
          match item with
          | Some x => read_items_loop fu env ch1 wanted should_block (popped ++ [x])
          | None =>
              if should_block then
                match env with
                | [] => Done (ch1, ChWaiting)
                | others :: env1 => read_items_loop fu env1 (others ch1) wanted should_block popped
                end
              else Done (ch1, ChOk popped)
          end
      else Done (ch, ChOk popped)
  end.

Definition read_items (env : list (Channel T -> Channel T)) (ch : Channel T) (wanted : nat)
    (should_block : bool) : outcome (Channel T * ChannelResult (list T)) :=
  read_items_loop (S (wanted + length env)) env ch wanted should_block [].

(** [read_item]: [read_all] of one item, then that item. *)
Definition Channel_read_item (env : list (Channel T -> Channel T)) (ch : Channel T)
    : outcome (Channel T * ChannelResult T) :=
  let! (ch1, r) := read_items env ch 1 true in
  match r with
  | ChOk (x :: _) => Done (ch1, ChOk x)
  | ChOk [] => Panic
  | ChErr e => Done (ch1, ChErr e)
  | ChWaiting => Done (ch1, ChWaiting)
  end.

End Channel.

Section ChannelFacts.
Context {T : Type} (t_size : nat) {B : LinearFifoBuffer} {HB : LinearFifoBufferLaws B}.
Context (Hsize : 0 < t_size <= PAGE_SIZE_MIN / 2).
Implicit Types (ch : Channel T) (l items : list T).

(** The channel holds [l], oldest first. *)
Definition channel_holds (ch : Channel T) (l : list T) : Prop := holds (ch_buffer ch) l.

(** What [n] rounds of a write of [items] leave behind [l]. *)
Definition rounds (l items : list T) (n : nat) : list T := l ++ concat (replicate n items).

Lemma rounds_S l items n : rounds (l ++ items) items n = rounds l items (S n).
Proof. unfold rounds. cbn. by rewrite <- app_assoc. Qed.

(** One round of the loop of a writer of an open channel with room. *)
Lemma write_items_round fuel env ch l items block pushed : channel_holds ch l ->
  ch_is_closed ch = false -> pushed < length items -> fits (ch_buffer ch) (length l + length items) ->
  exists ch1, write_items_loop t_size (S fuel) env ch items block pushed =
      write_items_loop t_size fuel env ch1 items block (S pushed) /\
    channel_holds ch1 (l ++ items) /\ ch_is_closed ch1 = false /\
    (DYNAMIC = false -> buf_len (ch_buffer ch1) = buf_len (ch_buffer ch)).
Proof.
  intros Hr Hopen Hlt Hfit. cbn [write_items_loop].
  rewrite (proj2 (Nat.ltb_lt _ _)) by done. rewrite Hopen.
  destruct (write_holds t_size Hsize _ _ items Hr) as (f' & [] & -> & Hl & Hf & Hh); [|done].
  cbn [obind]. eexists. split; [done|]. done.
Qed.

(** An item written to an open channel with room is appended, once. *)
Lemma write_item_appends env ch l x : channel_holds ch l -> ch_is_closed ch = false ->
  fits (ch_buffer ch) (length l + 1) ->
  exists ch1, Channel_write_item t_size env ch x = Done (ch1, ChOk tt) /\
    channel_holds ch1 (l ++ [x]) /\ ch_is_closed ch1 = false.
Proof.
  intros Hr Hopen Hfit. unfold Channel_write_item, Channel_write_all, write_items. cbn [length].
  destruct (write_items_round (1 + length env) env ch l [x] true 0 Hr Hopen) as (ch1 & -> & Hr1 & Ho1 & _);
    [cbn; lia|done|]. by exists ch1.
Qed.

(** Reading takes the oldest item. *)
Lemma read_item_takes env ch x l : channel_holds ch (x :: l) ->
  exists ch1, Channel_read_item env ch = Done (ch1, ChOk x) /\ channel_holds ch1 l /\
    ch_is_closed ch1 = ch_is_closed ch.
Proof.
  intros Hr. unfold Channel_read_item, read_items. cbn [read_items_loop length Nat.ltb Nat.leb Nat.add].
  unfold readable_length. rewrite (hd_count _ _ Hr). cbn [length Nat.eqb].
  destruct (read_item_holds _ _ Hr) as (f' & -> & Hr' & _). cbn. by eexists.
Qed.

(** An empty channel that is closed fails, one that is open waits. *)
Lemma read_item_empty ch : channel_holds ch [] ->
  Channel_read_item [] ch = Done (ch, if ch_is_closed ch then ChErr Closed else ChWaiting).
Proof.
  intros Hr. unfold Channel_read_item, read_items. cbn [read_items_loop length Nat.ltb Nat.leb Nat.add].
  unfold readable_length. rewrite (hd_count _ _ Hr). cbn. by destruct (ch_is_closed ch).
Qed.

Lemma write_items_loop_repeats items block n : forall fuel env ch l pushed, channel_holds ch l ->
  ch_is_closed ch = false -> pushed + n = length items -> n < fuel ->
  DYNAMIC = true -> (Z.of_nat (length l + n * length items) <= 2 ^ 63)%Z ->
  exists ch1, write_items_loop t_size fuel env ch items block pushed = Done (ch1, ChOk (length items)) /\
    channel_holds ch1 (rounds l items n).
Proof.
  induction n as [|n IH]; intros fuel env ch l pushed Hr Hopen Hn Hf HD Hfit;
    (destruct fuel as [|fuel]; [lia|]).
  - exists ch. cbn [write_items_loop]. rewrite (proj2 (Nat.ltb_ge _ _)) by lia.
    split; [do 2 f_equal; f_equal; lia|]. unfold rounds. cbn. by rewrite app_nil_r.
  - destruct (write_items_round fuel env ch l items block pushed Hr Hopen) as (ch1 & -> & Hr1 & Ho1 & _).
    { lia. }
    { right. split; [done|]. cbn in Hfit. lia. }
    rewrite <- rounds_S. apply IH; [done..|lia|lia|done|]. rewrite length_app. cbn in Hfit. lia.
Qed.

(** A write of several items to an open growing channel puts the whole slice in
    once per item of the slice: [k] items are enqueued [k] times over. *)
Lemma write_items_repeats env ch l items block : channel_holds ch l -> ch_is_closed ch = false ->
  DYNAMIC = true -> (Z.of_nat (length l + length items * length items) <= 2 ^ 63)%Z ->
  exists ch1, write_items t_size env ch items block = Done (ch1, ChOk (length items)) /\
    channel_holds ch1 (rounds l items (length items)).
Proof. intros. apply write_items_loop_repeats; (done || lia). Qed.

End ChannelFacts.

(** Two items are enqueued twice. *)
Example write_two_items :
  (let! (ch, _) := write_items (B := DynamicBuffer) 1 []
     (Channel_with_buffer (LinearFifo_init 0)) [1; 2]%Z true in
   let! (ch1, r) := read_items (B := DynamicBuffer) [] ch 5 false in Done r) = Done (ChOk [1; 2; 1; 2]%Z).
Proof. vm_compute. reflexivity. Qed.
