(* ===== verification/Glob.v ===== *)
(** * Glob matching

    [glob/matcher.rs], the matcher of path patterns, and [detect_glob_syntax] of
    [glob/lib.rs]. The state of a match is a position in the pattern and one in
    the path, the last [*] ([wildcard]) and the last [**] ([globstar]) to go back
    to, and the stack of the alternatives [{a,b}] that were chosen.

    A round of the main loop is [main_loop]; the labelled breaks of its body are
    the constructors of [arm]. Indices are [nat]: the model is of patterns and
    paths below 2^31 bytes, where the [u32] indices and [i32] depths of the code
    are exact. The theorems are in [GlobTotal.v] and [GlobTheorems.v]. *)
From Stdlib Require Import ZArith Lia.
From stdpp Require Import base list numbers option.
From S2P Require Import Prelude Strings Wtf8.
#[local] Open Scope nat_scope.

(** ** State *)

Record Wildcard := mkWildcard {
  w_glob_index : nat;
  w_path_index : nat;
  w_brace_depth : Z;
}.

Record State := mkState {
  path_index : nat;
  glob_index : nat;
  wildcard : Wildcard;
  globstar : Wildcard;
  brace_depth : Z;
}.

Record Brace := mkBrace {
  open_brace_idx : nat;
  branch_idx : nat;
  close_brace_idx : nat;
}.

Record MatchResult := mkMatchResult { matches : bool; negated : bool }.

(** [Default] *)
Definition Wildcard_default : Wildcard := mkWildcard 0 0 0.
Definition State_default : State := mkState 0 0 Wildcard_default Wildcard_default 0.

(** [BoundedArray<Brace, 10>]: [push] fails on a full array. *)
Definition BRACE_STACK_CAPACITY : nat := 10.
Definition BRACE_BRANCH_BUDGET : Z := 10000.

Definition set_path_index (st : State) (i : nat) : State :=
  mkState i (glob_index st) (wildcard st) (globstar st) (brace_depth st).
Definition set_glob_index (st : State) (i : nat) : State :=
  mkState (path_index st) i (wildcard st) (globstar st) (brace_depth st).
Definition set_wildcard (st : State) (w : Wildcard) : State :=
  mkState (path_index st) (glob_index st) w (globstar st) (brace_depth st).
Definition set_globstar (st : State) (w : Wildcard) : State :=
  mkState (path_index st) (glob_index st) (wildcard st) w (brace_depth st).
Definition set_brace_depth (st : State) (d : Z) : State :=
  mkState (path_index st) (glob_index st) (wildcard st) (globstar st) d.

(** ** Characters *)

Definition ch_star : Z := 42.
Definition ch_question : Z := 63.
Definition ch_open_bracket : Z := 91.
Definition ch_backslash : Z := 92.
Definition ch_close_bracket : Z := 93.
Definition ch_caret : Z := 94.
Definition ch_bang : Z := 33.
Definition ch_comma : Z := 44.
Definition ch_dash : Z := 45.
Definition ch_slash : Z := 47.
Definition ch_open_brace : Z := 123.
Definition ch_close_brace : Z := 125.

(** [is_sep_native], on a target that is not Windows. *)
Definition is_separator (c : Z) : bool := Z.eqb c ch_slash.

(** [wtf8_byte_sequence_length], as a distance. *)
Definition seq_len (b : Z) : nat := Z.to_nat (wtf8_byte_sequence_length b).

Definition unescape_byte (c : Z) : Z :=
  if (c =? 97)%Z then 97%Z           (* a *)
  else if (c =? 98)%Z then 8%Z       (* b *)
  else if (c =? 110)%Z then 10%Z     (* n *)
  else if (c =? 114)%Z then 13%Z     (* r *)
  else if (c =? 116)%Z then 9%Z      (* t *)
  else c.

(** The new [*c] and [*glob_index]; [None] is an invalid pattern. *)
Definition unescape (c : Z) (glob : bytes) (gi : nat) : outcome (option (Z * nat)) :=
  if (c =? ch_backslash)%Z then
    let gi := gi + 1 in
    if length glob <=? gi then Done None
    else
      let! x := at_ glob gi in
      Done (Some (unescape_byte x, gi))
  else Done (Some (c, gi)).

Definition decode_wtf8_rune_at (l : bytes) (idx : nat) : outcome (Z * nat) :=
  let! b := at_ l idx in
  let len := wtf8_byte_sequence_length b in
  let n := Nat.min (length l - idx) 4 in
  let buf := four_of_list (sub l idx (idx + n)) in
  Done (decode_wtf8_rune_t buf len 0xFFFD, Z.to_nat len).

(** The new [*c], [*clen] and [*glob_index]; [None] is an invalid pattern. *)
Definition get_unicode (c : Z) (glob : bytes) (gi : nat) : outcome (option (Z * nat * nat)) :=
  if ((c <=? 0x5B) || ((0x5D <=? c) && (c <=? 0x7F)))%Z then Done (Some (c, 1, gi))
  else if (c =? ch_backslash)%Z then
    let gi := gi + 1 in
    if length glob <=? gi then Done None
    else
      let! x := at_ glob gi in
      if ((x =? 97) || (x =? 98) || (x =? 110) || (x =? 114) || (x =? 116))%Z
      then Done (Some (unescape_byte x, 1, gi))
      else
        let! (cp, len) := decode_wtf8_rune_at glob gi in
        Done (Some (cp, len, gi))
  else
    let! (cp, len) := decode_wtf8_rune_at glob gi in
    Done (Some (cp, len, gi)).

(** ** Backtracking *)

Definition backtrack (st : State) : State :=
  mkState (w_path_index (wildcard st)) (w_glob_index (wildcard st)) (wildcard st) (globstar st)
    (w_brace_depth (wildcard st)).

Definition set_w_path_index (w : Wildcard) (i : nat) : Wildcard :=
  mkWildcard (w_glob_index w) i (w_brace_depth w).

Definition skip_to_separator (st : State) (path : bytes) (is_end_invalid : bool) : State :=
  if path_index st =? length path then
    set_wildcard st (set_w_path_index (wildcard st) (w_path_index (wildcard st) + 1))
  else
    let i := skip_while (fun b => negb (is_separator b)) path (path_index st) in
    let i := if is_end_invalid || negb (i =? length path) then i + 1 else i in
    let w := set_w_path_index (wildcard st) i in
    set_globstar (set_wildcard st w) w.

(** [&l[i..i + pat.len()] == pat] *)
Definition slice_is (l : bytes) (i : nat) (pat : bytes) : bool :=
  bool_decide (sub l i (i + length pat) = pat).

(** ["/**/"] and ["/**"] *)
Definition slash_globstar_slash : bytes := [ch_slash; ch_star; ch_star; ch_slash].
Definition slash_globstar : bytes := [ch_slash; ch_star; ch_star].

Fixpoint skip_globstars_loop (fuel : nat) (glob : bytes) (gi : nat) : outcome nat :=
  match fuel with
  | O => NoFuel
  | S fuel =>
      if (gi + 4 <=? length glob) && slice_is glob gi slash_globstar_slash
      then skip_globstars_loop fuel glob (gi + 3)
      else Done gi
  end.

Definition skip_globstars (glob : bytes) (gi : nat) : outcome nat :=
  let! gi := skip_globstars_loop (S (length glob)) glob (gi + 2) in
  let gi := if (gi + 3 =? length glob) && slice_is glob gi slash_globstar then gi + 3 else gi in
  Done (gi - 2).

(** ** The arms of the main loop

    Where the code leaves an arm: to the next round, to the comparison with a
    literal ([break 'to_else]), past it ([break 'fallthrough]), with a result,
    or into [match_brace]. *)
Inductive arm :=
| Continue (st : State)
| ToElse (st : State)
| Fallthrough (st : State)
| ReturnFalse
| MatchBrace (st : State).

Section Arms.
Context (glob path : bytes) (glob_start : nat) (brace_stack : list Brace).

Definition star_arm (st : State) : outcome State :=
  let is_globstar := (glob_index st + 1 <? length glob)
                     && test_at glob (glob_index st + 1) (Z.eqb ch_star) in
  let! gi := (if is_globstar then skip_globstars glob (glob_index st) else Done (glob_index st)) in
  let pi := path_index st in
  let w := mkWildcard gi (pi + match path !! pi with Some b => seq_len b | None => 1 end)
             (brace_depth st) in
  let st := set_wildcard (set_glob_index st gi) w in
  let at_separator (st : State) :=
    if test_at path (path_index st) is_separator then set_wildcard st (globstar st) else st in
  if is_globstar then
    let gi := gi + 2 in
    let st := set_glob_index st gi in
    let is_end_invalid := gi <? length glob in
    if is_end_invalid && (pi =? length path) && (length glob - gi =? 2)
       && test_at glob gi is_separator && test_at glob (gi + 1) (Z.eqb ch_star)
    then Done st
    else
      let! segment_start :=
        (if gi - glob_start <? 3 then Done true
         else let! c := at_ glob (gi - 3) in Done (Z.eqb c ch_slash)) in
      let! segment_end :=
        (if negb is_end_invalid then Done true
         else let! c := at_ glob gi in Done (Z.eqb c ch_slash)) in
      if segment_start && segment_end then
        let st := if is_end_invalid then set_glob_index st (gi + 1) else st in
        Done (skip_to_separator st path is_end_invalid)
      else Done (at_separator st)
  else Done (at_separator (set_glob_index st (gi + 1))).

Definition question_arm (st : State) : arm :=
  match path !! path_index st with
  | Some b =>
      if negb (is_separator b) then
        Continue (set_path_index (set_glob_index st (glob_index st + 1)) (path_index st + seq_len b))
      else Fallthrough st
  | None => ToElse st
  end.

(** The items of a class up to its [\]]: [*glob_index] there, and whether the
    character [c] is among them. *)
Fixpoint class_loop (fuel : nat) (c : Z) (first is_match : bool) (gi : nat) : outcome (option (nat * bool)) :=
  match fuel with
  | O => NoFuel
  | S fuel =>
      if (gi <? length glob) && (first || negb (test_at glob gi (Z.eqb ch_close_bracket))) then
        let! low := at_ glob gi in
        let! r := get_unicode low glob gi in
        match r with
        | None => Done None
        | Some (low, low_len, gi) =>
            let gi := gi + low_len in
            let! r :=
              (if (gi + 1 <? length glob) && test_at glob gi (Z.eqb ch_dash)
                  && negb (test_at glob (gi + 1) (Z.eqb ch_close_bracket)) then
                 let gi := gi + 1 in
                 let! high := at_ glob gi in
                 let! r := get_unicode high glob gi in
                 match r with
                 | None => Done None
                 | Some (high, high_len, gi) => Done (Some (high, gi + high_len))
                 end
               else Done (Some (low, gi))) in
            match r with
            | None => Done None
            | Some (high, gi) =>
                let is_match := if ((low <=? c) && (c <=? high))%Z then true else is_match in
                class_loop fuel c false is_match gi
            end
        end
      else Done (Some (gi, is_match))
  end.

Definition class_arm (st : State) : outcome arm :=
  if path_index st <? length path then
    let gi := glob_index st + 1 in
    let negated := test_at glob gi (fun b => Z.eqb b ch_caret || Z.eqb b ch_bang) in
    let gi := if negated then gi + 1 else gi in
    let! (c, len) := decode_wtf8_rune_at path (path_index st) in
    let! r := class_loop (S (length glob)) c true false gi in
    match r with
    | None => Done ReturnFalse
    | Some (gi, is_match) =>
        if length glob <=? gi then Done ReturnFalse
        else
          let st := set_glob_index st (gi + 1) in
          if negb (Bool.eqb is_match negated)
          then Done (Continue (set_path_index st (path_index st + len)))
          else Done (Fallthrough st)
    end
  else Done (ToElse st).

Definition brace_arm (st : State) : arm :=
  match List.find (fun brace => open_brace_idx brace =? glob_index st) brace_stack with
  | Some brace =>
      Continue (set_brace_depth (set_glob_index st (branch_idx brace)) ((brace_depth st + 1) mod two8))
  | None => MatchBrace st
  end.

Definition skip_branch (st : State) : option State :=
  let gi := glob_index st in
  match List.find (fun frame => (open_brace_idx frame <? gi) && (gi <=? close_brace_idx frame))
          (rev brace_stack) with
  | Some frame =>
      let close := close_brace_idx frame in
      if close <? length glob
      then Some (set_brace_depth (set_glob_index st (close + 1)) ((brace_depth st - 1) mod two8))
      else Some (set_glob_index st close)
  | None => None
  end.

Definition branch_end_arm (st : State) : arm :=
  if (0 <? brace_depth st)%Z then
    match skip_branch st with
    | Some st => Continue st
    | None => ToElse st
    end
  else ToElse st.

(** The comparison with a literal. *)
Definition literal_arm (st : State) (ch : Z) : outcome arm :=
  if path_index st <? length path then
    let! r := unescape ch glob (glob_index st) in
    match r with
    | None => Done ReturnFalse
    | Some (cc, gi) =>
        let st := set_glob_index st gi in
        let n := seq_len cc in
        let pi := path_index st in
        let! b := at_ path pi in
        let is_match :=
          if Z.eqb cc ch_slash then is_separator b
          else if 1 <? n then
            (pi + n <=? length path) && (gi + n <=? length glob)
            && bool_decide (sub path pi (pi + n) = sub glob gi (gi + n))
          else Z.eqb b cc in
        if is_match then
          let st := set_path_index (set_glob_index st (gi + n)) (pi + n) in
          Done (Continue (if Z.eqb cc ch_slash then set_wildcard st (globstar st) else st))
        else Done (Fallthrough st)
    end
  else Done (Fallthrough st).

Definition glob_arm (st : State) (ch : Z) : outcome arm :=
  if Z.eqb ch ch_star then let! st := star_arm st in Done (Continue st)
  else if Z.eqb ch ch_question then Done (question_arm st)
  else if Z.eqb ch ch_open_bracket then class_arm st
  else if Z.eqb ch ch_open_brace then Done (brace_arm st)
  else if Z.eqb ch ch_comma || Z.eqb ch ch_close_brace then Done (branch_end_arm st)
  else Done (ToElse st).

(** How a round that does not go on ends the loop. *)
Inductive exit := Return (b : bool) | EnterBrace (st : State).

Definition retry (st : State) : State + exit :=
  if (0 <? w_path_index (wildcard st)) && (w_path_index (wildcard st) <=? length path)
  then inl (backtrack st)
  else inr (Return false).

Definition leave (a : arm) : State + exit :=
  match a with
  | Continue st => inl st
  | ToElse st | Fallthrough st => retry st
  | ReturnFalse => inr (Return false)
  | MatchBrace st => inr (EnterBrace st)
  end.

(** A round of ['main_loop]. *)
Definition main_loop (st : State) : outcome (State + exit) :=
  if (glob_index st <? length glob) || (path_index st <? length path) then
    match glob !! glob_index st with
    | Some ch =>
        let! a := glob_arm st ch in
        match a with
        | ToElse st => let! a := literal_arm st ch in Done (leave a)
        | a => Done (leave a)
        end
    | None => Done (retry st)
    end
  else Done (inr (Return true)).
End Arms.

(** ** Alternatives *)

Fixpoint find_brace_end_loop (fuel : nat) (glob : bytes) (i : nat) (depth : Z) (in_brackets : bool) : outcome nat :=
  match fuel with
  | O => NoFuel
  | S fuel =>
      match glob !! i with
      | None => Done (length glob)
      | Some b =>
          if Z.eqb b ch_open_brace && negb in_brackets then
            find_brace_end_loop fuel glob (i + 1) (depth + 1) in_brackets
          else if Z.eqb b ch_close_brace && negb in_brackets then
            if Z.eqb (depth - 1) 0 then Done i
            else find_brace_end_loop fuel glob (i + 1) (depth - 1) in_brackets
          else if Z.eqb b ch_open_bracket && negb in_brackets then
            find_brace_end_loop fuel glob (i + 1) depth true
          else if Z.eqb b ch_close_bracket then find_brace_end_loop fuel glob (i + 1) depth false
          else if Z.eqb b ch_backslash then find_brace_end_loop fuel glob (i + 2) depth in_brackets
          else find_brace_end_loop fuel glob (i + 1) depth in_brackets
      end
  end.

Definition find_brace_end (glob : bytes) (open_idx : nat) : outcome nat :=
  find_brace_end_loop (S (length glob)) glob open_idx 0 false.

Section Braces.
Context (glob path : bytes).

(** [glob_match_impl] at the state, the start of the pattern, the stack and the
    budget of a branch: whether it matched, and the budget that is left. The
    stack is as it was: what is pushed is popped. *)
Context (glob_match_impl : State -> nat -> list Brace -> Z -> outcome (bool * Z)).

Definition match_brace_branch (st : State) (open_brace_index branch_index close_brace_index : nat)
    (brace_stack : list Brace) (brace_budget : Z) : outcome (bool * Z) :=
  if Z.eqb brace_budget 0 then Done (false, brace_budget)
  else
    let brace_budget := (brace_budget - 1)%Z in
    if BRACE_STACK_CAPACITY <? length brace_stack + 1 then Done (false, brace_budget)
    else
      let brace_stack := brace_stack ++ [mkBrace open_brace_index branch_index close_brace_index] in
      let branch_state := set_brace_depth (set_glob_index st branch_index) (Z.of_nat (length brace_stack)) in
      glob_match_impl branch_state branch_index brace_stack brace_budget.

Fixpoint match_brace_loop (fuel : nat) (open_brace_index close_brace_index : nat) (brace_stack : list Brace)
    (st : State) (depth : Z) (in_brackets : bool) (branch_index : nat) (brace_budget : Z) : outcome (bool * Z) :=
  match fuel with
  | O => NoFuel
  | S fuel =>
      let next st := match_brace_loop fuel open_brace_index close_brace_index brace_stack
                       (set_glob_index st (glob_index st + 1)) in
      match glob !! glob_index st with
      | None => Done (false, brace_budget)
      | Some b =>
          if Z.eqb b ch_open_brace then
            if negb in_brackets then
              let depth := (depth + 1)%Z in
              next st depth in_brackets
                (if Z.eqb depth 1 then glob_index st + 1 else branch_index) brace_budget
            else next st depth in_brackets branch_index brace_budget
          else if Z.eqb b ch_close_brace then
            if negb in_brackets then
              let depth := (depth - 1)%Z in
              if Z.eqb depth 0 then
                match_brace_branch st open_brace_index branch_index close_brace_index brace_stack brace_budget
              else next st depth in_brackets branch_index brace_budget
            else next st depth in_brackets branch_index brace_budget
          else if Z.eqb b ch_comma then
            if Z.eqb depth 1 && negb in_brackets then
              let! (matched, brace_budget) := match_brace_branch st open_brace_index branch_index
                                                close_brace_index brace_stack brace_budget in
              if matched then Done (true, brace_budget)
              else next st depth in_brackets (glob_index st + 1) brace_budget
            else next st depth in_brackets branch_index brace_budget
          else if Z.eqb b ch_open_bracket then next st depth true branch_index brace_budget
          else if Z.eqb b ch_close_bracket then next st depth false branch_index brace_budget
          else if Z.eqb b ch_backslash then
            next (set_glob_index st (glob_index st + 1)) depth in_brackets branch_index brace_budget
          else next st depth in_brackets branch_index brace_budget
      end
  end.

Definition match_brace (st : State) (brace_stack : list Brace) (brace_budget : Z) : outcome (bool * Z) :=
  let open_brace_index := glob_index st in
  let! close_brace_index := find_brace_end glob open_brace_index in
  match_brace_loop (S (length glob)) open_brace_index close_brace_index brace_stack st 0 false 0 brace_budget.
End Braces.

(** The rounds of a main loop are below [2 ^ ROUNDS] (see [GlobTotal.v]), and
    calls nest only as deep as the stack. *)
Definition ROUNDS : nat := 256.

Fixpoint glob_match_impl (fuel : nat) (glob path : bytes) (st : State) (glob_start : nat)
    (brace_stack : list Brace) (brace_budget : Z) : outcome (bool * Z) :=
  match fuel with
  | O => NoFuel
  | S fuel =>
      let! x := rounds ROUNDS (main_loop glob path glob_start brace_stack) st in
      match x with
      | inl _ => NoFuel
      | inr (Return b) => Done (b, brace_budget)
      | inr (EnterBrace st) => match_brace glob (glob_match_impl fuel glob path) st brace_stack brace_budget
      end
  end.

Definition glob_match (glob path : bytes) : outcome MatchResult :=
  let glob_start := prefix_len (Z.eqb ch_bang) glob in
  let negated := Nat.odd glob_start in
  let st := set_glob_index State_default glob_start in
  let! (matched, _) := glob_match_impl (S BRACE_STACK_CAPACITY) glob path st glob_start []
                         BRACE_BRANCH_BUDGET in
  Done (mkMatchResult (negb (Bool.eqb matched negated)) negated).

(** ** [detect_glob_syntax] *)

(** [while i > 0 && slice[i - 1] == b'\\' { escaped = !escaped; i -= 1 }] *)
Fixpoint escaped_at (slice : bytes) (i : nat) : bool :=
  match i with
  | O => false
  | S i' => if test_at slice i' (Z.eqb ch_backslash) then negb (escaped_at slice i') else false
  end.

Fixpoint detect_token (fuel : nat) (slice : bytes) (token : Z) : outcome bool :=
  match fuel with
  | O => NoFuel
  | S fuel =>
      match index_of_char slice token with
      | Some idx =>
          if negb (escaped_at slice idx) then Done true
          else detect_token fuel (drop (idx + 1) slice) token
      | None => Done false
      end
  end.

Definition SPECIAL_SYNTAX : bytes := [ch_star; ch_open_brace; ch_open_bracket; ch_question].

Fixpoint detect_tokens (pattern : bytes) (tokens : bytes) : outcome bool :=
  match tokens with
  | [] => Done false
  | token :: tokens =>
      let! found := detect_token (S (length pattern)) pattern token in
      if found then Done true else detect_tokens pattern tokens
  end.

Definition detect_glob_syntax (potential_pattern : bytes) : outcome bool :=
  if test_at potential_pattern 0 (Z.eqb ch_bang) then Done true
  else detect_tokens potential_pattern SPECIAL_SYNTAX.
