(* ===== verification/GlobTotal.v ===== *)
(** * Termination of glob matching

    The matcher of [Glob.v] ends without a panic on every pattern and path,
    malformed ones included. A round of the main loop moves forward in the
    pattern or goes back to a wildcard, so no single index bounds the loop: the
    measure [rank] is lexicographic, with the position of the last [**] first,
    then the part of the pattern that was passed since, the last [*] and at last
    the position in the pattern. *)
From Stdlib Require Import ZArith Lia.
From stdpp Require Import base list numbers option.
From S2P Require Import Prelude Strings Wtf8 Glob.
#[local] Open Scope nat_scope.

#[export] Instance GlobWildcard_eq_dec : EqDecision Wildcard.
Proof. solve_decision. Defined.

(** Reduces the fields of states that were written. *)
Ltac simpl_state :=
  unfold set_path_index, set_glob_index, set_wildcard, set_globstar, set_brace_depth, set_w_path_index;
  cbn [path_index glob_index wildcard globstar brace_depth w_path_index w_glob_index w_brace_depth].

(** ** Helpers *)

Lemma seq_len_bounds b : 1 <= seq_len b <= 4.
Proof. unfold seq_len, wtf8_byte_sequence_length. repeat case_if; lia. Qed.

Lemma decode_at_total l i : i < length l ->
  exists c n, decode_wtf8_rune_at l i = Done (c, n) /\ 1 <= n <= 4.
Proof.
  intros H. unfold decode_wtf8_rune_at. destruct (at_lt l i H) as (x & _ & ->). cbn [obind].
  eexists _, _. split; [done|]. apply seq_len_bounds.
Qed.

Lemma unescape_total c glob gi : gi < length glob ->
  exists r, unescape c glob gi = Done r /\
  match r with Some (_, gi') => gi <= gi' < length glob | None => True end.
Proof.
  intros H. unfold unescape. repeat case_if; bool_facts; try (by eexists; split; [done|]; cbv beta iota; lia).
  destruct (at_lt glob (gi + 1)) as (x & _ & ->); [done|]. cbn [obind]. eexists. split; [done|]. cbv beta iota. lia.
Qed.

Lemma get_unicode_total c glob gi : gi < length glob ->
  exists r, get_unicode c glob gi = Done r /\
  match r with Some (_, n, gi') => gi <= gi' < length glob /\ 1 <= n <= 4 | None => True end.
Proof.
  intros H. unfold get_unicode. case_if; [eexists; split; [done|]; cbv beta iota; lia|].
  case_if; [case_if|].
  - eexists. split; [done|]. done.
  - bool_facts. destruct (at_lt glob (gi + 1)) as (x & _ & ->); [done|]. cbn [obind].
    case_if; [eexists; split; [done|]; cbv beta iota; lia|].
    destruct (decode_at_total glob (gi + 1)) as (cp & n & -> & ?); [done|]. cbn [obind].
    eexists. split; [done|]. cbv beta iota. lia.
  - destruct (decode_at_total glob gi H) as (cp & n & -> & ?). cbn [obind].
    eexists. split; [done|]. cbv beta iota. lia.
Qed.

Lemma class_loop_total glob fuel c first b gi : length glob - gi < fuel ->
  exists r, class_loop glob fuel c first b gi = Done r /\
  match r with Some (gi', _) => gi <= gi' | None => True end.
Proof.
  revert first b gi. induction fuel as [|fuel IH]; intros first b gi Hf; [lia|]. cbn [class_loop].
  destruct (_ && _) eqn:Hc; [|eexists; split; [done|]; cbv beta iota; lia]. bool_facts.
  destruct (at_lt glob gi) as (low & _ & ->); [done|]. cbn [obind].
  destruct (get_unicode_total low glob gi) as ([[[low' n] gi']|] & -> & Hu); [done| |by eexists]. cbn [obind].
  assert (forall x gi'', gi' + n <= gi'' -> exists r,
    class_loop glob fuel c false x gi'' = Done r /\ match r with Some (g, _) => gi <= g | None => True end) as Hrec.
  { intros x gi'' Hg. destruct (IH false x gi'') as (r & -> & Hr); [lia|]. eexists. split; [done|].
    destruct r as [[? ?]|]; [lia|done]. }
  destruct (_ && negb (test_at glob (gi' + n + 1) _)) eqn:Hd; [|cbn [obind]; by apply Hrec].
  bool_facts. destruct (at_lt glob (gi' + n + 1)) as (high & _ & ->); [done|]. cbn [obind].
  destruct (get_unicode_total high glob (gi' + n + 1)) as ([[[h' m] g]|] & -> & Hu'); [done| |by eexists].
  cbn [obind]. apply Hrec. lia.
Qed.

Lemma skip_globstars_loop_total glob fuel gi : length glob - gi < fuel -> gi <= length glob ->
  exists gi', skip_globstars_loop fuel glob gi = Done gi' /\ gi <= gi' <= length glob /\
    (gi' = gi \/ 2 <= gi' /\ glob !! (gi' - 2) = Some ch_star /\ glob !! (gi' - 1) = Some ch_star) /\
    (gi' + 4 <=? length glob) && slice_is glob gi' slash_globstar_slash = false.
Proof.
  revert gi. induction fuel as [|fuel IH]; intros gi Hf Hg; [lia|]. cbn [skip_globstars_loop].
  destruct (_ && _) eqn:Hc; [|exists gi; split_and!; first [done|lia|by left]].
  bool_facts. destruct (IH (gi + 3)) as (gi' & -> & Hb & Hs & Hn); [lia..|].
  exists gi'. split_and!; [done|lia|lia| |done]. right. destruct Hs as [->|Hs]; [|done].
  apply bool_decide_eq_true in H0. unfold sub, slash_globstar_slash in H0. cbn [length] in H0.
  assert (forall k x, take 4 (drop gi glob) !! k = Some x -> glob !! (gi + k) = Some x) as Hl.
  { intros k x Hx. apply lookup_take_Some in Hx as [Hx _]. by rewrite lookup_drop in Hx. }
  replace (gi + 4 - gi) with 4 in H0 by lia. rewrite H0 in Hl.
  split; [lia|]. replace (gi + 3 - 2) with (gi + 1) by lia. replace (gi + 3 - 1) with (gi + 2) by lia.
  split; by apply Hl.
Qed.

(** A [*] that [star_arm] goes back to: [skip_globstars] has nothing to skip. *)
Definition double_star (glob : bytes) (i : nat) : Prop :=
  glob !! i = Some ch_star /\ glob !! (i + 1) = Some ch_star.

Definition settled (glob : bytes) (i : nat) : Prop :=
  glob !! i = Some ch_star /\
  (glob !! (i + 1) = Some ch_star -> skip_globstars glob i = Done i).

Lemma skip_globstars_stay glob gi :
  (gi + 2 + 4 <=? length glob) && slice_is glob (gi + 2) slash_globstar_slash = false ->
  (gi + 2 + 3 =? length glob) && slice_is glob (gi + 2) slash_globstar = false ->
  skip_globstars glob gi = Done gi.
Proof.
  intros H1 H2. unfold skip_globstars. cbn [skip_globstars_loop]. rewrite H1. cbn [obind]. rewrite H2.
  f_equal. lia.
Qed.

Lemma skip_globstars_total glob gi : double_star glob gi ->
  exists gi', skip_globstars glob gi = Done gi' /\ gi <= gi' /\ gi' + 2 <= length glob /\
    double_star glob gi' /\ skip_globstars glob gi' = Done gi'.
Proof.
  intros [H1 H2]. pose proof (lookup_lt_Some _ _ _ H2) as Hl.
  destruct (skip_globstars_loop_total glob (S (length glob)) (gi + 2)) as (x & Hx & Hb & Hs & Hn); [lia..|].
  assert (double_star glob (x - 2)) as Hd.
  { unfold double_star. destruct Hs as [->|(? & ? & ?)].
    - replace (gi + 2 - 2) with gi by lia. by split.
    - replace (x - 2 + 1) with (x - 1) by lia. by split. }
  unfold skip_globstars at 1. rewrite Hx. cbn [obind].
  destruct (_ && slice_is glob x slash_globstar) eqn:He.
  - bool_facts. rename H into Hlen. apply bool_decide_eq_true in H0.
    unfold sub, slash_globstar in H0. cbn [length] in H0. replace (x + 3 - x) with 3 in H0 by lia.
    assert (forall k y, take 3 (drop x glob) !! k = Some y -> glob !! (x + k) = Some y) as Hk.
    { intros k y Hy. apply lookup_take_Some in Hy as [Hy _]. by rewrite lookup_drop in Hy. }
    rewrite H0 in Hk. exists (x + 3 - 2). split_and!; [done|lia|lia| |].
    + unfold double_star. replace (x + 3 - 2) with (x + 1) by lia. replace (x + 1 + 1) with (x + 2) by lia.
      split; by apply Hk.
    + apply skip_globstars_stay; apply andb_false_iff; left;
        [apply Nat.leb_gt; lia|apply Nat.eqb_neq; lia].
  - exists (x - 2). split_and!; [done|lia|lia|done|].
    apply skip_globstars_stay; replace (x - 2 + 2) with x by lia; done.
Qed.

(** ** The invariant of the main loop *)

Section Loop.
Context (glob path : bytes) (start : nat) (stack : list Brace).
#[local] Abbreviation G := (length glob).
#[local] Abbreviation P := (length path).

Definition frame_ok (b : Brace) : Prop := open_brace_idx b < branch_idx b <= G /\ close_brace_idx b <= G.

(** A [**] that is a whole segment, where [star_arm] calls [skip_to_separator]. *)
Definition segment_start (x : nat) : Prop := x - start < 3 \/ glob !! (x - 3) = Some ch_slash.
Definition segment_end (x : nat) : Prop := G <= x \/ glob !! x = Some ch_slash.

Definition globstar_ok (i : nat) : Prop :=
  settled glob i /\ double_star glob i /\ segment_start (i + 2) /\ segment_end (i + 2).

(** The path is exhausted and there is nothing to go back to. *)
Definition dead (st : State) : bool := (P <=? path_index st) && (P <? w_path_index (wildcard st)).

(** [pos] is where in the pattern the part begins that was not passed for good
    since the last [**]. *)
Record Wf (st : State) (pos : nat) : Prop := {
  wf_glob : glob_index st <= G;
  wf_path : path_index st <= P + 3;
  wf_w_path : w_path_index (wildcard st) <= P + 8;
  wf_g_path : w_path_index (globstar st) <= P + 8;
  wf_pos : dead st = false -> pos <= glob_index st;
  wf_w : 0 < w_path_index (wildcard st) ->
    settled glob (w_glob_index (wildcard st)) /\ w_glob_index (wildcard st) <= glob_index st;
  wf_g : 0 < w_path_index (globstar st) ->
    globstar_ok (w_glob_index (globstar st)) /\ w_glob_index (globstar st) <= glob_index st;
  wf_g0 : w_path_index (globstar st) = 0 -> w_glob_index (globstar st) = 0;
  wf_at : 0 < w_path_index (wildcard st) -> glob_index st = w_glob_index (wildcard st) ->
    path_index st = w_path_index (wildcard st);
  wf_own : dead st = false -> wildcard st <> globstar st ->
    0 < w_path_index (wildcard st) /\ pos <= w_glob_index (wildcard st) /\
    (0 < w_path_index (globstar st) -> w_glob_index (globstar st) < w_glob_index (wildcard st));
}.

(** Whether the loop is about to read the [*] it went back to. *)
Definition returned (st : State) : bool :=
  (0 <? w_path_index (wildcard st)) && (glob_index st =? w_glob_index (wildcard st)).

Definition BASE : Z := 17179869184.

Definition rank (st : State) (pos : nat) : Z :=
  (if dead st then BASE ^ 6 + Z.of_nat (glob_index st)
   else
     let same := bool_decide (wildcard st = globstar st) in
     let w := wildcard st in let g := globstar st in
     let r := if returned st then 1 else 0 in
     ((((Z.of_nat (w_glob_index g) * BASE
         + (2 * Z.of_nat (w_path_index g) + (if same then r else 0))) * BASE
        + Z.of_nat pos) * BASE
       + (if same then 0 else Z.of_nat (w_glob_index w) + 1)) * BASE
      + (if same then 0 else 2 * Z.of_nat (w_path_index w) + r)) * BASE
     + Z.of_nat (glob_index st))%Z.

Hypothesis HG : (Z.of_nat G < 2 ^ 31)%Z.
Hypothesis HP : (Z.of_nat P < 2 ^ 31)%Z.

(** The digits of [rank] are below its base. *)
Lemma digits_bounds st pos : Wf st pos -> dead st = false ->
  (Z.of_nat G < 2147483648 /\ Z.of_nat P < 2147483648)%Z /\ pos <= glob_index st <= G /\
  w_path_index (wildcard st) <= P + 8 /\ w_path_index (globstar st) <= P + 8 /\
  w_glob_index (globstar st) <= glob_index st /\ w_glob_index (wildcard st) <= glob_index st.
Proof.
  intros [H1 H2 H3 H4 H5 H6 H7 H8 _ H9] Hd. change (2 ^ 31)%Z with 2147483648%Z in *.
  specialize (H5 Hd). destruct (decide (0 < w_path_index (globstar st))) as [Hg|Hg].
  all: destruct (decide (wildcard st = globstar st)) as [->|Hn]; [|destruct (H9 Hd Hn) as (Hw & _)].
  all: naive_solver lia.
Qed.

Lemma rank_dead st pos : dead st = true -> rank st pos = (BASE ^ 6 + Z.of_nat (glob_index st))%Z.
Proof. unfold rank. by intros ->. Qed.

Lemma rank_alive st pos : Wf st pos -> dead st = false -> (0 <= rank st pos < BASE ^ 6)%Z.
Proof.
  intros Hwf Hd. pose proof (digits_bounds st pos Hwf Hd). unfold rank, BASE. rewrite Hd.
  case_bool_decide; destruct (returned st); lia.
Qed.

Lemma rank_bounds st pos : Wf st pos -> (0 <= rank st pos < BASE ^ 6 + BASE)%Z.
Proof.
  intros Hwf. destruct (dead st) eqn:Hd.
  - rewrite rank_dead by done. pose proof (wf_glob _ _ Hwf). unfold BASE. lia.
  - pose proof (rank_alive st pos Hwf Hd). unfold BASE in *. lia.
Qed.

(** ** A round makes progress *)

Definition progress (st : State) (pos : nat) (st' : State) : Prop :=
  exists pos', Wf st' pos' /\ (rank st pos < rank st' pos')%Z.

Lemma progress_dead st pos st' : Wf st pos -> Wf st' 0 -> dead st' = true ->
  glob_index st < glob_index st' -> progress st pos st'.
Proof.
  intros H H' Hd Hg. exists 0. split; [done|]. rewrite (rank_dead st') by done.
  destruct (dead st) eqn:E; [rewrite rank_dead by done; lia|].
  pose proof (rank_alive st pos H E). lia.
Qed.

Lemma returned_false st :
  (0 < w_path_index (wildcard st) -> glob_index st <> w_glob_index (wildcard st)) -> returned st = false.
Proof.
  intros H. unfold returned. apply andb_false_iff.
  destruct (Nat.ltb_spec 0 (w_path_index (wildcard st))); [right; by apply Nat.eqb_neq, H|by left].
Qed.

Lemma dead_false st : dead st = false <-> path_index st < P \/ w_path_index (wildcard st) <= P.
Proof. unfold dead. rewrite andb_false_iff, Nat.leb_gt, Nat.ltb_ge. done. Qed.

(** What is read moves both indices forward. *)
Lemma progress_forward st pos pi gi bd :
  Wf st pos -> returned st = false ->
  glob_index st < gi <= G -> path_index st <= pi <= P + 3 ->
  progress st pos (mkState pi gi (wildcard st) (globstar st) bd).
Proof.
  intros Hwf Hr Hg Hp. set (st' := mkState pi gi _ _ bd).
  assert (forall pos', (dead st' = false -> pos' = pos) -> Wf st' pos') as Hwf'.
  { intros pos' Hpos. destruct Hwf as [H1 H2 H3 H4 H5 H6 H7 H8 H9 H10].
    assert (dead st' = false -> dead st = false) as Hdd.
    { rewrite !dead_false. cbn [st' path_index wildcard]. lia. }
    split; cbn [path_index glob_index wildcard globstar st']; try (done || lia).
    - intros Hd. rewrite Hpos by done. specialize (H5 (Hdd Hd)). lia.
    - intros Hw. destruct (H6 Hw). split; [done|lia].
    - intros Hw. destruct (H7 Hw). split; [done|lia].
    - intros Hd Hn. rewrite Hpos by done. apply (H10 (Hdd Hd) Hn). }
  destruct (dead st') eqn:Hd'; [by apply progress_dead; [..|cbn; lia]; first [done|apply Hwf'] |].
  exists pos. split; [by apply Hwf'|].
  assert (dead st = false) as Hd.
  { revert Hd'. rewrite !dead_false. cbn [st' path_index wildcard]. lia. }
  unfold rank. rewrite Hd, Hd', Hr. assert (returned st' = false) as ->; [|cbn; lia].
  apply returned_false. cbn [st' glob_index wildcard]. intros Hw. destruct (wf_w _ _ Hwf Hw). lia.
Qed.

(** A [*] is given up for the last [**]. *)
Lemma progress_reset st pos pi gi bd :
  Wf st pos -> path_index st < P -> (wildcard st = globstar st -> returned st = false) ->
  glob_index st < gi <= G -> path_index st <= pi <= P + 3 ->
  progress st pos (mkState pi gi (globstar st) (globstar st) bd).
Proof.
  intros Hwf Hpi Hr Hg Hp. set (st' := mkState pi gi _ _ bd).
  assert (dead st = false) as Hd by (apply dead_false; by left).
  pose proof (digits_bounds st pos Hwf Hd) as Hb. destruct Hwf as [H1 H2 H3 H4 H5 H6 H7 H8 H9 H10].
  assert (Wf st' gi) as Hwf'.
  { split; cbn [path_index glob_index wildcard globstar st']; try (done || lia).
    all: intros Hw; destruct (H7 Hw) as [Hok ?]; (split; [|lia]); first [done|apply Hok]. }
  exists gi. split; [done|]. unfold rank. rewrite Hd.
  assert (returned st' = false) as ->.
  { apply returned_false. cbn [st' glob_index wildcard]. lia. }
  destruct (dead st'); [cbn [glob_index st']|]; unfold BASE.
  - case_bool_decide; destruct (returned st); lia.
  - rewrite (bool_decide_eq_true_2 (wildcard st' = _)) by done. cbn [glob_index wildcard globstar st'].
    case_bool_decide as He; [rewrite Hr by done; lia|]. destruct (returned st); lia.
Qed.

(** A new [*] to go back to. *)
Lemma progress_wildcard st pos gi pi' gi' bd :
  Wf st pos -> path_index st < P -> (wildcard st = globstar st -> returned st = false) ->
  glob_index st <= gi < gi' -> gi' <= G -> path_index st < pi' <= P + 8 -> settled glob gi ->
  (0 < w_path_index (globstar st) -> w_glob_index (globstar st) < gi) ->
  progress st pos (mkState (path_index st) gi' (mkWildcard gi pi' bd) (globstar st) bd).
Proof.
  intros Hwf Hpi Hr Hg Hg' Hp Hs Hgs. set (st' := mkState _ gi' _ _ bd).
  assert (dead st = false) as Hd by (apply dead_false; by left).
  assert (dead st' = false) as Hd' by (apply dead_false; by left).
  pose proof (digits_bounds st pos Hwf Hd) as Hb. destruct Hwf as [H1 H2 H3 H4 H5 H6 H7 H8 H9 H10].
  exists pos. split.
  { split; cbn [path_index glob_index wildcard globstar w_path_index w_glob_index st']; try (done || lia).
    - intros _. split; [done|lia].
    - intros Hw. destruct (H7 Hw). split; [done|lia]. }
  unfold rank. rewrite Hd, Hd'.
  assert (returned st' = false) as ->.
  { apply returned_false. cbn [st' glob_index wildcard w_glob_index]. lia. }
  rewrite (bool_decide_eq_false_2 (wildcard st' = _)).
  2: { cbn [wildcard globstar st']. intros E. rewrite <- E in Hgs. cbn in Hgs. lia. }
  cbn [glob_index wildcard globstar w_path_index w_glob_index st']. unfold BASE.
  case_bool_decide as He; [rewrite Hr by done; lia|].
  destruct (H10 Hd He) as (Hw & ? & ?). destruct (returned st) eqn:Er; [|lia].
  unfold returned in Er. bool_facts. rewrite (H9 Hw) in * by done. lia.
Qed.

(** A new [**], or the last one further on. *)
Lemma progress_globstar st pos gi pi' gi' bd :
  Wf st pos -> path_index st < P -> glob_index st <= gi < gi' -> gi' <= G ->
  path_index st < pi' <= P + 8 -> globstar_ok gi ->
  progress st pos (mkState (path_index st) gi' (mkWildcard gi pi' bd) (mkWildcard gi pi' bd) bd).
Proof.
  intros Hwf Hpi Hg Hg' Hp Hs. set (st' := mkState _ gi' _ _ bd).
  assert (dead st = false) as Hd by (apply dead_false; by left).
  assert (dead st' = false) as Hd' by (apply dead_false; by left).
  pose proof (digits_bounds st pos Hwf Hd) as Hb. destruct Hwf as [H1 H2 H3 H4 H5 H6 H7 H8 H9 H10].
  exists 0. split.
  { split; cbn [path_index glob_index wildcard globstar w_path_index w_glob_index st']; try (done || lia).
    all: intros _; destruct Hs; split; [done|lia]. }
  unfold rank. rewrite Hd, Hd', (bool_decide_eq_true_2 (wildcard st' = _)) by done.
  assert (returned st' = false) as ->.
  { apply returned_false. cbn [st' glob_index wildcard w_glob_index]. lia. }
  cbn [glob_index wildcard globstar w_path_index w_glob_index st']. unfold BASE.
  destruct (decide (w_glob_index (globstar st) < gi)); [case_bool_decide; destruct (returned st); lia|].
  case_bool_decide as He.
  - destruct (decide (0 < w_path_index (globstar st))) as [Hw|Hw].
    + rewrite He in *. assert (path_index st = w_path_index (globstar st)) by (apply H9; [done|lia]).
      destruct (returned st); lia.
    + assert (returned st = false) as ->; [|lia]. apply returned_false. rewrite He. lia.
  - destruct (H10 Hd He) as (Hw & ? & ?). destruct (returned st); lia.
Qed.

Lemma progress_backtrack st pos :
  Wf st pos -> returned st = false -> 0 < w_path_index (wildcard st) <= P ->
  progress st pos (backtrack st).
Proof.
  intros Hwf Hr Hw. unfold backtrack. set (st' := mkState _ _ _ _ _).
  assert (dead st = false) as Hd by (apply dead_false; lia).
  assert (dead st' = false) as Hd' by (apply dead_false; cbn; lia).
  pose proof (digits_bounds st pos Hwf Hd) as Hb. destruct Hwf as [H1 H2 H3 H4 H5 H6 H7 H8 H9 H10].
  assert (returned st' = true) as Hr'.
  { unfold returned. cbn [st' wildcard glob_index]. rewrite Nat.eqb_refl, andb_true_r. apply Nat.ltb_lt. lia. }
  exists (if bool_decide (wildcard st = globstar st) then 0 else pos). split.
  - destruct (H6 ltac:(lia)) as [Hs _].
    split; cbn [path_index glob_index wildcard globstar w_path_index w_glob_index st']; try (done || lia).
    + case_bool_decide; [lia|]. destruct (H10 Hd ltac:(done)) as (? & ? & ?). lia.
    + intros Hg. destruct (H7 Hg) as [? ?]. split; [done|].
      destruct (decide (wildcard st = globstar st)) as [->|Hn]; [lia|]. destruct (H10 Hd Hn) as (? & ? & ?). lia.
    + intros _ Hn. rewrite bool_decide_eq_false_2 by done. by apply H10.
  - unfold rank. rewrite Hd, Hd', Hr, Hr'. cbn [glob_index wildcard globstar w_path_index w_glob_index st'].
    unfold BASE. case_bool_decide; lia.
Qed.

(** A wildcard met at the end of the path. *)
Lemma progress_at_end st pos gi pi' gi' g bd :
  Wf st pos -> P <= path_index st -> glob_index st <= gi < gi' -> gi' <= G ->
  P < pi' <= P + 8 -> settled glob gi ->
  g = globstar st \/ g = mkWildcard gi pi' bd /\ globstar_ok gi ->
  progress st pos (mkState (path_index st) gi' (mkWildcard gi pi' bd) g bd).
Proof.
  intros Hwf Hpi Hg Hg' Hp Hs Hgs. set (st' := mkState _ gi' _ _ bd).
  assert (dead st' = true) as Hd'.
  { unfold dead. cbn [st' path_index wildcard w_path_index]. apply andb_true_iff.
    rewrite Nat.leb_le, Nat.ltb_lt. lia. }
  apply progress_dead; [done| |done|cbn [st' glob_index]; lia].
  destruct Hwf as [H1 H2 H3 H4 H5 H6 H7 H8 H9 H10].
  split; cbn [path_index glob_index wildcard globstar w_path_index w_glob_index st']; try (done || lia).
  - destruct Hgs as [->|[-> _]]; [done|]. cbn [w_path_index]. lia.
  - intros _. split; [done|lia].
  - destruct Hgs as [->|[-> Hok]]; [|intros _; cbn [w_glob_index]; split; [done|lia]].
    intros Hw. destruct (H7 Hw). split; [done|lia].
  - destruct Hgs as [->|[-> _]]; [done|]. cbn [w_path_index]. lia.
  - by rewrite Hd'.
Qed.

Lemma star_arm_plain st pos gi gi' bd :
  Wf st pos -> glob_index st <= gi < gi' -> gi' <= G -> settled glob gi ->
  (settled glob (glob_index st) -> gi = glob_index st) -> ~ globstar_ok gi \/ P <= path_index st ->
  let pi := path_index st in
  let w := mkWildcard gi (pi + match path !! pi with Some b => seq_len b | None => 1 end) bd in
  let st' := mkState pi gi' w (globstar st) bd in
  progress st pos (if test_at path pi is_separator then set_wildcard st' (globstar st) else st').
Proof.
  intros Hwf Hg Hg' Hs Hset Hn pi w st'. destruct (Nat.lt_ge_cases pi P) as [Hpi|Hpi].
  - destruct Hn as [Hn|]; [|lia].
    assert (0 < w_path_index (globstar st) -> w_glob_index (globstar st) < gi) as Hgs.
    { intros Hw. destruct (wf_g _ _ Hwf Hw) as [Hok ?].
      destruct (decide (w_glob_index (globstar st) = gi)) as [E|]; [|lia]. by rewrite E in Hok. }
    assert (wildcard st = globstar st -> returned st = false) as Hr.
    { intros E. apply returned_false. rewrite E. intros Hw E'. specialize (Hgs Hw).
      destruct (wf_g _ _ Hwf Hw) as [[Hok _] _]. rewrite <- E' in Hok, Hgs. rewrite (Hset Hok) in Hgs. lia. }
    case_if; [change (progress st pos (mkState pi gi' (globstar st) (globstar st) bd));
      apply progress_reset; first [done|lia]|].
    apply progress_wildcard; try (done || lia). pose proof (wf_path _ _ Hwf).
    destruct (path !! pi) as [b|]; [pose proof (seq_len_bounds b)|]; lia.
  - assert (path !! pi = None) as E by by apply lookup_ge_None. unfold test_at. subst st' w. rewrite E.
    pose proof (wf_path _ _ Hwf). apply progress_at_end; first [done|lia|by left].
Qed.

Lemma segment_start_total x : 0 < x <= G -> exists b,
  (if x - start <? 3 then Done true else let! c := at_ glob (x - 3) in Done (Z.eqb c ch_slash)) = Done b /\
  (b = true <-> segment_start x).
Proof.
  intros Hx. unfold segment_start. destruct (Nat.ltb_spec (x - start) 3); [exists true; naive_solver|].
  destruct (at_lt glob (x - 3)) as (c & E & ->); [lia|]. cbn [obind]. eexists. split; [done|].
  rewrite E, Z.eqb_eq. naive_solver lia.
Qed.

Lemma segment_end_total x : exists b,
  (if negb (x <? G) then Done true else let! c := at_ glob x in Done (Z.eqb c ch_slash)) = Done b /\
  (b = true <-> segment_end x).
Proof.
  unfold segment_end. destruct (Nat.ltb_spec x G) as [Hx|]; cbn [negb]; [|exists true; naive_solver].
  destruct (at_lt glob x Hx) as (c & E & ->). cbn [obind]. eexists. split; [done|].
  rewrite E, Z.eqb_eq. naive_solver lia.
Qed.

(** What [skip_to_separator] makes of a [**]. *)
Lemma skip_to_separator_progress st pos gi pi' gi' bd e :
  Wf st pos -> glob_index st <= gi < gi' -> gi' <= G -> globstar_ok gi ->
  pi' = path_index st + 1 \/ path_index st < P ->
  progress st pos (skip_to_separator (mkState (path_index st) gi' (mkWildcard gi pi' bd) (globstar st) bd) path e).
Proof.
  intros Hwf Hg Hg' Hok Hpi'. pose proof (wf_path _ _ Hwf) as Hpi. unfold skip_to_separator.
  simpl_state.
  destruct (Nat.eqb_spec (path_index st) P) as [E|E].
  - apply progress_at_end; try (done || lia); [apply Hok|by left].
  - set (i := skip_while _ path _). set (j := if _ || _ then _ else _).
    assert (path_index st <= i) by (unfold i, skip_while; lia).
    assert (path_index st < P -> i <= P) as Hi.
    { intros. pose proof (skip_while_bounds (fun b => negb (is_separator b)) path (path_index st)). lia. }
    assert (P < path_index st -> i = path_index st) as Hi'.
    { intros. unfold i, skip_while. rewrite drop_ge by lia. simpl. lia. }
    assert (path_index st < j <= P + 8 /\ (P < path_index st -> P < j)).
    { subst j. destruct (e || negb (i =? P)) eqn:Hb; [lia|]. apply orb_false_iff in Hb as [_ Hb]. bool_facts. lia. }
    destruct (Nat.lt_ge_cases (path_index st) P).
    + apply progress_globstar; try (done || lia).
    + apply progress_at_end; try (done || lia); [apply Hok|by right].
Qed.

Lemma star_arm_progress st pos : Wf st pos -> glob !! glob_index st = Some ch_star ->
  exists st', star_arm glob path start st = Done st' /\ progress st pos st'.
Proof.
  intros Hwf Hc. pose proof (lookup_lt_Some _ _ _ Hc) as Hl. pose proof (wf_path _ _ Hwf) as Hpi.
  unfold star_arm. set (dbl := (_ <? _) && test_at glob (glob_index st + 1) _).
  destruct dbl eqn:Hdbl; cycle 1; cbn zeta beta iota.
  - cbn [obind]. eexists. split; [done|].
    assert (glob !! (glob_index st + 1) <> Some ch_star) as Hns.
    { intros E. subst dbl. rewrite (proj2 (test_at_eq _ _ _) E), andb_true_r in Hdbl.
      apply lookup_lt_Some in E. apply Nat.ltb_ge in Hdbl. lia. }
    simpl_state.
    apply (star_arm_plain st pos (glob_index st)); try (done || lia).
    left. intros (_ & [_ ?] & _). done.
  - subst dbl. bool_facts. apply test_at_eq in H0.
    destruct (skip_globstars_total glob (glob_index st)) as (gi & Hskip & Hg & Hg2 & Hd & Hsk); [done|].
    assert (settled glob gi) as Hs by (split; [apply Hd|done]).
    assert (settled glob (glob_index st) -> gi = glob_index st) as Hset.
    { intros [_ Hss]. specialize (Hss H0). congruence. }
    rewrite Hskip. cbn [obind]. simpl_state.
    match goal with |- context [if ?c then Done _ else _] => destruct c eqn:Hfix end.
    + eexists. split; [done|]. bool_facts. assert (path !! path_index st = None) as -> by (apply lookup_ge_None; lia).
      apply progress_at_end; try (done || lia). by left.
    + destruct (segment_start_total (gi + 2)) as (b1 & -> & Hb1); [lia|]. cbn [obind].
      destruct (segment_end_total (gi + 2)) as (b2 & -> & Hb2). cbn [obind].
      destruct (b1 && b2) eqn:Hbb.
      * eexists. split; [done|]. bool_facts. subst.
        assert (globstar_ok gi) by (split_and!; [done|done|by apply Hb1|by apply Hb2]).
        pose proof (fun l => lookup_ge_None_2 path (path_index st) l) as Hend.
        destruct (Nat.ltb_spec (gi + 2) G); apply skip_to_separator_progress; try (done || lia).
        all: destruct (Nat.lt_ge_cases (path_index st) P) as [|Hge]; [by right|left; by rewrite (Hend Hge)].
      * eexists. split; [done|]. apply (star_arm_plain st pos gi); try (done || lia).
        left. intros (_ & _ & Hx & Hy). apply Hb1 in Hx. apply Hb2 in Hy. by subst.
Qed.

Definition round_ok (st : State) (pos : nat) (x : State + exit) : Prop :=
  match x with
  | inl st' => progress st pos st'
  | inr (Return _) => True
  | inr (EnterBrace st') => st' = st /\ glob !! glob_index st = Some ch_open_brace
  end.

Lemma returned_star st pos : Wf st pos -> glob !! glob_index st <> Some ch_star -> returned st = false.
Proof.
  intros Hwf Hn. apply returned_false. intros Hw E. destruct (wf_w _ _ Hwf Hw) as [[? _] _]. by rewrite E in Hn.
Qed.

Lemma retry_ok st pos st0 : Wf st pos -> returned st = false ->
  wildcard st0 = wildcard st -> globstar st0 = globstar st -> round_ok st pos (retry path st0).
Proof.
  intros Hwf Hr Ew Eg. unfold retry. rewrite Ew. destruct (_ && _) eqn:Hb; [|done]. bool_facts.
  replace (backtrack st0) with (backtrack st) by (unfold backtrack; by rewrite Ew, Eg).
  by apply progress_backtrack.
Qed.

(** What an arm leaves: a round that went on made progress, and one that did
    not has kept the wildcards. *)
Definition arm_ok (st : State) (pos : nat) (a : arm) : Prop :=
  match a with
  | Continue st' => progress st pos st'
  | ToElse st' => st' = st
  | Fallthrough st' => wildcard st' = wildcard st /\ globstar st' = globstar st
  | ReturnFalse => True
  | MatchBrace st' => st' = st /\ glob !! glob_index st = Some ch_open_brace
  end.

Lemma leave_ok st pos a : Wf st pos -> returned st = false -> arm_ok st pos a -> round_ok st pos (leave path a).
Proof.
  intros Hwf Hr. destruct a; cbn [arm_ok leave]; try done.
  - intros ->. by apply retry_ok.
  - intros [? ?]. by apply retry_ok.
Qed.

Section Arms.
Context (st : State) (pos : nat) (ch : Z).
Hypothesis Hwf : Wf st pos.
Hypothesis Hstack : Forall frame_ok stack.
Hypothesis Hch : glob !! glob_index st = Some ch.
Hypothesis Hr : returned st = false.

Lemma glob_lt : glob_index st < G.
Proof. by apply lookup_lt_Some in Hch. Qed.

Lemma question_arm_ok : arm_ok st pos (question_arm path st).
Proof.
  pose proof glob_lt. unfold question_arm. destruct (path !! path_index st) as [b|] eqn:E; [|done].
  apply lookup_lt_Some in E. pose proof (seq_len_bounds b). case_if; [|done].
  cbn [arm_ok]. simpl_state. apply progress_forward; try (done || lia).
Qed.

Lemma class_arm_ok : exists a, class_arm glob path st = Done a /\ arm_ok st pos a.
Proof.
  pose proof glob_lt. unfold class_arm. case_if; [|eexists; done]. bool_facts.
  destruct (decode_at_total path (path_index st)) as (c & n & -> & ?); [done|]. cbn [obind].
  match goal with |- context [class_loop _ _ _ _ _ ?g] => set (gi := g) end.
  assert (glob_index st < gi) by (subst gi; case_if; lia).
  destruct (class_loop_total glob (S G) c true false gi) as ([[gi' m]|] & -> & ?); [lia| |eexists; done].
  cbn [obind]. case_if; [eexists; done|]. bool_facts.
  case_if; (eexists; split; [done|]); [|done].
  cbn [arm_ok]. simpl_state. apply progress_forward; try (done || lia).
Qed.

Lemma brace_arm_ok : ch = ch_open_brace -> arm_ok st pos (brace_arm stack st).
Proof.
  intros ->. unfold brace_arm. destruct (List.find _ stack) as [b|] eqn:E; [|done].
  apply find_some in E as [Hi Ho]. bool_facts. rewrite Forall_forall in Hstack.
  destruct (Hstack b Hi) as [? _]. cbn [arm_ok]. pose proof (wf_path _ _ Hwf).
  simpl_state. apply progress_forward; try (done || lia).
Qed.

Lemma branch_end_arm_ok : arm_ok st pos (branch_end_arm glob stack st).
Proof.
  pose proof glob_lt. unfold branch_end_arm, skip_branch. case_if; [|done].
  destruct (List.find _ (rev stack)) as [b|] eqn:E; [|done].
  apply find_some in E as [Hi Ho]. bool_facts. rewrite Forall_forall in Hstack.
  apply in_rev in Hi. destruct (Hstack b Hi) as [_ ?]. pose proof (wf_path _ _ Hwf).
  case_if; bool_facts; cbn [arm_ok]; simpl_state; apply progress_forward; try (done || lia).
Qed.

Lemma literal_arm_ok : exists a, literal_arm glob path st ch = Done a /\ arm_ok st pos a.
Proof.
  pose proof glob_lt as Hg. unfold literal_arm. case_if; [|eexists; done]. bool_facts.
  destruct (unescape_total ch glob (glob_index st) Hg) as ([[cc gi]|] & -> & Hu); [|eexists; done].
  cbn [obind]. destruct (at_lt path (path_index st)) as (b & _ & Hb); [done|].
  unfold set_glob_index at 1. cbn [path_index]. rewrite Hb. cbn [obind].
  pose proof (seq_len_bounds cc) as Hn.
  match goal with |- context [if ?m then Done (Continue _) else _] => destruct m eqn:Em end;
    (eexists; split; [done|]); [|done].
  assert (gi + seq_len cc <= G) as Hgi.
  { destruct (Nat.ltb_spec 1 (seq_len cc)); [|lia]. destruct (Z.eqb_spec cc ch_slash) as [->|]; [change (seq_len ch_slash) with 1 in *; lia|].
    bool_facts. lia. }
  cbn [arm_ok]. simpl_state.
  case_if; [apply progress_reset|apply progress_forward]; try (done || lia).
Qed.

Lemma glob_arm_ok : ch <> ch_star -> exists a, glob_arm glob path start stack st ch = Done a /\ arm_ok st pos a.
Proof.
  intros Hn. unfold glob_arm. case_if; [bool_facts; done|].
  repeat case_if; try (eexists; split; [done|]).
  - apply question_arm_ok.
  - apply class_arm_ok.
  - apply brace_arm_ok. by bool_facts.
  - apply branch_end_arm_ok.
  - done.
Qed.
End Arms.

Lemma main_loop_ok st pos : Wf st pos -> Forall frame_ok stack ->
  exists x, main_loop glob path start stack st = Done x /\ round_ok st pos x.
Proof.
  intros Hwf Hstack. unfold main_loop. case_if; [|by eexists].
  destruct (glob !! glob_index st) as [ch|] eqn:Hch.
  - destruct (Z.eqb_spec ch ch_star) as [->|Hn].
    + destruct (star_arm_progress st pos Hwf Hch) as (st' & E & Hp). exists (inl st'). split; [|done].
      unfold glob_arm. by rewrite Z.eqb_refl, E.
    + assert (returned st = false) as Hr by (eapply returned_star; [done|congruence]).
      destruct (glob_arm_ok st pos ch Hwf Hstack Hch Hr Hn) as (a & -> & Ha). cbn [obind].
      destruct a; try (eexists; split; [done|]; by apply leave_ok).
      cbn [arm_ok] in Ha. subst. destruct (literal_arm_ok st pos ch Hwf Hch Hr) as (a & -> & Ha). cbn [obind].
      eexists. split; [done|]. by apply leave_ok.
  - eexists. split; [done|]. apply retry_ok; try done. eapply returned_star; [done|congruence].
Qed.

Lemma main_rounds_total st pos : Wf st pos -> Forall frame_ok stack ->
  exists x, rounds ROUNDS (main_loop glob path start stack) st = Done (inr x) /\
  match x with
  | Return _ => True
  | EnterBrace st' => (exists pos', Wf st' pos') /\ glob !! glob_index st' = Some ch_open_brace
  end.
Proof.
  intros Hwf Hstack.
  apply (rounds_terminate _ (fun s m => exists p, Wf s p /\ m = BASE ^ 6 + BASE - rank s p)%Z _)
    with (m := (BASE ^ 6 + BASE - rank st pos)%Z).
  - intros s m (p & Hs & ->). pose proof (rank_bounds s p Hs). split; [lia|].
    destruct (main_loop_ok s p Hs Hstack) as (x & -> & Hx). exists x. split; [done|].
    destruct x as [s'|[b|s']]; cbn [round_ok] in Hx; [|done|].
    + destruct Hx as (p' & Hs' & Hlt). eexists. split; [|by exists p']. lia.
    + destruct Hx as [-> Hx]. split; [by exists p|done].
  - by exists pos.
  - pose proof (rank_bounds st pos Hwf). unfold ROUNDS.
    assert (BASE ^ 6 + BASE < 2 ^ Z.of_nat 256)%Z by by vm_compute. lia.
Qed.
End Loop.

(** ** Alternatives *)

Section Total.
Context (glob path : bytes).
Hypothesis HG : (Z.of_nat (length glob) < 2 ^ 31)%Z.
Hypothesis HP : (Z.of_nat (length path) < 2 ^ 31)%Z.

Lemma find_brace_end_total i : i <= length glob ->
  exists j, find_brace_end glob i = Done j /\ j <= length glob.
Proof.
  intros Hi. unfold find_brace_end.
  assert (forall fuel i d b, length glob - i < fuel ->
    exists j, find_brace_end_loop fuel glob i d b = Done j /\ j <= length glob) as H; [|apply H; lia].
  induction fuel as [|fuel IH]; intros k d b Hf; [lia|]. cbn [find_brace_end_loop].
  destruct (glob !! k) as [c|] eqn:E; [|by eexists]. apply lookup_lt_Some in E.
  repeat case_if; try (apply IH; lia). exists k. split; [done|lia].
Qed.

(** The state of a branch, whose pattern starts at the branch. *)
Lemma Wf_branch start st pos branch bd : Wf glob path start st pos ->
  glob_index st < branch <= length glob ->
  Wf glob path branch (set_brace_depth (set_glob_index st branch) bd) 0.
Proof.
  intros [H1 H2 H3 H4 H5 H6 H7 H8 H9 H10] Hb. simpl_state.
  split; cbn [path_index glob_index wildcard globstar]; try (done || lia).
  - intros Hw. destruct (H6 Hw). split; [done|lia].
  - intros Hw. destruct (H7 Hw) as [(Hs & Hd & _ & He) ?]. split; [|lia].
    split_and!; [done|done|left; lia|done].
  - intros Hd Hn. destruct (H10 Hd Hn) as (? & ? & ?). split_and!; [done|lia|done].
Qed.

Section Brace.
Context (rec : State -> nat -> list Brace -> Z -> outcome (bool * Z)).
Context (st : State) (opn close : nat) (stack : list Brace).

(** What the branches of a group owe to it. *)
Hypothesis Hrec : forall branch budget, opn < branch <= length glob -> (0 <= budget)%Z ->
  length stack < BRACE_STACK_CAPACITY ->
  exists b budget', rec (set_brace_depth (set_glob_index st branch) (Z.of_nat (length (stack ++ [mkBrace opn branch close]))))
    branch (stack ++ [mkBrace opn branch close]) budget = Done (b, budget') /\ (0 <= budget' <= budget)%Z.

Lemma match_brace_branch_total g branch budget : opn < branch <= length glob -> (0 <= budget)%Z ->
  exists b budget', match_brace_branch rec (set_glob_index st g) opn branch close stack budget = Done (b, budget') /\
    (0 <= budget' <= budget)%Z.
Proof.
  intros Hb Hz. unfold match_brace_branch. case_if; bool_facts; [eexists _, _; split; [done|lia]|].
  case_if; bool_facts; [eexists _, _; split; [done|lia]|].
  destruct (Hrec branch (budget - 1)) as (b & z & E & ?); [done|lia|lia|].
  exists b, z. split; [exact E|lia].
Qed.

Lemma match_brace_loop_total fuel g depth inb branch budget :
  length glob - g < fuel -> opn < branch <= length glob -> opn <= g -> (0 <= budget)%Z ->
  exists b budget', match_brace_loop glob rec fuel opn close stack (set_glob_index st g) depth inb branch budget =
    Done (b, budget') /\ (0 <= budget' <= budget)%Z.
Proof.
  revert g depth inb branch budget.
  induction fuel as [|fuel IH]; intros g depth inb branch budget Hf Hb Hg Hz; [lia|].
  cbn [match_brace_loop]. change (glob_index (set_glob_index st g)) with g.
  destruct (glob !! g) as [c|] eqn:E; [|eexists _, _; split; [done|lia]].
  pose proof (lookup_lt_Some _ _ _ E) as Hlt.
  assert (forall g' depth inb branch budget', g < g' -> opn < branch <= length glob -> (0 <= budget' <= budget)%Z ->
    exists b z, match_brace_loop glob rec fuel opn close stack (set_glob_index st g') depth inb branch budget' =
    Done (b, z) /\ (0 <= z <= budget)%Z) as Hnext.
  { intros g' d i br z Hg' Hbr Hz'. destruct (IH g' d i br z) as (b & z' & Er & ?); [lia|lia|lia|lia|].
    exists b, z'. split; [done|lia]. }
  repeat case_if; try (apply Hnext; first [lia|done]).
  - by apply match_brace_branch_total.
  - destruct (match_brace_branch_total g branch budget Hb Hz) as (b & z & -> & ?). cbn [obind].
    destruct b; [by exists true, z|]. apply Hnext; lia.
  - apply (Hnext (g + 1 + 1)); lia.
Qed.
End Brace.

Lemma glob_match_impl_total fuel : forall st pos start stack budget,
  length stack + fuel = S BRACE_STACK_CAPACITY -> 0 < fuel ->
  Wf glob path start st pos -> Forall (frame_ok glob) stack -> (0 <= budget)%Z ->
  exists b budget', glob_match_impl fuel glob path st start stack budget = Done (b, budget') /\
    (0 <= budget' <= budget)%Z.
Proof.
  induction fuel as [|fuel IH]; intros st pos start stack budget Hf H0 Hwf Hstack Hz; [lia|].
  cbn [glob_match_impl].
  destruct (main_rounds_total glob path start stack HG HP st pos Hwf Hstack) as (x & -> & Hx). cbn [obind].
  destruct x as [b|st']; [exists b, budget; split; [done|lia]|].
  destruct Hx as [[pos' Hwf'] Hch]. unfold match_brace. pose proof (lookup_lt_Some _ _ _ Hch) as Hlt.
  destruct (find_brace_end_total (glob_index st')) as (close & -> & Hclose); [lia|]. cbn [obind].
  cbn [match_brace_loop]. rewrite Hch, Z.eqb_refl. cbn [negb].
  change (Z.eqb (0 + 1) 1) with true. cbn iota.
  apply match_brace_loop_total; try lia. intros branch z Hb Hz' Hl.
  apply (IH _ 0 branch); [|unfold BRACE_STACK_CAPACITY in *; lia| | |done].
  - rewrite length_app. cbn [length]. lia.
  - by eapply Wf_branch.
  - apply Forall_app. split; [done|]. repeat constructor; cbn; lia.
Qed.

Lemma Wf_start start : start <= length glob -> Wf glob path start (set_glob_index State_default start) 0.
Proof.
  intros Hs. simpl_state. unfold State_default. split; cbn [path_index glob_index wildcard globstar]; try (done || lia).
  all: cbn; lia.
Qed.

(** C34: [match] returns on every pattern and every path below 2 GiB, malformed
    ones included: no index is out of range, the main loop ends although it goes
    back to wildcards, and calls nest no deeper than the stack of ten
    alternatives. The pattern counts as negated when it begins with an odd
    number of [!]. *)
Theorem glob_match_total : exists r, glob_match glob path = Done r /\
  negated r = Nat.odd (prefix_len (Z.eqb ch_bang) glob).
Proof.
  unfold glob_match. set (start := prefix_len _ glob).
  destruct (glob_match_impl_total (S BRACE_STACK_CAPACITY) (set_glob_index State_default start) 0 start [] BRACE_BRANCH_BUDGET)
    as (b & z & -> & _); try (done || unfold BRACE_STACK_CAPACITY; cbn; lia).
  - apply Wf_start. apply prefix_len_le.
  - cbn [obind]. by eexists.
Qed.
End Total.

(** An unterminated class in a nested, unterminated group, and a path with a cut
    off sequence. *)
Lemma glob_match_total_witness :
  exists r, glob_match [33; 42; 42; 47; 123; 97; 44; 123; 42; 91; 45; 92]%Z [97; 47; 0xE2; 0x82]%Z = Done r /\
    negated r = true.
Proof.
  apply (glob_match_total [33; 42; 42; 47; 123; 97; 44; 123; 42; 91; 45; 92]%Z [97; 47; 0xE2; 0x82]%Z); reflexivity.
Defined.

(** ** Characters read from texts *)

Lemma wtf8_utf8_length b : wtf8_byte_sequence_length b = utf8_byte_sequence_length b \/
  utf8_byte_sequence_length b = 0%Z /\ wtf8_byte_sequence_length b = 1%Z.
Proof. unfold wtf8_byte_sequence_length, utf8_byte_sequence_length. repeat case_if; auto. Qed.

(** C40: What the matcher reads from a text of arbitrary bytes is a character: a
    code point, however malformed the sequence is, with a length of one to four
    bytes, so that every comparison of a class is between code points and every
    step over a character advances. *)
Theorem decode_wtf8_rune_at_typed l idx : is_bytes l -> idx < length l ->
  exists c n, decode_wtf8_rune_at l idx = Done (c, n) /\ is_code_point c /\ 1 <= n <= 4.
Proof.
  intros Hl Hi. destruct (at_lt l idx Hi) as (b & Hb & Ha). unfold decode_wtf8_rune_at. rewrite Ha. cbn [obind].
  eexists _, _. split; [done|]. split; [|apply seq_len_bounds].
  set (buf := four_of_list _).
  assert (Forall is_byte (list_of_four buf)) as Hbuf by (apply four_of_list_bytes; by apply is_bytes_sub).
  assert (b0 buf = b) as E.
  { subst buf. unfold four_of_list, sub. cbn [b0]. replace (idx + Nat.min (length l - idx) 4 - idx)
      with (Nat.min (length l - idx) 4) by lia. rewrite (drop_S l b idx Hb).
    by destruct (Nat.min (length l - idx) 4) eqn:Em; [lia|]. }
  destruct (wtf8_utf8_length b) as [Eq|[_ Eq]]; rewrite Eq.
  - pose proof (decode_accepts buf 0xFFFD Hbuf) as Hd. rewrite E in Hd. destruct Hd as [->|[? _]]; [by vm_compute|done].
  - change (decode_wtf8_rune_t buf 1 0xFFFD) with (b0 buf). rewrite E. unfold is_bytes in Hl. rewrite Forall_forall in Hl.
    specialize (Hl b). unfold is_byte, two8, is_code_point in *.
    assert (In b l) as Hin by (by apply list_elem_of_In, (list_elem_of_lookup_2 _ idx)). specialize (Hl Hin). lia.
Qed.

(** A sequence that is cut off. *)
Lemma decode_wtf8_rune_at_typed_witness :
  exists c n, decode_wtf8_rune_at [97; 0xE2; 0x82]%Z 1 = Done (c, n) /\ is_code_point c /\ 1 <= n <= 4.
Proof.
  apply (decode_wtf8_rune_at_typed [97; 0xE2; 0x82]%Z 1);
    [apply (bool_decide_eq_true_1 _); reflexivity|cbn; lia].
Defined.
