(* ===== verification/GlobSpec.v ===== *)
(** * The meaning of glob patterns

    A specification of the patterns of [Glob.v] without alternatives, on code
    points: the tokens of a pattern ([tok]), their text ([pattern_bytes]) and the
    paths they match ([gmatch]), as the comment of [match] in
    [glob/matcher.rs] describes them. [gmatch] chooses freely how much a [*] and
    a [**/] take; the lemmas of this file are the reasons why a matcher that
    remembers only the last [*] and the last [**] misses nothing. *)
From Stdlib Require Import ZArith Lia.
From stdpp Require Import base list numbers option.
From S2P Require Import Prelude Strings Wtf8 Glob.
#[local] Open Scope Z_scope.

(** ** Tokens *)

(** A character of a class, written as itself or after a backslash. *)
Inductive cchar := Plain (c : Z) | Escaped (c : Z).

(** [a] or [a-b] *)
Record citem := mkItem { item_low : cchar; item_high : option cchar }.

(** What matches one character. *)
Inductive elem :=
| Lit (c : Z)                              (* c  *)
| Esc (c : Z)                              (* \c *)
| Any                                      (* ?  *)
| Class (neg : option Z) (items : list citem). (* [..], or [!..] and [^..] *)

(** [Globstar k] is [**/] written [k + 1] times, and [GlobstarEnd k] a final
    [**] after [k] such. *)
Inductive tok :=
| Elem (e : elem)
| Star
| Slash
| Globstar (k : nat)
| GlobstarEnd (k : nat).

(** ** Text *)

Definition cchar_bytes (c : cchar) : bytes :=
  match c with
  | Plain c => rune_bytes c
  | Escaped c => ch_backslash :: rune_bytes c
  end.

Definition item_bytes (i : citem) : bytes :=
  cchar_bytes (item_low i) ++
  match item_high i with
  | Some h => ch_dash :: cchar_bytes h
  | None => []
  end.

Definition elem_bytes (e : elem) : bytes :=
  match e with
  | Lit c => rune_bytes c
  | Esc c => ch_backslash :: rune_bytes c
  | Any => [ch_question]
  | Class neg items =>
      ch_open_bracket :: match neg with Some c => [c] | None => [] end
      ++ concat (map item_bytes items) ++ [ch_close_bracket]
  end.

Definition globstar_slash : bytes := [ch_star; ch_star; ch_slash].

Definition tok_bytes (t : tok) : bytes :=
  match t with
  | Elem e => elem_bytes e
  | Star => [ch_star]
  | Slash => [ch_slash]
  | Globstar k => concat (replicate (S k) globstar_slash)
  | GlobstarEnd k => concat (replicate k globstar_slash) ++ [ch_star; ch_star]
  end.

Definition pattern_bytes (t : list tok) : bytes := concat (map tok_bytes t).

(** A text of code points. *)
Definition runes_bytes (s : list Z) : bytes := concat (map rune_bytes s).

(** ** Meaning *)

Definition cchar_value (c : cchar) : Z :=
  match c with
  | Plain c => c
  | Escaped c => unescape_byte c
  end.

Definition item_has (i : citem) (x : Z) : bool :=
  let low := cchar_value (item_low i) in
  let high := match item_high i with Some h => cchar_value h | None => low end in
  (low <=? x) && (x <=? high).

Definition accepts (e : elem) (x : Z) : bool :=
  match e with
  | Lit c => x =? c
  | Esc c => x =? unescape_byte c
  | Any => negb (x =? ch_slash)
  | Class neg items =>
      match neg with
      | Some _ => negb (existsb (fun i => item_has i x) items)
      | None => existsb (fun i => item_has i x) items
      end
  end.

(** [gmatch_globstar]: [**/] skips whole segments. [**/*] at the end of a
    pattern does not match an empty last segment. *)
Inductive gmatch : list tok -> list Z -> Prop :=
| gmatch_nil : gmatch [] []
| gmatch_elem e t x s : accepts e x = true -> gmatch t s -> gmatch (Elem e :: t) (x :: s)
| gmatch_slash t s : gmatch t s -> gmatch (Slash :: t) (ch_slash :: s)
| gmatch_star_none t s : gmatch t s -> gmatch (Star :: t) s
| gmatch_star t x s : x <> ch_slash -> gmatch (Star :: t) s -> gmatch (Star :: t) (x :: s)
| gmatch_globstar_none k t s : ~ (t = [Star] /\ s = []) -> gmatch t s -> gmatch (Globstar k :: t) s
| gmatch_globstar k t v s : ~ In ch_slash v -> gmatch (Globstar k :: t) s ->
    gmatch (Globstar k :: t) (v ++ ch_slash :: s)
| gmatch_globstar_end k s : gmatch [GlobstarEnd k] s.

(** ** Well-formed patterns *)

(** The characters that a class needs a backslash for. *)
Definition cchar_ok (c : cchar) : Prop :=
  match c with
  | Plain c => is_code_point c /\
      ~ In c [ch_backslash; ch_close_bracket; ch_dash; ch_caret; ch_bang]
  | Escaped c => is_code_point c
  end.

Definition item_ok (i : citem) : Prop :=
  cchar_ok (item_low i) /\ match item_high i with Some h => cchar_ok h | None => True end.

(** A separator is written [/], not [\/]; a class may accept one, as [[!a]] does. *)
Definition elem_ok (e : elem) : Prop :=
  match e with Class _ _ => True | _ => accepts e ch_slash = false end /\
  match e with
  | Lit c => is_code_point c /\ ~ In c [ch_star; ch_question; ch_open_bracket; ch_open_brace; ch_backslash]
  | Esc c => is_code_point c
  | Any => True
  | Class neg items =>
      match neg with Some c => c = ch_bang \/ c = ch_caret | None => True end
      /\ items <> [] /\ Forall item_ok items
  end.

(** [seg]: at the start of a segment, where [**] may be. *)
Fixpoint pattern_ok (seg : bool) (t : list tok) : Prop :=
  match t with
  | [] => True
  | Elem e :: t => elem_ok e /\ pattern_ok false t
  | Star :: t => match t with Star :: _ => False | _ => True end /\ pattern_ok false t
  | Slash :: t => pattern_ok true t
  | Globstar _ :: t =>
      seg = true /\ match t with Globstar _ :: _ | GlobstarEnd _ :: _ => False | _ => True end
      /\ pattern_ok true t
  | GlobstarEnd _ :: t => seg = true /\ t = []
  end.

(** What the matcher relies on between a [*] and the next [*] or [/]: nothing
    there accepts a separator, since these make it forget the [*] before. After
    the last [*] a class may. *)
Definition is_elem (k : tok) : Prop := match k with Elem _ => True | _ => False end.

Fixpoint block_ok (t : list tok) : Prop :=
  match t with
  | Elem e :: t => (accepts e ch_slash = false \/ Forall is_elem t) /\ block_ok t
  | _ => True
  end.

Fixpoint stars_ok (t : list tok) : Prop :=
  match t with
  | [] => True
  | Star :: t => block_ok t /\ stars_ok t
  | _ :: t => stars_ok t
  end.

(** The patterns and paths whose meaning the matcher gives. *)
Definition tame (t : list tok) (s : list Z) : Prop := stars_ok t \/ ~ In ch_slash s.

Lemma tame_tail k t d s : tame (k :: t) (d ++ s) -> tame t s.
Proof.
  intros [H|H]; [left|right].
  - destruct k; try done. by destruct H.
  - intros Hin. apply H, in_app_iff. by right.
Qed.

(** ** Separators *)

(** Where the first separator is does not depend on how the text was split. *)
Lemma first_sep_unique u v s r :
  ~ In ch_slash u -> ~ In ch_slash v -> u ++ ch_slash :: s = v ++ ch_slash :: r -> u = v /\ s = r.
Proof.
  revert v. induction u as [|x u IH]; intros [|y v] Hu Hv E; simplify_list_eq.
  - done.
  - exfalso. apply Hv. by left.
  - exfalso. apply Hu. by left.
  - destruct (IH v) as [-> ->]; [intros ?; apply Hu; by right|intros ?; apply Hv; by right|done|done].
Qed.

(** ** What a prefix of a pattern takes *)

Lemma gmatch_star_iff t s :
  gmatch (Star :: t) s <-> exists v r, s = v ++ r /\ ~ In ch_slash v /\ gmatch t r.
Proof.
  split.
  - intros H. remember (Star :: t) as p. induction H; simplify_eq.
    + exists [], s. split_and!; [done|by intros []|done].
    + destruct IHgmatch as (v & r & -> & Hv & Hr); [done|]. exists (x :: v), r.
      split_and!; [done| |done]. by intros [|].
  - intros (v & r & -> & Hv & Hr). induction v as [|x v IH]; [by constructor|].
    apply gmatch_star; [|apply IH]; naive_solver.
Qed.

Lemma gmatch_star_more t v s : ~ In ch_slash v -> gmatch (Star :: t) s -> gmatch (Star :: t) (v ++ s).
Proof.
  rewrite !gmatch_star_iff. intros Hv (v' & r & -> & Hv' & Hr). exists (v ++ v'), r.
  rewrite in_app_iff. split_and!; [by rewrite app_assoc|naive_solver|done].
Qed.

Abbreviation accept_all es u := (Forall2 (fun e y => accepts e y = true) es u).

Lemma gmatch_elems es t s : gmatch (map Elem es ++ t) s ->
  exists u r, s = u ++ r /\ accept_all es u /\ gmatch t r.
Proof.
  revert s. induction es as [|e es IH]; intros s H; cbn in H.
  - exists [], s. split_and!; [done|constructor|done].
  - inversion H; simplify_eq. destruct (IH s0) as (u & r & -> & Hu & Hr); [done|].
    exists (x :: u), r. split_and!; [done|by constructor|done].
Qed.

Lemma gmatch_elems_app es t u s : accept_all es u -> gmatch t s -> gmatch (map Elem es ++ t) (u ++ s).
Proof. intros H Ht. induction H; [done|]. cbn. by constructor. Qed.

Lemma accept_all_no_sep es u :
  Forall (fun e => accepts e ch_slash = false) es -> accept_all es u -> ~ In ch_slash u.
Proof.
  intros Hes H. induction H as [|e y es u Hy _ IH]; [by intros []|]. inversion Hes; subst.
  intros [->|?]; [congruence|by apply IH].
Qed.

Lemma block_elems es t :
  block_ok (map Elem es ++ t) -> ~ Forall is_elem t -> Forall (fun e => accepts e ch_slash = false) es.
Proof.
  intros H Ht. induction es as [|e es IH]; [constructor|]. destruct H as [[He|Hall] Hrest].
  - constructor; [done|]. by apply IH.
  - exfalso. apply Ht. by apply Forall_app in Hall as [_ ?].
Qed.

(** Tokens other than [**]. *)
Definition plain_tok (k : tok) : Prop :=
  match k with
  | Elem _ | Star | Slash => True
  | _ => False
  end.

Lemma gmatch_app pre t s : Forall plain_tok pre ->
  gmatch (pre ++ t) s <-> exists u r, s = u ++ r /\ gmatch pre u /\ gmatch t r.
Proof.
  intros Hpre. revert s. induction Hpre as [|k pre Hk Hpre IH]; intros s; cbn [app].
  - split; [intros H; exists [], s; split_and!; [done|constructor|done]|].
    intros (u & r & -> & Hu & Hr). by inversion Hu.
  - destruct k; try done.
    + split.
      * intros H. inversion H; simplify_eq. match goal with Hm : gmatch (pre ++ t) _ |- _ => apply IH in Hm as (u & r & -> & Hu & Hr) end. exists (x :: u), r. by split_and!; [|constructor|].
      * intros (u & r & -> & Hu & Hr). inversion Hu; simplify_eq. cbn. constructor; [done|]. apply IH. by exists s, r.
    + rewrite gmatch_star_iff. split.
      * intros (v & r & -> & Hv & (u & r' & -> & Hu & Hr)%IH). exists (v ++ u), r'. rewrite app_assoc. split_and!; [done| |done].
        apply gmatch_star_iff. by exists v, u.
      * intros (u & r & -> & (v & u' & -> & Hv & Hu)%gmatch_star_iff & Hr). exists v, (u' ++ r). rewrite app_assoc.
        split_and!; [done|done|]. apply IH. by exists u', r.
    + split.
      * intros H. inversion H; simplify_eq. match goal with Hm : gmatch (pre ++ t) _ |- _ => apply IH in Hm as (u & r & -> & Hu & Hr) end. exists (ch_slash :: u), r. by split_and!; [|constructor|].
      * intros (u & r & -> & Hu & Hr). inversion Hu; simplify_eq. cbn. constructor. apply IH. by exists s, r.
Qed.

(** [**/] skips any number of segments. *)
Lemma gmatch_globstar_more k t w s : gmatch (Globstar k :: t) s -> gmatch (Globstar k :: t) (w ++ ch_slash :: s).
Proof.
  intros H. assert (forall v, ~ In ch_slash v -> gmatch (Globstar k :: t) (v ++ w ++ ch_slash :: s)) as Hw;
    [|apply (Hw []); by intros []].
  induction w as [|x w IH]; intros v Hv; [by constructor|]. cbn [app]. destruct (Z.eq_dec x ch_slash) as [->|Hx].
  - apply gmatch_globstar; [done|]. apply (IH []). by intros [].
  - specialize (IH (v ++ [x])). rewrite <- !app_assoc in IH. apply IH. rewrite in_app_iff.
    intros [|[|[]]]; done.
Qed.

Lemma gmatch_globstar_iff k t s : gmatch (Globstar k :: t) s <->
  exists w r, s = w ++ r /\ (w = [] \/ exists w', w = w' ++ [ch_slash]) /\ gmatch t r /\ ~ (t = [Star] /\ r = []).
Proof.
  split.
  - intros H. remember (Globstar k :: t) as p. induction H; simplify_eq.
    + exists [], s. split_and!; [done|by left|done|done].
    + destruct IHgmatch as (w & r & -> & Hw & Hr & Hn); [done|].
      exists (v ++ ch_slash :: w), r. split_and!; [by rewrite <- app_assoc| |done|done]. right.
      destruct Hw as [->|[w' ->]]; [by exists v|]. exists (v ++ ch_slash :: w'). by rewrite <- app_assoc.
  - intros (w & r & -> & [->|[w' ->]] & Hr & Hn); [by constructor|].
    rewrite <- app_assoc. apply gmatch_globstar_more. by constructor.
Qed.

(** ** The last wildcard is enough

    [link_star tw sw t s]: the rest [t] of the pattern is compared with [s], after
    the [*] before [tw] took nothing of a text that goes on with [sw] behind its
    first character. *)
Definition link_star (tw : list tok) (sw : list Z) (t : list tok) (s : list Z) : Prop :=
  exists es u x, tw = map Elem es ++ t /\ (block_ok tw \/ ~ In ch_slash (x :: sw)) /\
    x :: sw = u ++ s /\ accept_all es u /\ x <> ch_slash.

Lemma link_star_init t x s : x <> ch_slash -> tame (Star :: t) (x :: s) -> link_star t s t (x :: s).
Proof.
  intros Hx Ht. exists [], [], x. split_and!; try done. destruct Ht as [[? _]|?]; [by left|by right].
Qed.

Lemma link_star_elem tw sw e t y s : accepts e y = true ->
  link_star tw sw (Elem e :: t) (y :: s) -> link_star tw sw t s.
Proof.
  intros Hy (es & u & x & -> & Hes & E & Hl & Hx). exists (es ++ [e]), (u ++ [y]), x.
  assert (map Elem es ++ Elem e :: t = map Elem (es ++ [e]) ++ t) as Et by (by rewrite map_app, <- app_assoc).
  rewrite <- Et. split_and!; try done.
  - by rewrite <- app_assoc.
  - apply Forall2_app; [done|]. by repeat constructor.
Qed.

(** Where the matcher forgets a [*], no character since it took a separator,
    in the text that was tried and in any other. *)
Lemma link_star_forget tw sw t s : link_star tw sw t s -> ~ Forall is_elem t ->
  exists es u x, tw = map Elem es ++ t /\ x :: sw = u ++ s /\ x <> ch_slash /\ length u = length es /\ ~ In ch_slash u /\
    (forall v u1 r, sw = v ++ u1 ++ r -> accept_all es u1 -> ~ In ch_slash u1).
Proof.
  intros (es & u & x & -> & Hes & E & Hl & Hx) Ht. exists es, u, x. split_and!; try done.
  - symmetry. by eapply Forall2_length.
  - destruct Hes as [Hb|Hn]; [by eapply accept_all_no_sep; [eapply block_elems|]|].
    intros Hi. apply Hn. rewrite E. apply in_app_iff. by left.
  - intros v u1 r Er H1. destruct Hes as [Hb|Hn]; [by eapply accept_all_no_sep; [eapply block_elems|]|].
    intros Hi. apply Hn. right. rewrite Er, !in_app_iff. auto.
Qed.

(** A later [*] can take what an earlier one would. *)
Lemma link_star_star tw sw t s : link_star tw sw (Star :: t) s ->
  gmatch (Star :: tw) sw -> gmatch (Star :: t) s.
Proof.
  intros (es & u & x & -> & E & Hx & Hl & Hu & Hno)%link_star_forget H; [|intros HF; by inversion HF].
  apply gmatch_star_iff in H as (v & r & -> & Hv & Hr).
  apply gmatch_elems in Hr as (u1 & s2 & -> & H1 & H2).
  pose proof (Hno v u1 s2 eq_refl H1) as Hu1. assert (length es = length u1) as Hl1 by (by eapply Forall2_length).
  assert (s = drop (length u) (x :: v ++ u1) ++ s2) as ->.
  { rewrite <- drop_app_le by (cbn; rewrite length_app; lia).
    cbn [app]. rewrite <- app_assoc, E. by rewrite drop_app_length. }
  apply gmatch_star_more; [|done]. intros Hi.
  assert (In ch_slash (x :: v ++ u1)) as Hi'.
  { rewrite <- (take_drop (length u) (x :: v ++ u1)). apply in_app_iff. by right. }
  destruct Hi' as [->|Hi']; [done|]. apply in_app_iff in Hi' as [|]; done.
Qed.

(** A [*] does not reach beyond the separator at which a later [/] was found. *)
Lemma link_star_slash tw sw t s : link_star tw sw (Slash :: t) (ch_slash :: s) ->
  gmatch (Star :: tw) sw -> gmatch t s.
Proof.
  intros (es & u & x & -> & E & Hx & Hl & Hu & Hno)%link_star_forget H; [|intros HF; by inversion HF].
  apply gmatch_star_iff in H as (v & r & -> & Hv & Hr).
  apply gmatch_elems in Hr as (u1 & s2 & -> & H1 & H2).
  pose proof (Hno v u1 s2 eq_refl H1) as Hu1.
  inversion H2; simplify_eq. destruct (first_sep_unique u (x :: v ++ u1) s s0) as [_ ->]; [done| | |done].
  - intros [->|Hi]; [done|]. apply in_app_iff in Hi as [|]; done.
  - rewrite <- E. cbn. by rewrite <- app_assoc.
Qed.

(** Two ends of the same text. *)
Definition cmp (x y : list Z) : Prop := x `suffix_of` y \/ y `suffix_of` x.

Lemma suffix_tail (x : Z) s y : (x :: s) `suffix_of` y -> s `suffix_of` y.
Proof. intros [p ->]. exists (p ++ [x]). by rewrite <- app_assoc. Qed.

Lemma cmp_tail x s y : cmp (x :: s) y -> cmp s y.
Proof.
  intros [H|[p E]]; [left; by eapply suffix_tail|]. destruct p as [|z p]; simplify_list_eq.
  - left. by exists [x].
  - right. by exists p.
Qed.

Lemma cmp_suffix x y z : cmp x y -> z `suffix_of` y -> (length z <= length x)%nat -> z `suffix_of` x.
Proof.
  intros [Hx|Hx] Hz Hl; [|by etrans].
  destruct (suffix_weak_total _ _ _ Hz Hx) as [|Hxz]; [done|].
  destruct Hxz as [p ->]. rewrite length_app in Hl. destruct p; [by exists []|cbn in Hl; lia].
Qed.

(** [later sg r]: [r] begins a segment of [sg]. *)
Definition later (sg r : list Z) : Prop :=
  exists w, sg = w ++ r /\ (w = [] \/ exists w', w = w' ++ [ch_slash]).

Lemma later_suffix sg r : later sg r -> r `suffix_of` sg.
Proof. intros (w & -> & _). by exists w. Qed.

(** A match of the pattern behind a [**/] that skips more, in which the rest
    [t] of the pattern takes an end of [s]. *)
Definition overtakes (pre : list tok) (sg : list Z) (t : list tok) (s : list Z) : Prop :=
  exists u s1, later sg (u ++ s1) /\ gmatch pre u /\ gmatch t s1 /\ s1 `suffix_of` s.

(** [link_globstar tg sg A t s]: the rest [t] is compared with [s], after the
    [**/] before [tg] skipped nothing of a text whose next segment is [sg]. If
    skipping more leads to a match, then so does [t] on [s], or going back to a
    [*] ([A]), or a match of [t] on an end of [s]. *)
Definition link_globstar (tg : list tok) (sg : list Z) (A : Prop) (t : list tok) (s : list Z) : Prop :=
  exists pre, tg = pre ++ t /\ Forall plain_tok pre /\ cmp s sg /\
    (gmatch (Globstar 0 :: tg) sg -> A \/ gmatch t s \/ overtakes pre sg t s).

Lemma link_globstar_init t v s : link_globstar t s False t (v ++ ch_slash :: s).
Proof.
  assert (s `suffix_of` v ++ ch_slash :: s) as Hs by (exists (v ++ [ch_slash]); by rewrite <- app_assoc).
  exists []. split_and!; [done|constructor|by right|].
  intros H. apply gmatch_globstar_iff in H as (w & r & -> & Hw & Hr & _). right. right.
  exists [], r. split_and!; [by exists w|constructor|done|]. etrans; [by exists w|done].
Qed.

(** Reading on. *)
Lemma link_globstar_elem tg sg (A : Prop) e t x s : accepts e x = true ->
  link_globstar tg sg A (Elem e :: t) (x :: s) -> link_globstar tg sg A t s.
Proof.
  intros Hx (pre & -> & Hpre & Hc & H). exists (pre ++ [Elem e]). rewrite <- app_assoc.
  split_and!; [done|by apply Forall_app; repeat constructor|by eapply cmp_tail|]. intros Hg.
  destruct (H Hg) as [HA|[Hm|(u & s1 & Hl & Hu & Hm & Hs)]]; [by left|by inversion Hm; auto|].
  inversion Hm; simplify_eq. right. right. exists (u ++ [x0]), s0. rewrite <- app_assoc. split_and!; [done| |done|].
  - apply gmatch_app; [done|]. exists u, [x0]. split_and!; [done|done|]. by repeat constructor.
  - apply suffix_cons_inv in Hs as [E|Hs]; [simplify_eq; by exists []|by eapply suffix_tail].
Qed.

Lemma link_globstar_slash tg sg (A : Prop) t s : (A -> gmatch t s) ->
  link_globstar tg sg A (Slash :: t) (ch_slash :: s) -> link_globstar tg sg False t s.
Proof.
  intros HA (pre & -> & Hpre & Hc & H). exists (pre ++ [Slash]). rewrite <- app_assoc.
  split_and!; [done|by apply Forall_app; repeat constructor|by eapply cmp_tail|]. intros Hg.
  destruct (H Hg) as [?|[Hm|(u & s1 & Hl & Hu & Hm & Hs)]]; [by auto|by inversion Hm; auto|].
  inversion Hm; simplify_eq. right. right. exists (u ++ [ch_slash]), s0. rewrite <- app_assoc. split_and!; [done| |done|].
  - apply gmatch_app; [done|]. exists u, [ch_slash]. split_and!; [done|done|]. by repeat constructor.
  - apply suffix_cons_inv in Hs as [E|Hs]; [simplify_eq; by exists []|by eapply suffix_tail].
Qed.

(** Past a [*]: what it may still take is [B]. *)
Lemma link_globstar_star tg sg (A B : Prop) t s : (A -> gmatch (Star :: t) s) -> (gmatch (Star :: t) s -> gmatch t s \/ B) ->
  link_globstar tg sg A (Star :: t) s -> link_globstar tg sg B t s.
Proof.
  intros HA HB (pre & -> & Hpre & Hc & H). exists (pre ++ [Star]). rewrite <- app_assoc.
  split_and!; [done|by apply Forall_app; repeat constructor|done|]. intros Hg.
  destruct (H Hg) as [?|[Hm|(u & s1 & Hl & Hu & Hm & Hs)]]; [naive_solver..|].
  apply gmatch_star_iff in Hm as (v & r & -> & Hv & Hr). right. right. exists (u ++ v), r. rewrite <- app_assoc.
  split_and!; [done| |done|].
  - apply gmatch_app; [done|]. exists u, v. split_and!; [done|done|]. apply gmatch_star_iff. exists v, [].
    split_and!; [by rewrite app_nil_r|done|constructor].
  - etrans; [by exists v|done].
Qed.

(** Going back to a [*]: what skips more and overtook the last try either
    overtakes the next one, or the [*] can take up to there. *)
Lemma link_globstar_back tg sg tw sw t s : ~ gmatch t s -> link_star tw sw t s ->
  (exists pre0, tg = pre0 ++ Star :: tw /\ Forall plain_tok pre0) -> cmp sw sg ->
  link_globstar tg sg (gmatch (Star :: tw) sw) t s ->
  link_globstar tg sg (gmatch (Star :: tw) sw) (Star :: tw) sw.
Proof.
  intros Hn (es & um & x & -> & _ & E & Hum & Hx) (pre0 & Etg & Hpre0) Hc (pre & E1 & Hpre & _ & H).
  exists pre0. split_and!; [done..|]. intros Hg.
  destruct (H Hg) as [?|[?|(u & s1 & Hl & Hu & Hm & Hs)]]; [by left|done|]. right.
  assert (pre = pre0 ++ Star :: map Elem es) as ->.
  { rewrite E1 in Etg. apply (app_inv_tail t). rewrite Etg, <- app_assoc. done. }
  apply gmatch_app in Hu as (u0 & u' & -> & Hu0 & Hu'); [|done].
  apply gmatch_star_iff in Hu' as (vv & ue & -> & Hvv & Hue).
  rewrite <- (app_nil_r (map Elem es)) in Hue. apply gmatch_elems in Hue as (ue' & r & -> & Hue & Hr).
  inversion Hr; subst r. rewrite app_nil_r in *. pose proof (later_suffix _ _ Hl) as Hsuf.
  assert (gmatch (map Elem es ++ t) (ue' ++ s1)) as Htw by (by apply gmatch_elems_app).
  assert (s1 <> s) as Hne by (by intros ->). destruct Hs as [d ->].
  assert (length es = length um /\ length es = length ue') as [L1 L2] by (split; by eapply Forall2_length).
  assert (length (ue' ++ s1) <= length sw)%nat as Hlen.
  { apply (f_equal length) in E. destruct d; [done|]. cbn [length app] in E. rewrite !length_app in E |- *. cbn [length] in E. rewrite length_app in E. lia. }
  assert ((ue' ++ s1) `suffix_of` sg) as Hs1.
  { etrans; [|exact Hsuf]. exists (u0 ++ vv). by rewrite <- !app_assoc. }
  destruct (cmp_suffix _ _ _ Hc Hs1 Hlen) as [q Eq].
  destruct (decide (length (vv ++ ue' ++ s1) <= length sw)%nat) as [Hle|Hgt].
  - right. exists u0, (vv ++ ue' ++ s1). split_and!; [by rewrite <- !app_assoc in Hl|done| |].
    + apply gmatch_star_iff. by exists vv, (ue' ++ s1).
    + eapply cmp_suffix; [done| |done]. etrans; [|exact Hsuf]. exists u0. by rewrite <- !app_assoc.
  - left. rewrite Eq. apply gmatch_star_iff. exists q, (ue' ++ s1). split_and!; [done| |done].
    assert (sw `suffix_of` vv ++ ue' ++ s1) as [p Ep].
    { assert ((vv ++ ue' ++ s1) `suffix_of` sg) as Hs2.
      { etrans; [|exact Hsuf]. exists u0. by rewrite <- !app_assoc. }
      apply (cmp_suffix _ sg); [left; done| |lia]. destruct Hc as [?|Hbig]; [done|].
      exfalso. apply suffix_length in Hs2, Hbig. lia. }
    rewrite Eq, !app_assoc in Ep. apply app_inv_tail in Ep. apply app_inv_tail in Ep.
    intros Hi. apply Hvv. rewrite Ep. apply in_app_iff. by right.
Qed.

Lemma pattern_ok_app b pre t : Forall plain_tok pre -> pattern_ok b (pre ++ t) ->
  exists b', pattern_ok b' t /\ (b' = true -> pre = [] \/ exists pre', pre = pre' ++ [Slash]).
Proof.
  revert t. induction pre as [|k pre IH] using rev_ind; intros t Hpre Hok.
  - exists b. split; [done|]. by left.
  - apply Forall_app in Hpre as [Hpre Hk]. rewrite <- app_assoc in Hok.
    destruct (IH _ Hpre Hok) as (b' & Hok' & _). cbn in Hok'. inversion_clear Hk.
    destruct k; try done; [exists false; naive_solver..|]. exists true. split; [done|]. right. by exists pre.
Qed.

(** A later [**/] can skip what an earlier one would. *)
Lemma link_globstar_globstar tg sg k t s b : pattern_ok b (Globstar 0 :: tg) ->
  link_globstar tg sg False (Globstar k :: t) s -> gmatch (Globstar 0 :: tg) sg -> gmatch (Globstar k :: t) s.
Proof.
  intros Hok (pre & -> & Hpre & Hc & H) Hg. destruct (H Hg) as [[]|[?|(u & s1 & Hl & Hu & Hm & Hs)]]; [done|].
  assert (exists pre', pre = pre' ++ [Slash]) as [pre' ->].
  { destruct Hok as (_ & Hhd & Hok). apply pattern_ok_app in Hok as (b' & Hb & Hpre'); [|done].
    destruct Hpre' as [->|]; [apply Hb|done|done]. }
  apply Forall_app in Hpre as [Hpre' _]. apply gmatch_app in Hu as (u0 & us & -> & _ & Hus); [|done].
  inversion Hus as [| |? ? Hnil| | | | |]; subst. inversion Hnil; subst.
  destruct Hs as [d ->]. destruct d as [|y d _] using rev_ind; [done|].
  apply later_suffix in Hl as Hsuf. rewrite <- app_assoc in Hsuf. cbn [app] in Hsuf.
  assert ((ch_slash :: s1) `suffix_of` (d ++ [y]) ++ s1) as [p Ep].
  { apply (cmp_suffix _ sg); [done| |rewrite !length_app; cbn; lia]. etrans; [by exists u0|done]. }
  assert (d ++ [y] = p ++ [ch_slash]) as E.
  { apply (app_inv_tail s1). by rewrite Ep, <- app_assoc. }
  apply app_inj_tail in E as [-> ->]. rewrite <- app_assoc. by apply gmatch_globstar_more.
Qed.

(** ** An abstract matcher

    The rest of the pattern and of the path, what there is to go back to ([w]:
    the last [*], the last [**], or nothing because the path is at its end), and
    the rests at the last [**]. *)
Inductive fallback := ToGlobstar | ToStar (tw : list tok) (sw : list Z) | ToNothing.

Abbreviation rests := (option (list tok * list Z)).

Definition globstar_matches (g : rests) : Prop :=
  match g with
  | Some (tg, sg) => gmatch (Globstar 0 :: tg) sg
  | None => False
  end.

Definition star_matches (w : fallback) : Prop :=
  match w with ToStar tw sw => gmatch (Star :: tw) sw | _ => False end.

(** Whether some choice that was not given up leads to a match. *)
Definition possible (t : list tok) (s : list Z) (w : fallback) (g : rests) : Prop :=
  gmatch t s \/ star_matches w \/ globstar_matches g.

Definition link_rests (g : rests) (A : Prop) (t : list tok) (s : list Z) : Prop :=
  match g with
  | Some (tg, sg) => pattern_ok true (Globstar 0 :: tg) /\ tame tg sg /\ link_globstar tg sg A t s
  | None => True
  end.

(** The [*] is behind the [**]. *)
Definition star_behind (g : rests) (tw : list tok) (sw : list Z) : Prop :=
  match g with
  | Some (tg, sg) => (exists pre, tg = pre ++ Star :: tw /\ Forall plain_tok pre) /\ cmp sw sg
  | None => True
  end.

Definition linked (t : list tok) (s : list Z) (w : fallback) (g : rests) : Prop :=
  tame t s /\
  match w with
  | ToNothing => s = [] /\ (globstar_matches g -> gmatch t s)
  | ToStar tw sw => pattern_ok false tw /\ tame (Star :: tw) sw /\ star_behind g tw sw /\
      (t = Star :: tw /\ s = sw \/ link_star tw sw t s) /\ link_rests g (star_matches w) t s
  | ToGlobstar => link_rests g False t s \/
      exists tg sg, g = Some (tg, sg) /\ pattern_ok true (Globstar 0 :: tg) /\ t = Globstar 0 :: tg /\ s = sg
  end.

(** Everywhere but at a [**] that was gone back to. *)
Lemma linked_rests t s w g : linked t s w g -> w <> ToNothing ->
  match t with Globstar _ :: _ => False | _ => True end -> link_rests g (star_matches w) t s.
Proof.
  intros [_ H] Hw Ht. destruct w as [|tw sw|]; cbn [linked] in H; [|naive_solver|done].
  destruct H as [|(tg & sg & -> & _ & -> & ->)]; done.
Qed.

Lemma step_elem e t x s w g : accepts e x = true ->
  linked (Elem e :: t) (x :: s) w g ->
  linked t s w g /\ (possible t s w g <-> possible (Elem e :: t) (x :: s) w g).
Proof.
  intros Hx H. assert (w <> ToNothing) as Hw by (by intros ->; destruct H as (_ & ? & _)).
  assert (link_rests g (star_matches w) t s) as Hg.
  { pose proof (linked_rests _ _ _ _ H Hw I) as Hr. destruct g as [[tg sg]|]; [|done].
    destruct Hr as (? & ? & ?). split_and!; [done..|]. by eapply link_globstar_elem. }
  destruct H as [Ht H]. apply (tame_tail _ _ [x]) in Ht. split.
  - split; [done|]. destruct w as [|tw sw|]; [by left| |done]. destruct H as (? & ? & ? & [[? _]|Hl] & _); [done|].
    split_and!; [done..| |done]. right. by apply (link_star_elem _ _ e t x s).
  - assert (gmatch (Elem e :: t) (x :: s) <-> gmatch t s) as E; [|unfold possible; by rewrite E].
    split; [by intros E; inversion E|by constructor].
Qed.

(** A wildcard before a [*] or a [/] that was found has nothing to add. *)
Lemma linked_star_star t s w g : linked (Star :: t) s w g -> star_matches w -> gmatch (Star :: t) s.
Proof.
  intros [_ H]. destruct w as [|tw sw|]; try done. destruct H as (_ & _ & _ & [[? ->]|Hl] & _); [by simplify_eq|].
  by apply (link_star_star tw sw).
Qed.

Lemma linked_star_slash t s w g : linked (Slash :: t) (ch_slash :: s) w g -> star_matches w -> gmatch t s.
Proof.
  intros [_ H]. destruct w as [|tw sw|]; try done. destruct H as (_ & _ & _ & [[? _]|Hl] & _); [done|].
  by apply (link_star_slash tw sw).
Qed.

Lemma step_slash t s w g : linked (Slash :: t) (ch_slash :: s) w g ->
  linked t s ToGlobstar g /\ (possible t s ToGlobstar g <-> possible (Slash :: t) (ch_slash :: s) w g).
Proof.
  intros H. assert (w <> ToNothing) as Hw by (by intros ->; destruct H as (_ & ? & _)).
  pose proof (linked_star_slash _ _ _ _ H) as Hs. split.
  - pose proof (linked_rests _ _ _ _ H Hw I) as Hr. destruct H as [Ht _]. apply (tame_tail _ _ [ch_slash]) in Ht.
    split; [done|]. left. destruct g as [[tg sg]|]; [|done]. destruct Hr as (? & ? & ?). split_and!; [done..|].
    by eapply link_globstar_slash.
  - assert (gmatch (Slash :: t) (ch_slash :: s) <-> gmatch t s) as E.
    { split; [by intros E; inversion E|by constructor]. }
    unfold possible. rewrite E. cbn [star_matches]. naive_solver.
Qed.

Lemma step_star_end t w g : linked (Star :: t) [] w g ->
  linked t [] ToNothing g /\ (possible t [] ToNothing g <-> possible (Star :: t) [] w g).
Proof.
  intros H. assert (gmatch (Star :: t) [] <-> gmatch t []) as E.
  { split; [by intros E; inversion E|by constructor]. }
  pose proof (linked_star_star _ _ _ _ H) as Hs.
  assert (globstar_matches g -> gmatch (Star :: t) []) as Hg.
  { assert (w = ToNothing \/ w <> ToNothing) as [->|Hw] by (destruct w; auto); [by destruct H as (_ & _ & ?)|].
    pose proof (linked_rests _ _ _ _ H Hw I) as Hr. destruct g as [[tg sg]|]; [|done].
    destruct Hr as (_ & _ & pre & -> & _ & _ & Hg). intros Hm.
    destruct (Hg Hm) as [?|[?|(u & s1 & _ & _ & ? & Hsuf)]]; [auto..|]. apply suffix_nil_inv in Hsuf as ->. done. }
  unfold linked, possible. rewrite E in *. split; [|cbn [star_matches]; naive_solver].
  split; [right; by intros []|]. naive_solver.
Qed.

Lemma step_star_sep t s w g : linked (Star :: t) (ch_slash :: s) w g ->
  linked t (ch_slash :: s) ToGlobstar g /\
  (possible t (ch_slash :: s) ToGlobstar g <-> possible (Star :: t) (ch_slash :: s) w g).
Proof.
  intros H. assert (w <> ToNothing) as Hw by (by intros ->; destruct H as (_ & ? & _)).
  assert (gmatch (Star :: t) (ch_slash :: s) <-> gmatch t (ch_slash :: s)) as E.
  { split; [intros E; inversion E; by simplify_eq|by constructor]. }
  pose proof (linked_star_star _ _ _ _ H) as Hs. split.
  - pose proof (linked_rests _ _ _ _ H Hw I) as Hr. destruct H as [Ht _]. apply (tame_tail _ _ []) in Ht.
    split; [done|]. left. destruct g as [[tg sg]|]; [|done]. destruct Hr as (? & ? & ?). split_and!; [done..|].
    eapply link_globstar_star; [exact Hs|rewrite E; auto|done].
  - unfold possible. rewrite E in *. cbn [star_matches]. naive_solver.
Qed.

Lemma step_star t x s w g : x <> ch_slash -> pattern_ok false t -> linked (Star :: t) (x :: s) w g ->
  linked t (x :: s) (ToStar t s) g /\
  (possible t (x :: s) (ToStar t s) g <-> possible (Star :: t) (x :: s) w g).
Proof.
  intros Hx Hok H. assert (w <> ToNothing) as Hw by (by intros ->; destruct H as (_ & ? & _)).
  assert (gmatch (Star :: t) (x :: s) <-> gmatch t (x :: s) \/ gmatch (Star :: t) s) as E.
  { split; [intros E; inversion E; simplify_eq; auto|]. intros [|]; [by constructor|by apply gmatch_star]. }
  pose proof (linked_star_star _ _ _ _ H) as Hs. split.
  - pose proof (linked_rests _ _ _ _ H Hw I) as Hr. destruct H as [Ht _]. split; [by apply (tame_tail _ _ []) in Ht|].
    split_and!; [done| | |right; by apply link_star_init|].
    + destruct Ht as [?|Hn]; [by left|right]. intros Hi. apply Hn. by right.
    + destruct g as [[tg sg]|]; [|done]. destruct Hr as (_ & _ & pre & -> & Hpre & Hc & _).
      split; [by exists pre|]. by eapply cmp_tail.
    + destruct g as [[tg sg]|]; [|done]. destruct Hr as (? & ? & ?). split_and!; [done..|].
      eapply link_globstar_star; [exact Hs|cbn [star_matches]; rewrite E; auto|done].
  - unfold possible. rewrite E in *. cbn [star_matches]. naive_solver.
Qed.

(** At a [**/] nothing but an earlier [**/] can be behind. *)
Lemma linked_globstar k t s w g : linked (Globstar k :: t) s w g ->
  match w with ToStar _ _ => False | _ => True end /\ (globstar_matches g -> gmatch (Globstar k :: t) s).
Proof.
  intros [_ H]. destruct w as [|tw sw|].
  - destruct H as [Hl|(tg & sg & -> & _ & Et & ->)]; [|by simplify_eq].
    split; [done|]. destruct g as [[tg sg]|]; [|done]. destruct Hl as (Hok & _ & Hl).
    by apply (link_globstar_globstar tg sg k t s true).
  - destruct H as (Hok & _ & _ & [[? _]|(es & u & x & -> & _)] & _); [done|]. exfalso.
    destruct (pattern_ok_app false (map Elem es) (Globstar k :: t)) as (b & Hb & Hs).
    + by apply Forall_map, Forall_true.
    + done.
    + destruct Hb as [-> _]. destruct Hs as [E|[pre E]]; [done|by destruct es; [destruct Hok|]|].
      destruct es as [|e es _] using rev_ind; [by destruct pre|]. rewrite map_app in E.
      by apply app_inj_tail in E as [_ ?].
  - by destruct H as [_ Hn].
Qed.

Lemma gmatch_globstar_at k t s : gmatch (Globstar k :: t) s <-> gmatch (Globstar 0 :: t) s.
Proof. by rewrite !gmatch_globstar_iff. Qed.

Lemma gmatch_globstar_last k t : gmatch (Globstar k :: t) [] <-> gmatch t [] /\ t <> [Star].
Proof.
  rewrite gmatch_globstar_iff. split.
  - intros (w & r & E & _ & Hr & Hn). destruct w, r; try done. naive_solver.
  - intros [Hr Hn]. exists [], []. split_and!; [done|by left|done|naive_solver].
Qed.

Lemma step_globstar_end k t w g : t <> [Star] -> linked (Globstar k :: t) [] w g ->
  linked t [] ToNothing g /\ (possible t [] ToNothing g <-> possible (Globstar k :: t) [] w g).
Proof.
  intros Ht H. destruct (linked_globstar _ _ _ _ _ H) as [Hw Hd].
  pose proof (gmatch_globstar_last k t) as E. unfold linked, possible. rewrite E in *.
  split; [split; [right; by intros []|]; naive_solver|]. destruct w; naive_solver.
Qed.

(** The [**/*] that does not match an empty segment. *)
Lemma stuck_globstar k w g : linked [Globstar k; Star] [] w g -> ~ possible [Globstar k; Star] [] w g.
Proof.
  intros H. destruct (linked_globstar _ _ _ _ _ H) as [Hw Hd].
  pose proof (gmatch_globstar_last k [Star]) as E. unfold possible. rewrite E in *.
  destruct w; naive_solver.
Qed.

Lemma gmatch_globstar_sep k t v s : ~ In ch_slash v ->
  gmatch (Globstar k :: t) (v ++ ch_slash :: s) <-> gmatch t (v ++ ch_slash :: s) \/ gmatch (Globstar 0 :: t) s.
Proof.
  intros Hv. split.
  - intros H. inversion H; simplify_eq; [by left|right]. apply (gmatch_globstar_at k).
    by destruct (first_sep_unique v0 v s0 s) as [_ <-].
  - intros [H|H%(gmatch_globstar_at k)]; [|by constructor]. apply gmatch_globstar_none; [|done].
    intros [_ E]. by destruct v.
Qed.

Lemma gmatch_globstar_no_sep k t s : ~ In ch_slash s -> s <> [] ->
  gmatch (Globstar k :: t) s <-> gmatch t s.
Proof.
  intros Hs Hn. split.
  - intros H. inversion H; simplify_eq; [done|]. exfalso. apply Hs. apply in_app_iff. right. by left.
  - intros H. apply gmatch_globstar_none; naive_solver.
Qed.

Lemma step_globstar_sep k t v s w g : ~ In ch_slash v -> pattern_ok true (Globstar k :: t) ->
  linked (Globstar k :: t) (v ++ ch_slash :: s) w g ->
  linked t (v ++ ch_slash :: s) ToGlobstar (Some (t, s)) /\
  (possible t (v ++ ch_slash :: s) ToGlobstar (Some (t, s)) <->
   possible (Globstar k :: t) (v ++ ch_slash :: s) w g).
Proof.
  intros Hv Hok H. destruct (linked_globstar _ _ _ _ _ H) as [Hw Hd]. destruct H as [Ht _]. split.
  - split; [by apply (tame_tail _ _ []) in Ht|]. left. split_and!; [done| |apply link_globstar_init].
    apply (tame_tail (Globstar k) t (v ++ [ch_slash])). by rewrite <- app_assoc.
  - pose proof (gmatch_globstar_sep k t v s Hv) as E. unfold possible. rewrite E in *. cbn [globstar_matches].
    destruct w; naive_solver.
Qed.

Lemma step_globstar_no_sep k t s w g : ~ In ch_slash s -> s <> [] ->
  linked (Globstar k :: t) s w g ->
  linked t s ToGlobstar None /\ (possible t s ToGlobstar None <-> possible (Globstar k :: t) s w g).
Proof.
  intros Hs Hn H. destruct (linked_globstar _ _ _ _ _ H) as [Hw Hd]. split; [split; [by right|by left]|].
  pose proof (gmatch_globstar_no_sep k t s Hs Hn) as E. unfold possible. rewrite E in *. cbn [globstar_matches].
  destruct w; naive_solver.
Qed.

(** Going back. *)
Lemma step_back_star t s tw sw g : ~ gmatch t s -> linked t s (ToStar tw sw) g ->
  linked (Star :: tw) sw (ToStar tw sw) g /\
  (possible (Star :: tw) sw (ToStar tw sw) g <-> possible t s (ToStar tw sw) g).
Proof.
  intros Hn (_ & Hok & Ht & Hb & Hl & Hr). split; [|unfold possible; cbn [star_matches]; naive_solver].
  split_and!; [done|done|done|done|by left|]. destruct Hl as [[-> ->]|Hl]; [done|].
  destruct g as [[tg sg]|]; [|done]. destruct Hr as (? & ? & ?), Hb as [? ?]. split_and!; [done..|].
  by apply (link_globstar_back tg sg tw sw t s).
Qed.

Lemma step_back_globstar t s tg sg : ~ gmatch t s -> linked t s ToGlobstar (Some (tg, sg)) ->
  linked (Globstar 0 :: tg) sg ToGlobstar (Some (tg, sg)) /\
  (possible (Globstar 0 :: tg) sg ToGlobstar (Some (tg, sg)) <-> possible t s ToGlobstar (Some (tg, sg))).
Proof.
  intros Hn [Ht H]. split; [|unfold possible; cbn [globstar_matches star_matches]; naive_solver].
  destruct H as [(? & Htg & _)|(tg' & sg' & ? & ? & -> & ->)]; simplify_eq; (split; [done|]); right; by exists tg, sg || exists tg', sg'.
Qed.

Lemma step_back_none t s w g : ~ gmatch t s -> linked t s w g ->
  match w with ToStar _ _ => False | ToGlobstar => g = None | ToNothing => True end -> ~ possible t s w g.
Proof.
  intros Hn [_ H] Hw. unfold possible. destruct w as [| |]; [subst|done|]; cbn [star_matches]; [naive_solver|].
  destruct H as [_ Hg]. naive_solver.
Qed.
