(* ===== verification/GlobTheorems.v ===== *)
(** * Correctness of glob matching

    The main loop of [Glob.v] decides the relation [gmatch] of [GlobSpec.v] on
    the text of every well-formed pattern without alternatives and on every path
    of code points. A state of the loop is related to a state of the abstract
    matcher ([Inv]): its indices are at tokens and at code points. *)
From Stdlib Require Import ZArith Lia.
From stdpp Require Import base list numbers option.
From S2P Require Import Prelude Strings Wtf8 Glob GlobTotal GlobSpec.
#[local] Open Scope nat_scope.

(** ** Positions *)

Lemma drop_head (l : bytes) i a r : drop i l = a :: r -> l !! i = Some a /\ drop (i + 1) l = r.
Proof.
  intros E. split.
  - pose proof (lookup_drop l i 0) as H. rewrite E in H. cbn in H. by rewrite Nat.add_0_r in H.
  - by rewrite <- drop_drop, E.
Qed.

Lemma drop_more (l : bytes) i a r : drop i l = a ++ r -> drop (i + length a) l = r.
Proof. intros E. rewrite <- drop_drop, E. by rewrite drop_app_length. Qed.

Lemma drop_length_eq (l : bytes) i r : drop i l = r -> i <= length l -> length l = i + length r.
Proof. intros <- H. rewrite length_drop. lia. Qed.

Lemma drop_lookup (l : bytes) i a r : drop i l = a ++ r -> forall k, k < length a -> l !! (i + k) = a !! k.
Proof. intros E k Hk. rewrite <- lookup_drop, E. by apply lookup_app_l. Qed.

Lemma sub_drop (l : bytes) i a r : drop i l = a ++ r -> sub l i (i + length a) = a.
Proof. intros E. unfold sub. rewrite E. replace (i + length a - i) with (length a) by lia. by rewrite take_app_length. Qed.

Lemma text_cons x s : runes_bytes (x :: s) = rune_bytes x ++ runes_bytes s.
Proof. done. Qed.

Lemma pattern_cons k t : pattern_bytes (k :: t) = tok_bytes k ++ pattern_bytes t.
Proof. done. Qed.

Lemma text_bytes_bytes s : Forall is_code_point s -> is_bytes (runes_bytes s).
Proof.
  induction 1 as [|x s Hx Hs IH]; [constructor|]. rewrite text_cons. apply is_bytes_app.
  split; [by apply rune_bytes_bytes|done].
Qed.

(** The first byte of a sequence. *)
Lemma rune_bytes_cons c : is_code_point c -> exists b l, rune_bytes c = b :: l /\
  seq_len b = length (rune_bytes c) /\ ((c < 0x80)%Z /\ b = c /\ l = [] \/ (0x80 <= c /\ 0xC0 <= b)%Z /\ l <> []).
Proof.
  intros Hc. destruct (rune_bytes_lead c Hc) as (b & l & E & _ & Hl & Hcase).
  exists b, l. split_and!; [done| |naive_solver]. unfold seq_len. rewrite Hl. lia.
Qed.

Lemma rune_bytes_length c : is_code_point c -> 1 <= length (rune_bytes c) <= 4.
Proof. intros Hc. destruct (rune_bytes_cons c Hc) as (b & l & _ & <- & _). apply seq_len_bounds. Qed.

Lemma rune_bytes_small c : (0 <= c < 0x80)%Z -> rune_bytes c = [c].
Proof.
  intros Hc. rewrite rune_bytes_digits by (unfold is_code_point; lia). unfold rune_digits.
  by destruct (Z.ltb_spec c 0x80); [|lia].
Qed.

Lemma unescape_byte_large c : (0x80 <= c)%Z -> unescape_byte c = c.
Proof. intros H. unfold unescape_byte. repeat case_if; bool_facts; lia. Qed.

Lemma unescape_byte_small c : (0 <= c < 0x80)%Z -> (0 <= unescape_byte c < 0x80)%Z.
Proof. intros H. unfold unescape_byte. repeat case_if; lia. Qed.

Section Concrete.
Context (glob path : bytes) (start : nat).
#[local] Abbreviation G := (length glob).
#[local] Abbreviation P := (length path).

Definition text_at (i : nat) (s : list Z) : Prop :=
  drop i path = runes_bytes s /\ i <= P /\ Forall is_code_point s.

Lemma text_at_cons i x s : text_at i (x :: s) ->
  is_code_point x /\ i < P /\ text_at (i + length (rune_bytes x)) s /\
  exists b l, rune_bytes x = b :: l /\ path !! i = Some b /\ seq_len b = length (rune_bytes x) /\
    ((x < 0x80)%Z /\ b = x /\ l = [] \/ (0x80 <= x /\ 0xC0 <= b)%Z /\ l <> []).
Proof.
  intros (E & Hi & Hs). inversion_clear Hs as [|? ? Hx Hs']. rewrite text_cons in E.
  pose proof (drop_length_eq _ _ _ E Hi) as Hl. rewrite length_app in Hl. pose proof (rune_bytes_length x Hx).
  split_and!; [done|lia| |].
  - split_and!; [by apply drop_more|lia|done].
  - destruct (rune_bytes_cons x Hx) as (b & l & Ex & Hb & Hc). exists b, l. split_and!; [done| |done|done].
    rewrite Ex in E. cbn in E. by apply drop_head in E as [? _].
Qed.

Lemma text_at_nil i : text_at i [] -> i = P.
Proof. intros (E & Hi & _). apply drop_length_eq in E; [|done]. cbn in E. lia. Qed.

Lemma text_at_lt i s : text_at i s -> s <> [] -> i < P.
Proof. destruct s as [|x s]; [done|]. intros (_ & ? & _)%text_at_cons _. done. Qed.

(** ** Literals *)

Lemma literal_arm_rune st ch cc gi c r v x s :
  unescape ch glob (glob_index st) = Done (Some (cc, gi)) ->
  drop gi glob = rune_bytes c ++ r -> gi <= G -> is_code_point c -> v <> ch_slash ->
  ((c < 0x80)%Z /\ cc = v /\ (0 <= v < 0x80)%Z \/ (0x80 <= c)%Z /\ v = c /\ rune_bytes c !! 0 = Some cc) ->
  text_at (path_index st) (x :: s) ->
  literal_arm glob path st ch = Done
    (if Z.eqb x v
     then Continue (mkState (path_index st + length (rune_bytes x)) (gi + length (rune_bytes c))
                      (wildcard st) (globstar st) (brace_depth st))
     else Fallthrough (set_glob_index st gi)).
Proof.
  intros Hu Eg Hgi Hc Hv Hcase Hx. pose proof Hx as (Ep & Hp & _).
  destruct (text_at_cons _ _ _ Hx) as (Hxc & Hlt & Hnext & b & l & Ex & Hb & Hbl & Hxcase).
  unfold literal_arm. rewrite (proj2 (Nat.ltb_lt _ _) Hlt), Hu. cbn [obind].
  assert (at_ path (path_index (set_glob_index st gi)) = Done b) as -> by (unfold at_; simpl_state; by rewrite Hb).
  cbn [obind]. simpl_state.
  destruct Hcase as [(Hcs & -> & Hvs)|(Hcl & -> & Hcc)].
  - assert (seq_len v = 1) as ->.
    { unfold seq_len, wtf8_byte_sequence_length. by destruct (Z.leb_spec v 0x7F); [|lia]. }
    assert (Z.eqb v ch_slash = false) as -> by by apply Z.eqb_neq. cbn [Nat.ltb Nat.leb].
    rewrite (rune_bytes_small c) by (unfold is_code_point in Hc; lia).
    destruct Hxcase as [(Hxs & -> & ->)|([Hxl Hbc] & _)].
    + rewrite Ex. cbn [length]. by destruct (Z.eqb x v).
    + assert (Z.eqb b v = false) as -> by (apply Z.eqb_neq; lia).
      by assert (Z.eqb x v = false) as -> by (apply Z.eqb_neq; lia).
  - destruct (rune_bytes_cons c Hc) as (b' & l' & Ec & Hbl' & [(? & _)|([_ Hb'] & Hl')]); [lia|].
    rewrite Ec in Hcc. injection Hcc as ->. rewrite Hbl'.
    assert (Z.eqb cc ch_slash = false) as -> by (apply Z.eqb_neq; unfold ch_slash; lia).
    assert ((1 <? length (rune_bytes c)) = true) as ->.
    { apply Nat.ltb_lt. rewrite Ec. destruct l'; [done|]. cbn. lia. }
    pose proof (drop_length_eq _ _ _ Eg Hgi) as HlG. rewrite length_app in HlG.
    rewrite (proj2 (Nat.leb_le (gi + length (rune_bytes c)) G)) by lia. rewrite andb_true_r.
    rewrite (sub_drop _ _ _ _ Eg). rewrite text_cons in Ep.
    destruct (Z.eqb_spec x c) as [->|Hne].
    + pose proof (drop_length_eq _ _ _ Ep Hp) as HlP. rewrite length_app in HlP.
      rewrite (proj2 (Nat.leb_le _ P)) by lia. rewrite (sub_drop _ _ _ _ Ep), bool_decide_eq_true_2 by done. done.
    + rewrite bool_decide_eq_false_2; [by rewrite andb_false_r|]. intros E. apply Hne.
      unfold sub in E. rewrite Ep in E. replace (path_index st + _ - _) with (length (rune_bytes c)) in E by lia.
      pose proof (take_drop (length (rune_bytes c)) (rune_bytes x ++ runes_bytes s)) as Et. rewrite E in Et.
      symmetry in Et. by apply rune_bytes_prefix_inj in Et as [-> _].
Qed.

(** ** Classes *)

Lemma decode_at_rune (l : bytes) i c r : is_bytes l -> drop i l = rune_bytes c ++ r -> is_code_point c ->
  decode_wtf8_rune_at l i = Done (c, length (rune_bytes c)).
Proof.
  intros Hl E Hc. destruct (rune_bytes_cons c Hc) as (b & k & Ec & Hb & _).
  assert (l !! i = Some b) as Hi by (rewrite Ec in E; by apply drop_head in E as [? _]).
  pose proof (lookup_lt_Some _ _ _ Hi) as Hlt. unfold decode_wtf8_rune_at, at_. rewrite Hi. cbn [obind].
  fold (seq_len b). rewrite Hb. do 2 f_equal.
  assert (four_of_list (sub l i (i + Nat.min (length l - i) 4)) = four_of_list (drop i l)) as ->.
  { unfold sub. replace (i + _ - i) with (Nat.min (length l - i) 4) by lia. rewrite <- length_drop.
    unfold four_of_list. destruct (drop i l) as [|? [|? [|? [|? ?]]]]; done. }
  assert (wtf8_byte_sequence_length b = Z.of_nat (length (rune_digits c))) as ->.
  { rewrite <- rune_bytes_digits, <- Hb by done. unfold seq_len. pose proof (seq_len_bounds b). unfold seq_len in *. lia. }
  rewrite E, rune_bytes_digits by done. apply decode_rune_digits; [done|].
  apply (Forall_drop _ i) in Hl. rewrite E in Hl. by apply Forall_app in Hl as [_ ?].
Qed.

(** The first byte of a character of a class. *)
Lemma cchar_bytes_cons c : cchar_ok c -> exists b l, cchar_bytes c = b :: l /\
  b <> ch_close_bracket /\ b <> ch_dash /\ b <> ch_caret /\ b <> ch_bang.
Proof.
  destruct c as [c|c]; cbn [cchar_ok cchar_bytes].
  - intros [Hc Hn]. destruct (rune_bytes_cons c Hc) as (b & l & E & _ & Hcase). exists b, l.
    split; [done|]. destruct Hcase as [(_ & -> & _)|([_ ?] & _)];
      [cbn in Hn; naive_solver|unfold ch_close_bracket, ch_dash, ch_caret, ch_bang; lia].
  - intros _. by exists ch_backslash, (rune_bytes c).
Qed.

Hypothesis Hglob : is_bytes glob.

Lemma get_unicode_cchar c gi r : cchar_ok c -> drop gi glob = cchar_bytes c ++ r ->
  exists b n gi', glob !! gi = Some b /\ get_unicode b glob gi = Done (Some (cchar_value c, n, gi')) /\
    gi' + n = gi + length (cchar_bytes c).
Proof.
  destruct c as [c|c]; cbn [cchar_ok cchar_bytes cchar_value]; intros Hok E.
  - destruct Hok as [Hc Hn]. destruct (rune_bytes_cons c Hc) as (b & l & Ec & _ & Hcase).
    pose proof E as E'. rewrite Ec in E'. cbn in E'. apply drop_head in E' as [Hb _].
    destruct Hcase as [(Hs & -> & ->)|([Hl Hbl] & _)].
    + exists c, 1, gi. split_and!; [done| |by rewrite Ec].
      unfold get_unicode. assert (c <> ch_backslash) as Hne by (cbn in Hn; naive_solver).
      unfold ch_backslash in Hne. destruct (_ || _) eqn:Hcond; [done|]. bool_facts.
      apply andb_false_iff in H0 as [?|?]; bool_facts; lia.
    + exists b, (length (rune_bytes c)), gi. split_and!; [done| |done].
      unfold get_unicode. destruct (_ || _) eqn:Hcond.
      { apply orb_true_iff in Hcond as [?|?]; bool_facts; lia. }
      destruct (Z.eqb_spec b ch_backslash); [unfold ch_backslash in *; lia|].
      by rewrite (decode_at_rune glob gi c r).
  - cbn [app] in E. apply drop_head in E as [Hb E]. exists ch_backslash.
    destruct (rune_bytes_cons c Hok) as (b & l & Ec & _ & Hcase).
    pose proof E as E'. rewrite Ec in E'. cbn in E'. apply drop_head in E' as [Hb' _].
    pose proof (lookup_lt_Some _ _ _ Hb'). unfold get_unicode, at_. rewrite Hb'.
    change ((ch_backslash <=? 0x5B) || (0x5D <=? ch_backslash) && (ch_backslash <=? 0x7F))%Z
      with false. rewrite Z.eqb_refl. cbn iota. destruct (Nat.leb_spec G (gi + 1)); [lia|]. cbn [obind].
    destruct Hcase as [(Hs & -> & ->)|([Hl Hbl] & _)].
    + rewrite Ec. destruct (_ || _) eqn:Hesc.
      * exists 1, (gi + 1). split_and!; [done|done|cbn; lia].
      * rewrite (decode_at_rune glob (gi + 1) c r) by done. cbn [obind].
        exists (length (rune_bytes c)), (gi + 1). split_and!; [done| |rewrite Ec; cbn; lia].
        unfold unescape_byte. repeat (apply orb_false_iff in Hesc as [Hesc ?]). bool_facts.
        do 4 f_equal. repeat case_if; bool_facts; lia.
    + destruct (_ || _) eqn:Hesc.
      { repeat (apply orb_true_iff in Hesc as [Hesc|?]); bool_facts; lia. }
      rewrite (decode_at_rune glob (gi + 1) c r) by done. cbn [obind].
      exists (length (rune_bytes c)), (gi + 1). rewrite unescape_byte_large by done. split_and!; [done|done|cbn; lia].
Qed.

Lemma item_bytes_cons i : item_ok i -> exists b l, item_bytes i = b :: l /\
  b <> ch_close_bracket /\ b <> ch_dash /\ b <> ch_caret /\ b <> ch_bang.
Proof.
  intros [Hl _]. destruct (cchar_bytes_cons _ Hl) as (b & l & E & Hb). unfold item_bytes. rewrite E.
  by eexists b, _.
Qed.

(** What follows an item is not a dash. *)
Lemma items_no_dash items gi r : Forall item_ok items ->
  drop gi glob = concat (map item_bytes items) ++ ch_close_bracket :: r ->
  test_at glob gi (Z.eqb ch_dash) = false.
Proof.
  intros Hok E. assert (exists b k, drop gi glob = b :: k /\ b <> ch_dash) as (b & k & E' & Hb).
  { destruct Hok as [|i items Hi _]; [by exists ch_close_bracket, r|].
    destruct (item_bytes_cons i Hi) as (b & l & Eb & ? & ? & _). cbn [map concat] in E. rewrite Eb in E. eexists b, _. split; [exact E|done]. }
  apply drop_head in E' as [E' _]. unfold test_at. rewrite E'. apply Z.eqb_neq. congruence.
Qed.

Lemma item_high_read i gi r : item_ok i -> drop gi glob = match item_high i with Some h => ch_dash :: cchar_bytes h | None => [] end ++ r ->
  (item_high i = None -> test_at glob gi (Z.eqb ch_dash) = false) ->
  let low := cchar_value (item_low i) in
  (if (gi + 1 <? G) && test_at glob gi (Z.eqb ch_dash) && negb (test_at glob (gi + 1) (Z.eqb ch_close_bracket)) then
     let! high := at_ glob (gi + 1) in
     let! r := get_unicode high glob (gi + 1) in
     match r with
     | None => Done None
     | Some (high, high_len, gi) => Done (Some (high, gi + high_len))
     end
   else Done (Some (low, gi))) =
  Done (Some (match item_high i with Some h => cchar_value h | None => low end,
    gi + length (match item_high i with Some h => ch_dash :: cchar_bytes h | None => [] end))).
Proof.
  intros [_ Hh] E Hn low. destruct (item_high i) as [h|].
  - apply drop_head in E as [Ed E]. destruct (get_unicode_cchar h (gi + 1) r Hh E) as (b & n & gi' & Hb & Hu & Hs).
    destruct (cchar_bytes_cons h Hh) as (b' & l & Eb & Hne & _). rewrite Eb in E.
    apply drop_head in E as [Eb' _]. assert (b' = b) as -> by congruence.
    pose proof (lookup_lt_Some _ _ _ Hb) as Hlt. unfold test_at, at_. rewrite Ed, Hb, Z.eqb_refl.
    rewrite (proj2 (Nat.ltb_lt _ _) Hlt), (proj2 (Z.eqb_neq ch_close_bracket b)) by congruence.
    cbn [andb negb obind]. rewrite Hu. cbn [obind length]. do 3 f_equal. lia.
  - rewrite Hn, andb_false_r by done. cbn [andb length]. do 3 f_equal. lia.
Qed.

Lemma class_loop_items items : forall fuel x first m gi r,
  Forall item_ok items -> drop gi glob = concat (map item_bytes items) ++ ch_close_bracket :: r ->
  (first = true -> items <> []) -> length items < fuel ->
  class_loop glob fuel x first m gi =
    Done (Some (gi + length (concat (map item_bytes items)), m || existsb (fun i => item_has i x) items)).
Proof.
  induction items as [|i items IH]; intros fuel x first m gi r Hok E Hf Hfuel;
    (destruct fuel as [|fuel]; [lia|]); cbn [class_loop].
  - cbn in E. apply drop_head in E as [Eb _]. unfold test_at. rewrite Eb, Z.eqb_refl.
    destruct first; [naive_solver|]. cbn [negb orb]. rewrite andb_false_r. cbn [map concat length existsb].
    rewrite orb_false_r. do 3 f_equal. lia.
  - inversion_clear Hok as [|? ? Hi Hok']. destruct (item_bytes_cons i Hi) as (b & l & Eb & Hne & _).
    cbn [map concat] in E. rewrite <- app_assoc in E.
    assert (glob !! gi = Some b) as Hb by (rewrite Eb in E; by apply drop_head in E as [? _]).
    pose proof (lookup_lt_Some _ _ _ Hb) as Hlt.
    assert ((gi <? G) && (first || negb (test_at glob gi (Z.eqb ch_close_bracket))) = true) as ->.
    { unfold test_at. rewrite (proj2 (Nat.ltb_lt _ _) Hlt), Hb, (proj2 (Z.eqb_neq ch_close_bracket b)) by congruence.
      by rewrite orb_true_r. }
    unfold at_ at 1. rewrite Hb. cbn [obind]. unfold item_bytes in E. rewrite <- app_assoc in E.
    destruct Hi as [Hlow Hhigh]. destruct (get_unicode_cchar _ _ _ Hlow E) as (b' & n & gi' & Hb' & Hu & Hs).
    assert (b' = b) as -> by congruence. rewrite Hu. cbn [obind]. rewrite Hs. apply drop_more in E as E2.
    assert (item_high i = None -> test_at glob (gi + length (cchar_bytes (item_low i))) (Z.eqb ch_dash) = false) as Hnd.
    { intros Hnone. rewrite Hnone in E2. by apply (items_no_dash items _ r). }
    rewrite (item_high_read i _ _ ltac:(done) E2 Hnd). cbn [obind]. apply drop_more in E2 as E3.
    rewrite (IH fuel x false _ _ r); [|done|done|done|cbn in Hfuel; lia].
    cbn [map concat existsb]. do 3 f_equal; [rewrite length_app; unfold item_bytes; rewrite length_app; lia|].
    unfold item_has at 2. case_if; destruct m; cbn [orb]; try done.
Qed.

(** ** One character *)

Lemma glob_arm_literal st ch : brace_depth st = 0%Z ->
  ch <> ch_star -> ch <> ch_question -> ch <> ch_open_bracket -> ch <> ch_open_brace ->
  glob_arm glob path start [] st ch = Done (ToElse st).
Proof.
  intros Hd H1 H2 H3 H4. unfold glob_arm.
  rewrite (proj2 (Z.eqb_neq _ _) H1), (proj2 (Z.eqb_neq _ _) H2), (proj2 (Z.eqb_neq _ _) H3), (proj2 (Z.eqb_neq _ _) H4).
  unfold branch_end_arm. rewrite Hd. by destruct (_ || _).
Qed.

(** A round whose character is compared as a literal. *)
Lemma main_loop_literal st ch : glob !! glob_index st = Some ch ->
  glob_arm glob path start [] st ch = Done (ToElse st) ->
  main_loop glob path start [] st = let! a := literal_arm glob path st ch in Done (leave path a).
Proof.
  intros Hch Ha. unfold main_loop. rewrite (proj2 (Nat.ltb_lt _ _) (lookup_lt_Some _ _ _ Hch)), Hch, Ha. done.
Qed.

(** What a round does at an element [e] of the pattern: it takes a character
    that [e] accepts, or fails. *)
Definition takes (st : State) (e : elem) (s : list Z) : Prop :=
  (exists x s', s = x :: s' /\ accepts e x = true /\
     main_loop glob path start [] st = Done (inl
       (mkState (path_index st + length (rune_bytes x)) (glob_index st + length (elem_bytes e))
          (wildcard st) (globstar st) (brace_depth st)))) \/
  (forall x s', s = x :: s' -> accepts e x = false) /\
  exists st', wildcard st' = wildcard st /\ globstar st' = globstar st /\
    main_loop glob path start [] st = Done (retry path st').

(** At the end of the path. *)
Lemma takes_end st e ch : glob !! glob_index st = Some ch ->
  glob_arm glob path start [] st ch = Done (ToElse st) -> path_index st = P -> takes st e [].
Proof.
  intros Hch Ha Hp. right. split; [done|]. exists st. split_and!; [done|done|].
  rewrite (main_loop_literal st ch Hch Ha). unfold literal_arm.
  by rewrite (proj2 (Nat.ltb_ge (path_index st) P)) by lia.
Qed.

Lemma takes_literal st e ch cc gi c r v s :
  (forall x, accepts e x = Z.eqb x v) -> accepts e ch_slash = false -> brace_depth st = 0%Z ->
  glob !! glob_index st = Some ch -> glob_arm glob path start [] st ch = Done (ToElse st) ->
  unescape ch glob (glob_index st) = Done (Some (cc, gi)) ->
  drop gi glob = rune_bytes c ++ r -> gi <= G -> is_code_point c ->
  gi + length (rune_bytes c) = glob_index st + length (elem_bytes e) ->
  ((c < 0x80)%Z /\ cc = v /\ (0 <= v < 0x80)%Z \/ (0x80 <= c)%Z /\ v = c /\ rune_bytes c !! 0 = Some cc) ->
  text_at (path_index st) s -> takes st e s.
Proof.
  intros Hacc Hsl Hd Hch Ha Hu E Hgi Hc Hlen Hcase Hs. destruct s as [|x s].
  { by apply (takes_end st e ch); [..|apply text_at_nil]. }
  rewrite Hacc in Hsl. apply Z.eqb_neq in Hsl. unfold takes.
  rewrite (main_loop_literal st ch Hch Ha), (literal_arm_rune st ch cc gi c r v x s) by done.
  cbn [obind leave]. destruct (Z.eqb x v) eqn:Ex.
  - left. exists x, s. rewrite Hacc. split_and!; [done|done|]. cbn [leave]. by rewrite Hlen.
  - right. split; [intros ? ? [= <- <-]; by rewrite Hacc|]. by exists (set_glob_index st gi).
Qed.

Lemma takes_lit st c r s : elem_ok (Lit c) -> brace_depth st = 0%Z ->
  drop (glob_index st) glob = rune_bytes c ++ r -> glob_index st <= G ->
  text_at (path_index st) s -> takes st (Lit c) s.
Proof.
  intros Hok Hd E Hgi Hs. pose proof Hok as (Hsl & Hc & Hn).
  destruct (rune_bytes_cons c Hc) as (b & l & Ec & _ & Hcase).
  assert (glob !! glob_index st = Some b) as Hb by (rewrite Ec in E; by apply drop_head in E as [? _]).
  assert (~ In b [ch_star; ch_question; ch_open_bracket; ch_open_brace; ch_backslash]) as Hnb.
  { destruct Hcase as [(_ & -> & _)|([_ ?] & _)]; [done|].
    cbn. unfold ch_star, ch_question, ch_open_bracket, ch_open_brace, ch_backslash. lia. }
  cbn in Hnb. apply (takes_literal st (Lit c) b b (glob_index st) c r c); try done.
  - apply glob_arm_literal; naive_solver.
  - unfold unescape. destruct (Z.eqb_spec b ch_backslash); [naive_solver|done].
  - unfold is_code_point in Hc. destruct Hcase as [(? & -> & _)|([? _] & _)]; [left; split_and!; lia|right].
    by rewrite Ec.
Qed.

Lemma takes_esc st c r s : elem_ok (Esc c) -> brace_depth st = 0%Z ->
  drop (glob_index st) glob = ch_backslash :: rune_bytes c ++ r -> glob_index st <= G ->
  text_at (path_index st) s -> takes st (Esc c) s.
Proof.
  intros Hok Hd E Hgi Hs. pose proof Hok as (Hsl & Hc). apply drop_head in E as [Hch E].
  destruct (rune_bytes_cons c Hc) as (b & l & Ec & _ & Hcase).
  assert (glob !! (glob_index st + 1) = Some b) as Hb by (rewrite Ec in E; by apply drop_head in E as [? _]).
  pose proof (lookup_lt_Some _ _ _ Hb) as Hlt.
  apply (takes_literal st (Esc c) ch_backslash (unescape_byte b) (glob_index st + 1) c r (unescape_byte c)); try (done || lia).
  - unfold unescape, at_. rewrite Z.eqb_refl, Hb. by destruct (Nat.leb_spec G (glob_index st + 1)); [lia|].
  - cbn. lia.
  - unfold is_code_point in Hc. destruct Hcase as [(? & -> & _)|([? ?] & _)].
    + left. split_and!; [done|done|apply unescape_byte_small; lia..].
    + right. rewrite !unescape_byte_large by lia. by rewrite Ec.
Qed.

Lemma takes_any st s : glob !! glob_index st = Some ch_question -> text_at (path_index st) s -> takes st Any s.
Proof.
  intros Hch Hs. destruct s as [|x s].
  - apply text_at_nil in Hs. apply (takes_end st Any ch_question); [done| |done].
    unfold glob_arm, question_arm. cbn [Z.eqb Pos.eqb ch_question ch_star]. by rewrite lookup_ge_None_2 by lia.
  - destruct (text_at_cons _ _ _ Hs) as (Hx & Hlt & _ & b & l & Ex & Hb & Hl & Hcase).
    assert (main_loop glob path start [] st = Done (leave path (question_arm path st))) as Hm.
    { unfold main_loop. rewrite (proj2 (Nat.ltb_lt _ _) (lookup_lt_Some _ _ _ Hch)), Hch.
      unfold glob_arm, question_arm. cbn [Z.eqb Pos.eqb ch_question ch_star obind orb]. rewrite Hb. by destruct (is_separator b). }
    assert (is_separator b = Z.eqb x ch_slash) as Hsep.
    { unfold is_separator. destruct Hcase as [(_ & -> & _)|([? ?] & _)]; [done|]. unfold ch_slash.
      by rewrite !(proj2 (Z.eqb_neq _ _)) by lia. }
    unfold takes. rewrite Hm. unfold question_arm. rewrite Hb, Hsep. cbn [accepts].
    destruct (Z.eqb x ch_slash) eqn:E; cbn [negb leave].
    + right. split; [intros ? ? [= <- <-]; by rewrite E|]. by exists st.
    + left. exists x, s. rewrite E. split_and!; [done|done|]. by rewrite Hl.
Qed.

Lemma length_concat_items items : Forall item_ok items -> length items <= length (concat (map item_bytes items)).
Proof.
  induction 1 as [|i items Hi _ IH]; [done|]. cbn [map concat length]. rewrite length_app.
  destruct (item_bytes_cons i Hi) as (b & l & -> & _). cbn. lia.
Qed.

Hypothesis Hpath : is_bytes path.

Lemma takes_class st neg items r s : elem_ok (Class neg items) ->
  drop (glob_index st) glob = elem_bytes (Class neg items) ++ r -> glob_index st <= G ->
  text_at (path_index st) s -> takes st (Class neg items) s.
Proof.
  intros Hok E Hgi Hs. pose proof Hok as (_ & Hneg & Hne & Hitems). pose proof E as E0.
  cbn [elem_bytes app] in E. apply drop_head in E as [Hch E].
  pose proof (lookup_lt_Some _ _ _ Hch) as Hlt. destruct s as [|x s].
  { apply text_at_nil in Hs. apply (takes_end st _ ch_open_bracket); [done| |done].
    unfold glob_arm, class_arm. cbn [Z.eqb Pos.eqb ch_question ch_star ch_open_bracket].
    by rewrite (proj2 (Nat.ltb_ge (path_index st) P)) by lia. }
  destruct (text_at_cons _ _ _ Hs) as (Hx & Hpl & _). pose proof Hs as (Ep & _ & _). rewrite text_cons in Ep.
  set (gi := glob_index st + 1 + length (match neg with Some c => [c] | None => [] end)).
  assert (drop gi glob = concat (map item_bytes items) ++ ch_close_bracket :: r) as E1.
  { rewrite <- !app_assoc in E. by apply drop_more in E. }
  assert ((if test_at glob (glob_index st + 1) (fun b => Z.eqb b ch_caret || Z.eqb b ch_bang)
           then glob_index st + 1 + 1 else glob_index st + 1) = gi /\
          test_at glob (glob_index st + 1) (fun b => Z.eqb b ch_caret || Z.eqb b ch_bang) =
            match neg with Some _ => true | None => false end) as [Egi Eneg].
  { unfold test_at. subst gi. destruct neg as [c|].
    - cbn in E. apply drop_head in E as [-> _]. by destruct Hneg as [-> | ->].
    - cbn [app length] in *. rewrite Nat.add_0_r in *. destruct items as [|i items]; [done|].
      inversion_clear Hitems as [|? ? Hi _]. destruct (item_bytes_cons i Hi) as (b & l & Eb & _ & _ & ? & ?).
      cbn in E1. rewrite Eb in E1. apply drop_head in E1 as [-> _].
      by rewrite !(proj2 (Z.eqb_neq _ _)). }
  assert (glob_arm glob path start [] st ch_open_bracket = class_arm glob path st) as Ha by done.
  assert (class_arm glob path st = Done (if accepts (Class neg items) x
    then Continue (mkState (path_index st + length (rune_bytes x)) (glob_index st + length (elem_bytes (Class neg items)))
                     (wildcard st) (globstar st) (brace_depth st))
    else Fallthrough (set_glob_index st (glob_index st + length (elem_bytes (Class neg items)))))) as Hc.
  { unfold class_arm. rewrite (proj2 (Nat.ltb_lt _ _) Hpl), Egi, Eneg, (decode_at_rune path _ x _ Hpath Ep Hx).
    cbn [obind]. pose proof (length_concat_items items Hitems) as Hli.
    assert (gi <= G) as HgiG by (apply lookup_lt_Some in Hch; pose proof (drop_length_eq _ _ _ E0 Hgi) as Hl;
      rewrite length_app in Hl; subst gi; cbn in Hl; rewrite !length_app in Hl; lia).
    pose proof (drop_length_eq _ _ _ E1 HgiG) as HlG. rewrite length_app in HlG. cbn in HlG.
    rewrite (class_loop_items items (S G) x true false gi r) by (done || lia). cbn [obind].
    destruct (Nat.leb_spec G (gi + length (concat (map item_bytes items)))); [lia|]. cbn [orb].
    assert (gi + length (concat (map item_bytes items)) + 1 = glob_index st + length (elem_bytes (Class neg items))) as ->.
    { subst gi. cbn [elem_bytes length]. rewrite !length_app. cbn. lia. }
    cbn [accepts]. by destruct neg, (existsb _ items). }
  unfold takes, main_loop. rewrite (proj2 (Nat.ltb_lt _ _) Hlt), Hch, Ha, Hc. cbn [orb obind].
  destruct (accepts _ x) eqn:Eacc.
  - left. by exists x, s.
  - right. split; [by intros ? ? [= <- <-]|]. by eexists.
Qed.

Lemma takes_elem st e r s : elem_ok e -> brace_depth st = 0%Z ->
  drop (glob_index st) glob = elem_bytes e ++ r -> glob_index st <= G ->
  text_at (path_index st) s -> takes st e s.
Proof.
  intros Hok Hd E Hgi Hs. destruct e as [c|c| |neg items].
  - by apply (takes_lit st c r).
  - by apply (takes_esc st c r).
  - apply takes_any; [|done]. by apply drop_head in E as [? _].
  - by apply (takes_class st neg items r).
Qed.

(** ** Wildcards *)

Lemma elem_bytes_cons e : elem_ok e -> exists b l, elem_bytes e = b :: l /\ b <> ch_star.
Proof.
  destruct e as [c|c| |neg items]; cbn [elem_bytes].
  - intros (_ & Hc & Hn). destruct (rune_bytes_cons c Hc) as (b & l & E & _ & Hcase). exists b, l.
    split; [done|]. destruct Hcase as [(_ & -> & _)|([_ ?] & _)]; [cbn in Hn; naive_solver|unfold ch_star; lia].
  - intros _. by exists ch_backslash, (rune_bytes c).
  - intros _. by exists ch_question, [].
  - intros _. by eexists ch_open_bracket, _.
Qed.

Lemma pattern_head seg t : pattern_ok seg t -> pattern_bytes t !! 0 = Some ch_star ->
  match t with Star :: _ | Globstar _ :: _ | GlobstarEnd _ :: _ => True | _ => False end.
Proof.
  destruct t as [|[e| | |k|k] t]; try done. intros [He _] E. rewrite pattern_cons in E. cbn [tok_bytes] in E.
  destruct (elem_bytes_cons e He) as (b & l & Eb & Hb). rewrite Eb in E. cbn in E. by injection E.
Qed.

(** The text after a [*] or a [**/] is not a star, or is a single one. *)
Lemma pattern_after_star t : pattern_ok false (Star :: t) \/ pattern_ok true (Star :: t) ->
  pattern_bytes t !! 0 <> Some ch_star.
Proof.
  intros Hok E. assert (pattern_ok false t /\ match t with Star :: _ => False | _ => True end) as [Hok' Ht].
  { cbn in Hok. tauto. }
  pose proof (pattern_head false t Hok' E). destruct t as [|[e| | |k|k] t]; try done; by destruct Hok'.
Qed.

Lemma pattern_after_globstar k t : pattern_ok true (Globstar k :: t) ->
  pattern_bytes t !! 0 = Some ch_star ->
  exists t', t = Star :: t' /\ pattern_bytes t !! 1 <> Some ch_star.
Proof.
  intros (_ & Hhd & Hok) E. pose proof (pattern_head true t Hok E).
  destruct t as [|[e| | |k'|k'] t]; try done. exists t. split; [done|].
  rewrite pattern_cons. change (tok_bytes Star) with [ch_star]. cbn [app lookup list_lookup].
  by apply pattern_after_star; right.
Qed.

Lemma skip_loop_copies k : forall fuel j r,
  drop j glob = ch_slash :: concat (replicate k globstar_slash) ++ r -> j <= G ->
  take 3 r <> globstar_slash -> k < fuel -> skip_globstars_loop fuel glob j = Done (j + 3 * k).
Proof.
  induction k as [|k IH]; intros fuel j r E Hj Hr Hf; (destruct fuel as [|fuel]; [lia|]); cbn [skip_globstars_loop].
  - cbn [replicate concat app] in E.
    assert (slice_is glob j slash_globstar_slash = false) as ->.
    { apply bool_decide_eq_false. unfold sub. rewrite E. cbn [length slash_globstar_slash].
      replace (j + 4 - j) with 4 by lia. cbn [take]. unfold slash_globstar_slash. intros Ec. apply Hr.
      by injection Ec. }
    rewrite andb_false_r. f_equal. lia.
  - cbn [replicate concat] in E.
    assert (drop j glob = slash_globstar_slash ++ concat (replicate k globstar_slash) ++ r) as E4 by (by rewrite E).
    pose proof (drop_length_eq _ _ _ E4 Hj) as Hl. rewrite length_app in Hl. cbn in Hl.
    assert (slice_is glob j slash_globstar_slash = true) as ->.
    { apply bool_decide_eq_true. by apply (sub_drop _ _ _ _ E4). }
    rewrite (proj2 (Nat.leb_le (j + 4) G)) by lia. cbn [andb].
    rewrite (IH fuel (j + 3) r); [f_equal; lia| |lia|done|lia].
    by apply (drop_more _ _ slash_globstar) in E.
Qed.

Lemma drop_copies k : forall j r, drop j glob = ch_slash :: concat (replicate k globstar_slash) ++ r ->
  drop (j + 3 * k) glob = ch_slash :: r.
Proof.
  induction k as [|k IH]; intros j r E; [by rewrite Nat.add_0_r|].
  replace (j + 3 * S k) with (j + 3 + 3 * k) by lia. apply IH. by apply (drop_more _ _ slash_globstar) in E.
Qed.

(** Whether the pattern ends with [/**] there. *)
Lemma slice_end_globstar j r : drop j glob = ch_slash :: r -> j <= G ->
  (j + 3 =? G) && slice_is glob j slash_globstar = bool_decide (r = [ch_star; ch_star]).
Proof.
  intros E Hj. pose proof (drop_length_eq _ _ _ E Hj) as Hl. cbn in Hl.
  unfold slice_is, sub. rewrite E. cbn [slash_globstar length]. replace (j + 3 - j) with 3 by lia. cbn [take].
  destruct (decide (r = [ch_star; ch_star])) as [->|Hr].
  { cbn in Hl. rewrite (proj2 (Nat.eqb_eq _ _)) by lia. done. }
  rewrite (bool_decide_eq_false_2 (r = _)) by done. apply andb_false_iff. destruct (Nat.eqb_spec (j + 3) G); [right|by left].
  apply bool_decide_eq_false. intros Ec. apply Hr. destruct r as [|? [|? [|? ?]]]; try done; cbn in Hl; try lia.
  by injection Ec as -> ->.
Qed.

Lemma length_copies k : k <= length (concat (replicate k globstar_slash)).
Proof. induction k; [done|]. cbn. lia. Qed.

Lemma skip_globstars_copies k gi t : pattern_ok true (Globstar k :: t) -> gi <= G ->
  drop gi glob = pattern_bytes (Globstar k :: t) -> skip_globstars glob gi = Done (gi + 3 * k).
Proof.
  intros Hok Hgi E. rewrite pattern_cons in E. cbn [tok_bytes replicate concat] in E. rewrite <- app_assoc in E.
  pose proof (drop_length_eq _ _ _ E Hgi) as Hl. rewrite !length_app in Hl. cbn in Hl.
  apply (drop_more _ _ [ch_star; ch_star]) in E as E2.
  assert (take 3 (pattern_bytes t) <> globstar_slash /\ pattern_bytes t <> [ch_star; ch_star]) as [Hr1 Hr2].
  { split; intros Er.
    - assert (pattern_bytes t !! 0 = Some ch_star /\ pattern_bytes t !! 1 = Some ch_star) as [E0 E1].
      { destruct (pattern_bytes t) as [|? [|? [|? ?]]]; try done. by injection Er as -> -> _. }
      destruct (pattern_after_globstar k t Hok E0) as (? & _ & ?). done.
    - destruct (pattern_after_globstar k t Hok) as (? & _ & ?); rewrite Er in *; done. }
  pose proof (length_copies k) as Hk.
  unfold skip_globstars. cbn [length] in E2. rewrite (skip_loop_copies k _ _ (pattern_bytes t)) by (done || lia).
  cbn [obind]. apply drop_copies in E2 as E3.
  assert (gi + 2 + 3 * k <= G) as Hle.
  { assert (length (drop (gi + 2 + 3 * k) glob) <> 0) as Hn by (rewrite E3; done). rewrite length_drop in Hn. lia. }
  rewrite (slice_end_globstar _ _ E3), bool_decide_eq_false_2 by done. f_equal. lia.
Qed.

Lemma skip_globstars_end k gi : gi <= G ->
  drop gi glob = pattern_bytes [GlobstarEnd k] -> skip_globstars glob gi = Done (gi + 3 * k).
Proof.
  intros Hgi E. unfold pattern_bytes in E. cbn [map concat tok_bytes] in E. rewrite app_nil_r in E.
  pose proof (drop_length_eq _ _ _ E Hgi) as Hl. rewrite length_app in Hl. cbn in Hl.
  destruct k as [|k].
  - apply drop_more in E as E2. cbn [length] in E2.
    rewrite skip_globstars_stay; [f_equal; lia|apply andb_false_iff; left..].
    + apply Nat.leb_gt. cbn in Hl. lia.
    + apply Nat.eqb_neq. cbn in Hl. lia.
  - cbn [replicate concat] in E. rewrite <- app_assoc in E. apply (drop_more _ _ [ch_star; ch_star]) in E as E2.
    pose proof (length_copies k) as Hk. cbn [replicate concat] in Hl. rewrite length_app in Hl. cbn in Hl.
    unfold skip_globstars. cbn [length] in E2.
    rewrite (skip_loop_copies k _ _ [ch_star; ch_star]) by (done || lia). cbn [obind]. apply drop_copies in E2 as E3.
    assert (gi + 2 + 3 * k <= G) as Hle.
    { assert (length (drop (gi + 2 + 3 * k) glob) <> 0) as Hn by (rewrite E3; done). rewrite length_drop in Hn. lia. }
    rewrite (slice_end_globstar _ _ E3), bool_decide_eq_true_2 by done. f_equal. lia.
Qed.

(** What [star_arm] makes of a [*] and of a [**] that is a segment. *)
Definition next_rune (pi : nat) : nat := pi + match path !! pi with Some b => seq_len b | None => 1 end.

Lemma star_arm_single st : glob !! (glob_index st + 1) <> Some ch_star ->
  star_arm glob path start st = Done
    (mkState (path_index st) (glob_index st + 1)
       (if test_at path (path_index st) is_separator then globstar st
        else mkWildcard (glob_index st) (next_rune (path_index st)) (brace_depth st))
       (globstar st) (brace_depth st)).
Proof.
  intros Hn. unfold star_arm.
  assert ((glob_index st + 1 <? G) && test_at glob (glob_index st + 1) (Z.eqb ch_star) = false) as ->.
  { apply andb_false_iff. right. apply not_true_iff_false. by rewrite test_at_eq. }
  cbn [obind]. simpl_state. by destruct (test_at path _ _).
Qed.

Lemma star_arm_double st gi : double_star glob (glob_index st) -> skip_globstars glob (glob_index st) = Done gi ->
  segment_start glob start (gi + 2) -> segment_end glob (gi + 2) -> 
  let e := gi + 2 <? G in
  let w := mkWildcard gi (next_rune (path_index st)) (brace_depth st) in
  star_arm glob path start st = Done
    (if e && (path_index st =? P) && (G - (gi + 2) =? 2)
        && test_at glob (gi + 2) is_separator && test_at glob (gi + 2 + 1) (Z.eqb ch_star)
     then mkState (path_index st) (gi + 2) w (globstar st) (brace_depth st)
     else skip_to_separator (mkState (path_index st) (if e then gi + 2 + 1 else gi + 2) w (globstar st) (brace_depth st))
            path e).
Proof.
  intros [_ Hd] Hskip Hs He e w. unfold star_arm.
  assert ((glob_index st + 1 <? G) && test_at glob (glob_index st + 1) (Z.eqb ch_star) = true) as ->.
  { rewrite (proj2 (test_at_eq _ _ _) Hd), andb_true_r. apply Nat.ltb_lt. by apply lookup_lt_Some in Hd. }
  rewrite Hskip. cbn [obind]. simpl_state. fold e. fold (next_rune (path_index st)). fold w.
  destruct (e && _ && _ && _ && _); [done|].
  assert ((if gi + 2 - start <? 3 then Done true else let! c := at_ glob (gi + 2 - 3) in Done (Z.eqb c ch_slash)) = Done true) as ->.
  { destruct (Nat.ltb_spec (gi + 2 - start) 3); [done|]. destruct Hs as [?|Hs]; [lia|]. unfold at_. by rewrite Hs. }
  assert ((if negb e then Done true else let! c := at_ glob (gi + 2) in Done (Z.eqb c ch_slash)) = Done true) as ->.
  { subst e. destruct (Nat.ltb_spec (gi + 2) G); [|done]. destruct He as [?|He]; [lia|]. unfold at_. by rewrite He. }
  cbn [obind andb]. by destruct e.
Qed.

Lemma main_loop_star st st' : glob !! glob_index st = Some ch_star -> star_arm glob path start st = Done st' ->
  main_loop glob path start [] st = Done (inl st').
Proof.
  intros Hch Ha. unfold main_loop. rewrite (proj2 (Nat.ltb_lt _ _) (lookup_lt_Some _ _ _ Hch)), Hch.
  unfold glob_arm. by rewrite Z.eqb_refl, Ha.
Qed.

(** The next segment of the path. *)
Lemma skip_while_text pi v s : ~ In ch_slash v -> text_at pi (v ++ s) ->
  skip_while (fun b => negb (is_separator b)) path pi =
    pi + length (runes_bytes v) + prefix_len (fun b => negb (is_separator b)) (runes_bytes s).
Proof.
  intros Hv (E & _ & Hc). unfold skip_while. rewrite E. unfold runes_bytes. rewrite map_app, concat_app.
  rewrite prefix_len_app; [unfold runes_bytes; lia|]. apply Forall_app in Hc as [Hc _]. clear E.
  induction Hc as [|x v Hx Hc IH]; [constructor|]. cbn [map concat].
  apply Forall_app. split; [|apply IH; intros ?; apply Hv; by right].
  destruct (Z.lt_ge_cases x 0x80) as [Hs|Hl].
  - rewrite rune_bytes_small by (unfold is_code_point in Hx; lia). repeat constructor.
    unfold is_separator. destruct (Z.eqb_spec x ch_slash); [|done]. subst. exfalso. apply Hv. by left.
  - eapply Forall_impl; [|by apply rune_bytes_high]. intros b Hb. cbn beta in Hb. unfold is_separator, ch_slash.
    by destruct (Z.eqb_spec b 47); [lia|].
Qed.

Lemma skip_to_segment pi v s : ~ In ch_slash v -> text_at pi (v ++ ch_slash :: s) ->
  skip_while (fun b => negb (is_separator b)) path pi + 1 = pi + length (runes_bytes (v ++ [ch_slash])) /\
  skip_while (fun b => negb (is_separator b)) path pi <> P /\
  text_at (skip_while (fun b => negb (is_separator b)) path pi + 1) s.
Proof.
  intros Hv Ht. rewrite (skip_while_text pi v (ch_slash :: s) Hv Ht).
  assert (rune_bytes ch_slash = [ch_slash]) as Es by by vm_compute.
  rewrite text_cons, Es. cbn [app]. rewrite prefix_len_stop by done.
  assert (length (runes_bytes (v ++ [ch_slash])) = length (runes_bytes v) + 1) as Hl.
  { unfold runes_bytes. rewrite map_app, concat_app, length_app. done. }
  destruct Ht as (E & Hi & Hc). assert (runes_bytes (v ++ ch_slash :: s) = runes_bytes v ++ ch_slash :: runes_bytes s) as Et.
  { unfold runes_bytes. rewrite map_app, concat_app. cbn [map concat]. by rewrite Es. }
  rewrite Et in E. pose proof (drop_length_eq _ _ _ E Hi) as HlP. rewrite length_app in HlP. cbn in HlP.
  split_and!; [lia|lia|]. replace (pi + length (runes_bytes v) + 0 + 1) with (pi + length (runes_bytes v ++ [ch_slash]))
    by (rewrite length_app; cbn; lia).
  apply Forall_app in Hc as [_ Hc]. inversion_clear Hc. split_and!; [|rewrite length_app; cbn; lia|done].
  apply drop_more. by rewrite E, <- app_assoc.
Qed.

Lemma skip_to_end pi s : ~ In ch_slash s -> text_at pi s ->
  skip_while (fun b => negb (is_separator b)) path pi = P.
Proof.
  intros Hs Ht. rewrite (skip_while_text pi s [] Hs) by by rewrite app_nil_r.
  destruct Ht as (E & Hi & _). apply drop_length_eq in E; [|done]. cbn. lia.
Qed.

(** ** The invariant *)

Context (T : list tok) (S : list Z).

Definition tok_at (gi : nat) (seg : bool) (t : list tok) : Prop :=
  drop gi glob = pattern_bytes t /\ gi <= G /\ pattern_ok seg t /\
  (seg = true -> gi = start \/ 0 < gi /\ glob !! (gi - 1) = Some ch_slash).

(** A wildcard that [retry] would go back to. *)
Definition alive (w : Wildcard) : Prop := 0 < w_path_index w <= P.

Definition rests_at (w : Wildcard) (g : rests) : Prop :=
  match g with
  | Some (tg, sg) => 0 < w_path_index w /\ tok_at (w_glob_index w) true (Globstar 0 :: tg) /\
      text_at (w_path_index w) sg /\ w_brace_depth w = 0%Z
  | None => ~ alive w
  end.

Definition fallback_at (w g : Wildcard) (f : fallback) : Prop :=
  match f with
  | ToGlobstar => w = g
  | ToStar tw sw => 0 < w_path_index w /\ (exists seg, tok_at (w_glob_index w) seg (Star :: tw)) /\
      text_at (w_path_index w) sw /\ w_brace_depth w = 0%Z
  | ToNothing => ~ alive w
  end.

(** The loop is where the abstract matcher is. *)
Record Run (st : State) (seg : bool) (t : list tok) (s : list Z) (f : fallback) (g : rests) : Prop := {
  run_tok : tok_at (glob_index st) seg t;
  run_text : text_at (path_index st) s;
  run_depth : brace_depth st = 0%Z;
  run_rests : rests_at (globstar st) g;
  run_fallback : fallback_at (wildcard st) (globstar st) f;
  run_linked : linked t s f g;
  run_possible : possible t s f g <-> gmatch T S;
}.

(** The other states are the ones after the test for a final [**/*], at a final
    [**], after it, and at the end. *)
Inductive Inv (st : State) : Prop :=
| Inv_run seg t s f g (Hrun : Run st seg t s f g)
| Inv_stuck (Hch : glob !! glob_index st = Some ch_slash) (Hend : path_index st = P)
    (Hdepth : brace_depth st = 0%Z) (Hw : ~ alive (wildcard st)) (Hno : ~ gmatch T S)
| Inv_last k s (Htok : tok_at (glob_index st) true [GlobstarEnd k]) (Htext : text_at (path_index st) s)
    (Hdepth : brace_depth st = 0%Z) (Hyes : gmatch T S)
| Inv_tail s (Hend : glob_index st = G) (Hlt : path_index st < P)
    (Hw : 0 < w_path_index (wildcard st)) (Htok : tok_at (w_glob_index (wildcard st)) true [GlobstarEnd 0])
    (Htext : text_at (w_path_index (wildcard st)) s) (Hdepth : w_brace_depth (wildcard st) = 0%Z)
    (Hyes : gmatch T S)
| Inv_done (Hend : glob_index st = G) (Hend' : path_index st = P) (Hyes : gmatch T S).

Definition good (x : State + exit) : Prop :=
  match x with
  | inl st => Inv st
  | inr (Return b) => b = true <-> gmatch T S
  | inr (EnterBrace _) => False
  end.

Lemma retry_none st : ~ alive (wildcard st) -> retry path st = inr (Return false).
Proof.
  intros Hn. unfold retry. destruct (_ && _) eqn:Hb; [|done]. bool_facts. exfalso. apply Hn. by split.
Qed.

Lemma retry_some st : alive (wildcard st) -> retry path st = inl (backtrack st).
Proof.
  intros [H1 H2]. unfold retry. by rewrite (proj2 (Nat.ltb_lt _ _) H1), (proj2 (Nat.leb_le _ _) H2).
Qed.

Lemma retry_good st st0 seg t s f g : Run st seg t s f g -> wildcard st0 = wildcard st ->
  globstar st0 = globstar st -> ~ gmatch t s -> good (retry path st0).
Proof.
  intros [_ _ _ Hg Hf Hl Hp] Ew Eg Hn. rewrite <- Eg in Hg. rewrite <- Ew, <- Eg in Hf. clear Ew Eg. destruct f as [|tw sw|].
  - cbn in Hf. destruct g as [[tg sg]|].
    + destruct Hg as (Hw & Htok & Htext & Hd). rewrite retry_some by (rewrite Hf; split; [done|apply Htext]).
      destruct (step_back_globstar t s tg sg Hn Hl) as [Hl' Hp'].
      apply (Inv_run _ true (Globstar 0 :: tg) sg ToGlobstar (Some (tg, sg))). unfold backtrack.
      split; simpl_state; rewrite ?Hf; try done. by rewrite Hp'.
    + rewrite retry_none by by rewrite Hf. pose proof (step_back_none _ _ _ _ Hn Hl eq_refl). cbn. naive_solver.
  - destruct Hf as (Hw & [seg' Htok] & Htext & Hd). rewrite retry_some by (split; [done|apply Htext]).
    destruct (step_back_star t s tw sw g Hn Hl) as [Hl' Hp'].
    apply (Inv_run _ seg' (Star :: tw) sw (ToStar tw sw) g). unfold backtrack.
    split; simpl_state; try done; [|by rewrite Hp'].
    split_and!; [done|by exists seg'|done|done].
  - rewrite retry_none by done. pose proof (step_back_none _ _ _ _ Hn Hl I). cbn. naive_solver.
Qed.

Lemma tok_at_nil gi seg : tok_at gi seg [] -> gi = G.
Proof. intros (E & Hi & _). apply drop_length_eq in E; [|done]. cbn in E. lia. Qed.

Lemma tok_at_next gi seg seg' k t : tok_at gi seg (k :: t) -> pattern_ok seg' t ->
  (seg' = true -> exists l, tok_bytes k = l ++ [ch_slash]) ->
  tok_at (gi + length (tok_bytes k)) seg' t.
Proof.
  intros (E & Hi & Hok & _) Hok' Hseg. rewrite pattern_cons in E.
  pose proof (drop_length_eq _ _ _ E Hi) as Hl. rewrite length_app in Hl.
  split_and!; [by apply drop_more|lia|done|]. intros Hs. destruct (Hseg Hs) as [l El]. right.
  rewrite El, length_app. cbn [length]. split; [lia|].
  replace (gi + (length l + 1) - 1) with (gi + length l) by lia.
  rewrite (drop_lookup _ _ _ _ E) by (rewrite El, length_app; cbn; lia).
  rewrite El. by apply list_lookup_middle.
Qed.

(** What a round does from each token. *)
Definition round_good (st : State) : Prop := exists x, main_loop glob path start [] st = Done x /\ good x.

Lemma run_nil st seg s f g : Run st seg [] s f g -> round_good st.
Proof.
  intros Hrun. pose proof (tok_at_nil _ _ (run_tok _ _ _ _ _ _ Hrun)) as Hgi. unfold round_good, main_loop.
  rewrite Hgi, Nat.ltb_irrefl. cbn [orb]. pose proof (run_text _ _ _ _ _ _ Hrun) as Htext. destruct s as [|x s].
  - apply text_at_nil in Htext. rewrite Htext, Nat.ltb_irrefl. eexists. split; [done|]. cbn. split; [|done].
    intros _. apply (run_possible _ _ _ _ _ _ Hrun). left. constructor.
  - destruct (text_at_cons _ _ _ Htext) as (_ & Hlt & _). rewrite (proj2 (Nat.ltb_lt _ _) Hlt).
    rewrite lookup_ge_None_2 by lia. eexists. split; [done|].
    apply (retry_good st st seg [] (x :: s) f g); try done. intros Hm. inversion Hm.
Qed.

Lemma run_elem st seg e t s f g : Run st seg (Elem e :: t) s f g -> round_good st.
Proof.
  intros Hrun. pose proof Hrun as [Htok Htext Hd Hg Hf Hl Hp]. pose proof Htok as (E & Hgi & [He Hok] & _).
  rewrite pattern_cons in E. cbn [tok_bytes] in E. unfold round_good.
  destruct (takes_elem st e _ s He Hd E Hgi Htext) as [(x & s' & -> & Hx & ->)|(Hno & st' & Ew & Eg & ->)].
  - eexists. split; [done|]. destruct (step_elem e t x s' f g) as [Hl' Hp']; [done|done|].
    apply (Inv_run _ false t s' f g). split; simpl_state; try done.
    + by apply (tok_at_next (glob_index st) seg false (Elem e) t).
    + by destruct (text_at_cons _ _ _ Htext) as (_ & _ & ? & _).
    + by rewrite Hp'.
  - eexists. split; [done|]. apply (retry_good st st' seg (Elem e :: t) s f g); try done.
    intros Hm. inversion Hm; simplify_eq. by rewrite (Hno _ _ eq_refl) in *.
Qed.

Lemma run_slash st seg t s f g : Run st seg (Slash :: t) s f g -> round_good st.
Proof.
  intros Hrun. pose proof Hrun as [Htok Htext Hd Hg Hf Hl Hp]. pose proof Htok as (E & Hgi & Hok & _).
  rewrite pattern_cons in E. cbn [tok_bytes app] in E. apply drop_head in E as [Hch _]. unfold round_good.
  rewrite (main_loop_literal st ch_slash Hch) by by apply glob_arm_literal. unfold literal_arm. destruct s as [|x s].
  - apply text_at_nil in Htext. rewrite (proj2 (Nat.ltb_ge (path_index st) P)) by lia. cbn [obind leave].
    eexists. split; [done|]. apply (retry_good st st seg (Slash :: t) [] f g); try done. intros Hm. inversion Hm.
  - destruct (text_at_cons _ _ _ Htext) as (Hx & Hlt & Hnext & b & l & Ex & Hb & _ & Hcase).
    rewrite (proj2 (Nat.ltb_lt _ _) Hlt). change (unescape ch_slash glob (glob_index st)) with
      (Done (Some (ch_slash, glob_index st))). cbn [obind].
    assert (at_ path (path_index (set_glob_index st (glob_index st))) = Done b) as -> by (unfold at_; simpl_state; by rewrite Hb).
    cbn [obind]. simpl_state. change (seq_len ch_slash) with 1. unfold is_separator. rewrite Z.eqb_refl.
    destruct (Z.eqb_spec b ch_slash) as [->|Hne]; cbn [leave].
    + assert (x = ch_slash) as -> by (destruct Hcase as [(_ & ? & _)|([_ Hbad] & _)]; [done|unfold ch_slash in Hbad; lia]).
      eexists. split; [done|]. destruct (step_slash t s f g Hl) as [Hl' Hp'].
      apply (Inv_run _ true t s ToGlobstar g). split; simpl_state; try done.
      * apply (tok_at_next (glob_index st) seg true Slash t); [done|done|]. intros _. by exists [].
      * by rewrite Hp'.
    + eexists. split; [done|]. apply (retry_good st _ seg (Slash :: t) (x :: s) f g); try done.
      intros Hm. inversion Hm; simplify_eq. destruct Hcase as [(_ & -> & _)|([Hbad _] & _)]; [done|unfold ch_slash in Hbad; lia].
Qed.

Lemma run_star st seg t s f g : Run st seg (Star :: t) s f g -> round_good st.
Proof.
  intros [Htok Htext Hd Hg Hf Hl Hp]. pose proof Htok as (E & Hgi & Hok & _).
  rewrite pattern_cons in E. cbn [tok_bytes app] in E. apply drop_head in E as [Hch E].
  assert (glob !! (glob_index st + 1) <> Some ch_star) as Hns.
  { rewrite <- (Nat.add_0_r (glob_index st + 1)), <- lookup_drop, E. apply pattern_after_star.
    destruct seg; [by right|by left]. }
  eexists. split; [by apply main_loop_star, star_arm_single|]. cbn [good].
  assert (tok_at (glob_index st + 1) false t) as Htok'.
  { apply (tok_at_next (glob_index st) seg false Star t); [done|apply Hok|done]. }
  destruct s as [|x s].
  - destruct (step_star_end t f g Hl) as [Hl' Hp']. pose proof (text_at_nil _ Htext) as Hpi.
    assert (path !! path_index st = None) as En by (apply lookup_ge_None; lia).
    unfold test_at, next_rune. rewrite En. apply (Inv_run _ false t [] ToNothing g).
    split; simpl_state; try done; [|by rewrite Hp']. intros [_ ?]. cbn in *. lia.
  - destruct (text_at_cons _ _ _ Htext) as (Hx & Hlt & Hnext & b & l & Ex & Hb & Hlen & Hcase).
    assert (test_at path (path_index st) is_separator = Z.eqb x ch_slash) as ->.
    { unfold test_at, is_separator. rewrite Hb. destruct Hcase as [(_ & -> & _)|([? ?] & _)]; [done|].
      unfold ch_slash. by rewrite !(proj2 (Z.eqb_neq _ _)) by lia. }
    destruct (Z.eqb_spec x ch_slash) as [->|Hne].
    + destruct (step_star_sep t s f g Hl) as [Hl' Hp'].
      apply (Inv_run _ false t (ch_slash :: s) ToGlobstar g). split; simpl_state; try done. by rewrite Hp'.
    + destruct (step_star t x s f g Hne) as [Hl' Hp']; [apply Htok'|done|].
      unfold next_rune. rewrite Hb, Hlen. pose proof (rune_bytes_length x Hx).
      apply (Inv_run _ false t (x :: s) (ToStar t s) g). split; simpl_state; try done; [|by rewrite Hp'].
      split_and!; cbn; [lia|by exists seg|done|done].
Qed.

(** The last of the copies of [**/]. *)
Lemma copies_at k : forall gi r, drop gi glob = concat (replicate k globstar_slash) ++ r -> gi <= G ->
  drop (gi + 3 * k) glob = r /\ gi + 3 * k <= G /\ (0 < k -> glob !! (gi + 3 * k - 1) = Some ch_slash).
Proof.
  induction k as [|k IH]; intros gi r E Hgi; [rewrite Nat.add_0_r; split_and!; [done|done|lia]|].
  cbn [replicate concat] in E. rewrite <- app_assoc in E. pose proof (drop_length_eq _ _ _ E Hgi) as Hl.
  rewrite length_app in Hl. apply drop_more in E as E'. cbn [length globstar_slash] in *.
  destruct (IH (gi + 3) r E') as (H1 & H2 & H3); [lia|].
  replace (gi + 3 * Datatypes.S k) with (gi + 3 + 3 * k) by lia. split_and!; [done|done|]. intros _.
  destruct k as [|k]; [|apply H3; lia]. replace (gi + 3 + 3 * 0 - 1) with (gi + 2) by lia.
  by rewrite (drop_lookup _ _ _ _ E) by (cbn; lia).
Qed.

Lemma tok_at_copies_of gi k t t' : tok_at gi true t -> pattern_ok true t' ->
  pattern_bytes t = concat (replicate k globstar_slash) ++ pattern_bytes t' -> tok_at (gi + 3 * k) true t'.
Proof.
  intros (E & Hgi & _ & Hseg) Hok Et. rewrite Et in E. destruct (copies_at k gi _ E Hgi) as (H1 & H2 & H3).
  split_and!; [done|done|done|]. intros _. destruct k as [|k]; [rewrite Nat.add_0_r; by apply Hseg|right].
  split; [lia|]. apply H3. lia.
Qed.

Lemma tok_at_copies gi k t : tok_at gi true (Globstar k :: t) -> tok_at (gi + 3 * k) true (Globstar 0 :: t).
Proof.
  intros Htok. apply (tok_at_copies_of _ _ (Globstar k :: t)); [done|apply Htok|].
  rewrite !pattern_cons. cbn [tok_bytes]. rewrite app_assoc. f_equal.
  rewrite <- Nat.add_1_r, replicate_add, concat_app. done.
Qed.

Lemma first_sep s : ~ In ch_slash s \/ exists v r, s = v ++ ch_slash :: r /\ ~ In ch_slash v.
Proof.
  induction s as [|x s IH]; [left; by intros []|]. destruct (Z.eq_dec x ch_slash) as [->|Hx].
  - right. exists [], s. split; [done|by intros []].
  - destruct IH as [?|(v & r & -> & Hv)]; [left; by intros [|]|right]. exists (x :: v), r.
    split; [done|]. by intros [|].
Qed.

Lemma tok_at_segment_start gi t : tok_at gi true t -> segment_start glob start (gi + 2).
Proof.
  intros (_ & _ & _ & Hs). destruct (Hs eq_refl) as [->|[? Hc]]; [left; lia|right].
  by replace (gi + 2 - 3) with (gi - 1) by lia.
Qed.

Lemma pattern_bytes_nil seg t : pattern_ok seg t -> pattern_bytes t = [] -> t = [].
Proof.
  destruct t as [|k t]; [done|]. intros Hok E. rewrite pattern_cons in E. apply app_nil in E as [E _].
  destruct k as [e| | |k|k]; try done.
  - destruct Hok as [He _]. destruct (elem_bytes_cons e He) as (b & l & Eb & _). cbn in E. by rewrite Eb in E.
  - by apply app_nil in E as [_ ?].
Qed.

(** Where [skip_to_separator] puts the last [**]. *)
Lemma skip_to_separator_at_end st e : path_index st = P -> w_path_index (wildcard st) = P + 1 ->
  exists w, skip_to_separator st path e =
    mkState (path_index st) (glob_index st) w (globstar st) (brace_depth st) /\ ~ alive w.
Proof.
  intros Hp Hw. unfold skip_to_separator. rewrite (proj2 (Nat.eqb_eq _ _) Hp). eexists. split; [by unfold set_wildcard|].
  unfold alive. cbn. lia.
Qed.

Lemma skip_to_separator_sep st v s e : ~ In ch_slash v -> text_at (path_index st) (v ++ ch_slash :: s) ->
  exists i, skip_to_separator st path e =
    (let w := mkWildcard (w_glob_index (wildcard st)) i (w_brace_depth (wildcard st)) in
     mkState (path_index st) (glob_index st) w w (brace_depth st)) /\ 0 < i /\ text_at i s.
Proof.
  intros Hv Ht. destruct (skip_to_segment _ _ _ Hv Ht) as (_ & Hn & Hs).
  assert (path_index st <> P) as Hne.
  { assert (path_index st < P); [|lia]. apply (text_at_lt _ _ Ht). by destruct v. }
  unfold skip_to_separator. rewrite (proj2 (Nat.eqb_neq _ _) Hne), (proj2 (Nat.eqb_neq _ _) Hn), orb_true_r.
  eexists. split; [done|]. split; [lia|done].
Qed.

Lemma skip_to_separator_none st s e : ~ In ch_slash s -> s <> [] -> text_at (path_index st) s ->
  skip_to_separator st path e =
    (let w := mkWildcard (w_glob_index (wildcard st)) (if e then P + 1 else P) (w_brace_depth (wildcard st)) in
     mkState (path_index st) (glob_index st) w w (brace_depth st)).
Proof.
  intros Hs Hn Ht. pose proof (text_at_lt _ _ Ht Hn). unfold skip_to_separator.
  rewrite (proj2 (Nat.eqb_neq _ _)) by lia. rewrite (skip_to_end _ _ Hs Ht), Nat.eqb_refl. by destruct e.
Qed.

(** The pattern at a [**/]: what [star_arm] reads there. *)
Lemma tok_at_globstar gi t : tok_at gi true (Globstar 0 :: t) ->
  double_star glob gi /\ glob !! (gi + 2) = Some ch_slash /\ gi + 2 < G /\
  tok_at (gi + 2 + 1) true t /\ drop (gi + 2 + 1) glob = pattern_bytes t.
Proof.
  intros Htok. pose proof Htok as (E & Hgi & Hok & _). rewrite pattern_cons in E.
  assert (tok_at (gi + length (tok_bytes (Globstar 0))) true t) as Hnext.
  { apply (tok_at_next gi true true (Globstar 0) t); [done|apply Hok|]. intros _. by exists [ch_star; ch_star]. }
  change (length (tok_bytes (Globstar 0))) with 3 in Hnext. replace (gi + 3) with (gi + 2 + 1) in Hnext by lia.
  assert (glob !! (gi + 2) = Some ch_slash) as H2 by (by rewrite (drop_lookup _ _ _ _ E) by (cbn; lia)).
  split_and!; [split|done|by apply lookup_lt_Some in H2|done|apply Hnext].
  - rewrite <- (Nat.add_0_r gi). by rewrite (drop_lookup _ _ _ _ E) by (cbn; lia).
  - by rewrite (drop_lookup _ _ _ _ E) by (cbn; lia).
Qed.

(** The test for a final [**/*] at the end of the path. *)
Lemma final_star_test gi t : tok_at gi true (Globstar 0 :: t) ->
  (G - (gi + 2) =? 2) && test_at glob (gi + 2) is_separator && test_at glob (gi + 2 + 1) (Z.eqb ch_star) =
  match t with [Star] => true | _ => false end.
Proof.
  intros Htok. destruct (tok_at_globstar gi t Htok) as (_ & H2 & Hlt & Hnext & E).
  assert (test_at glob (gi + 2) is_separator = true) as -> by (unfold test_at; by rewrite H2). rewrite andb_true_r.
  pose proof Htok as (_ & _ & Hok & _). pose proof Hnext as (_ & Hle & _ & _).
  pose proof (drop_length_eq _ _ _ E Hle) as Hl.
  assert (test_at glob (gi + 2 + 1) (Z.eqb ch_star) = true <-> pattern_bytes t !! 0 = Some ch_star) as Ht.
  { rewrite test_at_eq, <- E, lookup_drop, Nat.add_0_r. done. }
  assert (t = [Star] \/ t <> [Star]) as [->|Hne] by (destruct t as [|[| | | |] [|]]; naive_solver).
  - change (length (pattern_bytes [Star])) with 1 in Hl. rewrite (proj2 (Nat.eqb_eq _ _)) by lia. by apply Ht.
  - transitivity false; [|by destruct t as [|[] []]]. apply not_true_iff_false. intros [H1%Nat.eqb_eq H3]%andb_true_iff.
    apply Ht in H3. destruct (pattern_after_globstar 0 t Hok H3) as (t' & -> & _). apply Hne. f_equal.
    destruct Hok as (_ & _ & _ & Hok'). apply (pattern_bytes_nil false); [done|].
    rewrite pattern_cons in Hl. cbn in Hl. destruct (pattern_bytes t'); [done|]. cbn in Hl. lia.
Qed.

Lemma run_globstar st seg k t s f g : Run st seg (Globstar k :: t) s f g -> round_good st.
Proof.
  intros [Htok Htext Hd Hg Hf Hl Hp]. pose proof Htok as (E & Hgi & Hok & _).
  assert (seg = true) as -> by apply Hok. pose proof (tok_at_copies _ _ _ Htok) as Htok1.
  set (gi := glob_index st + 3 * k) in *.
  destruct (tok_at_globstar gi t Htok1) as (Hdbl & H2 & Hlt & Hnext & _).
  assert (double_star glob (glob_index st)) as Hdbl0.
  { rewrite pattern_cons in E. split; [rewrite <- (Nat.add_0_r (glob_index st))|];
      by rewrite (drop_lookup _ _ _ _ E) by (cbn; lia). }
  pose proof (star_arm_double st gi Hdbl0 (skip_globstars_copies k _ t Hok Hgi E)
    (tok_at_segment_start _ _ Htok1) (or_intror H2)) as Harm.
  rewrite (proj2 (Nat.ltb_lt _ _) Hlt) in Harm. cbn [andb] in Harm.
  rewrite <- !andb_assoc, (andb_assoc (G - (gi + 2) =? 2)), (final_star_test gi t Htok1) in Harm.
  assert (forall st', Inv st' -> star_arm glob path start st = Done st' -> round_good st) as Hdone.
  { intros st' Hinv Ha. exists (inl st'). split; [|done]. apply main_loop_star; [apply Hdbl0|done]. }
  destruct s as [|x s].
  - pose proof (text_at_nil _ Htext) as Hpi. rewrite (proj2 (Nat.eqb_eq _ _) Hpi) in Harm. cbn [andb] in Harm.
    assert (next_rune (path_index st) = P + 1) as Hnr by (unfold next_rune; rewrite lookup_ge_None_2; lia).
    assert (t = [Star] \/ t <> [Star]) as [->|Hne] by (destruct t as [|[| | | |] [|]]; naive_solver).
    + eapply Hdone; [|exact Harm]. apply Inv_stuck; simpl_state; try done.
      * rewrite Hnr. unfold alive. cbn. lia.
      * pose proof (stuck_globstar k f g Hl). naive_solver.
    + destruct (step_globstar_end k t f g Hne Hl) as [Hl' Hp'].
      assert (match t with [Star] => true | _ => false end = false) as Hm by (by destruct t as [|[] []]).
      rewrite Hm in Harm. destruct (skip_to_separator_at_end (mkState (path_index st) (gi + 2 + 1)
        (mkWildcard gi (next_rune (path_index st)) (brace_depth st)) (globstar st) (brace_depth st)) true) as (w & Hw & Hdead);
        [done|done|]. rewrite Hw in Harm.
      eapply Hdone; [|exact Harm]. apply (Inv_run _ true t [] ToNothing g). split; simpl_state; try done. by rewrite Hp'.
  - pose proof (text_at_lt _ _ Htext ltac:(done)) as Hpl. rewrite (proj2 (Nat.eqb_neq _ _)) in Harm by lia. cbn [andb] in Harm.
    destruct (first_sep (x :: s)) as [Hns|(v & r & Es & Hv)].
    + destruct (step_globstar_no_sep k t (x :: s) f g Hns ltac:(done) Hl) as [Hl' Hp'].
      rewrite (skip_to_separator_none _ (x :: s) true) in Harm by done. eapply Hdone; [|exact Harm].
      apply (Inv_run _ true t (x :: s) ToGlobstar None). split; simpl_state; try done; [|by rewrite Hp'].
      intros [_ Ha]. cbn in Ha. lia.
    + rewrite Es in *. destruct (step_globstar_sep k t v r f g Hv Hok Hl) as [Hl' Hp'].
      destruct (skip_to_separator_sep (mkState (path_index st) (gi + 2 + 1)
        (mkWildcard gi (next_rune (path_index st)) (brace_depth st)) (globstar st) (brace_depth st)) v r true Hv Htext)
        as (i & Hi & Hi0 & Hit). rewrite Hi in Harm. eapply Hdone; [|exact Harm].
      apply (Inv_run _ true t (v ++ ch_slash :: r) ToGlobstar (Some (t, r))). split; simpl_state; try done.
      by rewrite Hp'.
Qed.

Lemma stuck_round st : glob !! glob_index st = Some ch_slash -> path_index st = P ->
  brace_depth st = 0%Z -> ~ alive (wildcard st) -> ~ gmatch T S -> round_good st.
Proof.
  intros Hch Hend Hd Hw Hno. unfold round_good. rewrite (main_loop_literal st ch_slash Hch) by by apply glob_arm_literal.
  unfold literal_arm. rewrite (proj2 (Nat.ltb_ge (path_index st) P)) by lia. cbn [obind leave].
  rewrite retry_none by done. eexists. split; [done|]. cbn. naive_solver.
Qed.

(** A final [**] takes everything. *)
Lemma last_round st k s : tok_at (glob_index st) true [GlobstarEnd k] -> text_at (path_index st) s ->
  brace_depth st = 0%Z -> gmatch T S -> round_good st.
Proof.
  intros Htok Htext Hd Hyes. pose proof Htok as (E & Hgi & _ & Hseg).
  assert (tok_at (glob_index st + 3 * k) true [GlobstarEnd 0]) as Htok1.
  { apply (tok_at_copies_of _ _ [GlobstarEnd k]); [done|done|]. unfold pattern_bytes. cbn [map concat tok_bytes].
    by rewrite !app_nil_r. }
  set (gi := glob_index st + 3 * k) in *. pose proof Htok1 as (E1 & Hgi1 & _ & _).
  pose proof (drop_length_eq _ _ _ E1 Hgi1) as Hl. change (length (pattern_bytes [GlobstarEnd 0])) with 2 in Hl.
  assert (double_star glob (glob_index st)) as Hdbl.
  { assert (forall i, i < 2 -> glob !! (glob_index st + i) = Some ch_star) as H.
    { intros i Hi. unfold pattern_bytes in E. cbn [map concat tok_bytes] in E. rewrite app_nil_r in E.
      destruct k as [|k]; cbn [replicate concat app] in E;
        [rewrite <- (app_nil_r [ch_star; ch_star]) in E|rewrite <- app_assoc in E];
        rewrite (drop_lookup _ _ _ _ E) by (cbn; lia); destruct i as [|[|]]; (done || lia). }
    split; [rewrite <- (Nat.add_0_r (glob_index st))|]; apply H; lia. }
  assert (segment_end glob (gi + 2)) as Hse by (left; lia).
  pose proof (star_arm_double st gi Hdbl (skip_globstars_end k _ Hgi E) (tok_at_segment_start _ _ Htok1) Hse) as Harm.
  rewrite (proj2 (Nat.ltb_ge (gi + 2) G)) in Harm by lia. cbn [andb] in Harm.
  assert (forall st', Inv st' -> star_arm glob path start st = Done st' -> round_good st) as Hdone.
  { intros st' Hinv Ha. exists (inl st'). split; [|done]. apply main_loop_star; [apply Hdbl|done]. }
  destruct s as [|x s].
  - pose proof (text_at_nil _ Htext) as Hpi.
    unfold skip_to_separator in Harm. cbn [path_index] in Harm. rewrite (proj2 (Nat.eqb_eq _ _) Hpi) in Harm.
    eapply Hdone; [|exact Harm]. apply Inv_done; simpl_state; [lia|done|done].
  - pose proof (text_at_lt _ _ Htext ltac:(done)) as Hpl.
    destruct (first_sep (x :: s)) as [Hns|(v & r & Es & Hv)].
    + rewrite (skip_to_separator_none _ (x :: s) false) in Harm by done. eapply Hdone; [|exact Harm].
      apply (Inv_tail _ []); simpl_state; try (done || lia).
      split_and!; [by rewrite drop_all|lia|constructor].
    + rewrite Es in *. destruct (skip_to_separator_sep (mkState (path_index st) (gi + 2)
        (mkWildcard gi (next_rune (path_index st)) (brace_depth st)) (globstar st) (brace_depth st)) v r false Hv Htext)
        as (i & Hi & Hi0 & Hit). rewrite Hi in Harm. eapply Hdone; [|exact Harm].
      apply (Inv_tail _ r); simpl_state; try (done || lia).
Qed.

Lemma inv_round st : Inv st -> round_good st.
Proof.
  intros [seg t s f g Hrun|Hch Hend Hd Hw Hno|k s Htok Htext Hd Hyes|s Hend Hlt Hw Htok Htext Hd Hyes|Hend Hend' Hyes].
  - destruct t as [|[e| | |k|k] t].
    + by eapply run_nil.
    + by eapply run_elem.
    + by eapply run_star.
    + by eapply run_slash.
    + by eapply run_globstar.
    + destruct Hrun as [Htok Htext Hd _ _ _ Hp]. pose proof Htok as (_ & _ & [-> ->] & _).
      apply (last_round st k s); try done. apply Hp. left. constructor.
  - by apply stuck_round.
  - by apply (last_round st k s).
  - unfold round_good, main_loop. rewrite Hend, Nat.ltb_irrefl, (proj2 (Nat.ltb_lt _ _) Hlt). cbn [orb].
    rewrite lookup_ge_None_2 by lia. rewrite retry_some by (split; [done|apply Htext]).
    eexists. split; [done|]. apply (Inv_last _ 0 s); unfold backtrack; simpl_state; done.
  - unfold round_good, main_loop. rewrite Hend, Hend', !Nat.ltb_irrefl. eexists. split; [done|]. done.
Qed.
End Concrete.

(** ** [match] *)

Lemma bang_prefix n l : l !! 0 <> Some ch_bang ->
  prefix_len (Z.eqb ch_bang) (replicate n ch_bang ++ l) = n.
Proof.
  intros Hl. rewrite prefix_len_app by (apply Forall_replicate; apply Z.eqb_refl).
  rewrite length_replicate. destruct l as [|x l]; [cbn; lia|]. rewrite prefix_len_stop; [lia|].
  apply Z.eqb_neq. cbn in Hl. congruence.
Qed.

Lemma cchar_bytes_bytes c : cchar_ok c -> is_bytes (cchar_bytes c).
Proof.
  destruct c as [c|c]; cbn [cchar_ok cchar_bytes]; [intros [? _]; by apply rune_bytes_bytes|].
  intros Hc. constructor; [by vm_compute|by apply rune_bytes_bytes].
Qed.

Lemma item_bytes_bytes i : item_ok i -> is_bytes (item_bytes i).
Proof.
  intros [Hl Hh]. apply is_bytes_app. split; [by apply cchar_bytes_bytes|].
  destruct (item_high i); [|constructor]. constructor; [by vm_compute|by apply cchar_bytes_bytes].
Qed.

Lemma elem_bytes_bytes e : elem_ok e -> is_bytes (elem_bytes e).
Proof.
  intros [_ He]. destruct e as [c|c| |neg items]; cbn [elem_bytes].
  - apply rune_bytes_bytes, He.
  - constructor; [by vm_compute|by apply rune_bytes_bytes].
  - repeat constructor; by vm_compute.
  - destruct He as (Hneg & _ & Hitems). constructor; [by vm_compute|]. rewrite !is_bytes_app. split_and!.
    + destruct neg as [c|]; [|constructor]. repeat constructor; destruct Hneg as [-> | ->]; by vm_compute.
    + induction Hitems as [|i items Hi _ IH]; [constructor|]. apply is_bytes_app. split; [by apply item_bytes_bytes|done].
    + repeat constructor; by vm_compute.
Qed.

Lemma copies_bytes k : is_bytes (concat (replicate k globstar_slash)).
Proof.
  induction k as [|k IH]; [constructor|]. cbn [replicate concat]. apply is_bytes_app. split; [|done].
  repeat constructor; by vm_compute.
Qed.

Lemma pattern_bytes_bytes seg t : pattern_ok seg t -> is_bytes (pattern_bytes t).
Proof.
  revert seg. induction t as [|k t IH]; intros seg Hok; [constructor|]. rewrite pattern_cons. apply is_bytes_app.
  assert (exists seg', pattern_ok seg' t) as [seg' Hok'].
  { destruct k; cbn in Hok; try (by eexists; apply Hok). exists true. by destruct Hok as [_ ->]. }
  split; [|by apply (IH seg')]. destruct k as [e| | |k|k].
  - by apply elem_bytes_bytes, Hok.
  - repeat constructor; by vm_compute.
  - repeat constructor; by vm_compute.
  - apply copies_bytes.
  - apply is_bytes_app. split; [apply copies_bytes|]. repeat constructor; by vm_compute.
Qed.

(** Without alternatives, the main loop is all there is. *)
Lemma glob_match_impl_return fuel glob path st start stack budget b :
  rounds ROUNDS (main_loop glob path start stack) st = Done (inr (Return b)) ->
  glob_match_impl (S fuel) glob path st start stack budget = Done (b, budget).
Proof. intros H. cbn [glob_match_impl]. rewrite H. reflexivity. Qed.

Lemma rounds_good glob path start t s st x : is_bytes glob -> is_bytes path -> Inv glob path start t s st ->
  rounds ROUNDS (main_loop glob path start []) st = Done (inr x) -> good glob path start t s (inr x).
Proof.
  intros Hg Hp Hinv Hx.
  apply (rounds_invariant (main_loop glob path start []) (Inv glob path start t s)
    (fun x => good glob path start t s (inr x))) in Hx; [done| |done].
  intros st' y Hi Hy. destruct (inv_round glob path start Hg Hp t s st' Hi) as (z & Hz & Hgz).
  rewrite Hy in Hz. injection Hz as <-. by destruct y.
Qed.

(** C11: [match] on a pattern without alternatives, with any number of [!] before
    it, and on a path of any code points: it returns, and it matches just when
    [gmatch] does, or does not under an odd number of [!]. [gmatch] lets every
    [*] and [**/] take as much as it likes, while the code remembers the last
    one of each. Classes may accept separators, as negated ones do, except
    between a [*] and a later [*] or [/] when the path has a separator ([tame]):
    there the code can miss a match, see [class_before_separator]. A separator
    is not written [\/], and [**] only as a whole segment. *)
Theorem glob_match_correct n t s :
  pattern_ok true t -> tame t s -> pattern_bytes t !! 0 <> Some ch_bang -> Forall is_code_point s ->
  (Z.of_nat (n + length (pattern_bytes t)) < 2 ^ 31)%Z -> (Z.of_nat (length (runes_bytes s)) < 2 ^ 31)%Z ->
  exists r, glob_match (replicate n ch_bang ++ pattern_bytes t) (runes_bytes s) = Done r /\
    negated r = Nat.odd n /\
    (matches r = true <-> if Nat.odd n then ~ gmatch t s else gmatch t s).
Proof.
  intros Hok Htame Hhd Hs HlG HlP. set (glob := replicate n ch_bang ++ pattern_bytes t). set (path := runes_bytes s).
  assert (length glob = n + length (pattern_bytes t)) as Hlen by (unfold glob; by rewrite length_app, length_replicate).
  assert (is_bytes glob) as Hgb.
  { apply is_bytes_app. split; [by apply Forall_replicate|by apply (pattern_bytes_bytes true)]. }
  assert (is_bytes path) as Hpb by by apply text_bytes_bytes.
  unfold glob_match. assert (prefix_len (Z.eqb ch_bang) glob = n) as -> by by apply bang_prefix. set (st := set_glob_index State_default n).
  assert (Inv glob path n t s st) as Hinv.
  { apply (Inv_run _ _ _ _ _ _ true t s ToGlobstar None). split; subst st; simpl_state; try done.
    - split_and!; [unfold glob; by rewrite drop_app_length' by by rewrite length_replicate|lia|done|by left].
    - split_and!; [done|cbn; lia|done].
    - intros [Ha _]. cbn in Ha. lia.
    - split; [done|by left].
    - unfold possible. cbn. naive_solver. }
  assert (Wf glob path n st 0) as Hwf by (apply Wf_start; lia).
  destruct (main_rounds_total glob path n []) with (st := st) (pos := 0) as (x & Hx & _);
    [by rewrite Hlen|done|done|constructor|].
  pose proof (rounds_good glob path n t s st x Hgb Hpb Hinv Hx) as Hgood. destruct x as [b|]; [|done].
  rewrite (glob_match_impl_return _ _ _ _ _ _ _ b Hx). cbn [obind good] in *.
  eexists. split; [reflexivity|]. cbn [negated matches]. split; [reflexivity|].
  clear - Hgood. destruct (Nat.odd n); rewrite <- Hgood; by destruct b.
Qed.

(** [!src/**/[!_]*.[!j]s] and a path with a Greek file name. *)
Definition sample_pattern : list tok :=
  [Elem (Lit 115); Elem (Lit 114); Elem (Lit 99); Slash; Globstar 0;
   Elem (Class (Some 33%Z) [mkItem (Plain 95) None]); Star; Elem (Esc 46);
   Elem (Class (Some 33%Z) [mkItem (Plain 106) None]); Elem (Lit 115)].
Definition sample_path : list Z := [115; 114; 99; 47; 97; 47; 946; 946; 46; 114; 115]%Z.

Lemma glob_match_correct_witness :
  (exists r, glob_match (replicate 1 ch_bang ++ pattern_bytes sample_pattern) (runes_bytes sample_path) = Done r /\
     negated r = true /\ (matches r = true <-> ~ gmatch sample_pattern sample_path)) /\
  exists r, glob_match (pattern_bytes sample_pattern) (runes_bytes sample_path) = Done r /\ matches r = true.
Proof.
  split; [|run (glob_match (pattern_bytes sample_pattern) (runes_bytes sample_path)); vm_compute; auto].
  apply (glob_match_correct 1 sample_pattern sample_path).
  - cbn. repeat split; try (discriminate || reflexivity);
      try (intros H; repeat destruct H as [H|H]; first [discriminate|exact H]).
    all: first [left; reflexivity|repeat constructor; try discriminate; intros H; repeat destruct H as [H|H]; first [discriminate|exact H]].
  - left. cbn. repeat split; first [left; reflexivity|right; repeat constructor].
  - vm_compute. discriminate.
  - repeat constructor; discriminate.
  - reflexivity.
  - reflexivity.
Defined.

(** ** [detect_glob_syntax] *)

(** The number of backslashes just before a byte. *)
Fixpoint backslashes (p : bytes) (i : nat) : nat :=
  match i with
  | O => 0
  | S i' => if test_at p i' (Z.eqb ch_backslash) then S (backslashes p i') else 0
  end.

(** A byte of special syntax that is not escaped. *)
Definition special_at (p : bytes) (c : Z) (i : nat) : Prop :=
  p !! i = Some c /\ Nat.even (backslashes p i) = true.

Lemma escaped_at_odd p i : escaped_at p i = Nat.odd (backslashes p i).
Proof.
  induction i as [|i IH]; [done|]. cbn [escaped_at backslashes].
  destruct (test_at p i _); [|done]. by rewrite IH, Nat.odd_succ, <- Nat.negb_odd.
Qed.

Lemma backslashes_drop p k i : test_at p k (Z.eqb ch_backslash) = false ->
  backslashes (drop (k + 1) p) i = backslashes p (k + 1 + i).
Proof.
  intros Hk. induction i as [|i IH].
  - rewrite Nat.add_0_r, Nat.add_1_r. cbn [backslashes]. by rewrite Hk.
  - replace (k + 1 + S i) with (S (k + 1 + i)) by lia. cbn [backslashes]. rewrite IH. unfold test_at. by rewrite lookup_drop.
Qed.

Lemma index_of_char_first p c :
  match index_of_char p c with
  | Some i => p !! i = Some c /\ forall j, j < i -> p !! j <> Some c
  | None => forall j, p !! j <> Some c
  end.
Proof.
  induction p as [|x p IH]; [done|]. cbn [index_of_char]. destruct (Z.eqb_spec x c) as [->|Hx].
  - split; [done|]. lia.
  - destruct (index_of_char p c) as [i|]; cbn.
    + destruct IH as [H1 H2]. split; [done|]. intros [|j] Hj; [cbn; congruence|]. apply H2. lia.
    + intros [|j]; [cbn; congruence|]. apply IH.
Qed.

Lemma detect_token_iff c : c <> ch_backslash -> forall fuel p, length p < fuel ->
  exists b, detect_token fuel p c = Done b /\ (b = true <-> exists i, special_at p c i).
Proof.
  intros Hc. induction fuel as [|fuel IH]; intros p Hf; [lia|]. cbn [detect_token].
  pose proof (index_of_char_first p c) as Hfirst. destruct (index_of_char p c) as [i|].
  - destruct Hfirst as [Hi Hbefore]. rewrite escaped_at_odd, Nat.negb_odd. pose proof (lookup_lt_Some _ _ _ Hi) as Hlt.
    destruct (Nat.even (backslashes p i)) eqn:He.
    + exists true. split; [done|]. split; [|done]. intros _. by exists i.
    + destruct (IH (drop (i + 1) p)) as (b & -> & Hb); [rewrite length_drop; lia|].
      exists b. split; [done|]. rewrite Hb. clear Hb b.
      assert (test_at p i (Z.eqb ch_backslash) = false) as Ht.
      { unfold test_at. rewrite Hi. by apply Z.eqb_neq. }
      split; intros [j [H1 H2]].
      * exists (i + 1 + j). split; [by rewrite lookup_drop in H1|]. by rewrite <- backslashes_drop.
      * destruct (Nat.lt_trichotomy j i) as [Hj|[->|Hj]]; [by apply Hbefore in H1|congruence|].
        exists (j - (i + 1)). replace j with (i + 1 + (j - (i + 1))) in H1, H2 by lia.
        split; [by rewrite lookup_drop|]. by rewrite backslashes_drop.
  - exists false. split; [done|]. split; [done|]. intros [i [Hi _]]. by apply Hfirst in Hi.
Qed.

(** [detect_glob_syntax] answers whether the pattern begins with [!] or has a
    [*], [{], [\[] or [?] behind an even number of backslashes. *)
Lemma detect_glob_syntax_iff p : exists b, detect_glob_syntax p = Done b /\
  (b = true <-> p !! 0 = Some ch_bang \/ exists c i, In c SPECIAL_SYNTAX /\ special_at p c i).
Proof.
  unfold detect_glob_syntax. destruct (test_at p 0 _) eqn:Hb.
  { apply test_at_eq in Hb. exists true. split; [done|]. split; [by left|done]. }
  assert (p !! 0 <> Some ch_bang) as Hn by (intros E%test_at_eq; congruence).
  assert (forall l, (forall c, In c l -> c <> ch_backslash) -> exists b, detect_tokens p l = Done b /\
    (b = true <-> exists c i, In c l /\ special_at p c i)) as H.
  { induction l as [|c l IH]; intros Hl; [exists false; naive_solver|]. cbn [detect_tokens].
    destruct (detect_token_iff c (Hl c (or_introl eq_refl)) (S (length p)) p) as (b & -> & Hbt); [lia|].
    cbn [obind]. destruct b.
    - exists true. split; [done|]. split; [|done]. intros _. destruct (proj1 Hbt eq_refl) as [i Hi].
      exists c, i. split; [by left|done].
    - destruct IH as (b & -> & Hbl); [intros c' ?; apply Hl; by right|]. exists b. split; [done|]. rewrite Hbl.
      split; intros (c' & i & Hin & Hs); [exists c', i; split; [by right|done]|].
      destruct Hin as [<-|Hin]; [|by exists c', i]. by assert (false = true) by (apply Hbt; by exists i). }
  destruct (H SPECIAL_SYNTAX) as (b & -> & Hs).
  - cbn. intros c Hin. repeat destruct Hin as [<-|Hin]; done.
  - exists b. split; [done|]. rewrite Hs. split; [by right|]. intros [?|?]; done.
Qed.

(** ** Observations *)

(** The stack of alternatives also holds the groups that were left, so that it
    bounds the number of groups in a row and not only their nesting: ten groups
    match what eleven do not. *)
Definition group_ab : bytes := [123; 97; 44; 98; 125]%Z.

Lemma eleven_groups_in_a_row :
  glob_match (concat (replicate 10 group_ab)) (replicate 10 97%Z) = Done (mkMatchResult true false) /\
  glob_match (concat (replicate 11 group_ab)) (replicate 11 97%Z) = Done (mkMatchResult false false).
Proof. split; vm_compute; reflexivity. Qed.

(** A negated class takes a separator, which [?] does not. *)
Lemma class_takes_separator :
  glob_match [97; 91; 33; 98; 93; 99]%Z [97; 47; 99]%Z = Done (mkMatchResult true false) /\
  glob_match [97; 63; 99]%Z [97; 47; 99]%Z = Done (mkMatchResult false false).
Proof. split; vm_compute; reflexivity. Qed.

(** Between a [*] and a separator a class that accepts one can hide a match:
    in [*[!b]/c] on [a//c] the [*] would have to take [a] and the class the first
    separator; the class first takes [a], and at the separator that follows the
    [*] is forgotten. *)
Lemma class_before_separator :
  let t := [Star; Elem (Class (Some 33%Z) [mkItem (Plain 98) None]); Slash; Elem (Lit 99)] in
  let s := [97; 47; 47; 99]%Z in
  gmatch t s /\ glob_match (pattern_bytes t) (runes_bytes s) = Done (mkMatchResult false false).
Proof.
  split; [|vm_compute; reflexivity]. apply gmatch_star; [discriminate|]. repeat constructor.
Qed.

(** A stray continuation byte reads as the code point of its value. *)
Lemma stray_byte_is_latin1 : decode_wtf8_rune_at [0x80]%Z 0 = Done (0x80%Z, 1).
Proof. vm_compute. reflexivity. Qed.
