(* ===== verification/Paths.v ===== *)
(** * Path normalisation

    [paths/resolve_path.rs] at [u8]: [normalize_string_generic_tz], the loop that
    removes empty, [.] and [..] elements from a path while it writes the rest to
    a buffer, and its callers [normalize_buf], [join_string_buf],
    [join_abs_string_buf], [basename], [dirname] and [is_parent_or_equal]. The
    target is not Windows; the [Windows] platform can still be asked for.

    A buffer is a list of its bytes; a function that fills a buffer returns the
    buffer and the length of the slice it returns, which begins at index 0 of the
    buffer it was given unless it says otherwise. An index out of range is a
    panic. *)
From Stdlib Require Import ZArith Lia.
From stdpp Require Import base list numbers option.
From S2P Require Import Prelude Strings.
#[local] Open Scope nat_scope.

(** ** Platforms *)

Definition ch_dot : Z := 46.
Definition SEP_POSIX : Z := 47.
Definition SEP_WINDOWS : Z := 92.
Definition ch_colon : Z := 58.

Inductive Platform := Loose | Windows | Posix | Nt.

Definition is_sep_any (c : Z) : bool := Z.eqb c SEP_POSIX || Z.eqb c SEP_WINDOWS.
Definition is_sep_posix (c : Z) : bool := Z.eqb c SEP_POSIX.

(** [is_absolute_windows_t] *)
Definition is_absolute_windows (p : bytes) : bool :=
  match p with
  | [] => false
  | c0 :: _ =>
      if is_sep_any c0 then true
      else (3 <=? length p) && test_at p 1 (Z.eqb ch_colon) && test_at p 2 is_sep_any
  end.

Definition Platform_is_absolute (p : Platform) (path : bytes) : bool :=
  match p with
  | Posix => test_at path 0 (Z.eqb SEP_POSIX)
  | Nt | Windows | Loose => is_absolute_windows path
  end.

Definition Platform_separator (p : Platform) : Z :=
  match p with
  | Loose | Posix => SEP_POSIX
  | Nt | Windows => SEP_WINDOWS
  end.

Definition Platform_is_separator (p : Platform) (c : Z) : bool :=
  match p with
  | Loose | Nt | Windows => is_sep_any c
  | Posix => is_sep_posix c
  end.

Definition Platform_trailing_separator (p : Platform) : Z * Z :=
  match p with
  | Nt | Windows => (ch_dot, SEP_WINDOWS)
  | Posix | Loose => (ch_dot, SEP_POSIX)
  end.

Definition leading_separator_index_windows (path : bytes) : option nat :=
  if length path <? 1 then None
  else if test_at path 0 (Z.eqb SEP_POSIX) then Some 0
  else if test_at path 0 (Z.eqb SEP_WINDOWS) then Some 0
  else if length path <? 3 then None
  else if test_at path 0 (fun c => (65 <=? c)%Z && (c <=? 90)%Z) && test_at path 1 (Z.eqb ch_colon) then
    if test_at path 2 (Z.eqb SEP_POSIX) then Some 2
    else if test_at path 2 (Z.eqb SEP_WINDOWS) then Some 2
    else Some 1
  else None.

Definition leading_separator_index_posix (path : bytes) : option nat :=
  if test_at path 0 (Z.eqb SEP_POSIX) then Some 0 else None.

Definition leading_separator_index (p : Platform) (path : bytes) : option nat :=
  match p with
  | Nt | Windows => leading_separator_index_windows path
  | Posix => leading_separator_index_posix path
  | Loose =>
      match leading_separator_index_windows path with
      | Some i => Some i
      | None => leading_separator_index_posix path
      end
  end.

Definition is_drive_letter (c : Z) : bool :=
  ((97 <=? c) && (c <=? 122) || (65 <=? c) && (c <=? 90))%Z.

(** The length of the volume name and the index of the slash after the server of
    an UNC path. *)
Definition windows_volume_name_len (path : bytes) : outcome (nat * nat) :=
  if length path <? 2 then Done (0, 0)
  else
    let! c := at_ path 0 in
    if test_at path 1 (Z.eqb ch_colon) && is_drive_letter c then Done (2, 0)
    else if (5 <=? length path) && test_at path 0 is_sep_any && test_at path 1 is_sep_any
            && negb (test_at path 2 is_sep_any) && negb (test_at path 2 (Z.eqb ch_dot)) then
      match index_of_any (drop 3 path) [SEP_POSIX; SEP_WINDOWS] with
      | Some idx =>
          if (idx + 4 <? length path) && negb (test_at path (idx + 4) is_sep_any) then
            match index_of_any (drop (idx + 4) path) [SEP_POSIX; SEP_WINDOWS] with
            | Some idx2 => Done (idx + idx2 + 4, idx + 3)
            | None => Done (length path, idx + 3)
            end
          else Done (length path, 0)
      | None => Done (length path, 0)
      end
    else Done (0, 0).

Definition is_dotdot (slice : bytes) : bool :=
  (2 <=? length slice) && test_at slice 0 (Z.eqb ch_dot) && test_at slice 1 (Z.eqb ch_dot).

(** [u8::to_ascii_uppercase] *)
Definition to_ascii_upper (c : Z) : Z := if ((97 <=? c) && (c <=? 122))%Z then (c - 32)%Z else c.

(** ** The loop *)

(** [buf[i] = x] *)
Definition put (buf : bytes) (i : nat) (x : Z) : outcome bytes := write_at buf (Z.of_nat i) [x].

(** [buf[i..i + src.len()].copy_from_slice(src)] *)
Definition put_slice (buf : bytes) (i : nat) (src : bytes) : outcome bytes := write_at buf (Z.of_nat i) src.

Record NState := mkN { n_buf : bytes; buf_i : nat; dotdot : nat; r : nat }.

Section Loop.
Context (separator : Z) (is_separator : Z -> bool) (ALLOW_ABOVE_ROOT : bool).
Context (path : bytes) (buf_start : nat).

(** [i == n || is_separator(path[i])] *)
Definition ends_at (i : nat) : bool :=
  match path !! i with
  | Some c => is_separator c
  | None => true
  end.

(** [while buf_i > dotdot && !is_separator(buf[buf_i]) { buf_i -= 1 }] *)
Fixpoint pop_element (buf : bytes) (dotdot i : nat) : outcome nat :=
  match i with
  | O => Done O
  | S i' =>
      if dotdot <? i then
        let! c := at_ buf i in
        if negb (is_separator c) then pop_element buf dotdot i' else Done i
      else Done i
  end.

(** A [..] element. *)
Definition dotdot_element (s : NState) : outcome NState :=
  let r' := r s + 2 in
  if dotdot s <? buf_i s then
    let! i := pop_element (n_buf s) (dotdot s) (buf_i s - 1) in
    Done (mkN (n_buf s) i (dotdot s) r')
  else if ALLOW_ABOVE_ROOT then
    if buf_start <? buf_i s then
      let! b := put (n_buf s) (buf_i s) separator in
      let! b := put b (buf_i s + 1) ch_dot in
      let! b := put b (buf_i s + 2) ch_dot in
      Done (mkN b (buf_i s + 3) (buf_i s + 3) r')
    else
      let! b := put (n_buf s) (buf_i s) ch_dot in
      let! b := put b (buf_i s + 1) ch_dot in
      Done (mkN b (buf_i s + 2) (buf_i s + 2) r')
  else Done (mkN (n_buf s) (buf_i s) (dotdot s) r').

(** Any other element. *)
Definition real_element (s : NState) : outcome NState :=
  let! s :=
    (if negb (buf_i s =? buf_start) && (0 <? buf_i s) then
       let! c := at_ (n_buf s) (buf_i s - 1) in
       if negb (is_separator c) then
         let! b := put (n_buf s) (buf_i s) separator in
         Done (mkN b (buf_i s + 1) (dotdot s) (r s))
       else Done s
     else Done s) in
  let from := r s in
  let r' := skip_while (fun c => negb (is_separator c)) path from in
  let count := r' - from in
  let! b := put_slice (n_buf s) (buf_i s) (sub path from (from + count)) in
  Done (mkN b (buf_i s + count) (dotdot s) r').

Definition advance (s : NState) (k : nat) : NState := mkN (n_buf s) (buf_i s) (dotdot s) (r s + k).

Fixpoint normalize_loop (fuel : nat) (s : NState) : outcome NState :=
  match fuel with
  | O => NoFuel
  | S fuel =>
      match path !! r s with
      | None => Done s
      | Some c =>
          if is_separator c then normalize_loop fuel (advance s 1)
          else if Z.eqb c ch_dot && ends_at (r s + 1) then normalize_loop fuel (advance s 1)
          else if is_dotdot (drop (r s) path) && ends_at (r s + 2) then
            let! s := dotdot_element s in normalize_loop fuel s
          else let! s := real_element s in normalize_loop fuel s
      end
  end.
End Loop.

(** What comes before the elements of a Windows path: the volume and its root.
    The state of the buffer, where the path goes on, and whether the path was
    only a volume name. *)
Record Prefix := mkPrefix { p_buf : bytes; p_buf_i : nat; p_dotdot : nat; path_begin : nat; only_volume : bool }.

Definition windows_prefix (separator : Z) (is_separator : Z -> bool) (ADD_NT_PREFIX : bool)
    (path_ buf : bytes) (vol_len third : nat) : outcome Prefix :=
  if 0 <? vol_len then
    let! (buf, buf_i) :=
      (if ADD_NT_PREFIX then
         let! b := put_slice buf 0 [SEP_WINDOWS; 63; 63; SEP_WINDOWS]%Z in Done (b, 4)
       else Done (buf, 0)) in
    let! c1 := at_ path_ 1 in
    if negb (Z.eqb c1 ch_colon) then
      let! (buf, buf_i) :=
        (if ADD_NT_PREFIX then
           let! b := put_slice buf buf_i [85; 78; 67]%Z in
           let! b := put b (buf_i + 3) separator in Done (b, buf_i + 2)
         else
           let! b := put buf buf_i separator in
           let! b := put b (buf_i + 1) separator in Done (b, buf_i)) in
      let! buf :=
        (if 0 <? third then
           let! src := index_range path_ 2 (Z.of_nat (third + 1)) in
           let! b := put_slice buf (buf_i + 2) src in
           let! b := put b (buf_i + third) separator in
           let! src := index_range path_ (Z.of_nat (third + 1)) (Z.of_nat vol_len) in
           put_slice b (buf_i + third + 1) src
         else
           let! src := index_range path_ 2 (Z.of_nat vol_len) in
           put_slice buf (buf_i + 2) src) in
      let! buf := put buf (buf_i + vol_len) separator in
      Done (mkPrefix buf (buf_i + vol_len + 1) 0 (vol_len + 1) (length path_ <=? vol_len + 1))
    else
      let! c0 := at_ path_ 0 in
      let! buf := put buf buf_i (to_ascii_upper c0) in
      let! buf := put buf (buf_i + 1) ch_colon in
      Done (mkPrefix buf (buf_i + 2) (buf_i + 2) 2 false)
  else if test_at path_ 0 is_separator then
    let! buf := put buf 0 separator in
    Done (mkPrefix buf 1 1 1 false)
  else Done (mkPrefix buf 0 0 0 false).

(** The buffer and the length of the path in it. *)
Definition normalize_string_generic_tz
    (ALLOW_ABOVE_ROOT PRESERVE_TRAILING_SLASH ZERO_TERMINATE ADD_NT_PREFIX : bool)
    (path_ buf : bytes) (separator : Z) (is_separator : Z -> bool) : outcome (bytes * nat) :=
  let is_windows := Z.eqb separator SEP_WINDOWS in
  let zero_terminate (buf : bytes) (i : nat) : outcome (bytes * nat) :=
    (if ZERO_TERMINATE then let! b := put buf i 0%Z in Done (b, i) else Done (buf, i)) in
  let! (vol_len, third) := (if is_windows then windows_volume_name_len path_ else Done (0, 0)) in
  let! p := (if is_windows then windows_prefix separator is_separator ADD_NT_PREFIX path_ buf vol_len third
             else Done (mkPrefix buf 0 0 0 false)) in
  if only_volume p then zero_terminate (p_buf p) (p_buf_i p)
  else
    let! path := (if is_windows then index_range path_ (Z.of_nat (path_begin p)) (Z.of_nat (length path_))
                  else Done path_) in
    let buf_start := (if is_windows then p_buf_i p else 0) in
    let n := length path in
    let! s :=
      (if is_windows && (ALLOW_ABOVE_ROOT || (0 <? vol_len)) && test_at path 0 is_separator then
         let! b := put (p_buf p) (p_buf_i p) separator in
         Done (mkN b (p_buf_i p + 1) (p_buf_i p + 1) 1)
       else Done (mkN (p_buf p) (p_buf_i p) (p_dotdot p) 0)) in
    let! s := normalize_loop separator is_separator ALLOW_ABOVE_ROOT path buf_start (S n) s in
    let! (buf, i) :=
      (if PRESERVE_TRAILING_SLASH && (0 <? buf_i s) then
         let! last := at_ path_ (length path_ - 1) in
         let! c := at_ (n_buf s) (buf_i s - 1) in
         if Z.eqb last separator && negb (Z.eqb c separator) then
           let! b := put (n_buf s) (buf_i s) separator in Done (b, buf_i s + 1)
         else Done (n_buf s, buf_i s)
       else Done (n_buf s, buf_i s)) in
    let! (buf, i) :=
      (if is_windows && (i =? 2) && test_at buf 1 (Z.eqb ch_colon) then
         let! b := put buf i (if test_at path 0 (Z.eqb SEP_WINDOWS) then SEP_WINDOWS else ch_dot) in
         Done (b, i + 1)
       else Done (buf, i)) in
    zero_terminate buf i.

Definition normalize_string_generic (ALLOW_ABOVE_ROOT PRESERVE_TRAILING_SLASH : bool)
    (path_ buf : bytes) (separator : Z) (is_separator : Z -> bool) : outcome (bytes * nat) :=
  normalize_string_generic_tz ALLOW_ABOVE_ROOT PRESERVE_TRAILING_SLASH false false path_ buf separator is_separator.

(** ** Normalising a string *)

Definition normalize_string_buf (P : Platform) (ALLOW_ABOVE_ROOT PRESERVE_TRAILING_SLASH : bool)
    (str buf : bytes) : outcome (bytes * nat) :=
  match P with
  | Nt => Panic
  | Windows => normalize_string_generic ALLOW_ABOVE_ROOT PRESERVE_TRAILING_SLASH str buf SEP_WINDOWS is_sep_any
  | Posix | Loose => normalize_string_generic ALLOW_ABOVE_ROOT PRESERVE_TRAILING_SLASH str buf SEP_POSIX is_sep_any
  end.

(** [last_index_of_sep_t], on a target that is not Windows, is the posix one. *)
Definition last_index_of_separator (P : Platform) (slice : bytes) : option nat :=
  match P with
  | Loose | Posix => last_index_of_char slice SEP_POSIX
  | Nt | Windows => last_index_of_any slice [SEP_POSIX; SEP_WINDOWS]
  end.

Definition normalize_buf (P : Platform) (str buf : bytes) : outcome (bytes * nat) :=
  if length str =? 0 then
    let! b := put buf 0 ch_dot in Done (b, 1)
  else
    let is_absolute := Platform_is_absolute P str in
    let trailing_separator := bool_decide (last_index_of_separator P str = Some (length str - 1)) in
    if is_absolute && trailing_separator then normalize_string_buf P true true str buf
    else if is_absolute && negb trailing_separator then normalize_string_buf P true false str buf
    else if negb is_absolute && negb trailing_separator then normalize_string_buf P false false str buf
    else normalize_string_buf P false true str buf.

(** The buffer, and where the slice begins and how long it is. *)
Definition normalize_string_node (P : Platform) (str buf : bytes) : outcome (bytes * nat * nat) :=
  if length str =? 0 then
    let! b := put buf 0 ch_dot in Done (b, 0, 1)
  else
    let is_absolute := Platform_is_absolute P str in
    let! last := at_ str (length str - 1) in
    let trailing_separator := Platform_is_separator P last in
    let buf_off := match P with Windows => 0 | _ => 1 end in
    let separator := Platform_separator P in
    let! tail := index_range buf (Z.of_nat buf_off) (Z.of_nat (length buf)) in
    let! (tail, out_len) :=
      normalize_string_generic (negb is_absolute) false str tail separator (Platform_is_separator P) in
    let buf := take buf_off buf ++ tail in
    if out_len =? 0 then
      if is_absolute then let! b := put buf 0 separator in Done (b, 0, 1)
      else if trailing_separator then
        let '(d, s) := Platform_trailing_separator P in
        let! b := put buf 0 d in
        let! b := put b 1 s in
        Done (b, 0, 2)
      else let! b := put buf 0 ch_dot in Done (b, 0, 1)
    else
      let! (buf, out_len) :=
        (if trailing_separator then
           let! c := at_ buf (buf_off + out_len - 1) in
           if negb (Platform_is_separator P c) then
             let! b := put buf (buf_off + out_len) separator in Done (b, out_len + 1)
           else Done (buf, out_len)
         else Done (buf, out_len)) in
      if is_absolute then
        match P with
        | Windows => Done (buf, buf_off, out_len)
        | _ => let! b := put buf 0 separator in Done (b, 0, out_len + 1)
        end
      else Done (buf, buf_off, out_len).

(** ** Joining *)

Definition concat_step (sep : Z) (temp part : bytes) : bytes :=
  match part with
  | [] => temp
  | _ => (match temp with [] => temp | _ => temp ++ [sep] end) ++ part
  end.

(** The parts that are not empty, with a separator between them. The scratch
    buffer of the code has room for them. *)
Definition concat_parts (separator : Z) (parts : list bytes) : bytes :=
  fold_left (concat_step separator) parts [].

Definition join_string_buf (P : Platform) (buf : bytes) (parts : list bytes) : outcome (bytes * nat * nat) :=
  match concat_parts (Platform_separator P) parts with
  | [] => let! b := put buf 0 ch_dot in Done (b, 0, 1)
  | joined => normalize_string_node P joined buf
  end.

Definition join_abs_needed (cwd_len : nat) (parts : list bytes) : nat :=
  list_sum (map (fun p => length p + 1) parts) + cwd_len + 2.

(** The last absolute part, and the parts after it. [part_i] and [part_len] are
    [u16]. *)
Fixpoint last_absolute (fuel : nat) (P : Platform) (cwd : bytes) (parts : list bytes) (part_i part_len : nat)
    : outcome (bytes * list bytes) :=
  match fuel with
  | O => NoFuel
  | S fuel =>
      if part_i <? part_len then
        match parts !! part_i with
        | None => Panic
        | Some part =>
            if Platform_is_absolute P part then
              let parts := drop (part_i + 1) parts in
              last_absolute fuel P part parts 0 (Z.to_nat (Z.of_nat (length parts) mod two16))
            else last_absolute fuel P cwd parts (part_i + 1) part_len
        end
      else Done (cwd, parts)
  end.

Definition append_step (sep : Z) (temp part : bytes) : bytes :=
  match part with
  | [] => temp
  | _ => (if test_at temp (length temp - 1) (fun c => negb (Z.eqb c sep)) then temp ++ [sep] else temp) ++ part
  end.

(** The parts behind [cwd], each after a separator. *)
Definition append_parts (separator : Z) (cwd : bytes) (parts : list bytes) : bytes :=
  fold_left (append_step separator) parts cwd.

Definition slashes_to_posix (path : bytes) : bytes :=
  map (fun c => if Z.eqb c SEP_WINDOWS then SEP_POSIX else c) path.

(** The result of [_join_abs_string_buf]: the caller's [cwd], or a slice of the
    buffer. *)
Inductive Joined := InCwd | InBuf (buf : bytes) (len : nat).

(** [_join_abs_string_buf] for the platforms [Loose] and [Posix]. *)
Definition join_abs_string_buf_t (IS_SENTINEL : bool) (P : Platform) (cwd buf : bytes) (parts : list bytes) : outcome Joined :=
  match parts with
  | [] => if IS_SENTINEL then Panic else Done InCwd
  | _ =>
      if bool_decide (parts = [[SEP_POSIX]]) then
        let! b := put buf 0 SEP_POSIX in
        let! b := (if IS_SENTINEL then put b 1 0%Z else Done b) in
        Done (InBuf b 1)
      else
        let! (cwd, parts) := last_absolute (S (length parts)) P cwd parts 0
                               (Z.to_nat (Z.of_nat (length parts) mod two16)) in
        let temp := append_parts (Platform_separator P) cwd parts in
        let out := length temp in
        let '(leading, temp) :=
          match leading_separator_index P temp with
          | Some i =>
              let outdir := take (i + 1) temp in
              let outdir := match P with Loose => slashes_to_posix outdir | _ => outdir end in
              (outdir, outdir ++ drop (i + 1) temp)
          | None => ([SEP_POSIX], temp)
          end in
        let leading_len := length leading in
        let! buf := put_slice buf 0 leading in
        let! str := index_range temp (Z.of_nat leading_len) (Z.of_nat out) in
        let! tail := index_range buf (Z.of_nat leading_len) (Z.of_nat (length buf)) in
        let! (tail, result_len) := normalize_string_buf P false true str tail in
        let buf := take leading_len buf ++ tail in
        let! buf := (if IS_SENTINEL then put buf (result_len + leading_len) 0%Z else Done buf) in
        Done (InBuf buf (result_len + leading_len))
  end.

Definition join_abs_string_buf (P : Platform) (cwd buf : bytes) (parts : list bytes) : outcome Joined :=
  join_abs_string_buf_t false P cwd buf parts.

Definition join_abs_string_buf_z (P : Platform) (cwd buf : bytes) (parts : list bytes) : outcome Joined :=
  join_abs_string_buf_t true P cwd buf parts.

Definition Joined_slice (cwd : bytes) (j : Joined) : bytes :=
  match j with
  | InCwd => cwd
  | InBuf buf len => take len buf
  end.

Definition join_abs_string_buf_checked (P : Platform) (cwd buf : bytes) (parts : list bytes) : outcome (option Joined) :=
  let total := join_abs_needed (length cwd) parts in
  if total <? length buf then
    let! j := join_abs_string_buf P cwd buf parts in Done (Some j)
  else
    let! j := join_abs_string_buf P cwd (replicate total 0%Z) parts in
    let joined := Joined_slice cwd j in
    if length buf <? length joined then Done None
    else let! b := put_slice buf 0 joined in Done (Some (InBuf b (length joined))).

(** ** Parts of a path *)

(** [while is_sep_any(path[end_index]) { .. }]: [None] is the return of ["/"]. *)
Fixpoint basename_end (path : bytes) (end_index : nat) : outcome (option nat) :=
  let! c := at_ path end_index in
  if is_sep_any c then
    match end_index with
    | O => Done None
    | S i => basename_end path i
    end
  else Done (Some end_index).

(** [while !is_sep_any(path[start_index]) { .. }]: where the name begins. *)
Fixpoint basename_start (path : bytes) (start_index : nat) : outcome nat :=
  let! c := at_ path start_index in
  if negb (is_sep_any c) then
    match start_index with
    | O => Done 0
    | S i => basename_start path i
    end
  else Done (start_index + 1).

Definition basename (path : bytes) : outcome bytes :=
  match path with
  | [] => Done []
  | _ =>
      let! e := basename_end path (length path - 1) in
      match e with
      | None => Done [SEP_POSIX]
      | Some e =>
          let! s := basename_start path e in
          index_range path (Z.of_nat s) (Z.of_nat (e + 1))
      end
  end.

(** [dirname] for the platforms [Loose] and [Posix]. *)
Fixpoint dirname (fuel : nat) (P : Platform) (str : bytes) : outcome bytes :=
  match fuel with
  | O => NoFuel
  | S fuel =>
      match last_index_of_char str SEP_POSIX with
      | None => Done []
      | Some separator =>
          match P with
          | Posix =>
              if separator =? 0 then Done [SEP_POSIX]
              else if separator =? length str - 1 then dirname fuel P (take (length str - 1) str)
              else Done (take separator str)
          | _ => Done (take separator str)
          end
      end
  end.

Inductive ParentEqual := Parent | Equal | Unrelated.

Definition is_parent_or_equal (parent_ child : bytes) : ParentEqual :=
  let parent := take (length parent_ - prefix_len is_sep_any (reverse parent_)) parent_ in
  if negb (starts_with child parent) then Unrelated
  else if length child =? length parent then Equal
  else if test_at child (length parent) is_sep_any then Parent
  else Unrelated.
