(* ===== verification/PathsSpec.v ===== *)
(** * Path normalisation: the reference

    A path is the list of its elements, the pieces between separators, and
    resolving it is a fold over them with a stack of names: an empty element and
    [.] change nothing, [..] takes the last name away or, where there is none,
    is kept if paths may climb above the root. *)
From Stdlib Require Import ZArith Lia.
From stdpp Require Import base list numbers option.
From S2P Require Import Prelude Strings Paths.
#[local] Open Scope nat_scope.

(** ** The reference *)

Section Reference.
Context (is_separator : Z -> bool).

(** The pieces between separators; never none. *)
Fixpoint path_elements (path : bytes) : list bytes :=
  match path with
  | [] => [[]]
  | c :: p =>
      if is_separator c then [] :: path_elements p
      else match path_elements p with
           | e :: es => (c :: e) :: es
           | [] => [[c]]
           end
  end.

(** How far up, and the names below it, the last one first. *)
Record Norm := mkNorm { ups : nat; names : list bytes }.

Definition resolve1 (above : bool) (st : Norm) (e : bytes) : Norm :=
  if bool_decide (e = []) || bool_decide (e = [ch_dot]) then st
  else if bool_decide (e = [ch_dot; ch_dot]) then
    match names st with
    | _ :: ns => mkNorm (ups st) ns
    | [] => if above then mkNorm (S (ups st)) [] else st
    end
  else mkNorm (ups st) (e :: names st).

Definition resolve (above : bool) (st : Norm) (es : list bytes) : Norm :=
  fold_left (resolve1 above) es st.

Definition norm_root : Norm := mkNorm 0 [].

Definition join_with (sep : Z) (l : list bytes) : bytes :=
  match l with
  | [] => []
  | x :: l => x ++ concat (map (cons sep) l)
  end.

Definition norm_elements (st : Norm) : list bytes :=
  replicate (ups st) [ch_dot; ch_dot] ++ reverse (names st).

Definition render (sep : Z) (st : Norm) : bytes := join_with sep (norm_elements st).

Definition sep_free (x : bytes) : Prop := Forall (fun c => is_separator c = false) x.

Definition is_name (x : bytes) : Prop :=
  x <> [] /\ sep_free x /\ x <> [ch_dot] /\ x <> [ch_dot; ch_dot].

Definition wf_norm (above : bool) (st : Norm) : Prop :=
  Forall is_name (names st) /\ (above = false -> ups st = 0).

(** *** Elements *)

Lemma elements_split p :
  exists e rest,
    p = e ++ rest /\ sep_free e /\
    (rest = [] /\ path_elements p = [e] \/
     exists c rest', rest = c :: rest' /\ is_separator c = true /\ path_elements p = e :: path_elements rest').
Proof.
  induction p as [|c p (e & rest & -> & He & IH)]; [exists [], []; split_and!; try done; [constructor|by left]|].
  cbn [path_elements]. destruct (is_separator c) eqn:Ec.
  - exists [], (c :: e ++ rest). split_and!; [done|constructor|]. right. by exists c, (e ++ rest).
  - exists (c :: e), rest. split_and!; [done|by constructor|].
    destruct IH as [(-> & E)|(c' & rest' & -> & Hc & E)]; rewrite E; [by left|right; by exists c', rest'].
Qed.

Lemma elements_plain_app e c rest :
  sep_free e -> is_separator c = true -> path_elements (e ++ c :: rest) = e :: path_elements rest.
Proof.
  intros He Hc. induction He as [|x e Hx He IH]; cbn [app path_elements]; [by rewrite Hc|].
  rewrite Hx. by rewrite IH.
Qed.

Lemma elements_plain e : sep_free e -> path_elements e = [e].
Proof. induction 1 as [|x e Hx He IH]; cbn [path_elements]; [done|]. by rewrite Hx, IH. Qed.

Lemma elements_app_sep p c q :
  is_separator c = true -> path_elements (p ++ c :: q) = path_elements p ++ path_elements q.
Proof.
  intros Hc. remember (length p) as n eqn:En. revert p En.
  induction (lt_wf n) as [n _ IH]. intros p ->.
  destruct (elements_split p) as (e & rest & -> & He & [(-> & E)|(c' & rest' & -> & Hc' & E)]); rewrite E.
  - rewrite app_nil_r. by rewrite elements_plain_app.
  - rewrite <- app_assoc. cbn [app]. rewrite elements_plain_app by done.
    rewrite (IH (length rest')); [done|len; lia|done].
Qed.

Lemma elements_plain_all p : Forall sep_free (path_elements p).
Proof.
  induction p as [|c p IH]; cbn [path_elements]; [by repeat constructor|].
  destruct (is_separator c) eqn:Ec; [by constructor; [constructor|]|].
  destruct (path_elements p) as [|e es]; [by repeat constructor|].
  inversion IH; subst. constructor; [by constructor|done].
Qed.

Lemma elements_join sep l :
  is_separator sep = true -> l <> [] -> Forall sep_free l -> path_elements (join_with sep l) = l.
Proof.
  intros Hs. destruct l as [|x l]; [done|]. intros _. cbn [join_with].
  revert x. induction l as [|y l IH]; intros x Hl; inversion Hl; subst; cbn [map concat].
  - rewrite app_nil_r. by apply elements_plain.
  - cbn [app]. rewrite elements_plain_app by done. by rewrite IH.
Qed.

(** *** Resolution *)

Lemma resolve1_empty above st : resolve1 above st [] = st.
Proof. done. Qed.

Lemma resolve_app above st l k : resolve above st (l ++ k) = resolve above (resolve above st l) k.
Proof. apply fold_left_app. Qed.

Lemma resolve1_wf above st e : sep_free e -> wf_norm above st -> wf_norm above (resolve1 above st e).
Proof.
  intros He (Hn & Hu). unfold resolve1.
  destruct (bool_decide_reflect (e = [])) as [->|H1]; [done|].
  destruct (bool_decide_reflect (e = [ch_dot])) as [->|H2]; [done|]. cbn [orb].
  destruct (bool_decide_reflect (e = [ch_dot; ch_dot])) as [->|H3].
  - destruct (names st) as [|x ns] eqn:E; [destruct above; [split; [constructor|done]|by split; [rewrite E|]]|].
    inversion Hn; subst. by split.
  - split; [constructor; [done|]|]; done.
Qed.

Lemma resolve_wf above st es : Forall sep_free es -> wf_norm above st -> wf_norm above (resolve above st es).
Proof.
  intros H. revert st. induction H as [|e es He _ IH]; intros st Hst; [done|].
  cbn [resolve fold_left]. by apply IH, resolve1_wf.
Qed.

Lemma wf_norm_root above : wf_norm above norm_root.
Proof. by split; [constructor|]. Qed.

Lemma resolve_names above st l :
  Forall is_name l -> resolve above st l = mkNorm (ups st) (reverse l ++ names st).
Proof.
  intros H. revert st. induction H as [|x l (H1 & H2 & H3 & H4) _ IH]; intros st; [by destruct st|].
  cbn [resolve fold_left]. rewrite reverse_cons, <- app_assoc.
  unfold resolve1 at 2. rewrite !bool_decide_false by done. apply IH.
Qed.

Lemma resolve_ups above u k :
  (above = false -> k = 0) ->
  resolve above (mkNorm u []) (replicate k [ch_dot; ch_dot]) = mkNorm (u + k) [].
Proof.
  intros Hk. revert u Hk. induction k as [|k IH]; intros u Hk; cbn [replicate]; [f_equal; by rewrite Nat.add_0_r|].
  destruct above; [|by discriminate (Hk eq_refl)].
  cbn [resolve fold_left]. unfold resolve1 at 2. cbn. etrans; [by apply (IH (S u))|]. f_equal; lia.
Qed.

(** Resolving what has been resolved changes nothing. *)
Lemma resolve_norm_elements above st :
  wf_norm above st -> resolve above norm_root (norm_elements st) = st.
Proof.
  intros (Hn & Hu). unfold norm_elements. rewrite resolve_app.
  unfold norm_root. rewrite resolve_ups by done. rewrite resolve_names by by apply Forall_reverse.
  cbn [ups names]. rewrite reverse_involutive, app_nil_r. by destruct st.
Qed.

(** *** The written form *)

Lemma join_with_snoc sep l x :
  join_with sep (l ++ [x]) = match l with [] => x | _ => join_with sep l ++ sep :: x end.
Proof.
  destruct l as [|y l]; cbn [app join_with map concat]; [by rewrite app_nil_r|].
  rewrite map_app, concat_app. cbn [map concat]. by rewrite app_nil_r, app_assoc.
Qed.

Lemma norm_elements_push u ns x : norm_elements (mkNorm u (x :: ns)) = norm_elements (mkNorm u ns) ++ [x].
Proof. unfold norm_elements. cbn [ups names]. by rewrite reverse_cons, app_assoc. Qed.

Lemma norm_elements_up u :
  norm_elements (mkNorm (S u) []) = norm_elements (mkNorm u []) ++ [[ch_dot; ch_dot]].
Proof. unfold norm_elements. cbn [ups names]. rewrite reverse_nil, !app_nil_r. by rewrite <- replicate_cons_app. Qed.

Lemma norm_elements_nonempty above st :
  wf_norm above st -> Forall (fun e => e <> []) (norm_elements st).
Proof.
  intros (Hn & _). apply Forall_app. split; [by apply Forall_replicate|].
  apply Forall_reverse. eapply Forall_impl; [|apply Hn]. by intros x (? & _).
Qed.

Lemma norm_elements_nil st : norm_elements st = [] -> st = norm_root.
Proof.
  destruct st as [u ns]. intros [E1 E2]%app_eq_nil. apply (f_equal reverse) in E2.
  rewrite reverse_involutive in E2. cbn in *. subst ns. by destruct u.
Qed.

Lemma join_with_nil sep l : Forall (fun e => e <> []) l -> join_with sep l = [] -> l = [].
Proof. intros H. destruct l as [|x l]; [done|]. inversion H; subst. cbn. destruct x; done. Qed.

Lemma norm_elements_plain above st :
  is_separator ch_dot = false -> wf_norm above st -> Forall sep_free (norm_elements st).
Proof.
  intros Hd (Hn & _). apply Forall_app. split; [apply Forall_replicate; by repeat constructor|].
  apply Forall_reverse. eapply Forall_impl; [|apply Hn]. by intros x (_ & ? & _).
Qed.

Lemma join_with_last sep l :
  Forall sep_free l -> Forall (fun e => e <> []) l -> l <> [] ->
  exists pre c, join_with sep l = pre ++ [c] /\ is_separator c = false.
Proof.
  intros Hp Hn Hl. destruct l as [|x l _] using rev_ind; [done|].
  apply Forall_app in Hp as [_ Hp], Hn as [_ Hn]. inversion Hp as [|? ? Hx _]; inversion Hn as [|? ? Hx' _]; subst.
  rewrite join_with_snoc. destruct x as [|c x _] using rev_ind; [done|].
  apply Forall_app in Hx as [_ Hx]. inversion Hx; subst.
  destruct l; [by exists x, c|]. eexists _, c. split; [|done]. by rewrite app_comm_cons, app_assoc.
Qed.
End Reference.

(** ** Written forms *)

(** What [normalize_string_generic] writes: the elements that are left and, on
    request, the separator the path ended in. *)
Definition with_trailing (preserve : bool) (sep : Z) (path core : bytes) : bytes :=
  core ++ (if preserve && negb (length core =? 0) && bool_decide (list.last path = Some sep) then [sep] else []).

Definition normalized (above preserve : bool) (sep : Z) (is_separator : Z -> bool) (path : bytes) : bytes :=
  with_trailing preserve sep path (render sep (resolve above norm_root (path_elements is_separator path))).

(** What [normalize_string_node] writes. *)
Definition node_form (sep : Z) (is_absolute trailing : bool) (core : bytes) : bytes :=
  match core with
  | [] => if is_absolute then [sep] else if trailing then [ch_dot; sep] else [ch_dot]
  | _ => (if is_absolute then [sep] else []) ++ core ++ (if trailing then [sep] else [])
  end.

Definition node_normalized (sep : Z) (is_separator : Z -> bool) (is_absolute : bool) (path : bytes) : bytes :=
  node_form sep is_absolute (match list.last path with Some c => is_separator c | None => false end)
    (render sep (resolve (negb is_absolute) norm_root (path_elements is_separator path))).

(** The last absolute part, or [cwd], and the parts behind it. *)
Definition rebase_step (is_absolute : bytes -> bool) (acc : bytes * list bytes) (p : bytes) : bytes * list bytes :=
  if is_absolute p then (p, []) else (acc.1, acc.2 ++ [p]).

Definition rebase (is_absolute : bytes -> bool) (cwd : bytes) (parts : list bytes) : bytes * list bytes :=
  fold_left (rebase_step is_absolute) parts (cwd, []).

(** What [join_abs_string_buf] writes: the elements of the parts one after the
    other, resolved from the root. *)
Definition abs_joined (cwd : bytes) (parts : list bytes) : bytes :=
  let '(base, rel) := rebase (Platform_is_absolute Posix) cwd parts in
  SEP_POSIX ::
  with_trailing true SEP_POSIX (concat (base :: rel))
    (render SEP_POSIX (resolve false norm_root (concat (map (path_elements is_sep_any) (base :: rel))))).

Lemma resolve_sep is_separator above c p :
  is_separator c = true ->
  forall st, resolve above st (path_elements is_separator (c :: p)) =
             resolve above st (path_elements is_separator p).
Proof. intros Hc st. cbn [path_elements]. by rewrite Hc. Qed.

(** *** Normalising twice *)

Lemma normalized_elements above preserve sep is_separator p st :
  is_separator sep = true -> is_separator ch_dot = false -> wf_norm is_separator above st ->
  resolve above norm_root (path_elements is_separator (with_trailing preserve sep p (render sep st))) = st.
Proof.
  intros Hs Hd Hwf. unfold with_trailing.
  destruct (decide (norm_elements st = [])) as [E|E].
  - unfold render. rewrite E. cbn. rewrite andb_false_r. cbn.
    by rewrite (norm_elements_nil st E).
  - assert (He : path_elements is_separator (render sep st) = norm_elements st).
    { apply elements_join; [done..|]. by eapply norm_elements_plain. }
    destruct (preserve && _ && _).
    + rewrite elements_app_sep by done. rewrite He, resolve_app. cbn.
      by apply (resolve_norm_elements is_separator).
    + rewrite app_nil_r, He. by apply (resolve_norm_elements is_separator).
Qed.

Lemma last_with_trailing preserve sep p core :
  list.last (with_trailing preserve sep p core) = Some sep -> list.last core <> Some sep ->
  preserve && negb (length core =? 0) && bool_decide (list.last p = Some sep) = true.
Proof. unfold with_trailing. destruct (_ && _ && _); [done|]. by rewrite app_nil_r. Qed.

Lemma path_wf above is_separator p :
  wf_norm is_separator above (resolve above norm_root (path_elements is_separator p)).
Proof. apply resolve_wf; [apply elements_plain_all|apply wf_norm_root]. Qed.

(** ** Parts put together

    Both joins append the parts that are not empty, with a separator between
    two of them unless there is one already. *)
Definition glued (sep : Z) (temp part out : bytes) : Prop :=
  out = temp ++ sep :: part \/
  ((temp = [] \/ exists t, temp = t ++ [sep]) /\ out = temp ++ part).

Section Glue.
Context (sep : Z) (is_separator : Z -> bool) (Hsep : is_separator sep = true).
Context (f : bytes -> bytes -> bytes).
Context (Hnil : forall t, f t [] = t) (Hglue : forall t p, p <> [] -> glued sep t p (f t p)).

Lemma glued_resolve above st t p out :
  glued sep t p out ->
  resolve above st (path_elements is_separator out) =
  resolve above st (path_elements is_separator t ++ path_elements is_separator p).
Proof.
  intros [->|[[->|(t' & ->)] ->]]; [by rewrite elements_app_sep|done|].
  rewrite <- app_assoc. cbn [app]. rewrite !elements_app_sep by done. rewrite <- app_assoc, !resolve_app. done.
Qed.

Lemma glue_resolve above st parts t :
  resolve above st (path_elements is_separator (fold_left f parts t)) =
  resolve above st (path_elements is_separator t ++ concat (map (path_elements is_separator) parts)).
Proof.
  revert st t. induction parts as [|p parts IH]; intros st t; cbn [fold_left map concat]; [by rewrite app_nil_r|].
  rewrite IH, resolve_app. destruct (decide (p = [])) as [->|Hp].
  - by rewrite Hnil, !resolve_app.
  - rewrite (glued_resolve above st t p) by auto. by rewrite !resolve_app.
Qed.

Lemma glue_last parts t : list.last (fold_left f parts t) = list.last (t ++ concat parts).
Proof.
  revert t. induction parts as [|p parts IH]; intros t; cbn [fold_left concat]; [by rewrite app_nil_r|].
  rewrite IH, !last_app. destruct (list.last (concat parts)) as [c|]; [done|].
  destruct (decide (p = [])) as [->|Hp]; [by rewrite Hnil|].
  destruct (Hglue t p Hp) as [->|[_ ->]]; rewrite last_app; [|done].
  rewrite last_cons. destruct (list.last p) eqn:E; [done|]. by apply last_None in E.
Qed.

Lemma glue_length parts t :
  length (fold_left f parts t) <= length t + list_sum (map (fun p => length p + 1) parts).
Proof.
  revert t. induction parts as [|p parts IH]; intros t; cbn [fold_left map list_sum]; [lia|].
  etrans; [apply IH|]. change (list_sum (?x :: ?l)) with (x + list_sum l).
  assert (length (f t p) <= length t + length p + 1); [|lia].
  destruct (decide (p = [])) as [->|Hp]; [rewrite Hnil; lia|].
  destruct (Hglue t p Hp) as [->|[_ ->]]; len; lia.
Qed.

Lemma glue_prefix parts t : exists k, fold_left f parts t = t ++ k.
Proof.
  revert t. induction parts as [|p parts IH]; intros t; cbn [fold_left]; [exists []; by rewrite app_nil_r|].
  destruct (IH (f t p)) as (k & ->). destruct (decide (p = [])) as [->|Hp]; [rewrite Hnil; by exists k|].
  destruct (Hglue t p Hp) as [->|[_ ->]]; rewrite <- app_assoc; by eexists.
Qed.
End Glue.

Lemma concat_step_glued sep t p : p <> [] -> glued sep t p (concat_step sep t p).
Proof.
  intros Hp. unfold concat_step. destruct p as [|c p]; [done|]. destruct t as [|b t]; [right; split; [by left|done]|].
  left. by rewrite <- app_assoc.
Qed.

Lemma append_step_glued sep t p : p <> [] -> glued sep t p (append_step sep t p).
Proof.
  intros Hp. unfold append_step. destruct p as [|c p]; [done|].
  destruct (test_at t _ _) eqn:E; [left; by rewrite <- app_assoc|]. right. split; [|done].
  destruct t as [|x t _] using rev_ind; [by left|]. right. exists t.
  unfold test_at in E. rewrite length_app, Nat.add_sub in E. rewrite list_lookup_middle in E by done.
  apply negb_false_iff, Z.eqb_eq in E. by subst.
Qed.

Lemma concat_parts_head sep parts : head (concat_parts sep parts) = head (concat parts).
Proof.
  unfold concat_parts. induction parts as [|p parts IH]; [done|]. cbn [fold_left concat].
  destruct p as [|c p]; [done|].
  destruct (glue_prefix sep (concat_step sep) (fun _ => eq_refl) (concat_step_glued sep) parts (c :: p)) as (k & E).
  change (concat_step sep [] (c :: p)) with (c :: p). by rewrite E.
Qed.

(** What [join_string_buf] writes: the elements of the parts one after the
    other, resolved from the root if the first byte is a separator. *)
Definition node_joined (parts : list bytes) : bytes :=
  let abs := bool_decide (head (concat parts) = Some SEP_POSIX) in
  node_form SEP_POSIX abs (bool_decide (list.last (concat parts) = Some SEP_POSIX))
    (render SEP_POSIX (resolve (negb abs) norm_root (concat (map (path_elements is_sep_posix) parts)))).

Lemma is_absolute_posix path : Platform_is_absolute Posix path = bool_decide (head path = Some SEP_POSIX).
Proof.
  destruct path as [|c path]; [done|]. unfold Platform_is_absolute, test_at. cbn [lookup list_lookup head].
  destruct (Z.eqb_spec SEP_POSIX c) as [->|H]; [by rewrite bool_decide_eq_true_2|].
  rewrite bool_decide_eq_false_2; [done|congruence].
Qed.

Lemma is_sep_posix_last path :
  match list.last path with Some c => is_sep_posix c | None => false end =
  bool_decide (list.last path = Some SEP_POSIX).
Proof.
  destruct (list.last path) as [c|]; [|done]. unfold is_sep_posix.
  destruct (Z.eqb_spec c SEP_POSIX) as [->|H]; [by rewrite bool_decide_eq_true_2|].
  rewrite bool_decide_eq_false_2; [done|congruence].
Qed.

Lemma node_joined_normalized parts :
  node_normalized SEP_POSIX is_sep_posix (Platform_is_absolute Posix (concat_parts SEP_POSIX parts))
    (concat_parts SEP_POSIX parts) = node_joined parts.
Proof.
  unfold node_normalized, node_joined. rewrite is_sep_posix_last, is_absolute_posix, concat_parts_head.
  unfold concat_parts.
  rewrite (glue_last SEP_POSIX (concat_step SEP_POSIX) (fun _ => eq_refl) (concat_step_glued SEP_POSIX) parts []).
  rewrite (glue_resolve SEP_POSIX is_sep_posix eq_refl (concat_step SEP_POSIX) (fun _ => eq_refl) (concat_step_glued SEP_POSIX)).
  done.
Qed.

(** ** The base of an absolute join *)

Section Rebase.
Context (is_absolute : bytes -> bool).

Lemma rebase_relative parts cwd rel :
  Forall (fun p => is_absolute p = false) parts ->
  fold_left (rebase_step is_absolute) parts (cwd, rel) = (cwd, rel ++ parts).
Proof.
  intros H. revert rel. induction H as [|p parts Hp _ IH]; intros rel; cbn [fold_left]; [by rewrite app_nil_r|].
  unfold rebase_step at 2. rewrite Hp. cbn [fst snd]. rewrite IH, <- app_assoc. done.
Qed.

Lemma rebase_absolute parts cwd rel p rest :
  Forall (fun p => is_absolute p = false) parts -> is_absolute p = true ->
  fold_left (rebase_step is_absolute) (parts ++ p :: rest) (cwd, rel) = fold_left (rebase_step is_absolute) rest (p, []).
Proof.
  intros H Hp. rewrite fold_left_app, rebase_relative by done. cbn [fold_left].
  unfold rebase_step at 2. by rewrite Hp.
Qed.

Lemma rebase_base parts cwd base rel :
  is_absolute cwd = true -> fold_left (rebase_step is_absolute) parts (cwd, []) = (base, rel) -> is_absolute base = true.
Proof.
  intros Hc. revert cwd Hc. generalize (@nil bytes).
  induction parts as [|p parts IH]; intros rel0 cwd Hc; cbn [fold_left]; [by intros [= <- _]|].
  unfold rebase_step at 2. destruct (is_absolute p) eqn:E; [by apply IH|]. cbn [fst snd]. by apply IH.
Qed.

(** The base and what follows it take no more room than what there was. *)
Lemma rebase_size parts cwd rel0 base rel :
  fold_left (rebase_step is_absolute) parts (cwd, rel0) = (base, rel) ->
  length base + list_sum (map (fun p => length p + 1) rel) <=
  length cwd + list_sum (map (fun p => length p + 1) rel0) + list_sum (map (fun p => length p + 1) parts).
Proof.
  revert cwd rel0. induction parts as [|p parts IH]; intros cwd rel0; cbn [fold_left]; [intros [= <- <-]; lia|].
  unfold rebase_step at 2. change (list_sum (map ?f (p :: parts))) with (f p + list_sum (map f parts)). cbn beta.
  destruct (is_absolute p).
  - intros H%IH. cbn [map list_sum] in H. change (list_sum []) with 0 in H. lia.
  - cbn [fst snd]. intros H%IH. rewrite map_app, list_sum_app in H. cbn in H. lia.
Qed.
End Rebase.
