(* ===== verification/PathsTheorems.v ===== *)
(** * Path normalisation: what the code computes

    The loop of [normalize_string_generic] computes the resolution of
    [PathsSpec] in one pass over the bytes, with the stack of names written in
    the output buffer, and never writes outside a buffer as long as the path.
    [normalize_string_node] and the joins follow. *)
From Stdlib Require Import ZArith Lia.
From stdpp Require Import base list numbers option.
From S2P Require Import Prelude Strings Paths PathsSpec.
#[local] Open Scope nat_scope.

(** ** Buffers *)

Lemma put_slice_app a b src :
  length src <= length b -> put_slice (a ++ b) (length a) src = Done (a ++ src ++ drop (length src) b).
Proof.
  intros H. apply write_at_Done. split_and!; [lia|len; lia|].
  rewrite Nat2Z.id, take_app_length. f_equal. f_equal.
  rewrite drop_app_ge by lia. f_equal. lia.
Qed.

Lemma put_app a x b y : put (a ++ x :: b) (length a) y = Done (a ++ y :: b).
Proof.
  unfold put. change (write_at ?b ?i [y]) with (put_slice b (length a) [y]).
  rewrite put_slice_app by (cbn; lia). done.
Qed.

Lemma put_0 x b y : put (x :: b) 0 y = Done (y :: b).
Proof. apply (put_app [] x b y). Qed.

Lemma put_1 x0 x b y : put (x0 :: x :: b) 1 y = Done (x0 :: y :: b).
Proof. apply (put_app [x0] x b y). Qed.

Lemma at_app a x b : at_ (a ++ x :: b) (length a) = Done x.
Proof. unfold at_. by rewrite list_lookup_middle. Qed.

(** ** The loop *)

Section Loop.
Context (separator : Z) (is_separator : Z -> bool) (above : bool) (path : bytes).
Context (Hsep : is_separator separator = true) (Hdot : is_separator ch_dot = false).

#[local] Abbreviation render := (render separator).

(** The buffer holds the written form of [st]. *)
Definition Rep (L : nat) (s : NState) (st : Norm) : Prop :=
  wf_norm is_separator above st /\
  (exists rest, n_buf s = render st ++ rest) /\
  buf_i s = length (render st) /\
  dotdot s = length (render (mkNorm (ups st) [])) /\
  length (n_buf s) = L.

(** What has been read leaves room for what is written: more than that behind a
    separator. *)
Definition Room (s : NState) : Prop :=
  r s <= length path /\ buf_i s <= r s /\
  forall k c, r s = S k -> path !! k = Some c -> is_separator c = true -> buf_i s < r s.

Definition at_element (s : NState) : Prop :=
  r s = 0 \/ (exists k c, r s = S k /\ path !! k = Some c /\ is_separator c = true) \/
  ends_at is_separator path (r s) = true.

(** There is room for a separator in front of an element that is not the first. *)
Lemma room_separator s :
  Room s -> at_element s -> ends_at is_separator path (r s) = false -> r s = 0 \/ buf_i s < r s.
Proof.
  intros (_ & _ & Hroom) [?|[(k & c & E1 & E2 & E3)|?]]; [by left|right; by eapply Hroom|congruence].
Qed.

Lemma render_push u ns x :
  render (mkNorm u (x :: ns)) =
  match norm_elements (mkNorm u ns) with [] => x | _ => render (mkNorm u ns) ++ separator :: x end.
Proof. unfold PathsSpec.render. by rewrite norm_elements_push, join_with_snoc. Qed.

Lemma render_up u :
  render (mkNorm (S u) []) =
  match u with O => [ch_dot; ch_dot] | _ => render (mkNorm u []) ++ [separator; ch_dot; ch_dot] end.
Proof. unfold PathsSpec.render. rewrite norm_elements_up, join_with_snoc. by destruct u. Qed.

Lemma render_nil st : wf_norm is_separator above st -> render st = [] -> norm_elements st = [].
Proof. intros H. apply join_with_nil. by eapply norm_elements_nonempty. Qed.

Lemma pop_element_run buf d i j :
  j <= i -> d <= j ->
  (forall k, j < k <= i -> exists c, buf !! k = Some c /\ is_separator c = false) ->
  (j = d \/ exists c, buf !! j = Some c /\ is_separator c = true) ->
  pop_element is_separator buf d i = Done j.
Proof.
  induction i as [|i IH]; intros Hj Hd Hplain Hstop; cbn [pop_element]; [f_equal; lia|].
  destruct (decide (j = S i)) as [->|Hne].
  - case_if; [|done]. destruct Hstop as [E|(c & E & Hc)]; [apply Nat.ltb_lt in Heqb; lia|].
    unfold at_. rewrite E. cbn [obind]. by rewrite Hc.
  - rewrite (proj2 (Nat.ltb_lt _ _)) by lia.
    destruct (Hplain (S i)) as (c & E & Hc); [lia|]. unfold at_. rewrite E. cbn [obind]. rewrite Hc. cbn [negb].
    apply IH; [lia|done| |done]. intros k Hk. apply Hplain. lia.
Qed.

Lemma plain_lookup x k : sep_free is_separator x -> k < length x ->
  exists c, x !! k = Some c /\ is_separator c = false.
Proof.
  intros Hx Hk. destruct (lookup_lt_is_Some_2 x k Hk) as [c E]. exists c. split; [done|].
  by eapply Forall_lookup_1 in E; [|exact Hx].
Qed.

(** What is written ends in a name or [..]. *)
Lemma render_last st :
  wf_norm is_separator above st -> norm_elements st <> [] ->
  exists pre c, render st = pre ++ [c] /\ is_separator c = false.
Proof.
  intros Hwf. apply join_with_last; [by eapply norm_elements_plain|by eapply norm_elements_nonempty].
Qed.

(** [..] behind a name. *)
Lemma dotdot_pop L s u x ns :
  Rep L s (mkNorm u (x :: ns)) ->
  exists s', dotdot_element separator is_separator above 0 s = Done s' /\
    Rep L s' (mkNorm u ns) /\ r s' = r s + 2 /\ buf_i s' <= buf_i s.
Proof.
  intros ((Hn & Hu) & (rest & Eb) & Ei & Ed & EL). cbn [ups names] in *.
  inversion Hn as [|? ? (Hx & Hp & _) Hns]; subst.
  assert (0 < length x) by (destruct x; [done|cbn; lia]).
  assert (Hwf : wf_norm is_separator above (mkNorm u ns)) by (split; done).
  unfold dotdot_element. rewrite render_push in Eb, Ei.
  destruct (norm_elements (mkNorm u ns)) as [|y l] eqn:En.
  - assert (u = 0 /\ ns = []) as [-> ->].
    { apply norm_elements_nil in En. by injection En. }
    change (render (mkNorm 0 [])) with (@nil Z) in *. cbn [length] in Ed.
    rewrite (proj2 (Nat.ltb_lt _ _)) by lia.
    rewrite (pop_element_run _ _ _ 0); [cbn [obind]; eexists; split; [done|]|lia|lia| |lia].
    + unfold Rep. cbn. split_and!; try done; [by eexists|lia].
    + intros k Hk. destruct (plain_lookup x k Hp) as (c & E & Hc); [lia|]. exists c. split; [|done].
      rewrite Eb. by apply lookup_app_l_Some.
  - set (pre := render (mkNorm u ns)) in *. rewrite length_app in Ei. cbn [length] in Ei.
    assert (Hd : dotdot s <= length pre).
    { subst pre. rewrite Ed. unfold PathsSpec.render, norm_elements. cbn [ups names].
      rewrite reverse_nil, app_nil_r. destruct u; [cbn; lia|]. cbn [replicate app join_with].
      rewrite map_app, concat_app. len. lia. }
    rewrite (proj2 (Nat.ltb_lt _ _)) by lia.
    rewrite (pop_element_run _ _ _ (length pre)); [cbn [obind]; eexists; split; [done|]|lia|lia| |].
    + unfold Rep. cbn. split_and!; try done; [|lia]. eexists. rewrite Eb, <- app_assoc. done.
    + intros k Hk. destruct (plain_lookup x (k - length pre - 1) Hp) as (c & E & Hc); [lia|].
      exists c. split; [|done]. rewrite Eb, <- app_assoc. rewrite lookup_app_r by lia.
      replace (k - length pre) with (S (k - length pre - 1)) by lia. cbn. by apply lookup_app_l_Some.
    + right. exists separator. split; [|done]. rewrite Eb, <- app_assoc. by apply list_lookup_middle.
Qed.

(** [..] where there is no name to take away. *)
Lemma dotdot_up L s u :
  length path <= L -> Rep L s (mkNorm u []) -> Room s -> at_element s ->
  ends_at is_separator path (r s) = false -> r s + 2 <= length path ->
  exists s', dotdot_element separator is_separator above 0 s = Done s' /\
    Rep L s' (if above then mkNorm (S u) [] else mkNorm u []) /\ r s' = r s + 2 /\ buf_i s' <= r s'.
Proof.
  intros HL (Hwf & (rest & Eb) & Ei & Ed & EL) (Hr & Hi & Hroom) Hat Hne Hr2. cbn [ups names] in *.
  unfold dotdot_element, Rep. rewrite (proj2 (Nat.ltb_ge _ _)) by lia.
  destruct above; [|eexists; split; [done|]; cbn; split_and!; try done; [by eexists|lia]].
  pose proof (room_separator s (conj Hr (conj Hi Hroom)) Hat Hne) as Hr0.
  rewrite Eb, length_app in EL.
  assert (HwS : wf_norm is_separator true (mkNorm (S u) [])) by (split; [constructor|done]).
  destruct u as [|u].
  - change (render (mkNorm 0 [])) with (@nil Z) in *. cbn [length] in *.
    rewrite (proj2 (Nat.ltb_ge _ _)) by lia. rewrite Eb, Ei.
    destruct rest as [|a [|b rest]]; cbn [length] in EL; [lia|lia|].
    cbn [app Nat.add]. rewrite put_0. cbn [obind]. rewrite put_1. cbn [obind].
    eexists; split; [done|]. cbn [n_buf buf_i dotdot r ups names].
    rewrite render_up. split_and!; try done; [by exists rest|lia].
  - set (pre := render (mkNorm (S u) [])) in *.
    assert (0 < length pre) by (subst pre; rewrite render_up; destruct u; len; lia).
    rewrite (proj2 (Nat.ltb_lt _ _)) by lia. rewrite Eb, Ei.
    destruct rest as [|a [|b [|c rest]]]; cbn [length] in EL; [lia..|].
    rewrite put_app. cbn [obind].
    rewrite (cons_middle separator pre), app_assoc.
    replace (length pre + 1) with (length (pre ++ [separator])) by (len; lia).
    rewrite put_app. cbn [obind].
    replace (length pre + 2) with (length ((pre ++ [separator]) ++ [ch_dot])) by (len; lia).
    rewrite (cons_middle ch_dot), app_assoc, put_app. cbn [obind].
    eexists; split; [done|]. cbn [n_buf buf_i dotdot r ups names].
    rewrite (render_up (S u)). fold pre.
    split_and!; try done; [exists rest; by rewrite <- !app_assoc|len; lia|len; lia|len; lia|lia].
Qed.

(** *** Where an element ends *)

Definition ends_element (rest : bytes) : Prop :=
  match rest with
  | [] => True
  | c :: _ => is_separator c = true
  end.

Lemma element_at p :
  exists e rest, p = e ++ rest /\ sep_free is_separator e /\ ends_element rest /\
    forall st, resolve above st (path_elements is_separator p) =
               resolve above (resolve1 above st e) (path_elements is_separator rest).
Proof.
  destruct (elements_split is_separator p) as (e & rest & -> & He & [(-> & E)|(c & rest' & -> & Hc & E)]).
  - exists e, []. split_and!; try done. intros st. by rewrite E.
  - exists e, (c :: rest'). split_and!; try done. intros st. rewrite E. cbn [path_elements]. by rewrite Hc.
Qed.

Lemma ends_at_element i e rest k :
  drop i path = e ++ rest -> sep_free is_separator e -> ends_element rest -> k <= length e ->
  ends_at is_separator path (i + k) = (k =? length e).
Proof.
  intros Ep He Hr Hk. unfold ends_at. rewrite <- lookup_drop, Ep.
  destruct (decide (k = length e)) as [->|Hne].
  - rewrite Nat.eqb_refl, lookup_app_r, Nat.sub_diag by done. by destruct rest.
  - rewrite (proj2 (Nat.eqb_neq _ _)) by done.
    destruct (plain_lookup e k He) as (c & E & Hc); [lia|]. by rewrite (lookup_app_l_Some _ _ _ _ E).
Qed.

Lemma element_begins i e rest :
  drop i path = e ++ rest -> sep_free is_separator e -> e <> [] -> ends_at is_separator path i = false.
Proof.
  intros Ep He Hne. unfold ends_at. rewrite <- (Nat.add_0_r i), <- lookup_drop, Ep.
  destruct e as [|c e]; [done|]. by inversion He.
Qed.

Lemma skip_element i e rest :
  drop i path = e ++ rest -> sep_free is_separator e -> ends_element rest ->
  skip_while (fun c => negb (is_separator c)) path i = i + length e.
Proof.
  intros Ep He Hr. unfold skip_while. rewrite Ep. f_equal. rewrite prefix_len_app.
  - destruct rest as [|c rest]; [cbn; lia|]. rewrite prefix_len_stop; [lia|]. cbn in Hr. by rewrite Hr.
  - eapply Forall_impl; [|exact He]. by intros c ->.
Qed.

(** A name. *)
Lemma real_element_push L s st e rest :
  length path <= L -> Rep L s st -> Room s -> at_element s ->
  drop (r s) path = e ++ rest -> ends_element rest -> is_name is_separator e ->
  exists s', real_element separator is_separator path 0 s = Done s' /\
    Rep L s' (mkNorm (ups st) (e :: names st)) /\ r s' = r s + length e /\ buf_i s' <= r s'.
Proof.
  intros HL (Hwf & (buf & Eb) & Ei & Ed & EL) (Hr & Hi & Hroom) Hat Ep Hstop Hname.
  pose proof Hname as (He & Hpl & _).
  assert (0 < length e) by (destruct e; [done|cbn; lia]).
  assert (Hlen : r s + length e <= length path).
  { apply (f_equal length) in Ep. rewrite length_drop, length_app in Ep. lia. }
  pose proof (room_separator s (conj Hr (conj Hi Hroom)) Hat (element_begins _ e rest Ep Hpl He)) as Hr0.
  assert (Hwf' : wf_norm is_separator above (mkNorm (ups st) (e :: names st))).
  { destruct Hwf. by split; [constructor|]. }
  assert (Esub : sub path (r s) (r s + length e) = e).
  { unfold sub. rewrite Ep. replace (_ - _) with (length e) by lia. by rewrite take_app_length. }
  rewrite Eb, length_app in EL. unfold real_element.
  destruct st as [u ns]. cbn [ups names] in *.
  pose proof (render_push u ns e) as Erender.
  destruct (norm_elements (mkNorm u ns)) as [|y l] eqn:En.
  - assert (Enil : render (mkNorm u ns) = []) by (unfold PathsSpec.render; by rewrite En).
    rewrite Enil in *. cbn [length app] in *. rewrite (proj2 (Nat.eqb_eq _ _)) by done. cbn [negb andb obind].
    rewrite (skip_element _ e rest) by done. replace (r s + length e - r s) with (length e) by lia. rewrite Esub, Eb, Ei.
    rewrite (put_slice_app [] buf) by (cbn [length]; lia). cbn [obind app].
    eexists; split; [done|]. unfold Rep. cbn [n_buf buf_i dotdot r ups names]. rewrite Erender.
    split_and!; try done; [by eexists|len; lia|lia].
  - set (pre := render (mkNorm u ns)) in *.
    assert (Hpre : exists pre' c, pre = pre' ++ [c] /\ is_separator c = false).
    { apply render_last; [done|]. intros E. by rewrite E in En. }
    destruct Hpre as (pre' & c & Epre & Hc).
    assert (length pre = S (length pre')) by (rewrite Epre; len; lia).
    rewrite (proj2 (Nat.eqb_neq _ _)) by lia. rewrite (proj2 (Nat.ltb_lt _ _)) by lia. cbn [negb andb].
    replace (buf_i s - 1) with (length pre') by lia.
    assert (Eat : at_ (n_buf s) (length pre') = Done c) by (rewrite Eb, Epre, <- app_assoc; apply at_app).
    rewrite Eat. cbn [obind]. rewrite Hc. cbn [negb].
    destruct buf as [|x buf]; [cbn in EL; lia|]. cbn [length] in EL.
    rewrite Eb, Ei, put_app. cbn [obind n_buf buf_i dotdot r].
    rewrite (skip_element _ e rest) by done. replace (r s + length e - r s) with (length e) by lia. rewrite Esub.
    rewrite (cons_middle separator pre), app_assoc.
    replace (length pre + 1) with (length (pre ++ [separator])) by (len; lia).
    rewrite put_slice_app by lia. cbn [obind].
    eexists; split; [done|]. unfold Rep. cbn [n_buf buf_i dotdot r ups names]. rewrite Erender.
    split_and!; try done; [eexists; by rewrite <- !app_assoc|len; lia|len; lia|len; lia].
Qed.

(** *** Every round *)

Lemma Rep_advance L s st k : Rep L (advance s k) st <-> Rep L s st.
Proof. done. Qed.

(** A round that ends behind an element. *)
Lemma Room_after s e rest :
  drop (r s) path = e ++ rest -> sep_free is_separator e -> e <> [] -> ends_element rest ->
  forall s', r s' = r s + length e -> buf_i s' <= r s' -> Room s' /\ at_element s' /\ drop (r s') path = rest.
Proof.
  intros Ep He Hne Hstop s' Er Hi. assert (0 < length e) by (destruct e; [done|cbn; lia]).
  assert (Hlen : r s + length e <= length path).
  { apply (f_equal length) in Ep. rewrite length_drop, length_app in Ep. lia. }
  split_and!.
  - split_and!; [lia|done|]. intros k c Ek E Hc.
    destruct (plain_lookup e (length e - 1) He) as (c' & E' & Hc'); [lia|].
    assert (path !! k = Some c') as E2; [|congruence].
    replace k with (r s + (length e - 1)) by lia. rewrite <- lookup_drop, Ep. by apply lookup_app_l_Some.
  - right; right. rewrite Er, (ends_at_element _ e rest) by done. by apply Nat.eqb_eq.
  - rewrite Er, <- drop_drop, Ep. apply drop_app_length.
Qed.

Lemma dot_element i e rest :
  drop i path = e ++ rest -> sep_free is_separator e -> e <> [] -> ends_element rest ->
  forall c, path !! i = Some c ->
  (Z.eqb c ch_dot && ends_at is_separator path (i + 1)) = bool_decide (e = [ch_dot]).
Proof.
  intros Ep He Hne Hstop c Ec. destruct e as [|c' e]; [done|].
  assert (c' = c) as ->.
  { rewrite <- (Nat.add_0_r i), <- lookup_drop, Ep in Ec. by injection Ec. }
  rewrite (ends_at_element _ (c :: e) rest) by (done || cbn; lia). cbn [length].
  destruct (Z.eqb_spec c ch_dot) as [->|Hc]; cbn [andb]; [|symmetry; apply bool_decide_eq_false; congruence].
  destruct e; [done|]. by symmetry; apply bool_decide_eq_false.
Qed.

Lemma dotdot_element_at i e rest :
  drop i path = e ++ rest -> sep_free is_separator e -> e <> [] -> ends_element rest ->
  (is_dotdot (drop i path) && ends_at is_separator path (i + 2)) = bool_decide (e = [ch_dot; ch_dot]).
Proof.
  intros Ep He Hne Hstop. destruct e as [|c1 [|c2 e]]; [done| |].
  - rewrite (bool_decide_eq_false_2 ([c1] = _)) by done. apply andb_false_iff. left.
    rewrite Ep. unfold is_dotdot, test_at. destruct rest as [|c rest]; [done|].
    cbn [app lookup list_lookup]. destruct (Z.eqb_spec ch_dot c) as [<-|_]; [cbn in Hstop; congruence|].
    by rewrite andb_false_r.
  - rewrite (ends_at_element _ (c1 :: c2 :: e) rest) by (done || cbn; lia).
    rewrite Ep. unfold is_dotdot, test_at. cbn [app lookup list_lookup length].
    destruct (Z.eqb_spec ch_dot c1) as [<-|]; [|by rewrite andb_false_r, bool_decide_eq_false_2 by congruence].
    destruct (Z.eqb_spec ch_dot c2) as [<-|]; [|by rewrite andb_false_r, bool_decide_eq_false_2 by congruence].
    destruct e; [done|]. by rewrite bool_decide_eq_false_2, andb_false_r by done.
Qed.

Lemma normalize_loop_correct fuel L s st :
  length path <= L -> Rep L s st -> Room s -> at_element s -> length path - r s < fuel ->
  exists s', normalize_loop separator is_separator above path 0 fuel s = Done s' /\
    Rep L s' (resolve above st (path_elements is_separator (drop (r s) path))) /\
    Room s' /\ r s' = length path.
Proof.
  intros HL. revert s st. induction fuel as [|fuel IH]; intros s st HR Hroom Hat Hfuel; [lia|].
  pose proof Hroom as (Hr & Hi & _). cbn [normalize_loop].
  destruct (path !! r s) as [c|] eqn:Ec.
  2: { apply lookup_ge_None in Ec. rewrite drop_ge by done. exists s. split_and!; try done. lia. }
  pose proof (lookup_lt_Some _ _ _ Ec) as Hlt.
  destruct (is_separator c) eqn:Hc.
  { destruct (IH (advance s 1) st) as (s' & E & HR' & Hroom' & Hend); [done| | |cbn; lia|].
    - split_and!; cbn; [lia..|]. intros k c' Ek E' Hc'. lia.
    - right; left. exists (r s), c. split_and!; [cbn; lia|done..].
    - exists s'. split_and!; try done. rewrite (drop_S path c (r s) Ec). cbn [path_elements]. rewrite Hc.
      cbn [advance r] in HR'. by rewrite Nat.add_1_r in HR'. }
  destruct (element_at (drop (r s) path)) as (e & rest & Ep & He & Hstop & Eres).
  assert (Hne : e <> []).
  { intros ->. cbn in Ep. rewrite (drop_S path c (r s) Ec) in Ep. subst rest. cbn in Hstop. congruence. }
  assert (0 < length e) by (destruct e; [done|cbn; lia]).
  assert (Hlen : r s + length e <= length path).
  { apply (f_equal length) in Ep. rewrite length_drop, length_app in Ep. lia. }
  pose proof (Room_after s e rest Ep He Hne Hstop) as Hafter.
  assert (Hgo : forall s1, Rep L s1 (resolve1 above st e) -> r s1 = r s + length e -> buf_i s1 <= r s1 ->
    exists s', normalize_loop separator is_separator above path 0 fuel s1 = Done s' /\
    Rep L s' (resolve above st (path_elements is_separator (drop (r s) path))) /\
    Room s' /\ r s' = length path).
  { intros s1 HR1 Hr1 Hi1. destruct (Hafter s1 Hr1 Hi1) as (Hroom1 & Hat1 & Hd1).
    rewrite Eres, <- Hd1. apply IH; [done..|lia]. }
  rewrite (dot_element _ e rest) by done. rewrite (dotdot_element_at _ e rest) by done.
  destruct (bool_decide_reflect (e = [ch_dot])) as [->|Hd1].
  { apply Hgo; [done|done|cbn; lia]. }
  destruct (bool_decide_reflect (e = [ch_dot; ch_dot])) as [->|Hd2].
  - destruct st as [u [|x ns]].
    + destruct (dotdot_up L s u) as (s1 & E1 & HR1 & Hr1 & Hi1); try done; [by eapply element_begins|].
      rewrite E1. cbn [obind]. apply Hgo; [|done..]. unfold resolve1. cbn. by destruct above.
    + destruct (dotdot_pop L s u x ns HR) as (s1 & E1 & HR1 & Hr1 & Hi1).
      rewrite E1. cbn [obind]. apply Hgo; [done|done|lia].
  - destruct (real_element_push L s st e rest) as (s1 & E1 & HR1 & Hr1 & Hi1); try done.
    rewrite E1. cbn [obind]. apply Hgo; [|done..]. unfold resolve1. by rewrite !bool_decide_false by done.
Qed.

Lemma last_lookup (l : bytes) : list.last l = l !! (length l - 1).
Proof. rewrite last_lookup. f_equal. lia. Qed.

(** The separator the path ended in. *)
Lemma trailing_step L preserve s st :
  length path <= L -> Rep L s st -> Room s -> r s = length path ->
  exists rest,
    (if preserve && (0 <? buf_i s) then
       let! last := at_ path (length path - 1) in
       let! c := at_ (n_buf s) (buf_i s - 1) in
       if Z.eqb last separator && negb (Z.eqb c separator) then
         let! b := put (n_buf s) (buf_i s) separator in Done (b, buf_i s + 1)
       else Done (n_buf s, buf_i s)
     else Done (n_buf s, buf_i s)) =
    Done (with_trailing preserve separator path (render st) ++ rest,
          length (with_trailing preserve separator path (render st))) /\
    length (with_trailing preserve separator path (render st) ++ rest) = L /\
    length (with_trailing preserve separator path (render st)) <= length path.
Proof.
  intros HL (Hwf & (buf & Eb) & Ei & _ & EL) (_ & Hi & Hroom) Hr. unfold with_trailing.
  destruct preserve; cbn [andb]; [|rewrite app_nil_r; exists buf; rewrite <- Eb, <- Ei; split_and!; done || lia].
  destruct (Nat.ltb_spec 0 (buf_i s)) as [Hpos|Hz].
  2: { rewrite (proj2 (Nat.eqb_eq _ _)) by lia. cbn [negb andb].
       rewrite app_nil_r; exists buf; rewrite <- Eb, <- Ei; split_and!; done || lia. }
  rewrite (proj2 (Nat.eqb_neq _ _)) by lia. cbn [negb andb].
  destruct (at_lt path (length path - 1)) as (last & El & Eat); [lia|]. rewrite Eat. cbn [obind].
  destruct (render_last st Hwf) as (pre & c & Er & Hc).
  { intros E. unfold PathsSpec.render in Ei. rewrite E in Ei. cbn in Ei. lia. }
  assert (Ec : at_ (n_buf s) (buf_i s - 1) = Done c).
  { replace (buf_i s - 1) with (length pre) by (rewrite Ei, Er; len; lia).
    rewrite Eb, Er, <- app_assoc. apply at_app. }
  rewrite Ec. cbn [obind]. destruct (Z.eqb_spec c separator) as [->|_]; [congruence|]. rewrite andb_true_r.
  rewrite last_lookup, El. destruct (Z.eqb_spec last separator) as [->|Hne].
  - rewrite bool_decide_eq_true_2 by done.
    assert (buf_i s < r s) by (apply (Hroom (length path - 1) separator); [lia|done..]).
    destruct buf as [|x buf]; [rewrite Eb, app_nil_r in EL; lia|].
    rewrite Eb, Ei, put_app. cbn [obind]. exists buf. rewrite <- !app_assoc. rewrite Eb in EL.
    split_and!; [repeat f_equal; len; lia|revert EL; len; lia|len; lia].
  - rewrite bool_decide_eq_false_2 by congruence. rewrite app_nil_r.
    exists buf; rewrite <- Eb, <- Ei; split_and!; done || lia.
Qed.
End Loop.

(** ** Normalising a string *)

Section Normalize.
Context (separator : Z) (is_separator : Z -> bool).
Context (Hsep : is_separator separator = true) (Hdot : is_separator ch_dot = false).
Context (Hposix : separator <> SEP_WINDOWS).

Lemma loop_from_start above path buf :
  length path <= length buf ->
  exists s, normalize_loop separator is_separator above path 0 (S (length path)) (mkN buf 0 0 0) = Done s /\
    Rep separator is_separator above (length buf) s (resolve above norm_root (path_elements is_separator path)) /\
    Room is_separator path s /\ r s = length path.
Proof.
  intros Hlen.
  apply (normalize_loop_correct separator is_separator above path Hsep Hdot _ (length buf) (mkN buf 0 0 0) norm_root);
    [done| | |by left|cbn; lia].
  - split_and!; [apply wf_norm_root|by exists buf|done..].
  - split_and!; cbn; lia.
Qed.

(** The elements that are left are not longer than the path, and shorter than
    a path that ends in a separator. *)
Lemma core_length above path c :
  list.last path = Some c -> is_separator c = true ->
  length (render separator (resolve above norm_root (path_elements is_separator path))) < length path.
Proof.
  intros El Hc. destruct (loop_from_start above path path) as (s & _ & (_ & _ & Ei & _) & (_ & _ & Hroom) & Hr); [done|].
  rewrite last_lookup in El. pose proof (lookup_lt_Some _ _ _ El).
  rewrite <- Ei, <- Hr. apply (Hroom (length path - 1) c); [lia|done..].
Qed.

Lemma normalize_tz_correct (above preserve zero_terminate add_nt_prefix : bool) (path buf : bytes) :
  let out := normalized above preserve separator is_separator path in
  length path + (if zero_terminate then 1 else 0) <= length buf ->
  exists rest,
    normalize_string_generic_tz above preserve zero_terminate add_nt_prefix path buf separator is_separator
      = Done (out ++ rest, length out) /\
    length (out ++ rest) = length buf /\ length out <= length path /\
    (zero_terminate = true -> head rest = Some 0%Z).
Proof.
  intros out Hlen. unfold normalize_string_generic_tz.
  rewrite (proj2 (Z.eqb_neq _ _)) by done. cbn [obind only_volume p_buf p_buf_i p_dotdot path_begin andb].
  destruct (loop_from_start above path buf) as (s & E & HR & Hroom & Hr); [lia|].
  rewrite E. cbn [obind].
  destruct (trailing_step separator is_separator above path Hsep Hdot (length buf) preserve s
    (resolve above norm_root (path_elements is_separator path))) as (rest & Et & EL & Ht); [lia|done..|].
  rewrite Et. cbn [obind]. change (with_trailing _ _ _ _) with out in *.
  destruct zero_terminate; [|by exists rest].
  destruct rest as [|x rest]; [rewrite app_nil_r in EL; lia|].
  rewrite put_app. cbn [obind]. exists (0%Z :: rest). split_and!; try done. revert EL. len. lia.
Qed.

Lemma normalize_correct above preserve path buf :
  let out := normalized above preserve separator is_separator path in
  length path <= length buf ->
  exists rest,
    normalize_string_generic above preserve path buf separator is_separator = Done (out ++ rest, length out) /\
    length (out ++ rest) = length buf /\ length out <= length path.
Proof.
  intros out Hlen. unfold normalize_string_generic.
  destruct (normalize_tz_correct above preserve false false path buf) as (rest & E & EL & Ho & _); [lia|].
  by exists rest.
Qed.

Lemma normalized_idempotent above preserve path :
  normalized above preserve separator is_separator (normalized above preserve separator is_separator path) =
  normalized above preserve separator is_separator path.
Proof.
  set (st := resolve above norm_root (path_elements is_separator path)).
  change (normalized above preserve separator is_separator path)
    with (with_trailing preserve separator path (render separator st)).
  unfold normalized.
  assert (Hwf : wf_norm is_separator above st) by apply path_wf.
  rewrite (normalized_elements above preserve separator is_separator path st) by done.
  unfold with_trailing. f_equal.
  destruct preserve; [|done]. cbn [andb].
  destruct (decide (norm_elements st = [])) as [E|E]; [by unfold render; rewrite E|].
  destruct (render_last separator is_separator above Hdot st Hwf E) as (pre & c & Er & Hc).
  destruct (negb (length (render separator st) =? 0)) eqn:En; cbn [andb]; [|done].
  destruct (bool_decide (list.last path = Some separator)) eqn:El.
  - by rewrite last_snoc, bool_decide_eq_true_2.
  - rewrite app_nil_r, Er, last_snoc. by rewrite bool_decide_eq_false_2 by congruence.
Qed.
End Normalize.

(** ** [normalize_string_node] and [join_string_buf] *)

Lemma index_range_from (l : bytes) k : k <= length l -> index_range l (Z.of_nat k) (Z.of_nat (length l)) = Done (drop k l).
Proof.
  intros H. unfold index_range, get_range.
  rewrite (proj2 (Z.leb_le _ _)) by lia. rewrite (proj2 (Z.leb_le _ _)) by lia. rewrite Z.leb_refl. cbn [andb].
  rewrite !Nat2Z.id. unfold sub. rewrite take_ge by (len; lia). done.
Qed.

(** The result is the slice of [n] bytes of the buffer that begins at [i]. *)
Definition yields (x : outcome (bytes * nat * nat)) (out : bytes) : Prop :=
  exists b i n, x = Done (b, i, n) /\ n = length out /\ take n (drop i b) = out.

Lemma yields_at b i n pre out rest :
  b = pre ++ out ++ rest -> i = length pre -> n = length out -> yields (Done (b, i, n)) out.
Proof.
  intros -> -> ->. exists (pre ++ out ++ rest), (length pre), (length out).
  rewrite drop_app_length, take_app_length. done.
Qed.

Lemma is_separator_sep P : Platform_is_separator P (Platform_separator P) = true.
Proof. by destruct P. Qed.

Lemma is_separator_dot P : Platform_is_separator P ch_dot = false.
Proof. by destruct P. Qed.

Section Node.
Context (P : Platform) (HP : P = Loose \/ P = Posix).

Lemma node_separator : Platform_separator P = SEP_POSIX.
Proof. by destruct HP as [->| ->]. Qed.

Lemma node_sep : Platform_is_separator P SEP_POSIX = true.
Proof. rewrite <- node_separator. apply is_separator_sep. Qed.

Lemma node_offset : match P with Windows => 0 | _ => 1 end = 1.
Proof. by destruct HP as [->| ->]. Qed.

(** The end of [normalize_string_node], behind a path that has elements. *)
Lemma node_finish (abs : bool) b0 core tl rest :
  yields (if abs then
            match P with
            | Windows => Done (b0 :: core ++ tl ++ rest, 1, length (core ++ tl))
            | _ => let! b := put (b0 :: core ++ tl ++ rest) 0 SEP_POSIX in Done (b, 0, length (core ++ tl) + 1)
            end
          else Done (b0 :: core ++ tl ++ rest, 1, length (core ++ tl)))
    ((if abs then [SEP_POSIX] else []) ++ core ++ tl).
Proof.
  destruct abs; [|by eapply (yields_at _ _ _ [b0] _ rest); [cbn; rewrite <- app_assoc|..]].
  destruct HP as [->| ->]; rewrite put_0;
    (eapply (yields_at _ _ _ [] _ rest); [cbn; by rewrite <- app_assoc|done|cbn; lia]).
Qed.

Lemma normalize_string_node_ok str buf :
  length str + 1 <= length buf ->
  yields (normalize_string_node P str buf)
    (node_normalized SEP_POSIX (Platform_is_separator P) (Platform_is_absolute P str) str).
Proof.
  intros Hlen. destruct buf as [|b0 buf]; [cbn in Hlen; lia|]. cbn [length] in Hlen.
  unfold normalize_string_node. destruct (Nat.eqb_spec (length str) 0) as [E|Hne].
  { destruct str; [|done]. rewrite put_0. cbn [obind].
    replace (node_normalized _ _ _ _) with [ch_dot]; [by eapply (yields_at _ _ _ [] _ buf)|].
    by destruct HP as [->| ->]. }
  destruct (at_lt str (length str - 1)) as (last & El & Eat); [lia|]. rewrite Eat. cbn [obind].
  rewrite node_offset, node_separator.
  rewrite index_range_from by (cbn; lia). cbn [obind].
  change (drop 1 (b0 :: buf)) with buf. change (take 1 (b0 :: buf)) with [b0].
  set (abs := Platform_is_absolute P str). set (sepf := Platform_is_separator P).
  destruct (normalize_correct SEP_POSIX sepf node_sep (is_separator_dot P) ltac:(done) (negb abs) false str buf)
    as (rest & E & EL & Ho); [lia|]. rewrite E. cbn [obind]. clear E.
  pose proof (core_length SEP_POSIX sepf node_sep (is_separator_dot P) (negb abs) str last) as Hshort.
  unfold node_normalized, normalized, with_trailing in *. cbn [andb] in *. rewrite app_nil_r in *.
  set (st := resolve (negb abs) norm_root (path_elements sepf str)) in *.
  assert (Hwf : wf_norm sepf (negb abs) st) by apply path_wf.
  rewrite last_lookup, El in *. cbn [app].
  destruct (decide (norm_elements st = [])) as [En|En].
  - assert (Er : render SEP_POSIX st = []) by (unfold render; by rewrite En). rewrite Er in *. cbn [length app] in *.
    cbn [Nat.eqb node_form]. rewrite !put_0. cbn [obind].
    destruct abs; [by eapply (yields_at _ _ _ [] [_])|].
    destruct (sepf last); [|by eapply (yields_at _ _ _ [] [_])].
    replace (Platform_trailing_separator P) with (ch_dot, SEP_POSIX) by (by destruct HP as [->| ->]).
    destruct rest as [|b1 rest]; [cbn in EL; lia|].
    rewrite put_0. cbn [obind]. rewrite put_1. by eapply (yields_at _ _ _ [] [_; _]).
  - destruct (render_last SEP_POSIX sepf (negb abs) (is_separator_dot P) st Hwf En) as (pre & c & Er & Hc).
    set (core := render SEP_POSIX st) in *.
    assert (Hl : length core = S (length pre)) by (rewrite Er; len; lia).
    rewrite (proj2 (Nat.eqb_neq _ _)) by lia.
    replace (node_form SEP_POSIX abs (sepf last) core)
      with ((if abs then [SEP_POSIX] else []) ++ core ++ (if sepf last then [SEP_POSIX] else []))
      by (unfold node_form; destruct core; [cbn in Hl; lia|done]).
    destruct (sepf last) eqn:Esl; cbn [obind].
    + assert (Ecat : at_ (b0 :: core ++ rest) (1 + length core - 1) = Done c).
      { replace (1 + length core - 1) with (length (b0 :: pre)) by (cbn; lia).
        rewrite Er, <- app_assoc. apply (at_app (b0 :: pre) c rest). }
      rewrite Ecat. cbn [obind]. fold sepf. rewrite Hc. cbn [negb].
      specialize (Hshort eq_refl eq_refl).
      destruct rest as [|x rest]; [rewrite app_nil_r in EL; lia|].
      change (1 + length core) with (length (b0 :: core)). rewrite app_comm_cons, put_app. cbn [obind app].
      replace (length core + 1) with (length (core ++ [SEP_POSIX])) by (len; lia).
      apply (node_finish abs b0 core [SEP_POSIX] rest).
    + pose proof (node_finish abs b0 core [] rest) as Hfin. cbn [app] in Hfin. rewrite app_nil_r in *. exact Hfin.
Qed.
End Node.

(** [join_string_buf] on POSIX, with room for the joined parts and one byte: the
    elements of all the parts in order, resolved from the root if the first byte
    is a slash and otherwise with the [..] that lead above the start kept. *)
Lemma join_string_buf_ok buf parts :
  length (concat_parts SEP_POSIX parts) + 1 <= length buf ->
  yields (join_string_buf Posix buf parts) (node_joined parts).
Proof.
  intros H. rewrite <- node_joined_normalized.
  assert (Hn := normalize_string_node_ok Posix (or_intror eq_refl) (concat_parts SEP_POSIX parts) buf H).
  unfold join_string_buf. change (Platform_separator Posix) with SEP_POSIX.
  destruct (concat_parts SEP_POSIX parts); exact Hn.
Qed.

(** ** [join_abs_string_buf] *)

Lemma part_len_small n : (Z.of_nat n < two16)%Z -> Z.to_nat (Z.of_nat n mod two16) = n.
Proof. intros H. rewrite Z.mod_small by lia. lia. Qed.

Lemma last_absolute_rebase P fuel cwd parts part_i :
  (Z.of_nat (length parts) < two16)%Z -> part_i <= length parts -> length parts - part_i < fuel ->
  Forall (fun p => Platform_is_absolute P p = false) (take part_i parts) ->
  last_absolute fuel P cwd parts part_i (length parts) = Done (rebase (Platform_is_absolute P) cwd parts).
Proof.
  revert cwd parts part_i. induction fuel as [|fuel IH]; intros cwd parts part_i Hlen Hi Hfuel Hrel; [lia|].
  cbn [last_absolute]. destruct (Nat.ltb_spec part_i (length parts)) as [Hlt|Hge].
  - destruct (lookup_lt_is_Some_2 parts part_i Hlt) as [p Ep]. rewrite Ep.
    pose proof (take_drop_middle parts part_i p Ep) as Esplit.
    destruct (Platform_is_absolute P p) eqn:Ea.
    + rewrite part_len_small by (len; lia). rewrite Nat.add_1_r.
      rewrite IH; [|len; lia|lia|len; lia|constructor]. unfold rebase. f_equal.
      rewrite <- Esplit at 2. by rewrite rebase_absolute.
    + apply IH; [lia..|]. rewrite Nat.add_1_r, (take_S_r parts part_i p) by done.
      apply Forall_app. split; [done|by repeat constructor].
  - rewrite take_ge in Hrel by lia. unfold rebase. by rewrite rebase_relative.
Qed.

Section JoinAbs.
Context (cwd : bytes) (parts : list bytes).
Context (Hcwd : head cwd = Some SEP_POSIX) (Hparts : parts <> []) (Hcount : (Z.of_nat (length parts) < two16)%Z).

#[local] Abbreviation glue lem :=
  (lem SEP_POSIX (append_step SEP_POSIX) (fun _ => eq_refl) (append_step_glued SEP_POSIX)).

Lemma abs_joined_temp :
  exists rest base rel,
    rebase (Platform_is_absolute Posix) cwd parts = (base, rel) /\
    append_parts SEP_POSIX base rel = SEP_POSIX :: rest /\
    abs_joined cwd parts = SEP_POSIX :: normalized false true SEP_POSIX is_sep_any rest /\
    S (length rest) <= join_abs_needed (length cwd) parts - 2.
Proof.
  unfold abs_joined. destruct (rebase _ cwd parts) as [base rel] eqn:Er.
  assert (Hb : Platform_is_absolute Posix base = true).
  { eapply rebase_base; [|exact Er]. rewrite is_absolute_posix. by apply bool_decide_eq_true_2. }
  rewrite is_absolute_posix in Hb. apply bool_decide_eq_true_1 in Hb.
  destruct base as [|c base]; [done|]. injection Hb as ->.
  destruct (glue glue_prefix rel (SEP_POSIX :: base)) as (k & Ek).
  pose proof (glue glue_last rel (SEP_POSIX :: base)) as El.
  pose proof (glue glue_length rel (SEP_POSIX :: base)) as EL.
  pose proof (rebase_size _ _ _ _ _ _ Er) as Hs. cbn [map] in Hs. change (list_sum []) with 0 in Hs.
  exists (base ++ k), (SEP_POSIX :: base), rel. split_and!; [done|exact Ek| |].
  - f_equal. unfold normalized. rewrite <- (resolve_sep is_sep_any false SEP_POSIX) by done.
    change (SEP_POSIX :: base ++ k) with ((SEP_POSIX :: base) ++ k). rewrite <- Ek.
    rewrite (glue_resolve SEP_POSIX is_sep_any eq_refl (append_step SEP_POSIX) (fun _ => eq_refl) (append_step_glued SEP_POSIX)).
    cbn [map concat]. set (core := render _ _).
    assert (Hlast : core = [] \/ list.last (SEP_POSIX :: base ++ k) = list.last (base ++ k)).
    { destruct (base ++ k) as [|x l] eqn:Ebk; [left|right; by rewrite last_cons_cons].
      subst core. rewrite <- (glue_resolve SEP_POSIX is_sep_any eq_refl (append_step SEP_POSIX) (fun _ => eq_refl) (append_step_glued SEP_POSIX)).
      rewrite Ek. change ((SEP_POSIX :: base) ++ k) with (SEP_POSIX :: base ++ k). by rewrite Ebk. }
    unfold with_trailing. f_equal.
    destruct Hlast as [->|Hlast]; [done|].
    rewrite <- Hlast. change ((SEP_POSIX :: base) ++ concat rel) with (SEP_POSIX :: base ++ concat rel) in *.
    change (SEP_POSIX :: base ++ k) with ((SEP_POSIX :: base) ++ k). rewrite <- Ek. by rewrite El.
  - rewrite Ek in EL. change ((SEP_POSIX :: base) ++ k) with (SEP_POSIX :: base ++ k) in EL. cbn [length] in *.
    unfold join_abs_needed. lia.
Qed.

Lemma abs_joined_length : length (abs_joined cwd parts) <= join_abs_needed (length cwd) parts - 2.
Proof.
  destruct abs_joined_temp as (rest & base & rel & _ & _ & -> & Hl).
  destruct (normalize_correct SEP_POSIX is_sep_any eq_refl eq_refl ltac:(discriminate) false true rest rest)
    as (_ & _ & _ & H); [done|]. cbn [length]. lia.
Qed.

Lemma join_abs_ok sentinel buf :
  join_abs_needed (length cwd) parts <= length buf ->
  exists rest,
    join_abs_string_buf_t sentinel Posix cwd buf parts
      = Done (InBuf (abs_joined cwd parts ++ rest) (length (abs_joined cwd parts))) /\
    length (abs_joined cwd parts ++ rest) = length buf /\
    (sentinel = true -> head rest = Some 0%Z).
Proof.
  intros Hbuf. assert (Hneed : 2 <= join_abs_needed (length cwd) parts) by (unfold join_abs_needed; lia).
  destruct buf as [|b0 buf]; [cbn in Hbuf; lia|]. destruct buf as [|b1 buf]; [cbn in Hbuf; lia|].
  unfold join_abs_string_buf_t. destruct parts as [|p ps] eqn:Eparts; [done|]. rewrite <- Eparts in *.
  destruct (bool_decide_reflect (parts = [[SEP_POSIX]])) as [E1|_].
  - rewrite E1. change (abs_joined cwd [[SEP_POSIX]]) with [SEP_POSIX]. rewrite put_0. cbn [obind].
    destruct sentinel; [rewrite put_1; cbn [obind]; by exists (0%Z :: buf)|by exists (b1 :: buf)].
  - rewrite part_len_small by done.
    rewrite last_absolute_rebase by (lia || constructor). cbn [obind].
    destruct abs_joined_temp as (rest & base & rel & -> & Et & -> & Hl).
    cbn [obind]. change (Platform_separator Posix) with SEP_POSIX. rewrite Et.
    change (leading_separator_index Posix (SEP_POSIX :: rest)) with (Some 0).
    cbv beta iota zeta. change (take (0 + 1) (SEP_POSIX :: rest)) with [SEP_POSIX]. change (drop (0 + 1) (SEP_POSIX :: rest)) with rest.
    cbn [app length]. change (put_slice (b0 :: b1 :: buf) 0 [SEP_POSIX]) with (put (b0 :: b1 :: buf) 0 SEP_POSIX).
    rewrite put_0. cbn [obind].
    change (S (length rest)) with (length (SEP_POSIX :: rest)). rewrite index_range_from by (cbn; lia). cbn [obind].
    change (S (S (length buf))) with (length (SEP_POSIX :: b1 :: buf)). rewrite index_range_from by (cbn; lia). cbn [obind].
    change (drop 1 (SEP_POSIX :: rest)) with rest. change (drop 1 (SEP_POSIX :: b1 :: buf)) with (b1 :: buf).
    change (take 1 (SEP_POSIX :: b1 :: buf)) with [SEP_POSIX]. cbn [normalize_string_buf].
    destruct (normalize_correct SEP_POSIX is_sep_any eq_refl eq_refl ltac:(discriminate) false true rest (b1 :: buf))
      as (tail & E & EL & Ho); [cbn [length] in *; lia|].
    rewrite E. cbn [obind]. set (out := normalized false true SEP_POSIX is_sep_any rest) in *.
    change ([SEP_POSIX] ++ out ++ tail) with ((SEP_POSIX :: out) ++ tail).
    replace (length out + 1) with (length (SEP_POSIX :: out)) by (cbn; lia).
    destruct sentinel; [|exists tail; split_and!; [done|cbn in *; lia|done]].
    destruct tail as [|x tail]; [rewrite app_nil_r in EL; cbn [length] in *; lia|].
    rewrite put_app. cbn [obind]. exists (0%Z :: tail). split_and!; [done|revert EL; len; cbn; lia|done].
Qed.
End JoinAbs.

(** ** Parts of a path *)

(** Every path is separators behind a name behind what ends in a separator. *)
Lemma path_split_last path :
  exists pre e seps,
    path = pre ++ e ++ seps /\ sep_free is_sep_any e /\ Forall (fun c => is_sep_any c = true) seps /\
    (pre = [] \/ exists q c, pre = q ++ [c] /\ is_sep_any c = true) /\ (e = [] -> pre = []).
Proof.
  induction path as [|c path IH] using rev_ind; [exists [], [], []; split_and!; [done|constructor|constructor|by left|done]|].
  destruct IH as (pre & e & seps & -> & He & Hs & Hp & Hn).
  destruct (is_sep_any c) eqn:Ec.
  - exists pre, e, (seps ++ [c]). split_and!; try done; [by rewrite <- !app_assoc|].
    apply Forall_app. split; [done|by repeat constructor].
  - destruct seps as [|s seps _] using rev_ind.
    + exists pre, (e ++ [c]), []. rewrite !app_nil_r, <- app_assoc. split_and!; try done.
      * apply Forall_app. split; [done|by repeat constructor].
      * by intros [_ ?]%app_eq_nil.
    + apply Forall_app in Hs as [_ Hs]. inversion Hs; subst.
      exists (pre ++ e ++ seps ++ [s]), [c], []. split_and!; [by rewrite <- ?app_assoc|by repeat constructor|constructor| |done].
      right. exists (pre ++ e ++ seps), s. by rewrite <- !app_assoc.
Qed.

Lemma elements_seps is_separator seps :
  Forall (fun c => is_separator c = true) seps -> path_elements is_separator seps = replicate (S (length seps)) [].
Proof. induction 1 as [|c s Hc _ IH]; cbn [path_elements]; [done|]. rewrite Hc, IH. done. Qed.

Definition is_nonempty (e : bytes) : bool := negb (length e =? 0).

Lemma filter_replicate_nil n : List.filter is_nonempty (replicate n []) = [].
Proof. by induction n. Qed.

(** The elements that are not empty end in the name. *)
Lemma last_element pre e seps :
  sep_free is_sep_any e -> Forall (fun c => is_sep_any c = true) seps -> e <> [] ->
  (pre = [] \/ exists q c, pre = q ++ [c] /\ is_sep_any c = true) ->
  list.last (List.filter is_nonempty (path_elements is_sep_any (pre ++ e ++ seps))) = Some e.
Proof.
  intros He Hs Hne Hp.
  assert (E : path_elements is_sep_any (e ++ seps) = e :: replicate (length seps) []).
  { destruct Hs as [|c s Hc Hs]; [by rewrite app_nil_r, elements_plain|].
    rewrite elements_plain_app, elements_seps by done. done. }
  assert (Hf : List.filter is_nonempty (path_elements is_sep_any (e ++ seps)) = [e]).
  { rewrite E. cbn [List.filter]. rewrite filter_replicate_nil. destruct e; done. }
  destruct Hp as [->|(q & c & -> & Hc)]; [cbn [app]; by rewrite Hf|].
  rewrite <- app_assoc. cbn [app]. rewrite elements_app_sep by done.
  rewrite List.filter_app, Hf. apply last_snoc.
Qed.

Lemma basename_end_name pre c seps k :
  is_sep_any c = false -> Forall (fun c => is_sep_any c = true) seps -> k <= length seps ->
  basename_end (pre ++ c :: seps) (length pre + k) = Done (Some (length pre)).
Proof.
  intros Hc Hs. induction k as [|k IH]; intros Hk.
  - rewrite Nat.add_0_r. destruct (length pre) as [|n] eqn:En; cbn [basename_end]; rewrite <- En, at_app; cbn [obind]; by rewrite Hc.
  - rewrite <- plus_n_Sm. cbn [basename_end].
    destruct (lookup_lt_is_Some_2 seps k) as [s Es]; [lia|].
    assert (Eat : at_ (pre ++ c :: seps) (S (length pre + k)) = Done s).
    { unfold at_. rewrite lookup_app_r by lia. replace (S (length pre + k) - length pre) with (S k) by lia. change ((c :: seps) !! S k) with (seps !! k). by rewrite Es. }
    rewrite Eat. cbn [obind]. rewrite (Forall_lookup_1 _ _ _ _ Hs Es). apply IH. lia.
Qed.

Lemma basename_end_seps seps k :
  Forall (fun c => is_sep_any c = true) seps -> k < length seps -> basename_end seps k = Done None.
Proof.
  intros Hs. induction k as [|k IH]; intros Hk; cbn [basename_end];
    (destruct (at_lt seps _ Hk) as (s & Es & ->); cbn [obind]; rewrite (Forall_lookup_1 _ _ _ _ Hs Es)); [done|].
  apply IH. lia.
Qed.

Lemma basename_start_name pre e rest j :
  sep_free is_sep_any e -> (pre = [] \/ exists q c, pre = q ++ [c] /\ is_sep_any c = true) -> j < length e ->
  basename_start (pre ++ e ++ rest) (length pre + j) = Done (length pre).
Proof.
  intros He Hp. induction j as [|j IH]; intros Hj;
    destruct (plain_lookup is_sep_any e _ He Hj) as (c & Ec & Hc);
    assert (Eat : at_ (pre ++ e ++ rest) (length pre + _) = Done c)
      by (unfold at_; rewrite lookup_app_r by lia; rewrite Nat.add_sub', (lookup_app_l_Some _ _ _ _ Ec); done).
  - destruct Hp as [->|(q & s & -> & Hs)]; cbn [length Nat.add] in *; [cbn [basename_start]; rewrite Eat; cbn [obind]; by rewrite Hc|].
    rewrite Nat.add_0_r in *. rewrite length_app in *. cbn [length] in *. rewrite Nat.add_1_r in *.
    cbn [basename_start]. rewrite Eat. cbn [obind]. rewrite Hc. cbn [negb].
    rewrite <- app_assoc. cbn [app]. pose proof (at_app q s (e ++ rest)) as Es.
    destruct (length q) as [|n]; cbn [basename_start]; rewrite Es; cbn [obind]; rewrite Hs; cbn [negb]; f_equal; lia.
  - rewrite <- plus_n_Sm in *. cbn [basename_start]. rewrite Eat. cbn [obind]. rewrite Hc. cbn [negb]. apply IH. lia.
Qed.

(** The name [basename] is to give. *)
Definition base_name (path : bytes) : bytes :=
  match list.last (List.filter is_nonempty (path_elements is_sep_any path)) with
  | Some e => e
  | None => match path with [] => [] | _ => [SEP_POSIX] end
  end.

(** [basename] never panics and gives the last element that is not empty, a
    backslash being a separator too; ["/"] for a path of separators only and
    nothing for the empty path. *)
Lemma basename_ok path : basename path = Done (base_name path).
Proof.
  destruct (path_split_last path) as (pre & e & seps & -> & He & Hs & Hp & Hn). unfold base_name.
  destruct (decide (e = [])) as [->|Hne].
  - rewrite (Hn eq_refl). cbn [app]. rewrite elements_seps by done.
    change (replicate (S (length seps)) []) with (@nil Z :: replicate (length seps) []). cbn [List.filter is_nonempty length Nat.eqb negb].
    rewrite filter_replicate_nil. cbn [list.last]. destruct seps as [|c seps]; [done|].
    unfold basename. by rewrite basename_end_seps by (done || cbn; lia).
  - rewrite last_element by done. unfold basename.
    assert (Hpos : 0 < length e) by (destruct e; [done|cbn; lia]).
    destruct (pre ++ e ++ seps) as [|x l] eqn:E; [apply (f_equal length) in E; revert E; len; lia|]. rewrite <- E. clear x l E.
    assert (Ee : basename_end (pre ++ e ++ seps) (length (pre ++ e ++ seps) - 1) = Done (Some (length pre + (length e - 1)))).
    { destruct e as [|c e _] using rev_ind; [done|]. apply Forall_app in He as [He Hc]. inversion Hc; subst.
      replace (pre ++ (e ++ [c]) ++ seps) with ((pre ++ e) ++ c :: seps) by by rewrite <- !app_assoc.
      replace (length _ - 1) with (length (pre ++ e) + length seps) by (len; lia).
      rewrite basename_end_name by done. do 2 f_equal. len. lia. }
    rewrite Ee. cbn [obind]. rewrite basename_start_name by (done || lia). cbn [obind].
    unfold index_range, get_range.
    rewrite !(proj2 (Z.leb_le _ _)) by (len; lia). cbn [andb]. f_equal.
    unfold sub. rewrite !Nat2Z.id, drop_app_length.
    replace (_ - length pre) with (length e) by lia. by rewrite take_app_length.
Qed.

(** *** [is_parent_or_equal] and [dirname] *)

Lemma prefix_len_seps (t s : bytes) :
  Forall (fun c => is_sep_any c = true) s -> (forall q c, t = q ++ [c] -> is_sep_any c = false) ->
  prefix_len is_sep_any (reverse (t ++ s)) = length s.
Proof.
  intros Hs Ht. rewrite reverse_app, prefix_len_app by by apply Forall_reverse.
  rewrite length_reverse. destruct t as [|c t _] using rev_ind; [cbn; lia|].
  rewrite reverse_app. cbn [app reverse]. rewrite reverse_singleton. cbn [app].
  rewrite prefix_len_stop by (by eapply Ht). lia.
Qed.

Lemma is_parent_or_equal_ok t s child :
  is_bytes t -> is_bytes child ->
  Forall (fun c => is_sep_any c = true) s -> (forall q c, t = q ++ [c] -> is_sep_any c = false) ->
  (is_parent_or_equal (t ++ s) child = Equal <-> child = t) /\
  (is_parent_or_equal (t ++ s) child = Parent <-> exists c rest, is_sep_any c = true /\ child = t ++ c :: rest).
Proof.
  intros Bt Bc Hs Ht. unfold is_parent_or_equal. rewrite prefix_len_seps by done.
  replace (take _ (t ++ s)) with t by (rewrite length_app, Nat.add_sub; by rewrite take_app_length).
  pose proof (starts_with_spec child t Bc Bt) as Hst.
  destruct (starts_with child t); cbn [negb].
  2: { split; split; [done| |done|].
       - intros ->. assert (false = true); [|done]. apply Hst. exists []. by rewrite app_nil_r.
       - intros (c & rest & _ & ->). assert (false = true); [|done]. apply Hst. by eexists. }
  destruct Hst as [Hst _]. destruct (Hst eq_refl) as (k & ->). clear Hst.
  destruct k as [|c k].
  - rewrite app_nil_r, Nat.eqb_refl. split; split; [done..|].
    intros (c & rest & _ & E). apply (f_equal length) in E. revert E. len. lia.
  - rewrite (proj2 (Nat.eqb_neq _ _)) by (len; lia). unfold test_at. rewrite list_lookup_middle by done.
    split; [split; [by destruct (is_sep_any c)|]|].
    + intros E. apply (f_equal length) in E. revert E. len. lia.
    + destruct (is_sep_any c) eqn:Ec; [split; [intros _; by exists c, k|done]|].
      split; [done|]. intros (c' & rest & Hc' & E). apply app_inv_head in E. injection E as -> ->. congruence.
Qed.

Lemma dirname_strip fuel p n :
  p <> [] -> dirname (n + fuel) Posix (p ++ replicate n SEP_POSIX) = dirname fuel Posix p.
Proof.
  intros Hp. induction n as [|n IH]; [by rewrite app_nil_r|].
  rewrite replicate_S_end, app_assoc. cbn [Nat.add dirname].
  rewrite (last_index_of_char_app _ _ []) by apply not_elem_of_nil.
  assert (0 < length p) by (destruct p; [done|cbn; lia]).
  rewrite (proj2 (Nat.eqb_neq _ _)) by (len; lia).
  rewrite (proj2 (Nat.eqb_eq _ _)) by (len; lia).
  replace (length _ - 1) with (length (p ++ replicate n SEP_POSIX)) by (len; lia).
  by rewrite take_app_length, IH.
Qed.

Lemma dirname_posix name n d :
  name <> [] -> SEP_POSIX ∉ name ->
  (forall fuel, n < fuel -> dirname fuel Posix (name ++ replicate n SEP_POSIX) = Done []) /\
  (forall fuel, n < fuel -> dirname fuel Posix (d ++ SEP_POSIX :: name ++ replicate n SEP_POSIX) =
     Done (match d with [] => [SEP_POSIX] | _ => d end)).
Proof.
  intros Hn Hs. assert (0 < length name) by (destruct name; [done|cbn; lia]).
  split; intros fuel Hf; destruct (Nat.lt_exists_pred n fuel Hf) as (k & -> & Hk);
    replace (S k) with (n + S (k - n)) by lia.
  - rewrite dirname_strip by done. cbn [dirname]. by rewrite last_index_of_char_None.
  - rewrite app_comm_cons, app_assoc, dirname_strip by (by destruct d). cbn [dirname].
    rewrite last_index_of_char_app by done.
    destruct d as [|c d]; [done|]. rewrite (proj2 (Nat.eqb_neq _ _)) by done.
    rewrite (proj2 (Nat.eqb_neq _ _)) by (len; lia). by rewrite take_app_length.
Qed.

Lemma dirname_root n fuel : n < fuel -> dirname fuel Posix (SEP_POSIX :: replicate n SEP_POSIX) = Done [SEP_POSIX].
Proof.
  intros Hf. destruct (Nat.lt_exists_pred n fuel Hf) as (k & -> & Hk). replace (S k) with (n + S (k - n)) by lia.
  by apply (dirname_strip (S (k - n)) [SEP_POSIX]).
Qed.

(** *** No element of a join climbs *)

Definition climbs (e : bytes) : Prop := e = [ch_dot] \/ e = [ch_dot; ch_dot].

Lemma with_trailing_elements is_separator above preserve sep path st (Q : bytes -> Prop) :
  is_separator sep = true -> is_separator ch_dot = false -> wf_norm is_separator above st ->
  Q [] -> Forall Q (norm_elements st) ->
  Forall Q (path_elements is_separator (with_trailing preserve sep path (render sep st))).
Proof.
  intros Hs Hd Hwf H0 HQ. unfold with_trailing.
  destruct (decide (norm_elements st = [])) as [E|E].
  - unfold render. rewrite E. cbn. rewrite andb_false_r. by repeat constructor.
  - assert (He : path_elements is_separator (render sep st) = norm_elements st).
    { apply elements_join; [done..|]. by eapply norm_elements_plain. }
    destruct (preserve && _ && _); [|by rewrite app_nil_r, He].
    rewrite elements_app_sep by done. rewrite He. apply Forall_app. split; [done|by repeat constructor].
Qed.

Lemma norm_elements_names is_separator st :
  wf_norm is_separator false st -> Forall (fun e => ~ climbs e) (norm_elements st).
Proof.
  intros (Hn & Hu). unfold norm_elements. rewrite (Hu eq_refl). cbn [replicate app].
  apply Forall_reverse. eapply Forall_impl; [|apply Hn].
  intros e (_ & _ & H1 & H2) [H|H]; congruence.
Qed.

Lemma abs_joined_elements cwd parts :
  head (abs_joined cwd parts) = Some SEP_POSIX /\
  Forall (fun e => ~ climbs e) (path_elements is_sep_any (abs_joined cwd parts)).
Proof.
  unfold abs_joined. destruct (rebase _ cwd parts) as [base rel]. split; [done|].
  cbn [path_elements is_sep_any]. change (is_sep_any SEP_POSIX) with true. cbn [orb].
  assert (Hwf : wf_norm is_sep_any false
    (resolve false norm_root (concat (map (path_elements is_sep_any) (base :: rel))))).
  { apply resolve_wf; [|apply wf_norm_root]. apply Forall_concat, Forall_map, Forall_true.
    intros. apply elements_plain_all. }
  constructor; [by intros [?|?]|].
  eapply with_trailing_elements; [done|done|exact Hwf|by intros [?|?]|by eapply norm_elements_names].
Qed.

Lemma join_abs_checked_ok cwd buf parts :
  head cwd = Some SEP_POSIX -> parts <> [] -> (Z.of_nat (length parts) < two16)%Z ->
  exists r, join_abs_string_buf_checked Posix cwd buf parts = Done r /\
    (r = None <-> length buf < length (abs_joined cwd parts)) /\
    (forall j, r = Some j -> Joined_slice cwd j = abs_joined cwd parts).
Proof.
  intros Hc Hp Hn. pose proof (abs_joined_length cwd parts Hc) as Hl.
  unfold join_abs_string_buf_checked, join_abs_string_buf.
  destruct (Nat.ltb_spec (join_abs_needed (length cwd) parts) (length buf)) as [Hlt|Hge].
  - destruct (join_abs_ok cwd parts Hc Hp Hn false buf) as (rest & E & EL & _); [lia|].
    rewrite E. cbn [obind]. eexists. split; [done|]. split; [split; [done|lia]|].
    intros j [= <-]. cbn [Joined_slice]. apply take_app_length.
  - destruct (join_abs_ok cwd parts Hc Hp Hn false (replicate (join_abs_needed (length cwd) parts) 0%Z))
      as (rest & E & EL & _); [by rewrite length_replicate|].
    rewrite E. cbn [obind Joined_slice]. rewrite take_app_length.
    destruct (Nat.ltb_spec (length buf) (length (abs_joined cwd parts))) as [Hlt|Hle].
    + eexists. split; [done|]. split; [done|]. by intros.
    + rewrite (put_slice_app [] buf) by done. cbn [obind app]. eexists. split; [done|].
      split; [split; [done|lia]|]. intros j [= <-]. cbn [Joined_slice]. apply take_app_length.
Qed.

(** A backslash is a byte of a name on POSIX and [is_separator] says so, yet
    normalising takes it for a separator: ["/"] and ["a\b"] join to ["/a/b"]. *)
Lemma posix_backslash_separates :
  Platform_is_separator Posix SEP_WINDOWS = false /\
  join_abs_string_buf Posix [47]%Z (replicate 12 0%Z) [[97; 92; 98]]%Z
    = Done (InBuf ([47; 97; 47; 98]%Z ++ replicate 8 0%Z) 4).
Proof. vm_compute. done. Qed.

(** An empty directory and empty parts: the slice behind the leading separator
    begins past its end. *)
Lemma join_abs_empty_panics : join_abs_string_buf Posix [] (replicate 12 0%Z) [[]] = Panic.
Proof. vm_compute. done. Qed.

(** ** Properties *)

(** C23: where the separator is not the Windows one, normalising a path into a
    buffer as long as it (one byte longer when a NUL is asked for) neither
    panics nor runs for ever. It writes the resolution of the elements of the
    path: empty elements and [.] dropped, [..] taking the last name away, or
    kept or dropped at the top as the caller chose; behind it the separator the
    path ended in, if asked for, and the NUL. What is written is never longer
    than the path. *)
Theorem normalize_string_generic_tz_correct (above preserve zero_terminate add_nt_prefix : bool)
    (path buf : bytes) (separator : Z) (is_separator : Z -> bool) :
  is_separator separator = true -> is_separator ch_dot = false -> separator <> SEP_WINDOWS ->
  length path + (if zero_terminate then 1 else 0) <= length buf ->
  let out := normalized above preserve separator is_separator path in
  exists rest,
    normalize_string_generic_tz above preserve zero_terminate add_nt_prefix path buf separator is_separator
      = Done (out ++ rest, length out) /\
    length (out ++ rest) = length buf /\ length out <= length path /\
    (zero_terminate = true -> head rest = Some 0%Z).
Proof. intros H1 H2 H3 H4. by apply normalize_tz_correct. Qed.

(** ["/a/./b/../c//"] with the trailing slash kept: ["a/c/"]. *)
Lemma normalize_string_generic_tz_correct_witness :
  exists rest,
    normalize_string_generic_tz false true true false
      [47; 97; 47; 46; 47; 98; 47; 46; 46; 47; 99; 47; 47]%Z (replicate 14 255%Z) SEP_POSIX is_sep_any
      = Done ([97; 47; 99; 47]%Z ++ rest, 4).
Proof.
  destruct (normalize_string_generic_tz_correct false true true false
    [47; 97; 47; 46; 47; 98; 47; 46; 46; 47; 99; 47; 47]%Z (replicate 14 255%Z) SEP_POSIX is_sep_any
    eq_refl eq_refl ltac:(discriminate) ltac:(cbn; lia)) as (rest & E & _).
  exists rest. etransitivity; [exact E|]. vm_compute. reflexivity.
Defined.

(** Normalising a second time changes nothing. *)
Theorem normalize_string_generic_idempotent (above preserve : bool) (path buf buf2 : bytes)
    (separator : Z) (is_separator : Z -> bool) b n :
  is_separator separator = true -> is_separator ch_dot = false -> separator <> SEP_WINDOWS ->
  length path <= length buf ->
  normalize_string_generic above preserve path buf separator is_separator = Done (b, n) ->
  n <= length buf2 ->
  exists b2,
    normalize_string_generic above preserve (take n b) buf2 separator is_separator = Done (b2, n) /\
    take n b2 = take n b.
Proof.
  intros H1 H2 H3 H4 E Hn.
  destruct (normalize_correct separator is_separator H1 H2 H3 above preserve path buf H4) as (rest & E1 & _).
  rewrite E1 in E. injection E as <- <-. rewrite take_app_length.
  set (out := normalized above preserve separator is_separator path) in *.
  destruct (normalize_correct separator is_separator H1 H2 H3 above preserve out buf2 Hn) as (rest2 & E2 & _).
  unfold out in E2 at 2 3. rewrite normalized_idempotent in E2 by done. fold out in E2.
  exists (out ++ rest2). by rewrite take_app_length.
Qed.

(** C24: on POSIX, from an absolute directory, [join_abs_string_buf_checked]
    gives the join of the last absolute part and what follows it for a buffer of
    any size, and [None] exactly when the normalised path does not fit in the
    buffer. *)
Theorem join_abs_string_buf_checked_correct (cwd buf : bytes) (parts : list bytes) :
  head cwd = Some SEP_POSIX -> parts <> [] -> (Z.of_nat (length parts) < two16)%Z ->
  exists r, join_abs_string_buf_checked Posix cwd buf parts = Done r /\
    (r = None <-> length buf < length (abs_joined cwd parts)) /\
    (forall j, r = Some j -> Joined_slice cwd j = abs_joined cwd parts).
Proof. apply join_abs_checked_ok. Qed.

(** ["/x/y"], ["../a"], ["./b/"] do not fit in six bytes, and fit in seven. *)
Lemma join_abs_string_buf_checked_correct_witness :
  join_abs_string_buf_checked Posix [47; 120; 47; 121]%Z (replicate 6 0%Z) [[46; 46; 47; 97]; [46; 47; 98; 47]]%Z
    = Done None /\
  exists j, join_abs_string_buf_checked Posix [47; 120; 47; 121]%Z (replicate 7 0%Z) [[46; 46; 47; 97]; [46; 47; 98; 47]]%Z
    = Done (Some j).
Proof.
  split.
  - destruct (join_abs_string_buf_checked_correct [47; 120; 47; 121]%Z (replicate 6 0%Z) [[46; 46; 47; 97]; [46; 47; 98; 47]]%Z
      eq_refl ltac:(discriminate) ltac:(reflexivity)) as (r & E & Hr & _).
    rewrite E. f_equal. apply Hr. vm_compute. lia.
  - destruct (join_abs_string_buf_checked_correct [47; 120; 47; 121]%Z (replicate 7 0%Z) [[46; 46; 47; 97]; [46; 47; 98; 47]]%Z
      eq_refl ltac:(discriminate) ltac:(reflexivity)) as (r & E & Hr & _).
    destruct r as [j|]; [exists j; exact E|]. exfalso. pose proof (proj1 Hr eq_refl) as H. vm_compute in H. lia.
Defined.

(** C25: no join of parts, hostile or not, leaves a [.] or [..] in an absolute
    path: what [join_abs_string_buf_checked] gives begins with a slash and none
    of its elements, at slashes of either kind, is one of the two. *)
Theorem join_abs_string_buf_checked_safe (cwd buf : bytes) (parts : list bytes) j :
  head cwd = Some SEP_POSIX -> parts <> [] -> (Z.of_nat (length parts) < two16)%Z ->
  join_abs_string_buf_checked Posix cwd buf parts = Done (Some j) ->
  head (Joined_slice cwd j) = Some SEP_POSIX /\
  Forall (fun e => ~ climbs e) (path_elements is_sep_any (Joined_slice cwd j)).
Proof.
  intros Hc Hp Hn E. destruct (join_abs_checked_ok cwd buf parts Hc Hp Hn) as (r & E' & _ & Hj).
  rewrite E in E'. injection E' as <-. rewrite (Hj j eq_refl). apply abs_joined_elements.
Qed.

(** ["/srv"] and ["../../..\etc/."]. *)
Lemma join_abs_string_buf_checked_safe_witness :
  let j := InBuf ([47; 101; 116; 99]%Z ++ replicate 60 0%Z) 4 in
  join_abs_string_buf_checked Posix [47; 115; 114; 118]%Z (replicate 64 0%Z)
    [[46; 46; 47; 46; 46; 47; 46; 46; 92; 101; 116; 99; 47; 46]%Z] = Done (Some j) /\
  head (Joined_slice [47; 115; 114; 118]%Z j) = Some SEP_POSIX /\
  Forall (fun e => ~ climbs e) (path_elements is_sep_any (Joined_slice [47; 115; 114; 118]%Z j)).
Proof.
  cbv zeta. split; [vm_compute; reflexivity|].
  apply (join_abs_string_buf_checked_safe [47; 115; 114; 118]%Z (replicate 64 0%Z)
    [[46; 46; 47; 46; 46; 47; 46; 46; 92; 101; 116; 99; 47; 46]%Z]);
    [reflexivity|discriminate|reflexivity|vm_compute; reflexivity].
Defined.
