(* ===== verification/PathsRelative.v ===== *)
(** * Common paths and relative paths

    [paths/resolve_path.rs]: [longest_common_path],
    [get_if_exists_longest_common_path] and [relative_normalized], on the
    platforms that compare bytes ([Loose] and [Posix]; the Windows branches are
    left out). An index out of range is a panic. *)
From Stdlib Require Import ZArith Lia.
From stdpp Require Import base list numbers option.
From S2P Require Import Prelude Strings Paths PathsSpec.
#[local] Open Scope nat_scope.

(** ** The common path *)

(** The loop of [nql_at_index_dyn] over the strings behind the first one: do
    they differ at [index]? *)
Fixpoint nql_loop (first : bytes) (rest : list bytes) (index : nat) : outcome bool :=
  match rest with
  | [] => Done false
  | s :: rest =>
      let! a := at_ first index in
      let! b := at_ s index in
      if negb (Z.eqb a b) then Done true else nql_loop first rest index
  end.

Definition nql_at_index (string_count index : nat) (first : bytes) (rest : list bytes) : outcome bool :=
  nql_loop first (take (string_count - 1) rest) index.

(** [min_length] over a list that is not empty. *)
Definition min_length (first : bytes) (rest : list bytes) : nat :=
  fold_left (fun m s => Nat.min (length s) m) rest (length first).

Section Common.
Context (is_path_separator : Z -> bool).

(** Between two and eight strings: all at once, until one differs. [todo] is
    [min_length - index]. With [if_exists] the function returns [None] when they
    differ before a separator. *)
Fixpoint scan_all (if_exists : bool) (first : bytes) (rest : list bytes) (todo index : nat) (last : option nat)
    : outcome (option (nat * option nat)) :=
  match todo with
  | O => Done (Some (index, last))
  | S todo =>
      let! nql := nql_at_index (S (length rest)) index first rest in
      if nql then
        if if_exists && bool_decide (last = None) then Done None else Done (Some (index, last))
      else
        let! c := at_ first index in
        scan_all if_exists first rest todo (S index) (if is_path_separator c then Some index else last)
  end.

(** More than eight: one string after the other, the index going on from where
    the string before stopped. *)
Fixpoint scan_pair (if_exists : bool) (first s : bytes) (todo index : nat) (last : option nat)
    : outcome (option nat) :=
  match todo with
  | O => Done (Some index)
  | S todo =>
      let! a := at_ first index in
      let! b := at_ s index in
      if negb (Z.eqb a b) then
        if if_exists && bool_decide (last = None) then Done None else Done (Some index)
      else scan_pair if_exists first s todo (S index) last
  end.

Fixpoint scan_many (if_exists : bool) (first : bytes) (rest : list bytes) (min_len index : nat) (last : option nat)
    : outcome (option (nat * option nat)) :=
  match rest with
  | [] => Done (Some (index, last))
  | s :: rest =>
      let! r := scan_pair if_exists first s (min_len - index) index last in
      match r with
      | None => Done None
      | Some index =>
          let! index :=
            (if index =? min_len then match index with O => Panic | S i => Done i end else Done index) in
          let! c := at_ first index in
          scan_many if_exists first rest min_len index (if is_path_separator c then Some index else last)
      end
  end.

Definition common_scan (if_exists : bool) (first : bytes) (rest : list bytes) : outcome (option (nat * option nat)) :=
  let min_len := min_length first rest in
  if S (length rest) <=? 8 then scan_all if_exists first rest min_len 0 None
  else scan_many if_exists first rest min_len 0 None.

(** The second loop of [longest_common_path]: the last string that goes on with
    a separator at [index], unless one goes on with another byte. *)
Fixpoint folder_loop (index : nat) (input : list bytes) (found : option bytes) : option bytes :=
  match input with
  | [] => found
  | s :: input =>
      match s !! index with
      | None => folder_loop index input found
      | Some c => if is_path_separator c then folder_loop index input (Some s) else None
      end
  end.

(** [separator_string] of these platforms is ["/"]. *)
Definition longest_common_path_generic (input : list bytes) : outcome bytes :=
  match input with
  | [] => Done []
  | [s] => Done s
  | first :: rest =>
      let! r := common_scan false first rest in
      match r with
      | None => Panic
      | Some (index, last) =>
          if index =? 0 then Done [SEP_POSIX]
          else
            match folder_loop index input None with
            | Some s => index_range s 0 (Z.of_nat (index + 1))
            | None => index_range first 0 (Z.of_nat (match last with Some l => l | None => 0 end + 1))
            end
      end
  end.

(** The same of [get_if_exists_longest_common_path]: the first string that goes
    on with a separator. *)
Fixpoint first_folder (index : nat) (input : list bytes) : option bytes :=
  match input with
  | [] => None
  | s :: input => if test_at s index is_path_separator then Some s else first_folder index input
  end.

Definition get_if_exists_longest_common_path_generic (input : list bytes) : outcome (option bytes) :=
  match input with
  | [] => Done (Some [])
  | [s] => Done (Some s)
  | first :: rest =>
      let! r := common_scan true first rest in
      match r with
      | None => Done None
      | Some (index, last) =>
          if index =? 0 then Done (Some [SEP_POSIX])
          else
            match last with
            | None => Done (Some [ch_dot])
            | Some last =>
                match first_folder index input with
                | Some s => let! p := index_range s 0 (Z.of_nat (index + 1)) in Done (Some p)
                | None => let! p := index_range first 0 (Z.of_nat (last + 1)) in Done (Some p)
                end
            end
      end
  end.
End Common.

Definition longest_common_path (input : list bytes) : outcome bytes :=
  longest_common_path_generic is_sep_any input.

Definition get_if_exists_longest_common_path (input : list bytes) : outcome (option bytes) :=
  get_if_exists_longest_common_path_generic is_sep_any input.

(** ** The relative path *)

(** The result: a slice of [to], or of the buffer. *)
Inductive Relative := InTo (s : bytes) | InRelBuf (b : bytes) (n : nat).

Definition Relative_slice (x : Relative) : bytes :=
  match x with
  | InTo s => s
  | InRelBuf b n => take n b
  end.

(** [while i <= normalized_from.len()]: a [..] for every element of [from]
    from [i] on. [todo] is [normalized_from.len() + 1 - i]. *)
Fixpoint up_loop (separator : Z) (from : bytes) (todo i : nat) (buf : bytes) (out_len : nat) : outcome (bytes * nat) :=
  match todo with
  | O => Done (buf, out_len)
  | S todo =>
      let! (buf, out_len) :=
        (if (i =? length from) || (test_at from i (Z.eqb separator) && (i + 1 <? length from)) then
           if out_len =? 0 then
             let! b := put_slice buf 0 [ch_dot; ch_dot] in Done (b, 2)
           else
             let! b := put buf out_len separator in
             let! b := put_slice b (out_len + 1) [ch_dot; ch_dot] in
             Done (b, out_len + 3)
         else Done (buf, out_len)) in
      up_loop separator from todo (S i) buf out_len
  end.

(** The copy of a slice of [to] to the buffer, or the slice itself. *)
Definition give (ALWAYS_COPY : bool) (buf s : bytes) : outcome Relative :=
  if ALWAYS_COPY then let! b := put_slice buf 0 s in Done (InRelBuf b (length s)) else Done (InTo s).

Definition relative_tail (P : Platform) (from to : bytes) (last_common_separator : nat) (buf : bytes) (out_len : nat)
    : outcome (bytes * nat) :=
  if last_common_separator + 1 <? length to then
    let! tail := index_range to (Z.of_nat last_common_separator) (Z.of_nat (length to)) in
    let tail :=
      (if negb (length from =? 0)
          && ((last_common_separator =? length from) || (last_common_separator =? length from - 1))
          && test_at tail 0 (Platform_is_separator P)
       then drop 1 tail else tail) in
    let! c := at_ tail 0 in
    let! ended := (if 0 <? out_len then let! e := at_ buf (out_len - 1) in Done (Platform_is_separator P e) else Done true) in
    let insert_leading_slash := negb (Platform_is_separator P c) && (0 <? out_len) && negb ended in
    let! (buf, out_len) :=
      (if insert_leading_slash then
         let! b := put buf out_len (Platform_separator P) in Done (b, out_len + 1)
       else Done (buf, out_len)) in
    let! b := put_slice buf out_len tail in
    Done (b, out_len + length tail)
  else Done (buf, out_len).

(** The shortcut of [relative_to_common_path]: [from] is the folder of [to]. *)
Definition relative_below (separator : Z) (common_path from to : bytes) : outcome (option bytes) :=
  if (Nat.min (length from) (length to) =? length common_path) && (length from <=? length to) then
    match common_path with
    | [] => Done (Some to)
    | _ =>
        let! c := at_ to (length common_path - 1) in
        if Z.eqb c separator then Done (Some (drop (length common_path) to)) else Done None
    end
  else Done None.

Definition relative_to_common_path (P : Platform) (ALWAYS_COPY : bool) (common_path_ from to buf : bytes) : outcome Relative :=
  let separator := Platform_separator P in
  let common_path := if test_at common_path_ 0 (Z.eqb SEP_POSIX) then drop 1 common_path_ else common_path_ in
  let! below := relative_below separator common_path from to in
  match below with
  | Some s => give ALWAYS_COPY buf s
  | None =>
      let last_common_separator := match last_index_of_char common_path_ separator with Some i => i | None => 0 end in
      let! (buf, out_len) :=
        (match from with
         | [] => Done (buf, 0)
         | c :: _ =>
             let i := (if Platform_is_separator P c then 1 else 0) + 1 + last_common_separator in
             up_loop separator from (S (length from) - i) i buf 0
         end) in
      let! (buf, out_len) := relative_tail P from to last_common_separator buf out_len in
      let! out_len :=
        (if 3 <? out_len then
           let! c := at_ buf (out_len - 1) in
           Done (if Z.eqb c separator then out_len - 1 else out_len)
         else Done out_len) in
      Done (InRelBuf buf out_len)
  end.

Definition relative_normalized_buf (P : Platform) (ALWAYS_COPY : bool) (buf from to : bytes) : outcome Relative :=
  if (length from =? length to) && eql_long from to false then Done (InTo [])
  else
    let! common_path := longest_common_path_generic (Platform_is_separator P) [from; to] in
    relative_to_common_path P ALWAYS_COPY common_path from to buf.
