(* ===== verification/PathsRelativeTheorems.v ===== *)
(** * Common paths and relative paths: what the code computes

    For two to eight strings the common path is the longest directory they
    share; for more than eight it is not. The relative path of two normalised
    absolute paths is the one of their lists of names, and joining it to the
    first path gives the second. *)
From Stdlib Require Import ZArith Lia.
From stdpp Require Import base list numbers option.
From S2P Require Import Prelude Strings Paths PathsSpec PathsTheorems PathsRelative.
#[local] Open Scope nat_scope.

(** ** The common path *)

Section Common.
Context (is_sep : Z -> bool).

(** The last separator among the first [k] bytes. *)
Fixpoint last_sep (s : bytes) (k : nat) : option nat :=
  match k with
  | O => None
  | S k => if test_at s k is_sep then Some k else last_sep s k
  end.

Lemma last_sep_Some s k l :
  last_sep s k = Some l <-> l < k /\ test_at s l is_sep = true /\ forall i, l < i < k -> test_at s i is_sep = false.
Proof.
  induction k as [|k IH]; cbn [last_sep]; [split; [done|lia]|].
  destruct (test_at s k is_sep) eqn:E.
  - split; [intros [= ->]; split_and!; [lia|done|lia]|]. intros (H1 & H2 & H3).
    destruct (decide (l = k)) as [->|]; [done|]. rewrite H3 in E by lia. done.
  - rewrite IH. split; intros (H1 & H2 & H3); (split_and!; [|done|]).
    + lia.
    + intros i Hi. destruct (decide (i = k)) as [->|]; [done|]. apply H3. lia.
    + destruct (decide (l = k)) as [->|]; [congruence|lia].
    + intros i Hi. apply H3. lia.
Qed.

Lemma last_sep_None s k : last_sep s k = None <-> forall i, i < k -> test_at s i is_sep = false.
Proof.
  induction k as [|k IH]; cbn [last_sep]; [split; [lia|done]|].
  destruct (test_at s k is_sep) eqn:E; [split; [done|]; intros H; rewrite H in E by lia; done|].
  rewrite IH. split; intros H i Hi; [|apply H; lia].
  destruct (decide (i = k)) as [->|]; [done|]. apply H. lia.
Qed.

(** The strings agree on their first [k] bytes. *)
Definition agree (first : bytes) (rest : list bytes) (k : nat) : Prop :=
  k <= length first /\ Forall (fun s => k <= length s /\ take k s = take k first) rest.

Lemma nql_loop_spec first rest index :
  index < length first -> Forall (fun s => index < length s) rest ->
  exists b, nql_loop first rest index = Done b /\ (b = false <-> Forall (fun s => s !! index = first !! index) rest).
Proof.
  intros Hf. induction rest as [|s rest IH]; intros Hr; cbn [nql_loop]; [by exists false|].
  inversion Hr as [|? ? Hs Hr']; subst.
  destruct (at_lt first index Hf) as (a & Ea & ->). destruct (at_lt s index Hs) as (c & Ec & ->). cbn [obind].
  destruct (Z.eqb_spec a c) as [->|Hne]; cbn [negb].
  - destruct (IH Hr') as (b & E & Hb). exists b. split; [done|]. rewrite Hb. rewrite Forall_cons_iff, Ec, Ea. naive_solver.
  - exists true. split; [done|]. split; [done|]. intros H. inversion H; subst. congruence.
Qed.

Lemma min_length_le first rest :
  min_length first rest <= length first /\ Forall (fun s => min_length first rest <= length s) rest.
Proof.
  unfold min_length. generalize (length first). induction rest as [|s rest IH]; intros n; cbn [fold_left]; [split; [lia|constructor]|].
  destruct (IH (Nat.min (length s) n)) as [H1 H2]. split; [lia|]. constructor; [lia|done].
Qed.

Lemma min_length_attained first rest :
  min_length first rest = length first \/ Exists (fun s => min_length first rest = length s) rest.
Proof.
  unfold min_length. generalize (length first). induction rest as [|s rest IH]; intros n; cbn [fold_left]; [by left|].
  destruct (IH (Nat.min (length s) n)) as [->|H]; [|right; by apply Exists_cons_tl].
  destruct (Nat.min_spec (length s) n) as [[_ ->]|[_ ->]]; [right; by apply Exists_cons_hd|by left].
Qed.

Lemma agree_S first rest k c :
  agree first rest k -> first !! k = Some c -> Forall (fun s => s !! k = first !! k) rest -> agree first rest (S k).
Proof.
  intros (H1 & H2) Ec H3. split; [by apply lookup_lt_Some in Ec|].
  rewrite Forall_forall in *. intros s Hs. destruct (H2 s Hs) as (H4 & H5). pose proof (H3 s Hs) as H6. rewrite Ec in H6.
  split; [by apply lookup_lt_Some in H6|]. rewrite (take_S_r s k c), (take_S_r first k c) by done. by rewrite H5.
Qed.

Lemma scan_all_spec first rest todo index :
  agree first rest index -> index + todo = min_length first rest ->
  exists k, scan_all is_sep false first rest todo index (last_sep first index) = Done (Some (k, last_sep first k)) /\
    agree first rest k /\ index <= k <= min_length first rest /\
    (k < min_length first rest -> ~ Forall (fun s => s !! k = first !! k) rest).
Proof.
  pose proof (min_length_le first rest) as (Hm1 & Hm2).
  revert index. induction todo as [|todo IH]; intros index Ha Hm; cbn [scan_all]; [exists index; split_and!; [done|done|lia|lia|lia]|].
  unfold nql_at_index. rewrite Nat.sub_succ, Nat.sub_0_r, take_ge by done.
  destruct (nql_loop_spec first rest index) as (b & -> & Hb); [lia|eapply Forall_impl; [|exact Hm2]; intros; cbn in *; lia|].
  cbn [obind]. destruct b; cbn [andb].
  - exists index. split_and!; [done|done|lia|lia|]. intros _ H. by apply Hb in H.
  - destruct (at_lt first index) as (c & Ec & ->); [lia|]. cbn [obind].
    replace (if is_sep c then _ else _) with (last_sep first (S index))
      by (cbn [last_sep]; unfold test_at; by rewrite Ec).
    destruct (IH (S index)) as (k & E & Hk1 & Hk2 & Hk3); [eapply agree_S; [done|exact Ec|by apply Hb]|lia|].
    exists k. split_and!; [done|done|lia|lia|done].
Qed.

Lemma folder_loop_spec index input found :
  (Forall (fun s => test_at s index (fun c => negb (is_sep c)) = false) input /\
   (folder_loop is_sep index input found = found /\ Forall (fun s => s !! index = None) input \/
    exists s, folder_loop is_sep index input found = Some s /\ s ∈ input /\ test_at s index is_sep = true)) \/
  (folder_loop is_sep index input found = None /\
   exists s, s ∈ input /\ test_at s index (fun c => negb (is_sep c)) = true).
Proof.
  revert found. induction input as [|s input IH]; intros found; cbn [folder_loop]; [left; split; [constructor|by left]|].
  unfold test_at. destruct (s !! index) as [c|] eqn:E.
  - destruct (is_sep c) eqn:Ec.
    + destruct (IH (Some s)) as [(H & Hr)|(H & t & Ht1 & Ht2)].
      * left. split; [constructor; [by rewrite E, Ec|done]|]. right.
        destruct Hr as [(-> & _)|(t & -> & Ht & Hs)]; [exists s; split_and!; [done|by left|by rewrite E]|].
        exists t. split_and!; [done|by right|done].
      * right. split; [done|]. exists t. split; [by right|done].
    + right. split; [done|]. exists s. split; [by left|]. by rewrite E, Ec.
  - destruct (IH found) as [(H & Hr)|(H & t & Ht1 & Ht2)].
    + left. split; [constructor; [by rewrite E|done]|].
      destruct Hr as [(-> & Hr)|(t & -> & Ht & Hs)]; [left; split; [done|by constructor]|right]. exists t. split_and!; [done|by right|done].
    + right. split; [done|]. exists t. split; [by right|done].
Qed.

(** A prefix of all the strings is a prefix of what they agree on. *)
Lemma common_prefix_le first rest k p :
  agree first rest k -> k <= min_length first rest ->
  (k < min_length first rest -> ~ Forall (fun s => s !! k = first !! k) rest) ->
  (forall s, s ∈ first :: rest -> exists t, s = p ++ t) -> length p <= k.
Proof.
  intros _ Hk Hstop Hp. destruct (decide (length p <= k)) as [|Hlt]; [done|exfalso].
  pose proof (min_length_attained first rest) as Hm.
  assert (Hlen : forall s, s ∈ first :: rest -> length p <= length s).
  { intros s Hs. destruct (Hp s Hs) as (t & ->). len. lia. }
  assert (k < min_length first rest).
  { destruct Hm as [->|(s & Hs & ->)%Exists_exists]; [specialize (Hlen first ltac:(by left)); lia|].
    specialize (Hlen s ltac:(right; by apply list_elem_of_In)). lia. }
  apply Hstop; [done|]. apply Forall_forall. intros s Hs. apply list_elem_of_In in Hs.
  destruct (Hp s ltac:(by right)) as (t & ->). destruct (Hp first ltac:(by left)) as (t' & ->).
  rewrite !lookup_app_l by lia. done.
Qed.

(** What a directory above all the strings is. *)
Definition shared_folder (d : bytes) (input : list bytes) : Prop :=
  forall s, s ∈ input -> d = s \/ exists c rest, is_sep c = true /\ s = d ++ c :: rest.

Lemma shared_folder_agree first rest k l :
  agree first rest k -> l < k -> test_at first l is_sep = true -> shared_folder (take l first) (first :: rest).
Proof.
  intros (H1 & H2) Hl Ht s Hs. right.
  assert (E : take k s = take k first).
  { apply elem_of_cons in Hs as [->|Hs]; [done|]. rewrite Forall_forall in H2. by apply H2, list_elem_of_In. }
  apply test_at_true in Ht as (c & Ec & Hc). exists c, (drop (S l) s). split; [done|].
  assert (Es : s !! l = Some c) by (rewrite <- (lookup_take_lt s k l), E, lookup_take_lt; done).
  replace (take l first) with (take l s); [by rewrite take_drop_middle|].
  apply (f_equal (take l)) in E. rewrite !take_take, !Nat.min_l in E by lia. done.
Qed.

Lemma shared_folder_end first rest k s :
  agree first rest k -> s ∈ first :: rest ->
  Forall (fun s => test_at s k (fun c => negb (is_sep c)) = false) (first :: rest) ->
  shared_folder (take k s) (first :: rest).
Proof.
  intros (H1 & H2) Hs Hf.
  assert (E : forall t, t ∈ first :: rest -> k <= length t /\ take k t = take k first).
  { intros t [->|Ht]%elem_of_cons; [done|]. rewrite Forall_forall in H2. by apply H2, list_elem_of_In. }
  intros t Ht. destruct (E s Hs) as (_ & ->). destruct (E t Ht) as (Hk & <-).
  rewrite Forall_forall in Hf. specialize (Hf t (proj1 (list_elem_of_In _ _) Ht)). unfold test_at in Hf.
  destruct (t !! k) as [c|] eqn:Ec; [right|left].
  - exists c, (drop (S k) t). split; [by apply negb_false_iff|]. by rewrite take_drop_middle.
  - apply lookup_ge_None in Ec. by rewrite take_ge.
Qed.

Lemma index_range_take (s : bytes) n : n <= length s -> index_range s 0 (Z.of_nat n) = Done (take n s).
Proof.
  intros H. unfold index_range, get_range. 
  rewrite !(proj2 (Z.leb_le _ _)) by lia. cbn [andb]. unfold sub. rewrite Nat2Z.id. change (Z.to_nat 0) with 0. by rewrite drop_0, Nat.sub_0_r.
Qed.

Lemma shared_folder_le first rest k q :
  agree first rest k -> k <= min_length first rest ->
  (k < min_length first rest -> ~ Forall (fun s => s !! k = first !! k) rest) ->
  shared_folder q (first :: rest) -> length q <= k.
Proof.
  intros H1 H2 H3 Hq. eapply common_prefix_le; [exact H1|done|done|].
  intros s Hs. destruct (Hq s Hs) as [->|(c & t & _ & ->)]; [exists []; by rewrite app_nil_r|by eexists].
Qed.

Lemma longest_common_path_ok input :
  2 <= length input <= 8 -> Forall (fun s => test_at s 0 is_sep = true) input -> is_sep SEP_POSIX = true ->
  exists d c,
    longest_common_path_generic is_sep input = Done (d ++ [c]) /\ is_sep c = true /\ shared_folder d input /\
    forall q, shared_folder q input -> (exists s, s ∈ input /\ s <> q) -> length q <= length d.
Proof.
  intros Hlen Habs Hs. destruct input as [|first [|s1 rest]]; [cbn in Hlen; lia..|].
  set (others := s1 :: rest) in *. unfold longest_common_path_generic, common_scan. subst others. cbv beta iota zeta.
  rewrite (proj2 (Nat.leb_le _ _)) by (cbn in *; lia). set (others := s1 :: rest) in *.
  inversion Habs as [|? ? Hf Hothers]; subst. apply test_at_true in Hf as (c0 & Ec0 & Hc0).
  pose proof (min_length_le first others) as (Hm1 & Hm2).
  destruct (scan_all_spec first others (min_length first others) 0) as (k & E & Hk1 & Hk2 & Hk3).
  { split; [lia|]. apply Forall_true. intros. split; [lia|done]. }
  { done. }
  cbn [last_sep] in E. rewrite E. cbn [obind].
  assert (Hq : forall q, shared_folder q (first :: others) -> length q <= k) by (intros; eapply shared_folder_le; done || lia).
  destruct (Nat.eqb_spec k 0) as [->|Hk0].
  - exists [], SEP_POSIX. split_and!; [done|done| |intros q H _; specialize (Hq q H); cbn; lia].
    intros s Hin. right. rewrite Forall_forall in Habs. specialize (Habs s (proj1 (list_elem_of_In _ _) Hin)).
    apply test_at_true in Habs as (c & Ec & Hc). destruct s as [|x s]; [done|]. injection Ec as ->. by exists c, s.
  - assert (Hl : exists l, last_sep first k = Some l).
    { destruct (last_sep first k) as [l|] eqn:El; [by exists l|].
      apply last_sep_None with (i := 0) in El; [|lia]. unfold test_at in El. rewrite Ec0 in El. congruence. }
    destruct Hl as (l & El). rewrite El. apply last_sep_Some in El as (Hlk & Htl & Hmax).
    assert (Hnone : (forall q, shared_folder q (first :: others) -> (exists s, s ∈ first :: others /\ s <> q) -> length q <> k) ->
      exists d c,
      index_range first 0 (Z.of_nat (l + 1)) = Done (d ++ [c]) /\ is_sep c = true /\ shared_folder d (first :: others) /\
      forall q, shared_folder q (first :: others) -> (exists s, s ∈ first :: others /\ s <> q) -> length q <= length d).
    { intros Hneq. pose proof Htl as (c & Ec & Hc)%test_at_true. exists (take l first), c.
      rewrite index_range_take by lia. split_and!; [|done|by eapply shared_folder_agree|].
      - f_equal. rewrite Nat.add_1_r. by apply take_S_r.
      - intros q H Hne. pose proof (Hq q H). pose proof (Hneq q H Hne). rewrite length_take.
        destruct (H first ltac:(by left)) as [->|(c' & t & Hc' & Et)]; [destruct Hk1; lia|].
        destruct (decide (length q <= l)) as [|Hgt]; [lia|].
        specialize (Hmax (length q) ltac:(lia)). unfold test_at in Hmax.
        rewrite Et, list_lookup_middle in Hmax by done. congruence. }
    destruct (folder_loop_spec k (first :: others) None) as [(Hall & [(-> & Hend)|(s & -> & Hin & Ht)])|(-> & t & Ht & Hns)].
    + apply Hnone. intros q H (s & Hin & Hne) <-. rewrite Forall_forall in Hend.
      specialize (Hend s (proj1 (list_elem_of_In _ _) Hin)).
      destruct (H s Hin) as [->|(c & r & _ & ->)]; [done|]. by rewrite list_lookup_middle in Hend.
    + pose proof Ht as (c & Ec & Hc)%test_at_true. pose proof (lookup_lt_Some _ _ _ Ec).
      exists (take k s), c. rewrite index_range_take by lia. split_and!; [|done|by apply shared_folder_end|].
      * f_equal. rewrite Nat.add_1_r. by apply take_S_r.
      * intros q H' _. specialize (Hq q H'). rewrite length_take. lia.
    + apply Hnone. intros q H _ <-. apply test_at_true in Hns as (c & Ec & Hc).
      destruct (H t Ht) as [->|(c' & r & Hc' & ->)]; [apply lookup_lt_Some in Ec; lia|].
      rewrite list_lookup_middle in Ec by done. injection Ec as ->. by rewrite Hc' in Hc.
Qed.
End Common.

(** ** The relative path *)

Definition name_like (x : bytes) : Prop := x <> [] /\ sep_free is_sep_posix x.

(** [/] before every name. *)
Definition slashed (A : list bytes) : bytes := concat (map (cons SEP_POSIX) A).

(** The normalised absolute path of a list of names. *)
Definition abs_path (A : list bytes) : bytes := SEP_POSIX :: join_with SEP_POSIX A.

Lemma abs_path_slashed A : A <> [] -> abs_path A = slashed A.
Proof. by destruct A. Qed.

Lemma slashed_app A B : slashed (A ++ B) = slashed A ++ slashed B.
Proof. unfold slashed. by rewrite map_app, concat_app. Qed.

(** The names that lead from one list to the other. *)
Fixpoint relative_elements (A B : list bytes) : list bytes :=
  match A, B with
  | x :: A', y :: B' =>
      if bool_decide (x = y) then relative_elements A' B' else replicate (length A) [ch_dot; ch_dot] ++ B
  | _, _ => replicate (length A) [ch_dot; ch_dot] ++ B
  end.

Definition diverge (A B : list bytes) : Prop :=
  match A, B with
  | x :: _, y :: _ => x <> y
  | _, _ => True
  end.

Lemma common_split A B :
  exists C A' B', A = C ++ A' /\ B = C ++ B' /\ diverge A' B' /\
    relative_elements A B = replicate (length A') [ch_dot; ch_dot] ++ B'.
Proof.
  revert B. induction A as [|x A IH]; intros B; [by exists [], [], B|].
  destruct B as [|y B]; [by exists [], (x :: A), []|]. cbn [relative_elements].
  destruct (bool_decide_reflect (x = y)) as [->|Hne]; [|by exists [], (x :: A), (y :: B)].
  destruct (IH B) as (C & A' & B' & -> & -> & Hd & E). by exists (y :: C), A', B'.
Qed.

Lemma elements_slashed A :
  Forall name_like A -> path_elements is_sep_posix (slashed A) = [] :: A.
Proof.
  intros H. assert (Hp : Forall (sep_free is_sep_posix) ([] :: A)).
  { constructor; [constructor|]. eapply Forall_impl; [|exact H]. by intros x (_ & ?). }
  by apply (elements_join is_sep_posix SEP_POSIX ([] :: A) eq_refl ltac:(done) Hp).
Qed.

Lemma join_elements (p : bytes) : join_with SEP_POSIX (path_elements is_sep_posix p) = p.
Proof.
  induction p as [|c p IH]; [done|]. cbn [path_elements].
  assert (Hne : path_elements is_sep_posix p <> []).
  { destruct p as [|c' p']; [done|]. cbn [path_elements]. destruct (is_sep_posix c'); [done|]. by destruct (path_elements _ p'). }
  unfold is_sep_posix at 1. destruct (Z.eqb_spec c SEP_POSIX) as [->|_].
  - destruct (path_elements is_sep_posix p) as [|e es]; [done|]. cbn [join_with map concat app] in *. by rewrite IH.
  - destruct (path_elements is_sep_posix p) as [|e es]; [done|]. cbn [join_with app] in *. by rewrite IH.
Qed.

(** A folder above [slashed A] is the path of the first names. *)
Lemma folder_of_slashed A d :
  Forall name_like A ->
  d = slashed A \/ (exists c rest, is_sep_posix c = true /\ slashed A = d ++ c :: rest) ->
  exists A1 A2, A = A1 ++ A2 /\ d = slashed A1.
Proof.
  intros HA [->|(c & rest & Hc & E)]; [exists A, []; by rewrite app_nil_r|].
  pose proof (elements_slashed A HA) as Eel. rewrite E, elements_app_sep in Eel by done.
  pose proof (join_elements d) as Ed.
  destruct (path_elements is_sep_posix d) as [|e es] eqn:Edl.
  { destruct d as [|x d]; [done|]. cbn [path_elements] in Edl. destruct (is_sep_posix x); [done|]. by destruct (path_elements _ d). }
  injection Eel as -> Eel. exists es, (path_elements is_sep_posix rest). split; [done|]. by rewrite <- Ed.
Qed.

Lemma slashed_inj A1 A2 : Forall name_like A1 -> Forall name_like A2 -> slashed A1 = slashed A2 -> A1 = A2.
Proof. intros H1 H2 E. apply (f_equal (path_elements is_sep_posix)) in E. rewrite !elements_slashed in E by done. by injection E. Qed.


Lemma slashed_not_root A : Forall name_like A -> [SEP_POSIX] = slashed A -> False.
Proof. intros [|x l (Hx & _) _]; [done|]. cbn. by destruct x. Qed.

(** The same for a path that may be the root. *)
Lemma folder_of_abs A d :
  Forall name_like A ->
  d = abs_path A \/ (exists c rest, is_sep_posix c = true /\ abs_path A = d ++ c :: rest) ->
  (exists A1 A2, A = A1 ++ A2 /\ d = slashed A1) \/ (A = [] /\ d = [SEP_POSIX]).
Proof.
  intros HA Hd. destruct (decide (A = [])) as [->|Hne].
  - destruct Hd as [->|(c & rest & _ & E)]; [by right|left]. exists [], []. split; [done|].
    destruct d as [|x d]; [done|]. apply (f_equal length) in E. revert E. cbn. len. lia.
  - left. rewrite abs_path_slashed in Hd by done. by apply folder_of_slashed.
Qed.

Lemma diverge_prefix (C A' B' C1 A1 B1 : list bytes) :
  diverge A' B' -> C ++ A' = C1 ++ A1 -> C ++ B' = C1 ++ B1 -> exists D, C = C1 ++ D.
Proof.
  intros Hd. revert C1. induction C as [|x C IH]; intros C1 EA EB; cbn [app] in *.
  - destruct C1 as [|y C1]; [by exists []|]. cbn [app] in *. rewrite EA, EB in Hd. cbn in Hd. done.
  - destruct C1 as [|y C1]; [by exists (x :: C)|]. cbn [app] in *. injection EA as -> EA. injection EB as EB.
    destruct (IH C1 EA EB) as (D & ->). by exists D.
Qed.

(** The common path of two normalised absolute paths. *)
Lemma common_abs_paths C A' B' :
  Forall name_like (C ++ A') -> Forall name_like (C ++ B') -> diverge A' B' -> abs_path (C ++ A') <> abs_path (C ++ B') ->
  longest_common_path_generic is_sep_posix [abs_path (C ++ A'); abs_path (C ++ B')] = Done (slashed C ++ [SEP_POSIX]).
Proof.
  intros HA HB Hd Hne.
  destruct (longest_common_path_ok is_sep_posix [abs_path (C ++ A'); abs_path (C ++ B')]) as (d & c & E & Hc & Hsh & Hmax);
    [cbn; lia|by repeat constructor|done|].
  rewrite E. apply Z.eqb_eq in Hc as ->. do 2 f_equal.
  assert (HC : shared_folder is_sep_posix (slashed C) [abs_path (C ++ A'); abs_path (C ++ B')]).
  { assert (Hone : forall D, slashed C = abs_path (C ++ D) \/ exists c rest, is_sep_posix c = true /\ abs_path (C ++ D) = slashed C ++ c :: rest).
    { intros D. destruct (C ++ D) as [|x l] eqn:Ecd; [apply app_eq_nil in Ecd as [-> ->]; right; by exists SEP_POSIX, []|].
      rewrite <- Ecd, abs_path_slashed by (by rewrite Ecd). rewrite slashed_app.
      destruct D as [|y D]; [left; cbn; by rewrite app_nil_r|right]. by eexists SEP_POSIX, _. }
    intros s [->|[->|[]%elem_of_nil]%elem_of_cons]%elem_of_cons; apply Hone. }
  assert (Hle : length (slashed C) <= length d).
  { apply Hmax; [done|]. destruct (decide (abs_path (C ++ A') = slashed C)) as [Ea|]; [|eexists; split; [by left|done]].
    exists (abs_path (C ++ B')). split; [right; by left|]. congruence. }
  assert (Hd1 : exists C1 A1 B1, C ++ A' = C1 ++ A1 /\ C ++ B' = C1 ++ B1 /\ d = slashed C1).
  { pose proof (Hsh (abs_path (C ++ A')) ltac:(by left)) as H1.
    pose proof (Hsh (abs_path (C ++ B')) ltac:(right; by left)) as H2.
    destruct (folder_of_abs _ d HA H1) as [(A1 & A2 & EA & ->)|(EA & ->)], (folder_of_abs _ _ HB H2) as [(B1 & B2 & EB & Ed)|(EB & Ed)].
    - rewrite EA, EB in *. apply Forall_app in HA as [HA _], HB as [HB _].
      apply slashed_inj in Ed as ->; [|done..]. by exists B1, A2, B2.
    - symmetry in Ed. rewrite EA in HA. apply Forall_app in HA as [HA _]. by apply slashed_not_root in Ed.
    - rewrite EB in HB. apply Forall_app in HB as [HB _]. by apply slashed_not_root in Ed.
    - by rewrite EA, EB in Hne. }
  destruct Hd1 as (C1 & A1 & B1 & EA & EB & ->).
  destruct (diverge_prefix C A' B' C1 A1 B1 Hd EA EB) as (D & ->). rewrite slashed_app in Hle |- *.
  assert (length (slashed D) = 0) by (revert Hle; len; lia).
  destruct (slashed D); [by rewrite app_nil_r|done].
Qed.

Definition dots (u : nat) : bytes := render SEP_POSIX (mkNorm u []).

Lemma dots_S u : dots (S u) = match u with O => [ch_dot; ch_dot] | _ => dots u ++ [SEP_POSIX; ch_dot; ch_dot] end.
Proof. apply render_up. Qed.

Lemma dots_length u : length (dots u) = 3 * u - 1.
Proof. induction u as [|u IH]; [done|]. rewrite dots_S. destruct u; [done|]. len. rewrite IH. lia. Qed.

(** One [..] more. *)
Lemma up_step u rest :
  length (dots (S u)) <= length (dots u ++ rest) ->
  exists rest',
    (if length (dots u) =? 0 then
       let! b := put_slice (dots u ++ rest) 0 [ch_dot; ch_dot] in Done (b, 2)
     else
       let! b := put (dots u ++ rest) (length (dots u)) SEP_POSIX in
       let! b := put_slice b (length (dots u) + 1) [ch_dot; ch_dot] in
       Done (b, length (dots u) + 3)) = Done (dots (S u) ++ rest', length (dots (S u))) /\
    length (dots (S u) ++ rest') = length (dots u ++ rest).
Proof.
  intros Hlen. rewrite length_app in *. rewrite !dots_length in *. destruct u as [|u].
  - cbn [Nat.mul Nat.sub Nat.eqb Nat.add] in *. change (dots 0 ++ rest) with rest.
    rewrite (put_slice_app [] rest) by (cbn; lia). cbn [obind app].
    exists (drop 2 rest). split; [done|]. change (dots 1) with [ch_dot; ch_dot]. len. lia.
  - rewrite (proj2 (Nat.eqb_neq _ _)) by lia.
    destruct rest as [|a [|b [|c rest]]]; cbn [length] in Hlen; [lia..|].
    rewrite <- (dots_length (S u)), put_app. cbn [obind].
    rewrite (cons_middle SEP_POSIX), app_assoc.
    replace (length (dots (S u)) + 1) with (length (dots (S u) ++ [SEP_POSIX])) by (len; lia).
    rewrite put_slice_app by (cbn; lia). cbn [obind]. exists rest. rewrite (dots_S (S u)). split.
    + f_equal. f_equal; [by rewrite <- !app_assoc|rewrite dots_length; lia].
    + len. rewrite dots_length. lia.
Qed.

Lemma plain_posix_neq c : is_sep_posix c = false -> Z.eqb SEP_POSIX c = false.
Proof. unfold is_sep_posix. rewrite Z.eqb_sym. done. Qed.

Lemma up_loop_spec from todo i w A u rest :
  i <= length from -> i + todo = S (length from) -> drop i from = w ++ slashed A ->
  sep_free is_sep_posix w -> Forall name_like A ->
  length (dots (u + S (length A))) <= length (dots u ++ rest) ->
  exists rest',
    up_loop SEP_POSIX from todo i (dots u ++ rest) (length (dots u)) =
      Done (dots (u + S (length A)) ++ rest', length (dots (u + S (length A)))) /\
    length (dots (u + S (length A)) ++ rest') = length (dots u ++ rest).
Proof.
  revert i w A u rest. induction todo as [|todo IH]; intros i w A u rest Hle Hi Ed Hw HA Hlen; [lia|].
  cbn [up_loop]. destruct w as [|c w].
  - destruct A as [|x A]; cbn [app slashed map concat] in Ed.
    + assert (length from <= i) by (apply (f_equal length) in Ed; revert Ed; len; cbn; lia).
      rewrite (proj2 (Nat.eqb_eq i (length from))) by lia. cbn [orb length] in *.
      replace (u + 1) with (S u) in * by lia. destruct (up_step u rest Hlen) as (rest' & -> & Hl). cbn [obind].
      destruct todo; [|lia]. by exists rest'.
    + inversion HA as [|? ? (Hx & Hp) HA']; subst.
      assert (0 < length x) by (destruct x; [done|cbn; lia]).
      assert (Hlt : i + 1 < length from) by (apply (f_equal length) in Ed; revert Ed; len; lia).
      rewrite (proj2 (Nat.eqb_neq i (length from))) by lia.
      assert (Ei : from !! i = Some SEP_POSIX) by (rewrite <- (Nat.add_0_r i), <- lookup_drop, Ed; done).
      unfold test_at at 1. rewrite Ei, Z.eqb_refl, (proj2 (Nat.ltb_lt _ _)) by lia. cbn [orb andb].
      cbn [length] in *.
      destruct (up_step u rest) as (rest' & -> & Hl); [revert Hlen; rewrite !dots_length; lia|]. cbn [obind].
      rewrite <- Hl in *. replace (u + S (S (length A))) with (S u + S (length A)) in * by lia.
      apply IH with (w := x); [lia|lia| |done|done|done].
      replace (S i) with (i + 1) by lia. rewrite <- drop_drop, Ed. done.
  - assert (Ei : from !! i = Some c) by (rewrite <- (Nat.add_0_r i), <- lookup_drop, Ed; done).
    pose proof (lookup_lt_Some _ _ _ Ei). inversion Hw; subst.
    rewrite (proj2 (Nat.eqb_neq i (length from))) by lia.
    unfold test_at at 1. rewrite Ei, plain_posix_neq by done. cbn [orb andb obind].
    apply IH with (w := w); [lia|lia| |done|done|done].
    replace (S i) with (i + 1) by lia. rewrite <- drop_drop, Ed. done.
Qed.

Lemma abs_path_app C D : C ++ D <> [] -> abs_path (C ++ D) = slashed C ++ slashed D.
Proof. intros H. by rewrite abs_path_slashed, slashed_app. Qed.

Lemma abs_path_length C D :
  C ++ D = [] /\ length (abs_path (C ++ D)) = 1 \/
  C ++ D <> [] /\ length (abs_path (C ++ D)) = length (slashed C) + length (slashed D).
Proof.
  destruct (decide (C ++ D = [])) as [E|E]; [left; by rewrite E|right]. split; [done|].
  by rewrite abs_path_app, length_app.
Qed.

Lemma slashed_nonempty A : Forall name_like A -> A <> [] -> 2 <= length (slashed A).
Proof. intros [|x l (Hx & _) _]; [done|]. intros _. cbn. rewrite length_app. destruct x; [done|cbn; lia]. Qed.

Lemma names_last A :
  Forall name_like A -> A <> [] -> exists pre c, join_with SEP_POSIX A = pre ++ [c] /\ is_sep_posix c = false.
Proof.
  intros HA. apply join_with_last; (eapply Forall_impl; [|exact HA]); by intros ? [].
Qed.

Lemma slashed_last A :
  Forall name_like A -> A <> [] -> exists pre c, slashed A = pre ++ [c] /\ is_sep_posix c = false.
Proof.
  intros HA Hne. destruct (names_last A HA Hne) as (pre & c & E & Hc). exists (SEP_POSIX :: pre), c. split; [|done].
  rewrite <- abs_path_slashed by done. unfold abs_path. by rewrite E.
Qed.

Lemma join_slashed x l : join_with SEP_POSIX (x :: l) = x ++ slashed l.
Proof. done. Qed.

Lemma join_dots k B : join_with SEP_POSIX (replicate k [ch_dot; ch_dot] ++ B) =
  match k with O => join_with SEP_POSIX B | _ => dots k ++ slashed B end.
Proof.
  destruct k as [|k]; [done|]. unfold dots, render, norm_elements. cbn [ups names replicate app].
  rewrite reverse_nil, app_nil_r, !join_slashed, slashed_app. by rewrite app_assoc.
Qed.

Section Relative.
Context (C A' B' : list bytes).
Context (HA : Forall name_like (C ++ A')) (HB : Forall name_like (C ++ B')).
Context (Hd : diverge A' B') (Hne : abs_path (C ++ A') <> abs_path (C ++ B')).

#[local] Abbreviation from := (abs_path (C ++ A')).
#[local] Abbreviation to := (abs_path (C ++ B')).
#[local] Abbreviation n := (length (slashed C)).

Lemma relative_below_none common :
  length common = n -> relative_below SEP_POSIX common from to = Done None.
Proof.
  intros Hc. unfold relative_below. rewrite Hc.
  destruct ((_ =? _) && _) eqn:E; [|done]. bool_facts.
  rewrite Nat.min_l in H by done.
  pose proof HA as [_ HA']%Forall_app. pose proof HA as [HC _]%Forall_app.
  destruct (abs_path_length C A') as [(E & El)|(E & El)]; [apply app_eq_nil in E as [-> _]; rewrite El in H; cbn in H; lia|].
  assert (EA : A' = []).
  { destruct (decide (A' = [])) as [|Hna]; [done|]. pose proof (slashed_nonempty A' HA' Hna). lia. }
  assert (HCne : C <> []) by (intros EC; apply E; by rewrite EC, EA). pose proof (slashed_nonempty C HC HCne).
  destruct common as [|x common]; [cbn in Hc; lia|].
  assert (HCB : C ++ B' <> []) by (by intros [? _]%app_eq_nil).
  destruct (slashed_last C HC HCne) as (pre & c & Ep & Hcn).
  assert (Eat : at_ to (n - 1) = Done c).
  { rewrite abs_path_app, Ep, <- app_assoc by done. rewrite length_app, Nat.add_sub. apply at_app. }
  rewrite Eat. cbn [obind]. unfold is_sep_posix in Hcn. by rewrite Hcn.
Qed.
(** The [..] of the names of [from] that [to] does not share. *)
Lemma relative_ups buf :
  length (dots (length A')) <= length buf ->
  exists rest,
    up_loop SEP_POSIX from (S (length from) - (1 + 1 + n)) (1 + 1 + n) buf 0 =
      Done (dots (length A') ++ rest, length (dots (length A'))) /\
    length (dots (length A') ++ rest) = length buf.
Proof.
  intros Hbuf. destruct (decide (A' = [])) as [EA|HAne].
  - rewrite EA. exists buf. split; [|done].
    replace (S (length (abs_path (C ++ []))) - (1 + 1 + n)) with 0; [done|].
    destruct (abs_path_length C []) as [(E & El)|(E & El)]; rewrite El; cbn [slashed map concat length]; lia.
  - pose proof HA as [HC HA']%Forall_app.
    destruct A' as [|x A] eqn:EA; [done|]. inversion HA' as [|? ? (Hx & Hp) HA'']; subst.
    destruct x as [|c x]; [done|]. inversion Hp; subst.
    assert (Ef : abs_path (C ++ (c :: x) :: A) = (slashed C ++ [SEP_POSIX; c]) ++ x ++ slashed A).
    { rewrite abs_path_app by (by intros [_ ?]%app_eq_nil). cbn [slashed map concat app].
      by rewrite <- app_assoc, app_comm_cons. }
    destruct (up_loop_spec (abs_path (C ++ (c :: x) :: A)) (S (length (abs_path (C ++ (c :: x) :: A))) - (1 + 1 + n))
      (1 + 1 + n) x A 0 buf) as (rest & E & El).
    + rewrite Ef. len. lia.
    + rewrite Ef. len. lia.
    + rewrite Ef. rewrite drop_app_ge by (len; lia). replace (_ - _) with 0 by (len; lia). apply drop_0.
    + done.
    + done.
    + exact Hbuf.
    + exists rest. split; [exact E|exact El].
Qed.

(** What of [to] is not shared. *)
Lemma relative_rest buf rest :
  let out := join_with SEP_POSIX (replicate (length A') [ch_dot; ch_dot] ++ B') in
  buf = dots (length A') ++ rest -> length out <= length buf ->
  exists rest',
    relative_tail Posix from to n buf (length (dots (length A'))) = Done (out ++ rest', length out) /\
    length (out ++ rest') = length buf.
Proof.
  intros out -> Hlen. subst out. unfold relative_tail. rewrite join_dots in *.
  pose proof HB as [_ HB']%Forall_app. pose proof HA as [_ HA']%Forall_app.
  destruct (decide (B' = [])) as [EB|HBne].
  - rewrite (proj2 (Nat.ltb_ge _ _)).
    2: { rewrite EB. destruct (abs_path_length C []) as [(E & El)|(E & El)]; rewrite El; cbn; lia. }
    exists rest. rewrite EB in Hlen |- *. destruct (length A') as [|k] eqn:Ek; [|by rewrite app_nil_r].
    exfalso. apply Hne. rewrite EB. by rewrite (nil_length_inv A').
  - pose proof (slashed_nonempty B' HB' HBne) as HBl.
    assert (Eto : to = slashed C ++ slashed B') by (apply abs_path_app; by intros [_ ?]%app_eq_nil).
    rewrite Eto, (proj2 (Nat.ltb_lt _ _)) by (len; lia).
    rewrite index_range_from by (len; lia). cbn [obind]. rewrite drop_app_length.
    assert (EsB : slashed B' = SEP_POSIX :: join_with SEP_POSIX B') by (symmetry; by apply abs_path_slashed).
    destruct (decide (A' = [])) as [EA|HAne].
    + assert (Hstrip : negb (length from =? 0) && ((n =? length from) || (n =? length from - 1)) = true).
      { rewrite EA. destruct (abs_path_length C []) as [(E & El)|(E & El)]; rewrite El.
        - apply app_eq_nil in E as [-> _]. done.
        - cbn [slashed map concat length]. rewrite Nat.add_0_r, Nat.eqb_refl. rewrite app_nil_r in E.
          pose proof HA as [HC _]%Forall_app. pose proof (slashed_nonempty C HC E).
          by rewrite (proj2 (Nat.eqb_neq _ _)) by lia. }
      rewrite Hstrip, EsB, EA in *. cbn [length dots replicate] in *.
      change (test_at (SEP_POSIX :: join_with SEP_POSIX B') 0 (Platform_is_separator Posix)) with true. cbn [andb].
      change (drop 1 (SEP_POSIX :: join_with SEP_POSIX B')) with (join_with SEP_POSIX B').
      change (dots 0) with (@nil Z) in *. cbn [app length] in *.
      destruct (at_lt (join_with SEP_POSIX B') 0) as (c & _ & ->); [lia|]. cbn [obind Nat.ltb Nat.leb andb negb].
      rewrite andb_false_r. cbn [andb obind].
      rewrite (put_slice_app [] rest) by done. cbn [obind app].
      exists (drop (length (join_with SEP_POSIX B')) rest). split; [done|]. len. lia.
    + assert (Hkeep : (n =? length from) || (n =? length from - 1) = false).
      { pose proof (slashed_nonempty A' HA' HAne). rewrite abs_path_app, length_app by (by intros [_ ?]%app_eq_nil).
        apply orb_false_iff. split; apply Nat.eqb_neq; lia. }
      rewrite Hkeep, andb_false_r. cbn [andb].
      assert (Eat : at_ (slashed B') 0 = Done SEP_POSIX) by (by rewrite EsB). rewrite Eat. cbn [obind].
      assert (Hdots : 0 < length (dots (length A'))) by (destruct A'; [done|rewrite dots_length; cbn; lia]).
      rewrite (proj2 (Nat.ltb_lt _ _)) by done.
      destruct (at_lt (dots (length A') ++ rest) (length (dots (length A')) - 1)) as (e & _ & ->); [len; lia|].
      cbn [obind]. change (Platform_is_separator Posix SEP_POSIX) with true. cbn [negb andb obind].
      destruct (length A') as [|k] eqn:Ek; [cbn in Hdots; lia|].
      rewrite length_app in Hlen. rewrite (length_app (dots (S k)) rest) in Hlen.
      rewrite put_slice_app by lia. cbn [obind].
      exists (drop (length (slashed B')) rest). rewrite <- app_assoc, !length_app, length_drop.
      split; [done|lia].
Qed.
End Relative.

Lemma dots_name_like k : Forall name_like (replicate k [ch_dot; ch_dot]).
Proof. apply Forall_replicate. split; [done|by repeat constructor]. Qed.

Lemma abs_path_inj A B : Forall name_like A -> Forall name_like B -> abs_path A = abs_path B -> A = B.
Proof.
  intros HA HB E. destruct (decide (A = [])) as [->|HAne], (decide (B = [])) as [->|HBne]; [done| | |].
  - rewrite (abs_path_slashed B) in E by done. by destruct (slashed_not_root B).
  - rewrite (abs_path_slashed A) in E by done. by destruct (slashed_not_root A).
  - rewrite !abs_path_slashed in E by done. by apply slashed_inj.
Qed.

Lemma relative_elements_refl A : relative_elements A A = [].
Proof. induction A as [|x A IH]; [done|]. cbn [relative_elements]. by rewrite bool_decide_eq_true_2. Qed.

(** The relative path from one normalised absolute path to another is the one of
    their lists of names: a [..] for every name of the first behind what they
    share, then the names of the second behind it. *)
Lemma relative_ok copy buf A B :
  Forall name_like A -> Forall name_like B -> is_bytes (abs_path A) -> is_bytes (abs_path B) ->
  length (join_with SEP_POSIX (relative_elements A B)) <= length buf ->
  exists x, relative_normalized_buf Posix copy buf (abs_path A) (abs_path B) = Done x /\
    Relative_slice x = join_with SEP_POSIX (relative_elements A B).
Proof.
  intros HA HB Ba Bb Hlen. unfold relative_normalized_buf.
  destruct (decide (abs_path A = abs_path B)) as [E|Hne].
  - rewrite E, Nat.eqb_refl. cbn [andb]. rewrite (proj2 (eql_long_spec _ _ Bb Bb eq_refl)) by done.
    eexists. split; [done|]. apply abs_path_inj in E as ->; [|done..]. by rewrite relative_elements_refl.
  - replace ((_ =? _) && _) with false.
    2: { symmetry. destruct (Nat.eqb_spec (length (abs_path A)) (length (abs_path B))) as [El|]; [|done]. cbn [andb].
         destruct (eql_long _ _ _) eqn:Ee; [|done]. by apply eql_long_spec in Ee. }
    destruct (common_split A B) as (C & A' & B' & -> & -> & Hd & Er). rewrite Er in *.
    rewrite common_abs_paths by done. cbn [obind]. unfold relative_to_common_path.
    change (Platform_separator Posix) with SEP_POSIX.
    replace (test_at (slashed C ++ [SEP_POSIX]) 0 (Z.eqb SEP_POSIX)) with true by (by destruct C).
    rewrite relative_below_none by (done || (len; lia)). cbn [obind].
    rewrite last_index_of_char_app by apply not_elem_of_nil.
    unfold abs_path at 1. change (Platform_is_separator Posix SEP_POSIX) with true. cbv iota beta.
    change (SEP_POSIX :: join_with SEP_POSIX (C ++ A')) with (abs_path (C ++ A')).
    destruct (relative_ups C A' B' HA Hd Hne buf) as (rest & Eu & El).
    { rewrite join_dots in Hlen. destruct (length A'); [cbn; lia|]. rewrite length_app in Hlen. lia. }
    rewrite Eu. cbn [obind].
    destruct (relative_rest C A' B' HA HB Hd Hne _ rest eq_refl) as (rest' & -> & El'); [lia|]. cbn [obind].
    set (out := join_with SEP_POSIX (replicate (length A') [ch_dot; ch_dot] ++ B')) in *.
    destruct (Nat.ltb_spec 3 (length out)) as [H3|_]; [|eexists; split; [done|]; apply take_app_length].
    destruct (names_last (replicate (length A') [ch_dot; ch_dot] ++ B')) as (pre & c & Ep & Hc).
    { apply Forall_app. split; [apply dots_name_like|]. by apply Forall_app in HB as [_ ?]. }
    { intros E. subst out. rewrite E in H3. cbn in H3. lia. }
    fold out in Ep.
    assert (Eat : at_ (out ++ rest') (length out - 1) = Done c).
    { rewrite Ep, <- app_assoc, length_app, Nat.add_sub. apply at_app. }
    rewrite Eat. cbn [obind]. unfold is_sep_posix in Hc. rewrite Hc.
    eexists. split; [done|]. apply take_app_length.
Qed.

(** ** There and back *)

(** A name at slashes of either kind. *)
Lemma is_name_like x : is_name is_sep_any x -> name_like x.
Proof.
  intros (H1 & H2 & _). split; [done|]. eapply Forall_impl; [|exact H2].
  intros c. unfold is_sep_any, is_sep_posix. by intros [? _]%orb_false_iff.
Qed.

Lemma resolve_pops k st :
  k <= length (names st) ->
  resolve false st (replicate k [ch_dot; ch_dot]) = mkNorm (ups st) (drop k (names st)).
Proof.
  revert st. induction k as [|k IH]; intros st Hk; [by destruct st|]. cbn [replicate resolve fold_left].
  unfold resolve1 at 2. cbn. destruct (names st) as [|x ns] eqn:E; [cbn in Hk; lia|].
  apply (IH (mkNorm (ups st) ns)). cbn in *. lia.
Qed.

Lemma resolve_relative A B :
  Forall (is_name is_sep_any) A -> Forall (is_name is_sep_any) B ->
  resolve false (mkNorm 0 (reverse A)) (relative_elements A B) = mkNorm 0 (reverse B).
Proof.
  intros HA HB. destruct (common_split A B) as (C & A' & B' & -> & -> & _ & ->).
  rewrite resolve_app, resolve_pops by (cbn; rewrite length_reverse; len; lia). cbn [ups names].
  rewrite (resolve_names is_sep_any) by (by apply Forall_app in HB as [_ ?]). cbn [ups names].
  rewrite !reverse_app. f_equal. f_equal.
  rewrite drop_app_ge by (rewrite length_reverse; lia). by rewrite length_reverse, Nat.sub_diag, drop_0.
Qed.

(** The elements of a list of names, or of none. *)
Lemma resolve_join above st l :
  Forall (sep_free is_sep_any) l -> resolve above st (path_elements is_sep_any (join_with SEP_POSIX l)) = resolve above st l.
Proof. intros H. destruct l as [|x l]; [done|]. by rewrite elements_join. Qed.

Lemma relative_plain A B :
  Forall (is_name is_sep_any) B -> Forall (sep_free is_sep_any) (relative_elements A B) /\ Forall (fun e => e <> []) (relative_elements A B).
Proof.
  intros HB. destruct (common_split A B) as (C & A' & B' & -> & -> & _ & ->). apply Forall_app in HB as [_ HB].
  split; apply Forall_app; (split; [apply Forall_replicate; done || by repeat constructor|]);
    (eapply Forall_impl; [|exact HB]); by intros x (? & ? & _).
Qed.

Lemma abs_joined_relative A B :
  Forall (is_name is_sep_any) A -> Forall (is_name is_sep_any) B ->
  abs_joined (abs_path A) [join_with SEP_POSIX (relative_elements A B)] = abs_path B.
Proof.
  intros HA HB. destruct (relative_plain A B HB) as (Hp & Hn).
  unfold abs_joined, rebase. cbn [fold_left]. unfold rebase_step. rewrite is_absolute_posix.
  rewrite bool_decide_eq_false_2.
  2: { destruct (relative_elements A B) as [|x l]; [done|]. inversion Hp as [|? ? Hx _]; inversion Hn; subst.
       destruct x as [|c x]; [done|]. inversion Hx as [|? ? Hc _]; subst. intros [= ->]. done. }
  cbn [fst snd app map concat]. rewrite !app_nil_r. change (abs_path B) with (SEP_POSIX :: join_with SEP_POSIX B). f_equal.
  assert (Ecore : resolve false norm_root (path_elements is_sep_any (abs_path A) ++
      path_elements is_sep_any (join_with SEP_POSIX (relative_elements A B))) = mkNorm 0 (reverse B)).
  { rewrite resolve_app. unfold abs_path at 1. rewrite (resolve_sep is_sep_any) by done.
    rewrite (resolve_join false norm_root A) by (eapply Forall_impl; [|exact HA]; by intros x (_ & ? & _)).
    rewrite (resolve_names is_sep_any false norm_root A HA). cbn [ups names norm_root]. rewrite app_nil_r.
    rewrite resolve_join by done. by apply resolve_relative. }
  rewrite Ecore.
  assert (Erender : render SEP_POSIX (mkNorm 0 (reverse B)) = join_with SEP_POSIX B).
  { unfold render, norm_elements. cbn [ups names replicate app]. by rewrite reverse_involutive. }
  rewrite Erender. unfold with_trailing.
  destruct (Nat.eqb_spec (length (join_with SEP_POSIX B)) 0) as [E0|E0]; [cbn [negb andb]; by rewrite app_nil_r|].
  rewrite bool_decide_eq_false_2; [cbn [andb negb]; by rewrite app_nil_r|].
  rewrite last_app. destruct (decide (relative_elements A B = [])) as [Er|Er].
  - rewrite Er. cbn [join_with list.last].
    assert (A = B) as ->.
    { pose proof (resolve_relative A B HA HB) as E. rewrite Er in E. cbn in E. injection E as E. by apply (inj reverse). }
    destruct (join_with_last is_sep_any SEP_POSIX B) as (pre & c & Ep & Hc).
    + eapply Forall_impl; [|exact HB]. by intros x (_ & ? & _).
    + eapply Forall_impl; [|exact HB]. by intros x (? & _).
    + by intros ->.
    + unfold abs_path. rewrite Ep, app_comm_cons, last_snoc. intros [= ->]. done.
  - destruct (join_with_last is_sep_any SEP_POSIX (relative_elements A B) Hp Hn Er) as (pre & c & Ep & Hc).
    rewrite Ep, last_snoc. intros [= ->]. done.
Qed.

(** ** Where the code falls short *)

(** ["/app/x/1"] to ["/app/x/9"]. *)
Definition nine_paths : list bytes :=
  [[47; 97; 112; 112; 47; 120; 47; 49]; [47; 97; 112; 112; 47; 120; 47; 50]; [47; 97; 112; 112; 47; 120; 47; 51]; [47; 97; 112; 112; 47; 120; 47; 52]; [47; 97; 112; 112; 47; 120; 47; 53]; [47; 97; 112; 112; 47; 120; 47; 54]; [47; 97; 112; 112; 47; 120; 47; 55]; [47; 97; 112; 112; 47; 120; 47; 56]; [47; 97; 112; 112; 47; 120; 47; 57]]%Z.

(** Of more than eight strings the folder is lost: separators are only looked
    for where two strings begin to differ. *)
Lemma longest_common_path_nine :
  longest_common_path nine_paths = Done [SEP_POSIX] /\
  longest_common_path (take 8 nine_paths) = Done [47; 97; 112; 112; 47; 120; 47]%Z /\
  get_if_exists_longest_common_path nine_paths = Done None.
Proof. vm_compute. done. Qed.

(** And the result need not be common: ["/app/"] for paths one of which is
    ["/lib/yz"], as the comparison goes on from where the string before
    stopped. *)
Lemma longest_common_path_not_common :
  longest_common_path
    [[47; 97; 112; 112; 47; 120]; [47; 97; 112; 112; 121; 47; 122]; [47; 108; 105; 98; 47; 121; 122]; [47; 97; 112; 112; 47; 48]; [47; 97; 112; 112; 47; 49]; [47; 97; 112; 112; 47; 50]; [47; 97; 112; 112; 47; 51]; [47; 97; 112; 112; 47; 52]; [47; 97; 112; 112; 47; 53]]%Z
  = Done [47; 97; 112; 112; 47]%Z.
Proof. vm_compute. done. Qed.

(** [get_if_exists_longest_common_path] of ["/a/b/x"] and ["/a/bc/y"] is
    ["/a/b/"], which the second is not below. *)
Lemma get_if_exists_not_common :
  get_if_exists_longest_common_path [[47; 97; 47; 98; 47; 120]; [47; 97; 47; 98; 99; 47; 121]]%Z = Done (Some [47; 97; 47; 98; 47]%Z) /\
  longest_common_path [[47; 97; 47; 98; 47; 120]; [47; 97; 47; 98; 99; 47; 121]]%Z = Done [47; 97; 47]%Z.
Proof. vm_compute. done. Qed.

(** ** Properties *)

(** Between two and eight strings that begin with a slash,
    [longest_common_path] gives a folder of all of them: without its last slash
    it is the string itself or is followed by a slash in it. It is the longest
    such folder that is not all of the strings. *)
Theorem longest_common_path_correct (input : list bytes) :
  2 <= length input <= 8 -> Forall (fun s => test_at s 0 is_sep_any = true) input ->
  exists d c,
    longest_common_path input = Done (d ++ [c]) /\ is_sep_any c = true /\ shared_folder is_sep_any d input /\
    forall q, shared_folder is_sep_any q input -> (exists s, s ∈ input /\ s <> q) -> length q <= length d.
Proof. intros H1 H2. by apply longest_common_path_ok. Qed.

Lemma longest_common_path_correct_witness :
  exists d c, longest_common_path (take 8 nine_paths) = Done (d ++ [c]) /\ length d = 6.
Proof.
  destruct (longest_common_path_correct (take 8 nine_paths)) as (d & c & E & _).
  - cbn. lia.
  - repeat constructor.
  - exists d, c. split; [exact E|].
    assert (E2 : longest_common_path (take 8 nine_paths) = Done [47; 97; 112; 112; 47; 120; 47]%Z) by (vm_compute; reflexivity).
    rewrite E in E2. injection E2 as E2. apply (f_equal length) in E2. rewrite length_app in E2. cbn in E2. lia.
Defined.

(** C26: there and back: joining to a normalised absolute path the relative path
    from it to another gives the other one. *)
Theorem relative_join_roundtrip (copy : bool) (buf jbuf : bytes) (A B : list bytes) :
  Forall (is_name is_sep_any) A -> Forall (is_name is_sep_any) B -> is_bytes (abs_path A) -> is_bytes (abs_path B) ->
  length (join_with SEP_POSIX (relative_elements A B)) <= length buf ->
  join_abs_needed (length (abs_path A)) [join_with SEP_POSIX (relative_elements A B)] <= length jbuf ->
  exists x j,
    relative_normalized_buf Posix copy buf (abs_path A) (abs_path B) = Done x /\
    join_abs_string_buf Posix (abs_path A) jbuf [Relative_slice x] = Done j /\
    Joined_slice (abs_path A) j = abs_path B.
Proof.
  intros HA HB Ba Bb Hb Hj.
  destruct (relative_ok copy buf A B) as (x & Ex & Es); [|  |done|done|done|].
  1, 2: (eapply Forall_impl; [apply is_name_like|done]).
  destruct (join_abs_ok (abs_path A) [join_with SEP_POSIX (relative_elements A B)] eq_refl ltac:(done) ltac:(done) false jbuf Hj)
    as (rest & Ej & _).
  rewrite abs_joined_relative in Ej by done.
  eexists x, _. rewrite Es. split_and!; [done|exact Ej|]. cbn [Joined_slice]. apply take_app_length.
Qed.

Lemma relative_join_roundtrip_witness :
  exists x j,
    relative_normalized_buf Posix true (replicate 16 0%Z) (abs_path [[97]; [98]]%Z) (abs_path [[97]; [98; 99]; [100]]%Z) = Done x /\
    join_abs_string_buf Posix (abs_path [[97]; [98]]%Z) (replicate 32 0%Z) [Relative_slice x] = Done j /\
    Joined_slice (abs_path [[97]; [98]]%Z) j = abs_path [[97]; [98; 99]; [100]]%Z.
Proof.
  apply (relative_join_roundtrip true (replicate 16 0%Z) (replicate 32 0%Z) [[97]; [98]]%Z [[97]; [98; 99]; [100]]%Z).
  - repeat constructor; done.
  - repeat constructor; done.
  - apply (bool_decide_unpack _). vm_compute. exact I.
  - apply (bool_decide_unpack _). vm_compute. exact I.
  - vm_compute. lia.
  - vm_compute. lia.
Defined.
