(* ===== verification/Npm.v ===== *)
(** * The choice of a version

    [install/npm.rs]: the manifest of a package as the registry's answer is
    stored, and the choice of a version for a range or a distribution tag, with
    and without the minimum age of a release ([find_best_version],
    [find_best_version_with_filter], [find_by_dist_tag_with_filter]).

    The manifest keeps the versions of all kinds in one array and the packages
    in another; releases and pre-releases are windows of both. Times are [f64]
    milliseconds: the floating-point operations are those of the standard
    library's [SpecFloat] at 53 bits of precision. [start_time], the clock of the
    process in nanoseconds, is an argument. *)
From Stdlib Require Import ZArith Lia SpecFloat.
From stdpp Require Import base list numbers option.
From S2P Require Import Prelude Strings SemverString SemverVersion SemverRange SemverQuery.
#[local] Open Scope Z_scope.

(** ** Floating point *)

Definition f64 : Type := spec_float.
Definition f64_sub : f64 -> f64 -> f64 := SFsub 53 1024.
Definition f64_add : f64 -> f64 -> f64 := SFadd 53 1024.
Definition f64_lt (a b : f64) : bool := SFltb a b.
Definition f64_le (a b : f64) : bool := SFleb a b.

(** [z as f64]: the nearest, ties to even. *)
Definition f64_of_Z (z : Z) : f64 := binary_normalize 53 1024 z 0 false.

Definition f64_is_nan (a : f64) : bool := match a with S754_nan => true | _ => false end.

(** [f64::min]: the other one when one is not a number. *)
Definition f64_min (a b : f64) : f64 := if f64_lt a b || f64_is_nan b then a else b.

(** ** Windows of the arrays *)

Record ExternalSlice : Type := mkExternalSlice { sl_off : Z; sl_len : Z }.

(** The window is cut at the end of the array; one that begins behind the end
    panics. *)
Definition ExternalSlice_get {A : Type} (s : ExternalSlice) (in_ : list A) : outcome (list A) :=
  let end_ := Z.min (Z.of_nat (length in_)) (s.(sl_off) + s.(sl_len)) in
  if s.(sl_off) <=? end_ then Done (take (Z.to_nat (end_ - s.(sl_off))) (drop (Z.to_nat s.(sl_off)) in_))
  else Panic.

(** [list[i]] *)
Definition nth_item {A : Type} (l : list A) (i : nat) : outcome A :=
  match l !! i with
  | Some x => Done x
  | None => Panic
  end.

(** ** The manifest *)

(** The fields that the choice of a version reads. *)
Record PackageVersion : Type := mkPackageVersion { publish_timestamp_ms : f64; pv_tarball_url : ExternalString }.

Record ExternVersionMap : Type := mkVersionMap { vm_keys : ExternalSlice; vm_values : ExternalSlice }.

Record DistTagMap : Type := mkDistTags { dt_tags : ExternalSlice; dt_versions : ExternalSlice }.

Record NpmPackage : Type := mkNpmPackage {
  np_name : ExternalString;
  np_releases : ExternVersionMap;
  np_prereleases : ExternVersionMap;
  np_dist_tags : DistTagMap;
}.

Record PackageManifest : Type := mkManifest {
  pm_pkg : NpmPackage;
  pm_string_buf : bytes;
  pm_versions : list Version;
  pm_external_strings : list ExternalString;
  pm_package_versions : list PackageVersion;
}.

Record FindResult : Type := mkFindResult { fr_version : Version; fr_package : PackageVersion }.

Inductive FindVersionError : Type := NotFound | TooRecent | AllVersionsTooRecent.

Inductive FindVersionResult : Type :=
  | Found (result : FindResult)
  | FoundWithFilter (result : FindResult) (newest_filtered : option Version)
  | FindErr (e : FindVersionError).

Definition FindVersionResult_unwrap (r : FindVersionResult) : option FindResult :=
  match r with
  | Found result => Some result
  | FoundWithFilter result _ => Some result
  | FindErr _ => None
  end.

Definition latest_is_filtered (r : FindVersionResult) : bool :=
  match r with
  | FoundWithFilter _ newest_filtered => match newest_filtered with Some _ => true | None => false end
  | FindErr AllVersionsTooRecent => true
  | _ => false
  end.

Definition PackageManifest_name (m : PackageManifest) : bytes :=
  External_slice m.(pm_pkg).(np_name) m.(pm_string_buf).

(** ** Lookup *)

Fixpoint find_key_loop (keys : list Version) (i : nat) (find : Version) : option nat :=
  match keys with
  | [] => None
  | key :: keys => if Version_eql key find then Some i else find_key_loop keys (S i) find
  end.

(** The index is an [u32]. *)
Definition find_key_index (map : ExternVersionMap) (buf : list Version) (find : Version) : outcome (option nat) :=
  let! keys := ExternalSlice_get map.(vm_keys) buf in
  Done ((fun i => Z.to_nat (as_u32 (Z.of_nat i))) <$> find_key_loop keys 0 find).

Definition find_by_version (m : PackageManifest) (version : Version) : outcome (option FindResult) :=
  let vmap := if negb (has_pre version.(tag)) then m.(pm_pkg).(np_releases) else m.(pm_pkg).(np_prereleases) in
  let! values := ExternalSlice_get vmap.(vm_values) m.(pm_package_versions) in
  let! keys := ExternalSlice_get vmap.(vm_keys) m.(pm_versions) in
  let! index := find_key_index vmap m.(pm_versions) version in
  match index with
  | None => Done None
  | Some index =>
      let! version := nth_item keys index in
      let! package := nth_item values index in
      Done (Some (mkFindResult version package))
  end.

Fixpoint dist_tag_loop (m : PackageManifest) (versions : list Version) (tags : list ExternalString) (i : nat) (tag : bytes)
    : outcome (option FindResult) :=
  match tags with
  | [] => Done None
  | tag_str :: tags =>
      if bool_decide (External_slice tag_str m.(pm_string_buf) = tag) then
        let! version := nth_item versions i in
        find_by_version m version
      else dist_tag_loop m versions tags (S i) tag
  end.

Definition find_by_dist_tag (m : PackageManifest) (tag : bytes) : outcome (option FindResult) :=
  let! versions := ExternalSlice_get m.(pm_pkg).(np_dist_tags).(dt_versions) m.(pm_versions) in
  let! tags := ExternalSlice_get m.(pm_pkg).(np_dist_tags).(dt_tags) m.(pm_external_strings) in
  dist_tag_loop m versions tags 0 tag.

Definition FindResult_tarball_url (r : FindResult) (manifest : PackageManifest) : bytes :=
  External_slice r.(fr_package).(pv_tarball_url) manifest.(pm_string_buf).

Definition release_versions (m : PackageManifest) : outcome (list Version) :=
  ExternalSlice_get m.(pm_pkg).(np_releases).(vm_keys) m.(pm_versions).

Definition dist_tags (m : PackageManifest) : outcome (list (bytes * Version)) :=
  let! versions := ExternalSlice_get m.(pm_pkg).(np_dist_tags).(dt_versions) m.(pm_versions) in
  let! tags := ExternalSlice_get m.(pm_pkg).(np_dist_tags).(dt_tags) m.(pm_external_strings) in
  Done (zip_with (fun t v => (External_slice t m.(pm_string_buf), v)) tags versions).

(** ["latest"] *)
Definition latest : bytes := [108; 97; 116; 101; 115; 116].

(** ** Without an age *)

(** [while i > 0]: the last of the list that satisfies the group. *)
Fixpoint newest_loop (m : PackageManifest) (group : Group) (group_buf : bytes)
    (vmap : ExternVersionMap) (keys : list Version) (i : nat) : outcome (option FindResult) :=
  match i with
  | O => Done None
  | S i =>
      let! version := nth_item keys i in
      if Group_satisfies group version group_buf m.(pm_string_buf) then
        let! values := ExternalSlice_get vmap.(vm_values) m.(pm_package_versions) in
        let! package := nth_item values i in
        Done (Some (mkFindResult version package))
      else newest_loop m group group_buf vmap keys i
  end.

Definition newest_of (m : PackageManifest) (group : Group) (group_buf : bytes) (vmap : ExternVersionMap)
    : outcome (option FindResult) :=
  let! keys := ExternalSlice_get vmap.(vm_keys) m.(pm_versions) in
  newest_loop m group group_buf vmap keys (length keys).

(** Is the version of the tag ["latest"] the one to take? *)
Definition takes_latest (m : PackageManifest) (group : Group) (group_buf : bytes) (result : FindResult) : bool :=
  Group_satisfies group result.(fr_version) group_buf m.(pm_string_buf) &&
  (if FlagsBitSet_is_set group.(g_flags) Flags_PRE then
     comparison_eqb (Version_order (to_version group) result.(fr_version) group_buf m.(pm_string_buf)) Eq
   else true).

Definition find_best_version (m : PackageManifest) (group : Group) (group_buf : bytes) : outcome (option FindResult) :=
  let left := left (first_range group) in
  if bool_decide (left.(c_op) = OpEql) then find_by_version m left.(c_version)
  else
    let! tagged := find_by_dist_tag m latest in
    let newest :=
      (let! release := newest_of m group group_buf m.(pm_pkg).(np_releases) in
       match release with
       | Some r => Done (Some r)
       | None =>
           if FlagsBitSet_is_set group.(g_flags) Flags_PRE then
             newest_of m group group_buf m.(pm_pkg).(np_prereleases)
           else Done None
       end) in
    match tagged with
    | Some result => if takes_latest m group group_buf result then Done (Some result) else newest
    | None => newest
    end.

(** ** With a minimum age *)

Definition should_exclude_from_age_filter (m : PackageManifest) (exclusions : option (list bytes)) : bool :=
  match exclusions with
  | Some excl => existsb (fun excluded => bool_decide (PackageManifest_name m = excluded)) excl
  | None => false
  end.

Definition NS_PER_MS : Z := 1000000.
Definition MS_PER_DAY : Z := 86400000.

Section Clock.
Context (start_time : Z).

(** [(bun_core::start_time() / NS_PER_MS) as f64] *)
Definition current_timestamp_ms : f64 := f64_of_Z (Z.quot start_time NS_PER_MS).

(** [7.0 * MS_PER_DAY as f64], which is exact. *)
Definition seven_days_ms : f64 := f64_of_Z (7 * MS_PER_DAY).

Definition is_package_version_too_recent (package_version : PackageVersion) (minimum_release_age_ms : f64) : bool :=
  f64_lt (f64_sub current_timestamp_ms minimum_release_age_ms) package_version.(publish_timestamp_ms).

(** Published before the days in which a stable release is looked for. *)
Definition too_far_back (package : PackageVersion) (minimum_release_age_ms : f64) : bool :=
  f64_lt package.(publish_timestamp_ms)
    (f64_sub current_timestamp_ms (f64_add minimum_release_age_ms seven_days_ms)).

(** The release behind came late enough not to be its repair. *)
Definition is_stable (prev_package package : PackageVersion) (minimum_release_age_ms : f64) : bool :=
  f64_le (f64_min minimum_release_age_ms seven_days_ms)
    (f64_sub prev_package.(publish_timestamp_ms) package.(publish_timestamp_ms)).

(** [best_version.get_or_insert(..)] *)
Definition or_this (best : option FindResult) (r : FindResult) : option FindResult :=
  match best with
  | Some b => Some b
  | None => Some r
  end.

Record SearchState : Type := mkSearch {
  prev_blocked : option PackageVersion;
  best_version : option FindResult;
  newest_filtered : option Version;
}.

(** The loop of [search_version_list]: a [return], or the state when it ends. *)
Fixpoint search_loop (m : PackageManifest) (group : Group) (group_buf : bytes) (versions : list Version)
    (packages : list PackageVersion) (min_age : f64) (i : nat) (st : SearchState)
    : outcome (FindResult + SearchState) :=
  match i with
  | O => Done (inr st)
  | S i =>
      let! version := nth_item versions i in
      if Group_satisfies group version group_buf m.(pm_string_buf) then
        let! package := nth_item packages i in
        let this := mkFindResult version package in
        if is_package_version_too_recent package min_age then
          search_loop m group group_buf versions packages min_age i
            (mkSearch (Some package) st.(best_version)
               (match st.(newest_filtered) with Some v => Some v | None => Some version end))
        else
          match st.(prev_blocked) with
          | Some prev_package =>
              if too_far_back package min_age then
                Done (inr (mkSearch st.(prev_blocked) (or_this st.(best_version) this) st.(newest_filtered)))
              else if is_stable prev_package package min_age then
                Done (inr (mkSearch st.(prev_blocked) (Some this) st.(newest_filtered)))
              else
                search_loop m group group_buf versions packages min_age i
                  (mkSearch (Some package) (or_this st.(best_version) this) st.(newest_filtered))
          | None => Done (inl this)
          end
      else search_loop m group group_buf versions packages min_age i st
  end.

(** The result, and [newest_filtered] as the call leaves it. *)
Definition search_version_list (m : PackageManifest) (group : Group) (group_buf : bytes) (versions : list Version)
    (packages : list PackageVersion) (min_age : f64) (newest : option Version)
    : outcome (option FindVersionResult * option Version) :=
  let! r := search_loop m group group_buf versions packages min_age (length versions) (mkSearch None None newest) in
  match r with
  | inl found => Done (Some (Found found), newest)
  | inr st =>
      match st.(best_version) with
      | Some result =>
          match st.(newest_filtered) with
          | Some nf => Done (Some (FoundWithFilter result (Some nf)), st.(newest_filtered))
          | None => Done (Some (Found result), st.(newest_filtered))
          end
      | None => Done (None, st.(newest_filtered))
      end
  end.

Definition search_list (m : PackageManifest) (group : Group) (group_buf : bytes) (vmap : ExternVersionMap)
    (min_age : f64) (newest : option Version) : outcome (option FindVersionResult * option Version) :=
  let! keys := ExternalSlice_get vmap.(vm_keys) m.(pm_versions) in
  let! values := ExternalSlice_get vmap.(vm_values) m.(pm_package_versions) in
  search_version_list m group group_buf keys values min_age newest.

(** [minimum_release_age_ms], unless the package is excluded. *)
Definition age_gate (m : PackageManifest) (minimum_release_age_ms : option f64) (exclusions : option (list bytes)) : option f64 :=
  match minimum_release_age_ms with
  | Some min_age_ms => if negb (should_exclude_from_age_filter m exclusions) then Some min_age_ms else None
  | None => None
  end.

Definition find_best_version_with_filter (m : PackageManifest) (group : Group) (group_buf : bytes)
    (minimum_release_age_ms : option f64) (exclusions : option (list bytes)) : outcome FindVersionResult :=
  match age_gate m minimum_release_age_ms exclusions with
  | None =>
      let! result := find_best_version m group group_buf in
      match result with
      | Some r => Done (Found r)
      | None => Done (FindErr NotFound)
      end
  | Some min_age_ms =>
      let left := left (first_range group) in
      if bool_decide (left.(c_op) = OpEql) then
        let! result := find_by_version m left.(c_version) in
        match result with
        | Some r => if is_package_version_too_recent r.(fr_package) min_age_ms then Done (FindErr TooRecent) else Done (Found r)
        | None => Done (FindErr NotFound)
        end
      else
        let! tagged := find_by_dist_tag m latest in
        let '(taken, newest) :=
          match tagged with
          | Some result =>
              if Group_satisfies group result.(fr_version) group_buf m.(pm_string_buf) then
                if is_package_version_too_recent result.(fr_package) min_age_ms then (None, Some result.(fr_version))
                else if takes_latest m group group_buf result then (Some result, None)
                else (None, None)
              else (None, None)
          | None => (None, None)
          end in
        match taken with
        | Some result => Done (Found result)
        | None =>
            let! (found, newest) := search_list m group group_buf m.(pm_pkg).(np_releases) min_age_ms newest in
            match found with
            | Some result => Done result
            | None =>
                let! (found, newest) :=
                  (if FlagsBitSet_is_set group.(g_flags) Flags_PRE then
                     search_list m group group_buf m.(pm_pkg).(np_prereleases) min_age_ms newest
                   else Done (None, newest)) in
                match found with
                | Some result => Done result
                | None =>
                    match newest with
                    | Some _ => Done (FindErr AllVersionsTooRecent)
                    | None => Done (FindErr NotFound)
                    end
                end
            end
        end
  end.

(** What is before the first dot of a pre-release: its channel. *)
Definition channel (pre : bytes) : bytes :=
  match index_of_char pre 46 with
  | Some i => take i pre
  | None => pre
  end.

(** The loop of [find_by_dist_tag_with_filter]: a [return], or [best_version]
    when it ends. *)
Fixpoint dist_tag_search (m : PackageManifest) (versions : list Version) (packages : list PackageVersion) (min_age : f64)
    (latest_version : Version) (expected_tag : option bytes) (i : nat)
    (prev : option PackageVersion) (best : option FindResult) : outcome (FindResult + option FindResult) :=
  match i with
  | O => Done (inr best)
  | S i =>
      let! version := nth_item versions i in
      let! package := nth_item packages i in
      let this := mkFindResult version package in
      let skip := dist_tag_search m versions packages min_age latest_version expected_tag i in
      if comparison_eqb (Version_order version latest_version m.(pm_string_buf) m.(pm_string_buf)) Gt then skip prev best
      else if match expected_tag with
              | Some expected => negb (bool_decide (channel (External_slice version.(tag).(tag_pre) m.(pm_string_buf)) = expected))
              | None => false
              end
      then skip prev best
      else if is_package_version_too_recent package min_age then skip (Some package) best
      else
        match prev with
        | Some prev_package =>
            if too_far_back package min_age then
              Done (inl (match best with Some b => b | None => this end))
            else if is_stable prev_package package min_age then Done (inl this)
            else skip (Some package) (or_this best this)
        | None => Done (inr (Some this))
        end
  end.

Definition find_by_dist_tag_with_filter (m : PackageManifest) (tag_ : bytes) (minimum_release_age_ms : option f64)
    (exclusions : option (list bytes)) : outcome FindVersionResult :=
  let! dist := find_by_dist_tag m tag_ in
  match dist with
  | None => Done (FindErr NotFound)
  | Some dist_result =>
      match age_gate m minimum_release_age_ms exclusions with
      | None => Done (Found dist_result)
      | Some min_age_ms =>
          if negb (is_package_version_too_recent dist_result.(fr_package) min_age_ms) then Done (Found dist_result)
          else
            let latest_version := dist_result.(fr_version) in
            let is_prerelease := has_pre latest_version.(tag) in
            let expected_tag :=
              (if is_prerelease then Some (channel (External_slice latest_version.(tag).(tag_pre) m.(pm_string_buf))) else None) in
            let vmap := if is_prerelease then m.(pm_pkg).(np_prereleases) else m.(pm_pkg).(np_releases) in
            let! versions := ExternalSlice_get vmap.(vm_keys) m.(pm_versions) in
            let! packages := ExternalSlice_get vmap.(vm_values) m.(pm_package_versions) in
            let! r := dist_tag_search m versions packages min_age_ms latest_version expected_tag (length versions)
                        (Some dist_result.(fr_package)) None in
            match r with
            | inl result => Done (FoundWithFilter result (Some dist_result.(fr_version)))
            | inr (Some result) => Done (FoundWithFilter result (Some dist_result.(fr_version)))
            | inr None => Done (FindErr AllVersionsTooRecent)
            end
      end
  end.
End Clock.
