(* ===== verification/NpmTheorems.v ===== *)
(** * The choice of a version: what the code promises

    Without a minimum age, the highest release that satisfies the range is
    chosen, or the version tagged ["latest"], or the highest pre-release. With
    one, no version that is too recent is ever given, and the search fails only
    when nothing old enough satisfies the range. *)
From Stdlib Require Import ZArith Lia SpecFloat Sorted.
From stdpp Require Import base list numbers option.
From S2P Require Import Prelude Strings SemverString SemverVersion SemverRange SemverQuery Npm.
#[local] Open Scope nat_scope.

(** ** Manifests *)

Definition entries (m : PackageManifest) (vmap : ExternVersionMap) : list (Version * PackageVersion) :=
  match ExternalSlice_get vmap.(vm_keys) m.(pm_versions), ExternalSlice_get vmap.(vm_values) m.(pm_package_versions) with
  | Done keys, Done values => zip keys values
  | _, _ => []
  end.

(** The windows are in their arrays, and every version has its package. *)
Definition wf_map (m : PackageManifest) (vmap : ExternVersionMap) : Prop :=
  exists keys values,
    ExternalSlice_get vmap.(vm_keys) m.(pm_versions) = Done keys /\
    ExternalSlice_get vmap.(vm_values) m.(pm_package_versions) = Done values /\
    length keys = length values /\ (Z.of_nat (length keys) < two32)%Z.

Definition wf_tags (m : PackageManifest) : Prop :=
  exists versions tags,
    ExternalSlice_get m.(pm_pkg).(np_dist_tags).(dt_versions) m.(pm_versions) = Done versions /\
    ExternalSlice_get m.(pm_pkg).(np_dist_tags).(dt_tags) m.(pm_external_strings) = Done tags /\
    length tags <= length versions.

Definition wf_manifest (m : PackageManifest) : Prop :=
  wf_map m m.(pm_pkg).(np_releases) /\ wf_map m m.(pm_pkg).(np_prereleases) /\ wf_tags m.

Lemma nth_item_Some {A} (l : list A) i x : l !! i = Some x -> nth_item l i = Done x.
Proof. unfold nth_item. by intros ->. Qed.

Lemma zip_lookup {A B} (l : list A) (k : list B) i x y :
  l !! i = Some x -> k !! i = Some y -> zip l k !! i = Some (x, y).
Proof. intros H1 H2. rewrite lookup_zip_with, H1, H2. done. Qed.

(** Going down the indices is going along the reversed list. *)
Lemma zip_take_S {A B} (l : list A) (k : list B) i x y :
  l !! i = Some x -> k !! i = Some y -> reverse (take (S i) (zip l k)) = (x, y) :: reverse (take i (zip l k)).
Proof. intros H1 H2. rewrite (take_S_r _ _ (x, y)) by by apply zip_lookup. by rewrite reverse_app. Qed.

Lemma lookup_both {A B} (l : list A) (k : list B) i :
  length l = length k -> S i <= length l -> exists x y, l !! i = Some x /\ k !! i = Some y.
Proof.
  intros E H. destruct (lookup_lt_is_Some_2 l i) as [x Hx]; [lia|].
  destruct (lookup_lt_is_Some_2 k i) as [y Hy]; [lia|]. by exists x, y.
Qed.

Lemma zip_full {A B} (l : list A) (k : list B) : length l = length k -> take (length l) (zip l k) = zip l k.
Proof. intros E. apply take_ge. rewrite length_zip_with. lia. Qed.

(** *** Lookup *)

Definition to_result (e : Version * PackageVersion) : FindResult := mkFindResult e.1 e.2.

Lemma find_key_loop_find keys (values : list PackageVersion) k v :
  length keys = length values ->
  match find_key_loop keys k v with
  | Some i => exists j x y, i = k + j /\ keys !! j = Some x /\ values !! j = Some y /\
                List.find (fun e => Version_eql e.1 v) (zip keys values) = Some (x, y)
  | None => List.find (fun e => Version_eql e.1 v) (zip keys values) = None
  end.
Proof.
  revert values k. induction keys as [|x keys IH]; intros [|y values] k Hl; [done..|]. cbn [find_key_loop zip_with List.find fst].
  destruct (Version_eql x v); [exists 0, x, y; split_and!; (done || lia)|].
  specialize (IH values (S k) ltac:(cbn in Hl; lia)). destruct (find_key_loop keys (S k) v) as [i|]; [|done].
  destruct IH as (j & x' & y' & -> & Hx & Hy & E). exists (S j), x', y'. split_and!; done || lia.
Qed.

(** The window a version is looked for in. *)
Definition map_of (m : PackageManifest) (v : Version) : ExternVersionMap :=
  if negb (has_pre v.(tag)) then m.(pm_pkg).(np_releases) else m.(pm_pkg).(np_prereleases).

Lemma find_by_version_find m v :
  wf_map m (map_of m v) ->
  find_by_version m v = Done (to_result <$> List.find (fun e => Version_eql e.1 v) (entries m (map_of m v))).
Proof.
  intros (keys & values & Ek & Ev & Hl & H32). unfold find_by_version, find_key_index, entries. fold (map_of m v).
  rewrite Ev, Ek. cbn [obind]. pose proof (find_key_loop_find keys values 0 v Hl) as Hf.
  destruct (find_key_loop keys 0 v) as [i|]; cbn [fmap option_fmap option_map]; [|by rewrite Hf].
  destruct Hf as (j & x & y & -> & Hx & Hy & E). rewrite E.
  assert (Hj : Z.to_nat (as_u32 (Z.of_nat (0 + j))) = j).
  { pose proof (lookup_lt_Some _ _ _ Hx). unfold as_u32. rewrite Z.mod_small by lia. lia. }
  rewrite Hj, (nth_item_Some _ _ _ Hx). cbn [obind]. by rewrite (nth_item_Some _ _ _ Hy).
Qed.

Lemma wf_map_of m v : wf_manifest m -> wf_map m (map_of m v).
Proof. intros (H1 & H2 & _). unfold map_of. by destruct (negb _). Qed.

Lemma dist_tag_loop_ok m versions tags i tag_ :
  wf_manifest m -> i + length tags <= length versions ->
  exists o, dist_tag_loop m versions tags i tag_ = Done o /\
    forall r, o = Some r -> exists v, find_by_version m v = Done (Some r).
Proof.
  intros Hm. revert i. induction tags as [|t tags IH]; intros i Hi; cbn [dist_tag_loop]; [by exists None|].
  cbn [length] in Hi. destruct (bool_decide _); [|apply IH; lia].
  destruct (lookup_lt_is_Some_2 versions i) as [v Hv]; [lia|]. rewrite (nth_item_Some _ _ _ Hv). cbn [obind].
  rewrite (find_by_version_find m v) by by apply wf_map_of. eexists. split; [done|].
  intros r <-. exists v. by rewrite (find_by_version_find m v) by by apply wf_map_of.
Qed.

Lemma find_by_dist_tag_ok m tag_ :
  wf_manifest m ->
  exists o, find_by_dist_tag m tag_ = Done o /\ forall r, o = Some r -> exists v, find_by_version m v = Done (Some r).
Proof.
  intros Hm. pose proof Hm as (_ & _ & (versions & tags & Ev & Et & Hl)).
  unfold find_by_dist_tag. rewrite Ev, Et. cbn [obind]. by apply dist_tag_loop_ok.
Qed.

Lemma sorted_snoc {A} (R : A -> A -> Prop) l a :
  StronglySorted R (l ++ [a]) -> StronglySorted R l /\ Forall (fun y => R y a) l.
Proof.
  induction l as [|x l IH]; cbn [app]; intros H; [by split; constructor|].
  inversion H as [|? ? H1 H2]; subst. destruct (IH H1) as [H3 H4]. apply Forall_app in H2 as [H2 H5].
  inversion H5; subst. by split; constructor.
Qed.

(** The last of a sorted list that satisfies a test is the greatest. *)
Lemma find_last_greatest {A} (R : A -> A -> Prop) (p : A -> bool) l :
  (forall x, R x x) -> StronglySorted R l ->
  match List.find p (reverse l) with
  | Some x => x ∈ l /\ p x = true /\ forall y, y ∈ l -> p y = true -> R y x
  | None => forall y, y ∈ l -> p y = false
  end.
Proof.
  intros Hrefl. induction l as [|a l IH] using rev_ind; intros Hs; [by intros y ?%elem_of_nil|].
  apply sorted_snoc in Hs as [Hs Ha]. specialize (IH Hs). rewrite reverse_app. cbn [reverse app List.find].
  rewrite reverse_singleton. cbn [app List.find]. destruct (p a) eqn:Ep.
  - split_and!; [apply elem_of_app; right; by left|done|].
    intros y [Hy|Hy%list_elem_of_singleton]%elem_of_app _; [|by subst].
    rewrite Forall_forall in Ha. by apply Ha, list_elem_of_In.
  - destruct (List.find p (reverse l)) as [x|].
    + destruct IH as (H1 & H2 & H3). split_and!; [apply elem_of_app; by left|done|].
      intros y [Hy|Hy%list_elem_of_singleton]%elem_of_app Hpy; [by apply H3|congruence].
    + intros y [Hy|Hy%list_elem_of_singleton]%elem_of_app; [by apply IH|by subst].
Qed.

Section Choice.
Context (m : PackageManifest) (group : Group) (group_buf : bytes).

Definition satisfied (v : Version) : bool := Group_satisfies group v group_buf m.(pm_string_buf).

(** ** Without an age *)

Lemma newest_loop_find vmap keys values i :
  ExternalSlice_get vmap.(vm_values) m.(pm_package_versions) = Done values ->
  length keys = length values -> i <= length keys ->
  newest_loop m group group_buf vmap keys i =
    Done (to_result <$> List.find (fun e => satisfied e.1) (reverse (take i (zip keys values)))).
Proof.
  intros Ev Hl. induction i as [|i IH]; intros Hi; [done|]. cbn [newest_loop].
  destruct (lookup_both keys values i Hl Hi) as (v & p & Hv & Hp).
  rewrite (nth_item_Some keys i v Hv). cbn [obind]. rewrite (zip_take_S keys values i v p) by done.
  cbn [List.find fst]. unfold satisfied at 1. destruct (Group_satisfies _ _ _ _); [|apply IH; lia].
  rewrite Ev. cbn [obind]. rewrite (nth_item_Some values i p Hp). done.
Qed.

Lemma newest_of_find vmap :
  wf_map m vmap ->
  newest_of m group group_buf vmap = Done (to_result <$> List.find (fun e => satisfied e.1) (reverse (entries m vmap))).
Proof.
  intros (keys & values & Ek & Ev & Hl & _). unfold newest_of, entries. rewrite Ek. cbn [obind].
  rewrite (newest_loop_find vmap keys values) by done. rewrite Ev. by rewrite zip_full.
Qed.
Definition among (vmap : ExternVersionMap) (r : FindResult) : Prop :=
  (r.(fr_version), r.(fr_package)) ∈ entries m vmap.

Definition none_of (vmap : ExternVersionMap) : Prop :=
  forall e, e ∈ entries m vmap -> satisfied e.1 = false.

Definition not_above (a b : Version * PackageVersion) : Prop :=
  precedence_cmp (precedence a.1 m.(pm_string_buf)) (precedence b.1 m.(pm_string_buf)) <> Gt.

Definition in_order (vmap : ExternVersionMap) : Prop := StronglySorted not_above (entries m vmap).

(** The highest version of a window that satisfies the group. *)
Definition highest (vmap : ExternVersionMap) (r : FindResult) : Prop :=
  among vmap r /\ satisfied r.(fr_version) = true /\
  forall e, e ∈ entries m vmap -> satisfied e.1 = true -> not_above e (r.(fr_version), r.(fr_package)).

Definition wants_pre : bool := FlagsBitSet_is_set group.(g_flags) Flags_PRE.

Lemma newest_of_highest vmap :
  wf_map m vmap -> in_order vmap ->
  exists o, newest_of m group group_buf vmap = Done o /\
    match o with
    | Some r => highest vmap r
    | None => none_of vmap
    end.
Proof.
  intros Hw Hs. rewrite newest_of_find by done. eexists. split; [done|].
  pose proof (find_last_greatest not_above (fun e => satisfied e.1) (entries m vmap)) as H.
  specialize (H ltac:(intros x; unfold not_above; rewrite (cmp_refl precedence_cmp); discriminate) Hs).
  destruct (List.find _ _) as [[v p]|]; cbn [fmap option_fmap option_map]; [|exact H].
  destruct H as (H1 & H2 & H3). split_and!; [done|done|exact H3].
Qed.

(** The version tagged latest is preferred: it satisfies the group and, when the
    group names a pre-release, it is the version of the first comparator. *)
Definition prefers (r : FindResult) : Prop :=
  satisfied r.(fr_version) = true /\
  (wants_pre = true ->
   Version_order (left (first_range group)).(c_version) r.(fr_version) group_buf m.(pm_string_buf) = Eq).

Lemma takes_latest_iff r : takes_latest m group group_buf r = true <-> prefers r.
Proof.
  unfold takes_latest, prefers, satisfied, wants_pre. destruct (Group_satisfies _ _ _ _); [|by split; [|intros []]].
  destruct (FlagsBitSet_is_set _ _); [|by split].
  destruct (Version_order _ _ _ _); split; try done; intros [_ H]; by specialize (H eq_refl).
Qed.

(** What is chosen when the version tagged latest is not. *)
Definition newest_answer (o : option FindResult) : Prop :=
  match o with
  | Some r => highest m.(pm_pkg).(np_releases) r \/
      wants_pre = true /\ none_of m.(pm_pkg).(np_releases) /\ highest m.(pm_pkg).(np_prereleases) r
  | None => none_of m.(pm_pkg).(np_releases) /\ (wants_pre = true -> none_of m.(pm_pkg).(np_prereleases))
  end.

Lemma find_best_version_range :
  wf_manifest m -> in_order m.(pm_pkg).(np_releases) -> in_order m.(pm_pkg).(np_prereleases) ->
  (left (first_range group)).(c_op) <> OpEql ->
  exists tagged o, find_by_dist_tag m latest = Done tagged /\ find_best_version m group group_buf = Done o /\
    ((exists r, tagged = Some r /\ prefers r /\ o = Some r) \/
     (forall r, tagged = Some r -> ~ prefers r) /\ newest_answer o).
Proof.
  intros Hm Hr Hp Hop. pose proof Hm as (Hmr & Hmp & _).
  unfold find_best_version. rewrite bool_decide_eq_false_2 by done.
  destruct (find_by_dist_tag_ok m latest Hm) as (tagged & Et & _). rewrite Et. cbn [obind]. exists tagged.
  destruct (newest_of_highest _ Hmr Hr) as (rel & -> & Hrel).
  destruct (newest_of_highest _ Hmp Hp) as (pre & -> & Hpre). cbn [obind]. fold wants_pre.
  assert (Hnewest : exists o,
    (match rel with Some r => Done (Some r) | None => if wants_pre then Done pre else Done None end) = Done o /\ newest_answer o).
  { destruct rel as [r|]; [exists (Some r); split; [done|by left]|].
    destruct wants_pre eqn:Ew; [exists pre; split; [done|]|exists None; split; [done|]; cbn; by rewrite Ew].
    destruct pre as [r|]; [by right|by split]. }
  destruct Hnewest as (o & Eo & Ho).
  destruct tagged as [t|]; [destruct (takes_latest m group group_buf t) eqn:El|].
  - exists (Some t). split_and!; [done..|]. left. exists t. split_and!; [done| |done]. by apply takes_latest_iff.
  - exists o. split_and!; [done|exact Eo|]. right. split; [|done]. intros r [= <-] H%takes_latest_iff. congruence.
  - exists o. split_and!; [done|exact Eo|]. by right.
Qed.

(** What is given for an exact version: the version of the manifest that equals it. *)
Definition exact_answer (v : Version) (o : option FindResult) : Prop :=
  match o with
  | Some r => among (map_of m v) r /\ Version_eql r.(fr_version) v = true
  | None => forall e, e ∈ entries m (map_of m v) -> Version_eql e.1 v = false
  end.

Lemma find_by_version_exact v : wf_manifest m -> exists o, find_by_version m v = Done o /\ exact_answer v o.
Proof.
  intros Hm. rewrite find_by_version_find by by apply wf_map_of. eexists. split; [done|].
  destruct (List.find _ _) as [[x y]|] eqn:Ef; cbn.
  - apply find_some in Ef as [Hin He]. split; [by apply list_elem_of_In in Hin|done].
  - intros e He. apply list_elem_of_In in He. by apply (find_none _ _ Ef e).
Qed.

(** ** With a minimum age *)

Section Age.
Context (start_time : Z) (min_age : f64).

Definition recent (p : PackageVersion) : bool := is_package_version_too_recent start_time p min_age.

(** The loop of [search_version_list] along the reversed list. *)
Fixpoint search_rev (l : list (Version * PackageVersion)) (st : SearchState) : FindResult + SearchState :=
  match l with
  | [] => inr st
  | (v, p) :: l =>
      if satisfied v then
        if recent p then
          search_rev l (mkSearch (Some p) st.(best_version)
            (match st.(newest_filtered) with Some v => Some v | None => Some v end))
        else
          match st.(prev_blocked) with
          | Some prev =>
              if too_far_back start_time p min_age then
                inr (mkSearch st.(prev_blocked) (or_this st.(best_version) (mkFindResult v p)) st.(newest_filtered))
              else if is_stable prev p min_age then
                inr (mkSearch st.(prev_blocked) (Some (mkFindResult v p)) st.(newest_filtered))
              else search_rev l (mkSearch (Some p) (or_this st.(best_version) (mkFindResult v p)) st.(newest_filtered))
          | None => inl (mkFindResult v p)
          end
      else search_rev l st
  end.

Lemma search_loop_rev versions packages i st :
  length versions = length packages -> i <= length versions ->
  search_loop start_time m group group_buf versions packages min_age i st =
    Done (search_rev (reverse (take i (zip versions packages))) st).
Proof.
  intros Hl. revert st. induction i as [|i IH]; intros st Hi; [done|]. cbn [search_loop].
  destruct (lookup_both versions packages i Hl Hi) as (v & p & Hv & Hp).
  rewrite (nth_item_Some _ _ _ Hv). cbn [obind]. rewrite (zip_take_S _ _ i v p) by done. cbn [search_rev].
  unfold satisfied at 1. destruct (Group_satisfies _ _ _ _); [|apply IH; lia].
  rewrite (nth_item_Some _ _ _ Hp). cbn [obind]. unfold recent at 1.
  destruct (is_package_version_too_recent _ _ _); [apply IH; lia|].
  destruct (prev_blocked st) as [prev|]; [|done].
  destruct (too_far_back _ _ _); [done|]. destruct (is_stable _ _ _); [done|]. apply IH. lia.
Qed.

(** A version the search may give. *)
Definition acceptable (l : list (Version * PackageVersion)) (r : FindResult) : Prop :=
  (r.(fr_version), r.(fr_package)) ∈ l /\ satisfied r.(fr_version) = true /\ recent r.(fr_package) = false.

(** A version that satisfies the group and is too recent. *)
Definition held_back (l : list (Version * PackageVersion)) (v : Version) : Prop :=
  exists p, (v, p) ∈ l /\ satisfied v = true /\ recent p = true.

Lemma acceptable_cons e l r : acceptable l r -> acceptable (e :: l) r.
Proof. intros (H1 & H2). split; [by right|done]. Qed.

Lemma held_back_cons e l v : held_back l v -> held_back (e :: l) v.
Proof. intros (p & H1 & H2). exists p. split; [by right|done]. Qed.

Lemma or_this_Some best r b : or_this best r = Some b -> best = Some b \/ b = r.
Proof. destruct best; cbn; [by left|]. intros [= <-]. by right. Qed.

Lemma or_this_None best r : or_this best r <> None.
Proof. by destruct best. Qed.

Lemma search_rev_spec l st :
  match search_rev l st with
  | inl r => acceptable l r
  | inr st' =>
      (forall b, st'.(best_version) = Some b -> st.(best_version) = Some b \/ acceptable l b) /\
      (st'.(best_version) = None -> st.(best_version) = None /\
         forall v p, (v, p) ∈ l -> satisfied v = true -> recent p = true) /\
      (forall v, st'.(newest_filtered) = Some v -> st.(newest_filtered) = Some v \/ held_back l v) /\
      (st'.(newest_filtered) = None -> st.(newest_filtered) = None /\
         (st'.(best_version) = None -> forall v p, (v, p) ∈ l -> satisfied v = false))
  end.
Proof.
  revert st. induction l as [|[v p] l IH]; intros st; cbn [search_rev].
  { split_and!; [by left|split; [done|by intros ? ? ?%elem_of_nil]|by left|split; [done|by intros _ ? ? ?%elem_of_nil]]. }
  destruct (satisfied v) eqn:Esat.
  2: { specialize (IH st). destruct (search_rev l st) as [r|st']; [by apply acceptable_cons|].
       destruct IH as (H1 & H2 & H3 & H4). split_and!.
       - intros b Hb. destruct (H1 b Hb); [by left|right; by apply acceptable_cons].
       - intros Hb. destruct (H2 Hb) as (H5 & H6). split; [done|].
         intros v' p' [[= -> ->]|Hin]%elem_of_cons Hs'; [congruence|by eapply H6].
       - intros w Hw. destruct (H3 w Hw); [by left|right; by apply held_back_cons].
       - intros Hn. destruct (H4 Hn) as (H5 & H6). split; [done|].
         intros Hb v' p' [[= -> ->]|Hin]%elem_of_cons; [done|by eapply H6]. }
  assert (Hhead : recent p = false -> acceptable ((v, p) :: l) (mkFindResult v p)) by (intros; split; [by left|done]).
  destruct (recent p) eqn:Erec.
  - specialize (IH (mkSearch (Some p) (best_version st) (match newest_filtered st with Some v => Some v | None => Some v end))).
    destruct (search_rev l _) as [r|st']; [by apply acceptable_cons|]. cbn [best_version newest_filtered] in IH.
    destruct IH as (H1 & H2 & H3 & H4). split_and!.
    + intros b Hb. destruct (H1 b Hb); [by left|right; by apply acceptable_cons].
    + intros Hb. destruct (H2 Hb) as (H5 & H6). split; [done|].
      intros v' p' [[= -> ->]|Hin]%elem_of_cons Hs'; [done|by eapply H6].
    + intros w Hw. destruct (H3 w Hw) as [H|]; [|right; by apply held_back_cons].
      destruct (newest_filtered st); [by left|]. injection H as ->. right. exists p. split; [by left|done].
    + intros Hn. destruct (H4 Hn) as (H5 & _). by destruct (newest_filtered st).
  - specialize (Hhead eq_refl). destruct (prev_blocked st) as [prev|]; [|exact Hhead].
    destruct (too_far_back _ _ _); [|destruct (is_stable _ _ _)].
    + cbn [best_version newest_filtered]. split_and!; [|by intros ?%or_this_None|by left|split; [done|by intros ?%or_this_None]].
      intros b [?| ->]%or_this_Some; [by left|by right].
    + cbn [best_version newest_filtered]. split_and!; [|done|by left|done]. intros b [= <-]. by right.
    + specialize (IH (mkSearch (Some p) (or_this (best_version st) (mkFindResult v p)) (newest_filtered st))).
      destruct (search_rev l _) as [r|st']; [by apply acceptable_cons|]. cbn [best_version newest_filtered] in IH.
      destruct IH as (H1 & H2 & H3 & H4). split_and!.
      * intros b Hb. destruct (H1 b Hb) as [[?| ->]%or_this_Some|]; [by left|by right|right; by apply acceptable_cons].
      * intros Hb. destruct (H2 Hb) as (H5 & _). by apply or_this_None in H5.
      * intros w Hw. destruct (H3 w Hw); [by left|right; by apply held_back_cons].
      * intros Hn. destruct (H4 Hn) as (H5 & _). split; [done|]. intros Hb. destruct (H2 Hb) as (H6 & _). by apply or_this_None in H6.
Qed.
Lemma acceptable_reverse l r : acceptable (reverse l) r <-> acceptable l r.
Proof. unfold acceptable. by rewrite elem_of_reverse. Qed.

Lemma held_back_reverse l v : held_back (reverse l) v <-> held_back l v.
Proof. unfold held_back. by setoid_rewrite elem_of_reverse. Qed.

(** What a search of one window may answer. *)
Definition search_answer (vmap : ExternVersionMap) (newest0 : option Version) (found : option FindVersionResult)
    (newest : option Version) : Prop :=
  match found with
  | Some (Found r) => acceptable (entries m vmap) r
  | Some (FoundWithFilter r nf) =>
      acceptable (entries m vmap) r /\ exists v, nf = Some v /\ (newest0 = Some v \/ held_back (entries m vmap) v)
  | Some (FindErr _) => False
  | None =>
      (forall v p, (v, p) ∈ entries m vmap -> satisfied v = true -> recent p = true) /\
      (forall v, newest = Some v -> newest0 = Some v \/ held_back (entries m vmap) v) /\
      (newest = None -> newest0 = None /\ none_of vmap)
  end.

Lemma search_list_ok vmap newest0 :
  wf_map m vmap ->
  exists found newest, search_list start_time m group group_buf vmap min_age newest0 = Done (found, newest) /\
    search_answer vmap newest0 found newest.
Proof.
  intros (keys & values & Ek & Ev & Hl & _). unfold search_list. rewrite Ek, Ev. cbn [obind].
  unfold search_version_list. rewrite search_loop_rev by done. cbn [obind]. rewrite zip_full by done.
  assert (Ee : entries m vmap = zip keys values) by (unfold entries; by rewrite Ek, Ev).
  pose proof (search_rev_spec (reverse (zip keys values)) (mkSearch None None newest0)) as H.
  destruct (search_rev _ _) as [r|st]; cbn [best_version newest_filtered] in H.
  { eexists _, _. split; [done|]. unfold search_answer. rewrite Ee. by apply acceptable_reverse. }
  destruct H as (H1 & H2 & H3 & H4). setoid_rewrite held_back_reverse in H3.
  setoid_rewrite elem_of_reverse in H2. setoid_rewrite elem_of_reverse in H4.
  destruct (best_version st) as [b|] eqn:Eb.
  - destruct (H1 b eq_refl) as [[=]|Hb]. apply (proj1 (acceptable_reverse _ _)) in Hb.
    destruct (newest_filtered st) as [nf|] eqn:En; (eexists _, _; split; [done|]); unfold search_answer; rewrite Ee.
    + split; [done|]. exists nf. split; [done|]. by apply H3.
    + done.
  - eexists _, _. split; [done|]. unfold search_answer, none_of. rewrite Ee. destruct (H2 eq_refl) as (_ & H5).
    split_and!; [done|done|]. intros Hn. destruct (H4 Hn) as (H6 & H7). split; [done|]. intros [v p] Hin. by eapply H7.
Qed.

(** What [find_by_version] gives is in its window. *)
Lemma find_by_version_in v r :
  wf_manifest m -> find_by_version m v = Done (Some r) ->
  among m.(pm_pkg).(np_releases) r \/ among m.(pm_pkg).(np_prereleases) r.
Proof.
  intros Hm E. rewrite find_by_version_find in E by by apply wf_map_of. injection E as E.
  apply fmap_Some in E as ([x y] & Hf & ->). apply find_some in Hf as [Hin _]. apply list_elem_of_In in Hin.
  unfold among. cbn [to_result fr_version fr_package fst snd]. unfold map_of in Hin. destruct (negb _); [by left|by right].
Qed.

(** The versions of the manifest. *)
Definition all_entries : list (Version * PackageVersion) :=
  entries m m.(pm_pkg).(np_releases) ++ entries m m.(pm_pkg).(np_prereleases).

Lemma acceptable_all vmap r :
  vmap = m.(pm_pkg).(np_releases) \/ vmap = m.(pm_pkg).(np_prereleases) ->
  acceptable (entries m vmap) r -> acceptable all_entries r.
Proof. intros [->| ->] (H & H'); (split; [apply elem_of_app|done]); [by left|by right]. Qed.

Lemma held_back_all vmap v :
  vmap = m.(pm_pkg).(np_releases) \/ vmap = m.(pm_pkg).(np_prereleases) ->
  held_back (entries m vmap) v -> held_back all_entries v.
Proof. intros [->| ->] (p & H & H'); exists p; (split; [apply elem_of_app|done]); [by left|by right]. Qed.

(** What the search with an age promises of its answer. *)
Definition filter_answer (r : FindVersionResult) : Prop :=
  match r with
  | Found x => acceptable all_entries x
  | FoundWithFilter x nf => acceptable all_entries x /\ exists v, nf = Some v /\ held_back all_entries v
  | FindErr NotFound => none_of m.(pm_pkg).(np_releases) /\ (wants_pre = true -> none_of m.(pm_pkg).(np_prereleases))
  | FindErr AllVersionsTooRecent =>
      (exists v, held_back all_entries v) /\
      (forall v p, (v, p) ∈ entries m m.(pm_pkg).(np_releases) -> satisfied v = true -> recent p = true) /\
      (wants_pre = true ->
       forall v p, (v, p) ∈ entries m m.(pm_pkg).(np_prereleases) -> satisfied v = true -> recent p = true)
  | FindErr TooRecent => False
  end.

Lemma search_windows newest0 :
  wf_manifest m -> (forall v, newest0 = Some v -> held_back all_entries v) ->
  exists r,
    (let! (found, newest) := search_list start_time m group group_buf m.(pm_pkg).(np_releases) min_age newest0 in
     match found with
     | Some result => Done result
     | None =>
         let! (found, newest) :=
           (if wants_pre then search_list start_time m group group_buf m.(pm_pkg).(np_prereleases) min_age newest
            else Done (None, newest)) in
         match found with
         | Some result => Done result
         | None => match newest with Some _ => Done (FindErr AllVersionsTooRecent) | None => Done (FindErr NotFound) end
         end
     end) = Done r /\ filter_answer r.
Proof.
  intros (Hr & Hp & _) H0.
  destruct (search_list_ok _ newest0 Hr) as (found & newest & -> & Ha). cbn [obind].
  assert (Hfound : forall vmap n0 f n, vmap = m.(pm_pkg).(np_releases) \/ vmap = m.(pm_pkg).(np_prereleases) ->
    (forall v, n0 = Some v -> held_back all_entries v) -> search_answer vmap n0 (Some f) n -> filter_answer f).
  { intros vmap n0 f n Hv Hn0 Hans. destruct f as [x|x nf|e]; cbn in Hans |- *; [by eapply acceptable_all| |done].
    destruct Hans as (Hx & v & -> & Hnv). split; [by eapply acceptable_all|]. exists v. split; [done|].
    destruct Hnv; [by apply Hn0|by eapply held_back_all]. }
  destruct found as [f|]; [exists f; split; [done|]; eapply Hfound; [by left|exact H0|exact Ha]|].
  destruct Ha as (Ha1 & Ha2 & Ha3).
  assert (Hn : forall v, newest = Some v -> held_back all_entries v).
  { intros v Hv. destruct (Ha2 v Hv); [by apply H0|eapply held_back_all; [by left|done]]. }
  destruct wants_pre eqn:Ewp.
  - destruct (search_list_ok _ newest Hp) as (found2 & newest2 & -> & Hb). cbn [obind].
    destruct found2 as [f|]; [exists f; split; [done|]; eapply Hfound; [by right|exact Hn|exact Hb]|].
    destruct Hb as (Hb1 & Hb2 & Hb3). destruct newest2 as [w|]; (eexists; split; [done|]); cbn.
    + split_and!; [exists w|done|done]. destruct (Hb2 w eq_refl); [by apply Hn|eapply held_back_all; [by right|done]].
    + destruct (Hb3 eq_refl) as (Hn1 & Hn2). split; [by apply Ha3|done].
  - cbn [obind]. destruct newest as [w|]; (eexists; split; [done|]); cbn.
    + split_and!; [exists w; by apply Hn|done|by rewrite Ewp].
    + split; [by apply Ha3|by rewrite Ewp].
Qed.

Lemma find_with_filter_ok minimum exclusions :
  wf_manifest m -> (left (first_range group)).(c_op) <> OpEql -> age_gate m minimum exclusions = Some min_age ->
  exists r, find_best_version_with_filter start_time m group group_buf minimum exclusions = Done r /\ filter_answer r.
Proof.
  intros Hm Hop Hg. unfold find_best_version_with_filter. rewrite Hg, bool_decide_eq_false_2 by done.
  destruct (find_by_dist_tag_ok m latest Hm) as (tagged & -> & Ht). cbn [obind]. fold wants_pre.
  destruct tagged as [t|]; [|by apply search_windows].
  destruct (Ht t eq_refl) as (v & Ev).
  assert (Hin : (fr_version t, fr_package t) ∈ all_entries).
  { apply elem_of_app. destruct (find_by_version_in v t Hm Ev); [by left|by right]. }
  destruct (Group_satisfies _ _ _ _) eqn:Esat; [|by apply search_windows].
  destruct (is_package_version_too_recent _ _ _) eqn:Erec.
  { apply search_windows; [done|]. intros w [= <-]. exists (fr_package t). by split. }
  destruct (takes_latest m group group_buf t); [|by apply search_windows].
  exists (Found t). split; [done|]. by split.
Qed.
(** *** By a tag *)

(** Not above the tagged version and, for a pre-release, of its channel. *)
Definition follows (latest_version : Version) (expected_tag : option bytes) (v : Version) : Prop :=
  Version_order v latest_version m.(pm_string_buf) m.(pm_string_buf) <> Gt /\
  match expected_tag with
  | Some expected => channel (External_slice v.(tag).(tag_pre) m.(pm_string_buf)) = expected
  | None => True
  end.

Definition tag_choice (l : list (Version * PackageVersion)) latest_version expected_tag (x : FindResult) : Prop :=
  (x.(fr_version), x.(fr_package)) ∈ l /\ recent x.(fr_package) = false /\ follows latest_version expected_tag x.(fr_version).

Lemma dist_tag_search_ok versions packages lv et i prev best :
  length versions = length packages -> i <= length versions ->
  (forall b, best = Some b -> tag_choice (zip versions packages) lv et b) ->
  exists r, dist_tag_search start_time m versions packages min_age lv et i prev best = Done r /\
    match r with
    | inl x | inr (Some x) => tag_choice (zip versions packages) lv et x
    | inr None => best = None /\
        forall v p, (v, p) ∈ take i (zip versions packages) -> follows lv et v -> recent p = true
    end.
Proof.
  intros Hl. revert prev best. induction i as [|i IH]; intros prev best Hi Hb; cbn [dist_tag_search].
  { exists (inr best). split; [done|]. destruct best as [b|]; [by apply Hb|]. split; [done|]. by intros v p ?%elem_of_nil. }
  destruct (lookup_both versions packages i Hl Hi) as (v & p & Hv & Hp).
  rewrite (nth_item_Some _ _ _ Hv), (nth_item_Some _ _ _ Hp). cbn [obind].
  pose proof (zip_lookup _ _ _ _ _ Hv Hp) as Hz. rewrite (take_S_r _ _ _ Hz).
  assert (Hnone : forall prev' best', (forall b, best' = Some b -> tag_choice (zip versions packages) lv et b) ->
    (best' = None -> best = None) -> (best' = None -> follows lv et v -> recent p = true) ->
    exists r, dist_tag_search start_time m versions packages min_age lv et i prev' best' = Done r /\
    match r with
    | inl x | inr (Some x) => tag_choice (zip versions packages) lv et x
    | inr None => best = None /\
        forall v' p', (v', p') ∈ take i (zip versions packages) ++ [(v, p)] -> follows lv et v' -> recent p' = true
    end).
  { intros prev' best' Hb' Hn Hlast. destruct (IH prev' best' ltac:(lia) Hb') as (r & -> & Hr). exists r. split; [done|].
    destruct r as [x|[x|]]; [done..|]. destruct Hr as (-> & Hr). split; [by apply Hn|].
    intros v' p' [Hin|[= -> ->]%list_elem_of_singleton]%elem_of_app Hf; [by eapply Hr|by apply Hlast]. }
  destruct (comparison_eqb _ Gt) eqn:Eo; [apply Hnone; try done; intros _ [Hf _]; by destruct (Version_order _ _ _ _)|].
  assert (Hord : Version_order v lv (pm_string_buf m) (pm_string_buf m) <> Gt) by (by destruct (Version_order _ _ _ _)).
  destruct (match et with Some e => _ | None => false end) eqn:Ec.
  { apply Hnone; try done. intros _ [_ Hf]. destruct et as [e|]; [|done].
    apply negb_true_iff, bool_decide_eq_false in Ec. done. }
  assert (Hfol : follows lv et v).
  { split; [done|]. destruct et as [e|]; [|done]. by apply negb_false_iff, bool_decide_eq_true in Ec. }
  fold (recent p). destruct (recent p) eqn:Er; [by apply Hnone|].
  assert (Hthis : tag_choice (zip versions packages) lv et (mkFindResult v p)).
  { split; [by eapply list_elem_of_lookup_2|by split]. }
  assert (Hor : forall b, or_this best (mkFindResult v p) = Some b -> tag_choice (zip versions packages) lv et b).
  { intros b [?| ->]%or_this_Some; [by apply Hb|done]. }
  destruct prev as [prev|]; [|by eexists].
  destruct (too_far_back _ _ _); [eexists; split; [done|]; destruct best; [by apply Hb|done]|].
  destruct (is_stable _ _ _); [by eexists|].
  apply Hnone; [done|by intros ?%or_this_None|by intros ?%or_this_None].
Qed.
End Age.
End Choice.

Section Tagged.
Context (m : PackageManifest) (start_time : Z) (min_age : f64).

(** What a tag asks of the versions below it. *)
Definition tag_expects (v : Version) : option bytes :=
  if has_pre v.(tag) then Some (channel (External_slice v.(tag).(tag_pre) m.(pm_string_buf))) else None.

Definition tag_window (v : Version) : ExternVersionMap :=
  if has_pre v.(tag) then m.(pm_pkg).(np_prereleases) else m.(pm_pkg).(np_releases).

Definition tag_answer (dist : option FindResult) (r : FindVersionResult) : Prop :=
  match dist, r with
  | None, FindErr NotFound => True
  | Some d, Found x => x = d /\ recent start_time min_age d.(fr_package) = false
  | Some d, FoundWithFilter x nf =>
      nf = Some d.(fr_version) /\ recent start_time min_age d.(fr_package) = true /\
      tag_choice m start_time min_age (entries m (tag_window d.(fr_version))) d.(fr_version) (tag_expects d.(fr_version)) x
  | Some d, FindErr AllVersionsTooRecent =>
      recent start_time min_age d.(fr_package) = true /\
      forall v p, (v, p) ∈ entries m (tag_window d.(fr_version)) ->
        follows m d.(fr_version) (tag_expects d.(fr_version)) v -> recent start_time min_age p = true
  | _, _ => False
  end.

Lemma find_by_tag_ok tag_ minimum exclusions :
  wf_manifest m -> age_gate m minimum exclusions = Some min_age ->
  exists dist r, find_by_dist_tag m tag_ = Done dist /\
    find_by_dist_tag_with_filter start_time m tag_ minimum exclusions = Done r /\ tag_answer dist r.
Proof.
  intros Hm Hg. unfold find_by_dist_tag_with_filter.
  destruct (find_by_dist_tag_ok m tag_ Hm) as (dist & -> & _). cbn [obind].
  destruct dist as [d|]; [|by eexists None, _]. rewrite Hg. fold (recent start_time min_age (fr_package d)).
  destruct (recent start_time min_age (fr_package d)) eqn:Er; cbn [negb]; [|by eexists (Some d), _].
  fold (tag_window (fr_version d)). fold (tag_expects (fr_version d)).
  assert (Hw : wf_map m (tag_window (fr_version d))).
  { destruct Hm as (H1 & H2 & _). unfold tag_window. by destruct (has_pre _). }
  destruct Hw as (keys & values & Ek & Ev & Hl & _). rewrite Ek, Ev. cbn [obind].
  assert (Ee : entries m (tag_window (fr_version d)) = zip keys values) by (unfold entries; by rewrite Ek, Ev).
  destruct (dist_tag_search_ok m start_time min_age keys values (fr_version d) (tag_expects (fr_version d)) (length keys)
    (Some (fr_package d)) None Hl) as (r & -> & Hr); [done|done|]. cbn [obind]. rewrite zip_full in Hr by done.
  destruct r as [x|[x|]]; (eexists (Some d), _; split; [done|]; split; [done|]); cbn; rewrite Ee; [done..|].
  split; [done|]. apply Hr.
Qed.
End Tagged.

(** ** Properties *)

(** C21: the age gate holds. With a minimum age that applies to the package,
    whether a version is looked for by a range, by an exact version or by a tag,
    no version that is given was published after now minus that age. *)
Theorem release_age_respected (start_time : Z) (m : PackageManifest) (group : Group) (group_buf tag_ : bytes)
    (min_age : f64) (exclusions : option (list bytes)) (r : FindVersionResult) (x : FindResult) :
  wf_manifest m -> should_exclude_from_age_filter m exclusions = false ->
  find_best_version_with_filter start_time m group group_buf (Some min_age) exclusions = Done r \/
  find_by_dist_tag_with_filter start_time m tag_ (Some min_age) exclusions = Done r ->
  FindVersionResult_unwrap r = Some x ->
  f64_lt (f64_sub (current_timestamp_ms start_time) min_age) x.(fr_package).(publish_timestamp_ms) = false.
Proof.
  change (f64_lt _ _) with (is_package_version_too_recent start_time x.(fr_package) min_age).
  intros Hm Hx Hr Hu.
  assert (Hg : age_gate m (Some min_age) exclusions = Some min_age) by (cbn; by rewrite Hx).
  destruct Hr as [Hr|Hr].
  - destruct (decide ((left (first_range group)).(c_op) = OpEql)) as [He|He].
    + unfold find_best_version_with_filter in Hr. rewrite Hg, bool_decide_eq_true_2 in Hr by done.
      destruct (find_by_version m _) as [[y|]| |]; cbn [obind] in Hr; try done; [|by injection Hr as <-].
      destruct (is_package_version_too_recent _ _ _) eqn:E; injection Hr as <-; [done|]. by injection Hu as <-.
    + destruct (find_with_filter_ok m group group_buf start_time min_age (Some min_age) exclusions Hm He Hg) as (r' & E & Ha).
      rewrite Hr in E. injection E as <-. destruct r as [y|y nf|e]; [..|done]; injection Hu as <-; apply Ha.
  - destruct (find_by_tag_ok m start_time min_age tag_ (Some min_age) exclusions Hm Hg) as (dist & r' & _ & E & Ha).
    rewrite Hr in E. injection E as <-.
    destruct dist as [d|], r as [y|y nf|[]]; try done; injection Hu as <-; cbn in Ha; [by destruct Ha as [-> ?]|].
    by destruct Ha as (_ & _ & _ & ? & _).
Qed.

(** C22: without a minimum age, [find_best_version] always answers. When the first
    comparator of the range is an exact version, the answer is the version of
    the manifest that equals it, or none, whatever the alternatives behind it
    are. Otherwise it is the version tagged ["latest"] exactly when that satisfies
    the range and, for a range that names a pre-release, is the version of the
    first comparator; or else the highest release that satisfies the range, or
    else, for a range that names a pre-release, the highest pre-release that does;
    it is none only if there is none. *)
Theorem find_best_version_correct (m : PackageManifest) (group : Group) (group_buf : bytes) :
  wf_manifest m -> in_order m m.(pm_pkg).(np_releases) -> in_order m m.(pm_pkg).(np_prereleases) ->
  exists tagged o, find_by_dist_tag m latest = Done tagged /\ find_best_version m group group_buf = Done o /\
    if decide ((left (first_range group)).(c_op) = OpEql) then exact_answer m (left (first_range group)).(c_version) o
    else
      (exists r, tagged = Some r /\ prefers m group group_buf r /\ o = Some r) \/
      (forall r, tagged = Some r -> ~ prefers m group group_buf r) /\ newest_answer m group group_buf o.
Proof.
  intros Hm Hr Hp. case_decide as He; [|by apply find_best_version_range].
  destruct (find_by_dist_tag_ok m latest Hm) as (tagged & Et & _).
  destruct (find_by_version_exact m (left (first_range group)).(c_version) Hm) as (o & E & Ho).
  exists tagged, o. split_and!; [done| |done]. unfold find_best_version. by rewrite bool_decide_eq_true_2.
Qed.

(** The same with a minimum age. *)
Definition exact_filter_answer (m : PackageManifest) (start_time : Z) (min_age : f64) (v : Version) (r : FindVersionResult) : Prop :=
  match r with
  | Found x => exact_answer m v (Some x) /\ recent start_time min_age x.(fr_package) = false
  | FindErr TooRecent => exists x, exact_answer m v (Some x) /\ recent start_time min_age x.(fr_package) = true
  | FindErr NotFound => exact_answer m v None
  | _ => False
  end.

(** C38: the search with a minimum age always answers. When the first comparator
    is an exact version, whatever the alternatives behind it are, the answer is the
    version of the manifest that equals it if it is old enough, [TooRecent] if it
    is not, and [NotFound] if there is none. Otherwise a version it gives is one of
    the manifest, satisfies the range and is old enough; the version it reports as
    held back satisfies the range and is too recent; [AllVersionsTooRecent] means
    that some version satisfies the range and that every release that does, and for
    a range that names a pre-release every pre-release, is too recent; [NotFound]
    that none of these does. *)
Theorem find_best_version_with_filter_correct (start_time : Z) (m : PackageManifest) (group : Group) (group_buf : bytes)
    (minimum : option f64) (exclusions : option (list bytes)) (min_age : f64) :
  wf_manifest m -> age_gate m minimum exclusions = Some min_age ->
  exists r, find_best_version_with_filter start_time m group group_buf minimum exclusions = Done r /\
    if decide ((left (first_range group)).(c_op) = OpEql)
    then exact_filter_answer m start_time min_age (left (first_range group)).(c_version) r
    else filter_answer m group group_buf start_time min_age r.
Proof.
  intros Hm Hg. case_decide as He; [|by apply find_with_filter_ok].
  destruct (find_by_version_exact m (left (first_range group)).(c_version) Hm) as (o & E & Ho).
  unfold find_best_version_with_filter. rewrite Hg, bool_decide_eq_true_2 by done. rewrite E. cbn [obind].
  destruct o as [x|]; [|by eexists]. fold (recent start_time min_age (fr_package x)).
  destruct (recent start_time min_age (fr_package x)) eqn:Er; (eexists; split; [done|]); [by exists x|by split].
Qed.

(** *** A manifest

    Releases 1.0.0, 1.1.0 and 1.2.0 of the days 10, 99 and 100, and no tags; the
    clock says day 101. *)
Definition day (n : Z) : f64 := f64_of_Z (n * MS_PER_DAY).
Definition sample_map : ExternVersionMap := mkVersionMap (mkExternalSlice 0 3) (mkExternalSlice 0 3).
Definition no_entries : ExternVersionMap := mkVersionMap (mkExternalSlice 0 0) (mkExternalSlice 0 0).
Definition sample : PackageManifest :=
  mkManifest
    (mkNpmPackage External_default sample_map no_entries (mkDistTags (mkExternalSlice 0 0) (mkExternalSlice 0 0)))
    [] [plain 1 0 0; plain 1 1 0; plain 1 2 0] []
    [mkPackageVersion (day 10) External_default; mkPackageVersion (day 99) External_default;
     mkPackageVersion (day 100) External_default].
Definition sample_clock : Z := 101 * MS_PER_DAY * NS_PER_MS.

(** ^1.0.0 *)
Definition caret_1 : Group :=
  mkGroup (mkList (mkQuery (caret_range (mkPartial (Some 1%Z) (Some 0%Z) (Some 0%Z) Tag_default)) None) None None) None [] 0.

Lemma sample_wf : wf_manifest sample.
Proof.
  split_and!; [|exists [], []; split_and!; [done|done|done|reflexivity]|exists [], []; split_and!; [done|done|cbn; lia]].
  eexists _, _. split_and!; [reflexivity|reflexivity|reflexivity|reflexivity].
Defined.

Lemma sample_in_order : in_order sample sample_map /\ in_order sample no_entries.
Proof. split; repeat constructor; vm_compute; discriminate. Defined.

(** Three days: 1.2.0 and 1.1.0 are too recent. *)
Lemma release_age_respected_witness :
  exists x,
    find_best_version_with_filter sample_clock sample caret_1 [] (Some (day 3)) None
      = Done (FoundWithFilter x (Some (plain 1 2 0))) /\
    is_package_version_too_recent sample_clock x.(fr_package) (day 3) = false.
Proof.
  exists (mkFindResult (plain 1 0 0) (mkPackageVersion (day 10) External_default)).
  assert (E : find_best_version_with_filter sample_clock sample caret_1 [] (Some (day 3)) None
    = Done (FoundWithFilter (mkFindResult (plain 1 0 0) (mkPackageVersion (day 10) External_default)) (Some (plain 1 2 0))))
    by (vm_compute; reflexivity).
  split; [exact E|].
  apply (release_age_respected sample_clock sample caret_1 [] [] (day 3) None _ _ sample_wf eq_refl (or_introl E)). reflexivity.
Defined.

Lemma find_best_version_correct_witness :
  exists r, find_best_version sample caret_1 [] = Done (Some r) /\ newest_answer sample caret_1 [] (Some r).
Proof.
  destruct (find_best_version_correct sample caret_1 [] sample_wf (proj1 sample_in_order) (proj2 sample_in_order))
    as (tagged & o & Et & E & Ho).
  assert (E2 : find_best_version sample caret_1 [] =
    Done (Some (mkFindResult (plain 1 2 0) (mkPackageVersion (day 100) External_default)))) by (vm_compute; reflexivity).
  rewrite decide_False in Ho by (vm_compute; discriminate).
  vm_compute in Et. injection Et as <-. destruct Ho as [(r & Hr & _)|[_ Ho]]; [discriminate Hr|].
  rewrite E in E2. injection E2 as ->. exists (mkFindResult (plain 1 2 0) (mkPackageVersion (day 100) External_default)).
  split; [exact E|exact Ho].
Defined.

(** A hundred days: nothing is old enough. *)
Lemma find_best_version_with_filter_correct_witness :
  find_best_version_with_filter sample_clock sample caret_1 [] (Some (day 100)) None = Done (FindErr AllVersionsTooRecent) /\
  filter_answer sample caret_1 [] sample_clock (day 100) (FindErr AllVersionsTooRecent).
Proof.
  destruct (find_best_version_with_filter_correct sample_clock sample caret_1 [] (Some (day 100)) None (day 100) sample_wf
    eq_refl) as (r & E & Ha).
  assert (E2 : find_best_version_with_filter sample_clock sample caret_1 [] (Some (day 100)) None
    = Done (FindErr AllVersionsTooRecent)) by (vm_compute; reflexivity).
  rewrite decide_False in Ha by (vm_compute; discriminate).
  split; [exact E2|]. rewrite E in E2. injection E2 as <-. exact Ha.
Defined.

(** *** Observations *)

(** 9.9.9 || ^1.0.0 *)
Definition exact_or_caret : bytes := [57; 46; 57; 46; 57; 32; 124; 124; 32; 94; 49; 46; 48; 46; 48]%Z.

(** An exact version in front hides the alternatives behind it: 1.0.0 satisfies
    the range and is old enough, and no version is found. *)
Lemma exact_version_hides_alternatives :
  exists g, query_parse (Sliced_whole exact_or_caret) = Done g /\
    Group_satisfies g (plain 1 0 0) exact_or_caret [] = true /\
    find_best_version sample g exact_or_caret = Done None /\
    find_best_version_with_filter sample_clock sample g exact_or_caret (Some (day 3)) None = Done (FindErr NotFound).
Proof. run (query_parse (Sliced_whole exact_or_caret)). by vm_compute. Qed.
