(* ===== verification/SignalRing.v ===== *)
(** * The ring of signals

    [threading/signal_ring.rs]: signal handlers on any thread put signal numbers
    into a ring without a lock, one thread takes them out. The state is one word,
    the two 16-bit indices of the window in use, and the slots; a producer claims
    a slot by moving the tail and writes it later, so that a claimed slot may
    still be 0.

    As for the locks, a step is one atomic access, in any interleaving of any
    number of producers and one consumer; a weak compare-and-swap may fail with
    no reason. A handler that interrupts another on the same thread is one more
    producer. The orderings of the accesses (acquire, release) are taken to make
    the interleavings all there is; weaker behaviours are not modelled. *)
From Stdlib Require Import ZArith Lia.
From stdpp Require Import base list numbers option relations.
From S2P Require Import Prelude.
#[local] Open Scope Z_scope.

(** ** The code *)

Definition as_u16 (z : Z) : Z := z mod two16.

(** The head and the tail. *)
Definition unpack (state : Z) : Z * Z := (as_u16 state, as_u16 (Z.shiftr state 16)).

Definition pack_indices (head tail : Z) : Z := Z.lor (Z.shiftl tail 16) head.

Record SignalRing : Type := mkRing { sr_slots : list Z; sr_state : Z }.

(** Where a producer is: the access of [enqueue] it does next. *)
Inductive producer_pc : Type :=
| PIdle
| PLoad (signal : Z)
| PCas (signal state : Z)
| PStore (signal tail : Z).
#[export] Instance producer_pc_eq_dec : EqDecision producer_pc.
Proof. solve_decision. Defined.

(** Where the consumer is: the access of [dequeue] it does next. *)
Inductive consumer_pc : Type :=
| CIdle
| CLoad
| CSwap (state : Z)
| CCas (head signal state : Z).

(** What a step shows: a slot is claimed, or a call returns. *)
Inductive ring_event : Type :=
| Silent
| Claimed (signal : Z)
| Accepted (signal : Z)    (* [enqueue] returns [true] *)
| Rejected (signal : Z)    (* [enqueue] returns [false] *)
| Delivered (signal : Z)   (* [dequeue] returns [Some] *)
| Nothing.                 (* [dequeue] returns [None] *)

Section Ring.
Context (CAPACITY : nat).

Definition SignalRing_new : SignalRing := mkRing (replicate CAPACITY 0) 0.

(** [index as usize % CAPACITY] *)
Definition slot_index (index : Z) : nat := Z.to_nat (index mod Z.of_nat CAPACITY).

(** [tail.wrapping_sub(head) >= CAPACITY] *)
Definition is_full (state : Z) : bool :=
  let '(head, tail) := unpack state in
  Z.of_nat CAPACITY <=? as_u16 (tail - head).

(** The head of the loop of [enqueue], on the state it has read. *)
Definition enqueue_round (signal state : Z) : producer_pc * ring_event :=
  if is_full state then (PIdle, Rejected signal) else (PCas signal state, Silent).

(** One access of [enqueue]. An idle producer calls it with [want]. *)
Definition enqueue_step (want : Z) (glitch : bool) (p : producer_pc) (r : SignalRing)
    : producer_pc * SignalRing * ring_event :=
  match p with
  | PIdle => (PLoad want, r, Silent)
  | PLoad signal => let '(p, e) := enqueue_round signal (sr_state r) in (p, r, e)
  | PCas signal state =>
      if negb glitch && (sr_state r =? state) then
        let '(head, tail) := unpack state in
        (PStore signal tail, mkRing (sr_slots r) (pack_indices head (as_u16 (tail + 1))), Claimed signal)
      else let '(p, e) := enqueue_round signal (sr_state r) in (p, r, e)
  | PStore signal tail =>
      (PIdle, mkRing (<[slot_index tail := signal]> (sr_slots r)) (sr_state r), Accepted signal)
  end.

(** One access of [dequeue]. *)
Definition dequeue_step (glitch : bool) (c : consumer_pc) (r : SignalRing)
    : consumer_pc * SignalRing * ring_event :=
  match c with
  | CIdle => (CLoad, r, Silent)
  | CLoad =>
      let '(head, tail) := unpack (sr_state r) in
      if head =? tail then (CIdle, r, Nothing) else (CSwap (sr_state r), r, Silent)
  | CSwap state =>
      let '(head, _) := unpack state in
      let signal := default 0 (sr_slots r !! slot_index head) in
      let r := mkRing (<[slot_index head := 0]> (sr_slots r)) (sr_state r) in
      if signal =? 0 then (CIdle, r, Nothing) else (CCas head signal state, r, Silent)
  | CCas head signal state =>
      let '(_, tail) := unpack state in
      if negb glitch && (sr_state r =? state) then
        (CIdle, mkRing (sr_slots r) (pack_indices (as_u16 (head + 1)) tail), Delivered signal)
      else (CCas head signal (sr_state r), r, Silent)
  end.

(** The ring, its producers and its consumer. *)
Record ring_system : Type := mkRingSystem {
  rs_ring : SignalRing;
  rs_producers : list producer_pc;
  rs_consumer : consumer_pc;
}.

(** Signals are bytes other than 0. *)
Inductive ring_step : ring_system -> ring_event -> ring_system -> Prop :=
| produce r l c t want glitch p p' r' e :
    l !! t = Some p -> 0 < want < two8 -> enqueue_step want glitch p r = (p', r', e) ->
    ring_step (mkRingSystem r l c) e (mkRingSystem r' (<[t := p']> l) c)
| consume r l c glitch c' r' e :
    dequeue_step glitch c r = (c', r', e) ->
    ring_step (mkRingSystem r l c) e (mkRingSystem r' l c').

Inductive ring_run (x : ring_system) : list ring_event -> ring_system -> Prop :=
| run_nil : ring_run x [] x
| run_snoc es y e z : ring_run x es y -> ring_step y e z -> ring_run x (es ++ [e]) z.

Definition ring_start (n : nat) : ring_system := mkRingSystem SignalRing_new (replicate n PIdle) CIdle.

(** ** The queue it implements

    A bounded queue whose entries are claimed first and published later: the
    oldest entry is delivered once it is published, an entry is rejected only
    when the queue is full, and [None] is answered only when the queue is empty
    or its oldest entry is not published. *)
Inductive queue_step : list (Z * bool) -> ring_event -> list (Z * bool) -> Prop :=
| queue_silent q : queue_step q Silent q
| queue_claim q s : (length q < CAPACITY)%nat -> queue_step q (Claimed s) (q ++ [(s, false)])
| queue_accept q i s : q !! i = Some (s, false) -> queue_step q (Accepted s) (<[i := (s, true)]> q)
| queue_reject q s : length q = CAPACITY -> queue_step q (Rejected s) q
| queue_deliver q s : queue_step ((s, true) :: q) (Delivered s) q
| queue_nothing q : (forall s, head q <> Some (s, true)) -> queue_step q Nothing q.

Inductive queue_run : list ring_event -> list (Z * bool) -> Prop :=
| queue_nil : queue_run [] []
| queue_snoc es q e q' : queue_run es q -> queue_step q e q' -> queue_run (es ++ [e]) q'.
End Ring.

(** ** Indices *)

Lemma as_u16_range z : 0 <= as_u16 z < two16.
Proof. apply Z.mod_pos_bound. reflexivity. Qed.

Lemma unpack_pack head tail : 0 <= head < two16 -> 0 <= tail < two16 -> unpack (pack_indices head tail) = (head, tail).
Proof.
  intros Hh Ht. unfold pack_indices, unpack, as_u16.
  rewrite Z.lor_comm, Z.shiftl_mul_pow2, (lor_shift head tail 16) by (done || lia).
  rewrite Z.shiftr_div_pow2 by lia. change (2 ^ 16) with two16.
  rewrite Z.div_add, (Z.div_small head), Z.add_0_l by (done || unfold two16; lia).
  rewrite Z.mod_add, !Z.mod_small by (done || unfold two16; lia). done.
Qed.

(** The [u16] of a count. *)
Definition wrapped (k : nat) : Z := as_u16 (Z.of_nat k).

Lemma wrapped_succ k : as_u16 (wrapped k + 1) = wrapped (S k).
Proof. unfold wrapped, as_u16. rewrite Zplus_mod_idemp_l. f_equal. lia. Qed.

Lemma unpack_wrapped j k : unpack (pack_indices (wrapped j) (wrapped k)) = (wrapped j, wrapped k).
Proof. apply unpack_pack; apply as_u16_range. Qed.

Lemma wrapped_sub d n : Z.of_nat n < two16 -> as_u16 (wrapped (d + n) - wrapped d) = Z.of_nat n.
Proof.
  intros Hn. unfold wrapped, as_u16. rewrite <- Zminus_mod.
  replace (Z.of_nat (d + n) - Z.of_nat d) with (Z.of_nat n) by lia. apply Z.mod_small. lia.
Qed.

(** Counts less than [two16] apart are told apart. *)
Lemma wrapped_inj d i j : Z.of_nat i < two16 -> Z.of_nat j < two16 -> wrapped (d + i) = wrapped (d + j) -> i = j.
Proof.
  intros Hi Hj E. pose proof (wrapped_sub d i Hi) as Ei. rewrite E, wrapped_sub in Ei by done. lia.
Qed.

Section RingCorrect.
Context (CAPACITY bits : nat) (Hcap : CAPACITY = (2 ^ bits)%nat) (Hbits : (bits <= 15)%nat).

Lemma capacity_bounds : (0 < CAPACITY)%nat /\ Z.of_nat CAPACITY <= 32768.
Proof.
  subst CAPACITY. split; [pose proof (Nat.pow_nonzero 2 bits); lia|].
  rewrite Nat2Z.inj_pow. change 32768 with (2 ^ 15). apply Z.pow_le_mono_r; lia.
Qed.

Lemma slot_index_wrapped k : slot_index CAPACITY (wrapped k) = (k mod CAPACITY)%nat.
Proof.
  pose proof capacity_bounds. unfold slot_index, wrapped, as_u16.
  assert (E : two16 = Z.of_nat CAPACITY * 2 ^ (16 - Z.of_nat bits)).
  { subst CAPACITY. rewrite Nat2Z.inj_pow, <- Z.pow_add_r by lia. by replace (Z.of_nat bits + (16 - Z.of_nat bits)) with 16 by lia. }
  rewrite E, Z.rem_mul_r, Z.mul_comm, Z.mod_add, Z.mod_mod by lia.
  rewrite <- Nat2Z.inj_mod. apply Nat2Z.id.
Qed.

Lemma slot_inj d i j : (i < CAPACITY)%nat -> (j < CAPACITY)%nat ->
  ((d + i) mod CAPACITY = (d + j) mod CAPACITY)%nat -> i = j.
Proof.
  intros Hi Hj E.
  pose proof (Nat.div_mod (d + i) CAPACITY). pose proof (Nat.div_mod (d + j) CAPACITY).
  assert (((d + i) / CAPACITY = (d + j) / CAPACITY)%nat \/ (d + i) / CAPACITY < (d + j) / CAPACITY \/ (d + j) / CAPACITY < (d + i) / CAPACITY)%nat as [?|[?|?]] by lia; nia.
Qed.

Lemma is_full_window d n : (n <= CAPACITY)%nat ->
  is_full CAPACITY (pack_indices (wrapped d) (wrapped (d + n))) = (CAPACITY <=? n)%nat.
Proof.
  intros Hn. pose proof capacity_bounds. unfold is_full. rewrite unpack_wrapped, wrapped_sub by (unfold two16; lia).
  destruct (Nat.leb_spec CAPACITY n), (Z.leb_spec (Z.of_nat CAPACITY) (Z.of_nat n)); lia.
Qed.

(** ** The invariant *)

(** The slots that begin at index [d] hold [f]. *)
Definition holds (slots : list Z) (d : nat) (f : nat -> Z) : Prop :=
  length slots = CAPACITY /\ forall i, (i < CAPACITY)%nat -> slots !! ((d + i) mod CAPACITY)%nat = Some (f i).

Lemma holds_insert slots d f g i v : holds slots d f -> (i < CAPACITY)%nat ->
  g i = v -> (forall j, j <> i -> g j = f j) -> holds (<[((d + i) mod CAPACITY)%nat := v]> slots) d g.
Proof.
  intros [Hl Hf] Hi Hv Hg. split; [by rewrite length_insert|]. intros j Hj.
  destruct (decide (j = i)) as [->|Hne].
  - rewrite list_lookup_insert_eq; [by rewrite Hv|]. rewrite Hl. apply Nat.mod_upper_bound. lia.
  - rewrite list_lookup_insert_ne; [by rewrite Hf, Hg|]. intros E. apply Hne. symmetry. by apply (slot_inj d i j).
Qed.

(** Moving the window over a slot that holds 0. *)
Lemma holds_next slots d f g : (0 < CAPACITY)%nat -> holds slots d f -> f 0%nat = 0 ->
  (forall i, (S i < CAPACITY)%nat -> g i = f (S i)) -> g (CAPACITY - 1)%nat = 0 -> holds slots (S d) g.
Proof.
  intros Hc [Hl Hf] H0 Hg Hlast. split; [done|]. intros i Hi.
  destruct (decide (S i < CAPACITY)%nat) as [Hs|Hs].
  - rewrite Hg by done. rewrite <- (Hf (S i) Hs). do 2 f_equal. lia.
  - replace (S d + i)%nat with (d + 0 + 1 * CAPACITY)%nat by lia. rewrite Nat.Div0.mod_add.
    rewrite (Hf 0%nat) by lia. rewrite H0. replace i with (CAPACITY - 1)%nat by lia. by rewrite Hlast.
Qed.

(** The consumer has emptied the oldest slot and not moved the head yet. *)
Definition taken (c : consumer_pc) : bool := match c with CCas _ _ _ => true | _ => false end.

(** What the slot of entry [i] holds. *)
Definition contents (c : consumer_pc) (q : list (Z * bool)) (i : nat) : Z :=
  match q !! i with
  | Some (s, published) => if published && negb (taken c && (i =? 0)%nat) then s else 0
  | None => 0
  end.

Definition producer_ok (d : nat) (q : list (Z * bool)) (p : producer_pc) : Prop :=
  match p with
  | PIdle => True
  | PLoad s => 0 < s < two8
  | PCas s state => 0 < s < two8 /\ is_full CAPACITY state = false
  | PStore s tail => exists i, q !! i = Some (s, false) /\ tail = wrapped (d + i)
  end.

Definition consumer_ok (d : nat) (q : list (Z * bool)) (c : consumer_pc) : Prop :=
  match c with
  | CIdle | CLoad => True
  | CSwap state => exists n, (0 < n <= length q)%nat /\ state = pack_indices (wrapped d) (wrapped (d + n))
  | CCas head s _ => head = wrapped d /\ exists q', q = (s, true) :: q'
  end.

(** [d] signals were delivered and [q] is in the ring. *)
Record ring_inv (d : nat) (q : list (Z * bool)) (x : ring_system) : Prop := mkRingInv {
  inv_state : sr_state (rs_ring x) = pack_indices (wrapped d) (wrapped (d + length q));
  inv_fits : (length q <= CAPACITY)%nat;
  inv_signals : Forall (fun '(s, _) => 0 < s < two8) q;
  inv_slots : holds (sr_slots (rs_ring x)) d (contents (rs_consumer x) q);
  inv_producers : forall t p, rs_producers x !! t = Some p -> producer_ok d q p;
  inv_claims : forall i s, q !! i = Some (s, false) -> exists t, rs_producers x !! t = Some (PStore s (wrapped (d + i)));
  inv_distinct : forall t u s s' tail, rs_producers x !! t = Some (PStore s tail) ->
    rs_producers x !! u = Some (PStore s' tail) -> t = u;
  inv_consumer : consumer_ok d q (rs_consumer x);
}.

Lemma ring_inv_start n : ring_inv 0 [] (ring_start CAPACITY n).
Proof.
  assert (Hidle : forall t p, replicate n PIdle !! t = Some p -> p = PIdle) by (intros t p [-> _]%lookup_replicate; done).
  split; cbn [ring_start rs_ring rs_producers rs_consumer SignalRing_new sr_slots sr_state].
  - reflexivity.
  - cbn. lia.
  - constructor.
  - split; [apply length_replicate|]. intros i Hi. rewrite lookup_replicate_2; [done|]. apply Nat.mod_upper_bound. lia.
  - intros t p ->%Hidle. exact I.
  - intros i s H. by rewrite lookup_nil in H.
  - intros t u s s' tail H%Hidle. done.
  - exact I.
Qed.

(** ** Steps of a producer *)

Definition is_store (p : producer_pc) : bool := match p with PStore _ _ => true | _ => false end.

(** Between two places with no claim, nothing but the place changes. *)
Lemma producer_moves d q r l c t p p' : ring_inv d q (mkRingSystem r l c) -> l !! t = Some p ->
  is_store p = false -> is_store p' = false -> producer_ok d q p' ->
  ring_inv d q (mkRingSystem r (<[t := p']> l) c).
Proof.
  intros [Hst Hf Hs Hsl Hp Hc Hd Hco] Ht Hn Hn' Hok.
  assert (Hold : forall u s tail, <[t := p']> l !! u = Some (PStore s tail) -> l !! u = Some (PStore s tail)).
  { intros u s tail [(_ & -> & _)|(_ & H)]%list_lookup_insert_Some; done. }
  split; cbn [rs_ring rs_producers rs_consumer] in *; try done.
  - intros u p1 [(_ & <- & _)|(_ & H)]%list_lookup_insert_Some; [done|by apply (Hp u)].
  - intros i s [u Hu]%Hc. exists u. rewrite list_lookup_insert_ne; [done|]. intros <-. rewrite Ht in Hu. by injection Hu as ->.
  - intros u v s s' tail Hu%Hold Hv%Hold. by apply (Hd u v s s' tail).
Qed.

(** What a producer decides on the word as it is. *)
Lemma enqueue_round_ok d q r l c s p' e : ring_inv d q (mkRingSystem r l c) -> 0 < s < two8 ->
  enqueue_round CAPACITY s (sr_state r) = (p', e) ->
  queue_step CAPACITY q e q /\ is_store p' = false /\ producer_ok d q p'.
Proof.
  intros Hi Hs. unfold enqueue_round. pose proof (inv_state _ _ _ Hi) as Hst. pose proof (inv_fits _ _ _ Hi) as Hf.
  cbn [rs_ring] in Hst. rewrite Hst. destruct (is_full _ _) eqn:E; intros [= <- <-].
  - rewrite is_full_window in E by done. bool_facts. split_and!; [|done..]. constructor. lia.
  - split_and!; [constructor|done..].
Qed.

Lemma contents_app c q s i : contents c (q ++ [(s, false)]) i = contents c q i.
Proof.
  unfold contents. destruct (decide (i < length q)%nat) as [Hi|Hi].
  - by rewrite lookup_app_l.
  - rewrite lookup_app_r, (lookup_ge_None_2 q) by lia. by destruct (i - length q)%nat as [|[|k]].
Qed.

Lemma holds_ext slots d f g : (forall i, g i = f i) -> holds slots d f -> holds slots d g.
Proof. intros E [Hl Hf]. split; [done|]. intros i Hi. by rewrite E, Hf. Qed.

(** The tails of claims are of different entries. *)
Lemma claim_entry d q x i s tail t : ring_inv d q x -> rs_producers x !! t = Some (PStore s tail) ->
  (i <= length q)%nat -> (i < CAPACITY)%nat -> tail = wrapped (d + i) -> q !! i = Some (s, false).
Proof.
  intros Hi Ht Hlen Hcapi ->. destruct (inv_producers _ _ _ Hi t _ Ht) as (j & Hj & E).
  pose proof capacity_bounds. pose proof (inv_fits _ _ _ Hi). pose proof (lookup_lt_Some _ _ _ Hj).
  apply wrapped_inj in E; [by subst j|unfold two16; lia..].
Qed.

Lemma claim_ok d q r l c t s :
  ring_inv d q (mkRingSystem r l c) -> l !! t = Some (PCas s (sr_state r)) ->
  queue_step CAPACITY q (Claimed s) (q ++ [(s, false)]) /\
  ring_inv d (q ++ [(s, false)])
    (mkRingSystem (mkRing (sr_slots r) (pack_indices (wrapped d) (as_u16 (wrapped (d + length q) + 1))))
       (<[t := PStore s (wrapped (d + length q))]> l) c).
Proof.
  intros Hi Ht. pose proof capacity_bounds as Hcb. destruct (inv_producers _ _ _ Hi t _ Ht) as [Hs Hfull].
  rewrite (inv_state _ _ _ Hi : sr_state r = _), is_full_window in Hfull by apply (inv_fits _ _ _ Hi). bool_facts.
  split; [by constructor|].
  assert (Hfresh : forall u s' i, l !! u = Some (PStore s' (wrapped (d + i))) -> i = length q -> False).
  { intros u s' i Hu ->. apply (claim_entry d q _ (length q) _ _ _ Hi) in Hu; [|lia..|done].
    apply lookup_lt_Some in Hu. lia. }
  destruct Hi as [Hst Hf Hsg Hsl Hp Hc Hd Hco]. cbn [rs_ring rs_producers rs_consumer] in *.
  split; cbn [rs_ring rs_producers rs_consumer sr_slots sr_state].
  - rewrite wrapped_succ, length_app. do 2 f_equal. cbn. lia.
  - rewrite length_app. cbn. lia.
  - apply Forall_app_2; [done|]. by constructor.
  - eapply holds_ext; [|exact Hsl]. intros i. apply contents_app.
  - intros u p [(_ & <- & _)|(_ & H)]%list_lookup_insert_Some.
    + exists (length q). by rewrite lookup_app_r, Nat.sub_diag by lia.
    + apply Hp in H. destruct p; [done..|]. destruct H as (i & Hi & ->). exists i. by rewrite (lookup_app_l_Some _ _ _ _ Hi).
  - intros i s' [Hq|[Hlen Hq]]%lookup_app_Some.
    + destruct (Hc i s' Hq) as [u Hu]. exists u. rewrite list_lookup_insert_ne; [done|]. intros <-. by rewrite Ht in Hu.
    + apply list_lookup_singleton_Some in Hq as [E [= <-]]. exists t.
      replace i with (length q) by lia. apply list_lookup_insert_eq. by eapply lookup_lt_Some.
  - intros u v s1 s2 tail Hu%list_lookup_insert_Some Hv%list_lookup_insert_Some.
    destruct Hu as [(<- & [= <- <-] & _)|(Hut & Hu)], Hv as [(<- & E & _)|(Hvt & Hv)]; [done| | |by apply (Hd u v s1 s2 tail)].
    + exfalso. by apply (Hfresh v s2 (length q)).
    + injection E as <- <-. exfalso. by apply (Hfresh u s1 (length q)).
  - destruct c as [| |st|h s' st]; [done..| |].
    + destruct Hco as (n & Hn & ->). exists n. split; [|done]. rewrite length_app. lia.
    + destruct Hco as (-> & q' & ->). by split; [|eexists].
Qed.

Lemma accept_ok d q r l c t s tail :
  ring_inv d q (mkRingSystem r l c) -> l !! t = Some (PStore s tail) ->
  exists q', queue_step CAPACITY q (Accepted s) q' /\
    ring_inv d q' (mkRingSystem (mkRing (<[slot_index CAPACITY tail := s]> (sr_slots r)) (sr_state r)) (<[t := PIdle]> l) c).
Proof.
  intros Hi Ht. pose proof capacity_bounds as Hcb. destruct (inv_producers _ _ _ Hi t _ Ht) as (i & Hq & ->).
  pose proof (lookup_lt_Some _ _ _ Hq) as Hlt. pose proof (inv_fits _ _ _ Hi) as Hf.
  exists (<[i := (s, true)]> q). split; [by constructor|].
  destruct Hi as [Hst _ Hsg Hsl Hp Hc Hd Hco]. cbn [rs_ring rs_producers rs_consumer] in *.
  split; cbn [rs_ring rs_producers rs_consumer sr_slots sr_state].
  - by rewrite length_insert.
  - by rewrite length_insert.
  - apply Forall_insert; [done|]. by eapply (Forall_lookup_1 _ _ _ _ Hsg) in Hq.
  - rewrite slot_index_wrapped. eapply holds_insert; [exact Hsl|lia| |].
    + unfold contents. rewrite list_lookup_insert_eq by done. cbn [andb].
      destruct (taken c) eqn:Ec; [|done]. destruct c as [| | |h s' st]; try done. destruct Hco as (_ & q' & ->).
      by destruct i.
    + intros j Hj. unfold contents. by rewrite list_lookup_insert_ne.
  - intros u p [(_ & <- & _)|(Hne & H)]%list_lookup_insert_Some; [exact I|].
    pose proof (Hp u p H) as Hok. destruct p; [done..|]. destruct Hok as (j & Hj & ->). exists j. split; [|done].
    rewrite list_lookup_insert_ne; [done|]. intros ->. apply Hne. by apply (Hd t u s signal (wrapped (d + j))).
  - intros j s' [(_ & [=] & _)|(Hne & H)]%list_lookup_insert_Some. destruct (Hc j s' H) as [u Hu]. exists u.
    rewrite list_lookup_insert_ne; [done|]. intros <-. rewrite Ht in Hu. injection Hu as -> E.
    pose proof (lookup_lt_Some _ _ _ H). apply wrapped_inj in E; [done|unfold two16; lia..].
  - intros u v s1 s2 tail [(_ & [=] & _)|(_ & Hu)]%list_lookup_insert_Some [(_ & [=] & _)|(_ & Hv)]%list_lookup_insert_Some.
    by apply (Hd u v s1 s2 tail).
  - destruct c as [| |st|h s' st]; [done..| |].
    + destruct Hco as (n & Hn & ->). exists n. by rewrite length_insert.
    + destruct Hco as (-> & q' & ->). split; [done|]. destruct i; [done|]. by eexists.
Qed.

Lemma produce_ok d q r l c t want glitch p p' r' e :
  ring_inv d q (mkRingSystem r l c) -> l !! t = Some p -> 0 < want < two8 -> enqueue_step CAPACITY want glitch p r = (p', r', e) ->
  exists q', queue_step CAPACITY q e q' /\ ring_inv d q' (mkRingSystem r' (<[t := p']> l) c).
Proof.
  intros Hi Ht Hw E. pose proof (inv_producers _ _ _ Hi t p Ht) as Hp.
  assert (Hround : forall s, 0 < s < two8 -> is_store p = false ->
    (let '(p, e) := enqueue_round CAPACITY s (sr_state r) in (p, r, e)) = (p', r', e) ->
    exists q', queue_step CAPACITY q e q' /\ ring_inv d q' (mkRingSystem r' (<[t := p']> l) c)).
  { intros s Hs Hn Er. destruct (enqueue_round _ _ _) as [p1 e1] eqn:E1. injection Er as <- <- <-.
    destruct (enqueue_round_ok d q r l c s p1 e1 Hi Hs E1) as (Hq & Hn' & Hok).
    exists q. split; [done|]. by apply (producer_moves d q r l c t p p1). }
  destruct p as [|s|s state|s tail]; cbn [enqueue_step] in E.
  - injection E as <- <- <-. exists q. split; [constructor|]. by eapply producer_moves.
  - by apply (Hround s).
  - destruct (negb glitch && _) eqn:Eg; [|by apply (Hround s); destruct Hp]. bool_facts. subst state.
    destruct (claim_ok d q r l c t s Hi Ht) as [Hq Hi']. exists (q ++ [(s, false)]).
    rewrite (inv_state _ _ _ Hi : sr_state r = _), unpack_wrapped in E. injection E as <- <- <-. by split.
  - injection E as <- <- <-. by apply (accept_ok d q r l c t s tail).
Qed.

(** ** Steps of the consumer *)

(** Between two places with the oldest slot in the same use. *)
Lemma consumer_moves d q r l c c' : ring_inv d q (mkRingSystem r l c) -> taken c' = taken c -> consumer_ok d q c' ->
  ring_inv d q (mkRingSystem r l c').
Proof.
  intros [Hst Hf Hs Hsl Hp Hc Hd _] Ht Hok. split; cbn [rs_ring rs_producers rs_consumer] in *; try done.
  eapply holds_ext; [|exact Hsl]. intros i. unfold contents. by rewrite Ht.
Qed.

(** The slot is emptied: a slot that was not written yet stays as it is. *)
Lemma consumer_swap_ok d q r l state c' r' e :
  ring_inv d q (mkRingSystem r l (CSwap state)) -> dequeue_step CAPACITY false (CSwap state) r = (c', r', e) ->
  queue_step CAPACITY q e q /\ ring_inv d q (mkRingSystem r' l c').
Proof.
  intros Hi. pose proof capacity_bounds as Hcb. destruct (inv_consumer _ _ _ Hi) as (n & Hn & ->).
  destruct q as [|[s b] q]; [cbn in Hn; lia|]. destruct Hi as [Hst Hf Hsg Hsl Hp Hc Hd Hco].
  cbn [rs_ring rs_producers rs_consumer dequeue_step] in *. rewrite unpack_wrapped, slot_index_wrapped.
  pose proof (proj2 Hsl 0%nat (proj1 Hcb)) as E0. rewrite Nat.add_0_r in E0. rewrite E0. cbn [default id].
  inversion Hsg as [|? ? Hs Hsg']. subst. change ((contents _ _ 0)) with (if b && true then s else 0).
  assert (Hput : forall c1, contents c1 ((s, b) :: q) 0 = 0 ->
    (forall j, j <> 0%nat -> contents c1 ((s, b) :: q) j = contents (CSwap (pack_indices (wrapped d) (wrapped (d + n)))) ((s, b) :: q) j) ->
    holds (<[(d mod CAPACITY)%nat := 0]> (sr_slots r)) d (contents c1 ((s, b) :: q))).
  { intros c1 H0 Hne. replace (d mod CAPACITY)%nat with ((d + 0) mod CAPACITY)%nat by (by rewrite Nat.add_0_r).
    eapply holds_insert; [exact Hsl|lia|done..]. }
  destruct b; cbn [andb].
  - unfold id. destruct (Z.eqb_spec s 0); [lia|]. intros [= <- <- <-]. split; [constructor|].
    split; cbn [rs_ring rs_producers rs_consumer sr_slots sr_state]; try done.
    + apply Hput; [done|]. intros [|j] Hj; [done|]. unfold contents. by destruct ((_ :: q) !! S j) as [[? []]|].
    + split; [done|]. by eexists.
  - intros [= <- <- <-]. split; [by constructor|].
    split; cbn [rs_ring rs_producers rs_consumer sr_slots sr_state]; try done. by apply Hput.
Qed.

Lemma deliver_ok d q r l head s :
  ring_inv d q (mkRingSystem r l (CCas head s (sr_state r))) ->
  exists q', q = (s, true) :: q' /\ head = wrapped d /\
    ring_inv (S d) q' (mkRingSystem (mkRing (sr_slots r) (pack_indices (as_u16 (wrapped d + 1)) (wrapped (d + length q)))) l CIdle).
Proof.
  intros [Hst Hf Hsg Hsl Hp Hc Hd Hco]. pose proof capacity_bounds as Hcb. cbn [rs_ring rs_producers rs_consumer] in *.
  destruct Hco as (-> & q' & ->). exists q'. split_and!; [done..|].
  split; cbn [rs_ring rs_producers rs_consumer sr_slots sr_state]; try done.
  - rewrite wrapped_succ. do 2 f_equal. cbn. lia.
  - cbn in Hf. lia.
  - by inversion Hsg.
  - eapply holds_next; [lia|exact Hsl|done| |].
    + intros i _. unfold contents. cbn [lookup list_lookup]. by destruct (q' !! i) as [[? []]|].
    + unfold contents. rewrite lookup_ge_None_2; [done|]. cbn in Hf. lia.
  - intros t p H. pose proof (Hp t p H) as Hok. destruct p; [done..|]. destruct Hok as ([|i] & Hi & ->); [done|].
    exists i. split; [done|]. f_equal. lia.
  - intros i s' H. destruct (Hc (S i) s' H) as [t Ht]. exists t. rewrite Ht. do 3 f_equal. lia.
Qed.

Lemma consume_ok d q r l c glitch c' r' e :
  ring_inv d q (mkRingSystem r l c) -> dequeue_step CAPACITY glitch c r = (c', r', e) ->
  exists d' q', queue_step CAPACITY q e q' /\ ring_inv d' q' (mkRingSystem r' l c').
Proof.
  intros Hi E. pose proof capacity_bounds as Hcb. pose proof (inv_state _ _ _ Hi : sr_state r = _) as Hst.
  destruct c as [| |state|head s state].
  - injection E as <- <- <-. exists d, q. split; [constructor|]. by eapply consumer_moves.
  - cbn [dequeue_step] in E. rewrite Hst, unpack_wrapped in E.
    pose proof (inv_fits _ _ _ Hi). exists d, q. destruct (Z.eqb_spec (wrapped d) (wrapped (d + length q))) as [Eq|Eq]; injection E as <- <- <-.
    + replace d with (d + 0)%nat in Eq at 1 by lia. apply wrapped_inj in Eq; [|unfold two16; lia..].
      destruct q; [|done]. split; [by constructor|]. by eapply consumer_moves.
    + split; [constructor|]. eapply consumer_moves; [exact Hi|done|]. exists (length q). split; [|done].
      destruct q; [|cbn; lia]. cbn in Eq. by rewrite Nat.add_0_r in Eq.
  - exists d, q. by eapply consumer_swap_ok.
  - cbn [dequeue_step] in E. destruct (unpack state) as [h tail] eqn:Eu. destruct (negb glitch && _) eqn:Eg.
    + bool_facts. subst state. rewrite Hst, unpack_wrapped in Eu. injection Eu as <- <-.
      destruct (deliver_ok d q r l head s Hi) as (q' & Eq & -> & Hi'). exists (S d), q'.
      injection E as <- <- <-. split; [rewrite Eq; constructor|done].
    + injection E as <- <- <-. exists d, q. split; [constructor|]. eapply consumer_moves; [exact Hi|done|]. apply (inv_consumer _ _ _ Hi).
Qed.

Lemma ring_run_inv n es x : ring_run CAPACITY (ring_start CAPACITY n) es x ->
  exists d q, queue_run CAPACITY es q /\ ring_inv d q x.
Proof.
  induction 1 as [|es y e z _ IH Hstep].
  - exists 0%nat, []. split; [constructor|apply ring_inv_start].
  - destruct IH as (d & q & Hq & Hi). inversion Hstep as [r l c t want glitch p p' r' e' Ht Hw E|r l c glitch c' r' e' E]; subst.
    + destruct (produce_ok d q r l c t want glitch p p' r' e Hi Ht Hw E) as (q' & Hs & Hi').
      exists d, q'. split; [|done]. by eapply queue_snoc.
    + destruct (consume_ok d q r l c glitch c' r' e Hi E) as (d' & q' & Hs & Hi').
      exists d', q'. split; [|done]. by eapply queue_snoc.
Qed.
End RingCorrect.

(** ** What the queue gives *)

(** The signals claimed and delivered, in order. *)
Definition claim_of (e : ring_event) : option Z := match e with Claimed s => Some s | _ => None end.
Definition delivery_of (e : ring_event) : option Z := match e with Delivered s => Some s | _ => None end.
Definition claims (es : list ring_event) : list Z := omap claim_of es.
Definition deliveries (es : list ring_event) : list Z := omap delivery_of es.

(** What is claimed is delivered or in the queue. *)
Lemma queue_run_claims capacity es q : queue_run capacity es q ->
  claims es = deliveries es ++ q.*1 /\ (length q <= capacity)%nat.
Proof.
  induction 1 as [|es q e q' _ [IH Hle] Hs]; [split; [done|cbn; lia]|].
  unfold claims, deliveries in *. rewrite !omap_app. destruct Hs as [q|q s Hlt|q i s Hi|q s Hlen|q s|q Hn]; cbn [omap list_omap claim_of delivery_of].
  - by rewrite !app_nil_r.
  - rewrite app_nil_r, IH, fmap_app, length_app, app_assoc. split; [done|cbn; lia].
  - rewrite !app_nil_r, list_fmap_insert, length_insert. split; [|done]. rewrite IH. f_equal. symmetry.
    apply list_insert_id. by rewrite list_lookup_fmap, Hi.
  - by rewrite !app_nil_r.
  - rewrite app_nil_r, IH. cbn [fmap list_fmap fst length] in *. split; [by rewrite <- app_assoc|lia].
  - by rewrite !app_nil_r.
Qed.

Lemma no_store_published capacity d q x : ring_inv capacity d q x -> forallb (fun p => negb (is_store p)) (rs_producers x) = true ->
  Forall (fun '(_, published) => published = true) q.
Proof.
  intros Hi Hn. apply Forall_lookup_2. intros i [s []] Hq; [done|]. exfalso.
  destruct (inv_claims _ _ _ _ Hi i s Hq) as [t Ht]. rewrite forallb_forall in Hn.
  by specialize (Hn _ (proj1 (list_elem_of_In _ _) (list_elem_of_lookup_2 _ _ _ Ht))).
Qed.

(** C17: the ring implements a bounded queue whose entries are claimed first and
    published later. Every run of any number of producers and the consumer, with
    any failures of the weak compare-and-swaps, shows the events of a run of that
    queue; an entry that is not published yet is the claim of a producer that is
    about to store it. *)
Theorem signal_ring_refines_queue (CAPACITY bits n : nat) (es : list ring_event) (x : ring_system) :
  CAPACITY = (2 ^ bits)%nat -> (bits <= 15)%nat -> ring_run CAPACITY (ring_start CAPACITY n) es x ->
  exists q, queue_run CAPACITY es q /\
    forall i s, q !! i = Some (s, false) -> exists t tail, rs_producers x !! t = Some (PStore s tail).
Proof.
  intros Hc Hb Hr. destruct (ring_run_inv CAPACITY bits Hc Hb n es x Hr) as (d & q & Hq & Hi).
  exists q. split; [done|]. intros i s H. destruct (inv_claims _ _ _ _ Hi i s H) as [t Ht]. by eexists _, _.
Qed.

(** C18: no signal is lost, doubled or reordered. In every run the signals
    delivered are the first of the signals claimed, in the order of their claims,
    and at most [CAPACITY] are still in the ring; a [dequeue] that answers [None]
    while no producer is between its claim and its store has delivered all. *)
Theorem signals_delivered_in_order (CAPACITY bits n : nat) (es : list ring_event) (x : ring_system) :
  CAPACITY = (2 ^ bits)%nat -> (bits <= 15)%nat -> ring_run CAPACITY (ring_start CAPACITY n) es x ->
  (exists pending, claims es = deliveries es ++ pending /\ (length pending <= CAPACITY)%nat) /\
  (list.last es = Some Nothing -> forallb (fun p => negb (is_store p)) (rs_producers x) = true -> claims es = deliveries es).
Proof.
  intros Hc Hb Hr. destruct (ring_run_inv CAPACITY bits Hc Hb n es x Hr) as (d & q & Hq & Hi).
  destruct (queue_run_claims _ _ _ Hq) as [E Hle]. split.
  - exists q.*1. by rewrite length_fmap.
  - intros Hl Hn. pose proof (no_store_published _ _ _ _ Hi Hn) as Hp. rewrite E.
    destruct Hq as [|es q e q' Hq Hs]; [done|]. rewrite last_snoc in Hl. injection Hl as ->.
    inversion Hs as [| | | | |q0 Hhead]; subst. destruct q' as [|[s b] q']; [by rewrite app_nil_r|].
    inversion Hp; subst. by destruct (Hhead s).
Qed.

(** One call of [dequeue] that runs alone. *)
Lemma dequeue_alone CAPACITY slots state ps head tail s : unpack state = (head, tail) -> head <> tail ->
  slots !! slot_index CAPACITY head = Some s -> s <> 0 ->
  exists r, ring_run CAPACITY (mkRingSystem (mkRing slots state) ps CIdle) [Silent; Silent; Silent; Delivered s] (mkRingSystem r ps CIdle).
Proof.
  intros Hu Hne Hs H0. eexists. apply (run_snoc _ _ [Silent; Silent; Silent] (mkRingSystem (mkRing (<[slot_index CAPACITY head := 0]> slots) state) ps (CCas head s state))).
  - apply (run_snoc _ _ [Silent; Silent] (mkRingSystem (mkRing slots state) ps (CSwap state))).
    + apply (run_snoc _ _ [Silent] (mkRingSystem (mkRing slots state) ps CLoad)).
      * apply (run_snoc _ _ [] (mkRingSystem (mkRing slots state) ps CIdle)); [constructor|]. by apply (consume _ _ _ _ false).
      * apply (consume _ _ _ _ false). cbn [dequeue_step sr_state sr_slots]. rewrite Hu. by rewrite (proj2 (Z.eqb_neq _ _) Hne).
    + apply (consume _ _ _ _ false). cbn [dequeue_step sr_state sr_slots]. rewrite Hu, Hs. cbn [default id]. unfold id. by rewrite (proj2 (Z.eqb_neq _ _) H0).
  - apply (consume _ _ _ _ false). cbn [dequeue_step sr_state sr_slots]. rewrite Hu, Z.eqb_refl. reflexivity.
Qed.

(** A signal that is written is delivered: when the consumer is outside and
    no producer is between its claim and its store, one call of [dequeue] that
    runs alone delivers the oldest signal in the ring. *)
Theorem dequeue_delivers_oldest (CAPACITY bits n : nat) (es : list ring_event) (x : ring_system) (s : Z) (rest : list Z) :
  CAPACITY = (2 ^ bits)%nat -> (bits <= 15)%nat -> ring_run CAPACITY (ring_start CAPACITY n) es x ->
  forallb (fun p => negb (is_store p)) (rs_producers x) = true -> rs_consumer x = CIdle ->
  claims es = deliveries es ++ s :: rest ->
  exists y, ring_run CAPACITY x [Silent; Silent; Silent; Delivered s] y /\ rs_producers y = rs_producers x.
Proof.
  intros Hc Hb Hr Hn Hidle Ec. pose proof (capacity_bounds CAPACITY bits Hc Hb) as Hcb.
  destruct (ring_run_inv CAPACITY bits Hc Hb n es x Hr) as (d & q & Hq & Hi).
  destruct (queue_run_claims _ _ _ Hq) as [E Hle]. rewrite Ec in E. apply app_inv_head in E.
  pose proof (no_store_published _ _ _ _ Hi Hn) as Hp. destruct q as [|[s' b] q]; [done|]. injection E as -> _.
  pose proof (Forall_inv Hp) as Hb'. cbn in Hb'. subst b. pose proof (Forall_inv (inv_signals _ _ _ _ Hi)) as Hs. cbn in Hs.
  destruct x as [[slots state] ps c]. cbn in Hidle. subst c.
  pose proof (proj2 (inv_slots _ _ _ _ Hi) 0%nat ltac:(lia)) as E0. rewrite Nat.add_0_r in E0.
  destruct (dequeue_alone CAPACITY slots state ps (wrapped d) (wrapped (d + length ((s', true) :: q))) s') as [r Hrun].
  - rewrite (inv_state _ _ _ _ Hi : state = _). apply unpack_wrapped.
  - intros Eq. replace d with (d + 0)%nat in Eq at 1 by lia.
    apply wrapped_inj in Eq; [done|unfold two16; lia..].
  - by rewrite (slot_index_wrapped CAPACITY bits Hc Hb).
  - lia.
  - by eexists.
Qed.

(** ** Runs of a schedule *)

(** Who moves next. *)
Inductive ring_move : Type := MProduce (t : nat) (want : Z) (glitch : bool) | MConsume (glitch : bool).

Definition play_move (capacity : nat) (m : ring_move) (x : ring_system) : option (ring_event * ring_system) :=
  match m with
  | MProduce t want glitch =>
      match rs_producers x !! t with
      | Some p =>
          if (0 <? want) && (want <? two8) then
            let '(p', r', e) := enqueue_step capacity want glitch p (rs_ring x) in
            Some (e, mkRingSystem r' (<[t := p']> (rs_producers x)) (rs_consumer x))
          else None
      | None => None
      end
  | MConsume glitch =>
      let '(c', r', e) := dequeue_step capacity glitch (rs_consumer x) (rs_ring x) in
      Some (e, mkRingSystem r' (rs_producers x) c')
  end.

(** The events so far are [es]. *)
Fixpoint play (capacity : nat) (ms : list ring_move) (es : list ring_event) (x : ring_system)
    : option (list ring_event * ring_system) :=
  match ms with
  | [] => Some (es, x)
  | m :: ms =>
      match play_move capacity m x with
      | Some (e, y) => play capacity ms (es ++ [e]) y
      | None => None
      end
  end.

Lemma play_move_step capacity m x e y : play_move capacity m x = Some (e, y) -> ring_step capacity x e y.
Proof.
  destruct x as [r l c], m as [t want glitch|glitch]; cbn [play_move rs_producers rs_ring rs_consumer].
  - destruct (l !! t) as [p|] eqn:Ht; [|done]. destruct (_ && _) eqn:Ew; [|done]. bool_facts.
    destruct (enqueue_step _ _ _ _ _) as [[p' r'] e'] eqn:E. intros [= <- <-]. by eapply produce.
  - destruct (dequeue_step _ _ _ _) as [[c' r'] e'] eqn:E. intros [= <- <-]. by eapply consume.
Qed.

Lemma play_run capacity ms start : forall es x es' y, ring_run capacity start es x ->
  play capacity ms es x = Some (es', y) -> ring_run capacity start es' y.
Proof.
  induction ms as [|m ms IH]; intros es x es' y Hr E; cbn [play] in E; [by injection E as <- <-|].
  destruct (play_move _ _ _) as [[e z]|] eqn:Em; [|done].
  eapply IH; [|exact E]. eapply run_snoc; [exact Hr|]. by apply (play_move_step capacity m).
Qed.

(** Two producers and a ring of two slots: both claim, the second writes first,
    a [dequeue] finds the oldest slot unwritten, then the first writes. *)
Definition two_claims : list ring_move :=
  [MProduce 0 5 false; MProduce 0 5 false; MProduce 1 7 false; MProduce 0 5 false;
   MProduce 1 7 false; MProduce 1 7 true; MProduce 1 7 false; MProduce 1 7 false;
   MConsume false; MConsume false; MConsume false; MProduce 0 5 false].

Definition played (ms : list ring_move) : list ring_event * ring_system :=
  default ([], ring_start 2 2) (play 2 ms [] (ring_start 2 2)).

Lemma played_run ms : is_Some (play 2 ms [] (ring_start 2 2)) -> ring_run 2 (ring_start 2 2) (played ms).1 (played ms).2.
Proof.
  intros [[es y] E]. unfold played. rewrite E. eapply play_run; [constructor|exact E].
Qed.

Lemma signal_ring_refines_queue_witness :
  (played two_claims).1 = [Silent; Silent; Silent; Claimed 5; Silent; Silent; Claimed 7; Accepted 7; Silent; Silent; Nothing; Accepted 5] /\
  exists q, queue_run 2 (played two_claims).1 q.
Proof.
  split; [vm_compute; reflexivity|].
  destruct (signal_ring_refines_queue 2 1 2 (played two_claims).1 (played two_claims).2 eq_refl ltac:(lia)
    (played_run two_claims ltac:(vm_compute; eexists; reflexivity))) as (q & Hq & _).
  by exists q.
Defined.

Lemma signals_delivered_in_order_witness :
  let ms := two_claims ++ replicate 10 (MConsume false) in
  claims (played ms).1 = [5; 7] /\ claims (played ms).1 = deliveries (played ms).1.
Proof.
  intros ms. split; [vm_compute; reflexivity|].
  apply (signals_delivered_in_order 2 1 2 (played ms).1 (played ms).2 eq_refl ltac:(lia)
    (played_run ms ltac:(vm_compute; eexists; reflexivity))); vm_compute; reflexivity.
Defined.

Lemma dequeue_delivers_oldest_witness :
  exists y, ring_run 2 (played two_claims).2 [Silent; Silent; Silent; Delivered 5] y.
Proof.
  destruct (dequeue_delivers_oldest 2 1 2 (played two_claims).1 (played two_claims).2 5 [7] eq_refl ltac:(lia)
    (played_run two_claims ltac:(vm_compute; eexists; reflexivity))) as (y & Hy & _); [vm_compute; reflexivity..|].
  by exists y.
Defined.
