(* ===== verification/Braces.v ===== *)
(** * Brace expansion

    [shell_parser/braces.rs], the expansion of [{a,b}] in words of the shell and
    in [Bun.braces]: the reader of characters with its escapes, the lexer that
    takes back braces which are not closed or have no comma, the count of the
    words, the expansion of flat patterns through a table and of nested ones
    through a tree. The iterator over code points is the one of
    [bun_core/string/immutable.rs].

    A [SmolStr] is its bytes. A pointer to a [Group] of the tree is the position
    of the group, and the fields [bubble_up] and [bubble_up_next] that the
    expansion writes into the groups are a store of their own ([Links]); the tree
    itself is never changed. *)
From Stdlib Require Import ZArith Lia.
From stdpp Require Import base list numbers option gmap.
From S2P Require Import Prelude Wtf8.
#[local] Open Scope Z_scope.

(** ** Characters *)

Inductive StringEncoding : Type := EncAscii | EncWtf8.

Record InputChar : Type := mkChar { ic_char : Z; ic_escaped : bool }.

Record SrcAscii : Type := mkAscii { sa_bytes : bytes; sa_i : nat }.

Definition SrcAscii_init (b : bytes) : SrcAscii := mkAscii b 0.
Definition SrcAscii_index (s : SrcAscii) : option Z := s.(sa_bytes) !! s.(sa_i).
Definition SrcAscii_index_next (s : SrcAscii) : option Z := s.(sa_bytes) !! (s.(sa_i) + 1)%nat.
Definition SrcAscii_eat (s : SrcAscii) (escaped : bool) : SrcAscii :=
  mkAscii s.(sa_bytes) (s.(sa_i) + (1 + if escaped then 1 else 0)).

(** The iterator over code points. *)
Record Cursor : Type := mkCursor { cu_i : Z; cu_width : Z; cu_c : Z }.

Definition Cursor_default : Cursor := mkCursor 0 0 0.
Definition ZERO_VALUE : Z := -1.
Definition UNICODE_REPLACEMENT : Z := 0xFFFD.

Definition CodepointIterator_next (b : bytes) (cursor : Cursor) : bool * Cursor :=
  let pos := cursor.(cu_i) + cursor.(cu_width) in
  if Z.of_nat (length b) <=? pos then (false, cursor)
  else
    let tail := drop (Z.to_nat pos) b in
    let first := nth 0 tail 0 in
    let i := as_u32 pos in
    if first <? 0x80 then (true, mkCursor i 1 first)
    else
      let len := wtf8_byte_sequence_length first in
      let take_ := Nat.min (Z.to_nat len) (length tail) in
      let cp := decode_wtf8_rune_t (four_of_list (take take_ tail)) len (-1) in
      if cp =? -1 then (true, mkCursor i 1 UNICODE_REPLACEMENT) else (true, mkCursor i len cp).

Record SrcUnicode : Type := mkUnicode { su_bytes : bytes; su_cursor : Cursor; su_next_cursor : Cursor }.

(** At the end the cursor is put behind the text. *)
Definition next_cursor (b : bytes) (cursor : Cursor) : outcome Cursor :=
  let '(more, cursor) := CodepointIterator_next b cursor in
  if more then Done cursor
  else if Z.of_nat (length b) + 1 <? two32 then Done (mkCursor (Z.of_nat (length b) + 1) 1 ZERO_VALUE)
  else Panic.

Definition SrcUnicode_init (b : bytes) : outcome SrcUnicode :=
  let! cursor := next_cursor b Cursor_default in
  let! next := next_cursor b cursor in
  Done (mkUnicode b cursor next).

Definition cursor_char (b : bytes) (cursor : Cursor) : option Z :=
  if Z.of_nat (length b) <? cursor.(cu_width) + cursor.(cu_i) then None else Some (as_u32 cursor.(cu_c)).

Definition SrcUnicode_index (s : SrcUnicode) : option Z := cursor_char s.(su_bytes) s.(su_cursor).
Definition SrcUnicode_index_next (s : SrcUnicode) : option Z := cursor_char s.(su_bytes) s.(su_next_cursor).

Definition SrcUnicode_eat (s : SrcUnicode) (escaped : bool) : outcome SrcUnicode :=
  if escaped then
    let! cursor := next_cursor s.(su_bytes) s.(su_next_cursor) in
    let! next := next_cursor s.(su_bytes) cursor in
    Done (mkUnicode s.(su_bytes) cursor next)
  else
    let! next := next_cursor s.(su_bytes) s.(su_next_cursor) in
    Done (mkUnicode s.(su_bytes) s.(su_next_cursor) next).

Inductive ShellSrc : Type := ShellAscii (a : SrcAscii) | ShellUnicode (u : SrcUnicode).

Definition ShellCharIter_init (e : StringEncoding) (b : bytes) : outcome ShellSrc :=
  match e with
  | EncAscii => Done (ShellAscii (SrcAscii_init b))
  | EncWtf8 => let! u := SrcUnicode_init b in Done (ShellUnicode u)
  end.

Definition ShellSrc_index (s : ShellSrc) : option Z :=
  match s with ShellAscii a => SrcAscii_index a | ShellUnicode u => SrcUnicode_index u end.
Definition ShellSrc_index_next (s : ShellSrc) : option Z :=
  match s with ShellAscii a => SrcAscii_index_next a | ShellUnicode u => SrcUnicode_index_next u end.

Definition ch_backslash : Z := 92.
Definition ch_open : Z := 123.
Definition ch_close : Z := 125.
Definition ch_comma : Z := 44.

(** A backslash escapes what follows; one at the end is not read. *)
Definition read_char (s : ShellSrc) : option InputChar :=
  match ShellSrc_index s with
  | None => None
  | Some ch =>
      if negb (ch =? ch_backslash) then Some (mkChar ch false)
      else
        match ShellSrc_index_next s with
        | None => None
        | Some ch => Some (mkChar ch true)
        end
  end.

Definition ShellCharIter_eat (s : ShellSrc) : outcome (option (InputChar * ShellSrc)) :=
  match read_char s with
  | None => Done None
  | Some result =>
      match s with
      | ShellAscii a => Done (Some (result, ShellAscii (SrcAscii_eat a result.(ic_escaped))))
      | ShellUnicode u =>
          let! u := SrcUnicode_eat u result.(ic_escaped) in Done (Some (result, ShellUnicode u))
      end
  end.

(** ** Tokens *)

Record ExpansionVariants : Type := mkVariants { ev_idx : nat; ev_end : nat }.
Definition ExpansionVariants_default : ExpansionVariants := mkVariants 0 0.

Inductive Token : Type :=
| TOpen (v : ExpansionVariants)
| TComma
| TText (txt : bytes)
| TClose
| TEof.

Definition Token_to_text (t : Token) : bytes :=
  match t with
  | TOpen _ => [ch_open]
  | TComma => [ch_comma]
  | TText txt => txt
  | TClose => [ch_close]
  | TEof => []
  end.

Definition is_open (t : Token) : bool := match t with TOpen _ => true | _ => false end.

Definition MAX_BRACE_GROUPS : nat := 256.

Inductive ParserError : Type := OutOfMemory | UnexpectedToken | TooManyBraces.

Definition check_brace_group_count (tokens : list Token) : ParserError + unit :=
  if (MAX_BRACE_GROUPS <? length (filter (fun t => is_open t = true) tokens))%nat then inl TooManyBraces else inr tt.

(** ** The lexer *)

Record OpenBrace : Type := mkOpen { ob_tok_idx : nat; ob_has_comma : bool }.

Record LexerOutput : Type := mkLexed { lo_tokens : list Token; lo_contains_nested : bool }.

Definition replace_token_with_string (tokens : list Token) (token_idx : nat) : outcome (list Token) :=
  match tokens !! token_idx with
  | Some tok => Done (<[token_idx := TText (Token_to_text tok)]> tokens)
  | None => Panic
  end.

(** The bytes of a character. *)
Definition char_bytes (e : StringEncoding) (char : Z) : bytes :=
  match e with
  | EncAscii => [as_u8 char]
  | EncWtf8 => rune_bytes char
  end.

Definition append_char (e : StringEncoding) (tokens : list Token) (char : Z) : list Token :=
  match list.last tokens with
  | Some (TText last) => <[(length tokens - 1)%nat := TText (last ++ char_bytes e char)]> tokens
  | _ => tokens ++ [TText (char_bytes e char)]
  end.

(** What one character does to the tokens and the open braces, the innermost
    first. *)
Definition lex_char (e : StringEncoding) (input : InputChar) (tokens : list Token) (brace_stack : list OpenBrace)
    : outcome (list Token * list OpenBrace) :=
  let char := input.(ic_char) in
  let plain := Done (append_char e tokens char, brace_stack) in
  if input.(ic_escaped) then plain
  else if char =? ch_open then
    if Z.of_nat (length tokens) <? two32 then
      Done (tokens ++ [TOpen ExpansionVariants_default], mkOpen (length tokens) false :: brace_stack)
    else Panic
  else if char =? ch_close then
    match brace_stack with
    | top :: brace_stack =>
        if top.(ob_has_comma) then Done (tokens ++ [TClose], brace_stack)
        else
          let! tokens := replace_token_with_string tokens top.(ob_tok_idx) in
          Done (tokens ++ [TText [ch_close]], brace_stack)
    | [] => plain
    end
  else if char =? ch_comma then
    match brace_stack with
    | top :: brace_stack => Done (tokens ++ [TComma], mkOpen top.(ob_tok_idx) true :: brace_stack)
    | [] => plain
    end
  else plain.

Fixpoint lex_loop (fuel : nat) (e : StringEncoding) (chars : ShellSrc) (tokens : list Token) (brace_stack : list OpenBrace)
    : outcome (list Token * list OpenBrace) :=
  match fuel with
  | O => NoFuel
  | S fuel =>
      let! input := ShellCharIter_eat chars in
      match input with
      | None => Done (tokens, brace_stack)
      | Some (input, chars) =>
          let! (tokens, brace_stack) := lex_char e input tokens brace_stack in
          lex_loop fuel e chars tokens brace_stack
      end
  end.

(** The loop of [rollback_braces], over [n] tokens from [i] on. *)
Fixpoint rollback_loop (n : nat) (tokens : list Token) (braces : nat) (i : nat) : outcome (list Token) :=
  match n with
  | O => Done tokens
  | S n =>
      match tokens !! i with
      | None => Panic
      | Some tok =>
          if (0 <? braces)%nat then
            let braces := match tok with TOpen _ => (braces + 1)%nat | TClose => (braces - 1)%nat | _ => braces end in
            rollback_loop n tokens braces (i + 1)
          else
            match tok with
            | TOpen _ => rollback_loop n tokens (braces + 1) (i + 1)
            | TClose | TComma | TText _ =>
                let! tokens := replace_token_with_string tokens i in
                rollback_loop n tokens braces (i + 1)
            | TEof => rollback_loop n tokens braces (i + 1)
            end
      end
  end.

Definition rollback_braces (tokens : list Token) (starting_idx : nat) : outcome (list Token) :=
  let! tokens := replace_token_with_string tokens starting_idx in
  rollback_loop (length tokens - (starting_idx + 1)) tokens 0 (starting_idx + 1).

Fixpoint rollback_unclosed (brace_stack : list OpenBrace) (tokens : list Token) : outcome (list Token) :=
  match brace_stack with
  | [] => Done tokens
  | top :: brace_stack =>
      let! tokens := rollback_braces tokens top.(ob_tok_idx) in
      rollback_unclosed brace_stack tokens
  end.

Record Flatten : Type := mkFlatten {
  fl_tokens : list Token;
  fl_write : nat;
  fl_brace_count : Z;
  fl_contains_nested : bool;
}.

(** The round of [flatten_tokens] at [read]. *)
Definition flatten_round (read : nat) (f : Flatten) : outcome Flatten :=
  match f.(fl_tokens) !! read with
  | None => Panic
  | Some tok =>
      let count := match tok with
                   | TOpen _ => wadd32 f.(fl_brace_count) 1
                   | TClose => as_u32 (f.(fl_brace_count) - 1)
                   | _ => f.(fl_brace_count)
                   end in
      let nested := f.(fl_contains_nested) || (is_open tok && (1 <? count)) in
      let write := f.(fl_write) in
      match (if (0 <? write)%nat then f.(fl_tokens) !! (write - 1)%nat else None), tok with
      | Some (TText prev), TText cur =>
          let tokens := <[read := TEof]> f.(fl_tokens) in
          Done (mkFlatten (<[(write - 1)%nat := TText (prev ++ cur)]> tokens) write count nested)
      | _, _ =>
          match f.(fl_tokens) !! write with
          | None => Panic
          | Some w => Done (mkFlatten (<[read := w]> (<[write := tok]> f.(fl_tokens))) (write + 1) count nested)
          end
      end
  end.

Fixpoint flatten_loop (n read : nat) (f : Flatten) : outcome Flatten :=
  match n with
  | O => Done f
  | S n =>
      let! f := flatten_round read f in
      flatten_loop n (read + 1) f
  end.

Definition flatten_tokens (tokens : list Token) : outcome LexerOutput :=
  let! f := flatten_loop (length tokens) 0 (mkFlatten tokens 0 0 false) in
  Done (mkLexed (take f.(fl_write) f.(fl_tokens)) f.(fl_contains_nested)).

(** [tokenize] and [tokenize_impl]; a round of the loop takes a byte at least. *)
Definition tokenize (e : StringEncoding) (src : bytes) : outcome LexerOutput :=
  let! chars := ShellCharIter_init e src in
  let! (tokens, brace_stack) := lex_loop (S (length src)) e chars [] [] in
  let! tokens := rollback_unclosed brace_stack tokens in
  let! out := flatten_tokens tokens in
  Done (mkLexed (out.(lo_tokens) ++ [TEof]) out.(lo_contains_nested)).

(** ** The number of words *)

Record StackEntry : Type := mkEntry { se_segment_product : Z; se_accumulator : Z }.
Definition StackEntry_default : StackEntry := mkEntry 1 0.

Definition u32_MAX : Z := two32 - 1.
Definition saturating_add32 (a b : Z) : Z := Z.min u32_MAX (a + b).
Definition saturating_mul32 (a b : Z) : Z := Z.min u32_MAX (a * b).

Definition amount_round (tok : Token) (stack : list StackEntry) (variant_count : Z) : outcome (list StackEntry * Z) :=
  match tok with
  | TOpen _ => Done (StackEntry_default :: stack, variant_count)
  | TComma =>
      match stack with
      | top :: stack =>
          Done (mkEntry 1 (saturating_add32 top.(se_accumulator) top.(se_segment_product)) :: stack, variant_count)
      | [] => Panic
      end
  | TClose =>
      match stack with
      | [] => Panic
      | entry :: stack =>
          let total := saturating_add32 entry.(se_accumulator) entry.(se_segment_product) in
          match stack with
          | parent :: stack =>
              Done (mkEntry (saturating_mul32 parent.(se_segment_product) total) parent.(se_accumulator) :: stack, variant_count)
          | [] => Done ([], if variant_count =? 0 then total else saturating_mul32 variant_count total)
          end
      end
  | _ => Done (stack, variant_count)
  end.

Fixpoint amount_loop (tokens : list Token) (stack : list StackEntry) (variant_count : Z) : outcome Z :=
  match tokens with
  | [] => Done variant_count
  | tok :: tokens =>
      let! (stack, variant_count) := amount_round tok stack variant_count in
      amount_loop tokens stack variant_count
  end.

Definition calculate_expanded_amount (tokens : list Token) : outcome Z := amount_loop tokens [] 0.

(** ** Words under construction *)

(** [out[key].extend_from_slice(s)] *)
Definition extend_word (out : list bytes) (key : nat) (s : bytes) : outcome (list bytes) :=
  match out !! key with
  | Some w => Done (<[key := w ++ s]> out)
  | None => Panic
  end.

(** [let (lo, hi) = out.split_at_mut(new_key); hi[0].extend_from_slice(&lo[out_key][..length])] *)
Definition fork_word (out : list bytes) (out_key new_key len : nat) : outcome (list bytes) :=
  match out !! new_key, out !! out_key with
  | Some w, Some prefix =>
      if (out_key <? new_key)%nat && (len <=? length prefix)%nat then Done (<[new_key := w ++ take len prefix]> out)
      else Panic
  | _, _ => Panic
  end.

(** The key of the variant [j]: the first keeps the word, the others copy it. *)
Definition variant_key (j : nat) (out : list bytes) (out_key counter len : nat) : outcome (list bytes * nat * nat) :=
  match j with
  | O => Done (out, out_key, counter)
  | S _ => let! out := fork_word out out_key counter len in Done (out, counter, (counter + 1)%nat)
  end.

(** ** Flat patterns *)

(** The start in the low half, the end in the high half. *)
Definition ExpansionVariant_new (start end_ : Z) : Z := Z.lor start (Z.shiftl end_ 16).
Definition ExpansionVariant_start (v : Z) : nat := Z.to_nat (v mod two16).
Definition ExpansionVariant_end (v : Z) : nat := Z.to_nat (Z.shiftr v 16 mod two16).

Record BraceState : Type := mkBrace { bs_tok_idx : nat; bs_prev_tok_end : nat }.

Definition u16_MAX : nat := Z.to_nat 65535.

(** [u16::try_from(n).expect(..)] *)
Definition to_u16 (n : nat) : outcome nat := if (n <=? u16_MAX)%nat then Done n else Panic.

Definition variant_at (start end_ : nat) : Z := ExpansionVariant_new (Z.of_nat start) (Z.of_nat end_).

(** The round of [build_expansion_table] at [i]. *)
Definition table_round (i : nat) (tokens : list Token) (stack : list BraceState) (table : list Z)
    : outcome (list Token * list BraceState * list Z) :=
  match tokens !! i with
  | None => Panic
  | Some (TOpen open) =>
      let! table_idx := to_u16 (length table) in
      Done (<[i := TOpen (mkVariants table_idx open.(ev_end))]> tokens, mkBrace i i :: stack, table)
  | Some TClose =>
      match stack with
      | [] => Panic
      | top :: stack =>
          let table := table ++ [variant_at (top.(bs_prev_tok_end) + 1) i] in
          match tokens !! top.(bs_tok_idx) with
          | None => Panic
          | Some (TOpen open) =>
              let! end_ := to_u16 (length table) in
              Done (<[top.(bs_tok_idx) := TOpen (mkVariants open.(ev_idx) end_)]> tokens, stack, table)
          | Some _ => Done (tokens, stack, table)
          end
      end
  | Some TComma =>
      match stack with
      | [] => Panic
      | top :: stack =>
          Done (tokens, mkBrace top.(bs_tok_idx) i :: stack, table ++ [variant_at (top.(bs_prev_tok_end) + 1) i])
      end
  | Some _ => Done (tokens, stack, table)
  end.

Fixpoint table_loop (n i : nat) (tokens : list Token) (stack : list BraceState) (table : list Z)
    : outcome (list Token * list Z) :=
  match n with
  | O => Done (tokens, table)
  | S n =>
      let! (tokens, stack, table) := table_round i tokens stack table in
      table_loop n (i + 1) tokens stack table
  end.

(** [build_expansion_table] and [build_expansion_table_alloc] *)
Definition build_expansion_table (tokens : list Token) : outcome (ParserError + list Token * list Z) :=
  if (u16_MAX <? length tokens)%nat then Done (inl UnexpectedToken)
  else
    let! r := table_loop (length tokens) 0 tokens [] [] in
    Done (inr r).

(** The recursive calls of [expand_flat], as it makes them: the words, the key,
    the counter, the depth and the bounds. *)
Definition flat_call : Type := list bytes -> nat -> nat -> Z -> nat -> nat -> outcome (list bytes * nat).

Fixpoint flat_variants (rec : flat_call) (variants : list Z) (j : nat) (out : list bytes) (out_key counter : nat) (depth : Z)
    (starting_len skip_over_idx end_ : nat) : outcome (list bytes * nat) :=
  match variants with
  | [] => Done (out, counter)
  | variant :: variants =>
      let! (out, new_key, counter) := variant_key j out out_key counter starting_len in
      let! (out, counter) := rec out new_key counter depth (ExpansionVariant_start variant) (ExpansionVariant_end variant) in
      let! (out, counter) := rec out new_key counter depth skip_over_idx end_ in
      flat_variants rec variants (S j) out out_key counter depth starting_len skip_over_idx end_
  end.

Fixpoint flat_atoms (rec : flat_call) (expansion_table : list Z) (atoms : list Token) (out : list bytes) (out_key counter : nat)
    (depth : Z) (end_ : nat) : outcome (list bytes * nat) :=
  match atoms with
  | [] => Done (out, counter)
  | TText txt :: atoms =>
      let! out := extend_word out out_key txt in
      flat_atoms rec expansion_table atoms out out_key counter depth end_
  | TClose :: atoms => flat_atoms rec expansion_table atoms out out_key counter (as_u8 (depth - 1)) end_
  | TOpen v :: _ =>
      let depth := as_u8 (depth + 1) in
      if (v.(ev_idx) <=? v.(ev_end))%nat && (v.(ev_end) <=? length expansion_table)%nat then
        let variants := take (v.(ev_end) - v.(ev_idx)) (drop v.(ev_idx) expansion_table) in
        match list.last variants, out !! out_key with
        | Some last_variant, Some word =>
            flat_variants rec variants 0 out out_key counter depth (length word) (ExpansionVariant_end last_variant) end_
        | _, _ => Panic
        end
      else Panic
  | _ :: atoms => flat_atoms rec expansion_table atoms out out_key counter depth end_
  end.

Fixpoint expand_flat (fuel : nat) (tokens : list Token) (expansion_table : list Z) (out : list bytes) (out_key counter : nat)
    (depth : Z) (start end_ : nat) : outcome (list bytes * nat) :=
  match fuel with
  | O => NoFuel
  | S fuel =>
      if (length tokens <=? start)%nat || (length tokens <? end_)%nat then Done (out, counter)
      else if (end_ <? start)%nat then Panic
      else
        flat_atoms (expand_flat fuel tokens expansion_table) expansion_table (take (end_ - start) (drop start tokens))
          out out_key counter depth end_
  end.

(** ** The tree *)

Inductive Atom : Type :=
| AText (txt : bytes)
| AExpansion (variants : list GroupAtoms)
with GroupAtoms : Type :=
| Single (a : Atom)
| Many (l : list Atom).

(** A parser is its [tokens] and [current]. *)
Definition peek (tokens : list Token) (current : nat) : outcome Token :=
  match tokens !! current with
  | Some t => Done t
  | None => Panic
  end.

Definition advance (tokens : list Token) (current : nat) : outcome (Token * nat) :=
  let! t := peek tokens current in
  let current := match t with TEof => current | _ => (current + 1)%nat end in
  let! t := (match current with O => peek tokens current | S prev => peek tokens prev end) in
  Done (t, current).

(** The tags of tokens that are asked for. *)
Definition is_eof (t : Token) : bool := match t with TEof => true | _ => false end.
Definition is_comma (t : Token) : bool := match t with TComma => true | _ => false end.
Definition is_end (t : Token) : bool := match t with TClose | TEof => true | _ => false end.

(** [match] and [match_any] *)
Definition match_token (p : Token -> bool) (tokens : list Token) (current : nat) : outcome (bool * nat) :=
  let! t := peek tokens current in
  if p t then let! (_, current) := advance tokens current in Done (true, current) else Done (false, current).

(** One atom is [Single]. *)
Definition group_of (atoms : list Atom) : GroupAtoms :=
  match atoms with
  | [a] => Single a
  | _ => Many atoms
  end.

(** [parse_atom], and the loops of [parse_expansion]: over the variants, and over
    the atoms of one; the latter also tells whether the group is closed. *)
Fixpoint parse_atom (fuel : nat) (tokens : list Token) (current : nat) : outcome (ParserError + option Atom * nat) :=
  match fuel with
  | O => NoFuel
  | S fuel =>
      let! (t, current) := advance tokens current in
      match t with
      | TOpen _ =>
          let! r := parse_expansion fuel tokens current [] in
          match r with
          | inl e => Done (inl e)
          | inr (variants, current) => Done (inr (Some (AExpansion variants), current))
          end
      | TText txt => Done (inr (Some (AText txt), current))
      | TEof => Done (inr (None, current))
      | TClose | TComma => Done (inl UnexpectedToken)
      end
  end
with parse_expansion (fuel : nat) (tokens : list Token) (current : nat) (variants : list GroupAtoms)
    : outcome (ParserError + list GroupAtoms * nat) :=
  match fuel with
  | O => NoFuel
  | S fuel =>
      let! r := parse_variant fuel tokens current [] in
      match r with
      | inl e => Done (inl e)
      | inr (group, close, current) =>
          let variants := variants ++ [group_of group] in
          if close : bool then Done (inr (variants, current)) else parse_expansion fuel tokens current variants
      end
  end
with parse_variant (fuel : nat) (tokens : list Token) (current : nat) (group : list Atom)
    : outcome (ParserError + list Atom * bool * nat) :=
  match fuel with
  | O => NoFuel
  | S fuel =>
      let! (closed, current) := match_token is_end tokens current in
      if closed : bool then Done (inr (group, true, current))
      else
        let! (comma, current) := match_token is_comma tokens current in
        if comma : bool then Done (inr (group, false, current))
        else
          let! r := parse_atom fuel tokens current in
          match r with
          | inl e => Done (inl e)
          | inr (Some a, current) => parse_variant fuel tokens current (group ++ [a])
          | inr (None, current) => Done (inr (group, true, current))
          end
  end.

(** The loop of [parse]. *)
Fixpoint parse_loop (fuel : nat) (tokens : list Token) (current : nat) (nodes : list Atom) : outcome (ParserError + list Atom) :=
  match fuel with
  | O => NoFuel
  | S fuel =>
      let! (eof, current) := match_token is_eof tokens current in
      if eof : bool then Done (inr nodes)
      else
        let! r := parse_atom fuel tokens current in
        match r with
        | inl e => Done (inl e)
        | inr (Some a, current) => parse_loop fuel tokens current (nodes ++ [a])
        | inr (None, current) => Done (inr nodes)
        end
  end.

(** Each token takes at most two calls. *)
Definition parse_fuel (tokens : list Token) : nat := (2 + 2 * length tokens)%nat.

Definition Parser_parse (tokens : list Token) : outcome (ParserError + GroupAtoms) :=
  match check_brace_group_count tokens with
  | inl e => Done (inl e)
  | inr _ =>
      let! r := parse_loop (parse_fuel tokens) tokens 0 [] in
      match r with
      | inl e => Done (inl e)
      | inr nodes => Done (inr (group_of nodes))
      end
  end.

(** ** Nested patterns *)

(** A position: from the root, the atoms and their variants that lead to a group. *)
Abbreviation position := (list (nat * nat)) (only parsing).

(** [bubble_up] and [bubble_up_next] of the groups where they are set. *)
Abbreviation Links := (gmap (list (nat * nat)) (list (nat * nat) * nat)) (only parsing).

Definition atoms_of (g : GroupAtoms) : list Atom :=
  match g with
  | Single a => [a]
  | Many l => l
  end.

(** The group at a position. *)
Fixpoint group_at (g : GroupAtoms) (p : position) : option GroupAtoms :=
  match p with
  | [] => Some g
  | (i, j) :: p =>
      match atoms_of g !! i with
      | Some (AExpansion variants) => match variants !! j with Some g => group_at g p | None => None end
      | _ => None
      end
  end.

(** The recursive calls of [expand_nested]. *)
Definition nested_call : Type :=
  position -> Links -> list bytes -> nat -> nat -> nat -> outcome (Links * list bytes * nat).

(** [if !bubble_up.is_null() { return expand_nested(bubble_up, .., next) } Ok(())] *)
Definition bubble (rec : nested_call) (at_ : position) (links : Links) (out : list bytes) (out_key counter : nat)
    : outcome (Links * list bytes * nat) :=
  match links !! at_ with
  | Some (bubble_up, next) => rec bubble_up links out out_key counter next
  | None => Done (links, out, counter)
  end.

(** The loop over [n] variants of the atom [i] of the group at [at_], from [j] on;
    [next] is the atom to go on with behind them. *)
Fixpoint nested_variants (rec : nested_call) (n j : nat) (at_ : position) (i next : nat) (links : Links) (out : list bytes)
    (out_key counter len : nat) : outcome (Links * list bytes * nat) :=
  match n with
  | O => Done (links, out, counter)
  | S n =>
      let group := at_ ++ [(i, j)] in
      let links := <[group := (at_, next)]> links in
      let! (out, new_key, counter) := variant_key j out out_key counter len in
      let! (links, out, counter) := rec group links out new_key counter 0%nat in
      nested_variants rec n (S j) at_ i next links out out_key counter len
  end.

(** [i + 1] at [u16] *)
Definition wrapping_next (i : nat) : nat := if (i =? u16_MAX)%nat then 0%nat else S i.

(** The loop over the atoms of a group from [i] on. *)
Fixpoint nested_atoms (rec : nested_call) (atoms : list Atom) (i : nat) (at_ : position) (links : Links) (out : list bytes)
    (out_key counter : nat) : outcome (Links * list bytes * nat) :=
  match atoms with
  | [] => bubble rec at_ links out out_key counter
  | AText txt :: atoms =>
      let! _ := to_u16 i in
      let! out := extend_word out out_key txt in
      nested_atoms rec atoms (S i) at_ links out out_key counter
  | AExpansion variants :: _ =>
      let! i := to_u16 i in
      match out !! out_key with
      | None => Panic
      | Some word =>
          nested_variants rec (length variants) 0 at_ i (wrapping_next i) links out out_key counter (length word)
      end
  end.

Fixpoint expand_nested (fuel : nat) (root : GroupAtoms) (at_ : position) (links : Links) (out : list bytes)
    (out_key counter start : nat) : outcome (Links * list bytes * nat) :=
  match fuel with
  | O => NoFuel
  | S fuel =>
      let rec := expand_nested fuel root in
      match group_at root at_ with
      | None => Panic
      | Some (Single a) =>
          if (0 <? start)%nat then bubble rec at_ links out out_key counter
          else
            match a with
            | AText txt =>
                let! out := extend_word out out_key txt in
                bubble rec at_ links out out_key counter
            | AExpansion variants =>
                match out !! out_key with
                | None => Panic
                | Some word => nested_variants rec (length variants) 0 at_ 0 1 links out out_key counter (length word)
                end
            end
      | Some (Many many) =>
          if (length many <=? start)%nat then bubble rec at_ links out out_key counter
          else nested_atoms rec (drop start many) start at_ links out out_key counter
      end
  end.

(** Every token is at most one step down and one step up. *)
Definition expand_fuel (tokens : list Token) : nat := S (2 * length tokens).

(** The words, or an error. *)
Definition expand (tokens : list Token) (out : list bytes) (contains_nested : bool) : outcome (ParserError + list bytes) :=
  match check_brace_group_count tokens with
  | inl e => Done (inl e)
  | inr _ =>
      if negb contains_nested then
        let! r := build_expansion_table tokens in
        match r with
        | inl e => Done (inl e)
        | inr (tokens, expansions_table) =>
            let! (out, _) := expand_flat (expand_fuel tokens) tokens expansions_table out 0 1 0 0 (length tokens) in
            Done (inr out)
        end
      else
        let! r := Parser_parse tokens in
        match r with
        | inl e => Done (inl e)
        | inr root_node =>
            let! (_, out, _) := expand_nested (expand_fuel tokens) root_node [] ∅ out 0 1 0 in
            Done (inr out)
        end
  end.

(** What the callers do with a text: a cap on the number of words, and the text
    itself when there is nothing to expand. *)
Definition MAX_BRACE_EXPANSIONS : Z := 65536.

Inductive BracesResult : Type :=
| Unchanged
| TooManyExpansions (count : Z)
| Failed (e : ParserError)
| Words (ws : list bytes).

Definition braces (e : StringEncoding) (src : bytes) : outcome BracesResult :=
  let! lexed := tokenize e src in
  let! count := calculate_expanded_amount lexed.(lo_tokens) in
  if count =? 0 then Done Unchanged
  else if MAX_BRACE_EXPANSIONS <? count then Done (TooManyExpansions count)
  else
    let! r := expand lexed.(lo_tokens) (replicate (Z.to_nat count) []) lexed.(lo_contains_nested) in
    match r with
    | inl err => Done (Failed err)
    | inr ws => Done (Words ws)
    end.
