(* ===== verification/BracesSpec.v ===== *)
(** * Brace expansion: the reference

    A pattern is a list of nodes: texts, and groups of two or more variants.
    [words] are the words it stands for and [toks] its tokens. [read] makes the
    nodes of a sequence of characters: a brace that is not closed, or that has no
    comma of its own, is text, and so are its commas. *)
From Stdlib Require Import ZArith Lia.
From stdpp Require Import base list numbers option gmap.
From S2P Require Import Prelude Wtf8 Braces.
#[local] Open Scope nat_scope.

(** ** Patterns *)

(** A group has a first variant and others. *)
Inductive node : Type :=
| NText (s : bytes)
| NGroup (v : list node) (vs : list (list node)).

(** Induction through the variants. *)
Section NodeInd.
Context (P : node -> Prop).
Context (HText : forall s, P (NText s)).
Context (HGroup : forall v vs, Forall P v -> Forall (Forall P) vs -> P (NGroup v vs)).

Fixpoint node_nested_ind (n : node) : P n :=
  let fix go (v : list node) : Forall P v :=
    match v with
    | [] => Forall_nil_2 _
    | n :: v => Forall_cons_2 _ _ _ (node_nested_ind n) (go v)
    end in
  let fix gos (vs : list (list node)) : Forall (Forall P) vs :=
    match vs with
    | [] => Forall_nil_2 _
    | v :: vs => Forall_cons_2 _ _ _ (go v) (gos vs)
    end in
  match n with
  | NText s => HText s
  | NGroup v vs => HGroup v vs (go v) (gos vs)
  end.
End NodeInd.

(** Every word of the first before every word of the second. *)
Definition cross (a b : list bytes) : list bytes := flat_map (fun x => map (app x) b) a.

Fixpoint words_node (n : node) : list bytes :=
  match n with
  | NText s => [s]
  | NGroup v vs =>
      let words := fold_right (fun n ws => cross (words_node n) ws) [[]] in
      words v ++ flat_map words vs
  end.

(** The words of a pattern, those of the first variants first. *)
Definition expansions (v : list node) : list bytes := fold_right (fun n ws => cross (words_node n) ws) [[]] v.

Lemma words_group v vs : words_node (NGroup v vs) = expansions v ++ flat_map expansions vs.
Proof. done. Qed.

Fixpoint toks_node (n : node) : list Token :=
  match n with
  | NText s => [TText s]
  | NGroup v vs =>
      TOpen ExpansionVariants_default :: flat_map toks_node v ++
      flat_map (fun v => TComma :: flat_map toks_node v) vs ++ [TClose]
  end.

Definition toks (v : list node) : list Token := flat_map toks_node v.

(** The variants of a group behind the first. *)
Definition more_toks (vs : list (list node)) : list Token := flat_map (fun v => TComma :: toks v) vs.

Lemma toks_group v vs : toks_node (NGroup v vs) = TOpen ExpansionVariants_default :: toks v ++ more_toks vs ++ [TClose].
Proof. done. Qed.

Lemma toks_app u v : toks (u ++ v) = toks u ++ toks v.
Proof. apply flat_map_app. Qed.

Lemma more_toks_app us vs : more_toks (us ++ vs) = more_toks us ++ more_toks vs.
Proof. apply flat_map_app. Qed.

(** ** Laws of words *)

Lemma cross_nil_r a : cross a [[]] = a.
Proof. unfold cross. induction a as [|x a IH]; [done|]. cbn. rewrite app_nil_r. by f_equal. Qed.

Lemma cross_app_l a a' b : cross (a ++ a') b = cross a b ++ cross a' b.
Proof. apply flat_map_app. Qed.

Lemma cross_one s b : cross [s] b = map (app s) b.
Proof. cbn. apply app_nil_r. Qed.

Lemma cross_map s a b : cross (map (app s) a) b = map (app s) (cross a b).
Proof.
  unfold cross. induction a as [|x a IH]; [done|]. cbn. rewrite IH, map_app, map_map. f_equal.
  apply map_ext. intros y. by rewrite app_assoc.
Qed.

Lemma cross_assoc a b c : cross (cross a b) c = cross a (cross b c).
Proof.
  induction a as [|x a IH]; [done|]. change (x :: a) with ([x] ++ a). by rewrite !cross_app_l, IH, !cross_one, cross_map.
Qed.

Lemma expansions_app u v : expansions (u ++ v) = cross (expansions u) (expansions v).
Proof.
  induction u as [|n u IH]; [symmetry; cbn; by rewrite map_id, app_nil_r|].
  cbn. change (fold_right _ [[]] (u ++ v)) with (expansions (u ++ v)). rewrite IH. symmetry. apply cross_assoc.
Qed.

Lemma expansions_text s v : expansions (NText s :: v) = map (app s) (expansions v).
Proof. apply cross_one. Qed.

Lemma cross_flat_map vs (b : list bytes) : cross (flat_map expansions vs) b = flat_map (fun v => cross (expansions v) b) vs.
Proof. induction vs as [|v vs IH]; [done|]. cbn [flat_map]. by rewrite cross_app_l, IH. Qed.

(** A group before a rest: each variant is continued by the rest. *)
Lemma expansions_group v vs w :
  expansions (NGroup v vs :: w) = flat_map (fun u => expansions (u ++ w)) (v :: vs).
Proof.
  change (expansions (NGroup v vs :: w)) with (cross (words_node (NGroup v vs)) (expansions w)).
  rewrite words_group. change (expansions v ++ flat_map expansions vs) with (flat_map expansions (v :: vs)).
  rewrite cross_flat_map. apply flat_map_ext. intros u. symmetry. apply expansions_app.
Qed.

Lemma length_cross a b : length (cross a b) = length a * length b.
Proof. induction a as [|x a IH]; [done|]. change (x :: a) with ([x] ++ a). rewrite cross_app_l, cross_one, !length_app, length_map, IH. cbn. lia. Qed.

Lemma expansions_pos v : 0 < length (expansions v).
Proof.
  assert (Hn : forall n, 0 < length (words_node n)).
  { induction n as [s|v' vs Hv Hvs] using node_nested_ind; [cbn; lia|]. rewrite words_group, length_app.
    enough (0 < length (expansions v')) by lia. induction Hv as [|n v' Hn _ IH]; [cbn; lia|].
    change (expansions (n :: v')) with (cross (words_node n) (expansions v')). rewrite length_cross. nia. }
  induction v as [|n v IH]; [cbn; lia|].
  change (expansions (n :: v)) with (cross (words_node n) (expansions v)). rewrite length_cross. specialize (Hn n). nia.
Qed.

(** ** Reading *)

(** An open brace: its variants so far, and the one that is being read. *)
Definition level : Type := list (list node) * list node.

(** The nodes outside of all braces, and the open braces, the innermost first. *)
Definition reading : Type := list node * list level.

(** Adds nodes where the reading is. *)
Definition put_nodes (ns : list node) (r : reading) : reading :=
  match r with
  | (top, []) => (top ++ ns, [])
  | (top, (vs, cur) :: st) => (top, (vs, cur ++ ns) :: st)
  end.

(** The variant that is being read. *)
Definition current (r : reading) : list node :=
  match r with
  | (top, []) => top
  | (_, (_, cur) :: _) => cur
  end.

(** A character goes to the end of the text before it. *)
Definition add_text (s : bytes) (cur : list node) : list node :=
  match list.last cur with
  | Some (NText t) => <[length cur - 1 := NText (t ++ s)]> cur
  | _ => cur ++ [NText s]
  end.

Definition put_text (s : bytes) (r : reading) : reading :=
  match r with
  | (top, []) => (add_text s top, [])
  | (top, (vs, cur) :: st) => (top, (vs, add_text s cur) :: st)
  end.

(** The braces of a group with no comma are text. *)
Definition group_nodes (l : level) : list node :=
  match l with
  | ([], cur) => NText [ch_open] :: cur ++ [NText [ch_close]]
  | (v :: vs, cur) => [NGroup v (vs ++ [cur])]
  end.

(** And so are the open brace and the commas of a group that is not closed. *)
Definition unclosed_nodes (l : level) : list node :=
  let '(vs, cur) := l in
  NText [ch_open] :: flat_map (fun v => v ++ [NText [ch_comma]]) vs ++ cur.

Definition read_step (e : StringEncoding) (input : InputChar) (r : reading) : reading :=
  let '(top, st) := r in
  let plain := put_text (char_bytes e input.(ic_char)) r in
  if input.(ic_escaped) then plain
  else if Z.eqb input.(ic_char) ch_open then (top, ([], []) :: st)
  else if Z.eqb input.(ic_char) ch_close then
    match st with
    | l :: st => put_nodes (group_nodes l) (top, st)
    | [] => plain
    end
  else if Z.eqb input.(ic_char) ch_comma then
    match st with
    | (vs, cur) :: st => (top, (vs ++ [cur], []) :: st)
    | [] => plain
    end
  else plain.

(** The nodes at the end: [ns] is what was inside of the braces seen so far. *)
Fixpoint close_all (top : list node) (st : list level) (ns : list node) : list node :=
  match st with
  | [] => top ++ ns
  | (vs, cur) :: st => close_all top st (unclosed_nodes (vs, cur ++ ns))
  end.

(** Texts that follow each other are one. *)
Definition join_text (s : bytes) (v : list node) : list node :=
  match v with
  | NText t :: v => NText (s ++ t) :: v
  | _ => NText s :: v
  end.

Fixpoint merge_node (n : node) : node :=
  let merge := fold_right (fun n v => match n with NText s => join_text s v | NGroup _ _ => merge_node n :: v end) [] in
  match n with
  | NText s => NText s
  | NGroup v vs => NGroup (merge v) (map merge vs)
  end.

Definition merge (v : list node) : list node :=
  fold_right (fun n v => match n with NText s => join_text s v | NGroup _ _ => merge_node n :: v end) [] v.

Definition read (e : StringEncoding) (cs : list InputChar) : list node :=
  let '(top, st) := foldl (fun r c => read_step e c r) ([], []) cs in
  merge (close_all top st []).

(** ** Laws of merging *)

Lemma expansions_join_text s v : expansions (join_text s v) = map (app s) (expansions v).
Proof.
  destruct v as [|[t|? ?] v]; cbn [join_text]; rewrite expansions_text; [done| |done].
  rewrite expansions_text, map_map. apply map_ext. intros x. by rewrite app_assoc.
Qed.

Lemma merge_group v vs w : merge (NGroup v vs :: w) = NGroup (merge v) (map merge vs) :: merge w.
Proof. done. Qed.

(** Merging texts changes no word. *)
Lemma expansions_merge v : expansions (merge v) = expansions v.
Proof.
  assert (Hlist : forall w, Forall (fun n => words_node (merge_node n) = words_node n) w -> expansions (merge w) = expansions w).
  { induction 1 as [|[s|v' vs] w Hn _ IH]; [done| |].
    - change (merge (NText s :: w)) with (join_text s (merge w)). by rewrite expansions_join_text, expansions_text, IH.
    - change (merge (NGroup v' vs :: w)) with (merge_node (NGroup v' vs) :: merge w).
      change (cross (words_node (merge_node (NGroup v' vs))) (expansions (merge w)) = cross (words_node (NGroup v' vs)) (expansions w)).
      by rewrite Hn, IH. }
  apply Hlist, Forall_true. intros n. induction n as [s|v' vs Hv Hvs] using node_nested_ind; [done|].
  change (merge_node (NGroup v' vs)) with (NGroup (merge v') (map merge vs)). rewrite !words_group, Hlist by done. f_equal.
  induction Hvs as [|u vs Hu _ IH]; [done|]. cbn [map flat_map]. by rewrite Hlist, IH.
Qed.

Lemma merge_length v : length (merge v) <= length v.
Proof.
  induction v as [|[s|a vs] v IH]; [done| |rewrite merge_group; cbn [length]; lia].
  change (merge (NText s :: v)) with (join_text s (merge v)). destruct (merge v) as [|[] m]; cbn in *; lia.
Qed.

Lemma merge_join_text s v : merge v = v -> merge (join_text s v) = join_text s v.
Proof.
  intros E. destruct v as [|[t|a vs] v]; [done| |].
  - change (join_text (s ++ t) (merge v) = NText (s ++ t) :: v). change (join_text t (merge v) = NText t :: v) in E.
    pose proof (merge_length v) as Hl. destruct (merge v) as [|[u|? ?] m]; cbn [join_text] in *; [by injection E as <-| |by injection E as <-].
    injection E as _ ->. cbn in Hl. lia.
  - change (join_text s (merge (NGroup a vs :: v)) = NText s :: NGroup a vs :: v). by rewrite E.
Qed.

(** Merged texts stay as they are. *)
Lemma merge_idem v : merge (merge v) = merge v.
Proof.
  assert (Hlist : forall w, Forall (fun n => merge_node (merge_node n) = merge_node n) w -> merge (merge w) = merge w).
  { induction 1 as [|[s|a vs] w Hn _ IH]; [done| |].
    - change (merge (NText s :: w)) with (join_text s (merge w)). by apply merge_join_text.
    - change (merge (NGroup a vs :: w)) with (merge_node (NGroup a vs) :: merge w).
      change (merge_node (merge_node (NGroup a vs)) :: merge (merge w) = merge_node (NGroup a vs) :: merge w). by rewrite Hn, IH. }
  apply Hlist, Forall_true. intros n. induction n as [s|a vs Ha Hvs] using node_nested_ind; [done|].
  change (NGroup (merge (merge a)) (map merge (map merge vs)) = NGroup (merge a) (map merge vs)). rewrite Hlist by done. f_equal.
  induction Hvs as [|u vs Hu _ IH]; [done|]. cbn [map]. by rewrite Hlist, IH.
Qed.

(** ** Patterns with groups in groups *)

Definition is_group (n : node) : bool := match n with NGroup _ _ => true | NText _ => false end.
Definition has_group (v : list node) : bool := existsb is_group v.
Definition is_deep (n : node) : bool := match n with NGroup v vs => existsb has_group (v :: vs) | NText _ => false end.
Definition deep (v : list node) : bool := existsb is_deep v.

(** ** Tokens whose texts are merged *)

Definition join_tok (t : Token) (l : list Token) : list Token :=
  match t, l with
  | TText s, TText s' :: l => TText (s ++ s') :: l
  | _, _ => t :: l
  end.

Definition squash (l : list Token) : list Token := fold_right join_tok [] l.

Definition no_text (l : list Token) : Prop := match l with TText _ :: _ => False | _ => True end.

Lemma squash_app l r : squash (l ++ r) = fold_right join_tok (squash r) l.
Proof. apply fold_right_app. Qed.

Lemma squash_no_text l : no_text l -> no_text (squash l).
Proof. by destruct l as [|[] l]. Qed.

Lemma toks_join_text s m r : no_text r -> join_tok (TText s) (toks m ++ r) = toks (join_text s m) ++ r.
Proof. intros Hr. destruct m as [|[t|v vs] m]; [|done..]. cbn. by destruct r as [|[] r]. Qed.

(** The tokens of a pattern with its texts merged. *)
Lemma squash_toks v r : no_text r -> squash (toks v ++ r) = toks (merge v) ++ squash r.
Proof.
  assert (Hlist : forall w, Forall (fun n => forall r, is_group n = true -> squash (toks_node n ++ r) = toks_node (merge_node n) ++ squash r) w ->
    forall r, no_text r -> squash (toks w ++ r) = toks (merge w) ++ squash r).
  { induction 1 as [|n w Hn _ IH]; intros r' Hr; [done|].
    change (toks (n :: w)) with (toks_node n ++ toks w). rewrite <- app_assoc. destruct n as [s|v' vs].
    - change (join_tok (TText s) (squash (toks w ++ r')) = toks (join_text s (merge w)) ++ squash r').
      rewrite IH by done. by apply toks_join_text, squash_no_text.
    - rewrite (Hn _ eq_refl), IH by done. rewrite app_assoc. done. }
  assert (Hmore : forall vs, Forall (Forall (fun n => forall r, is_group n = true -> squash (toks_node n ++ r) = toks_node (merge_node n) ++ squash r)) vs ->
    forall r, no_text r -> squash (more_toks vs ++ r) = more_toks (map merge vs) ++ squash r).
  { induction 1 as [|u vs Hu _ IH]; intros r' Hr; [done|].
    change (more_toks (u :: vs)) with (TComma :: toks u ++ more_toks vs). rewrite <- app_comm_cons, <- app_assoc.
    change (TComma :: squash (toks u ++ more_toks vs ++ r') = more_toks (map merge (u :: vs)) ++ squash r').
    rewrite Hlist, IH by (done || by destruct vs). cbn. by rewrite app_assoc. }
  apply Hlist, Forall_true. intros n. induction n as [s|v' vs Hv Hvs] using node_nested_ind; intros r' Hg; [done|].
  change (merge_node (NGroup v' vs)) with (NGroup (merge v') (map merge vs)). rewrite !toks_group.
  rewrite <- !app_comm_cons, <- !app_assoc.
  change (TOpen ExpansionVariants_default :: squash (toks v' ++ more_toks vs ++ [TClose] ++ r') =
    TOpen ExpansionVariants_default :: toks (merge v') ++ more_toks (map merge vs) ++ [TClose] ++ squash r').
  f_equal. rewrite Hlist, Hmore by (done || by destruct vs). done.
Qed.
