(* ===== verification/BracesLexer.v ===== *)
(** * Brace expansion: the lexer

    The tokens of a text are those of the pattern that [read] makes of it: the
    lexer, its rollback of open braces and its merging of texts in place refine
    the reference reader. *)
From Stdlib Require Import ZArith Lia.
From stdpp Require Import base list numbers option gmap.
From S2P Require Import Prelude Wtf8 Braces BracesSpec.
#[local] Open Scope nat_scope.

(** ** Merging texts in place *)

(** Adds a token behind the tokens written. *)
Definition absorb (w : list Token) (t : Token) : list Token :=
  match list.last w, t with
  | Some (TText prev), TText cur => <[length w - 1 := TText (prev ++ cur)]> w
  | _, _ => w ++ [t]
  end.

Lemma absorb_cons x y w t : absorb (x :: y :: w) t = x :: absorb (y :: w) t.
Proof.
  unfold absorb. change (list.last (x :: y :: w)) with (list.last (y :: w)).
  destruct (list.last (y :: w)) as [[]|], t; try done. cbn [length Nat.sub]. by rewrite Nat.sub_0_r.
Qed.

Lemma squash_snoc l t : squash (l ++ [t]) = absorb (squash l) t.
Proof.
  induction l as [|x l IH]; [by destruct t|].
  change (join_tok x (squash (l ++ [t])) = absorb (join_tok x (squash l)) t). rewrite IH.
  destruct (squash l) as [|y [|z m]]; [by destruct x, t| |].
  - destruct x, y, t; try done. cbn. by rewrite app_assoc.
  - rewrite absorb_cons. destruct x, y; cbn [join_tok]; by rewrite !absorb_cons.
Qed.

Lemma foldl_absorb l : forall l0, foldl absorb (squash l0) l = squash (l0 ++ l).
Proof.
  induction l as [|t l IH]; intros l0; [by rewrite app_nil_r|]. cbn. rewrite <- squash_snoc, IH. by rewrite <- app_assoc.
Qed.

(** The count of open braces and the flag. *)
Definition depth_step (s : Z * bool) (t : Token) : Z * bool :=
  let c := match t with
           | TOpen _ => wadd32 s.1 1
           | TClose => as_u32 (s.1 - 1)
           | _ => s.1
           end in
  (c, s.2 || (is_open t && Z.ltb 1 c)).

(** [tokens.swap(write, read)] *)
Lemma swap_ok (w g : list Token) t rest :
  exists x g', (w ++ g ++ t :: rest) !! length w = Some x /\
    <[length w + length g := x]> (<[length w := t]> (w ++ g ++ t :: rest)) = (w ++ [t]) ++ g' ++ rest /\ length g' = length g.
Proof.
  destruct g as [|x g].
  - exists t, []. cbn [app length]. rewrite lookup_app_r, Nat.sub_diag, Nat.add_0_r by lia.
    rewrite !list_insert_id by (try rewrite list_insert_id; rewrite lookup_app_r, Nat.sub_diag by lia; done).
    by rewrite <- app_assoc.
  - exists x, (g ++ [x]). cbn [app length]. rewrite lookup_app_r, Nat.sub_diag by lia. split; [done|]. split; [|rewrite length_app; cbn; lia].
    rewrite insert_app_r_alt, Nat.sub_diag by lia. rewrite insert_app_r_alt by lia.
    replace (length w + S (length g) - length w) with (S (length g)) by lia.
    change (w ++ t :: <[length g := x]> (g ++ t :: rest) = (w ++ [t]) ++ (g ++ [x]) ++ rest).
    rewrite insert_app_r_alt, Nat.sub_diag by lia. by rewrite <- !app_assoc.
Qed.

(** Moving a text to the one before it. *)
Lemma absorb_text_ok (w g : list Token) s t rest :
  <[length w := TText (s ++ t)]> (<[S (length w) + length g := TEof]> ((w ++ [TText s]) ++ g ++ TText t :: rest))
  = (w ++ [TText (s ++ t)]) ++ (g ++ [TEof]) ++ rest.
Proof.
  rewrite insert_app_r_alt by (rewrite length_app; cbn; lia). rewrite length_app. cbn [length].
  replace (S (length w) + length g - (length w + 1)) with (length g) by lia.
  rewrite (insert_app_r_alt g), Nat.sub_diag by lia. rewrite <- !app_assoc. rewrite (insert_app_r_alt w), Nat.sub_diag by lia. done.
Qed.

Lemma last_lookup_prefix (w r : list Token) : (if 0 <? length w then (w ++ r) !! (length w - 1) else None) = list.last w.
Proof.
  rewrite last_lookup. destruct w as [|x w]; [done|]. cbn [length Nat.ltb Nat.leb]. rewrite lookup_app_l by (cbn; lia).
  cbn [Nat.sub]. by rewrite Nat.sub_0_r.
Qed.

Lemma flatten_round_ok w g t rest c f :
  exists g', flatten_round (length w + length g) (mkFlatten (w ++ g ++ t :: rest) (length w) c f) =
    Done (mkFlatten (absorb w t ++ g' ++ rest) (length (absorb w t)) (depth_step (c, f) t).1 (depth_step (c, f) t).2) /\
    length (absorb w t) + length g' = length w + length g + 1.
Proof.
  unfold flatten_round. cbn [fl_tokens fl_write fl_brace_count fl_contains_nested].
  assert (E0 : (w ++ g ++ t :: rest) !! (length w + length g) = Some t).
  { rewrite app_assoc, lookup_app_r, length_app, Nat.sub_diag by (rewrite length_app; lia). done. }
  rewrite E0, last_lookup_prefix. destruct (swap_ok w g t rest) as (x & g' & Ex & Eg & Hl). rewrite Ex, Eg.
  unfold absorb. destruct (list.last w) as [[]|] eqn:El, t;
    try (exists g'; rewrite length_app; cbn [length]; split; [reflexivity|lia]).
  apply last_Some in El as [w0 ->]. exists (g ++ [TEof]). rewrite !length_app, !length_insert, !length_app. cbn [length].
  split; [|lia]. replace (length w0 + 1 - 1) with (length w0) by lia. replace (length w0 + 1 + length g) with (S (length w0) + length g) by lia.
  rewrite absorb_text_ok, insert_app_r_alt, Nat.sub_diag by lia. done.
Qed.

Lemma flatten_loop_ok rest : forall w g c f,
  exists g', flatten_loop (length rest) (length w + length g) (mkFlatten (w ++ g ++ rest) (length w) c f) =
    Done (mkFlatten (foldl absorb w rest ++ g') (length (foldl absorb w rest)) (foldl depth_step (c, f) rest).1 (foldl depth_step (c, f) rest).2).
Proof.
  induction rest as [|t rest IH]; intros w g c f; [exists g; by rewrite app_nil_r|].
  destruct (flatten_round_ok w g t rest c f) as (g' & E & Hl). cbn [flatten_loop length]. rewrite E. cbn [obind].
  destruct (IH (absorb w t) g' (depth_step (c, f) t).1 (depth_step (c, f) t).2) as (g2 & E2).
  exists g2. rewrite <- Hl. cbn [foldl]. rewrite (surjective_pairing (depth_step (c, f) t)). exact E2.
Qed.

Lemma flatten_tokens_ok l :
  flatten_tokens l = Done (mkLexed (squash l) (foldl depth_step (0%Z, false) l).2).
Proof.
  destruct (flatten_loop_ok l [] [] 0%Z false) as (g & E). unfold flatten_tokens.
  change (flatten_loop (length l) 0 (mkFlatten l 0 0 false)) with (flatten_loop (length l) (length (@nil Token) + length (@nil Token)) (mkFlatten ([] ++ [] ++ l) (length (@nil Token)) 0 false)).
  rewrite E. cbn [obind fl_write fl_tokens fl_contains_nested]. rewrite take_app_length. change (foldl absorb [] l) with (foldl absorb (squash []) l). by rewrite foldl_absorb.
Qed.

(** The flag tells whether a group is in a group. *)
Lemma depth_toks v c f : (0 <= c)%Z -> (c + Z.of_nat (length (toks v)) < two32)%Z ->
  foldl depth_step (c, f) (toks v) = (c, f || if Z.ltb 0 c then has_group v else deep v).
Proof.
  set (P := fun n => forall c f, (0 <= c)%Z -> (c + Z.of_nat (length (toks_node n)) < two32)%Z ->
    foldl depth_step (c, f) (toks_node n) = (c, f || if Z.ltb 0 c then is_group n else is_deep n)).
  assert (Hlist : forall w, Forall P w -> forall c f, (0 <= c)%Z -> (c + Z.of_nat (length (toks w)) < two32)%Z ->
    foldl depth_step (c, f) (toks w) = (c, f || if Z.ltb 0 c then has_group w else deep w)).
  { induction 1 as [|n w Hn _ IH]; intros c' f' Hc Hb; [cbn; by destruct (Z.ltb 0 c'); rewrite orb_false_r|].
    change (toks (n :: w)) with (toks_node n ++ toks w) in *. rewrite length_app in Hb.
    rewrite foldl_app, Hn, IH by lia. f_equal. cbn. destruct (Z.ltb 0 c'); by rewrite <- orb_assoc. }
  assert (Hmore : forall vs, Forall (Forall P) vs -> forall c f, (0 < c)%Z -> (c + Z.of_nat (length (more_toks vs)) < two32)%Z ->
    foldl depth_step (c, f) (more_toks vs) = (c, f || existsb has_group vs)).
  { induction 1 as [|u vs Hu _ IH]; intros c' f' Hc Hb; [cbn; by rewrite orb_false_r|].
    change (more_toks (u :: vs)) with (TComma :: toks u ++ more_toks vs) in *. cbn [length] in Hb. rewrite length_app in Hb.
    cbn [foldl]. change (depth_step (c', f') TComma) with (c', f' || false). rewrite orb_false_r.
    rewrite foldl_app, Hlist, IH by (done || lia). rewrite (proj2 (Z.ltb_lt 0 c')) by lia. cbn. by rewrite orb_assoc. }
  apply Hlist, Forall_true. intros n. induction n as [s|v' vs Hv Hvs] using node_nested_ind; intros c' f' Hc Hb.
  - cbn. unfold depth_step. cbn. by destruct (Z.ltb 0 c').
  - rewrite toks_group in *. cbn [length] in Hb. rewrite !length_app in Hb. cbn [length] in Hb.
    cbn [foldl]. unfold depth_step at 2. cbn [fst snd is_open andb]. unfold wadd32. rewrite Z.mod_small by lia.
    rewrite !foldl_app, Hlist, Hmore by (done || lia). rewrite (proj2 (Z.ltb_lt 0 (c' + 1))) by lia.
    cbn [foldl]. unfold depth_step. cbn [fst snd is_open andb]. unfold as_u32. replace (c' + 1 - 1)%Z with c' by lia.
    rewrite Z.mod_small, orb_false_r by lia. f_equal. rewrite <- !orb_assoc. f_equal. cbn [is_group is_deep existsb].
    destruct (Z.ltb_spec 0 c'), (Z.ltb_spec 1 (c' + 1)); lia || done.
Qed.

(** ** The tokens of a reading *)

Definition body (l : level) : list Token := flat_map (fun v => toks v ++ [TComma]) l.1 ++ toks l.2.

Fixpoint render_stack (st : list level) : list Token :=
  match st with
  | [] => []
  | l :: st => render_stack st ++ TOpen ExpansionVariants_default :: body l
  end.

Definition render (r : reading) : list Token := toks r.1 ++ render_stack r.2.

Definition has_comma (l : level) : bool := match l.1 with [] => false | _ => true end.

Fixpoint opens (top : list node) (st : list level) : list OpenBrace :=
  match st with
  | [] => []
  | l :: st => mkOpen (length (render (top, st))) (has_comma l) :: opens top st
  end.

Lemma body_app vs cur ns : body (vs, cur ++ ns) = body (vs, cur) ++ toks ns.
Proof. unfold body. cbn. by rewrite toks_app, app_assoc. Qed.

Lemma render_cons top l st : render (top, l :: st) = render (top, st) ++ TOpen ExpansionVariants_default :: body l.
Proof. unfold render. cbn [fst snd render_stack]. by rewrite app_assoc. Qed.

Lemma render_put_nodes ns r : render (put_nodes ns r) = render r ++ toks ns.
Proof.
  destruct r as [top [|[vs cur] st]]; cbn [put_nodes]; unfold render; cbn [fst snd render_stack].
  - by rewrite toks_app, !app_nil_r.
  - rewrite body_app. by rewrite <- !app_assoc.
Qed.

Lemma opens_put_nodes ns top st : opens (put_nodes ns (top, st)).1 (put_nodes ns (top, st)).2 = opens top st.
Proof. by destruct st as [|[vs cur] st]. Qed.

(** The tokens of a group, from those of its reading. *)
Lemma body_group v vs cur : body (v :: vs, cur) = toks v ++ more_toks (vs ++ [cur]).
Proof.
  revert v. induction vs as [|u vs IH]; intros v.
  - unfold body. cbn. by rewrite !app_nil_r, <- app_assoc.
  - transitivity ((toks v ++ [TComma]) ++ body (u :: vs, cur)); [unfold body; cbn; by rewrite <- !app_assoc|].
    rewrite IH. by rewrite <- app_assoc.
Qed.

(** ** One character *)

(** Text goes to the end of the variant that is read, as the token before it is
    no text unless it is of this variant. *)
Lemma append_char_ok e p cur c : (match list.last p with Some (TText _) => False | _ => True end) ->
  append_char e (p ++ toks cur) c = p ++ toks (add_text (char_bytes e c) cur).
Proof.
  intros Hp. unfold append_char, add_text. destruct cur as [|n cur _] using rev_ind.
  - cbn. rewrite app_nil_r. destruct (list.last p) as [[]|]; done.
  - rewrite last_snoc, toks_app. destruct n as [s|v vs].
    + change (toks [NText s]) with [TText s]. rewrite app_assoc, last_snoc, !length_app. cbn [length].
      replace (length p + length (toks cur) + 1 - 1) with (length (p ++ toks cur)) by (rewrite length_app; lia).
      replace (length cur + 1 - 1) with (length cur) by lia.
      rewrite !insert_app_r_alt, !Nat.sub_diag by lia. cbn [list_insert insert]. rewrite toks_app. by rewrite app_assoc.
    + assert (exists l, toks [NGroup v vs] = l ++ [TClose]) as [l El].
      { exists (TOpen ExpansionVariants_default :: toks v ++ more_toks vs). change (toks [NGroup v vs]) with (toks_node (NGroup v vs) ++ []).
        rewrite app_nil_r, toks_group. cbn [app]. by rewrite <- app_assoc. }
      rewrite (toks_app (cur ++ [NGroup v vs])), (toks_app cur), El. rewrite !app_assoc, last_snoc. done.
Qed.

Lemma render_put_text e c r : append_char e (render r) c = render (put_text (char_bytes e c) r).
Proof.
  destruct r as [top [|[vs cur] st]]; unfold render; cbn [put_text fst snd render_stack].
  - rewrite !app_nil_r. by apply (append_char_ok e [] top c).
  - unfold body. cbn [fst snd]. rewrite !app_comm_cons, !app_assoc. apply append_char_ok.
    destruct vs as [|v vs _] using rev_ind; [cbn; by rewrite last_snoc|].
    rewrite flat_map_app. cbn [flat_map]. rewrite app_nil_r, !app_comm_cons, !app_assoc. by rewrite last_snoc.
Qed.

Lemma opens_put_text s top st : opens (put_text s (top, st)).1 (put_text s (top, st)).2 = opens top st.
Proof. by destruct st as [|[vs cur] st]. Qed.

Lemma lex_char_ok e c top st : (Z.of_nat (length (render (top, st))) < two32)%Z ->
  let r := read_step e c (top, st) in
  lex_char e c (render (top, st)) (opens top st) = Done (render r, opens r.1 r.2).
Proof.
  intros Hb r. unfold lex_char. subst r. unfold read_step.
  assert (Hplain : Done (append_char e (render (top, st)) c.(ic_char), opens top st) =
    Done (render (put_text (char_bytes e c.(ic_char)) (top, st)),
          opens (put_text (char_bytes e c.(ic_char)) (top, st)).1 (put_text (char_bytes e c.(ic_char)) (top, st)).2)).
  { by rewrite render_put_text, opens_put_text. }
  destruct (ic_escaped c); [exact Hplain|].
  destruct (Z.eqb (ic_char c) ch_open).
  { rewrite (proj2 (Z.ltb_lt _ _) Hb). unfold render. cbn [fst snd render_stack opens]. unfold body. cbn. by rewrite app_assoc. }
  destruct (Z.eqb (ic_char c) ch_close).
  { destruct st as [|[vs cur] st]; [exact Hplain|]. cbn [opens ob_has_comma has_comma fst].
    rewrite render_cons, (render_put_nodes _ (top, st)), opens_put_nodes. clear Hplain. destruct vs as [|v vs].
    - unfold replace_token_with_string. cbn [ob_tok_idx]. rewrite lookup_app_r, Nat.sub_diag by lia. cbn [lookup list_lookup obind].
      rewrite insert_app_r_alt, Nat.sub_diag by lia. cbn [list_insert insert group_nodes]. do 2 f_equal.
      change (NText [ch_open] :: cur ++ [NText [ch_close]]) with ([NText [ch_open]] ++ cur ++ [NText [ch_close]]). rewrite !toks_app. by rewrite <- app_assoc.
    - cbn [group_nodes]. rewrite body_group, <- app_assoc. change (toks [NGroup v (vs ++ [cur])]) with (toks_node (NGroup v (vs ++ [cur])) ++ []).
      rewrite app_nil_r, toks_group. cbn [app]. by rewrite <- app_assoc. }
  destruct (Z.eqb (ic_char c) ch_comma); [|exact Hplain].
  destruct st as [|[vs cur] st]; [exact Hplain|]. cbn [opens fst snd ob_tok_idx].
  unfold render. cbn [fst snd render_stack]. unfold body. cbn [fst snd]. rewrite flat_map_app. cbn [flat_map].
  rewrite !app_nil_r, !app_assoc. cbn [toks flat_map]. rewrite <- !app_assoc. cbn [app]. rewrite <- !app_assoc. cbn [app].
  do 3 f_equal. unfold has_comma. cbn. by destruct vs.
Qed.

(** ** Braces that are not closed *)

Lemma drop_next {A} (l a r : list A) i : drop i l = a ++ r -> drop (i + length a) l = r.
Proof. intros H. by rewrite <- drop_drop, H, drop_app_length. Qed.

Lemma drop_uncons {A} (l r : list A) x i : drop i l = x :: r -> l !! i = Some x /\ drop (i + 1) l = r.
Proof.
  intros H. split; [|by apply (drop_next l [x])]. rewrite <- (Nat.add_0_r i), <- lookup_drop, H. done.
Qed.

(** Inside of a closed group nothing changes. *)
Lemma rollback_inside v : forall l i r m b, drop i l = toks v ++ r ->
  rollback_loop (length (toks v) + m) l (S b) i = rollback_loop m l (S b) (i + length (toks v)).
Proof.
  assert (Hone : forall t l i r m b, (match t with TOpen _ | TClose => False | _ => True end) -> drop i l = t :: r ->
    rollback_loop (S m) l (S b) i = rollback_loop m l (S b) (i + 1)).
  { intros t l i r m b Ht [E _]%drop_uncons. cbn [rollback_loop]. rewrite E. by destruct t. }
  set (P := fun n => forall l i r m b, drop i l = toks_node n ++ r ->
    rollback_loop (length (toks_node n) + m) l (S b) i = rollback_loop m l (S b) (i + length (toks_node n))).
  assert (Hlist : forall w, Forall P w -> forall l i r m b, drop i l = toks w ++ r ->
    rollback_loop (length (toks w) + m) l (S b) i = rollback_loop m l (S b) (i + length (toks w))).
  { induction 1 as [|n w Hn _ IH]; intros l i r m b E; [cbn; f_equal; lia|].
    change (toks (n :: w)) with (toks_node n ++ toks w) in *. rewrite <- app_assoc in E.
    rewrite length_app, <- Nat.add_assoc, (Hn l i _ _ _ E), (IH _ _ r) by (by apply drop_next). f_equal. lia. }
  assert (Hmore : forall vs, Forall (Forall P) vs -> forall l i r m b, drop i l = more_toks vs ++ r ->
    rollback_loop (length (more_toks vs) + m) l (S b) i = rollback_loop m l (S b) (i + length (more_toks vs))).
  { induction 1 as [|u vs Hu _ IH]; intros l i r m b E; [cbn; f_equal; lia|].
    change (more_toks (u :: vs)) with (TComma :: toks u ++ more_toks vs) in *. cbn [app length Nat.add] in *. rewrite <- app_assoc in E.
    rewrite (Hone TComma _ _ _ _ _ I E). apply drop_uncons in E as [_ E].
    rewrite length_app, <- Nat.add_assoc, (Hlist u Hu _ _ _ _ _ E), (IH _ _ r) by (by apply drop_next). f_equal. lia. }
  apply Hlist, Forall_true. intros n. induction n as [s|v' vs Hv Hvs] using node_nested_ind; intros l i r m b E.
  - by apply (Hone (TText s) _ _ _ _ _ I E).
  - rewrite toks_group in *. cbn [app length Nat.add rollback_loop] in *. apply drop_uncons in E as [E0 E]. rewrite E0.
    cbn [Nat.ltb Nat.leb]. replace (S b + 1) with (S (S b)) by lia. rewrite <- !app_assoc in E.
    rewrite !length_app, <- !Nat.add_assoc, (Hlist v' Hv _ _ _ _ _ E). apply drop_next in E.
    rewrite (Hmore vs Hvs _ _ _ _ _ E). apply drop_next in E. cbn [length Nat.add app rollback_loop] in *. apply drop_uncons in E as [E1 _].
    rewrite E1. cbn [Nat.ltb Nat.leb]. f_equal; lia.
Qed.

Lemma rollback_inside_more vs : forall l i r m b, drop i l = more_toks vs ++ r ->
  rollback_loop (length (more_toks vs) + m) l (S b) i = rollback_loop m l (S b) (i + length (more_toks vs)).
Proof.
  induction vs as [|u vs IH]; intros l i r m b E; [cbn; f_equal; lia|].
  change (more_toks (u :: vs)) with (TComma :: toks u ++ more_toks vs) in *. cbn [app length Nat.add rollback_loop] in *.
  apply drop_uncons in E as [E0 E]. rewrite E0. cbn [Nat.ltb Nat.leb]. rewrite <- app_assoc in E.
  rewrite length_app, <- Nat.add_assoc, (rollback_inside u _ _ _ _ _ E), (IH _ _ r) by (by apply drop_next). f_equal. lia.
Qed.

(** At the level of the brace texts stay, groups are passed over. *)
Lemma rollback_nodes v : forall l i r m, drop i l = toks v ++ r ->
  rollback_loop (length (toks v) + m) l 0 i = rollback_loop m l 0 (i + length (toks v)).
Proof.
  induction v as [|n v IH]; intros l i r m E; [cbn; f_equal; lia|].
  change (toks (n :: v)) with (toks_node n ++ toks v) in *. rewrite <- app_assoc in E.
  enough (Hn : rollback_loop (length (toks_node n) + (length (toks v) + m)) l 0 i = rollback_loop (length (toks v) + m) l 0 (i + length (toks_node n))).
  { rewrite length_app, <- Nat.add_assoc, Hn, (IH _ _ r) by (by apply drop_next). f_equal. lia. }
  destruct n as [s|v' vs].
  - cbn [toks_node length Nat.add app rollback_loop] in *. apply drop_uncons in E as [E _]. rewrite E. cbn [Nat.ltb Nat.leb].
    unfold replace_token_with_string. rewrite E. cbn [obind Token_to_text]. by rewrite list_insert_id.
  - rewrite toks_group in *. cbn [app length Nat.add rollback_loop] in *. apply drop_uncons in E as [E0 E]. rewrite E0.
    cbn [Nat.ltb Nat.leb Nat.add].
    rewrite <- !app_assoc in E. rewrite !length_app, <- !Nat.add_assoc, (rollback_inside v' _ _ _ _ _ E). apply drop_next in E.
    rewrite (rollback_inside_more vs _ _ _ _ _ E). apply drop_next in E.
    cbn [length Nat.add app rollback_loop] in *. apply drop_uncons in E as [E1 _]. rewrite E1. cbn [Nat.ltb Nat.leb Nat.sub]. f_equal; lia.
Qed.

Lemma rollback_body vs cur : forall p,
  rollback_loop (length (body (vs, cur))) (p ++ body (vs, cur)) 0 (length p) =
  Done (p ++ toks (flat_map (fun v => v ++ [NText [ch_comma]]) vs ++ cur)).
Proof.
  induction vs as [|v vs IH]; intros p.
  - unfold body. cbn [fst snd flat_map app]. rewrite <- (Nat.add_0_r (length (toks cur))).
    by rewrite (rollback_nodes cur _ _ []) by (by rewrite app_nil_r, drop_app_length).
  - assert (E : body (v :: vs, cur) = toks v ++ TComma :: body (vs, cur)) by (unfold body; cbn; by rewrite <- !app_assoc).
    rewrite E, length_app. rewrite (rollback_nodes v _ _ (TComma :: body (vs, cur))) by (by rewrite drop_app_length).
    rewrite <- length_app, app_assoc. cbn [length rollback_loop]. rewrite lookup_app_r, Nat.sub_diag by lia.
    cbn [lookup list_lookup Nat.ltb Nat.leb]. unfold replace_token_with_string. rewrite lookup_app_r, Nat.sub_diag by lia. cbn [lookup list_lookup obind Token_to_text].
    rewrite insert_app_r_alt, Nat.sub_diag by lia. cbn [list_insert insert].
    specialize (IH ((p ++ toks v) ++ [TText [ch_comma]])). rewrite <- app_assoc, length_app in IH. cbn [app length] in IH. rewrite IH.
    cbn [flat_map]. rewrite !toks_app. change (toks [NText [ch_comma]]) with [TText [ch_comma]]. by rewrite <- !app_assoc.
Qed.

Lemma rollback_unclosed_ok top st : forall ns,
  rollback_unclosed (opens top st) (render (top, st) ++ toks ns) = Done (toks (close_all top st ns)).
Proof.
  induction st as [|[vs cur] st IH]; intros ns.
  - unfold render. cbn. by rewrite app_nil_r, toks_app.
  - cbn [opens rollback_unclosed close_all]. rewrite render_cons, <- app_assoc, <- app_comm_cons, <- body_app.
    unfold rollback_braces, replace_token_with_string. cbn [ob_tok_idx].
    rewrite lookup_app_r, Nat.sub_diag by lia. cbn [lookup list_lookup obind Token_to_text].
    rewrite insert_app_r_alt, Nat.sub_diag by lia. cbn [list_insert insert].
    pose proof (rollback_body vs (cur ++ ns) (render (top, st) ++ [TText [ch_open]])) as E.
    rewrite <- app_assoc, length_app in E. cbn [app length] in E.
    replace (length (render (top, st) ++ TText [ch_open] :: body (vs, cur ++ ns)) - (length (render (top, st)) + 1))
      with (length (body (vs, cur ++ ns))) by (rewrite length_app; cbn [length]; lia).
    rewrite E. cbn [obind]. rewrite <- IH. f_equal.
    unfold unclosed_nodes. change (NText [ch_open] :: ?l) with ([NText [ch_open]] ++ l). rewrite (toks_app [NText [ch_open]]). by rewrite <- app_assoc.
Qed.

(** ** Sequences of characters *)

(** What an iterator reads to its end. *)
Inductive yields : ShellSrc -> list InputChar -> Prop :=
| yields_end s : ShellCharIter_eat s = Done None -> yields s []
| yields_char s c s' cs : ShellCharIter_eat s = Done (Some (c, s')) -> yields s' cs -> yields s (c :: cs).

Lemma lex_char_length e c l st l' st' : lex_char e c l st = Done (l', st') -> length l' <= S (length l).
Proof.
  assert (Ha : length (append_char e l c.(ic_char)) <= S (length l)).
  { unfold append_char. destruct (list.last l) as [[]|]; rewrite ?length_insert, ?length_app; cbn; lia. }
  unfold lex_char, replace_token_with_string. destruct (ic_escaped c); [by intros [= <- _]|].
  destruct (Z.eqb (ic_char c) ch_open).
  { destruct (Z.ltb _ _); [|done]. intros [= <- _]. rewrite length_app. cbn. lia. }
  destruct (Z.eqb (ic_char c) ch_close).
  { destruct st as [|top st]; [by intros [= <- _]|]. destruct (ob_has_comma top).
    - intros [= <- _]. rewrite length_app. cbn. lia.
    - destruct (l !! _); [|done]. cbn [obind]. intros [= <- _]. rewrite length_app, length_insert. cbn. lia. }
  destruct (Z.eqb (ic_char c) ch_comma); [|by intros [= <- _]].
  destruct st as [|top st]; [by intros [= <- _]|]. intros [= <- _]. rewrite length_app. cbn. lia.
Qed.

Lemma lex_loop_ok e s cs : yields s cs -> forall fuel top st, length cs < fuel ->
  (Z.of_nat (length (render (top, st)) + length cs) < two32)%Z ->
  let r := foldl (fun r c => read_step e c r) (top, st) cs in
  lex_loop fuel e s (render (top, st)) (opens top st) = Done (render r, opens r.1 r.2) /\
  length (render r) <= length (render (top, st)) + length cs.
Proof.
  induction 1 as [s E|s c s' cs E _ IH]; intros [|fuel] top st Hf Hb; [cbn in Hf; lia| |cbn in Hf; lia|].
  - cbn [lex_loop foldl length]. rewrite E. split; [done|]. lia.
  - cbn [lex_loop foldl length] in *. rewrite E. cbn [obind].
    pose proof (lex_char_ok e c top st) as Ec. rewrite Ec by lia. specialize (Ec ltac:(lia)). apply lex_char_length in Ec.
    destruct (read_step e c (top, st)) as [top' st']. cbn [obind fst snd] in *.
    destruct (IH fuel top' st') as [E2 Hl]; [lia|lia|]. split; [exact E2|]. lia.
Qed.

(** ** The lexer *)

Lemma has_group_merge v : has_group (merge v) = has_group v.
Proof.
  induction v as [|[s|v' vs] v IH]; [done| |done].
  change (merge (NText s :: v)) with (join_text s (merge v)). change (has_group (NText s :: v)) with (has_group v). rewrite <- IH.
  by destruct (merge v) as [|[] ?].
Qed.

Lemma deep_merge v : deep (merge v) = deep v.
Proof.
  induction v as [|[s|v' vs] v IH]; [done| |].
  - change (merge (NText s :: v)) with (join_text s (merge v)). change (deep (NText s :: v)) with (deep v). rewrite <- IH.
    by destruct (merge v) as [|[] ?].
  - rewrite merge_group. change (existsb has_group (map merge (v' :: vs)) || deep (merge v) = existsb has_group (v' :: vs) || deep v).
    rewrite IH. f_equal. induction (v' :: vs) as [|u us IHu]; [done|]. cbn [map existsb]. by rewrite has_group_merge, IHu.
Qed.

Lemma length_close_all top st : forall ns, length (toks (close_all top st ns)) = length (render (top, st)) + length (toks ns).
Proof.
  induction st as [|[vs cur] st IH]; intros ns.
  - unfold render. cbn. by rewrite app_nil_r, toks_app, length_app.
  - cbn [close_all]. rewrite IH, render_cons, length_app. cbn [length].
    enough (length (toks (unclosed_nodes (vs, cur ++ ns))) = S (length (body (vs, cur ++ ns)))) as -> by (rewrite body_app, length_app; lia).
    unfold unclosed_nodes, body. cbn [fst snd]. change (S (length (toks (flat_map (fun v => v ++ [NText [ch_comma]]) vs ++ cur ++ ns))) = 
      S (length (flat_map (fun v => toks v ++ [TComma]) vs ++ toks (cur ++ ns)))).
    rewrite (toks_app (flat_map _ _)), !(length_app _ (toks (cur ++ ns))). do 2 f_equal.
    induction vs as [|v vs IHv]; [done|]. cbn [flat_map]. rewrite !toks_app, !length_app, IHv. done.
Qed.

Lemma tokenize_ok e src s cs : ShellCharIter_init e src = Done s -> yields s cs -> length cs <= length src ->
  (Z.of_nat (length src) < two32)%Z ->
  tokenize e src = Done (mkLexed (toks (read e cs) ++ [TEof]) (deep (read e cs))).
Proof.
  intros Es Hy Hl Hb. unfold tokenize. rewrite Es. cbn [obind].
  destruct (lex_loop_ok e s cs Hy (S (length src)) [] []) as [E Hr]; [lia|cbn; lia|].
  change (render ([], [])) with (@nil Token) in *. change (opens [] []) with (@nil OpenBrace) in E. rewrite E. cbn [obind].
  unfold read. destruct (foldl (fun (r : reading) (c : InputChar) => read_step e c r) ([], []) cs) as [top st]. cbn [fst snd length] in *.
  pose proof (rollback_unclosed_ok top st []) as Er. cbn [toks flat_map] in Er. rewrite app_nil_r in Er.
  rewrite Er. cbn [obind]. rewrite flatten_tokens_ok. cbn [obind lo_tokens lo_contains_nested].
  pose proof (length_close_all top st []) as Hlen. cbn [toks flat_map length] in Hlen.
  rewrite depth_toks by (cbn; lia). cbn [snd orb]. rewrite deep_merge.
  pose proof (squash_toks (close_all top st []) [] I) as Es'. rewrite !app_nil_r in Es'. by rewrite Es'.
Qed.

(** ** Characters of bytes and of code points *)

(** The characters of a text: a backslash escapes the next, and is lost at the
    end. *)
Fixpoint input_of (cs : list Z) : list InputChar :=
  match cs with
  | [] => []
  | c :: cs =>
      if Z.eqb c ch_backslash then
        match cs with
        | [] => []
        | d :: cs => mkChar d true :: input_of cs
        end
      else mkChar c false :: input_of cs
  end.

Lemma input_of_length cs : length (input_of cs) <= length cs.
Proof.
  induction cs as [cs IH] using (induction_ltof1 _ (@length Z)); unfold ltof in IH.
  destruct cs as [|c cs]; [done|]. cbn [input_of]. destruct (Z.eqb c ch_backslash).
  - destruct cs as [|d cs]; [cbn; lia|]. cbn [length]. specialize (IH cs ltac:(cbn; lia)). lia.
  - cbn [length]. specialize (IH cs ltac:(cbn; lia)). lia.
Qed.

Lemma ascii_yields b : forall cs i, drop i b = cs -> yields (ShellAscii (mkAscii b i)) (input_of cs).
Proof.
  intros cs. induction cs as [cs IH] using (induction_ltof1 _ (@length Z)); unfold ltof in IH. intros i E.
  destruct cs as [|c cs].
  - apply yields_end. unfold ShellCharIter_eat, read_char. cbn [ShellSrc_index]. unfold SrcAscii_index. cbn.
    rewrite lookup_ge_None_2; [done|]. apply (f_equal length) in E. rewrite length_drop in E. cbn in E. lia.
  - apply drop_uncons in E as [E0 E]. cbn [input_of].
    assert (Er : read_char (ShellAscii (mkAscii b i)) = if negb (Z.eqb c ch_backslash) then Some (mkChar c false) else
      match b !! (i + 1) with None => None | Some d => Some (mkChar d true) end).
    { unfold read_char. cbn [ShellSrc_index ShellSrc_index_next]. unfold SrcAscii_index, SrcAscii_index_next. cbn. by rewrite E0. }
    destruct (Z.eqb c ch_backslash); cbn [negb] in Er.
    + destruct cs as [|d cs].
      * apply yields_end. unfold ShellCharIter_eat. rewrite Er, lookup_ge_None_2; [done|].
        apply (f_equal length) in E. rewrite length_drop in E. cbn in E. lia.
      * apply drop_uncons in E as [E1 E]. rewrite E1 in Er. eapply yields_char; [unfold ShellCharIter_eat; rewrite Er; reflexivity|].
        apply IH; [cbn; lia|]. cbn. rewrite <- E. f_equal. lia.
    + eapply yields_char; [unfold ShellCharIter_eat; rewrite Er; reflexivity|]. apply IH; [cbn; lia|]. cbn. rewrite <- E. f_equal.
Qed.

(** The bytes of code points. *)
Definition wtf8 (cps : list Z) : bytes := flat_map rune_bytes cps.

Lemma length_wtf8 cps : Forall is_code_point cps -> length cps <= length (wtf8 cps).
Proof.
  induction 1 as [|c cps Hc _ IH]; [done|]. change (wtf8 (c :: cps)) with (rune_bytes c ++ wtf8 cps). rewrite length_app.
  destruct (rune_bytes_lead c Hc) as (x & l & -> & _). cbn [length]. lia.
Qed.

(** The cursor at the first of [cps], which begin at [i]. *)
Definition cursor_of (b : bytes) (i : nat) (cps : list Z) : Cursor :=
  match cps with
  | c :: _ => mkCursor (Z.of_nat i) (Z.of_nat (length (rune_bytes c))) c
  | [] => mkCursor (Z.of_nat (length b) + 1) 1 ZERO_VALUE
  end.

Lemma next_cursor_ok b i cps cu : drop i b = wtf8 cps -> i <= length b -> Forall is_code_point cps ->
  (Z.of_nat (length b) + 1 < two32)%Z -> (cu.(cu_i) + cu.(cu_width) = Z.of_nat i)%Z ->
  next_cursor b cu = Done (cursor_of b i cps).
Proof.
  intros E Hi Hcps Hb Hpos. unfold next_cursor, CodepointIterator_next. rewrite Hpos.
  destruct Hcps as [|c cps Hc _].
  - assert (length b <= i) by (apply (f_equal length) in E; rewrite length_drop in E; cbn in E; lia).
    rewrite (proj2 (Z.leb_le _ _)) by lia. by rewrite (proj2 (Z.ltb_lt _ _)) by lia.
  - destruct (rune_bytes_lead c Hc) as (x & l & Er & Hx & Hl & Hcase). cbn [wtf8 flat_map] in E.
    pose proof (f_equal length E) as Hlen. rewrite length_drop, length_app, Er in Hlen. cbn [length] in Hlen.
    rewrite (proj2 (Z.leb_gt _ _)) by lia. rewrite Nat2Z.id, E.
    assert (Ex : nth 0 (rune_bytes c ++ flat_map rune_bytes cps) 0%Z = x) by (by rewrite Er). rewrite Ex.
    unfold as_u32. rewrite Z.mod_small by lia. cbn [cursor_of].
    destruct Hcase as [(Hlo & -> & ->)|(Hhi & Hxhi & _)].
    + rewrite (proj2 (Z.ltb_lt _ _)) by lia. by rewrite Er.
    + rewrite (proj2 (Z.ltb_ge _ _)) by lia. rewrite Hl, Nat2Z.id.
      rewrite Nat.min_l by (rewrite length_app; lia). rewrite take_app_length.
      pose proof (decode_rune_digits c [] (-1)%Z Hc (Forall_nil_2 _)) as Ed. rewrite app_nil_r, <- rune_bytes_digits in Ed by done.
      rewrite Ed. destruct (Z.eqb_spec c (-1)); [unfold is_code_point in Hc; lia|]. done.
Qed.

(** At the end the cursor stays. *)
Lemma next_cursor_end b : (Z.of_nat (length b) + 1 < two32)%Z -> forall i,
  next_cursor b (cursor_of b i []) = Done (cursor_of b i []).
Proof.
  intros Hb i. unfold next_cursor, CodepointIterator_next, cursor_of. cbn [cu_i cu_width].
  rewrite (proj2 (Z.leb_le _ _)) by lia. by rewrite (proj2 (Z.ltb_lt _ _)) by lia.
Qed.

Section Unicode.
Context (b : bytes) (Hb : (Z.of_nat (length b) + 1 < two32)%Z).

(** The cursors at the first and at the second of [cps]. *)
Definition unicode_at (i : nat) (cps : list Z) : ShellSrc :=
  ShellUnicode (mkUnicode b (cursor_of b i cps)
    (match cps with c :: cps => cursor_of b (i + length (rune_bytes c)) cps | [] => cursor_of b i [] end)).

Lemma next_cursor_rest i c cps : drop i b = wtf8 (c :: cps) -> i <= length b -> Forall is_code_point (c :: cps) ->
  next_cursor b (cursor_of b i (c :: cps)) = Done (cursor_of b (i + length (rune_bytes c)) cps) /\
  drop (i + length (rune_bytes c)) b = wtf8 cps /\ i + length (rune_bytes c) <= length b.
Proof.
  intros E Hi Hc. pose proof (drop_next b (rune_bytes c) (wtf8 cps) i E) as E2.
  pose proof (f_equal length E) as Hlen. rewrite length_drop in Hlen. cbn [wtf8 flat_map] in Hlen. rewrite length_app in Hlen.
  split_and!; [|done|lia]. apply next_cursor_ok; [done|lia|by inversion Hc|done|cbn; lia].
Qed.

Lemma cursor_char_of i c cps : drop i b = wtf8 (c :: cps) -> i <= length b -> is_code_point c ->
  cursor_char b (cursor_of b i (c :: cps)) = Some c.
Proof.
  intros E Hi Hc. pose proof (f_equal length E) as Hlen. rewrite length_drop in Hlen. cbn [wtf8 flat_map] in Hlen. rewrite length_app in Hlen.
  unfold cursor_char. cbn [cursor_of cu_width cu_i cu_c]. rewrite (proj2 (Z.ltb_ge _ _)) by lia.
  unfold as_u32. rewrite Z.mod_small; [done|]. unfold is_code_point, two32 in *. lia.
Qed.

Lemma cursor_char_end i : cursor_char b (cursor_of b i []) = None.
Proof. unfold cursor_char. cbn [cursor_of cu_width cu_i]. by rewrite (proj2 (Z.ltb_lt _ _)) by lia. Qed.

Lemma unicode_yields : forall cps i, drop i b = wtf8 cps -> i <= length b -> Forall is_code_point cps ->
  yields (unicode_at i cps) (input_of cps).
Proof.
  intros cps. induction cps as [cps IH] using (induction_ltof1 _ (@length Z)); unfold ltof in IH. intros i E Hi Hcps.
  unfold unicode_at in *. destruct cps as [|c cps].
  - apply yields_end. unfold ShellCharIter_eat, read_char. cbn [ShellSrc_index]. unfold SrcUnicode_index. cbn [su_bytes su_cursor].
    by rewrite cursor_char_end.
  - destruct (next_cursor_rest i c cps E Hi Hcps) as (_ & E2 & Hi2). pose proof (Forall_inv Hcps) as Hc. pose proof (Forall_inv_tail Hcps) as Hcps2.
    set (s := ShellUnicode _).
    assert (Er : read_char s = if negb (Z.eqb c ch_backslash) then Some (mkChar c false) else
      match cursor_char b (cursor_of b (i + length (rune_bytes c)) cps) with None => None | Some d => Some (mkChar d true) end).
    { unfold read_char, s. cbn [ShellSrc_index ShellSrc_index_next]. unfold SrcUnicode_index, SrcUnicode_index_next. cbn [su_bytes su_cursor su_next_cursor].
      by rewrite cursor_char_of. }
    cbn [input_of]. destruct (Z.eqb c ch_backslash); cbn [negb] in Er.
    + destruct cps as [|d cps]; [apply yields_end; unfold ShellCharIter_eat; by rewrite Er, cursor_char_end|].
      rewrite cursor_char_of in Er by (done || by inversion Hcps2).
      destruct (next_cursor_rest _ d cps E2 Hi2 Hcps2) as (En & E3 & Hi3). pose proof (Forall_inv_tail Hcps2) as Hcps3.
      eapply yields_char; [|apply (IH cps ltac:(cbn; lia) _ E3 Hi3 Hcps3)].
      unfold ShellCharIter_eat. rewrite Er. unfold s, SrcUnicode_eat. cbn [ic_escaped su_bytes su_next_cursor]. rewrite En. cbn [obind].
      destruct cps as [|f cps]; [by rewrite next_cursor_end|]. by rewrite (proj1 (next_cursor_rest _ f cps E3 Hi3 Hcps3)).
    + eapply yields_char; [|apply (IH cps ltac:(cbn; lia) _ E2 Hi2 Hcps2)].
      unfold ShellCharIter_eat. rewrite Er. unfold s, SrcUnicode_eat. cbn [ic_escaped su_bytes su_next_cursor].
      destruct cps as [|d cps]; [by rewrite next_cursor_end|]. by rewrite (proj1 (next_cursor_rest _ d cps E2 Hi2 Hcps2)).
Qed.

Lemma unicode_init cps : b = wtf8 cps -> Forall is_code_point cps -> ShellCharIter_init EncWtf8 b = Done (unicode_at 0 cps).
Proof.
  intros E Hcps. unfold ShellCharIter_init, SrcUnicode_init.
  rewrite (next_cursor_ok b 0 cps) by (done || lia). cbn [obind]. unfold unicode_at.
  destruct cps as [|c cps]; [by rewrite next_cursor_end|]. by rewrite (proj1 (next_cursor_rest 0 c cps E ltac:(lia) Hcps)).
Qed.
End Unicode.

(** The text of the characters [cs] in an encoding. *)
Definition encoded (e : StringEncoding) (cs : list Z) : bytes :=
  match e with
  | EncAscii => cs
  | EncWtf8 => wtf8 cs
  end.

Definition is_char (e : StringEncoding) (c : Z) : Prop :=
  match e with
  | EncAscii => is_byte c
  | EncWtf8 => is_code_point c
  end.

(** The tokens of every text are those of the pattern that [read] makes of it. *)
Lemma tokenize_read e cs : Forall (is_char e) cs -> (Z.of_nat (length (encoded e cs)) + 1 < two32)%Z ->
  tokenize e (encoded e cs) = Done (mkLexed (toks (read e (input_of cs)) ++ [TEof]) (deep (read e (input_of cs)))).
Proof.
  intros Hcs Hb. pose proof (input_of_length cs). destruct e; cbn [encoded is_char] in *.
  - eapply tokenize_ok; [reflexivity|by apply ascii_yields|lia|lia].
  - pose proof (length_wtf8 cs Hcs). eapply tokenize_ok; [by apply unicode_init|by apply unicode_yields; [|done|lia|]|lia|lia].
Qed.

(** ** The text of the tokens *)

(** The text of tokens, and of the pattern of a text: nothing is lost or added but
    the escapes. *)
Definition text_of (l : list Token) : bytes := flat_map Token_to_text l.

Lemma text_of_app l r : text_of (l ++ r) = text_of l ++ text_of r.
Proof. apply flat_map_app. Qed.

Lemma text_of_squash l : text_of (squash l) = text_of l.
Proof.
  induction l as [|t l IH]; [done|]. change (text_of (join_tok t (squash l)) = Token_to_text t ++ text_of l). rewrite <- IH.
  destruct t, (squash l) as [|[] m]; try done. cbn. by rewrite <- app_assoc.
Qed.

Lemma text_of_merge v : text_of (toks (merge v)) = text_of (toks v).
Proof. pose proof (squash_toks v [] I) as E. rewrite !app_nil_r in E. by rewrite <- E, text_of_squash. Qed.

Lemma text_of_append e l c : text_of (append_char e l c) = text_of l ++ char_bytes e c.
Proof.
  unfold append_char. destruct l as [|t l _] using rev_ind; [cbn; by rewrite app_nil_r|]. rewrite last_snoc, length_app. cbn [length].
  destruct t; try (rewrite (text_of_app (l ++ _)); cbn; by rewrite app_nil_r).
  replace (length l + 1 - 1) with (length l) by lia. rewrite insert_app_r_alt, Nat.sub_diag by lia. cbn [list_insert insert].
  rewrite !text_of_app. cbn. by rewrite !app_nil_r, <- app_assoc.
Qed.

Lemma text_of_group l : text_of (toks (group_nodes l)) = text_of (TOpen ExpansionVariants_default :: body l) ++ [ch_close].
Proof.
  destruct l as [[|v vs] cur]; cbn [group_nodes].
  - change (NText [ch_open] :: cur ++ [NText [ch_close]]) with ([NText [ch_open]] ++ cur ++ [NText [ch_close]]). by rewrite !toks_app, !text_of_app.
  - rewrite body_group. change (toks [NGroup v (vs ++ [cur])]) with (toks_node (NGroup v (vs ++ [cur])) ++ []). rewrite app_nil_r, toks_group.
    change (TOpen ?d :: ?l) with ([TOpen d] ++ l). rewrite !text_of_app. by rewrite <- !app_assoc.
Qed.

Lemma text_of_read_step e c r : text_of (render (read_step e c r)) = text_of (render r) ++ char_bytes e c.(ic_char).
Proof.
  destruct r as [top st]. unfold read_step. assert (Hplain : text_of (render (put_text (char_bytes e c.(ic_char)) (top, st))) = text_of (render (top, st)) ++ char_bytes e c.(ic_char))
    by (by rewrite <- render_put_text, text_of_append).
  destruct (ic_escaped c); [exact Hplain|].
  destruct (Z.eqb_spec (ic_char c) ch_open) as [->|_].
  { rewrite render_cons, text_of_app. by destruct e. }
  destruct (Z.eqb_spec (ic_char c) ch_close) as [Ec|_].
  { destruct st as [|l st]; [exact Hplain|]. rewrite render_put_nodes, render_cons, !text_of_app, text_of_group, Ec, app_assoc. by destruct e. }
  destruct (Z.eqb_spec (ic_char c) ch_comma) as [Ec|_]; [|exact Hplain]. destruct st as [|[vs cur] st]; [exact Hplain|].
  rewrite !render_cons, Ec. assert (E : body (vs ++ [cur], []) = body (vs, cur) ++ [TComma]).
  { unfold body. cbn [fst snd]. rewrite flat_map_app. cbn. by rewrite !app_nil_r, app_assoc. }
  rewrite E, app_comm_cons, app_assoc, text_of_app. by destruct e.
Qed.

Lemma text_of_close_all top st : forall ns, text_of (toks (close_all top st ns)) = text_of (render (top, st)) ++ text_of (toks ns).
Proof.
  induction st as [|[vs cur] st IH]; intros ns.
  - unfold render. cbn [close_all fst snd render_stack]. by rewrite app_nil_r, toks_app, text_of_app.
  - cbn [close_all]. rewrite IH, render_cons, text_of_app, <- app_assoc. f_equal.
    rewrite <- (text_of_app (_ :: _)), <- app_comm_cons, <- body_app. unfold unclosed_nodes, body. cbn [fst snd].
    change (ch_open :: text_of (toks (flat_map (fun v => v ++ [NText [ch_comma]]) vs ++ cur ++ ns)) =
      ch_open :: text_of (flat_map (fun v => toks v ++ [TComma]) vs ++ toks (cur ++ ns))). f_equal.
    rewrite (toks_app (flat_map _ _)), !(text_of_app _ (toks (cur ++ ns))). f_equal.
    induction vs as [|v vs IHv]; [done|]. cbn [flat_map]. rewrite !toks_app, !text_of_app, IHv. done.
Qed.

Lemma text_of_read e cs : text_of (toks (read e cs)) = flat_map (fun c => char_bytes e c.(ic_char)) cs.
Proof.
  unfold read. assert (E : forall r, text_of (render (foldl (fun (r : reading) c => read_step e c r) r cs)) = text_of (render r) ++ flat_map (fun c => char_bytes e c.(ic_char)) cs).
  { induction cs as [|c cs IH]; intros r; [cbn; by rewrite app_nil_r|]. cbn [foldl flat_map]. by rewrite IH, text_of_read_step, app_assoc. }
  specialize (E ([], [])). destruct (foldl (fun (r : reading) (c : InputChar) => read_step e c r) ([], []) cs) as [top st].
  rewrite text_of_merge, text_of_close_all, E. cbn. by rewrite app_nil_r.
Qed.
