(* ===== verification/BracesTheorems.v ===== *)
(** * Brace expansion: the words

    The count of the words, the parser, and the two ways of expansion on the
    tokens of a pattern, each against the words of the pattern; at the end the
    expansion of a text. *)
From Stdlib Require Import ZArith Lia.
From stdpp Require Import base list numbers option gmap.
From S2P Require Import Prelude Wtf8 Braces BracesSpec BracesLexer.
#[local] Open Scope nat_scope.

(** ** The number of words *)

(** The number of words, and its saturation. *)
Definition amount (v : list node) : Z := Z.of_nat (length (expansions v)).
Definition sat (z : Z) : Z := Z.min u32_MAX z.

Lemma amount_pos v : (1 <= amount v)%Z.
Proof. unfold amount. pose proof (expansions_pos v). lia. Qed.

Lemma sat_add a b : (0 <= a)%Z -> (0 <= b)%Z -> saturating_add32 (sat a) (sat b) = sat (a + b).
Proof. unfold saturating_add32, sat, u32_MAX, two32. lia. Qed.

Lemma sat_mul a b : (1 <= a)%Z -> (1 <= b)%Z -> saturating_mul32 (sat a) (sat b) = sat (a * b).
Proof.
  unfold saturating_mul32, sat. intros Ha Hb. assert (1 <= u32_MAX)%Z by (by vm_compute). generalize dependent u32_MAX. intros M HM.
  destruct (Z.min_spec M a) as [[? ->]|[? ->]], (Z.min_spec M b) as [[? ->]|[? ->]], (Z.min_spec M (a * b)) as [[? ->]|[? ->]]; nia.
Qed.

Lemma amount_cons n v : amount (n :: v) = (Z.of_nat (length (words_node n)) * amount v)%Z.
Proof. unfold amount. change (expansions (n :: v)) with (cross (words_node n) (expansions v)). rewrite length_cross. lia. Qed.

Definition amounts (vs : list (list node)) : Z := Z.of_nat (length (flat_map expansions vs)).

Lemma amounts_cons v vs : amounts (v :: vs) = (amount v + amounts vs)%Z.
Proof. unfold amounts, amount. cbn [flat_map]. rewrite length_app. lia. Qed.

Lemma words_group_length v vs : Z.of_nat (length (words_node (NGroup v vs))) = amounts (v :: vs).
Proof. rewrite words_group. unfold amounts. done. Qed.

(** What a closed group of [t] words does. *)
Definition close_with (t : Z) (rest : list Token) (st : list StackEntry) (vc : Z) : outcome Z :=
  match st with
  | parent :: st => amount_loop rest (mkEntry (saturating_mul32 parent.(se_segment_product) t) parent.(se_accumulator) :: st) vc
  | [] => amount_loop rest [] (if Z.eqb vc 0 then t else saturating_mul32 vc t)
  end.

(** The tokens of a pattern in a group, and of a whole group. *)
Definition counts_inside (v : list node) : Prop := forall rest p acc st vc, (1 <= p)%Z ->
  amount_loop (toks v ++ rest) (mkEntry (sat p) acc :: st) vc = amount_loop rest (mkEntry (sat (p * amount v)) acc :: st) vc.

Lemma amount_more vs : Forall counts_inside vs -> forall rest p a st vc, (1 <= p)%Z -> (0 <= a)%Z ->
  amount_loop (more_toks vs ++ TClose :: rest) (mkEntry (sat p) (sat a) :: st) vc = close_with (sat (a + p + amounts vs)) rest st vc.
Proof.
  induction 1 as [|u vs Hu _ IH]; intros rest p a st vc Hp Ha.
  - cbn [more_toks flat_map app amount_loop amount_round se_accumulator se_segment_product]. rewrite sat_add by lia.
    unfold amounts. cbn. rewrite Z.add_0_r. by destruct st.
  - change (more_toks (u :: vs)) with (TComma :: toks u ++ more_toks vs). cbn [app amount_loop amount_round obind se_accumulator se_segment_product].
    rewrite <- app_assoc, sat_add by lia. change 1%Z with (sat 1) at 1. rewrite Hu, IH by (pose proof (amount_pos u); lia).
    rewrite amounts_cons. do 2 f_equal. lia.
Qed.

Lemma amount_group v vs : counts_inside v -> Forall counts_inside vs -> forall rest st vc,
  amount_loop (toks_node (NGroup v vs) ++ rest) st vc = close_with (sat (amounts (v :: vs))) rest st vc.
Proof.
  intros Hv Hvs rest st vc. rewrite toks_group. cbn [app amount_loop amount_round obind]. rewrite <- !app_assoc. cbn [app].
  change StackEntry_default with (mkEntry (sat 1) (sat 0)). pose proof (amount_pos v). rewrite Hv, amount_more by (done || lia).
  rewrite amounts_cons. do 2 f_equal. lia.
Qed.

Lemma amount_inside v : counts_inside v.
Proof.
  set (P := fun n => match n with NText _ => True | NGroup v vs => forall rest st vc,
    amount_loop (toks_node (NGroup v vs) ++ rest) st vc = close_with (sat (amounts (v :: vs))) rest st vc end).
  assert (Hlist : forall w, Forall P w -> counts_inside w).
  { induction 1 as [|n w Hn _ IH]; intros rest p acc st vc Hp.
    - cbn [toks flat_map app]. unfold amount. cbn. by rewrite Z.mul_1_r.
    - change (toks (n :: w)) with (toks_node n ++ toks w). rewrite <- app_assoc, amount_cons. destruct n as [s|v' vs].
      + cbn [toks_node app amount_loop amount_round obind words_node length]. rewrite IH by done. by rewrite Z.mul_1_l.
      + rewrite Hn. cbn [close_with se_segment_product se_accumulator].
        assert (1 <= amounts (v' :: vs))%Z by (rewrite amounts_cons; pose proof (amount_pos v'); unfold amounts; lia).
        rewrite sat_mul, IH by nia. rewrite words_group_length. by rewrite Z.mul_assoc. }
  apply Hlist, Forall_true. intros n. induction n as [s|v' vs Hv Hvs] using node_nested_ind; [done|].
  intros rest st vc. apply amount_group; [by apply Hlist|]. eapply Forall_impl; [exact Hvs|exact Hlist].
Qed.

Lemma amount_outside v : forall rest q (g : bool), (1 <= q)%Z -> (g = false -> q = 1%Z) ->
  amount_loop (toks v ++ rest) [] (if g then sat q else 0) = amount_loop rest [] (if g || has_group v then sat (q * amount v) else 0).
Proof.
  induction v as [|n v IH]; intros rest q g Hq Hg.
  - cbn [toks flat_map app has_group existsb]. rewrite orb_false_r. unfold amount. cbn. by rewrite Z.mul_1_r.
  - change (toks (n :: v)) with (toks_node n ++ toks v). rewrite <- app_assoc, amount_cons. destruct n as [s|v' vs].
    + cbn [toks_node app amount_loop amount_round obind words_node length]. rewrite IH by done.
      change (has_group (NText s :: v)) with (has_group v). by rewrite Z.mul_1_l.
    + assert (1 <= amounts (v' :: vs))%Z by (rewrite amounts_cons; pose proof (amount_pos v'); unfold amounts; lia).
      rewrite amount_group by (apply amount_inside || (apply Forall_true; intros; apply amount_inside)). cbn [close_with].
      change (has_group (NGroup v' vs :: v)) with true. rewrite orb_true_r, words_group_length, Z.mul_assoc.
      etransitivity; [|apply (IH rest (q * amounts (v' :: vs))%Z true); [nia|done]]. f_equal. destruct g.
      * rewrite sat_mul by lia. destruct (Z.eqb_spec (sat q) 0) as [E|E]; [|done]. unfold sat, u32_MAX, two32 in E. lia.
      * rewrite (Hg eq_refl), Z.mul_1_l. done.
Qed.

(** The count of the words of a pattern: 0 without groups, and saturated. *)
Lemma calculate_expanded_amount_ok v :
  calculate_expanded_amount (toks v ++ [TEof]) = Done (if has_group v then sat (amount v) else 0%Z).
Proof.
  unfold calculate_expanded_amount. rewrite (amount_outside v [TEof] 1 false) by (lia || done). cbn. by rewrite Z.mul_1_l.
Qed.

(** ** The parser *)

Fixpoint ast_node (n : node) : Atom :=
  match n with
  | NText s => AText s
  | NGroup v vs => AExpansion (group_of (map ast_node v) :: map (fun v => group_of (map ast_node v)) vs)
  end.

Definition ast (v : list node) : list Atom := map ast_node v.

Lemma ast_group v vs : ast_node (NGroup v vs) = AExpansion (map (fun v => group_of (ast v)) (v :: vs)).
Proof. done. Qed.

Lemma advance_head l i t r : drop i l = t :: r -> is_eof t = false -> advance l i = Done (t, i + 1).
Proof.
  intros [E _]%drop_uncons Ht. unfold advance, peek. rewrite E. cbn [obind]. destruct t; try done;
    replace (i + 1) with (S i) by lia; by rewrite E.
Qed.

Lemma match_token_yes p l i t r : drop i l = t :: r -> is_eof t = false -> p t = true -> match_token p l i = Done (true, i + 1).
Proof.
  intros E Ht Hp. unfold match_token, peek. rewrite (proj1 (drop_uncons _ _ _ _ E)). cbn [obind]. rewrite Hp.
  by rewrite (advance_head _ _ _ _ E Ht).
Qed.

Lemma match_token_no p l i t r : drop i l = t :: r -> p t = false -> match_token p l i = Done (false, i).
Proof. intros [E _]%drop_uncons Hp. unfold match_token, peek. rewrite E. cbn [obind]. by rewrite Hp. Qed.

(** The first token of a node opens or is text. *)
Lemma toks_node_head n : exists t r, toks_node n = t :: r /\ is_end t = false /\ is_comma t = false /\ is_eof t = false.
Proof. destruct n as [s|v vs]; [by eexists _, _|]. rewrite toks_group. by eexists _, _. Qed.

Definition parses (n : node) : Prop := forall fuel l i r, drop i l = toks_node n ++ r -> 2 * length (toks_node n) <= fuel ->
  parse_atom fuel l i = Done (inr (Some (ast_node n), i + length (toks_node n))).

Lemma parse_variant_ok v : Forall parses v -> forall fuel l i t r acc, drop i l = toks v ++ t :: r ->
  is_eof t = false -> is_end t || is_comma t = true -> 2 + 2 * length (toks v) <= fuel ->
  parse_variant fuel l i acc = Done (inr (acc ++ ast v, is_end t, i + length (toks v) + 1)).
Proof.
  induction 1 as [|n v Hn _ IH]; intros [|fuel] l i t r acc E Ht Hend Hf; try lia.
  - cbn [toks flat_map app parse_variant ast map length] in *. rewrite app_nil_r, Nat.add_0_r. destruct (is_end t) eqn:Ee.
    + by rewrite (match_token_yes _ _ _ _ _ E).
    + rewrite (match_token_no _ _ _ _ _ E Ee). cbn [obind]. by rewrite (match_token_yes _ _ _ _ _ E).
  - change (toks (n :: v)) with (toks_node n ++ toks v) in *. rewrite <- app_assoc in E. rewrite length_app in Hf.
    destruct (toks_node_head n) as (t0 & r0 & E0 & H1 & H2 & H3).
    pose proof E as E'. rewrite E0 in E'. cbn [app] in E'. cbn [parse_variant].
    rewrite (match_token_no _ _ _ _ _ E' H1). cbn [obind]. rewrite (match_token_no _ _ _ _ _ E' H2). cbn [obind].
    rewrite (Hn fuel _ _ _ E) by lia. cbn [obind]. apply drop_next in E.
    assert (0 < length (toks_node n)) by (rewrite E0; cbn; lia).
    rewrite (IH fuel _ _ t r) by (done || lia). rewrite length_app. cbn [ast map]. rewrite <- app_assoc. cbn [app]. do 3 f_equal. lia.
Qed.

Lemma parse_expansion_ok vs : forall v fuel l i r acc, Forall parses v -> Forall (Forall parses) vs ->
  drop i l = toks v ++ more_toks vs ++ TClose :: r -> 3 + 2 * length (toks v ++ more_toks vs) <= fuel ->
  parse_expansion fuel l i acc =
    Done (inr (acc ++ map (fun v => group_of (ast v)) (v :: vs), i + length (toks v ++ more_toks vs) + 1)).
Proof.
  induction vs as [|u vs IH]; intros v [|fuel] l i r acc Hv Hvs E Hf; try lia; cbn [parse_expansion]; rewrite length_app in Hf.
  - cbn [more_toks flat_map app] in *. rewrite (parse_variant_ok v Hv fuel _ _ TClose r) by (done || lia). cbn [obind app is_end].
    by rewrite app_nil_r.
  - change (more_toks (u :: vs)) with (TComma :: toks u ++ more_toks vs) in *. rewrite <- !app_comm_cons in E. rewrite <- app_assoc in E. cbn [length] in Hf.
    rewrite (parse_variant_ok v Hv fuel _ _ TComma (toks u ++ more_toks vs ++ TClose :: r)) by (done || lia).
    cbn [obind app is_end]. apply drop_next, drop_uncons in E as [_ E].
    rewrite (IH u fuel l _ r) by (done || lia || (by inversion Hvs)). rewrite <- app_assoc, !length_app. cbn [map app length]. rewrite !length_app. do 3 f_equal. lia.
Qed.

Lemma length_toks_group v vs : length (toks_node (NGroup v vs)) = 2 + length (toks v ++ more_toks vs).
Proof. rewrite toks_group. cbn [length]. rewrite !length_app. cbn. lia. Qed.

Lemma parse_atom_ok n : parses n.
Proof.
  induction n as [s|v vs Hv Hvs] using node_nested_ind; intros [|fuel] l i r E Hf.
  - cbn in Hf. lia.
  - cbn [parse_atom]. by rewrite (advance_head _ _ _ _ E).
  - rewrite length_toks_group in Hf. lia.
  - rewrite length_toks_group in *. rewrite toks_group in E. cbn [app] in E. rewrite <- !app_assoc in E. cbn [parse_atom].
    rewrite (advance_head _ _ _ _ E) by done. cbn [obind]. apply drop_uncons in E as [_ E].
    rewrite (parse_expansion_ok vs v fuel l (i + 1) r []) by (done || lia). cbn [obind app]. rewrite ast_group. do 3 f_equal. lia.
Qed.

Lemma parse_loop_ok v : forall fuel l i acc, drop i l = toks v ++ [TEof] -> 2 + 2 * length (toks v) <= fuel ->
  parse_loop fuel l i acc = Done (inr (acc ++ ast v)).
Proof.
  induction v as [|n v IH]; intros [|fuel] l i acc E Hf; try lia; cbn [parse_loop].
  - cbn [toks flat_map app] in E. rewrite app_nil_r. unfold match_token, advance, peek. rewrite (proj1 (drop_uncons _ _ _ _ E)). cbn [obind is_eof].
    destruct i as [|i]; cbn [obind]; [by rewrite (proj1 (drop_uncons _ _ _ _ E))|].
    apply drop_uncons in E as [E _]. apply lookup_lt_Some in E. destruct (lookup_lt_is_Some_2 l i ltac:(lia)) as [t ->]. done.
  - change (toks (n :: v)) with (toks_node n ++ toks v) in *. rewrite <- app_assoc in E. rewrite length_app in Hf.
    destruct (toks_node_head n) as (t0 & r0 & E0 & _ & _ & H3). pose proof E as E'. rewrite E0 in E'. cbn [app] in E'.
    rewrite (match_token_no _ _ _ _ _ E' H3). cbn [obind]. rewrite (parse_atom_ok n fuel _ _ _ E) by lia. cbn [obind].
    apply drop_next in E. assert (0 < length (toks_node n)) by (rewrite E0; cbn; lia).
    rewrite (IH fuel) by (done || lia). cbn [ast map]. by rewrite <- app_assoc.
Qed.

(** ** Words under construction *)

Lemma extend_word_ok pre w post s : extend_word (pre ++ w :: post) (length pre) s = Done (pre ++ (w ++ s) :: post).
Proof. unfold extend_word. rewrite lookup_app_r, Nat.sub_diag by lia. cbn. rewrite insert_app_r_alt, Nat.sub_diag by lia. done. Qed.

Lemma fork_word_ok pre w x mid post :
  fork_word (pre ++ (w ++ x) :: mid ++ [] :: post) (length pre) (length pre + 1 + length mid) (length w) =
  Done (pre ++ (w ++ x) :: mid ++ w :: post).
Proof.
  assert (E : forall y : bytes, pre ++ (w ++ x) :: mid ++ y :: post = (pre ++ (w ++ x) :: mid) ++ y :: post) by (intros; by rewrite <- app_assoc).
  assert (Hl : length pre + 1 + length mid = length (pre ++ (w ++ x) :: mid)) by (rewrite length_app; cbn [length]; lia).
  unfold fork_word. rewrite (lookup_app_r pre _ (length pre)), Nat.sub_diag by lia. rewrite !E, Hl, lookup_app_r, Nat.sub_diag by lia.
  cbn [lookup list_lookup]. rewrite (proj2 (Nat.ltb_lt _ _)) by lia. rewrite (proj2 (Nat.leb_le _ _)) by (rewrite length_app; lia).
  cbn [andb app]. rewrite insert_app_r_alt, Nat.sub_diag by lia. by rewrite take_app_length.
Qed.

(** The layout of the words: [w] at the key, [mid] up to the counter, [n] words to
    come, and the rest. *)
Definition layout (pre : list bytes) (w : bytes) (mid : list bytes) (n : nat) (post : list bytes) : list bytes :=
  pre ++ w :: mid ++ replicate n [] ++ post.

(** The words are [w] before [ws], the first at the key and the others behind the
    counter; the result is the new words and the new counter. *)
Definition written (pre : list bytes) (w : bytes) (mid post ws : list bytes) (out : list bytes) (counter : nat) : Prop :=
  exists x xs, ws = x :: xs /\ out = pre ++ (w ++ x) :: mid ++ map (app w) xs ++ post /\
    counter = length pre + 1 + length mid + length xs.

(** A text, and what follows it. *)
Lemma written_text pre w s mid post ws out counter :
  written pre (w ++ s) mid post ws out counter -> written pre w mid post (map (app s) ws) out counter.
Proof.
  intros (x & xs & -> & -> & ->). exists (s ++ x), (map (app s) xs). rewrite length_map, map_map, <- (app_assoc w s x). split_and!; [done| |done].
  assert (map (app (w ++ s)) xs = map (fun y => w ++ s ++ y) xs) as -> by (apply map_ext; intros y; by rewrite app_assoc). done.
Qed.

(** ** Nested patterns *)

Fixpoint size_node (n : node) : nat :=
  match n with
  | NText _ => 0
  | NGroup v vs => 2 + list_sum (map size_node v) + list_sum (map (fun v => list_sum (map size_node v)) vs)
  end.
Definition size (v : list node) : nat := list_sum (map size_node v).

Lemma size_group v vs : size_node (NGroup v vs) = 2 + size v + list_sum (map size vs).
Proof. done. Qed.

(** What is still to be read behind a group: a step up and a rest each. *)
Definition stack_size (st : list (list node)) : nat := list_sum (map (fun v => 1 + size v) st).

Lemma stack_size_cons v st : stack_size (v :: st) = 1 + size v + stack_size st.
Proof. done. Qed.

(** A variant is smaller than its group. *)
Lemma size_variant v vs u j : (v :: vs) !! j = Some u -> size u + 2 <= size_node (NGroup v vs).
Proof.
  intros E. rewrite size_group.
  destruct j as [|j]; [injection E as ->; lia|]. cbn in E. enough (size u <= list_sum (map size vs)) by lia.
  revert j E. induction vs as [|v' vs IH]; intros [|j] E; [done|done| |].
  - injection E as ->. change (list_sum (map size (u :: vs))) with (size u + list_sum (map size vs)). lia.
  - specialize (IH j E). change (list_sum (map size (v' :: vs))) with (size v' + list_sum (map size vs)). lia.
Qed.

(** The links that are set are those of the tree. *)
Definition links_ok (links : Links) : Prop :=
  forall q x, links !! q = Some x -> exists p i j, q = p ++ [(i, j)] /\ x = (p, S i).

(** The links on the way to a position are set. *)
Definition entered (links : Links) (p : list (nat * nat)) : Prop :=
  forall q, q `prefix_of` p -> q <> [] -> is_Some (links !! q).

Definition grows (links links' : Links) : Prop := forall q, is_Some (links !! q) -> is_Some (links' !! q).

Lemma entered_grows links links' p : entered links p -> grows links links' -> entered links' p.
Proof. intros He Hg q Hq Hn. by apply Hg, He. Qed.

Lemma entered_child links p i j : entered links p -> entered (<[p ++ [(i, j)] := (p, S i)]> links) (p ++ [(i, j)]).
Proof.
  intros He q [r Hr] Hn. destruct (decide (q = p ++ [(i, j)])) as [->|Hne]; [rewrite lookup_insert_eq; by eexists|].
  rewrite lookup_insert_ne by done. apply He; [|done]. destruct r as [|x r _] using rev_ind; [by rewrite app_nil_r in Hr|].
  rewrite app_assoc in Hr. apply app_inj_tail in Hr as [-> _]. by exists r.
Qed.

Lemma links_ok_insert links p i j : links_ok links -> links_ok (<[p ++ [(i, j)] := (p, S i)]> links).
Proof.
  intros Hl q x [[<- <-]|[_ H]]%lookup_insert_Some; [by eexists _, _, _|by apply Hl].
Qed.

Lemma grows_insert links q x : grows links (<[q := x]> links).
Proof. intros r Hr. destruct (decide (r = q)) as [->|Hne]; [rewrite lookup_insert_eq; by eexists|by rewrite lookup_insert_ne]. Qed.

(** A position with the pattern of its group, and what is to be read behind it. *)
Inductive ctx (root : list node) : list (nat * nat) -> list node -> list (list node) -> Prop :=
| ctx_root : ctx root [] root []
| ctx_child p v st i w ws j u : ctx root p v st -> v !! i = Some (NGroup w ws) -> (w :: ws) !! j = Some u ->
    ctx root (p ++ [(i, j)]) u (drop (S i) v :: st).

Lemma atoms_of_group l : atoms_of (group_of l) = l.
Proof. by destruct l as [|a [|b l]]. Qed.

Lemma group_at_app g p q : group_at g (p ++ q) = match group_at g p with Some g => group_at g q | None => None end.
Proof.
  revert g. induction p as [|[i j] p IH]; intros g; [done|]. cbn [app group_at].
  destruct (atoms_of g !! i) as [[s|vs]|]; [done| |done]. by destruct (vs !! j).
Qed.

Lemma ctx_group root p v st : ctx root p v st -> group_at (group_of (ast root)) p = Some (group_of (ast v)).
Proof.
  induction 1 as [|p v st i w ws j u _ IH Hi Hj]; [done|]. rewrite group_at_app, IH. cbn [group_at].
  rewrite atoms_of_group. unfold ast. rewrite list_lookup_fmap, Hi. cbn [fmap option_fmap option_map].
  rewrite ast_group. change (map (fun v => group_of (ast v)) (w :: ws)) with ((fun v => group_of (ast v)) <$> (w :: ws)).
  by rewrite list_lookup_fmap, Hj.
Qed.

Section Nested.
Context (root : list node).
(** No group has more atoms than its indices count. *)
Context (Hwidth : forall p v st, ctx root p v st -> length v <= u16_MAX).
Implicit Types (links : gmap (list (nat * nat)) (list (nat * nat) * nat)).

(** A call writes the words [ws], on a layout that has room for them, and keeps
    the links. *)
Definition writes (call : Links -> list bytes -> nat -> nat -> outcome (Links * list bytes * nat)) (links : Links) (ws : list bytes) : Prop :=
  forall links0 pre w mid post, links_ok links0 -> grows links links0 ->
  exists links' out counter,
    call links0 (layout pre w mid (length ws - 1) post) (length pre) (length pre + 1 + length mid) = Done (links', out, counter) /\
    written pre w mid post ws out counter /\ links_ok links' /\ grows links0 links'.

Lemma expand_nested_unfold fuel p v st links out key counter start : ctx root p v st ->
  expand_nested (S fuel) (group_of (ast root)) p links out key counter start =
  nested_atoms (expand_nested fuel (group_of (ast root))) (ast (drop start v)) start p links out key counter.
Proof.
  intros Hc. cbn [expand_nested]. rewrite (ctx_group _ _ _ _ Hc). unfold ast. rewrite <- skipn_map.

  destruct (map ast_node v) as [|a [|b l]] eqn:E; cbn [group_of].
  - by rewrite drop_nil.
  - destruct start as [|start]; [|cbn; by rewrite drop_nil]. cbn [Nat.ltb Nat.leb drop].
    destruct a as [txt|vs]; cbn [nested_atoms]; change (to_u16 0) with (@Done nat 0); cbn [obind].
    + by destruct (extend_word out key txt).
    + done.
  - destruct (Nat.leb_spec (length (a :: b :: l)) start) as [Hle|_]; [|done]. by rewrite drop_ge.
Qed.

(** The variants behind the first: each is a copy of the word and a rest. *)
Lemma nested_variants_ok rec p i us : forall j links0 pre w x mid post K,
  (forall k u, us !! k = Some u ->
    forall links, links_ok links -> entered links (p ++ [(i, S j + k)]) ->
    writes (fun links out key counter => rec (p ++ [(i, S j + k)]) links out key counter 0) links (expansions (u ++ K))) ->
  links_ok links0 -> entered links0 p ->
  exists links' out counter,
    nested_variants rec (length us) (S j) p i (S i) links0
      (layout pre (w ++ x) mid (length (flat_map (fun u => expansions (u ++ K)) us)) post) (length pre) (length pre + 1 + length mid) (length w)
      = Done (links', out, counter) /\
    out = pre ++ (w ++ x) :: mid ++ map (app w) (flat_map (fun u => expansions (u ++ K)) us) ++ post /\
    counter = length pre + 1 + length mid + length (flat_map (fun u => expansions (u ++ K)) us) /\
    links_ok links' /\ grows links0 links'.
Proof.
  induction us as [|u us IH]; intros j links0 pre w x mid post K Hrec Hl He.
  - eexists _, _, _. split; [reflexivity|]. unfold layout. cbn. split_and!; [done|lia|done|by intros q].
  - cbn [length nested_variants flat_map]. pose proof (expansions_pos (u ++ K)) as Hpos.
    set (ws := expansions (u ++ K)) in *. set (rest := flat_map _ us). rewrite length_app.
    assert (El : layout pre (w ++ x) mid (length ws + length rest) post =
      pre ++ (w ++ x) :: mid ++ [] :: replicate (length ws - 1) [] ++ replicate (length rest) [] ++ post).
    { unfold layout. rewrite (replicate_add (length ws)), <- app_assoc. destruct (length ws) as [|n]; [lia|]. cbn. by rewrite Nat.sub_0_r. }
    rewrite El. cbn [variant_key]. rewrite fork_word_ok. cbn [obind].
    pose proof (Hrec 0 u eq_refl (<[p ++ [(i, S j)] := (p, S i)]> links0)) as Hu. rewrite Nat.add_0_r in Hu.
    specialize (Hu (links_ok_insert _ _ _ _ Hl) (entered_child _ _ _ _ He)).
    destruct (Hu (<[p ++ [(i, S j)] := (p, S i)]> links0) (pre ++ (w ++ x) :: mid) w [] (replicate (length rest) [] ++ post)
      (links_ok_insert _ _ _ _ Hl) ltac:(by intros q)) as (links1 & out1 & c1 & E1 & (y & ys & Ey & -> & ->) & Hl1 & Hg1).
    assert (El2 : layout (pre ++ (w ++ x) :: mid) w [] (length ws - 1) (replicate (length rest) [] ++ post) =
      pre ++ (w ++ x) :: mid ++ w :: replicate (length ws - 1) [] ++ replicate (length rest) [] ++ post).
    { unfold layout. by rewrite <- app_assoc. }
    fold ws in E1. rewrite El2 in E1. rewrite length_app in E1. cbn [length] in E1.
    replace (length pre + S (length mid)) with (length pre + 1 + length mid) in E1 by lia.
    replace (length pre + 1 + length mid + 1 + 0) with (length pre + 1 + length mid + 1) in E1 by lia.
    rewrite E1. cbn [obind]. clear E1 El El2.
    assert (Hrec' : forall k u0, us !! k = Some u0 -> forall links, links_ok links -> entered links (p ++ [(i, S (S j) + k)]) ->
      writes (fun links out key counter => rec (p ++ [(i, S (S j) + k)]) links out key counter 0) links (expansions (u0 ++ K))).
    { intros k u0 Hk. specialize (Hrec (S k) u0 Hk). by replace (S (S j) + k) with (S j + S k) by lia. }
    assert (Hg0 : grows links0 links1) by (intros q Hq; by apply Hg1, grows_insert).
    destruct (IH (S j) links1 pre w x (mid ++ map (app w) ws) post K Hrec' Hl1 (entered_grows _ _ _ He Hg0))
      as (links2 & out2 & c2 & E2 & -> & -> & Hl2 & Hg2).
    fold ws in Ey. fold rest in E2 |- *. eexists links2, _, _. split; [|split_and!; [| |exact Hl2|intros q Hq; by apply Hg2, Hg0]].
    + etransitivity; [|exact E2]. f_equal.
      * unfold layout. rewrite Ey. cbn [map]. rewrite <- !app_assoc. cbn [app]. by rewrite <- ?app_assoc.
      * rewrite !length_app, length_map, Ey. cbn [length]. lia.
    + rewrite map_app. by rewrite <- !app_assoc.
    + rewrite !length_app, length_map. lia.
Qed.

(** A call at a position, for the layouts that the theorem is about. *)
Definition nested_from (fuel : nat) (p : list (nat * nat)) (start : nat) (links : Links) (out : list bytes) (key counter : nat) :=
  expand_nested fuel (group_of (ast root)) p links out key counter start.

(** The end of a group: up to the group around it, or the end. *)
Lemma bubble_ok fuel p v st links0 pre w mid post :
  (forall p v st links start, ctx root p v st -> links_ok links -> entered links p -> size (drop start v) + stack_size st < fuel ->
    writes (nested_from fuel p start) links (expansions (drop start v ++ concat st))) ->
  ctx root p v st -> links_ok links0 -> entered links0 p -> stack_size st < S fuel ->
  exists links' out counter,
    bubble (expand_nested fuel (group_of (ast root))) p links0 (layout pre w mid (length (expansions (concat st)) - 1) post)
      (length pre) (length pre + 1 + length mid) = Done (links', out, counter) /\
    written pre w mid post (expansions (concat st)) out counter /\ links_ok links' /\ grows links0 links'.
Proof.
  intros IH Hc Hl He Hf. unfold bubble. destruct Hc as [|p v st i u us j a Hc Hi Hj].
  - destruct (links0 !! []) as [x|] eqn:E.
    { apply Hl in E as (p & i & j & E & _). by destruct p. }
    eexists _, _, _. split; [reflexivity|]. unfold layout. cbn. split_and!; [|done|by intros q].
    exists [], []. rewrite app_nil_r. split_and!; [done..|cbn; lia].
  - destruct (He (p ++ [(i, j)]) ltac:(done) ltac:(by destruct p)) as [x Ex]. rewrite Ex.
    apply Hl in Ex as (p' & i' & j' & E & ->). apply app_inj_tail in E as [-> [= <- <-]].
    assert (Hep : entered links0 p') by (intros q Hq Hn; apply He; [by apply prefix_app_r|done]).
    rewrite stack_size_cons in Hf. cbn [concat]. apply (IH p' v st links0 (S i) Hc Hl Hep ltac:(lia) links0 pre w mid post Hl). by intros q.
Qed.

Lemma expand_nested_ok fuel : forall p v st links start, ctx root p v st -> links_ok links -> entered links p ->
  size (drop start v) + stack_size st < fuel ->
  writes (nested_from fuel p start) links (expansions (drop start v ++ concat st)).
Proof.
  induction fuel as [|fuel IH]; intros p v st links start Hc Hl He Hf; [lia|].
  assert (Hu16 : forall i, i < length v -> to_u16 i = Done i).
  { intros i Hi. unfold to_u16. specialize (Hwidth _ _ _ Hc). by rewrite (proj2 (Nat.leb_le _ _)) by lia. }
  enough (Hatoms : forall u i, drop i v = u -> size u + stack_size st < S fuel ->
    forall links0 pre w mid post, links_ok links0 -> entered links0 p ->
    exists links' out counter,
      nested_atoms (expand_nested fuel (group_of (ast root))) (ast u) i p links0
        (layout pre w mid (length (expansions (u ++ concat st)) - 1) post) (length pre) (length pre + 1 + length mid) = Done (links', out, counter) /\
      written pre w mid post (expansions (u ++ concat st)) out counter /\ links_ok links' /\ grows links0 links').
  { intros links0 pre w mid post Hl0 Hg0. unfold nested_from. rewrite (expand_nested_unfold _ _ _ _ _ _ _ _ _ Hc).
    apply Hatoms; [done|done|done|by eapply entered_grows]. }
  clear Hf Hl He links start. induction u as [|n u IHu]; intros i Ei Hs links0 pre w mid post Hl He.
  - cbn [ast map nested_atoms app]. apply (bubble_ok fuel p v st); [exact IH|done..].
  - pose proof (drop_uncons _ _ _ _ Ei) as [Hi Ei']. replace (i + 1) with (S i) in Ei' by lia.
    pose proof (lookup_lt_Some _ _ _ Hi) as Hlt. destruct n as [s|a vs].
    + cbn [ast map ast_node nested_atoms app]. rewrite (Hu16 i Hlt). cbn [obind]. unfold layout at 1. rewrite extend_word_ok. cbn [obind].
      rewrite expansions_text, length_map.
      destruct (IHu (S i) Ei' ltac:(change (size (NText s :: u)) with (size u) in Hs; lia) links0 pre (w ++ s) mid post Hl He) as (links' & out & counter & E & Hw & Hl' & Hg').
      exists links', out, counter. split; [exact E|]. split_and!; [by apply written_text|done..].
    + cbn [ast map nested_atoms]. rewrite ast_group, (Hu16 i Hlt). cbn [obind app].
      assert (Hnext : wrapping_next i = S i).
      { unfold wrapping_next. specialize (Hwidth _ _ _ Hc). by rewrite (proj2 (Nat.eqb_neq _ _)) by lia. }
      rewrite Hnext, length_map. rewrite expansions_group. unfold layout at 1. rewrite lookup_app_r, Nat.sub_diag by lia. cbn [lookup list_lookup].
      assert (Hrec : forall k b, (a :: vs) !! k = Some b -> forall links, links_ok links -> entered links (p ++ [(i, k)]) ->
        writes (nested_from fuel (p ++ [(i, k)]) 0) links (expansions (b ++ u ++ concat st))).
      { intros k b Hk links Hl' He'. pose proof (ctx_child root p v st i a vs k b Hc Hi Hk) as Hck. rewrite Ei' in Hck.
        apply (IH _ _ _ links 0 Hck Hl' He'). pose proof (size_variant _ _ _ _ Hk). rewrite stack_size_cons.
        change (size (NGroup a vs :: u)) with (size_node (NGroup a vs) + size u) in Hs. change (drop 0 b) with b; lia. }
      cbn [length nested_variants variant_key obind flat_map]. set (ws := expansions (a ++ u ++ concat st)).
      set (rest := flat_map (fun u0 => expansions (u0 ++ u ++ concat st)) vs).
      assert (Hpos : 0 < length ws) by apply expansions_pos. rewrite length_app.
      replace (layout pre w mid (length ws + length rest - 1) post) with (layout pre w mid (length ws - 1) (replicate (length rest) [] ++ post)).
      2: { unfold layout. replace (length ws + length rest - 1) with ((length ws - 1) + length rest) by lia. by rewrite replicate_add, <- app_assoc. }
      destruct (Hrec 0 a eq_refl (<[p ++ [(i, 0)] := (p, S i)]> links0) (links_ok_insert _ _ _ _ Hl) (entered_child _ _ _ _ He)
        (<[p ++ [(i, 0)] := (p, S i)]> links0) pre w mid (replicate (length rest) [] ++ post) (links_ok_insert _ _ _ _ Hl) ltac:(by intros q))
        as (links1 & out1 & c1 & E1 & (x & xs & Ex & -> & ->) & Hl1 & Hg1).
      unfold nested_from in E1. fold ws in E1, Ex. rewrite E1. cbn [obind].
      assert (Hg0 : grows links0 links1) by (intros q Hq; by apply Hg1, grows_insert).
      destruct (nested_variants_ok (expand_nested fuel (group_of (ast root))) p i vs 0 links1 pre w x (mid ++ map (app w) xs) post (u ++ concat st)
        (fun k b Hk => Hrec (S k) b Hk) Hl1 (entered_grows _ _ _ He Hg0)) as (links2 & out2 & c2 & E2 & -> & -> & Hl2 & Hg2).
      fold rest in E2. eexists links2, _, _. split; [|split_and!; [|exact Hl2|intros q Hq; by apply Hg2, Hg0]].
      * etransitivity; [|exact E2]. f_equal; [unfold layout; by rewrite <- !app_assoc|rewrite length_app, length_map; lia].
      * exists x, (xs ++ rest). rewrite Ex. split_and!; [done| |rewrite !length_app, length_map; lia].
        rewrite map_app. by rewrite <- !app_assoc.
Qed.
End Nested.

(** ** Flat patterns: the table *)

(** The entries of variants that begin at token [start]. *)
Fixpoint entries (start : nat) (us : list (list node)) : list Z :=
  match us with
  | [] => []
  | u :: us => variant_at start (start + length (toks u)) :: entries (start + length (toks u) + 1) us
  end.

(** The tokens at [i] and the table from [k] on, as [build_expansion_table] leaves
    them. *)
Fixpoint marked (k : nat) (v : list node) : list Token :=
  match v with
  | [] => []
  | NText s :: v => TText s :: marked k v
  | NGroup a vs :: v =>
      TOpen (mkVariants k (k + S (length vs))) :: toks a ++ more_toks vs ++ TClose :: marked (k + S (length vs)) v
  end.

Fixpoint table (i : nat) (v : list node) : list Z :=
  match v with
  | [] => []
  | NText s :: v => table (S i) v
  | NGroup a vs :: v => entries (S i) (a :: vs) ++ table (i + length (toks_node (NGroup a vs))) v
  end.

Lemma entries_length us : forall i, length (entries i us) = length us.
Proof. induction us as [|u us IH]; intros i; [done|]. cbn. by rewrite IH. Qed.

Lemma length_marked v : forall k, length (marked k v) = length (toks v).
Proof.
  induction v as [|[s|a vs] v IH]; intros k; [done| |].
  - change (toks (NText s :: v)) with (TText s :: toks v). cbn [marked length]. by rewrite IH.
  - change (toks (NGroup a vs :: v)) with (toks_node (NGroup a vs) ++ toks v). rewrite length_app, length_toks_group, !length_app.
    cbn [marked length]. rewrite !length_app. cbn [length]. rewrite IH. lia.
Qed.

Lemma table_length v : forall i, length (table i v) <= length (toks v).
Proof.
  induction v as [|[s|a vs] v IH]; intros i; [done| |].
  - change (toks (NText s :: v)) with (TText s :: toks v). cbn [table length]. specialize (IH (S i)). lia.
  - change (toks (NGroup a vs :: v)) with (toks_node (NGroup a vs) ++ toks v). rewrite length_app, length_toks_group, !length_app.
    cbn [table]. rewrite length_app, entries_length. specialize (IH (i + length (toks_node (NGroup a vs)))). cbn [length].
    assert (length vs <= length (more_toks vs)); [|lia]. clear. induction vs as [|u vs IH]; [done|]. cbn. rewrite length_app. unfold more_toks in IH. lia.
Qed.

Lemma table_loop_text a : has_group a = false -> forall n i l st tb r, drop i l = toks a ++ r ->
  table_loop (length (toks a) + n) i l st tb = table_loop n (i + length (toks a)) l st tb.
Proof.
  induction a as [|[s|? ?] a IH]; intros Ha n i l st tb r E; [cbn; f_equal; lia| |done].
  change (toks (NText s :: a)) with (TText s :: toks a) in *. cbn [length Nat.add app table_loop] in *. apply drop_uncons in E as [E0 E].
  unfold table_round. rewrite E0. cbn [obind]. rewrite (IH Ha _ _ _ _ _ _ E). f_equal. lia.
Qed.

Lemma table_loop_more vs : existsb has_group vs = false -> forall n i l o prev k e0 tb r,
  drop i l = more_toks vs ++ TClose :: r -> l !! o = Some (TOpen (mkVariants k e0)) -> length tb + S (length vs) <= u16_MAX -> o < i ->
  table_loop (length (more_toks vs) + S n) i l [mkBrace o prev] tb =
  table_loop n (i + length (more_toks vs) + 1) (<[o := TOpen (mkVariants k (length tb + S (length vs)))]> l) []
    (tb ++ variant_at (prev + 1) i :: entries (i + 1) vs).
Proof.
  induction vs as [|u vs IH]; intros Hv n i l o prev k e0 tb r E Eo Ht Ho.
  - cbn [more_toks flat_map app length Nat.add table_loop entries] in *. apply drop_uncons in E as [E0 _]. unfold table_round.
    rewrite E0. cbn [bs_tok_idx bs_prev_tok_end]. rewrite Eo. unfold to_u16. rewrite length_app. cbn [length].
    rewrite (proj2 (Nat.leb_le _ _)) by lia. cbn [obind ev_idx]. f_equal. lia.
  - apply orb_false_iff in Hv as [Hu Hv]. change (more_toks (u :: vs)) with (TComma :: toks u ++ more_toks vs) in *.
    cbn [app length Nat.add table_loop entries] in *. rewrite <- app_assoc in E. apply drop_uncons in E as [E0 E]. unfold table_round. rewrite E0.
    cbn [obind bs_tok_idx bs_prev_tok_end]. rewrite length_app, <- Nat.add_assoc, (table_loop_text u Hu _ _ _ _ _ _ E). apply drop_next in E.
    rewrite (IH Hv n _ l o i k e0 _ r E Eo) by (rewrite ?length_app; cbn [length]; lia). rewrite length_app, <- app_assoc. cbn [length app].
    replace (length tb + 1 + S (length vs)) with (length tb + S (S (length vs))) by lia. f_equal. lia.
Qed.

Lemma table_loop_S n i l st tb :
  table_loop (S n) i l st tb = let! (l, st, tb) := table_round i l st tb in table_loop n (i + 1) l st tb.
Proof. done. Qed.

Lemma table_loop_ok v : deep v = false -> forall n p tb r, length tb + length (table (length p) v) <= u16_MAX ->
  table_loop (length (toks v) + n) (length p) (p ++ toks v ++ r) [] tb =
  table_loop n (length p + length (toks v)) (p ++ marked (length tb) v ++ r) [] (tb ++ table (length p) v).
Proof.
  induction v as [|[s|a vs] v IH]; intros Hd n p tb r Ht.
  - cbn. by rewrite app_nil_r, Nat.add_0_r.
  - change (toks (NText s :: v)) with (TText s :: toks v). cbn [length Nat.add app table_loop marked table] in *.
    unfold table_round. rewrite lookup_app_r, Nat.sub_diag by lia. cbn [lookup list_lookup obind].
    specialize (IH Hd n (p ++ [TText s]) tb r). rewrite !length_app, <- !app_assoc in IH. cbn [length app] in IH.
    replace (length p + 1) with (S (length p)) in * by lia. rewrite IH by done. f_equal. lia.
  - change (deep (NGroup a vs :: v)) with ((has_group a || existsb has_group vs) || deep v) in Hd.
    apply orb_false_iff in Hd as [[Ha Hvs]%orb_false_iff Hd].
    change (toks (NGroup a vs :: v)) with (toks_node (NGroup a vs) ++ toks v). cbn [table] in *.
    rewrite length_app, entries_length in Ht. rewrite length_app. cbn [length] in Ht. rewrite (length_toks_group a vs) in *. rewrite toks_group.
    replace (2 + length (toks a ++ more_toks vs) + length (toks v) + n)
      with (S (length (toks a) + (length (more_toks vs) + S (length (toks v) + n)))) by (rewrite length_app; lia).
    cbn [marked]. rewrite <- !app_assoc. cbn [app]. rewrite <- !app_assoc. rewrite table_loop_S. unfold table_round at 1. cbn [app]. rewrite lookup_app_r, Nat.sub_diag by lia. cbn [lookup list_lookup]. unfold to_u16. rewrite (proj2 (Nat.leb_le _ _)) by lia.
    cbn [obind ev_end ExpansionVariants_default]. rewrite insert_app_r_alt, Nat.sub_diag by lia. cbn [list_insert insert].
    set (l := p ++ TOpen (mkVariants (length tb) 0) :: toks a ++ more_toks vs ++ TClose :: toks v ++ r).
    assert (E : drop (length p + 1) l = toks a ++ more_toks vs ++ TClose :: toks v ++ r).
    { apply (drop_next l [TOpen (mkVariants (length tb) 0)]). unfold l. by rewrite drop_app_length. }
    assert (Eo : l !! length p = Some (TOpen (mkVariants (length tb) 0))) by (unfold l; by rewrite lookup_app_r, Nat.sub_diag by lia).
    rewrite (table_loop_text a Ha _ _ _ _ _ _ E). apply drop_next in E.
    rewrite (table_loop_more vs Hvs _ _ l (length p) (length p) (length tb) 0 tb _ E Eo) by lia.
    set (k := length tb + S (length vs)).
    specialize (IH Hd n (p ++ TOpen (mkVariants (length tb) k) :: toks a ++ more_toks vs ++ [TClose])
      (tb ++ entries (S (length p)) (a :: vs)) r).
    replace (<[length p := TOpen (mkVariants (length tb) k)]> l) with
      ((p ++ TOpen (mkVariants (length tb) k) :: toks a ++ more_toks vs ++ [TClose]) ++ toks v ++ r).
    2: { unfold l. rewrite insert_app_r_alt, Nat.sub_diag by lia. cbn [list_insert insert]. rewrite <- !app_assoc. cbn [app]. by rewrite <- !app_assoc. }
    assert (Hp : length (p ++ TOpen (mkVariants (length tb) k) :: toks a ++ more_toks vs ++ [TClose]) = length p + 1 + length (toks a) + length (more_toks vs) + 1).
    { rewrite length_app. cbn [length]. rewrite !length_app. cbn. lia. }
    rewrite Hp in IH. rewrite (length_app tb), entries_length in IH. cbn [length] in IH. fold k in IH.
    rewrite length_app in *. replace (length p + (2 + (length (toks a) + length (more_toks vs)))) with (length p + 1 + length (toks a) + length (more_toks vs) + 1) in * by lia.
    change (tb ++ variant_at (length p + 1) (length p + 1 + length (toks a)) :: entries (length p + 1 + length (toks a) + 1) vs)
      with (tb ++ entries (length p + 1) (a :: vs)). replace (length p + 1) with (S (length p)) in * by lia.
    rewrite IH by lia. rewrite <- !app_assoc. cbn [app]. rewrite <- !app_assoc. cbn [app]. f_equal. lia.
Qed.

(** ** Flat patterns: the words *)

Lemma variant_bounds s e : s <= u16_MAX -> e <= u16_MAX ->
  ExpansionVariant_start (variant_at s e) = s /\ ExpansionVariant_end (variant_at s e) = e.
Proof.
  intros Hs He. unfold u16_MAX in *. unfold ExpansionVariant_start, ExpansionVariant_end, variant_at, ExpansionVariant_new.
  rewrite Z.shiftl_mul_pow2, lor_shift by lia. rewrite Z.shiftr_div_pow2 by lia. change (2 ^ 16)%Z with two16.
  rewrite Z.mod_add, Z.div_add, (Z.div_small (Z.of_nat s)), Z.add_0_l by (unfold two16; lia).
  rewrite !Z.mod_small, !Nat2Z.id by (unfold two16; lia). done.
Qed.

(** The text of a pattern with no groups. *)
Definition plain_text (a : list node) : bytes := flat_map (fun n => match n with NText s => s | NGroup _ _ => [] end) a.

Lemma expansions_plain a : has_group a = false -> expansions a = [plain_text a].
Proof. induction a as [|[s|? ?] a IH]; intros Ha; [done| |done]. by rewrite expansions_text, IH. Qed.

Section Flat.
Context (l : list Token) (tb : list Z).
Context (Hlen : length l <= u16_MAX).

(** A call writes the words [ws] on a layout with room for them. *)
Definition flat_writes (call : list bytes -> nat -> nat -> outcome (list bytes * nat)) (ws : list bytes) : Prop :=
  forall pre w mid post, exists out counter,
    call (layout pre w mid (length ws - 1) post) (length pre) (length pre + 1 + length mid) = Done (out, counter) /\
    written pre w mid post ws out counter.

(** Texts are added to the word. *)
Lemma flat_atoms_text rec a r : has_group a = false -> forall depth end_ pre w post counter,
  flat_atoms rec tb (toks a ++ r) (pre ++ w :: post) (length pre) counter depth end_ =
  flat_atoms rec tb r (pre ++ (w ++ plain_text a) :: post) (length pre) counter depth end_.
Proof.
  induction a as [|[s|? ?] a IH]; intros Ha depth end_ pre w post counter; [cbn; by rewrite app_nil_r| |done].
  change (toks (NText s :: a)) with (TText s :: toks a). cbn [app flat_atoms]. rewrite extend_word_ok. cbn [obind]. rewrite IH by done.
  cbn. by rewrite <- app_assoc.
Qed.

(** One variant. *)
Lemma expand_flat_variant fuel a r s depth pre w post counter : has_group a = false -> drop s l = toks a ++ r -> s < length l ->
  expand_flat (S fuel) l tb (pre ++ w :: post) (length pre) counter depth s (s + length (toks a)) =
  Done (pre ++ (w ++ plain_text a) :: post, counter).
Proof.
  intros Ha E Hs. pose proof (f_equal length E) as El. rewrite length_drop, length_app in El. cbn [expand_flat].
  rewrite (proj2 (Nat.leb_gt _ _)), (proj2 (Nat.ltb_ge _ _)), (proj2 (Nat.ltb_ge _ _)) by lia. cbn [orb].
  replace (s + length (toks a) - s) with (length (toks a)) by lia. rewrite E, take_app_length.
  rewrite <- (app_nil_r (toks a)). rewrite flat_atoms_text by done. done.
Qed.

(** A variant and what follows the group. *)
Definition flat_variant_ok (fuel : nat) (depth : Z) (skip end_ : nat) (K : list bytes) : Prop :=
  flat_writes (fun out key counter => expand_flat fuel l tb out key counter depth skip end_) K.

Lemma flat_variants_ok fuel depth skip end_ v r : forall us j pre w x mid post s,
  existsb has_group us = false -> (us <> [] -> drop s l = toks (hd [] us) ++ more_toks (tl us) ++ TClose :: r) ->
  flat_variant_ok (S fuel) depth skip end_ (expansions v) ->
  exists out counter,
    flat_variants (expand_flat (S fuel) l tb) (entries s us) (S j)
      (layout pre (w ++ x) mid (length (flat_map (fun u => expansions (u ++ v)) us)) post) (length pre) (length pre + 1 + length mid) depth (length w) skip end_
      = Done (out, counter) /\
    out = pre ++ (w ++ x) :: mid ++ map (app w) (flat_map (fun u => expansions (u ++ v)) us) ++ post /\
    counter = length pre + 1 + length mid + length (flat_map (fun u => expansions (u ++ v)) us).
Proof.
  induction us as [|u us IH]; intros j pre w x mid post s Hg E Hrest.
  - eexists _, _. split; [reflexivity|]. unfold layout. cbn. split; [done|lia].
  - specialize (E ltac:(done)). cbn [hd tl] in E. cbn [existsb] in Hg. apply orb_false_iff in Hg as [Hu Hg].
    cbn [entries flat_variants flat_map]. set (ws := expansions (u ++ v)). set (rest := flat_map _ us).
    assert (Hws : ws = map (app (plain_text u)) (expansions v)) by (unfold ws; by rewrite expansions_app, (expansions_plain u Hu), cross_one).
    assert (Hpos : 0 < length ws) by apply expansions_pos. rewrite length_app.
    assert (El : layout pre (w ++ x) mid (length ws + length rest) post =
      pre ++ (w ++ x) :: mid ++ [] :: replicate (length ws - 1) [] ++ replicate (length rest) [] ++ post).
    { unfold layout. rewrite (replicate_add (length ws)), <- app_assoc. destruct (length ws) as [|n]; [lia|]. cbn. by rewrite Nat.sub_0_r. }
    rewrite El. cbn [variant_key]. rewrite fork_word_ok. cbn [obind].
    pose proof (f_equal length E) as Elen. rewrite length_drop, !length_app in Elen. cbn [length] in Elen.
    destruct (variant_bounds s (s + length (toks u))) as [-> ->]; [lia..|].
    assert (Eout : pre ++ (w ++ x) :: mid ++ w :: replicate (length ws - 1) [] ++ replicate (length rest) [] ++ post =
      (pre ++ (w ++ x) :: mid) ++ w :: replicate (length ws - 1) [] ++ replicate (length rest) [] ++ post) by (by rewrite <- app_assoc).
    assert (Hkey : length pre + 1 + length mid = length (pre ++ (w ++ x) :: mid)) by (rewrite length_app; cbn [length]; lia).
    rewrite Eout, Hkey, (expand_flat_variant fuel u _ s _ _ _ _ _ Hu E) by lia. cbn [obind].
    destruct (Hrest (pre ++ (w ++ x) :: mid) (w ++ plain_text u) [] (replicate (length rest) [] ++ post)) as (out1 & c1 & E1 & Hw1).
    apply written_text in Hw1. rewrite <- Hws in Hw1. destruct Hw1 as (y & ys & Ey & -> & ->).
    unfold layout in E1. rewrite <- (length_map (app (plain_text u))), <- Hws in E1. cbn [app length] in E1. rewrite Nat.add_0_r in E1.
    rewrite E1. cbn [obind].
    assert (E' : us <> [] -> drop (s + length (toks u) + 1) l = toks (hd [] us) ++ more_toks (tl us) ++ TClose :: r).
    { intros Hne. apply drop_next in E. destruct us as [|u' us]; [done|]. cbn [hd tl].
      change (more_toks (u' :: us)) with (TComma :: toks u' ++ more_toks us) in E. rewrite <- app_comm_cons, <- app_assoc in E. by apply drop_uncons in E as [_ E]. }
    destruct (IH (S j) pre w x (mid ++ map (app w) ws) post (s + length (toks u) + 1) Hg E' Hrest) as (out2 & c2 & E2 & -> & ->).
    fold rest in E2 |- *. eexists _, _. split; [|split].
    + etransitivity; [|exact E2]. f_equal.
      * unfold layout. rewrite Ey. cbn [map]. rewrite <- !app_assoc. cbn [app]. by rewrite <- ?app_assoc.
      * rewrite !length_app, length_map, Ey. cbn [length]. lia.
    + rewrite map_app. by rewrite <- !app_assoc.
    + rewrite !length_app, length_map. cbn [length]. lia.
Qed.

Lemma entries_last u us : forall s, exists s', s' <= s + length (toks u ++ more_toks us) /\
  list.last (entries s (u :: us)) = Some (variant_at s' (s + length (toks u ++ more_toks us))).
Proof.
  revert u. induction us as [|u' us IH]; intros u s.
  - exists s. split; [lia|]. cbn [entries list.last more_toks flat_map]. by rewrite app_nil_r.
  - destruct (IH u' (s + length (toks u) + 1)) as (s' & Hs & E). exists s'.
    assert (El : s + length (toks u ++ more_toks (u' :: us)) = s + length (toks u) + 1 + length (toks u' ++ more_toks us)).
    { change (more_toks (u' :: us)) with (TComma :: toks u' ++ more_toks us). rewrite (length_app (toks u)). cbn [length]. lia. }
    rewrite El. split; [lia|]. exact E.
Qed.

Definition groups (u : list node) : nat := list_sum (map (fun n => if is_group n then 1 else 0) u).

Lemma flat_ok fuel : forall u i k, drop i l = marked k u ++ [TEof] -> drop k tb = table i u -> deep u = false -> groups u <= fuel ->
  forall depth, flat_writes (fun out key counter => flat_atoms (expand_flat fuel l tb) tb (marked k u ++ [TEof]) out key counter depth (length l)) (expansions u).
Proof.
  induction fuel as [|fuel IHf]; induction u as [|[s|a vs] u IH]; intros i k El Et Hd Hg depth pre w mid post; try (cbn in Hg; lia).
  all: try (eexists _, _; split; [reflexivity|]; exists [], []; rewrite app_nil_r; split_and!; [done..|cbn; lia]).
  all: try (cbn [marked app] in *; apply drop_uncons in El as [_ El]; rewrite Nat.add_1_r in El; cbn [table] in Et;
    rewrite expansions_text, length_map; cbn [flat_atoms]; unfold layout; rewrite extend_word_ok; cbn [obind];
    destruct (IH (S i) k El Et Hd Hg depth pre (w ++ s) mid post) as (out & counter & E & Hw);
    exists out, counter; split; [exact E|by apply written_text]).
  change (deep (NGroup a vs :: u)) with ((has_group a || existsb has_group vs) || deep u) in Hd.
  apply orb_false_iff in Hd as [[Ha Hvs]%orb_false_iff Hd].
  change (groups (NGroup a vs :: u)) with (S (groups u)) in Hg.
  cbn [marked app] in *. rewrite <- !app_assoc in *. cbn [app] in *. cbn [table] in Et.
  set (k' := k + S (length vs)) in *. cbn [flat_atoms ev_idx ev_end].
  pose proof (f_equal length Et) as Htl. rewrite length_drop, length_app, entries_length in Htl. cbn [length] in Htl.
  rewrite (proj2 (Nat.leb_le k k')), (proj2 (Nat.leb_le k' _)) by (unfold k'; lia). cbn [andb].
  replace (k' - k) with (length (entries (S i) (a :: vs))) by (rewrite entries_length; unfold k'; cbn [length]; lia).
  rewrite Et, take_app_length. destruct (entries_last a vs (S i)) as (s' & Hs' & ->).
  unfold layout at 1. rewrite lookup_app_r, Nat.sub_diag by lia. cbn [lookup list_lookup].
  set (skip := S i + length (toks a ++ more_toks vs)).
  pose proof El as [_ Eg]%drop_uncons. rewrite Nat.add_1_r in Eg. pose proof Eg as Ec. rewrite app_assoc in Ec. apply drop_next in Ec. fold skip in Ec.
  pose proof (f_equal length Eg) as Hgl. rewrite length_drop, !length_app in Hgl. cbn [length] in Hgl.
  assert (Hskip : skip = S i + (length (toks a) + length (more_toks vs))) by (unfold skip; by rewrite length_app).
  rewrite length_app in Hs'. destruct (variant_bounds s' skip) as [_ ->]; [lia..|].
  assert (Hrest : forall depth, flat_variant_ok (S fuel) depth skip (length l) (expansions u)).
  { intros depth' pre' w' mid' post'. cbn [expand_flat].
    rewrite (proj2 (Nat.leb_gt _ _)), (proj2 (Nat.ltb_ge _ _)), (proj2 (Nat.ltb_ge _ _)) by lia. cbn [orb].
    rewrite (take_ge (drop skip l)) by (rewrite length_drop; lia). rewrite Ec. cbn [flat_atoms].
    apply drop_uncons in Ec as [_ Ec]. apply (IHf u (skip + 1) k' Ec); [|done|lia].
    unfold k'. rewrite <- (entries_length (a :: vs) (S i) : _ = S (length vs)). apply drop_next in Et. rewrite Et. f_equal.
    rewrite length_toks_group. unfold skip. lia. }
  rewrite expansions_group. cbn [entries flat_variants variant_key obind flat_map]. set (ws := expansions (a ++ u)).
  set (rest := flat_map (fun b => expansions (b ++ u)) vs).
  assert (Hws : ws = map (app (plain_text a)) (expansions u)) by (unfold ws; by rewrite expansions_app, (expansions_plain a Ha), cross_one).
  assert (Hpos : 0 < length ws) by apply expansions_pos. rewrite length_app.
  replace (layout pre w mid (length ws + length rest - 1) post) with (layout pre w mid (length ws - 1) (replicate (length rest) [] ++ post)).
  2: { unfold layout. replace (length ws + length rest - 1) with ((length ws - 1) + length rest) by lia. by rewrite replicate_add, <- app_assoc. }
  destruct (variant_bounds (S i) (S i + length (toks a))) as [-> ->]; [lia..|].
  unfold layout at 1. rewrite (expand_flat_variant fuel a _ (S i) _ _ _ _ _ Ha Eg) by lia. cbn [obind].
  destruct (Hrest (as_u8 (depth + 1)) pre (w ++ plain_text a) mid (replicate (length rest) [] ++ post)) as (out1 & c1 & E1 & Hw1).
  apply written_text in Hw1. rewrite <- Hws in Hw1. destruct Hw1 as (x & xs & Ex & -> & ->).
  unfold layout in E1. rewrite <- (length_map (app (plain_text a))), <- Hws in E1. rewrite E1. cbn [obind].
  destruct (flat_variants_ok fuel (as_u8 (depth + 1)) skip (length l) u (marked k' u ++ [TEof]) vs 0 pre w x (mid ++ map (app w) xs) post
    (S i + length (toks a) + 1) Hvs) as (out2 & c2 & E2 & -> & ->); [|apply Hrest|].
  { intros Hne. apply drop_next in Eg. destruct vs as [|b vs]; [done|]. cbn [hd tl].
    change (more_toks (b :: vs)) with (TComma :: toks b ++ more_toks vs) in Eg. rewrite <- app_comm_cons, <- app_assoc in Eg. by apply drop_uncons in Eg as [_ Eg]. }
  fold rest in E2. eexists _, _. split.
  - etransitivity; [|exact E2]. f_equal; [unfold layout; by rewrite <- !app_assoc|rewrite length_app, length_map; lia].
  - exists x, (xs ++ rest). rewrite Ex. split_and!; [done| |rewrite !length_app, length_map; fold rest; lia].
    rewrite map_app. by rewrite <- !app_assoc.
Qed.
End Flat.

(** ** Sizes *)

Fixpoint count_node (n : node) : nat :=
  match n with
  | NText _ => 0
  | NGroup v vs => 1 + list_sum (map count_node v) + list_sum (map (fun v => list_sum (map count_node v)) vs)
  end.

(** The number of groups of a pattern, at every depth. *)
Definition group_count (v : list node) : nat := list_sum (map count_node v).

Lemma count_group v vs : count_node (NGroup v vs) = 1 + group_count v + list_sum (map group_count vs).
Proof. done. Qed.

Lemma group_count_cons n v : group_count (n :: v) = count_node n + group_count v.
Proof. done. Qed.

(** The open braces among tokens. *)
Definition open_count (l : list Token) : nat := length (filter (fun t => is_open t = true) l).

Lemma open_count_app l r : open_count (l ++ r) = open_count l + open_count r.
Proof. unfold open_count. by rewrite filter_app, length_app. Qed.

Lemma open_count_toks v : open_count (toks v) = group_count v.
Proof.
  assert (Hlist : forall w, Forall (fun n => open_count (toks_node n) = count_node n) w -> open_count (toks w) = group_count w).
  { induction 1 as [|n w Hn _ IH]; [done|]. change (toks (n :: w)) with (toks_node n ++ toks w). by rewrite open_count_app, Hn, IH. }
  apply Hlist, Forall_true. intros n. induction n as [s|a vs Ha Hvs] using node_nested_ind; [done|].
  rewrite toks_group, count_group. change (TOpen ?d :: ?l) with ([TOpen d] ++ l). rewrite !open_count_app, (Hlist a Ha).
  change (open_count [TOpen _]) with 1. change (open_count [TClose]) with 0.
  enough (open_count (more_toks vs) = list_sum (map group_count vs)) as -> by lia.
  induction Hvs as [|u vs Hu _ IH]; [done|]. change (more_toks (u :: vs)) with ([TComma] ++ toks u ++ more_toks vs).
  rewrite !open_count_app, (Hlist u Hu), IH. done.
Qed.

Lemma size_count v : size v = 2 * group_count v.
Proof.
  assert (Hlist : forall w, Forall (fun n => size_node n = 2 * count_node n) w -> size w = 2 * group_count w).
  { induction 1 as [|n w Hn _ IH]; [done|]. change (size (n :: w)) with (size_node n + size w). rewrite group_count_cons. lia. }
  apply Hlist, Forall_true. intros n. induction n as [s|a vs Ha Hvs] using node_nested_ind; [done|].
  rewrite size_group, count_group, (Hlist a Ha). enough (list_sum (map size vs) = 2 * list_sum (map group_count vs)) by lia.
  induction Hvs as [|u vs Hu _ IH]; [done|].
  change (list_sum (map size (u :: vs))) with (size u + list_sum (map size vs)).
  change (list_sum (map group_count (u :: vs))) with (group_count u + list_sum (map group_count vs)). rewrite (Hlist u Hu). lia.
Qed.

Lemma groups_count v : groups v <= group_count v.
Proof.
  induction v as [|[s|a vs] v IH]; [done|exact IH|]. rewrite group_count_cons, count_group.
  change (groups (NGroup a vs :: v)) with (S (groups v)). lia.
Qed.

Lemma open_count_length l : open_count l <= length l.
Proof. apply length_filter. Qed.

(** *** The width of groups *)

Lemma groups_join_text s v : groups (join_text s v) = groups v.
Proof. by destruct v as [|[] v]. Qed.

(** Texts are merged, so that every other atom is a group. *)
Lemma merge_width v : length (merge v) <= 2 * groups (merge v) + (match merge v with NText _ :: _ => 1 | _ => 0 end).
Proof.
  induction v as [|[s|a vs] v IH]; [done| |].
  - change (merge (NText s :: v)) with (join_text s (merge v)). rewrite groups_join_text.
    destruct (merge v) as [|[t|? ?] m]; cbn [join_text length] in *; lia.
  - rewrite merge_group. change (groups (NGroup (merge a) (map merge vs) :: merge v)) with (S (groups (merge v))). cbn [length].
    destruct (merge v) as [|[t|? ?] m]; cbn [length] in *; lia.
Qed.

Lemma merge_group_elem v : forall i a vs, merge v !! i = Some (NGroup a vs) -> exists a' vs', a = merge a' /\ vs = map merge vs'.
Proof.
  induction v as [|[s|a0 vs0] v IH]; intros i a vs E; [done| |].
  - change (merge (NText s :: v)) with (join_text s (merge v)) in E. destruct (merge v) as [|[t|a1 vs1] m] eqn:Em; cbn [join_text] in E.
    + by destruct i.
    + destruct i as [|i]; [done|]. by apply (IH (S i)).
    + destruct i as [|i]; [done|]. by apply (IH i).
  - rewrite merge_group in E. destruct i as [|i]; [injection E as <- <-; by eexists _, _|by apply (IH i)].
Qed.

Lemma ctx_merged r p v st : ctx (merge r) p v st -> exists r', v = merge r'.
Proof.
  induction 1 as [|p v st i w ws j u _ [r' ->] Hi Hj]; [by exists r|].
  apply merge_group_elem in Hi as (a' & vs' & -> & ->). destruct j as [|j]; [injection Hj as <-; by eexists|].
  change ((merge <$> vs') !! j = Some u) in Hj. rewrite list_lookup_fmap in Hj.
  destruct (vs' !! j); [|done]. injection Hj as <-. by eexists.
Qed.

Lemma group_count_elem v i n : v !! i = Some n -> count_node n <= group_count v.
Proof.
  revert i. induction v as [|m v IH]; intros [|i] E; [done|done| |]; rewrite group_count_cons.
  - injection E as ->. lia.
  - specialize (IH i E). lia.
Qed.

Lemma ctx_group_count root p v st : ctx root p v st -> group_count v <= group_count root.
Proof.
  induction 1 as [|p v st i w ws j u _ IH Hi Hj]; [done|]. apply group_count_elem in Hi. rewrite count_group in Hi.
  enough (group_count u <= group_count w + list_sum (map group_count ws)) by lia.
  destruct j as [|j]; [injection Hj as ->; lia|]. cbn in Hj. enough (group_count u <= list_sum (map group_count ws)) by lia.
  clear -Hj. revert j Hj. induction ws as [|w' ws IH]; intros [|j] Hj; [done|done| |].
  - injection Hj as ->. change (group_count u <= group_count u + list_sum (map group_count ws)). lia.
  - specialize (IH j Hj). change (group_count u <= group_count w' + list_sum (map group_count ws)). lia.
Qed.

Lemma ctx_width r p v st : group_count (merge r) <= MAX_BRACE_GROUPS -> ctx (merge r) p v st -> length v <= u16_MAX.
Proof.
  intros Hg Hc. pose proof (ctx_group_count _ _ _ _ Hc). apply ctx_merged in Hc as [r' ->].
  pose proof (merge_width r'). pose proof (groups_count (merge r')). unfold u16_MAX, MAX_BRACE_GROUPS in *.
  destruct (merge r') as [|[] ?]; lia.
Qed.

(** ** The expansion *)

Lemma check_count v : check_brace_group_count (toks v ++ [TEof]) = if MAX_BRACE_GROUPS <? group_count v then inl TooManyBraces else inr tt.
Proof.
  unfold check_brace_group_count. change (length (filter _ (toks v ++ [TEof]))) with (open_count (toks v ++ [TEof])).
  rewrite open_count_app, open_count_toks. change (open_count [TEof]) with 0. by rewrite Nat.add_0_r.
Qed.

Lemma layout_start (ws : list bytes) : 0 < length ws -> layout [] [] [] (length ws - 1) [] = replicate (length ws) [].
Proof. intros H. unfold layout. destruct (length ws) as [|n]; [lia|]. cbn. by rewrite app_nil_r, Nat.sub_0_r. Qed.

Lemma written_start ws out counter : written [] [] [] [] ws out counter -> out = ws.
Proof. intros (x & xs & -> & -> & _). cbn. by rewrite app_nil_r, map_id. Qed.

Lemma expand_nested_words r : let v := merge r in group_count v <= MAX_BRACE_GROUPS ->
  expand (toks v ++ [TEof]) (replicate (length (expansions v)) []) true = Done (inr (expansions v)).
Proof.
  intros v Hg. unfold expand. rewrite check_count. cbn [negb]. unfold Parser_parse. rewrite check_count.
  rewrite (proj2 (Nat.ltb_ge _ _)) by done.
  rewrite (parse_loop_ok v (parse_fuel (toks v ++ [TEof])) _ 0 []) by (done || (unfold parse_fuel; rewrite length_app; lia)). cbn [obind app].
  pose proof (open_count_length (toks v)) as Ho. rewrite open_count_toks in Ho.
  destruct (expand_nested_ok v (fun p u st => ctx_width r p u st Hg) (expand_fuel (toks v ++ [TEof])) [] v [] ∅ 0 (ctx_root v)) with
    (links0 := (∅ : gmap (list (nat * nat)) (list (nat * nat) * nat))) (pre := @nil bytes) (w := @nil Z) (mid := @nil bytes) (post := @nil bytes)
    as (links & out & counter & E & Hw & _).
  - intros q x Hq. by rewrite lookup_empty in Hq.
  - intros q Hq Hn. by apply prefix_nil_inv in Hq.
  - change (drop 0 v) with v. rewrite size_count. unfold expand_fuel, stack_size. rewrite length_app. cbn. lia.
  - intros q x Hq. by rewrite lookup_empty in Hq.
  - by intros q.
  - change (drop 0 v ++ concat []) with (v ++ []) in *. rewrite app_nil_r in *. unfold nested_from in E.
    rewrite layout_start in E by apply expansions_pos. cbn [length Nat.add] in E. rewrite E. cbn [obind].
    by rewrite (written_start _ _ _ Hw).
Qed.

Lemma expand_flat_words v : deep v = false -> group_count v <= MAX_BRACE_GROUPS -> length (toks v) < u16_MAX ->
  expand (toks v ++ [TEof]) (replicate (length (expansions v)) []) false = Done (inr (expansions v)).
Proof.
  intros Hd Hg Hl. unfold expand. rewrite check_count. rewrite (proj2 (Nat.ltb_ge _ _)) by done. cbn [negb].
  unfold build_expansion_table. rewrite length_app. cbn [length]. rewrite (proj2 (Nat.ltb_ge _ _)) by lia.
  pose proof (table_length v 0) as Ht. pose proof (table_loop_ok v Hd 1 [] [] [TEof] ltac:(cbn [length]; lia)) as Et.
  cbn [length app Nat.add] in Et. rewrite Et. clear Et.
  rewrite table_loop_S. unfold table_round. rewrite lookup_app_r, length_marked, Nat.sub_diag by (rewrite length_marked; lia).
  cbn [lookup list_lookup obind table_loop].
  assert (Hlm : length (marked 0 v ++ [TEof]) = length (toks v) + 1) by (by rewrite length_app, length_marked).
  pose proof (open_count_length (toks v)) as Ho. rewrite open_count_toks in Ho. pose proof (groups_count v).
  unfold expand_fuel. cbn [expand_flat]. rewrite Hlm. rewrite (proj2 (Nat.leb_gt _ _)), (proj2 (Nat.ltb_ge _ _)) by lia. cbn [orb Nat.ltb Nat.leb].
  rewrite Nat.sub_0_r. change (drop 0 (marked 0 v ++ [TEof])) with (marked 0 v ++ [TEof]). rewrite (take_ge (marked 0 v ++ [TEof])) by lia.
  destruct (flat_ok (marked 0 v ++ [TEof]) (table 0 v) ltac:(lia) (2 * (length (toks v) + 1)) v 0 0 eq_refl eq_refl Hd ltac:(lia) 0%Z [] [] [] [])
    as (out & counter & E & Hw).
  rewrite layout_start in E by apply expansions_pos. rewrite Hlm in E. cbn [length] in E. change (0 + 1 + 0) with 1 in E. rewrite E. cbn [obind].
  by rewrite (written_start _ _ _ Hw).
Qed.

(** What the words of a text come to. *)
Definition expected (v : list node) : BracesResult :=
  if negb (has_group v) then Unchanged
  else if (MAX_BRACE_EXPANSIONS <? amount v)%Z then TooManyExpansions (sat (amount v))
  else if MAX_BRACE_GROUPS <? group_count v then Failed TooManyBraces
  else if negb (deep v) && (u16_MAX <=? length (toks v)) then Failed UnexpectedToken
  else Words (expansions v).

Lemma expand_too_long v out : group_count v <= MAX_BRACE_GROUPS -> u16_MAX <= length (toks v) ->
  expand (toks v ++ [TEof]) out false = Done (inl UnexpectedToken).
Proof.
  intros Hg Hl. unfold expand. rewrite check_count. rewrite (proj2 (Nat.ltb_ge _ _)) by done. cbn [negb].
  unfold build_expansion_table. rewrite length_app. cbn [length]. by rewrite (proj2 (Nat.ltb_lt _ _)) by lia.
Qed.

Lemma braces_expected e src r : let v := merge r in tokenize e src = Done (mkLexed (toks v ++ [TEof]) (deep v)) ->
  braces e src = Done (expected v).
Proof.
  intros v E. unfold braces. rewrite E. cbn [obind lo_tokens lo_contains_nested]. rewrite calculate_expanded_amount_ok. cbn [obind].
  unfold expected. destruct (has_group v); cbn [negb]; [|done]. pose proof (amount_pos v) as Hp.
  assert (Hsat : sat (amount v) <> 0%Z /\ (MAX_BRACE_EXPANSIONS <? sat (amount v))%Z = (MAX_BRACE_EXPANSIONS <? amount v)%Z).
  { unfold sat, u32_MAX, two32, MAX_BRACE_EXPANSIONS. split; [lia|]. destruct (Z.ltb_spec 65536 (amount v)), (Z.ltb_spec 65536 (Z.min (4294967296 - 1) (amount v))); lia. }
  destruct Hsat as [H0 ->]. rewrite (proj2 (Z.eqb_neq _ _) H0). destruct (Z.ltb_spec MAX_BRACE_EXPANSIONS (amount v)) as [_|Hle]; [done|].
  assert (Hn : Z.to_nat (sat (amount v)) = length (expansions v)).
  { unfold sat, amount, u32_MAX, two32, MAX_BRACE_EXPANSIONS in *. lia. }
  rewrite Hn. destruct (Nat.ltb_spec MAX_BRACE_GROUPS (group_count v)) as [Hg|Hg].
  { unfold expand. rewrite check_count. by rewrite (proj2 (Nat.ltb_lt _ _)). }
  destruct (deep v) eqn:Hd; cbn [negb andb]; [pose proof (expand_nested_words r Hg) as Ew; cbv zeta in Ew; fold v in Ew; by rewrite Ew|].
  destruct (Nat.leb_spec u16_MAX (length (toks v))) as [Hl|Hl]; [by rewrite expand_too_long|by rewrite expand_flat_words].
Qed.

(** C12: the expansion of every text, of bytes or of code points. It never panics
    and ends; it leaves a text without groups as it is, and otherwise gives
    exactly the words of the pattern, in their order, in as many slots as were
    counted, unless there are more than 65536 words or 256 groups, or 65535 tokens
    without a group in a group. The flat way through the table and the nested way
    through the tree with its links give the same. *)
Theorem braces_correct (e : StringEncoding) (cs : list Z) :
  Forall (is_char e) cs -> (Z.of_nat (length (encoded e cs)) + 1 < two32)%Z ->
  braces e (encoded e cs) = Done (expected (read e (input_of cs))).
Proof.
  intros Hcs Hb. pose proof (tokenize_read e cs Hcs Hb) as E. unfold read in *.
  destruct (foldl (fun (r : reading) (c : InputChar) => read_step e c r) ([], []) (input_of cs)) as [top st].
  by apply braces_expected.
Qed.

(** C28: the lexer takes every text apart without loss: the tokens are those of a
    pattern, in which braces are balanced and texts merged, and their texts
    together are the characters of the text, less the escapes. *)
Theorem tokenize_lossless (e : StringEncoding) (cs : list Z) :
  Forall (is_char e) cs -> (Z.of_nat (length (encoded e cs)) + 1 < two32)%Z ->
  exists v, tokenize e (encoded e cs) = Done (mkLexed (toks v ++ [TEof]) (deep v)) /\ merge v = v /\
    flat_map Token_to_text (toks v) = flat_map (fun c => char_bytes e c.(ic_char)) (input_of cs).
Proof.
  intros Hcs Hb. exists (read e (input_of cs)). split_and!; [by apply tokenize_read| |apply text_of_read].
  unfold read. destruct (foldl _ _ _) as [top st]. apply merge_idem.
Qed.

(** [a{b,{c,d}e}\,{f] *)
Definition sample_pattern : bytes := [97; 123; 98; 44; 123; 99; 44; 100; 125; 101; 125; 92; 44; 123; 102]%Z.

Lemma braces_correct_witness :
  braces EncAscii sample_pattern = Done (Words [[97; 98; 44; 123; 102]; [97; 99; 101; 44; 123; 102]; [97; 100; 101; 44; 123; 102]]%Z) /\
  braces EncAscii sample_pattern = Done (expected (read EncAscii (input_of sample_pattern))).
Proof.
  split; [vm_compute; reflexivity|]. apply (braces_correct EncAscii sample_pattern); [|vm_compute; reflexivity].
  apply (bool_decide_unpack (is_bytes sample_pattern)). vm_compute. exact I.
Defined.

Lemma tokenize_lossless_witness :
  exists v, tokenize EncWtf8 (encoded EncWtf8 [123; 0x20AC; 44; 125]%Z) = Done (mkLexed (toks v ++ [TEof]) (deep v)) /\
    flat_map Token_to_text (toks v) = [123; 226; 130; 172; 44; 125]%Z.
Proof.
  destruct (tokenize_lossless EncWtf8 [123; 0x20AC; 44; 125]%Z) as (v & E & _ & Et).
  - apply (bool_decide_unpack (Forall is_code_point [123; 0x20AC; 44; 125]%Z)). vm_compute. exact I.
  - vm_compute. reflexivity.
  - exists v. split; [exact E|]. rewrite Et. vm_compute. reflexivity.
Defined.

(** ** Observations *)

(** A backslash at the end of a text is lost when there is a group, and kept when
    there is none: [{a,b}\] gives [a] and [b]. *)
Lemma trailing_backslash_lost :
  braces EncAscii [123; 97; 44; 98; 125; 92]%Z = Done (Words [[97]; [98]]%Z) /\ braces EncAscii [97; 92]%Z = Done Unchanged.
Proof. split; vm_compute; reflexivity. Qed.

(** A group of 32768 variants of one letter. *)
Definition wide_group : list node := [NGroup [NText [97%Z]] (replicate (Z.to_nat 32767) [NText [97%Z]])].

(** Its words are half of what is allowed, but its tokens are too many for the
    table: the error is the one that the shell takes for a bug of the parser. *)
Lemma wide_group_fails out : amount wide_group = 32768%Z /\
  expand (toks wide_group ++ [TEof]) out (deep wide_group) = Done (inl UnexpectedToken).
Proof.
  assert (Hrep : forall n, amounts (replicate n [NText [97%Z]]) = Z.of_nat n /\ length (more_toks (replicate n [NText [97%Z]])) = 2 * n /\
    list_sum (map group_count (replicate n [NText [97%Z]])) = 0 /\ existsb has_group (replicate n [NText [97%Z]]) = false).
  { induction n as [|n (H1 & H2 & H3 & H4)]; [done|]. cbn [replicate]. rewrite amounts_cons, H1. change (amount [NText [97%Z]]) with 1%Z.
    split_and!; [lia| |exact H3|exact H4]. change (2 + length (more_toks (replicate n [NText [97%Z]])) = 2 * S n). lia. }
  destruct (Hrep (Z.to_nat 32767)) as (H1 & H2 & H3 & H4). unfold wide_group. set (vs := replicate _ _) in *. split.
  - rewrite amount_cons, words_group_length, amounts_cons, H1. change (amount [NText [97%Z]]) with 1%Z. change (amount []) with 1%Z. lia.
  - assert (Hd : deep [NGroup [NText [97%Z]] vs] = false).
    { change (((has_group [NText [97%Z]] || existsb has_group vs) || false) = false). by rewrite H4. }
    rewrite Hd. apply expand_too_long.
    + rewrite group_count_cons, count_group, H3. unfold MAX_BRACE_GROUPS. cbn. lia.
    + change (toks [NGroup [NText [97%Z]] vs]) with (toks_node (NGroup [NText [97%Z]] vs) ++ []). rewrite app_nil_r, length_toks_group, length_app, H2.
      unfold u16_MAX. cbn. lia.
Qed.
